(* ===== verification/_CoqProject ===== *)
-Q . S2P
Prelude.v
Api.v
EffectTree.v
Programs.v
Effects.v
Forward.v
Plan.v
Supervisor.v
FiberLaws.v
FiberProperties.v
FiberLiveness.v
Context.v
Registry.v
Events.v
Ledger.v
Revert.v
Entries.v
Diff.v
Cycles.v
Quarantine.v
Document.v
Loader.v
Reconcile.v
Gate.v
Amend.v
Waits.v
Text.v
Paths.v
Grants.v
Broker.v
Seat.v
Disk.v
Spill.v
HostFs.v
Topics.v
Alarms.v
Settle.v
Slot.v
Swap.v
Wire.v
Sha256.v
Handles.v
Streams.v
Process.v
Keystore.v
Http.v
Outbound.v
Net.v
GuestWire.v
Instance.v
Json.v
Profile.v
ProfileAdmin.v
