(* ===== verification/Prelude.v ===== *)
(** * The jinnd kernel: a verification library

    jinnd runs plugins under supervision. This library models its kernel, the
    crates [jinnd-effects], [jinnd-fiber], [jinnd-context], [jinnd-registry],
    [jinnd-events] and [jinnd-ledger] with the contract types of [jinnd-api];
    the profile loader [jinnd-loader]; the component host [jinnd-wasm], from
    the task around an instance to the broker, the grants, the tables, the
    seats, the swaps and the file, process, network and key-store providers;
    and, of [jinnd-daemon], the two contracts that edit the profile. It proves
    what makes each of them correct. Paths below are under [src/crates/].

    ** How the parts interact

    A plugin instance is a _fiber_. Its supervisor task runs one transition at
    a time (load, unload, finish), chosen by a planner from what was committed
    and what is desired; callers, fault reports and a readiness signal only
    move the target in a shared steering cell. An activation registers
    reversible _effects_ in the fiber's scope; unloading drains them and
    replays their inverses, contained against panics. Services are provided
    into a _registry_ of slots and leased by dependents; which slot a name
    means is resolved through a tree of _contexts_ and realms, and the
    providers a plugin depends on make up the epoch its readiness signal
    publishes. Listeners are dispatched by the _event bus_. Whatever crosses
    the kernel's boundary is appended to the _ledger_, over which the _revert
    lane_ runs inverses exactly once per key, across process deaths.

    Which fibers there are is written in a _profile document_. The _loader_
    charts it into a tree of entries, quarantines the members of dependency
    cycles, compares it with what runs and steps each entry from the one to
    the other by identity; an amendment, a disposal or an administration of one
    entry moves the document, the store and the fiber together.

    A WASM entry is one such fiber whose body seats a guest _instance_. Its
    grants become the authority the _broker_ enforces at each crossing between
    instances; the injection gate turns its declared services into the
    readiness of its fiber. What the guest registers (listeners, alarms,
    provisions, effects of its own and of the file provider) is the _journal_
    of its _seat_, over which the seat is retired, suspended or replaced. A
    _swap_ moves every entry of an artifact to another in one step. Crossings
    that wait for each other go through the _wait graph_. The world outside is
    reached through the host _providers_, each a peer of the broker with a table
    of handles: files, whose inverses are spilled to disk; child processes and
    their streams; outbound calls and sockets; and the sealed key store. The
    profile is edited from inside through the daemon's profile contracts, which
    decide who may write what before the loader moves.

    ** Which file models what

    - [Prelude] (this file): results, [u64] arithmetic with its wrap-around,
      transition systems and their invariant rule, list lemmas, automation.
    - [Api]: identities, errors, lifecycle and service vocabulary, and the
      ledger's event kinds ([jinnd-api/src]).
    - [EffectTree]: the record forest of a scope and the explicit-stack walks
      over it ([jinnd-effects/src/tree.rs]).
    - [Programs]: plugin code as futures polled over a world, their panics and
      destructors, inverses ([disposer.rs], [undo.rs], [contain.rs],
      [report.rs]) and the driver of one withdrawal ([withdrawal.rs]).
    - [Effects]: scopes: registration, detaching, drain, replay and suspend
      turn by turn, and a teardown dropped half way ([scope.rs], [drain.rs],
      [suspend.rs], [withdrawal.rs]).
    - [Forward]: forward effects and their rollback ([forward.rs]).
    - [Plan]: the planner, the oracle that tells callers what a fiber owes,
      and every critical section of the steering cell
      ([jinnd-fiber/src/{plan,owed,steering}.rs]).
    - [Supervisor]: the supervisor instruction by instruction, the callers of
      a fiber's handle and of its fault sinks as threads, the readiness signal
      and the wake-up permit as inputs: one executable machine
      ([supervisor.rs], [supervisor/*.rs], [landing.rs], [shared.rs],
      [fiber.rs], [body.rs], [contain.rs]). A step is one critical section,
      one store or one await; [fiber_run] interleaves them freely.
    - [FiberLaws], [FiberProperties]: the invariants of that machine, and what
      a fiber promises; [FiberLiveness]: that it comes to rest.
    - [Context]: interners, layers, derivation, realms and resolution
      ([jinnd-context/src]).
    - [Registry]: slots, leases, vitality, provision, resolution, epochs, and
      the interleaving of provisions, withdrawals and guards
      ([jinnd-registry/src]).
    - [Events]: the listener table and the five walks, over arbitrary plugin
      code ([jinnd-events/src]).
    - [Ledger]: the writer thread, its channel and its statements
      ([jinnd-ledger/src/{store,writer}.rs], [writer/query.rs]), over classes
      for SQLite ([Database], [DatabaseLaws]) and the JSON codec ([Codec],
      [CodecLaws]); [EventLog] is what it promises its clients.
    - [Revert]: the branch table, hydration and the two protocols as threads
      over any [EventLog] ([claim.rs], [hydrate.rs], [revert.rs]).

    The loader ([jinnd-loader/src]):
    - [Entries]: profiles and the chart of their entries ([tree.rs]).
    - [Diff]: the pure plan between two documents ([diff.rs]); [Cycles]: the
      iterative search for strongly connected components ([cycles.rs]);
      [Quarantine]: the dependency graph of a profile and what is kept back.
    - [Document]: directives, resolving, merging, amending and rendering of
      documents ([document.rs], [raw.rs]).
    - [Loader]: the steps of a plan and [reconcile], over any lanes, handles,
      contexts and store ([loader.rs], [state.rs], [apply.rs], [rebind.rs],
      [lanes.rs], [proxy.rs], [store.rs]); [Reconcile]: that it converges.
    - [Gate]: the engagement cell under interleaving and the refusals
      ([gate.rs], [refuse.rs]).
    - [Amend]: amendments, disposals and administrations ([amend.rs],
      [dispose.rs], [administer.rs], [administer/*.rs]).

    The component host ([jinnd-wasm/src]):
    - [Waits]: the wait graph ([waits.rs]); [Text]: string scanning as the
      parsers use it; [Paths]: the containment of paths ([hostfs/scope.rs]).
    - [Grants]: admission, scopes with their parsers, operation classes
      ([grants.rs], [grants/*.rs]); [Broker]: peers, provisions, handles,
      grants and both call paths ([broker.rs], [broker_state.rs],
      [broker/*.rs]); [Seat]: the admission of a seat and the injection gate
      ([lane.rs], [lane/injects.rs]).
    - [Disk]: a disk whose writes can fail, tear and be lost by a crash, and
      the staged commit; [Spill]: the inverse store on it
      ([hostfs/retention.rs], [retention/wire.rs]); [HostFs]: the file effects
      and their withdrawal ([hostfs.rs], [hostfs/{ops,inverses}.rs]).
    - [Topics]: listeners, tombstones, walks and published payloads
      ([topics.rs], [topics/*.rs], [selector.rs]); [Alarms]: the alarm table
      and its timers ([alarms.rs], [alarms/table.rs]); [Settle]: deadlines in
      active time ([settle.rs]).
    - [Slot]: journals, and how a seat is retired, suspended, committed,
      unwound and disposed ([handle.rs], [slot.rs], [slot/*.rs],
      [lane/{journal,commit,closing}.rs], [entry.rs]), over the tables of
      [Broker], [Topics] and [Alarms]; [Swap]: batches, activations and
      disposals interleaved over the phases of their slots ([swap.rs],
      [lane_swap.rs]).
    - [Instance]: the task around a guest, its commands, what the guest
      registers while it runs and who it is handed on to ([instance.rs],
      [instance/*.rs], [handle.rs], [handle/*.rs], [surfaces.rs],
      [hostcaps.rs]); [Sha256]: the digest artifacts are pinned by
      ([sha256.rs]).
    - [Wire]: the formats of the host contracts ([hostwire.rs],
      [hostfs/wire.rs], [hostcaps/procnet.rs]); [GuestWire]: what a guest
      writes and makes of answers ([hostcaps/procnet/*.rs]).
    - [Handles]: the table of rows the process and network providers share
      ([hostbase.rs]); [Streams]: rings, pumps, feeders and collectors
      ([hostprocess/{ring,stream,collector}.rs]); [Process]: spawns, operations,
      supervisors, withdrawals and one-shot runs ([hostprocess.rs],
      [hostprocess/*.rs]).
    - [Http]: URLs, heads and bodies read in pieces; [Outbound]: the admission
      of a call and of its redirect, and its record; [Net]: sockets and the
      tasks that announce them, interleaved ([hostnet.rs], [hostnet/*.rs]).
    - [Keystore]: the sealed document, its two effects and their withdrawal
      ([hostkeystore.rs], [hostkeystore/*.rs]), over classes for the cipher and
      the key derivation.

    The daemon ([jinnd-daemon/src]):
    - [Json]: JSON values and merge patches ([daemon/profile_cap/patch.rs]).
    - [Profile]: what a config makes of a seat ([seat.rs],
      [seat/declaration.rs]), reads and patches ([daemon/profile_read.rs],
      [daemon/profile_cap.rs], [daemon/wire.rs]); [ProfileAdmin]: the writes of
      an administrator ([daemon/profile_admin_cap.rs],
      [daemon/profile_admin_cap/*.rs]), over [Loader] and [Amend].

    ** What the theorems show

    - Fibers ([FiberProperties]): transitions never overlap; the published
      history is a walk of the lifecycle; between transitions a fiber that is
      not active contributes nothing; an unload reports one line for each
      effect it had published, in reverse order; the rest bit is truthful; a
      disposal or suspension returns only once it is over; and, left without
      new input, a fiber always comes to rest with every call returned,
      however its steps are ordered ([FiberLiveness]).
    - Planner ([Plan]): at most two transitions lead to rest; a failed
      transition is not retried for the same target; a promised reload comes.
    - Effects: the explicit-stack walks equal the recursive definitions; every
      teardown ends, one dropped half way loses nothing, and a clean report
      means that everything was drained and undone; polling reaches what
      awaiting means; a forward effect of exact actions installs all or none.
    - Contexts, registry, events: resolution stays in its realm and the
      nearest frame decides; a provision resolves, never changes hands while
      it is live, and outlives every lease; an epoch names the live providers;
      every listener is visited in order whatever fails, at most once when
      registered so; bail and waterfall equal their reference walks.
    - Ledger and reverts: receipts are durable and ordered, pages walk the
      stream, a refused record testifies; one inverse at a time and only after
      its intent; at most one completion per branch over all processes; an
      answer of [Reverted] survives every process death.
    - Loader: every occurrence of a document is one valid entry or one fault;
      the plan follows the two views of each entry; the search finds exactly
      the nodes on a cycle; a reconcile without errors leaves what the document
      asks for and nothing left to plan, where the move is gentle; an amendment
      writes the document and moves both views, or none,
      a disposal is never forgotten; saving a loaded profile keeps its document.
    - Authority: a grant confers what was written, by a grammar of its own, and
      what is misread is named; a seat holds, field by field, the sum of its
      grants; a path handed on stays inside its scopes; a handle never changes
      provider; every crossing is on the record; waits never deadlock.
    - Files and secrets: no crash loses an inverse or a secret, as long as no
      sync of a directory fails; a withdrawn effect leaves no trace, a
      spilled inverse is found again, ids are never issued twice.
    - Processes and network: a released child is reaped with its exit on the
      ledger, streams keep their bytes, runs end on the record; nothing leaves
      that the allowlist does not admit and every call is on the record; a
      socket wakes its guest once an act.
    - Instances: every registration is handed on, no caller waits for ever and
      none goes unanswered while the instance is there; what is written of each
      crossing is what the other side reads; the digest is SHA-256.
    - Delivery: a walk runs whole or not at all, a replacement is never
      silent, published payloads arrive in order, a cancelled alarm is silent,
      a deadline counts active time alone.
    - Seats and swaps: retiring withdraws the whole contribution, a commit
      replaces a seat whole, every world effect is withdrawn once over all
      incarnations or left behind with a seat displaced and not yet retired; a
      swap lands whole or not at all, takes no slot of another, and always ends.
    - Profile contracts: no administration is unrecorded or reaches past its
      author, each is undone by the write its prior names, a patch is confined
      to one entry in scope and to its grants.

    Behaviour the comments of the source deny, or that is plainly not meant,
    is stated too: as theorems
    ([Plan.stalled_is_answered_while_a_reload_is_due],
    [Forward.advance_lets_a_destructor_panic_escape],
    [Revert.compensation_can_end_as_reverted], [Reconcile.an_entry_can_be_missed],
    [Amend.a_refused_step_is_forgotten]) and as examples at the end of the files
    ([a_failed_sync_drops_the_inverse_of_what_happened] in [HostFs],
    [a_disposal_can_miss_a_displaced_seat] in [Slot],
    [an_entry_can_keep_the_old_artifact] in [Swap],
    [text_after_a_bracket_is_dropped] in [Grants],
    [a_patch_can_restore_a_grant] in [Profile],
    [regranting_a_plain_config_panics] in [ProfileAdmin], and others).

    ** Bounds

    Walks over a forest use its size as fuel, which is proved to be enough;
    teardowns are bounded by their number of turns, futures by the number of
    polls after which they settle. Counters of the steering cell are [u64]
    values that wrap; the properties of a fiber are stated for runs of fewer
    than [2^64] events, in which they do not. That a silent fiber comes to rest
    needs no fuel: its steps are well-founded. Sequences and fiber numbers
    cross the ledger as [i64], with the saturation written out.

    The loops over the parents of an entry have as fuel the number of entries,
    the search for cycles its nodes and edges, the settle loop of a reconcile
    the handles it waits for, the search of the wait graph its edges and one
    more; each is proved to be enough, or the theorems hold of every fuel.
    Swap drivers are bounded by a measure, whatever interleaves with them.
    The way from an entry up to its ancestors is cut by the source itself after
    as many steps as there are entries. Handle counters and the counts of a
    lease cell are integers that are not wrapped: the theorems about handles ask
    that the counter does not reach [2^64] in the life of a process, and a lease
    count is bounded by the guards alive.

    ** What is not modelled

    Futures that never settle, and a second panic while one unwinds (which
    aborts the process). The transition observers of a fiber, its task-local
    markers, the loom models, the conjunction of rest over several fibers
    ([rest.rs]). The watcher task that republishes epochs and the activation
    resolver ([resolver.rs]). The trace sink of the bus; the tasks of a
    parallel dispatch run when they are joined. Of the loader, the file store,
    the generic host bodies and the JSON codec of an entry, which is a
    parameter; the persist permit is one step. Of the component host, the
    bindings to wasmtime and the reactor around an instance, the operating
    system behind the providers (its answers are arguments), the cipher and the
    passphrase sources of the key store, which are parameters, and the macOS
    keychain. File and key-store effects run one at a time, nothing runs between
    two withdrawals of one seat, and what [absorb] does in two critical sections
    of the steering cell is one step. Of the daemon, everything but the two
    profile contracts and the seat configuration: assembly, packages, the
    watcher, lifecycle events, introspection, the ledger and authentication
    contracts; and in the two contracts nothing is interleaved between the
    decision and the amendment (an example shows what that can lose). The crates
    [jinnd-adapter] and [jinnd-contract-lens].

    ** Plan

    What would come next: the readiness watcher and the resolver of the
    registry, rest over several fibers, the reads of the ledger contract, the
    interleaving of a patch with administrations, and the adapter. *)

From stdpp Require Import base gmap sets list strings relations sorting.

(** ** Results

    Rust's [Result<T, E>]. *)

Inductive result (T E : Type) : Type :=
  | Ok (value : T)
  | Err (error : E).
Arguments Ok {T E} value.
Arguments Err {T E} error.

Declare Scope result_scope.
Delimit Scope result_scope with result.

(** [let? x := m in k] is Rust's [let x = m?; k]. *)
Notation "'let?' x ':=' m 'in' k" :=
  (match m with Ok x => k | Err e => Err e end)
  (at level 200, x binder, m at level 100, k at level 200) : result_scope.

Definition is_ok {T E} (r : result T E) : bool :=
  match r with Ok _ => true | Err _ => false end.

Definition ok {T E} (r : result T E) : option T :=
  match r with Ok t => Some t | Err _ => None end.

#[export] Instance result_eq_dec {T E} `{EqDecision T, EqDecision E} :
  EqDecision (result T E).
Proof. solve_decision. Defined.

(** ** Machine integers

    A [u64] is a [Z] in [0, 2^64); wrapping arithmetic is written out. *)

Definition u64_max : Z := 2 ^ 64 - 1.
Definition i64_max : Z := 2 ^ 63 - 1.
Definition is_u64 (z : Z) : Prop := (0 <= z <= u64_max)%Z.

(** [u64::wrapping_add], which is also what [AtomicU64::fetch_add] does. *)
Definition wrapping_add (a b : Z) : Z := ((a + b) mod 2 ^ 64)%Z.

(** [u64::saturating_sub]. *)
Definition saturating_sub (a b : Z) : Z := Z.max 0 (a - b).

Lemma wrapping_add_u64 a b : is_u64 (wrapping_add a b).
Proof.
  unfold is_u64, wrapping_add, u64_max.
  pose proof (Z.mod_pos_bound (a + b) (2 ^ 64) ltac:(lia)). lia.
Qed.

Lemma wrapping_add_small a b :
  is_u64 a -> (0 <= b)%Z -> (a + b <= u64_max)%Z -> wrapping_add a b = (a + b)%Z.
Proof.
  unfold is_u64, wrapping_add, u64_max. intros. apply Z.mod_small. lia.
Qed.

Lemma wrapping_add_1_ne a : is_u64 a -> wrapping_add a 1 <> a.
Proof.
  unfold is_u64, wrapping_add, u64_max. intros.
  destruct (decide (a = 2 ^ 64 - 1)%Z) as [->|].
  - vm_compute. discriminate.
  - rewrite Z.mod_small; lia.
Qed.

(** ** Transition systems

    [reachable] states and the invariant rule every state machine of the
    development uses. *)

Section Transitions.
Context {State : Type} (init : State -> Prop) (step : State -> State -> Prop).

Definition reachable (s : State) : Prop :=
  exists s0, init s0 /\ rtc step s0 s.

Lemma reachable_init s : init s -> reachable s.
Proof. exists s. split; [done|apply rtc_refl]. Qed.

Lemma reachable_step s s' : reachable s -> step s s' -> reachable s'.
Proof. intros (s0 & ? & ?) ?. exists s0. split; [done|]. by eapply rtc_r. Qed.

Lemma rtc_invariant (I : State -> Prop) :
  (forall s s', I s -> step s s' -> I s') ->
  forall s s', rtc step s s' -> I s -> I s'.
Proof. intros Hstep s s' Hrtc. induction Hrtc; eauto. Qed.

Lemma reachable_invariant (I : State -> Prop) :
  (forall s, init s -> I s) ->
  (forall s s', I s -> step s s' -> I s') ->
  forall s, reachable s -> I s.
Proof.
  intros Hinit Hstep s (s0 & H0 & Hrtc).
  eapply rtc_invariant; eauto.
Qed.
End Transitions.

(** ** Lists *)

Section Lists.
Context {A : Type}.
Implicit Types (l : list A) (x : A).

Lemma nil_or_snoc l : l = [] \/ exists l' x, l = l' ++ [x].
Proof.
  destruct l as [|x l' _] using rev_ind; [by left|right; eauto].
Qed.

Lemma last_snoc_inv l x : last l = Some x -> exists l', l = l' ++ [x].
Proof.
  destruct (nil_or_snoc l) as [->|(l' & y & ->)]; [done|].
  rewrite last_snoc. intros [= ->]. eauto.
Qed.

Lemma removelast_snoc l x : removelast (l ++ [x]) = l.
Proof. apply removelast_last. Qed.

Lemma alter_as_insert l i x f : l !! i = Some x -> alter f i l = <[i := f x]> l.
Proof.
  intros Hi. apply list_eq. intros j.
  pose proof (lookup_lt_Some _ _ _ Hi). destruct (decide (i = j)) as [<-|].
  - by rewrite list_lookup_alter_eq, Hi, list_lookup_insert_eq.
  - by rewrite list_lookup_alter_ne, list_lookup_insert_ne.
Qed.

Lemma lookup_app_last l x : (l ++ [x]) !! length l = Some x.
Proof. rewrite lookup_app_r by lia. by rewrite Nat.sub_diag. Qed.

Lemma filter_all (P : A -> Prop) `{forall x, Decision (P x)} l :
  Forall P l -> filter P l = l.
Proof. induction 1; [done|]. rewrite filter_cons_True by done. by f_equal. Qed.

Lemma filter_none (P : A -> Prop) `{forall x, Decision (P x)} l :
  (forall x, x ∈ l -> ~ P x) -> filter P l = [].
Proof.
  induction l as [|x l IH]; intros Hl; [done|].
  rewrite filter_cons_False by (apply Hl; by left). apply IH. intros y Hy. apply Hl. by right.
Qed.

Lemma lookup_map {B} (f : A -> B) l i x : l !! i = Some x -> map f l !! i = Some (f x).
Proof. intros Hi. change (map f l) with (f <$> l). by rewrite list_lookup_fmap, Hi. Qed.

Lemma map_fixed (f : A -> A) l : (forall x, x ∈ l -> f x = x) -> map f l = l.
Proof. intros Hf. induction l as [|x l IH]; simpl; [done|]. rewrite Hf by left. f_equal. apply IH. intros y Hy. apply Hf. by right. Qed.

Lemma filter_map {B} (f : A -> B) (P : B -> Prop) `{forall y, Decision (P y)} l :
  filter P (map f l) = map f (filter (fun x => P (f x)) l).
Proof.
  induction l as [|x l IH]; [done|]. simpl. rewrite !filter_cons, IH. by destruct (decide (P (f x))).
Qed.

Lemma filter_comm (P Q : A -> Prop) `{forall x, Decision (P x), forall x, Decision (Q x)} l :
  filter P (filter Q l) = filter Q (filter P l).
Proof. rewrite !list_filter_filter. apply list_filter_iff. tauto. Qed.

Lemma NoDup_map_filter {B} (f : A -> B) (P : A -> Prop) `{forall x, Decision (P x)} l :
  NoDup (map f l) -> NoDup (map f (filter P l)).
Proof.
  induction l as [|x l IH]; [done|]. simpl. rewrite NoDup_cons. intros [Hx Hl].
  rewrite filter_cons. case_decide; simpl; [|auto]. apply NoDup_cons. split; [|auto].
  intros Hin. apply Hx. apply list_elem_of_In, in_map_iff in Hin as (y & <- & Hy).
  apply list_elem_of_In, in_map. apply list_elem_of_In, list_elem_of_filter in Hy as [_ Hy].
  by apply list_elem_of_In.
Qed.

Lemma NoDup_map_inj {B} (f : A -> B) l x y :
  NoDup (map f l) -> x ∈ l -> y ∈ l -> f x = f y -> x = y.
Proof.
  intros Hnd [i Hi]%list_elem_of_lookup [j Hj]%list_elem_of_lookup Hf.
  assert (i = j) as ->; [|congruence].
  eapply (NoDup_lookup (map f l)); [done| |].
  - change (map f l) with (f <$> l). by rewrite list_lookup_fmap, Hi.
  - change (map f l) with (f <$> l). by rewrite list_lookup_fmap, Hj, Hf.
Qed.

Lemma StronglySorted_lookup (R : relation A) l i j x y :
  StronglySorted R l -> l !! i = Some x -> l !! j = Some y -> i < j -> R x y.
Proof.
  intros Hs. revert i j. induction Hs as [|z l Hs IH Hall]; intros i j Hi Hj Hlt; [done|].
  destruct j as [|j]; [lia|]. destruct i as [|i]; simpl in *; [|eapply IH; eauto; lia].
  injection Hi as ->. rewrite Forall_forall in Hall. apply Hall.
  by eapply list_elem_of_lookup_2.
Qed.

Lemma StronglySorted_weaken (R R' : relation A) l :
  (forall x y, R x y -> R' x y) -> StronglySorted R l -> StronglySorted R' l.
Proof. intros HR Hs. induction Hs; constructor; [done|]. eapply Forall_impl; eauto. Qed.

Lemma take_snoc_split n l l' x :
  take n l = l' ++ [x] -> l = l' ++ x :: drop (S (length l')) l.
Proof.
  intros Ht. assert (l = (l' ++ [x]) ++ drop n l) as Hl by by rewrite <-Ht, take_drop.
  rewrite Hl at 1. rewrite Hl at 2. rewrite <-!app_assoc. f_equal. simpl. f_equal.
  rewrite drop_app_ge by lia. replace (S (length l') - length l') with 1 by lia. done.
Qed.
End Lists.

(** Rust's [Iterator::position]. *)
Fixpoint position {A} (p : A -> bool) (l : list A) : option nat :=
  match l with
  | [] => None
  | x :: rest => if p x then Some 0 else S <$> position p rest
  end.

(** Rust's [Vec::remove] at an index in range. *)
Definition remove_at {A} (i : nat) (l : list A) : list A :=
  take i l ++ drop (S i) l.

Lemma position_Some {A} (p : A -> bool) l i :
  position p l = Some i ->
  exists x, l !! i = Some x /\ p x = true /\
    l = take i l ++ x :: drop (S i) l /\ Forall (fun y => p y = false) (take i l).
Proof.
  revert i. induction l as [|y l IH]; intros i; simpl; [done|].
  destruct (p y) eqn:Hp.
  - intros [= <-]. exists y. simpl. rewrite drop_0. auto.
  - destruct (position p l) as [j|] eqn:Hj; simpl; [|done].
    intros [= <-]. destruct (IH j eq_refl) as (x & ? & ? & Heq & ?).
    exists x. simpl. split_and!; auto. by rewrite <-Heq.
Qed.

Lemma position_None {A} (p : A -> bool) l :
  position p l = None <-> Forall (fun y => p y = false) l.
Proof.
  induction l as [|y l IH]; simpl; [by split|].
  destruct (p y) eqn:Hp; simpl.
  - split; [done|]. rewrite Forall_cons. intros [? _]. congruence.
  - rewrite Forall_cons. destruct (position p l); simpl; split; intros H.
    + done.
    + destruct H as [_ H]. by apply IH in H.
    + split; [done|]. by apply IH.
    + done.
Qed.

(** Rust's [slice::sort_by_key], a stable sort: [le] compares the keys. *)
Section StableSort.
Context {A : Type} (le : A -> A -> bool).

Fixpoint insert_by (x : A) (l : list A) : list A :=
  match l with
  | [] => [x]
  | y :: l' => if le x y then x :: l else y :: insert_by x l'
  end.

Definition sort_by (l : list A) : list A := foldr insert_by [] l.

Lemma insert_by_Permutation x l : insert_by x l ≡ₚ x :: l.
Proof.
  induction l as [|y l IH]; simpl; [done|]. destruct (le x y); [done|].
  rewrite IH. constructor.
Qed.

Lemma sort_by_Permutation l : sort_by l ≡ₚ l.
Proof. induction l as [|x l IH]; simpl; [done|]. by rewrite insert_by_Permutation, IH. Qed.

Lemma sort_by_sorted l :
  (forall x y, le x y = true \/ le y x = true) ->
  (forall x y z, le x y = true -> le y z = true -> le x z = true) ->
  StronglySorted (fun x y => le x y = true) (sort_by l).
Proof.
  intros Htot Htrans. induction l as [|x l IH]; simpl; [constructor|].
  induction IH as [|y l' Hl' IH' Hall]; simpl; [repeat constructor|].
  destruct (le x y) eqn:Hxy.
  - constructor; [by constructor|]. constructor; [done|].
    eapply Forall_impl; [done|]. simpl. eauto.
  - constructor; [done|]. rewrite insert_by_Permutation. constructor; [|done].
    destruct (Htot x y); congruence.
Qed.
End StableSort.

(** ** Automation *)

Create HintDb jinnd.

#[export] Hint Resolve rtc_refl rtc_once : jinnd.
#[export] Hint Rewrite @length_app @length_map @reverse_involutive : jinnd.

(** Splits every [match] or [if] of the goal and of the hypotheses. *)
Ltac break :=
  repeat (case_match || case_decide); simplify_eq/=.

Ltac break_in H :=
  repeat match type of H with
  | context [match ?x with _ => _ end] => destruct x eqn:?; simplify_eq/=
  end.

(** Destructs existentials and conjunctions everywhere. *)
Ltac unpack := repeat match goal with
  | H : _ /\ _ |- _ => destruct H
  | H : exists x, _ |- _ => let x' := fresh x in destruct H as [x' H]
  end.
