(* ===== verification/Api.v ===== *)
(** * Contract types of the kernel facade ([crates/jinnd-api/src])

    Identities, lifecycle vocabulary, errors, service and event contracts and
    the ledger's event kinds, as the source declares them. Newtypes over [u64]
    are records of one [Z] field; strings are [string]. *)

From stdpp Require Import base gmap sets list strings.
From S2P Require Import Prelude.

(** ** Identities ([ids.rs]) *)

Record ContextId := MkContextId { context_id : Z }.
Record FiberId := MkFiberId { fiber_id : Z }.
Record EffectId := MkEffectId { effect_id : Z }.
Record EntryId := MkEntryId { entry_id : string }.
Record Generation := MkGeneration { generation_number : Z }.

Inductive Realm :=
  | RealmRoot
  | RealmLocal (entry : EntryId)
  | RealmShared (name : string).

#[export] Instance ContextId_eq_dec : EqDecision ContextId.
Proof. solve_decision. Defined.
#[export] Instance FiberId_eq_dec : EqDecision FiberId.
Proof. solve_decision. Defined.
#[export] Instance EffectId_eq_dec : EqDecision EffectId.
Proof. solve_decision. Defined.
#[export] Instance EntryId_eq_dec : EqDecision EntryId.
Proof. solve_decision. Defined.
#[export] Instance Generation_eq_dec : EqDecision Generation.
Proof. solve_decision. Defined.
#[export] Instance Realm_eq_dec : EqDecision Realm.
Proof. solve_decision. Defined.

#[export] Instance ContextId_countable : Countable ContextId.
Proof. apply (inj_countable' context_id MkContextId); by intros []. Defined.
#[export] Instance FiberId_countable : Countable FiberId.
Proof. apply (inj_countable' fiber_id MkFiberId); by intros []. Defined.
#[export] Instance EffectId_countable : Countable EffectId.
Proof. apply (inj_countable' effect_id MkEffectId); by intros []. Defined.
#[export] Instance EntryId_countable : Countable EntryId.
Proof. apply (inj_countable' entry_id MkEntryId); by intros []. Defined.
#[export] Instance Generation_countable : Countable Generation.
Proof. apply (inj_countable' generation_number MkGeneration); by intros []. Defined.

Definition realm_code (r : Realm) : unit + (EntryId + string) :=
  match r with
  | RealmRoot => inl ()
  | RealmLocal e => inr (inl e)
  | RealmShared s => inr (inr s)
  end.
Definition realm_decode (c : unit + (EntryId + string)) : Realm :=
  match c with
  | inl _ => RealmRoot
  | inr (inl e) => RealmLocal e
  | inr (inr s) => RealmShared s
  end.
#[export] Instance Realm_countable : Countable Realm.
Proof. apply (inj_countable' realm_code realm_decode); by intros []. Defined.

(** ** Errors ([error.rs]) *)

Inductive ErrorCode :=
  | InactiveContext | MissingDependency | DependencyCycle | PluginFailed
  | EffectFailed | ListenerFailed | InvalidProfile | DuplicateProvision
  | NotFound | Irreversible | Untrusted.

Record KernelError := MkKernelError {
  code : ErrorCode;
  message : string;
  fiber : option FiberId;
}.

#[export] Instance ErrorCode_eq_dec : EqDecision ErrorCode.
Proof. solve_decision. Defined.
#[export] Instance KernelError_eq_dec : EqDecision KernelError.
Proof. solve_decision. Defined.

(** ** Lifecycle vocabulary ([fiber.rs]) *)

Inductive FiberState :=
  | Pending | Loading | Active | Failed | Unloading | Disposed.

Inductive Owed := OwedReload | OwedDisposal | OwedSuspension | OwedStalled.

Inductive TransitionCause :=
  | InitialLoad | DependencyChanged | ConfigChanged | ExplicitRestart
  | ExplicitDispose | ParentDisposed | Suspend | BodyFaulted.

Record Transition := MkTransition {
  transition_fiber : FiberId;
  transition_from : FiberState;
  transition_to : FiberState;
  transition_cause : TransitionCause;
}.

#[export] Instance FiberState_eq_dec : EqDecision FiberState.
Proof. solve_decision. Defined.
#[export] Instance Owed_eq_dec : EqDecision Owed.
Proof. solve_decision. Defined.
#[export] Instance TransitionCause_eq_dec : EqDecision TransitionCause.
Proof. solve_decision. Defined.
#[export] Instance Transition_eq_dec : EqDecision Transition.
Proof. solve_decision. Defined.

(** ** Services ([service.rs], [inject.rs])

    A [TypeId] is an opaque identity of the compiler; it is modelled by the
    number that distinguishes it. *)

Abbreviation TypeId := Z.

Record ServiceType := MkServiceType {
  service_type_id : TypeId;
  service_name : string;
}.

Record DependencySnapshot := MkDependencySnapshot {
  dep_service : ServiceType;
  dep_provider : FiberId;
  dep_generation : Generation;
  dep_realm : Realm;
}.

Record Epoch := MkEpoch { dependencies : list DependencySnapshot }.

#[export] Instance ServiceType_eq_dec : EqDecision ServiceType.
Proof. solve_decision. Defined.
#[export] Instance DependencySnapshot_eq_dec : EqDecision DependencySnapshot.
Proof. solve_decision. Defined.
#[export] Instance Epoch_eq_dec : EqDecision Epoch.
Proof. solve_decision. Defined.

(** ** Effects and events ([effect.rs], [event.rs]) *)

Inductive EffectDescriptor := MkEffectDescriptor {
  descriptor_id : EffectId;
  descriptor_label : string;
  descriptor_children : list EffectDescriptor;
}.

Inductive DispatchMode := Emit | Parallel | Serial | Bail | Waterfall.

#[export] Instance DispatchMode_eq_dec : EqDecision DispatchMode.
Proof. solve_decision. Defined.

(** ** Isolation directives ([profile.rs]) *)

Record IsolationBinding := MkIsolationBinding { binding_service : string; binding_realm : Realm }.

#[export] Instance IsolationBinding_eq_dec : EqDecision IsolationBinding.
Proof. solve_decision. Defined.

(** ** The ledger's vocabulary ([ledger.rs], [ledger/classes.rs], [ledger/record.rs]) *)

Record RevertKey := MkRevertKey { revert_key : string }.

Inductive RevertResolution :=
  | PendingRevert
  | Reverted
  | Compensated (clean : bool).

Inductive RefusalReason :=
  | NotGranted | ScopeMismatch | NotLoopback | Unresolvable | ForeignHandle.

Inductive SwapPhaseKind := SwapBegan | InstanceHealthy | SwapCommitted | RolledBack.

Inductive ProfileWrite := WriteAdd | WriteRemove | SetDisabled | SetGrants | SwapPlugin.

Inductive LedgerEventKind :=
  | EffectRegistered (label : string)
  | EffectWithdrawn (label : string) (clean : bool)
  | FiberTransition (transition : Transition)
  | FiberSuspended (retained : Z)
  | ServiceProvided (service : string)
  | ServiceWithdrawn (service : string)
  | AmendmentAccepted (detail : string)
  | AmendmentRefused (detail : string)
  | WriteBack (detail : string)
  | ErrorRecorded (error : KernelError)
  | RevertIntent (key : string) (effect : EffectId)
  | RevertCompleted (key : string) (effect : EffectId) (clean : bool)
  | RevertResolved (effect : EffectId) (resolution : RevertResolution)
  | DispatchTrace (topic : string) (mode : DispatchMode) (listeners failures emitter : Z)
  | PublishDropped (topic : string) (dropped : Z)
  | ProcessSpawned (handle : Z) (command : string) (pid : Z)
  | ProcessExited (handle : Z) (exit_code : Z)
  | ProcessKilled (handle : Z) (signal : string)
  | ProcessReapPending (handle : Z)
  | ProcessOutputTruncated (handle cap : Z)
  | NetListening (handle port : Z)
  | NetAccepted (listener handle : Z)
  | NetClosed (handle : Z)
  | NetRequested (effect : EffectId) (method host path : string)
      (status request_bytes response_bytes duration_ms : Z)
  | NetReadable (handle : Z)
  | ProfilePatched (entry : EntryId) (by_whom : string)
  | ProfileAdministered (entry : EntryId) (by_whom : string) (write : ProfileWrite)
      (before after : string) (prior : option string)
  | KeystoreAccessed (operation key : string) (digest : option string)
  | AuthDecided (name : option string) (presented : string) (granted : bool)
  | LedgerConsumed (first last count : Z)
  | AlarmWake (alarm : Z)
  | DispatchRefused (topic : string) (mode : DispatchMode) (target : EntryId)
      (incarnation : Z) (owed : Owed)
  | CycleRefused (on : string) (target : FiberId) (target_entry : option EntryId)
      (through : list FiberId)
  | ContractResolved (contract : string)
  | GrantRefused (contract : string) (reason : RefusalReason) (detail : option string)
  | ContractCall (contract operation : string)
  | StaleHandleRefused (contract : string)
  | ArtifactLoaded (hash : string)
  | ArtifactRefused (detail : string)
  | SwapPhase (artifact : string) (phase : SwapPhaseKind).

Record Receipt := MkReceipt { receipt_sequence : Z }.

Record LedgerRecord := MkLedgerRecord {
  record_sequence : Z;
  record_timestamp : Z;
  record_kind : LedgerEventKind;
  record_entry : option EntryId;
  record_fiber : option FiberId;
}.

Record LedgerQuery := MkLedgerQuery {
  query_entry : option EntryId;
  query_fiber : option FiberId;
  query_from : option Z;
}.

#[export] Instance RevertKey_eq_dec : EqDecision RevertKey.
Proof. solve_decision. Defined.
#[export] Instance RevertResolution_eq_dec : EqDecision RevertResolution.
Proof. solve_decision. Defined.
#[export] Instance RefusalReason_eq_dec : EqDecision RefusalReason.
Proof. solve_decision. Defined.
#[export] Instance SwapPhaseKind_eq_dec : EqDecision SwapPhaseKind.
Proof. solve_decision. Defined.
#[export] Instance ProfileWrite_eq_dec : EqDecision ProfileWrite.
Proof. solve_decision. Defined.
#[export] Instance LedgerEventKind_eq_dec : EqDecision LedgerEventKind.
Proof. solve_decision. Defined.
