(* ===== verification/EffectTree.v ===== *)
(** * The record forest behind an effect scope ([crates/jinnd-effects/src/tree.rs])

    A scope keeps its effects as a forest of records. Every walk over it is a
    loop with an explicit stack (a recursive one would overflow on a deep
    tree); the loops are modelled as written, with the forest's size as fuel,
    and each is proved equal to the recursive definition it stands for.

    A [Vec] used as a stack is modelled top first, so that popping is matching
    on the head: [stack.extend(xs.rev())] is [xs ++ stack], and
    [stack.extend(xs)] is [reverse xs ++ stack]. A mutable reference into the
    forest is the path of indices that leads to it. *)

From stdpp Require Import base gmap sets list strings.
From S2P Require Import Prelude Api.

(** ** Data *)

Inductive EffectRecord (D : Type) : Type := MkRecord {
  rec_id : EffectId;
  rec_label : string;
  rec_disposer : D;
  rec_drain : option D;
  rec_suspend : option D;
  rec_children : list (EffectRecord D);
}.
Arguments MkRecord {D}.
Arguments rec_id {D}.
Arguments rec_label {D}.
Arguments rec_disposer {D}.
Arguments rec_drain {D}.
Arguments rec_suspend {D}.
Arguments rec_children {D}.

Abbreviation forest D := (list (EffectRecord D)).

Definition set_children {D} (cs : forest D) (r : EffectRecord D) : EffectRecord D :=
  MkRecord (rec_id r) (rec_label r) (rec_disposer r) (rec_drain r) (rec_suspend r) cs.

(** [mem::take(&mut record.children)] leaves a record without children. *)
Definition childless {D} (r : EffectRecord D) : EffectRecord D := set_children [] r.

(** [record.drain.take()] leaves a record without a drain phase. *)
Fixpoint undrained {D} (r : EffectRecord D) : EffectRecord D :=
  MkRecord (rec_id r) (rec_label r) (rec_disposer r) None (rec_suspend r)
    (map undrained (rec_children r)).

Fixpoint record_size {D} (r : EffectRecord D) : nat :=
  S (sum_list (map record_size (rec_children r))).
Definition forest_size {D} (rs : forest D) : nat := sum_list (map record_size rs).

(** The live record a path leads to, and the forest with it changed. *)
Fixpoint lookup_at {D} (path : list nat) (rs : forest D) : option (EffectRecord D) :=
  match path with
  | [] => None
  | [i] => rs !! i
  | i :: rest => r ← rs !! i; lookup_at rest (rec_children r)
  end.

Fixpoint update_at {D} (path : list nat) (f : EffectRecord D -> EffectRecord D)
    (rs : forest D) : forest D :=
  match path with
  | [] => rs
  | [i] => alter f i rs
  | i :: rest =>
      alter (fun r => set_children (update_at rest f (rec_children r)) r) i rs
  end.

(** A level of the forest: the roots (empty path), or a record's children. *)
Definition level_at {D} (path : list nat) (rs : forest D) : option (forest D) :=
  match path with [] => Some rs | _ => rec_children <$> lookup_at path rs end.

Definition update_level {D} (path : list nat) (f : forest D -> forest D)
    (rs : forest D) : forest D :=
  match path with
  | [] => f rs
  | _ => update_at path (fun r => set_children (f (rec_children r)) r) rs
  end.

(** The elements of one level with the path of each. *)
Definition addressed {D} (path : list nat) (level : forest D)
    : list (list nat * EffectRecord D) :=
  imap (fun i r => (path ++ [i], r)) level.

(** ** The walks *)

(** [drains]: takes every pending drain phase, in replay order; the records
    stay live without it. *)
Fixpoint drains_loop {D} (fuel : nat) (stack : forest D)
    (collected : list (EffectId * string * D)) : list (EffectId * string * D) :=
  match fuel, stack with
  | S fuel, record :: stack =>
      let collected :=
        match rec_drain record with
        | Some drain => collected ++ [(rec_id record, rec_label record, drain)]
        | None => collected
        end in
      drains_loop fuel (rec_children record ++ stack) collected
  | _, _ => collected
  end.

Definition drains {D} (roots : forest D) : list (EffectId * string * D) * forest D :=
  (reverse (drains_loop (forest_size roots) roots []), map undrained roots).

(** [find]: the path of the live record [id] names. *)
Fixpoint find_loop {D} (fuel : nat) (id : EffectId)
    (stack : list (list nat * EffectRecord D)) : option (list nat) :=
  match fuel, stack with
  | S fuel, (path, record) :: stack =>
      if decide (rec_id record = id) then Some path
      else find_loop fuel id (reverse (addressed path (rec_children record)) ++ stack)
  | _, _ => None
  end.

Definition find_record {D} (roots : forest D) (id : EffectId) : option (list nat) :=
  find_loop (forest_size roots) id (reverse (addressed [] roots)).

(** [take]: removes the record [id] names with its whole subtree. The stack
    holds levels; a level that does not hold [id] pushes the levels under it. *)
Definition levels_under {D} (path : list nat) (level : forest D)
    : list (list nat * forest D) :=
  imap (fun i r => (path ++ [i], rec_children r)) level.

Fixpoint take_loop {D} (fuel : nat) (id : EffectId)
    (stack : list (list nat * forest D)) : option (list nat * nat) :=
  match fuel, stack with
  | S fuel, (path, level) :: stack =>
      match position (fun record => bool_decide (rec_id record = id)) level with
      | Some index => Some (path, index)
      | None => take_loop fuel id (reverse (levels_under path level) ++ stack)
      end
  | _, _ => None
  end.

Definition take_record {D} (roots : forest D) (id : EffectId)
    : option (EffectRecord D * forest D) :=
  '(path, index) ← take_loop (S (forest_size roots)) id [([], roots)];
  level ← level_at path roots;
  record ← level !! index;
  Some (record, update_level path (remove_at index) roots).

(** [flatten]: pre-order in registration order, reversed. *)
Fixpoint flatten_loop {D} (fuel : nat) (stack order : forest D) : forest D :=
  match fuel, stack with
  | S fuel, record :: stack =>
      flatten_loop fuel (rec_children record ++ stack) (order ++ [childless record])
  | _, _ => order
  end.

Definition flatten {D} (roots : forest D) : forest D :=
  reverse (flatten_loop (forest_size roots) roots []).

(** [take_next]: the deepest last-registered record. [last_path] walks the
    last child of each level down; the record is popped from its siblings. *)
Fixpoint last_path {D} (fuel : nat) (level : forest D) : list nat :=
  match fuel with
  | 0 => []
  | S fuel =>
      match length level with
      | 0 => []
      | S last =>
          last :: match level !! last with
                  | Some r => last_path fuel (rec_children r)
                  | None => []
                  end
      end
  end.

Definition take_next {D} (roots : forest D) : option (EffectRecord D * forest D) :=
  let path := last_path (forest_size roots) roots in
  let siblings := removelast path in
  match path with
  | [] => None
  | _ :: _ =>
      record ← level_at siblings roots ≫= last;
      Some (record, update_level siblings (@removelast _) roots)
  end.

(** [describe]: the forest as facade descriptors, in registration order, in
    two passes: index every record with its parent's index, then build the
    descriptors from the back. *)
Fixpoint nodes_loop {D} (fuel : nat) (stack nodes : list (EffectRecord D * option nat))
    : list (EffectRecord D * option nat) :=
  match fuel, stack with
  | S fuel, (record, parent) :: stack =>
      let index := length nodes in
      nodes_loop fuel (map (fun child => (child, Some index)) (rec_children record) ++ stack)
        (nodes ++ [(record, parent)])
  | _, _ => nodes
  end.

Fixpoint build_loop {D} (todo : nat) (nodes : list (EffectRecord D * option nat))
    (built : list (list EffectDescriptor)) (roots : list EffectDescriptor)
    : list EffectDescriptor :=
  match todo with
  | 0 => roots
  | S index =>
      match nodes !! index with
      | None => roots
      | Some (record, parent) =>
          let children := reverse (default [] (built !! index)) in
          let built := <[index := []]> built in
          let descriptor := MkEffectDescriptor (rec_id record) (rec_label record) children in
          match parent with
          | Some parent =>
              build_loop index nodes (alter (fun b => b ++ [descriptor]) parent built) roots
          | None => build_loop index nodes built (roots ++ [descriptor])
          end
      end
  end.

Definition describe {D} (roots : forest D) : list EffectDescriptor :=
  let nodes := nodes_loop (forest_size roots) (map (fun r => (r, None)) roots) [] in
  reverse (build_loop (length nodes) nodes (replicate (length nodes) []) []).

(** ** Reference definitions *)

Fixpoint preorder_record {D} (r : EffectRecord D) : forest D :=
  childless r :: concat (map preorder_record (rec_children r)).
Definition preorder {D} (rs : forest D) : forest D := concat (map preorder_record rs).

(** Replay order: children before the effect they nested under, last
    registration first. *)
Definition replay_order {D} (rs : forest D) : forest D := reverse (preorder rs).

Definition live_ids {D} (rs : forest D) : list EffectId := map rec_id (preorder rs).

Fixpoint descriptor {D} (r : EffectRecord D) : EffectDescriptor :=
  MkEffectDescriptor (rec_id r) (rec_label r) (map descriptor (rec_children r)).

Definition drain_of {D} (r : EffectRecord D) : option (EffectId * string * D) :=
  drain ← rec_drain r; Some (rec_id r, rec_label r, drain).

(** ** Induction over records and forests *)

Section Induction.
Context {D : Type} (P : EffectRecord D -> Prop) (Q : forest D -> Prop).
Context (Hrec : forall id label d drain suspend cs,
  Q cs -> P (MkRecord id label d drain suspend cs)).
Context (Hnil : Q []) (Hcons : forall r rs, P r -> Q rs -> Q (r :: rs)).

Fixpoint record_induction (r : EffectRecord D) : P r :=
  match r with
  | MkRecord id label d drain suspend cs =>
      Hrec id label d drain suspend cs
        ((fix go (rs : forest D) : Q rs :=
            match rs with
            | [] => Hnil
            | r :: rs => Hcons r rs (record_induction r) (go rs)
            end) cs)
  end.

Lemma forest_induction (rs : forest D) : Q rs.
Proof using All. induction rs; auto using record_induction. Qed.
End Induction.

(** ** Sizes and the pre-order *)

Section Orders.
Context {D : Type}.
Implicit Types (r : EffectRecord D) (rs stack order : forest D).

Lemma forest_size_cons r rs : forest_size (r :: rs) = record_size r + forest_size rs.
Proof. done. Qed.

Lemma record_size_children r : record_size r = S (forest_size (rec_children r)).
Proof. by destruct r. Qed.

Lemma forest_size_app rs1 rs2 :
  forest_size (rs1 ++ rs2) = forest_size rs1 + forest_size rs2.
Proof.
  induction rs1 as [|r rs1 IH]; [done|].
  rewrite <-app_comm_cons, !forest_size_cons, IH. lia.
Qed.

Lemma preorder_record_eq r :
  preorder_record r = childless r :: preorder (rec_children r).
Proof. by destruct r. Qed.

Lemma children_set cs r : rec_children (set_children cs r) = cs.
Proof. done. Qed.

Lemma childless_set cs r : childless (set_children cs r) = childless r.
Proof. done. Qed.

Lemma preorder_cons r rs : preorder (r :: rs) = preorder_record r ++ preorder rs.
Proof. done. Qed.

Lemma preorder_app rs1 rs2 : preorder (rs1 ++ rs2) = preorder rs1 ++ preorder rs2.
Proof. unfold preorder. by rewrite map_app, concat_app. Qed.

Lemma preorder_nil rs : preorder rs = [] <-> rs = [].
Proof. destruct rs as [|r rs]; [done|]. by rewrite preorder_cons, preorder_record_eq. Qed.

Lemma length_preorder rs : length (preorder rs) = forest_size rs.
Proof.
  revert rs. refine (forest_induction
    (fun r => length (preorder_record r) = record_size r) _ _ _ _).
  - intros ?????? IH. by rewrite preorder_record_eq, record_size_children; simpl; rewrite IH.
  - done.
  - intros r rs Hr Hrs. by rewrite preorder_cons, length_app, Hr, Hrs.
Qed.

Lemma preorder_childless rs : Forall (fun r => rec_children r = []) (preorder rs).
Proof.
  revert rs. refine (forest_induction
    (fun r => Forall (fun r => rec_children r = []) (preorder_record r)) _ _ _ _).
  - intros. rewrite preorder_record_eq. by constructor.
  - constructor.
  - intros. rewrite preorder_cons. by apply Forall_app.
Qed.

(** *** [flatten] and [drains] *)

Lemma flatten_loop_spec fuel stack order :
  forest_size stack <= fuel -> flatten_loop fuel stack order = order ++ preorder stack.
Proof.
  revert stack order. induction fuel as [|fuel IH]; intros [|r stack] order; simpl;
    rewrite ?forest_size_cons, ?record_size_children; intros Hfuel; try lia;
    [by rewrite app_nil_r|by rewrite app_nil_r|].
  rewrite IH by (rewrite forest_size_app; lia).
  by rewrite preorder_app, preorder_cons, preorder_record_eq, <-!app_assoc.
Qed.

Lemma flatten_correct rs : flatten rs = replay_order rs.
Proof. unfold flatten, replay_order. by rewrite flatten_loop_spec. Qed.

Lemma drains_loop_spec fuel stack collected :
  forest_size stack <= fuel ->
  drains_loop fuel stack collected = collected ++ omap drain_of (preorder stack).
Proof.
  revert stack collected. induction fuel as [|fuel IH]; intros [|r stack] collected; simpl;
    rewrite ?forest_size_cons, ?record_size_children; intros Hfuel; try lia;
    [by rewrite app_nil_r|by rewrite app_nil_r|].
  rewrite IH by (rewrite forest_size_app; lia).
  rewrite preorder_app, preorder_cons, preorder_record_eq, <-app_comm_cons.
  unfold drain_of at 2. simpl.
  destruct (rec_drain r); simpl; by rewrite <-?app_assoc.
Qed.

Lemma omap_reverse {A B} (f : A -> option B) l : omap f (reverse l) = reverse (omap f l).
Proof.
  induction l as [|x l IH]; [done|].
  rewrite reverse_cons, omap_app, IH. simpl.
  destruct (f x); simpl; by rewrite ?reverse_cons, ?app_nil_r.
Qed.

Lemma drains_collected rs : (drains rs).1 = omap drain_of (replay_order rs).
Proof.
  unfold drains, replay_order. simpl.
  by rewrite drains_loop_spec, omap_reverse.
Qed.

Lemma preorder_undrained rs :
  preorder (map undrained rs) = map undrained (preorder rs).
Proof.
  revert rs. refine (forest_induction (fun r =>
    preorder_record (undrained r) = map undrained (preorder_record r)) _ _ _ _).
  - intros ?????? IH. rewrite !preorder_record_eq. simpl. by rewrite IH.
  - done.
  - intros r rs Hr Hrs. simpl. by rewrite !preorder_cons, map_app, Hr, Hrs.
Qed.

Lemma drain_of_undrained r : drain_of (undrained r) = None.
Proof. by destruct r. Qed.

Lemma omap_drain_undrained rs : omap drain_of (map undrained rs) = [].
Proof. induction rs as [|r rs IH]; simpl; [done|]. by rewrite drain_of_undrained. Qed.

(** *** Addresses *)

Definition hole rs (path : list nat) r (pre post : forest D) : Prop :=
  preorder rs = pre ++ preorder_record r ++ post /\
  forall f, preorder (update_at path f rs) = pre ++ preorder_record (f r) ++ post.

Lemma preorder_split rs i r :
  rs !! i = Some r ->
  preorder rs = preorder (take i rs) ++ preorder_record r ++ preorder (drop (S i) rs).
Proof.
  intros Hi. rewrite <-(take_drop_middle rs i r Hi) at 1.
  by rewrite preorder_app, preorder_cons.
Qed.

Lemma preorder_alter rs i r f :
  rs !! i = Some r ->
  preorder (alter f i rs) =
    preorder (take i rs) ++ preorder_record (f r) ++ preorder (drop (S i) rs).
Proof.
  intros Hi.
  assert (Hf : alter f i rs !! i = Some (f r)) by (by rewrite list_lookup_alter_eq, Hi).
  rewrite (preorder_split _ _ _ Hf).
  by rewrite take_alter_ge, drop_alter_lt by lia.
Qed.

Lemma lookup_at_hole path rs r :
  lookup_at path rs = Some r -> exists pre post : forest D, hole rs path r pre post.
Proof.
  revert rs. induction path as [|i path IH]; [done|].
  intros rs Hr. destruct path as [|j path].
  - simpl in Hr. eexists _, _. split; [by apply preorder_split|].
    intros f. by apply preorder_alter.
  - change (lookup_at (i :: j :: path) rs)
      with (q ← rs !! i; lookup_at (j :: path) (rec_children q)) in Hr.
    destruct (rs !! i) as [q|] eqn:Hi; [|done]. simpl in Hr.
    destruct (IH (rec_children q) Hr) as (pre & post & Hpre & Hupd).
    exists (preorder (take i rs) ++ childless q :: pre), (post ++ preorder (drop (S i) rs)).
    split.
    + rewrite (preorder_split _ _ _ Hi), preorder_record_eq, Hpre.
      by rewrite <-!app_assoc, <-app_comm_cons, <-!app_assoc.
    + intros f. change (update_at (i :: j :: path) f rs) with
        (alter (fun r => set_children (update_at (j :: path) f (rec_children r)) r) i rs).
      rewrite (preorder_alter _ _ _ _ Hi), preorder_record_eq.
      rewrite children_set, childless_set, Hupd. by rewrite <-!app_assoc, <-app_comm_cons, <-!app_assoc.
Qed.

Lemma lookup_at_cons i path rs :
  path <> [] -> lookup_at (i :: path) rs = (r ← rs !! i; lookup_at path (rec_children r)).
Proof. by destruct path. Qed.

Lemma update_at_cons i path f rs :
  path <> [] ->
  update_at (i :: path) f rs =
    alter (fun r => set_children (update_at path f (rec_children r)) r) i rs.
Proof. by destruct path. Qed.

Lemma lookup_at_snoc path i rs :
  lookup_at (path ++ [i]) rs = (level ← level_at path rs; level !! i).
Proof.
  revert rs. induction path as [|j path IH]; intros rs; [done|].
  rewrite <-app_comm_cons, lookup_at_cons by (by destruct path).
  destruct (rs !! j) as [r|] eqn:Hj; simpl.
  - rewrite IH. destruct path as [|k path]; simpl; rewrite Hj; [done|]. done.
  - by destruct path; simpl; rewrite Hj.
Qed.

Lemma level_at_snoc path i rs :
  level_at (path ++ [i]) rs = rec_children <$> (level ← level_at path rs; level !! i).
Proof. rewrite <-lookup_at_snoc. by destruct path. Qed.

(** A level in context: the records before and after it. *)
Lemma level_at_hole path rs level :
  level_at path rs = Some level ->
  exists pre post : forest D,
    preorder rs = pre ++ preorder level ++ post /\
    forall f, preorder (update_level path f rs) = pre ++ preorder (f level) ++ post.
Proof.
  destruct path as [|i path].
  - intros [= ->]. exists [], []. split; [by rewrite app_nil_r|].
    intros f. by rewrite app_nil_r.
  - simpl level_at. intros (r & Hr & ->)%fmap_Some.
    destruct (lookup_at_hole (i :: path) rs r Hr) as (pre & post & Hpre & Hupd).
    exists (pre ++ [childless r]), post.
    rewrite Hpre, preorder_record_eq. split; [by rewrite <-app_assoc|].
    intros f. unfold update_level. rewrite Hupd, preorder_record_eq.
    by rewrite children_set, childless_set, <-app_assoc.
Qed.

(** *** [take_next] *)

Lemma record_size_pos r : 0 < record_size r.
Proof. rewrite record_size_children. lia. Qed.

Lemma last_path_nil fuel rs :
  forest_size rs <= fuel -> last_path fuel rs = [] -> rs = [].
Proof.
  destruct (nil_or_snoc rs) as [->|(rs' & r & ->)]; [done|].
  rewrite forest_size_app, forest_size_cons.
  pose proof (record_size_pos r). destruct fuel as [|fuel]; [lia|].
  intros _. simpl. destruct (rs' ++ [r]) eqn:E; [by destruct rs'|done].
Qed.

Lemma update_level_cons i path f rs :
  update_level (i :: path) f rs =
    alter (fun r => set_children (update_level path f (rec_children r)) r) i rs.
Proof. by destruct path. Qed.

Lemma level_at_cons i path rs r :
  rs !! i = Some r -> level_at (i :: path) rs = level_at path (rec_children r).
Proof. intros Hi. destruct path as [|j path]; simpl; by rewrite Hi. Qed.

Lemma preorder_alter_last rs r f :
  preorder (alter f (length rs) (rs ++ [r])) = preorder rs ++ preorder_record (f r).
Proof.
  rewrite (preorder_alter _ _ r) by apply lookup_app_last.
  rewrite take_app_length, drop_ge by (rewrite length_app; simpl; lia).
  by rewrite app_nil_r.
Qed.

(** The path [last_path] finds leads to a level that ends the pre-order. *)
Lemma last_path_level fuel rs path i :
  forest_size rs <= fuel -> last_path fuel rs = path ++ [i] ->
  exists (pre level : forest D) r,
    level_at path rs = Some (level ++ [r]) /\ rec_children r = [] /\
    preorder rs = pre ++ preorder (level ++ [r]) /\
    forall f, preorder (update_level path f rs) = pre ++ preorder (f (level ++ [r])).
Proof.
  revert rs path i. induction fuel as [|fuel IH]; intros rs path i Hfuel Hpath;
    [by destruct path|].
  destruct (nil_or_snoc rs) as [->|(rs' & r & ->)]; [by destruct path|].
  rewrite forest_size_app, forest_size_cons, record_size_children in Hfuel.
  simpl in Hpath. rewrite length_app, Nat.add_comm in Hpath. simpl in Hpath.
  rewrite lookup_app_last in Hpath. destruct path as [|k path].
  - injection Hpath as _ Hnil. apply last_path_nil in Hnil; [|lia].
    by exists [], rs', r.
  - injection Hpath as <- Hpath.
    destruct (IH (rec_children r) path i) as (pre & level & r' & Hl & Hr & Hpre & Hupd);
      [lia|done|].
    exists (preorder rs' ++ childless r :: pre), level, r'. split_and!; [|done|..].
    + by rewrite (level_at_cons _ _ _ r) by apply lookup_app_last.
    + rewrite preorder_app, preorder_cons, preorder_record_eq, Hpre, app_nil_r.
      by rewrite <-app_assoc.
    + intros f. rewrite update_level_cons, preorder_alter_last, preorder_record_eq.
      by rewrite children_set, childless_set, Hupd, <-app_assoc.
Qed.

Lemma preorder_snoc_childless rs r :
  rec_children r = [] -> preorder (rs ++ [r]) = preorder rs ++ [r].
Proof.
  intros Hr. rewrite preorder_app, preorder_cons, preorder_record_eq, Hr.
  destruct r; simpl in *; by subst.
Qed.

(** One call: nothing on an empty forest, otherwise the last record of the
    pre-order leaves, childless, and the rest stands. *)
Lemma take_next_spec rs :
  match take_next rs with
  | None => rs = []
  | Some (r, rs') => rec_children r = [] /\ preorder rs = preorder rs' ++ [r]
  end.
Proof.
  unfold take_next.
  destruct (nil_or_snoc (last_path (forest_size rs) rs)) as [Hnil|(path & i & Hpath)].
  - rewrite Hnil. by eapply last_path_nil.
  - destruct (last_path_level _ _ _ _ (le_n _) Hpath)
      as (pre & level & r & Hlevel & Hr & Hpre & Hupd).
    rewrite Hpath, removelast_snoc, Hlevel. simpl. rewrite last_snoc. simpl.
    destruct (path ++ [i]) eqn:E; [by destruct path|]. simpl. split; [done|].
    by rewrite Hupd, removelast_snoc, Hpre, preorder_snoc_childless, app_assoc.
Qed.

Lemma take_next_None rs : take_next rs = None -> rs = [].
Proof. intros H. pose proof (take_next_spec rs) as Hs. by rewrite H in Hs. Qed.

Lemma take_next_Some rs r rs' :
  take_next rs = Some (r, rs') ->
  rec_children r = [] /\ replay_order rs = r :: replay_order rs'.
Proof.
  intros H. pose proof (take_next_spec rs) as Hs. rewrite H in Hs.
  destruct Hs as [? Hpre]. split; [done|].
  unfold replay_order. by rewrite Hpre, reverse_app.
Qed.

Lemma take_next_nil : take_next (D := D) [] = None.
Proof. done. Qed.

(** *** [find] *)

Definition at_address rs (a : list nat * EffectRecord D) : Prop :=
  lookup_at a.1 rs = Some a.2.

Lemma addressed_spec path rs level :
  level_at path rs = Some level -> Forall (at_address rs) (addressed path level).
Proof.
  intros Hlevel. apply Forall_lookup. intros i [p r].
  unfold addressed. rewrite list_lookup_imap.
  destruct (level !! i) as [r'|] eqn:Hi; [|done]. intros [= <- <-].
  unfold at_address. simpl. by rewrite lookup_at_snoc, Hlevel.
Qed.

Lemma addressed_snd path (level : forest D) : (addressed path level).*2 = level.
Proof.
  unfold addressed. apply list_eq. intros i.
  rewrite list_lookup_fmap, list_lookup_imap. by destruct (level !! i).
Qed.

Lemma forest_size_reverse rs : forest_size (reverse rs) = forest_size rs.
Proof.
  induction rs as [|r rs IH]; [done|].
  rewrite reverse_cons, forest_size_app, !forest_size_cons, IH.
  unfold forest_size. simpl. lia.
Qed.

Lemma level_at_lookup path rs r :
  lookup_at path rs = Some r -> level_at path rs = Some (rec_children r).
Proof. intros H. destruct path; [done|]. unfold level_at. by rewrite H. Qed.

Lemma Forall_preorder_reverse (P : EffectRecord D -> Prop) rs :
  Forall P (preorder (reverse rs)) <-> Forall P (preorder rs).
Proof.
  induction rs as [|r rs IH]; [done|].
  rewrite reverse_cons, preorder_app, !preorder_cons, !Forall_app, IH.
  pose proof (Forall_nil_2 P). unfold preorder at 3. simpl. tauto.
Qed.

Lemma Forall_preorder_cons (P : EffectRecord D -> Prop) r rs :
  Forall P (preorder (r :: rs)) <->
  P (childless r) /\ Forall P (preorder (rec_children r)) /\ Forall P (preorder rs).
Proof.
  rewrite preorder_cons, preorder_record_eq, Forall_app, Forall_cons. tauto.
Qed.

(** No live record of the forest is called [id]. *)
Definition absent (id : EffectId) rs : Prop :=
  Forall (fun r => rec_id r <> id) (preorder rs).

Lemma absent_live_ids id rs : absent id rs <-> id ∉ live_ids rs.
Proof.
  unfold absent, live_ids. rewrite Forall_forall, list_elem_of_fmap. naive_solver.
Qed.

Lemma find_loop_spec fuel id rs (stack : list (list nat * EffectRecord D)) :
  forest_size stack.*2 <= fuel -> Forall (at_address rs) stack ->
  match find_loop fuel id stack with
  | Some path => exists r, lookup_at path rs = Some r /\ rec_id r = id
  | None => absent id stack.*2
  end.
Proof.
  revert stack. induction fuel as [|fuel IH]; intros [|[path r] stack] Hfuel Hstack;
    csimpl; try apply Forall_nil_2; csimpl in Hfuel;
    rewrite forest_size_cons, record_size_children in Hfuel; [lia|].
  apply Forall_cons in Hstack as [Hr Hstack]. unfold at_address in Hr. simpl in Hr.
  case_decide as Hid; [eauto|].
  specialize (IH (reverse (addressed path (rec_children r)) ++ stack)).
  rewrite fmap_app, fmap_reverse, addressed_snd in IH.
  ospecialize (IH _ _).
  { rewrite forest_size_app, forest_size_reverse. lia. }
  { apply Forall_app. split; [|done]. apply Forall_reverse, addressed_spec.
    by apply level_at_lookup. }
  case_match; [done|]. unfold absent in *.
  rewrite preorder_app, Forall_app, Forall_preorder_reverse in IH.
  by rewrite Forall_preorder_cons.
Qed.

Lemma find_record_spec id rs :
  match find_record rs id with
  | Some path => exists r, lookup_at path rs = Some r /\ rec_id r = id
  | None => absent id rs
  end.
Proof.
  pose proof (find_loop_spec (forest_size rs) id rs (reverse (addressed [] rs))) as H.
  rewrite fmap_reverse, addressed_snd, forest_size_reverse in H.
  ospecialize (H _ _); [done|by apply Forall_reverse, addressed_spec|].
  unfold find_record. case_match; [done|]. by apply Forall_preorder_reverse.
Qed.

(** *** [take] *)

Definition at_level_address rs (a : list nat * forest D) : Prop :=
  level_at a.1 rs = Some a.2.

Lemma levels_under_spec path rs level :
  level_at path rs = Some level ->
  Forall (at_level_address rs) (levels_under path level).
Proof.
  intros Hlevel. apply Forall_lookup. intros i [p l].
  unfold levels_under. rewrite list_lookup_imap.
  destruct (level !! i) as [r'|] eqn:Hi; [|done]. intros [= <- <-].
  unfold at_level_address. simpl. by rewrite level_at_snoc, Hlevel; simpl; rewrite Hi.
Qed.

Lemma levels_under_snd path (level : forest D) :
  (levels_under path level).*2 = map rec_children level.
Proof.
  unfold levels_under. apply list_eq. intros i.
  rewrite list_lookup_fmap, list_lookup_imap.
  change (map rec_children level) with (rec_children <$> level).
  rewrite list_lookup_fmap. by destruct (level !! i).
Qed.

(** The measure of the levels loop: each level costs one turn, and so does
    every record of it, for the level its children are. *)
Definition levels_weight (levels : list (forest D)) : nat :=
  sum_list (map (fun l => S (forest_size l)) levels).

Lemma levels_weight_app l1 l2 :
  levels_weight (l1 ++ l2) = levels_weight l1 + levels_weight l2.
Proof. unfold levels_weight. induction l1; simpl; lia. Qed.

Lemma levels_weight_reverse l : levels_weight (reverse l) = levels_weight l.
Proof.
  induction l as [|x l IH]; [done|].
  rewrite reverse_cons, levels_weight_app, IH. unfold levels_weight. simpl. lia.
Qed.

Lemma levels_weight_children rs : levels_weight (map rec_children rs) = forest_size rs.
Proof.
  induction rs as [|r rs IH]; [done|].
  rewrite forest_size_cons, record_size_children, <-IH. done.
Qed.

Lemma Forall_absent_children id rs :
  Forall (fun r => rec_id r <> id) rs -> Forall (absent id) (map rec_children rs) ->
  absent id rs.
Proof.
  induction rs as [|r rs IH]; [by constructor|]. simpl.
  rewrite !Forall_cons. intros [Hr Hrs] [Hcr Hcrs].
  apply Forall_preorder_cons. unfold absent in *. auto.
Qed.

Lemma take_loop_spec fuel id rs (stack : list (list nat * forest D)) :
  levels_weight stack.*2 <= fuel -> Forall (at_level_address rs) stack ->
  match take_loop fuel id stack with
  | Some (path, index) => exists level r,
      level_at path rs = Some level /\ level !! index = Some r /\ rec_id r = id
  | None => Forall (absent id) stack.*2
  end.
Proof.
  revert stack. induction fuel as [|fuel IH]; intros [|[path level] stack] Hfuel Hstack;
    csimpl; try apply Forall_nil_2; csimpl in Hfuel;
    [unfold levels_weight in Hfuel; simpl in Hfuel; lia|].
  apply Forall_cons in Hstack as [Hlevel Hstack].
  unfold at_level_address in Hlevel. simpl in Hlevel.
  destruct (position _ level) as [index|] eqn:Hpos.
  - apply position_Some in Hpos as (r & Hr & Hid & _).
    exists level, r. split_and!; [done..|]. by apply bool_decide_eq_true in Hid.
  - apply position_None in Hpos.
    specialize (IH (reverse (levels_under path level) ++ stack)).
    rewrite fmap_app, fmap_reverse, levels_under_snd in IH.
    ospecialize (IH _ _).
    { rewrite levels_weight_app, levels_weight_reverse, levels_weight_children.
      unfold levels_weight in *. csimpl in Hfuel. lia. }
    { apply Forall_app. split; [|done]. by apply Forall_reverse, levels_under_spec. }
    destruct (take_loop fuel id _) as [[]|]; [done|].
    rewrite Forall_app, Forall_reverse in IH. constructor; [|by apply IH].
    apply Forall_absent_children; [|by apply IH].
    eapply Forall_impl; [exact Hpos|]. intros r. simpl. by rewrite bool_decide_eq_false.
Qed.

Lemma preorder_remove_at rs i r :
  rs !! i = Some r ->
  preorder (remove_at i rs) = preorder (take i rs) ++ preorder (drop (S i) rs).
Proof. intros _. unfold remove_at. apply preorder_app. Qed.

(** A removal takes one whole subtree out of the pre-order, and a miss means
    that no live record has the identity. *)
Lemma take_record_spec id rs :
  match take_record rs id with
  | Some (r, rs') => rec_id r = id /\ exists pre post : forest D,
      preorder rs = pre ++ preorder_record r ++ post /\ preorder rs' = pre ++ post
  | None => absent id rs
  end.
Proof.
  pose proof (take_loop_spec (S (forest_size rs)) id rs [([], rs)]) as H.
  ospecialize (H _ _); [unfold levels_weight; simpl; lia|by repeat constructor|].
  unfold take_record. destruct (take_loop _ id _) as [[path index]|]; simpl.
  - destruct H as (level & r & Hlevel & Hr & Hid). rewrite Hlevel. simpl. rewrite Hr. simpl.
    split; [done|].
    destruct (level_at_hole _ _ _ Hlevel) as (pre & post & Hpre & Hupd).
    exists (pre ++ preorder (take index level)), (preorder (drop (S index) level) ++ post).
    rewrite Hpre, Hupd, (preorder_split _ _ _ Hr), (preorder_remove_at _ _ _ Hr).
    by rewrite <-!app_assoc.
  - by apply Forall_cons in H as [H _].
Qed.

(** *** [describe] *)

(** What the first pass indexes: each record with its parent's index, at
    consecutive indices from [base]. *)
Fixpoint record_nodes (base : nat) (parent : option nat) r
    : list (EffectRecord D * option nat) :=
  (r, parent) ::
    (fix go (base' : nat) (rs : forest D) :=
       match rs with
       | [] => []
       | c :: rs => record_nodes base' (Some base) c ++ go (base' + record_size c) rs
       end) (S base) (rec_children r).

Fixpoint stack_nodes (base : nat) (stack : list (EffectRecord D * option nat))
    : list (EffectRecord D * option nat) :=
  match stack with
  | [] => []
  | (r, parent) :: stack =>
      record_nodes base parent r ++ stack_nodes (base + record_size r) stack
  end.

Definition under (parent : option nat) rs : list (EffectRecord D * option nat) :=
  map (fun r => (r, parent)) rs.

Lemma under_fst parent rs : (under parent rs).*1 = rs.
Proof. induction rs as [|r rs IH]; csimpl; [done|]. by rewrite IH. Qed.

Lemma record_nodes_eq base parent r :
  record_nodes base parent r =
    (r, parent) :: stack_nodes (S base) (under (Some base) (rec_children r)).
Proof.
  destruct r as [id label d drain suspend cs]. simpl. f_equal.
  generalize (S base) as n. induction cs as [|c cs IH]; intros n; simpl; [done|].
  by rewrite IH.
Qed.

Lemma length_stack_nodes rs base parent :
  length (stack_nodes base (under parent rs)) = forest_size rs.
Proof.
  revert base parent. refine (forest_induction
    (fun r => forall base parent, length (record_nodes base parent r) = record_size r)
    (fun rs => forall base parent,
      length (stack_nodes base (under parent rs)) = forest_size rs) _ _ _ rs).
  - intros ?????? IH base parent. rewrite record_nodes_eq, record_size_children.
    simpl. by rewrite IH.
  - done.
  - intros r rs' Hr Hrs base parent. simpl. by rewrite length_app, Hr, Hrs.
Qed.

Lemma length_record_nodes base parent r :
  length (record_nodes base parent r) = record_size r.
Proof.
  by rewrite record_nodes_eq, record_size_children; simpl; rewrite length_stack_nodes.
Qed.

Lemma stack_nodes_app base rs parent (stack : list (EffectRecord D * option nat)) :
  stack_nodes base (under parent rs ++ stack) =
    stack_nodes base (under parent rs) ++ stack_nodes (base + forest_size rs) stack.
Proof.
  revert base. induction rs as [|r rs IH]; intros base; simpl; [by rewrite Nat.add_0_r|].
  rewrite IH, forest_size_cons, Nat.add_assoc. by rewrite app_assoc.
Qed.

Lemma nodes_loop_spec fuel (stack nodes : list (EffectRecord D * option nat)) :
  forest_size stack.*1 <= fuel ->
  nodes_loop fuel stack nodes = nodes ++ stack_nodes (length nodes) stack.
Proof.
  revert stack nodes. induction fuel as [|fuel IH]; intros [|[r parent] stack] nodes;
    csimpl; rewrite ?forest_size_cons, ?record_size_children; intros Hfuel; try lia;
    [by rewrite app_nil_r|by rewrite app_nil_r|].
  change (map (fun child => (child, Some (length nodes))) (rec_children r))
    with (under (Some (length nodes)) (rec_children r)).
  rewrite IH.
  - rewrite stack_nodes_app, length_app, record_nodes_eq. simpl.
    rewrite <-!app_assoc. simpl. do 2 f_equal.
    by rewrite Nat.add_1_r, Nat.add_succ_l, Nat.add_succ_r.
  - rewrite fmap_app, forest_size_app, under_fst. lia.
Qed.

(** The second pass over a segment of siblings: their descriptors reach the
    parent's list (or the roots) from the last to the first, and every slot
    of the segment is empty again. *)
Definition attach (parent : option nat) (ds : list EffectDescriptor)
    (st : list (list EffectDescriptor) * list EffectDescriptor) :=
  match parent with
  | Some p => (alter (fun b => b ++ ds) p st.1, st.2)
  | None => (st.1, st.2 ++ ds)
  end.

Lemma build_segment rs : forall parent pre post built roots,
  (forall p, parent = Some p -> p < length pre) ->
  (forall i, length pre <= i < length pre + forest_size rs -> built !! i = Some []) ->
  let nodes := pre ++ stack_nodes (length pre) (under parent rs) ++ post in
  let st := attach parent (reverse (map descriptor rs)) (built, roots) in
  build_loop (length pre + forest_size rs) nodes built roots =
    build_loop (length pre) nodes st.1 st.2.
Proof.
  revert rs. refine (forest_induction (fun r => forall parent pre post built roots,
    (forall p, parent = Some p -> p < length pre) ->
    (forall i, length pre <= i < length pre + record_size r -> built !! i = Some []) ->
    let nodes := pre ++ record_nodes (length pre) parent r ++ post in
    let st := attach parent [descriptor r] (built, roots) in
    build_loop (length pre + record_size r) nodes built roots =
      build_loop (length pre) nodes st.1 st.2) _ _ _ _).
  - (* a record: first its children, then itself *)
    intros id label d drain suspend cs IH parent pre post built roots Hp Hb.
    rewrite record_size_children in Hb |- *. rewrite record_nodes_eq.
    cbn [rec_children] in *.
    set (r := MkRecord id label d drain suspend cs).
    specialize (IH (Some (length pre)) (pre ++ [(r, parent)]) post built roots).
    rewrite length_app in IH. simpl length in IH.
    replace (length pre + 1) with (S (length pre)) in IH by lia.
    ospecialize (IH _ _); [intros p [= <-]; lia|intros i Hi; apply Hb; lia|].
    rewrite <-!app_assoc in IH. simpl in IH.
    rewrite Nat.add_succ_r. simpl.
    rewrite IH. clear IH.
    rewrite lookup_app_r, Nat.sub_diag by lia. simpl.
    rewrite (alter_as_insert _ _ _ _ (Hb (length pre) ltac:(lia))). simpl.
    rewrite list_lookup_insert_eq by (eapply lookup_lt_Some, Hb; lia). simpl.
    rewrite reverse_involutive, list_insert_insert_eq, list_insert_id by (apply Hb; lia).
    by destruct parent.
  - intros parent pre post built roots Hp Hb nodes st. simpl in *.
    subst nodes st. unfold forest_size. simpl. rewrite Nat.add_0_r.
    destruct parent as [p|]; simpl; [|by rewrite app_nil_r].
    f_equal. symmetry. apply list_alter_id. intros b. apply app_nil_r.
  - (* a forest: its last trees first *)
    intros r rs' Hr Hrs parent pre post built roots Hp Hb nodes st.
    rewrite forest_size_cons in *. subst nodes. simpl under. simpl stack_nodes.
    specialize (Hrs parent (pre ++ record_nodes (length pre) parent r) post built roots).
    rewrite length_app, length_record_nodes in Hrs.
    ospecialize (Hrs _ _); [intros p ->; specialize (Hp p eq_refl); lia
      |intros i Hi; apply Hb; lia|].
    rewrite <-!app_assoc in *. rewrite Nat.add_assoc, Hrs. clear Hrs.
    rewrite (Hr parent pre _ _ _ Hp).
    + subst st. simpl map. rewrite reverse_cons.
      destruct parent as [p|]; simpl.
      * rewrite list_alter_alter_eq. f_equal. apply list_alter_ext; [|done].
        intros b _. simpl. by rewrite app_assoc.
      * by rewrite (app_assoc roots).
    + intros i Hi. destruct parent as [p|]; simpl; [|apply Hb; lia].
      specialize (Hp p eq_refl). rewrite list_lookup_alter_ne by lia. apply Hb. lia.
Qed.

Theorem describe_correct rs : describe rs = map descriptor rs.
Proof.
  unfold describe. change (map (fun r => (r, None)) rs) with (under None rs).
  rewrite nodes_loop_spec by (by rewrite under_fst).
  simpl length. rewrite app_nil_l.
  rewrite length_stack_nodes.
  pose proof (build_segment rs None [] [] (replicate (forest_size rs) []) []) as H.
  simpl in H. rewrite app_nil_r in H. rewrite H.
  - apply reverse_involutive.
  - done.
  - intros i Hi. apply lookup_replicate. split; [done|lia].
Qed.

(** *** Registering under a parent *)

(** [parent.children.push(record)] through the reference [find] returned. *)
Definition push_child (path : list nat) (child : EffectRecord D) rs : forest D :=
  update_at path (fun parent => set_children (rec_children parent ++ [child]) parent) rs.

Lemma preorder_push_child path parent child rs :
  lookup_at path rs = Some parent -> rec_children child = [] ->
  exists pre post : forest D,
    preorder rs = pre ++ preorder_record parent ++ post /\
    preorder (push_child path child rs) = pre ++ preorder_record parent ++ [child] ++ post.
Proof.
  intros Hparent Hchild.
  destruct (lookup_at_hole _ _ _ Hparent) as (pre & post & Hpre & Hupd).
  exists pre, post. split; [done|]. unfold push_child.
  rewrite Hupd, !preorder_record_eq, children_set, childless_set.
  rewrite preorder_snoc_childless by done. by rewrite <-!app_comm_cons, <-!app_assoc.
Qed.

(** *** A whole teardown, one record at a time *)

Fixpoint take_all (fuel : nat) rs : forest D * forest D :=
  match fuel with
  | 0 => ([], rs)
  | S fuel =>
      match take_next rs with
      | None => ([], rs)
      | Some (r, rs') => let '(taken, standing) := take_all fuel rs' in (r :: taken, standing)
      end
  end.

Lemma forest_size_replay rs : forest_size rs = length (replay_order rs).
Proof. unfold replay_order. by rewrite length_reverse, length_preorder. Qed.

Lemma take_all_spec fuel rs :
  (take_all fuel rs).1 = take fuel (replay_order rs) /\
  replay_order (take_all fuel rs).2 = drop fuel (replay_order rs).
Proof.
  revert rs. induction fuel as [|fuel IH]; intros rs; simpl.
  - by rewrite take_0, drop_0.
  - destruct (take_next rs) as [[r rs']|] eqn:Hnext.
    + apply take_next_Some in Hnext as [_ ->].
      destruct (take_all fuel rs') as [taken standing] eqn:Hall. simpl.
      specialize (IH rs'). rewrite Hall in IH. simpl in IH.
      destruct IH as [-> ->]. done.
    + apply take_next_None in Hnext as ->. simpl. done.
Qed.

Lemma replay_order_nil rs : replay_order rs = [] <-> rs = [].
Proof.
  unfold replay_order. rewrite <-(preorder_nil rs).
  destruct (preorder rs) as [|r l]; [by split|]. rewrite reverse_cons.
  split; [|done]. intros H. by destruct (reverse l).
Qed.
End Orders.

#[export] Hint Rewrite @forest_size_cons @forest_size_app @record_size_children : jinnd.
#[export] Hint Resolve take_next_nil preorder_childless : jinnd.

(** ** Properties *)

(** Each pending phase is collected once, and the forest keeps the rest. *)
Lemma drains_spec {D} (roots : forest D) :
  let '(phases, roots') := drains roots in
  phases = omap drain_of (flatten roots) /\
  (drains roots').1 = [] /\
  map (fun r => (rec_id r, rec_label r, rec_disposer r, rec_suspend r)) (flatten roots') =
  map (fun r => (rec_id r, rec_label r, rec_disposer r, rec_suspend r)) (flatten roots).
Proof.
  destruct (drains roots) as [phases roots'] eqn:Hd.
  assert (phases = (drains roots).1) as -> by (by rewrite Hd).
  assert (roots' = map undrained roots) as -> by (injection Hd; auto).
  rewrite !drains_collected, !flatten_correct. unfold replay_order.
  rewrite !preorder_undrained. split_and!; [done|..].
  - by rewrite omap_reverse, omap_drain_undrained.
  - change @map with (fun A B f l => @fmap list _ A B f l). cbv beta.
    rewrite !fmap_reverse. f_equal. rewrite <-list_fmap_compose.
    apply list_fmap_ext. by intros i [] _.
Qed.

(** Repeated [take_next] withdraws the forest in exactly the order
    [flatten] produces, and a teardown that stops after [n] records leaves
    exactly the rest of that order standing. *)
Theorem take_next_follows_flatten {D} (roots : forest D) (n : nat) :
  (take_all n roots).1 = take n (flatten roots) /\
  flatten (take_all n roots).2 = drop n (flatten roots) /\
  (forest_size roots <= n <-> (take_all n roots).2 = []).
Proof.
  rewrite !flatten_correct. destruct (take_all_spec n roots) as [H1 H2].
  split_and!; [done..|].
  rewrite <-replay_order_nil, H2, forest_size_replay. split.
  - intros. by apply drop_ge.
  - intros Hnil. apply (f_equal length) in Hnil. rewrite length_drop in Hnil.
    simpl in Hnil. lia.
Qed.

(** The two-pass, non-recursive [describe] publishes exactly the forest:
    every record once, with its label and its nesting, in registration order. *)
Theorem describe_publishes_forest {D} (roots : forest D) :
  describe roots = map descriptor roots.
Proof. apply describe_correct. Qed.

(** [drains] takes every pending drain phase of the forest in replay order
    and nothing else: afterwards no phase is pending (a drain runs at most
    once) and the same records are still live, in the same order, with their
    inverses still owed. *)
Theorem drains_take_each_phase_once {D} (roots : forest D) :
  let '(phases, roots') := drains roots in
  phases = omap drain_of (flatten roots) /\
  (drains roots').1 = [] /\
  map (fun r => (rec_id r, rec_label r, rec_disposer r, rec_suspend r)) (flatten roots') =
  map (fun r => (rec_id r, rec_label r, rec_disposer r, rec_suspend r)) (flatten roots).
Proof. apply drains_spec. Qed.

(** Detaching one effect ([take]) removes exactly that effect's subtree:
    the rest of the replay order is unchanged. It answers [None] exactly when
    no live effect has the identity. *)
Theorem take_removes_one_subtree {D} (roots : forest D) (id : EffectId) :
  match take_record roots id with
  | Some (r, roots') => rec_id r = id /\ exists before after : forest D,
      flatten roots = after ++ flatten [r] ++ before /\
      flatten roots' = after ++ before
  | None => id ∉ live_ids roots
  end.
Proof.
  pose proof (take_record_spec id roots) as H.
  destruct (take_record roots id) as [[r roots']|]; [|by apply absent_live_ids].
  destruct H as (Hid & pre & post & Hpre & Hpost). split; [done|].
  exists (reverse pre), (reverse post). rewrite !flatten_correct. unfold replay_order.
  rewrite Hpre, Hpost, !reverse_app, preorder_cons. unfold preorder at 1. simpl.
  by rewrite app_nil_r, <-app_assoc.
Qed.
