(* ===== verification/Programs.v ===== *)
(** * Plugin-authored code: futures, inverses and panic containment

    [crates/jinnd-effects/src/{contain,undo,disposer,report}.rs] and the
    driver of [withdrawal.rs].

    The kernel runs code it does not own: the closures and futures of
    plugins. They are arbitrary programs over a world [W] (everything a plugin
    can touch): a future is polled, answers [Pending] or settles, may panic
    while it is polled, and its destructor may panic too. The inductive type
    says one thing more, that a future which keeps being polled settles. *)

From stdpp Require Import base gmap sets list strings.
From S2P Require Import Prelude Api EffectTree.

(** ** What is run *)

(** Running a destructor: the world changes, and a panic may be raised. A
    second panic while the first unwinds aborts the process and is outside the
    model. *)
Definition destructor (W : Type) : Type := W -> W * option string.

Definition no_destructor {W} : destructor W := fun w => (w, None).

(** [panic] of a settled poll: the payload, rendered. *)
Definition settled (A : Type) : Type := result A KernelError + string.

(** [KernelFuture<T>]: one poll answers the future itself, still pending, or
    how it settled with the destructor of what is left. *)
Inductive KernelFuture (W A : Type) : Type :=
  | Future (poll : W -> W * (KernelFuture W A + settled A * destructor W))
           (dropping : destructor W).
Arguments Future {W A}.

Definition poll {W A} (f : KernelFuture W A) :=
  match f with Future p _ => p end.
Definition dropping {W A} (f : KernelFuture W A) : destructor W :=
  match f with Future _ d => d end.

(** A boxed [FnOnce() -> KernelFuture]: calling it may panic, and so may
    dropping it without ever calling it. *)
Record action (W A : Type) := MkAction {
  make : W -> W * (KernelFuture W A + string);
  discard : destructor W;
}.
Arguments MkAction {W A}.
Arguments make {W A}.
Arguments discard {W A}.

(** [Disposer]: the forms an inverse can take. The cancellation token of a
    stepwise inverse is a cell of the world. *)
Inductive Disposer (W : Type) : Type :=
  | Whole (undo : action W unit)
  | Stepwise (steps : list (action W unit)) (is_cancelled : W -> bool).
Arguments Whole {W}.
Arguments Stepwise {W}.

Inductive UndoOutcome :=
  | UndoDone
  | UndoCancelled (completed remaining : nat)
  | UndoFailed (error : KernelError)
  | UndoPanicked (panic : string)
  | UndoInterrupted (panic : option string).

#[export] Instance UndoOutcome_eq_dec : EqDecision UndoOutcome.
Proof. solve_decision. Defined.

Definition is_done (o : UndoOutcome) : bool :=
  match o with UndoDone => true | _ => false end.

Record EffectReport := MkEffectReport {
  report_id : EffectId;
  report_label : string;
  report_outcome : UndoOutcome;
}.

Definition ReplayReport := list EffectReport.

Definition is_clean (report : ReplayReport) : bool :=
  forallb (fun line => is_done (report_outcome line)) report.

Definition unclean (report : ReplayReport) : list EffectReport :=
  filter (fun line => is_done (report_outcome line) = false) report.

(** ** Containment *)

Section Contain.
Context {W A : Type}.

(** The states of [contained(make)] between two polls. *)
Inductive containing :=
  | Making (a : action W A)
  | Polling (f : KernelFuture W A).

(** [Contained::poll]: once the future settled it is dropped, and a panic of
    its destructor outranks what it returned. *)
Definition contained_poll_future (f : KernelFuture W A) (w : W)
    : W * (containing + settled A) :=
  match poll f w with
  | (w, inl f) => (w, inl (Polling f))
  | (w, inr (outcome, drop_spent)) =>
      match drop_spent w with
      | (w, Some panic) => (w, inr (inr panic))
      | (w, None) => (w, inr outcome)
      end
  end.

(** [contained]: a panic while the future is made is a value too. *)
Definition contained_poll (c : containing) (w : W) : W * (containing + settled A) :=
  match c with
  | Making a =>
      match make a w with
      | (w, inl f) => contained_poll_future f w
      | (w, inr payload) => (w, inr (inr payload))
      end
  | Polling f => contained_poll_future f w
  end.

Definition contained_drop (c : containing) : destructor W :=
  match c with Making a => discard a | Polling f => dropping f end.

(** The same future awaited to its end. *)
Fixpoint run_future (f : KernelFuture W A) (w : W) : W * settled A :=
  match f with
  | Future poll _ =>
      match poll w with
      | (w, inl f) => run_future f w
      | (w, inr (outcome, drop_spent)) =>
          match drop_spent w with
          | (w, Some panic) => (w, inr panic)
          | (w, None) => (w, outcome)
          end
      end
  end.

Definition run_contained (a : action W A) (w : W) : W * settled A :=
  match make a w with
  | (w, inl f) => run_future f w
  | (w, inr payload) => (w, inr payload)
  end.
End Contain.
Arguments containing : clear implicits.

(** ** Driving one inverse ([withdrawal.rs]) *)

Section Driver.
Context {W : Type}.

Definition classify (r : settled unit) : UndoOutcome :=
  match r with
  | inl (Ok tt) => UndoDone
  | inl (Err failure) => UndoFailed failure
  | inr panic => UndoPanicked panic
  end.

(** Dropping a sequence drops every element; the first panic is the one
    reported. *)
Fixpoint drop_actions {A} (steps : list (action W A)) (w : W) : W * option string :=
  match steps with
  | [] => (w, None)
  | a :: steps =>
      let '(w, first) := discard a w in
      let '(w, later) := drop_actions steps w in
      (w, match first with Some p => Some p | None => later end)
  end.

Definition drop_disposer (d : Disposer W) : destructor W :=
  match d with
  | Whole undo => discard undo
  | Stepwise steps _ => drop_actions steps
  end.

(** What is in flight of [withdraw(disposer)] between two polls. *)
Inductive driver :=
  | Unstarted (d : Disposer W)
  | DrivingWhole (c : containing W unit)
  | DrivingStep (c : containing W unit) (rest : list (action W unit))
      (is_cancelled : W -> bool) (completed : nat).

(** The end of [withdraw_steps]: the steps that never ran are discarded. *)
Definition stop_steps (rest : list (action W unit)) (outcome : UndoOutcome) (w : W)
    : W * UndoOutcome :=
  match drop_actions rest w with
  | (w, Some panic) => (w, UndoPanicked panic)
  | (w, None) => (w, outcome)
  end.

(** The loop of [withdraw_steps], up to the next pending step. *)
Fixpoint steps_poll (rest : list (action W unit)) (is_cancelled : W -> bool)
    (completed : nat) (w : W) : W * (driver + UndoOutcome) :=
  match rest with
  | [] => (w, inr UndoDone)
  | step :: later =>
      if is_cancelled w then
        let '(w, o) := stop_steps rest (UndoCancelled completed (length rest)) w in
        (w, inr o)
      else
        match contained_poll (Making step) w with
        | (w, inl c) => (w, inl (DrivingStep c later is_cancelled completed))
        | (w, inr verdict) =>
            match classify verdict with
            | UndoDone => steps_poll later is_cancelled (S completed) w
            | stopped =>
                let '(w, o) := stop_steps later stopped w in (w, inr o)
            end
        end
  end.

Definition driver_poll (d : driver) (w : W) : W * (driver + UndoOutcome) :=
  let whole c :=
    match contained_poll c w with
    | (w, inl c) => (w, inl (DrivingWhole c))
    | (w, inr verdict) => (w, inr (classify verdict))
    end in
  match d with
  | Unstarted (Whole undo) => whole (Making undo)
  | Unstarted (Stepwise steps is_cancelled) => steps_poll steps is_cancelled 0 w
  | DrivingWhole c => whole c
  | DrivingStep c rest is_cancelled completed =>
      match contained_poll c w with
      | (w, inl c) => (w, inl (DrivingStep c rest is_cancelled completed))
      | (w, inr verdict) =>
          match classify verdict with
          | UndoDone => steps_poll rest is_cancelled (S completed) w
          | stopped => let '(w, o) := stop_steps rest stopped w in (w, inr o)
          end
      end
  end.

(** Dropping an unfinished driver drops what it holds. *)
Definition driver_drop (d : driver) (w : W) : W * option string :=
  match d with
  | Unstarted d => drop_disposer d w
  | DrivingWhole c => contained_drop c w
  | DrivingStep c rest _ _ =>
      let '(w, first) := contained_drop c w in
      let '(w, later) := drop_actions rest w in
      (w, match first with Some p => Some p | None => later end)
  end.

(** [withdraw(disposer).await], to its end. *)
Fixpoint run_steps (rest : list (action W unit)) (is_cancelled : W -> bool)
    (completed : nat) (w : W) : W * UndoOutcome :=
  match rest with
  | [] => (w, UndoDone)
  | step :: later =>
      if is_cancelled w then stop_steps rest (UndoCancelled completed (length rest)) w
      else
        match run_contained step w with
        | (w, verdict) =>
            match classify verdict with
            | UndoDone => run_steps later is_cancelled (S completed) w
            | stopped => stop_steps later stopped w
            end
        end
  end.

Definition withdraw (d : Disposer W) (w : W) : W * UndoOutcome :=
  match d with
  | Whole undo => let '(w, verdict) := run_contained undo w in (w, classify verdict)
  | Stepwise steps is_cancelled => run_steps steps is_cancelled 0 w
  end.

(** Polling a driver [n] times at most. *)
Fixpoint polls (n : nat) (d : driver) (w : W) : W * (driver + UndoOutcome) :=
  match n with
  | 0 => (w, inl d)
  | S n =>
      match driver_poll d w with
      | (w, inl d) => polls n d w
      | (w, inr o) => (w, inr o)
      end
  end.
End Driver.
Arguments driver : clear implicits.

(** ** Polling reaches the awaited result *)

Section FutureInduction.
Context {W A : Type} (P : KernelFuture W A -> Prop).
Context (Hstep : forall p dr,
  (forall w, match p w with (_, inl f) => P f | _ => True end) -> P (Future p dr)).

Fixpoint future_induction (f : KernelFuture W A) : P f :=
  match f with
  | Future p dr =>
      Hstep p dr (fun w =>
        match p w as r return match r with (_, inl f) => P f | _ => True end with
        | (_, inl f) => future_induction f
        | (_, inr _) => I
        end)
  end.
End FutureInduction.

Section Settling.
Context {W : Type}.
Implicit Types (d : driver W) (w : W) (o : UndoOutcome).

(** [d] polled from [w] settles with [o] in world [w'], in finitely many
    polls. *)
Definition settles d w w' o : Prop := exists n, polls n d w = (w', inr o).

Lemma settles_now d w w' o : driver_poll d w = (w', inr o) -> settles d w w' o.
Proof. intros H. exists 1. simpl. by rewrite H. Qed.

Lemma settles_later d w d' w1 w' o :
  driver_poll d w = (w1, inl d') -> settles d' w1 w' o -> settles d w w' o.
Proof. intros H [n Hn]. exists (S n). simpl. by rewrite H. Qed.

Lemma settles_det d w w1 o1 w2 o2 :
  settles d w w1 o1 -> settles d w w2 o2 -> w1 = w2 /\ o1 = o2.
Proof.
  intros [n Hn] [m Hm]. revert d w m Hn Hm.
  induction n as [|n IH]; intros d w [|m] Hn Hm; simpl in *; try done.
  destruct (driver_poll d w) as [w' [d'|o]]; [by eapply IH|]. by simplify_eq.
Qed.

(** One poll that answered [r] ends, after more polls if need be, in [e]. *)
Definition resolves (r : W * (driver W + UndoOutcome)) (e : W * UndoOutcome) : Prop :=
  match r with
  | (w, inl d) => settles d w e.1 e.2
  | (w, inr o) => (w, o) = e
  end.

Lemma resolves_settles d w e : resolves (driver_poll d w) e -> settles d w e.1 e.2.
Proof.
  unfold resolves. destruct (driver_poll d w) as [w1 [d1|o]] eqn:Hd.
  - by apply settles_later.
  - intros <-. by apply settles_now.
Qed.

Lemma settles_resolves d w e : settles d w e.1 e.2 -> resolves (driver_poll d w) e.
Proof.
  intros [[|n] Hn]; simpl in Hn; [done|]. unfold resolves.
  destruct (driver_poll d w) as [w1 [d1|o]]; [by exists n|].
  destruct e. by simplify_eq/=.
Qed.

(** A driver built around a contained future: it stays [wrap] while the
    future is pending, and goes on with [cont] once it settled. *)
Lemma wrapped_resolves (wrap : containing W unit -> driver W)
    (cont : settled unit -> W -> W * (driver W + UndoOutcome))
    (k : W * settled unit -> W * UndoOutcome) :
  (forall c w, driver_poll (wrap c) w =
     match contained_poll c w with
     | (w, inl c) => (w, inl (wrap c))
     | (w, inr v) => cont v w
     end) ->
  (forall v w, resolves (cont v w) (k (w, v))) ->
  forall f w, resolves (driver_poll (wrap (Polling f)) w) (k (run_future f w)).
Proof.
  intros Hpoll Hcont f. induction f as [p dr IH] using future_induction. intros w.
  specialize (IH w). rewrite Hpoll. simpl. unfold contained_poll_future. simpl.
  destruct (p w) as [w1 [f|[v drop_spent]]].
  - by apply resolves_settles.
  - destruct (drop_spent w1) as [w2 [panic|]]; apply Hcont.
Qed.

Lemma wrapped_making_resolves (wrap : containing W unit -> driver W)
    (cont : settled unit -> W -> W * (driver W + UndoOutcome))
    (k : W * settled unit -> W * UndoOutcome) a w :
  (forall c w, driver_poll (wrap c) w =
     match contained_poll c w with
     | (w, inl c) => (w, inl (wrap c))
     | (w, inr v) => cont v w
     end) ->
  (forall v w, resolves (cont v w) (k (w, v))) ->
  resolves (driver_poll (wrap (Making a)) w) (k (run_contained a w)).
Proof.
  intros Hpoll Hcont. rewrite Hpoll. simpl. unfold run_contained.
  destruct (make a w) as [w1 [f|payload]]; [|by apply Hcont].
  pose proof (wrapped_resolves wrap cont k Hpoll Hcont f w1) as H.
  by rewrite Hpoll in H.
Qed.

Definition after_step (rest : list (action W unit)) (is_cancelled : W -> bool)
    (completed : nat) (r : W * settled unit) : W * UndoOutcome :=
  match classify r.2 with
  | UndoDone => run_steps rest is_cancelled (S completed) r.1
  | stopped => stop_steps rest stopped r.1
  end.

Definition after_step_poll (rest : list (action W unit)) (is_cancelled : W -> bool)
    (completed : nat) (v : settled unit) (w : W) : W * (driver W + UndoOutcome) :=
  match classify v with
  | UndoDone => steps_poll rest is_cancelled (S completed) w
  | stopped => let '(w, o) := stop_steps rest stopped w in (w, inr o)
  end.

Lemma steps_resolve rest is_cancelled completed w :
  resolves (steps_poll rest is_cancelled completed w)
    (run_steps rest is_cancelled completed w).
Proof.
  revert completed w. induction rest as [|step later IH]; intros completed w; [done|].
  simpl. destruct (is_cancelled w).
  { by destruct (stop_steps _ _ _). }
  assert (Hcont : forall v w, resolves (after_step_poll later is_cancelled completed v w)
                               (after_step later is_cancelled completed (w, v))).
  { intros v w'. unfold after_step_poll, after_step. simpl.
    destruct (classify v); [apply IH|..]; by destruct (stop_steps _ _ _). }
  pose proof (wrapped_making_resolves
    (fun c => DrivingStep c later is_cancelled completed)
    (after_step_poll later is_cancelled completed)
    (after_step later is_cancelled completed) step w (fun _ _ => eq_refl) Hcont) as H.
  unfold after_step in H. by destruct (run_contained step w).
Qed.

Lemma withdraw_settles (d : Disposer W) w :
  settles (Unstarted d) w (withdraw d w).1 (withdraw d w).2.
Proof.
  apply resolves_settles. destruct d as [undo|steps is_cancelled]; simpl.
  - pose proof (wrapped_making_resolves DrivingWhole
      (fun v w => (w, inr (classify v))) (fun r => (r.1, classify r.2)) undo w
      (fun _ _ => eq_refl) (fun _ _ => eq_refl)) as H.
    by destruct (run_contained undo w).
  - apply steps_resolve.
Qed.

(** A driver settles from wherever it stands. *)
Lemma driver_settles d w : exists w' o, settles d w w' o.
Proof.
  assert (forall wrap cont k (c : containing W unit),
    (forall c w, driver_poll (wrap c) w =
       match contained_poll c w with
       | (w, inl c) => (w, inl (wrap c))
       | (w, inr v) => cont v w
       end) ->
    (forall v w, resolves (cont v w) (k (w, v))) ->
    exists w' o, settles (wrap c) w w' o) as Hwrap.
  { intros wrap cont k [a|f] Hpoll Hcont; eexists _, _; apply resolves_settles.
    - by apply (wrapped_making_resolves wrap cont k).
    - by apply (wrapped_resolves wrap cont k). }
  destruct d as [d|c|c rest is_cancelled completed].
  - eexists _, _. apply withdraw_settles.
  - by apply (Hwrap DrivingWhole (fun v w => (w, inr (classify v))) (fun r => (r.1, classify r.2))).
  - apply (Hwrap (fun c => DrivingStep c rest is_cancelled completed)
      (after_step_poll rest is_cancelled completed) (after_step rest is_cancelled completed));
      [done|]. intros v w'. unfold after_step_poll, after_step. simpl.
    destruct (classify v); [apply steps_resolve|..]; by destruct (stop_steps _ _ _).
Qed.
End Settling.

(** ** Property *)

(** Polling a withdrawal reaches what awaiting it means: from its first
    poll, finitely many polls settle any inverse, whole or stepwise, however
    often it is pending, whether it fails, panics or is cancelled between two
    steps, with the outcome and the world of running it to its end. *)
Theorem polling_reaches_the_awaited_outcome {W} (d : Disposer W) (w : W) :
  exists n, polls n (Unstarted d) w = ((withdraw d w).1, inr (withdraw d w).2).
Proof. apply withdraw_settles. Qed.
