(* ===== verification/Effects.v ===== *)
(** * Effect scopes and their teardown

    [crates/jinnd-effects/src/{scope,drain,suspend,withdrawal}.rs]: the
    registrations of a scope, the replay that withdraws it, the suspend replay
    and the drain phase, and what a teardown that is dropped half way leaves.

    A teardown is modelled turn by turn: one turn polls the withdrawal in
    flight, or takes the next record of the forest. A replay future dropped
    between two polls is [abandon]. *)

From stdpp Require Import base gmap sets list strings.
From S2P Require Import Prelude Api EffectTree Programs.

(** ** The scope *)

Record EffectScope (W : Type) := MkScope {
  roots : forest (Disposer W);
  withdrawn : list EffectReport;
  replayed : bool;
}.
Arguments MkScope {W}.
Arguments roots {W}.
Arguments withdrawn {W}.
Arguments replayed {W}.

(** [NEXT_EFFECT.fetch_add(1)]. *)
Definition next_id (next : Z) : EffectId * Z := (MkEffectId next, wrapping_add next 1).

Definition scope_error (c : ErrorCode) (m : string) : KernelError := MkKernelError c m None.

Section Scope.
Context {W : Type}.
Implicit Types (s : EffectScope W) (next : Z) (label : string) (d : Disposer W).

Definition new_scope : EffectScope W := MkScope [] [] false.

Definition is_empty s : bool := match roots s with [] => true | _ => false end.

Definition tree s : list EffectDescriptor := describe (roots s).

Definition set_roots (rs : forest (Disposer W)) s : EffectScope W :=
  MkScope rs (withdrawn s) (replayed s).

(** [EffectScope::record]: refused on a replayed scope, before an identity
    is drawn. *)
Definition record next s label d : Z * result (EffectRecord (Disposer W)) KernelError :=
  if replayed s then
    (next, Err (scope_error InactiveContext
                 "cannot register an effect on a replayed scope"))
  else
    let '(id, next) := next_id next in
    (next, Ok (MkRecord id label d None None [])).

Definition register_with (change : EffectRecord (Disposer W) -> EffectRecord (Disposer W))
    next s label d : Z * EffectScope W * result EffectId KernelError :=
  match record next s label d with
  | (next, Err e) => (next, s, Err e)
  | (next, Ok r) => (next, set_roots (roots s ++ [change r]) s, Ok (rec_id r))
  end.

Definition register := register_with id.

Definition register_draining next s label (drain undo : Disposer W) :=
  register_with (fun r =>
    MkRecord (rec_id r) (rec_label r) (rec_disposer r) (Some drain) (rec_suspend r)
      (rec_children r)) next s label undo.

Definition register_suspendable next s label (undo suspend : Disposer W) :=
  register_with (fun r =>
    MkRecord (rec_id r) (rec_label r) (rec_disposer r) (rec_drain r) (Some suspend)
      (rec_children r)) next s label undo.

(** The identity is drawn before the parent is looked for. *)
Definition register_child next s (parent : EffectId) label d
    : Z * EffectScope W * result EffectId KernelError :=
  match record next s label d with
  | (next, Err e) => (next, s, Err e)
  | (next, Ok r) =>
      match find_record (roots s) parent with
      | None =>
          (next, s, Err (scope_error EffectFailed "no such effect is live in this scope"))
      | Some path => (next, set_roots (push_child path r (roots s)) s, Ok (rec_id r))
      end
  end.

(** [detach]: the records a [Detached] handle owes, and the scope left. *)
Definition detach s (id : EffectId) : option (forest (Disposer W) * EffectScope W) :=
  '(r, rs) ← take_record (roots s) id; Some (flatten [r], set_roots rs s).
End Scope.

(** ** One effect's withdrawal ([Withdrawal]) *)

Record Withdrawal (W : Type) := MkWithdrawal {
  w_driver : driver W;
  w_id : EffectId;
  w_label : string;
}.
Arguments MkWithdrawal {W}.
Arguments w_driver {W}.
Arguments w_id {W}.
Arguments w_label {W}.

Section Teardown.
Context {W : Type}.
Implicit Types (s : EffectScope W) (w : W) (d : Disposer W) (r : EffectRecord (Disposer W)).

Definition new_withdrawal r : Withdrawal W :=
  MkWithdrawal (Unstarted (rec_disposer r)) (rec_id r) (rec_label r).

Definition line (id : EffectId) (label : string) (o : UndoOutcome) : EffectReport :=
  MkEffectReport id label o.

(** One poll: still in flight, or the line that was written. *)
Definition withdrawal_poll (x : Withdrawal W) w : W * (Withdrawal W + EffectReport) :=
  match driver_poll (w_driver x) w with
  | (w, inl d) => (w, inl (MkWithdrawal d (w_id x) (w_label x)))
  | (w, inr o) => (w, inr (line (w_id x) (w_label x) o))
  end.

(** Its destructor: the withdrawal is recorded as interrupted. *)
Definition withdrawal_drop (x : Withdrawal W) w : W * EffectReport :=
  let '(w, panic) := driver_drop (w_driver x) w in
  (w, line (w_id x) (w_label x) (UndoInterrupted panic)).

(** *** The replay and suspend loops *)

Inductive mode := Replaying | Suspending.

Record teardown := MkTeardown {
  td_scope : EffectScope W;
  in_flight : option (Withdrawal W);
}.

Inductive turned :=
  | Running (t : teardown)
  | Finished (s : EffectScope W) (report : ReplayReport).

Definition push_line (l : EffectReport) s : EffectScope W :=
  MkScope (roots s) (withdrawn s ++ [l]) (replayed s).

(** The first poll of [replay] or [suspend] seals the scope. *)
Definition begin_teardown s : teardown :=
  MkTeardown (MkScope (roots s) (withdrawn s) true) None.

(** What a record taken from the forest starts: its inverse, or, in a
    suspend replay, its suspend path, once the unrun inverse was dropped. *)
Definition start (m : mode) r s w : W * teardown :=
  match m, rec_suspend r with
  | Suspending, Some suspend =>
      match drop_disposer (rec_disposer r) w with
      | (w, Some panic) =>
          (w, MkTeardown (push_line (line (rec_id r) (rec_label r) (UndoPanicked panic)) s)
                None)
      | (w, None) =>
          (w, MkTeardown s (Some (MkWithdrawal (Unstarted suspend) (rec_id r) (rec_label r))))
      end
  | _, _ => (w, MkTeardown s (Some (new_withdrawal r)))
  end.

Definition turn (m : mode) (t : teardown) w : W * turned :=
  let s := td_scope t in
  match in_flight t with
  | Some x =>
      match withdrawal_poll x w with
      | (w, inl x) => (w, Running (MkTeardown s (Some x)))
      | (w, inr l) => (w, Running (MkTeardown (push_line l s) None))
      end
  | None =>
      match take_next (roots s) with
      | Some (r, rs) => let '(w, t) := start m r (set_roots rs s) w in (w, Running t)
      | None => (w, Finished (MkScope (roots s) [] (replayed s)) (withdrawn s))
      end
  end.

Fixpoint turns (n : nat) (m : mode) (t : teardown) w : W * turned :=
  match n with
  | 0 => (w, Running t)
  | S n =>
      match turn m t w with
      | (w, Running t) => turns n m t w
      | finished => finished
      end
  end.

(** Dropping the replay future: the withdrawal in flight, if any, is
    recorded as interrupted; nothing else happens. *)
Definition abandon (t : teardown) w : W * EffectScope W :=
  match in_flight t with
  | None => (w, td_scope t)
  | Some x => let '(w, l) := withdrawal_drop x w in (w, push_line l (td_scope t))
  end.

(** *** The awaited teardown: every record in turn, one line each *)

Definition run_record (m : mode) r w : W * EffectReport :=
  match m, rec_suspend r with
  | Suspending, Some suspend =>
      match drop_disposer (rec_disposer r) w with
      | (w, Some panic) => (w, line (rec_id r) (rec_label r) (UndoPanicked panic))
      | (w, None) => let '(w, o) := withdraw suspend w in (w, line (rec_id r) (rec_label r) o)
      end
  | _, _ => let '(w, o) := withdraw (rec_disposer r) w in (w, line (rec_id r) (rec_label r) o)
  end.

Fixpoint run_records (m : mode) (rs : forest (Disposer W)) w : W * list EffectReport :=
  match rs with
  | [] => (w, [])
  | r :: rs =>
      let '(w, l) := run_record m r w in
      let '(w, ls) := run_records m rs w in
      (w, l :: ls)
  end.

(** [EffectScope::drain]: the pending phases, each awaited; only a phase
    that did not complete leaves a line. *)
Fixpoint run_drains (phases : list (EffectId * string * Disposer W)) s w
    : W * EffectScope W :=
  match phases with
  | [] => (w, s)
  | (id, label, d) :: phases =>
      let '(w, o) := withdraw d w in
      run_drains phases (if is_done o then s else push_line (line id label o) s) w
  end.

Definition drain s w : W * EffectScope W :=
  let '(phases, rs) := drains (roots s) in run_drains phases (set_roots rs s) w.

(** [Detached::withdraw] and [Detached::withdraw_now]. *)
Definition detached_withdraw (records : forest (Disposer W)) w : W * ReplayReport :=
  run_records Replaying records w.

Fixpoint withdraw_now (records : forest (Disposer W)) w : W * ReplayReport :=
  match records with
  | [] => (w, [])
  | r :: records =>
      let '(w, l) :=
        match withdrawal_poll (new_withdrawal r) w with
        | (w, inr l) => (w, l)
        | (w, inl x) => withdrawal_drop x w
        end in
      let '(w, ls) := withdraw_now records w in
      (w, l :: ls)
  end.
End Teardown.
Arguments teardown : clear implicits.
Arguments turned : clear implicits.

(** ** Lemmas *)

Section TeardownLemmas.
Context {W : Type}.
Implicit Types (s : EffectScope W) (w : W) (m : mode) (t : teardown W)
  (r : EffectRecord (Disposer W)) (rs : forest (Disposer W)).

Definition line_key (l : EffectReport) : EffectId * string := (report_id l, report_label l).
Definition record_key r : EffectId * string := (rec_id r, rec_label r).

(** Every effect a teardown is answerable for: withdrawn, in flight, live. *)
Definition accounted t : list (EffectId * string) :=
  map line_key (withdrawn (td_scope t)) ++
  match in_flight t with Some x => [(w_id x, w_label x)] | None => [] end ++
  map record_key (flatten (roots (td_scope t))).

Lemma map_push_line l s :
  map line_key (withdrawn (push_line l s)) = map line_key (withdrawn s) ++ [line_key l].
Proof. apply map_app. Qed.

Lemma run_record_key m r w : line_key (run_record m r w).2 = record_key r.
Proof. unfold run_record. by break. Qed.

Lemma run_records_keys m rs w :
  map line_key (run_records m rs w).2 = map record_key rs.
Proof.
  revert w. induction rs as [|r rs IH]; intros w; [done|]. simpl.
  pose proof (run_record_key m r w) as Hk. destruct (run_record m r w) as [w1 l].
  specialize (IH w1). destruct (run_records m rs w1). simpl in *. by rewrite Hk, IH.
Qed.

Lemma flatten_take_next rs r rs' :
  take_next rs = Some (r, rs') -> flatten rs = r :: flatten rs'.
Proof. intros H. apply take_next_Some in H as [_ H]. by rewrite !flatten_correct. Qed.

Lemma start_accounted m r s w : 
  accounted (start m r s w).2 =
    map line_key (withdrawn s) ++ record_key r :: map record_key (flatten (roots s)).
Proof.
  unfold start, accounted.
  destruct m, (rec_suspend r) as [d|]; simpl; try done.
  destruct (drop_disposer (rec_disposer r) w) as [w1 [p|]]; simpl; [|done].
  by rewrite map_app, <-app_assoc.
Qed.

Lemma turn_accounted m t w :
  match (turn m t w).2 with
  | Running t' => accounted t' = accounted t
  | Finished s report =>
      map line_key report = accounted t /\ roots s = [] /\ withdrawn s = [] /\
      replayed s = replayed (td_scope t)
  end.
Proof.
  destruct t as [s [x|]]; unfold turn; simpl.
  - unfold withdrawal_poll. destruct (driver_poll (w_driver x) w) as [w1 [d|o]]; simpl.
    + done.
    + unfold accounted. simpl. by rewrite map_app, <-app_assoc.
  - destruct (take_next (roots s)) as [[r rs]|] eqn:Hnext; simpl.
    + pose proof (start_accounted m r (set_roots rs s) w) as H.
      destruct (start m r (set_roots rs s) w) as [w1 t1]. simpl in *. rewrite H.
      unfold accounted. simpl. by rewrite (flatten_take_next _ _ _ Hnext).
    + apply take_next_None in Hnext. unfold accounted. simpl. rewrite Hnext.
      simpl. by rewrite app_nil_r.
Qed.

Lemma turns_accounted n m t w :
  match (turns n m t w).2 with
  | Running t' => accounted t' = accounted t
  | Finished s report =>
      map line_key report = accounted t /\ roots s = [] /\ withdrawn s = [] /\
      replayed s = replayed (td_scope t)
  end.
Proof.
  revert t w. induction n as [|n IH]; intros t w; simpl; [done|].
  pose proof (turn_accounted m t w) as Ht.
  assert (Hrep : match (turn m t w).2 with
                 | Running t' => replayed (td_scope t') = replayed (td_scope t)
                 | _ => True end).
  { unfold turn, start, withdrawal_poll. by break. }
  destruct (turn m t w) as [w1 [t1|s1 rep]]; simpl in *; [|done].
  specialize (IH t1 w1). by destruct (turns n m t1 w1) as [w2 [t2|s2 rep2]]; simpl in *;
    rewrite <-Ht, <-?Hrep.
Qed.

Lemma abandon_accounted t w :
  accounted (MkTeardown (abandon t w).2 None) = accounted t.
Proof.
  destruct t as [s [x|]]; unfold abandon; simpl; [|done].
  unfold withdrawal_drop. destruct (driver_drop (w_driver x) w) as [w1 p].
  unfold accounted. simpl. by rewrite map_app, <-app_assoc.
Qed.

(** *** The turns reach the awaited result *)

Lemma turns_app n k m t w w1 t1 :
  turns n m t w = (w1, Running t1) -> turns (n + k) m t w = turns k m t1 w1.
Proof.
  revert t w. induction n as [|n IH]; intros t w; simpl; [by intros [= -> ->]|].
  destruct (turn m t w) as [w2 [t2|]]; [apply IH|done].
Qed.

Lemma turns_withdrawal m s d id label w w' o :
  settles d w w' o ->
  exists n, turns n m (MkTeardown s (Some (MkWithdrawal d id label))) w =
    (w', Running (MkTeardown (push_line (line id label o) s) None)).
Proof.
  intros [n Hn]. revert d w Hn. induction n as [|n IH]; intros d w Hn; [done|].
  simpl in Hn. destruct (driver_poll d w) as [w1 [d1|o1]] eqn:Hd.
  - destruct (IH d1 w1 Hn) as [k Hk]. exists (S k). simpl.
    unfold turn. simpl. unfold withdrawal_poll. simpl. by rewrite Hd.
  - simplify_eq. exists 1. simpl. unfold turn. simpl. unfold withdrawal_poll. simpl.
    by rewrite Hd.
Qed.

Lemma turns_record m s r rs w :
  take_next (roots s) = Some (r, rs) ->
  exists n, turns n m (MkTeardown s None) w =
    ((run_record m r w).1,
     Running (MkTeardown (push_line (run_record m r w).2 (set_roots rs s)) None)).
Proof.
  intros Hnext.
  assert (Hplain : exists n,
    turns n m (MkTeardown (set_roots rs s) (Some (new_withdrawal r))) w =
    let '(w, o) := withdraw (rec_disposer r) w in
    (w, Running (MkTeardown
          (push_line (line (rec_id r) (rec_label r) o) (set_roots rs s)) None))).
  { pose proof (withdraw_settles (rec_disposer r) w) as Hs.
    destruct (withdraw (rec_disposer r) w) as [w1 o]. by apply turns_withdrawal. }
  assert (Hturn : forall n w1 t1,
    start m r (set_roots rs s) w = (w1, t1) ->
    turns (S n) m (MkTeardown s None) w = turns n m t1 w1).
  { intros n w1 t1 Hst. simpl. unfold turn. simpl. by rewrite Hnext, Hst. }
  unfold run_record. destruct m.
  - destruct Hplain as [n Hn]. exists (S n). rewrite (Hturn n _ _ eq_refl), Hn.
    by destruct (withdraw _ w).
  - destruct (rec_suspend r) as [suspend|] eqn:Hsus.
    + destruct (drop_disposer (rec_disposer r) w) as [w1 [p|]] eqn:Hdrop.
      * exists 1. rewrite (Hturn 0 w1 (MkTeardown
          (push_line (line (rec_id r) (rec_label r) (UndoPanicked p)) (set_roots rs s)) None));
          [done|]. unfold start. by rewrite Hsus, Hdrop.
      * pose proof (withdraw_settles suspend w1) as Hs.
        destruct (withdraw suspend w1) as [w2 o].
        destruct (turns_withdrawal Suspending (set_roots rs s) _ (rec_id r) (rec_label r)
          _ _ _ Hs) as [n Hn].
        exists (S n). rewrite (Hturn n w1 (MkTeardown (set_roots rs s)
          (Some (MkWithdrawal (Unstarted suspend) (rec_id r) (rec_label r))))); [done|].
        unfold start. by rewrite Hsus, Hdrop.
    + destruct Hplain as [n Hn]. exists (S n).
      rewrite (Hturn n w (MkTeardown (set_roots rs s) (Some (new_withdrawal r)))).
      * rewrite Hn. by destruct (withdraw _ w).
      * unfold start. by rewrite Hsus.
Qed.

Lemma turns_finish m s w :
  exists n, turns n m (MkTeardown s None) w =
    let '(w', ls) := run_records m (flatten (roots s)) w in
    (w', Finished (MkScope [] [] (replayed s)) (withdrawn s ++ ls)).
Proof.
  remember (length (replay_order (roots s))) as k eqn:Hk.
  revert s w Hk. induction k as [|k IH]; intros s w Hk.
  - symmetry in Hk. apply nil_length_inv in Hk. rewrite replay_order_nil in Hk.
    exists 1. simpl. unfold turn. simpl. rewrite Hk. simpl. by rewrite app_nil_r.
  - destruct (take_next (roots s)) as [[r rs]|] eqn:Hnext.
    + pose proof (take_next_Some _ _ _ Hnext) as [_ Hord].
      destruct (turns_record m s r rs w Hnext) as [n Hn].
      rewrite (flatten_take_next _ _ _ Hnext). simpl.
      destruct (run_record m r w) as [w1 l]. simpl in Hn.
      destruct (IH (push_line l (set_roots rs s)) w1) as [n' Hn'].
      { rewrite Hord in Hk. simpl in *. lia. }
      exists (n + n'). rewrite (turns_app _ _ _ _ _ _ _ Hn), Hn'. simpl.
      destruct (run_records m (flatten rs) w1). by rewrite <-app_assoc.
    + apply take_next_None in Hnext. by rewrite Hnext in Hk.
Qed.

(** From wherever it stands, a teardown finishes. *)
Lemma turns_settle m t w : exists n w' s' report, turns n m t w = (w', Finished s' report).
Proof.
  destruct t as [s [[d id label]|]].
  - destruct (driver_settles d w) as (w1 & o & Hd).
    destruct (turns_withdrawal m s d id label w w1 o Hd) as [n Hn].
    destruct (turns_finish m (push_line (line id label o) s) w1) as [k Hk].
    exists (n + k). rewrite (turns_app _ _ _ _ _ _ _ Hn), Hk.
    destruct (run_records m _ w1). eauto.
  - destruct (turns_finish m s w) as [n Hn]. exists n. rewrite Hn.
    destruct (run_records m _ w). eauto.
Qed.

Lemma finished_unique n k m t w w1 s1 rep1 o :
  turns n m t w = (w1, Finished s1 rep1) -> turns k m t w = o ->
  match o with (w2, Finished s2 rep2) => s1 = s2 /\ rep1 = rep2 | _ => True end.
Proof.
  intros Hn <-. revert t w k Hn. induction n as [|n IH]; intros t w [|k] Hn; simpl in *;
    try done.
  destruct (turn m t w) as [w2 [t2|s2 rep2]]; [by apply IH|]. by simplify_eq.
Qed.

(** What a teardown leaves behind, wherever it stopped. *)
Definition scope_left (o : W * turned W) : EffectScope W :=
  match o with
  | (w, Running t) => (abandon t w).2
  | (_, Finished s _) => s
  end.

Lemma turn_replayed m t w :
  match (turn m t w).2 with
  | Running t' => replayed (td_scope t') = replayed (td_scope t)
  | Finished s _ => replayed s = replayed (td_scope t)
  end.
Proof. unfold turn, start, withdrawal_poll. by break. Qed.

Lemma teardown_sealed n m s w :
  replayed (scope_left (turns n m (begin_teardown s) w)) = true.
Proof.
  assert (H : replayed (td_scope (begin_teardown s)) = true) by done.
  revert H. generalize (begin_teardown s). revert w.
  induction n as [|n IH]; intros w t H; simpl.
  - destruct t as [s1 [x|]]; unfold abandon; simpl in *; [|done].
    by destruct (withdrawal_drop x w).
  - pose proof (turn_replayed m t w) as Ht.
    destruct (turn m t w) as [w1 [t1|]]; simpl in *; [apply IH|]; congruence.
Qed.
End TeardownLemmas.

(** ** The drain phase *)

Section Drains.
Context {W : Type}.
Implicit Types (s : EffectScope W) (w : W).

(** How each pending phase ended. *)
Fixpoint drain_outcomes (phases : list (EffectId * string * Disposer W)) w
    : list UndoOutcome :=
  match phases with
  | [] => []
  | (_, _, d) :: phases =>
      let '(w, o) := withdraw d w in o :: drain_outcomes phases w
  end.

Lemma is_clean_app l1 l2 : is_clean (l1 ++ l2) = is_clean l1 && is_clean l2.
Proof. apply forallb_app. Qed.

Lemma run_drains_spec phases s w :
  let s' := (run_drains phases s w).2 in
  roots s' = roots s /\ replayed s' = replayed s /\
  is_clean (withdrawn s') = is_clean (withdrawn s) && forallb is_done (drain_outcomes phases w).
Proof.
  revert s w. induction phases as [|[[id label] d] phases IH]; intros s w; simpl.
  - by rewrite andb_true_r.
  - destruct (withdraw d w) as [w1 o]. simpl.
    destruct (IH (if is_done o then s else push_line (line id label o) s) w1) as (-> & -> & ->).
    destruct (is_done o) eqn:Ho; [done|]. simpl.
    split_and!; [done..|]. unfold is_clean. rewrite forallb_app. simpl. rewrite Ho.
    by rewrite !andb_false_r.
Qed.
End Drains.

(** ** Registrations *)

Section Registrations.
Context {W : Type}.
Implicit Types (s : EffectScope W) (next : Z) (r : EffectRecord (Disposer W)).

(** Identities are unique, and all of them were drawn from the counter. *)
Definition scope_wf next s : Prop :=
  is_u64 next /\ NoDup (live_ids (roots s)) /\
  Forall (fun i => (0 <= effect_id i < next)%Z) (live_ids (roots s)).

Lemma live_ids_perm (rs rs' : forest (Disposer W)) r :
  preorder rs' ≡ₚ r :: preorder rs -> live_ids rs' ≡ₚ rec_id r :: live_ids rs.
Proof. unfold live_ids. by intros ->. Qed.

Lemma scope_wf_add next s rs' r :
  scope_wf next s -> (next < u64_max)%Z -> effect_id (rec_id r) = next ->
  preorder rs' ≡ₚ r :: preorder (roots s) ->
  scope_wf (wrapping_add next 1) (set_roots rs' s).
Proof.
  intros (Hn & Hnd & Hb) Hlt Hid Hperm. unfold is_u64 in Hn.
  apply live_ids_perm in Hperm. unfold scope_wf. simpl.
  rewrite wrapping_add_small by (unfold is_u64; lia).
  split_and!; [unfold is_u64; lia|..].
  - rewrite Hperm. constructor; [|done]. intros Hin.
    rewrite Forall_forall in Hb. apply Hb in Hin. lia.
  - rewrite Hperm. constructor; [lia|].
    eapply Forall_impl; [exact Hb|]. simpl. lia.
Qed.

Lemma preorder_snoc (rs : forest (Disposer W)) r :
  rec_children r = [] -> preorder (rs ++ [r]) ≡ₚ r :: preorder rs.
Proof.
  intros Hr. rewrite preorder_snoc_childless by done. symmetry. apply Permutation_cons_append.
Qed.

(** The root-level registrations only differ in the phases they attach. *)
Lemma register_with_spec change next s label d :
  (forall r, rec_id (change r) = rec_id r /\ rec_label (change r) = rec_label r /\
             rec_children (change r) = rec_children r) ->
  match register_with change next s label d with
  | (next', s', Ok id) =>
      replayed s = false /\ id = MkEffectId next /\ next' = wrapping_add next 1 /\
      withdrawn s' = withdrawn s /\ replayed s' = false /\
      exists r, rec_id r = id /\ rec_label r = label /\ rec_children r = [] /\
        roots s' = roots s ++ [r]
  | (next', s', Err e) =>
      replayed s = true /\ next' = next /\ s' = s /\ code e = InactiveContext
  end.
Proof.
  intros Hch. unfold register_with, record. destruct (replayed s) eqn:Hrep; simpl; [done|].
  set (r := MkRecord _ _ _ _ _ _). destruct (Hch r) as (Hid & Hl & Hc).
  split_and!; [done..|]. exists (change r). split_and!; [done|by rewrite Hl|by rewrite Hc|done].
Qed.

Lemma register_child_spec next s parent label d :
  match register_child next s parent label d with
  | (next', s', Ok id) =>
      replayed s = false /\ id = MkEffectId next /\ next' = wrapping_add next 1 /\
      withdrawn s' = withdrawn s /\ replayed s' = false /\
      exists r pr (pre post : forest (Disposer W)),
        rec_id r = id /\ rec_label r = label /\ rec_children r = [] /\ rec_id pr = parent /\
        preorder (roots s) = pre ++ preorder_record pr ++ post /\
        preorder (roots s') = pre ++ preorder_record pr ++ [r] ++ post
  | (next', s', Err e) =>
      s' = s /\
      ((replayed s = true /\ next' = next /\ code e = InactiveContext) \/
       (replayed s = false /\ next' = wrapping_add next 1 /\ code e = EffectFailed /\
        parent ∉ live_ids (roots s)))
  end.
Proof.
  unfold register_child, record. destruct (replayed s) eqn:Hrep; simpl; [by eauto|].
  set (r := MkRecord _ _ _ _ _ _).
  pose proof (find_record_spec parent (roots s)) as Hfind.
  destruct (find_record (roots s) parent) as [path|].
  - destruct Hfind as (pr & Hpr & Hid). split_and!; [done..|].
    destruct (preorder_push_child path pr r (roots s) Hpr eq_refl) as (pre & post & H1 & H2).
    by exists r, pr, pre, post.
  - split; [done|]. right. split_and!; [done..|]. by apply absent_live_ids.
Qed.
End Registrations.

(** A scope of a counter world: each inverse is pending once, then subtracts. *)
Module Sample.
Definition subtract (k : Z) : action Z unit :=
  MkAction (fun w => (w, inl (Future (fun w => (w, inl (Future
    (fun w => ((w - k)%Z, inr (inl (Ok tt), no_destructor))) no_destructor)))
    no_destructor))) no_destructor.
Definition undo (k : Z) : Disposer Z := Whole (subtract k).
Definition two : EffectScope Z :=
  MkScope [MkRecord (MkEffectId 0) "first" (undo 1) (Some (undo 10)) None [];
           MkRecord (MkEffectId 1) "second" (undo 2) None None []] [] false.
End Sample.

(** ** Properties *)


(** C8: A replay (or a suspend replay) of any scope runs to completion: after
    finitely many turns it has withdrawn every live effect in replay order,
    each by its own inverse (its suspend path, when suspending), whatever the
    other inverses did; it reports what an interrupted teardown had left to
    report first, and leaves the scope empty and sealed. *)
Theorem teardown_completes {W} (m : mode) (s : EffectScope W) (w : W) :
  exists n, turns n m (begin_teardown s) w =
    let '(w', lines) := run_records m (flatten (roots s)) w in
    (w', Finished (MkScope [] [] true) (withdrawn s ++ lines)).
Proof. apply (turns_finish m (MkScope (roots s) (withdrawn s) true)). Qed.

(** C9: Dropping a teardown between any two polls pauses it and loses nothing:
    a later replay, from any world, completes and reports exactly the effects
    the undisturbed replay reports, in the same order and each once, and the
    withdrawal that was in flight is reported interrupted. *)
Theorem paused_teardown_loses_nothing {W} (m m' : mode) (s : EffectScope W)
    (n : nat) (w w1 : W) (t : teardown W) :
  turns n m (begin_teardown s) w = (w1, Running t) ->
  let '(_, s') := abandon t w1 in
  forall w2, exists k w3 report,
    turns k m' (begin_teardown s') w2 = (w3, Finished (MkScope [] [] true) report) /\
    map line_key report =
      map line_key (withdrawn s) ++ map record_key (flatten (roots s)) /\
    (forall x, in_flight t = Some x ->
      exists p, line (w_id x) (w_label x) (UndoInterrupted p) ∈ report).
Proof.
  intros Ht. pose proof (turns_accounted n m (begin_teardown s) w) as Hacc.
  rewrite Ht in Hacc. simpl in Hacc. pose proof (abandon_accounted t w1) as Hab.
  rewrite Hacc in Hab. unfold abandon in *. destruct t as [s1 [x|]]; simpl in *.
  - unfold withdrawal_drop in *. destruct (driver_drop (w_driver x) w1) as [w1' p].
    simpl in *. intros w2.
    destruct (turns_finish m' (MkScope (roots s1) (withdrawn s1 ++
      [line (w_id x) (w_label x) (UndoInterrupted p)]) true) w2) as [k Hk].
    simpl in Hk. pose proof (run_records_keys m' (flatten (roots s1)) w2) as Hkeys.
    destruct (run_records m' (flatten (roots s1)) w2) as [w3 lines]. simpl in Hkeys.
    eexists k, w3, _. split_and!; [exact Hk|..].
    + unfold accounted in Hab. simpl in Hab. by rewrite <-Hab, <-Hkeys, map_app.
    + intros y [= <-]. exists p. set_solver.
  - intros w2. destruct (turns_finish m' (MkScope (roots s1) (withdrawn s1) true) w2) as [k Hk].
    simpl in Hk. pose proof (run_records_keys m' (flatten (roots s1)) w2) as Hkeys.
    destruct (run_records m' (flatten (roots s1)) w2) as [w3 lines]. simpl in Hkeys.
    eexists k, w3, _. split_and!; [exact Hk| |done].
    unfold accounted in Hab. simpl in Hab. by rewrite <-Hab, <-Hkeys, map_app.
Qed.

Lemma paused_teardown_loses_nothing_witness :
  exists t, turns 2 Replaying (begin_teardown Sample.two) 100%Z = (100%Z, Running t) /\
  let '(_, s') := abandon t 100%Z in
  forall w2, exists k w3 report,
    turns k Suspending (begin_teardown s') w2 = (w3, Finished (MkScope [] [] true) report) /\
    map line_key report = [(MkEffectId 1, "second"%string); (MkEffectId 0, "first"%string)] /\
    (forall x, in_flight t = Some x ->
      exists p, line (w_id x) (w_label x) (UndoInterrupted p) ∈ report).
Proof.
  eexists. split; [reflexivity|].
  exact (paused_teardown_loses_nothing Replaying Suspending Sample.two 2 100%Z 100%Z _ eq_refl).
Defined.

(** A second replay withdraws nothing: from the scope a completed replay
    left, it finishes at once with an empty report and an untouched world. *)
Theorem replaying_twice_withdraws_nothing {W} (m m' : mode) (s : EffectScope W) (w w' w2 : W)
    (n : nat) (s' : EffectScope W) (report : ReplayReport) :
  turns n m (begin_teardown s) w = (w', Finished s' report) ->
  turn m' (begin_teardown s') w2 = (w2, Finished s' []) /\
  map line_key report = map line_key (withdrawn s) ++ map record_key (flatten (roots s)).
Proof.
  intros Hn. pose proof (turns_accounted n m (begin_teardown s) w) as Hacc.
  rewrite Hn in Hacc. simpl in Hacc. destruct Hacc as (Hk & Hr & Hw & Hrep).
  split; [|exact Hk]. destruct s' as [rs ws rp]. simpl in *. by subst.
Qed.

Lemma replaying_twice_withdraws_nothing_witness :
  exists report,
    turns 20 Replaying (begin_teardown Sample.two) 100%Z =
      (97%Z, Finished (MkScope [] [] true) report) /\
    turn Replaying (begin_teardown (MkScope [] [] true)) 97%Z =
      (97%Z, Finished (MkScope [] [] true) []) /\
    map line_key report = [(MkEffectId 1, "second"%string); (MkEffectId 0, "first"%string)].
Proof.
  eexists. split; [reflexivity|].
  exact (replaying_twice_withdraws_nothing Replaying Replaying Sample.two 100%Z 97%Z 97%Z 20
    (MkScope [] [] true) _ eq_refl).
Defined.

(** A torn-down scope is sealed: from the first turn of a replay or a
    suspend replay on, every kind of registration is refused with
    [InactiveContext], draws no identity and changes nothing. *)
Theorem torn_down_scope_refuses {W} (m : mode) (s : EffectScope W) (n : nat) (w : W)
    (next : Z) (label : string) (parent : EffectId) (d d' : Disposer W) :
  let s' := scope_left (turns n m (begin_teardown s) w) in
  let refused (r : Z * EffectScope W * result EffectId KernelError) :=
    exists e, r = (next, s', Err e) /\ code e = InactiveContext in
  refused (register next s' label d) /\
  refused (register_draining next s' label d' d) /\
  refused (register_suspendable next s' label d d') /\
  refused (register_child next s' parent label d).
Proof.
  intros s' refused.
  assert (Hrep : replayed s' = true) by apply teardown_sealed.
  unfold refused, register, register_draining, register_suspendable, register_with,
    register_child, record. rewrite Hrep.
  split_and!; eexists; (split; [reflexivity|done]).
Qed.

(** Every registration keeps the identities of a scope unique and drawn
    from the counter, as long as the counter does not wrap, and puts the new
    effect where the teardown needs it: first in the replay order for a root
    registration (last registered, first withdrawn), and right before its
    parent's existing subtree for a child. *)
Theorem registration_keeps_replay_order {W} (s : EffectScope W) (next : Z) (label : string)
    (parent : EffectId) (d : Disposer W) :
  scope_wf next s -> (next < u64_max)%Z ->
  (forall next' s' id, register next s label d = (next', s', Ok id) ->
     scope_wf next' s' /\
     map rec_id (flatten (roots s')) = id :: map rec_id (flatten (roots s))) /\
  (forall next' s' id, register_child next s parent label d = (next', s', Ok id) ->
     scope_wf next' s' /\
     exists pr (before after : forest (Disposer W)),
       rec_id pr = parent /\
       flatten (roots s) = before ++ flatten [pr] ++ after /\
       map rec_id (flatten (roots s')) =
         map rec_id before ++ id :: map rec_id (flatten [pr]) ++ map rec_id after).
Proof.
  intros Hwf Hlt. split.
  - intros next' s' id H.
    pose proof (register_with_spec Datatypes.id next s label d ltac:(done)) as Hs.
    unfold register in H. rewrite H in Hs.
    destruct Hs as (Hf & Hid & -> & Hw & Hr & r & Hrid & _ & Hrc & Hroots).
    rewrite !flatten_correct. split.
    + replace s' with (set_roots (roots s ++ [r]) s)
        by (destruct s', s; unfold set_roots; simpl in *; congruence).
      apply (scope_wf_add _ _ _ r); [done..| |by apply preorder_snoc].
      by rewrite Hrid, Hid.
    + unfold replay_order. rewrite Hroots, preorder_snoc_childless by done.
      rewrite reverse_app. simpl. by rewrite Hrid.
  - intros next' s' id H.
    pose proof (register_child_spec next s parent label d) as Hs. rewrite H in Hs.
    destruct Hs as (Hf & Hid & -> & Hw & Hr & r & pr & pre & post & Hrid & _ & Hrc & Hpr
      & Hpre & Hpre').
    split.
    + replace s' with (set_roots (roots s') s)
        by (destruct s', s; unfold set_roots; simpl in *; congruence).
      apply (scope_wf_add _ _ _ r); [done..|by rewrite Hrid, Hid|].
      rewrite Hpre, Hpre'. solve_Permutation.
    + exists pr, (reverse post), (reverse pre). rewrite !flatten_correct. unfold replay_order.
      rewrite Hpre, Hpre', preorder_cons. unfold preorder at 1. simpl.
      rewrite app_nil_r, !reverse_app. split_and!; [done|by rewrite <-app_assoc|].
      rewrite <-!app_assoc, !map_app. simpl. rewrite reverse_cons, map_app. simpl.
      by rewrite Hrid, <-app_assoc.
Qed.

Lemma registration_keeps_replay_order_witness :
  scope_wf 2 Sample.two /\
  exists next' s' id,
    register 2 Sample.two "third" (Sample.undo 3) = (next', s', Ok id) /\
    scope_wf next' s' /\
    map rec_id (flatten (roots s')) = id :: map rec_id (flatten (roots Sample.two)).
Proof.
  assert (Hwf : scope_wf 2 Sample.two).
  { unfold scope_wf. split_and!; vm_compute; try done; repeat constructor; try set_solver;
      discriminate. }
  split; [exact Hwf|]. eexists _, _, _. split; [reflexivity|].
  apply (registration_keeps_replay_order Sample.two 2 "third" (MkEffectId 0) (Sample.undo 3) Hwf
    ltac:(reflexivity)). reflexivity.
Defined.

(** A withdrawal reports clean only when all of it was: after [drain], the
    report of the replay is clean exactly when every pending drain phase
    completed and every inverse completed. A drain phase that failed is never
    silent, and none is pending any more. *)
Theorem clean_report_means_drained_and_undone {W} (s s1 s' : EffectScope W) (w w1 w' : W)
    (n : nat) (report : ReplayReport) :
  is_clean (withdrawn s) = true ->
  drain s w = (w1, s1) ->
  turns n Replaying (begin_teardown s1) w1 = (w', Finished s' report) ->
  (drains (roots s1)).1 = [] /\
  (is_clean report = true <->
   forallb is_done (drain_outcomes (drains (roots s)).1 w) = true /\
   forallb (fun l => is_done (report_outcome l))
     (run_records Replaying (flatten (roots s1)) w1).2 = true).
Proof.
  intros Hclean Hdrain Hrun. unfold drain in Hdrain.
  pose proof (drains_spec (roots s)) as Honce.
  destruct (drains (roots s)) as [phases rs] eqn:Hd. simpl.
  destruct (run_drains_spec phases (set_roots rs s) w) as (Hroots & Hrep & Hcl).
  rewrite Hdrain in Hroots, Hrep, Hcl. simpl in *. split; [by rewrite Hroots; apply Honce|].
  destruct (turns_finish Replaying (MkScope (roots s1) (withdrawn s1) true) w1) as [k Hk].
  pose proof (finished_unique n k _ _ _ _ _ _ _ Hrun Hk) as Hrepo. simpl in Hrepo.
  destruct (run_records Replaying (flatten (roots s1)) w1) as [w2 ls].
  destruct Hrepo as [-> ->]. rewrite is_clean_app, Hcl, Hclean. simpl.
  unfold is_clean. by rewrite andb_true_iff.
Qed.

Lemma clean_report_means_drained_and_undone_witness :
  exists s1 s' report,
    drain Sample.two 100%Z = (90%Z, s1) /\
    turns 20 Replaying (begin_teardown s1) 90%Z = (87%Z, Finished s' report) /\
    is_clean report = true /\
    (drains (roots s1)).1 = [] /\
    (is_clean report = true <->
     forallb is_done (drain_outcomes (drains (roots Sample.two)).1 100%Z) = true /\
     forallb (fun l => is_done (report_outcome l))
       (run_records Replaying (flatten (roots s1)) 90%Z).2 = true).
Proof.
  eexists _, _, _. split; [reflexivity|]. split; [reflexivity|]. split; [reflexivity|].
  eapply (clean_report_means_drained_and_undone Sample.two _ _ 100%Z 90%Z 87%Z 20);
    reflexivity.
Defined.
