(* ===== verification/Forward.v ===== *)
(** * Forward effects ([crates/jinnd-effects/src/forward.rs])

    A forward effect hands the kernel the action itself. A plain one installs
    all or none; a stepwise one yields an inverse at every step and rolls the
    yielded prefix back, last yield first, when a step fails or the target
    went stale. [stale.is_cancelled()] reads a cell of the world. *)

From stdpp Require Import base gmap sets list strings.
From S2P Require Import Prelude Api EffectTree Programs.

Section Forward.
Context {W : Type}.

(** The derived [Debug] rendering of an outcome, generated code. *)
Context (debug : UndoOutcome -> string).

Abbreviation ForwardAction := (action W (action W unit)).

Inductive ForwardEffect :=
  | Plain (act : ForwardAction)
  | Steps (steps : list ForwardAction).

Inductive ForwardEnd :=
  | Installed (d : Disposer W)
  | Diverted (unwound : list UndoOutcome)
  | ForwardFailed (error : KernelError) (unwound : list UndoOutcome).

(** [contained_undo]: a panicking action is a failing action. *)
Definition contained_undo (a : ForwardAction) (w : W)
    : W * result (action W unit) KernelError :=
  match run_contained a w with
  | (w, inl landed) => (w, landed)
  | (w, inr panic) => (w, Err (MkKernelError EffectFailed panic None))
  end.

(** [unwind]: pops the yielded inverses, each contained. *)
Fixpoint unwind_popped (popped : list (action W unit)) (w : W) : W * list UndoOutcome :=
  match popped with
  | [] => (w, [])
  | undo :: popped =>
      let '(w, o) := withdraw (Whole undo) w in
      let '(w, os) := unwind_popped popped w in
      (w, o :: os)
  end.

Definition unwind (yielded : list (action W unit)) (w : W) : W * list UndoOutcome :=
  unwind_popped (reverse yielded) w.

(** [failure]. *)
Definition failure (o : UndoOutcome) : option KernelError :=
  match o with
  | UndoDone => None
  | UndoFailed error => Some error
  | stopped =>
      Some (MkKernelError EffectFailed
              ("an installed inverse did not complete: " ++ debug stopped) None)
  end.

(** [installed]: the future that pops and runs the yielded inverses, one
    poll at a time; [popped] lists them in the order they are popped. *)
Definition polled := (KernelFuture W unit + settled unit * destructor W)%type.

(** Leaving the loop early drops the inverses that were not reached. *)
Definition leave (popped : list (action W unit)) (e : KernelError) (w : W) : W * polled :=
  match drop_actions (reverse popped) w with
  | (w, Some panic) => (w, inr (inr panic, no_destructor))
  | (w, None) => (w, inr (inl (Err e), no_destructor))
  end.

Definition drop_both (d : destructor W) (popped : list (action W unit)) : destructor W :=
  fun w =>
    let '(w, first) := d w in
    let '(w, later) := drop_actions (reverse popped) w in
    (w, match first with Some p => Some p | None => later end).

(** An inverse in flight, and what the loop does once it settled. *)
Fixpoint chain (f : KernelFuture W unit) (popped : list (action W unit))
    (next : W -> W * polled) : KernelFuture W unit :=
  match f with
  | Future p dr =>
      Future
        (fun w =>
           match p w with
           | (w, inl f) => (w, inl (chain f popped next))
           | (w, inr (outcome, drop_spent)) =>
               let '(w, panic) := drop_spent w in
               let verdict := match panic with Some p => inr p | None => outcome end in
               match failure (classify verdict) with
               | Some e => leave popped e w
               | None => next w
               end
           end)
        (drop_both dr popped)
  end.

Fixpoint installed_poll (popped : list (action W unit)) (w : W) : W * polled :=
  match popped with
  | [] => (w, inr (inl (Ok tt), no_destructor))
  | undo :: popped =>
      match make undo w with
      | (w, inl f) => poll (chain f popped (installed_poll popped)) w
      | (w, inr payload) =>
          match failure (classify (inr payload)) with
          | Some e => leave popped e w
          | None => installed_poll popped w
          end
      end
  end.

Definition installed (yielded : list (action W unit)) : Disposer W :=
  Whole (MkAction
    (fun w => (w, inl (Future (installed_poll (reverse yielded)) (drop_actions yielded))))
    (drop_actions yielded)).

(** [advance]. Returning from the loop drops the actions that were never
    launched, outside any containment: a panic of their destructors leaves
    the function ([inr]). *)
Definition returning (rest : list ForwardAction) (r : W * ForwardEnd)
    : W * (ForwardEnd + string) :=
  let '(w, e) := r in
  match drop_actions rest w with
  | (w, Some panic) => (w, inr panic)
  | (w, None) => (w, inl e)
  end.

Definition divert (yielded : list (action W unit)) (w : W) : W * ForwardEnd :=
  let '(w, unwound) := unwind yielded w in (w, Diverted unwound).

Definition fail_with (error : KernelError) (yielded : list (action W unit)) (w : W)
    : W * ForwardEnd :=
  let '(w, unwound) := unwind yielded w in (w, ForwardFailed error unwound).

Fixpoint advance_steps (steps : list ForwardAction) (stale : W -> bool)
    (yielded : list (action W unit)) (w : W) : W * (ForwardEnd + string) :=
  match steps with
  | [] => (w, inl (Installed (installed yielded)))
  | step :: rest =>
      if stale w then returning steps (divert yielded w)
      else
        match contained_undo step w with
        | (w, Err error) => returning rest (fail_with error yielded w)
        | (w, Ok undo) =>
            let yielded := yielded ++ [undo] in
            if stale w then returning rest (divert yielded w)
            else advance_steps rest stale yielded w
        end
  end.

Definition advance_plain (act : ForwardAction) (stale : W -> bool) (w : W)
    : W * (ForwardEnd + string) :=
  match contained_undo act w with
  | (w, Ok undo) =>
      if stale w then let '(w, e) := divert [undo] w in (w, inl e)
      else (w, inl (Installed (Whole undo)))
  | (w, Err error) => (w, inl (ForwardFailed error []))
  end.

Definition advance (forward : ForwardEffect) (stale : W -> bool) (w : W)
    : W * (ForwardEnd + string) :=
  match forward with
  | Plain act => advance_plain act stale w
  | Steps steps => advance_steps steps stale [] w
  end.

(** ** The installed inverse, awaited *)

Fixpoint run_installed (popped : list (action W unit)) (w : W) : W * settled unit :=
  match popped with
  | [] => (w, inl (Ok tt))
  | undo :: popped =>
      let '(w, o) := withdraw (Whole undo) w in
      match failure o with
      | None => run_installed popped w
      | Some e =>
          match drop_actions (reverse popped) w with
          | (w, Some panic) => (w, inr panic)
          | (w, None) => (w, inl (Err e))
          end
      end
  end.

(** Awaiting what one poll answered. *)
Definition await (r : W * polled) : W * settled unit :=
  match r with
  | (w, inl f) => run_future f w
  | (w, inr (outcome, drop_spent)) =>
      match drop_spent w with
      | (w, Some panic) => (w, inr panic)
      | (w, None) => (w, outcome)
      end
  end.

Lemma run_future_await f w : run_future f w = await (poll f w).
Proof. destruct f as [p dr]. simpl. by destruct (p w) as [w1 [f|[o d]]]. Qed.

Lemma await_leave popped e w :
  await (leave popped e w) =
    match drop_actions (reverse popped) w with
    | (w, Some panic) => (w, inr panic)
    | (w, None) => (w, inl (Err e))
    end.
Proof. unfold leave. by destruct (drop_actions (reverse popped) w) as [w1 [p|]]. Qed.

Lemma await_chain f popped next w :
  await (poll (chain f popped next) w) =
    let '(w1, v) := run_future f w in
    match failure (classify v) with
    | Some e => await (leave popped e w1)
    | None => await (next w1)
    end.
Proof.
  revert w. induction f as [p dr IH] using future_induction. intros w.
  specialize (IH w). simpl. destruct (p w) as [w1 [f|[o spent]]].
  - simpl. by rewrite run_future_await, IH.
  - destruct (spent w1) as [w2 [panic|]]; by destruct (failure _).
Qed.

Lemma await_installed popped w : await (installed_poll popped w) = run_installed popped w.
Proof.
  revert w. induction popped as [|undo popped IH]; intros w; [done|].
  cbn [installed_poll run_installed withdraw]. unfold run_contained.
  destruct (make undo w) as [w1 [f|payload]].
  - rewrite await_chain. destruct (run_future f w1) as [w2 v].
    destruct (failure (classify v)); [by rewrite await_leave|apply IH].
  - simpl. by rewrite await_leave.
Qed.

Lemma withdraw_installed yielded w :
  withdraw (installed yielded) w =
    let '(w, v) := run_installed (reverse yielded) w in (w, classify v).
Proof.
  unfold withdraw, installed, run_contained. simpl.
  pose proof (await_installed (reverse yielded) w) as H.
  rewrite <-H. unfold await.
  by destruct (installed_poll (reverse yielded) w) as [w1 [f|[o d]]].
Qed.
End Forward.

(** ** Exact inverses *)

Section Exactness.
Context {W : Type} (debug : UndoOutcome -> string).
Implicit Types (w : W) (popped yielded : list (action W unit)).

(** An action that either lands, yielding an inverse that takes the world
    back, or fails without a trace. *)
Definition exact (act : action W (action W unit)) : Prop :=
  forall w, match contained_undo act w with
            | (w', Ok undo) => withdraw (Whole undo) w' = (w, UndoDone)
            | (w', Err _) => w' = w
            end.

(** Dropping the action unlaunched does nothing. *)
Definition silent {A} (act : action W A) : Prop := forall w, discard act w = (w, None).

(** Running [popped] from [w] leads back to [w0], every inverse completing. *)
Fixpoint retraces popped w w0 : Prop :=
  match popped with
  | [] => w = w0
  | undo :: popped =>
      exists w1, withdraw (Whole undo) w = (w1, UndoDone) /\ retraces popped w1 w0
  end.

Lemma retraces_unwind popped w w0 :
  retraces popped w w0 ->
  unwind_popped popped w = (w0, replicate (length popped) UndoDone).
Proof.
  revert w. induction popped as [|undo popped IH]; intros w; cbn [retraces unwind_popped].
  - by intros ->.
  - intros (w1 & -> & H). by rewrite (IH w1 H).
Qed.

Lemma retraces_installed popped w w0 :
  retraces popped w w0 -> run_installed debug popped w = (w0, inl (Ok tt)).
Proof.
  revert w. induction popped as [|undo popped IH]; intros w; cbn [retraces run_installed].
  - by intros ->.
  - intros (w1 & -> & H). by apply IH.
Qed.

Lemma drop_silent {A} (acts : list (action W A)) w :
  Forall silent acts -> drop_actions acts w = (w, None).
Proof. induction 1 as [|a acts Ha _ IH]; [done|]. simpl. by rewrite Ha, IH. Qed.

Lemma returning_silent rest (w : W) (e : ForwardEnd (W := W)) :
  Forall silent rest -> returning rest (w, e) = (w, inl e).
Proof. intros H. unfold returning. by rewrite drop_silent. Qed.

(** The three ends of the walk, from a world [w0] the yielded prefix leads
    back to. *)
Definition all_or_none w0 (r : W * (ForwardEnd + string)) : Prop :=
  match r with
  | (w', inl (Installed d)) => withdraw d w' = (w0, UndoDone)
  | (w', inl (Diverted unwound)) => w' = w0 /\ Forall (eq UndoDone) unwound
  | (w', inl (ForwardFailed _ unwound)) => w' = w0 /\ Forall (eq UndoDone) unwound
  | (_, inr _) => False
  end.

Lemma Forall_replicate_done n : Forall (eq UndoDone) (replicate n UndoDone).
Proof. by apply Forall_replicate. Qed.

Lemma advance_steps_all_or_none steps stale yielded w w0 :
  Forall exact steps -> Forall silent steps -> retraces (reverse yielded) w w0 ->
  all_or_none w0 (advance_steps debug steps stale yielded w).
Proof.
  intros He. revert yielded w. induction He as [|step rest Hstep _ IH];
    intros yielded w Hs Hback; cbn [advance_steps].
  - unfold all_or_none. by rewrite withdraw_installed, (retraces_installed _ _ _ Hback).
  - apply Forall_cons in Hs as [Hs Hrest]. specialize (Hstep w).
    destruct (stale w).
    { unfold divert, unwind. rewrite (retraces_unwind _ _ _ Hback), returning_silent
        by (by constructor). split; [done|apply Forall_replicate_done]. }
    destruct (contained_undo step w) as [w1 [undo|error]].
    + assert (Hback' : retraces (reverse (yielded ++ [undo])) w1 w0).
      { rewrite reverse_app. simpl. by exists w. }
      destruct (stale w1); [|by apply IH].
      unfold divert, unwind. rewrite (retraces_unwind _ _ _ Hback'), returning_silent by done.
      split; [done|apply Forall_replicate_done].
    + subst w1. unfold fail_with, unwind.
      rewrite (retraces_unwind _ _ _ Hback), returning_silent by done.
      split; [done|apply Forall_replicate_done].
Qed.
End Exactness.

(** ** Properties *)

(** A forward effect installs all or none. When every action yields an
    inverse that takes the world back (or fails without a trace), then
    wherever a failure or staleness cuts the walk, the world is exactly what
    it was before the effect and every rolled-back inverse completed; and an
    installed effect's disposer, run once, leads back to that world too. *)
Theorem forward_effect_all_or_none {W} (debug : UndoOutcome -> string)
    (forward : ForwardEffect (W := W)) (stale : W -> bool) (w : W) :
  Forall exact (match forward with Plain act => [act] | Steps steps => steps end) ->
  Forall silent (match forward with Plain act => [act] | Steps steps => steps end) ->
  all_or_none w (advance debug forward stale w).
Proof.
  intros He Hs. destruct forward as [act|steps].
  - apply Forall_cons_1 in He as [He _]. specialize (He w).
    unfold advance, advance_plain. destruct (contained_undo act w) as [w1 [undo|error]].
    + destruct (stale w1); [|exact He]. unfold divert, unwind.
      cbn [reverse rev_append unwind_popped]. rewrite He. simpl. by repeat constructor.
    + subst. simpl. by repeat constructor.
  - by apply advance_steps_all_or_none.
Qed.

(** A counter world: an action adds [k] and yields the inverse that subtracts
    it; [refuses] fails. *)
Module Counter.
Definition now {A} (r : Z -> Z * result A KernelError) : action Z A :=
  MkAction (fun w => (w, inl (Future (fun w => let '(w, v) := r w in
                                 (w, inr (inl v, no_destructor))) no_destructor)))
    no_destructor.
Definition adds (k : Z) : action Z (action Z unit) :=
  now (fun w => ((w + k)%Z, Ok (now (fun w => ((w - k)%Z, Ok tt))))).
Definition refuses : action Z (action Z unit) :=
  now (fun w => (w, Err (MkKernelError PluginFailed "no" None))).
Definition bomb : action Z (action Z unit) :=
  MkAction (make (adds 1)) (fun w => (w, Some "boom"%string)).

Lemma adds_exact k : exact (adds k).
Proof. intros w. unfold exact, contained_undo. simpl. f_equal. lia. Qed.
Lemma refuses_exact : exact refuses.
Proof. by intros w. Qed.
End Counter.

Lemma forward_effect_all_or_none_witness :
  let debug (_ : UndoOutcome) := ""%string in
  let steps := [Counter.adds 2; Counter.adds 3; Counter.refuses; Counter.adds 5] in
  advance debug (Steps steps) (fun _ => false) 10%Z =
    (10%Z, inl (ForwardFailed (MkKernelError PluginFailed "no" None) [UndoDone; UndoDone])) /\
  all_or_none 10%Z (advance debug (Steps steps) (fun _ => false) 10%Z).
Proof.
  intros debug steps. split; [reflexivity|].
  apply (forward_effect_all_or_none debug (Steps steps) (fun _ => false) 10%Z).
  - repeat constructor; try apply Counter.adds_exact; apply Counter.refuses_exact.
  - repeat constructor; intros w; reflexivity.
Defined.

(** Containment has a gap on the early exits of [advance]: the actions it
    never launched are dropped outside any containment, so a panic of their
    destructors leaves the function and the failure's report is lost. *)
Theorem advance_lets_a_destructor_panic_escape (debug : UndoOutcome -> string) :
  advance debug (Steps [Counter.refuses; Counter.bomb]) (fun _ => false) 0%Z =
    (0%Z, inr "boom"%string).
Proof. reflexivity. Qed.
