(* ===== verification/Plan.v ===== *)
(** * The fiber calculus and the steering cell

    [crates/jinnd-fiber/src/{plan,owed,steering}.rs]: the one transition a
    fiber owes, what a caller is told about it, and the shared cell every
    input writes to. Each operation of the cell is one critical section. *)

From stdpp Require Import base gmap sets list strings.
From S2P Require Import Prelude Api.

(** ** [plan.rs] *)

Record Aim := MkAim { epoch : option Epoch; revision : Z }.

Record Desired := MkDesired {
  aim : Aim;
  cause : TransitionCause;
  disposing : bool;
  suspending : bool;
  faulted : bool;
}.

Record Committed := MkCommitted {
  state : FiberState;
  active_for : option Aim;
  failed_under : option Aim;
  disposal_failed : bool;
}.

Inductive Step :=
  | Load (a : Aim) (c : TransitionCause)
  | Unload (c : TransitionCause)
  | Finish.

#[export] Instance Aim_eq_dec : EqDecision Aim.
Proof. solve_decision. Defined.
#[export] Instance Desired_eq_dec : EqDecision Desired.
Proof. solve_decision. Defined.
#[export] Instance Committed_eq_dec : EqDecision Committed.
Proof. solve_decision. Defined.
#[export] Instance Step_eq_dec : EqDecision Step.
Proof. solve_decision. Defined.

(** [Committed::new] and [Committed::unloaded]. *)
Definition committed_new : Committed := MkCommitted Pending None None false.

Definition unloaded (c : Committed) : Committed :=
  MkCommitted Pending None (failed_under c) (disposal_failed c).

Definition plan (c : Committed) (d : Desired) : option Step :=
  match state c with
  | Disposed => None
  | Loading | Unloading => None
  | Active =>
      if disposing d then Some (Unload ExplicitDispose)
      else if suspending d then Some (Unload Suspend)
      else if faulted d then Some (Unload BodyFaulted)
      else if decide (active_for c = Some (aim d)) then None
      else Some (Unload (cause d))
  | Pending | Failed =>
      if disposing d || suspending d then
        if disposal_failed c then None else Some Finish
      else
        match epoch (aim d) with
        | None => None
        | Some _ =>
            if decide (state c = Failed /\ failed_under c = Some (aim d)) then None
            else Some (Load (aim d) (cause d))
        end
  end.

(** ** [owed.rs] *)

Definition serves (c : Committed) (d : Desired) : bool :=
  match state c with
  | Disposed => disposing d || suspending d
  | Active =>
      negb (disposing d) && negb (suspending d) && negb (faulted d) &&
      bool_decide (active_for c = Some (aim d))
  | Pending | Loading | Failed | Unloading => false
  end.

Definition requested (c : Committed) (d : Desired) : option Owed :=
  if disposal_failed c then None
  else if disposing d then Some OwedDisposal
  else if suspending d then Some OwedSuspension
  else None.

Definition in_flight_state (s : FiberState) : bool :=
  match s with Loading | Unloading => true | _ => false end.

Definition terminal (c : TransitionCause) : bool :=
  match c with ExplicitDispose | Suspend | BodyFaulted => true | _ => false end.

Definition is_load (s : option Step) : bool :=
  match s with Some (Load _ _) => true | _ => false end.

Definition reload_scheduled (c : Committed) (d : Desired) : bool :=
  match plan c d with
  | Some (Load _ _) => true
  | Some (Unload cs) =>
      if negb (terminal cs) then is_load (plan (unloaded c) d) else false
  | None =>
      if in_flight_state (state c) && negb (faulted d)
      then is_load (plan (unloaded c) d) else false
  | Some Finish => false
  end.

Definition owed (c : Committed) (d : Desired) : option Owed :=
  if serves c d then None
  else match requested c d with
       | Some r => Some r
       | None => if reload_scheduled c d then Some OwedReload else Some OwedStalled
       end.

(** ** [steering.rs] *)

Record Inner := MkInner {
  desired : Desired;
  committed : Committed;
  flying : option Aim;
  resting : bool;
  moved : Z;
  launches : Z;
}.

Definition set_desired (d : Desired) (i : Inner) : Inner :=
  MkInner d (committed i) (flying i) (resting i) (moved i) (launches i).

(** [Inner::stir]: rest lowers with the write that moved the target. *)
Definition stir (i : Inner) : Inner :=
  MkInner (desired i) (committed i) (flying i) false (wrapping_add (moved i) 1) (launches i).

Definition cell_new (e : option Epoch) : Inner :=
  MkInner (MkDesired (MkAim e 0) InitialLoad false false false) committed_new None false 0 0.

Definition observed (i : Inner) : Committed * Desired * Z :=
  (committed i, desired i, moved i).

Definition commit (land : Committed -> Committed) (i : Inner) : Inner :=
  MkInner (desired i) (land (committed i)) (flying i) (resting i) (moved i) (launches i).

Definition cell_owed (i : Inner) : option Owed :=
  if resting i then None else owed (committed i) (desired i).

Definition settle_rest (stamp : Z) (i : Inner) : Inner * bool :=
  if decide (moved i = stamp) then
    (MkInner (desired i) (committed i) (flying i) true (moved i) (launches i), true)
  else (i, false).

Definition set_epoch (e : option Epoch) (i : Inner) : Inner * bool :=
  let d := desired i in
  if decide (epoch (aim d) = e) then (i, false)
  else
    (stir (set_desired
       (MkDesired (MkAim e (revision (aim d))) DependencyChanged
          (disposing d) (suspending d) (faulted d)) i), true).

Definition restart (c : TransitionCause) (i : Inner) : Inner :=
  let d := desired i in
  stir (set_desired
    (MkDesired (MkAim (epoch (aim d)) (wrapping_add (revision (aim d)) 1)) c
       (disposing d) (suspending d) (faulted d)) i).

Definition dispose (i : Inner) : Inner :=
  let d := desired i in
  if disposing d then i
  else stir (set_desired (MkDesired (aim d) (cause d) true (suspending d) (faulted d)) i).

Definition suspend (i : Inner) : Inner :=
  let d := desired i in
  if suspending d then i
  else stir (set_desired (MkDesired (aim d) (cause d) (disposing d) true (faulted d)) i).

(** [launch] asserts that nothing is in flight: [None] is the panic. *)
Definition launch (a : Aim) (i : Inner) : option Inner :=
  match flying i with
  | Some _ => None
  | None =>
      let d := desired i in
      Some (MkInner (MkDesired (aim d) (cause d) (disposing d) (suspending d) false)
              (committed i) (Some a) (resting i) (moved i) (wrapping_add (launches i) 1))
  end.

Definition incarnation (i : Inner) : Z := launches i.

Definition fault (inc : Z) (i : Inner) : Inner * bool :=
  let d := desired i in
  if decide (launches i <> inc \/ faulted d = true \/ state (committed i) = Disposed) then
    (i, false)
  else
    (stir (set_desired (MkDesired (aim d) (cause d) (disposing d) (suspending d) true) i), true).

Definition land (i : Inner) : Inner :=
  MkInner (desired i) (committed i) None (resting i) (moved i) (launches i).

Definition stale (i : Inner) : bool :=
  match flying i with
  | None => false
  | Some a =>
      disposing (desired i) || suspending (desired i) || bool_decide (a <> aim (desired i))
  end.

Definition absorb (e : option Epoch) (i : Inner) : Inner * bool :=
  let i := (set_epoch e i).1 in (i, stale i).

(** ** The calculus, on its own *)

(** Unfolds the planner and the oracle and splits every case. *)
Ltac plan_cases :=
  unfold owed, serves, requested, reload_scheduled, plan, unloaded in *; simpl in *;
  repeat (case_match || case_bool_decide || case_decide || simplify_eq/=);
  try done.

(** What a landing commits: the reference semantics of a transition, given
    whether the activation (or the withdrawal) succeeded. *)
Definition landed (ok : bool) (s : Step) (c : Committed) (d : Desired) : Committed * Desired :=
  match s with
  | Load a _ =>
      let d := MkDesired (aim d) (cause d) (disposing d) (suspending d) false in
      if ok then (MkCommitted Active (Some a) None (disposal_failed c), d)
      else (MkCommitted Failed None (Some a) (disposal_failed c), d)
  | Unload BodyFaulted => (MkCommitted Failed None (active_for c) (disposal_failed c), d)
  | Unload _ =>
      if disposing d || suspending d then
        if ok then (MkCommitted Disposed (active_for c) (failed_under c) (disposal_failed c), d)
        else (MkCommitted Failed (active_for c) (failed_under c) true, d)
      else if ok then (unloaded c, d)
      else (MkCommitted Failed None (Some (aim d)) (disposal_failed c), d)
  | Finish =>
      if ok then (MkCommitted Disposed (active_for c) (failed_under c) (disposal_failed c), d)
      else (MkCommitted Failed (active_for c) (failed_under c) true, d)
  end.

(** Plan and land until nothing is owed, the outcomes given by [oks]. *)
Fixpoint reconcile (oks : list bool) (c : Committed) (d : Desired) : Committed * Desired :=
  match oks with
  | [] => (c, d)
  | ok :: oks =>
      match plan c d with
      | None => (c, d)
      | Some s => let '(c, d) := landed ok s c d in reconcile oks c d
      end
  end.

(** ** Lemmas of the calculus *)

Section Calculus.
Implicit Types (c : Committed) (d : Desired) (s : Step).

(** A quiescent fiber rests where it should. *)
Definition rests_well c d : Prop :=
  serves c d = true \/ state c = Disposed \/
  (disposal_failed c = true /\ (disposing d || suspending d) = true) \/
  (epoch (aim d) = None /\ (state c = Pending \/ state c = Failed)) \/
  (state c = Failed /\ failed_under c = Some (aim d)).

Lemma plan_None_rests c d :
  in_flight_state (state c) = false -> plan c d = None -> rests_well c d.
Proof.
  unfold rests_well, plan, serves. intros Hs Hp.
  destruct (disposing d) eqn:Hd, (suspending d) eqn:Hsp, (faulted d) eqn:Hf,
    (state c) eqn:Hst; simpl in *; try done; auto;
    repeat case_match; simplify_eq/=; try case_bool_decide; auto 10; naive_solver.
Qed.

Lemma plan_in_flight c d : in_flight_state (state c) = true -> plan c d = None.
Proof. unfold plan. by destruct (state c). Qed.

Lemma plan_Load_inv c d a cs :
  plan c d = Some (Load a cs) ->
  a = aim d /\ cs = cause d /\ is_Some (epoch (aim d)) /\
  disposing d = false /\ suspending d = false /\
  (state c = Pending \/ (state c = Failed /\ failed_under c <> Some (aim d))).
Proof.
  unfold plan. intros H.
  destruct (disposing d) eqn:Hd, (suspending d) eqn:Hs, (state c) eqn:Hst; simpl in H;
    repeat case_match; simplify_eq/=; naive_solver.
Qed.

Lemma plan_Finish_inv c d :
  plan c d = Some Finish ->
  (disposing d || suspending d) = true /\ disposal_failed c = false /\
  (state c = Pending \/ state c = Failed).
Proof. unfold plan. intros H. destruct (state c); repeat case_match; simplify_eq/=; auto. Qed.

Lemma plan_Unload_inv c d cs : plan c d = Some (Unload cs) -> state c = Active.
Proof. unfold plan. intros H. by destruct (state c); repeat case_match; simplify_eq/=. Qed.

Lemma landed_aim ok s c d : aim (landed ok s c d).2 = aim d.
Proof. unfold landed. by repeat case_match. Qed.

Lemma landed_not_in_flight ok s c d :
  in_flight_state (state (landed ok s c d).1) = false.
Proof. unfold landed. by repeat case_match. Qed.

Lemma load_lands_quiescent ok a cs c d :
  plan c d = Some (Load a cs) ->
  let '(c', d') := landed ok (Load a cs) c d in plan c' d' = None.
Proof.
  intros H. apply plan_Load_inv in H as (-> & _ & [e He] & Hd & Hs & _).
  unfold landed. destruct ok; unfold plan; simpl; rewrite Hd, Hs; simpl;
    rewrite ?He; by rewrite decide_True.
Qed.

Lemma finish_lands_quiescent ok c d :
  plan c d = Some Finish ->
  let '(c', d') := landed ok Finish c d in plan c' d' = None.
Proof.
  intros H. apply plan_Finish_inv in H as (Hd & _ & _). unfold landed, plan.
  destruct ok; simpl; [done|]. by rewrite Hd.
Qed.

(** An unload is followed by a load, or by nothing. *)
Lemma unload_lands ok cs c d :
  plan c d = Some (Unload cs) ->
  let '(c', d') := landed ok (Unload cs) c d in
  plan c' d' = None \/ plan c' d' = Some (Load (aim d) (cause d)) \/
  (cs = BodyFaulted /\ plan c' d' = Some Finish).
Proof.
  intros _. unfold landed, plan.
  destruct cs; simpl; destruct (disposing d || suspending d) eqn:Hds; simpl;
    destruct ok; simpl; rewrite ?Hds; simpl; repeat case_match; auto.
Qed.

Lemma reconcile_rest oks c d : plan c d = None -> reconcile oks c d = (c, d).
Proof. intros H. destruct oks; simpl; [done|]. by rewrite H. Qed.
End Calculus.

(** ** Properties of the calculus *)

(** Progress: whatever was committed and whatever is desired, and however
    the transitions end, at most two of them are launched before nothing is
    owed; the fiber then rests where it should: it serves the target, waits
    for a dependency, failed under exactly this target, or was disposed or
    could not withdraw. *)
Theorem two_transitions_reach_quiescence (c : Committed) (d : Desired) (oks : list bool) :
  in_flight_state (state c) = false -> 2 <= length oks ->
  let '(c', d') := reconcile oks c d in
  plan c' d' = None /\ aim d' = aim d /\ rests_well c' d'.
Proof.
  intros Hfl Hlen. destruct oks as [|ok1 [|ok2 oks]]; simpl in Hlen; [lia..|]. clear Hlen.
  assert (Hnone : forall c d, in_flight_state (state c) = false -> plan c d = None ->
    let '(c', d') := reconcile oks c d in plan c' d' = None /\ aim d' = aim d /\ rests_well c' d').
  { intros c0 d0 Hc0 Hp0. rewrite reconcile_rest by done.
    split_and!; [done..|by apply plan_None_rests]. }
  assert (Hone : forall c d, in_flight_state (state c) = false ->
    (plan c d = None \/ (exists a cs, plan c d = Some (Load a cs)) \/ plan c d = Some Finish) ->
    let '(c', d') := reconcile (ok2 :: oks) c d in
    plan c' d' = None /\ aim d' = aim d /\ rests_well c' d').
  { intros c0 d0 Hc0 Hcase. cbn [reconcile].
    destruct (plan c0 d0) as [s0|] eqn:Hp0; [|split_and!; [done..|by apply plan_None_rests]].
    pose proof (landed_aim ok2 s0 c0 d0) as Ha. pose proof (landed_not_in_flight ok2 s0 c0 d0) as Hn.
    assert (Hland : let '(c', d') := landed ok2 s0 c0 d0 in plan c' d' = None).
    { destruct Hcase as [?|[(a & cs & [= ->])|[= ->]]];
        [done|by apply load_lands_quiescent|by apply finish_lands_quiescent]. }
    destruct (landed ok2 s0 c0 d0) as [c1 d1]. simpl in *. rewrite <-Ha. by apply Hnone. }
  cbn [reconcile]. destruct (plan c d) as [s|] eqn:Hp.
  - pose proof (landed_aim ok1 s c d) as Ha. pose proof (landed_not_in_flight ok1 s c d) as Hn.
    destruct s as [a cs|cs|].
    + pose proof (load_lands_quiescent ok1 a cs c d Hp) as Hq.
      destruct (landed ok1 (Load a cs) c d) as [c1 d1]. simpl in Ha, Hn. rewrite <-Ha.
      apply Hone; auto.
    + pose proof (unload_lands ok1 cs c d Hp) as Hq.
      destruct (landed ok1 (Unload cs) c d) as [c1 d1]. simpl in Ha, Hn. rewrite <-Ha.
      apply Hone; [done|]. naive_solver.
    + pose proof (finish_lands_quiescent ok1 c d Hp) as Hq.
      destruct (landed ok1 Finish c d) as [c1 d1]. simpl in Ha, Hn. rewrite <-Ha.
      apply Hone; auto.
  - split_and!; [done..|by apply plan_None_rests].
Qed.

Lemma two_transitions_reach_quiescence_witness :
  let a := MkAim (Some (MkEpoch [])) 1 in
  let c := MkCommitted Active (Some (MkAim (Some (MkEpoch [])) 0)) None false in
  let d := MkDesired a ConfigChanged false false false in
  reconcile [true; true] c d = (MkCommitted Active (Some a) None false, d) /\
  (let '(c', d') := reconcile [true; true] c d in
   plan c' d' = None /\ aim d' = aim d /\ rests_well c' d').
Proof.
  intros a c d. split; [vm_compute; reflexivity|].
  apply (two_transitions_reach_quiescence c d [true; true]); [reflexivity|simpl; lia].
Defined.

(** A failed transition is never retried against an unchanged environment
    (R9): when a planned load, unload or final withdrawal fails, the planner
    has nothing to launch for the same target. *)
Theorem failed_transition_is_not_retried (c : Committed) (d : Desired) (s : Step) :
  plan c d = Some s -> s <> Unload BodyFaulted ->
  let '(c', d') := landed false s c d in
  state c' = Failed /\ aim d' = aim d /\ plan c' d' = None.
Proof.
  intros Hp Hs. destruct s as [a cs|cs|].
  - pose proof (load_lands_quiescent false a cs c d Hp) as H. by split_and!.
  - apply plan_Unload_inv in Hp. unfold landed, plan.
    destruct cs; try done; destruct (disposing d || suspending d) eqn:Hds; simpl;
      rewrite ?Hds; (split_and!; [done..|]); destruct (epoch (aim d)); simpl; try done;
      by rewrite decide_True.
  - pose proof (finish_lands_quiescent false c d Hp) as H. by split_and!.
Qed.

Lemma failed_transition_is_not_retried_witness :
  let d := MkDesired (MkAim (Some (MkEpoch [])) 3) ExplicitRestart false false false in
  plan committed_new d = Some (Load (aim d) ExplicitRestart) /\
  (let '(c', d') := landed false (Load (aim d) ExplicitRestart) committed_new d in
   state c' = Failed /\ aim d' = aim d /\ plan c' d' = None).
Proof.
  intros d. split; [reflexivity|].
  apply (failed_transition_is_not_retried committed_new d (Load (aim d) ExplicitRestart));
    [reflexivity|discriminate].
Defined.

(** [Owed::Reload] is a promise the planner keeps: a caller told to wait
    for a replacement gets one, with no further input, as soon as the
    transitions land cleanly, for exactly the target it saw; and it is never
    told so while a disposal, a suspension or a fault is pending, or while a
    dependency is missing. *)
Theorem reload_is_always_served (c : Committed) (d : Desired) :
  in_flight_state (state c) = false ->
  owed c d = Some OwedReload ->
  disposing d = false /\ suspending d = false /\ is_Some (epoch (aim d)) /\
  (state c = Active -> faulted d = false) /\
  let '(c', d') := reconcile [true; true] c d in
  state c' = Active /\ active_for c' = Some (aim d) /\ serves c' d' = true.
Proof.
  intros Hfl Ho. unfold owed in Ho.
  destruct (serves c d) eqn:Hserves; [done|].
  destruct (requested c d) eqn:Hreq; [injection Ho as ->; unfold requested in Hreq; by repeat case_match|].
  destruct (reload_scheduled c d) eqn:Hsch; [|done]. clear Ho. unfold reload_scheduled in Hsch.
  destruct (plan c d) as [[a cs|cs|]|] eqn:Hp; try done.
  - pose proof (load_lands_quiescent true a cs c d Hp) as Hq.
    apply plan_Load_inv in Hp as Hinv. destruct Hinv as (-> & -> & He & Hd & Hsp & Hst).
    split_and!; [done..|by destruct Hst as [->|[-> _]]|].
    cbn [reconcile]. rewrite Hp. simpl in *. rewrite Hq. split_and!; [done..|].
    unfold serves. simpl. by rewrite Hd, Hsp, bool_decide_eq_true_2.
  - destruct (terminal cs) eqn:Ht; [done|]. simpl in Hsch.
    destruct (plan (unloaded c) d) as [[a cs'| |]|] eqn:Hp2; try done.
    apply plan_Load_inv in Hp2 as Hinv. destruct Hinv as (-> & -> & He & Hd & Hsp & _).
    split_and!; [done..| |].
    { intros Hact. unfold plan in Hp. rewrite Hact, Hd, Hsp in Hp.
      destruct (faulted d); [by injection Hp as <-|done]. }
    cbn [reconcile]. rewrite Hp.
    assert (Hl : landed true (Unload cs) c d = (unloaded c, d)).
    { unfold landed. rewrite Hd, Hsp. by destruct cs. }
    rewrite Hl, Hp2. simpl. split_and!; [done..|].
    unfold serves. simpl. by rewrite Hd, Hsp, bool_decide_eq_true_2.
  - by rewrite Hfl in Hsch.
Qed.

Lemma reload_is_always_served_witness :
  let a := MkAim (Some (MkEpoch [])) 1 in
  let c := MkCommitted Active (Some (MkAim (Some (MkEpoch [])) 0)) None false in
  let d := MkDesired a ConfigChanged false false false in
  owed c d = Some OwedReload /\
  (disposing d = false /\ suspending d = false /\ is_Some (epoch (aim d)) /\
   (state c = Active -> faulted d = false) /\
   let '(c', d') := reconcile [true; true] c d in
   state c' = Active /\ active_for c' = Some (aim d) /\ serves c' d' = true).
Proof.
  intros a c d. split; [vm_compute; reflexivity|].
  apply (reload_is_always_served c d); [reflexivity|vm_compute; reflexivity].
Defined.

(** A caller may be told [Stalled] ("nothing is coming until the environment
    moves") while a replacement is already scheduled: when a live activation
    dies after its target moved, the planner unloads it and then loads the new
    target, with no further input. *)
Theorem stalled_is_answered_while_a_reload_is_due (c : Committed) (d : Desired) (a : Aim) :
  state c = Active -> faulted d = true -> disposing d = false -> suspending d = false ->
  disposal_failed c = false -> active_for c = Some a -> a <> aim d -> is_Some (epoch (aim d)) ->
  owed c d = Some OwedStalled /\
  let '(c', d') := reconcile [true; true] c d in
  state c' = Active /\ active_for c' = Some (aim d) /\ serves c' d' = true.
Proof.
  intros Hst Hf Hd Hs Hdf Ha Hne [e He].
  assert (Hp : plan c d = Some (Unload BodyFaulted)) by (unfold plan; by rewrite Hst, Hd, Hs, Hf).
  split.
  - unfold owed, serves, requested, reload_scheduled. rewrite Hp, Hst, Hd, Hs, Hf, Hdf. done.
  - cbn [reconcile]. rewrite Hp. cbn [landed]. rewrite Ha.
    assert (Hp2 : plan (MkCommitted Failed None (Some a) (disposal_failed c)) d =
      Some (Load (aim d) (cause d))).
    { unfold plan. simpl. rewrite Hd, Hs, He. simpl. rewrite decide_False by naive_solver. done. }
    rewrite Hp2. cbn [landed]. simpl. split_and!; [done..|].
    unfold serves. simpl. by rewrite Hd, Hs, bool_decide_eq_true_2.
Qed.

Lemma stalled_is_answered_while_a_reload_is_due_witness :
  let c := MkCommitted Active (Some (MkAim (Some (MkEpoch [])) 0)) None false in
  let d := MkDesired (MkAim (Some (MkEpoch [])) 1) ConfigChanged false false true in
  owed c d = Some OwedStalled /\
  let '(c', d') := reconcile [true; true] c d in
  state c' = Active /\ active_for c' = Some (aim d) /\ serves c' d' = true.
Proof.
  intros c d.
  apply (stalled_is_answered_while_a_reload_is_due c d (MkAim (Some (MkEpoch [])) 0));
    [reflexivity..|discriminate|by eexists].
Defined.
