(* ===== verification/Supervisor.v ===== *)
(** * The fiber's supervisor and its handle

    [crates/jinnd-fiber/src/{supervisor,landing,shared,fiber,body,contain}.rs] and
    [supervisor/{landed,publish,contained}.rs]: the task that runs a fiber's
    transitions, and the callers that steer it, as one executable machine.

    A step of the machine is one critical section, one store or one [await]
    of the source. The supervisor's program counter is [Pc]; callers of the
    handle are threads of their own ([caller]), and [event] interleaves them
    with the supervisor, the activation it awaits, and the world. A body is
    opaque: an activation settles with the registrations it made and with its
    outcome. *)

From stdpp Require Import base gmap sets list strings.
From S2P Require Import Prelude Api EffectTree Programs Effects Plan.

(** ** Who runs *)

(** What follows a withdrawal, at its four call sites. *)
Inductive After :=
  | AfterFailedLoad (c : TransitionCause)
  | AfterUnload (c : TransitionCause)
  | AfterFault
  | AfterFinish (c : TransitionCause).

(** One write of [landed.rs] to the committed state. *)
Inductive Landing :=
  | Activated (a : Aim)
  | ActivationFailed (a : Aim)
  | Faulted (dead : option Aim)
  | Unloaded
  | UnloadFailed (a : Aim)
  | DisposedClean
  | DisposalFailed.

Definition landing_commit (l : Landing) (c : Committed) : Committed :=
  match l with
  | Activated a => MkCommitted Active (Some a) None (disposal_failed c)
  | ActivationFailed a | UnloadFailed a => MkCommitted Failed None (Some a) (disposal_failed c)
  | Faulted dead => MkCommitted Failed None dead (disposal_failed c)
  | Unloaded => unloaded c
  | DisposedClean => MkCommitted Disposed (active_for c) (failed_under c) (disposal_failed c)
  | DisposalFailed => MkCommitted Failed (active_for c) (failed_under c) true
  end.

(** An input on its way into the cell while a transition is in flight
    ([landing.rs], [absorb]): none, one was noticed, or the signal was read. *)
Inductive Inbox :=
  | Idle
  | Noticed
  | Holding (e : option Epoch).

Inductive Pc (W : Type) :=
  (* [supervise] *)
  | Top
  | Asked (asked : Z)
  | Sampled (asked : Z) (e : option Epoch)
  | Synced (asked : Z)
  | Settling (asked : Z) (stamp : Z) (for_good : bool)
  | Acknowledging (asked : Z) (for_good : bool)
  | Acknowledged (for_good : bool)
  | Waiting
  | Stopped
  | Panicked
  (* [load] *)
  | Launching (a : Aim) (c : TransitionCause)
  | PublishLoading (a : Aim) (c : TransitionCause)
  | Activating (a : Aim) (c : TransitionCause) (inbox : Inbox)
  | LandingLoad (a : Aim) (c : TransitionCause) (r : result () KernelError)
  | ActivationLanded (a : Aim) (c : TransitionCause)
  | PublishEffects (c : TransitionCause)
  | Resampling (c : TransitionCause)
  | Resampled (c : TransitionCause) (e : option Epoch)
  | NextStep (c : TransitionCause)
  | PublishActive (c : TransitionCause)
  | LoadFailing (a : Aim) (c : TransitionCause) (e : KernelError)
  | LoadFailed (a : Aim) (c : TransitionCause)
  (* [unload], [fault_unload], [finish] *)
  | PublishUnloading (after : After)
  | FaultUnload
  | FaultCommit (dead : option Aim)
  | PublishFaultUnloading
  | PublishFaultFailed
  | Finishing
  (* [withdraw] *)
  | Withdrawing (full : bool) (after : After)
  | Draining (full : bool) (after : After) (inbox : Inbox)
      (phases : list (EffectId * string * Disposer W))
  | Undoing (full : bool) (after : After) (inbox : Inbox) (t : teardown W)
  | Replayed (after : After) (report : ReplayReport)
  | Withdrawn (after : After) (report : ReplayReport)
  | Landed (after : After) (report : ReplayReport)
  | Judging (after : After) (report : ReplayReport)
  (* what the report earns *)
  | Failing (e : KernelError) (l : Landing) (c : TransitionCause)
  | Committing (l : Landing) (c : TransitionCause)
  | PublishLanded (to : FiberState) (c : TransitionCause).
Arguments Top {W}. Arguments Asked {W}. Arguments Sampled {W}. Arguments Synced {W}.
Arguments Settling {W}. Arguments Acknowledging {W}. Arguments Acknowledged {W}.
Arguments Waiting {W}. Arguments Stopped {W}. Arguments Panicked {W}.
Arguments Launching {W}. Arguments PublishLoading {W}. Arguments Activating {W}.
Arguments LandingLoad {W}. Arguments ActivationLanded {W}. Arguments PublishEffects {W}.
Arguments Resampling {W}. Arguments Resampled {W}. Arguments NextStep {W}.
Arguments PublishActive {W}. Arguments LoadFailing {W}. Arguments LoadFailed {W}.
Arguments PublishUnloading {W}. Arguments FaultUnload {W}. Arguments FaultCommit {W}.
Arguments PublishFaultUnloading {W}. Arguments PublishFaultFailed {W}.
Arguments Finishing {W}. Arguments Withdrawing {W}. Arguments Draining {W}.
Arguments Undoing {W}. Arguments Replayed {W}. Arguments Withdrawn {W}.
Arguments Landed {W}. Arguments Judging {W}. Arguments Failing {W}. Arguments Committing {W}.
Arguments PublishLanded {W}.

(** The operations of the handle and of a fault sink, and what a thread that
    called one still has to do. *)
Inductive call :=
  | CallRestart (c : TransitionCause)
  | CallQuiesce
  | CallSuspend
  | CallDispose
  | CallDrop
  | CallFault (incarnation : Z) (e : KernelError).

Inductive micro :=
  | MRestart (c : TransitionCause)
  | MSuspend
  | MDispose
  | MFail (e : KernelError)
  | MFault (incarnation : Z)
  | MProbe
  | MNotify
  | MAwait.

Definition quiesce_program : list micro := [MProbe; MNotify; MAwait].

(** [FaultSink::fault]; [MFault] notifies when the report is acted on. *)
Definition fault_program (fiber : FiberId) (incarnation : Z) (e : KernelError) : list micro :=
  [MFail (MkKernelError (code e) (message e) (Some (default fiber (Api.fiber e))));
   MFault incarnation].

Definition call_program (fiber : FiberId) (c : call) : list micro :=
  match c with
  | CallRestart c => [MRestart c; MNotify]
  | CallQuiesce => quiesce_program
  | CallSuspend => MSuspend :: quiesce_program
  | CallDispose => MDispose :: quiesce_program
  | CallDrop => [MDispose; MNotify]
  | CallFault inc e => fault_program fiber inc e
  end.

Record caller := MkCaller { called : call; todo : list micro; asked_for : Z }.

(** What an activation registers, in order. *)
Inductive registration (W : Type) :=
  | RegisterEffect (label : string) (d : Disposer W)
  | RegisterDraining (label : string) (drain undo : Disposer W)
  | RegisterSuspendable (label : string) (undo suspend : Disposer W)
  | RegisterChild (parent : EffectId) (label : string) (d : Disposer W).
Arguments RegisterEffect {W}. Arguments RegisterDraining {W}.
Arguments RegisterSuspendable {W}. Arguments RegisterChild {W}.

Definition register_one {W} (s : Z * EffectScope W) (r : registration W) : Z * EffectScope W :=
  (match r with
   | RegisterEffect label d => register s.1 s.2 label d
   | RegisterDraining label drain undo => register_draining s.1 s.2 label drain undo
   | RegisterSuspendable label undo suspend => register_suspendable s.1 s.2 label undo suspend
   | RegisterChild parent label d => register_child s.1 s.2 parent label d
   end).1.

Definition registered {W} (next : Z) (s : EffectScope W) (rs : list (registration W))
    : Z * EffectScope W :=
  fold_left register_one rs (next, s).

(** ** The machine's state *)

(** [FiberRecord]. *)
Record FiberRecord := MkFiberRecord {
  transitions : list Transition;
  failures : list KernelError;
  replays : list ReplayReport;
  effects : list EffectDescriptor;
}.

(** [Shared] with the supervisor's [Cell], the inputs ([signal], with the flag
    that it changed since it was last awaited, and the permit of [wake]), the
    state [publish] has recorded and not sent yet, and the threads that call
    the handle. *)
Record Fiber (W : Type) := MkFiber {
  id : FiberId;
  steering : Inner;
  published_state : FiberState;
  sending : option FiberState;
  probe : Z;
  settled : Z;
  withdrawing : bool;
  record : FiberRecord;
  scope : EffectScope W;
  cancelled : bool;
  signal : option Epoch;
  signal_changed : bool;
  wake : bool;
  callers : list caller;
  pc : Pc W;
}.
Arguments MkFiber {W}. Arguments id {W}. Arguments steering {W}.
Arguments published_state {W}. Arguments sending {W}. Arguments probe {W}.
Arguments settled {W}. Arguments withdrawing {W}. Arguments record {W}.
Arguments scope {W}. Arguments cancelled {W}. Arguments signal {W}.
Arguments signal_changed {W}. Arguments wake {W}. Arguments callers {W}. Arguments pc {W}.

Section Machine.
Context {W : Type}.
Implicit Types (f : Fiber W) (w : W).

(** [Fiber::spawn]: the steering cell starts from the signal's epoch. *)
Definition spawn (fiber : FiberId) (e : option Epoch) : Fiber W :=
  MkFiber fiber (cell_new e) Pending None 0 0 false (MkFiberRecord [] [] [] [])
    new_scope false e false false [] Top.

(** *** Field writes *)

Definition with_steering (i : Inner) f : Fiber W :=
  MkFiber (id f) i (published_state f) (sending f) (probe f) (settled f) (withdrawing f)
    (record f) (scope f) (cancelled f) (signal f) (signal_changed f) (wake f) (callers f) (pc f).
Definition goto (p : Pc W) f : Fiber W :=
  MkFiber (id f) (steering f) (published_state f) (sending f) (probe f) (settled f)
    (withdrawing f) (record f) (scope f) (cancelled f) (signal f) (signal_changed f) (wake f)
    (callers f) p.
Definition with_published (s : FiberState) (out : option FiberState) (r : FiberRecord) f
    : Fiber W :=
  MkFiber (id f) (steering f) s out (probe f) (settled f) (withdrawing f) r (scope f)
    (cancelled f) (signal f) (signal_changed f) (wake f) (callers f) (pc f).
Definition with_record (r : FiberRecord) f : Fiber W :=
  with_published (published_state f) (sending f) r f.
Definition with_counts (p s : Z) f : Fiber W :=
  MkFiber (id f) (steering f) (published_state f) (sending f) p s (withdrawing f) (record f)
    (scope f) (cancelled f) (signal f) (signal_changed f) (wake f) (callers f) (pc f).
Definition with_scope (s : EffectScope W) f : Fiber W :=
  MkFiber (id f) (steering f) (published_state f) (sending f) (probe f) (settled f)
    (withdrawing f) (record f) s (cancelled f) (signal f) (signal_changed f) (wake f)
    (callers f) (pc f).
Definition with_span (b : bool) f : Fiber W :=
  MkFiber (id f) (steering f) (published_state f) (sending f) (probe f) (settled f) b
    (record f) (scope f) (cancelled f) (signal f) (signal_changed f) (wake f) (callers f) (pc f).
Definition with_cancel (b : bool) f : Fiber W :=
  MkFiber (id f) (steering f) (published_state f) (sending f) (probe f) (settled f)
    (withdrawing f) (record f) (scope f) b (signal f) (signal_changed f) (wake f)
    (callers f) (pc f).
Definition with_inputs (e : option Epoch) (changed permit : bool) f : Fiber W :=
  MkFiber (id f) (steering f) (published_state f) (sending f) (probe f) (settled f)
    (withdrawing f) (record f) (scope f) (cancelled f) e changed permit (callers f) (pc f).
Definition with_callers (cs : list caller) f : Fiber W :=
  MkFiber (id f) (steering f) (published_state f) (sending f) (probe f) (settled f)
    (withdrawing f) (record f) (scope f) (cancelled f) (signal f) (signal_changed f) (wake f)
    cs (pc f).

(** *** [Shared]'s record writes *)

Definition fail (e : KernelError) f : Fiber W :=
  let r := record f in
  with_record (MkFiberRecord (transitions r) (failures r ++ [e]) (replays r) (effects r)) f.

Definition replay_recorded (report : ReplayReport) f : Fiber W :=
  let r := record f in
  with_record
    (MkFiberRecord (transitions r) (failures r) (replays r ++ [report]) (effects r)) f.

Definition publish_effects f : Fiber W :=
  let r := record f in
  with_record
    (MkFiberRecord (transitions r) (failures r) (replays r) (tree (scope f))) f.

(** [Cell::publish], up to the send: nothing when the state does not
    change; the record always comes first. *)
Definition publish (to : FiberState) (c : TransitionCause) f : Fiber W :=
  let from := published_state f in
  if decide (from = to) then f
  else
    let r := record f in
    with_published from (Some to)
      (MkFiberRecord (transitions r ++ [MkTransition (id f) from to c]) (failures r)
         (replays r) (effects r)) f.

(** [Shared::settle]. *)
Definition settle (asked : Z) f : Fiber W :=
  if decide (asked <= settled f)%Z then f else with_counts (probe f) asked f.

Definition unclean_error (fiber : FiberId) (report : ReplayReport) : KernelError :=
  MkKernelError EffectFailed
    ("these effects were not withdrawn cleanly: " +:+
     String.concat ", " (map report_label (unclean report)))
    (Some fiber).

(** [contain.rs]: what an activation's outcome and its future's destructor
    are recorded as. *)
Definition contained (fiber : FiberId) (outcome : Programs.settled ()) (dropped : option string)
    : result () KernelError :=
  let panicked message :=
    Err (MkKernelError PluginFailed ("the plugin body panicked: " +:+ message)
           (Some fiber)) in
  match outcome, dropped with
  | inr panic, _ => panicked panic
  | inl (Ok tt), Some panic => panicked panic
  | inl (Ok tt), None => Ok tt
  | inl (Err e), _ =>
      Err (MkKernelError (code e) (message e) (Some (default fiber (Api.fiber e))))
  end.

(** *** The supervisor *)

Definition commit_landing (l : Landing) f : Fiber W :=
  with_steering (commit (landing_commit l) (steering f)) f.

(** [Cell::run]: the first instruction of each transition. *)
Definition run (s : Step) : Pc W :=
  match s with
  | Load a c => match epoch a with Some _ => Launching a c | None => Top end
  | Unload BodyFaulted => FaultUnload
  | Unload c => PublishUnloading (AfterUnload c)
  | Finish => Finishing
  end.

(** [disposal_landed]. *)
Definition disposal_landed (fiber : FiberId) (report : ReplayReport) (c : TransitionCause)
    : Pc W :=
  if is_clean report then Committing DisposedClean c
  else Failing (unclean_error fiber report) DisposalFailed c.

(** The rest of [unload], once the withdrawal reported. *)
Definition unload_landed (fiber : FiberId) (d : Desired) (report : ReplayReport)
    (c : TransitionCause) : Pc W :=
  if disposing d || suspending d then disposal_landed fiber report c
  else if is_clean report then Committing Unloaded c
  else Failing (unclean_error fiber report) (UnloadFailed (aim d)) c.

Definition landing_state (l : Landing) : FiberState :=
  match l with
  | Activated _ => Active
  | Unloaded => Pending
  | DisposedClean => Disposed
  | _ => Failed
  end.

(** Whether a withdrawal after this transition runs every inverse. *)
Definition withdraws_fully (after : After) : bool :=
  match after with
  | AfterFailedLoad _ | AfterFault => true
  | AfterUnload c | AfterFinish c => bool_decide (c = ExplicitDispose)
  end.

Definition unloading_cause (after : After) : TransitionCause :=
  match after with
  | AfterFailedLoad c | AfterUnload c | AfterFinish c => c
  | AfterFault => BodyFaulted
  end.

(** [absorb]: fold the epoch in, and raise the token on staleness. *)
Definition absorbing (e : option Epoch) f : Fiber W :=
  let '(i, stale) := absorb e (steering f) in
  with_cancel (cancelled f || stale) (with_steering i f).

(** One instruction of the supervisor, function by function. [None] when the
    function has none there: it waits for an input or for the activation, or
    it stopped. *)

(** [supervise]: one round per iteration, the probe read first. *)
Definition supervise_pc f w : option (W * Fiber W) :=
  let i := steering f in
  match pc f with
  | Top => Some (w, goto (Asked (probe f)) f)
  | Asked a => Some (w, goto (Sampled a (signal f)) f)
  | Sampled a e => Some (w, goto (Synced a) (with_steering (set_epoch e i).1 f))
  | Synced a =>
      let '(c, d, stamp) := observed i in
      Some (w, goto
        (match plan c d with
         | Some s => run s
         | None => Settling a stamp (bool_decide (state c = Disposed) || disposal_failed c)
         end) f)
  | Settling a stamp g =>
      Some (w, goto (Acknowledging a g) (with_steering (settle_rest stamp i).1 f))
  | Acknowledging a g => Some (w, goto (Acknowledged g) (settle a f))
  | Acknowledged true => Some (w, goto Stopped (settle u64_max f))
  | Acknowledged false => Some (w, goto Waiting f)
  | _ => None
  end.

(** [Cell::load], around the activation it awaits. *)
Definition load_pc f w : option (W * Fiber W) :=
  let i := steering f in
  match pc f with
  | Launching a c =>
      match launch a i with
      | Some i => Some (w, goto (PublishLoading a c) (with_steering i f))
      | None => Some (w, goto Panicked f)
      end
  | PublishLoading a c =>
      Some (w, goto (Activating a c Idle) (with_cancel false (publish Loading c f)))
  | Activating a c Noticed => Some (w, goto (Activating a c (Holding (signal f))) f)
  | Activating a c (Holding e) => Some (w, goto (Activating a c Idle) (absorbing e f))
  | LandingLoad a c r =>
      Some (w, goto (match r with
                     | Ok _ => ActivationLanded a c
                     | Err e => LoadFailing a c e
                     end) (with_steering (land i) f))
  | ActivationLanded a c => Some (w, goto (PublishEffects c) (commit_landing (Activated a) f))
  | PublishEffects c => Some (w, goto (Resampling c) (publish_effects f))
  | Resampling c => Some (w, goto (Resampled c (signal f)) f)
  | Resampled c e => Some (w, goto (NextStep c) (with_steering (set_epoch e i).1 f))
  | NextStep c =>
      let '(co, d, _) := observed i in
      Some (w, goto (match plan co d with None => PublishActive c | Some _ => Top end) f)
  | PublishActive c => Some (w, goto Top (publish Active c f))
  | LoadFailing a c e => Some (w, goto (LoadFailed a c) (fail e f))
  | LoadFailed a c =>
      Some (w, goto (PublishUnloading (AfterFailedLoad c))
                 (commit_landing (ActivationFailed a) f))
  | _ => None
  end.

(** [Cell::unload] and [Cell::finish], around the withdrawal: the announcement
    before it, and what its report earns. *)
Definition unload_pc f w : option (W * Fiber W) :=
  let i := steering f in
  match pc f with
  | PublishUnloading after =>
      Some (w, goto (Withdrawing (withdraws_fully after) after)
                 (publish Unloading (unloading_cause after) f))
  | Finishing =>
      let c := if disposing (desired i) then ExplicitDispose else Suspend in
      Some (w, goto (Withdrawing (withdraws_fully (AfterFinish c)) (AfterFinish c)) f)
  | Judging after report =>
      Some (w, goto
        (match after with
         | AfterFailedLoad c => PublishLanded Failed c
         | AfterUnload c => unload_landed (id f) (desired i) report c
         | AfterFault => Top
         | AfterFinish c => disposal_landed (id f) report c
         end) f)
  | _ => None
  end.

(** [Cell::fault_unload]: the doom is committed before the cleanup. *)
Definition fault_pc f w : option (W * Fiber W) :=
  let i := steering f in
  match pc f with
  | FaultUnload => Some (w, goto (FaultCommit (active_for (observed i).1.1)) f)
  | FaultCommit dead => Some (w, goto PublishFaultUnloading (commit_landing (Faulted dead) f))
  | PublishFaultUnloading =>
      Some (w, goto PublishFaultFailed (publish Unloading BodyFaulted f))
  | PublishFaultFailed =>
      Some (w, goto (Withdrawing true AfterFault) (publish Failed BodyFaulted f))
  | _ => None
  end.

(** [Cell::withdraw]: the drain phases, then the replay, then the record. *)
Definition withdraw_pc f w : option (W * Fiber W) :=
  match pc f with
  | Withdrawing full after =>
      let '(phases, rs) := drains (roots (scope f)) in
      Some (w, goto (Draining full after Idle phases)
                 (with_cancel false (with_span true (with_scope (set_roots rs (scope f)) f))))
  | Draining full after Noticed phases =>
      Some (w, goto (Draining full after (Holding (signal f)) phases) f)
  | Draining full after (Holding e) phases =>
      Some (w, goto (Draining full after Idle phases) (absorbing e f))
  | Draining full after Idle ((eid, label, d) :: phases) =>
      let '(w, o) := Programs.withdraw d w in
      Some (w, goto (Draining full after Idle phases)
                 (if is_done o then f
                  else with_scope (push_line (line eid label o) (scope f)) f))
  | Draining full after Idle [] =>
      Some (w, goto (Undoing full after Idle (begin_teardown (scope f))) f)
  | Undoing full after Noticed t =>
      Some (w, goto (Undoing full after (Holding (signal f)) t) f)
  | Undoing full after (Holding e) t =>
      Some (w, goto (Undoing full after Idle t) (absorbing e f))
  | Undoing full after Idle t =>
      let '(w, t) := turn (if full then Replaying else Suspending) t w in
      Some (w,
        match t with
        | Running t => goto (Undoing full after Idle t) f
        | Finished s report => goto (Replayed after report) (with_scope s f)
        end)
  | Replayed after report =>
      Some (w, goto (Withdrawn after report) (with_span false (with_scope new_scope f)))
  | Withdrawn after report => Some (w, goto (Landed after report) (replay_recorded report f))
  | Landed after report => Some (w, goto (Judging after report) (publish_effects f))
  | _ => None
  end.

(** The writes of [landed.rs], in their order: the failure on record, the
    commit, then the publication. *)
Definition landed_pc f w : option (W * Fiber W) :=
  match pc f with
  | Failing e l c => Some (w, goto (Committing l c) (fail e f))
  | Committing l c => Some (w, goto (PublishLanded (landing_state l) c) (commit_landing l f))
  | PublishLanded to c => Some (w, goto Top (publish to c f))
  | _ => None
  end.

Definition advance_pc f w : option (W * Fiber W) :=
  match pc f with
  | Top | Asked _ | Sampled _ _ | Synced _ | Settling _ _ _ | Acknowledging _ _ |
    Acknowledged _ | Waiting | Stopped | Panicked =>
      supervise_pc f w
  | Launching _ _ | PublishLoading _ _ | Activating _ _ _ | LandingLoad _ _ _ |
    ActivationLanded _ _ | PublishEffects _ | Resampling _ | Resampled _ _ |
    NextStep _ | PublishActive _ | LoadFailing _ _ _ | LoadFailed _ _ =>
      load_pc f w
  | PublishUnloading _ | Finishing | Judging _ _ =>
      unload_pc f w
  | FaultUnload | FaultCommit _ | PublishFaultUnloading | PublishFaultFailed =>
      fault_pc f w
  | Withdrawing _ _ | Draining _ _ _ _ | Undoing _ _ _ _ | Replayed _ _ |
    Withdrawn _ _ | Landed _ _ =>
      withdraw_pc f w
  | Failing _ _ _ | Committing _ _ | PublishLanded _ _ =>
      landed_pc f w
  end.

(** The send of a state already on record comes before anything else. *)
Definition advance f w : option (W * Fiber W) :=
  match sending f with
  | Some s => Some (w, with_published s None (record f) f)
  | None => advance_pc f w
  end.

(** Where an input is taken: [wait], or [land] with nothing in its inbox. *)
Definition noticing (p : Pc W) : option (Pc W) :=
  match p with
  | Waiting => Some Top
  | Activating a c Idle => Some (Activating a c Noticed)
  | Draining full after Idle phases => Some (Draining full after Noticed phases)
  | Undoing full after Idle t => Some (Undoing full after Noticed t)
  | _ => None
  end.

Definition take_wake f : Fiber W :=
  match sending f, wake f, noticing (pc f) with
  | None, true, Some p => goto p (with_inputs (signal f) (signal_changed f) false f)
  | _, _, _ => f
  end.

Definition take_signal f : Fiber W :=
  match sending f, signal_changed f, noticing (pc f) with
  | None, true, Some p => goto p (with_inputs (signal f) false (wake f) f)
  | _, _, _ => f
  end.

(** The activation the supervisor awaits settles. *)
Definition activation_settles (next : Z) (rs : list (registration W))
    (outcome : Programs.settled ()) (dropped : option string) f : Fiber W :=
  match sending f, pc f with
  | None, Activating a c Idle =>
      goto (LandingLoad a c (contained (id f) outcome dropped))
        (with_scope (registered next (scope f) rs).2 f)
  | _, _ => f
  end.

(** *** Callers *)

(** The next instruction of one thread; [None] when it is blocked. *)
Definition call_step (t : caller) f : option (caller * Fiber W) :=
  match todo t with
  | [] => None
  | m :: ms =>
      let t' := MkCaller (called t) ms (asked_for t) in
      match m with
      | MRestart c => Some (t', with_steering (restart c (steering f)) f)
      | MSuspend => Some (t', with_steering (suspend (steering f)) f)
      | MDispose => Some (t', with_steering (dispose (steering f)) f)
      | MFail e => Some (t', fail e f)
      | MFault inc =>
          let '(i, acts) := fault inc (steering f) in
          Some (if acts then MkCaller (called t) (MNotify :: ms) (asked_for t) else t',
                with_steering i f)
      | MProbe =>
          let p := wrapping_add (probe f) 1 in
          Some (MkCaller (called t) ms (probe f + 1)%Z, with_counts p (settled f) f)
      | MNotify => Some (t', with_inputs (signal f) (signal_changed f) true f)
      | MAwait => if decide (asked_for t <= settled f)%Z then Some (t', f) else None
      end
  end.

Inductive event :=
  | Advance
  | TakeWake
  | TakeSignal
  | ActivationSettles (next : Z) (rs : list (registration W))
      (outcome : Programs.settled ()) (dropped : option string)
  | SetSignal (e : option Epoch)
  | Call (c : call)
  | CallerStep (n : nat)
  | World (w : W).

(** One event; an event whose actor is not there, or is blocked, is void. *)
Definition fiber_step (e : event) (s : W * Fiber W) : W * Fiber W :=
  let '(w, f) := s in
  match e with
  | Advance => default s (advance f w)
  | TakeWake => (w, take_wake f)
  | TakeSignal => (w, take_signal f)
  | ActivationSettles next rs outcome dropped =>
      (w, activation_settles next rs outcome dropped f)
  | SetSignal e => (w, with_inputs e true (wake f) f)
  | Call c => (w, with_callers (callers f ++ [MkCaller c (call_program (id f) c) 0]) f)
  | CallerStep n =>
      match callers f !! n with
      | Some t =>
          match call_step t f with
          | Some (t, f) => (w, with_callers (<[n := t]> (callers f)) f)
          | None => s
          end
      | None => s
      end
  | World w => (w, f)
  end.

Definition fiber_run (es : list event) (s : W * Fiber W) : W * Fiber W :=
  fold_left (fun s e => fiber_step e s) es s.
End Machine.

(** Unfolds the supervisor's instruction, whichever function it belongs to. *)
Tactic Notation "unfold_pc" "in" hyp(H) :=
  unfold advance_pc, supervise_pc, load_pc, unload_pc, fault_pc, withdraw_pc, landed_pc in H.

Arguments event : clear implicits.
