(* ===== verification/FiberLaws.v ===== *)
(** * What the supervisor guarantees

    Invariants of the machine of [Supervisor.v] under every interleaving of the
    supervisor with its callers, its signal, its activation and the world.
    Runs are shorter than [2^64] events, so that no counter of the cell wraps
    around. *)

From stdpp Require Import base gmap sets list strings.
From S2P Require Import Prelude Api EffectTree Programs Effects Plan Supervisor.

(** ** Shapes of a fiber at each program point *)

(** The state a reader sees once the send in flight is done. *)
Definition shown {W} (f : Fiber W) : FiberState := default (published_state f) (sending f).

Definition flying_at {W} (p : Pc W) : option Aim :=
  match p with
  | PublishLoading a _ | Activating a _ _ | LandingLoad a _ _ => Some a
  | _ => None
  end.

(** Legal edges of the published history. *)
Definition legal (from to : FiberState) : bool :=
  match from, to with
  | Pending, Loading | Pending, Disposed
  | Failed, Loading | Failed, Disposed
  | Loading, Active | Loading, Unloading
  | Active, Unloading
  | Unloading, Pending | Unloading, Failed | Unloading, Disposed => true
  | _, _ => false
  end.

(** A history that starts at [s] and takes legal edges to [s']. *)
Fixpoint chained (s : FiberState) (ts : list Transition) (s' : FiberState) : Prop :=
  match ts with
  | [] => s = s'
  | t :: ts =>
      transition_from t = s /\ legal s (transition_to t) = true /\
      chained (transition_to t) ts s'
  end.

Section Shapes.
Context {W : Type}.
Implicit Types (f : Fiber W) (sc : EffectScope W) (c s : FiberState)
  (effs : list EffectDescriptor) (rs : list ReplayReport).

Definition live_scope sc : Prop := withdrawn sc = [] /\ replayed sc = false.

Definition ready c : Prop := c = Pending \/ c = Failed.

(** The last withdrawal reported clean. *)
Definition withdrew_clean rs : Prop := exists r, last rs = Some r /\ is_clean r = true.

(** The last withdrawal left a residue. *)
Definition withdrew_unclean rs : Prop := exists r, last rs = Some r /\ is_clean r = false.

(** Between two transitions. *)
Definition at_rest c s sc effs (asked : bool) rs : Prop :=
  effs = tree sc /\
  ((c = Active /\ (s = Active \/ s = Loading) /\ live_scope sc) \/
   (c = s /\ sc = new_scope /\
    (ready c \/ (c = Disposed /\ asked = true /\ withdrew_clean rs)))).

(** Where each kind of withdrawal runs. *)
Definition unloading (after : After) c s (asked : bool) : Prop :=
  match after with
  | AfterFailedLoad _ => c = Failed /\ s = Unloading
  | AfterUnload cs => c = Active /\ s = Unloading /\ cs <> BodyFaulted
  | AfterFault => c = Failed /\ s = Failed
  | AfterFinish _ => c = s /\ ready c /\ asked = true
  end.

(** What [effects] shows while the withdrawal runs. *)
Definition is_finish (after : After) : bool :=
  match after with AfterFinish _ => true | _ => false end.

Definition landing_due (l : Landing) c s (asked : bool) rs : Prop :=
  match l with
  | DisposedClean =>
      asked = true /\ withdrew_clean rs /\
      ((c = Active /\ s = Unloading) \/ (c = s /\ ready c))
  | DisposalFailed => asked = true /\ c = Active /\ s = Unloading /\ withdrew_unclean rs
  | Unloaded | UnloadFailed _ => c = Active /\ s = Unloading
  | _ => False
  end.

Definition at_pc (p : Pc W) c s sc effs (asked : bool) rs : Prop :=
  match p with
  | Top | Asked _ | Sampled _ _ | Synced _ | Settling _ _ _ | Acknowledging _ _
  | Acknowledged _ | Waiting | Stopped => at_rest c s sc effs asked rs
  | Panicked => False
  | Launching _ _ | PublishLoading _ _ => c = s /\ ready c /\ sc = new_scope /\ effs = []
  | Activating _ _ _ => ready c /\ s = Loading /\ sc = new_scope /\ effs = []
  | LandingLoad _ _ _ | ActivationLanded _ _ | LoadFailing _ _ _ | LoadFailed _ _ =>
      ready c /\ s = Loading /\ live_scope sc /\ effs = []
  | PublishEffects _ => c = Active /\ s = Loading /\ live_scope sc /\ effs = []
  | Resampling _ | Resampled _ _ | NextStep _ | PublishActive _ =>
      c = Active /\ s = Loading /\ live_scope sc /\ effs = tree sc
  | PublishUnloading after =>
      live_scope sc /\
      match after with
      | AfterFailedLoad _ => c = Failed /\ s = Loading /\ effs = []
      | AfterUnload cs =>
          c = Active /\ (s = Active \/ s = Loading) /\ cs <> BodyFaulted /\ effs = tree sc
      | AfterFault | AfterFinish _ => False
      end
  | FaultUnload | FaultCommit _ =>
      c = Active /\ (s = Active \/ s = Loading) /\ live_scope sc /\ effs = tree sc
  | PublishFaultUnloading =>
      c = Failed /\ (s = Active \/ s = Loading) /\ live_scope sc /\ effs = tree sc
  | PublishFaultFailed => c = Failed /\ s = Unloading /\ live_scope sc /\ effs = tree sc
  | Finishing => c = s /\ ready c /\ asked = true /\ sc = new_scope /\ effs = []
  | Withdrawing _ after =>
      unloading after c s asked /\ live_scope sc /\
      match after with
      | AfterFinish _ => sc = new_scope /\ effs = []
      | AfterFailedLoad _ => effs = []
      | _ => effs = tree sc
      end
  | Draining _ after _ phases =>
      unloading after c s asked /\ replayed sc = false /\
      (is_finish after = true -> phases = [] /\ sc = new_scope)
  | Undoing _ after _ t =>
      unloading after c s asked /\
      (is_finish after = true -> t = MkTeardown (MkScope [] [] true) None)
  | Replayed after report => unloading after c s asked /\ (is_finish after = true -> report = [])
  | Withdrawn after report =>
      unloading after c s asked /\ sc = new_scope /\ (is_finish after = true -> report = [])
  | Landed after report =>
      unloading after c s asked /\ sc = new_scope /\ last rs = Some report /\
      (is_finish after = true -> report = [])
  | Judging after report =>
      unloading after c s asked /\ sc = new_scope /\ effs = [] /\ last rs = Some report /\
      (is_finish after = true -> report = [])
  | Failing _ l _ | Committing l _ => landing_due l c s asked rs /\ sc = new_scope /\ effs = []
  | PublishLanded to _ =>
      sc = new_scope /\ effs = [] /\ c = to /\
      match to with
      | Pending | Failed => s = Unloading
      | Disposed => (s = Unloading \/ ready s) /\ asked = true /\ withdrew_clean rs
      | _ => False
      end
  end.

Definition asked_to_end (i : Inner) : bool :=
  disposing (desired i) || suspending (desired i).

Record shaped f : Prop := {
  shape_pc : at_pc (pc f) (state (committed (steering f))) (shown f) (scope f)
    (effects (Supervisor.record f)) (asked_to_end (steering f)) (replays (Supervisor.record f));
  shape_flying : flying (steering f) = flying_at (pc f);
  shape_history : chained Pending (transitions (Supervisor.record f)) (shown f);
  shape_sending : forall s, sending f = Some s ->
    legal (published_state f) s = true /\
    transition_to <$> last (transitions (Supervisor.record f)) = Some s;
}.
End Shapes.

(** ** Preservation *)

Section Preservation.
Context {W : Type}.
Implicit Types (f : Fiber W) (w : W) (i : Inner).

Lemma chained_snoc s ts s1 t :
  chained s ts s1 -> transition_from t = s1 -> legal s1 (transition_to t) = true ->
  chained s (ts ++ [t]) (transition_to t).
Proof.
  revert s. induction ts as [|t' ts IH]; intros s; simpl; [by intros -> ->|].
  intros (? & ? & ?) ??. split_and!; [done..|]. by apply IH.
Qed.

(** Inputs move the target only. *)
Definition retargets i i' : Prop :=
  committed i' = committed i /\ flying i' = flying i /\
  (asked_to_end i = true -> asked_to_end i' = true).

Lemma retargets_refl i : retargets i i.
Proof. done. Qed.
Local Ltac retarget :=
  intros; unfold retargets, asked_to_end;
  match goal with i : Inner |- _ => destruct i as [[? ? [] [] ?] ? ? ? ? ?] end;
  simpl; repeat (case_match || case_decide); by split_and!.

Lemma set_epoch_retargets e i : retargets i (set_epoch e i).1.
Proof. unfold set_epoch. retarget. Qed.
Lemma restart_retargets c i : retargets i (restart c i).
Proof. unfold restart. retarget. Qed.
Lemma dispose_retargets i : retargets i (dispose i).
Proof. unfold dispose. retarget. Qed.
Lemma suspend_retargets i : retargets i (suspend i).
Proof. unfold suspend. retarget. Qed.
Lemma fault_retargets inc i : retargets i (fault inc i).1.
Proof. unfold fault. retarget. Qed.
Lemma settle_rest_retargets stamp i : retargets i (settle_rest stamp i).1.
Proof. unfold settle_rest. retarget. Qed.

Lemma at_pc_asked (p : Pc W) c s sc effs (b b' : bool) rs :
  (b = true -> b' = true) -> at_pc p c s sc effs b rs -> at_pc p c s sc effs b' rs.
Proof.
  intros Hb. destruct b; [by rewrite (Hb eq_refl)|]. destruct b'; [clear Hb|done].
  destruct p; simpl; unfold at_rest; try done; try tauto;
    try (destruct after; simpl; intuition congruence);
    try (destruct l; simpl; intuition congruence); destruct to; intuition congruence.
Qed.

Lemma shaped_retarget f i :
  retargets (steering f) i -> shaped f -> shaped (with_steering i f).
Proof.
  intros (Hc & Hf & Ha) [H1 H2 H3 H4]. constructor; simpl; try done.
  - rewrite Hc. by eapply at_pc_asked.
  - by rewrite Hf.
Qed.
End Preservation.

Section Advances.
Context {W : Type}.
Implicit Types (f : Fiber W) (w : W) (i : Inner).

(** A step that publishes nothing. *)
Lemma shaped_quiet f f' :
  shaped f ->
  published_state f' = published_state f -> sending f' = sending f ->
  transitions (Supervisor.record f') = transitions (Supervisor.record f) ->
  at_pc (pc f') (state (committed (steering f'))) (shown f) (scope f')
    (effects (Supervisor.record f')) (asked_to_end (steering f'))
    (replays (Supervisor.record f')) ->
  flying (steering f') = flying_at (pc f') ->
  shaped f'.
Proof.
  intros [H1 H2 H3 H4] Hp Hs Ht Hpc Hfl. unfold shown in *.
  constructor; unfold shown; rewrite ?Hp, ?Hs, ?Ht; done.
Qed.

(** A step that publishes [to]. *)
Lemma shaped_publish f p to c :
  shaped f -> sending f = None ->
  (published_state f = to \/ legal (published_state f) to = true) ->
  at_pc p (state (committed (steering f))) to (scope f)
    (effects (Supervisor.record f)) (asked_to_end (steering f))
    (replays (Supervisor.record f)) ->
  flying (steering f) = flying_at p ->
  shaped (goto p (publish to c f)).
Proof.
  intros [H1 H2 H3 H4] Hs Hlegal Hpc Hfl. unfold shown in *. rewrite Hs in *. simpl in *.
  unfold publish. destruct (decide (published_state f = to)) as [<-|Hne].
  - constructor; unfold shown; simpl; rewrite ?Hs; done.
  - destruct Hlegal as [|Hlegal]; [done|].
    constructor; unfold shown; simpl; [done|done| |].
    + exact (chained_snoc _ _ _ (MkTransition (id f) (published_state f) to c)
               H3 eq_refl Hlegal).
    + intros s [= <-]. by rewrite last_snoc.
Qed.

Lemma run_at_pc c d s (sh : FiberState) (sc : EffectScope W) effs rs :
  plan c d = Some s ->
  at_rest (state c) sh sc effs (disposing d || suspending d) rs ->
  at_pc (run s) (state c) sh sc effs (disposing d || suspending d) rs.
Proof.
  intros Hp [-> Hr]. destruct s as [a cs|cs|].
  - apply plan_Load_inv in Hp as (-> & -> & [e He] & _ & _ & Hst). simpl. rewrite He. simpl.
    destruct Hst as [Hst|[Hst _]]; rewrite Hst in *;
      destruct Hr as [(? & _)|(<- & -> & _)]; try done; unfold ready; auto.
  - apply plan_Unload_inv in Hp. rewrite Hp in *.
    destruct Hr as [(_ & Hsh & Hl)|(<- & _ & Hc)]; [|unfold ready in Hc; naive_solver].
    destruct cs; simpl; split_and!; done.
  - apply plan_Finish_inv in Hp as (Hask & _ & Hst). simpl. rewrite Hask.
    destruct Hr as [(Hc & _)|(<- & -> & _)]; [rewrite Hc in Hst; naive_solver|].
    by split_and!.
Qed.

Lemma shaped_landing f l c p :
  shaped f -> at_pc p (state (landing_commit l (committed (steering f)))) (shown f) (scope f)
    (effects (Supervisor.record f)) (asked_to_end (steering f))
    (replays (Supervisor.record f)) ->
  pc f = Committing l c \/ flying_at (pc f) = None ->
  flying_at p = None ->
  shaped (goto p (commit_landing l f)).
Proof.
  intros Hsh Hpc Hnone Hp. pose proof (shape_flying _ Hsh) as Hf.
  apply (shaped_quiet f); try done. simpl. rewrite Hf, Hp.
  by destruct Hnone as [->|].
Qed.

Lemma shaped_absorbing f e p :
  shaped f ->
  at_pc p (state (committed (steering f))) (shown f) (scope f)
    (effects (Supervisor.record f)) (asked_to_end (steering f))
    (replays (Supervisor.record f)) ->
  flying (steering f) = flying_at p ->
  shaped (goto p (absorbing e f)).
Proof.
  intros Hsh Hpc Hfl.
  pose proof (set_epoch_retargets e (steering f)) as (Hc & Hf & Hask).
  apply (shaped_quiet f); try done; simpl.
  - rewrite Hc. by eapply at_pc_asked.
  - by rewrite Hf.
Qed.

Lemma withdrawing_shaped f full after w w' f' :
  shaped f -> pc f = Withdrawing full after -> advance_pc f w = Some (w', f') -> shaped f'.
Proof.
  intros Hsh Hpc Hadv. pose proof (shape_pc _ Hsh) as Hat. pose proof (shape_flying _ Hsh) as Hf.
  unfold_pc in Hadv. rewrite Hpc in *. simpl in *.
  destruct Hat as (Hun & Hlive & Heff).
  destruct (drains (roots (scope f))) as [phases rs] eqn:Hd. simplify_eq/=.
  apply (shaped_quiet f); try done. simpl. split_and!; [done|by destruct Hlive|].
  destruct after; try done. destruct Heff as [Hnew _]. rewrite Hnew in *.
  vm_compute in Hd. by simplify_eq.
Qed.

Lemma draining_shaped f full after inbox phases w w' f' :
  shaped f -> pc f = Draining full after inbox phases ->
  advance_pc f w = Some (w', f') -> shaped f'.
Proof.
  intros Hsh Hpc Hadv. pose proof (shape_pc _ Hsh) as Hat. pose proof (shape_flying _ Hsh) as Hf.
  unfold_pc in Hadv. rewrite Hpc in *. simpl in *.
  destruct Hat as (Hun & Hrep & Hfin).
  destruct inbox as [| |e].
  - destruct phases as [|[[eid label] d] phases].
    + simplify_eq/=. apply (shaped_quiet f); try done. simpl. split; [done|].
      intros H. by destruct (Hfin H) as [_ ->].
    + destruct (withdraw d w) as [w1 o]. simplify_eq/=.
      apply (shaped_quiet f); destruct (is_done o); simpl; try done;
        (split_and!; [done|done|]; intros H; by destruct (Hfin H)).
  - simplify_eq/=. by apply (shaped_quiet f).
  - simplify_eq/=. apply shaped_absorbing; [done|by simpl|done].
Qed.

Lemma undoing_shaped f full after inbox t w w' f' :
  shaped f -> pc f = Undoing full after inbox t ->
  advance_pc f w = Some (w', f') -> shaped f'.
Proof.
  intros Hsh Hpc Hadv. pose proof (shape_pc _ Hsh) as Hat. pose proof (shape_flying _ Hsh) as Hf.
  unfold_pc in Hadv. rewrite Hpc in *. simpl in *.
  destruct Hat as (Hun & Hfin).
  destruct inbox as [| |e].
  - destruct (turn _ t w) as [w1 t1] eqn:Ht.
    assert (Hend : is_finish after = true -> t1 = Finished (MkScope [] [] true) []).
    { intros H. rewrite (Hfin H) in Ht. unfold turn in Ht. simpl in Ht. by simplify_eq. }
    destruct t1 as [t1|s1 report]; simplify_eq/=; apply (shaped_quiet f); try done; simpl;
      (split_and!; [done..|]; intros H; by specialize (Hend H); simplify_eq).
  - simplify_eq/=. by apply (shaped_quiet f).
  - simplify_eq/=. apply shaped_absorbing; [done|by simpl|done].
Qed.

(** The loop of [supervise], and [load] up to the awaited activation. *)
Lemma loop_shaped f w w' f' :
  shaped f -> sending f = None ->
  match pc f with
  | Top | Asked _ | Sampled _ _ | Synced _ | Settling _ _ _ | Acknowledging _ _
  | Acknowledged _ | Waiting | Stopped | Launching _ _ | PublishLoading _ _
  | Activating _ _ _ => True
  | _ => False
  end ->
  advance_pc f w = Some (w', f') -> shaped f'.
Proof.
  intros Hsh Hs Hcase Hadv. pose proof (shape_pc _ Hsh) as Hat.
  pose proof (shape_flying _ Hsh) as Hf. unfold_pc in Hadv.
  destruct (pc f) as [|a|a e|a|a stamp g|a g|g| | | |a c|a c|a c inbox| | | | | | | | | | | | | |
    | | | | | | | | | | |] eqn:Hpc; try done; simpl in Hat, Hf.
  - simplify_eq/=. by apply (shaped_quiet f).
  - simplify_eq/=. by apply (shaped_quiet f).
  - simplify_eq/=. pose proof (set_epoch_retargets e (steering f)) as (Hc & Hfl & Hask).
    apply (shaped_quiet f); try done; simpl; [|by rewrite Hfl]. rewrite Hc.
    pose proof (at_pc_asked (W := W) Top) as Hm. by eapply Hm.
  - simplify_eq/=. destruct (plan _ _) as [s|] eqn:Hp.
    + apply (shaped_quiet f); try done; simpl; [by apply run_at_pc|].
      rewrite Hf. unfold run. by repeat case_match.
    + by apply (shaped_quiet f).
  - simplify_eq/=. pose proof (settle_rest_retargets stamp (steering f)) as (Hc & Hfl & Hask).
    apply (shaped_quiet f); try done; simpl; [|by rewrite Hfl]. rewrite Hc.
    pose proof (at_pc_asked (W := W) Top) as Hm. by eapply Hm.
  - simplify_eq/=. unfold settle. case_decide; by apply (shaped_quiet f).
  - destruct g; simplify_eq/=; [unfold settle; case_decide|]; by apply (shaped_quiet f).
  - unfold launch in Hadv. rewrite Hf in Hadv. simplify_eq/=.
    by apply (shaped_quiet f).
  - simplify_eq/=. destruct Hat as (Heq & Hr & Hsc & He).
    assert (shaped (goto (Activating a c Idle) (publish Loading c f))) as Hpub.
    { apply shaped_publish; [done|done| |done|done]. unfold shown in Heq. rewrite Hs in Heq.
      simpl in Heq. rewrite <-Heq. destruct Hr as [->| ->]; auto. }
    by apply (shaped_quiet _ _ Hpub); try done; apply (shape_pc _ Hpub) || apply (shape_flying _ Hpub).
  - destruct inbox as [| |e]; simplify_eq/=; [by apply (shaped_quiet f)|].
    by apply shaped_absorbing.
Qed.

(** The landing of [load]. *)
Lemma load_shaped f w w' f' :
  shaped f -> sending f = None ->
  match pc f with
  | LandingLoad _ _ _ | ActivationLanded _ _ | PublishEffects _ | Resampling _
  | Resampled _ _ | NextStep _ | PublishActive _ | LoadFailing _ _ _ | LoadFailed _ _ => True
  | _ => False
  end ->
  advance_pc f w = Some (w', f') -> shaped f'.
Proof.
  intros Hsh Hs Hcase Hadv. pose proof (shape_pc _ Hsh) as Hat.
  pose proof (shape_flying _ Hsh) as Hf. unfold_pc in Hadv.
  destruct (pc f) as [| | | | | | | | | | | | |a c r|a c|c|c|c e|c|c|a c e|a c| | | | | |
    | | | | | | | | | |] eqn:Hpc; try done; simpl in Hat, Hf.
  - simplify_eq/=. apply (shaped_quiet f); destruct r; done.
  - simplify_eq/=. destruct Hat as (? & ? & ? & ?).
    apply (shaped_landing f _ c); try done. right. by rewrite Hpc.
  - simplify_eq/=. destruct Hat as (? & ? & ? & ?). by apply (shaped_quiet f).
  - simplify_eq/=. by apply (shaped_quiet f).
  - simplify_eq/=. pose proof (set_epoch_retargets e (steering f)) as (Hc & Hfl & Hask).
    apply (shaped_quiet f); try done; simpl; [by rewrite Hc|by rewrite Hfl].
  - simplify_eq/=. destruct Hat as (Hc & Hshow & Hl & He).
    apply (shaped_quiet f); try done; destruct (plan _ _); simpl; try done.
    split; [done|]. left. auto.
  - simplify_eq/=. destruct Hat as (Hc & Hshow & Hl & He).
    unfold shown in Hshow. rewrite Hs in Hshow. simpl in Hshow.
    apply shaped_publish; [done|done| | |done].
    + right. by rewrite Hshow.
    + split; [done|]. left. auto.
  - simplify_eq/=. by apply (shaped_quiet f).
  - simplify_eq/=. destruct Hat as (? & ? & ? & ?).
    apply (shaped_landing f _ c); try done. right. by rewrite Hpc.
Qed.

Lemma judging_shaped f after report w w' f' :
  shaped f -> pc f = Judging after report -> advance_pc f w = Some (w', f') -> shaped f'.
Proof.
  intros Hsh Hpc Hadv. pose proof (shape_pc _ Hsh) as Hat. pose proof (shape_flying _ Hsh) as Hf.
  unfold_pc in Hadv. rewrite Hpc in *. simpl in *.
  destruct Hat as (Hun & Hsc & He & Hlast & Hfin). simplify_eq/=.
  apply (shaped_quiet f); try done; destruct after as [c|c| |c]; simpl in *.
  - by destruct Hun as [-> ->].
  - destruct Hun as (Hc & Hs & Hcs). unfold unload_landed, disposal_landed.
    destruct (disposing _ || suspending _) eqn:Hask; destruct (is_clean report) eqn:Hclean;
      simpl; split_and!; try done; [by exists report|by left|by exists report].
  - destruct Hun as [Hc Hs]. rewrite Hc, Hs. split; [by rewrite Hsc|]. right.
    unfold ready. auto.
  - destruct Hun as (Hc & Hs & Hask). rewrite (Hfin eq_refl) in *. simpl.
    split_and!; try done; [by eexists|by right].
  - rewrite Hf. done.
  - rewrite Hf. unfold unload_landed, disposal_landed. by repeat case_match.
  - by rewrite Hf.
  - rewrite Hf. unfold disposal_landed. by repeat case_match.
Qed.

(** [unload], [fault_unload], [finish], and what they publish. *)
Lemma unload_shaped f w w' f' :
  shaped f -> sending f = None ->
  match pc f with
  | PublishUnloading _ | FaultUnload | FaultCommit _ | PublishFaultUnloading
  | PublishFaultFailed | Finishing | Replayed _ _ | Withdrawn _ _ | Landed _ _
  | Failing _ _ _ | Committing _ _ | PublishLanded _ _ => True
  | _ => False
  end ->
  advance_pc f w = Some (w', f') -> shaped f'.
Proof.
  intros Hsh Hs Hcase Hadv. pose proof (shape_pc _ Hsh) as Hat.
  pose proof (shape_flying _ Hsh) as Hf. unfold_pc in Hadv.
  assert (Hsp : shown f = published_state f) by (unfold shown; by rewrite Hs).
  destruct (pc f) as [| | | | | | | | | | | | | | | | | | | | | |after| |dead| | |
    | | | |after rep|after rep|after rep| |e l c|l c|to c] eqn:Hpc;
    try done; simpl in Hat, Hf.
  - simplify_eq/=. destruct Hat as [Hlive Hat]. apply shaped_publish; [done|done| | |done].
    + rewrite <-Hsp. destruct after; [|destruct Hat as (_ & [Hq|Hq] & _)|done|done];
        [destruct Hat as (_ & Hq & _)|..]; rewrite Hq; auto.
    + simpl. split_and!; [|done|]; destruct after; naive_solver.
  - simplify_eq/=. by apply (shaped_quiet f).
  - simplify_eq/=. destruct Hat as (? & ? & ? & ?).
    apply (shaped_landing f _ BodyFaulted); try done. right. by rewrite Hpc.
  - simplify_eq/=. destruct Hat as (? & Hst & ? & ?).
    apply shaped_publish; [done|done| |done|done].
    rewrite <-Hsp. destruct Hst as [Hq|Hq]; rewrite Hq; auto.
  - simplify_eq/=. destruct Hat as (? & Hst & ? & ?).
    apply shaped_publish; [done|done| |done|done].
    rewrite <-Hsp, Hst. auto.
  - simplify_eq/=. destruct Hat as (? & ? & ? & ? & ?).
    apply (shaped_quiet f); try done. simpl. split_and!; try done. by rewrite H2.
  - simplify_eq/=. destruct Hat as (? & ?). by apply (shaped_quiet f).
  - simplify_eq/=. destruct Hat as (? & ? & ?). apply (shaped_quiet f); try done. simpl.
    by rewrite last_snoc.
  - simplify_eq/=. destruct Hat as (? & Hsc & ? & ?). apply (shaped_quiet f); try done. simpl.
    by rewrite Hsc.
  - simplify_eq/=. by apply (shaped_quiet f).
  - simplify_eq/=. destruct Hat as (Hl & Hsc & He).
    apply (shaped_landing f _ c); [done| |by left|done].
    destruct l; simpl in *; try done;
      [by destruct Hl|by destruct Hl| |by destruct Hl as (? & ? & ? & ?)].
    destruct Hl as (? & ? & Hwhere). split_and!; try done.
    destruct Hwhere as [[_ ?]|[<- ?]]; auto.
  - simplify_eq/=. destruct Hat as (Hsc & He & Hc & Hto).
    apply shaped_publish; [done|done| | |done].
    + rewrite <-Hsp. destruct to; try done; try (rewrite Hto; by auto).
      destruct Hto as ([Hq|[Hq|Hq]] & _); rewrite Hq; auto.
    + split; [by rewrite He, Hsc|]. right. split_and!; [done..|]. unfold ready.
      destruct to; try done; auto. right. by destruct Hto as (_ & ? & ?).
Qed.

Theorem advance_shaped f w w' f' :
  shaped f -> advance f w = Some (w', f') -> shaped f'.
Proof.
  unfold advance. intros Hsh Hadv. destruct (sending f) as [s|] eqn:Hs.
  - simplify_eq/=. pose proof Hsh as [H1 H2 H3 H4]. unfold shown in *. rewrite Hs in *.
    by constructor.
  - destruct (pc f) eqn:Hpc;
      first [ by eapply loop_shaped; [| |rewrite Hpc|]
            | by eapply load_shaped; [| |rewrite Hpc|]
            | by eapply unload_shaped; [| |rewrite Hpc|]
            | by eapply withdrawing_shaped | by eapply draining_shaped
            | by eapply undoing_shaped | by eapply judging_shaped
            | by unfold_pc in Hadv; rewrite Hpc in Hadv ].
Qed.
End Advances.

(** A step that changes nothing the shape speaks of. *)
Ltac shaped_same f H :=
  apply (shaped_quiet f); try done; [apply (shape_pc _ H)|apply (shape_flying _ H)].

Section Steps.
Context {W : Type}.
Implicit Types (f : Fiber W) (w : W) (i : Inner) (t : caller).

Lemma shaped_inputs f e b p : shaped f -> shaped (with_inputs e b p f).
Proof. intros Hsh. by shaped_same f Hsh. Qed.

Lemma noticing_shaped f p :
  shaped f -> noticing (pc f) = Some p -> shaped (goto p f).
Proof.
  intros Hsh Hn. pose proof (shape_pc _ Hsh) as Hat. pose proof (shape_flying _ Hsh) as Hf.
  unfold noticing in Hn.
  destruct (pc f); try done; try (destruct inbox; try done); simplify_eq/=;
    by apply (shaped_quiet f).
Qed.

Lemma registered_live next (sc : EffectScope W) rs :
  live_scope sc -> live_scope (registered next sc rs).2.
Proof.
  unfold registered. revert next sc. induction rs as [|r rs IH]; intros next sc H; [done|].
  simpl. unfold register_one at 2. destruct H as [Hw Hr].
  destruct r; simpl; unfold register, register_draining, register_suspendable, register_with,
    register_child, Effects.record; rewrite Hr; simpl;
    try (apply (IH _ (set_roots _ sc)); by split).
  destruct (find_record (roots sc) parent); simpl; [apply (IH _ (set_roots _ sc))|apply IH];
    by split.
Qed.

Lemma call_step_shaped f t t' f' :
  shaped f -> call_step t f = Some (t', f') -> shaped f'.
Proof.
  intros Hsh Hc. unfold call_step in Hc. destruct (todo t) as [|[] ms]; simplify_eq/=.
  - by apply shaped_retarget; [apply restart_retargets|].
  - by apply shaped_retarget; [apply suspend_retargets|].
  - by apply shaped_retarget; [apply dispose_retargets|].
  - by shaped_same f Hsh.
  - pose proof (fault_retargets incarnation (steering f)) as Hr.
    destruct (fault incarnation (steering f)) as [i acts]. simplify_eq/=.
    by apply shaped_retarget.
  - by shaped_same f Hsh.
  - by apply shaped_inputs.
  - case_decide; by simplify_eq.
Qed.

Lemma shaped_step e w f : shaped f -> shaped (fiber_step e (w, f)).2.
Proof.
  intros Hsh. destruct e as [| | |next rs outcome dropped|e|c|n|w']; simpl.
  - destruct (advance f w) as [[w' f']|] eqn:Ha; simpl; [|done]. by eapply advance_shaped.
  - unfold take_wake. destruct (sending f), (wake f), (noticing (pc f)) eqn:Hn; try done.
    by apply noticing_shaped; [apply shaped_inputs|].
  - unfold take_signal. destruct (sending f), (signal_changed f), (noticing (pc f)) eqn:Hn;
      try done. by apply noticing_shaped; [apply shaped_inputs|].
  - unfold activation_settles.
    destruct (sending f) eqn:Hs; [done|]. destruct (pc f) eqn:Hpc; try done.
    destruct inbox; try done. pose proof (shape_pc _ Hsh) as Hat. pose proof (shape_flying _ Hsh) as Hf.
    rewrite Hpc in *. destruct Hat as (Hr & Hl & Hsc & He).
    apply (shaped_quiet f); try done. simpl. split_and!; try done;
    rewrite Hsc; by apply registered_live.
  - by apply shaped_inputs.
  - by shaped_same f Hsh.
  - destruct (callers f !! n) as [t|]; [|done].
    destruct (call_step t f) as [[t' f']|] eqn:Hc; [|done]. simpl.
    apply (call_step_shaped _ _ _ _ Hsh) in Hc.
    by shaped_same f' Hc.
  - done.
Qed.

Lemma spawn_shaped fiber e : shaped (spawn (W := W) fiber e).
Proof.
  constructor; try done. simpl. split; [done|]. right. split_and!; try done. by left; left.
Qed.

Lemma fiber_run_snoc es e (s : W * Fiber W) :
  fiber_run (es ++ [e]) s = fiber_step e (fiber_run es s).
Proof. unfold fiber_run. by rewrite fold_left_app. Qed.

Lemma fiber_run_app es es' (s : W * Fiber W) :
  fiber_run (es ++ es') s = fiber_run es' (fiber_run es s).
Proof. unfold fiber_run. by rewrite fold_left_app. Qed.

(** The invariant rule of runs; [n] counts the events. *)
Lemma run_invariant (I : Z -> Fiber W -> Prop) max f0 :
  I 0%Z f0 ->
  (forall n e w f, (0 <= n < max)%Z -> I n f -> I (n + 1)%Z (fiber_step e (w, f)).2) ->
  forall es w, (Z.of_nat (length es) <= max)%Z ->
    I (Z.of_nat (length es)) (fiber_run es (w, f0)).2.
Proof.
  intros H0 Hstep es w. induction es as [|e es IH] using rev_ind; intros Hlen; [done|].
  rewrite fiber_run_snoc. rewrite length_app in *. simpl in *.
  replace (Z.of_nat (length es + 1)) with (Z.of_nat (length es) + 1)%Z by lia.
  destruct (fiber_run es (w, f0)) as [w1 f1]. apply Hstep; [lia|]. apply IH. lia.
Qed.

Lemma run_shaped es w fiber e : shaped (fiber_run es (w, spawn (W := W) fiber e)).2.
Proof.
  apply (run_invariant (fun _ => shaped) (Z.of_nat (length es))); [apply spawn_shaped| |lia].
  intros. by apply shaped_step.
Qed.
End Steps.

(** ** Rest, and the promises kept to callers *)

(** Where the supervisor is between two transitions. *)
Definition calm {W} (p : Pc W) : bool :=
  match p with
  | Top | Asked _ | Sampled _ _ | Synced _ | Settling _ _ _ | Acknowledging _ _
  | Acknowledged _ | Waiting | Stopped => true
  | _ => false
  end.

(** The fiber is over: withdrawn, or its last withdrawal left a residue. *)
Definition gone (c : Committed) : Prop := state c = Disposed \/ disposal_failed c = true.

Definition ended {W} (f : Fiber W) : Prop :=
  gone (committed (steering f)) /\ calm (pc f) = true /\ sending f = None.

Definition ends (c : call) : bool :=
  match c with CallDispose | CallSuspend => true | _ => false end.

Section Served.
Context {W : Type}.
Implicit Types (f : Fiber W) (w : W) (i : Inner) (t : caller).

(** What the supervisor is about to acknowledge to a thread. *)
Definition covered f t : Prop :=
  match pc f with
  | Settling a _ _ | Acknowledging a _ => (asked_for t <= a)%Z -> ended f
  | _ => True
  end.

(** What a thread that disposes or suspends the fiber may rely on, at each of
    its instructions. *)
Definition promised f t : Prop :=
  (exists m, todo t = m :: quiesce_program /\ (m = MDispose \/ m = MSuspend)) \/
  (asked_to_end (steering f) = true /\
   (todo t = quiesce_program \/
    ((todo t = [MNotify; MAwait] \/ todo t = [MAwait]) /\
     (asked_for t <= probe f)%Z /\
     covered f t /\
     ((asked_for t <= settled f)%Z -> ended f)) \/
    (todo t = [] /\ ended f))).

Record served (n : Z) f : Prop := {
  served_moved : (0 <= moved (steering f) <= n)%Z;
  served_probe : (0 <= probe f <= n)%Z;
  served_settled : (settled f <= probe f)%Z \/ ended f;
  served_rest : resting (steering f) = true ->
    plan (committed (steering f)) (desired (steering f)) = None /\ calm (pc f) = true;
  served_stamp : match pc f with
    | Settling _ stamp _ => (stamp <= moved (steering f))%Z /\
        (moved (steering f) = stamp ->
         plan (committed (steering f)) (desired (steering f)) = None)
    | _ => True end;
  served_asked : match pc f with
    | Asked a | Sampled a _ | Synced a | Settling a _ _ | Acknowledging a _ => (a <= probe f)%Z
    | _ => True end;
  served_over : match pc f with
    | Settling _ _ true | Acknowledging _ true | Acknowledged true | Stopped => ended f
    | Settling _ _ false | Acknowledging _ false | Acknowledged false | Waiting =>
        sending f = None
    | Asked _ | Sampled _ _ | Synced _ => sending f = None
    | _ => True end;
  served_residue : disposal_failed (committed (steering f)) = true ->
    state (committed (steering f)) = Failed /\ asked_to_end (steering f) = true /\
    withdrew_unclean (replays (Supervisor.record f)) /\
    (calm (pc f) = true \/ exists c, pc f = PublishLanded Failed c);
  served_disposed : state (committed (steering f)) = Disposed ->
    calm (pc f) = true \/ exists c, pc f = PublishLanded Disposed c;
  served_callers : Forall (fun t => ends (called t) = true -> promised f t) (callers f);
}.

(** An ended fiber owes nothing, so the supervisor stays between transitions. *)
Lemma gone_plan n f :
  served n f -> gone (committed (steering f)) ->
  plan (committed (steering f)) (desired (steering f)) = None.
Proof.
  intros Hsv [Hg|Hg]; unfold plan; [by rewrite Hg|].
  destruct (served_residue _ _ Hsv Hg) as (Hst & Hask & _).
  unfold asked_to_end in Hask. by rewrite Hst, Hask, Hg.
Qed.

(** Asked to end, an idle fiber is over. *)
Lemma idle_gone f :
  shaped f -> calm (pc f) = true -> asked_to_end (steering f) = true ->
  plan (committed (steering f)) (desired (steering f)) = None ->
  gone (committed (steering f)).
Proof.
  intros Hsh Hcalm Hask Hp. pose proof (shape_pc _ Hsh) as Hat.
  assert (Hr : at_rest (state (committed (steering f))) (shown f) (scope f)
    (effects (Supervisor.record f)) (asked_to_end (steering f)) (replays (Supervisor.record f)))
    by (by destruct (pc f)).
  destruct Hr as [_ [(Hc & _)|(_ & _ & Hc)]]; unfold gone, plan, asked_to_end in *.
  - rewrite Hc in Hp. by destruct (disposing (desired (steering f))),
      (suspending (desired (steering f))).
  - destruct Hc as [[Hc|Hc]|(Hc & _)]; rewrite Hc in *; auto; rewrite Hask in Hp;
      destruct (disposal_failed _); first [done|auto].
Qed.

(** *** Steps that touch neither the record nor the program counters *)

(** The target moved, and rest was lowered with it; or nothing moved. *)
Definition stirs i i' : Prop :=
  retargets i i' /\
  (i' = i \/ (resting i' = false /\ moved i' = wrapping_add (moved i) 1)).

Lemma set_epoch_stirs e i : stirs i (set_epoch e i).1.
Proof.
  split; [apply set_epoch_retargets|]. unfold set_epoch. case_decide; simpl; auto.
Qed.
Lemma restart_stirs c i : stirs i (restart c i).
Proof. split; [apply restart_retargets|]. by right. Qed.
Lemma dispose_stirs i : stirs i (dispose i).
Proof. split; [apply dispose_retargets|]. unfold dispose. case_match; auto. Qed.
Lemma suspend_stirs i : stirs i (suspend i).
Proof. split; [apply suspend_retargets|]. unfold suspend. case_match; auto. Qed.
Lemma fault_stirs inc i : stirs i (fault inc i).1.
Proof.
  split; [apply fault_retargets|]. unfold fault. case_decide; simpl; auto.
Qed.

Lemma promised_mono f f' t :
  (asked_to_end (steering f) = true -> asked_to_end (steering f') = true) ->
  (ended f -> ended f') -> (probe f <= probe f')%Z -> settled f' = settled f ->
  match pc f' with Settling _ _ _ | Acknowledging _ _ => pc f' = pc f | _ => True end ->
  promised f t -> promised f' t.
Proof.
  intros Ha He Hp Hs Hpc [?|[Hask H]]; [by left|right]. split; [auto|].
  destruct H as [?|[(Ht & Hle & Hat & Hset)|[? ?]]]; [auto| |auto].
  right; left. split_and!; [done|lia| |rewrite Hs; auto]. unfold covered in *.
  destruct (pc f'); try done; rewrite <-Hpc in Hat; auto.
Qed.

Lemma served_stir n f i :
  (0 <= n < u64_max)%Z -> served n f -> stirs (steering f) i ->
  served (n + 1) (with_steering i f).
Proof.
  intros Hn [H1 H2 H3 H4 H5 H6 H7 H8 H9 H10] [(Hc & Hf & Ha) Hi].
  assert (Hm : (moved (steering f) <= moved i <= n + 1)%Z).
  { destruct Hi as [->|[_ ->]]; [lia|].
    rewrite wrapping_add_small; unfold is_u64; lia. }
  assert (Hgone : ended f -> ended (with_steering i f)).
  { unfold ended. simpl. by rewrite Hc. }
  constructor; simpl; rewrite ?Hc.
  - lia.
  - lia.
  - destruct H3; auto.
  - destruct Hi as [->|[-> _]]; [auto|done].
  - destruct (pc f); try done. destruct H5 as [H5 H5']. split; [lia|].
    intros Heq. destruct Hi as [->|[_ Hi]]; [auto|].
    rewrite wrapping_add_small in Hi; unfold is_u64; lia.
  - done.
  - destruct (pc f); try done; try (destruct for_good); auto.
  - intros H. destruct (H8 H) as (? & ? & ? & ?). auto 6.
  - auto.
  - eapply Forall_impl; [exact H10|]. simpl. intros t Ht Hends. specialize (Ht Hends).
    eapply promised_mono; [| | | | |exact Ht]; simpl; auto; try lia. by destruct (pc f).
Qed.

(** A step that touches nothing the promises speak of. *)
Lemma served_same n f f' :
  served n f -> steering f' = steering f -> probe f' = probe f -> settled f' = settled f ->
  pc f' = pc f -> sending f' = sending f -> callers f' = callers f ->
  replays (Supervisor.record f') = replays (Supervisor.record f) ->
  served (n + 1) f'.
Proof.
  intros [H1 H2 H3 H4 H5 H6 H7 H8 H9 H10] Hi Hp Hse Hpc Hs Hcl Hrep.
  assert (He : ended f -> ended f') by (unfold ended; by rewrite Hi, Hpc, Hs).
  constructor; rewrite ?Hi, ?Hp, ?Hse, ?Hpc, ?Hs, ?Hcl, ?Hrep; auto; try lia.
  - destruct H3; auto.
  - destruct (pc f); try done; try (destruct for_good); auto.
  - eapply Forall_impl; [exact H10|]. simpl. intros t Ht Hends. specialize (Ht Hends).
    eapply promised_mono; [| | | | |exact Ht]; rewrite ?Hi, ?Hp, ?Hpc; auto; try lia.
    by destruct (pc f).
Qed.

(** Inside a transition. *)
Definition in_transition (p : Pc W) : bool := negb (calm p).

Definition back_on_top (p : Pc W) : bool :=
  match p with Top => true | p => in_transition p end.

Lemma served_busy n f f' :
  served n f -> in_transition (pc f) = true -> back_on_top (pc f') = true ->
  (moved (steering f) <= moved (steering f') <= n + 1)%Z ->
  (resting (steering f) = false -> resting (steering f') = false) ->
  probe f' = probe f -> settled f' = settled f -> callers f' = callers f ->
  (asked_to_end (steering f) = true -> asked_to_end (steering f') = true) ->
  (disposal_failed (committed (steering f')) = true ->
    state (committed (steering f')) = Failed /\ asked_to_end (steering f') = true /\
    withdrew_unclean (replays (Supervisor.record f')) /\
    (calm (pc f') = true \/ exists c, pc f' = PublishLanded Failed c)) ->
  (state (committed (steering f')) = Disposed ->
    calm (pc f') = true \/ exists c, pc f' = PublishLanded Disposed c) ->
  served (n + 1) f'.
Proof.
  intros [H1 H2 H3 H4 H5 H6 H7 H8 H9 H10] Hin Hout Hm Hr Hp Hse Hcl Ha Hres Hdis.
  unfold in_transition in Hin. apply negb_true_iff in Hin.
  assert (He : ended f -> False) by (unfold ended; rewrite Hin; naive_solver).
  constructor; rewrite ?Hp, ?Hse, ?Hcl; auto; try lia.
  - destruct H3; [auto|naive_solver].
  - destruct (resting (steering f)) eqn:Hrest; [|by rewrite Hr].
    destruct (H4 eq_refl) as [_ Hc]. by rewrite Hin in Hc.
  - by destruct (pc f').
  - by destruct (pc f').
  - by destruct (pc f').
  - eapply Forall_impl; [exact H10|]. simpl. intros t Ht Hends. specialize (Ht Hends).
    eapply promised_mono; [exact Ha| | | | |exact Ht]; auto; try lia; [by intros []%He|].
    by destruct (pc f').
Qed.

(** Inside a transition, nothing is over yet, but for what is being
    published. *)
Lemma busy_open n f :
  served n f -> in_transition (pc f) = true ->
  (forall to c, pc f <> PublishLanded to c) ->
  disposal_failed (committed (steering f)) = false /\
  state (committed (steering f)) <> Disposed.
Proof.
  intros Hsv Hin Hp. unfold in_transition in Hin. apply negb_true_iff in Hin. split.
  - destruct (disposal_failed _) eqn:Hd; [|done].
    destruct (served_residue _ _ Hsv Hd) as (_ & _ & _ & [Hc|[c' Hc]]);
      [by rewrite Hin in Hc|by destruct (Hp Failed c')].
  - intros Hd. destruct (served_disposed _ _ Hsv Hd) as [Hc|[c' Hc]];
      [by rewrite Hin in Hc|by destruct (Hp Disposed c')].
Qed.

(** A write to the cell that commits nothing and does not raise rest. *)
Definition nudges i i' : Prop :=
  committed i' = committed i /\ (asked_to_end i = true -> asked_to_end i' = true) /\
  (resting i = false -> resting i' = false) /\ (moved i <= moved i' <= moved i + 1)%Z.

Lemma stirs_nudges i i' :
  (0 <= moved i < u64_max)%Z -> stirs i i' -> nudges i i'.
Proof.
  intros Hm [(Hc & _ & Ha) Hi]. unfold nudges. split_and!; [done|done| | |].
  - destruct Hi as [->|[-> _]]; auto.
  - destruct Hi as [->|[_ ->]]; [lia|]. rewrite wrapping_add_small; unfold is_u64; lia.
  - destruct Hi as [->|[_ ->]]; [lia|]. rewrite wrapping_add_small; unfold is_u64; lia.
Qed.

Lemma nudges_refl i : nudges i i.
Proof. unfold nudges. split_and!; auto; lia. Qed.

Lemma launch_nudges a i i' : launch a i = Some i' -> nudges i i'.
Proof.
  unfold launch, nudges. destruct (flying i); [done|]. intros [= <-]. simpl.
  split_and!; auto; lia.
Qed.

Lemma land_nudges i : nudges i (land i).
Proof. unfold nudges, land. simpl. split_and!; auto; lia. Qed.

Lemma served_step_busy n f f' :
  served n f -> in_transition (pc f) = true ->
  (forall to c, pc f <> PublishLanded to c) ->
  back_on_top (pc f') = true -> nudges (steering f) (steering f') ->
  probe f' = probe f -> settled f' = settled f -> callers f' = callers f ->
  served (n + 1) f'.
Proof.
  intros Hsv Hin Hp Hout (Hc & Ha & Hr & Hi) Hpr Hse Hcl.
  destruct (busy_open _ _ Hsv Hin Hp) as [Hdf Hdd].
  pose proof (served_moved _ _ Hsv) as Hm.
  apply (served_busy n f); try done; [lia|by rewrite Hc, Hdf|by rewrite Hc].
Qed.

Lemma served_landing n f l c :
  served n f -> shaped f -> pc f = Committing l c ->
  served (n + 1) (goto (PublishLanded (landing_state l) c) (commit_landing l f)).
Proof.
  intros Hsv Hsh Hpc. pose proof (served_moved _ _ Hsv) as Hm.
  destruct (busy_open n f) as [Hdf Hdd]; [done|by rewrite Hpc|by rewrite Hpc|].
  pose proof (shape_pc _ Hsh) as Hat. rewrite Hpc in Hat. destruct Hat as (Hl & _).
  apply (served_busy n f); rewrite ?Hpc; try done; simpl; [lia| |].
  - destruct l; simpl in *; rewrite ?Hdf; try done. intros _.
    destruct Hl as (? & _ & _ & ?). split_and!; eauto.
  - destruct l; simpl; try done. eauto.
Qed.

Lemma served_commit n f l p :
  served n f -> in_transition (pc f) = true ->
  (forall to c, pc f <> PublishLanded to c) -> in_transition p = true ->
  match l with DisposedClean | DisposalFailed => False | _ => True end ->
  served (n + 1) (goto p (commit_landing l f)).
Proof.
  intros Hsv Hin Hnp Hp Hl. pose proof (served_moved _ _ Hsv) as Hm.
  destruct (busy_open n f) as [Hdf Hdd]; [done..|].
  apply (served_busy n f); try done; simpl.
  - unfold in_transition in Hp. by destruct p.
  - lia.
  - destruct l; simpl; by rewrite ?Hdf.
  - by destruct l.
Qed.

Lemma run_busy s : back_on_top (run (W := W) s) = true.
Proof. unfold run. by repeat case_match. Qed.

Lemma publish_frame to c f :
  steering (publish to c f) = steering f /\ probe (publish to c f) = probe f /\
  settled (publish to c f) = settled f /\ callers (publish to c f) = callers f.
Proof. unfold publish. by case_decide. Qed.

Lemma publish_replays to c f : replays (Supervisor.record (publish to c f)) = replays (Supervisor.record f).
Proof. unfold publish. by case_decide. Qed.

Lemma served_published n f to c :
  served n f -> pc f = PublishLanded to c ->
  served (n + 1) (goto Top (publish to c f)).
Proof.
  intros Hsv Hpc. pose proof (served_moved _ _ Hsv) as Hm.
  destruct (publish_frame to c f) as (Hps & Hpp & Hpse & Hpcl).
  apply (served_busy n f); simpl; rewrite ?Hps, ?publish_replays; try done.
  - by rewrite Hpc.
  - lia.
  - intros Hd. destruct (served_residue _ _ Hsv Hd) as (? & ? & ? & _). auto.
  - auto.
Qed.

Lemma served_advance_busy n f w w' f' :
  (0 <= n < u64_max)%Z -> served n f -> shaped f -> in_transition (pc f) = true ->
  advance_pc f w = Some (w', f') -> served (n + 1) f'.
Proof.
  intros Hn Hsv Hsh Hin Hadv. pose proof (served_moved _ _ Hsv) as Hm.
  assert (Hab : forall e p, (forall to c, pc f <> PublishLanded to c) ->
    back_on_top p = true -> served (n + 1) (goto p (absorbing e f))).
  { intros e p Hp Hb. apply (served_step_busy n f); try done. simpl.
    apply stirs_nudges; [lia|apply set_epoch_stirs]. }
  assert (Hset : forall e, nudges (steering f) (set_epoch e (steering f)).1).
  { intros e. apply stirs_nudges; [lia|apply set_epoch_stirs]. }
  assert (Hpub : forall to c p, (forall to c, pc f <> PublishLanded to c) ->
    back_on_top p = true -> served (n + 1) (goto p (publish to c f))).
  { intros to c p Hp Hb. destruct (publish_frame to c f) as (Hps & Hpp & Hpse & Hpc).
    apply (served_step_busy n f); try done. simpl. rewrite Hps. apply nudges_refl. }
  assert (Hstep : forall f', (forall to c, pc f <> PublishLanded to c) ->
    back_on_top (pc f') = true -> nudges (steering f) (steering f') ->
    probe f' = probe f -> settled f' = settled f -> callers f' = callers f ->
    served (n + 1) f').
  { intros f1 Hp Hb Hi H1 H2 H3. by apply (served_step_busy n f). }
  unfold_pc in Hadv. destruct (pc f) eqn:Hpc; try done; simplify_eq/=.
  all: try (by apply served_published).
  all: try (destruct inbox; simplify_eq/=; try (by apply Hab);
            try (by apply Hstep; [..|apply nudges_refl| | |])).
  all: try (by apply Hpub).
  all: try (apply Hstep; simpl; [done| |apply nudges_refl| | |]; by repeat case_match).
  all: try (by apply served_landing).
  all: try (by apply served_commit; rewrite ?Hpc).
  all: try (apply Hstep; simpl; [done| |apply land_nudges|done..]; by case_match).
  all: try (apply Hstep; simpl; [done|done|apply Hset|done..]).
  - destruct (launch a (steering f)) as [i|] eqn:Hl; simplify_eq/=; apply Hstep; simpl; try done;
      [by eapply launch_nudges|apply nudges_refl].
  - destruct (publish_frame Loading c f) as (Hps & Hpp & Hpse & Hpcl).
    apply Hstep; simpl; try done. rewrite Hps. apply nudges_refl.
  - destruct phases as [|[[eid label] d] phases]; [|destruct (withdraw d w) as [w1 o]];
      simplify_eq/=; apply Hstep; try done; try case_match; try done; apply nudges_refl.
  - destruct (turn _ t w) as [w1 t1]. simplify_eq/=.
    apply Hstep; try done; case_match; try done; apply nudges_refl.
  - apply Hstep; simpl; try done; [|apply nudges_refl].
    destruct after; simpl; unfold unload_landed, disposal_landed; by repeat case_match.
Qed.

(** Between two transitions, the target not moving. *)
Lemma promised_calm f f' t :
  asked_to_end (steering f') = asked_to_end (steering f) ->
  (ended f -> ended f') -> probe f' = probe f -> settled f' = settled f ->
  (covered f t -> covered f' t) ->
  promised f t -> promised f' t.
Proof.
  intros Ha He Hp Hs Hpc [?|[Hask H]]; [by left|right]. rewrite Ha. split; [done|].
  destruct H as [?|[(Ht & Hle & Hat & Hset)|[? ?]]]; [auto| |auto].
  right; left. rewrite Hp, Hs. split_and!; auto.
Qed.

(** The supervisor's instructions between two transitions, one by one. *)
Lemma served_calm n f p :
  served n f -> sending f = None -> calm (pc f) = true -> calm p = true ->
  match p with
  | Settling _ _ _ | Acknowledging _ _ | Acknowledged _ | Stopped => False
  | Asked a | Sampled a _ | Synced a => (a <= probe f)%Z
  | _ => True
  end ->
  served n (goto p f).
Proof.
  intros [H1 H2 H3 H4 H5 H6 H7 H8 H9 H10] Hs Hc Hp Hpc.
  assert (He : ended f -> ended (goto p f)) by (intros (? & ? & ?); by split_and!).
  constructor; simpl; auto; try lia.
  - destruct H3; auto.
  - intros Hr. by destruct (H4 Hr).
  - by destruct p.
  - by destruct p.
  - by destruct p.
  - intros Hd. destruct (H8 Hd) as (? & ? & ? & ?). auto 6.
  - eapply Forall_impl; [exact H10|]. simpl. intros t Ht Hends. specialize (Ht Hends).
    eapply promised_calm; [| | | | |exact Ht]; simpl; auto. unfold covered. by destruct p.
Qed.

Lemma served_synced n f a :
  served n f -> shaped f -> sending f = None -> pc f = Synced a ->
  plan (committed (steering f)) (desired (steering f)) = None ->
  served (n + 1)
    (goto (Settling a (moved (steering f))
             (bool_decide (state (committed (steering f)) = Disposed) ||
              disposal_failed (committed (steering f)))) f).
Proof.
  intros [H1 H2 H3 H4 H5 H6 H7 H8 H9 H10] Hsh Hs Hpc Hp.
  set (f' := goto _ f). rewrite Hpc in *.
  assert (Hg : gone (committed (steering f)) -> ended f') by (intros ?; by split_and!).
  assert (He : ended f -> ended f') by (intros (? & _); auto).
  constructor; simpl; auto; try lia.
  - destruct H3; auto.
  - by split; [lia|].
  - case_match eqn:Hb; [|done]. apply Hg. apply orb_true_iff in Hb. unfold gone.
    rewrite bool_decide_eq_true in Hb. destruct Hb; auto.
  - intros Hd. destruct (H8 Hd) as (? & ? & ? & ?). auto 6.
  - eapply Forall_impl; [exact H10|]. simpl. intros t Ht Hends. specialize (Ht Hends).
    pose proof Ht as Hpr. destruct Ht as [?|[Hask Ht]]; [by left|].
    assert (ended f') as Hend.
    { apply Hg. apply idle_gone; [done|by rewrite Hpc|done|done]. }
    eapply promised_calm; [| | | | |exact Hpr]; simpl; auto. unfold covered. simpl. auto.
Qed.

Lemma served_settle n f a g stamp :
  served n f -> pc f = Settling a stamp g ->
  served (n + 1) (goto (Acknowledging a g) (with_steering (settle_rest stamp (steering f)).1 f)).
Proof.
  intros [H1 H2 H3 H4 H5 H6 H7 H8 H9 H10] Hpc. rewrite Hpc in *.
  set (i' := (settle_rest stamp (steering f)).1).
  assert (Hi : moved i' = moved (steering f) /\ committed i' = committed (steering f) /\
    desired i' = desired (steering f) /\
    (resting i' = true -> resting (steering f) = true \/ moved (steering f) = stamp)).
  { unfold i', settle_rest. case_decide; simpl; auto. }
  destruct Hi as (Hm & Hc & Hd & Hr).
  assert (He : ended f -> ended (goto (Acknowledging a g) (with_steering i' f))).
  { intros (? & _ & ?). split_and!; [by simpl; rewrite Hc|done..]. }
  constructor; simpl; unfold asked_to_end; rewrite ?Hm, ?Hc, ?Hd; auto; try lia.
  - destruct H3; auto.
  - intros Hrest. split; [|done]. destruct (Hr Hrest) as [Hq|Hq]; [by apply H4|by apply H5].
  - by destruct g; [apply He|].
  - intros Hq. destruct (H8 Hq) as (? & ? & ? & ?). auto 6.
  - eapply Forall_impl; [exact H10|]. simpl. intros t Ht Hends. specialize (Ht Hends).
    eapply promised_calm; [| | | | |exact Ht]; simpl; unfold asked_to_end; rewrite ?Hd; auto.
    unfold covered. rewrite Hpc. simpl. auto.
Qed.

Lemma served_acknowledge n f f' a p :
  served n f -> sending f = None -> calm (pc f) = true ->
  match p with Waiting | Top => True | Acknowledged true | Stopped => ended f
  | Acknowledged false => True | _ => False end ->
  (a <= probe f \/ ended f)%Z ->
  (forall t, covered f t -> (asked_for t <= a)%Z -> ended f) ->
  f' = goto p (settle a f) -> served (n + 1) f'.
Proof.
  intros [H1 H2 H3 H4 H5 H6 H7 H8 H9 H10] Hs Hcalm Hp Ha Hack ->.
  assert (Hsame : steering (settle a f) = steering f /\ probe (settle a f) = probe f /\
    callers (settle a f) = callers f /\ sending (settle a f) = sending f /\
    (settled (settle a f) = a \/ settled (settle a f) = settled f)).
  { unfold settle. case_decide; simpl; split_and!; auto. }
  destruct Hsame as (Hi & Hpr & Hcl & Hse & Hset).
  assert (He : ended f -> ended (goto p (settle a f))).
  { intros (? & _ & ?). split_and!; simpl; rewrite ?Hi, ?Hse; try done. by destruct p. }
  constructor; simpl; rewrite ?Hi, ?Hpr, ?Hcl, ?Hse; auto; try lia.
  - destruct Hset as [->| ->]; [destruct Ha|destruct H3]; auto.
  - intros Hr. destruct (H4 Hr). split; [done|]. by destruct p.
  - by destruct p.
  - by destruct p.
  - destruct p; try done; try (destruct for_good; auto). auto.
  - intros Hd. destruct (H8 Hd) as (? & ? & ? & _). split_and!; try done.
    + unfold settle. by case_decide.
    + left. by destruct p.
  - intros Hd. left. by destruct p.
  - eapply Forall_impl; [exact H10|]. simpl. intros t Ht Hends. specialize (Ht Hends).
    destruct Ht as [?|[Hask Ht]]; [by left|right]. simpl. rewrite Hi. split; [done|].
    destruct Ht as [?|[(Ht & Hle & Hcov & Hst)|[? ?]]]; [auto| |auto].
    right; left. simpl. rewrite Hpr. split_and!; [done..|unfold covered; by destruct p|].
    intros Hq. apply He. destruct Hset as [Hset|Hset]; rewrite Hset in Hq; [|auto].
    by eapply Hack.
Qed.

Lemma served_mono n f : served n f -> served (n + 1) f.
Proof. intros H. by apply (served_same n f). Qed.

(** A planned transition starts. *)
Lemma served_run n f s :
  served n f -> calm (pc f) = true ->
  plan (committed (steering f)) (desired (steering f)) = Some s ->
  served n (goto (run s) f).
Proof.
  intros Hsv Hc Hp.
  assert (Hgone : gone (committed (steering f)) -> False).
  { intros Hg. by rewrite (gone_plan _ _ Hsv Hg) in Hp. }
  destruct Hsv as [H1 H2 H3 H4 H5 H6 H7 H8 H9 H10].
  assert (He : ended f -> ended (goto (run s) f)) by (by intros (?%Hgone & _)).
  pose proof (run_busy s) as Hb.
  constructor; simpl; auto; try (by destruct (run s)).
  - destruct H3; auto.
  - intros Hr. destruct (H4 Hr) as [Hq _]. by rewrite Hq in Hp.
  - intros Hd. destruct Hgone. by right.
  - intros Hd. destruct Hgone. by left.
  - eapply Forall_impl; [exact H10|]. simpl. intros t Ht Hends. specialize (Ht Hends).
    eapply promised_calm; [| | | | |exact Ht]; simpl; auto. unfold covered. simpl.
    by destruct (run s).
Qed.

Lemma served_send n f s r :
  served n f -> sending f = Some s -> back_on_top (pc f) = true -> replays r = replays (Supervisor.record f) ->
  served n (with_published s None r f).
Proof.
  intros [H1 H2 H3 H4 H5 H6 H7 H8 H9 H10] Hs Hb Hr.
  assert (He : ended f -> False) by (intros (_ & _ & Hq); by rewrite Hs in Hq).
  constructor; simpl; rewrite ?Hr; auto; try (by destruct (pc f)).
  - destruct H3; [auto|naive_solver].
  - eapply Forall_impl; [exact H10|]. simpl. intros t Ht Hends. specialize (Ht Hends).
    eapply promised_calm; [| | | | |exact Ht]; simpl; auto; [by intros ?%He|].
    unfold covered. simpl. by destruct (pc f).
Qed.

Lemma served_advance n f w w' f' :
  (0 <= n < u64_max)%Z -> served n f -> shaped f ->
  advance f w = Some (w', f') -> served (n + 1) f'.
Proof.
  intros Hn Hsv Hsh Hadv. unfold advance in Hadv.
  pose proof (served_over _ _ Hsv) as Hover. pose proof (served_asked _ _ Hsv) as Hasked.
  destruct (sending f) as [s|] eqn:Hs.
  { simplify_eq/=. apply served_mono, served_send; [done|done| |done].
    destruct (pc f); try done; try (destruct for_good); try done;
      by destruct Hover as (_ & _ & Hq); rewrite Hs in Hq. }
  destruct (calm (pc f)) eqn:Hcalm.
  2: { eapply served_advance_busy; [done..| |done]. unfold in_transition. by rewrite Hcalm. }
  unfold_pc in Hadv.
  destruct (pc f) eqn:Hpc; try done; simplify_eq/=.
  - apply served_mono, served_calm; rewrite ?Hpc; try done.
  - apply served_mono, served_calm; rewrite ?Hpc; try done.
  - apply served_calm; simpl; rewrite ?Hpc; try done.
    apply served_stir; [done|done|apply set_epoch_stirs].
  - destruct (plan _ _) as [s|] eqn:Hp.
    + apply served_mono, served_run; rewrite ?Hpc; done.
    + by apply served_synced.
  - by apply served_settle.
  - eapply (served_acknowledge n f _ asked (Acknowledged for_good)); [done|done|by rewrite Hpc| |by left| |done].
    + by destruct for_good.
    + intros t Hcov. unfold covered in Hcov. by rewrite Hpc in Hcov.
  - destruct for_good; simplify_eq/=.
    + eapply (served_acknowledge n f _ u64_max Stopped);
        [done|done|by rewrite Hpc|done|by right|done|done].
    + apply served_mono, served_calm; rewrite ?Hpc; done.
Qed.

(** *** The other actors *)

Lemma served_noticed n f e b p :
  served n f -> sending f = None -> noticing (pc f) = Some p ->
  (0 <= n < u64_max)%Z ->
  served (n + 1) (goto p (with_inputs (signal f) e b f)).
Proof.
  intros Hsv Hs Hp Hn.
  assert (Hsv' : served (n + 1) (with_inputs (signal f) e b f)) by (by apply (served_same n f)).
  destruct (calm (pc f)) eqn:Hc.
  - destruct (pc f) eqn:Hpc; try done; simplify_eq/=. apply served_calm; simpl; try done.
    by rewrite Hpc.
  - apply (served_step_busy n f); try done.
    + unfold in_transition. by rewrite Hc.
    + intros to c Hq. by rewrite Hq in Hp.
    + simpl. destruct (pc f); try done; destruct inbox; simplify_eq/=; done.
    + simpl. apply nudges_refl.
Qed.

(** The instructions of a thread that ends the fiber. *)
Lemma promised_next f t m ms :
  promised f t -> todo t = m :: ms ->
  ((m = MDispose \/ m = MSuspend) /\ ms = quiesce_program) \/
  (asked_to_end (steering f) = true /\
   ((m = MProbe /\ ms = [MNotify; MAwait]) \/
    ((m = MNotify /\ ms = [MAwait] \/ m = MAwait /\ ms = []) /\
     (asked_for t <= probe f)%Z /\ covered f t /\ ((asked_for t <= settled f)%Z -> ended f)))).
Proof.
  unfold quiesce_program. intros [(m' & Ht & Hm)|[Hask H]] Hq.
  - rewrite Ht in Hq. left. by destruct Hm; simplify_eq; auto.
  - right. split; [done|].
    destruct H as [Ht|[([Ht|Ht] & ?)|[Ht _]]]; rewrite Ht in Hq; unfold quiesce_program in Hq;
      simplify_eq; auto 6.
Qed.

Lemma served_probed n f :
  (0 <= n < u64_max)%Z -> served n f ->
  served (n + 1) (with_counts (wrapping_add (probe f) 1) (settled f) f) /\
  wrapping_add (probe f) 1 = (probe f + 1)%Z.
Proof.
  intros Hn Hsv. pose proof Hsv as [H1 H2 H3 H4 H5 H6 H7 H8 H9 H10].
  assert (Hp : wrapping_add (probe f) 1 = (probe f + 1)%Z)
    by (rewrite wrapping_add_small; unfold is_u64; lia).
  split; [|done]. rewrite Hp. constructor; simpl; auto; try lia.
  - destruct H3; [left; lia|auto].
  - destruct (pc f); try done; lia.
  - eapply Forall_impl; [exact H10|]. simpl. intros t Ht Hends. specialize (Ht Hends).
    eapply promised_mono; [| | | | |exact Ht]; simpl; auto; try lia. by destruct (pc f).
Qed.

(** Replacing the instructions left of one thread. *)
Lemma served_callers_insert n f k t :
  served n f -> (ends (called t) = true -> promised f t) ->
  served n (with_callers (<[k := t]> (callers f)) f).
Proof.
  intros [H1 H2 H3 H4 H5 H6 H7 H8 H9 H10] Ht. constructor; simpl; auto.
  apply Forall_insert; [exact H10|exact Ht].
Qed.

Lemma served_call_step n f t t' f' :
  (0 <= n < u64_max)%Z -> served n f -> t ∈ callers f -> call_step t f = Some (t', f') ->
  callers f' = callers f /\ served (n + 1) f' /\
  (ends (called t') = true -> promised f' t').
Proof.
  intros Hn Hsv Hin Hc. pose proof (served_callers _ _ Hsv) as Hall.
  rewrite Forall_forall in Hall. specialize (Hall t Hin). unfold call_step in Hc.
  destruct (todo t) as [|m ms] eqn:Htodo; [done|].
  assert (Hnext := fun H => promised_next f t m ms (Hall H) Htodo). clear Hall.
  destruct m; simplify_eq/=.
  - split_and!; [done|apply served_stir; [done|done|apply restart_stirs]|].
    intros H. destruct (Hnext H) as [[[] _]|(_ & [[]|([[]|[]] & _)])]; done.
  - split_and!; [done|apply served_stir; [done|done|apply suspend_stirs]|].
    intros H. destruct (Hnext H) as [[_ ->]|(_ & [[]|([[]|[]] & _)])]; try done.
    right. split; [|by left]. unfold suspend, asked_to_end. simpl.
    destruct (suspending (desired (steering f))) eqn:Hq; simpl; by rewrite ?Hq, orb_true_r.
  - split_and!; [done|apply served_stir; [done|done|apply dispose_stirs]|].
    intros H. destruct (Hnext H) as [[_ ->]|(_ & [[]|([[]|[]] & _)])]; try done.
    right. split; [|by left]. unfold dispose, asked_to_end. simpl.
    destruct (disposing (desired (steering f))) eqn:Hq; simpl; by rewrite ?Hq.
  - split_and!; [done|by apply (served_same n f)|].
    intros H. destruct (Hnext H) as [[[] _]|(_ & [[]|([[]|[]] & _)])]; done.
  - pose proof (fault_stirs incarnation (steering f)) as Hst.
    destruct (fault incarnation (steering f)) as [i acts]. simplify_eq/=.
    split_and!; [done|by apply served_stir|].
    intros H. assert (ends (called t) = true) as H' by (by destruct acts).
    destruct (Hnext H') as [[[] _]|(_ & [[]|([[]|[]] & _)])]; done.
  - destruct (served_probed n f Hn Hsv) as [Hsv' Hpr]. split_and!; [done|done|].
    intros H. destruct (Hnext H) as [[[] _]|(Hask & [[_ ->]|([[]|[]] & _)])]; try done.
    right. split; [done|]. right; left. simpl. rewrite Hpr. split_and!; [by left|lia| |].
    + unfold covered. simpl. pose proof (served_asked _ _ Hsv) as Ha.
      destruct (pc f); try done; lia.
    + destruct (served_settled _ _ Hsv) as [|Hend]; [lia|]. intros _. exact Hend.
  - split_and!; [done|by apply (served_same n f)|].
    intros H. destruct (Hnext H) as [[[] _]|(Hask & [[]|([[_ ->]|[]] & Hle & Hcov & Hset)])];
      try done.
    right. split; [done|]. right; left. simpl. split_and!; auto.
  - case_decide as Hd; [|done]. simplify_eq/=. split_and!; [done|by apply served_mono|].
    intros H. destruct (Hnext H) as [[[] _]|(Hask & [[]|([[]|[_ ->]] & Hle & Hcov & Hset)])];
      try done.
    right. split; [done|]. right; right. auto.
Qed.

Lemma served_step n e w f :
  (0 <= n < u64_max)%Z -> shaped f -> served n f -> served (n + 1) (fiber_step e (w, f)).2.
Proof.
  intros Hn Hsh Hsv. destruct e as [| | |next rs outcome dropped|e|c|k|w']; simpl.
  - destruct (advance f w) as [[w' f']|] eqn:Ha; simpl; [|by apply served_mono].
    by eapply served_advance.
  - unfold take_wake. destruct (sending f) eqn:Hs, (wake f), (noticing (pc f)) eqn:Hp;
      try (by apply served_mono). by apply served_noticed.
  - unfold take_signal. destruct (sending f) eqn:Hs, (signal_changed f), (noticing (pc f)) eqn:Hp;
      try (by apply served_mono). by apply served_noticed.
  - unfold activation_settles. destruct (sending f) eqn:Hs; [by apply served_mono|].
    destruct (pc f) eqn:Hpc; try (by apply served_mono). destruct inbox;
      try (by apply served_mono).
    apply (served_step_busy n f); rewrite ?Hpc; try done. apply nudges_refl.
  - by apply (served_same n f).
  - pose proof (served_mono _ _ Hsv) as [H1 H2 H3 H4 H5 H6 H7 H8 H9 H10].
    constructor; simpl; auto. apply Forall_app. split; [exact H10|].
    constructor; [|done]. simpl. intros Hends. left. destruct c; try done; eexists; by eauto.
  - destruct (callers f !! k) as [t|] eqn:Ht; [|by apply served_mono].
    destruct (call_step t f) as [[t' f']|] eqn:Hc; [|by apply served_mono]. simpl.
    destruct (served_call_step n f t t' f' Hn Hsv (list_elem_of_lookup_2 _ _ _ Ht) Hc)
      as (Hcl & Hsv' & Hpr).
    by apply served_callers_insert.
  - by apply served_mono.
Qed.

Lemma spawn_served fiber e : served 0 (spawn (W := W) fiber e).
Proof. by constructor; simpl; auto; try lia. Qed.

Lemma run_served es w fiber e :
  (Z.of_nat (length es) <= u64_max)%Z ->
  shaped (fiber_run es (w, spawn (W := W) fiber e)).2 /\
  served (Z.of_nat (length es)) (fiber_run es (w, spawn (W := W) fiber e)).2.
Proof.
  apply (run_invariant (fun n f => shaped f /\ served n f)).
  - split; [apply spawn_shaped|apply spawn_served].
  - intros n e' w' f Hn [Hsh Hsv]. split; [by apply shaped_step|by apply served_step].
Qed.
End Served.
