(* ===== verification/FiberProperties.v ===== *)
(** * What a fiber promises

    The properties of the supervised fiber, from the invariants of
    [FiberLaws.v]: exact withdrawal, single flight, the published history,
    rest, and what a disposal or a suspension returns with. *)

From stdpp Require Import base gmap sets list strings.
From S2P Require Import Prelude Api EffectTree Programs Effects Plan Supervisor FiberLaws.

(** ** Exact withdrawal *)

(** The effects of a published tree, in the order a replay withdraws them. *)
Fixpoint descriptor_preorder (d : EffectDescriptor) : list (EffectId * string) :=
  (descriptor_id d, descriptor_label d) :: concat (map descriptor_preorder (descriptor_children d)).

Definition published_replay_order (ds : list EffectDescriptor) : list (EffectId * string) :=
  reverse (concat (map descriptor_preorder ds)).

Section Exact.
Context {W : Type}.
Implicit Types (f : Fiber W) (w : W) (t : teardown W) (sc : EffectScope W).

Lemma descriptors_preorder (rs : forest (Disposer W)) :
  concat (map descriptor_preorder (map descriptor rs)) = map record_key (preorder rs).
Proof.
  apply (forest_induction
    (fun r : EffectRecord (Disposer W) => descriptor_preorder (descriptor r) = map record_key (preorder_record r))
    (fun rs => concat (map descriptor_preorder (map descriptor rs)) =
               map record_key (preorder rs))).
  - intros eid label d dr su cs IH. simpl. f_equal. exact IH.
  - done.
  - intros r rs' Hr Hrs. rewrite preorder_cons, map_app. simpl. by rewrite Hr, Hrs.
Qed.

Lemma published_order sc :
  published_replay_order (tree sc) = map record_key (flatten (roots sc)).
Proof.
  unfold published_replay_order, tree. rewrite describe_correct, flatten_correct.
  rewrite descriptors_preorder. unfold replay_order.
  change @map with (fun A B g x => @fmap list _ A B g x). cbv beta. by rewrite fmap_reverse.
Qed.

(** The lines written before a point: first the failed drain phases, then one
    line per effect. *)
Definition exact_lines (lines : list EffectReport) (rest order : list (EffectId * string))
    : Prop :=
  exists drained undone, lines = drained ++ undone /\
    Forall (fun l => is_done (report_outcome l) = false) drained /\
    map line_key undone ++ rest = order.

Definition in_flight_key t : list (EffectId * string) :=
  match in_flight t with Some x => [(w_id x, w_label x)] | None => [] end.

(** A turn writes at most one line, and moves one effect on. *)
Lemma turn_exact m t w order :
  exact_lines (withdrawn (td_scope t))
    (in_flight_key t ++ map record_key (flatten (roots (td_scope t)))) order ->
  match (turn m t w).2 with
  | Running t' => exact_lines (withdrawn (td_scope t'))
      (in_flight_key t' ++ map record_key (flatten (roots (td_scope t')))) order
  | Finished s report => exact_lines report [] order
  end.
Proof.
  intros (drained & undone & Hl & Hd & Ho). destruct t as [s [x|]]; unfold turn; simpl in *.
  - unfold withdrawal_poll. destruct (driver_poll (w_driver x) w) as [w1 [d|o]]; simpl.
    + exists drained, undone. auto.
    + exists drained, (undone ++ [line (w_id x) (w_label x) o]).
      rewrite Hl, <-app_assoc, map_app, <-app_assoc. auto.
  - destruct (take_next (roots s)) as [[r rs]|] eqn:Hnext; simpl.
    + rewrite (flatten_take_next _ _ _ Hnext) in Ho. simpl in Ho.
      unfold start. destruct m, (rec_suspend r) as [sd|]; simpl;
        try (exists drained, undone; by auto).
      destruct (drop_disposer (rec_disposer r) w) as [w1 [p|]]; simpl;
        [|exists drained, undone; by auto].
      exists drained, (undone ++ [line (rec_id r) (rec_label r) (UndoPanicked p)]).
      rewrite Hl, <-app_assoc, map_app, <-app_assoc. auto.
    + apply take_next_None in Hnext. rewrite Hnext in Ho. exists drained, undone. auto.
Qed.

Definition withdraws_published (after : After) : bool :=
  match after with AfterUnload _ | AfterFault => true | _ => false end.

Definition exact f : Prop :=
  let order := published_replay_order (effects (Supervisor.record f)) in
  match pc f with
  | Draining _ after _ _ => withdraws_published after = true ->
      Forall (fun l => is_done (report_outcome l) = false) (withdrawn (scope f)) /\
      map record_key (flatten (roots (scope f))) = order
  | Undoing _ after _ t => withdraws_published after = true ->
      exact_lines (withdrawn (td_scope t))
        (in_flight_key t ++ map record_key (flatten (roots (td_scope t)))) order
  | Replayed after report | Withdrawn after report | Landed after report =>
      withdraws_published after = true -> exact_lines report [] order
  | _ => True
  end.

Lemma exact_same f f' :
  exact f -> pc f' = pc f -> scope f' = scope f ->
  effects (Supervisor.record f') = effects (Supervisor.record f) -> exact f'.
Proof. unfold exact. intros H -> -> ->. done. Qed.

Lemma exact_elsewhere f :
  match pc f with
  | Draining _ _ _ _ | Undoing _ _ _ _ | Replayed _ _ | Withdrawn _ _ | Landed _ _ => False
  | _ => True
  end -> exact f.
Proof. unfold exact. by destruct (pc f). Qed.

Lemma record_keys_undrained (rs : forest (Disposer W)) :
  map record_key (flatten (map undrained rs)) = map record_key (flatten rs).
Proof.
  destruct (drains_spec rs) as (_ & _ & H).
  apply (f_equal (map (fun x => x.1.1))) in H. rewrite !map_map in H. exact H.
Qed.

Lemma exact_advance f w w' f' :
  shaped f -> exact f -> advance f w = Some (w', f') -> exact f'.
Proof.
  intros Hsh Hex Hadv. unfold advance in Hadv. destruct (sending f) as [s|] eqn:Hs.
  { simplify_eq/=. by apply (exact_same f). }
  pose proof (shape_pc _ Hsh) as Hat. unfold exact in Hex. unfold_pc in Hadv.
  destruct (pc f) eqn:Hpc; try done; try (destruct inbox; try done); simplify_eq/=;
    try done; try (by apply exact_elsewhere; simpl; repeat case_match).
  - apply exact_elsewhere. simpl. unfold run. by repeat case_match.
  - destruct for_good; simplify_eq/=; by apply exact_elsewhere.
  - destruct (launch a (steering f)); simplify_eq/=; by apply exact_elsewhere.
  - destruct Hat as (_ & [Hw _] & He). unfold exact. simpl. intros Hp.
    rewrite Hw, record_keys_undrained. split; [done|]. rewrite <-published_order.
    destruct after; simplify_eq/=; by rewrite He.
  - destruct phases as [|[[eid label] d] phases]; simplify_eq/=.
    + unfold exact. simpl. intros Hp. destruct (Hex Hp) as [Hd Hk].
      exists (withdrawn (scope f)), []. by rewrite app_nil_r.
    + destruct (withdraw d w) as [w1 o]. simplify_eq/=. unfold exact.
      destruct (is_done o) eqn:Ho; simpl; [exact Hex|]. intros Hp.
      destruct (Hex Hp) as [Hd Hk]. split; [|done]. apply Forall_app. split; [done|].
      by constructor.
  - destruct (turn _ t w) as [w1 t1] eqn:Ht. simplify_eq/=.
    pose proof (fun H => turn_exact (if full then Replaying else Suspending) t w _ (Hex H)) as Hn.
    rewrite Ht in Hn. by destruct t1.
  - apply exact_elsewhere. simpl. destruct after; simpl; try done;
      unfold unload_landed, disposal_landed; by repeat case_match.
Qed.

Lemma exact_step e w f : shaped f -> exact f -> exact (fiber_step e (w, f)).2.
Proof.
  intros Hsh Hex. destruct e as [| | |next rs outcome dropped|e|c|k|w']; simpl.
  - destruct (advance f w) as [[w' f']|] eqn:Ha; simpl; [|done]. by eapply exact_advance.
  - unfold take_wake. destruct (sending f), (wake f), (noticing (pc f)) as [p|] eqn:Hp; try done.
    unfold exact in *. simpl.
    destruct (pc f); try done; try (destruct inbox); by simplify_eq/=.
  - unfold take_signal.
    destruct (sending f), (signal_changed f), (noticing (pc f)) as [p|] eqn:Hp; try done.
    unfold exact in *. simpl.
    destruct (pc f); try done; try (destruct inbox); by simplify_eq/=.
  - unfold activation_settles. destruct (sending f); [done|].
    destruct (pc f) eqn:Hpc; try done. by destruct inbox.
  - by apply (exact_same f).
  - by apply (exact_same f).
  - destruct (callers f !! k) as [t|]; [|done].
    destruct (call_step t f) as [[t' f']|] eqn:Hc; [|done]. simpl.
    unfold call_step in Hc. destruct (todo t) as [|m ms]; [done|].
    apply (exact_same f); [done|..]; destruct m; simplify_eq/=; try done;
      try (by destruct (fault incarnation (steering f)); simplify_eq/=);
      case_decide; by simplify_eq/=.
  - done.
Qed.

Lemma run_exact es w fiber e :
  exact (fiber_run es (w, spawn (W := W) fiber e)).2.
Proof.
  apply (run_invariant (fun _ f => shaped f /\ exact f) (Z.of_nat (length es))); [|..|lia].
  - split; [apply spawn_shaped|done].
  - intros n e' w' f _ [Hsh Hex]. split; [by apply shaped_step|by apply exact_step].
Qed.
End Exact.

(** ** Properties

    [ran es w fiber e] is the fiber after the events [es], spawned with the
    epoch [e]. *)

Definition ran {W} (es : list (event W)) (w : W) (fiber : FiberId) (e : option Epoch) : Fiber W :=
  (fiber_run es (w, spawn fiber e)).2.

(** A run over a counter: the body registers one effect, and the fiber is
    disposed. *)
Module Lifetime.
Definition fiber : FiberId := MkFiberId 7.
Definition activates : list (event Z) :=
  replicate 8 Advance ++
  [ActivationSettles 0 [RegisterEffect "listener" (Sample.undo 5)] (inl (Ok tt)) None] ++
  replicate 15 Advance.
Definition disposes : list (event Z) :=
  [Call CallDispose; CallerStep 0; CallerStep 0; CallerStep 0; TakeWake] ++
  replicate 14 Advance.
Definition finishes : list (event Z) := replicate 12 Advance ++ [CallerStep 0].
End Lifetime.

(** C1: One transition at a time: under every interleaving of the supervisor
    with its callers, its dependencies and its activation, the assertion of
    [launch] never fails, and an aim is in flight exactly while the activation
    launched for it has not landed. *)
Theorem single_flight {W} (es : list (event W)) (w : W) (fiber : FiberId) (e : option Epoch) :
  let f := ran es w fiber e in
  pc f <> Panicked /\ flying (steering f) = flying_at (pc f).
Proof.
  intros f. pose proof (run_shaped es w fiber e) as Hsh. split; [|apply (shape_flying _ Hsh)].
  intros Hpc. pose proof (shape_pc _ Hsh) as Hat. unfold f, ran in Hpc. by rewrite Hpc in Hat.
Qed.

(** The published history is a walk of the lifecycle: it starts at
    [Pending], every transition leaves the state the one before it entered
    along a legal edge (so nothing follows [Disposed], and [Active] is left
    only through [Unloading]), and the state on record is the published one,
    or the one about to be sent: a reader never sees a state that the history
    does not have. *)
Theorem history_walks_the_lifecycle {W} (es : list (event W)) (w : W) (fiber : FiberId)
    (e : option Epoch) :
  let f := ran es w fiber e in
  chained Pending (transitions (record f)) (shown f) /\
  match sending f with
  | None => shown f = published_state f
  | Some s => legal (published_state f) s = true /\
      transition_to <$> last (transitions (record f)) = Some s
  end.
Proof.
  intros f. pose proof (run_shaped es w fiber e) as Hsh. split; [apply (shape_history _ Hsh)|].
  pose proof (shape_sending _ Hsh) as Hs. fold f in Hs.
  unfold ran in f. fold f in Hs. destruct (sending f) eqn:Hq; [by apply Hs|].
  unfold shown. by rewrite Hq.
Qed.

(** A fiber that is not [Active] contributes nothing (I1): between
    transitions, its scope is the empty one and its published effect tree is
    empty; an [Active] fiber publishes exactly its scope. It is [Disposed] only
    when a disposal or a suspension asked for it and its last withdrawal
    reported clean. *)
Theorem inactive_fiber_contributes_nothing {W} (es : list (event W)) (w : W) (fiber : FiberId)
    (e : option Epoch) :
  let f := ran es w fiber e in
  calm (pc f) = true ->
  effects (record f) = tree (scope f) /\
  (state (committed (steering f)) <> Active ->
   scope f = new_scope /\ effects (record f) = [] /\
   shown f = state (committed (steering f))) /\
  (state (committed (steering f)) = Disposed ->
   asked_to_end (steering f) = true /\ withdrew_clean (replays (record f))).
Proof.
  intros f Hcalm. pose proof (shape_pc _ (run_shaped es w fiber e)) as Hat.
  fold (ran es w fiber e) in Hat. fold f in Hat.
  assert (Hr : at_rest (state (committed (steering f))) (shown f) (scope f)
    (effects (record f)) (asked_to_end (steering f)) (replays (record f)))
    by (by destruct (pc f)).
  destruct Hr as [He [(Hc & _)|(Hs & Hsc & Hst)]]; [by rewrite Hc|].
  split_and!; [done|intros _; by rewrite He, Hsc|].
  intros Hd. destruct Hst as [[Hq|Hq]|(_ & ? & ?)]; [by rewrite Hd in Hq..|done].
Qed.

Lemma inactive_fiber_contributes_nothing_witness :
  let f := ran (Lifetime.activates ++ Lifetime.disposes ++ Lifetime.finishes) 100%Z
    Lifetime.fiber (Some (MkEpoch [])) in
  state (committed (steering f)) = Disposed /\ calm (pc f) = true /\
  (effects (record f) = tree (scope f) /\
   (state (committed (steering f)) <> Active ->
    scope f = new_scope /\ effects (record f) = [] /\
    shown f = state (committed (steering f))) /\
   (state (committed (steering f)) = Disposed ->
    asked_to_end (steering f) = true /\ withdrew_clean (replays (record f)))).
Proof.
  intros f. split; [vm_compute; reflexivity|]. split; [vm_compute; reflexivity|].
  apply (inactive_fiber_contributes_nothing
    (Lifetime.activates ++ Lifetime.disposes ++ Lifetime.finishes) 100%Z Lifetime.fiber
    (Some (MkEpoch []))).
  vm_compute. reflexivity.
Defined.

(** C2: An unload withdraws exactly what the fiber published (I1): when its
    report is complete, it holds one line for every effect of the published
    tree, in reverse order of registration, after the lines of the drain phases
    that failed, and it is the last report on record. *)
Theorem unload_withdraws_what_was_published {W} (es : list (event W)) (w : W) (fiber : FiberId)
    (e : option Epoch) (after : After) (report : ReplayReport) :
  let f := ran es w fiber e in
  pc f = Landed after report -> withdraws_published after = true ->
  last (replays (record f)) = Some report /\
  exists drained undone, report = drained ++ undone /\
    Forall (fun l => is_done (report_outcome l) = false) drained /\
    map line_key undone = published_replay_order (effects (record f)).
Proof.
  intros f Hpc Hp. pose proof (shape_pc _ (run_shaped es w fiber e)) as Hat.
  pose proof (run_exact es w fiber e) as Hex. fold (ran es w fiber e) in Hat, Hex.
  fold f in Hat, Hex. unfold exact in Hex. rewrite Hpc in *. destruct Hat as (_ & _ & Hl & _).
  split; [done|]. destruct (Hex Hp) as (drained & undone & ? & ? & Hk).
  exists drained, undone. by rewrite app_nil_r in Hk.
Qed.

Lemma unload_withdraws_what_was_published_witness :
  let f := ran (Lifetime.activates ++ Lifetime.disposes) 100%Z Lifetime.fiber
    (Some (MkEpoch [])) in
  let report := [MkEffectReport (MkEffectId 0) "listener" UndoDone] in
  published_replay_order (effects (record f)) = [(MkEffectId 0, "listener"%string)] /\
  last (replays (record f)) = Some report /\
  exists drained undone, report = drained ++ undone /\
    Forall (fun l => is_done (report_outcome l) = false) drained /\
    map line_key undone = published_replay_order (effects (record f)).
Proof.
  intros f report. split; [vm_compute; reflexivity|].
  apply (unload_withdraws_what_was_published (Lifetime.activates ++ Lifetime.disposes) 100%Z
    Lifetime.fiber (Some (MkEpoch [])) (AfterUnload ExplicitDispose) report).
  - vm_compute. reflexivity.
  - reflexivity.
Defined.

(** C7: Rest is truthful: whenever the rest bit is up, the planner owes
    nothing for the target as it is now, nothing is in flight, and the
    supervisor runs no transition. Every write that moves the target lowers it
    in the same critical section, so this holds at every instant and not only
    when the supervisor looked. *)
Theorem rest_is_truthful {W} (es : list (event W)) (w : W) (fiber : FiberId) (e : option Epoch) :
  (Z.of_nat (length es) <= u64_max)%Z ->
  let f := ran es w fiber e in
  resting (steering f) = true ->
  plan (committed (steering f)) (desired (steering f)) = None /\
  flying (steering f) = None /\ calm (pc f) = true.
Proof.
  intros Hlen f Hr. destruct (run_served es w fiber e Hlen) as [Hsh Hsv].
  destruct (served_rest _ _ Hsv Hr) as [Hp Hc]. split_and!; [done| |done].
  pose proof (shape_flying _ Hsh) as Hf. unfold f, ran. rewrite Hf. by destruct (pc _).
Qed.

Lemma rest_is_truthful_witness :
  let f := ran Lifetime.activates 100%Z Lifetime.fiber (Some (MkEpoch [])) in
  resting (steering f) = true /\
  (plan (committed (steering f)) (desired (steering f)) = None /\
   flying (steering f) = None /\ calm (pc f) = true).
Proof.
  intros f. split; [vm_compute; reflexivity|].
  apply (rest_is_truthful Lifetime.activates 100%Z Lifetime.fiber (Some (MkEpoch []))).
  - vm_compute. discriminate.
  - vm_compute. reflexivity.
Defined.

(** C5: [Fiber::dispose] and [Fiber::suspend] return only once the fiber is
    over: every transition landed, no effect of it is live, and the published
    state is [Disposed], its last withdrawal on record clean, or [Failed], its
    disposal marked as failed and its last withdrawal on record with a residue. *)
Theorem dispose_returns_once_over {W} (es : list (event W)) (w : W) (fiber : FiberId)
    (e : option Epoch) (t : caller) :
  (Z.of_nat (length es) <= u64_max)%Z ->
  let f := ran es w fiber e in
  t ∈ callers f -> called t = CallDispose \/ called t = CallSuspend -> todo t = [] ->
  calm (pc f) = true /\ scope f = new_scope /\ effects (record f) = [] /\
  ((published_state f = Disposed /\ withdrew_clean (replays (record f))) \/
   (published_state f = Failed /\ disposal_failed (committed (steering f)) = true /\ withdrew_unclean (replays (record f)))).
Proof.
  intros Hlen f Hin Hcall Htodo. destruct (run_served es w fiber e Hlen) as [Hsh Hsv].
  fold (ran es w fiber e) in Hsh, Hsv. fold f in Hsh, Hsv.
  pose proof (served_callers _ _ Hsv) as Hall. rewrite Forall_forall in Hall.
  assert (Hends : ends (called t) = true) by (destruct Hcall as [-> | ->]; done).
  destruct (Hall t Hin Hends) as [(m & Ht & _)|[_ Ht]]; [by rewrite Ht in Htodo|].
  destruct Ht as [Ht|[([Ht|Ht] & _)|[_ (Hg & Hc & Hs)]]]; [by rewrite Ht in Htodo..|].
  pose proof (shape_pc _ Hsh) as Hat.
  assert (Hr : at_rest (state (committed (steering f))) (shown f) (scope f)
    (effects (record f)) (asked_to_end (steering f)) (replays (record f)))
    by (by destruct (pc f)).
  unfold shown in Hr. rewrite Hs in Hr. simpl in Hr. destruct Hr as [He Hr].
  destruct Hg as [Hg|Hg].
  - destruct Hr as [(Hq & _)|(Hq & Hsc & Hst)]; [by rewrite Hg in Hq|].
    rewrite He, Hsc, <-Hq, Hg. split_and!; [done..|left]. split; [done|].
    destruct Hst as [[Hst|Hst]|(_ & _ & ?)]; [by rewrite Hg in Hst..|done].
  - destruct (served_residue _ _ Hsv Hg) as (Hst & _ & Hun & _).
    destruct Hr as [(Hq & _)|(Hq & Hsc & _)]; [by rewrite Hst in Hq|].
    rewrite He, Hsc, <-Hq, Hst. split_and!; [done..|right]. done.
Qed.

Lemma dispose_returns_once_over_witness :
  let f := ran (Lifetime.activates ++ Lifetime.disposes ++ Lifetime.finishes) 100%Z
    Lifetime.fiber (Some (MkEpoch [])) in
  callers f = [MkCaller CallDispose [] 1] /\
  (calm (pc f) = true /\ scope f = new_scope /\ effects (record f) = [] /\
   ((published_state f = Disposed /\ withdrew_clean (replays (record f))) \/
    (published_state f = Failed /\ disposal_failed (committed (steering f)) = true /\ withdrew_unclean (replays (record f))))).
Proof.
  intros f. assert (Hc : callers f = [MkCaller CallDispose [] 1]) by (vm_compute; reflexivity).
  split; [exact Hc|].
  apply (dispose_returns_once_over (Lifetime.activates ++ Lifetime.disposes ++ Lifetime.finishes)
    100%Z Lifetime.fiber (Some (MkEpoch [])) (MkCaller CallDispose [] 1)).
  - vm_compute. discriminate.
  - fold f. rewrite Hc. apply list_elem_of_here.
  - left. reflexivity.
  - reflexivity.
Defined.
