(* ===== verification/FiberLiveness.v ===== *)
(** * A fiber that is left alone comes to rest

    The progress of the machine of [Supervisor.v] once no new input arrives:
    whatever order its supervisor, its inputs already on their way, its
    activation and its callers run in, every run ends, and where it ends the
    fiber rests and every call has returned. *)

From stdpp Require Import base gmap sets list strings.
From S2P Require Import Prelude Api EffectTree Programs Effects Plan Supervisor FiberLaws FiberProperties.

(** ** What can still happen without a new input *)

Section Silence.
Context {W : Type}.
Implicit Types (f : Fiber W) (w : W) (c : Committed) (d : Desired).

(** Whether an event is one of the fiber's own and would do something. *)
Definition enabled (e : event W) (s : W * Fiber W) : bool :=
  let '(w, f) := s in
  match e with
  | Advance => match advance f w with Some _ => true | None => false end
  | TakeWake =>
      match sending f, noticing (pc f) with None, Some _ => wake f | _, _ => false end
  | TakeSignal =>
      match sending f, noticing (pc f) with None, Some _ => signal_changed f | _, _ => false end
  | ActivationSettles _ _ _ _ =>
      match sending f, pc f with None, Activating _ _ Idle => true | _, _ => false end
  | CallerStep n =>
      match callers f !! n with
      | Some t => match call_step t f with Some _ => true | None => false end
      | None => false
      end
  | SetSignal _ | Call _ | World _ => false
  end.

Definition silent_step (s s' : W * Fiber W) : Prop :=
  exists e, enabled e s = true /\ s' = fiber_step e s.

(** Nothing can happen any more without a new input. *)
Definition silent (s : W * Fiber W) : Prop := forall e, enabled e s = false.

(** ** The measure

    Five numbers, compared lexicographically: the inputs still on their way,
    the moves of the epoch still to be read, the transitions still owed, the
    program point, and the work left at it. *)

Definition micro_weight (m : micro) : nat :=
  match m with MFault _ => 4 | MNotify => 2 | _ => 1 end.

Definition inputs_left f : nat :=
  sum_list_with (fun t => sum_list_with micro_weight (todo t)) (callers f) +
  (if wake f then 1 else 0) + (if signal_changed f then 1 else 0).

(** The epoch the supervisor read and did not write yet. *)
Definition held (p : Pc W) : option (option Epoch) :=
  match p with
  | Sampled _ e | Resampled _ e | Activating _ _ (Holding e)
  | Draining _ _ (Holding e) _ | Undoing _ _ (Holding e) _ => Some e
  | _ => None
  end.

Definition differs (a b : option Epoch) : nat := if decide (a = b) then 0 else 1.

Definition moves_left f : nat :=
  let written := epoch (aim (desired (steering f))) in
  match held (pc f) with
  | None => differs written (signal f)
  | Some e => differs written e + differs e (signal f)
  end.

(** How many transitions the planner runs from here, at most. *)
Definition rank c d : nat :=
  match plan c d with None => 0 | Some (Unload _) => 2 | Some _ => 1 end.

(** The same, once the activation for [a] landed. *)
Definition rank_loaded (a : Aim) d : nat :=
  if decide (a = aim d /\ disposing d = false /\ suspending d = false /\ faulted d = false)
  then 0 else 2.

Definition unfaulted d : Desired :=
  MkDesired (aim d) (cause d) (disposing d) (suspending d) false.

Definition rank_after (after : After) c d : nat :=
  match after with
  | AfterUnload _ => 1
  | AfterFinish _ => rank (landing_commit DisposalFailed c) d
  | AfterFailedLoad _ | AfterFault => rank c d
  end.

Definition transitions_left f : nat :=
  let c := committed (steering f) in
  let d := desired (steering f) in
  match pc f with
  | Launching a _ => rank_loaded a (unfaulted d)
  | PublishLoading a _ | Activating a _ _ | LandingLoad a _ _ | ActivationLanded a _
  | LoadFailing a _ _ | LoadFailed a _ => rank_loaded a d
  | PublishUnloading after | Withdrawing _ after | Draining _ after _ _ | Undoing _ after _ _
  | Replayed after _ | Withdrawn after _ | Landed after _ | Judging after _ =>
      rank_after after c d
  | FaultUnload | FaultCommit _ => 1
  | Finishing => rank (landing_commit DisposalFailed c) d
  | Failing _ l _ | Committing l _ => rank (landing_commit l c) d
  | _ => rank c d
  end.

Definition stage_left (p : Pc W) : nat :=
  match p with
  | Launching _ _ => 40 | PublishLoading _ _ => 39 | Activating _ _ _ => 38
  | LandingLoad _ _ _ => 37 | ActivationLanded _ _ | LoadFailing _ _ _ => 36
  | PublishEffects _ | LoadFailed _ _ => 35 | Resampling _ => 34 | Resampled _ _ => 33
  | NextStep _ => 32 | PublishActive _ => 31
  | FaultUnload => 34 | FaultCommit _ => 33 | PublishFaultUnloading => 32
  | PublishFaultFailed => 31
  | PublishUnloading _ | Finishing => 30
  | Withdrawing _ _ => 29 | Draining _ _ _ _ => 28 | Undoing _ _ _ _ => 27
  | Replayed _ _ => 26 | Withdrawn _ _ => 25 | Landed _ _ => 24 | Judging _ _ => 23
  | Failing _ _ _ => 22 | Committing _ _ => 21 | PublishLanded _ _ => 20
  | Top => 10 | Asked _ => 9 | Sampled _ _ => 8 | Synced _ => 7 | Settling _ _ _ => 6
  | Acknowledging _ _ => 5 | Acknowledged _ => 4
  | Waiting | Stopped | Panicked => 0
  end.

Definition inbox_left (i : Inbox) : nat :=
  match i with Idle => 0 | Holding _ => 1 | Noticed => 2 end.

(** The work left at a program point; for a teardown, the turns to its end. *)
Definition point_left (p : Pc W) w (n : nat) : Prop :=
  match p with
  | Activating _ _ i => n = inbox_left i
  | Draining _ _ i phases => n = 3 * length phases + inbox_left i
  | Undoing full _ i t =>
      exists k w' s report,
        turns k (if full then Replaying else Suspending) t w = (w', Finished s report) /\
        n = 3 * k + inbox_left i
  | _ => n = 0
  end.

Definition work_left f w (n : nat) : Prop :=
  exists k, point_left (pc f) w k /\ n = 2 * k + match sending f with Some _ => 1 | None => 0 end.

Lemma work_left_exists f w : exists n, work_left f w n.
Proof.
  assert (exists k, point_left (pc f) w k) as [k Hk]; [|by eexists _, k].
  destruct (pc f); simpl; eauto.
  destruct (turns_settle (if full then Replaying else Suspending) t w) as (n & w' & s & r & Hn).
  by exists (3 * n + inbox_left inbox), n, w', s, r.
Qed.

Definition progress f w (n : nat) f' w' : Prop :=
  inputs_left f' < inputs_left f \/
  inputs_left f' = inputs_left f /\
  (moves_left f' < moves_left f \/
   moves_left f' = moves_left f /\
   (transitions_left f' < transitions_left f \/
    transitions_left f' = transitions_left f /\
    (stage_left (pc f') < stage_left (pc f) \/
     stage_left (pc f') = stage_left (pc f) /\ exists n', work_left f' w' n' /\ n' < n))).

(** ** The planner's share *)

Lemma rank_le c d : rank c d <= 2.
Proof. unfold rank. destruct (plan c d) as [[]|]; lia. Qed.

Lemma rank_not_active c d : state c <> Active -> rank c d <= 1.
Proof.
  intros Hc. unfold rank. destruct (plan c d) as [[a cs|cs|]|] eqn:Hp; try lia.
  by apply plan_Unload_inv in Hp.
Qed.

Lemma rank_loaded_le a d c :
  (a = aim d -> disposing d = false -> suspending d = false -> faulted d = false ->
   plan c d = None) -> rank c d <= rank_loaded a d.
Proof.
  intros Hp. unfold rank_loaded. case_decide as Ha; [|apply rank_le].
  destruct Ha as (? & ? & ? & ?). unfold rank. by rewrite Hp.
Qed.

Lemma rank_activated a c d : rank (landing_commit (Activated a) c) d <= rank_loaded a d.
Proof.
  apply rank_loaded_le. intros -> Hd Hs Hf. unfold plan. simpl.
  rewrite Hd, Hs, Hf. by rewrite decide_True.
Qed.

Lemma rank_activation_failed a c d :
  rank (landing_commit (ActivationFailed a) c) d <= rank_loaded a d.
Proof.
  apply rank_loaded_le. intros -> Hd Hs Hf. unfold plan. simpl.
  rewrite Hd, Hs. simpl. destruct (epoch (aim d)); [|done]. by rewrite decide_True.
Qed.

Lemma rank_landing l c d :
  match l with Activated _ => False | _ => True end -> rank (landing_commit l c) d <= 1.
Proof. intros Hl. apply rank_not_active. by destruct l. Qed.

Lemma rank_disposed c d : rank (landing_commit DisposedClean c) d = 0.
Proof. done. Qed.

(** Leaving [Synced] for a transition spends one. *)
Lemma rank_run f s :
  plan (committed (steering f)) (desired (steering f)) = Some s ->
  transitions_left (goto (run s) f) <
    rank (committed (steering f)) (desired (steering f)).
Proof.
  intros Hp. unfold rank. rewrite Hp. destruct s as [a cs|cs|].
  - apply plan_Load_inv in Hp as (-> & _ & [e He] & Hd & Hs & _). simpl. rewrite He.
    unfold transitions_left. simpl. unfold rank_loaded. rewrite decide_True; [lia|]. done.
  - unfold transitions_left. destruct cs; simpl; lia.
  - apply plan_Finish_inv in Hp as (Hask & _). unfold transitions_left. simpl.
    unfold rank, plan. simpl. rewrite Hask. lia.
Qed.

(** ** The supervisor's steps *)

(** A step of the supervisor reads its inputs and leaves them as they are. *)
Definition same_inputs f f' : Prop :=
  callers f' = callers f /\ wake f' = wake f /\ signal_changed f' = signal_changed f /\
  signal f' = signal f.

Lemma publish_inputs to cs f : same_inputs f (publish to cs f).
Proof. unfold publish, same_inputs. by case_decide. Qed.

Lemma publish_steering to cs f : steering (publish to cs f) = steering f.
Proof. unfold publish. by case_decide. Qed.

Lemma publish_signal to cs f : signal (publish to cs f) = signal f.
Proof. apply publish_inputs. Qed.

Lemma settle_inputs asked f : same_inputs f (settle asked f).
Proof. unfold settle, same_inputs. by case_decide. Qed.

Lemma settle_steering asked f : steering (settle asked f) = steering f.
Proof. unfold settle. by case_decide. Qed.

Lemma absorbing_inputs e f : same_inputs f (absorbing e f).
Proof. done. Qed.

Lemma advance_inputs f w w' f' : advance f w = Some (w', f') -> same_inputs f f'.
Proof.
  intros Hadv. unfold advance in Hadv.
  destruct (sending f) eqn:Hs; [by simplify_eq|]. unfold_pc in Hadv.
  destruct (pc f) eqn:Hpc; try done; break_in Hadv; simplify_eq/=; try done;
    first [apply publish_inputs|apply settle_inputs
      |match goal with |- context [match ?x with _ => _ end] => by destruct x end].
Qed.

Lemma advance_pc_inputs f w w' f' :
  sending f = None -> advance_pc f w = Some (w', f') -> same_inputs f f'.
Proof. intros Hs Hadv. apply (advance_inputs f w w'). unfold advance. by rewrite Hs. Qed.

Lemma inputs_left_same f f' : same_inputs f f' -> inputs_left f' = inputs_left f.
Proof. unfold inputs_left. by intros (-> & -> & -> & _). Qed.

(** The ways to progress without touching an input. *)
Lemma progress_stage f w n f' w' :
  same_inputs f f' -> moves_left f' <= moves_left f ->
  (moves_left f' = moves_left f -> transitions_left f' <= transitions_left f) ->
  stage_left (pc f') < stage_left (pc f) -> progress f w n f' w'.
Proof.
  intros Hin Hm Ht Hs. right. split; [by apply inputs_left_same|].
  destruct (decide (moves_left f' = moves_left f)) as [Heq|]; [right|left; lia].
  split; [done|]. specialize (Ht Heq).
  destruct (decide (transitions_left f' = transitions_left f)); [right|left; lia]. auto.
Qed.

Lemma progress_transition f w n f' w' :
  same_inputs f f' -> moves_left f' = moves_left f ->
  transitions_left f' < transitions_left f -> progress f w n f' w'.
Proof. intros Hin Hm Ht. right. split; [by apply inputs_left_same|]. auto. Qed.

Lemma progress_work f w n f' w' :
  same_inputs f f' -> moves_left f' <= moves_left f ->
  (moves_left f' = moves_left f -> transitions_left f' <= transitions_left f) ->
  stage_left (pc f') = stage_left (pc f) -> (exists n', work_left f' w' n' /\ n' < n) ->
  progress f w n f' w'.
Proof.
  intros Hin Hm Ht Hs Hw. right. split; [by apply inputs_left_same|].
  destruct (decide (moves_left f' = moves_left f)) as [Heq|]; [right|left; lia].
  split; [done|]. specialize (Ht Heq).
  destruct (decide (transitions_left f' = transitions_left f)); [right|left; lia]. auto.
Qed.

(** Writing a held epoch either moves the target, which spends a move, or
    changes nothing. *)
Lemma set_epoch_written e (i : Inner) : epoch (aim (desired (set_epoch e i).1)) = e.
Proof. unfold set_epoch. by case_decide. Qed.

Lemma differs_diag e : differs e e = 0.
Proof. unfold differs. by rewrite decide_True. Qed.

Lemma set_epoch_same e (i : Inner) :
  differs (epoch (aim (desired i))) e = 0 -> (set_epoch e i).1 = i.
Proof. unfold differs, set_epoch. by case_decide. Qed.

Lemma writing_moves e f f' :
  held (pc f) = Some e -> held (pc f') = None -> signal f' = signal f ->
  steering f' = (set_epoch e (steering f)).1 ->
  moves_left f' <= moves_left f /\
  (moves_left f' = moves_left f -> steering f' = steering f).
Proof.
  intros Hf Hf' Hs Hi. unfold moves_left. rewrite Hf, Hf', Hs, Hi, set_epoch_written.
  split; [lia|]. intros Heq. apply set_epoch_same. lia.
Qed.

(** *** One instruction *)

(** A step to a later program point that writes no epoch. *)
Ltac stage_progress Hpc :=
  apply progress_stage;
  [done
  |unfold moves_left; simpl; rewrite ?publish_steering, ?publish_signal, Hpc; simpl;
   rewrite ?differs_diag; lia
  |intros _; unfold transitions_left; simpl; rewrite ?publish_steering, Hpc; simpl; auto with lia
  |rewrite Hpc; simpl; lia].

(** A step that writes the epoch it held. *)
Ltac writing_progress rule e f Hpc :=
  match goal with |- progress _ _ _ ?g _ =>
    destruct (writing_moves e f g) as [Hm Hsame]; [by rewrite Hpc|done..|];
    apply rule; [done|done| |rewrite Hpc; simpl; lia|..];
    [intros Heq; specialize (Hsame Heq); simpl in Hsame; unfold transitions_left; simpl;
     by rewrite Hsame, Hpc|..]
  end.

Lemma supervise_progress f w n w' f' :
  calm (pc f) = true -> sending f = None ->
  advance_pc f w = Some (w', f') -> progress f w n f' w'.
Proof.
  intros Hcalm Hs Hadv.
  pose proof (advance_pc_inputs _ _ _ _ Hs Hadv) as Hin.
  unfold_pc in Hadv. destruct (pc f) eqn:Hpc; try done; simplify_eq/=.
  - stage_progress Hpc.
  - stage_progress Hpc.
  - writing_progress progress_stage e f Hpc.
  - destruct (plan _ _) as [s|] eqn:Hp; simplify_eq/=; [|stage_progress Hpc].
    apply progress_transition; [done|..].
    + unfold moves_left. simpl. rewrite Hpc. simpl.
      destruct s as [a cs|[]|]; simpl; try done. by destruct (epoch a).
    + unfold transitions_left at 2. rewrite Hpc. by apply rank_run.
  - assert (forall i, desired (settle_rest stamp i).1 = desired i /\
                      committed (settle_rest stamp i).1 = committed i) as Hrest.
    { intros i. unfold settle_rest. by case_decide. }
    destruct (Hrest (steering f)) as [Hd Hc].
    apply progress_stage; [done|..]; unfold moves_left, transitions_left; simpl;
      rewrite ?Hd, ?Hc, Hpc; simpl; auto with lia.
  - unfold settle in *. case_decide; stage_progress Hpc.
  - destruct for_good; simplify_eq/=; [|stage_progress Hpc].
    unfold settle in *. case_decide; stage_progress Hpc.
Qed.

Lemma load_progress f w n w' f' :
  shaped f -> sending f = None -> work_left f w n ->
  match pc f with
  | Launching _ _ | PublishLoading _ _ | Activating _ _ _ | LandingLoad _ _ _
  | ActivationLanded _ _ | PublishEffects _ | Resampling _ | Resampled _ _ | NextStep _
  | PublishActive _ | LoadFailing _ _ _ | LoadFailed _ _ => True
  | _ => False
  end ->
  advance_pc f w = Some (w', f') -> progress f w n f' w'.
Proof.
  intros Hsh Hs Hw Hload Hadv.
  pose proof (advance_pc_inputs _ _ _ _ Hs Hadv) as Hin.
  pose proof (shape_flying _ Hsh) as Hf. unfold_pc in Hadv.
  destruct (pc f) eqn:Hpc; try done; simpl in Hf; simplify_eq/=.
  - unfold launch in Hadv. rewrite Hf in Hadv. simplify_eq/=. stage_progress Hpc.
  - stage_progress Hpc.
  - destruct Hw as (k & Hk & ->). rewrite Hpc in Hk. simpl in Hk. rewrite Hs.
    destruct inbox; simplify_eq/=.
    + apply progress_work; [done|..].
      * unfold moves_left. simpl. rewrite Hpc. simpl. rewrite differs_diag. lia.
      * intros _. unfold transitions_left. simpl. by rewrite Hpc.
      * by rewrite Hpc.
      * exists 2. split; [|lia]. exists 1. simpl. by rewrite Hs.
    + writing_progress progress_work e f Hpc. exists 0. split; [|lia]. exists 0. simpl. by rewrite Hs.
  - destruct r; simplify_eq/=; stage_progress Hpc.
  - apply progress_stage; [done|..].
    + unfold moves_left. simpl. rewrite Hpc. simpl. lia.
    + intros _. unfold transitions_left. simpl. rewrite Hpc. apply rank_activated.
    + rewrite Hpc. simpl. lia.
  - stage_progress Hpc.
  - stage_progress Hpc.
  - writing_progress progress_stage e f Hpc.
  - destruct (plan _ _); stage_progress Hpc.
  - stage_progress Hpc.
  - stage_progress Hpc.
  - apply progress_stage; [done|..].
    + unfold moves_left. simpl. rewrite Hpc. simpl. lia.
    + intros _. unfold transitions_left. simpl. rewrite Hpc. apply rank_activation_failed.
    + rewrite Hpc. simpl. lia.
Qed.

Lemma draining_progress f w n w' f' full after inbox phases :
  sending f = None -> work_left f w n -> pc f = Draining full after inbox phases ->
  advance_pc f w = Some (w', f') -> progress f w n f' w'.
Proof.
  intros Hs (k & Hk & ->) Hpc Hadv. rewrite Hpc in Hk. simpl in Hk. rewrite Hs.
  pose proof (advance_pc_inputs _ _ _ _ Hs Hadv) as Hin.
  unfold_pc in Hadv. rewrite Hpc in Hadv. destruct inbox; simplify_eq/=.
  - destruct phases as [|[[eid label] d] phases]; simplify_eq/=; [stage_progress Hpc|].
    destruct (Programs.withdraw d w) as [w1 o]. simplify_eq/=.
    apply progress_work; [done|..].
    + unfold moves_left. simpl. rewrite Hpc. simpl. destruct (is_done o); simpl; lia.
    + intros _. unfold transitions_left. simpl. rewrite Hpc. by destruct (is_done o).
    + by rewrite Hpc.
    + exists (2 * (3 * length phases)). split; [|lia]. exists (3 * length phases). simpl.
      split; [lia|]. destruct (is_done o); simpl; rewrite Hs; lia.
  - apply progress_work; [done|..].
    + unfold moves_left. simpl. rewrite Hpc. simpl. rewrite differs_diag. lia.
    + intros _. unfold transitions_left. simpl. by rewrite Hpc.
    + by rewrite Hpc.
    + exists (2 * (3 * length phases + 1)). split; [|lia]. eexists. split; [done|]. simpl.
      rewrite Hs. lia.
  - writing_progress progress_work e f Hpc.
    exists (2 * (3 * length phases)). split; [|lia]. exists (3 * length phases). simpl.
    rewrite Hs. lia.
Qed.

Lemma undoing_progress f w n w' f' full after inbox t :
  sending f = None -> work_left f w n -> pc f = Undoing full after inbox t ->
  advance_pc f w = Some (w', f') -> progress f w n f' w'.
Proof.
  intros Hs (k0 & Hk & ->) Hpc Hadv. rewrite Hpc in Hk.
  destruct Hk as (k & w1 & s1 & report & Hturns & ->). rewrite Hs.
  pose proof (advance_pc_inputs _ _ _ _ Hs Hadv) as Hin.
  unfold_pc in Hadv. rewrite Hpc in Hadv. destruct inbox; simplify_eq/=.
  - destruct k as [|k]; [done|]. simpl in Hturns.
    destruct (turn (if full then Replaying else Suspending) t w) as [w2 [t2|s2 report2]];
      simplify_eq/=; [|stage_progress Hpc].
    apply progress_work; [done|..].
    + unfold moves_left. simpl. rewrite Hpc. simpl. lia.
    + intros _. unfold transitions_left. simpl. by rewrite Hpc.
    + by rewrite Hpc.
    + exists (2 * (3 * k)). split; [|lia]. exists (3 * k). simpl. rewrite Hs. split; [|lia].
      exists k, w1, s1, report. split; [done|lia].
  - apply progress_work; [done|..].
    + unfold moves_left. simpl. rewrite Hpc. simpl. rewrite differs_diag. lia.
    + intros _. unfold transitions_left. simpl. by rewrite Hpc.
    + by rewrite Hpc.
    + exists (2 * (3 * k + 1)). split; [|lia]. exists (3 * k + 1). simpl. rewrite Hs.
      split; [|lia]. by exists k, w1, s1, report.
  - writing_progress progress_work e f Hpc.
    exists (2 * (3 * k)). split; [|lia]. exists (3 * k). simpl. rewrite Hs. split; [|lia].
    exists k, w1, s1, report. split; [done|lia].
Qed.

(** The verdicts on a report. *)
Ltac judged :=
  match goal with after : After |- _ => destruct after end; simpl;
  unfold unload_landed, disposal_landed;
  repeat match goal with
  | |- context [disposing ?d || suspending ?d] => destruct (disposing d || suspending d)
  | |- context [is_clean ?r] => destruct (is_clean r)
  end; simpl.

Lemma unload_progress f w n w' f' :
  sending f = None ->
  match pc f with
  | PublishUnloading _ | FaultUnload | FaultCommit _ | PublishFaultUnloading
  | PublishFaultFailed | Finishing | Withdrawing _ _ | Replayed _ _ | Withdrawn _ _
  | Landed _ _ | Judging _ _ | Failing _ _ _ | Committing _ _ | PublishLanded _ _ => True
  | _ => False
  end ->
  advance_pc f w = Some (w', f') -> progress f w n f' w'.
Proof.
  intros Hs Hun Hadv.
  pose proof (advance_pc_inputs _ _ _ _ Hs Hadv) as Hin.
  unfold_pc in Hadv. destruct (pc f) eqn:Hpc; try done; simplify_eq/=.
  - stage_progress Hpc.
  - stage_progress Hpc.
  - apply progress_stage; [done|..].
    + unfold moves_left. simpl. rewrite Hpc. simpl. lia.
    + intros _. unfold transitions_left. simpl. rewrite Hpc. by apply rank_not_active.
    + rewrite Hpc. simpl. lia.
  - stage_progress Hpc.
  - stage_progress Hpc.
  - stage_progress Hpc.
  - destruct (drains (roots (scope f))) as [phases rs]. simplify_eq/=. stage_progress Hpc.
  - stage_progress Hpc.
  - stage_progress Hpc.
  - stage_progress Hpc.
  - apply progress_stage; [done|..].
    + unfold moves_left. simpl. rewrite Hpc. simpl. judged; lia.
    + intros _. unfold transitions_left at 2. rewrite Hpc. simpl.
      unfold transitions_left. simpl. judged;
        first [by apply rank_not_active|lia|unfold rank at 1, plan; simpl; lia].
    + rewrite Hpc. simpl. judged; lia.
  - stage_progress Hpc.
  - stage_progress Hpc.
  - stage_progress Hpc.
Qed.

Lemma advance_progress f w n w' f' :
  shaped f -> work_left f w n -> advance f w = Some (w', f') -> progress f w n f' w'.
Proof.
  intros Hsh Hw Hadv. pose proof (advance_inputs _ _ _ _ Hadv) as Hin.
  unfold advance in Hadv. destruct (sending f) as [to|] eqn:Hs.
  - simplify_eq/=. destruct Hw as (k & Hk & ->). rewrite Hs. apply progress_work; try done.
    exists (2 * k). split; [|lia]. exists k. split; [done|]. simpl. lia.
  - destruct (calm (pc f)) eqn:Hcalm; [by apply supervise_progress|].
    pose proof (load_progress f w n w' f' Hsh Hs Hw) as Hload.
    pose proof (unload_progress f w n w' f' Hs) as Hun.
    destruct (pc f) eqn:Hpc; try done; auto.
    + unfold advance_pc, supervise_pc in Hadv. by rewrite Hpc in Hadv.
    + by eapply draining_progress.
    + by eapply undoing_progress.
Qed.

(** ** Inputs on their way *)

Lemma sum_list_insert {A} (g : A -> nat) (l : list A) i x y :
  l !! i = Some x -> sum_list_with g (<[i := y]> l) + g x = sum_list_with g l + g y.
Proof.
  revert i. induction l as [|z l IH]; intros i Hi; [done|].
  destruct i as [|i]; simpl in *; [simplify_eq; lia|]. specialize (IH i Hi). lia.
Qed.

(** An instruction of a caller uses up weight of its own. *)
Lemma call_step_weight t f t' f' :
  call_step t f = Some (t', f') ->
  sum_list_with micro_weight (todo t') + (if wake f' then 1 else 0) <
    sum_list_with micro_weight (todo t) + (if wake f then 1 else 0) /\
  callers f' = callers f /\ signal_changed f' = signal_changed f.
Proof.
  unfold call_step. intros Hc.
  destruct (todo t) as [|m ms]; [done|].
  destruct m; simpl in *;
    repeat match type of Hc with
    | context [fault ?x ?y] => destruct (fault x y) as [i acts]
    | context [decide ?P] => destruct (decide P)
    end; simplify_eq/=; (split; [|done]); try lia.
  - destruct acts; simpl; lia.
Qed.

Lemma enabled_progress e w f n :
  shaped f -> work_left f w n -> enabled e (w, f) = true ->
  progress f w n (fiber_step e (w, f)).2 (fiber_step e (w, f)).1.
Proof.
  intros Hsh Hw He. destruct e as [| | |next rs outcome dropped|e|c|k|w'']; simpl in He; try done.
  - simpl. destruct (advance f w) as [[w' f']|] eqn:Ha; [|done]. simpl.
    by eapply advance_progress.
  - left. simpl. unfold take_wake. destruct (sending f); [done|].
    destruct (noticing (pc f)); [|done]. rewrite He. unfold inputs_left. simpl. rewrite He. lia.
  - left. simpl. unfold take_signal. destruct (sending f); [done|].
    destruct (noticing (pc f)); [|done]. rewrite He. unfold inputs_left. simpl. rewrite He. lia.
  - simpl. unfold activation_settles. destruct (sending f) eqn:Hs; [done|].
    destruct (pc f) eqn:Hpc; try done. destruct inbox; try done. stage_progress Hpc.
  - left. simpl. destruct (callers f !! k) as [t|] eqn:Ht; [|done].
    destruct (call_step t f) as [[t' f']|] eqn:Hc; [|done]. simpl.
    apply call_step_weight in Hc as (Hlt & Hcs & Hsig). unfold inputs_left. simpl.
    rewrite Hcs, Hsig.
    pose proof (sum_list_insert (fun t => sum_list_with micro_weight (todo t)) _ _ _ t' Ht).
    simpl in *. lia.
Qed.

(** ** Every silent run ends *)

Lemma silence_ends_from inputs moves transitions stage work f w :
  inputs_left f = inputs -> moves_left f = moves -> transitions_left f = transitions ->
  stage_left (pc f) = stage -> work_left f w work -> shaped f ->
  Acc (fun s' s => silent_step s s') (w, f).
Proof.
  revert moves transitions stage work f w.
  induction inputs as [inputs IHi] using lt_wf_ind. intros moves.
  induction moves as [moves IHm] using lt_wf_ind. intros transitions.
  induction transitions as [transitions IHt] using lt_wf_ind. intros stage.
  induction stage as [stage IHs] using lt_wf_ind. intros work.
  induction work as [work IHw] using lt_wf_ind.
  intros f w Hi Hm Ht Hs Hw Hsh. constructor. intros [w' f'] (e & He & Hstep).
  pose proof (enabled_progress e w f work Hsh Hw He) as Hp.
  pose proof (shaped_step e w f Hsh) as Hsh'. rewrite <-Hstep in Hp, Hsh'. simpl in *.
  destruct (work_left_exists f' w') as [n Hn].
  destruct Hp as [Hp|(Hi' & [Hp|(Hm' & [Hp|(Ht' & [Hp|(Hs' & n' & Hn' & Hp)])])])].
  - eapply (IHi (inputs_left f')); [lia|done..].
  - eapply (IHm (moves_left f')); [lia|lia|done..].
  - eapply (IHt (transitions_left f')); [lia|lia|lia|done..].
  - eapply (IHs (stage_left (pc f'))); [lia|lia|lia|lia|done..].
  - eapply (IHw n'); [lia|lia|lia|lia|lia|done..].
Qed.

Lemma silence_ends_shaped f w : shaped f -> Acc (fun s' s => silent_step s s') (w, f).
Proof.
  intros Hsh. destruct (work_left_exists f w) as [n Hn].
  by eapply silence_ends_from.
Qed.
End Silence.

(** ** Nothing is lost on the way

    A target that moved, a probe that was taken and a signal that changed are
    either seen by the supervisor before it waits, or announced to it. *)

(** What is left of a call. *)
Inductive todo_ok : list micro -> Prop :=
  | TodoNothing : todo_ok []
  | TodoAwait : todo_ok [MAwait]
  | TodoNotify : todo_ok [MNotify]
  | TodoNotifyAwait : todo_ok [MNotify; MAwait]
  | TodoQuiesce : todo_ok quiesce_program
  | TodoRestart c : todo_ok [MRestart c; MNotify]
  | TodoDrop : todo_ok [MDispose; MNotify]
  | TodoSuspend : todo_ok (MSuspend :: quiesce_program)
  | TodoDispose : todo_ok (MDispose :: quiesce_program)
  | TodoFault inc : todo_ok [MFault inc]
  | TodoReport e inc : todo_ok [MFail e; MFault inc].

Lemma call_program_ok fiber c : todo_ok (call_program fiber c).
Proof. destruct c; constructor. Qed.

Section Heard.
Context {W : Type}.
Implicit Types (f : Fiber W) (w : W) (t : caller).

(** A wake-up is there, or will be. *)
Definition pending f : Prop :=
  wake f = true \/ exists t, t ∈ callers f /\ MNotify ∈ todo t.

(** Whether the supervisor acknowledges a probe of [a] before it waits. *)
Definition will_read (p : Pc W) (a : Z) : Prop :=
  match p with
  | Asked b | Sampled b _ | Synced b | Settling b _ _ | Acknowledging b _ => (a <= b)%Z
  | Acknowledged _ | Waiting | Stopped | Panicked => False
  | _ => True
  end.

Definition signal_heard (p : Pc W) f : Prop :=
  match p with
  | Sampled _ e => e = signal f \/ signal_changed f = true
  | Synced _ | Settling _ _ _ | Acknowledging _ _ | Acknowledged _ | Waiting =>
      epoch (aim (desired (steering f))) = signal f \/ signal_changed f = true
  | _ => True
  end.

Definition rest_heard (p : Pc W) f : Prop :=
  match p with
  | Settling _ stamp _ => moved (steering f) = stamp \/ pending f
  | Acknowledging _ _ | Acknowledged _ | Waiting => resting (steering f) = true \/ pending f
  | _ => True
  end.

Definition asked_heard f t : Prop :=
  (MAwait ∈ todo t -> MProbe ∉ todo t -> (asked_for t <= probe f)%Z) /\
  (todo t = [MAwait] ->
   pending f \/ (asked_for t <= settled f)%Z \/ will_read (pc f) (asked_for t)).

Record heard f : Prop := {
  heard_todo t : t ∈ callers f -> todo_ok (todo t);
  heard_asked t : t ∈ callers f -> asked_heard f t;
  heard_rest : rest_heard (pc f) f;
  heard_signal : signal_heard (pc f) f;
  heard_stopped : pc f = Stopped -> (u64_max <= settled f)%Z;
}.

(** A step of the supervisor. *)
Lemma heard_frame f f' :
  heard f -> same_inputs f f' -> probe f' = probe f ->
  (forall a, (a <= probe f)%Z ->
   (a <= settled f)%Z \/ will_read (pc f) a -> (a <= settled f')%Z \/ will_read (pc f') a) ->
  rest_heard (pc f') f' -> signal_heard (pc f') f' ->
  (pc f' = Stopped -> (u64_max <= settled f')%Z) -> heard f'.
Proof.
  intros [H1 H2 H3 H4 H5] (Hc & Hw & Hch & Hsig) Hp Hread Hr Hs Hst.
  assert (pending f -> pending f') as Hpend by (unfold pending; by rewrite Hc, Hw).
  constructor; rewrite ?Hc; try done.
  intros t Ht. destruct (H2 t Ht) as [Ha Hb]. unfold asked_heard. rewrite Hp. split; [done|].
  intros Htodo. destruct (Hb Htodo) as [?|Hb']; [auto|]. right. apply Hread; [|done].
  apply Ha; rewrite Htodo; set_solver.
Qed.

(** A transition goes on, or ends on top of the loop. *)
Lemma busy_frame f w w' f' :
  in_transition (pc f) = true -> advance_pc f w = Some (w', f') ->
  back_on_top (pc f') = true /\ probe f' = probe f /\ settled f' = settled f.
Proof.
  intros Hin Hadv. unfold_pc in Hadv.
  destruct (pc f) eqn:Hpc; try done; break_in Hadv; simplify_eq/=; try done;
    try (match goal with
         | |- context [publish ?to ?c f] => destruct (publish_frame to c f) as (_ & ? & ? & _)
         end; done);
    unfold unload_landed, disposal_landed;
    repeat match goal with |- context [match ?x with _ => _ end] => destruct x; simpl end;
    try done.
Qed.

Lemma heard_open f f' :
  heard f -> same_inputs f f' -> back_on_top (pc f') = true -> pc f' <> Panicked ->
  probe f' = probe f -> heard f'.
Proof.
  intros Hh Hin Hb Hp Hpr.
  assert (forall a, will_read (pc f') a) as Hw by (intros a; by destruct (pc f')).
  apply (heard_frame f); try done; [by right|by destruct (pc f')..].
Qed.

Lemma heard_advance n f w w' f' :
  (0 <= n < u64_max)%Z -> served n f -> shaped f -> heard f ->
  advance f w = Some (w', f') -> heard f'.
Proof.
  intros Hn Hsv Hsh Hh Hadv. pose proof (advance_inputs _ _ _ _ Hadv) as Hin.
  pose proof (served_probe _ _ Hsv) as Hpr. pose proof (served_rest _ _ Hsv) as Hsr.
  pose proof (advance_shaped _ _ _ _ Hsh Hadv) as Hsh'.
  pose proof (heard_rest _ Hh) as Hr. pose proof (heard_signal _ Hh) as Hs.
  pose proof (heard_stopped _ Hh) as Hst. unfold advance in Hadv.
  destruct (sending f) as [to|] eqn:Hsend; [simplify_eq/=; apply (heard_frame f); auto|].
  destruct (in_transition (pc f)) eqn:Htr.
  { destruct (busy_frame _ _ _ _ Htr Hadv) as (Hb & Hp & _). apply (heard_open f); try done.
    intros Hpa. pose proof (shape_pc _ Hsh') as Hat. by rewrite Hpa in Hat. }
  unfold_pc in Hadv. destruct (pc f) eqn:Hpc; try done; simplify_eq/=.
  - apply (heard_frame f); rewrite ?Hpc; try done. simpl. intros; by right.
  - apply (heard_frame f); rewrite ?Hpc; try done. simpl. by left.
  - apply (heard_frame f); rewrite ?Hpc; try done. simpl. by rewrite set_epoch_written.
  - destruct (plan _ _) as [s|]; simplify_eq/=.
    + apply (heard_open f); try done; [apply run_busy|]. simpl. unfold run. by repeat case_match.
    + apply (heard_frame f); rewrite ?Hpc; try done. simpl. by left.
  - unfold settle_rest in *. case_decide as Hmoved; simpl in *;
      apply (heard_frame f); rewrite ?Hpc; try done; simpl; [by left|].
    destruct Hr; [done|by right].
  - unfold settle in *. case_decide; apply (heard_frame f); rewrite ?Hpc; try done;
      simpl; intros a Ha [?|?]; left; lia.
  - destruct for_good; simplify_eq/=.
    + unfold settle in *. case_decide; apply (heard_frame f); rewrite ?Hpc; try done; simpl;
        intros; left; lia.
    + apply (heard_frame f); rewrite ?Hpc; try done.
Qed.

Lemma pending_mono f f' :
  callers f' = callers f -> (wake f = true -> wake f' = true) -> pending f -> pending f'.
Proof. unfold pending. intros -> Hw [?|?]; auto. Qed.

(** Taking an input: the supervisor goes back to the top of its loop, or to a
    point of its transition. *)
Lemma noticing_open (p p' : Pc W) :
  noticing p = Some p' -> back_on_top p' = true /\ p' <> Panicked.
Proof. unfold noticing. by repeat case_match; intros [= <-]. Qed.

Lemma heard_take f e changed permit p :
  heard f -> noticing (pc f) = Some p -> heard (goto p (with_inputs e changed permit f)).
Proof.
  intros [H1 H2 H3 H4 H5] Hn. apply noticing_open in Hn as [Hb Hp].
  constructor; simpl; try done; try (by destruct p).
  intros t Ht. destruct (H2 t Ht) as [Ha _]. split; [done|]. intros _. right; right.
  simpl. by destruct p.
Qed.

(** An instruction of a caller that leaves a wake-up pending. *)
Lemma heard_pending f f' k t t' :
  heard f -> callers f !! k = Some t -> callers f' = <[k := t']> (callers f) ->
  todo_ok (todo t') -> pending f' -> pc f' = pc f -> settled f' = settled f ->
  (probe f <= probe f')%Z ->
  (MAwait ∈ todo t' -> MProbe ∉ todo t' -> (asked_for t' <= probe f')%Z) ->
  signal f' = signal f -> signal_changed f' = signal_changed f ->
  epoch (aim (desired (steering f'))) = epoch (aim (desired (steering f))) ->
  heard f'.
Proof.
  intros [H1 H2 H3 H4 H5] Hk Hc Hok Hpend Hpc Hset Hpr Hasked Hsig Hch Hep.
  assert (forall x, x ∈ callers f' -> x = t' \/ x ∈ callers f) as Hin.
  { intros x. rewrite Hc. intros [i Hi]%list_elem_of_lookup.
    apply list_lookup_insert_Some in Hi as [(_ & <- & _)|[_ Hi]]; [by left|right].
    by eapply list_elem_of_lookup_2. }
  constructor; rewrite ?Hpc, ?Hset; try done.
  - intros x [->|Hx]%Hin; auto.
  - intros x [->|Hx]%Hin; (split; [|by left]); [done|]. intros Ha Hm.
    destruct (H2 x Hx) as [Hp _]. specialize (Hp Ha Hm). lia.
  - unfold rest_heard. destruct (pc f); auto.
  - unfold signal_heard in *. destruct (pc f); rewrite ?Hep, ?Hsig, ?Hch; done.
Qed.

(** One that moves nothing and announces nothing. *)
Lemma heard_quiet_call f f' k t t' :
  heard f -> callers f !! k = Some t -> callers f' = <[k := t']> (callers f) ->
  MNotify ∉ todo t -> todo_ok (todo t') -> MAwait ∉ todo t' ->
  pc f' = pc f -> settled f' = settled f -> probe f' = probe f -> wake f' = wake f ->
  signal f' = signal f -> signal_changed f' = signal_changed f -> steering f' = steering f ->
  heard f'.
Proof.
  intros [H1 H2 H3 H4 H5] Hk Hc Hno Hok Haw Hpc Hset Hpr Hw Hsig Hch Hst.
  assert (forall x, x ∈ callers f' -> x = t' \/ x ∈ callers f) as Hin.
  { intros x. rewrite Hc. intros [i Hi]%list_elem_of_lookup.
    apply list_lookup_insert_Some in Hi as [(_ & <- & _)|[_ Hi]]; [by left|right].
    by eapply list_elem_of_lookup_2. }
  assert (pending f -> pending f') as Hpend.
  { unfold pending. rewrite Hw. intros [?|(x & Hx & Hm)]; [by left|right]. exists x.
    split; [|done]. rewrite Hc. apply list_elem_of_lookup in Hx as [i Hi].
    apply list_elem_of_lookup. exists i. rewrite list_lookup_insert_ne; [done|].
    intros ->. congruence. }
  constructor; rewrite ?Hpc, ?Hset; try done.
  - intros x [->|Hx]%Hin; auto.
  - intros x [->|Hx]%Hin; [split; [done|]; intros Hx; rewrite Hx in Haw; set_solver|].
    destruct (H2 x Hx) as [Hp Hq]. unfold asked_heard. rewrite Hpr, Hset, Hpc.
    split; [done|]. intros Ht. destruct (Hq Ht); auto.
  - unfold rest_heard in *. destruct (pc f); rewrite ?Hst; naive_solver.
  - unfold signal_heard in *. destruct (pc f); rewrite ?Hst, ?Hsig, ?Hch; done.
Qed.

(** A target write announces itself: the notification is the caller's next
    instruction but few. *)
Lemma pending_insert f k t t' i :
  callers f !! k = Some t -> MNotify ∈ todo t' ->
  pending (with_callers (<[k := t']> (callers f)) (with_steering i f)).
Proof.
  intros Hk Hm. right. exists t'. simpl. split; [|done].
  apply list_elem_of_lookup. exists k. apply list_lookup_insert_eq.
  by eapply lookup_lt_Some.
Qed.

Lemma heard_call_step n f k t t' f' :
  (0 <= n < u64_max)%Z -> served n f -> heard f -> callers f !! k = Some t ->
  call_step t f = Some (t', f') -> heard (with_callers (<[k := t']> (callers f')) f').
Proof.
  intros Hn Hsv Hh Hk Hc. pose proof (served_probe _ _ Hsv) as Hpr.
  pose proof (list_elem_of_lookup_2 _ _ _ Hk) as Hin.
  pose proof (heard_todo _ Hh t Hin) as Hok. pose proof (heard_asked _ Hh t Hin) as [Hask _].
  unfold call_step in Hc. inversion Hok as [Ht|Ht|Ht|Ht|Ht|c Ht|Ht|Ht|Ht|inc Ht|e inc Ht];
    rewrite <-Ht in *; simplify_eq/=.
  - case_decide; simplify_eq. apply (heard_quiet_call f' _ k t (MkCaller (called t) [] (asked_for t)));
      try done; [rewrite <-Ht|constructor|]; set_solver.
  - eapply (heard_pending f _ k t); try done; [simpl; constructor|by left|set_solver].
  - eapply (heard_pending f _ k t); try done; [simpl; constructor|by left|].
    simpl. intros _ _. apply Hask; set_solver.
  - eapply (heard_pending f _ k t); try done; [simpl; constructor| | |]; simpl.
    + by apply (pending_insert f k t _ (steering f)); [|set_solver].
    + rewrite wrapping_add_small; unfold is_u64, u64_max in *; lia.
    + intros _ _. rewrite wrapping_add_small; unfold is_u64, u64_max in *; lia.
  - eapply (heard_pending f _ k t); try done; [simpl; constructor| |set_solver].
    by apply (pending_insert f k t); [|set_solver].
  - eapply (heard_pending f _ k t); try done; [simpl; constructor| |set_solver|].
    + by apply (pending_insert f k t); [|set_solver].
    + simpl. unfold dispose. by case_match.
  - eapply (heard_pending f _ k t); try done; [simpl; constructor| |set_solver|].
    + by apply (pending_insert f k t); [|set_solver].
    + simpl. unfold suspend. by case_match.
  - eapply (heard_pending f _ k t); try done; [simpl; constructor| |set_solver|].
    + by apply (pending_insert f k t); [|set_solver].
    + simpl. unfold dispose. by case_match.
  - unfold fault in Hc. case_decide; simplify_eq/=.
    + eapply (heard_quiet_call f _ k t); try done; [rewrite <-Ht|constructor|]; set_solver.
    + eapply (heard_pending f _ k t); try done; [simpl; constructor| |set_solver].
      by apply (pending_insert f k t); [|set_solver].
  - eapply (heard_quiet_call f _ k t); try done; [rewrite <-Ht|constructor|]; set_solver.
Qed.

Lemma heard_call f c :
  heard f ->
  heard (with_callers (callers f ++ [MkCaller c (call_program (id f) c) 0]) f).
Proof.
  intros [H1 H2 H3 H4 H5]. set (t := MkCaller c (call_program (id f) c) 0).
  assert (pending f -> pending (with_callers (callers f ++ [t]) f)) as Hpend.
  { intros [?|(x & Hx & Hm)]; [by left|right]. exists x. split; [set_solver|done]. }
  assert (forall x, x ∈ callers f ++ [t] -> x = t \/ x ∈ callers f) as Hin by set_solver.
  constructor; simpl; try done.
  - intros x [->|Hx]%Hin; [apply call_program_ok|auto].
  - intros x [->|Hx]%Hin.
    + split; [destruct c; simpl; set_solver|by destruct c].
    + destruct (H2 x Hx) as [Ha Hb]. split; [done|]. intros Ht. simpl. destruct (Hb Ht); auto.
  - unfold rest_heard in *. destruct (pc f); naive_solver.
Qed.

Lemma heard_step n e w f :
  (0 <= n < u64_max)%Z -> served n f -> shaped f -> heard f -> heard (fiber_step e (w, f)).2.
Proof.
  intros Hn Hsv Hsh Hh. destruct e as [| | |next rs outcome dropped|e|c|k|w']; simpl.
  - destruct (advance f w) as [[w' f']|] eqn:Ha; [|done]. by eapply heard_advance.
  - unfold take_wake. destruct (sending f), (wake f), (noticing (pc f)) eqn:Hp; try done.
    by apply heard_take.
  - unfold take_signal. destruct (sending f), (signal_changed f), (noticing (pc f)) eqn:Hp;
      try done. by apply heard_take.
  - unfold activation_settles. destruct (sending f); [done|]. destruct (pc f) eqn:Hpc; try done.
    destruct inbox; try done. by apply (heard_open f).
  - destruct Hh as [H1 H2 H3 H4 H5]. constructor; simpl; try done.
    unfold signal_heard. simpl. destruct (pc f); auto.
  - by apply heard_call.
  - destruct (callers f !! k) as [t|] eqn:Hk; [|done].
    destruct (call_step t f) as [[t' f']|] eqn:Hc; [|done]. by eapply heard_call_step.
  - done.
Qed.

Lemma spawn_heard fiber e : heard (spawn (W := W) fiber e).
Proof. constructor; try done; intros t; set_solver. Qed.

Lemma run_heard es w fiber e :
  (Z.of_nat (length es) < u64_max)%Z ->
  let f := (fiber_run es (w, spawn (W := W) fiber e)).2 in
  shaped f /\ served (Z.of_nat (length es)) f /\ heard f.
Proof.
  intros Hlen. apply (run_invariant (fun n f => shaped f /\ served n f /\ heard f) u64_max).
  - split_and!; [apply spawn_shaped|apply spawn_served|apply spawn_heard].
  - intros n e' w' f Hn (Hsh & Hsv & Hh).
    split_and!; [by apply shaped_step|by apply served_step|by eapply heard_step].
  - lia.
Qed.

(** *** Where nothing is left to happen *)

Lemma silent_waits w f :
  shaped f -> silent (w, f) ->
  sending f = None /\ (pc f = Waiting /\ wake f = false /\ signal_changed f = false \/
                       pc f = Stopped).
Proof.
  intros Hsh Hsil. pose proof (Hsil Advance) as Ha. pose proof (Hsil TakeWake) as Hw.
  pose proof (Hsil TakeSignal) as Hs.
  pose proof (Hsil (ActivationSettles 0 [] (inl (Ok tt)) None)) as Hact.
  pose proof (shape_pc _ Hsh) as Hat. simpl in *. unfold advance in Ha.
  destruct (sending f); [done|]. split; [done|].
  destruct (advance_pc f w) as [|] eqn:Hadv; [done|]. unfold_pc in Hadv.
  destruct (pc f) eqn:Hpc; try done; simpl in *; auto; break_in Hadv; simplify_eq/=; done.
Qed.

Lemma stopped_silent (s : W * Fiber W) :
  pc s.2 = Stopped -> sending s.2 = None -> Forall (fun t => todo t = []) (callers s.2) ->
  silent s.
Proof.
  destruct s as [w f]. simpl. intros Hpc Hs Hcs [| | |next rs outcome dropped|e|c|k|w']; simpl; try done;
    rewrite ?Hs, ?Hpc; try done.
  - unfold advance. rewrite Hs. unfold advance_pc, supervise_pc. by rewrite Hpc.
  - destruct (callers f !! k) as [t|] eqn:Ht; [|done]. rewrite Forall_lookup in Hcs.
    specialize (Hcs _ _ Ht). simpl in Hcs. unfold call_step. by rewrite Hcs.
Qed.

Lemma silent_callers n w f :
  (n <= u64_max)%Z -> shaped f -> served n f -> heard f -> silent (w, f) ->
  Forall (fun t => todo t = []) (callers f).
Proof.
  intros Hn Hsh Hsv Hh Hsil. destruct (silent_waits w f Hsh Hsil) as (_ & Hpc).
  assert (forall t, t ∈ callers f -> call_step t f = None) as Hblocked.
  { intros t [k Hk]%list_elem_of_lookup. pose proof (Hsil (CallerStep k)) as He. simpl in He.
    rewrite Hk in He. by destruct (call_step t f). }
  assert (forall t, t ∈ callers f -> todo t = [] \/ todo t = [MAwait]) as Htodo.
  { intros t Ht. specialize (Hblocked t Ht). pose proof (heard_todo _ Hh t Ht) as Hok.
    unfold call_step in Hblocked. inversion Hok as [Ht'|Ht'|Ht'|Ht'|Ht'|c Ht'|Ht'|Ht'|Ht'|i Ht'|x i Ht'];
      rewrite <-Ht' in *; auto; try done. by destruct (fault i (steering f)). }
  apply Forall_forall. intros t Ht. destruct (Htodo t Ht) as [|Haw]; [done|]. exfalso.
  specialize (Hblocked t Ht). unfold call_step in Hblocked. rewrite Haw in Hblocked.
  case_decide as Hset; [done|]. apply Hset.
  destruct (heard_asked _ Hh t Ht) as [Hp Hq].
  assert (asked_for t <= probe f)%Z as Hle by (apply Hp; rewrite Haw; set_solver).
  destruct (Hq Haw) as [[Hw|(x & Hx & Hm)]|[Hr|Hr]]; [| |done|].
  - destruct Hpc as [(_ & Hw' & _)|Hpc]; [congruence|].
    pose proof (heard_stopped _ Hh Hpc). pose proof (served_probe _ _ Hsv). lia.
  - destruct (Htodo x Hx) as [Hx'|Hx']; rewrite Hx' in Hm; set_solver.
  - destruct Hpc as [(Hpc & _)|Hpc]; by rewrite Hpc in Hr.
Qed.

Lemma silent_rest w f :
  heard f -> Forall (fun t => todo t = []) (callers f) -> silent (w, f) ->
  sending f = None -> pc f = Waiting ->
  resting (steering f) = true /\ epoch (aim (desired (steering f))) = signal f.
Proof.
  intros Hh Hcs Hsil Hs Hpc.
  pose proof (Hsil TakeWake) as Hw. pose proof (Hsil TakeSignal) as Hc. simpl in *.
  rewrite Hs, Hpc in Hw, Hc. simpl in *.
  pose proof (heard_rest _ Hh) as Hr. pose proof (heard_signal _ Hh) as Hsig.
  rewrite Hpc in Hr, Hsig. simpl in *. split.
  - destruct Hr as [|[Hw'|(t & Ht & Hm)]]; [done|congruence|].
    rewrite Forall_forall in Hcs. rewrite (Hcs t Ht) in Hm. set_solver.
  - destruct Hsig; [done|congruence].
Qed.
End Heard.

(** ** Rest *)

(** C3: A fiber that is left alone comes to rest, and every caller returns.
    From any state it can reach, once no new call, signal or world change
    arrives, its own steps (supervisor, inputs on their way, activation,
    callers) come to an end in whatever order they are taken; and where none
    is left, every call has returned, nothing is owed to the target, and the
    supervisor waits with the rest bit up and the latest signal in its target,
    or has stopped because the fiber is over. *)
Theorem silence_brings_rest {W} (fiber : FiberId) (e : option Epoch) (w : W)
    (es : list (event W)) :
  (Z.of_nat (length es) < u64_max)%Z ->
  let s := fiber_run es (w, spawn fiber e) in
  Acc (fun s' s => silent_step s s') s /\
  (silent s ->
   Forall (fun t => todo t = []) (callers s.2) /\ sending s.2 = None /\
   plan (committed (steering s.2)) (desired (steering s.2)) = None /\
   ((pc s.2 = Waiting /\ resting (steering s.2) = true /\
     epoch (aim (desired (steering s.2))) = signal s.2) \/
    (pc s.2 = Stopped /\ gone (committed (steering s.2))))).
Proof.
  intros Hlen s. pose proof (run_heard es w fiber e Hlen) as (Hsh & Hsv & Hh).
  fold s in Hsh, Hsv, Hh. destruct s as [w' f]. simpl in *.
  split; [by apply silence_ends_shaped|]. intros Hsil.
  destruct (silent_waits w' f Hsh Hsil) as (Hs & Hpc).
  assert (Forall (fun t => todo t = []) (callers f)) as Hcs.
  { eapply (silent_callers (Z.of_nat (length es))); [lia|done..]. }
  split_and!; [done|done|..].
  - destruct Hpc as [(Hpc & _)|Hpc].
    + by destruct (silent_rest _ _ Hh Hcs Hsil Hs Hpc) as [Hr%(served_rest _ _ Hsv) _], Hr.
    + eapply gone_plan; [done|]. pose proof (served_over _ _ Hsv) as Ho. rewrite Hpc in Ho.
      by destruct Ho.
  - destruct Hpc as [(Hpc & _)|Hpc]; [left|right]; (split; [done|]).
    + by eapply silent_rest.
    + pose proof (served_over _ _ Hsv) as Ho. rewrite Hpc in Ho. by destruct Ho.
Qed.

Lemma silence_brings_rest_witness :
  let s := fiber_run (Lifetime.activates ++ Lifetime.disposes ++ Lifetime.finishes)
    (100%Z, spawn Lifetime.fiber (Some (MkEpoch []))) in
  callers s.2 <> [] /\ Forall (fun t => todo t = []) (callers s.2) /\
  pc s.2 = Stopped /\ gone (committed (steering s.2)).
Proof.
  intros s. destruct (silence_brings_rest Lifetime.fiber (Some (MkEpoch [])) 100%Z
    (Lifetime.activates ++ Lifetime.disposes ++ Lifetime.finishes)) as [_ Hrest].
  { vm_compute. reflexivity. }
  assert (pc s.2 = Stopped) as Hpc by (vm_compute; reflexivity).
  assert (sending s.2 = None) as Hs by (vm_compute; reflexivity).
  assert (callers s.2 = [MkCaller CallDispose [] 1]) as Hc by (vm_compute; reflexivity).
  assert (silent s) as Hsil.
  { apply (stopped_silent s); [exact Hpc|exact Hs|]. rewrite Hc. repeat constructor. }
  destruct (Hrest Hsil) as (Hcs & _ & _ & [[Hw _]|Hend]).
  - fold s in Hw. rewrite Hpc in Hw. discriminate.
  - rewrite Hc. split_and!; [discriminate|by rewrite <-Hc|exact Hpc|apply Hend].
Defined.
