(* ===== verification/Context.v ===== *)
(** * The context tree

    [crates/jinnd-context/src/{key,layer,derive,context,resolve}.rs]: interned
    names and realms, the frozen layers of a context, how a child context is
    derived, and the walk that resolves a service within its realm. *)

From stdpp Require Import base gmap sets list strings pretty sorting.
From S2P Require Import Prelude Api.

(** ** Interning ([key.rs]) *)

Record NameId := MkNameId { name_id : Z }.
Record RealmId := MkRealmId { realm_id : Z }.

#[export] Instance NameId_eq_dec : EqDecision NameId.
Proof. solve_decision. Defined.
#[export] Instance RealmId_eq_dec : EqDecision RealmId.
Proof. solve_decision. Defined.
#[export] Instance NameId_countable : Countable NameId.
Proof. apply (inj_countable' name_id MkNameId); by intros []. Defined.
#[export] Instance RealmId_countable : Countable RealmId.
Proof. apply (inj_countable' realm_id MkRealmId); by intros []. Defined.

Definition ROOT : RealmId := MkRealmId 0.

Definition is_root_realm (r : RealmId) : bool := bool_decide (r = ROOT).

Record ServiceKey := MkServiceKey { key_name : NameId; key_type_id : option TypeId }.

#[export] Instance ServiceKey_eq_dec : EqDecision ServiceKey.
Proof. solve_decision. Defined.

Definition typed (name : NameId) (type_id : TypeId) : ServiceKey := MkServiceKey name (Some type_id).
Definition dynamic (name : NameId) : ServiceKey := MkServiceKey name None.
Definition is_typed (k : ServiceKey) : bool := bool_decide (is_Some (key_type_id k)).

(** The two interners have one shape: a map to dense identities, and the
    values in the order they were first seen. *)
Record Table (K : Type) `{Countable K} := MkTable { forward : gmap K Z; backward : list K }.
Arguments MkTable {K _ _}.
Arguments forward {K _ _}.
Arguments backward {K _ _}.

Section Interning.
Context {K : Type} `{Countable K}.
Implicit Types (t : Table K) (k : K).

Definition empty_table : Table K := MkTable ∅ [].

Definition table_intern t k : Z * Table K :=
  match forward t !! k with
  | Some i => (i, t)
  | None =>
      let i := Z.of_nat (length (backward t)) in
      (i, MkTable (<[k := i]> (forward t)) (backward t ++ [k]))
  end.

Definition table_value t (i : Z) : option K := backward t !! Z.to_nat i.
End Interning.

Definition NameTable := Table string.
Definition RealmTable := Table Realm.

(** [NameTable::intern], [NameTable::text]. *)
Definition intern_name (t : NameTable) (name : string) : NameId * NameTable :=
  let '(i, t) := table_intern t name in (MkNameId i, t).
Definition name_text (t : NameTable) (i : NameId) : option string := table_value t (name_id i).

(** [RealmTable::intern], [RealmTable::value], [RealmTable::new]. *)
Definition intern_realm (t : RealmTable) (realm : Realm) : RealmId * RealmTable :=
  let '(i, t) := table_intern t realm in (MkRealmId i, t).
Definition realm_value (t : RealmTable) (i : RealmId) : option Realm :=
  table_value t (realm_id i).
Definition new_realms : RealmTable := (intern_realm empty_table RealmRoot).2.

(** ** Layers ([layer.rs]) *)

(** [slice::binary_search_by_key]: halve the window, then compare once. *)
Fixpoint search_loop {V} (fuel : nat) (l : list (NameId * V)) (key : Z) (base size : nat) : nat :=
  match fuel with
  | 0 => base
  | S fuel =>
      if decide (size <= 1) then base
      else
        let half := size / 2 in
        let mid := base + half in
        let base :=
          match l !! mid with
          | Some (bound, _) => if decide (key < name_id bound)%Z then base else mid
          | None => base
          end in
        search_loop fuel l key base (size - half)
  end.

Definition binary_search {V} (l : list (NameId * V)) (key : NameId) : option nat :=
  match l with
  | [] => None
  | _ =>
      let i := search_loop (length l) l (name_id key) 0 (length l) in
      match l !! i with
      | Some (bound, _) => if decide (bound = key) then Some i else None
      | None => None
      end
  end.

(** Entries in key order: [sort_unstable_by_key] on distinct keys. *)
Definition key_le {V} (a b : NameId * V) : Prop := (name_id a.1 <= name_id b.1)%Z.

#[export] Instance key_le_dec {V} : RelDecision (@key_le V).
Proof. intros a b. unfold key_le. apply _. Defined.
#[export] Instance key_le_total {V} : Total (@key_le V).
Proof. intros a b. unfold key_le. lia. Qed.
#[export] Instance key_le_trans {V} : Transitive (@key_le V).
Proof. intros a b c. unfold key_le. lia. Qed.

Definition sort_by_key {V} (l : list (NameId * V)) : list (NameId * V) := merge_sort key_le l.

Inductive Layer (I : Type) : Type := MkLayer {
  layer_id : ContextId;
  depth : Z;
  parent : option (Layer I);
  isolation : list (NameId * RealmId);
  intercept : list (NameId * I);
}.
Arguments MkLayer {I}. Arguments layer_id {I}. Arguments depth {I}. Arguments parent {I}.
Arguments isolation {I}. Arguments intercept {I}.

Section Layers.
Context {I : Type}.
Implicit Types (l : Layer I) (key name : NameId).

(** [Layer::new]; no chain has the [2^32] layers that would overflow [depth]. *)
Definition layer_new (id : ContextId) (p : option (Layer I)) (iso : list (NameId * RealmId))
    (icpt : list (NameId * I)) : Layer I :=
  MkLayer id (match p with Some p => (depth p + 1)%Z | None => 0%Z end) p
    (sort_by_key iso) (sort_by_key icpt).

Definition own_realm l key : option RealmId :=
  i ← binary_search (isolation l) key; snd <$> isolation l !! i.

Definition own_intercept l key : option I :=
  i ← binary_search (intercept l) key; snd <$> intercept l !! i.

(** [Context::realm_of]: the nearest binding on the chain. *)
Fixpoint realm_of (l : Layer I) (name : NameId) {struct l} : RealmId :=
  match own_realm l name with
  | Some realm => realm
  | None =>
      match l with
      | MkLayer _ _ (Some p) _ _ => realm_of p name
      | MkLayer _ _ None _ _ => ROOT
      end
  end.

(** [InterceptChain]: every overlay on the chain, nearest first. *)
Fixpoint intercept_chain (l : Layer I) (name : NameId) {struct l} : list I :=
  let rest :=
    match l with
    | MkLayer _ _ (Some p) _ _ => intercept_chain p name
    | MkLayer _ _ None _ _ => []
    end in
  match own_intercept l name with Some value => value :: rest | None => rest end.

Definition intercept_of l name : option I := head (intercept_chain l name).

(** [Context::ancestors]: nearest first, ending at the root. *)
Fixpoint ancestors (l : Layer I) : list (Layer I) :=
  match l with
  | MkLayer _ _ (Some p) _ _ => p :: ancestors p
  | MkLayer _ _ None _ _ => []
  end.

(** [Context::is_ancestor_of], within one tree. *)
Definition is_ancestor_of l (other : Layer I) : bool :=
  bool_decide (depth l < depth other)%Z &&
  existsb (fun a => bool_decide (layer_id a = layer_id l)) (ancestors other).
End Layers.

(** ** Deriving ([derive.rs]) and the tree ([context.rs]) *)

Record ContextTree (I : Type) := MkTree {
  next_id : Z;
  names : NameTable;
  realms : RealmTable;
  root : Layer I;
}.
Arguments MkTree {I}. Arguments next_id {I}. Arguments names {I}. Arguments realms {I}.
Arguments root {I}.



Record Derive (I : Type) := MkDerive {
  derive_parent : Layer I;
  derive_isolation : list (NameId * RealmId);
  derive_intercept : list (NameId * I);
}.
Arguments MkDerive {I}. Arguments derive_parent {I}. Arguments derive_isolation {I}.
Arguments derive_intercept {I}.

(** [replace_or_push]: the last binding of a key wins, in place. *)
Fixpoint replace_or_push {V} (entries : list (NameId * V)) (key : NameId) (value : V)
    : list (NameId * V) :=
  match entries with
  | [] => [(key, value)]
  | (bound, v) :: entries =>
      if decide (bound = key) then (bound, value) :: entries
      else (bound, v) :: replace_or_push entries key value
  end.

Section Trees.
Context {I : Type}.
Implicit Types (t : ContextTree I) (d : Derive I) (l : Layer I).

Definition new_tree : ContextTree I :=
  MkTree 1 empty_table new_realms (layer_new (MkContextId 0) None [] []).

Definition tree_name t (name : string) : NameId * ContextTree I :=
  let '(i, n) := intern_name (names t) name in (i, MkTree (next_id t) n (realms t) (root t)).

Definition tree_realm t (realm : Realm) : RealmId * ContextTree I :=
  let '(i, r) := intern_realm (realms t) realm in (i, MkTree (next_id t) (names t) r (root t)).

Definition key_for t (service : ServiceType) : ServiceKey * ContextTree I :=
  let '(n, t) := tree_name t (service_name service) in (typed n (service_type_id service), t).

Definition dynamic_key t (name : string) : ServiceKey * ContextTree I :=
  let '(n, t) := tree_name t name in (dynamic n, t).

Definition derive l : Derive I := MkDerive l [] [].

Definition isolate d (key : NameId) (realm : RealmId) : Derive I :=
  MkDerive (derive_parent d) (replace_or_push (derive_isolation d) key realm)
    (derive_intercept d).

Definition overlay d (key : NameId) (value : I) : Derive I :=
  MkDerive (derive_parent d) (derive_isolation d)
    (replace_or_push (derive_intercept d) key value).

Definition bind t d (b : IsolationBinding) : Derive I * ContextTree I :=
  let '(name, t) := tree_name t (binding_service b) in
  let '(realm, t) := tree_realm t (binding_realm b) in
  (isolate d name realm, t).

Fixpoint bind_all t d (bs : list IsolationBinding) : Derive I * ContextTree I :=
  match bs with
  | [] => (d, t)
  | b :: bs => let '(d, t) := bind t d b in bind_all t d bs
  end.

(** [Derive::build]: an identity is drawn, and the layer is frozen. *)
Definition build t d : Layer I * ContextTree I :=
  (layer_new (MkContextId (next_id t)) (Some (derive_parent d)) (derive_isolation d)
     (derive_intercept d),
   MkTree (wrapping_add (next_id t) 1) (names t) (realms t) (root t)).
End Trees.

(** ** Resolution ([resolve.rs]) *)

Inductive Probe (T : Type) := Provided (value : T) | Declared | Absent.
Arguments Provided {T}. Arguments Declared {T}. Arguments Absent {T}.

Record Resolved (T : Type) := MkResolved {
  res_value : T;
  res_key : ServiceKey;
  res_caller : ContextId;
  res_provider : ContextId;
  res_realm : RealmId;
}.
Arguments MkResolved {T}. Arguments res_value {T}. Arguments res_key {T}.
Arguments res_caller {T}. Arguments res_provider {T}. Arguments res_realm {T}.

Definition quote : string := String (Ascii.ascii_of_nat 34) EmptyString.

Section Resolution.
Context {I : Type}.
Implicit Types (l : Layer I).

(** [ResolutionFrames]: the walk goes on to a parent only while the parent
    resolves the name in the same realm. *)
Fixpoint frames_from (l : Layer I) (name : NameId) (realm : RealmId) : list (Layer I) :=
  l :: match l with
       | MkLayer _ _ (Some p) _ _ =>
           if decide (realm_of p name = realm) then frames_from p name realm else []
       | MkLayer _ _ None _ _ => []
       end.

Definition resolution_frames l (key : ServiceKey) : list (Layer I) :=
  frames_from l (key_name key) (realm_of l (key_name key)).

(** [Context::error]: the name's text, or its identity when it has none. *)
Definition resolve_error (t : ContextTree I) (c : ErrorCode) (key : ServiceKey)
    (before after : string) : KernelError :=
  let name :=
    match name_text (names t) (key_name key) with
    | Some name => name
    | None => "<name NameId(" +:+ pretty (name_id (key_name key)) +:+ ")>"
    end in
  MkKernelError c (before +:+ quote +:+ name +:+ quote +:+ after) None.

(** The probe is [FnMut]: it carries its own state [S] from frame to frame. *)
Fixpoint resolve_walk {S T} (probe : Layer I -> S -> Probe T * S) (t : ContextTree I)
    (key : ServiceKey) (caller : ContextId) (realm : RealmId) (frames : list (Layer I)) (s : S)
    : result (Resolved T) KernelError * S :=
  match frames with
  | [] =>
      (Err (resolve_error t MissingDependency key "no provider for service "
              " is reachable from this context"), s)
  | frame :: frames =>
      match probe frame s with
      | (Provided value, s) => (Ok (MkResolved value key caller (layer_id frame) realm), s)
      | (Declared, s) =>
          (Err (resolve_error t InactiveContext key "cannot resolve required service "
                  " in an inactive context"), s)
      | (Absent, s) => resolve_walk probe t key caller realm frames s
      end
  end.

Definition resolve {S T} (probe : Layer I -> S -> Probe T * S) (t : ContextTree I) l
    (key : ServiceKey) (s : S) : result (Resolved T) KernelError * S :=
  resolve_walk probe t key (layer_id l) (realm_of l (key_name key)) (resolution_frames l key) s.
End Resolution.

(** ** Lemmas *)

Section InterningLemmas.
Context {K : Type} `{Countable K}.
Implicit Types (t : Table K) (k : K).

(** The two halves of a table are inverses. *)
Definition table_wf t : Prop :=
  forall k i, forward t !! k = Some i <-> (0 <= i)%Z /\ backward t !! Z.to_nat i = Some k.

Lemma empty_table_wf : table_wf (empty_table (K := K)).
Proof. intros k i. simpl. rewrite lookup_empty, lookup_nil. naive_solver. Qed.

Lemma table_intern_spec t k i t' :
  table_wf t -> table_intern t k = (i, t') ->
  table_wf t' /\ (0 <= i)%Z /\ table_value t' i = Some k /\
  exists new, backward t' = backward t ++ new.
Proof.
  intros Hwf Hi. unfold table_intern in Hi. destruct (forward t !! k) as [j|] eqn:Hk.
  - injection Hi as -> ->. apply Hwf in Hk as [? Hk]. split_and!; try done.
    exists []. by rewrite app_nil_r.
  - injection Hi as <- <-. split_and!; [|lia| |by eexists].
    + intros k' j. simpl. destruct (decide (k = k')) as [<-|Hne].
      * rewrite lookup_insert_eq. split.
        -- intros [= <-]. split; [lia|]. rewrite Nat2Z.id. apply lookup_app_last.
        -- intros [Hj Hl]. f_equal. apply lookup_app_Some in Hl as [Hl|[Hle Hl]].
           ++ exfalso. assert (forward t !! k = Some j) as Hq by (by apply Hwf). congruence.
           ++ apply list_lookup_singleton_Some in Hl as [Hl _]. lia.
      * rewrite lookup_insert_ne by done. rewrite (Hwf k' j). split; intros [Hj Hl]; split; try done.
        -- by apply lookup_app_l_Some.
        -- apply lookup_app_Some in Hl as [Hl|[_ Hl]]; [done|].
           apply list_lookup_singleton_Some in Hl as [_ ?]. congruence.
    + unfold table_value. simpl. rewrite Nat2Z.id. apply lookup_app_last.
Qed.

Lemma table_value_inj t k k' i :
  table_value t i = Some k -> table_value t i = Some k' -> k = k'.
Proof. congruence. Qed.
End InterningLemmas.

Section SearchLemmas.
Context {V : Type}.
Implicit Types (l es : list (NameId * V)) (key : NameId).

Definition increasing l : Prop :=
  forall i j a b, l !! i = Some a -> l !! j = Some b -> (i < j)%nat ->
    (name_id a.1 < name_id b.1)%Z.

Lemma search_loop_finds fuel l key v base size j :
  increasing l -> l !! j = Some (key, v) -> size <= fuel ->
  base + size <= length l -> base <= j < base + size ->
  search_loop fuel l (name_id key) base size = j.
Proof.
  intros Hinc Hj. revert base size. induction fuel as [|fuel IH]; intros base size Hf Hlen Hjr.
  { lia. }
  cbn [search_loop]. case_decide as Hs; [lia|].
  assert (Hh : 1 <= size / 2 /\ size / 2 < size).
  { split; [apply Nat.div_le_lower_bound; lia|apply Nat.div_lt; lia]. }
  pose proof (Nat.Div0.mul_div_le size 2) as H2.
  destruct (lookup_lt_is_Some_2 l (base + size / 2)) as [[b bv] Hb]; [lia|]. rewrite Hb.
  case_decide as Hlt.
  - apply IH; try lia. split; [lia|].
    destruct (decide (j < base + size / 2)) as [|Hge]; [lia|exfalso].
    destruct (decide (j = base + size / 2)) as [->|Hne];
      [rewrite Hj in Hb; injection Hb as -> ->; lia|].
    pose proof (Hinc _ _ _ _ Hb Hj ltac:(lia)). simpl in *. lia.
  - apply IH; try lia. split; [|lia].
    destruct (decide (base + size / 2 <= j)) as [|Hlt2]; [lia|exfalso].
    pose proof (Hinc _ _ _ _ Hj Hb ltac:(lia)). simpl in *. lia.
Qed.

Definition binary_lookup l key : option V := i ← binary_search l key; snd <$> l !! i.

Lemma binary_lookup_spec l key v :
  increasing l -> binary_lookup l key = Some v <-> (key, v) ∈ l.
Proof.
  intros Hinc. unfold binary_lookup, binary_search. split.
  - destruct l as [|e l]; [done|]. set (i := search_loop _ _ _ _ _).
    destruct ((e :: l) !! i) as [[b bv]|] eqn:Hi; [|done]. case_decide as Hb; [|done].
    simpl. rewrite Hi. simpl. intros [= <-]. subst b. by eapply list_elem_of_lookup_2.
  - intros [j Hj]%list_elem_of_lookup. destruct l as [|e l]; [done|].
    pose proof (lookup_lt_Some _ _ _ Hj) as Hlt.
    rewrite (search_loop_finds _ _ key v 0 _ j) by (done || lia).
    rewrite Hj. rewrite decide_True by done. simpl. by rewrite Hj.
Qed.

Lemma sort_increasing l : NoDup l.*1 -> increasing (sort_by_key l).
Proof.
  intros Hnd i j a b Ha Hb Hij. unfold sort_by_key in *.
  pose proof (StronglySorted_merge_sort key_le l) as Hs.
  pose proof (merge_sort_Permutation key_le l) as Hp.
  assert (key_le a b) as Hle by (eapply StronglySorted_lookup; eauto).
  assert (name_id a.1 <> name_id b.1); [|unfold key_le in *; lia].
  intros Heq. assert (a.1 = b.1) as Hk.
  { destruct (a.1), (b.1). simpl in *. by subst. }
  rewrite <-Hp in Hnd.
  assert ((merge_sort key_le l).*1 !! i = Some a.1) as H1 by (by rewrite list_lookup_fmap, Ha).
  assert ((merge_sort key_le l).*1 !! j = Some b.1) as H2 by (by rewrite list_lookup_fmap, Hb).
  rewrite Hk in H1. pose proof (NoDup_lookup _ _ _ _ Hnd H1 H2). lia.
Qed.

(** A frozen layer answers as the finite map of its bindings does. *)
Lemma sorted_lookup l key :
  NoDup l.*1 -> binary_lookup (sort_by_key l) key = list_to_map (M := gmap NameId V) l !! key.
Proof.
  intros Hnd. apply option_eq. intros v.
  rewrite binary_lookup_spec by (by apply sort_increasing).
  rewrite <-elem_of_list_to_map by done.
  unfold sort_by_key. by rewrite merge_sort_Permutation.
Qed.

Lemma replace_or_push_map es key v :
  list_to_map (M := gmap NameId V) (replace_or_push es key v) =
    <[key := v]> (list_to_map es).
Proof.
  induction es as [|[b w] es IH]; [done|]. simpl. case_decide as Hb; simpl.
  - subst. by rewrite insert_insert_eq.
  - rewrite IH. by rewrite insert_insert_ne.
Qed.

Lemma replace_or_push_keys es key v k :
  k ∈ (replace_or_push es key v).*1 <-> k = key \/ k ∈ es.*1.
Proof.
  induction es as [|[b w] es IH]; simpl; [set_solver|].
  case_decide as Hb; simpl; subst; set_solver.
Qed.

Lemma replace_or_push_NoDup es key v : NoDup es.*1 -> NoDup (replace_or_push es key v).*1.
Proof.
  induction es as [|[b w] es IH]; simpl; [intros _; apply NoDup_singleton|].
  rewrite NoDup_cons. intros [Hb Hnd]. case_decide as Hk; simpl; apply NoDup_cons; [done|].
  split; [|auto]. rewrite replace_or_push_keys. naive_solver.
Qed.
End SearchLemmas.

Section ChainLemmas.
Context {I : Type}.
Implicit Types (l p : Layer I) (name : NameId).

Lemma realm_of_step l name :
  realm_of l name =
    match own_realm l name with
    | Some realm => realm
    | None => match parent l with Some p => realm_of p name | None => ROOT end
    end.
Proof. destruct l as [id d [p|] iso icpt]; done. Qed.

Lemma intercept_chain_step l name :
  intercept_chain l name =
    option_list (own_intercept l name) ++
    match parent l with Some p => intercept_chain p name | None => [] end.
Proof.
  destruct l as [id d [p|] iso icpt]; simpl;
    by destruct (own_intercept (MkLayer id d _ iso icpt) name).
Qed.

Lemma ancestors_step l :
  ancestors l = match parent l with Some p => p :: ancestors p | None => [] end.
Proof. destruct l as [id d [p|] iso icpt]; done. Qed.

(** Induction along the chain of parents. *)
Fixpoint layer_induction (P : Layer I -> Prop)
    (Hstep : forall l, (forall p, parent l = Some p -> P p) -> P l) (l : Layer I) : P l :=
  Hstep l (match l as l return forall p, parent l = Some p -> P p with
           | MkLayer id d (Some q) iso icpt => fun p H =>
               match H in _ = o return match o with Some p => P p | None => True end with
               | eq_refl => layer_induction P Hstep q
               end
           | MkLayer id d None iso icpt => fun p H =>
               match H in _ = o return match o with Some p => P p | None => True end with
               | eq_refl => Logic.I
               end
           end).

(** The isolation steps of a derivation, as the finite map they amount to. *)
Definition bindings {V} (bs : list (NameId * V)) : gmap NameId V :=
  fold_left (fun m b => <[b.1 := b.2]> m) bs ∅.

Lemma collected_bindings {V} (bs es : list (NameId * V)) :
  NoDup es.*1 ->
  let es' := fold_left (fun es b => replace_or_push es b.1 b.2) bs es in
  NoDup es'.*1 /\
  list_to_map es' = fold_left (fun m b => <[b.1 := b.2]> m) bs
                      (list_to_map es : gmap NameId V).
Proof.
  revert es. induction bs as [|[k v] bs IH]; intros es Hnd; [done|]. simpl.
  rewrite <-replace_or_push_map. apply IH. by apply replace_or_push_NoDup.
Qed.

Lemma frames_from_spec l name realm :
  realm_of l name = realm ->
  exists beyond, l :: ancestors l = frames_from l name realm ++ beyond /\
    Forall (fun f => realm_of f name = realm) (frames_from l name realm) /\
    match beyond with
    | [] => True
    | b :: _ => realm_of b name <> realm /\
        (exists f, last (frames_from l name realm) = Some f /\ own_realm f name = Some realm)
    end.
Proof.
  induction l as [l IH] using layer_induction. intros Hr.
  pose proof (realm_of_step l name) as Hstep. rewrite (ancestors_step l).
  destruct l as [id d [p|] iso icpt]; cbn [parent frames_from] in *.
  - case_decide as Hp.
    + destruct (IH p eq_refl Hp) as (beyond & Heq & Hall & Hb). exists beyond.
      split_and!; [by rewrite Heq|by constructor|].
      destruct beyond as [|b beyond]; [done|]. destruct Hb as (Hne & f & Hf & Hown).
      split; [done|]. exists f. split; [|done].
      by rewrite last_cons, Hf.
    + exists (p :: ancestors p). split_and!; [done|by constructor|done|].
      exists (MkLayer id d (Some p) iso icpt). split; [done|].
      rewrite Hr in Hstep. destruct (own_realm _ name); congruence.
  - exists []. split_and!; [done|by constructor|done].
Qed.

(** What one walk consults, and what decides it. *)
Lemma resolve_walk_spec {T} (probe : Layer I -> Probe T) t key caller realm frames
    (log : list (Layer I)) :
  exists seen rest, frames = seen ++ rest /\
    Forall (fun f => probe f = Absent) seen /\
    resolve_walk (fun f log => (probe f, log ++ [f])) t key caller realm frames log =
    match rest with
    | [] =>
        (Err (resolve_error t MissingDependency key "no provider for service "
                " is reachable from this context"), log ++ seen)
    | frame :: _ =>
        (match probe frame with
         | Provided v => Ok (MkResolved v key caller (layer_id frame) realm)
         | _ => Err (resolve_error t InactiveContext key "cannot resolve required service "
                       " in an inactive context")
         end, log ++ seen ++ [frame])
    end /\
    match rest with [] => True | frame :: _ => probe frame <> Absent end.
Proof.
  revert log. induction frames as [|f frames IH]; intros log; simpl.
  - exists [], []. split_and!; try done. by rewrite app_nil_r.
  - destruct (probe f) as [v| |] eqn:Hp.
    + exists [], (f :: frames). rewrite Hp. by split_and!.
    + exists [], (f :: frames). rewrite Hp. by split_and!.
    + destruct (IH (log ++ [f])) as (seen & rest & -> & Hall & Hres & Hne).
      exists (f :: seen), rest. split_and!; [done|by constructor| |done].
      rewrite Hres. destruct rest; by rewrite <-!app_assoc.
Qed.
End ChainLemmas.

(** ** Properties *)

(** Interning is a bijection that never forgets: after any sequence of
    names, two of them have one identity exactly when they are equal, and every
    identity reads back as the name it was drawn for. *)
Theorem interned_names_are_faithful (ns : list string) :
  let step s n := let '(ids, t) := s in let '(i, t) := intern_name t n in (ids ++ [i], t) in
  let '(ids, t) := fold_left step ns ([], empty_table) in
  length ids = length ns /\
  (forall j i n, ids !! j = Some i -> ns !! j = Some n -> name_text t i = Some n) /\
  (forall j k i i' n n', ids !! j = Some i -> ids !! k = Some i' ->
     ns !! j = Some n -> ns !! k = Some n' -> (i = i' <-> n = n')).
Proof.
  intros step.
  assert (H : let '(ids, t) := fold_left step ns ([], empty_table) in
    table_wf t /\ length ids = length ns /\
    forall j i n, ids !! j = Some i -> ns !! j = Some n ->
      (0 <= name_id i)%Z /\ name_text t i = Some n).
  { induction ns as [|n ns IH] using rev_ind.
    { simpl. split_and!; [apply empty_table_wf|done|]. intros j. by rewrite lookup_nil. }
    rewrite fold_left_app. simpl. destruct (fold_left step ns _) as [ids t].
    destruct IH as (Hwf & Hlen & Hall). unfold step, intern_name.
    destruct (table_intern t n) as [i t'] eqn:Hi.
    destruct (table_intern_spec t n i t' Hwf Hi) as (Hwf' & Hpos & Hval & new & Hnew).
    split_and!; [done|rewrite !length_app; simpl; lia|].
    intros j i' n' Hj Hn. apply lookup_app_Some in Hj as [Hj|[Hle Hj]].
    - rewrite lookup_app_l in Hn by (apply lookup_lt_Some in Hj; lia).
      destruct (Hall _ _ _ Hj Hn) as [? Ht]. split; [done|]. unfold name_text, table_value in *.
      rewrite Hnew. by apply lookup_app_l_Some.
    - apply list_lookup_singleton_Some in Hj as [Hj <-]. replace j with (length ns) in Hn by lia.
      rewrite lookup_app_last in Hn. by simplify_eq. }
  destruct (fold_left step ns _) as [ids t]. destruct H as (Hwf & Hlen & Hall).
  split_and!; [done|intros; by eapply Hall|].
  intros j k i i' n n' Hj Hk Hn Hn'. destruct (Hall _ _ _ Hj Hn) as [Hp Ht].
  destruct (Hall _ _ _ Hk Hn') as [Hp' Ht']. split; [intros ->; congruence|intros ->].
  unfold name_text, table_value in *.
  assert (forward t !! n' = Some (name_id i)) as H1 by (by apply Hwf).
  assert (forward t !! n' = Some (name_id i')) as H2 by (by apply Hwf).
  destruct i, i'. simpl in *. congruence.
Qed.

(** A derived context overrides its parent binding by binding: the sorted
    layer searched by halving answers as the finite map of the bindings made,
    the last one of a key winning, and a name it does not bind resolves where
    the parent resolves it. Overlays likewise: the child's comes first. *)
Theorem derived_context_overrides_its_parent {I} (t : ContextTree I) (p : Layer I)
    (iso : list (NameId * RealmId)) (icpt : list (NameId * I)) (name : NameId) :
  let d := fold_left (fun d b => overlay d b.1 b.2) icpt
             (fold_left (fun d b => isolate d b.1 b.2) iso (derive p)) in
  let l := (build t d).1 in
  parent l = Some p /\
  own_realm l name = bindings iso !! name /\
  realm_of l name = default (realm_of p name) (bindings iso !! name) /\
  intercept_chain l name = option_list (bindings icpt !! name) ++ intercept_chain p name.
Proof.
  intros d l.
  assert (Hd : d = MkDerive p (fold_left (fun es b => replace_or_push es b.1 b.2) iso [])
                     (fold_left (fun es b => replace_or_push es b.1 b.2) icpt [])).
  { unfold d.
    assert (Hiso : forall es ov, fold_left (fun d b => isolate d b.1 b.2) iso (MkDerive p es ov) =
      MkDerive p (fold_left (fun es b => replace_or_push es b.1 b.2) iso es) ov).
    { induction iso as [|b iso IH]; intros es ov; [done|]. simpl. apply IH. }
    assert (Hicpt : forall es ov, fold_left (fun d b => overlay d b.1 b.2) icpt (MkDerive p es ov) =
      MkDerive p es (fold_left (fun es b => replace_or_push es b.1 b.2) icpt ov)).
    { induction icpt as [|b icpt IH]; intros es ov; [done|]. simpl. apply IH. }
    unfold derive. by rewrite Hiso, Hicpt. }
  destruct (collected_bindings iso [] (NoDup_nil_2)) as [Hnd Hmap].
  destruct (collected_bindings icpt [] (NoDup_nil_2)) as [Hnd' Hmap'].
  assert (Hown : own_realm l name = bindings iso !! name).
  { unfold l, own_realm. rewrite Hd. simpl.
    pose proof (sorted_lookup _ name Hnd) as Hs. rewrite Hmap in Hs. exact Hs. }
  assert (Hov : own_intercept l name = bindings icpt !! name).
  { unfold l, own_intercept. rewrite Hd. simpl.
    pose proof (sorted_lookup _ name Hnd') as Hs. rewrite Hmap' in Hs. exact Hs. }
  assert (Hp : parent l = Some p) by (unfold l; by rewrite Hd).
  split_and!; [done|done| |].
  - rewrite realm_of_step, Hown, Hp. by destruct (bindings iso !! name).
  - by rewrite intercept_chain_step, Hov, Hp.
Qed.

(** Resolution never leaves its realm: the frames consulted are the longest
    run of the chain, from the caller up, that resolves the name in the
    caller's realm; when the walk stops short of the root, its last frame is
    the one that binds the name, and the frame above resolves elsewhere. *)
Theorem resolution_stays_in_its_realm {I} (l : Layer I) (key : ServiceKey) :
  let name := key_name key in
  let frames := resolution_frames l key in
  exists beyond, l :: ancestors l = frames ++ beyond /\
    Forall (fun f => realm_of f name = realm_of l name) frames /\
    match beyond with
    | [] => True
    | b :: _ => realm_of b name <> realm_of l name /\
        exists f, last frames = Some f /\ own_realm f name = Some (realm_of l name)
    end.
Proof. intros name frames. by apply frames_from_spec. Qed.

(** The nearest frame that knows the service decides: the walk asks the
    frames in order and stops at the first one that provides or declares it. A
    provider's value is charged to the caller, a declaration is
    [InactiveContext], and only when every frame of the realm knew nothing is it
    [MissingDependency]. *)
Theorem nearest_frame_decides {I T} (probe : Layer I -> Probe T) (t : ContextTree I)
    (l : Layer I) (key : ServiceKey) :
  exists seen rest, resolution_frames l key = seen ++ rest /\
    Forall (fun f => probe f = Absent) seen /\
    let '(answer, asked) := resolve (fun f log => (probe f, log ++ [f])) t l key [] in
    match rest with
    | [] => asked = seen /\ exists e, answer = Err e /\ code e = MissingDependency
    | frame :: _ => asked = seen ++ [frame] /\
        match probe frame with
        | Provided v =>
            answer = Ok (MkResolved v key (layer_id l) (layer_id frame)
                           (realm_of l (key_name key)))
        | Declared => exists e, answer = Err e /\ code e = InactiveContext
        | Absent => False
        end
    end.
Proof.
  destruct (resolve_walk_spec probe t key (layer_id l) (realm_of l (key_name key))
    (resolution_frames l key) []) as (seen & rest & Heq & Hall & Hres & Hne).
  exists seen, rest. split_and!; [done|done|]. unfold resolve. rewrite Hres.
  destruct rest as [|frame rest]; simpl; [eauto|].
  destruct (probe frame); split; eauto.
Qed.
