(* ===== verification/Registry.v ===== *)
(** * The service registry

    [crates/jinnd-registry/src/{leases,vitality,slots,store,registry,
    availability}.rs]: slots addressed by context, key and realm, the leases
    dependents hold on them, provision and its two-phase withdrawal, and the
    epoch a dependent is gated on.

    Lease and vitality cells are shared ([Arc]) between the slot map, the
    guards and the inverses, so they live in a store of cells and are referred
    to by index. *)

From stdpp Require Import base gmap sets list strings pretty.
From S2P Require Import Prelude Api Context.

(** ** Lease cells ([leases.rs]) *)

Record LeaseCell := MkLeaseCell { active : Z; closed : bool }.

Definition lease_new : LeaseCell := MkLeaseCell 0 false.

Definition acquire (c : LeaseCell) : LeaseCell * bool :=
  if closed c then (c, false) else (MkLeaseCell (active c + 1) (closed c), true).

Definition release (c : LeaseCell) : LeaseCell * Z :=
  let n := saturating_sub (active c) 1 in (MkLeaseCell n (closed c), n).

Definition close (c : LeaseCell) : LeaseCell * Z := (MkLeaseCell (active c) true, active c).

Definition is_drained (c : LeaseCell) : bool := closed c && bool_decide (active c = 0%Z).

(** ** Slots ([slots.rs]) *)

Record Address := MkAddress {
  addr_context : ContextId;
  addr_key : ServiceKey;
  addr_realm : RealmId;
}.

#[export] Instance Address_eq_dec : EqDecision Address.
Proof. solve_decision. Defined.
Definition address_code (a : Address) :=
  (addr_context a, key_name (addr_key a), key_type_id (addr_key a), addr_realm a).
#[export] Instance Address_countable : Countable Address.
Proof.
  apply (inj_countable' address_code
    (fun '(c, n, t, r) => MkAddress c (MkServiceKey n t) r)); by intros [? [] ?].
Defined.

(** [Arc<dyn Any>]: a value with the type it was stored at. *)
Record Any (V : Type) := MkAny { any_type : TypeId; any_value : V }.
Arguments MkAny {V}. Arguments any_type {V}. Arguments any_value {V}.

Record SlotEntry (V : Type) := MkSlotEntry {
  slot_provider : FiberId;
  slot_generation : Generation;
  slot_value : Any V;
  slot_leases : nat;
  slot_vitality : nat;
}.
Arguments MkSlotEntry {V}. Arguments slot_provider {V}. Arguments slot_generation {V}.
Arguments slot_value {V}. Arguments slot_leases {V}. Arguments slot_vitality {V}.

(** [Store] and [SlotMap], with the lease and vitality cells they share. *)
Record Store (V : Type) := MkStore {
  slots : gmap Address (SlotEntry V);
  generations : Z;
  cells : list LeaseCell;
  vitals : list bool;
  version : Z;
}.
Arguments MkStore {V}. Arguments slots {V}. Arguments generations {V}. Arguments cells {V}.
Arguments vitals {V}. Arguments version {V}.

Section Slots.
Context {V : Type}.
Implicit Types (s : Store V) (a : Address) (e : SlotEntry V).

Definition new_store : Store V := MkStore ∅ 0 [] [] 0.

Definition with_slots (m : gmap Address (SlotEntry V)) s : Store V :=
  MkStore m (generations s) (cells s) (vitals s) (version s).
Definition with_cells (cs : list LeaseCell) s : Store V :=
  MkStore (slots s) (generations s) cs (vitals s) (version s).

(** [Store::bump]. *)
Definition bump s : Store V :=
  MkStore (slots s) (generations s) (cells s) (vitals s) (wrapping_add (version s) 1).

(** [Registry::vitality] and [Vitality::report]. *)
Definition vitality (initially : bool) s : nat * Store V :=
  (length (vitals s),
   MkStore (slots s) (generations s) (cells s) (vitals s ++ [initially]) (version s)).

Definition report (v : nat) (active : bool) s : Store V :=
  bump (MkStore (slots s) (generations s) (cells s) (<[v := active]> (vitals s)) (version s)).

Definition close_cell (c : nat) s : Store V :=
  with_cells (alter (fun c => (close c).1) c (cells s)) s.

Definition release_cell (c : nat) s : Store V :=
  with_cells (alter (fun c => (release c).1) c (cells s)) s.

(** [SlotMap::insert], before its critical section: a generation is drawn
    and a lease cell allocated, whether or not the slot will be taken. *)
Definition draw (provider : FiberId) (value : Any V) (vital : nat) s : SlotEntry V * Store V :=
  (MkSlotEntry provider (MkGeneration (generations s + 1)) value (length (cells s)) vital,
   MkStore (slots s) (wrapping_add (generations s) 1) (cells s ++ [lease_new]) (vitals s)
     (version s)).

(** The critical section: another provider's slot is refused; the same
    provider's earlier entry is superseded and its leases closed. *)
Definition place a e s : Store V * result (SlotEntry V) FiberId :=
  match slots s !! a with
  | Some occupant =>
      if decide (slot_provider occupant = slot_provider e) then
        (close_cell (slot_leases occupant) (with_slots (<[a := e]> (slots s)) s), Ok e)
      else (s, Err (slot_provider occupant))
  | None => (with_slots (<[a := e]> (slots s)) s, Ok e)
  end.

Definition insert_slot a provider value vital s : Store V * result (SlotEntry V) FiberId :=
  let '(e, s) := draw provider value vital s in place a e s.

Definition get_slot a s : option (SlotEntry V) := slots s !! a.

(** [SlotMap::lease]: only of the very generation that was resolved. *)
Definition lease_slot a (g : Generation) s : Store V * option nat :=
  match slots s !! a with
  | None => (s, None)
  | Some e =>
      if decide (slot_generation e = g) then
        match cells s !! slot_leases e with
        | Some c =>
            let '(c, granted) := acquire c in
            if granted then
              (with_cells (<[slot_leases e := c]> (cells s)) s, Some (slot_leases e))
            else (s, None)
        | None => (s, None)
        end
      else (s, None)
  end.

Definition remove_if a (g : Generation) s : Store V * bool :=
  match slots s !! a with
  | Some e =>
      if decide (slot_generation e = g) then
        (close_cell (slot_leases e) (with_slots (delete a (slots s)) s), true)
      else (s, false)
  | None => (s, false)
  end.

(** [LeaseGuard::drop]. *)
Definition guard_drop (c : nat) s : Store V := bump (release_cell c s).

(** [withdraw_slot], up to its wait. *)
Definition withdraw_remove a (g : Generation) s : Store V :=
  let '(s, removed) := remove_if a g s in if removed then bump s else s.

Definition cell_drained (c : nat) s : bool :=
  match cells s !! c with Some c => is_drained c | None => false end.
End Slots.

(** ** Provision, resolution, leases ([registry.rs]) *)

Definition registry_error (c : ErrorCode) (m : string) : KernelError := MkKernelError c m None.

(** [ServiceHandle]. *)
Record ServiceHandle (V : Type) := MkServiceHandle {
  handle_service : V;
  handle_caller : ContextId;
  handle_provider : FiberId;
  handle_generation : Generation;
  handle_realm : Realm;
}.
Arguments MkServiceHandle {V}.

Section Registry.
Context {V I : Type}.
Implicit Types (s : Store V) (t : ContextTree I) (l site from : Layer I).

(** A named realm's slots are anchored at the tree's root; the root realm is
    positional. *)
Definition provide_address t site (realm : RealmId) (key : ServiceKey) : Address :=
  MkAddress (if is_root_realm realm then layer_id site else layer_id (root t)) key realm.

Definition provide t site (realm : Realm) (service : ServiceType) (provider : FiberId)
    (value : V) (vital : nat) s
    : ContextTree I * Store V * result (Address * SlotEntry V) KernelError :=
  let '(realm_id, t) := tree_realm t realm in
  let '(key, t) := key_for t service in
  let address := provide_address t site realm_id key in
  match insert_slot address provider (MkAny (service_type_id service) value) vital s with
  | (s, Err occupant) =>
      (t, s, Err (MkKernelError DuplicateProvision
        ("provision refused: the slot for " +:+ service_name service +:+
         " is occupied by provider fiber FiberId(" +:+ pretty (fiber_id occupant) +:+
         ") (Def 23, R9)") (Some provider)))
  | (s, Ok entry) => (t, bump s, Ok (address, entry))
  end.

Definition locate t from (key : ServiceKey) s : result (Address * SlotEntry V) KernelError :=
  let realm := realm_of from (key_name key) in
  if is_root_realm realm then
    let probe (frame : Layer I) (_ : ()) :=
      (match get_slot (MkAddress (layer_id frame) key realm) s with
       | Some entry => Provided entry
       | None => Absent
       end, ()) in
    match (resolve probe t from key ()).1 with
    | Ok resolved => Ok (MkAddress (res_provider resolved) key realm, res_value resolved)
    | Err e => Err e
    end
  else
    let address := MkAddress (layer_id (root t)) key realm in
    match get_slot address s with
    | Some entry => Ok (address, entry)
    | None =>
        Err (registry_error MissingDependency
               "no provider for the service is reachable in this realm")
    end.

(** [Registry::handle]: the downcast is checked. *)
Definition handle t from (type_id : TypeId) (a : Address) (e : SlotEntry V)
    : result (ServiceHandle V) KernelError :=
  if decide (any_type (slot_value e) = type_id) then
    Ok (MkServiceHandle (any_value (slot_value e)) (layer_id from) (slot_provider e)
          (slot_generation e) (default RealmRoot (realm_value (realms t) (addr_realm a))))
  else
    Err (registry_error EffectFailed
           "the stored provider value does not implement the resolved contract").

Definition registry_resolve t from (service : ServiceType) s
    : ContextTree I * result (ServiceHandle V) KernelError :=
  let '(key, t) := key_for t service in
  (t, match locate t from key s with
      | Ok (a, e) => handle t from (service_type_id service) a e
      | Err e => Err e
      end).

(** [Registry::lease]: a guard that is granted and then refused a handle is
    dropped, and gives its lease back. *)
Definition registry_lease t from (service : ServiceType) s
    : ContextTree I * Store V * result (ServiceHandle V * nat) KernelError :=
  let '(key, t) := key_for t service in
  match locate t from key s with
  | Err e => (t, s, Err e)
  | Ok (a, e) =>
      match lease_slot a (slot_generation e) s with
      | (s, None) =>
          (t, s, Err (registry_error MissingDependency
            "the resolved provider generation was withdrawn before the lease landed"))
      | (s, Some cell) =>
          match handle t from (service_type_id service) a e with
          | Ok h => (t, s, Ok (h, cell))
          | Err err => (t, guard_drop cell s, Err err)
          end
      end
  end.

(** ** Availability ([availability.rs]) *)

(** [compute]: the epoch is there only when every injected service is, at a
    provider whose vitality was last reported up. *)
Fixpoint compute t from (services : list ServiceType) s
    : ContextTree I * option Epoch :=
  match services with
  | [] => (t, Some (MkEpoch []))
  | service :: services =>
      let '(key, t) := key_for t service in
      match locate t from key s with
      | Err _ => (t, None)
      | Ok (a, e) =>
          if default false (vitals s !! slot_vitality e) then
            let snapshot :=
              MkDependencySnapshot service (slot_provider e) (slot_generation e)
                (default RealmRoot (realm_value (realms t) (addr_realm a))) in
            let '(t, rest) := compute t from services s in
            (t, (fun e => MkEpoch (snapshot :: dependencies e)) <$> rest)
          else (t, None)
      end
  end.
End Registry.

(** ** The registry under interleaving

    Providers, dependents and withdrawals are threads; each event below is one
    critical section. A provision is withdrawn by its drain phase, by its
    inverse, or by both in turn; [PLive] is a provision whose [insert] was
    accepted, whether or not a later one superseded it. *)

Inductive phase :=
  | PDrawn
  | PRefused
  | PLive
  | PRemoved (undoing : bool)
  | PClosed (undoing : bool)
  | PDrained
  | PDropped.

Record provision (V : Type) := MkProvision {
  prov_address : Address;
  prov_entry : SlotEntry V;
  prov_phase : phase;
}.
Arguments MkProvision {V}. Arguments prov_address {V}. Arguments prov_entry {V}.
Arguments prov_phase {V}.

Record registry (V : Type) := MkRegistry {
  store : Store V;
  provisions : list (provision V);
  guards : list nat;
}.
Arguments MkRegistry {V}. Arguments store {V}. Arguments provisions {V}. Arguments guards {V}.

Inductive registry_event (V : Type) :=
  | EDraw (a : Address) (provider : FiberId) (value : Any V) (vital : nat)
  | EPlace (k : nat)
  | EWithdraw (k : nat) (undoing : bool)
  | EClose (k : nat)
  | EAwait (k : nat)
  | ELease (a : Address) (g : Generation)
  | EDropGuard (i : nat)
  | EVitality (initially : bool)
  | EReport (vital : nat) (active : bool).
Arguments EDraw {V}. Arguments EPlace {V}. Arguments EWithdraw {V}. Arguments EClose {V}.
Arguments EAwait {V}. Arguments ELease {V}. Arguments EDropGuard {V}. Arguments EVitality {V}.
Arguments EReport {V}.

Section Interleaving.
Context {V : Type}.
Implicit Types (r : registry V) (s : Store V) (p : provision V) (e : SlotEntry V).

Definition set_phase (ph : phase) p : provision V :=
  MkProvision (prov_address p) (prov_entry p) ph.

(** Provision [k] is at phase [ph]: run [s], and move it on. *)
Definition moved_on (k : nat) (ph : phase) s r : registry V :=
  MkRegistry s (alter (set_phase ph) k (provisions r)) (guards r).

Definition registry_step (ev : registry_event V) r : registry V :=
  let s := store r in
  match ev with
  | EDraw a provider value vital =>
      let '(e, s) := draw provider value vital s in
      MkRegistry s (provisions r ++ [MkProvision a e PDrawn]) (guards r)
  | EPlace k =>
      match provisions r !! k with
      | Some (MkProvision a e PDrawn) =>
          match place a e s with
          | (s, Ok _) => moved_on k PLive (bump s) r
          | (s, Err _) => moved_on k PRefused s r
          end
      | _ => r
      end
  | EWithdraw k undoing =>
      match provisions r !! k with
      | Some (MkProvision a e PLive) =>
          moved_on k (PRemoved undoing) (withdraw_remove a (slot_generation e) s) r
      | Some (MkProvision a e PDrained) =>
          moved_on k (PRemoved true) (withdraw_remove a (slot_generation e) s) r
      | _ => r
      end
  | EClose k =>
      match provisions r !! k with
      | Some (MkProvision a e (PRemoved undoing)) =>
          moved_on k (PClosed undoing) (close_cell (slot_leases e) s) r
      | _ => r
      end
  | EAwait k =>
      match provisions r !! k with
      | Some (MkProvision a e (PClosed undoing)) =>
          if cell_drained (slot_leases e) s
          then moved_on k (if undoing then PDropped else PDrained) s r
          else r
      | _ => r
      end
  | ELease a g =>
      match lease_slot a g s with
      | (s, Some c) => MkRegistry s (provisions r) (guards r ++ [c])
      | (s, None) => MkRegistry s (provisions r) (guards r)
      end
  | EDropGuard i =>
      match guards r !! i with
      | Some c => MkRegistry (guard_drop c s) (provisions r) (remove_at i (guards r))
      | None => r
      end
  | EVitality initially => MkRegistry (vitality initially s).2 (provisions r) (guards r)
  | EReport vital active => MkRegistry (report vital active s) (provisions r) (guards r)
  end.

Definition registry_run (evs : list (registry_event V)) : registry V :=
  fold_left (fun r ev => registry_step ev r) evs (MkRegistry new_store [] []).

(** ** The invariant *)

(** The guards outstanding on one cell. *)
Definition outstanding (c : nat) (gs : list nat) : nat :=
  length (filter (fun g => g = c) gs).

(** A withdrawal that closed its cell, and one that saw it drained. *)
Definition has_closed (ph : phase) : bool :=
  match ph with PClosed _ | PDrained | PDropped => true | _ => false end.
Definition has_drained (ph : phase) : bool :=
  match ph with PDrained | PDropped => true | _ => false end.

Record registry_ok (n : Z) r : Prop := {
  ok_cells : length (cells (store r)) = length (provisions r);
  ok_drawn : generations (store r) = Z.of_nat (length (provisions r)) /\
    (generations (store r) <= n)%Z;
  ok_entry : forall k p, provisions r !! k = Some p ->
    slot_leases (prov_entry p) = k /\
    slot_generation (prov_entry p) = MkGeneration (Z.of_nat k + 1);
  ok_counts : forall c cell, cells (store r) !! c = Some cell ->
    active cell = Z.of_nat (outstanding c (guards r));
  ok_slots : forall a e, slots (store r) !! a = Some e ->
    provisions r !! slot_leases e = Some (MkProvision a e PLive) /\
    exists cell, cells (store r) !! slot_leases e = Some cell /\ closed cell = false;
  ok_closed : forall k p, provisions r !! k = Some p -> has_closed (prov_phase p) = true ->
    exists cell, cells (store r) !! k = Some cell /\ closed cell = true /\
      (has_drained (prov_phase p) = true -> active cell = 0%Z);
  ok_fresh : forall k p, provisions r !! k = Some p -> prov_phase p = PDrawn ->
    exists cell, cells (store r) !! k = Some cell /\ closed cell = false;
  ok_guards : Forall (fun c => c < length (provisions r)) (guards r);
}.

(** Nothing in the slot map refers to the cell. *)
Definition unreferenced (c : nat) s : Prop :=
  forall a e, slots s !! a = Some e -> slot_leases e <> c.

(** *** The parts an event is made of *)

Lemma ok_weaken n n' r : registry_ok n r -> (n <= n')%Z -> registry_ok n' r.
Proof. intros [H1 H2 H3 H4 H5 H6 H7 H8] Hn. constructor; try done. destruct H2. split; [done|lia]. Qed.

Lemma ok_same n r s' :
  registry_ok n r -> slots s' = slots (store r) -> cells s' = cells (store r) ->
  generations s' = generations (store r) ->
  registry_ok n (MkRegistry s' (provisions r) (guards r)).
Proof.
  intros [H1 H2 H3 H4 H5 H6 H7 H8] Hs Hc Hg. constructor; simpl; rewrite ?Hs, ?Hc, ?Hg; done.
Qed.

Lemma lookup_close c s j cell :
  cells (close_cell c s) !! j = Some cell <->
  exists old, cells s !! j = Some old /\ active cell = active old /\
    closed cell = (closed old || bool_decide (j = c)).
Proof.
  simpl. destruct (decide (j = c)) as [->|Hne].
  - rewrite list_lookup_alter_eq, bool_decide_true by done. rewrite fmap_Some. split.
    + intros (old & Ho & ->). exists old. by rewrite orb_true_r.
    + intros (old & Ho & Ha & Hc). exists old. split; [done|]. rewrite orb_true_r in Hc.
      destruct cell. simpl in *. by subst.
  - rewrite list_lookup_alter_ne by done. rewrite bool_decide_false by done. split.
    + intros Ho. exists cell. by rewrite orb_false_r.
    + intros (old & Ho & Ha & Hc). rewrite orb_false_r in Hc. destruct cell, old.
      simpl in *. by subst.
Qed.

Lemma ok_close n r c :
  registry_ok n r -> unreferenced c (store r) ->
  (forall p, provisions r !! c = Some p -> prov_phase p <> PDrawn) ->
  registry_ok n (MkRegistry (close_cell c (store r)) (provisions r) (guards r)).
Proof.
  intros [H1 H2 H3 H4 H5 H6 H7 H8] Hun Hfresh. constructor; cbn [store provisions guards].
  - simpl. by rewrite length_alter.
  - done.
  - done.
  - intros j cell (old & Ho & Ha & _)%lookup_close. rewrite Ha. by apply H4.
  - intros a e Hs. simpl in Hs. destruct (H5 a e Hs) as (Hp & cell & Hc & Hcl).
    split; [done|]. exists cell. split; [|done]. apply lookup_close. exists cell.
    rewrite bool_decide_false by (by eapply Hun). by rewrite orb_false_r.
  - intros k p Hp Hph. destruct (H6 k p Hp Hph) as (cell & Hc & Hcl & Ha).
    exists (MkLeaseCell (active cell) true). split_and!; [|done..].
    apply lookup_close. exists cell. by rewrite Hcl.
  - intros k p Hp Hph. destruct (H7 k p Hp Hph) as (cell & Hc & Hcl). exists cell.
    split; [|done]. apply lookup_close. exists cell.
    rewrite bool_decide_false, orb_false_r; [done|]. intros ->. by eapply Hfresh.
  - done.
Qed.

Lemma ok_delete n r a :
  registry_ok n r ->
  registry_ok n (MkRegistry (with_slots (delete a (slots (store r))) (store r))
                   (provisions r) (guards r)).
Proof.
  intros [H1 H2 H3 H4 H5 H6 H7 H8]. constructor; simpl; try done.
  intros a' e [_ Hs]%lookup_delete_Some. by apply H5.
Qed.

(** A slot is taken by the provision that was drawn for it. *)
Lemma ok_placed n r k a e :
  registry_ok n r -> provisions r !! k = Some (MkProvision a e PDrawn) ->
  slots (store r) !! a = None ->
  registry_ok n (moved_on k PLive (with_slots (<[a := e]> (slots (store r))) (store r)) r).
Proof.
  intros [H1 H2 H3 H4 H5 H6 H7 H8] Hk Hnone.
  assert (Hlook : forall j p, alter (set_phase PLive) k (provisions r) !! j = Some p ->
    (j = k /\ p = MkProvision a e PLive) \/ (j <> k /\ provisions r !! j = Some p)).
  { intros j p Hj. destruct (decide (j = k)) as [->|Hne].
    - rewrite list_lookup_alter_eq, Hk in Hj. simpl in Hj. injection Hj as <-. by left.
    - rewrite list_lookup_alter_ne in Hj by done. by right. }
  constructor; simpl.
  - by rewrite length_alter.
  - by rewrite length_alter.
  - intros j p [[-> ->]|[_ Hj]]%Hlook; [apply (H3 k _ Hk)|by apply H3].
  - done.
  - intros a' e' Hs. destruct (decide (a = a')) as [<-|Hne].
    + rewrite lookup_insert_eq in Hs. injection Hs as <-.
      destruct (H3 k _ Hk) as [Hidx _]. simpl in Hidx. rewrite Hidx.
      rewrite list_lookup_alter_eq, Hk. split; [done|]. by apply (H7 k _ Hk).
    + rewrite lookup_insert_ne in Hs by done. destruct (H5 a' e' Hs) as [Hp Hc].
      split; [|done]. rewrite list_lookup_alter_ne; [done|]. intros Heq. rewrite <-Heq in Hp.
      congruence.
  - intros j p [[-> ->]|[_ Hj]]%Hlook Hph; [done|by apply (H6 j p)].
  - intros j p [[-> ->]|[_ Hj]]%Hlook Hph; [done|by apply (H7 j p)].
  - by rewrite length_alter.
Qed.

(** A provision that no slot refers to moves on. *)
Lemma ok_phase n r k p ph :
  registry_ok n r -> provisions r !! k = Some p -> prov_phase p <> PDrawn \/ ph = PRefused ->
  unreferenced k (store r) -> ph <> PDrawn ->
  (has_closed ph = true -> exists cell, cells (store r) !! k = Some cell /\
     closed cell = true /\ (has_drained ph = true -> active cell = 0%Z)) ->
  registry_ok n (moved_on k ph (store r) r).
Proof.
  intros [H1 H2 H3 H4 H5 H6 H7 H8] Hk Hfrom Hun Hph Hcl.
  assert (Hlook : forall j q, alter (set_phase ph) k (provisions r) !! j = Some q ->
    (j = k /\ q = set_phase ph p) \/ (j <> k /\ provisions r !! j = Some q)).
  { intros j q Hj. destruct (decide (j = k)) as [->|Hne].
    - rewrite list_lookup_alter_eq, Hk in Hj. simpl in Hj. injection Hj as <-. by left.
    - rewrite list_lookup_alter_ne in Hj by done. by right. }
  constructor; simpl.
  - by rewrite length_alter.
  - by rewrite length_alter.
  - intros j q [[-> ->]|[_ Hj]]%Hlook; [apply (H3 k _ Hk)|by apply H3].
  - done.
  - intros a e Hs. destruct (H5 a e Hs) as [Hp Hc]. split; [|done].
    rewrite list_lookup_alter_ne; [done|]. intros Heq. by apply (Hun a e Hs).
  - intros j q [[-> ->]|[_ Hj]]%Hlook Hq; [by apply Hcl|by apply (H6 j q)].
  - intros j q [[-> ->]|[_ Hj]]%Hlook Hq; [done|by apply (H7 j q)].
  - by rewrite length_alter.
Qed.

(** *** The events *)

Lemma ok_bump n r s ps gs :
  registry_ok n (MkRegistry s ps gs) -> registry_ok n (MkRegistry (bump s) ps gs).
Proof. intros H. by apply (ok_same n (MkRegistry s ps gs)). Qed.

Lemma slot_of_provision n r k a e :
  registry_ok n r -> provisions r !! k = Some (MkProvision a e PLive) ->
  (exists a' e', slots (store r) !! a' = Some e' /\ slot_leases e' = k) ->
  slots (store r) !! a = Some e.
Proof.
  intros Hok Hk (a' & e' & Hs & Hl). destruct (ok_slots _ _ Hok a' e' Hs) as [Hp _].
  rewrite Hl, Hk in Hp. by injection Hp as -> ->.
Qed.

(** Generations tell provisions apart. *)
Lemma same_generation n r a e k p :
  registry_ok n r -> slots (store r) !! a = Some e -> provisions r !! k = Some p ->
  slot_generation e = slot_generation (prov_entry p) -> slot_leases e = k /\ e = prov_entry p.
Proof.
  intros Hok Hs Hp Hg. destruct (ok_slots _ _ Hok a e Hs) as [Hq _].
  destruct (ok_entry _ _ Hok _ _ Hq) as [_ Hge]. destruct (ok_entry _ _ Hok _ _ Hp) as [Hidx Hgp].
  simpl in Hge. rewrite Hg, Hgp in Hge. injection Hge as Heq.
  assert (slot_leases e = k) as Hl by lia. split; [done|]. rewrite Hl, Hp in Hq.
  by injection Hq as ->.
Qed.

(** What removing a slot leaves: the provision's own entry is gone, and
    everything else is there. *)
Lemma withdraw_remove_spec n r k p :
  registry_ok n r -> provisions r !! k = Some p -> prov_phase p <> PDrawn ->
  let s' := withdraw_remove (prov_address p) (slot_generation (prov_entry p)) (store r) in
  registry_ok n (MkRegistry s' (provisions r) (guards r)) /\ unreferenced k s' /\
  (forall a e, slots s' !! a = Some e <-> slots (store r) !! a = Some e /\ slot_leases e <> k).
Proof.
  intros Hok Hp Hph s'. set (a := prov_address p). set (g := slot_generation (prov_entry p)).
  assert (Hiff : forall a' e', slots s' !! a' = Some e' <->
    slots (store r) !! a' = Some e' /\ slot_leases e' <> k).
  { intros a' e'. unfold s', withdraw_remove, remove_if. fold a g.
    assert (Hkeep : slots (store r) !! a' = Some e' ->
      (forall e, slots (store r) !! a = Some e -> slot_generation e <> g) -> slot_leases e' <> k).
    { intros Hs Hg Hl. destruct (ok_slots _ _ Hok a' e' Hs) as [Hq _].
      rewrite Hl, Hp in Hq. injection Hq as ->. by apply (Hg e' Hs). }
    destruct (slots (store r) !! a) as [e|] eqn:Ha; [case_decide as Hg|]; simpl.
    - destruct (same_generation n r a e k p Hok Ha Hp Hg) as [Hl _].
      rewrite lookup_delete_Some. split.
      + intros [Hne Hs]. split; [done|]. intros Hl'.
        destruct (ok_slots _ _ Hok a' e' Hs) as [Hq _].
        destruct (ok_slots _ _ Hok a e Ha) as [Hq' _]. rewrite Hl' in Hq. rewrite Hl in Hq'.
        congruence.
      + intros [Hs Hl']. split; [|done]. intros <-. congruence.
    - split; [|by intros []]. intros Hs. split; [done|]. apply Hkeep; [done|].
      intros e0 [= <-]. done.
    - split; [|by intros []]. intros Hs. split; [done|]. by apply Hkeep. }
  split_and!; [|by intros a' e' [_ ?]%Hiff|exact Hiff].
  unfold s', withdraw_remove, remove_if. fold a g.
  destruct (slots (store r) !! a) as [e|] eqn:Ha; [case_decide as Hg|]; simpl; [|by destruct r..].
  destruct (same_generation n r a e k p Hok Ha Hp Hg) as [Hl _].
  apply ok_bump; [done|].
  pose proof (ok_delete n r a Hok) as Hdel.
  pose proof (ok_close n _ (slot_leases e) Hdel) as Hcl. simpl in Hcl. apply Hcl.
  - intros a' e' Hs. simpl in Hs. apply lookup_delete_Some in Hs as [Hne Hs].
    intros Heq. destruct (ok_slots _ _ Hok a' e' Hs) as [Hq _].
    destruct (ok_slots _ _ Hok a e Ha) as [Hq' _]. rewrite Heq in Hq. congruence.
  - intros q Hq. rewrite Hl in Hq. congruence.
Qed.

Lemma outstanding_zero c gs : c ∉ gs -> outstanding c gs = 0.
Proof.
  unfold outstanding. induction gs as [|g gs IH]; intros Hc; [done|].
  rewrite filter_cons_False by set_solver. apply IH. set_solver.
Qed.

Lemma step_draw n a provider value vital r :
  (0 <= n < u64_max)%Z -> registry_ok n r ->
  registry_ok (n + 1) (registry_step (EDraw a provider value vital) r).
Proof.
  intros Hn [H1 [H2 H2'] H3 H4 H5 H6 H7 H8]. simpl.
  assert (Hnew : forall k p, (provisions r ++ [MkProvision a (MkSlotEntry provider
      (MkGeneration (generations (store r) + 1)) value (length (cells (store r))) vital) PDrawn])
      !! k = Some p ->
    provisions r !! k = Some p \/ (k = length (provisions r) /\ prov_phase p = PDrawn /\
      slot_leases (prov_entry p) = k /\
      slot_generation (prov_entry p) = MkGeneration (Z.of_nat k + 1))).
  { intros k p [Hk|[Hle Hk]]%lookup_app_Some; [by left|right].
    apply list_lookup_singleton_Some in Hk as [Hk <-]. simpl. split_and!; [lia|done|lia|].
    f_equal. lia. }
  constructor; simpl.
  - rewrite !length_app. simpl. lia.
  - rewrite length_app. simpl. rewrite wrapping_add_small; unfold is_u64, u64_max in *; lia.
  - intros k p [Hk|(-> & _ & ? & ?)]%Hnew; [by apply H3|done].
  - intros c cell [Hc|[Hle Hc]]%lookup_app_Some; [by apply H4|].
    apply list_lookup_singleton_Some in Hc as [Hc <-]. simpl.
    rewrite outstanding_zero; [done|]. intros Hin. rewrite Forall_forall in H8.
    specialize (H8 c Hin). lia.
  - intros a' e' Hs. destruct (H5 a' e' Hs) as (Hp & cell & Hc & Hcl). split.
    + by apply lookup_app_l_Some.
    + exists cell. split; [by apply lookup_app_l_Some|done].
  - intros k p [Hk|(-> & Hph & _)]%Hnew Hq; [|by rewrite Hph in Hq].
    destruct (H6 k p Hk Hq) as (cell & Hc & ?). exists cell.
    split; [by apply lookup_app_l_Some|done].
  - intros k p [Hk|(-> & Hph & _)]%Hnew Hq.
    + destruct (H7 k p Hk Hq) as (cell & Hc & ?). exists cell.
      split; [by apply lookup_app_l_Some|done].
    + exists lease_new. split; [|done]. rewrite <-H1. apply lookup_app_last.
  - eapply Forall_impl; [exact H8|]. simpl. intros c Hc. rewrite length_app. lia.
Qed.

Lemma step_place n k r :
  registry_ok n r -> registry_ok n (registry_step (EPlace k) r).
Proof.
  intros Hok. simpl. destruct (provisions r !! k) as [[a e []]|] eqn:Hk; try done.
  unfold place. destruct (slots (store r) !! a) as [occupant|] eqn:Ha; [case_decide as Hp|].
  - apply ok_bump; [done|].
    destruct (ok_slots _ _ Hok a occupant Ha) as [Hq _].
    pose proof (ok_delete n r a Hok) as Hdel.
    pose proof (ok_close n _ (slot_leases occupant) Hdel) as Hcl. simpl in Hcl.
    ospecialize (Hcl _ _).
    { intros a' e' Hs. simpl in Hs. apply lookup_delete_Some in Hs as [Hne Hs].
      intros Heq. destruct (ok_slots _ _ Hok a' e' Hs) as [Hq' _]. rewrite Heq in Hq'.
      congruence. }
    { intros p Hp'. rewrite Hq in Hp'. by injection Hp' as <-. }
    pose proof (ok_placed n _ k a e Hcl) as Hpl. simpl in Hpl.
    rewrite insert_delete_eq in Hpl. apply Hpl; [done|apply lookup_delete_eq].
  - apply (ok_phase n r k (MkProvision a e PDrawn)); try done; [by right|].
    intros a' e' Hs Hl. destruct (ok_slots _ _ Hok a' e' Hs) as [Hq _]. rewrite Hl in Hq.
    congruence.
  - apply ok_bump; [done|]. by apply ok_placed.
Qed.

Lemma step_withdraw n k undoing r :
  registry_ok n r -> registry_ok n (registry_step (EWithdraw k undoing) r).
Proof.
  intros Hok. simpl. destruct (provisions r !! k) as [[a e ph]|] eqn:Hk; [|done].
  destruct ph; try done;
    (destruct (withdraw_remove_spec n r k _ Hok Hk) as (Hok' & Hun & _); [done|]);
    simpl in Hok', Hun;
    eapply (ok_phase n (MkRegistry _ _ _) k); try done; by left.
Qed.

Lemma not_live_unreferenced n r k p :
  registry_ok n r -> provisions r !! k = Some p -> prov_phase p <> PLive ->
  unreferenced k (store r).
Proof.
  intros Hok Hp Hph a e Hs Hl. destruct (ok_slots _ _ Hok a e Hs) as [Hq _].
  rewrite Hl, Hp in Hq. injection Hq as ->. done.
Qed.

Lemma cell_of_provision n r k p :
  registry_ok n r -> provisions r !! k = Some p -> is_Some (cells (store r) !! k).
Proof.
  intros Hok Hp. apply lookup_lt_is_Some_2. rewrite (ok_cells _ _ Hok).
  by eapply lookup_lt_Some.
Qed.

Lemma step_close n k r : registry_ok n r -> registry_ok n (registry_step (EClose k) r).
Proof.
  intros Hok. simpl. destruct (provisions r !! k) as [[a e ph]|] eqn:Hk; [|done].
  destruct ph; try done. destruct (ok_entry _ _ Hok _ _ Hk) as [Hidx _]. simpl in Hidx.
  pose proof (not_live_unreferenced n r k _ Hok Hk ltac:(done)) as Hun.
  pose proof (ok_close n r k Hok Hun) as Hcl. ospecialize (Hcl _).
  { intros p Hp. rewrite Hk in Hp. by injection Hp as <-. }
  rewrite Hidx. apply (ok_phase n (MkRegistry _ _ _) k _ (PClosed undoing) Hcl Hk);
    [by left|done|done|].
  intros _. destruct (cell_of_provision n r k _ Hok Hk) as [cell Hc].
  exists (MkLeaseCell (active cell) true). split_and!; [|done|done].
  apply lookup_close. exists cell. by rewrite bool_decide_true, orb_true_r.
Qed.

Lemma step_await n k r : registry_ok n r -> registry_ok n (registry_step (EAwait k) r).
Proof.
  intros Hok. simpl. destruct (provisions r !! k) as [[a e ph]|] eqn:Hk; [|done].
  destruct ph; try done. destruct (ok_entry _ _ Hok _ _ Hk) as [Hidx _]. simpl in Hidx.
  unfold cell_drained. rewrite Hidx. destruct (cells (store r) !! k) as [cell|] eqn:Hc; [|done].
  destruct (is_drained cell) eqn:Hd; [|done].
  unfold is_drained in Hd. apply andb_true_iff in Hd as [Hcl Ha].
  apply bool_decide_eq_true in Ha.
  apply (ok_phase n r k (MkProvision a e (PClosed undoing))); try done; [by left|..].
  - by eapply not_live_unreferenced.
  - by destruct undoing.
  - intros _. by exists cell.
Qed.

Lemma outstanding_snoc c g gs :
  outstanding c (gs ++ [g]) = outstanding c gs + (if decide (g = c) then 1 else 0).
Proof.
  unfold outstanding. rewrite filter_app, length_app, filter_cons, filter_nil.
  by case_decide.
Qed.

Lemma outstanding_remove_at i c g gs :
  gs !! i = Some g ->
  outstanding c gs = outstanding c (remove_at i gs) + (if decide (g = c) then 1 else 0).
Proof.
  intros Hi. rewrite <-(take_drop_middle gs i g Hi) at 1. unfold remove_at, outstanding.
  rewrite !filter_app, !length_app, filter_cons. case_decide; simpl; lia.
Qed.

Lemma step_lease n a g r : registry_ok n r -> registry_ok n (registry_step (ELease a g) r).
Proof.
  intros Hok. simpl. unfold lease_slot.
  destruct (slots (store r) !! a) as [e|] eqn:Ha; [|by destruct r].
  case_decide as Hg; [|by destruct r].
  destruct (cells (store r) !! slot_leases e) as [cell|] eqn:Hc; [|by destruct r].
  unfold acquire. destruct (closed cell) eqn:Hcl; [by destruct r|].
  pose proof (lookup_lt_Some _ _ _ Hc) as Hlt.
  assert (Hl : forall j c', <[slot_leases e := MkLeaseCell (active cell + 1) false]>
      (cells (store r)) !! j = Some c' ->
    (j = slot_leases e /\ c' = MkLeaseCell (active cell + 1) false) \/
    (j <> slot_leases e /\ cells (store r) !! j = Some c')).
  { intros j c' [(-> & <- & _)|[? ?]]%list_lookup_insert_Some; auto. }
  destruct Hok as [H1 H2 H3 H4 H5 H6 H7 H8]. constructor; simpl.
  - by rewrite length_insert.
  - done.
  - done.
  - intros c c' [[-> ->]|[Hne Hc']]%Hl; rewrite outstanding_snoc; simpl.
    + rewrite (H4 _ _ Hc), decide_True by done. lia.
    + rewrite (H4 _ _ Hc'), decide_False by done. lia.
  - intros a' e' Hs. destruct (H5 a' e' Hs) as (Hp & cell' & Hc' & Hcl'). split; [done|].
    destruct (decide (slot_leases e' = slot_leases e)) as [->|Hne].
    + eexists. rewrite list_lookup_insert_eq by done. done.
    + exists cell'. by rewrite list_lookup_insert_ne.
  - intros k p Hp Hph. destruct (H6 k p Hp Hph) as (cell' & Hc' & Hcl' & Hz).
    exists cell'. rewrite list_lookup_insert_ne; [done|]. intros <-. congruence.
  - intros k p Hp Hph. destruct (H7 k p Hp Hph) as (cell' & Hc' & Hcl').
    destruct (decide (slot_leases e = k)) as [<-|Hne].
    + eexists. rewrite list_lookup_insert_eq by done. done.
    + exists cell'. by rewrite list_lookup_insert_ne.
  - apply Forall_app. split; [done|]. constructor; [|done]. by rewrite <-H1.
Qed.

Lemma step_drop_guard n i r : registry_ok n r -> registry_ok n (registry_step (EDropGuard i) r).
Proof.
  intros Hok. simpl. destruct (guards r !! i) as [g|] eqn:Hi; [|done].
  unfold guard_drop. apply ok_bump; [done|].
  destruct Hok as [H1 H2 H3 H4 H5 H6 H7 H8].
  assert (Hout : forall c, outstanding c (guards r) =
    outstanding c (remove_at i (guards r)) + (if decide (g = c) then 1 else 0))
    by (intros c; by apply outstanding_remove_at).
  assert (Hl : forall j c', alter (fun c => (release c).1) g (cells (store r)) !! j = Some c' ->
    exists old, cells (store r) !! j = Some old /\ closed c' = closed old /\
      active c' = Z.of_nat (outstanding j (remove_at i (guards r)))).
  { intros j c' Hj. destruct (decide (j = g)) as [->|Hne].
    - rewrite list_lookup_alter_eq in Hj. apply fmap_Some in Hj as (old & Ho & ->).
      exists old. split_and!; [done..|]. simpl. unfold saturating_sub.
      rewrite (H4 _ _ Ho), Hout, decide_True by done. lia.
    - rewrite list_lookup_alter_ne in Hj by done. exists c'. split_and!; [done..|].
      rewrite (H4 _ _ Hj), Hout, decide_False by done. f_equal. lia. }
  assert (Hr : forall j old, cells (store r) !! j = Some old ->
    exists c', alter (fun c => (release c).1) g (cells (store r)) !! j = Some c' /\
      closed c' = closed old /\ (active old = 0%Z -> active c' = 0%Z)).
  { intros j old Hj. destruct (decide (j = g)) as [->|Hne].
    - rewrite list_lookup_alter_eq, Hj. eexists. split_and!; [done..|].
      simpl. unfold saturating_sub. lia.
    - rewrite list_lookup_alter_ne by done. eauto. }
  constructor; simpl.
  - by rewrite length_alter.
  - done.
  - done.
  - intros c c' (old & _ & _ & Hq)%Hl. done.
  - intros a' e' Hs. destruct (H5 a' e' Hs) as (Hp & cell' & Hc' & Hcl'). split; [done|].
    destruct (Hr _ _ Hc') as (c' & ? & Hq & _). exists c'. by rewrite Hq.
  - intros k p Hp Hph. destruct (H6 k p Hp Hph) as (cell' & Hc' & Hcl' & Hz).
    destruct (Hr _ _ Hc') as (c' & ? & Hq & ?). exists c'. rewrite Hq. auto.
  - intros k p Hp Hph. destruct (H7 k p Hp Hph) as (cell' & Hc' & Hcl').
    destruct (Hr _ _ Hc') as (c' & ? & Hq & _). exists c'. by rewrite Hq.
  - unfold remove_at. apply Forall_app. split; [by apply Forall_take|by apply Forall_drop].
Qed.

Lemma registry_step_ok n ev r :
  (0 <= n < u64_max)%Z -> registry_ok n r -> registry_ok (n + 1) (registry_step ev r).
Proof.
  intros Hn Hok. destruct ev as [a pr v vi|k|k u|k|k|a g|i|b|v b]; [by apply step_draw|..];
    apply (ok_weaken n); try lia.
  - by apply step_place.
  - by apply step_withdraw.
  - by apply step_close.
  - by apply step_await.
  - by apply step_lease.
  - by apply step_drop_guard.
  - by apply ok_same.
  - by apply ok_same.
Qed.

Lemma registry_run_ok evs :
  (Z.of_nat (length evs) <= u64_max)%Z ->
  registry_ok (Z.of_nat (length evs)) (registry_run evs).
Proof.
  induction evs as [|ev evs IH] using rev_ind; intros Hlen.
  { by constructor; simpl; try done; intros *; rewrite ?lookup_nil, ?lookup_empty. }
  unfold registry_run in *. rewrite fold_left_app, length_app in *. simpl in *.
  replace (Z.of_nat (length evs + 1)) with (Z.of_nat (length evs) + 1)%Z by lia.
  apply registry_step_ok; [lia|]. apply IH. lia.
Qed.
End Interleaving.

Section Provision.
Context {V I : Type}.
Implicit Types (s : Store V) (t : ContextTree I) (from site : Layer I).

Lemma outstanding_absent c gs : outstanding c gs = 0 -> c ∉ gs.
Proof.
  intros Hz Hin. unfold outstanding in Hz. apply nil_length_inv in Hz.
  assert (c ∈ filter (fun g => g = c) gs) as Hf by (by apply list_elem_of_filter).
  rewrite Hz in Hf. by apply not_elem_of_nil in Hf.
Qed.

(** A second interning of a name changes nothing. *)
Lemma key_for_again t service key t' :
  key_for t service = (key, t') -> key_for t' service = (key, t').
Proof.
  unfold key_for, tree_name, intern_name, table_intern. intros H.
  destruct (forward (names t) !! service_name service) as [i|] eqn:Hi; simplify_eq/=.
  - by rewrite Hi.
  - by rewrite lookup_insert_eq.
Qed.

Lemma place_ok a (e : SlotEntry V) s s' e' :
  place a e s = (s', Ok e') -> e' = e /\ slots s' !! a = Some e.
Proof.
  unfold place. intros H. destruct (slots s !! a); [case_decide|]; simplify_eq/=;
    by rewrite lookup_insert_eq.
Qed.

Lemma locate_named t from key s e :
  is_root_realm (realm_of from (key_name key)) = false ->
  slots s !! MkAddress (layer_id (root t)) key (realm_of from (key_name key)) = Some e ->
  locate t from key s =
    Ok (MkAddress (layer_id (root t)) key (realm_of from (key_name key)), e).
Proof. intros Hr Hs. unfold locate, get_slot. by rewrite Hr, Hs. Qed.

Lemma locate_own_frame t from key s e :
  is_root_realm (realm_of from (key_name key)) = true ->
  slots s !! MkAddress (layer_id from) key (realm_of from (key_name key)) = Some e ->
  locate t from key s = Ok (MkAddress (layer_id from) key (realm_of from (key_name key)), e).
Proof.
  intros Hr Hs. unfold locate, get_slot, resolve, resolution_frames. rewrite Hr.
  destruct from as [id d p iso icpt]. cbn [frames_from resolve_walk layer_id] in *.
  by rewrite Hs.
Qed.

(** The names of the services were interned before. *)
Definition known t (services : list ServiceType) : Prop :=
  forall service, service ∈ services -> (key_for t service).2 = t.

(** One dependency of an epoch: where it was found, and that it is vital. *)
Definition available t from s (service : ServiceType) (d : DependencySnapshot) : Prop :=
  exists a e, locate t from (key_for t service).1 s = Ok (a, e) /\
    vitals s !! slot_vitality e = Some true /\
    d = MkDependencySnapshot service (slot_provider e) (slot_generation e)
          (default RealmRoot (realm_value (realms t) (addr_realm a))).

Lemma compute_spec t from services s :
  known t services ->
  let '(t', o) := compute t from services s in
  t' = t /\
  match o with
  | Some e => Forall2 (available t from s) services (dependencies e)
  | None => exists service, service ∈ services /\ forall d, ~ available t from s service d
  end.
Proof.
  induction services as [|service services IH]; intros Hknown; simpl; [by split|].
  assert (Hk : (key_for t service).2 = t) by (apply Hknown; set_solver).
  assert (Hrest : known t services) by (intros x Hx; apply Hknown; set_solver).
  specialize (IH Hrest). destruct (key_for t service) as [key t1] eqn:Hkey. simpl in Hk. subst t1.
  assert (Havail : forall d, available t from s service d -> exists a e,
    locate t from key s = Ok (a, e) /\ vitals s !! slot_vitality e = Some true).
  { intros d (a & e & Hl & Hv & _). rewrite Hkey in Hl. eauto. }
  destruct (locate t from key s) as [[a e]|err] eqn:Hl.
  2: { split; [done|]. exists service. split; [set_solver|]. intros d Hd.
       destruct (Havail d Hd) as (a & e & ? & _). congruence. }
  destruct (vitals s !! slot_vitality e) as [[]|] eqn:Hv; simpl.
  - destruct (compute t from services s) as [t1 [e1|]]; simpl; destruct IH as [-> IH]; split;
      try done.
    + constructor; [|done]. exists a, e. by rewrite Hkey.
    + destruct IH as (x & Hx & Hno). exists x. split; [set_solver|done].
  - split; [done|]. exists service. split; [set_solver|]. intros d Hd.
    destruct (Havail d Hd) as (a' & e' & Heq & ?). congruence.
  - split; [done|]. exists service. split; [set_solver|]. intros d Hd.
    destruct (Havail d Hd) as (a' & e' & Heq & ?). congruence.
Qed.
End Provision.

(** ** Properties *)

(** C10: A provider's value outlives every lease on it (I2): once a drain phase
    or an inverse has completed its wait, under any interleaving, no guard on
    that provision is outstanding, no slot refers to it, and no lease of it can
    ever be granted: only then is the value dropped. *)
Theorem withdrawn_provision_has_no_dependent {V} (evs : list (registry_event V)) (k : nat)
    (p : provision V) :
  (Z.of_nat (length evs) <= u64_max)%Z ->
  provisions (registry_run evs) !! k = Some p -> has_drained (prov_phase p) = true ->
  k ∉ guards (registry_run evs) /\
  unreferenced k (store (registry_run evs)) /\
  (forall a g, (lease_slot a g (store (registry_run evs))).2 <> Some k).
Proof.
  intros Hlen Hp Hph. pose proof (registry_run_ok evs Hlen) as Hok.
  set (r := registry_run evs) in *.
  assert (Hun : unreferenced k (store r)).
  { eapply not_live_unreferenced; [done..|]. intros Hq. by rewrite Hq in Hph. }
  split_and!; [|done|].
  - destruct (ok_closed _ _ Hok k p Hp) as (cell & Hc & _ & Hz); [by destruct (prov_phase p)|].
    pose proof (ok_counts _ _ Hok _ _ Hc) as Hcount. rewrite (Hz Hph) in Hcount.
    apply outstanding_absent. lia.
  - intros a g Hq. unfold lease_slot in Hq.
    destruct (slots (store r) !! a) as [e|] eqn:Ha; [|done]. case_decide; [|done].
    destruct (cells (store r) !! slot_leases e) as [cell|]; [|done].
    unfold acquire in Hq. destruct (closed cell); simpl in Hq; [done|].
    injection Hq as Hq. by apply (Hun a e Ha).
Qed.

(** A provider, a dependent that leases it, and the withdrawal that waits for
    the dependent. *)
Module Tenancy.
Definition a : Address := MkAddress (MkContextId 0) (MkServiceKey (MkNameId 0) (Some 1%Z)) ROOT.
Definition evs : list (registry_event Z) :=
  [EVitality true; EDraw a (MkFiberId 3) (MkAny 1 42%Z) 0; EPlace 0; ELease a (MkGeneration 1);
   EWithdraw 0 true; EClose 0; EAwait 0; ELease a (MkGeneration 1); EDropGuard 0; EAwait 0].
End Tenancy.

Lemma withdrawn_provision_has_no_dependent_witness :
  guards (registry_run (take 8 Tenancy.evs)) = [0] /\
  exists p, provisions (registry_run Tenancy.evs) !! 0 = Some p /\ prov_phase p = PDropped /\
  0 ∉ guards (registry_run Tenancy.evs) /\
  unreferenced 0 (store (registry_run Tenancy.evs)) /\
  (forall a g, (lease_slot a g (store (registry_run Tenancy.evs))).2 <> Some 0).
Proof.
  split; [vm_compute; reflexivity|].
  eexists. split; [vm_compute; reflexivity|]. split; [reflexivity|].
  eapply (withdrawn_provision_has_no_dependent Tenancy.evs 0);
    [vm_compute; discriminate|vm_compute; reflexivity|reflexivity].
Defined.

(** A stale withdrawal removes nothing that is not its own: withdrawing one
    provision, at any time and in any interleaving, deletes the slot of that
    very generation if it is still there, and leaves every slot that a
    successor or another provider took. *)
Theorem withdrawal_removes_only_its_own_slot {V} (evs : list (registry_event V)) (k : nat)
    (undoing : bool) (p : provision V) :
  (Z.of_nat (length evs) <= u64_max)%Z ->
  provisions (registry_run evs) !! k = Some p ->
  prov_phase p = PLive \/ prov_phase p = PDrained ->
  let r' := registry_step (EWithdraw k undoing) (registry_run evs) in
  forall a e, slots (store r') !! a = Some e <->
    slots (store (registry_run evs)) !! a = Some e /\ e <> prov_entry p.
Proof.
  intros Hlen Hp Hph r' a e. pose proof (registry_run_ok evs Hlen) as Hok.
  set (r := registry_run evs) in *.
  destruct (withdraw_remove_spec (Z.of_nat (length evs)) r k p Hok Hp) as (_ & _ & Hiff);
    [by destruct Hph as [-> | ->]|].
  assert (Hr : slots (store r') = slots (withdraw_remove (prov_address p)
    (slot_generation (prov_entry p)) (store r))).
  { unfold r'. simpl. rewrite Hp. destruct p as [pa pe ph]. simpl in *.
    destruct Hph as [-> | ->]; done. }
  rewrite Hr, Hiff. split; intros [Hs Hne]; (split; [done|]).
  - intros ->. destruct (ok_entry _ _ Hok _ _ Hp). congruence.
  - intros Hl. destruct (ok_slots _ _ Hok a e Hs) as [Hq _]. rewrite Hl, Hp in Hq.
    injection Hq as ->. done.
Qed.

Lemma withdrawal_removes_only_its_own_slot_witness :
  let evs := take 3 Tenancy.evs ++ [EDraw Tenancy.a (MkFiberId 3) (MkAny 1 43%Z) 0; EPlace 1] in
  exists p, provisions (registry_run evs) !! 0 = Some p /\
  forall a e, slots (store (registry_step (EWithdraw 0 true) (registry_run evs))) !! a = Some e <->
    slots (store (registry_run evs)) !! a = Some e /\ e <> prov_entry p.
Proof.
  intros evs. eexists. split; [vm_compute; reflexivity|].
  eapply (withdrawal_removes_only_its_own_slot evs 0 true);
    [vm_compute; discriminate|vm_compute; reflexivity|by left].
Defined.

(** A slot never changes hands under a live provider (Def. 23): whatever the
    event, a slot that is occupied before and after it has the same provider;
    when its entry changed, the superseded entry's leases are closed. *)
Theorem slot_never_changes_hands {V} (r : registry V) (ev : registry_event V) (a : Address)
    (e e' : SlotEntry V) :
  slots (store r) !! a = Some e -> slots (store (registry_step ev r)) !! a = Some e' ->
  slot_provider e' = slot_provider e /\
  (e' <> e -> forall cell, cells (store (registry_step ev r)) !! slot_leases e = Some cell ->
     closed cell = true).
Proof.
  intros Ha. assert (Hsame : e = e' -> slot_provider e' = slot_provider e /\
    (e' <> e -> forall cell, cells (store (registry_step ev r)) !! slot_leases e = Some cell ->
      closed cell = true)) by (by intros ->).
  assert (Hrem : forall a0 g m, slots (withdraw_remove a0 g (store r)) !! a = Some m -> m = e).
  { intros a0 g m. unfold withdraw_remove, remove_if.
    destruct (slots (store r) !! a0); [case_decide|]; simpl; [|congruence..].
    rewrite lookup_delete_Some. intros [_ ?]. congruence. }
  destruct ev as [a0 pr v vi|k|k u|k|k|a0 g|i|b|v b]; cbn [registry_step];
    intros Hs; try (apply Hsame; simpl in *; congruence).
  - simpl in *. destruct (provisions r !! k) as [[a0 e0 []]|]; try (apply Hsame; congruence).
    unfold place in *.
    destruct (slots (store r) !! a0) as [occ|] eqn:Ha0; [case_decide as Hp|]; simpl in *.
    + destruct (decide (a0 = a)) as [->|Hne].
      * rewrite lookup_insert_eq in Hs. rewrite Ha in Ha0. simplify_eq. split; [done|].
        intros _ cell Hc. rewrite list_lookup_alter_eq in Hc.
        apply fmap_Some in Hc as (old & _ & ->). done.
      * rewrite lookup_insert_ne in Hs by done. apply Hsame. congruence.
    + apply Hsame. congruence.
    + rewrite lookup_insert_ne in Hs by congruence. apply Hsame. congruence.
  - apply Hsame. destruct (provisions r !! k) as [[a0 e0 []]|]; simpl in *;
      try congruence; symmetry; by eapply Hrem.
  - apply Hsame. destruct (provisions r !! k) as [[a0 e0 []]|]; simpl in *; congruence.
  - apply Hsame. destruct (provisions r !! k) as [[a0 e0 []]|]; simpl in *; try congruence.
    destruct (cell_drained _ _); simpl in *; congruence.
  - apply Hsame. unfold lease_slot in Hs.
    destruct (slots (store r) !! a0); [case_decide|]; simpl in *; try congruence.
    destruct (cells (store r) !! slot_leases s) as [cell|]; simpl in *; try congruence.
    unfold acquire in Hs. destruct (closed cell); simpl in *; congruence.
  - apply Hsame. destruct (guards r !! i); simpl in *; congruence.
Qed.

Lemma slot_never_changes_hands_witness :
  let r := registry_run (take 3 Tenancy.evs ++
    [EDraw Tenancy.a (MkFiberId 3) (MkAny 1 43%Z) 0]) in
  exists e e', slots (store r) !! Tenancy.a = Some e /\
    slots (store (registry_step (EPlace 1) r)) !! Tenancy.a = Some e' /\ e' <> e /\
    (slot_provider e' = slot_provider e /\
     (e' <> e -> forall cell, cells (store (registry_step (EPlace 1) r)) !! slot_leases e =
        Some cell -> closed cell = true)).
Proof.
  intros r. eexists _, _. split; [vm_compute; reflexivity|]. split; [vm_compute; reflexivity|].
  split; [discriminate|].
  apply (slot_never_changes_hands r (EPlace 1) Tenancy.a); vm_compute; reflexivity.
Defined.

(** What was provided is what is resolved: once a provision is accepted,
    every context that resolves the service in the provision's realm gets that
    very value, charged to itself, wherever it sits in the tree when the realm
    is named; in the root realm, which is positional, the provider's own
    context does. The downcast never fails. *)
Theorem provided_service_resolves {V I} (t t' : ContextTree I) (s s' : Store V)
    (site from : Layer I) (realm : Realm) (service : ServiceType) (provider : FiberId)
    (value : V) (vital : nat) (a : Address) (e : SlotEntry V) :
  provide t site realm service provider value vital s = (t', s', Ok (a, e)) ->
  realm_of from (key_name (addr_key a)) = addr_realm a ->
  is_root_realm (addr_realm a) = false \/ from = site ->
  exists h, registry_resolve t' from service s' = (t', Ok h) /\
    handle_service _ h = value /\ handle_caller _ h = layer_id from /\
    handle_provider _ h = provider /\ handle_generation _ h = slot_generation e.
Proof.
  unfold provide. intros Hp Hrealm Hwhere.
  destruct (tree_realm t realm) as [rid t1] eqn:Ht1.
  destruct (key_for t1 service) as [key t2] eqn:Hkey.
  unfold insert_slot in Hp. simpl in Hp.
  destruct (place _ _ _) as [s2 [e2|occ]] eqn:Hpl; [|done]. injection Hp as <- <- <- <-.
  apply place_ok in Hpl as [-> Hs2]. unfold provide_address in *. cbn [addr_realm addr_key] in *.
  exists (MkServiceHandle value (layer_id from) provider (MkGeneration (generations s + 1))
    (default RealmRoot (realm_value (realms t2) rid))).
  split; [|done]. unfold registry_resolve. rewrite (key_for_again _ _ _ _ Hkey).
  assert (Hloc : exists c, locate t2 from key (bump s2) =
    Ok (MkAddress c key rid, MkSlotEntry provider (MkGeneration (generations s + 1))
          (MkAny (service_type_id service) value) (length (cells s)) vital)).
  { destruct (is_root_realm rid) eqn:Hr.
    - destruct Hwhere as [| ->]; [done|]. exists (layer_id site). rewrite <-Hrealm in *.
      by apply locate_own_frame.
    - exists (layer_id (root t2)). rewrite <-Hrealm in *. by apply locate_named. }
  destruct Hloc as [c ->]. unfold handle. simpl. by rewrite decide_True.
Qed.

(** Two siblings of one named realm. *)
Module Tenants.
Definition service : ServiceType := MkServiceType 7 "store".
Definition tenant : Realm := RealmShared "tenant".
Definition bound := bind new_tree (derive (root (new_tree (I := ()))))
  (MkIsolationBinding "store" tenant).
Definition first := build bound.2 bound.1.
Definition second := build first.2 bound.1.
Definition provided := provide second.2 first.1 tenant service (MkFiberId 4) 99%Z 0 new_store.
Definition address := MkAddress (MkContextId 0) (MkServiceKey (MkNameId 0) (Some 7%Z))
  (MkRealmId 1).
Definition entry := MkSlotEntry (MkFiberId 4) (MkGeneration 1) (MkAny 7 99%Z) 0 0.
End Tenants.

Lemma provided_service_resolves_witness :
  Tenants.provided =
    (Tenants.provided.1.1, Tenants.provided.1.2, Ok (Tenants.address, Tenants.entry)) /\
  layer_id Tenants.first.1 <> layer_id Tenants.second.1 /\
  exists h, registry_resolve Tenants.provided.1.1 Tenants.second.1 Tenants.service
      Tenants.provided.1.2 = (Tenants.provided.1.1, Ok h) /\
    handle_service _ h = 99%Z /\ handle_caller _ h = layer_id Tenants.second.1 /\
    handle_provider _ h = MkFiberId 4 /\ handle_generation _ h = slot_generation Tenants.entry.
Proof.
  assert (Hp : Tenants.provided =
    (Tenants.provided.1.1, Tenants.provided.1.2, Ok (Tenants.address, Tenants.entry)))
    by (vm_compute; reflexivity).
  split; [exact Hp|]. split; [vm_compute; discriminate|].
  apply (provided_service_resolves Tenants.second.2 _ new_store _ Tenants.first.1
    Tenants.second.1 Tenants.tenant Tenants.service (MkFiberId 4) 99%Z 0 Tenants.address
    Tenants.entry Hp).
  - vm_compute. reflexivity.
  - left. reflexivity.
Defined.

(** An epoch names exactly the live providers: the computed epoch exists
    when every injected service resolves to a slot whose provider was last
    reported vital, and then lists their providers, generations and realms in
    the order of the injection; it is missing exactly when some service does not
    resolve or is not vital. *)
Theorem epoch_names_the_live_providers {V I} (t : ContextTree I) (from : Layer I)
    (services : list ServiceType) (s : Store V) :
  known t services ->
  let '(t', o) := compute t from services s in
  t' = t /\
  match o with
  | Some e => Forall2 (available t from s) services (dependencies e)
  | None => exists service, service ∈ services /\ forall d, ~ available t from s service d
  end.
Proof. apply compute_spec. Qed.

Lemma epoch_names_the_live_providers_witness :
  let t := (key_for (new_tree (I := ())) (MkServiceType 7 "store")).2 in
  let s := (vitality true (new_store (V := Z))).2 in
  known t [MkServiceType 7 "store"] /\
  let '(t', o) := compute t (root t) [MkServiceType 7 "store"] s in
  t' = t /\
  match o with
  | Some e => Forall2 (available t (root t) s) [MkServiceType 7 "store"] (dependencies e)
  | None => exists service, service ∈ [MkServiceType 7 "store"] /\
      forall d, ~ available t (root t) s service d
  end.
Proof.
  intros t s. assert (Hk : known t [MkServiceType 7 "store"]).
  { intros x Hx. apply list_elem_of_singleton in Hx as ->. vm_compute. reflexivity. }
  split; [exact Hk|].
  apply (epoch_names_the_live_providers t (root t) [MkServiceType 7 "store"] s Hk).
Defined.
