(* ===== verification/Events.v ===== *)
(** * The event bus

    [crates/jinnd-events/src/{table,dispatch,contain,bus}.rs]: the listener
    table and the five mode walks over one snapshot of it.

    Listeners and payloads are plugin code: every routine of theirs is a
    parameter that may change the whole state, the table included, and may
    panic. *)

From stdpp Require Import base gmap sets list strings.
From S2P Require Import Prelude Api Programs.

(** ** The listener table ([table.rs]) *)

Abbreviation ListenerId := Z.

(** [callable] is an [Arc<dyn Any>]: a handle with the type it was stored at. *)
Record Entry (L : Type) := MkEntry {
  entry_id : ListenerId;
  entry_context : ContextId;
  entry_once : bool;
  entry_type : TypeId;
  entry_callable : L;
}.
Arguments MkEntry {L}. Arguments entry_id {L}. Arguments entry_context {L}.
Arguments entry_once {L}. Arguments entry_type {L}. Arguments entry_callable {L}.

Record ListenerTable (L : Type) := MkTable {
  next : ListenerId;
  listeners : gmap TypeId (list (Entry L));
}.
Arguments MkTable {L}. Arguments next {L}. Arguments listeners {L}.

Section Table.
Context {L : Type}.
Implicit Types (t : ListenerTable L) (event : TypeId).

Definition new_table : ListenerTable L := MkTable 0 ∅.

Definition snapshot t event : list (Entry L) := default [] (listeners t !! event).

Definition insert_listener t event (context : ContextId) (once : bool) (callable : L)
    : ListenerId * ListenerTable L :=
  let id := next t in
  (id, MkTable (wrapping_add id 1)
         (<[event := snapshot t event ++ [MkEntry id context once event callable]]>
            (listeners t))).

Definition remove_listener t event (id : ListenerId) : bool * ListenerTable L :=
  match listeners t !! event with
  | None => (false, t)
  | Some entries =>
      match position (fun e => bool_decide (entry_id e = id)) entries with
      | None => (false, t)
      | Some i => (true, MkTable (next t) (<[event := remove_at i entries]> (listeners t)))
      end
  end.
End Table.

(** ** Dispatch ([dispatch.rs], [contain.rs]) *)

Record Selection (L : Type) := MkSelection {
  sel_id : ListenerId;
  sel_once : bool;
  sel_listener : L;
}.
Arguments MkSelection {L}. Arguments sel_id {L}. Arguments sel_once {L}.
Arguments sel_listener {L}.

Record DispatchReport (E Out : Type) := MkDispatchReport {
  report_event : E;
  report_outputs : list Out;
  report_failures : list KernelError;
}.
Arguments MkDispatchReport {E Out}. Arguments report_event {E Out}.
Arguments report_outputs {E Out}. Arguments report_failures {E Out}.

(** The state of a walk: the table, and the world of the plugins. *)
Record World (L W : Type) := MkWorld { table : ListenerTable L; world : W }.
Arguments MkWorld {L W}. Arguments table {L W}. Arguments world {L W}.

Definition listener_failed (prefix panic : string) : KernelError :=
  MkKernelError ListenerFailed (prefix +:+ panic) None.

(** [contained]: what a call settled to, and a panic of its future's
    destructor, which outranks a success only. *)
Definition listener_contained {Out} (outcome : settled Out) (dropped : option string)
    : result Out KernelError :=
  match outcome, dropped with
  | inr panic, _ => Err (listener_failed "the listener panicked: " panic)
  | inl (Ok _), Some panic => Err (listener_failed "the listener panicked: " panic)
  | inl r, _ => r
  end.

Definition releasing_error (panicked : option string) : list KernelError :=
  match panicked with
  | Some panic => [listener_failed "a plugin-authored destructor panicked: " panic]
  | None => []
  end.

Definition routing_error (panic : string) : KernelError :=
  listener_failed "the payload's routing code panicked: " panic.

Section Dispatch.
Context {L W E Out : Type}.
Abbreviation St := (World L W).

(** The event type and its declared mode. *)
Context (event_type : TypeId) (mode : DispatchMode).
(** The payload's routines; [inr] is a panic. *)
Context (selects : E -> ContextId -> St -> St * (bool + string)).
Context (clone_event : E -> St -> St * (E + string)).
Context (decisive : E -> Out -> St -> St * (bool + string)).
Context (absorb : E -> Out -> St -> St * (E * (bool + string))).
Context (drop_payload : E -> St -> St * option string).
(** The listener's: its call, awaited, with the drop of its future; and the
    release of one handle, which runs its destructor when it is the last. *)
Context (call : L -> ContextId -> E -> St -> St * (settled Out * option string)).
Context (drop_handle : L -> St -> St * option string).
(** The runtime: whether there is one, and whether a task ended without a
    value, and then by a panic. *)
Context (in_runtime : bool) (join_error : St -> option bool).

Implicit Types (st : St) (event : E) (sel : Selection L) (failures : list KernelError)
  (outputs : list Out).

Definition release (l : L) st : St * list KernelError :=
  let '(st, panicked) := drop_handle l st in (st, releasing_error panicked).

(** [select]: the payload picks from the snapshot; a panic of [selects] is a
    failure and drops the entry, never the walk. *)
Fixpoint select_loop event (entries : list (Entry L)) st
    : St * list (Selection L) * list KernelError :=
  match entries with
  | [] => (st, [], [])
  | e :: entries =>
      let '(st, verdict) := selects event (entry_context e) st in
      let '(chosen, errors) :=
        match verdict with
        | inl true =>
            (if decide (entry_type e = event_type)
             then [MkSelection (entry_id e) (entry_once e) (entry_callable e)] else [], [])
        | inl false => ([], [])
        | inr panic => ([], [routing_error panic])
        end in
      let '(st, released) := release (entry_callable e) st in
      let '(st, selected, failures) := select_loop event entries st in
      (st, chosen ++ selected, errors ++ released ++ failures)
  end.

Definition select event st : St * list (Selection L) * list KernelError :=
  select_loop event (snapshot (table st) event_type) st.

(** [claim]: a once-listener is claimed by removing its registration. *)
Definition claim sel st : St * option L * list KernelError :=
  if sel_once sel then
    let '(removed, t) := remove_listener (table st) event_type (sel_id sel) in
    let st := MkWorld t (world st) in
    if removed then (st, Some (sel_listener sel), [])
    else let '(st, errors) := release (sel_listener sel) st in (st, None, errors)
  else (st, Some (sel_listener sel), []).

(** [contained(|| listener.call(caller, event.clone()))]. *)
Definition contained_call (l : L) (caller : ContextId) event st
    : St * result Out KernelError :=
  match clone_event event st with
  | (st, inr panic) => (st, Err (listener_failed "the listener panicked: " panic))
  | (st, inl payload) =>
      let '(st, (outcome, dropped)) := call l caller payload st in
      (st, listener_contained outcome dropped)
  end.

(** [discard]: the rest of a walk that stopped is released, never claimed. *)
Fixpoint discard (rest : list (Selection L)) st : St * list KernelError :=
  match rest with
  | [] => (st, [])
  | sel :: rest =>
      let '(st, errors) := release (sel_listener sel) st in
      let '(st, more) := discard rest st in
      (st, errors ++ more)
  end.

(** Serial, and emit, which keeps no outputs: every listener, in order. *)
Fixpoint serial (keep : bool) (caller : ContextId) event (selected : list (Selection L)) st
    : St * list Out * list KernelError :=
  match selected with
  | [] => (st, [], [])
  | sel :: selected =>
      match claim sel st with
      | (st, None, errors) =>
          let '(st, outputs, failures) := serial keep caller event selected st in
          (st, outputs, errors ++ failures)
      | (st, Some l, errors) =>
          let '(st, outcome) := contained_call l caller event st in
          let '(st, released) := release l st in
          let '(st, outputs, failures) := serial keep caller event selected st in
          match outcome with
          | Ok output =>
              (st, (if keep then [output] else []) ++ outputs, errors ++ released ++ failures)
          | Err error => (st, outputs, errors ++ [error] ++ released ++ failures)
          end
      end
  end.

(** Bail: the first output the payload finds decisive ends the walk. *)
Fixpoint bail (caller : ContextId) event (selected : list (Selection L)) st
    : St * list Out * list KernelError :=
  match selected with
  | [] => (st, [], [])
  | sel :: rest =>
      match claim sel st with
      | (st, None, errors) =>
          let '(st, outputs, failures) := bail caller event rest st in
          (st, outputs, errors ++ failures)
      | (st, Some l, errors) =>
          let '(st, outcome) := contained_call l caller event st in
          let '(st, released) := release l st in
          let continue st (more : list KernelError) :=
            let '(st, outputs, failures) := bail caller event rest st in
            (st, outputs, errors ++ released ++ more ++ failures) in
          match outcome with
          | Ok output =>
              match decisive event output st with
              | (st, inl true) =>
                  let '(st, discarded) := discard rest st in
                  (st, [output], errors ++ released ++ discarded)
              | (st, inl false) => continue st []
              | (st, inr panic) => continue st [routing_error panic]
              end
          | Err error => continue st [error]
          end
      end
  end.

(** Waterfall: each output is folded into the payload; the payload, or a
    panic while folding, ends the walk. *)
Fixpoint waterfall (caller : ContextId) event (selected : list (Selection L)) st
    : St * E * list KernelError :=
  match selected with
  | [] => (st, event, [])
  | sel :: rest =>
      match claim sel st with
      | (st, None, errors) =>
          let '(st, event, failures) := waterfall caller event rest st in
          (st, event, errors ++ failures)
      | (st, Some l, errors) =>
          let '(st, outcome) := contained_call l caller event st in
          let '(st, released) := release l st in
          match outcome with
          | Ok output =>
              let '(st, (event, continues)) := absorb event output st in
              match continues with
              | inl true =>
                  let '(st, event, failures) := waterfall caller event rest st in
                  (st, event, errors ++ released ++ failures)
              | inl false =>
                  let '(st, discarded) := discard rest st in
                  (st, event, errors ++ released ++ discarded)
              | inr panic =>
                  let '(st, discarded) := discard rest st in
                  (st, event, errors ++ released ++ [routing_error panic] ++ discarded)
              end
          | Err error =>
              let '(st, event, failures) := waterfall caller event rest st in
              (st, event, errors ++ released ++ [error] ++ failures)
          end
      end
  end.

(** Parallel, inside a runtime: every payload is cloned and every claim made
    before the first task is awaited. *)
Fixpoint spawn_tasks event (selected : list (Selection L)) st
    : St * list (L * E) * list KernelError :=
  match selected with
  | [] => (st, [], [])
  | sel :: selected =>
      match clone_event event st with
      | (st, inr panic) =>
          let '(st, released) := release (sel_listener sel) st in
          let '(st, tasks, failures) := spawn_tasks event selected st in
          (st, tasks, [routing_error panic] ++ released ++ failures)
      | (st, inl payload) =>
          match claim sel st with
          | (st, None, errors) =>
              let '(st, panicked) := drop_payload payload st in
              let '(st, tasks, failures) := spawn_tasks event selected st in
              (st, tasks, errors ++ releasing_error panicked ++ failures)
          | (st, Some l, errors) =>
              let '(st, tasks, failures) := spawn_tasks event selected st in
              (st, (l, payload) :: tasks, errors ++ failures)
          end
      end
  end.

Definition join_failure (is_panic : bool) : KernelError :=
  MkKernelError ListenerFailed
    (if is_panic then "the listener task ended in an uncontained panic"
     else "the listener task was cancelled before it settled") None.

(** The tasks are joined in spawn order, each run when it is joined. *)
Fixpoint join_tasks (caller : ContextId) (tasks : list (L * E)) st
    : St * list Out * list KernelError :=
  match tasks with
  | [] => (st, [], [])
  | (l, payload) :: tasks =>
      match join_error st with
      | Some is_panic =>
          let '(st, outputs, failures) := join_tasks caller tasks st in
          (st, outputs, [join_failure is_panic] ++ failures)
      | None =>
          let '(st, (outcome, dropped)) := call l caller payload st in
          let '(st, released) := release l st in
          let '(st, outputs, failures) := join_tasks caller tasks st in
          match listener_contained outcome dropped with
          | Ok output => (st, output :: outputs, released ++ failures)
          | Err error => (st, outputs, [error] ++ released ++ failures)
          end
      end
  end.

Definition parallel (caller : ContextId) event (selected : list (Selection L)) st
    : St * list Out * list KernelError :=
  if in_runtime then
    let '(st, tasks, failures) := spawn_tasks event selected st in
    let '(st, outputs, more) := join_tasks caller tasks st in
    (st, outputs, failures ++ more)
  else serial true caller event selected st.

(** [walk]: the report, and how many listeners were selected. *)
Definition walk (caller : ContextId) event st : St * (DispatchReport E Out * nat) :=
  let '(st, selected, failures) := select event st in
  let chosen := length selected in
  match mode with
  | Emit =>
      let '(st, _, more) := serial false caller event selected st in
      (st, (MkDispatchReport event [] (failures ++ more), chosen))
  | Parallel =>
      let '(st, outputs, more) := parallel caller event selected st in
      (st, (MkDispatchReport event outputs (failures ++ more), chosen))
  | Serial =>
      let '(st, outputs, more) := serial true caller event selected st in
      (st, (MkDispatchReport event outputs (failures ++ more), chosen))
  | Bail =>
      let '(st, outputs, more) := bail caller event selected st in
      (st, (MkDispatchReport event outputs (failures ++ more), chosen))
  | Waterfall =>
      let '(st, event, more) := waterfall caller event selected st in
      (st, (MkDispatchReport event [] (failures ++ more), chosen))
  end.
End Dispatch.

(** ** The table, as the list of live registrations *)

Inductive table_op (L : Type) :=
  | OpInsert (event : TypeId) (context : ContextId) (once : bool) (callable : L)
  | OpRemove (event : TypeId) (id : ListenerId).
Arguments OpInsert {L}. Arguments OpRemove {L}.

Section Registrations.
Context {L : Type}.
Implicit Types (t : ListenerTable L) (live : list (TypeId * Entry L)).

(** One operation on the table; a removal that took a registration is
    logged. *)
Definition table_step (s : ListenerTable L * list ListenerId) (op : table_op L)
    : ListenerTable L * list ListenerId :=
  let '(t, taken) := s in
  match op with
  | OpInsert event context once callable =>
      ((insert_listener t event context once callable).2, taken)
  | OpRemove event id =>
      let '(removed, t) := remove_listener t event id in
      (t, if removed then taken ++ [id] else taken)
  end.

Definition table_run (ops : list (table_op L)) : ListenerTable L * list ListenerId :=
  fold_left table_step ops (new_table, []).

(** The abstract table: every live registration, in registration order. *)
Definition live_step (live : list (TypeId * Entry L)) (next : ListenerId) (op : table_op L)
    : list (TypeId * Entry L) :=
  match op with
  | OpInsert event context once callable =>
      live ++ [(event, MkEntry next context once event callable)]
  | OpRemove event id =>
      filter (fun r => ~ (r.1 = event /\ entry_id r.2 = id)) live
  end.

Fixpoint live_run (live : list (TypeId * Entry L)) (next : ListenerId)
    (ops : list (table_op L)) : list (TypeId * Entry L) :=
  match ops with
  | [] => live
  | op :: ops =>
      live_run (live_step live next op)
        (match op with OpInsert _ _ _ _ => (next + 1)%Z | _ => next end) ops
  end.

Definition of_event event live : list (Entry L) :=
  (filter (fun r => r.1 = event) live).*2.

(** A table and the registrations it holds; identities are drawn once. *)
Record represents (n : Z) t (taken : list ListenerId) live : Prop := {
  rep_snapshot : forall event, snapshot t event = of_event event live;
  rep_next : (0 <= next t <= n)%Z;
  rep_fresh : Forall (fun i => (i < next t)%Z) (taken ++ map (fun r => entry_id r.2) live);
  rep_unique : NoDup (taken ++ map (fun r => entry_id r.2) live);
}.

Lemma of_event_snoc event live r :
  of_event event (live ++ [r]) =
    of_event event live ++ (if decide (r.1 = event) then [r.2] else []).
Proof.
  unfold of_event. rewrite filter_app, filter_cons, filter_nil. rewrite fmap_app.
  by case_decide.
Qed.

Lemma represents_insert n t taken live event context once callable :
  (0 <= n < u64_max)%Z -> represents n t taken live ->
  represents (n + 1) (insert_listener t event context once callable).2 taken
    (live ++ [(event, MkEntry (next t) context once event callable)]).
Proof.
  intros Hn [H1 H2 H3 H4].
  assert (Hw : wrapping_add (next t) 1 = (next t + 1)%Z)
    by (rewrite wrapping_add_small; unfold is_u64; lia).
  constructor; simpl; rewrite ?Hw.
  - intros ev. rewrite of_event_snoc, <-H1. simpl. unfold snapshot. simpl.
    case_decide as He; [subst; by rewrite lookup_insert_eq|].
    by rewrite lookup_insert_ne, app_nil_r.
  - lia.
  - rewrite map_app, app_assoc. apply Forall_app. split.
    + eapply Forall_impl; [exact H3|]. simpl. lia.
    + constructor; simpl; [lia|done].
  - rewrite map_app, app_assoc. apply NoDup_app. split_and!; [done| |by apply NoDup_singleton].
    intros x Hx Hin. simpl in Hin. apply list_elem_of_singleton in Hin as ->.
    rewrite Forall_forall in H3. specialize (H3 _ Hx). simpl in H3. lia.
Qed.

(** Removing the one entry with an identity. *)
Lemma remove_at_filter (entries : list (Entry L)) i id e :
  NoDup (map entry_id entries) -> entries !! i = Some e -> entry_id e = id ->
  remove_at i entries = filter (fun e => entry_id e <> id) entries.
Proof.
  intros Hnd Hi <-. unfold remove_at.
  rewrite <-(take_drop_middle entries i e Hi) in Hnd. rewrite map_app in Hnd. simpl in Hnd.
  apply NoDup_app in Hnd as (_ & Hdis & Hnd). apply NoDup_cons in Hnd as [Hnot _].
  rewrite <-(take_drop_middle entries i e Hi) at 3.
  rewrite filter_app, filter_cons_False by naive_solver.
  f_equal; symmetry; apply filter_all, Forall_forall; intros x Hx Heq.
  - apply (Hdis (entry_id e)); [|set_solver]. rewrite <-Heq.
    apply list_elem_of_In, in_map, list_elem_of_In, Hx.
  - apply Hnot. rewrite <-Heq. apply list_elem_of_In, in_map, list_elem_of_In, Hx.
Qed.

Lemma of_event_remove event id live ev :
  of_event ev (filter (fun r => ~ (r.1 = event /\ entry_id r.2 = id)) live) =
    if decide (ev = event) then filter (fun e => entry_id e <> id) (of_event ev live)
    else of_event ev live.
Proof.
  unfold of_event. induction live as [|[rev e] live IH]; [by case_decide|].
  destruct (decide (rev = event /\ entry_id e = id)) as [[-> <-]|Hn].
  - rewrite (filter_cons_False _ (event, e)) by (simpl; naive_solver). rewrite IH.
    destruct (decide (ev = event)) as [->|Hne].
    + rewrite (filter_cons_True _ (event, e)) by done. rewrite fmap_cons.
      by rewrite filter_cons_False by naive_solver.
    + by rewrite (filter_cons_False _ (event, e)) by (simpl; congruence).
  - rewrite (filter_cons_True _ (rev, e)) by done.
    destruct (decide (rev = ev)) as [->|Hne].
    + rewrite !(filter_cons_True _ (ev, e)) by done. rewrite !fmap_cons, IH. simpl.
      case_decide as H2; [subst|done]. by rewrite filter_cons_True by naive_solver.
    + by rewrite !(filter_cons_False _ (rev, e)) by done.
Qed.

Lemma in_ids live r : r ∈ live -> entry_id r.2 ∈ map (fun r => entry_id r.2) live.
Proof. intros H. apply list_elem_of_In, in_map_iff. exists r. split; [done|]. by apply list_elem_of_In. Qed.

Lemma of_event_elem event live e : e ∈ of_event event live <-> (event, e) ∈ live.
Proof.
  unfold of_event. rewrite list_elem_of_fmap. split.
  - intros ([ev e'] & -> & [Hev Hin]%list_elem_of_filter). simpl in *. by subst.
  - intros Hin. exists (event, e). split; [done|]. by apply list_elem_of_filter.
Qed.

Lemma represents_remove n t taken live event id :
  represents n t taken live ->
  let '(removed, t') := remove_listener t event id in
  represents n t' (if removed then taken ++ [id] else taken)
    (filter (fun r => ~ (r.1 = event /\ entry_id r.2 = id)) live).
Proof.
  intros [H1 H2 H3 H4]. unfold remove_listener.
  pose proof (H1 event) as Hsnap. unfold snapshot in Hsnap.
  assert (Habsent : (forall e, e ∈ of_event event live -> entry_id e <> id) ->
    represents n t taken (filter (fun r => ~ (r.1 = event /\ entry_id r.2 = id)) live)).
  { intros Hno. rewrite filter_all; [done|]. apply Forall_forall. intros [ev e] Hin [Hev Hid].
    simpl in *. subst ev. apply (Hno e); [by apply of_event_elem|done]. }
  destruct (listeners t !! event) as [entries|] eqn:Hl; simpl in Hsnap.
  2: { apply Habsent. intros e He. rewrite <-Hsnap in He. by apply not_elem_of_nil in He. }
  destruct (position _ entries) as [i|] eqn:Hp.
  2: { apply Habsent. intros e He Hid. apply position_None in Hp. rewrite Forall_forall in Hp.
       rewrite <-Hsnap in He. specialize (Hp e He). by apply bool_decide_eq_false in Hp. }
  apply position_Some in Hp as (e & Hi & Hid & _). apply bool_decide_eq_true in Hid.
  apply NoDup_app in H4 as (Ht & Hdis & Hnd).
  assert (He : (event, e) ∈ live).
  { apply of_event_elem. rewrite <-Hsnap. by eapply list_elem_of_lookup_2. }
  assert (Hin : id ∈ map (fun r => entry_id r.2) live)
    by (rewrite <-Hid; by apply (in_ids live (event, e))).
  apply Forall_app in H3 as [Hft Hfl].
  assert (Hids : forall x, x ∈ map (fun r => entry_id r.2)
      (filter (fun r => ~ (r.1 = event /\ entry_id r.2 = id)) live) ->
    x ∈ map (fun r => entry_id r.2) live /\ x <> id).
  { intros x Hx. apply list_elem_of_In, in_map_iff in Hx as (r & <- & Hr).
    apply list_elem_of_In, list_elem_of_filter in Hr as [Hne Hr].
    split; [by apply in_ids|]. intros Heq. apply Hne.
    assert (r = (event, e)) as ->; [|done].
    apply (NoDup_map_inj (fun r => entry_id r.2) live); [done..|]. simpl. congruence. }
  constructor; simpl.
  - intros ev. rewrite of_event_remove. unfold snapshot. simpl.
    destruct (decide (ev = event)) as [->|Hne].
    + rewrite lookup_insert_eq. simpl. rewrite <-H1. unfold snapshot. rewrite Hl. simpl.
      apply (remove_at_filter _ _ _ e); [|done|done]. rewrite Hsnap. unfold of_event.
      change (map entry_id ?x) with (entry_id <$> x). rewrite <-list_fmap_compose.
      by apply (NoDup_map_filter (fun r => entry_id r.2)).
    + rewrite lookup_insert_ne by done. apply H1.
  - done.
  - rewrite !Forall_app. split_and!; [done|..].
    + constructor; [|done]. rewrite Forall_forall in Hfl. by apply Hfl.
    + apply Forall_forall. intros x Hx. destruct (Hids x Hx) as [Hx' _].
      rewrite Forall_forall in Hfl. by apply Hfl.
  - rewrite <-app_assoc. apply NoDup_app. split_and!; [done| |].
    + intros x Hx Hin'. simpl in Hin'. apply elem_of_cons in Hin' as [->|Hin'].
      * by apply (Hdis id).
      * destruct (Hids x Hin') as [? _]. by apply (Hdis x).
    + simpl. apply NoDup_cons. split; [|by apply NoDup_map_filter].
      intros Hx. by destruct (Hids id Hx).
Qed.

Lemma table_run_represents ops t taken live n :
  (0 <= n)%Z -> (n + Z.of_nat (length ops) <= u64_max)%Z -> represents n t taken live ->
  let '(t', taken') := fold_left table_step ops (t, taken) in
  represents (n + Z.of_nat (length ops)) t' taken' (live_run live (next t) ops).
Proof.
  revert t taken live n. induction ops as [|op ops IH]; intros t taken live n Hn Hlen Hrep.
  { simpl. by rewrite Z.add_0_r. }
  cbn [length] in *. cbn [fold_left live_run].
  replace (n + Z.of_nat (S (length ops)))%Z with (n + 1 + Z.of_nat (length ops))%Z by lia.
  destruct op as [event context once callable|event id]; cbn [table_step live_step].
  - pose proof (represents_insert n t taken live event context once callable
      ltac:(lia) Hrep) as Hrep'.
    specialize (IH _ _ _ (n + 1)%Z ltac:(lia) ltac:(lia) Hrep').
    pose proof (rep_next _ _ _ _ Hrep) as Hb.
    replace (next (insert_listener t event context once callable).2) with (next t + 1)%Z in IH;
      [exact IH|]. simpl. rewrite wrapping_add_small; unfold is_u64; lia.
  - pose proof (represents_remove n t taken live event id Hrep) as Hrep'.
    assert (Hnext : next (remove_listener t event id).2 = next t).
    { unfold remove_listener. by repeat case_match. }
    destruct (remove_listener t event id) as [removed t']. simpl in Hnext.
    rewrite <-Hnext. apply IH; [lia|lia|]. destruct Hrep' as [G1 G2 G3 G4].
    constructor; try done. lia.
Qed.

Lemma new_table_represents : represents 0 new_table [] [].
Proof. by constructor; simpl; try constructor; intros. Qed.
End Registrations.

(** ** The walks *)

Section Walks.
Context {L W E Out : Type}.
Abbreviation St := (World L W).
Context (event_type : TypeId).
Context (clone_event : E -> St -> St * (E + string)).
Context (call : L -> ContextId -> E -> St -> St * (settled Out * option string)).
Context (drop_handle : L -> St -> St * option string).

(** Every selection is visited once, in order: claimed, called and released,
    or found claimed elsewhere ([None]). *)
Inductive visits (caller : ContextId) (event : E) :
    list (Selection L) -> St -> list (option (result Out KernelError)) -> St -> Prop :=
  | visits_nil st : visits caller event [] st [] st
  | visits_taken sel sels st st1 errors vs st' :
      claim event_type drop_handle sel st = (st1, None, errors) ->
      visits caller event sels st1 vs st' ->
      visits caller event (sel :: sels) st (None :: vs) st'
  | visits_called sel sels st st1 l errors st2 r st3 released vs st' :
      claim event_type drop_handle sel st = (st1, Some l, errors) ->
      contained_call clone_event call l caller event st1 = (st2, r) ->
      release drop_handle l st2 = (st3, released) ->
      visits caller event sels st3 vs st' ->
      visits caller event (sel :: sels) st (Some r :: vs) st'.

Definition visit_output (v : option (result Out KernelError)) : option Out :=
  match v with Some (Ok o) => Some o | _ => None end.
Definition visit_error (v : option (result Out KernelError)) : option KernelError :=
  match v with Some (Err e) => Some e | _ => None end.

Lemma sublist_app_mid {A} (k l m : list A) : sublist k l -> sublist k (m ++ l).
Proof. intros H. by apply sublist_inserts_l. Qed.

Lemma serial_visits keep caller event sels st :
  exists vs, let '(st', outputs, failures) :=
      serial event_type clone_event call drop_handle keep caller event sels st in
    visits caller event sels st vs st' /\ length vs = length sels /\
    outputs = (if keep then omap visit_output vs else []) /\
    sublist (omap visit_error vs) failures.
Proof.
  revert st. induction sels as [|sel sels IH]; intros st; cbn [serial].
  { exists []. split_and!; [constructor|done|by destruct keep|done]. }
  destruct (claim event_type drop_handle sel st) as [[st1 [l|]] errors] eqn:Hc.
  - destruct (contained_call clone_event call l caller event st1) as [st2 r] eqn:Hr.
    destruct (release drop_handle l st2) as [st3 released] eqn:Hrel.
    destruct (IH st3) as [vs Hvs]. exists (Some r :: vs).
    destruct (serial _ _ _ _ keep caller event sels st3) as [[st' outputs] failures].
    destruct Hvs as (Hv & Hlen & Hout & Hfail).
    destruct r as [o|e]; (split_and!; [by econstructor|simpl; by rewrite Hlen|..]).
    + rewrite Hout. by destruct keep.
    + simpl. by do 2 apply sublist_app_mid.
    + rewrite Hout. by destruct keep.
    + simpl. apply sublist_app_mid. simpl. constructor. by apply sublist_app_mid.
  - destruct (IH st1) as [vs Hvs]. exists (None :: vs).
    destruct (serial _ _ _ _ keep caller event sels st1) as [[st' outputs] failures].
    destruct Hvs as (Hv & Hlen & Hout & Hfail).
    split_and!; [by econstructor|simpl; by rewrite Hlen|by rewrite Hout; destruct keep|].
    simpl. by apply sublist_app_mid.
Qed.
End Walks.

(** Listeners whose calls are logged in the world, and whose destructors do
    nothing: what a walk asks, and of whom, is then visible. *)
Section Logged.
Context {L E Out : Type}.
Context (answer : L -> E -> settled Out).

Definition logged_call (l : L) (_ : ContextId) (e : E) (st : World L (list (L * E)))
    : World L (list (L * E)) * (settled Out * option string) :=
  (MkWorld (table st) (world st ++ [(l, e)]), (answer l e, None)).
Definition plain_clone (e : E) (st : World L (list (L * E)))
    : World L (list (L * E)) * (E + string) := (st, inl e).
Definition plain_drop (_ : L) (st : World L (list (L * E)))
    : World L (list (L * E)) * option string := (st, None).

(** Bail, by definition: ask in order until an answer is decisive. *)
Fixpoint bail_reference (decides : Out -> bool) (event : E) (ls : list L)
    : list (L * E) * option Out :=
  match ls with
  | [] => ([], None)
  | l :: ls =>
      let rest := bail_reference decides event ls in
      match listener_contained (answer l event) None with
      | Ok o => if decides o then ([(l, event)], Some o) else ((l, event) :: rest.1, rest.2)
      | Err _ => ((l, event) :: rest.1, rest.2)
      end
  end.

(** Waterfall, by definition: each listener sees the payload as folded so
    far; a failure contributes nothing; a refusal ends the chain. *)
Fixpoint waterfall_reference (folds : E -> Out -> E * bool) (event : E) (ls : list L)
    : list (L * E) * E :=
  match ls with
  | [] => ([], event)
  | l :: ls =>
      match listener_contained (answer l event) None with
      | Ok o =>
          let '(event', continues) := folds event o in
          if continues then
            let rest := waterfall_reference folds event' ls in ((l, event) :: rest.1, rest.2)
          else ([(l, event)], event')
      | Err _ =>
          let rest := waterfall_reference folds event ls in ((l, event) :: rest.1, rest.2)
      end
  end.

Lemma discard_plain sels (st : World L (list (L * E))) : discard plain_drop sels st = (st, []).
Proof. induction sels as [|sel sels IH]; [done|]. simpl. by rewrite IH. Qed.

Lemma world_eta (st : World L (list (L * E))) : MkWorld (table st) (world st) = st.
Proof. by destruct st. Qed.
End Logged.

(** ** Properties *)

(** The listener table is the log of live registrations: after any sequence
    of registrations and removals, the snapshot of an event is exactly the
    registrations made for it and not removed since, in registration order. *)
Theorem table_is_the_registration_log {L} (ops : list (table_op L)) (event : TypeId) :
  (Z.of_nat (length ops) <= u64_max)%Z ->
  snapshot (table_run ops).1 event = of_event event (live_run [] 0 ops).
Proof.
  intros Hlen.
  pose proof (table_run_represents ops new_table [] [] 0 ltac:(done) Hlen new_table_represents)
    as H.
  unfold table_run. destruct (fold_left table_step ops _) as [t taken]. apply H.
Qed.

Lemma table_is_the_registration_log_witness :
  let ops := [OpInsert 1%Z (MkContextId 0) false true; OpInsert 2%Z (MkContextId 1) true true;
              OpInsert 1%Z (MkContextId 2) true false; OpRemove 1%Z 0%Z; OpRemove 2%Z 2%Z] in
  map entry_id (snapshot (table_run ops).1 1%Z) = [2%Z] /\
  snapshot (table_run ops).1 1%Z = of_event 1%Z (live_run [] 0 ops).
Proof.
  intros ops. split; [vm_compute; reflexivity|].
  apply (table_is_the_registration_log ops 1%Z). vm_compute. discriminate.
Defined.

(** A once-listener is delivered at most once: claiming one is removing its
    registration, and over any history of the table, whoever calls, each
    identity is taken at most once and is never drawn again. *)
Theorem registration_is_taken_at_most_once {L} (ops : list (table_op L)) :
  (Z.of_nat (length ops) <= u64_max)%Z ->
  NoDup (table_run ops).2 /\
  forall event e, e ∈ snapshot (table_run ops).1 event -> entry_id e ∉ (table_run ops).2.
Proof.
  intros Hlen.
  pose proof (table_run_represents ops new_table [] [] 0 ltac:(done) Hlen new_table_represents)
    as H.
  unfold table_run. destruct (fold_left table_step ops _) as [t taken].
  destruct H as [H1 _ _ H4]. apply NoDup_app in H4 as (Hnd & Hdis & _). split; [done|].
  intros event e He Hin. simpl in *. rewrite H1 in He. apply of_event_elem in He.
  apply (Hdis _ Hin). by apply (in_ids _ (event, e)).
Qed.

Lemma registration_is_taken_at_most_once_witness :
  let ops := [OpInsert 1%Z (MkContextId 0) true true; OpRemove 1%Z 0%Z; OpRemove 1%Z 0%Z;
              OpInsert 1%Z (MkContextId 0) true true] in
  (table_run ops).2 = [0%Z] /\
  NoDup (table_run ops).2 /\
  forall event e, e ∈ snapshot (table_run ops).1 event -> entry_id e ∉ (table_run ops).2.
Proof.
  intros ops. split; [vm_compute; reflexivity|].
  apply (registration_is_taken_at_most_once ops). vm_compute. discriminate.
Defined.

(** A failing listener never aborts a collecting walk (R9): whatever the
    listeners, their destructors and the payload's clone do, panics included,
    an emit or serial dispatch visits every selected listener once and in
    order; serial keeps every output in that order, emit none, and every
    failure of a listener is in the report. *)
Theorem collecting_walk_visits_every_listener {L W E Out} (event_type : TypeId) (keep : bool)
    (selects : E -> ContextId -> World L W -> World L W * (bool + string))
    (clone_event : E -> World L W -> World L W * (E + string))
    (decisive : E -> Out -> World L W -> World L W * (bool + string))
    (absorb : E -> Out -> World L W -> World L W * (E * (bool + string)))
    (drop_payload : E -> World L W -> World L W * option string)
    (call : L -> ContextId -> E -> World L W -> World L W * (settled Out * option string))
    (drop_handle : L -> World L W -> World L W * option string)
    (in_runtime : bool) (join_error : World L W -> option bool)
    (caller : ContextId) (event : E) (st : World L W) :
  let '(st1, selected, _) := select event_type selects drop_handle event st in
  let '(st', (report, chosen)) :=
    walk event_type (if keep then Serial else Emit) selects clone_event decisive absorb
      drop_payload call drop_handle in_runtime join_error caller event st in
  chosen = length selected /\ report_event report = event /\
  exists vs, visits event_type clone_event call drop_handle caller event selected st1 vs st' /\
    length vs = chosen /\
    report_outputs report = (if keep then omap visit_output vs else []) /\
    sublist (omap visit_error vs) (report_failures report).
Proof.
  unfold walk. destruct (select event_type selects drop_handle event st) as [[st1 selected] fs].
  pose proof (serial_visits event_type clone_event call drop_handle keep caller event selected st1)
    as [vs Hvs].
  destruct keep.
  - destruct (serial _ _ _ _ true caller event selected st1) as [[st' outs] more].
    destruct Hvs as (Hv & Hlen & Hout & Hf). split_and!; [done..|]. exists vs. simpl.
    split_and!; [done..|by apply sublist_app_mid].
  - destruct (serial _ _ _ _ false caller event selected st1) as [[st' outs] more].
    destruct Hvs as (Hv & Hlen & Hout & Hf). split_and!; [done..|]. exists vs. simpl.
    split_and!; [done..|by apply sublist_app_mid].
Qed.

(** Bail asks in registration order until a resolved answer is decisive,
    and no further: errors and panics never decide, the report carries the
    decisive output alone, and the listeners after it are not called. *)
Theorem bail_stops_at_the_first_decisive_answer {L E Out} (answer : L -> E -> settled Out)
    (decides : E -> Out -> bool) (event_type : TypeId) (caller : ContextId) (event : E)
    (selected : list (Selection L)) (st : World L (list (L * E))) :
  Forall (fun sel => sel_once sel = false) selected ->
  let '(asked, decided) :=
    bail_reference answer (decides event) event (map sel_listener selected) in
  exists failures,
    bail event_type plain_clone (fun e o st => (st, inl (decides e o))) (logged_call answer)
      plain_drop caller event selected st =
    (MkWorld (table st) (world st ++ asked), option_list decided, failures).
Proof.
  intros Honce. revert st. induction Honce as [|sel sels Hs Hall IH]; intros st; simpl.
  { exists []. by rewrite app_nil_r, world_eta. }
  unfold claim. rewrite Hs. simpl.
  destruct (bail_reference answer (decides event) event (map sel_listener sels))
    as [asked decided].
  set (st1 := MkWorld (table st) (world st ++ [(sel_listener sel, event)])).
  destruct (IH st1) as [failures Hf]. unfold st1 in Hf at 2 3. simpl in Hf.
  rewrite <-app_assoc in Hf. simpl in Hf.
  destruct (listener_contained (answer (sel_listener sel) event) None) as [o|e].
  - destruct (decides event o).
    + rewrite discard_plain. by eexists.
    + rewrite Hf. by eexists.
  - rewrite Hf. by eexists.
Qed.

Lemma bail_stops_at_the_first_decisive_answer_witness :
  let answer (l : nat) (e : nat) : settled nat :=
    if decide (l = 0) then inr "boom"%string else inl (Ok (l + e)) in
  let selected := [MkSelection 0%Z false 0; MkSelection 1%Z false 5; MkSelection 2%Z false 9] in
  Forall (fun sel => sel_once sel = false) selected /\
  let '(asked, decided) := bail_reference answer (Nat.leb 6) 1 (map sel_listener selected) in
  asked = [(0, 1); (5, 1)] /\ decided = Some 6 /\
  exists failures,
    bail 0%Z plain_clone (fun e o st => (st, inl (Nat.leb 6 o))) (logged_call answer) plain_drop
      (MkContextId 0) 1 selected (MkWorld new_table []) =
    (MkWorld new_table ([] ++ asked), option_list decided, failures).
Proof.
  intros answer selected.
  assert (Hs : Forall (fun sel => sel_once sel = false) selected) by (repeat constructor).
  split; [exact Hs|]. split; [reflexivity|]. split; [reflexivity|].
  apply (bail_stops_at_the_first_decisive_answer answer (fun _ => Nat.leb 6) 0%Z (MkContextId 0) 1
    selected (MkWorld new_table []) Hs).
Defined.

(** Waterfall threads the payload: each listener is called with the payload
    as every earlier success folded it, a failing listener changes nothing, and
    the first refusal of the payload ends the chain with the fold so far. *)
Theorem waterfall_threads_the_payload {L E Out} (answer : L -> E -> settled Out)
    (folds : E -> Out -> E * bool) (event_type : TypeId) (caller : ContextId) (event : E)
    (selected : list (Selection L)) (st : World L (list (L * E))) :
  Forall (fun sel => sel_once sel = false) selected ->
  let '(asked, final) := waterfall_reference answer folds event (map sel_listener selected) in
  exists failures,
    waterfall event_type plain_clone
      (fun e o st => (st, ((folds e o).1, inl (folds e o).2))) (logged_call answer)
      plain_drop caller event selected st =
    (MkWorld (table st) (world st ++ asked), final, failures).
Proof.
  intros Honce. revert event st. induction Honce as [|sel sels Hs Hall IH]; intros event st; simpl.
  { exists []. by rewrite app_nil_r, world_eta. }
  unfold claim. rewrite Hs. simpl.
  set (st1 := MkWorld (table st) (world st ++ [(sel_listener sel, event)])).
  assert (Hnext : forall event', exists failures,
    waterfall event_type plain_clone
      (fun e o st => (st, ((folds e o).1, inl (folds e o).2))) (logged_call answer)
      plain_drop caller event' sels st1 =
    (MkWorld (table st) (world st ++ (sel_listener sel, event) ::
        (waterfall_reference answer folds event' (map sel_listener sels)).1),
     (waterfall_reference answer folds event' (map sel_listener sels)).2, failures)).
  { intros event'. specialize (IH event' st1).
    destruct (waterfall_reference answer folds event' (map sel_listener sels)) as [asked final].
    destruct IH as [failures Hf]. exists failures. rewrite Hf. unfold st1. simpl.
    by rewrite <-app_assoc. }
  destruct (listener_contained (answer (sel_listener sel) event) None) as [o|e].
  - destruct (folds event o) as [event' [|]]; simpl.
    + destruct (Hnext event') as [failures Hf]. rewrite Hf. by eexists.
    + rewrite discard_plain. by eexists.
  - destruct (Hnext event) as [failures Hf]. rewrite Hf. by eexists.
Qed.

Lemma waterfall_threads_the_payload_witness :
  let answer (l : nat) (e : nat) : settled nat :=
    if decide (l = 0) then inl (Err (MkKernelError PluginFailed "no" None)) else inl (Ok l) in
  let folds (e o : nat) := (e + o, Nat.leb (e + o) 6) in
  let selected := [MkSelection 0%Z false 4; MkSelection 1%Z false 0; MkSelection 2%Z false 3;
                   MkSelection 3%Z false 7] in
  Forall (fun sel => sel_once sel = false) selected /\
  let '(asked, final) := waterfall_reference answer folds 1 (map sel_listener selected) in
  asked = [(4, 1); (0, 5); (3, 5)] /\ final = 8 /\
  exists failures,
    waterfall 0%Z plain_clone (fun e o st => (st, ((folds e o).1, inl (folds e o).2)))
      (logged_call answer) plain_drop (MkContextId 0) 1 selected (MkWorld new_table []) =
    (MkWorld new_table ([] ++ asked), final, failures).
Proof.
  intros answer folds selected.
  assert (Hs : Forall (fun sel => sel_once sel = false) selected) by (repeat constructor).
  split; [exact Hs|]. split; [reflexivity|]. split; [reflexivity|].
  apply (waterfall_threads_the_payload answer folds 0%Z (MkContextId 0) 1
    selected (MkWorld new_table []) Hs).
Defined.
