(* ===== verification/Ledger.v ===== *)
(** * The ledger: one append-only stream behind a single writer

    [crates/jinnd-ledger/src/{store,writer}.rs] and [writer/query.rs]: the
    operations that cross to the writer thread, what the thread does for each
    of them, and the channel that orders them. SQLite and the JSON codec are
    code of other packages: they are the classes [Database] and [Codec], with
    the behaviour the writer relies on as the laws of [DatabaseLaws] and
    [CodecLaws]. What the ledger promises to its clients is the class
    [EventLog], which the writer's own operations discharge at the end. *)

From Stdlib Require Import Ascii.
From stdpp Require Import base gmap sets list strings sorting pretty.
From S2P Require Import Prelude Api.

(** ** What the writer calls *)

(** A row of the one table, [events]. *)
Record Row := MkRow {
  row_seq : Z;
  row_ts : Z;
  row_entry : option string;
  row_fiber : option Z;
  row_kind : string;
}.

(** A connection: its committed rows, the three statements the writer runs,
    and [last_insert_rowid]. A refusal carries SQLite's message. A selection
    fails when it is prepared, or row by row while it is read. *)
Class Database (C : Type) := {
  events_table : C -> list Row;
  insert_event : Z -> option string -> option Z -> string -> C -> C * result () string;
  last_insert_rowid : C -> Z;
  select_events : option string -> option Z -> option Z -> Z -> C ->
    result (list (result Row string)) string;
  select_max_seq : C -> result (option Z) string;
}.

(** [to_string] and [from_str] of the codec, at [LedgerEventKind]. *)
Class Codec := {
  to_json : LedgerEventKind -> result string string;
  from_json : string -> result LedgerEventKind string;
}.

(** The [WHERE] clause of the selection, and its [LIMIT]: a negative one is
    no bound. *)
Definition row_matches (entry : option string) (fiber from : option Z) (r : Row) : Prop :=
  (entry = None \/ row_entry r = entry) /\
  (fiber = None \/ row_fiber r = fiber) /\
  (match from with None => True | Some s => (s <= row_seq r)%Z end).

#[export] Instance row_matches_dec entry fiber from r : Decision (row_matches entry fiber from r).
Proof. unfold row_matches. destruct from; apply _. Defined.

Definition limited {A} (limit : Z) (l : list A) : list A :=
  if decide (limit < 0)%Z then l else take (Z.to_nat limit) l.

Definition seq_le (a b : Row) : Prop := (row_seq a <= row_seq b)%Z.
Definition seq_lt (a b : Row) : Prop := (row_seq a < row_seq b)%Z.
#[export] Instance seq_le_dec : RelDecision seq_le.
Proof. intros a b. unfold seq_le. apply _. Defined.

Definition greatest (rows : list Row) : option Z :=
  foldr (fun r m => Some (default (row_seq r) (Z.max (row_seq r) <$> m))) None rows.

(** What SQLite documents of these statements: an insert into an
    [AUTOINCREMENT] table commits one row under a key above every key ever
    used, which [last_insert_rowid] then reports, or it changes nothing; a
    selection that is read to its end delivers the matching rows in key
    order, as many as its limit allows; [MAX] is the greatest key. A primary
    key names one row. *)
Class DatabaseLaws (C : Type) `{Database C} := {
  keys_unique (c : C) : NoDup (row_seq <$> events_table c);
  insert_commits ts entry fiber kind (c c' : C) :
    insert_event ts entry fiber kind c = (c', Ok tt) ->
    exists seq,
      events_table c' = events_table c ++ [MkRow seq ts entry fiber kind] /\
      last_insert_rowid c' = seq /\ (0 < seq <= i64_max)%Z /\
      Forall (fun r => row_seq r < seq)%Z (events_table c);
  insert_refuses ts entry fiber kind (c c' : C) e :
    insert_event ts entry fiber kind c = (c', Err e) -> events_table c' = events_table c;
  select_delivers entry fiber from limit (c : C) rows :
    select_events entry fiber from limit c = Ok (Ok <$> rows) ->
    rows = limited limit
             (filter (row_matches entry fiber from) (merge_sort seq_le (events_table c)));
  max_is_greatest (c : C) m :
    select_max_seq c = Ok m -> m = greatest (events_table c);
}.

(** What is encoded is what is decoded. *)
Class CodecLaws `{Codec} := {
  codec_roundtrip kind s : to_json kind = Ok s -> from_json s = Ok kind;
}.

(** ** The writer ([writer.rs], [writer/query.rs]) *)

(** [LedgerError], with the text its [Display] gives. *)
Inductive LedgerError :=
  | Closed
  | Storage (message : string).

Definition ledger_error_text (e : LedgerError) : string :=
  match e with
  | Closed => "the ledger writer is closed"
  | Storage m => "ledger storage error: " +:+ m
  end.

(** [i64::try_from(_).unwrap_or(i64::MAX)] of a [u64], and [u64::try_from]
    of an [i64]. *)
Definition saturate_i64 (z : Z) : Z := if decide (z <= i64_max)%Z then z else i64_max.
Definition u64_of (z : Z) : option Z := if decide (0 <= z)%Z then Some z else None.

(** The elapsed milliseconds since the epoch; [None] is a clock before it. *)
Definition now_millis (elapsed : option Z) : Z :=
  match elapsed with Some ms => saturate_i64 ms | None => 0 end.

(** [Op]. The acknowledgement of an append is waived on the unreceipted lane. *)
Inductive Op :=
  | Append (kind : LedgerEventKind) (entry : option EntryId) (fiber : option FiberId)
      (receipted : bool)
  | Query (query : LedgerQuery) (limit : option Z)
  | Last.

(** What an acknowledgement carries; [Waived] when there is none. *)
Inductive Answer :=
  | Appended (r : result Receipt LedgerError)
  | Selected (r : result (list LedgerRecord) LedgerError)
  | LastIs (r : result Z LedgerError)
  | Waived.

Section Writer.
Context {C : Type} {db : Database C} {json : Codec}.
Implicit Types (c : C).

Definition append (now : option Z) (kind : LedgerEventKind) (entry : option EntryId)
    (fiber : option FiberId) c : C * result Receipt LedgerError :=
  match to_json kind with
  | Err e => (c, Err (Storage e))
  | Ok encoded =>
      match insert_event (now_millis now) (entry_id <$> entry)
              ((fun f => saturate_i64 (fiber_id f)) <$> fiber) encoded c with
      | (c, Err e) => (c, Err (Storage e))
      | (c, Ok _) => (c, Ok (MkReceipt (default 0%Z (u64_of (last_insert_rowid c)))))
      end
  end.

(** The honesty append; its own refusal goes to the process trace. *)
Definition record_refusal (now : option Z) (refused : LedgerError) (entry : option EntryId)
    (fiber : option FiberId) c : C :=
  (append now
     (ErrorRecorded (MkKernelError EffectFailed
        ("unreceipted ledger append failed: " +:+ ledger_error_text refused) fiber))
     entry fiber c).1.

(** A row, read back. *)
Definition record_of (r : Row) : result LedgerRecord LedgerError :=
  match from_json (row_kind r) with
  | Err e => Err (Storage e)
  | Ok kind =>
      Ok (MkLedgerRecord (default 0%Z (u64_of (row_seq r))) (default 0%Z (u64_of (row_ts r)))
            kind (MkEntryId <$> row_entry r) (MkFiberId <$> (row_fiber r ≫= u64_of)))
  end.

Fixpoint collect (rows : list (result Row string)) : result (list LedgerRecord) LedgerError :=
  match rows with
  | [] => Ok []
  | Err e :: _ => Err (Storage e)
  | Ok r :: rows =>
      match record_of r with
      | Err e => Err e
      | Ok record =>
          match collect rows with
          | Err e => Err e
          | Ok records => Ok (record :: records)
          end
      end
  end.

Definition select (q : LedgerQuery) (limit : option Z) c
    : result (list LedgerRecord) LedgerError :=
  match select_events (entry_id <$> query_entry q)
          ((fun f => saturate_i64 (fiber_id f)) <$> query_fiber q)
          (saturate_i64 <$> query_from q) (default (-1)%Z limit) c with
  | Err e => Err (Storage e)
  | Ok rows => collect rows
  end.

Definition last_committed c : result Z LedgerError :=
  match select_max_seq c with
  | Err e => Err (Storage e)
  | Ok m => Ok (default 0%Z (m ≫= u64_of))
  end.

(** [serve]: one operation, with the readings of the clock its inserts make. *)
Definition serve (now : option Z * option Z) (op : Op) c : C * Answer :=
  match op with
  | Append kind entry fiber receipted =>
      let '(c, appended) := append now.1 kind entry fiber c in
      if receipted then (c, Appended appended)
      else
        match appended with
        | Ok _ => (c, Waived)
        | Err refused => (record_refusal now.2 refused entry fiber c, Waived)
        end
  | Query q limit => (c, Selected (select q limit c))
  | Last => (c, LastIs (last_committed c))
  end.

(** ** The channel ([store.rs], and the loop of [spawn])

    Callers send; the thread receives in send order and answers. *)

Record Channel := MkChannel {
  connection : C;
  unserved : list Op;
  answers : list Answer;
}.

Inductive channel_event :=
  | Send (op : Op)
  | Receive (now : option Z * option Z).

Definition channel_step (e : channel_event) (ch : Channel) : Channel :=
  match e with
  | Send op => MkChannel (connection ch) (unserved ch ++ [op]) (answers ch)
  | Receive now =>
      match unserved ch with
      | [] => ch
      | op :: ops =>
          let '(c, a) := serve now op (connection ch) in MkChannel c ops (answers ch ++ [a])
      end
  end.

Definition channel_run (es : list channel_event) (ch : Channel) : Channel :=
  fold_left (fun ch e => channel_step e ch) es ch.

(** The operations, one after the other. *)
Fixpoint serve_all (ops : list ((option Z * option Z) * Op)) c : C * list Answer :=
  match ops with
  | [] => (c, [])
  | (now, op) :: ops =>
      let '(c, a) := serve now op c in
      let '(c, rest) := serve_all ops c in (c, a :: rest)
  end.
End Writer.
Arguments Channel : clear implicits.

(** The methods of [Ledger], as what they send. *)
Definition ledger_append kind entry fiber : Op := Append kind entry fiber true.
Definition ledger_record kind entry fiber : Op := Append kind entry fiber false.
Definition ledger_events (q : LedgerQuery) : Op := Query q None.
Definition ledger_page (from limit : Z) : Op :=
  Query (MkLedgerQuery None None (Some from)) (Some limit).
Definition ledger_last_sequence : Op := Last.

(** ** What the ledger promises its clients *)

Class EventLog (L : Type) := {
  log : L -> list LedgerRecord;
  log_append : option Z -> LedgerEventKind -> option EntryId -> option FiberId -> L ->
    L * result Receipt LedgerError;
  log_events : LedgerQuery -> L -> result (list LedgerRecord) LedgerError;
}.

Definition whole_stream : LedgerQuery := MkLedgerQuery None None None.

Class EventLogLaws (L : Type) `{EventLog L} := {
  log_append_ok now kind entry fiber (l l' : L) r :
    log_append now kind entry fiber l = (l', Ok r) ->
    exists record,
      log l' = log l ++ [record] /\ record_kind record = kind /\
      record_sequence record = receipt_sequence r;
  log_append_err now kind entry fiber (l l' : L) e :
    log_append now kind entry fiber l = (l', Err e) -> log l' = log l;
  log_events_all (l : L) records :
    log_events whole_stream l = Ok records -> records = log l;
}.

(** ** The table and its order *)

#[export] Instance seq_le_trans : Transitive seq_le.
Proof. unfold seq_le. intros a b c. lia. Qed.
#[export] Instance seq_le_total : Total seq_le.
Proof. unfold seq_le. intros a b. lia. Qed.

Abbreviation in_order := (merge_sort seq_le).

Lemma in_order_unique (l l' : list Row) :
  NoDup (row_seq <$> l) -> StronglySorted seq_le l' -> l' ≡ₚ l -> in_order l = l'.
Proof.
  intros Hnd Hs Hp. symmetry. apply (StronglySorted_unique_strong seq_le).
  - intros a b Ha Hb H1 H2. unfold seq_le in *. rewrite Hp in Ha.
    rewrite merge_sort_Permutation in Hb.
    eapply (NoDup_map_inj row_seq); [exact Hnd|done..|]. lia.
  - done.
  - apply StronglySorted_merge_sort; apply _.
  - by rewrite merge_sort_Permutation.
Qed.

Lemma in_order_snoc l r :
  NoDup (row_seq <$> l ++ [r]) -> Forall (fun x => row_seq x < row_seq r)%Z l ->
  in_order (l ++ [r]) = in_order l ++ [r].
Proof.
  intros Hnd Hlt. apply in_order_unique; [done| |by rewrite merge_sort_Permutation].
  apply StronglySorted_app. split_and!.
  - intros a b Ha ->%list_elem_of_singleton. rewrite merge_sort_Permutation in Ha.
    rewrite Forall_forall in Hlt. unfold seq_le. specialize (Hlt _ Ha). simpl in Hlt. lia.
  - apply StronglySorted_merge_sort; apply _.
  - repeat constructor.
Qed.

Lemma in_order_strict l : NoDup (row_seq <$> l) -> StronglySorted seq_lt (in_order l).
Proof.
  intros Hnd.
  pose proof (StronglySorted_merge_sort seq_le l) as Hs.
  assert (NoDup (row_seq <$> in_order l)) as Hnd' by by rewrite merge_sort_Permutation.
  induction Hs as [|r l' Hs IH Hall]; constructor.
  - apply IH. by apply NoDup_cons in Hnd' as [_ ?].
  - apply NoDup_cons in Hnd' as [Hr _]. rewrite Forall_forall in *. intros x Hx.
    specialize (Hall x Hx). unfold seq_le, seq_lt in *.
    assert (row_seq r <> row_seq x); [|lia]. intros Heq. apply Hr. rewrite Heq.
    by apply list_elem_of_fmap_2.
Qed.

(** ** What each operation does to the stream *)

Section WriterLemmas.
Context {C : Type} {db : Database C} {db_laws : DatabaseLaws C} {json : Codec}
  {json_laws : CodecLaws}.
Implicit Types (c : C).

(** The stream a connection holds: its rows in key order, read back. *)
Definition stream c : list LedgerRecord :=
  omap (fun r => ok (record_of r)) (in_order (events_table c)).

(** The fiber column holds an [i64]. *)
Definition column_fits (fiber : option FiberId) : Prop :=
  match fiber with Some f => (0 <= fiber_id f <= i64_max)%Z | None => True end.

Lemma fiber_column fiber :
  column_fits fiber ->
  MkFiberId <$> (((fun f => saturate_i64 (fiber_id f)) <$> fiber) ≫= u64_of) = fiber.
Proof.
  destruct fiber as [[z]|]; simpl; [|done]. intros Hz. unfold saturate_i64.
  destruct (decide (z <= i64_max)%Z); [|lia]. unfold u64_of. by rewrite decide_True by lia.
Qed.

Lemma entry_column (entry : option EntryId) : MkEntryId <$> (entry_id <$> entry) = entry.
Proof. by destruct entry as [[]|]. Qed.

(** An accepted append adds one record at the end of the stream, and its
    receipt names it. *)
Lemma append_Ok now kind entry fiber c c' r :
  append now kind entry fiber c = (c', Ok r) ->
  exists row record,
    events_table c' = events_table c ++ [row] /\
    Forall (fun x => row_seq x < row_seq row)%Z (events_table c) /\
    record_of row = Ok record /\ stream c' = stream c ++ [record] /\
    row_seq row = receipt_sequence r /\ record_sequence record = receipt_sequence r /\
    record_kind record = kind /\ record_entry record = entry /\
    (column_fits fiber -> record_fiber record = fiber).
Proof.
  unfold append. destruct (to_json kind) as [encoded|] eqn:Hk; [|done].
  destruct (insert_event _ _ _ _ _) as [c1 [[]|]] eqn:Hi; [|done].
  intros [= <- <-]. apply insert_commits in Hi as (seq & Ht & Hl & Hseq & Hall).
  pose proof (keys_unique c1) as Hnd. rewrite Ht in Hnd.
  assert (u64_of seq = Some seq) as Hu by (unfold u64_of; by rewrite decide_True by lia).
  pose (row := MkRow seq (now_millis now) (entry_id <$> entry)
                 ((fun f => saturate_i64 (fiber_id f)) <$> fiber) encoded).
  change (events_table c1 = events_table c ++ [row]) in Ht.
  change (NoDup (row_seq <$> events_table c ++ [row])) in Hnd.
  assert (record_of row = Ok (MkLedgerRecord seq (default 0%Z (u64_of (now_millis now))) kind
            entry (MkFiberId <$> (row_fiber row ≫= u64_of)))) as Hrec.
  { unfold record_of. simpl. rewrite (codec_roundtrip _ _ Hk), Hu. by rewrite entry_column. }
  eexists row, _. split; [exact Ht|]. split; [done|]. split; [exact Hrec|].
  rewrite Hl, Hu. simpl. split_and!; try done.
  - unfold stream. rewrite Ht, in_order_snoc by done. rewrite omap_app. simpl.
    by rewrite Hrec.
  - apply fiber_column.
Qed.

Lemma same_stream c c' : events_table c' = events_table c -> stream c' = stream c.
Proof. unfold stream. by intros ->. Qed.

Lemma append_Err now kind entry fiber c c' e :
  append now kind entry fiber c = (c', Err e) -> events_table c' = events_table c.
Proof.
  unfold append. destruct (to_json kind) as [encoded|]; [|by intros [= <- <-]].
  destruct (insert_event _ _ _ _ _) as [c1 [[]|]] eqn:Hi; [done|].
  intros [= <- <-]. by apply insert_refuses in Hi.
Qed.

(** The table only ever grows, and above every key it had. *)
Definition grows c c' : Prop :=
  exists more, events_table c' = events_table c ++ more /\
    Forall (fun r => Forall (fun x => row_seq x < row_seq r)%Z (events_table c)) more.

Lemma append_grows now kind entry fiber c c' a :
  append now kind entry fiber c = (c', a) -> grows c c'.
Proof.
  destruct a as [r|e]; intros Ha.
  - apply append_Ok in Ha as (row & _ & Ht & Hall & _). exists [row]. split; [done|].
    by repeat constructor.
  - apply append_Err in Ha. exists []. by rewrite app_nil_r.
Qed.

#[export] Instance grows_refl : Reflexive grows.
Proof. intros c. exists []. by rewrite app_nil_r. Qed.

#[export] Instance grows_trans : Transitive grows.
Proof.
  intros c1 c2 c3 (m1 & H1 & F1) (m2 & H2 & F2). exists (m1 ++ m2).
  split; [by rewrite H2, H1, <-app_assoc|]. apply Forall_app. split; [done|].
  rewrite Forall_forall in F2 |- *. intros r Hr. specialize (F2 r Hr). rewrite H1 in F2.
  by apply Forall_app in F2 as [? _].
Qed.

Lemma serve_grows now op c c' a : serve now op c = (c', a) -> grows c c'.
Proof.
  destruct op as [kind entry fiber receipted|q limit|]; simpl; [|by intros [= <- <-]..].
  destruct (append now.1 kind entry fiber c) as [c1 r] eqn:Ha.
  pose proof (append_grows _ _ _ _ _ _ _ Ha) as Hg.
  destruct receipted; [by intros [= <- <-]|]. destruct r as [r|e]; [by intros [= <- <-]|].
  intros [= <- <-]. etrans; [exact Hg|]. unfold record_refusal.
  destruct (append now.2 _ entry fiber c1) as [c2 r2] eqn:Hb.
  by eapply append_grows.
Qed.

Lemma serve_all_grows ops c : grows c (serve_all ops c).1.
Proof.
  revert c. induction ops as [|[now op] ops IH]; intros c; simpl; [done|].
  destruct (serve now op c) as [c1 a] eqn:Hs.
  specialize (IH c1). destruct (serve_all ops c1) as [c2 rest]. simpl in *.
  etrans; [by eapply serve_grows|done].
Qed.

(** What was on the stream stays there. *)
Lemma grows_stream c c' record : grows c c' -> record ∈ stream c -> record ∈ stream c'.
Proof.
  intros (more & Ht & _). unfold stream. rewrite !list_elem_of_omap.
  intros (row & Hrow & Hr). exists row. split; [|done].
  rewrite merge_sort_Permutation in *. rewrite Ht. apply elem_of_app. by left.
Qed.

(** *** Reads *)

Lemma collect_Ok rows records :
  collect rows = Ok records ->
  exists rs, rows = Ok <$> rs /\ records = omap (fun r => ok (record_of r)) rs.
Proof.
  revert records. induction rows as [|[r|e] rows IH]; intros records; simpl; [|..|done].
  - intros [= <-]. by exists [].
  - destruct (record_of r) as [rec|] eqn:Hr; [|done].
    destruct (collect rows) as [recs|]; [|done]. intros [= <-].
    destruct (IH recs eq_refl) as (rs & -> & ->). exists (r :: rs). simpl. by rewrite Hr.
Qed.

Lemma collect_decodable rs :
  Forall (fun r => is_ok (record_of r) = true) rs ->
  collect (Ok <$> rs) = Ok (omap (fun r => ok (record_of r)) rs).
Proof.
  induction 1 as [|r rs Hr Hrs IH]; [done|]. rewrite fmap_cons. cbn [collect omap list_omap].
  destruct (record_of r); [|done]. by rewrite IH.
Qed.

(** A selection that succeeds delivers the matching part of the stream. *)
Lemma select_Ok q limit c records :
  select q limit c = Ok records ->
  records = omap (fun r => ok (record_of r))
    (limited (default (-1)%Z limit)
       (filter (row_matches (entry_id <$> query_entry q)
                  ((fun f => saturate_i64 (fiber_id f)) <$> query_fiber q)
                  (saturate_i64 <$> query_from q)) (in_order (events_table c)))).
Proof.
  unfold select. destruct (select_events _ _ _ _ _) as [rows|] eqn:Hs; [|done].
  intros (rs & -> & ->)%collect_Ok. by apply select_delivers in Hs as ->.
Qed.

Lemma select_whole c records : select whole_stream None c = Ok records -> records = stream c.
Proof.
  intros ->%select_Ok. unfold stream, limited. simpl.
  rewrite filter_all; [done|]. apply Forall_true. intros r. unfold row_matches. auto.
Qed.

(** The connection, behind its writer, is the log its clients rely on. *)
#[export] Instance ledger_log : EventLog C := {|
  log := stream;
  log_append := append;
  log_events := fun q => select q None;
|}.

#[export] Instance ledger_log_laws : EventLogLaws C.
Proof.
  split.
  - intros now kind entry fiber l l' r Ha.
    destruct (append_Ok _ _ _ _ _ _ _ Ha) as (_ & record & _ & _ & _ & Hs & _ & Hq & Hk & _).
    by exists record.
  - intros now kind entry fiber l l' e Ha. by apply append_Err, same_stream in Ha.
  - apply select_whole.
Qed.

(** *** The channel serves in send order *)

Definition sends (es : list channel_event) : list Op :=
  omap (fun e => match e with Send op => Some op | Receive _ => None end) es.

Lemma serve_all_snoc ops now op c :
  serve_all (ops ++ [(now, op)]) c =
    let '(c', answers) := serve_all ops c in
    let '(c'', a) := serve now op c' in (c'', answers ++ [a]).
Proof.
  revert c. induction ops as [|[n o] ops IH]; intros c; simpl.
  - by destruct (serve now op c).
  - destruct (serve n o c) as [c1 a]. rewrite IH. destruct (serve_all ops c1) as [c2 rest].
    by destruct (serve now op c2).
Qed.

Lemma channel_run_snoc es e (ch : Channel C) :
  channel_run (es ++ [e]) ch = channel_step e (channel_run es ch).
Proof. unfold channel_run. by rewrite fold_left_app. Qed.

Lemma channel_in_order es c :
  exists served,
    let ch := channel_run es (MkChannel c [] []) in
    sends es = served.*2 ++ unserved ch /\
    serve_all served c = (connection ch, answers ch).
Proof.
  induction es as [|e es IH] using rev_ind; simpl.
  - by exists [].
  - destruct IH as (served & Hsent & Hall). rewrite channel_run_snoc.
    set (ch := channel_run es (MkChannel c [] [])) in *. unfold sends in *.
    rewrite omap_app, Hsent. destruct e as [op|now]; simpl.
    + exists served. by rewrite app_assoc.
    + rewrite app_nil_r. destruct (unserved ch) as [|op ops] eqn:Hu.
      * exists served. by rewrite Hu.
      * exists (served ++ [(now, op)]). rewrite serve_all_snoc, Hall.
        destruct (serve now op (connection ch)) as [c' a]. simpl.
        split; [|done]. by rewrite fmap_app, <-app_assoc.
Qed.

(** An operation that was served, where it stands among the others. *)
Lemma served_at ops c i now op :
  ops !! i = Some (now, op) ->
  let c1 := (serve_all (take i ops) c).1 in
  (serve_all ops c).2 !! i = Some (serve now op c1).2 /\
  grows (serve now op c1).1 (serve_all ops c).1.
Proof.
  revert c i. induction ops as [|[n o] ops IH]; intros c i Hi; [done|]. simpl.
  destruct i as [|i]; simpl in *.
  - injection Hi as -> ->. destruct (serve now op c) as [c1 a]. simpl.
    pose proof (serve_all_grows ops c1). by destruct (serve_all ops c1).
  - destruct (serve n o c) as [c1 a]. specialize (IH c1 i Hi) as [Ha Hg].
    destruct (serve_all (take i ops) c1) as [c2 rest]. simpl in *.
    by destruct (serve_all ops c1).
Qed.

Lemma served_between ops c i j now op :
  ops !! i = Some (now, op) -> i < j ->
  grows (serve now op (serve_all (take i ops) c).1).1 (serve_all (take j ops) c).1.
Proof.
  intros Hi Hij. assert (take j ops !! i = Some (now, op)) as Hi'.
  { by rewrite lookup_take_lt by lia. }
  apply (served_at _ c) in Hi' as [_ Hg]. by rewrite take_take, Nat.min_l in Hg by lia.
Qed.

Lemma grows_row c c' row : grows c c' -> row ∈ events_table c -> row ∈ events_table c'.
Proof. intros (more & -> & _) Hr. apply elem_of_app. by left. Qed.

(** A receipt in the answers was given by an append at its place. *)
Lemma receipted_at ops c i now kind entry fiber r :
  ops !! i = Some (now, ledger_append kind entry fiber) ->
  (serve_all ops c).2 !! i = Some (Appended (Ok r)) ->
  let c1 := (serve_all (take i ops) c).1 in
  exists c2, serve now (ledger_append kind entry fiber) c1 = (c2, Appended (Ok r)) /\
    append now.1 kind entry fiber c1 = (c2, Ok r).
Proof.
  intros Hi Ha. apply (served_at _ c) in Hi as [Ha' _]. rewrite Ha in Ha'. simpl in *.
  destruct (append _ _ _ _ _) as [c2 a] eqn:E. simpl in Ha'. simplify_eq. by exists c2.
Qed.

Lemma length_serve_all ops c : length (serve_all ops c).2 = length ops.
Proof.
  revert c. induction ops as [|[now op] ops IH]; intros c; simpl; [done|].
  destruct (serve now op c) as [c1 a]. specialize (IH c1).
  destruct (serve_all ops c1). simpl in *. by rewrite IH.
Qed.

Lemma answered_was_served served rest c i op a :
  (served.*2 ++ rest) !! i = Some op -> (serve_all served c).2 !! i = Some a ->
  exists now, served !! i = Some (now, op).
Proof.
  intros Hi Ha%lookup_lt_Some. rewrite length_serve_all in Ha.
  rewrite lookup_app_l in Hi by by rewrite length_fmap.
  rewrite list_lookup_fmap in Hi. destruct (served !! i) as [[now o]|]; [|done].
  simpl in Hi. simplify_eq. by exists now.
Qed.
End WriterLemmas.

(** ** Paging

    A reader that asks for page after page, each from the last delivered
    sequence plus one, until a page comes empty. *)

Section Paging.
Context {C : Type} {db : Database C} {db_laws : DatabaseLaws C} {json : Codec}.
Implicit Types (c : C).

Fixpoint read_on (pages : nat) (from limit : Z) c : result (list LedgerRecord) LedgerError :=
  match pages with
  | 0 => Ok []
  | S pages =>
      match serve (None, None) (ledger_page from limit) c with
      | (c, Selected (Ok records)) =>
          match last records with
          | None => Ok []
          | Some r =>
              match read_on pages (record_sequence r + 1) limit c with
              | Ok rest => Ok (records ++ rest)
              | Err e => Err e
              end
          end
      | (_, Selected (Err e)) => Err e
      | _ => Ok []
      end
  end.

(** Storage answers: no read is refused and every row decodes, under a key a
    reader can name the successor of. *)
Definition readable c : Prop :=
  (forall entry fiber from limit, exists rows,
     select_events entry fiber from limit c = Ok (Ok <$> rows)) /\
  Forall (fun r => (0 <= row_seq r < i64_max)%Z /\ is_ok (record_of r) = true) (events_table c).

Abbreviation decoded := (omap (fun r => ok (record_of r))).
Abbreviation from_seq s := (filter (row_matches None None (Some s))).

Lemma page_reads from limit c :
  readable c -> (0 <= from <= i64_max)%Z -> (0 < limit)%Z ->
  serve (None, None) (ledger_page from limit) c =
    (c, Selected (Ok (decoded (take (Z.to_nat limit) (from_seq from (in_order (events_table c))))))).
Proof.
  intros [Hsel Hdec] Hfrom Hlimit. simpl. unfold select. simpl.
  destruct (Hsel None None (Some (saturate_i64 from)) limit) as (rows & Hrows).
  rewrite Hrows. apply select_delivers in Hrows. unfold saturate_i64, limited in Hrows.
  rewrite decide_False in Hrows by lia. rewrite decide_True in Hrows by lia. subst rows.
  rewrite collect_decodable; [done|]. apply Forall_take. apply Forall_forall.
  intros r [_ Hr]%list_elem_of_filter. rewrite merge_sort_Permutation in Hr.
  rewrite Forall_forall in Hdec. by apply Hdec.
Qed.

(** In a sorted table, the rows after one of them are those from its key
    plus one. *)
Lemma from_successor l k r :
  StronglySorted seq_lt l -> l !! k = Some r ->
  from_seq (row_seq r + 1)%Z l = drop (S k) l.
Proof.
  intros Hs. revert k. induction Hs as [|x l Hs IH Hall]; intros k Hk; [done|].
  destruct k as [|k]; simpl in Hk.
  - injection Hk as ->. rewrite filter_cons_False by (unfold row_matches; lia).
    simpl. rewrite drop_0. apply filter_all. eapply Forall_impl; [exact Hall|].
    intros y. unfold seq_lt, row_matches. intros. split_and!; [by left..|lia].
  - pose proof (list_elem_of_lookup_2 _ _ _ Hk) as Hin. rewrite Forall_forall in Hall.
    specialize (Hall _ Hin). unfold seq_lt in Hall.
    rewrite filter_cons_False by (unfold row_matches; lia). by rewrite (IH k).
Qed.

Lemma decoded_snoc c l r :
  readable c -> r ∈ events_table c ->
  exists record, decoded (l ++ [r]) = decoded l ++ [record] /\
    record_sequence record = row_seq r.
Proof.
  intros [_ Hdec] Hr. rewrite Forall_forall in Hdec. destruct (Hdec r Hr) as [Hseq Hok].
  unfold record_of in Hok. rewrite omap_app. simpl. unfold record_of at 2.
  destruct (from_json (row_kind r)); [|done]. simpl. eexists. split; [done|]. simpl.
  unfold u64_of. by rewrite decide_True by lia.
Qed.

Lemma read_on_from pages c limit from k :
  readable c -> (0 < limit)%Z -> (0 <= from <= i64_max)%Z ->
  let table := in_order (events_table c) in
  from_seq from table = drop k table -> length (drop k table) < pages ->
  read_on pages from limit c = Ok (decoded (drop k table)).
Proof.
  intros Hread Hlimit. revert from k.
  induction pages as [|pages IH]; intros from k Hfrom table Hk Hlen; [lia|]. cbn [read_on]. rewrite page_reads by done. fold table. rewrite Hk.
  destruct (nil_or_snoc (take (Z.to_nat limit) (drop k table))) as [Hnil|(l & r & Hpage)].
  - rewrite Hnil. simpl. destruct (drop k table) as [|x rest]; [done|].
    destruct (Z.to_nat limit) eqn:?; [lia|]. by simpl in Hnil.
  - assert (drop k table = l ++ r :: drop (S (length l)) (drop k table)) as Hsplit.
    { by eapply take_snoc_split. }
    assert (table !! (k + length l) = Some r) as Hr.
    { rewrite <-lookup_drop, Hsplit. apply list_lookup_middle. done. }
    assert (r ∈ events_table c) as Hin.
    { apply list_elem_of_lookup_2 in Hr. unfold table in Hr.
      by rewrite merge_sort_Permutation in Hr. }
    destruct (decoded_snoc c l r Hread Hin) as (record & Hdec & Hseq).
    rewrite Hpage, Hdec, last_snoc, Hseq.
    pose proof (proj2 Hread) as Hall. rewrite Forall_forall in Hall. specialize (Hall r Hin).
    rewrite (IH _ (S (k + length l))).
    + rewrite drop_drop in Hsplit. 
      replace (k + S (length l)) with (S (k + length l)) in Hsplit by lia.
      rewrite <-Hdec, <-omap_app, <-app_assoc. simpl. fold table. by rewrite <-Hsplit.
    + lia.
    + apply from_successor; [|done]. apply in_order_strict, keys_unique.
    + fold table. pose proof (lookup_lt_Some _ _ _ Hr). rewrite !length_drop in *. lia.
Qed.

Abbreviation legible := (Forall (fun r => (0 <= row_seq r < i64_max)%Z /\ is_ok (record_of r) = true)).

Lemma length_decoded l : legible l -> length (decoded l) = length l.
Proof.
  induction 1 as [|r l [_ Hr] Hl IH]; simpl; [done|].
  destruct (record_of r); [|done]. simpl. f_equal. exact IH.
Qed.

Lemma decoded_sequence r record :
  (0 <= row_seq r)%Z -> record_of r = Ok record -> record_sequence record = row_seq r.
Proof.
  unfold record_of. destruct (from_json _); [|done]. intros Hr [= <-]. simpl.
  unfold u64_of. by rewrite decide_True by lia.
Qed.

Lemma decoded_sorted l :
  legible l -> StronglySorted seq_lt l ->
  StronglySorted Z.lt (record_sequence <$> decoded l).
Proof.
  intros Hl Hs. induction Hs as [|r l Hs IH Hall]; [constructor|].
  apply Forall_cons in Hl as [[Hr Hok] Hl]. simpl.
  destruct (record_of r) as [record|] eqn:Hrec; [|done]. simpl. constructor; [auto|].
  rewrite (decoded_sequence r) by (done || lia). apply Forall_fmap, Forall_forall.
  intros rec (x & Hx & Hxr)%list_elem_of_omap. rewrite Forall_forall in Hall, Hl.
  specialize (Hall x Hx). destruct (Hl x Hx) as [Hxs _]. simpl.
  destruct (record_of x) as [rx|] eqn:Ex; [|done]. simplify_eq/=.
  rewrite (decoded_sequence x) by (done || lia). exact Hall.
Qed.
End Paging.

(** ** A database in memory

    Rows numbered by their place, and a codec of two kinds of event: the laws
    can hold. *)
Module Memory.
Definition cells := list (Z * option string * option Z * string).

Definition row_at (i : nat) (x : Z * option string * option Z * string) : Row :=
  MkRow (Z.of_nat i + 1) x.1.1.1 x.1.1.2 x.1.2 x.2.

#[export] Instance database : Database cells := {|
  events_table c := imap row_at c;
  insert_event ts entry fiber kind c :=
    if decide (Z.of_nat (length c) < i64_max)%Z then (c ++ [(ts, entry, fiber, kind)], Ok tt)
    else (c, Err "database or disk is full");
  last_insert_rowid c := Z.of_nat (length c);
  select_events entry fiber from limit c :=
    Ok (Ok <$> limited limit (filter (row_matches entry fiber from) (in_order (imap row_at c))));
  select_max_seq c := Ok (greatest (imap row_at c));
|}.

#[export] Instance codec : Codec := {|
  to_json kind :=
    match kind with
    | EffectRegistered label => Ok (String "+"%char label)
    | ErrorRecorded (MkKernelError EffectFailed m None) => Ok (String "!"%char m)
    | _ => Err "unsupported kind"
    end;
  from_json s :=
    match s with
    | String "+"%char label => Ok (EffectRegistered label)
    | String "!"%char m => Ok (ErrorRecorded (MkKernelError EffectFailed m None))
    | _ => Err "expected value"
    end;
|}.

Lemma row_below c i r : imap row_at c !! i = Some r -> row_seq r = (Z.of_nat i + 1)%Z.
Proof.
  rewrite list_lookup_imap. destruct (c !! i); [|done]. by intros [= <-].
Qed.

#[export] Instance database_laws : DatabaseLaws cells.
Proof.
  split; simpl.
  - intros c. apply NoDup_alt. intros i j z. rewrite !list_lookup_fmap.
    destruct (imap row_at c !! i) as [a|] eqn:Ha; [|done].
    destruct (imap row_at c !! j) as [b|] eqn:Hb; [|done].
    apply row_below in Ha, Hb. intros [= <-] [= ?]. lia.
  - intros ts entry fiber kind c c'. destruct (decide _) as [Hlt|]; [|done]. intros [= <-].
    exists (Z.of_nat (length c) + 1)%Z. rewrite imap_app. simpl.
    split_and!; [by rewrite Nat.add_0_r|rewrite length_app; simpl; lia|lia|lia|].
    apply Forall_lookup. intros i r Hr. pose proof (lookup_lt_Some _ _ _ Hr) as Hi.
    rewrite length_imap in Hi. apply row_below in Hr. lia.
  - intros ts entry fiber kind c c' e. by destruct (decide _); intros [= <- ?].
  - intros entry fiber from limit c rows [= Hrows].
    assert (Inj (=) (=) (@Ok Row string)) by (by intros ?? [= ->]).
    by apply (inj (fmap (M := list) (@Ok Row string))) in Hrows.
  - by intros c m [= <-].
Qed.

#[export] Instance codec_laws : CodecLaws.
Proof.
  split. intros kind s. simpl. destruct kind; simpl; try done; [by intros [= <-]|].
  destruct error as [[] m [f|]]; try done. by intros [= <-].
Qed.

Definition appends : list channel_event :=
  [Send (ledger_append (EffectRegistered "a") None (Some (MkFiberId 7)));
   Send (ledger_append (EffectRegistered "b") None None);
   Receive (Some 5%Z, None); Send (ledger_events whole_stream);
   Receive (None, None); Receive (None, None)].
Definition empty : cells := [].
End Memory.
Import Memory.

(** ** The ledger's promises *)

(** C36: The stream is append-only and a receipt is proof of durability
    (constitution 02), whatever the interleaving of callers with the writer
    thread: no row ever leaves the table and new rows come after every key it
    had; an append that was answered with a receipt has its event on the
    stream, under the sequence the receipt names and with the attribution it
    was given; every read of the stream sent later delivers it; and every
    receipt given for a later append names a greater sequence. *)
Theorem receipts_are_durable {C : Type} {db : Database C} {json : Codec}
    (es : list channel_event) (c : C) :
  DatabaseLaws C -> CodecLaws ->
  let ch := channel_run es (MkChannel c [] []) in
  grows c (connection ch) /\
  forall i kind entry fiber r,
    sends es !! i = Some (ledger_append kind entry fiber) ->
    answers ch !! i = Some (Appended (Ok r)) ->
    exists record,
      record ∈ stream (connection ch) /\
      record_sequence record = receipt_sequence r /\ record_kind record = kind /\
      record_entry record = entry /\ (column_fits fiber -> record_fiber record = fiber) /\
      (forall j records, i < j -> sends es !! j = Some (ledger_events whole_stream) ->
        answers ch !! j = Some (Selected (Ok records)) -> record ∈ records) /\
      (forall j kind' entry' fiber' r', i < j ->
        sends es !! j = Some (ledger_append kind' entry' fiber') ->
        answers ch !! j = Some (Appended (Ok r')) ->
        (receipt_sequence r < receipt_sequence r')%Z).
Proof.
  intros db_laws json_laws ch. destruct (channel_in_order es c) as (served & Hsent & Hall).
  fold ch in Hsent, Hall.
  assert (connection ch = (serve_all served c).1) as Hc by by rewrite Hall.
  assert (answers ch = (serve_all served c).2) as Ha by by rewrite Hall.
  split; [rewrite Hc; apply serve_all_grows|]. rewrite Hc, Ha.
  rewrite Hsent.
  intros i kind entry fiber r Hi Hr. destruct (answered_was_served _ _ _ _ _ _ Hi Hr) as (now & Hs).
  destruct (receipted_at _ _ _ _ _ _ _ _ Hs Hr) as (c2 & Hserve & Happ).
  destruct (append_Ok _ _ _ _ _ _ _ Happ)
    as (row & record & Ht & _ & Hrow & Hst & Hseq & Hrs & Hk & He & Hf).
  pose proof (proj2 (served_at _ c _ _ _ Hs)) as Hg. rewrite Hserve in Hg.
  assert (record ∈ stream c2) as Hin.
  { rewrite Hst. apply elem_of_app. right. by apply list_elem_of_singleton. }
  exists record. split_and!; [by eapply grows_stream|done..| |].
  - intros j records Hij Hj Hrecs. destruct (answered_was_served _ _ _ _ _ _ Hj Hrecs) as (now' & Hs').
    destruct (served_at _ c _ _ _ Hs') as [Hans _]. rewrite Hrecs in Hans. simpl in Hans.
    simplify_eq. symmetry in Hans. apply select_whole in Hans as ->.
    pose proof (served_between _ c _ _ _ _ Hs Hij) as Hb. rewrite Hserve in Hb.
    by eapply grows_stream.
  - intros j kind' entry' fiber' r' Hij Hj Hr'. destruct (answered_was_served _ _ _ _ _ _ Hj Hr') as (now' & Hs').
    destruct (receipted_at _ _ _ _ _ _ _ _ Hs' Hr') as (c3 & _ & Happ').
    destruct (append_Ok _ _ _ _ _ _ _ Happ')
      as (row' & _ & _ & Hall' & _ & _ & Hseq' & _).
    pose proof (served_between _ c _ _ _ _ Hs Hij) as Hb. rewrite Hserve in Hb.
    rewrite Forall_forall in Hall'. rewrite <-Hseq, <-Hseq'. apply Hall'.
    eapply grows_row; [exact Hb|]. simpl. rewrite Ht. apply elem_of_app. right.
    by apply list_elem_of_singleton.
Qed.

Lemma receipts_are_durable_witness :
  exists record,
    record ∈ stream (connection (channel_run Memory.appends (MkChannel Memory.empty [] []))) /\
    record_sequence record = 1%Z /\ record_kind record = EffectRegistered "a" /\
    record_entry record = None /\ record_fiber record = Some (MkFiberId 7).
Proof.
  destruct (receipts_are_durable Memory.appends Memory.empty Memory.database_laws Memory.codec_laws)
    as [_ Hr].
  destruct (Hr 0 (EffectRegistered "a") None (Some (MkFiberId 7)) (MkReceipt 1)
              ltac:(vm_compute; reflexivity) ltac:(vm_compute; reflexivity))
    as (record & Hin & Hs & Hk & He & Hf & _).
  exists record. split_and!; try done. apply Hf. unfold column_fits, i64_max. simpl. lia.
Defined.

(** Paging walks the stream: a reader of a stream whose rows can all be
    read, asking for pages of any positive size, each from the sequence after
    the last one it was given, receives every record exactly once and in
    sequence order, and then an empty page, within one page more than there
    are records. *)
Theorem pages_walk_the_stream {C : Type} {db : Database C} {json : Codec} (c : C)
    (limit : Z) (pages : nat) :
  DatabaseLaws C -> readable c -> (0 < limit)%Z -> length (stream c) < pages ->
  read_on pages 0 limit c = Ok (stream c) /\
  StronglySorted Z.lt (record_sequence <$> stream c).
Proof.
  intros db_laws Hread Hlimit Hpages.
  pose proof (proj2 Hread) as Hall.
  assert (Forall (fun r => (0 <= row_seq r < i64_max)%Z /\ is_ok (record_of r) = true)
            (in_order (events_table c))) as Hrows by by rewrite merge_sort_Permutation.
  split.
  - apply (read_on_from _ _ _ _ 0); [done..|unfold i64_max; lia| |].
    + rewrite drop_0. apply filter_all. eapply Forall_impl; [exact Hrows|].
      intros r [? _]. unfold row_matches. split_and!; [by left..|lia].
    + rewrite drop_0. unfold stream in Hpages. by rewrite length_decoded in Hpages.
  - apply decoded_sorted; [done|]. apply in_order_strict, keys_unique.
Qed.

Lemma pages_walk_the_stream_witness :
  let c := connection (channel_run Memory.appends (MkChannel Memory.empty [] [])) in
  read_on 3 0 1 c = Ok (stream c) /\ length (stream c) = 2.
Proof.
  assert (stream (connection (channel_run Memory.appends (MkChannel Memory.empty [] []))) =
    [MkLedgerRecord 1 5 (EffectRegistered "a") None (Some (MkFiberId 7));
     MkLedgerRecord 2 0 (EffectRegistered "b") None None]) as Hs by (vm_compute; reflexivity).
  cbv zeta. split; [|by rewrite Hs].
  refine (proj1 (pages_walk_the_stream _ 1 3 Memory.database_laws _ _ _)).
  - split; [intros; eexists; reflexivity|]. repeat constructor; by vm_compute.
  - lia.
  - rewrite Hs. simpl. lia.
Defined.

(** A refused unreceipted append is never silent (R6, R11): [record]
    leaves on the stream its own event, under its own attribution; or, when
    storage refuses it, exactly one [ErrorRecorded] event that carries
    storage's words under the same attribution; and the stream stays as it
    was only when storage refused the honesty event too. Nothing else is
    ever written, and no acknowledgement is sent. *)
Theorem refused_record_testifies {C : Type} {db : Database C} {json : Codec}
    (c : C) now kind entry fiber :
  DatabaseLaws C -> CodecLaws ->
  let '(c', answer) := serve now (ledger_record kind entry fiber) c in
  let lands k := exists record,
    stream c' = stream c ++ [record] /\ record_kind record = k /\
    record_entry record = entry /\ (column_fits fiber -> record_fiber record = fiber) in
  answer = Waived /\
  match append now.1 kind entry fiber c with
  | (_, Ok _) => lands kind
  | (c1, Err refused) =>
      let honesty :=
        ErrorRecorded (MkKernelError EffectFailed
          ("unreceipted ledger append failed: " +:+ ledger_error_text refused) fiber) in
      match append now.2 honesty entry fiber c1 with
      | (_, Ok _) => lands honesty
      | (_, Err _) => stream c' = stream c
      end
  end.
Proof.
  intros db_laws json_laws. simpl.
  destruct (append now.1 kind entry fiber c) as [c1 [r|refused]] eqn:Ha.
  - apply append_Ok in Ha as (row & record & _ & _ & _ & Hs & _ & _ & Hk & He & Hf).
    split; [done|]. by exists record.
  - apply append_Err, same_stream in Ha. unfold record_refusal.
    destruct (append now.2 _ entry fiber c1) as [c2 [r|e]] eqn:Hb; simpl; (split; [done|]).
    + apply append_Ok in Hb as (row & record & _ & _ & _ & Hs & _ & _ & Hk & He & Hf).
      exists record. by rewrite <-Ha.
    + apply append_Err, same_stream in Hb. by rewrite Hb.
Qed.

Lemma refused_record_testifies_witness :
  let c' := (serve (None, Some 9%Z) (ledger_record (AlarmWake 3) None None) Memory.empty).1 in
  exists record, stream c' = [record] /\
    record_kind record = ErrorRecorded (MkKernelError EffectFailed
      "unreceipted ledger append failed: ledger storage error: unsupported kind" None).
Proof.
  destruct (refused_record_testifies Memory.empty (None, Some 9%Z) (AlarmWake 3) None None
              Memory.database_laws Memory.codec_laws) as [_ (record & Hs & Hk & _)].
  exists record. split; [exact Hs|exact Hk].
Defined.
