(* ===== verification/Revert.v ===== *)
(** * The revert lane: keyed, exactly-once reverts over the ledger

    [crates/jinnd-ledger/src/{claim,hydrate,revert}.rs]. The branch table is
    the finite map of [claim.rs], whose every operation is one critical
    section; [branch_from] is the fold of [hydrate.rs]; the two protocols of
    [revert.rs] are threads of one machine ([lane]), a step of which is one
    critical section or one awaited ledger operation. A process death loses
    the table and the threads and keeps the ledger. The inverse of a branch is
    opaque: it settles with an outcome, in a world it may have changed. The
    ledger is any [EventLog]. *)

From stdpp Require Import base gmap sets list strings.
From S2P Require Import Prelude Api Ledger.

(** ** The claim step ([claim.rs]) *)

(** A witness reads the world it runs in, and may panic. *)
Definition Witness (W : Type) := W -> W * (bool + string).

Record Branch (W : Type) := MkBranch {
  branch_key : RevertKey;
  branch_state : RevertResolution;
  branch_witness : Witness W;
  resumable : bool;
}.
Arguments MkBranch {W}. Arguments branch_key {W}. Arguments branch_state {W}.
Arguments branch_witness {W}. Arguments resumable {W}.

Inductive Claim :=
  | Fresh
  | Resumed
  | Recorded (state : RevertResolution)
  | Refused.

Section Branches.
Context {W : Type}.
Implicit Types (bs : gmap EffectId (Branch W)) (effect : EffectId).

Definition claim effect (key : RevertKey) (witness : Witness W) bs
    : gmap EffectId (Branch W) * Claim :=
  match bs !! effect with
  | Some b =>
      if decide (branch_key b <> key) then (bs, Refused)
      else if resumable b then
        (<[effect := MkBranch (branch_key b) (branch_state b) witness false]> bs, Resumed)
      else (bs, Recorded (branch_state b))
  | None => (<[effect := MkBranch key PendingRevert witness false]> bs, Fresh)
  end.

Definition state_of effect bs : option RevertResolution := branch_state <$> bs !! effect.

Definition pending_witness effect bs : option (Witness W) :=
  b ← bs !! effect;
  match branch_state b with PendingRevert => Some (branch_witness b) | _ => None end.

Definition resolve_branch effect (state : RevertResolution) bs : gmap EffectId (Branch W) :=
  alter (fun b => MkBranch (branch_key b) state (branch_witness b) (resumable b)) effect bs.

Definition seed effect (b : Branch W) bs : gmap EffectId (Branch W) :=
  match bs !! effect with Some _ => bs | None => <[effect := b]> bs end.

(** ** Reconstruction ([hydrate.rs]) *)

Record folded := MkFolded {
  bound : option RevertKey;
  folded_state : option RevertResolution;
  completed : bool;
}.

Definition fold_record effect (acc : folded) (record : LedgerRecord) : folded :=
  match record_kind record with
  | RevertIntent key at_effect =>
      if decide (at_effect = effect) then
        MkFolded (Some (default (MkRevertKey key) (bound acc)))
          (Some (default PendingRevert (folded_state acc))) (completed acc)
      else acc
  | RevertCompleted _ at_effect clean =>
      if decide (at_effect = effect) then
        MkFolded (bound acc) (Some (if clean then Reverted else PendingRevert)) true
      else acc
  | RevertResolved at_effect resolution =>
      if decide (at_effect = effect) then MkFolded (bound acc) (Some resolution) true
      else acc
  | _ => acc
  end.

Definition branch_from (records : list LedgerRecord) effect : option (Branch W) :=
  let acc := fold_left (fold_record effect) records (MkFolded None None false) in
  match bound acc, folded_state acc with
  | Some key, Some state =>
      Some (MkBranch key state (fun w => (w, inl false)) (negb (completed acc)))
  | _, _ => None
  end.
End Branches.

(** ** The protocols ([revert.rs]) *)

Definition refused (message : string) : KernelError := MkKernelError EffectFailed message None.

(** [RevertLane::append]'s error, and [hydrate]'s. *)
Definition ledger_refused (e : LedgerError) : KernelError := refused (ledger_error_text e).

(** A panicking witness is a failing witness. *)
Definition passes {W} (witness : Witness W) (w : W) : W * bool :=
  match witness w with
  | (w, inl verdict) => (w, verdict)
  | (w, inr _) => (w, false)
  end.

Inductive job (W : Type) :=
  | Revert (witness : Witness W)
  | Compensate.
Arguments Revert {W}. Arguments Compensate {W}.

(** Where a call of [revert] or [compensate] stands. [Undoing] awaits the
    inverse, or the compensator. *)
Inductive stage (W : Type) :=
  | Hydrating
  | Reading
  | Seeding (records : list LedgerRecord)
  | Claiming
  | WritingIntent (witness : Witness W)
  | Undoing (witness : Witness W)
  | Witnessing (witness : Witness W)
  | WritingCompletion (clean : bool)
  | WritingError (e : KernelError)
  | Resolving (state : RevertResolution)
  | WritingResolution (state : RevertResolution)
  | Answered (r : result RevertResolution KernelError)
  | Dropped.
Arguments Hydrating {W}. Arguments Reading {W}. Arguments Seeding {W}.
Arguments Claiming {W}. Arguments WritingIntent {W}. Arguments Undoing {W}.
Arguments Witnessing {W}. Arguments WritingCompletion {W}. Arguments WritingError {W}.
Arguments Resolving {W}. Arguments WritingResolution {W}. Arguments Answered {W}.
Arguments Dropped {W}.

Record task (W : Type) := MkTask {
  task_job : job W;
  task_effect : EffectId;
  task_key : RevertKey;
  task_entry : option EntryId;
  task_fiber : option FiberId;
  at_stage : stage W;
}.
Arguments MkTask {W}. Arguments task_job {W}. Arguments task_effect {W}.
Arguments task_key {W}. Arguments task_entry {W}. Arguments task_fiber {W}.
Arguments at_stage {W}.

Record lane (L W : Type) := MkLane {
  ledger : L;
  branches : gmap EffectId (Branch W);
  tasks : list (task W);
  world : W;
}.
Arguments MkLane {L W}. Arguments ledger {L W}. Arguments branches {L W}.
Arguments tasks {L W}. Arguments world {L W}.

Section Lane.
Context {L W : Type} {journal : EventLog L}.
Implicit Types (t : task W) (s : lane L W).

Definition moved t (p : stage W) : task W :=
  MkTask (task_job t) (task_effect t) (task_key t) (task_entry t) (task_fiber t) p.

(** The calls. An unconfirmed compensation is refused before anything. *)
Definition revert_call effect key (witness : Witness W) entry fiber : task W :=
  MkTask (Revert witness) effect key entry fiber Hydrating.

Definition compensate_call effect key (operator_confirmed : bool) entry fiber : task W :=
  MkTask Compensate effect key entry fiber
    (if operator_confirmed then Hydrating
     else Answered (Err (refused "compensation is a distinct, operator-confirmed operation"))).

(** What the claim, or the look for a pending branch, lets a call do next. *)
Definition claiming t (bs : gmap EffectId (Branch W)) : gmap EffectId (Branch W) * stage W :=
  match task_job t with
  | Revert witness =>
      let '(bs, c) := claim (task_effect t) (task_key t) witness bs in
      (bs, match c with
           | Refused => Answered (Err (refused "a distinct key against an existing revert branch"))
           | Recorded state => Answered (Ok state)
           | Fresh => WritingIntent witness
           | Resumed => Undoing witness
           end)
  | Compensate =>
      (bs, match pending_witness (task_effect t) bs with
           | None => Answered (Err (refused "compensation applies only to a pending-revert branch"))
           | Some witness => WritingIntent witness
           end)
  end.

(** The resolution a completion earns. *)
Definition resolution (j : job W) (clean : bool) : RevertResolution :=
  match j with
  | Revert _ => if clean then Reverted else PendingRevert
  | Compensate => Compensated clean
  end.

(** What follows the record of a failed inverse, or of a failed compensator. *)
Definition after_error (j : job W) : stage W :=
  match j with
  | Revert _ => Resolving PendingRevert
  | Compensate => Answered (Ok PendingRevert)
  end.

(** One awaited append of a call: on to [next], or out with the error. *)
Definition appending (now : option Z) t kind (next : stage W) (l : L) : L * stage W :=
  match log_append now kind (task_entry t) (task_fiber t) l with
  | (l, Ok _) => (l, next)
  | (l, Err e) => (l, Answered (Err (ledger_refused e)))
  end.

Definition writes now t kind (next : stage W) s : lane L W * stage W :=
  let '(l, p) := appending now t kind next (ledger s) in
  (MkLane l (branches s) (tasks s) (world s), p).

Definition tabled (bs : gmap EffectId (Branch W)) s : lane L W :=
  MkLane (ledger s) bs (tasks s) (world s).

(** [RevertLane::hydrate]. *)
Definition hydrate_step t s : lane L W * stage W :=
  match at_stage t with
  | Hydrating =>
      (s, match state_of (task_effect t) (branches s) with
          | Some _ => Claiming
          | None => Reading
          end)
  | Reading =>
      (s, match log_events whole_stream (ledger s) with
          | Ok records => Seeding records
          | Err e => Answered (Err (ledger_refused e))
          end)
  | Seeding records =>
      (tabled (match branch_from records (task_effect t) with
               | Some b => seed (task_effect t) b (branches s)
               | None => branches s
               end) s, Claiming)
  | p => (s, p)
  end.

(** [RevertLane::resolve]. *)
Definition resolve_step now t s : lane L W * stage W :=
  match at_stage t with
  | Resolving state =>
      (tabled (resolve_branch (task_effect t) state (branches s)) s, WritingResolution state)
  | WritingResolution state =>
      writes now t (RevertResolved (task_effect t) state) (Answered (Ok state)) s
  | p => (s, p)
  end.

(** [RevertLane::complete], once the inverse settled; [compensate] has the
    same tail, with its own resolution. *)
Definition complete_step now t s : lane L W * stage W :=
  match at_stage t with
  | Witnessing witness =>
      let '(w, clean) := passes witness (world s) in
      (MkLane (ledger s) (branches s) (tasks s) w, WritingCompletion clean)
  | WritingCompletion clean =>
      writes now t (RevertCompleted (revert_key (task_key t)) (task_effect t) clean)
        (Resolving (resolution (task_job t) clean)) s
  | WritingError e => writes now t (ErrorRecorded e) (after_error (task_job t)) s
  | p => (s, p)
  end.

(** One step of a call. A call that awaits its inverse, or is over, has none. *)
Definition task_step (now : option Z) t s : lane L W * stage W :=
  match at_stage t with
  | Hydrating | Reading | Seeding _ => hydrate_step t s
  | Claiming => let '(bs, p) := claiming t (branches s) in (tabled bs s, p)
  | WritingIntent witness =>
      writes now t (RevertIntent (revert_key (task_key t)) (task_effect t)) (Undoing witness) s
  | Witnessing _ | WritingCompletion _ | WritingError _ => complete_step now t s
  | Resolving _ | WritingResolution _ => resolve_step now t s
  | Undoing _ | Answered _ | Dropped => (s, at_stage t)
  end.

(** The kinds only the lane writes. *)
Definition revert_effect (kind : LedgerEventKind) : option EffectId :=
  match kind with
  | RevertIntent _ e | RevertCompleted _ e _ | RevertResolved e _ => Some e
  | _ => None
  end.

Inductive lane_event :=
  | CallRevert (effect : EffectId) (key : RevertKey) (witness : Witness W)
      (entry : option EntryId) (fiber : option FiberId)
  | CallCompensate (effect : EffectId) (key : RevertKey) (operator_confirmed : bool)
      (entry : option EntryId) (fiber : option FiberId)
  | TaskStep (n : nat) (now : option Z)
  | InverseSettles (n : nat) (outcome : result () KernelError) (w : W)
  | DropTask (n : nat)
  | Crash
  | Elsewhere (now : option Z) (kind : LedgerEventKind) (entry : option EntryId)
      (fiber : option FiberId) (w : W).

Definition with_task (n : nat) (t : task W) s : lane L W :=
  MkLane (ledger s) (branches s) (<[n := t]> (tasks s)) (world s).

(** One event; an event whose task is not there is void. [Elsewhere] is the
    rest of the kernel: it appends other kinds of event to the same ledger. *)
Definition lane_step (e : lane_event) s : lane L W :=
  match e with
  | CallRevert effect key witness entry fiber =>
      MkLane (ledger s) (branches s)
        (tasks s ++ [revert_call effect key witness entry fiber]) (world s)
  | CallCompensate effect key confirmed entry fiber =>
      MkLane (ledger s) (branches s)
        (tasks s ++ [compensate_call effect key confirmed entry fiber]) (world s)
  | TaskStep n now =>
      match tasks s !! n with
      | Some t => let '(s, p) := task_step now t s in with_task n (moved t p) s
      | None => s
      end
  | InverseSettles n outcome w =>
      match tasks s !! n with
      | Some t =>
          match at_stage t with
          | Undoing witness =>
              with_task n
                (moved t (match outcome with Ok _ => Witnessing witness | Err e => WritingError e end))
                (MkLane (ledger s) (branches s) (tasks s) w)
          | _ => s
          end
      | None => s
      end
  | DropTask n =>
      match tasks s !! n with Some t => with_task n (moved t Dropped) s | None => s end
  | Crash => MkLane (ledger s) ∅ [] (world s)
  | Elsewhere now kind entry fiber w =>
      match revert_effect kind with
      | Some _ => s
      | None =>
          MkLane (log_append now kind entry fiber (ledger s)).1 (branches s) (tasks s) w
      end
  end.

Definition lane_run (es : list lane_event) s : lane L W :=
  fold_left (fun s e => lane_step e s) es s.

(** [RevertLane::new], over a ledger. *)
Definition new_lane (l : L) (w : W) : lane L W := MkLane l ∅ [] w.
End Lane.
Arguments lane_event : clear implicits.

(** ** One owner per branch *)

(** A call of [revert] that won its claim and has not answered. *)
Definition owner_stage {W} (p : stage W) : bool :=
  match p with
  | WritingIntent _ | Undoing _ | Witnessing _ | WritingCompletion _ | WritingError _
  | Resolving _ | WritingResolution _ => true
  | _ => false
  end.

Definition intended_stage {W} (p : stage W) : bool :=
  owner_stage p && match p with WritingIntent _ => false | _ => true end.

Definition reverts {W} (t : task W) : bool :=
  match task_job t with Revert _ => true | Compensate => false end.

Definition owns {W} (effect : EffectId) (t : task W) : Prop :=
  task_effect t = effect /\ reverts t = true /\ owner_stage (at_stage t) = true.

Definition has_intent (key : RevertKey) (effect : EffectId) (records : list LedgerRecord) : Prop :=
  exists r, r ∈ records /\ record_kind r = RevertIntent (revert_key key) effect.

Lemma has_intent_mono key effect (records records' : list LedgerRecord) :
  records ⊆ records' -> has_intent key effect records -> has_intent key effect records'.
Proof. intros Hsub (r & Hr & Hk). exists r. auto. Qed.

(** The key a fold binds is the key of an intent it met. *)
Lemma fold_bound effect records acc key :
  bound (fold_left (fold_record effect) records acc) = Some key ->
  bound acc = Some key \/ has_intent key effect records.
Proof.
  revert acc. induction records as [|r records IH]; intros acc; simpl; [by left|].
  intros [Hb|(x & Hx & Hk)]%IH; [|right; exists x; split; [by right|done]].
  unfold fold_record in Hb. destruct (record_kind r) eqn:Hr; auto; case_decide; subst; auto.
  simpl in Hb. destruct (bound acc) as [k|]; simpl in Hb; simplify_eq; [by left|].
  right. exists r. split; [by left|done].
Qed.

Lemma branch_from_intent {W} records effect (b : Branch W) :
  branch_from records effect = Some b -> has_intent (branch_key b) effect records.
Proof.
  unfold branch_from. destruct (bound _) as [key|] eqn:Hb; [|done].
  destruct (folded_state _); [|done]. intros [= <-]. simpl.
  by apply fold_bound in Hb as [|].
Qed.

Section Exclusion.
Context {L W : Type} {journal : EventLog L} {journal_laws : EventLogLaws L}.
Implicit Types (t : task W) (s : lane L W).

Record exclusive s : Prop := {
  excl_one effect i j t t' :
    tasks s !! i = Some t -> tasks s !! j = Some t' -> owns effect t -> owns effect t' -> i = j;
  excl_bound effect i t :
    tasks s !! i = Some t -> owns effect t ->
    exists b, branches s !! effect = Some b /\ branch_key b = task_key t /\ resumable b = false;
  excl_intent i t :
    tasks s !! i = Some t -> intended_stage (at_stage t) = true ->
    has_intent (task_key t) (task_effect t) (log (ledger s));
  excl_resumable effect b :
    branches s !! effect = Some b -> resumable b = true ->
    has_intent (branch_key b) effect (log (ledger s));
  excl_read i t records :
    tasks s !! i = Some t -> at_stage t = Seeding records -> records ⊆ log (ledger s);
}.

(** What a step of one task has to show. *)
Record step_ok t s s' (p : stage W) : Prop := {
  step_tasks : tasks s' = tasks s;
  step_log : log (ledger s) ⊆ log (ledger s');
  step_elsewhere effect :
    effect <> task_effect t -> branches s' !! effect = branches s !! effect;
  step_keeps b :
    branches s !! task_effect t = Some b -> resumable b = false ->
    exists b', branches s' !! task_effect t = Some b' /\ branch_key b' = branch_key b /\
      resumable b' = false;
  step_owner :
    owns (task_effect t) (moved t p) ->
    (owns (task_effect t) t \/
     forall i t', tasks s !! i = Some t' -> owns (task_effect t) t' -> False) /\
    exists b, branches s' !! task_effect t = Some b /\ branch_key b = task_key t /\
      resumable b = false;
  step_intent :
    intended_stage p = true -> has_intent (task_key t) (task_effect t) (log (ledger s'));
  step_resumable b :
    branches s' !! task_effect t = Some b -> resumable b = true ->
    has_intent (branch_key b) (task_effect t) (log (ledger s'));
  step_read records : p = Seeding records -> records ⊆ log (ledger s');
}.

Lemma exclusive_step n t s s' p :
  exclusive s -> tasks s !! n = Some t -> step_ok t s s' p ->
  exclusive (with_task n (moved t p) s').
Proof.
  intros Hex Hn Hok. pose proof (lookup_lt_Some _ _ _ Hn) as Hlt.
  assert (forall i x, <[n := moved t p]> (tasks s') !! i = Some x ->
            i = n /\ x = moved t p \/ i <> n /\ tasks s !! i = Some x) as Htask.
  { intros i x. rewrite (step_tasks _ _ _ _ Hok), list_lookup_insert.
    case_decide as Hd; [destruct Hd as [-> _]; intros [= <-]; by left|].
    intros Hi. right. split; [|done]. intros ->. apply Hd. by split. }
  constructor; simpl.
  - intros effect i j a b Ha Hb Oa Ob.
    destruct (Htask _ _ Ha) as [[-> ->]|[Hi Ha']], (Htask _ _ Hb) as [[-> ->]|[Hj Hb']];
      [done|..|by eapply (excl_one _ Hex)].
    + pose proof Oa as [<- _]. destruct (step_owner _ _ _ _ Hok Oa) as [[Ot|Hno] _].
      * by eapply (excl_one _ Hex).
      * exfalso. by eapply Hno.
    + pose proof Ob as [<- _]. destruct (step_owner _ _ _ _ Hok Ob) as [[Ot|Hno] _].
      * by eapply (excl_one _ Hex).
      * exfalso. by eapply Hno.
  - intros effect i x Hx Ox. destruct (Htask _ _ Hx) as [[-> ->]|[Hi Hx']].
    + pose proof Ox as [<- _]. by apply (step_owner _ _ _ _ Hok).
    + destruct (excl_bound _ Hex _ _ _ Hx' Ox) as (b & Hb & Hk & Hr).
      destruct (decide (effect = task_effect t)) as [->|Hne].
      * destruct (step_keeps _ _ _ _ Hok b Hb Hr) as (b' & ? & ? & ?). exists b'. by split_and!; [..|congruence|].
      * exists b. by rewrite (step_elsewhere _ _ _ _ Hok).
  - intros i x Hx Hp. destruct (Htask _ _ Hx) as [[-> ->]|[Hi Hx']].
    + by apply (step_intent _ _ _ _ Hok).
    + eapply has_intent_mono; [apply (step_log _ _ _ _ Hok)|by eapply (excl_intent _ Hex)].
  - intros effect b Hb Hr. destruct (decide (effect = task_effect t)) as [->|Hne].
    + by apply (step_resumable _ _ _ _ Hok).
    + rewrite (step_elsewhere _ _ _ _ Hok) in Hb by done.
      eapply has_intent_mono; [apply (step_log _ _ _ _ Hok)|by apply (excl_resumable _ Hex)].
  - intros i x records Hx Hp. destruct (Htask _ _ Hx) as [[-> ->]|[Hi Hx']].
    + by apply (step_read _ _ _ _ Hok).
    + transitivity (log (ledger s)); [by eapply (excl_read _ Hex)|apply (step_log _ _ _ _ Hok)].
Qed.

(** A step that leaves the table alone. *)
Lemma step_ok_quiet n t s s' p :
  exclusive s -> tasks s !! n = Some t ->
  tasks s' = tasks s -> log (ledger s) ⊆ log (ledger s') -> branches s' = branches s ->
  (owner_stage p = true -> owner_stage (at_stage t) = true \/ reverts t = false) ->
  (intended_stage p = true ->
   intended_stage (at_stage t) = true \/
   has_intent (task_key t) (task_effect t) (log (ledger s'))) ->
  (forall records, p = Seeding records -> records ⊆ log (ledger s')) ->
  step_ok t s s' p.
Proof.
  intros Hex Hn Htasks Hlog Hbs Hown Hint Hread. constructor; rewrite ?Hbs; auto.
  - intros b Hb Hr. by exists b.
  - intros (_ & Hrev & Hp). destruct (Hown Hp) as [Ho|Ho]; [|unfold reverts in *; simpl in *; congruence].
    assert (owns (task_effect t) t) as Ot by done. split; [by left|].
    by apply (excl_bound _ Hex) with n.
  - intros Hp. destruct (Hint Hp); [|done]. eapply has_intent_mono; [done|].
    by eapply (excl_intent _ Hex).
  - intros b Hb Hr. eapply has_intent_mono; [done|]. by apply (excl_resumable _ Hex).
Qed.

Lemma log_append_mono now kind entry fiber (l : L) :
  log l ⊆ log (log_append now kind entry fiber l).1.
Proof.
  destruct (log_append now kind entry fiber l) as [l' [r|e]] eqn:Ha; simpl.
  - apply log_append_ok in Ha as (record & -> & _). set_solver.
  - apply log_append_err in Ha. by rewrite Ha.
Qed.

Lemma appending_mono now t kind next (l : L) :
  log l ⊆ log (appending now t kind next l).1.
Proof.
  unfold appending. pose proof (log_append_mono now kind (task_entry t) (task_fiber t) l).
  by destruct (log_append _ _ _ _ _) as [l' []].
Qed.

(** An append of a task that goes on has its event on the log. *)
Lemma appending_writes now t kind next (l : L) :
  let '(l', p) := appending now t kind next l in
  log l ⊆ log l' /\
  (p = next /\ (exists record, record ∈ log l' /\ record_kind record = kind) \/
   exists e, p = Answered (Err e)).
Proof.
  pose proof (appending_mono now t kind next l) as Hm. unfold appending in *.
  destruct (log_append _ _ _ _ _) as [l' [r|e]] eqn:Ha; simpl in *; [|by eauto].
  split; [done|]. left. split; [done|]. apply log_append_ok in Ha as (record & -> & Hk & _).
  exists record. split; [set_solver|done].
Qed.

Lemma claiming_ok n t s :
  exclusive s -> tasks s !! n = Some t -> at_stage t = Claiming ->
  let '(bs, p) := claiming t (branches s) in
  step_ok t s (MkLane (ledger s) bs (tasks s) (world s)) p.
Proof.
  intros Hex Hn Hst. unfold claiming. destruct (task_job t) as [witness|] eqn:Hjob.
  2: { destruct (pending_witness _ _); apply (step_ok_quiet n); try done; unfold reverts;
       rewrite Hjob; auto. }
  unfold claim. destruct (branches s !! task_effect t) as [b|] eqn:Hb.
  - destruct (decide _) as [Hk|Hk]; [by apply (step_ok_quiet n)|].
    apply dec_stable in Hk. destruct (resumable b) eqn:Hr; [|by apply (step_ok_quiet n)].
    constructor; simpl; try done; rewrite ?lookup_insert_eq.
    + intros effect Hne. by rewrite lookup_insert_ne.
    + intros b' Hb' ?. rewrite Hb in Hb'. congruence.
    + intros _. split; [right|by eexists].
      intros i t' Hi Ho. destruct (excl_bound _ Hex _ _ _ Hi Ho) as (b' & Hb' & _ & Hr').
      congruence.
    + intros _. rewrite <-Hk. by apply (excl_resumable _ Hex).
    + intros b' [= <-] ?. done.
  - constructor; simpl; try done; rewrite ?lookup_insert_eq.
    + intros effect Hne. by rewrite lookup_insert_ne.
    + intros b' Hb'. by rewrite Hb in Hb'.
    + intros _. split; [right|by eexists].
      intros i t' Hi Ho. destruct (excl_bound _ Hex _ _ _ Hi Ho) as (b' & Hb' & _ & Hr').
      congruence.
    + intros b' [= <-] ?. done.
Qed.

(** An awaited append of an owner. *)
Lemma writes_ok n now t s kind next :
  exclusive s -> tasks s !! n = Some t -> owner_stage (at_stage t) = true ->
  (intended_stage (at_stage t) = true \/
   kind = RevertIntent (revert_key (task_key t)) (task_effect t)) ->
  (forall records, next <> Seeding records) ->
  let '(l, p) := appending now t kind next (ledger s) in
  step_ok t s (MkLane l (branches s) (tasks s) (world s)) p.
Proof.
  intros Hex Hn Hown Hint Hnext.
  pose proof (appending_writes now t kind next (ledger s)) as Hw.
  destruct (appending now t kind next (ledger s)) as [l p]. destruct Hw as [Hmono Hp].
  apply (step_ok_quiet n); try done; simpl; auto.
  - intros Hi. destruct Hint as [|Hk]; [by left|]. right.
    destruct Hp as [(_ & record & Hin & Hr)|[e ->]]; [|done]. exists record. by rewrite <-Hk.
  - intros records ->. destruct Hp as [[Hp _]|[e Hp]]; [by destruct (Hnext records)|done].
Qed.

Lemma resolving_ok n t s state :
  exclusive s -> tasks s !! n = Some t -> at_stage t = Resolving state ->
  step_ok t s
    (MkLane (ledger s) (resolve_branch (task_effect t) state (branches s)) (tasks s) (world s))
    (WritingResolution state).
Proof.
  intros Hex Hn Hst. unfold resolve_branch.
  constructor; simpl; try done; rewrite ?lookup_alter_eq.
  - intros effect Hne. by rewrite lookup_alter_ne.
  - intros b -> Hr. by eexists.
  - intros (_ & Hrev & _). assert (owns (task_effect t) t) as Ho by (split_and!; [done|exact Hrev|by rewrite Hst]).
    split; [by left|]. destruct (excl_bound _ Hex _ _ _ Hn Ho) as (b & -> & Hk & Hr).
    by eexists.
  - intros _. apply (excl_intent _ Hex _ _ Hn). by rewrite Hst.
  - intros b. destruct (branches s !! task_effect t) as [b0|] eqn:Hb; [|done].
    intros [= <-]. simpl. by apply (excl_resumable _ Hex).
Qed.

Lemma seeding_ok n t s records :
  exclusive s -> tasks s !! n = Some t -> at_stage t = Seeding records ->
  step_ok t s
    (MkLane (ledger s)
       (match branch_from records (task_effect t) with
        | Some b => seed (task_effect t) b (branches s)
        | None => branches s
        end) (tasks s) (world s)) Claiming.
Proof.
  intros Hex Hn Hst.
  destruct (branch_from records (task_effect t)) as [b|] eqn:Hfrom; [|by apply (step_ok_quiet n)].
  unfold seed. destruct (branches s !! task_effect t) as [b0|] eqn:Hb;
    [by apply (step_ok_quiet n)|].
  constructor; simpl; try done; rewrite ?lookup_insert_eq.
  - intros effect Hne. by rewrite lookup_insert_ne.
  - intros b' Hb'. by rewrite Hb in Hb'.
  - intros (_ & _ & ?). done.
  - intros b' [= <-] _. apply branch_from_intent in Hfrom.
    eapply has_intent_mono; [|done]. by eapply (excl_read _ Hex).
Qed.

Lemma task_step_ok now n t s :
  exclusive s -> tasks s !! n = Some t ->
  let '(s', p) := task_step now t s in step_ok t s s' p.
Proof.
  intros Hex Hn. unfold task_step, hydrate_step, complete_step, resolve_step, writes.
  destruct (at_stage t) eqn:Hst.
  - destruct (state_of _ _); by apply (step_ok_quiet n).
  - destruct (log_events _ _) as [records|] eqn:Hl; [|by apply (step_ok_quiet n)].
    apply (step_ok_quiet n); try done. intros records' [= <-].
    by apply log_events_all in Hl as ->.
  - by apply (seeding_ok n).
  - pose proof (claiming_ok n t s Hex Hn Hst). by destruct (claiming t (branches s)).
  - pose proof (writes_ok n now t s (RevertIntent (revert_key (task_key t)) (task_effect t))
      (Undoing witness) Hex Hn) as Hw. rewrite Hst in Hw.
    destruct (appending _ _ _ _ _). apply Hw; auto.
  - by apply (step_ok_quiet n); rewrite ?Hst; auto.
  - destruct (passes _ _). by apply (step_ok_quiet n); rewrite ?Hst; auto.
  - pose proof (writes_ok n now t s (RevertCompleted (revert_key (task_key t)) (task_effect t) clean)
      (Resolving (resolution (task_job t) clean)) Hex Hn) as Hw. rewrite Hst in Hw.
    destruct (appending _ _ _ _ _). apply Hw; auto.
  - pose proof (writes_ok n now t s (ErrorRecorded e) (after_error (task_job t)) Hex Hn) as Hw.
    rewrite Hst in Hw. destruct (appending _ _ _ _ _). apply Hw; auto.
    by destruct (task_job t).
  - by apply (resolving_ok n).
  - pose proof (writes_ok n now t s (RevertResolved (task_effect t) state) (Answered (Ok state))
      Hex Hn) as Hw. rewrite Hst in Hw. destruct (appending _ _ _ _ _). apply Hw; auto.
  - by apply (step_ok_quiet n).
  - by apply (step_ok_quiet n).
Qed.

Lemma exclusive_call s t :
  exclusive s -> owner_stage (at_stage t) = false ->
  (forall records, at_stage t <> Seeding records) ->
  exclusive (MkLane (ledger s) (branches s) (tasks s ++ [t]) (world s)).
Proof.
  intros Hex Hp Hs.
  assert (forall i x, (tasks s ++ [t]) !! i = Some x -> x = t \/ tasks s !! i = Some x) as Htask.
  { intros i x. rewrite lookup_app_Some, list_lookup_singleton_Some. naive_solver. }
  assert (forall effect, ~ owns effect t) as Hno by (intros effect (_ & _ & ?); congruence).
  constructor; simpl.
  - intros effect i j a b [->|Ha]%Htask [->|Hb]%Htask Oa Ob; try by destruct (Hno effect).
    by eapply (excl_one _ Hex).
  - intros effect i x [->|Hx]%Htask Ho; [by destruct (Hno effect)|]. by eapply (excl_bound _ Hex).
  - intros i x [->|Hx]%Htask Hi; [|by eapply (excl_intent _ Hex)].
    unfold intended_stage in Hi. by rewrite Hp in Hi.
  - apply (excl_resumable _ Hex).
  - intros i x records [->|Hx]%Htask Hr; [by destruct (Hs records)|].
    by eapply (excl_read _ Hex).
Qed.

Lemma exclusive_log s l w :
  exclusive s -> log (ledger s) ⊆ log l ->
  exclusive (MkLane l (branches s) (tasks s) w).
Proof.
  intros Hex Hl. constructor; simpl.
  - apply (excl_one _ Hex).
  - apply (excl_bound _ Hex).
  - intros i x Hx Hi. eapply has_intent_mono; [done|]. by eapply (excl_intent _ Hex).
  - intros effect b Hb Hr. eapply has_intent_mono; [done|]. by apply (excl_resumable _ Hex).
  - intros i x records Hx Hr. transitivity (log (ledger s)); [|done].
    by eapply (excl_read _ Hex).
Qed.

Lemma exclusive_nothing l w : exclusive (MkLane l ∅ [] w).
Proof. by constructor. Qed.

Lemma lane_step_exclusive e s : exclusive s -> exclusive (lane_step e s).
Proof.
  intros Hex. destruct e as [effect key witness entry fiber|effect key confirmed entry fiber
    |n now|n outcome w|n| |now kind entry fiber w]; simpl.
  - by apply exclusive_call.
  - by apply exclusive_call; [|destruct confirmed..].
  - destruct (tasks s !! n) as [t|] eqn:Hn; [|done].
    pose proof (task_step_ok now n t s Hex Hn) as Hok.
    destruct (task_step now t s) as [s' p]. by apply (exclusive_step _ _ s).
  - destruct (tasks s !! n) as [t|] eqn:Hn; [|done].
    destruct (at_stage t) eqn:Hst; try done. apply (exclusive_step _ _ s); [done..|].
    apply (step_ok_quiet n); rewrite ?Hst; auto. by destruct outcome.
  - destruct (tasks s !! n) as [t|] eqn:Hn; [|done]. apply (exclusive_step _ _ s); [done..|].
    by apply (step_ok_quiet n).
  - apply exclusive_nothing.
  - destruct (revert_effect kind); [done|]. apply exclusive_log; [done|].
    apply log_append_mono.
Qed.

Lemma lane_run_exclusive es s : exclusive s -> exclusive (lane_run es s).
Proof.
  revert s. induction es as [|e es IH]; intros s Hex; [done|].
  by apply IH, lane_step_exclusive.
Qed.
End Exclusion.

(** ** The durable history of a branch *)

(** The events of one branch, in ledger order. *)
Definition hist (effect : EffectId) (records : list LedgerRecord) : list LedgerEventKind :=
  filter (fun kind => revert_effect kind = Some effect) (record_kind <$> records).

(** The histories the protocol writes, as far as it came: an intent, then the
    record of a failed inverse, or a completion and what it earned. *)
Inductive on_protocol (effect : EffectId) : list LedgerEventKind -> Prop :=
  | ProtocolNothing : on_protocol effect []
  | ProtocolIntent key : on_protocol effect [RevertIntent key effect]
  | ProtocolFailed key :
      on_protocol effect [RevertIntent key effect; RevertResolved effect PendingRevert]
  | ProtocolCompleted key clean :
      on_protocol effect [RevertIntent key effect; RevertCompleted key effect clean]
  | ProtocolResolved key (clean : bool) :
      on_protocol effect
        [RevertIntent key effect; RevertCompleted key effect clean;
         RevertResolved effect (if clean then Reverted else PendingRevert)].

Definition completes (effect : EffectId) (h : list LedgerEventKind) : Prop :=
  exists key, RevertCompleted key effect true ∈ h.

(** What a call knows of the history at each of its stages. *)
Definition stage_durable {W} (effect : EffectId) (key : string) (branch : option (Branch W))
    (h : list LedgerEventKind) (p : stage W) : Prop :=
  match p with
  | Seeding records => branch = None -> hist effect records = h
  | Claiming => branch = None -> h = []
  | WritingIntent _ => h = []
  | Undoing _ | Witnessing _ | WritingCompletion _ | WritingError _ =>
      h = [RevertIntent key effect]
  | Resolving state | WritingResolution state =>
      h = [RevertIntent key effect] /\ state = PendingRevert \/
      exists clean : bool, h = [RevertIntent key effect; RevertCompleted key effect clean] /\
        state = if clean then Reverted else PendingRevert
  | Answered (Ok Reverted) => completes effect h
  | _ => True
  end.

Lemma stage_durable_keep {W} effect key (branch branch' : option (Branch W)) h p :
  (branch' = None -> branch = None) ->
  stage_durable effect key branch h p -> stage_durable effect key branch' h p.
Proof. destruct p; simpl; auto. Qed.

Lemma stage_durable_foreign {W} effect key (branch branch' : option (Branch W)) h h' p :
  owner_stage p = false -> branch' <> None -> (completes effect h -> completes effect h') ->
  stage_durable effect key branch h p -> stage_durable effect key branch' h' p.
Proof. destruct p as [| | | | | | | | | | |[[]|]|]; simpl; try done; auto. Qed.

Lemma hist_app effect (records records' : list LedgerRecord) :
  hist effect (records ++ records') = hist effect records ++ hist effect records'.
Proof. unfold hist. by rewrite fmap_app, filter_app. Qed.

(** The fold of [hydrate.rs] reads nothing but the branch's own history. *)
Lemma fold_hist effect records records' acc :
  hist effect records = hist effect records' ->
  fold_left (fold_record effect) records acc = fold_left (fold_record effect) records' acc.
Proof.
  assert (forall rs a, fold_left (fold_record effect) rs a =
    fold_left (fun a k => fold_record effect a (MkLedgerRecord 0 0 k None None))
      (hist effect rs) a) as Hh; [|intros Heq; by rewrite !Hh, Heq].
  intros rs. induction rs as [|r rs IH]; intros a; [done|].
  unfold hist. simpl. rewrite filter_cons. fold (hist effect rs).
  destruct (decide (revert_effect (record_kind r) = Some effect)) as [He|He]; simpl.
  - rewrite IH. f_equal.
  - rewrite IH. f_equal. unfold fold_record.
    destruct (record_kind r); try done; simpl in He; rewrite decide_False by congruence; done.
Qed.

Lemma branch_from_hist {W} effect records records' :
  hist effect records = hist effect records' ->
  branch_from (W := W) records effect = branch_from records' effect.
Proof. intros Hh. unfold branch_from. by rewrite (fold_hist _ _ records'). Qed.

(** One record per event: histories can be folded on their own. *)
Definition recorded (h : list LedgerEventKind) : list LedgerRecord :=
  (fun k => MkLedgerRecord 0 0 k None None) <$> h.

Lemma hist_recorded effect records :
  hist effect records = hist effect (recorded (hist effect records)).
Proof.
  assert (forall h, record_kind <$> recorded h = h) as Hid.
  { intros h. induction h as [|k h IH]; simpl; [done|]. by f_equal. }
  unfold hist at 2. rewrite Hid. symmetry. apply filter_all. apply Forall_forall. unfold hist.
  by intros k [? _]%list_elem_of_filter.
Qed.

(** What each history is hydrated as. *)
Lemma hydrate_protocol {W} effect records :
  on_protocol effect (hist effect records) ->
  match branch_from (W := W) records effect with
  | None => hist effect records = []
  | Some b =>
      (resumable b = true -> hist effect records = [RevertIntent (revert_key (branch_key b)) effect]) /\
      (branch_state b = Reverted <-> completes effect (hist effect records)) /\
      (branch_state b = Reverted -> resumable b = false)
  end.
Proof.
  intros Hp. rewrite (branch_from_hist _ _ _ (hist_recorded effect records)).
  assert (forall h, completes effect h <-> exists key, In (RevertCompleted key effect true) h) as Hin.
  { intros h. unfold completes. by setoid_rewrite list_elem_of_In. }
  destruct Hp as [|key|key|key clean|key clean]; unfold branch_from, fold_record; simpl;
    rewrite ?decide_True by done; simpl; [done|..]; rewrite Hin;
    (split_and!; [try done|split; [|intros (? & Hk)]|try done]);
    try destruct clean; naive_solver.
Qed.

Section Durability.
Context {L W : Type} {journal : EventLog L} {journal_laws : EventLogLaws L}.
Context (effect : EffectId).
Implicit Types (t : task W) (s : lane L W).

Definition history s : list LedgerEventKind := hist effect (log (ledger s)).

Record durable s : Prop := {
  dur_jobs i t : tasks s !! i = Some t -> task_effect t = effect -> reverts t = true;
  dur_history : on_protocol effect (history s);
  dur_stage i t :
    tasks s !! i = Some t -> task_effect t = effect ->
    stage_durable effect (revert_key (task_key t)) (branches s !! effect) (history s) (at_stage t);
  dur_resumable b :
    branches s !! effect = Some b -> resumable b = true ->
    history s = [RevertIntent (revert_key (branch_key b)) effect];
  dur_reverted b :
    branches s !! effect = Some b -> branch_state b = Reverted -> completes effect (history s);
}.

(** A step of a task on this branch. *)
Lemma durable_step n t s s' p :
  exclusive s -> durable s -> tasks s !! n = Some t -> tasks s' = tasks s ->
  task_effect t = effect -> on_protocol effect (history s') ->
  stage_durable effect (revert_key (task_key t)) (branches s' !! effect) (history s') p ->
  (history s' = history s /\ (branches s' !! effect = None -> branches s !! effect = None) \/
   owns effect t /\ (completes effect (history s) -> completes effect (history s')) /\
   branches s' !! effect <> None) ->
  (forall b, branches s' !! effect = Some b -> resumable b = true ->
     history s' = [RevertIntent (revert_key (branch_key b)) effect]) ->
  (forall b, branches s' !! effect = Some b -> branch_state b = Reverted ->
     completes effect (history s')) ->
  durable (with_task n (moved t p) s').
Proof.
  intros Hex Hd Hn Htasks He Hp Hst Hkeep Hres Hrev.
  assert (forall i x, <[n := moved t p]> (tasks s') !! i = Some x ->
            x = moved t p \/ i <> n /\ tasks s !! i = Some x) as Htask.
  { intros i x. rewrite Htasks, list_lookup_insert.
    case_decide as Hd'; [intros [= <-]; by left|].
    intros Hi. right. split; [|done]. intros ->. apply Hd'.
    split; [done|]. by eapply lookup_lt_Some. }
  constructor; simpl; try done.
  - intros i x [->|[Hi Hx]]%Htask Hex'; [by apply (dur_jobs _ Hd n t)|by eapply (dur_jobs _ Hd)].
  - intros i x [->|[Hi Hx]]%Htask Hex'; [done|].
    pose proof (dur_stage _ Hd _ _ Hx Hex') as Hs. fold (history s').
    change (history (with_task n (moved t p) s')) with (history s').
    destruct Hkeep as [[-> Hb]|(Ho & Hc & Hb)]; [by eapply stage_durable_keep|].
    eapply stage_durable_foreign; [|done..].
    destruct (owner_stage (at_stage x)) eqn:Hown; [|done]. exfalso. apply Hi.
    eapply (excl_one _ Hex effect); [done..| |done].
    split_and!; [done|by eapply (dur_jobs _ Hd)|done].
Qed.

(** A step on another branch, or by the rest of the kernel. *)
Lemma durable_elsewhere s s' :
  durable s -> history s' = history s -> branches s' !! effect = branches s !! effect ->
  (forall i t, tasks s' !! i = Some t -> task_effect t = effect ->
     reverts t = true /\
     (tasks s !! i = Some t \/
      stage_durable effect (revert_key (task_key t)) (branches s' !! effect) (history s')
        (at_stage t))) ->
  durable s'.
Proof.
  intros Hd Hh Hb Ht. constructor; rewrite ?Hh, ?Hb.
  - intros i t Hi He. by apply (Ht i t).
  - apply (dur_history _ Hd).
  - intros i t Hi He. destruct (Ht i t Hi He) as [_ [Hi'|Hs]].
    + by apply (dur_stage _ Hd i).
    + by rewrite Hh, Hb in Hs.
  - apply (dur_resumable _ Hd).
  - apply (dur_reverted _ Hd).
Qed.

(** A step that touches neither the ledger nor the table. *)
Lemma durable_still n t s s' p :
  exclusive s -> durable s -> tasks s !! n = Some t -> tasks s' = tasks s ->
  ledger s' = ledger s -> branches s' = branches s ->
  (task_effect t = effect ->
   stage_durable effect (revert_key (task_key t)) (branches s !! effect) (history s) p) ->
  durable (with_task n (moved t p) s').
Proof.
  intros Hex Hd Hn Ht Hl Hb Hp.
  assert (history s' = history s) as Hh by (unfold history; by rewrite Hl).
  destruct (decide (task_effect t = effect)) as [He|He].
  - apply (durable_step n t s s'); rewrite ?Hh, ?Hb; auto.
    + apply (dur_history _ Hd).
    + apply (dur_resumable _ Hd).
    + apply (dur_reverted _ Hd).
  - apply (durable_elsewhere s); [done|done|by simpl; rewrite Hb|].
    intros i x. simpl. rewrite Ht, list_lookup_insert. case_decide as Hi; [|].
    + intros [= <-]. simpl. done.
    + intros Hx Hxe. split; [by eapply (dur_jobs _ Hd)|by left].
Qed.

(** What an append adds to this branch's history. *)
Definition added (kind : LedgerEventKind) : list LedgerEventKind :=
  if decide (revert_effect kind = Some effect) then [kind] else [].

Lemma hist_append now kind entry fiber (l l' : L) a :
  log_append now kind entry fiber l = (l', a) ->
  hist effect (log l') = hist effect (log l) ++ (if is_ok a then added kind else []).
Proof.
  intros Ha. destruct a as [r|e]; simpl.
  - apply log_append_ok in Ha as (record & -> & Hk & _). rewrite hist_app. f_equal.
    unfold hist, added. simpl. rewrite filter_cons, Hk. by case_decide.
  - apply log_append_err in Ha as ->. by rewrite app_nil_r.
Qed.

Lemma owner_present n t s :
  exclusive s -> durable s -> tasks s !! n = Some t -> owner_stage (at_stage t) = true ->
  task_effect t = effect ->
  owns effect t /\
  exists b, branches s !! effect = Some b /\ branch_key b = task_key t /\ resumable b = false.
Proof.
  intros Hex Hd Hn Hown He.
  assert (owns effect t) as Ho by (split_and!; [done|by eapply (dur_jobs _ Hd)|done]).
  split; [done|]. by eapply (excl_bound _ Hex).
Qed.

(** An awaited append of an owner. *)
Lemma durable_write now n t s kind next :
  exclusive s -> durable s -> tasks s !! n = Some t -> owner_stage (at_stage t) = true ->
  (forall e, revert_effect kind = Some e -> e = task_effect t) ->
  (task_effect t = effect ->
   on_protocol effect (history s ++ added kind) /\
   stage_durable effect (revert_key (task_key t)) (branches s !! effect)
     (history s ++ added kind) next) ->
  let '(l, p) := appending now t kind next (ledger s) in
  durable (with_task n (moved t p) (MkLane l (branches s) (tasks s) (world s))).
Proof.
  intros Hex Hd Hn Hown Hkind Hnext. unfold appending.
  destruct (log_append now kind _ _ (ledger s)) as [l a] eqn:Ha.
  pose proof (hist_append _ _ _ _ _ _ _ Ha) as Hh.
  destruct (decide (task_effect t = effect)) as [He|He].
  - destruct (owner_present n t s Hex Hd Hn Hown He) as (Ho & b & Hb & Hk & Hr).
    destruct (Hnext He) as [Hp Hst].
    destruct a as [r|e]; simpl in Hh.
    + apply (durable_step n t s); simpl; try done.
      * unfold history. simpl. by rewrite Hh.
      * unfold history. simpl. by rewrite Hh.
      * right. rewrite Hb. split_and!; [done| |done]. unfold history. simpl. rewrite Hh.
        intros (k & Hc). exists k. apply elem_of_app. by left.
      * intros b' Hb' Hr'. congruence.
      * intros b' Hb' Hs. unfold history. simpl. rewrite Hh.
        destruct (dur_reverted _ Hd b' Hb' Hs) as (k & Hc). exists k. apply elem_of_app. by left.
    + rewrite app_nil_r in Hh. apply (durable_step n t s); simpl; try done; unfold history; simpl;
        rewrite ?Hh.
      * apply (dur_history _ Hd).
      * by left.
      * apply (dur_resumable _ Hd).
      * apply (dur_reverted _ Hd).
  - assert (hist effect (log l) = hist effect (log (ledger s))) as Hsame.
    { rewrite Hh. destruct (is_ok a); [|by rewrite app_nil_r]. unfold added.
      rewrite decide_False; [by rewrite app_nil_r|]. intros Hk. by apply Hkind in Hk. }
    destruct a as [r|e]; (apply (durable_elsewhere s); [done|exact Hsame|done|]; simpl;
      intros i x; rewrite list_lookup_insert; case_decide as Hi;
      [by intros [= <-]|intros Hx Hxe; split; [by eapply (dur_jobs _ Hd)|by left]]).
Qed.

Lemma added_other kind : revert_effect kind = None -> added kind = [].
Proof. intros Hk. unfold added. rewrite decide_False by congruence. done. Qed.

Lemma added_own kind : revert_effect kind = Some effect -> added kind = [kind].
Proof. intros Hk. unfold added. by rewrite decide_True. Qed.

(** A step that changes the table of another branch. *)
Lemma durable_other_branch n t s bs p :
  durable s -> tasks s !! n = Some t -> task_effect t <> effect ->
  bs !! effect = branches s !! effect ->
  durable (with_task n (moved t p) (MkLane (ledger s) bs (tasks s) (world s))).
Proof.
  intros Hd Hn He Hb. apply (durable_elsewhere s); [done..|].
  intros i x. simpl. rewrite list_lookup_insert. case_decide as Hi; [by intros [= <-]|].
  intros Hx Hxe. split; [by eapply (dur_jobs _ Hd)|by left].
Qed.

Lemma seeding_durable n t s records :
  exclusive s -> durable s -> tasks s !! n = Some t -> at_stage t = Seeding records ->
  durable (with_task n (moved t Claiming)
    (MkLane (ledger s)
       (match branch_from records (task_effect t) with
        | Some b => seed (task_effect t) b (branches s)
        | None => branches s
        end) (tasks s) (world s))).
Proof.
  intros Hex Hd Hn Hst. destruct (decide (task_effect t = effect)) as [He|He].
  2: { apply durable_other_branch; try done. destruct (branch_from _ _); [|done].
       unfold seed. destruct (branches s !! _); [done|]. by rewrite lookup_insert_ne. }
  pose proof (dur_stage _ Hd n t Hn He) as Hs. rewrite Hst in Hs. simpl in Hs.
  rewrite He. destruct (branches s !! effect) as [b0|] eqn:Hb0.
  - assert ((match branch_from records effect with
             | Some b => seed effect b (branches s) | None => branches s end) = branches s) as ->.
    { destruct (branch_from _ _); [|done]. unfold seed. by rewrite Hb0. }
    apply (durable_still n t s); try done. simpl. by rewrite Hb0.
  - specialize (Hs eq_refl). pose proof (hydrate_protocol (W := W) _ _ (dur_history _ Hd)) as Hy.
    rewrite (branch_from_hist (W := W) _ _ _ Hs).
    destruct (branch_from (log (ledger s)) effect) as [b|].
    + destruct Hy as (Hres & Hrev & _). unfold seed. rewrite Hb0.
      apply (durable_step n t s); simpl; rewrite ?lookup_insert_eq; try done.
      * apply (dur_history _ Hd).
      * by left.
      * intros b' [= <-]. apply Hres.
      * intros b' [= <-]. apply Hrev.
    + apply (durable_still n t s); try done. intros _ _. exact Hy.
Qed.

Lemma claiming_durable n t s :
  exclusive s -> durable s -> tasks s !! n = Some t -> at_stage t = Claiming ->
  let '(bs, p) := claiming t (branches s) in
  durable (with_task n (moved t p) (MkLane (ledger s) bs (tasks s) (world s))).
Proof.
  intros Hex Hd Hn Hst. unfold claiming.
  destruct (decide (task_effect t = effect)) as [He|He].
  2: { destruct (task_job t); [|by destruct (pending_witness _ _); apply durable_other_branch].
       unfold claim. destruct (branches s !! task_effect t) as [b|];
         [destruct (decide _); [|destruct (resumable b)]|];
         apply durable_other_branch; try done; by rewrite lookup_insert_ne. }
  pose proof (dur_jobs _ Hd n t Hn He) as Hjob. unfold reverts in Hjob.
  destruct (task_job t) as [witness|]; [|done].
  pose proof (dur_stage _ Hd n t Hn He) as Hs. rewrite Hst in Hs. simpl in Hs.
  unfold claim. rewrite He. destruct (branches s !! effect) as [b|] eqn:Hb.
  - destruct (decide _) as [Hk|Hk]; [by apply (durable_still n t s)|].
    apply dec_stable in Hk. destruct (resumable b) eqn:Hr.
    + pose proof (dur_resumable _ Hd b Hb Hr) as Hh. rewrite Hk in Hh.
      apply (durable_step n t s); simpl; rewrite ?lookup_insert_eq; try done.
      * apply (dur_history _ Hd).
      * left. by split.
      * by intros b' [= <-].
      * intros b' [= <-]. exact (dur_reverted _ Hd b Hb).
    + apply (durable_still n t s); try done. simpl.
      destruct (branch_state b) eqn:Hbs; try done. intros _. by apply (dur_reverted _ Hd b).
  - apply (durable_step n t s); simpl; rewrite ?lookup_insert_eq; try done.
    + apply (dur_history _ Hd).
    + by apply Hs.
    + by left.
    + by intros b' [= <-].
    + by intros b' [= <-].
Qed.

Lemma resolving_durable n t s state :
  exclusive s -> durable s -> tasks s !! n = Some t -> at_stage t = Resolving state ->
  durable (with_task n (moved t (WritingResolution state))
    (MkLane (ledger s) (resolve_branch (task_effect t) state (branches s)) (tasks s) (world s))).
Proof.
  intros Hex Hd Hn Hst. unfold resolve_branch.
  destruct (decide (task_effect t = effect)) as [He|He].
  2: { apply durable_other_branch; try done. by rewrite lookup_alter_ne. }
  pose proof (dur_stage _ Hd n t Hn He) as Hs. rewrite Hst in Hs. rewrite He.
  apply (durable_step n t s); simpl; rewrite ?lookup_alter_eq; try done.
  - apply (dur_history _ Hd).
  - left. split; [done|]. by destruct (branches s !! effect).
  - intros b. destruct (branches s !! effect) as [b0|] eqn:Hb; [|done]. intros [= <-].
    exact (dur_resumable _ Hd b0 Hb).
  - intros b. destruct (branches s !! effect) as [b0|] eqn:Hb; [|done]. intros [= <-]. simpl.
    intros ->. unfold history. simpl. fold (history s).
    destruct Hs as [[_ ?]|(clean & -> & ?)]; [done|]. destruct clean; [|done].
    exists (revert_key (task_key t)). set_solver.
Qed.

Lemma task_step_durable now n t s :
  exclusive s -> durable s -> tasks s !! n = Some t ->
  let '(s', p) := task_step now t s in durable (with_task n (moved t p) s').
Proof.
  intros Hex Hd Hn. pose proof (dur_stage _ Hd n t Hn) as Hs.
  pose proof (dur_jobs _ Hd n t Hn) as Hj. unfold task_step, hydrate_step, complete_step, resolve_step, writes.
  destruct (at_stage t) eqn:Hst.
  - destruct (state_of _ _) eqn:Hstate; apply (durable_still n t s); try done.
    intros <-. simpl. intros Hb. unfold state_of in Hstate. by rewrite Hb in Hstate.
  - destruct (log_events _ _) as [records|] eqn:Hl; apply (durable_still n t s); try done.
    intros _ _. apply log_events_all in Hl. by subst records.
  - by apply seeding_durable.
  - pose proof (claiming_durable n t s Hex Hd Hn Hst). by destruct (claiming t (branches s)).
  - pose proof (durable_write now n t s (RevertIntent (revert_key (task_key t)) (task_effect t))
      (Undoing witness) Hex Hd Hn) as Hw. rewrite Hst in Hw.
    destruct (appending _ _ _ _ _). apply Hw; [done|by intros e [= <-]|].
    intros He. rewrite added_own by (simpl; by rewrite He). specialize (Hs He). simpl in Hs.
    rewrite Hs, He. split; [constructor|done].
  - apply (durable_still n t s); auto.
  - destruct (passes _ _). apply (durable_still n t s); auto.
  - pose proof (durable_write now n t s
      (RevertCompleted (revert_key (task_key t)) (task_effect t) clean)
      (Resolving (resolution (task_job t) clean)) Hex Hd Hn) as Hw. rewrite Hst in Hw.
    destruct (appending _ _ _ _ _). apply Hw; [done|by intros e [= <-]|].
    intros He. rewrite added_own by (simpl; by rewrite He). specialize (Hs He). simpl in Hs.
    specialize (Hj He). unfold reverts in Hj. destruct (task_job t); [|done].
    rewrite Hs, He. split; [constructor|]. right. by exists clean.
  - pose proof (durable_write now n t s (ErrorRecorded e) (after_error (task_job t)) Hex Hd Hn)
      as Hw. rewrite Hst in Hw. destruct (appending _ _ _ _ _). apply Hw; [done|done|].
    intros He. rewrite added_other by done. rewrite app_nil_r.
    split; [apply (dur_history _ Hd)|]. specialize (Hj He). unfold reverts in Hj.
    destruct (task_job t); [|done]. left. split; [exact (Hs He)|done].
  - by apply resolving_durable.
  - pose proof (durable_write now n t s (RevertResolved (task_effect t) state)
      (Answered (Ok state)) Hex Hd Hn) as Hw. rewrite Hst in Hw.
    destruct (appending _ _ _ _ _). apply Hw; [done|by intros e [= <-]|].
    intros He. rewrite added_own by (simpl; by rewrite He). specialize (Hs He). simpl in Hs.
    rewrite He. destruct Hs as [[-> ->]|(clean & -> & ->)]; (split; [constructor|]); [done|].
    destruct clean; [|done]. exists (revert_key (task_key t)). set_solver.
  - apply (durable_still n t s); auto.
  - apply (durable_still n t s); auto.
Qed.

(** An event that is no compensation of this branch. *)
Definition spares (e : lane_event W) : Prop :=
  match e with CallCompensate effect' _ _ _ _ => effect' <> effect | _ => True end.

Lemma durable_call s t :
  durable s -> (task_effect t = effect -> reverts t = true) -> at_stage t = Hydrating \/
    task_effect t <> effect ->
  durable (MkLane (ledger s) (branches s) (tasks s ++ [t]) (world s)).
Proof.
  intros Hd Hrev Hst. apply (durable_elsewhere s); [done..|]. simpl.
  intros i x. rewrite lookup_app_Some, list_lookup_singleton_Some.
  intros [Hx|(_ & _ & <-)] He; [split; [by eapply (dur_jobs _ Hd)|by left]|].
  split; [auto|]. right. destruct Hst as [->|]; done.
Qed.

Lemma lane_step_durable e s :
  exclusive s -> durable s -> spares e -> durable (lane_step e s).
Proof.
  intros Hex Hd Hsp. destruct e as [effect' key witness entry fiber|effect' key confirmed entry fiber
    |n now|n outcome w|n| |now kind entry fiber w]; simpl in *.
  - apply durable_call; auto.
  - apply durable_call; auto.
  - destruct (tasks s !! n) as [t|] eqn:Hn; [|done].
    pose proof (task_step_durable now n t s Hex Hd Hn). by destruct (task_step now t s).
  - destruct (tasks s !! n) as [t|] eqn:Hn; [|done]. pose proof (dur_stage _ Hd n t Hn) as Hs.
    destruct (at_stage t); try done. apply (durable_still n t s); try done.
    intros He. destruct outcome; exact (Hs He).
  - destruct (tasks s !! n) as [t|] eqn:Hn; [|done]. by apply (durable_still n t s).
  - constructor; simpl; try done. apply (dur_history _ Hd).
  - destruct (revert_effect kind) eqn:Hk; [done|].
    apply (durable_elsewhere s); [done| |done|].
    + unfold history. simpl. destruct (log_append _ _ _ _ _) as [l a] eqn:Ha. simpl.
      rewrite (hist_append _ _ _ _ _ _ _ Ha), added_other by done.
      destruct (is_ok a); by rewrite app_nil_r.
    + intros i t Hi He. split; [by eapply (dur_jobs _ Hd)|by left].
Qed.

Lemma durable_nothing l w : on_protocol effect (hist effect (log l)) -> durable (MkLane l ∅ [] w).
Proof. intros Hp. by constructor. Qed.

Lemma lane_run_durable es s :
  exclusive s -> durable s -> Forall spares es -> durable (lane_run es s).
Proof.
  intros Hex Hd Hes. revert s Hex Hd. induction Hes as [|e es He Hes IH]; intros s Hex Hd; [done|].
  apply IH; [by apply lane_step_exclusive|by apply lane_step_durable].
Qed.
End Durability.

Section Growth.
Context {L W : Type} {journal : EventLog L} {journal_laws : EventLogLaws L}.
Implicit Types (s : lane L W).

Lemma lane_step_log e s : exclusive s -> log (ledger s) ⊆ log (ledger (lane_step e s)).
Proof.
  intros Hex. destruct e as [| |n now|n outcome w|n| |now kind entry fiber w]; simpl; try done.
  - destruct (tasks s !! n) as [t|] eqn:Hn; [|done].
    pose proof (task_step_ok now n t s Hex Hn) as Hok. destruct (task_step now t s).
    apply (step_log _ _ _ _ Hok).
  - destruct (tasks s !! n) as [t|]; [|done]. by destruct (at_stage t).
  - by destruct (tasks s !! n).
  - destruct (revert_effect kind); [done|]. apply log_append_mono.
Qed.

Lemma lane_run_log es s : exclusive s -> log (ledger s) ⊆ log (ledger (lane_run es s)).
Proof.
  revert s. induction es as [|e es IH]; intros s Hex; [done|].
  transitivity (log (ledger (lane_step e s))); [by apply lane_step_log|].
  by apply (IH (lane_step e s)), lane_step_exclusive.
Qed.

Lemma completes_mono effect (records records' : list LedgerRecord) :
  records ⊆ records' -> completes effect (hist effect records) ->
  completes effect (hist effect records').
Proof.
  intros Hsub (key & Hk). exists key. unfold hist in *.
  apply list_elem_of_filter in Hk as [He Hk]. apply list_elem_of_filter. split; [done|].
  apply list_elem_of_fmap in Hk as (r & Hr & Hin). rewrite Hr. apply list_elem_of_fmap_2. auto.
Qed.
End Growth.

(** ** A ledger in memory, and a life of one branch *)
Module Journal.
#[export] Instance journal : EventLog (list LedgerRecord) := {|
  log l := l;
  log_append now kind entry fiber l :=
    let seq := (Z.of_nat (length l) + 1)%Z in
    (l ++ [MkLedgerRecord seq (now_millis now) kind entry fiber], Ok (MkReceipt seq));
  log_events q l :=
    Ok (filter (fun r => (query_entry q = None \/ record_entry r = query_entry q) /\
                         (query_fiber q = None \/ record_fiber r = query_fiber q) /\
                         (default 0 (query_from q) <= record_sequence r \/ query_from q = None)%Z) l);
|}.

#[export] Instance journal_laws : EventLogLaws (list LedgerRecord).
Proof.
  split; simpl.
  - intros now kind entry fiber l l' r [= <- <-]. by eexists.
  - done.
  - intros l records [= <-]. apply filter_all, Forall_true. auto.
Qed.

Definition effect := MkEffectId 1.
Definition key := MkRevertKey "k".

(** A witness of a world that is one flag. *)
Definition restored : Witness bool := fun w => (w, inl w).

Definition call : lane_event bool := CallRevert effect key restored None None.

(** A call that runs to its answer: hydration takes three steps, the claim,
    the intent, the inverse, the witness and three more appends follow. *)
Definition steps (n k : nat) : list (lane_event bool) := replicate k (TaskStep n None).

Definition reverted : list (lane_event bool) :=
  call :: steps 0 5 ++ [InverseSettles 0 (Ok tt) true] ++ steps 0 4.

Definition empty : lane (list LedgerRecord) bool := new_lane [] false.

Definition compensation : lane_event bool := CallCompensate effect key true None None.

(** A revert dies in its inverse; the reopened process compensates the branch
    and then retries the revert. *)
Definition compensated_then_retried : list (lane_event bool) :=
  call :: steps 0 5 ++ [Crash; compensation] ++ steps 0 5 ++ [InverseSettles 0 (Ok tt) false] ++
  steps 0 4 ++ [call] ++ steps 1 2 ++ [InverseSettles 1 (Ok tt) true] ++ steps 1 4.

(** A revert fails; its compensation dies between the record of its
    completion and that of its resolution. *)
Definition compensation_interrupted : list (lane_event bool) :=
  call :: steps 0 5 ++ [InverseSettles 0 (Err (refused "stuck")) false] ++ steps 0 3 ++
  [compensation] ++ steps 1 3 ++ [InverseSettles 1 (Ok tt) true] ++ steps 1 2 ++ [Crash].
End Journal.
Import Journal.

(** ** The lane's promises *)

(** C34: At most one inverse at a time, and only after its intent is durable
    (constitution 03): under every interleaving of reverts and compensations
    with each other, with dropped calls, process deaths and reopenings, at
    most one call of [revert] holds the claim of a branch, from its claim to
    its answer; it holds it under the key the branch is bound to; and whoever
    runs an inverse or a compensator has its intent on the ledger. *)
Theorem one_inverse_at_a_time {L W : Type} {journal : EventLog L}
    (l : L) (w : W) (es : list (lane_event W)) :
  EventLogLaws L ->
  let s := lane_run es (new_lane l w) in
  (forall effect i j t t',
     tasks s !! i = Some t -> tasks s !! j = Some t' -> owns effect t -> owns effect t' -> i = j) /\
  (forall effect i t, tasks s !! i = Some t -> owns effect t ->
     exists b, branches s !! effect = Some b /\ branch_key b = task_key t) /\
  (forall i t witness, tasks s !! i = Some t -> at_stage t = Undoing witness ->
     has_intent (task_key t) (task_effect t) (log (ledger s))).
Proof.
  intros laws s.
  pose proof (lane_run_exclusive es _ (exclusive_nothing l w)) as Hex.
  split_and!.
  - apply (excl_one _ Hex).
  - intros effect i t Hi Ho. destruct (excl_bound _ Hex _ _ _ Hi Ho) as (b & ? & ? & _).
    by exists b.
  - intros i t witness Hi Hst. apply (excl_intent _ Hex _ _ Hi). by rewrite Hst.
Qed.

(** C35: Exactly once, durably (constitution 03): for a branch that is never
    compensated, whatever calls, drops, process deaths and ledger refusals
    happen, the ledger holds a history the protocol writes, as far as it
    came: so at most one completion is ever recorded, and the inverse runs
    only while the history is the bare intent under the caller's own key,
    never again once a completion, or a failure, is durable. *)
Theorem durable_history_follows_the_protocol {L W : Type} {journal : EventLog L}
    (effect : EffectId) (l : L) (w : W) (es : list (lane_event W)) :
  EventLogLaws L -> on_protocol effect (hist effect (log l)) -> Forall (spares effect) es ->
  let s := lane_run es (new_lane l w) in
  let h := hist effect (log (ledger s)) in
  on_protocol effect h /\
  forall i t witness,
    tasks s !! i = Some t -> task_effect t = effect -> at_stage t = Undoing witness ->
    h = [RevertIntent (revert_key (task_key t)) effect].
Proof.
  intros laws Hl Hes s h.
  pose proof (lane_run_durable effect es _ (exclusive_nothing l w)
                (durable_nothing effect l w Hl) Hes) as Hd.
  split; [apply (dur_history _ _ Hd)|]. intros i t witness Hi He Hst.
  pose proof (dur_stage _ _ Hd i t Hi He) as Hs. by rewrite Hst in Hs.
Qed.

(** An answer of [Reverted] survives the process: once any call was
    answered [Reverted] for a branch that is never compensated, then at every
    later time, whatever died meanwhile, the branch reconstructed from the
    ledger is [Reverted] and not resumable, so that a call under its key that
    finds it is answered from the record and runs nothing. *)
Theorem reverted_is_durable {L W : Type} {journal : EventLog L}
    (effect : EffectId) (l : L) (w : W) (es later : list (lane_event W)) i t :
  EventLogLaws L -> on_protocol effect (hist effect (log l)) ->
  Forall (spares effect) (es ++ later) ->
  tasks (lane_run es (new_lane l w)) !! i = Some t -> task_effect t = effect ->
  at_stage t = Answered (Ok Reverted) ->
  exists b : Branch W,
    branch_from (log (ledger (lane_run later (lane_run es (new_lane l w))))) effect = Some b /\
    branch_state b = Reverted /\ resumable b = false /\
    forall witness bs, bs !! effect = Some b ->
      claim effect (branch_key b) witness bs = (bs, Recorded Reverted).
Proof.
  intros laws Hl [Hes Hlater]%Forall_app Hi He Hst.
  set (s := lane_run es (new_lane l w)) in *.
  assert (exclusive s) as Hex by apply lane_run_exclusive, exclusive_nothing.
  assert (durable effect s) as Hd.
  { apply lane_run_durable; [apply exclusive_nothing|by apply durable_nothing|done]. }
  pose proof (dur_stage _ _ Hd i t Hi He) as Hs. rewrite Hst in Hs. simpl in Hs.
  apply (completes_mono _ _ _ (lane_run_log later s Hex)) in Hs.
  pose proof (dur_history _ _ (lane_run_durable effect later s Hex Hd Hlater)) as Hp.
  pose proof (hydrate_protocol (W := W) effect _ Hp) as Hy. fold (history effect (lane_run later s)) in *.
  unfold history in *. destruct (branch_from _ effect) as [b|].
  - destruct Hy as (_ & [_ Hrev] & Hres). specialize (Hrev Hs). specialize (Hres Hrev).
    exists b. split_and!; [done..|]. intros witness bs Hb. unfold claim. rewrite Hb.
    rewrite decide_False by (by intros ?). by rewrite Hres, Hrev.
  - rewrite Hy in Hs. destruct Hs as (k & Hk). by apply not_elem_of_nil in Hk.
Qed.

Lemma one_inverse_at_a_time_witness :
  let s := lane_run (Journal.call :: Journal.steps 0 5) Journal.empty in
  has_intent Journal.key Journal.effect (log (ledger s)).
Proof.
  destruct (one_inverse_at_a_time (W := bool) [] false (Journal.call :: Journal.steps 0 5)
              Journal.journal_laws) as (_ & _ & Hint).
  apply (Hint 0 (MkTask (Revert Journal.restored) Journal.effect Journal.key None None
                   (Undoing Journal.restored)) Journal.restored); vm_compute; reflexivity.
Defined.

Lemma durable_history_follows_the_protocol_witness :
  on_protocol Journal.effect
    (hist Journal.effect (log (ledger (lane_run Journal.reverted Journal.empty)))).
Proof.
  refine (proj1 (durable_history_follows_the_protocol (W := bool) Journal.effect [] false
                   Journal.reverted Journal.journal_laws _ _)).
  - constructor.
  - repeat constructor.
Defined.

Lemma reverted_is_durable_witness :
  exists b : Branch bool,
    branch_from (log (ledger (lane_run [Crash] (lane_run Journal.reverted Journal.empty))))
      Journal.effect = Some b /\ branch_state b = Reverted.
Proof.
  destruct (reverted_is_durable (W := bool) Journal.effect [] false Journal.reverted [Crash] 0
    (MkTask (Revert Journal.restored) Journal.effect Journal.key None None
       (Answered (Ok Reverted))) Journal.journal_laws) as (b & Hb & Hs & _).
  - constructor.
  - repeat constructor.
  - vm_compute. reflexivity.
  - reflexivity.
  - reflexivity.
  - exists b. split; [exact Hb|exact Hs].
Defined.

(** A compensated branch can still end as [Reverted], although a
    compensation is never to. First, compensating a branch that was
    interrupted in its inverse leaves it resumable: the retry under its key,
    which the record should answer, runs the inverse, and a second completion
    is recorded. Second, a compensation that dies between its completion and
    its resolution is reconstructed as [Reverted]. *)
Theorem compensation_can_end_as_reverted :
  (let s := lane_run Journal.compensated_then_retried Journal.empty in
   at_stage <$> tasks s =
     [Answered (Ok (Compensated false)); Answered (Ok Reverted)] /\
   hist Journal.effect (log (ledger s)) =
     [RevertIntent "k" Journal.effect; RevertIntent "k" Journal.effect;
      RevertCompleted "k" Journal.effect false; RevertResolved Journal.effect (Compensated false);
      RevertCompleted "k" Journal.effect true; RevertResolved Journal.effect Reverted]) /\
  (let s := lane_run Journal.compensation_interrupted Journal.empty in
   hist Journal.effect (log (ledger s)) =
     [RevertIntent "k" Journal.effect; RevertResolved Journal.effect PendingRevert;
      RevertIntent "k" Journal.effect; RevertCompleted "k" Journal.effect true] /\
   branch_state <$> branch_from (W := bool) (log (ledger s)) Journal.effect = Some Reverted).
Proof. by vm_compute. Qed.
