(* ===== verification/Entries.v ===== *)
(** * The entry tree of a profile ([jinnd-api/src/profile.rs], [jinnd-loader/src/tree.rs])

    A profile is an ordered document of entries that name their parents. The
    loader charts it once: duplicates and entries whose ancestry is missing,
    faulted or cyclic are recorded as faults of their own, everything else
    stands, with its depth, its effective disablement and its environment. *)

From stdpp Require Import base gmap sets list strings.
From S2P Require Import Prelude Api.

(** ** Profiles ([profile.rs]) *)

Record PluginRef := MkPluginRef {
  package : string;
  version : string;
  artifact_hash : string;
}.

Definition GROUP_PACKAGE : string := "jinn.profile/group".

Record EntryFault := MkEntryFault { fault_entry : EntryId; fault_error : KernelError }.

Record ProfileEntry (C : Type) := MkProfileEntry {
  id : EntryId;
  plugin : PluginRef;
  config : C;
  disabled : bool;
  parent : option EntryId;
  isolation : list IsolationBinding;
}.
Arguments MkProfileEntry {C}. Arguments id {C}. Arguments plugin {C}. Arguments config {C}.
Arguments disabled {C}. Arguments parent {C}. Arguments isolation {C}.

Record Profile (C : Type) := MkProfile { entries : list (ProfileEntry C) }.
Arguments MkProfile {C}. Arguments entries {C}.

Record ReconcileReport := MkReconcileReport {
  created : list EntryId;
  restarted : list EntryId;
  disposed : list EntryId;
  unchanged : list EntryId;
  errors : list EntryFault;
}.

#[export] Instance PluginRef_eq_dec : EqDecision PluginRef.
Proof. solve_decision. Defined.
#[export] Instance EntryFault_eq_dec : EqDecision EntryFault.
Proof. solve_decision. Defined.
#[export] Instance ProfileEntry_eq_dec {C} `{EqDecision C} : EqDecision (ProfileEntry C).
Proof. solve_decision. Defined.

(** ** Rendering an identity

    [{:?}] of an [EntryId]: the derived tuple form around [str]'s. Escapes are
    those of ASCII text; bytes of longer scalars are printed as they are. *)

Definition dquote : Ascii.ascii := Ascii.ascii_of_nat 34.

Definition hex_digit (n : nat) : Ascii.ascii :=
  Ascii.ascii_of_nat (if decide (n < 10) then 48 + n else 87 + n).

Definition hex (n : nat) : string :=
  if decide (n < 16) then String (hex_digit n) EmptyString
  else String (hex_digit (n / 16)) (String (hex_digit (n mod 16)) EmptyString).

Definition escape_char (c : Ascii.ascii) : string :=
  let n := Ascii.nat_of_ascii c in
  if decide (n = 34 \/ n = 92) then String (Ascii.ascii_of_nat 92) (String c EmptyString)
  else if decide (n = 9) then String (Ascii.ascii_of_nat 92) "t"
  else if decide (n = 10) then String (Ascii.ascii_of_nat 92) "n"
  else if decide (n = 13) then String (Ascii.ascii_of_nat 92) "r"
  else if decide (n = 0) then String (Ascii.ascii_of_nat 92) "0"
  else if decide (n < 32 \/ n = 127) then String (Ascii.ascii_of_nat 92) "u{" +:+ hex n +:+ "}"
  else String c EmptyString.

Fixpoint escape (s : string) : string :=
  match s with EmptyString => EmptyString | String c s => escape_char c +:+ escape s end.

Definition debug_str (s : string) : string :=
  String dquote (escape s +:+ String dquote EmptyString).

Definition debug_entry (e : EntryId) : string := "EntryId(" +:+ debug_str (entry_id e) +:+ ")".

(** ** Charting ([EntryIndex]) *)

Record EntryIndex (C : Type) := MkEntryIndex {
  profile : Profile C;
  by_id : gmap EntryId nat;
  depths : gmap EntryId nat;
  faults : list EntryFault;
}.
Arguments MkEntryIndex {C}. Arguments profile {C}. Arguments by_id {C}.
Arguments depths {C}. Arguments faults {C}.

Definition fault (entry : EntryId) (reason : string) : EntryFault :=
  MkEntryFault entry (MkKernelError InvalidProfile reason None).

Section Charting.
Context {C : Type}.
Implicit Types (p : Profile C) (ix : EntryIndex C) (e : ProfileEntry C).

(** The first loop of [EntryIndex::new]. *)
Fixpoint index_loop (es : list (ProfileEntry C)) (position : nat)
    (by_id : gmap EntryId nat) (faults : list EntryFault) : gmap EntryId nat * list EntryFault :=
  match es with
  | [] => (by_id, faults)
  | e :: es =>
      match by_id !! id e with
      | Some _ =>
          index_loop es (S position) by_id
            (faults ++ [fault (id e) "the entry id appears more than once"])
      | None => index_loop es (S position) (<[id e := position]> by_id) faults
      end
  end.

Definition parent_at ix (position : nat) : option EntryId :=
  e ← entries (profile ix) !! position; parent e.

(** The inner loop of [chart]: up from the last of the trail, until a root or
    a charted parent ([None]), or a reason why the trail is broken. *)
Fixpoint climb (fuel : nat) ix (trail : list EntryId) : list EntryId * option string :=
  match fuel with
  | 0 => (trail, None)
  | S fuel =>
      match last trail with
      | None => (trail, None)
      | Some current =>
          match by_id ix !! current with
          | None =>
              (trail, Some ("ancestor " +:+ debug_entry current +:+ " is missing or itself faulted"))
          | Some position =>
              match parent_at ix position with
              | None => (trail, None)
              | Some parent =>
                  if decide (is_Some (depths ix !! parent)) then (trail, None)
                  else if decide (parent ∈ trail) then
                    (trail, Some ("the parent chain through " +:+ debug_entry parent +:+ " is a cycle"))
                  else climb fuel ix (trail ++ [parent])
              end
          end
      end
  end.

Definition parent_of ix (entry : EntryId) : option EntryId :=
  position ← by_id ix !! entry; parent_at ix position.

(** A broken trail: every entry of it that is still indexed is faulted. *)
Fixpoint fault_trail (reason : string) (trail : list EntryId) ix : EntryIndex C :=
  match trail with
  | [] => ix
  | entry :: trail =>
      fault_trail reason trail
        match by_id ix !! entry with
        | Some _ =>
            MkEntryIndex (profile ix) (delete entry (by_id ix)) (depths ix)
              (faults ix ++ [fault entry reason])
        | None => ix
        end
  end.

Definition above ix (trail : list EntryId) : nat :=
  match deepest ← last trail; parent ← parent_of ix deepest; depths ix !! parent with
  | Some parent_depth => parent_depth + 1
  | None => 0
  end.

(** A sound trail: depths from its root end down. *)
Fixpoint record_depths (rev_trail : list EntryId) (depth : nat) (m : gmap EntryId nat) :
    gmap EntryId nat :=
  match rev_trail with
  | [] => m
  | entry :: rest => record_depths rest (S depth) (<[entry := depth]> m)
  end.

Definition chart_one ix (entry : EntryId) : EntryIndex C :=
  match by_id ix !! entry, depths ix !! entry with
  | Some _, None =>
      match climb (S (length (entries (profile ix)))) ix [entry] with
      | (trail, Some reason) => fault_trail reason trail ix
      | (trail, None) =>
          MkEntryIndex (profile ix) (by_id ix)
            (record_depths (reverse trail) (above ix trail) (depths ix)) (faults ix)
      end
  | _, _ => ix
  end.

Definition chart ix : EntryIndex C :=
  fold_left chart_one (map id (entries (profile ix))) ix.

Definition index p : EntryIndex C :=
  let '(by_id, faults) := index_loop (entries p) 0 ∅ [] in
  chart (MkEntryIndex p by_id ∅ faults).

(** ** Questions *)

Definition get ix (entry : EntryId) : option (ProfileEntry C) :=
  position ← by_id ix !! entry; entries (profile ix) !! position.

Fixpoint valid_from (by_id : gmap EntryId nat) (position : nat) (es : list (ProfileEntry C)) :
    list (ProfileEntry C) :=
  match es with
  | [] => []
  | e :: es =>
      if decide (by_id !! id e = Some position) then e :: valid_from by_id (S position) es
      else valid_from by_id (S position) es
  end.

(** [EntryIndex::entries]. *)
Definition valid_entries ix : list (ProfileEntry C) :=
  valid_from (by_id ix) 0 (entries (profile ix)).

Definition depth ix (entry : EntryId) : nat := default 0 (depths ix !! entry).

(** The two loops over an entry and its ancestors. *)
Definition up ix e : option (ProfileEntry C) := parent ← parent e; get ix parent.

Fixpoint disabled_loop (fuel : nat) ix (current : option (ProfileEntry C)) : bool :=
  match fuel, current with
  | S fuel, Some e => if disabled e then true else disabled_loop fuel ix (up ix e)
  | _, _ => false
  end.

Definition effectively_disabled ix (entry : EntryId) : bool :=
  disabled_loop (S (length (entries (profile ix)))) ix (get ix entry).

Fixpoint chain_loop (fuel : nat) ix (current : option (ProfileEntry C))
    (chain : list (EntryId * list IsolationBinding)) : list (EntryId * list IsolationBinding) :=
  match fuel, current with
  | S fuel, Some e => chain_loop fuel ix (up ix e) (chain ++ [(id e, isolation e)])
  | _, _ => chain
  end.

Definition environment ix (entry : EntryId) : list (EntryId * list IsolationBinding) :=
  reverse (chain_loop (S (length (entries (profile ix)))) ix (get ix entry) []).
End Charting.

(** ** What an entry's ancestry is *)

Section Lineage.
Context {C : Type}.
Implicit Types (p : Profile C) (ix : EntryIndex C) (e : ProfileEntry C) (x : EntryId).

(** The first occurrence of an identity wins. *)
Definition first_position p x : option nat :=
  position (fun e => bool_decide (id e = x)) (entries p).
Definition first p x : option (ProfileEntry C) :=
  i ← first_position p x; entries p !! i.

(** [lineage p x es]: [es] are the entry [x] and its ancestors up to a root. *)
Inductive lineage p : EntryId -> list (ProfileEntry C) -> Prop :=
  | lineage_root x e : first p x = Some e -> parent e = None -> lineage p x [e]
  | lineage_child x e q es :
      first p x = Some e -> parent e = Some q -> lineage p q es -> lineage p x (e :: es).

Lemma first_position_lt p x i :
  first_position p x = Some i -> exists e, entries p !! i = Some e /\ id e = x.
Proof.
  unfold first_position. intros (e & ? & ?%bool_decide_eq_true & _)%position_Some. eauto.
Qed.

Lemma first_id p x e : first p x = Some e -> id e = x.
Proof.
  unfold first. intros (i & (e' & ? & ?)%first_position_lt & ?)%bind_Some. by simplify_eq.
Qed.

Lemma first_elem p x e : first p x = Some e -> e ∈ entries p.
Proof. unfold first. intros (i & _ & ?)%bind_Some. by eapply list_elem_of_lookup_2. Qed.

Lemma lineage_fun p x es es' : lineage p x es -> lineage p x es' -> es = es'.
Proof.
  intros H. revert es'. induction H; intros es' H'; inversion H'; simplify_eq; auto.
  f_equal. auto.
Qed.

Lemma lineage_first p x es : lineage p x es -> exists e rest, es = e :: rest /\ first p x = Some e.
Proof. destruct 1; eauto. Qed.

Lemma lineage_parent p x e q es :
  first p x = Some e -> parent e = Some q -> lineage p x es ->
  exists rest, es = e :: rest /\ lineage p q rest.
Proof. intros ? ? H. inversion H; simplify_eq; eauto. Qed.

(** A lineage has no repetition: its lengths strictly decrease. *)
Lemma lineage_ids_NoDup p x es : lineage p x es -> NoDup (map id es).
Proof.
  intros H. assert (forall y es', lineage p y es' -> forall e, e ∈ es' ->
    exists es'', lineage p (id e) es'' /\ length es'' <= length es') as Hmem.
  { induction 1 as [y e He Hp|y e q rest He Hp Hl IH]; intros e' Hin.
    - apply list_elem_of_singleton in Hin as ->. exists [e].
      rewrite (first_id _ _ _ He). split; [by apply lineage_root|done].
    - apply elem_of_cons in Hin as [->|Hin].
      + exists (e :: rest). rewrite (first_id _ _ _ He). split; [by eapply lineage_child|done].
      + destruct (IH _ Hin) as (es'' & ? & ?). exists es''. split; [done|simpl; lia]. }
  induction H as [y e He Hp|y e q rest He Hp Hl IH]; simpl; [apply NoDup_singleton|].
  apply NoDup_cons. split; [|done]. intros (e' & Heq & Hin)%list_elem_of_fmap.
  destruct (Hmem _ _ Hl _ Hin) as (es'' & Hl' & Hlen).
  assert (lineage p y (e :: rest)) as Hy by by eapply lineage_child.
  rewrite <-Heq, (first_id _ _ _ He) in Hl'. pose proof (lineage_fun _ _ _ _ Hl' Hy). subst.
  simpl in Hlen. lia.
Qed.

Lemma lineage_elem p x es e : lineage p x es -> e ∈ es -> e ∈ entries p.
Proof.
  induction 1 as [y e' He|y e' q rest He]; rewrite ?elem_of_cons, ?elem_of_nil;
    intros [->|?]; eauto using first_elem. done.
Qed.

Lemma lineage_bound p x es : lineage p x es -> length es <= length (entries p).
Proof.
  intros H. pose proof (lineage_ids_NoDup _ _ _ H) as Hnd.
  rewrite <-(length_map id es), <-(length_map id (entries p)).
  apply submseteq_length, NoDup_submseteq; [done|].
  intros y. rewrite !list_elem_of_fmap. intros (e & -> & Hin). exists e.
  eauto using lineage_elem.
Qed.
End Lineage.

(** ** The first loop: duplicates *)

Section Indexing.
Context {C : Type}.
Implicit Types (p : Profile C) (es : list (ProfileEntry C)) (x : EntryId) (m : gmap EntryId nat).

Lemma index_loop_lookup es pos m fs x :
  (index_loop es pos m fs).1 !! x =
    match m !! x with
    | Some i => Some i
    | None => (fun i => pos + i) <$> position (fun e => bool_decide (id e = x)) es
    end.
Proof.
  revert pos m fs. induction es as [|e es IH]; intros pos m fs; simpl; [by destruct (m !! x)|].
  destruct (m !! id e) as [i|] eqn:Hm; rewrite IH.
  - destruct (m !! x) eqn:Hx; [done|]. case_bool_decide; simpl; [congruence|].
    destruct (position _ es); simpl; [f_equal; lia|done].
  - destruct (decide (id e = x)) as [<-|Hne].
    + rewrite lookup_insert_eq, Hm, bool_decide_true by done. simpl. f_equal. lia.
    + rewrite lookup_insert_ne, bool_decide_false by done. destruct (m !! x); [done|].
      simpl. destruct (position _ es); simpl; [f_equal; lia|done].
Qed.

Lemma index_loop_positions p x :
  (index_loop (entries p) 0 ∅ []).1 !! x = first_position p x.
Proof. rewrite index_loop_lookup, lookup_empty. unfold first_position. by destruct (position _ _). Qed.

(** Every occurrence is kept or reported. *)
Lemma index_loop_partition es pos m fs :
  (forall x i, m !! x = Some i -> i < pos) ->
  map id es ++ map fault_entry fs ≡ₚ
    map id (valid_from (index_loop es pos m fs).1 pos es) ++
    map fault_entry (index_loop es pos m fs).2.
Proof.
  revert pos m fs. induction es as [|e es IH]; intros pos m fs Hm; [done|].
  change (map id (e :: es) ++ map fault_entry fs) with (id e :: (map id es ++ map fault_entry fs)).
  pose proof (index_loop_lookup (e :: es) pos m fs (id e)) as Hlook. revert Hlook.
  simpl. destruct (m !! id e) as [i|] eqn:He; intros Hlook.
  - rewrite decide_False by (rewrite Hlook; apply Hm in He; intros [=]; lia).
    rewrite <-IH by (intros y j Hy; apply Hm in Hy; lia).
    rewrite map_app, app_assoc. apply Permutation_cons_append.
  - rewrite bool_decide_true in Hlook by done. simpl in Hlook. rewrite Nat.add_0_r in Hlook.
    rewrite decide_True by done. simpl. rewrite <-IH; [done|].
    intros y j [[<- <-]|[? Hy]]%lookup_insert_Some; [lia|]. apply Hm in Hy. lia.
Qed.

Lemma valid_from_elem m pos es e :
  e ∈ valid_from m pos es <-> exists i, es !! i = Some e /\ m !! id e = Some (pos + i).
Proof.
  revert pos. induction es as [|e' es IH]; intros pos; simpl.
  - split; [by intros ?%elem_of_nil|intros (i & ? & _); by rewrite lookup_nil in *].
  - assert (e ∈ valid_from m (S pos) es <->
      exists i, es !! i = Some e /\ m !! id e = Some (pos + S i)) as IH'.
    { rewrite IH. by setoid_rewrite <-plus_n_Sm. }
    case_decide as Hd; rewrite ?elem_of_cons, IH'; split.
    + intros [->|(i & ? & ?)]; [exists 0; rewrite Nat.add_0_r; done|exists (S i); done].
    + intros ([|i] & Hi & Hm); simpl in *; [left; congruence|eauto].
    + intros (i & ? & ?). exists (S i). done.
    + intros ([|i] & Hi & Hm); simpl in *; [|eauto].
      injection Hi as ->. rewrite Nat.add_0_r in Hm. done.
Qed.

Lemma valid_from_NoDup m pos es : NoDup (map id (valid_from m pos es)).
Proof.
  revert pos. induction es as [|e es IH]; intros pos; simpl; [constructor|].
  case_decide as Hd; [|done]. simpl. apply NoDup_cons. split; [|done].
  intros (e' & Heq & (i & _ & Hi)%valid_from_elem)%list_elem_of_fmap.
  rewrite <-Heq, Hd in Hi. injection Hi. lia.
Qed.

Lemma valid_from_delete m pos es x :
  valid_from (delete x m) pos es = filter (fun e => id e <> x) (valid_from m pos es).
Proof.
  revert pos. induction es as [|e es IH]; intros pos; [done|]. simpl. rewrite IH.
  destruct (decide (id e = x)) as [<-|Hne].
  - rewrite lookup_delete_eq. rewrite decide_False by done.
    case_decide; [|done]. rewrite filter_cons_False by auto. done.
  - rewrite lookup_delete_ne by done. case_decide; [|done].
    by rewrite filter_cons_True by done.
Qed.

Lemma filter_ids_remove es e x :
  NoDup (map id es) -> e ∈ es -> id e = x ->
  map id es ≡ₚ x :: map id (filter (fun e => id e <> x) es).
Proof.
  intros Hnd Hin Hid. induction es as [|e' es IH]; [by apply elem_of_nil in Hin|].
  simpl in Hnd. apply NoDup_cons in Hnd as [Hn Hnd]. rewrite filter_cons.
  destruct (decide (id e' = x)) as [Heq|Hne].
  - rewrite decide_False by auto. simpl. rewrite Heq. constructor.
    rewrite filter_all; [done|]. apply Forall_forall. intros y Hy ?. apply Hn.
    apply list_elem_of_fmap. exists y. split; [congruence|done].
  - rewrite decide_True by done. simpl. apply elem_of_cons in Hin as [->|Hin]; [done|].
    rewrite IH by done. constructor.
Qed.
End Indexing.

(** ** Charting is sound and complete *)

Section Sound.
Context {C : Type}.
Implicit Types (p : Profile C) (ix : EntryIndex C) (e : ProfileEntry C) (x : EntryId).

(** What holds between two iterations of [chart]. *)
Record charted p ix : Prop := {
  ch_profile : profile ix = p;
  ch_by_id x i : by_id ix !! x = Some i -> first_position p x = Some i;
  ch_faulted x es : by_id ix !! x = None -> ~ lineage p x es;
  ch_depth x d : depths ix !! x = Some d -> exists es, lineage p x es /\ length es = S d;
  ch_accounted : map id (entries p) ≡ₚ map id (valid_entries ix) ++ map fault_entry (faults ix);
}.

Lemma indexed_first p ix x i :
  charted p ix -> by_id ix !! x = Some i ->
  exists e, first p x = Some e /\ entries (profile ix) !! i = Some e.
Proof.
  intros Hc Hi. pose proof (ch_by_id _ _ Hc _ _ Hi) as Hfirst. rewrite (ch_profile _ _ Hc).
  destruct (first_position_lt _ _ _ Hfirst) as (e & He & _). exists e.
  unfold first. by rewrite Hfirst.
Qed.

Lemma get_first p ix x e : charted p ix -> get ix x = Some e -> first p x = Some e.
Proof.
  intros Hc (i & Hi & He)%bind_Some. destruct (indexed_first _ _ _ _ Hc Hi) as (e' & ? & ?).
  congruence.
Qed.

Lemma parent_of_first p ix x i :
  charted p ix -> by_id ix !! x = Some i -> parent_at ix i = e ← first p x; parent e.
Proof.
  intros Hc Hi. destruct (indexed_first _ _ _ _ Hc Hi) as (e & He & Hp).
  unfold parent_at. by rewrite Hp, He.
Qed.

(** A trail read from its top: each entry is followed by a child. *)
Inductive descends p : list EntryId -> Prop :=
  | descends_one x : descends p [x]
  | descends_child q b r e :
      first p b = Some e -> parent e = Some q -> descends p (b :: r) -> descends p (q :: b :: r).

Lemma descends_lineage p c l es :
  descends p (c :: l) -> lineage p c es ->
  forall x, x ∈ c :: l -> exists es', lineage p x es' /\ length es <= length es'.
Proof.
  intros Hd. remember (c :: l) as cl eqn:Hcl. revert c l es Hcl.
  induction Hd as [y|q b r e Hb Hp Hd IH]; intros c l es [= <- <-] Hl x Hx.
  - apply list_elem_of_singleton in Hx as ->. eauto.
  - apply elem_of_cons in Hx as [->|Hx]; [eauto|].
    destruct (IH _ _ (e :: es) eq_refl ltac:(by eapply lineage_child) _ Hx) as (es' & ? & Hlen).
    exists es'. simpl in Hlen. split; [done|lia].
Qed.

Lemma descends_unsound p c l :
  descends p (c :: l) -> (forall es, ~ lineage p c es) ->
  forall x es, x ∈ c :: l -> ~ lineage p x es.
Proof.
  intros Hd. remember (c :: l) as cl eqn:Hcl. revert c l Hcl.
  induction Hd as [y|q b r e Hb Hp Hd IH]; intros c l [= <- <-] Hno x es Hx.
  - by apply list_elem_of_singleton in Hx as ->.
  - apply elem_of_cons in Hx as [->|Hx]; [done|]. eapply IH; [done| |done].
    intros es' Hl. destruct (lineage_parent _ _ _ _ _ Hb Hp Hl) as (rest & _ & Hq).
    by eapply Hno.
Qed.

Lemma descends_cycle p c l q e :
  descends p (c :: l) -> first p c = Some e -> parent e = Some q -> q ∈ c :: l ->
  forall es, ~ lineage p c es.
Proof.
  intros Hd Hc Hp Hq es Hl. destruct (lineage_parent _ _ _ _ _ Hc Hp Hl) as (rest & -> & Hlq).
  destruct (descends_lineage _ _ _ _ Hd Hl _ Hq) as (es' & Hlq' & Hlen).
  pose proof (lineage_fun _ _ _ _ Hlq Hlq'). subst. simpl in Hlen. lia.
Qed.

Lemma first_in_ids p x e : first p x = Some e -> x ∈ map id (entries p).
Proof.
  intros H. apply list_elem_of_fmap. exists e. split; [symmetry; by eapply first_id|].
  by eapply first_elem.
Qed.

(** What the climb finds. *)
Definition climbed p ix (l : list EntryId) (out : list EntryId * option string) : Prop :=
  (forall x, x ∈ l -> x ∈ out.1) /\
  match out.2 with
  | Some _ => forall x es, x ∈ out.1 -> ~ lineage p x es
  | None =>
      exists c l' es, out.1 = reverse (c :: l') /\ descends p (c :: l') /\
        lineage p c es /\ length es = S (above ix out.1)
  end.

Lemma climb_root p ix c l e i :
  charted p ix -> by_id ix !! c = Some i -> first p c = Some e -> parent e = None ->
  descends p (c :: l) -> climbed p ix (c :: l) (reverse (c :: l), None).
Proof.
  intros Hc Hi He Hp Hd. split; [intros x; simpl; by rewrite elem_of_reverse|]. simpl.
  exists c, l, [e]. split_and!; [done|done|by apply lineage_root|].
  unfold above, parent_of. rewrite reverse_cons, last_snoc. simpl. rewrite Hi. simpl.
  rewrite (parent_of_first _ _ _ _ Hc Hi), He. simpl. by rewrite Hp.
Qed.

Lemma climb_charted p ix c l e i q d :
  charted p ix -> by_id ix !! c = Some i -> first p c = Some e -> parent e = Some q ->
  depths ix !! q = Some d -> descends p (c :: l) ->
  climbed p ix (c :: l) (reverse (c :: l), None).
Proof.
  intros Hc Hi He Hp Hq Hd. split; [intros x; simpl; by rewrite elem_of_reverse|]. simpl.
  destruct (ch_depth _ _ Hc _ _ Hq) as (es & Hl & Hlen).
  exists c, l, (e :: es). split_and!; [done|done|by eapply lineage_child|].
  unfold above, parent_of. rewrite reverse_cons, last_snoc. simpl. rewrite Hi. simpl.
  rewrite (parent_of_first _ _ _ _ Hc Hi), He. simpl. rewrite Hp. simpl. rewrite Hq. lia.
Qed.

Lemma climb_spec p ix fuel c l :
  charted p ix -> descends p (c :: l) -> NoDup (c :: l) ->
  (forall x, x ∈ l -> x ∈ map id (entries p)) ->
  length l + fuel = S (length (entries p)) ->
  climbed p ix (c :: l) (climb fuel ix (reverse (c :: l))).
Proof.
  intros Hc. revert c l. induction fuel as [|fuel IH]; intros c l Hd Hnd Hin Hlen.
  { exfalso. assert (l ⊆+ map id (entries p)) as Hsub.
    { apply NoDup_submseteq; [by inversion Hnd|done]. }
    apply submseteq_length in Hsub. rewrite length_map in Hsub. lia. }
  simpl. rewrite reverse_cons at 1. rewrite last_snoc.
  destruct (by_id ix !! c) as [i|] eqn:Hi.
  - rewrite (parent_of_first _ _ _ _ Hc Hi).
    destruct (indexed_first _ _ _ _ Hc Hi) as (e & He & _). rewrite He. simpl.
    destruct (parent e) as [q|] eqn:Hp; [|by eapply climb_root].
    case_decide as Hq; [destruct Hq; by eapply climb_charted|].
    case_decide as Hcyc; rewrite elem_of_reverse in Hcyc.
    + split; [intros x; simpl; by rewrite elem_of_reverse|]. simpl.
      intros x es Hx. rewrite elem_of_reverse in Hx. eapply descends_unsound; [done| |done].
      eapply descends_cycle; eauto.
    + rewrite <-reverse_cons. destruct (IH q (c :: l)) as [Hsub Hout].
      * by eapply descends_child.
      * by apply NoDup_cons.
      * intros x [->|]%elem_of_cons; [by eapply first_in_ids|auto].
      * simpl. lia.
      * split; [|done]. intros x Hx. apply Hsub, elem_of_cons. by right.
  - split; [intros x; simpl; by rewrite elem_of_reverse|]. simpl.
    intros x es Hx. rewrite elem_of_reverse in Hx. eapply descends_unsound; [done| |done].
    intros es'. by eapply ch_faulted.
Qed.
End Sound.

Section Charts.
Context {C : Type}.
Implicit Types (p : Profile C) (ix : EntryIndex C) (e : ProfileEntry C) (x : EntryId).

(** An identity the chart has decided about. *)
Definition settled ix x : Prop := by_id ix !! x = None \/ is_Some (depths ix !! x).

(** [ix'] has decided at least what [ix] has. *)
Definition grows ix ix' : Prop :=
  (forall x, by_id ix !! x = None -> by_id ix' !! x = None) /\
  (forall x, is_Some (depths ix !! x) -> is_Some (depths ix' !! x)).

Lemma grows_settled ix ix' x : grows ix ix' -> settled ix x -> settled ix' x.
Proof. intros [Hb Hd] [?|?]; [left|right]; auto. Qed.

Lemma fault_one p ix x i r :
  charted p ix -> by_id ix !! x = Some i -> (forall es, ~ lineage p x es) ->
  charted p (MkEntryIndex (profile ix) (delete x (by_id ix)) (depths ix) (faults ix ++ [fault x r])).
Proof.
  intros Hc Hi Hno. split; simpl.
  - apply Hc.
  - intros y j [_ Hy]%lookup_delete_Some. by apply Hc.
  - intros y es. rewrite lookup_delete_None. intros [<-|Hy]; [apply Hno|by eapply ch_faulted].
  - apply Hc.
  - rewrite (ch_accounted _ _ Hc), map_app. simpl. unfold valid_entries. simpl.
    rewrite valid_from_delete.
    destruct (indexed_first _ _ _ _ Hc Hi) as (e & He & Hie).
    rewrite (filter_ids_remove (valid_from _ _ _) e x).
    + by rewrite app_assoc, <-Permutation_cons_append.
    + apply valid_from_NoDup.
    + apply valid_from_elem. exists i. by rewrite (first_id _ _ _ He).
    + by eapply first_id.
Qed.

Lemma fault_trail_charted p r trail ix :
  charted p ix -> (forall x es, x ∈ trail -> ~ lineage p x es) ->
  let ix' := fault_trail r trail ix in
  charted p ix' /\ grows ix ix' /\ forall x, x ∈ trail -> by_id ix' !! x = None.
Proof.
  revert ix. induction trail as [|x trail IH]; intros ix Hc Hno; simpl.
  { split_and!; [done|by split|]. by intros y Hy%elem_of_nil. }
  set (ix1 := match by_id ix !! x with Some _ => _ | None => ix end).
  assert (charted p ix1 /\ grows ix ix1 /\ by_id ix1 !! x = None) as (Hc1 & Hg1 & Hx1).
  { unfold ix1. destruct (by_id ix !! x) as [i|] eqn:Hi; [|by split_and!].
    split_and!; simpl; [|split; simpl; [|done]|by rewrite lookup_delete_eq].
    - eapply fault_one; [done|done|]. intros es. apply Hno. by left.
    - intros y Hy. apply lookup_delete_None. by right. }
  destruct (IH ix1 Hc1) as (Hc' & [Hb Hd] & Hin).
  { intros y es Hy. apply Hno. by right. }
  split_and!; [done| |].
  - destruct Hg1 as [Hb1 Hd1]. split; auto.
  - intros y [->|?]%elem_of_cons; auto.
Qed.

Lemma record_depths_keeps l d (m : gmap EntryId nat) x :
  is_Some (m !! x) \/ x ∈ l -> is_Some (record_depths l d m !! x).
Proof.
  revert d m. induction l as [|y l IH]; intros d m; simpl.
  - intros [?|Hx%elem_of_nil]; done.
  - intros Hx. apply IH. destruct (decide (y = x)) as [->|Hne].
    + left. rewrite lookup_insert_eq. by eexists.
    + rewrite lookup_insert_ne by done.
      destruct Hx as [?|[?|?]%elem_of_cons]; [by left|congruence|by right].
Qed.

Lemma record_depths_lineage p c l es d m x d' :
  descends p (c :: l) -> lineage p c es -> length es = S d ->
  record_depths (c :: l) d m !! x = Some d' ->
  m !! x = Some d' \/ exists es', lineage p x es' /\ length es' = S d'.
Proof.
  intros Hd. remember (c :: l) as cl eqn:Hcl. revert c l es d m Hcl.
  induction Hd as [y|q b r e Hb Hp Hd IH]; intros c l es d m [= <- <-] Hl Hlen Hx.
  - simpl in Hx. apply lookup_insert_Some in Hx as [[<- <-]|[_ ?]]; eauto.
  - change (record_depths (b :: r) (S d) (<[q:=d]> m) !! x = Some d') in Hx.
    destruct (IH _ _ (e :: es) (S d) _ eq_refl ltac:(by eapply lineage_child)
      ltac:(simpl; lia) Hx) as [[[<- <-]|[_ ?]]%lookup_insert_Some|?]; eauto.
Qed.

Lemma chart_one_charted p ix x :
  charted p ix ->
  charted p (chart_one ix x) /\ grows ix (chart_one ix x) /\ settled (chart_one ix x) x.
Proof.
  intros Hc. unfold chart_one, settled.
  destruct (by_id ix !! x) as [i|] eqn:Hi; [|split_and!; [done|by split|by left]].
  destruct (depths ix !! x) as [d|] eqn:Hd; [split_and!; [done|by split|by right; rewrite Hd]|].
  pose proof (climb_spec p ix (S (length (entries p))) x [] Hc (descends_one _ _)
    (NoDup_singleton _) ltac:(by intros y Hy%elem_of_nil) eq_refl) as Hclimb.
  rewrite <-(ch_profile _ _ Hc) in Hclimb at 2. change (reverse [x]) with [x] in Hclimb.
  destruct (climb _ ix [x]) as [trail [r|]]; destruct Hclimb as [Hin Hout]; simpl in *;
    (assert (x ∈ trail) as Hx by (apply Hin; by left)).
  - destruct (fault_trail_charted p r trail ix Hc Hout) as (? & ? & Hnone).
    split_and!; [done|done|left; auto].
  - destruct Hout as (c & l' & es & -> & Hdesc & Hl & Hlen). rewrite reverse_involutive.
    split_and!.
    + split; simpl; [apply Hc|apply Hc|apply Hc| |apply Hc].
      intros y d' Hy. eapply record_depths_lineage in Hy as [Hy|Hy]; eauto.
      by eapply ch_depth.
    + split; [done|]. intros y Hy. simpl. apply (record_depths_keeps (c :: l')). by left.
    + right. simpl. apply (record_depths_keeps (c :: l')). right. by rewrite <-elem_of_reverse.
Qed.

Lemma chart_charted p ix :
  charted p ix ->
  charted p (chart ix) /\ forall x, x ∈ map id (entries p) -> settled (chart ix) x.
Proof.
  unfold chart. intros Hc. rewrite (ch_profile _ _ Hc).
  generalize (map id (entries p)) as xs. intros xs. revert ix Hc.
  induction xs as [|x xs IH]; intros ix Hc; simpl.
  { split; [done|]. by intros x Hx%elem_of_nil. }
  destruct (chart_one_charted p ix x Hc) as (Hc1 & _ & Hs1).
  destruct (IH _ Hc1) as [Hc' Hs']. split; [done|].
  assert (grows (chart_one ix x) (fold_left chart_one xs (chart_one ix x))) as Hg.
  { clear IH Hs1 Hc' Hs'. revert Hc1. generalize (chart_one ix x) as ix1.
    induction xs as [|y xs IH]; intros ix1 Hc1; simpl; [by split|].
    destruct (chart_one_charted p ix1 y Hc1) as (Hc2 & [Hb Hd] & _).
    destruct (IH _ Hc2) as [Hb' Hd']. split; auto. }
  intros y [->|?]%elem_of_cons; [|auto]. by eapply grows_settled.
Qed.

Lemma index_start p :
  let '(by_id, faults) := index_loop (entries p) 0 ∅ [] in
  charted p (MkEntryIndex p by_id ∅ faults).
Proof.
  pose proof (index_loop_positions p) as Hpos.
  pose proof (index_loop_partition (entries p) 0 ∅ []) as Hpart.
  destruct (index_loop (entries p) 0 ∅ []) as [m fs]. simpl in *. split; simpl.
  - done.
  - intros x i. by rewrite Hpos.
  - intros x es. rewrite Hpos. intros Hx Hl.
    destruct (lineage_first _ _ _ Hl) as (e & _ & _ & He). unfold first in He.
    by rewrite Hx in He.
  - intros x d. by rewrite lookup_empty.
  - rewrite <-Hpart by (intros ? ?; by rewrite lookup_empty). by rewrite app_nil_r.
Qed.

Lemma index_charted p : charted p (index p) /\ forall x, settled (index p) x.
Proof.
  pose proof (index_start p) as H. unfold index.
  destruct (index_loop (entries p) 0 ∅ []) as [m fs].
  destruct (chart_charted _ _ H) as [Hc Hs]. split; [done|].
  intros x. destruct (decide (x ∈ map id (entries p))) as [Hin|Hin]; [auto|left].
  destruct (by_id _ !! x) as [i|] eqn:Hi; [|done].
  destruct (indexed_first _ _ _ _ Hc Hi) as (e & He & _). by apply first_in_ids in He.
Qed.
End Charts.

(** ** What the chart answers *)

Section Answers.
Context {C : Type}.
Implicit Types (p : Profile C) (e : ProfileEntry C) (es : list (ProfileEntry C)) (x : EntryId).

Lemma indexed_lineage p x : is_Some (by_id (index p) !! x) <-> exists es, lineage p x es.
Proof.
  destruct (index_charted p) as [Hc Hs]. split.
  - intros [i Hi]. destruct (Hs x) as [Hn|[d Hd]]; [congruence|].
    destruct (ch_depth _ _ Hc _ _ Hd) as (es & ? & _). eauto.
  - intros [es Hl]. destruct (by_id (index p) !! x) eqn:Hn; [by eexists|].
    by apply (ch_faulted _ _ Hc) with (es := es) in Hn.
Qed.

Lemma get_index p x e :
  get (index p) x = Some e <-> first p x = Some e /\ exists es, lineage p x es.
Proof.
  destruct (index_charted p) as [Hc _]. rewrite <-indexed_lineage. split.
  - intros Hg. split; [by eapply get_first|]. by apply bind_Some in Hg as (i & -> & _).
  - intros [He [i Hi]]. destruct (indexed_first _ _ _ _ Hc Hi) as (e' & He' & Hp).
    unfold get. rewrite Hi. simpl. congruence.
Qed.

Lemma profile_index p : profile (index p) = p.
Proof. apply index_charted. Qed.

Lemma depth_lineage p x es : lineage p x es -> length es = S (depth (index p) x).
Proof.
  intros Hl. destruct (index_charted p) as [Hc Hs]. unfold depth.
  destruct (Hs x) as [Hn|[d Hd]]; [by apply (ch_faulted _ _ Hc _ es) in Hn|].
  rewrite Hd. destruct (ch_depth _ _ Hc _ _ Hd) as (es' & Hl' & Hlen).
  by rewrite (lineage_fun _ _ _ _ Hl Hl').
Qed.

(** Both loops walk the lineage. *)
Lemma up_lineage p x e es :
  lineage p x (e :: es) ->
  match es with
  | [] => up (index p) e = None
  | e' :: _ => up (index p) e = Some e' /\ exists q, lineage p q es
  end.
Proof.
  intros Hl. inversion Hl as [? ? He Hp|? ? q ? He Hp Hq]; subst; unfold up; rewrite Hp; [done|].
  destruct (lineage_first _ _ _ Hq) as (e' & rest & -> & He'). simpl.
  split; [apply get_index; eauto|eauto].
Qed.

Lemma disabled_loop_lineage p x e es fuel :
  lineage p x (e :: es) -> length es < fuel ->
  disabled_loop fuel (index p) (Some e) = existsb disabled (e :: es).
Proof.
  revert x e es. induction fuel as [|fuel IH]; intros x e es Hl Hf; [lia|]. simpl.
  destruct (disabled e); [done|]. simpl. apply up_lineage in Hl. destruct es as [|e' es].
  - rewrite Hl. by destruct fuel.
  - destruct Hl as [-> [q Hq]]. eapply IH; [done|simpl in Hf; lia].
Qed.

Lemma chain_loop_lineage p x e es fuel acc :
  lineage p x (e :: es) -> length es < fuel ->
  chain_loop fuel (index p) (Some e) acc = acc ++ map (fun e => (id e, isolation e)) (e :: es).
Proof.
  revert x e es acc. induction fuel as [|fuel IH]; intros x e es acc Hl Hf; [lia|]. simpl.
  apply up_lineage in Hl. destruct es as [|e' es].
  - rewrite Hl. by destruct fuel.
  - destruct Hl as [-> [q Hq]]. erewrite IH by (done || simpl in *; lia).
    by rewrite <-app_assoc.
Qed.

Lemma walks_lineage p x es :
  lineage p x es ->
  effectively_disabled (index p) x = existsb disabled es /\
  environment (index p) x = reverse (map (fun e => (id e, isolation e)) es).
Proof.
  intros Hl. pose proof (lineage_bound _ _ _ Hl) as Hb.
  destruct (lineage_first _ _ _ Hl) as (e & rest & -> & He). simpl in Hb.
  assert (get (index p) x = Some e) as Hg by (apply get_index; eauto).
  unfold effectively_disabled, environment. rewrite Hg, profile_index. split.
  - eapply disabled_loop_lineage; [done|lia].
  - f_equal. erewrite chain_loop_lineage; [done|done|lia].
Qed.

Lemma valid_entries_get p e : e ∈ valid_entries (index p) <-> get (index p) (id e) = Some e.
Proof.
  unfold valid_entries, get. rewrite valid_from_elem, bind_Some. simpl.
  split; intros (i & ? & ?); exists i; auto.
Qed.

Lemma valid_entries_NoDup p : NoDup (map id (valid_entries (index p))).
Proof. apply valid_from_NoDup. Qed.

(** The parent of a valid entry is valid and one level up. *)
Lemma depth_parent p e q :
  e ∈ valid_entries (index p) -> parent e = Some q ->
  is_Some (get (index p) q) /\ depth (index p) (id e) = S (depth (index p) q).
Proof.
  rewrite valid_entries_get, get_index. intros (He & es & Hl) Hp.
  destruct (lineage_parent _ _ _ _ _ He Hp Hl) as (rest & -> & Hq).
  apply depth_lineage in Hl. pose proof (depth_lineage _ _ _ Hq) as Hlq. split; [|simpl in Hl; lia].
  destruct (lineage_first _ _ _ Hq) as (e' & ? & ? & ?). exists e'. apply get_index. eauto.
Qed.
End Answers.

(** An entry of a profile stands exactly when its chain of parents (first
    occurrences deciding) ends at a root; then its depth is the length of that
    chain, it is effectively disabled exactly when one of the chain is, and its
    environment lists the chain's isolation from the root down. *)
Theorem chart_follows_ancestry {C} (p : Profile C) (x : EntryId) :
  (forall e, get (index p) x = Some e <-> first p x = Some e /\ exists es, lineage p x es) /\
  (forall es, lineage p x es ->
    length es = S (depth (index p) x) /\
    effectively_disabled (index p) x = existsb disabled es /\
    environment (index p) x = reverse (map (fun e => (id e, isolation e)) es)).
Proof.
  split; [intros e; apply get_index|]. intros es Hl.
  split; [by apply depth_lineage|by apply walks_lineage].
Qed.

(** C40: every occurrence of the document is either one valid entry or one
    recorded fault, and the valid entries have distinct identities. *)
Theorem every_entry_is_valid_or_faulted {C} (p : Profile C) :
  map id (entries p) ≡ₚ map id (valid_entries (index p)) ++ map fault_entry (faults (index p)) /\
  NoDup (map id (valid_entries (index p))) /\
  Forall (fun e => get (index p) (id e) = Some e) (valid_entries (index p)).
Proof.
  split_and!; [apply index_charted|apply valid_entries_NoDup|].
  apply Forall_forall. intros e. apply valid_entries_get.
Qed.

(** A root, a child listed before it, a duplicate, an orphan and a two-cycle. *)
Module EntriesExample.
Definition entry (x : string) (up : option string) (off : bool) : ProfileEntry nat :=
  MkProfileEntry (MkEntryId x) (MkPluginRef "p" "1" "h") 0 off (MkEntryId <$> up) [].
Definition document : Profile nat :=
  MkProfile [entry "child" (Some "root") false; entry "root" None true; entry "root" None false;
             entry "orphan" (Some "nobody") false; entry "a" (Some "b") false;
             entry "b" (Some "a") false].

Example document_charted :
  map id (valid_entries (index document)) = [MkEntryId "child"; MkEntryId "root"] /\
  map fault_entry (faults (index document)) =
    [MkEntryId "root"; MkEntryId "orphan"; MkEntryId "a"; MkEntryId "b"] /\
  map (fun f => message (fault_error f)) (skipn 1 (faults (index document))) =
    ["ancestor " +:+ debug_entry (MkEntryId "nobody") +:+ " is missing or itself faulted";
     "the parent chain through " +:+ debug_entry (MkEntryId "a") +:+ " is a cycle";
     "the parent chain through " +:+ debug_entry (MkEntryId "a") +:+ " is a cycle"] /\
  depth (index document) (MkEntryId "child") = 1.
Proof. by vm_compute. Qed.

Lemma chart_follows_ancestry_witness :
  let root := entry "root" None true in
  let child := entry "child" (Some "root"%string) false in
  effectively_disabled (index document) (MkEntryId "child") = true /\
  lineage document (MkEntryId "child") [child; root].
Proof.
  simpl. assert (lineage document (MkEntryId "child")
    [entry "child" (Some "root"%string) false; entry "root" None true]) as Hl.
  { eapply lineage_child; [by vm_compute|reflexivity|]. by apply lineage_root; vm_compute. }
  split; [|done].
  by rewrite (proj1 (proj2 (proj2 (chart_follows_ancestry document (MkEntryId "child")) _ Hl))).
Defined.
End EntriesExample.
