(* ===== verification/Diff.v ===== *)
(** * Reconcile by identity ([jinnd-loader/src/diff.rs])

    The pure diff between the applied document and the desired one: which
    entries are created, moved, replaced, restated or withdrawn, in which
    order, and which are left alone. *)

From stdpp Require Import base gmap sets list strings sorting.
From S2P Require Import Prelude Api Entries.

(** ** Plans *)

Inductive StepKind := Create | Track | Enable | Disable | Remove | Replace | Restate | Rebind.

#[export] Instance StepKind_eq_dec : EqDecision StepKind.
Proof. solve_decision. Defined.

Record Step := MkStep { step_entry : EntryId; step_kind : StepKind }.

#[export] Instance Step_eq_dec : EqDecision Step.
Proof. solve_decision. Defined.

Record Plan := MkPlan {
  steps : list Step;
  plan_faults : list EntryFault;
  plan_unchanged : list EntryId;
}.

(** A config type's own equality, absent when none was registered. *)
Definition Attestation (C : Type) : Type := option (C -> C -> bool).

(** ** The diff *)

Definition Ranked : Type := nat * StepKind * EntryId.

Record Buckets := MkBuckets {
  disposals : list Ranked;
  rebinds : list Ranked;
  swaps : list EntryId;
  restates : list EntryId;
  creations : list Ranked;
  untouched : list EntryId;
}.

Definition no_buckets : Buckets := MkBuckets [] [] [] [] [] [].

Section Diff.
Context {C : Type}.
Implicit Types (old : option (EntryIndex C)) (new : EntryIndex C) (e : ProfileEntry C).

Definition changed (config_eq : Attestation C) (a b : C) : bool :=
  match config_eq with Some eq => negb (eq a b) | None => true end.

(** The body of the first loop of [plan]. *)
Definition classify old new (config_eq : Attestation C) (b : Buckets) e : Buckets :=
  let '(MkBuckets disposals rebinds swaps restates creations untouched) := b in
  let x := id e in
  let enabled := negb (effectively_disabled new x) in
  match old with
  | None =>
      MkBuckets disposals rebinds swaps restates
        (creations ++ [(depth new x, if enabled then Create else Track, x)]) untouched
  | Some old =>
      match get old x with
      | None =>
          MkBuckets disposals rebinds swaps restates
            (creations ++ [(depth new x, if enabled then Create else Track, x)]) untouched
      | Some previous =>
          match negb (effectively_disabled old x), enabled with
          | true, false =>
              MkBuckets (disposals ++ [(depth new x, Disable, x)]) rebinds swaps restates creations
                untouched
          | false, true =>
              MkBuckets disposals rebinds swaps restates
                (creations ++ [(depth new x, Enable, x)]) untouched
          | false, false =>
              MkBuckets disposals rebinds swaps restates creations (untouched ++ [x])
          | true, true =>
              if decide (plugin previous <> plugin e) then
                MkBuckets disposals rebinds (swaps ++ [x]) restates creations untouched
              else
                let rebind := bool_decide (environment old x <> environment new x) in
                let restate := changed config_eq (config previous) (config e) in
                MkBuckets disposals
                  (if rebind then rebinds ++ [(depth new x, Rebind, x)] else rebinds)
                  swaps
                  (if restate then restates ++ [x] else restates)
                  creations
                  (if negb rebind && negb restate then untouched ++ [x] else untouched)
          end
      end
  end.

(** The second loop: entries that left the document entirely. *)
Definition departed (desired : list EntryId) (old : EntryIndex C) : list Ranked :=
  map (fun e => (depth old (id e), Remove, id e))
    (filter (fun e => id e ∉ desired) (valid_entries old)).

Definition shallower (a b : Ranked) : bool := bool_decide (a.1.1 <= b.1.1).
Definition deeper (a b : Ranked) : bool := bool_decide (b.1.1 <= a.1.1).

Definition step_of (ranked : list Ranked) : list Step := map (fun r => MkStep r.2 r.1.2) ranked.

Definition plan (old : option (Profile C)) (new : Profile C) (config_eq : Attestation C) : Plan :=
  let new_index := index new in
  let old_index := index <$> old in
  let b := fold_left (classify old_index new_index config_eq) (valid_entries new_index) no_buckets in
  let gone :=
    match old_index with
    | Some old_index => departed (map id (entries new)) old_index
    | None => []
    end in
  MkPlan
    (step_of (sort_by deeper (disposals b ++ gone)) ++
     step_of (sort_by shallower (rebinds b)) ++
     map (fun x => MkStep x Replace) (swaps b) ++
     map (fun x => MkStep x Restate) (restates b) ++
     step_of (sort_by shallower (creations b)))
    (faults new_index) (untouched b).
End Diff.

(** ** What the plan owes an entry *)

Section Verdicts.
Context {C : Type}.
Implicit Types (old : option (EntryIndex C)) (new : EntryIndex C) (e : ProfileEntry C) (x : EntryId).

(** The steps of one entry, decided by nothing but its two views. *)
Definition verdict_of old new (config_eq : Attestation C) e : list StepKind :=
  let x := id e in
  let now := negb (effectively_disabled new x) in
  match old with
  | None => [if now then Create else Track]
  | Some old =>
      match get old x with
      | None => [if now then Create else Track]
      | Some previous =>
          match negb (effectively_disabled old x), now with
          | true, false => [Disable]
          | false, true => [Enable]
          | false, false => []
          | true, true =>
              if decide (plugin previous <> plugin e) then [Replace]
              else
                (if decide (environment old x = environment new x) then [] else [Rebind]) ++
                (if changed config_eq (config previous) (config e) then [Restate] else [])
          end
      end
  end.

Definition verdict old new (listed : list EntryId) (config_eq : Attestation C) x : list StepKind :=
  match get new x with
  | Some e => verdict_of old new config_eq e
  | None =>
      match old with
      | Some old => if decide (is_Some (get old x) /\ x ∉ listed) then [Remove] else []
      | None => []
      end
  end.

(** The part of the buckets that is about one entry. *)
Definition project x (b : Buckets) : Buckets :=
  MkBuckets (filter (fun r => r.2 = x) (disposals b)) (filter (fun r => r.2 = x) (rebinds b))
    (filter (fun y => y = x) (swaps b)) (filter (fun y => y = x) (restates b))
    (filter (fun r => r.2 = x) (creations b)) (filter (fun y => y = x) (untouched b)).

Lemma filter_snoc_ranked (l : list Ranked) r x :
  filter (fun r => r.2 = x) (l ++ [r]) =
    filter (fun r => r.2 = x) l ++ (if decide (r.2 = x) then [r] else []).
Proof. by rewrite filter_app. Qed.

Lemma filter_snoc_id (l : list EntryId) y x :
  filter (fun y => y = x) (l ++ [y]) =
    filter (fun y => y = x) l ++ (if decide (y = x) then [y] else []).
Proof. by rewrite filter_app. Qed.

Lemma project_classify old new config_eq x b e :
  project x (classify old new config_eq b e) =
    if decide (id e = x) then classify old new config_eq (project x b) e else project x b.
Proof.
  destruct b as [d r s t c u]. destruct (decide (id e = x)) as [Heq|Hne]; unfold classify, project;
    repeat case_match; simpl; rewrite ?filter_snoc_ranked, ?filter_snoc_id; simpl;
    rewrite ?decide_True, ?decide_False, ?app_nil_r by done; done.
Qed.

Lemma project_fold old new config_eq x es b :
  project x (fold_left (classify old new config_eq) es b) =
    fold_left (classify old new config_eq) (filter (fun e => id e = x) es) (project x b).
Proof.
  revert b. induction es as [|e es IH]; intros b; simpl; [done|].
  rewrite IH, project_classify, filter_cons. by destruct (decide (id e = x)).
Qed.

Lemma filter_valid p x :
  filter (fun e => id e = x) (valid_entries (index p)) =
    match get (index p) x with Some e => [e] | None => @nil (ProfileEntry C) end.
Proof.
  assert (forall es, NoDup (map id es) -> forall e, e ∈ es -> id e = x ->
    filter (fun e => id e = x) es = [e]) as Hone.
  { induction es as [|e' es IH]; intros Hnd e Hin Hid; [by apply elem_of_nil in Hin|].
    simpl in Hnd. apply NoDup_cons in Hnd as [Hn Hnd]. rewrite filter_cons.
    apply elem_of_cons in Hin as [->|Hin].
    - rewrite decide_True by done. f_equal. apply filter_none. intros y Hy Heq. apply Hn.
      apply list_elem_of_fmap. exists y. split; [congruence|done].
    - rewrite decide_False; [by apply IH|]. intros Heq. apply Hn.
      apply list_elem_of_fmap. exists e. split; [congruence|done]. }
  destruct (get (index p) x) as [e|] eqn:Hg.
  - pose proof Hg as Hx. apply get_index in Hx as [Hx _]. apply first_id in Hx. subst x.
    apply Hone; [apply valid_entries_NoDup|by apply valid_entries_get|done].
  - apply filter_none. intros e He <-. apply valid_entries_get in He. congruence.
Qed.
End Verdicts.

Section PlanLaws.
Context {C : Type}.
Implicit Types (old : option (Profile C)) (new : Profile C) (e : ProfileEntry C) (x : EntryId).

Definition steps_for x (p : Plan) : list StepKind :=
  map step_kind (filter (fun s => step_entry s = x) (steps p)).

Lemma filter_step_of x (l : list Ranked) :
  filter (fun s => step_entry s = x) (step_of l) = step_of (filter (fun r => r.2 = x) l).
Proof.
  induction l as [|r l IH]; [done|]. simpl. rewrite !filter_cons, IH. simpl.
  by destruct (decide (r.2 = x)).
Qed.

Lemma filter_steps x k (l : list EntryId) :
  filter (fun s => step_entry s = x) (map (fun y => MkStep y k) l) =
    map (fun y => MkStep y k) (filter (fun y => y = x) l).
Proof.
  induction l as [|y l IH]; [done|]. simpl. rewrite !filter_cons, IH. simpl.
  by destruct (decide (y = x)).
Qed.

(** Sorting does not reorder what is at most one element. *)
Lemma filter_sort_by (le : Ranked -> Ranked -> bool) x (l : list Ranked) :
  length (filter (fun r => r.2 = x) l) <= 1 ->
  filter (fun r => r.2 = x) (sort_by le l) = filter (fun r => r.2 = x) l.
Proof.
  intros Hlen. assert (filter (fun r : Ranked => r.2 = x) (sort_by le l) ≡ₚ
    filter (fun r : Ranked => r.2 = x) l) as Hp by by rewrite sort_by_Permutation.
  destruct (filter _ l) as [|r [|r' rest]]; simpl in Hlen; [| |lia].
  - by apply Permutation_nil_r in Hp.
  - by apply Permutation_singleton_r in Hp.
Qed.

Definition buckets old new (config_eq : Attestation C) : Buckets :=
  fold_left (classify (index <$> old) (index new) config_eq) (valid_entries (index new)) no_buckets.

Lemma project_buckets old new config_eq x :
  project x (buckets old new config_eq) =
    match get (index new) x with
    | Some e => classify (index <$> old) (index new) config_eq no_buckets e
    | None => no_buckets
    end.
Proof.
  unfold buckets. rewrite project_fold, filter_valid. by destruct (get (index new) x).
Qed.

Definition gone old new : list Ranked :=
  match index <$> old with
  | Some old_index => departed (map id (entries new)) old_index
  | None => []
  end.

Lemma filter_gone old new x :
  filter (fun r => r.2 = x) (gone old new) =
    match index <$> old with
    | Some old_index =>
        if decide (is_Some (get old_index x) /\ x ∉ map id (entries new))
        then [(depth old_index x, Remove, x)] else []
    | None => []
    end.
Proof.
  unfold gone. destruct old as [o|]; simpl; [|done]. unfold departed.
  rewrite filter_map, filter_comm. simpl.
  rewrite filter_valid. destruct (get (index o) x) as [e|] eqn:Hg.
  - pose proof Hg as [Hx _]%get_index. apply first_id in Hx. rewrite filter_cons, filter_nil.
    rewrite Hx. repeat case_decide; try done; [simpl; by rewrite Hx|naive_solver|naive_solver].
  - rewrite decide_False; [done|]. intros [[? [=]] _].
Qed.

Lemma get_listed new x e : get (index new) x = Some e -> x ∈ map id (entries new).
Proof. intros [Hx _]%get_index. by eapply first_in_ids. Qed.

(** Where each bucket holds at most one step of an entry, sorting keeps them. *)
Lemma steps_for_buckets old new config_eq x :
  let '(MkBuckets d r s t c u) := project x (buckets old new config_eq) in
  let g := filter (fun r => r.2 = x) (gone old new) in
  length (d ++ g) <= 1 -> length r <= 1 -> length c <= 1 ->
  steps_for x (plan old new config_eq) =
    map (fun r => r.1.2) (d ++ g) ++ map (fun r => r.1.2) r ++ map (fun _ => Replace) s ++
    map (fun _ => Restate) t ++ map (fun r => r.1.2) c.
Proof.
  unfold steps_for, plan. fold (gone old new). fold (buckets old new config_eq).
  destruct (buckets old new config_eq) as [d r s t c u]. simpl. intros Hd Hr Hc.
  rewrite !filter_app, !filter_step_of, !filter_steps.
  rewrite !filter_sort_by by (rewrite ?filter_app; done).
  rewrite filter_app. unfold step_of. rewrite !map_app, !map_map. done.
Qed.
End PlanLaws.

(** The verdicts, for the clients of a plan. *)
Lemma plan_verdicts {C} (old : option (Profile C)) new (config_eq : Attestation C) x :
  let owed := verdict (index <$> old) (index new) (map id (entries new)) config_eq x in
  steps_for x (plan old new config_eq) = owed /\
  filter (fun y => y = x) (plan_unchanged (plan old new config_eq)) =
    (if decide (is_Some (get (index new) x) /\ owed = []) then [x] else []) /\
  plan_faults (plan old new config_eq) = faults (index new).
Proof.
  pose proof (steps_for_buckets old new config_eq x) as Hs.
  assert (filter (fun y => y = x) (plan_unchanged (plan old new config_eq)) =
    untouched (project x (buckets old new config_eq))) as -> by done.
  rewrite project_buckets in *. rewrite filter_gone in Hs. unfold verdict.
  destruct (get (index new) x) as [e|] eqn:Hx.
  - assert ((match index <$> old with
      | Some o => if decide (is_Some (get o x) /\ x ∉ map id (entries new))
                  then [(depth o x, Remove, x)] else []
      | None => [] end : list Ranked) = []) as Hg.
    { destruct old; [|done]. simpl. apply decide_False.
      intros [_ Hn]. by apply Hn, (get_listed _ _ e). }
    pose proof Hx as [He _]%get_index. apply first_id in He. subst x.
    rewrite Hg in Hs. clear Hg. unfold classify in *. unfold verdict_of.
    destruct (index <$> old) as [o|]; simpl in *.
    + destruct (get o (id e)) as [prev|]; simpl in *.
      * destruct (effectively_disabled o (id e)), (effectively_disabled (index new) (id e));
          simpl in *; [by rewrite Hs by lia|by rewrite Hs by lia|by rewrite Hs by lia|].
        destruct (decide (plugin prev <> plugin e)); simpl in *; [by rewrite Hs by lia|].
        destruct (changed _ _ _), (decide (environment o (id e) = environment (index new) (id e)))
          as [Heq|Hne]; rewrite ?bool_decide_false, ?bool_decide_true in * by auto;
          simpl in *; by rewrite Hs by lia.
      * by rewrite Hs by lia.
    + by rewrite Hs by lia.
  - simpl in Hs. destruct (index <$> old) as [o|]; simpl in *; [case_decide|]; by rewrite Hs by (simpl; lia).
Qed.

(** The steps a plan holds for an entry are decided by that entry's two
    views alone: creation or tracking for a new one, enabling, disabling or
    removal when its standing changes, one replacement for a new plugin, a
    rebind exactly when its environment changed followed by a restatement
    exactly when its config may have changed, and nothing else; an entry is
    reported unchanged exactly when it stands and none of these is owed. *)
Theorem plan_follows_verdicts {C} (old : option (Profile C)) new (config_eq : Attestation C) x :
  let owed := verdict (index <$> old) (index new) (map id (entries new)) config_eq x in
  steps_for x (plan old new config_eq) = owed /\
  filter (fun y => y = x) (plan_unchanged (plan old new config_eq)) =
    (if decide (is_Some (get (index new) x) /\ owed = []) then [x] else []) /\
  plan_faults (plan old new config_eq) = faults (index new).
Proof. apply plan_verdicts. Qed.

(** ** The order of a plan *)

Section Order.
Context {C : Type}.
Implicit Types (old : option (Profile C)) (new : Profile C) (e : ProfileEntry C) (x : EntryId).

Definition phase (k : StepKind) : nat :=
  match k with
  | Disable | Remove => 0
  | Rebind => 1
  | Replace => 2
  | Restate => 3
  | Create | Track | Enable => 4
  end.

(** The depth a step was ranked by. *)
Definition step_depth old new (s : Step) : nat :=
  match step_kind s, old with
  | Remove, Some old => depth (index old) (step_entry s)
  | _, _ => depth (index new) (step_entry s)
  end.

Definition precedes old new (a b : Step) : Prop :=
  phase (step_kind a) < phase (step_kind b) \/
  phase (step_kind a) = phase (step_kind b) /\
  match phase (step_kind a) with
  | 0 => step_depth old new b <= step_depth old new a
  | 1 | 4 => step_depth old new a <= step_depth old new b
  | _ => True
  end.

Definition ranked old new (n : nat) (r : Ranked) : Prop :=
  phase r.1.2 = n /\ r.1.1 = step_depth old new (MkStep r.2 r.1.2).

Lemma classify_ranked old new config_eq b e :
  Forall (ranked old new 0) (disposals b) -> Forall (ranked old new 1) (rebinds b) ->
  Forall (ranked old new 4) (creations b) ->
  let b' := classify (index <$> old) (index new) config_eq b e in
  Forall (ranked old new 0) (disposals b') /\ Forall (ranked old new 1) (rebinds b') /\
  Forall (ranked old new 4) (creations b').
Proof.
  destruct b as [d r s t c u], old as [o|]; unfold classify, ranked; simpl; intros Hd Hr Hc;
  repeat case_match; simpl; rewrite ?Forall_app, ?Forall_singleton; simpl; unfold step_depth;
    simpl; tauto.
Qed.

Lemma buckets_ranked old new config_eq :
  let b := buckets old new config_eq in
  Forall (ranked old new 0) (disposals b) /\ Forall (ranked old new 1) (rebinds b) /\
  Forall (ranked old new 4) (creations b).
Proof.
  unfold buckets. assert (forall es b, Forall (ranked old new 0) (disposals b) /\
    Forall (ranked old new 1) (rebinds b) /\ Forall (ranked old new 4) (creations b) ->
    let b' := fold_left (classify (index <$> old) (index new) config_eq) es b in
    Forall (ranked old new 0) (disposals b') /\ Forall (ranked old new 1) (rebinds b') /\
    Forall (ranked old new 4) (creations b')) as H.
  { induction es as [|e es IH]; intros b Hb; simpl; [done|]. apply IH.
    destruct Hb as (? & ? & ?). by apply classify_ranked. }
  apply H. split_and!; constructor.
Qed.

Lemma gone_ranked old new : Forall (ranked old new 0) (gone old new).
Proof.
  unfold gone. destruct old as [o|]; [|constructor]. simpl. unfold departed.
  apply Forall_map, Forall_forall. intros e _. by split.
Qed.

(** A sorted bucket becomes a sorted run of steps. *)
Lemma sorted_run (R : relation Step) (le : Ranked -> Ranked -> bool) (P : Ranked -> Prop) l :
  (forall a b, le a b = true \/ le b a = true) ->
  (forall a b c, le a b = true -> le b c = true -> le a c = true) ->
  (forall a b, P a -> P b -> le a b = true -> R (MkStep a.2 a.1.2) (MkStep b.2 b.1.2)) ->
  Forall P l -> StronglySorted R (step_of (sort_by le l)).
Proof.
  intros Htot Htrans HR HP. pose proof (sort_by_sorted le l Htot Htrans) as Hs.
  rewrite <-(sort_by_Permutation le) in HP.
  induction Hs as [|a l' Hs IH Hall]; simpl; [constructor|].
  apply Forall_cons in HP as [Ha HP]. constructor; [auto|].
  apply Forall_map. rewrite Forall_forall in *. intros b Hb. auto.
Qed.

Lemma run_phase old new n le (l : list Ranked) s :
  Forall (ranked old new n) l -> s ∈ step_of (sort_by le l) -> phase (step_kind s) = n.
Proof.
  rewrite Forall_forall. intros Hl (r & -> & Hr)%list_elem_of_fmap.
  rewrite sort_by_Permutation in Hr. by apply Hl.
Qed.

Lemma const_sorted (R : relation Step) k (l : list EntryId) :
  (forall x y, R (MkStep x k) (MkStep y k)) -> StronglySorted R (map (fun x => MkStep x k) l).
Proof.
  intros HR. induction l as [|x l IH]; simpl; [constructor|]. constructor; [done|].
  apply Forall_map, Forall_forall. auto.
Qed.

Lemma const_phase k (l : list EntryId) s :
  s ∈ map (fun x => MkStep x k) l -> phase (step_kind s) = phase k.
Proof. by intros (x & -> & _)%list_elem_of_fmap. Qed.

Lemma plan_sorted old new config_eq :
  StronglySorted (precedes old new) (steps (plan old new config_eq)).
Proof.
  pose proof (buckets_ranked old new config_eq) as (Hd & Hr & Hc).
  pose proof (gone_ranked old new) as Hg.
  unfold plan. fold (gone old new). fold (buckets old new config_eq). simpl.
  assert (Forall (ranked old new 0) (disposals (buckets old new config_eq) ++ gone old new)) as Hdg
    by by apply Forall_app.
  assert (forall a b : Ranked, deeper a b = true \/ deeper b a = true) as Hdt.
  { intros a b. unfold deeper. rewrite !bool_decide_eq_true. lia. }
  assert (forall a b c : Ranked, deeper a b = true -> deeper b c = true -> deeper a c = true) as Hdtr.
  { intros a b c. unfold deeper. rewrite !bool_decide_eq_true. lia. }
  assert (forall a b : Ranked, shallower a b = true \/ shallower b a = true) as Hst.
  { intros a b. unfold shallower. rewrite !bool_decide_eq_true. lia. }
  assert (forall a b c : Ranked, shallower a b = true -> shallower b c = true -> shallower a c = true)
    as Hstr.
  { intros a b c. unfold shallower. rewrite !bool_decide_eq_true. lia. }
  repeat apply StronglySorted_app_2.
  all: try (eapply sorted_run; [done|done| |done]; intros a b [Ha Ha'] [Hb Hb'];
    unfold deeper, shallower; rewrite bool_decide_eq_true; intros Hle; right; simpl;
    rewrite Ha, Hb, <-?Ha', <-?Hb'; split; [done|]; lia).
  all: try (apply const_sorted; intros; right; done).
  all: intros a b Ha Hb; left; rewrite ?elem_of_app in Hb.
  all: repeat match goal with
    | H : _ \/ _ |- _ => destruct H
    | H : _ ∈ step_of _ |- _ => eapply run_phase in H; [rewrite H; clear H|done]
    | H : _ ∈ map _ _ |- _ => apply const_phase in H; rewrite H; clear H
    end; simpl; lia.
Qed.
End Order.

(** Within a plan a parent is created, tracked, enabled or rebound before
    its child, and disabled or removed after it; disposals come before
    rebinds, those before replacements, restatements and creations. *)
Theorem plan_respects_the_tree {C} (old : option (Profile C)) new (config_eq : Attestation C)
    i j q kq x kx :
  let s := steps (plan old new config_eq) in
  s !! i = Some (MkStep q kq) -> s !! j = Some (MkStep x kx) ->
  (phase kq < phase kx -> i < j) /\
  (forall e, get (index new) x = Some e -> parent e = Some q -> phase kq = phase kx ->
    (phase kx = 4 \/ kx = Rebind -> i < j) /\ (kq = Disable -> kx = Disable -> j < i)) /\
  (forall o e, old = Some o -> get (index o) x = Some e -> parent e = Some q ->
    kq = Remove -> kx = Remove -> j < i).
Proof.
  intros s Hi Hj.
  assert (forall n m a b, s !! n = Some a -> s !! m = Some b -> n < m \/ n = m \/ precedes old new b a)
    as Hord.
  { intros n m a b Hn Hm. destruct (decide (n < m)); [by left|]. right.
    destruct (decide (n = m)); [by left|]. right.
    eapply StronglySorted_lookup; [apply plan_sorted|done|done|lia]. }
  split_and!.
  - intros Hlt. destruct (Hord _ _ _ _ Hi Hj) as [?|[->|[Hp|[Hp _]]]]; [done| | |]; simpl in *; [|lia..].
    simplify_eq. lia.
  - intros e He Hp Hph. pose proof (depth_parent new e q) as Hdepth.
    pose proof He as [Hid _]%get_index. apply first_id in Hid. subst x.
    destruct Hdepth as [_ Hdepth]; [by apply valid_entries_get|done|]. split.
    + intros Hk. destruct (Hord _ _ _ _ Hi Hj) as [?|[->|Hb]]; [done|simplify_eq; lia|exfalso].
      destruct Hb as [Hb|[_ Hb]]; simpl in *; [lia|]. unfold step_depth in Hb. simpl in Hb.
      destruct Hk as [Hk| ->]; destruct kq; simpl in *; try (rewrite Hk in Hb); try lia;
        destruct kx; simpl in *; lia.
    + intros -> ->. destruct (Hord _ _ _ _ Hj Hi) as [?|[->|Hb]]; [done|simplify_eq; lia|exfalso].
      destruct Hb as [Hb|[_ Hb]]; simpl in *; [lia|]. unfold step_depth in Hb. simpl in Hb. lia.
  - intros o e -> He Hp -> ->. pose proof He as [Hid _]%get_index. apply first_id in Hid. subst x.
    destruct (depth_parent o e q) as [_ Hdepth]; [by apply valid_entries_get|done|].
    destruct (Hord _ _ _ _ Hj Hi) as [?|[->|Hb]]; [done|simplify_eq; lia|exfalso].
    destruct Hb as [Hb|[_ Hb]]; simpl in *; [lia|]. unfold step_depth in Hb. simpl in Hb. lia.
Qed.

(** A group that moves, a child that is replaced, one that leaves, a new pair. *)
Module DiffExample.
Import EntriesExample.
Definition before : Profile nat :=
  MkProfile [entry "g" None false; entry "x" (Some "g"%string) false; entry "y" (Some "g"%string) false].
Definition after : Profile nat :=
  MkProfile [entry "x" (Some "g"%string) false; entry "g" None true; entry "n" (Some "m"%string) false;
             entry "m" None false].

Definition reconciliation : Plan := plan (Some before) after (Some Nat.eqb).

Example reconciliation_steps :
  steps reconciliation =
    [MkStep (MkEntryId "x") Disable; MkStep (MkEntryId "y") Remove; MkStep (MkEntryId "g") Disable;
     MkStep (MkEntryId "m") Create; MkStep (MkEntryId "n") Create].
Proof. by vm_compute. Qed.

Lemma plan_respects_the_tree_witness :
  3 < 4 /\ steps reconciliation !! 3 = Some (MkStep (MkEntryId "m") Create).
Proof.
  destruct (plan_respects_the_tree (Some before) after (Some Nat.eqb) 3 4 (MkEntryId "m") Create
    (MkEntryId "n") Create ltac:(by vm_compute) ltac:(by vm_compute)) as (_ & Htree & _).
  split; [|by vm_compute].
  destruct (Htree (entry "n" (Some "m"%string) false)) as [Hlt _]; [by vm_compute|done|done|].
  apply Hlt. by left.
Defined.

(** Depths come from two documents: a parent that moved deeper is disabled
    before the child it had is removed. *)
Definition moved : Profile nat :=
  MkProfile [entry "h" None true; entry "g" (Some "h"%string) false].
Example a_moved_parent_goes_first :
  steps (plan (Some (MkProfile [entry "g" None false; entry "y" (Some "g"%string) false])) moved
    (Some Nat.eqb)) =
    [MkStep (MkEntryId "g") Disable; MkStep (MkEntryId "y") Remove; MkStep (MkEntryId "h") Track].
Proof. by vm_compute. Qed.
End DiffExample.
