(* ===== verification/Cycles.v ===== *)
(** * Searching for cycles ([cyclic_members] of [jinnd-loader/src/cycles.rs])

    The iterative search for strongly connected components with explicit
    frames, and the proof that it finds exactly the nodes on a directed cycle. *)

From stdpp Require Import base gmap sets list strings sorting relations.
From S2P Require Import Prelude.

(** ** The search ([cyclic_members])

    Vectors are lists; a node out of their range, where the code would panic,
    reads as unvisited and isolated, and the graphs charted below have none.
    [usize::MAX] in [order] is [None]. The stack and the frames grow at their
    head. *)

Record Tarjan := MkTarjan {
  order : list (option nat);
  low : list nat;
  on_stack : list bool;
  stack : list nat;
  next_order : nat;
  members : list nat;
}.

Abbreviation Frame := (nat * nat)%type.

Definition enter (node : nat) (t : Tarjan) : Tarjan :=
  MkTarjan (<[node := Some (next_order t)]> (order t)) (<[node := next_order t]> (low t))
    (<[node := true]> (on_stack t)) (node :: stack t) (S (next_order t)) (members t).

Definition set_low (node value : nat) (t : Tarjan) : Tarjan :=
  MkTarjan (order t) (<[node := value]> (low t)) (on_stack t) (stack t) (next_order t) (members t).

(** Pops the stack down to [node]: what is left, and the component in the
    order it was popped. *)
Fixpoint pop_loop (node : nat) (stack : list nat) (on_stack : list bool) (component : list nat) :
    list nat * list bool * list nat :=
  match stack with
  | [] => ([], on_stack, component)
  | member :: stack =>
      let on_stack := <[member := false]> on_stack in
      let component := component ++ [member] in
      if decide (member = node) then (stack, on_stack, component)
      else pop_loop node stack on_stack component
  end.

Section Search.
Context (edges : list (list nat)).

Definition looped (component : list nat) : bool :=
  bool_decide (1 < length component) ||
  match component with only :: _ => bool_decide (only ∈ edges !!! only) | [] => false end.

(** The end of one frame: its low point goes to its parent, and a root of a
    component pops it. *)
Definition leave (node : nat) (rest : list Frame) (t : Tarjan) : Tarjan :=
  let t :=
    match rest with
    | (parent, _) :: _ => set_low parent ((low t !!! parent) `min` (low t !!! node)) t
    | [] => t
    end in
  if decide (Some (low t !!! node : nat) = (order t !!! node : option nat)) then
    let '(stack, on_stack, component) := pop_loop node (stack t) (on_stack t) [] in
    MkTarjan (order t) (low t) on_stack stack (next_order t)
      (if looped component then members t ++ component else members t)
  else t.

(** One iteration of the inner loop, on the last frame. *)
Definition frame_step (t : Tarjan) (frames : list Frame) : Tarjan * list Frame :=
  match frames with
  | [] => (t, [])
  | (node, child) :: rest =>
      let t := if decide (child = 0) then enter node t else t in
      match (edges !!! node) !! child with
      | Some target =>
          let frames := (node, S child) :: rest in
          match order t !!! target with
          | None => (t, (target, 0) :: frames)
          | Some k =>
              if (on_stack t !!! target : bool) then (set_low node ((low t !!! node) `min` k) t, frames)
              else (t, frames)
          end
      | None => (leave node rest t, rest)
      end
  end.

Fixpoint frames_loop (fuel : nat) (t : Tarjan) (frames : list Frame) : Tarjan :=
  match fuel, frames with
  | S fuel, _ :: _ => let '(t, frames) := frame_step t frames in frames_loop fuel t frames
  | _, _ => t
  end.

(** A visit of a node and one look at each of its edges. *)
Definition search_fuel : nat := S (sum_list_with (fun targets => S (length targets)) edges).

Definition roots_loop (roots : list nat) (t : Tarjan) : Tarjan :=
  fold_left (fun t root =>
    match order t !!! root with
    | None => frames_loop search_fuel t [(root, 0)]
    | Some _ => t
    end) roots t.

Definition cyclic_members : list nat :=
  let n := length edges in
  let t := MkTarjan (replicate n None) (replicate n 0) (replicate n false) [] 0 [] in
  sort_by (fun a b => bool_decide (a <= b)) (members (roots_loop (seq 0 n) t)).
End Search.

Example cyclic_members_tests :
  cyclic_members [[1; 2]; [2]; []] = [] /\ cyclic_members [[1]; [2]; [0]; [0]] = [0; 1; 2] /\
  cyclic_members [[0]; []] = [0] /\ cyclic_members [[1]; [0]; [3]; [2]; []] = [0; 1; 2; 3].
Proof. by vm_compute. Qed.

Lemma pop_loop_spec node s on comp :
  node ∈ s -> NoDup s ->
  exists c1 s2 on', s = c1 ++ node :: s2 /\
    pop_loop node s on comp = (s2, on', comp ++ c1 ++ [node]) /\
    length on' = length on /\
    forall u, u < length on -> on' !!! u = if decide (u ∈ c1 ++ [node]) then false else on !!! u.
Proof.
  revert on comp. induction s as [|m s IH]; intros on comp Hin Hnd; [by apply elem_of_nil in Hin|].
  simpl. apply NoDup_cons in Hnd as [Hm Hnd]. case_decide as Hd.
  - subst m. exists [], s, (<[node := false]> on). simpl. split_and!; [done|done|apply length_insert|].
    intros u Hu. destruct (decide (u = node)) as [->|Hne].
    + rewrite decide_True by (by left). by rewrite list_lookup_total_insert_eq.
    + rewrite decide_False by (by rewrite list_elem_of_singleton).
      by rewrite list_lookup_total_insert_ne.
  - apply elem_of_cons in Hin as [->|Hin]; [done|].
    destruct (IH (<[m := false]> on) (comp ++ [m]) Hin Hnd) as (c1 & s2 & on' & -> & Hp & Hlen & Hon).
    rewrite length_insert in Hlen, Hon.
    exists (m :: c1), s2, on'. rewrite Hp. split_and!; [done|by rewrite <-app_assoc|done|].
    intros u Hu. rewrite Hon by done. simpl. destruct (decide (u ∈ c1 ++ [node])) as [Hc|Hc].
    + rewrite decide_True by (by right). done.
    + destruct (decide (u = m)) as [->|Hne].
      * rewrite decide_True by (by left). by rewrite list_lookup_total_insert_eq.
      * rewrite decide_False by (by rewrite elem_of_cons; naive_solver).
        by rewrite list_lookup_total_insert_ne.
Qed.

(** ** What the search keeps true *)

Section SearchLaws.
Context (edges : list (list nat)).
Implicit Types (t : Tarjan) (u v w g : nat) (frames rest : list Frame).

Notation n := (length edges).
Definition edge u v : Prop := v ∈ edges !!! u.
Definition closed_graph : Prop := forall u v, edge u v -> v < n.

Definition visited t v : Prop := is_Some (order t !!! v : option nat).
Definition num t v : nat := default 0 (order t !!! v).
Definition newer t u v : Prop := num t v < num t u.

(** The frames whose node was entered: all but a last one just pushed. *)
Definition entered (fresh : bool) frames : list Frame := if fresh then tail frames else frames.
Definition grey (fresh : bool) frames v : Prop := v ∈ map fst (entered fresh frames).

(** The edges already looked at. *)
Definition processed (fresh : bool) frames v w : Prop :=
  (~ grey fresh frames v /\ edge v w) \/
  exists c i, (v, c) ∈ entered fresh frames /\ i < c /\ (edges !!! v) !! i = Some w.

(** The last entered frame a node of the stack hangs under. *)
Definition owner (fresh : bool) t frames g v : Prop :=
  num t g <= num t v /\
  forall g', grey fresh frames g' -> num t g' <= num t v -> num t g' <= num t g.

Fixpoint linked frames : Prop :=
  match frames with
  | (v, _) :: (((u, c) :: _) as rest) => 0 < c /\ (edges !!! u) !! (c - 1) = Some v /\ linked rest
  | _ => True
  end.

Record inv (fresh : bool) t frames : Prop := {
  i_len : length (order t) = n /\ length (low t) = n /\ length (on_stack t) = n;
  i_num v : visited t v -> v < n /\ num t v < next_order t;
  i_inj u v : visited t u -> visited t v -> num t u = num t v -> u = v;
  i_fresh : fresh = true -> exists v rest, frames = (v, 0) :: rest /\ v < n /\ ~ visited t v;
  i_frame v c : (v, c) ∈ entered fresh frames -> v ∈ stack t /\ c <= length (edges !!! v);
  i_link : linked frames;
  i_sorted : StronglySorted (newer t) (map fst (entered fresh frames));
  i_stack : StronglySorted (newer t) (stack t);
  i_on v : v ∈ stack t <-> v < n /\ on_stack t !!! v = true;
  i_seen v : v ∈ stack t -> visited t v;
  i_up g v : grey fresh frames g -> v ∈ stack t -> num t g <= num t v -> rtc edge g v;
  i_down v : v ∈ stack t -> exists g, grey fresh frames g /\ num t g <= num t v /\ rtc edge v g;
  i_black v w : visited t v -> ~ grey fresh frames v -> edge v w -> visited t w;
  i_grey g c i w : (g, c) ∈ entered fresh frames -> i < c -> (edges !!! g) !! i = Some w ->
    visited t w \/ (fresh = true /\ head frames = Some (w, 0));
  i_low g : grey fresh frames g ->
    exists w, w ∈ stack t /\ num t w = low t !!! g /\ num t w <= num t g /\ rtc edge g w;
  i_bound g v w : grey fresh frames g -> v ∈ stack t -> owner fresh t frames g v ->
    processed fresh frames v w -> w ∈ stack t -> low t !!! g <= num t w;
  i_popped v w : visited t v -> v ∉ stack t -> edge v w -> visited t w /\ w ∉ stack t;
  i_members v : v ∈ members t <-> visited t v /\ v ∉ stack t /\ tc edge v v;
  i_nodup : NoDup (members t);
}.

Context (closed : closed_graph).

Lemma grey_frame fresh frames v : grey fresh frames v <-> exists c, (v, c) ∈ entered fresh frames.
Proof.
  unfold grey. rewrite list_elem_of_fmap. split.
  - intros ([u c] & -> & ?). eauto.
  - intros [c ?]. by exists (v, c).
Qed.

Lemma grey_stack fresh t frames v : inv fresh t frames -> grey fresh frames v -> v ∈ stack t.
Proof. intros Hi [c Hc]%grey_frame. by apply (i_frame _ _ _ Hi) in Hc as [? _]. Qed.

(** Frames of one node are one frame. *)
Lemma frame_fun fresh t frames v c c' :
  inv fresh t frames -> (v, c) ∈ entered fresh frames -> (v, c') ∈ entered fresh frames -> c = c'.
Proof.
  intros Hi [i Hc]%list_elem_of_lookup [j Hc']%list_elem_of_lookup.
  pose proof (i_sorted _ _ _ Hi) as Hs.
  pose proof (lookup_map fst _ _ _ Hc) as Hi'. pose proof (lookup_map fst _ _ _ Hc') as Hj'. unfold newer in Hs. simpl in *.
  destruct (lt_eq_lt_dec i j) as [[Hlt| ->]|Hlt]; [|congruence|].
  - pose proof (StronglySorted_lookup _ _ _ _ _ _ Hs Hi' Hj' Hlt). simpl in *. lia.
  - pose proof (StronglySorted_lookup _ _ _ _ _ _ Hs Hj' Hi' Hlt). simpl in *. lia.
Qed.

(** The last entered frame is the newest. *)
Lemma top_newest t v c rest g :
  inv false t ((v, c) :: rest) -> grey false ((v, c) :: rest) g -> num t g <= num t v.
Proof.
  intros Hi Hg. unfold grey in Hg. pose proof (i_sorted _ _ _ Hi) as Hs. simpl in *.
  apply StronglySorted_cons in Hs as [Hall _]. rewrite Forall_forall in Hall.
  apply elem_of_cons in Hg as [->|Hg]; [done|]. apply Hall in Hg. unfold newer in Hg. lia.
Qed.

(** Entering a node. *)
Lemma num_enter t v u : length (order t) = n -> v < n ->
  num (enter v t) u = if decide (u = v) then next_order t else num t u.
Proof.
  intros Hlen Hv. unfold num. simpl. case_decide as Hu.
  - subst. by rewrite list_lookup_total_insert_eq by lia.
  - by rewrite list_lookup_total_insert_ne by done.
Qed.

Lemma visited_enter t v u : length (order t) = n -> v < n ->
  visited (enter v t) u <-> u = v \/ visited t u.
Proof.
  intros Hlen Hv. unfold visited. simpl. destruct (decide (u = v)) as [->|Hu].
  - rewrite list_lookup_total_insert_eq by lia. split; [by left|intros _; by eexists].
  - rewrite list_lookup_total_insert_ne by done. naive_solver.
Qed.

Section Enter.
Context (t : Tarjan) (v : nat) (rest : list Frame).
Hypothesis Hi : inv true t ((v, 0) :: rest).

Lemma fresh_node : v < n /\ ~ visited t v.
Proof. destruct (i_fresh _ _ _ Hi eq_refl) as (v' & r & [= <- <-] & ? & ?). done. Qed.

Lemma fresh_order : length (order t) = n.
Proof. apply Hi. Qed.

Lemma grey_enter g : grey false ((v, 0) :: rest) g <-> g = v \/ grey true ((v, 0) :: rest) g.
Proof. unfold grey. simpl. by rewrite elem_of_cons. Qed.

Lemma old_frame c : ~ (v, c) ∈ rest.
Proof.
  intros Hc. destruct (i_frame _ _ _ Hi v c Hc) as [Hs _]. by apply (i_seen _ _ _ Hi), fresh_node in Hs.
Qed.

Lemma old_stack : v ∉ stack t.
Proof. intros Hs. by apply (i_seen _ _ _ Hi), fresh_node in Hs. Qed.

Lemma old_num u : visited t u -> num (enter v t) u = num t u /\ num t u < next_order t /\ u <> v.
Proof.
  intros Hu. destruct fresh_node as [Hv Hn]. pose proof (i_num _ _ _ Hi _ Hu) as [_ ?].
  rewrite num_enter by (apply fresh_order || done). rewrite decide_False by congruence.
  split_and!; [done|done|congruence].
Qed.

Lemma new_num : num (enter v t) v = next_order t.
Proof. rewrite num_enter by apply fresh_order || apply fresh_node. by rewrite decide_True. Qed.

Lemma old_visited u : visited t u -> visited (enter v t) u.
Proof. intros Hu. apply visited_enter; [apply fresh_order|apply fresh_node|by right]. Qed.

Lemma old_newer l : Forall (visited t) l -> StronglySorted (newer t) l ->
  StronglySorted (newer (enter v t)) l.
Proof.
  intros Hl Hs. induction Hs as [|u l Hs IH Hall]; [constructor|].
  apply Forall_cons in Hl as [Hu Hl]. constructor; [auto|].
  rewrite Forall_forall in *. intros w Hw. unfold newer.
  rewrite (proj1 (old_num _ Hu)), (proj1 (old_num _ (Hl _ Hw))). by apply Hall.
Qed.

Lemma enter_up g u :
  grey false ((v, 0) :: rest) g -> u ∈ v :: stack t ->
  num (enter v t) g <= num (enter v t) u -> rtc edge g u.
Proof.
  rewrite grey_enter. intros [->|Hg] [->|Hu]%elem_of_cons Hle; [apply rtc_refl| | |].
  - rewrite new_num in Hle. destruct (old_num u) as (? & ? & _); [by apply (i_seen _ _ _ Hi)|lia].
  - destruct rest as [|[p c] r] eqn:Hr; [by apply elem_of_nil in Hg|].
    pose proof (i_link _ _ _ Hi) as (_ & Hp & _).
    assert (grey true ((v, 0) :: (p, c) :: r) p) as Hgp by by left.
    apply rtc_r with p; [|by eapply list_elem_of_lookup_2].
    eapply (i_up _ _ _ Hi); [done|by eapply grey_stack|].
    unfold grey in Hg. simpl in Hg. apply elem_of_cons in Hg as [->|Hg]; [done|].
    pose proof (i_sorted _ _ _ Hi) as Hs. simpl in Hs. apply StronglySorted_cons in Hs as [Hall _].
    rewrite Forall_forall in Hall. apply Hall in Hg. unfold newer in Hg. lia.
  - eapply (i_up _ _ _ Hi); [done|done|].
    destruct (old_num u) as (<- & _); [by apply (i_seen _ _ _ Hi)|].
    destruct (old_num g) as (<- & _); [|done]. by eapply (i_seen _ _ _ Hi), grey_stack.
Qed.

Lemma enter_owner g u :
  grey true ((v, 0) :: rest) g -> u ∈ v :: stack t ->
  owner false (enter v t) ((v, 0) :: rest) g u ->
  u ∈ stack t /\ owner true t ((v, 0) :: rest) g u.
Proof.
  intros Hg Hu [Hle Hmax].
  assert (visited t g) as Hvg by by eapply (i_seen _ _ _ Hi), grey_stack.
  destruct (old_num g Hvg) as (Hng & Hlt & _).
  apply elem_of_cons in Hu as [->|Hu].
  { specialize (Hmax v). rewrite new_num, grey_enter in Hmax. lia. }
  assert (visited t u) as Hvu by by apply (i_seen _ _ _ Hi).
  destruct (old_num u Hvu) as (Hnu & _). rewrite Hng, Hnu in Hle. split; [done|]. split; [done|].
  intros g' Hg' Hle'. destruct (old_num g') as (Hng' & _); [by eapply (i_seen _ _ _ Hi), grey_stack|].
  rewrite <-Hng, <-Hng'. apply Hmax; [rewrite grey_enter; by right|]. by rewrite Hnu, Hng'.
Qed.

Lemma enter_processed u w :
  u <> v -> processed false ((v, 0) :: rest) u w -> processed true ((v, 0) :: rest) u w.
Proof.
  intros Hne [[Hn He]|(c & i & Hf & Hlt & Hw)].
  - left. split; [|done]. intros Hg. apply Hn, grey_enter. by right.
  - right. simpl in Hf. apply elem_of_cons in Hf as [[= -> _]|Hf]; [done|]. eauto.
Qed.

Lemma enter_bound g u w :
  grey false ((v, 0) :: rest) g -> u ∈ v :: stack t ->
  owner false (enter v t) ((v, 0) :: rest) g u -> processed false ((v, 0) :: rest) u w ->
  w ∈ v :: stack t -> low (enter v t) !!! g <= num (enter v t) w.
Proof.
  intros Hg Hu Ho Hp Hw. apply grey_enter in Hg as [->|Hg].
  - destruct Ho as [Hle _]. rewrite new_num in Hle. apply elem_of_cons in Hu as [->|Hu].
    + exfalso. destruct Hp as [[Hn _]|(c & i & Hf & Hlt & _)].
      * apply Hn, grey_enter. by left.
      * simpl in Hf. apply elem_of_cons in Hf as [[= ->]|Hf]; [lia|by apply old_frame in Hf].
    + destruct (old_num u) as (? & ? & _); [by apply (i_seen _ _ _ Hi)|lia].
  - destruct (enter_owner g u Hg Hu Ho) as [Hu' Ho'].
    assert (u <> v) as Hne by (intros ->; by apply old_stack in Hu').
    apply enter_processed in Hp; [|done].
    assert (g <> v) as Hgv by (intros ->; by apply old_stack; eapply grey_stack).
    simpl. rewrite list_lookup_total_insert_ne by done.
    apply elem_of_cons in Hw as [->|Hw].
    + rewrite new_num. destruct (i_low _ _ _ Hi _ Hg) as (w' & Hw' & <- & _).
      destruct (old_num w') as (_ & ? & _); [by apply (i_seen _ _ _ Hi)|lia].
    + destruct (old_num w) as (-> & _); [by apply (i_seen _ _ _ Hi)|]. by eapply (i_bound _ _ _ Hi).
Qed.

Lemma enter_low g :
  grey false ((v, 0) :: rest) g ->
  exists w, w ∈ v :: stack t /\ num (enter v t) w = low (enter v t) !!! g /\
    num (enter v t) w <= num (enter v t) g /\ rtc edge g w.
Proof.
  intros Hg. destruct fresh_node as [Hv Hn]. apply grey_enter in Hg as [->|Hg].
  - exists v. split_and!; [by left| |done|apply rtc_refl]. rewrite new_num. simpl.
    by rewrite list_lookup_total_insert_eq by (destruct (i_len _ _ _ Hi); lia).
  - destruct (i_low _ _ _ Hi _ Hg) as (w & Hw & Hl & Hle & Hr). exists w.
    destruct (old_num w) as (-> & _); [by apply (i_seen _ _ _ Hi)|].
    assert (g ∈ stack t) as Hgs by by eapply grey_stack.
    destruct (old_num g) as (-> & _ & ?); [by apply (i_seen _ _ _ Hi)|].
    split_and!; [by right| |done|done]. simpl. by rewrite list_lookup_total_insert_ne.
Qed.

Lemma enter_inv : inv false (enter v t) ((v, 0) :: rest).
Proof.
  destruct fresh_node as [Hv Hn]. pose proof fresh_order as Hord.
  pose proof (i_len _ _ _ Hi) as (? & ? & ?). split.
  - simpl. by rewrite !length_insert.
  - intros u Hu. simpl. apply visited_enter in Hu as [->|Hu]; [|..|done|done].
    + rewrite new_num. lia.
    + destruct (old_num u Hu) as (-> & ? & _). apply (i_num _ _ _ Hi) in Hu. lia.
  - intros u w [->|Hu]%visited_enter [->|Hw]%visited_enter; try done.
    + rewrite new_num. destruct (old_num w Hw). lia.
    + rewrite new_num. destruct (old_num u Hu). lia.
    + destruct (old_num w Hw) as (-> & _), (old_num u Hu) as (-> & _). by apply (i_inj _ _ _ Hi).
  - done.
  - simpl. intros u c [[= -> ->]|Hu]%elem_of_cons; [split; [by left|lia]|].
    destruct (i_frame _ _ _ Hi u c Hu). split; [by right|done].
  - apply (i_link _ _ _ Hi).
  - simpl. apply StronglySorted_cons. split.
    + apply Forall_forall. intros u Hu. unfold newer. rewrite new_num.
      destruct (old_num u) as (-> & ? & _); [by eapply (i_seen _ _ _ Hi), (grey_stack true)|done].
    + apply old_newer; [|apply (i_sorted _ _ _ Hi)].
      apply Forall_forall. intros u Hu. by eapply (i_seen _ _ _ Hi), (grey_stack true).
  - simpl. apply StronglySorted_cons. split.
    + apply Forall_forall. intros u Hu. unfold newer. rewrite new_num.
      destruct (old_num u) as (-> & ? & _); [by apply (i_seen _ _ _ Hi)|done].
    + apply old_newer; [|apply (i_stack _ _ _ Hi)].
      apply Forall_forall. intros u Hu. by apply (i_seen _ _ _ Hi).
  - intros u. simpl. rewrite elem_of_cons. destruct (decide (u = v)) as [->|Hne].
    + rewrite list_lookup_total_insert_eq by lia. naive_solver.
    + rewrite list_lookup_total_insert_ne, <-(i_on _ _ _ Hi) by done. naive_solver.
  - intros u Hu. apply visited_enter; [done..|]. apply elem_of_cons in Hu as [->|Hu]; [by left|].
    right. by apply (i_seen _ _ _ Hi).
  - apply enter_up.
  - intros u [->|Hu]%elem_of_cons.
    + exists v. split_and!; [by left|done|apply rtc_refl].
    + destruct (i_down _ _ _ Hi u Hu) as (g & Hg & Hle & Hr). exists g.
      destruct (old_num u) as (-> & _); [by apply (i_seen _ _ _ Hi)|].
      destruct (old_num g) as (-> & _); [by eapply (i_seen _ _ _ Hi), grey_stack|].
      split_and!; [rewrite grey_enter; by right|done|done].
  - intros u w Hu Hg He. apply visited_enter in Hu as [->|Hu]; [|..|done|done].
    { exfalso. apply Hg, grey_enter. by left. }
    apply old_visited. eapply (i_black _ _ _ Hi); [done| |done]. intros Hg'. apply Hg, grey_enter.
    by right.
  - intros g c i w Hg Hlt Hw. left. simpl in Hg.
    apply elem_of_cons in Hg as [[= -> ->]|Hg]; [lia|].
    destruct (i_grey _ _ _ Hi g c i w Hg Hlt Hw) as [?|[_ [= ->]]]; [by apply old_visited|].
    apply visited_enter; [done..|by left].
  - apply enter_low.
  - apply enter_bound.
  - simpl. intros u w Hu Hns He. apply visited_enter in Hu as [->|Hu]; [|..|done|done].
    { exfalso. apply Hns. by left. }
    destruct (i_popped _ _ _ Hi u w Hu) as [Hw Hnw]; [|done|].
    { intros Hs. apply Hns. by right. }
    split; [by apply old_visited|]. intros [->|?]%elem_of_cons; done.
  - simpl. intros u. rewrite (i_members _ _ _ Hi), visited_enter, elem_of_cons by done.
    split; [naive_solver|]. intros ([->|Hu] & Hns & Ht); [|naive_solver]. exfalso. auto.
  - apply (i_nodup _ _ _ Hi).
Qed.
End Enter.

(** Looking at one more edge of the last frame. *)
Section Look.
Context (t : Tarjan) (v c w : nat) (rest : list Frame).
Hypothesis Hi : inv false t ((v, c) :: rest).
Hypothesis Hw : (edges !!! v) !! c = Some w.

Definition looked (fresh : bool) frames : Prop :=
  entered fresh frames = (v, S c) :: rest /\ (fresh = true -> frames = (w, 0) :: (v, S c) :: rest).

Lemma look_edge : edge v w /\ S c <= length (edges !!! v).
Proof. split; [by eapply list_elem_of_lookup_2|]. apply lookup_lt_Some in Hw. lia. Qed.

Lemma look_grey fresh frames g : looked fresh frames ->
  grey fresh frames g <-> grey false ((v, c) :: rest) g.
Proof. intros [He _]. unfold grey. by rewrite He. Qed.

Lemma look_owner fresh frames g u : looked fresh frames ->
  owner fresh t frames g u <-> owner false t ((v, c) :: rest) g u.
Proof. intros Hl. unfold owner. by setoid_rewrite (look_grey fresh frames _ Hl). Qed.

Lemma look_processed fresh frames u x : looked fresh frames ->
  processed fresh frames u x -> processed false ((v, c) :: rest) u x \/ (u = v /\ x = w).
Proof.
  intros Hl [[Hn He]|(c' & i & Hf & Hlt & Hx)].
  - left. left. split; [|done]. by rewrite <-(look_grey _ _ _ Hl).
  - destruct Hl as [He _]. rewrite He in Hf. apply elem_of_cons in Hf as [[= -> ->]|Hf].
    + destruct (decide (i = c)) as [->|Hne]; [right; split; [done|congruence]|].
      left. right. exists c, i. split_and!; [by left|lia|done].
    + left. right. exists c', i. split_and!; [by right|done|done].
Qed.

(** The only entered frame that owns the last frame's node is itself. *)
Lemma own_top g : grey false ((v, c) :: rest) g -> owner false t ((v, c) :: rest) g v -> g = v.
Proof.
  intros Hg [Hle Hmax]. assert (grey false ((v, c) :: rest) v) as Hv by by left.
  specialize (Hmax v Hv (le_n _)).
  apply (i_inj _ _ _ Hi); [by eapply (i_seen _ _ _ Hi), grey_stack..|lia].
Qed.

(** What both outcomes share; [t'] differs from [t] in a low point at most. *)
Lemma look_inv fresh frames t' :
  looked fresh frames ->
  order t' = order t -> length (low t') = n -> on_stack t' = on_stack t -> stack t' = stack t ->
  next_order t' = next_order t -> members t' = members t ->
  (fresh = true -> ~ visited t w) -> (fresh = false -> visited t w) ->
  (forall g, grey false ((v, c) :: rest) g ->
    exists x, x ∈ stack t /\ num t x = low t' !!! g /\ num t x <= num t g /\ rtc edge g x) ->
  (forall g, low t' !!! g <= low t !!! g) ->
  (w ∈ stack t -> low t' !!! v <= num t w) ->
  inv fresh t' frames.
Proof.
  intros Hl Ho Hlow Hon Hst Hnext Hmem Hfw Hsw Hwit Hle Hnew.
  assert (forall u, num t' u = num t u) as Hnum by (intros u; unfold num; by rewrite Ho).
  assert (forall u, visited t' u <-> visited t u) as Hvis by (intros u; unfold visited; by rewrite Ho).
  pose proof Hl as [Hent Hfr]. pose proof (i_len _ _ _ Hi) as (? & ? & ?). destruct look_edge as [He Hlen].
  assert (forall l, StronglySorted (newer t) l -> StronglySorted (newer t') l) as Hss.
  { intros l. apply StronglySorted_weaken. intros a b. unfold newer. by rewrite !Hnum. }
  split; rewrite ?Ho, ?Hon, ?Hst, ?Hmem, ?Hnext, ?Hent.
  - done.
  - intros u. rewrite Hvis, Hnum. apply (i_num _ _ _ Hi).
  - intros u x. rewrite !Hvis, !Hnum. apply (i_inj _ _ _ Hi).
  - intros Hf. exists w, ((v, S c) :: rest). rewrite Hvis. split_and!; [auto|by eapply closed|auto].
  - intros u c' [[= -> ->]|Hu]%elem_of_cons; [split; [|done]|].
    + eapply grey_stack; [done|]. by left.
    + apply (i_frame _ _ _ Hi). by right.
  - pose proof (i_link _ _ _ Hi) as Hlink. simpl in Hlink.
    destruct fresh; [rewrite Hfr by done|simpl in Hent; subst frames]; simpl.
    + split; [lia|]. rewrite Nat.sub_0_r. by split.
    + done.
  - apply Hss, (i_sorted _ _ _ Hi).
  - apply Hss, (i_stack _ _ _ Hi).
  - apply (i_on _ _ _ Hi).
  - intros u Hu. by apply Hvis, (i_seen _ _ _ Hi).
  - intros g u Hg. rewrite !Hnum. apply (i_up _ _ _ Hi). by apply (look_grey fresh frames).
  - intros u Hu. destruct (i_down _ _ _ Hi u Hu) as (g & Hg & Hr). exists g. rewrite !Hnum.
    by rewrite (look_grey fresh frames).
  - intros u x. rewrite !Hvis, (look_grey fresh frames) by done. apply (i_black _ _ _ Hi).
  - intros g c' i x [[= -> ->]|Hg]%elem_of_cons Hlt Hx; rewrite Hvis.
    + destruct (decide (i = c)) as [->|Hne].
      * assert (x = w) as -> by congruence. destruct fresh; [right|left; auto].
        split; [done|]. by rewrite Hfr.
      * left. destruct (i_grey _ _ _ Hi v c i x) as [?|[? _]]; [by left|lia|done|done|done].
    + left. destruct (i_grey _ _ _ Hi g c' i x) as [?|[? _]]; [by right|done..].
  - intros g Hg. setoid_rewrite Hnum. apply Hwit. by apply (look_grey fresh frames).
  - intros g u x Hg Hu Hown Hp Hx. rewrite Hnum.
    assert (owner false t ((v, c) :: rest) g u) as Hown'.
    { apply (look_owner fresh frames); [done|]. unfold owner in *. by setoid_rewrite Hnum in Hown. }
    apply (look_grey fresh frames) in Hg; [|done].
    apply look_processed in Hp as [Hp|[-> ->]]; [|..|done].
    + etrans; [apply Hle|]. by apply (i_bound _ _ _ Hi g u x).
    + apply own_top in Hown' as ->; auto.
  - intros u x. rewrite !Hvis. apply (i_popped _ _ _ Hi).
  - intros u. rewrite Hvis. apply (i_members _ _ _ Hi).
  - apply (i_nodup _ _ _ Hi).
Qed.

Lemma push_inv : ~ visited t w -> inv true t ((w, 0) :: (v, S c) :: rest).
Proof.
  intros Hn. eapply look_inv; try done; [apply Hi|apply (i_low _ _ _ Hi)|].
  intros Hs. by apply (i_seen _ _ _ Hi) in Hs.
Qed.

Lemma seen_inv k :
  order t !!! w = Some k ->
  inv false
    (if (on_stack t !!! w : bool) then set_low v ((low t !!! v) `min` k) t else t)
    ((v, S c) :: rest).
Proof.
  intros Hk. assert (visited t w) as Hvw by (unfold visited; rewrite Hk; by eexists).
  assert (num t w = k) as Hnw by (unfold num; by rewrite Hk).
  assert (grey false ((v, c) :: rest) v) as Hv by by left.
  assert (v < n) as Hvn by by eapply (i_num _ _ _ Hi), (i_seen _ _ _ Hi), grey_stack.
  pose proof (i_len _ _ _ Hi) as (_ & Hlen & _).
  destruct (on_stack t !!! w) eqn:Hon.
  - assert (w ∈ stack t) as Hws.
    { apply (i_on _ _ _ Hi). split; [by apply (i_num _ _ _ Hi)|done]. }
    assert (low (set_low v ((low t !!! v) `min` k) t) !!! v = (low t !!! v) `min` k) as Hlv.
    { simpl. by rewrite list_lookup_total_insert_eq by lia. }
    assert (forall g, g <> v -> low (set_low v ((low t !!! v) `min` k) t) !!! g = low t !!! g) as Hlo.
    { intros g Hg. simpl. by rewrite list_lookup_total_insert_ne. }
    eapply look_inv; try done.
    + simpl. by rewrite length_insert.
    + intros g Hg. destruct (i_low _ _ _ Hi g Hg) as (x & Hx & Hlx & Hle & Hr).
      destruct (decide (g = v)) as [->|Hne]; [|exists x; by rewrite Hlo].
      rewrite Hlv. destruct (decide (low t !!! v <= k)) as [Hmin|Hmin].
      * exists x. split_and!; [done|lia|done|done].
      * exists w. split_and!; [done|lia|lia|]. apply rtc_once, look_edge.
    + intros g. destruct (decide (g = v)) as [->|Hne]; [lia|by rewrite Hlo].
    + intros _. lia.
  - eapply look_inv; try done; [apply (i_low _ _ _ Hi)|].
    intros Hs. apply (i_on _ _ _ Hi) in Hs as [_ ?]. congruence.
Qed.
End Look.

(** Leaving a node whose edges were all looked at. *)
Section Leave.
Context (t : Tarjan) (v c : nat) (rest : list Frame).
Hypothesis Hi : inv false t ((v, c) :: rest).
Hypothesis Hdone : (edges !!! v) !! c = None.

Notation before := (grey false ((v, c) :: rest)).
Notation after := (grey false rest).

(** The low point passed on to the parent frame. *)
Definition passed : Tarjan :=
  match rest with
  | (parent, _) :: _ => set_low parent ((low t !!! parent) `min` (low t !!! v)) t
  | [] => t
  end.

Lemma top_grey : before v.
Proof. by left. Qed.

Lemma before_after g : before g <-> g = v \/ after g.
Proof. unfold grey. simpl. by rewrite elem_of_cons. Qed.

Lemma before_seen g : before g -> visited t g.
Proof. intros Hg. by eapply (i_seen _ _ _ Hi), grey_stack. Qed.

Lemma after_older g : after g -> num t g < num t v.
Proof.
  intros Hg. pose proof (i_sorted _ _ _ Hi) as Hs. simpl in Hs.
  apply StronglySorted_cons in Hs as [Hall _]. rewrite Forall_forall in Hall. by apply Hall.
Qed.

Lemma after_ne g : after g -> g <> v.
Proof. intros Hg%after_older ->. lia. Qed.

Lemma all_processed w : edge v w -> processed false ((v, c) :: rest) v w.
Proof.
  intros [i Hw]%list_elem_of_lookup. right. exists c, i. split_and!; [by left| |done].
  apply lookup_ge_None in Hdone. apply lookup_lt_Some in Hw. lia.
Qed.

Lemma top_edges w : edge v w -> visited t w.
Proof.
  intros He. destruct (all_processed w He) as [[Hn _]|(c' & i & Hf & Hlt & Hw)].
  - by destruct (Hn top_grey).
  - by destruct (i_grey _ _ _ Hi v c' i w Hf Hlt Hw) as [?|[? _]].
Qed.

Lemma after_processed u w : processed false rest u w -> processed false ((v, c) :: rest) u w.
Proof.
  intros [[Hn He]|(c' & i & Hf & Hlt & Hw)].
  - destruct (decide (u = v)) as [->|Hne]; [by apply all_processed|].
    left. split; [|done]. by intros [->|?]%before_after.
  - right. exists c', i. split_and!; [by right|done|done].
Qed.

(** The parent frame, when there is one, is the newest that stays. *)
Lemma parent_frame p cp r : rest = (p, cp) :: r ->
  after p /\ edge p v /\ forall g, after g -> num t g <= num t p.
Proof.
  intros ->. split; [by left|]. pose proof (i_link _ _ _ Hi) as (_ & Hp & _).
  split; [by eapply list_elem_of_lookup_2|]. intros g Hg.
  pose proof (i_sorted _ _ _ Hi) as Hs. simpl in Hs. apply StronglySorted_cons in Hs as [_ Hs].
  apply StronglySorted_cons in Hs as [Hall _]. rewrite Forall_forall in Hall.
  unfold grey in Hg. simpl in Hg. apply elem_of_cons in Hg as [->|Hg]; [done|].
  apply Hall in Hg. unfold newer in Hg. lia.
Qed.

Lemma passed_low g :
  low passed !!! g =
    match rest with
    | (p, _) :: _ => if decide (g = p) then (low t !!! p) `min` (low t !!! v) else low t !!! g
    | [] => low t !!! g
    end.
Proof.
  pose proof parent_frame as Hpf. pose proof before_seen as Hseen.
  pose proof (i_len _ _ _ Hi) as (_ & Hlen & _). pose proof (i_num _ _ _ Hi) as Hnum.
  unfold passed. destruct rest as [|[p cp] r]; [done|]. simpl.
  destruct (Hpf p cp r eq_refl) as (Hp & _).
  case_decide as Hg; [subst|by rewrite list_lookup_total_insert_ne].
  rewrite list_lookup_total_insert_eq; [done|]. rewrite Hlen. apply Hnum, Hseen. by right; left.
Qed.

Lemma passed_le g : low passed !!! g <= low t !!! g.
Proof. rewrite passed_low. destruct rest as [|[p cp] r]; [done|]. case_decide; subst; lia. Qed.

Lemma passed_top : low passed !!! v = low t !!! v.
Proof.
  rewrite passed_low. pose proof parent_frame as Hpf. pose proof after_ne as Hne.
  destruct rest as [|[p cp] r]; [done|]. case_decide as Hp; [|done].
  exfalso. destruct (Hpf p cp r eq_refl) as (Ha & _). by apply (Hne p).
Qed.

Lemma low_le g : before g -> low t !!! g <= num t g.
Proof. intros Hg. destruct (i_low _ _ _ Hi g Hg) as (w & _ & <- & ? & _). done. Qed.

Lemma order_passed : order passed = order t /\ length (low passed) = n /\
  on_stack passed = on_stack t /\ stack passed = stack t /\ next_order passed = next_order t /\
  members passed = members t.
Proof.
  pose proof (i_len _ _ _ Hi) as (_ & ? & _).
  unfold passed. destruct rest as [|[p cp] r]; [done|]. simpl. by rewrite length_insert.
Qed.

(** A node of the stack at or above the last frame's hangs under it. *)
Lemma top_owner u : num t v <= num t u -> owner false t ((v, c) :: rest) v u.
Proof. intros Hle. split; [done|]. intros g Hg _. by eapply top_newest. Qed.

Lemma after_owner g u : num t u < num t v ->
  owner false t rest g u -> owner false t ((v, c) :: rest) g u.
Proof.
  intros Hlt [Hle Hmax]. split; [done|]. intros g' [->|Hg']%before_after Hle'; [lia|auto].
Qed.

(** What holds of the frames that stay, whether or not a component is popped:
    the stack may lose nodes that were at or above the last frame's. *)
Lemma after_frames u c' : (u, c') ∈ entered false rest ->
  (u ∈ stack t /\ num t u < num t v) /\ c' <= length (edges !!! u).
Proof.
  intros Hu. destruct (i_frame _ _ _ Hi u c') as [Hs Hc]; [by right|].
  split; [split; [done|]|done]. apply after_older, grey_frame. eauto.
Qed.

Lemma after_black u w : visited t u -> ~ after u -> edge u w -> visited t w.
Proof.
  intros Hu Hg He. destruct (decide (u = v)) as [->|Hne]; [by apply top_edges|].
  eapply (i_black _ _ _ Hi); [done| |done]. by intros [->|?]%before_after.
Qed.

Lemma after_grey g c' i w : (g, c') ∈ entered false rest -> i < c' ->
  (edges !!! g) !! i = Some w -> visited t w.
Proof.
  intros Hg Hlt Hw. by destruct (i_grey _ _ _ Hi g c' i w) as [?|[? _]]; [by right|..].
Qed.

Lemma after_linked : linked rest.
Proof.
  pose proof (i_link _ _ _ Hi) as Hl. destruct rest as [|[p cp] r]; [done|]. apply Hl.
Qed.

Lemma after_sorted : StronglySorted (newer t) (map fst (entered false rest)).
Proof.
  pose proof (i_sorted _ _ _ Hi) as Hs. simpl in Hs. by apply StronglySorted_cons in Hs as [_ Hs].
Qed.

(** The node is not the root of its component: it stays on the stack, under
    its parent. *)
Section Stay.
Hypothesis Hlow : low t !!! v <> num t v.

Lemma stay_escape : exists w g, w ∈ stack t /\ num t w = low t !!! v /\ num t w < num t v /\
  rtc edge v w /\ after g /\ num t g <= num t w /\ rtc edge w g.
Proof.
  destruct (i_low _ _ _ Hi v top_grey) as (w & Hw & Hlw & Hle & Hr).
  destruct (i_down _ _ _ Hi w Hw) as (g & Hg & Hgw & Hrg). exists w, g.
  apply before_after in Hg as [->|Hg]; [lia|]. split_and!; try done. lia.
Qed.

Lemma stay_down u : u ∈ stack t -> exists g, after g /\ num t g <= num t u /\ rtc edge u g.
Proof.
  intros Hu. destruct (i_down _ _ _ Hi u Hu) as (g & Hg & Hle & Hr).
  apply before_after in Hg as [->|Hg]; [|eauto].
  destruct stay_escape as (w & g & _ & _ & ? & ? & ? & ? & ?). exists g.
  split_and!; [done|lia|]. by repeat (etrans; [done|]).
Qed.

Lemma stay_low g : after g ->
  exists w, w ∈ stack t /\ num t w = low passed !!! g /\ num t w <= num t g /\ rtc edge g w.
Proof.
  intros Hg. assert (before g) as Hb by (apply before_after; by right).
  destruct (i_low _ _ _ Hi g Hb) as (w & Hw & Hlw & Hle & Hr).
  destruct stay_escape as (x & _ & Hx & Hlx & _ & Hrx & _).
  pose proof (parent_frame) as Hpf. rewrite passed_low.
  destruct rest as [|[p cp] r]; [eauto|]. destruct (Hpf p cp r eq_refl) as (_ & Hpv & _).
  case_decide as Hgp; [subst g|eauto].
  destruct (decide (low t !!! p <= low t !!! v)) as [Hmin|Hmin].
  - exists w. split_and!; [done|lia|done|done].
  - exists x. split_and!; [done|lia|lia|]. eapply rtc_l; done.
Qed.

Lemma stay_bound g u w :
  after g -> u ∈ stack t -> owner false t rest g u -> processed false rest u w -> w ∈ stack t ->
  low passed !!! g <= num t w.
Proof.
  intros Hg Hu Ho Hp%after_processed Hw. destruct (decide (num t v <= num t u)) as [Hvu|Hvu].
  - assert (low t !!! v <= num t w) as Hb.
    { apply (i_bound _ _ _ Hi v u w); [apply top_grey|done|by apply top_owner|done|done]. }
    pose proof (parent_frame) as Hpf. pose proof after_older as Holder. pose proof before_seen as Hseen.
    pose proof (i_inj _ _ _ Hi) as Hinj.
    rewrite passed_low. destruct rest as [|[p cp] r]; [by apply elem_of_nil in Hg|].
    destruct (Hpf p cp r eq_refl) as (Hap & _ & Hnew). destruct Ho as [_ Hmax].
    specialize (Holder p Hap). specialize (Hmax p Hap). specialize (Hnew g Hg).
    rewrite decide_True; [lia|]. apply Hinj; [apply Hseen; by right..|lia].
  - etrans; [apply passed_le|]. apply (i_bound _ _ _ Hi g u w); try done.
    + apply before_after. by right.
    + apply after_owner; [lia|done].
Qed.

Lemma stay_inv : inv false passed rest.
Proof.
  destruct order_passed as (Ho & Hlen & Hon & Hst & Hnext & Hmem).
  assert (forall u, num passed u = num t u) as Hnum by (intros u; unfold num; by rewrite Ho).
  assert (forall u, visited passed u <-> visited t u) as Hvis by (intros u; unfold visited; by rewrite Ho).
  assert (forall l, StronglySorted (newer t) l -> StronglySorted (newer passed) l) as Hss.
  { intros l. apply StronglySorted_weaken. intros a b. unfold newer. by rewrite !Hnum. }
  assert (forall g u, owner false passed rest g u -> owner false t rest g u) as Hown.
  { intros g u. unfold owner. by setoid_rewrite Hnum. }
  split; rewrite ?Ho, ?Hon, ?Hst, ?Hmem, ?Hnext; try setoid_rewrite Hvis; try setoid_rewrite Hnum.
  - pose proof (i_len _ _ _ Hi). naive_solver.
  - apply (i_num _ _ _ Hi).
  - apply (i_inj _ _ _ Hi).
  - done.
  - intros u c' Hu. by destruct (after_frames u c' Hu) as [[? _] ?].
  - apply after_linked.
  - apply Hss, after_sorted.
  - apply Hss, (i_stack _ _ _ Hi).
  - apply (i_on _ _ _ Hi).
  - apply (i_seen _ _ _ Hi).
  - intros g u Hg. apply (i_up _ _ _ Hi). apply before_after. by right.
  - apply stay_down.
  - apply after_black.
  - intros g c' i w Hg Hlt Hw. left. by eapply after_grey.
  - apply stay_low.
  - intros g u w Hg Hu Ho'. apply stay_bound; auto.
  - apply (i_popped _ _ _ Hi).
  - apply (i_members _ _ _ Hi).
  - apply (i_nodup _ _ _ Hi).
Qed.
End Stay.

(** The node is the root of its component, which is everything at or above it
    on the stack. *)
Section Pop.
Hypothesis Hlow : low t !!! v = num t v.

Definition component u : Prop := u ∈ stack t /\ num t v <= num t u.

Lemma component_grey u : component u -> before u -> u = v.
Proof.
  intros [Hs Hle] Hg. pose proof (top_newest _ _ _ _ _ Hi Hg).
  apply (i_inj _ _ _ Hi); [by apply (i_seen _ _ _ Hi)|apply before_seen, top_grey|lia].
Qed.

Lemma component_edge u w : component u -> edge u w -> component w \/ (visited t w /\ w ∉ stack t).
Proof.
  intros Hu He. pose proof Hu as [Hs Hle]. assert (visited t w) as Hw.
  { destruct (decide (u = v)) as [->|Hne]; [by apply top_edges|].
    eapply (i_black _ _ _ Hi); [by apply (i_seen _ _ _ Hi)| |done].
    intros Hg. by apply Hne, component_grey. }
  destruct (decide (w ∈ stack t)) as [Hws|Hws]; [left|by right]. split; [done|].
  rewrite <-Hlow. apply (i_bound _ _ _ Hi v u w); [apply top_grey|done|by apply top_owner| |done].
  destruct (decide (u = v)) as [->|Hne]; [by apply all_processed|].
  left. split; [|done]. intros Hg. by apply Hne, component_grey.
Qed.

Lemma popped_path u w : visited t u -> u ∉ stack t -> rtc edge u w -> visited t w /\ w ∉ stack t.
Proof.
  intros Hu Hs Hr. induction Hr as [|u x w He Hr IH]; [done|].
  destruct (i_popped _ _ _ Hi u x Hu Hs He). auto.
Qed.

Lemma component_path u w : component u -> rtc edge u w -> component w \/ (visited t w /\ w ∉ stack t).
Proof.
  intros Hu Hr. induction Hr as [|u x w He Hr IH]; [by left|].
  destruct (component_edge u x Hu He) as [Hx|[Hx Hn]]; [auto|right]. by eapply popped_path.
Qed.

Lemma component_mutual u : component u -> rtc edge u v /\ rtc edge v u.
Proof.
  intros Hu. pose proof Hu as [Hs Hle]. split.
  - destruct (i_down _ _ _ Hi u Hs) as (g & Hg & _ & Hr).
    destruct (component_path u g Hu Hr) as [Hc|[_ Hn]].
    + by rewrite <-(component_grey g Hc Hg).
    + by apply grey_stack with (t := t) in Hg.
  - by apply (i_up _ _ _ Hi); [apply top_grey|..].
Qed.

Lemma component_top : component v.
Proof. split; [eapply grey_stack; [done|apply top_grey]|done]. Qed.

(** The code's test for a cycle decides whether its members lie on one. *)
Lemma looped_component comp u :
  NoDup comp -> (forall x, x ∈ comp <-> component x) -> u ∈ comp ->
  looped edges comp = true <-> tc edge u u.
Proof.
  intros Hnd Hcomp Hu. assert (component u) as Hcu by by apply Hcomp.
  unfold looped. rewrite orb_true_iff, bool_decide_eq_true. split.
  - intros Hl. destruct comp as [|a [|b comp]]; [by apply elem_of_nil in Hu| |].
    + apply list_elem_of_singleton in Hu as ->. destruct Hl as [Hl|Hl]; [simpl in Hl; lia|].
      apply tc_once. by apply bool_decide_eq_true in Hl.
    + assert (exists x, x ∈ a :: b :: comp /\ x <> u) as (x & Hx & Hne).
      { destruct (decide (a = u)) as [->|]; [|exists a; split; [by left|done]].
        exists b. split; [right; by left|]. intros ->. apply NoDup_cons in Hnd as [Hn _].
        apply Hn. by left. }
      apply Hcomp in Hx. destruct (component_mutual u Hcu) as [Huv Hvu].
      destruct (component_mutual x Hx) as [Hxv Hvx].
      assert (rtc edge u x) as Hux by by etrans.
      assert (rtc edge x u) as Hxu by by etrans.
      apply rtc_tc in Hux as [->|Hux]; [done|]. eapply tc_rtc_r; done.
  - intros Ht. destruct comp as [|a [|b comp]]; [by apply elem_of_nil in Hu| |left; simpl; lia].
    right. apply list_elem_of_singleton in Hu as ->. apply bool_decide_eq_true.
    inversion Ht as [? ? He|? x ? He Ht']; subst; [done|].
    destruct (component_edge a x Hcu He) as [Hx|[Hx Hn]].
    + apply Hcomp, list_elem_of_singleton in Hx as ->. done.
    + apply tc_rtc in Ht'. by destruct (popped_path x a Hx Hn Ht') as [_ ?]; destruct Hcu.
Qed.

Lemma stack_NoDup : NoDup (stack t).
Proof.
  pose proof (i_stack _ _ _ Hi) as Hs. induction Hs as [|u l Hs IH Hall]; [constructor|].
  constructor; [|done]. rewrite Forall_forall in Hall. intros Hu%Hall. unfold newer in Hu. lia.
Qed.

Lemma pop_split : exists c1 s2 on',
  pop_loop v (stack t) (on_stack t) [] = (s2, on', c1 ++ [v]) /\ NoDup (c1 ++ [v]) /\
  (forall u, u ∈ c1 ++ [v] <-> component u) /\
  (forall u, u ∈ s2 <-> u ∈ stack t /\ num t u < num t v) /\
  StronglySorted (newer t) s2 /\ length on' = n /\
  (forall u, u < n -> on' !!! u = if decide (component u) then false else on_stack t !!! u).
Proof.
  destruct component_top as [Hv _].
  destruct (pop_loop_spec v (stack t) (on_stack t) [] Hv stack_NoDup)
    as (c1 & s2 & on' & Hst & Hp & Hlen & Hon).
  pose proof (i_len _ _ _ Hi) as (_ & _ & Hn). pose proof stack_NoDup as Hnd.
  pose proof (i_stack _ _ _ Hi) as Hs. pose proof (i_seen _ _ _ Hi) as Hseen.
  exists c1, s2, on'. unfold component. rewrite Hst in *.
  replace (c1 ++ v :: s2) with ((c1 ++ [v]) ++ s2) in Hnd by by rewrite <-app_assoc.
  apply NoDup_app in Hnd as (Hnd1 & Hdisj & _).
  rewrite StronglySorted_app in Hs. destruct Hs as (Hcross & _ & Hs2).
  apply StronglySorted_cons in Hs2 as [Hall Hs2]. rewrite Forall_forall in Hall.
  assert (forall u, u ∈ c1 ++ [v] <-> u ∈ c1 ++ v :: s2 /\ num t v <= num t u) as Hcomp.
  { intros u. split.
    - rewrite elem_of_app, list_elem_of_singleton. intros [Hu|Hu]; [|subst u].
      + split; [apply elem_of_app; by left|]. specialize (Hcross u v Hu). unfold newer in Hcross.
        rewrite elem_of_cons in Hcross. lia || (specialize (Hcross (or_introl eq_refl)); lia).
      + split; [|done]. rewrite elem_of_app, elem_of_cons. auto.
    - rewrite !elem_of_app, elem_of_cons, list_elem_of_singleton. intros [[?|[?|Hu]] Hle]; auto.
      apply Hall in Hu. unfold newer in Hu. lia. }
  split_and!; [done|done|done| |done|lia|].
  - intros u. split.
    + intros Hu. split; [rewrite elem_of_app, elem_of_cons; auto|]. by apply Hall in Hu.
    + rewrite elem_of_app, elem_of_cons. intros [[Hu|[->|?]] Hlt]; [|lia|done].
      specialize (Hcross u v Hu). unfold newer in Hcross. rewrite elem_of_cons in Hcross.
      specialize (Hcross (or_introl eq_refl)). lia.
  - intros u Hu. rewrite Hon by lia.
    destruct (decide (u ∈ c1 ++ [v])) as [Hc|Hc]; case_decide as Hd; naive_solver.
Qed.

Lemma pop_low g : after g ->
  exists w, (w ∈ stack t /\ num t w < num t v) /\ num t w = low passed !!! g /\
    num t w <= num t g /\ rtc edge g w.
Proof.
  intros Hg. assert (before g) as Hb by (apply before_after; by right).
  pose proof (after_older g Hg) as Hlt.
  destruct (i_low _ _ _ Hi g Hb) as (w & Hw & Hlw & Hle & Hr). exists w.
  split_and!; [done|lia| |done|done]. rewrite passed_low.
  destruct rest as [|[p cp] r]; [done|]. case_decide; [subst; lia|done].
Qed.

Lemma popped_inv : inv false (leave edges v rest t) rest.
Proof.
  destruct order_passed as (Ho & Hlen & Hon & Hst & Hnext & Hmem). unfold leave. fold passed.
  rewrite passed_top, Hon, Hst, Hlow, Hmem, Hnext, Ho.
  assert (visited t v) as Hvv by apply before_seen, top_grey.
  rewrite decide_True by (unfold num; by destruct Hvv as [k ->]).
  destruct pop_split as (c1 & s2 & on' & -> & Hnd & Hcomp & Hs2 & Hss & Hlon & Hon').
  assert (forall u, component u \/ (u ∈ s2) <-> u ∈ stack t) as Hsplit.
  { intros u. rewrite Hs2. unfold component. destruct (decide (num t v <= num t u)); [tauto|].
    split; [tauto|]. intros ?. right. split; [done|lia]. }
  split; simpl.
  - pose proof (i_len _ _ _ Hi). naive_solver.
  - apply (i_num _ _ _ Hi).
  - apply (i_inj _ _ _ Hi).
  - done.
  - intros u c' Hu. destruct (after_frames u c' Hu). by rewrite Hs2.
  - apply after_linked.
  - apply after_sorted.
  - done.
  - intros u. rewrite Hs2. split.
    + intros [Hu Hlt]. pose proof Hu as Hu'. apply (i_on _ _ _ Hi) in Hu' as [? ?].
      split; [done|]. rewrite Hon' by done. rewrite decide_False; [done|]. intros [_ ?]. lia.
    + intros [Hu Hou]. rewrite Hon' in Hou by done. case_decide as Hc; [done|].
      apply Hs2. destruct (proj2 (Hsplit u)) as [?|?]; [|done..]. by apply (i_on _ _ _ Hi).
  - intros u Hu. apply (i_seen _ _ _ Hi), Hsplit. by right.
  - intros g u Hg Hu. apply (i_up _ _ _ Hi); [apply before_after; by right|]. apply Hsplit. by right.
  - intros u [Hu Hlt]%Hs2. destruct (i_down _ _ _ Hi u Hu) as (g & Hg & Hle & Hr). exists g.
    apply before_after in Hg as [->|Hg]; [lia|done].
  - apply after_black.
  - intros g c' i w Hg Hlt Hw. left. by eapply after_grey.
  - intros g Hg. setoid_rewrite Hs2. by apply pop_low.
  - intros g u w Hg [Hu Hlt]%Hs2 Hown Hp [Hw _]%Hs2.
    etrans; [apply passed_le|]. apply (i_bound _ _ _ Hi g u w); try done.
    + apply before_after. by right.
    + by apply after_owner.
    + by apply after_processed.
  - intros u w Hu Hns He. destruct (decide (u ∈ stack t)) as [Hus|Hus].
    + apply Hsplit in Hus as [Hc|?]; [|done].
      destruct (component_edge u w Hc He) as [[Hw Hle]|[Hw Hn]].
      * split; [by apply (i_seen _ _ _ Hi)|]. rewrite Hs2. lia.
      * split; [done|]. rewrite Hs2. tauto.
    + destruct (i_popped _ _ _ Hi u w Hu Hus He). split; [done|]. rewrite Hs2. tauto.
  - intros u. assert (u ∈ (if looped edges (c1 ++ [v]) then members t ++ c1 ++ [v] else members t) <->
      u ∈ members t \/ (component u /\ tc edge u u)) as ->.
    { destruct (decide (component u)) as [Hc|Hc].
      - pose proof (looped_component (c1 ++ [v]) u Hnd Hcomp ltac:(by apply Hcomp)) as Hl.
        destruct (looped edges (c1 ++ [v])); [rewrite elem_of_app, Hcomp|]; naive_solver.
      - destruct (looped edges (c1 ++ [v])); [rewrite elem_of_app, Hcomp|]; naive_solver. }
    rewrite (i_members _ _ _ Hi), Hs2. split.
    + intros [(? & ? & ?)|[[Hu Hle] ?]]; [tauto|]. split_and!; [by apply (i_seen _ _ _ Hi)|lia|done].
    + intros (Hu & Hns & Ht). destruct (decide (u ∈ stack t)) as [Hus|Hus]; [|by left].
      right. split; [|done]. split; [done|]. destruct (decide (num t v <= num t u)); [done|].
      exfalso. apply Hns. split; [done|lia].
  - destruct (looped edges (c1 ++ [v])); [|apply (i_nodup _ _ _ Hi)].
    apply NoDup_app. split_and!; [apply (i_nodup _ _ _ Hi)| |done].
    intros u Hu Hc. apply (i_members _ _ _ Hi) in Hu as (_ & Hn & _). apply Hcomp in Hc as [? _]. done.
Qed.
End Pop.

Lemma leave_inv : inv false (leave edges v rest t) rest.
Proof.
  destruct (decide (low t !!! v = num t v)) as [Hlow|Hlow]; [by apply popped_inv|].
  pose proof (stay_inv Hlow) as Hs. unfold leave. fold passed. rewrite decide_False; [done|].
  rewrite passed_top. destruct order_passed as (-> & _). intros Heq. apply Hlow. unfold num.
  by rewrite <-Heq.
Qed.
End Leave.

(** ** The search ends *)

Definition weight (targets : list nat) : nat := S (length targets).
Definition cost t u : nat :=
  match order t !!! u with None => weight (edges !!! u) | Some _ => 0 end.
Definition pending t (us : list nat) : nat := sum_list_with (cost t) us.
Definition owing (fs : list Frame) : nat :=
  sum_list_with (fun f => weight (edges !!! f.1) - f.2) fs.
Definition work (fresh : bool) t frames : nat :=
  pending t (seq 0 n) + owing (entered fresh frames).

Lemma pending_enter t v us :
  NoDup us -> v ∈ us -> length (order t) = n -> v < n -> ~ visited t v ->
  pending t us = pending (enter v t) us + weight (edges !!! v).
Proof.
  intros Hnd Hin Hlen Hv Hn.
  assert (cost t v = weight (edges !!! v)) as Hold.
  { unfold cost, visited in *. destruct (order t !!! v); naive_solver. }
  assert (cost (enter v t) v = 0) as Hnew.
  { unfold cost. simpl. by rewrite list_lookup_total_insert_eq by lia. }
  assert (forall u, u <> v -> cost (enter v t) u = cost t u) as Hne.
  { intros u Hu. unfold cost. simpl. by rewrite list_lookup_total_insert_ne. }
  assert (forall us, v ∉ us -> pending (enter v t) us = pending t us) as Hother.
  { clear -Hne. induction us as [|u us IH]; intros Hns; [done|].
    apply not_elem_of_cons in Hns as [Hu Hns].
    change (cost (enter v t) u + pending (enter v t) us = cost t u + pending t us).
    rewrite IH, Hne; auto. }
  induction us as [|u us IH]; [by apply elem_of_nil in Hin|].
  apply NoDup_cons in Hnd as [Hu Hnd].
  change (cost t u + pending t us = cost (enter v t) u + pending (enter v t) us + weight (edges !!! v)).
  destruct (decide (u = v)) as [->|Huv]; [rewrite Hother by done; lia|].
  apply elem_of_cons in Hin as [->|Hin]; [done|]. rewrite Hne, (IH Hnd Hin) by done. lia.
Qed.

Lemma pending_order t t' us : order t = order t' -> pending t us = pending t' us.
Proof. intros Ho. unfold pending, cost. by rewrite Ho. Qed.

Lemma order_leave v rest t : order (leave edges v rest t) = order t.
Proof.
  unfold leave. destruct rest as [|[p c] r]; case_decide; try done;
    by destruct (pop_loop _ _ _ _) as [[? ?] ?].
Qed.

(** The last frame is fresh exactly when its counter is zero. *)
Definition is_fresh frames : bool :=
  match frames with (_, 0) :: _ => true | _ => false end.

Lemma owing_cons v c fs : owing ((v, c) :: fs) = weight (edges !!! v) - c + owing fs.
Proof. done. Qed.

(** One iteration from a node already entered. *)
Lemma look_step t v c rest :
  inv false t ((v, c) :: rest) ->
  let '(t', frames') :=
    match (edges !!! v) !! c with
    | Some target =>
        let frames := (v, S c) :: rest in
        match order t !!! target with
        | None => (t, (target, 0) :: frames)
        | Some k =>
            if (on_stack t !!! target : bool)
            then (set_low v ((low t !!! v) `min` k) t, frames) else (t, frames)
        end
    | None => (leave edges v rest t, rest)
    end in
  inv (is_fresh frames') t' frames' /\ order t' = order t /\
  work (is_fresh frames') t' frames' < pending t (seq 0 n) + (weight (edges !!! v) - c) + owing rest.
Proof.
  intros Hi. destruct ((edges !!! v) !! c) as [w|] eqn:Hw.
  - pose proof (lookup_lt_Some _ _ _ Hw) as Hlt.
    destruct (order t !!! w) as [k|] eqn:Hk.
    + pose proof (seen_inv t v c w rest Hi Hw k Hk) as Hs.
      destruct (on_stack t !!! w); (split_and!; [done|done|]); unfold work;
        rewrite ?(pending_order (set_low _ _ _) t) by done; cbn [entered is_fresh tail];
        rewrite owing_cons; unfold weight; lia.
    + split_and!; [|done|unfold work; cbn [entered is_fresh tail]; rewrite owing_cons; unfold weight; lia].
      apply push_inv; [done|done|]. unfold visited. rewrite Hk. by intros [? ?].
  - pose proof (leave_inv t v c rest Hi Hw) as Hl. rewrite order_leave.
    assert (is_fresh rest = false) as ->.
    { pose proof (i_link _ _ _ Hi) as Hlink. destruct rest as [|[p [|cp]] r]; [done| |done].
      destruct Hlink as [? _]. lia. }
    split_and!; [done|done|]. unfold work. rewrite (pending_order _ t) by apply order_leave.
    pose proof (i_frame _ _ _ Hi v c ltac:(by left)) as [_ Hc]. unfold weight. simpl. lia.
Qed.

Lemma frame_step_inv t v c rest :
  let frames := (v, c) :: rest in
  inv (is_fresh frames) t frames ->
  let '(t', frames') := frame_step edges t frames in
  inv (is_fresh frames') t' frames' /\
  work (is_fresh frames') t' frames' < work (is_fresh frames) t frames /\
  (forall u, visited t u -> visited t' u) /\ visited t' v.
Proof.
  intros frames Hi. unfold frame_step. subst frames. destruct c as [|c].
  - simpl in Hi. rewrite decide_True by done.
    destruct (fresh_node t v rest Hi) as [Hv Hn].
    pose proof (enter_inv t v rest Hi) as He. pose proof (look_step _ _ _ _ He) as Hs.
    pose proof (fresh_order t v rest Hi) as Hlen.
    pose proof (pending_enter t v (seq 0 n) (NoDup_seq _ _) ltac:(apply elem_of_seq; lia) Hlen Hv Hn).
    destruct (match (edges !!! v) !! 0 with Some _ => _ | None => _ end) as [t' frames'].
    destruct Hs as (Hi' & Ho & Hw).
    split_and!; [done|unfold work at 2; simpl; lia| |].
    + intros u Hu. unfold visited. rewrite Ho. apply visited_enter; auto.
    + unfold visited. rewrite Ho. apply visited_enter; auto.
  - simpl in Hi. rewrite decide_False by done. pose proof (look_step _ _ _ _ Hi) as Hs.
    destruct (match (edges !!! v) !! S c with Some _ => _ | None => _ end) as [t' frames'].
    destruct Hs as (Hi' & Ho & Hw).
    split_and!; [done|unfold work at 2; cbn [entered is_fresh]; rewrite owing_cons; lia| |].
    + intros u Hu. unfold visited. by rewrite Ho.
    + unfold visited. rewrite Ho. eapply (i_seen _ _ _ Hi), (grey_stack false); [done|by left].
Qed.

Lemma frames_loop_inv fuel t frames :
  inv (is_fresh frames) t frames -> work (is_fresh frames) t frames <= fuel ->
  let t' := frames_loop edges fuel t frames in
  inv false t' [] /\ (forall u, visited t u -> visited t' u) /\
  (forall v c rest, frames = (v, c) :: rest -> visited t' v).
Proof.
  revert t frames. induction fuel as [|fuel IH]; intros t frames Hi Hw; simpl.
  - destruct frames as [|[v c] rest]; [split_and!; [done|done|intros; done]|].
    pose proof (frame_step_inv t v c rest Hi) as Hs.
    destruct (frame_step edges t ((v, c) :: rest)). destruct Hs as (_ & Hlt & _).
    exfalso. eapply Nat.nlt_0_r, Nat.lt_le_trans; [exact Hlt|exact Hw].
  - destruct frames as [|[v c] rest]; [split_and!; [done|done|intros; done]|].
    pose proof (frame_step_inv t v c rest Hi) as Hs.
    destruct (frame_step edges t ((v, c) :: rest)) as [t' frames'].
    destruct Hs as (Hi' & Hlt & Hvis & Hv).
    destruct (IH t' frames' Hi') as (? & Hvis' & _).
    { eapply Nat.lt_succ_r, Nat.lt_le_trans; [exact Hlt|exact Hw]. }
    split_and!; [done|auto|]. intros ? ? ? [= <- _ _]. auto.
Qed.

(** ** All roots *)

Lemma no_frames_no_stack t : inv false t [] -> stack t = [].
Proof.
  intros Hi. destruct (stack t) as [|u s] eqn:Hs; [done|].
  destruct (i_down _ _ _ Hi u) as (g & Hg & _); [rewrite Hs; by left|]. by apply elem_of_nil in Hg.
Qed.

Lemma root_inv t root : inv false t [] -> root < n -> ~ visited t root -> inv true t [(root, 0)].
Proof.
  intros Hi Hr Hn.
  assert (forall g, ~ grey true [(root, 0)] g) as Hnone by (intros g Hg; by apply elem_of_nil in Hg).
  split; try apply Hi; try (by intros; exfalso; eapply Hnone).
  - intros _. eauto.
  - intros g c i w Hg. by apply elem_of_nil in Hg.
Qed.

End SearchLaws.

Section Roots.
Context (edges : list (list nat)) (closed : closed_graph edges).
Implicit Types (t : Tarjan) (u v : nat).

Lemma pending_le t : pending edges t (seq 0 (length edges)) <= sum_list_with weight edges.
Proof.
  assert (forall es k, (forall i, i < length es -> edges !!! (k + i) = es !!! i) ->
    pending edges t (seq k (length es)) <= sum_list_with weight es) as H.
  { induction es as [|e es IH]; intros k Hk; [done|]. simpl.
    change (cost edges t k + pending edges t (seq (S k) (length es)) <=
      weight e + sum_list_with weight es).
    assert (cost edges t k <= weight e).
    { unfold cost. pose proof (Hk 0 ltac:(simpl; lia)) as He. rewrite Nat.add_0_r in He.
      rewrite He. simpl. destruct (order t !!! k); lia. }
    assert (pending edges t (seq (S k) (length es)) <= sum_list_with weight es); [|lia].
    apply IH. intros i Hi. replace (S k + i) with (k + S i) by lia.
    exact (Hk (S i) ltac:(simpl; lia)). }
  by apply H.
Qed.

Lemma roots_loop_inv roots t :
  inv edges false t [] -> Forall (fun r => r < length edges) roots ->
  let t' := roots_loop edges roots t in
  inv edges false t' [] /\ (forall u, visited t u -> visited t' u) /\
  Forall (visited t') roots.
Proof.
  revert t. induction roots as [|r roots IH]; intros t Hi Hr; simpl; [by split_and!|].
  apply Forall_cons in Hr as [Hr Hrs].
  set (t1 := match order t !!! r with None => _ | Some _ => t end).
  assert (inv edges false t1 [] /\ (forall u, visited t u -> visited t1 u) /\ visited t1 r)
    as (Hi1 & Hv1 & Hr1).
  { unfold t1. destruct (order t !!! r) eqn:Ho.
    - split_and!; [done|done|]. unfold visited. rewrite Ho. by eexists.
    - assert (~ visited t r) as Hn by (unfold visited; rewrite Ho; by intros [? ?]).
      destruct (frames_loop_inv edges closed (search_fuel edges) t [(r, 0)]) as (? & ? & Hv).
      + by apply root_inv.
      + unfold work, search_fuel. pose proof (pending_le t). unfold weight in *. simpl. unfold owing. simpl. lia.
      + split_and!; [done|done|]. by eapply Hv. }
  destruct (IH t1 Hi1 Hrs) as (Hi' & Hv' & Hall). split_and!; [done|auto|].
  constructor; [by apply Hv'|done].
Qed.

Lemma start_inv :
  let n := length edges in
  inv edges false (MkTarjan (replicate n None) (replicate n 0) (replicate n false) [] 0 []) [].
Proof.
  assert (forall v (P : Prop), visited (MkTarjan (replicate (length edges) None)
    (replicate (length edges) 0) (replicate (length edges) false) [] 0 []) v -> P) as Hno.
  { intros v P [k Hk]. simpl in Hk. exfalso. destruct (decide (v < length edges)) as [Hv|Hv].
    - by rewrite lookup_total_replicate_2 in Hk.
    - rewrite list_lookup_total_alt, lookup_ge_None_2 in Hk; [done|]. rewrite length_replicate. lia. }
  split; simpl; try (by intros; eapply Hno; eassumption); try (by constructor);
    try (by intros; exfalso; eapply not_elem_of_nil; eassumption).
  - by rewrite !length_replicate.
  - done.
  - intros v. split; [by intros ?%elem_of_nil|].
    intros [Hv Ho]. by rewrite lookup_total_replicate_2 in Ho.
  - by intros g Hg%elem_of_nil.
  - intros v. split; [by intros ?%elem_of_nil|]. intros [Hv _]. by eapply Hno.
Qed.
End Roots.

(** The state at the end of the search. *)
Lemma search_result (edges : list (list nat)) :
  closed_graph edges ->
  let n := length edges in
  let t := roots_loop edges (seq 0 n)
    (MkTarjan (replicate n None) (replicate n 0) (replicate n false) [] 0 []) in
  (forall v, v ∈ members t <-> tc (edge edges) v v) /\ NoDup (members t).
Proof.
  intros Hclosed n.
  destruct (roots_loop_inv edges Hclosed (seq 0 (length edges)) _ (start_inv edges))
    as (Hi & _ & Hall).
  { apply Forall_forall. intros r Hr%elem_of_seq. lia. }
  intros t. fold n in Hi, Hall. fold t in Hi, Hall.
  pose proof (no_frames_no_stack edges t Hi) as Hs. split; [|by apply (i_nodup _ _ _ _ Hi)].
  intros v. rewrite (i_members _ _ _ _ Hi), Hs. split; [tauto|]. intros Ht.
  split_and!; [|apply not_elem_of_nil|done]. rewrite Forall_forall in Hall. apply Hall.
  apply elem_of_seq. assert (v < length edges); [|lia].
  inversion Ht as [? ? He|? x ? He _]; subst; [by eapply Hclosed|].
  unfold edge in He. destruct (decide (v < length edges)); [done|].
  rewrite list_lookup_total_alt, lookup_ge_None_2 in He by lia. by apply elem_of_nil in He.
Qed.

Lemma cyclic_members_elem (edges : list (list nat)) v :
  closed_graph edges -> v ∈ cyclic_members edges <-> tc (edge edges) v v.
Proof.
  intros Hc. unfold cyclic_members. rewrite sort_by_Permutation. by apply search_result.
Qed.

(** C11: over a graph whose edges stay in range, the iterative search ends and
    returns exactly the nodes that lie on a directed cycle, each once and in
    ascending order, whatever the graph's shape. *)
Theorem search_finds_the_cyclic_nodes (edges : list (list nat)) :
  (forall u v, edge edges u v -> v < length edges) ->
  (forall v, v ∈ cyclic_members edges <-> tc (edge edges) v v) /\
  StronglySorted lt (cyclic_members edges).
Proof.
  intros Hclosed. split; [intros v; by apply cyclic_members_elem|].
  destruct (search_result edges Hclosed) as [_ Hnd]. unfold cyclic_members.
  set (l := members _) in *. rewrite <-(sort_by_Permutation (fun a b => bool_decide (a <= b))) in Hnd.
  assert (StronglySorted (fun a b => bool_decide (a <= b) = true)
    (sort_by (fun a b => bool_decide (a <= b)) l)) as Hsort.
  { apply sort_by_sorted; intros *; rewrite !bool_decide_eq_true; lia. }
  revert Hnd Hsort. generalize (sort_by (fun a b : nat => bool_decide (a <= b)) l).
  clear l. intros l Hnd Hsort. induction Hsort as [|a l Hl IH Hle]; [constructor|].
  apply NoDup_cons in Hnd as [Ha Hnd]. constructor; [auto|].
  rewrite Forall_forall in *. intros b Hb. specialize (Hle b Hb).
  apply bool_decide_eq_true in Hle. assert (a <> b) by (intros ->; done). lia.
Qed.

Module CyclesExample.
Definition graph : list (list nat) := [[1]; [2]; [0]; [0]].

Lemma search_finds_the_cyclic_nodes_witness :
  cyclic_members graph = [0; 1; 2] /\ ~ tc (edge graph) 3 3.
Proof.
  destruct (search_finds_the_cyclic_nodes graph) as [Hm _].
  - intros u v Huv. do 4 (destruct u as [|u]; [apply list_elem_of_singleton in Huv as ->; simpl; lia|]).
    unfold edge in Huv. simpl in Huv. by apply elem_of_nil in Huv.
  - split; [by vm_compute|]. rewrite <-Hm.
    assert (cyclic_members graph = [0; 1; 2]) as -> by by vm_compute. by rewrite !not_elem_of_cons; split_and!; try lia; apply not_elem_of_nil.
Defined.
End CyclesExample.
