(* ===== verification/Quarantine.v ===== *)
(** * Quarantine of dependency cycles ([jinnd-loader/src/cycles.rs])

    The graph of declared dependencies over the desired document, the faults
    of the entries that lie on a cycle, and the rewriting of a plan that leaves
    them inactive. *)

From stdpp Require Import base gmap sets list strings relations.
From S2P Require Import Prelude Api Entries Diff Cycles.

(** What a registered lane declares. *)
Class Declares (L : Type) := {
  injects : L -> list ServiceType;
  provides : L -> option ServiceType;
}.

(** ** Realms at plan time *)

Section Graph.
Context {C L : Type} `{Declares L}.
Implicit Types (ix : EntryIndex C) (x : EntryId) (lanes : gmap string L).

Fixpoint nearest_binding (chain : list (EntryId * list IsolationBinding)) (name : string) :
    option IsolationBinding :=
  match chain with
  | [] => None
  | (_, bindings) :: chain =>
      match List.find (fun b => bool_decide (binding_service b = name)) bindings with
      | Some b => Some b
      | None => nearest_binding chain name
      end
  end.

Definition effective_realm ix x (name : string) : Realm :=
  match nearest_binding (reverse (environment ix x)) name with
  | Some b => binding_realm b
  | None => RealmRoot
  end.

(** ** The graph *)

(** Effectively enabled entries with a registered lane. *)
Definition graph_nodes ix lanes : list (EntryId * L) :=
  omap (fun e =>
    if effectively_disabled ix (id e) then None
    else (fun lane => (id e, lane)) <$> lanes !! package (plugin e)) (valid_entries ix).

Abbreviation Providers := (gmap (string * Realm) (list nat)).

(** [HashMap::entry(..).or_default().push(..)] over the numbered nodes. *)
Fixpoint add_providers ix (nodes : list (EntryId * L)) (position : nat) (m : Providers) : Providers :=
  match nodes with
  | [] => m
  | (x, lane) :: nodes =>
      add_providers ix nodes (S position)
        match provides lane with
        | Some service =>
            let key := (service_name service, effective_realm ix x (service_name service)) in
            <[key := default [] (m !! key) ++ [position]]> m
        | None => m
        end
  end.

Definition graph_edges ix (nodes : list (EntryId * L)) : list (list nat) :=
  let providers := add_providers ix nodes 0 ∅ in
  map (fun '(x, lane) =>
    concat (map (fun service =>
      default [] (providers !! (service_name service, effective_realm ix x (service_name service))))
      (injects lane))) nodes.

Definition cycle_error : KernelError :=
  MkKernelError DependencyCycle
    "the entry's dependency declarations form a cycle: detected statically, the entry is left cleanly inactive (I3)"
    None.

Definition cycle_faults ix lanes : list EntryFault :=
  let nodes := graph_nodes ix lanes in
  omap (fun position => (fun node => MkEntryFault node.1 cycle_error) <$> nodes !! position)
    (cyclic_members (graph_edges ix nodes)).
End Graph.

(** ** Rewriting the plan *)

Definition containment (entry : EntryId) (live : gset EntryId) : StepKind :=
  if decide (entry ∈ live) then Disable else Track.

(** [steps.retain_mut(..)], with the set of members already stepped. *)
Fixpoint retain_loop (members : list EntryId) (live : gset EntryId) (steps : list Step)
    (stepped : gset EntryId) : list Step * gset EntryId :=
  match steps with
  | [] => ([], stepped)
  | s :: steps =>
      if decide (step_entry s ∈ members) then
        if decide (step_entry s ∈ stepped) then retain_loop members live steps stepped
        else
          let '(kept, stepped) := retain_loop members live steps ({[step_entry s]} ∪ stepped) in
          (MkStep (step_entry s) (containment (step_entry s) live) :: kept, stepped)
      else
        let '(kept, stepped) := retain_loop members live steps stepped in
        (s :: kept, stepped)
  end.

(** [members] is the set in the order it is iterated. *)
Definition quarantine (p : Plan) (members : list EntryId) (live : gset EntryId) : Plan :=
  let '(kept, stepped) := retain_loop members live (steps p) ∅ in
  MkPlan
    (kept ++ map (fun x => MkStep x (containment x live)) (filter (fun x => x ∉ stepped) members))
    (plan_faults p) (filter (fun x => x ∉ members) (plan_unchanged p)).

(** ** What the graph says *)

Section GraphLaws.
Context {C L : Type} `{Declares L}.
Implicit Types (ix : EntryIndex C) (x y : EntryId) (lanes : gmap string L).

(** [x] injects a service that [y] provides, seen in one realm by both. *)
Definition depends ix (nodes : list (EntryId * L)) (a b : EntryId * L) : Prop :=
  a ∈ nodes /\ b ∈ nodes /\ exists wanted offered,
    wanted ∈ injects a.2 /\ provides b.2 = Some offered /\
    service_name offered = service_name wanted /\
    effective_realm ix b.1 (service_name offered) = effective_realm ix a.1 (service_name wanted).

Lemma add_providers_lookup ix nodes pos m key i :
  i ∈ default [] (add_providers ix nodes pos m !! key) <->
    i ∈ default [] (m !! key) \/
    exists j x lane service, i = pos + j /\ nodes !! j = Some (x, lane) /\
      provides lane = Some service /\
      key = (service_name service, effective_realm ix x (service_name service)).
Proof.
  revert pos m. induction nodes as [|[x lane] nodes IH]; intros pos m; simpl.
  { split; [by left|]. intros [?|(j & ? & ? & ? & _ & Hj & _)]; [done|by rewrite lookup_nil in Hj]. }
  rewrite IH. clear IH. cbv zeta. split.
  - intros [Hi|(j & y & l & service & -> & Hj & Hp & Hk)].
    + destruct (provides lane) as [service|] eqn:Hp; [|by left].
      destruct (decide (key = (service_name service, effective_realm ix x (service_name service))))
        as [->|Hne].
      * rewrite lookup_insert_eq in Hi. simpl in Hi. apply elem_of_app in Hi as [Hi|Hi]; [by left|].
        apply list_elem_of_singleton in Hi as ->. right. exists 0, x, lane, service. split_and!; [lia|done..].
      * rewrite lookup_insert_ne in Hi by done. by left.
    + right. exists (S j), y, l, service. split_and!; [lia|done..].
  - intros [Hi|([|j] & y & l & service & -> & Hj & Hp & Hk)].
    + left. destruct (provides lane) as [service|]; [|done].
      destruct (decide (key = (service_name service, effective_realm ix x (service_name service))))
        as [->|Hne]; [|by rewrite lookup_insert_ne].
      rewrite lookup_insert_eq. apply elem_of_app. by left.
    + injection Hj as -> ->. left. rewrite Hp, <-Hk, lookup_insert_eq. apply elem_of_app. right.
      rewrite Nat.add_0_r. by left.
    + right. exists j, y, l, service. split_and!; [lia|done..].
Qed.

Lemma graph_edge ix nodes i j :
  edge (graph_edges ix nodes) i j <->
    exists a b, nodes !! i = Some a /\ nodes !! j = Some b /\ depends ix nodes a b.
Proof.
  unfold edge, graph_edges. rewrite list_lookup_total_alt.
  change (map ?f nodes) with (f <$> nodes). rewrite list_lookup_fmap.
  destruct (nodes !! i) as [[x lane]|] eqn:Hi; simpl.
  2:{ split; [by intros ?%elem_of_nil|]. by intros (? & ? & [=] & _). }
  rewrite list_elem_of_In, in_concat. setoid_rewrite <-list_elem_of_In. split.
  - intros (l & Hl & Hj). apply list_elem_of_fmap in Hl as (wanted & -> & Hw).
    apply add_providers_lookup in Hj as [Hj|(k & y & l & offered & -> & Hk & Hp & Heq)].
    { rewrite lookup_empty in Hj. by apply elem_of_nil in Hj. }
    exists (x, lane), (y, l). split_and!; [done|done|]. unfold depends.
    split_and!; [by eapply list_elem_of_lookup_2|by eapply list_elem_of_lookup_2|].
    exists wanted, offered. simplify_eq/=. split_and!; congruence.
  - intros (a & [y l] & [= <-] & Hj & _ & _ & wanted & offered & Hw & Hp & Hn & Hr). simpl in *.
    eexists. split; [apply list_elem_of_fmap; exists wanted; split; [reflexivity|done]|].
    apply add_providers_lookup. right. exists j, y, l, offered.
    split_and!; [done|done|done|]. congruence.
Qed.
End GraphLaws.

Section FaultLaws.
Context {C L : Type} `{Declares L}.
Implicit Types (p : Profile C) (x : EntryId) (lanes : gmap string L).

Lemma graph_closed (ix : EntryIndex C) (nodes : list (EntryId * L)) :
  closed_graph (graph_edges ix nodes).
Proof.
  intros i j (a & b & _ & Hj & _)%graph_edge. unfold graph_edges. rewrite length_map.
  by eapply lookup_lt_Some.
Qed.

Lemma path_nodes (ix : EntryIndex C) (nodes : list (EntryId * L)) i j a b :
  NoDup nodes -> nodes !! i = Some a -> nodes !! j = Some b ->
  tc (edge (graph_edges ix nodes)) i j <-> tc (depends ix nodes) a b.
Proof.
  intros Hnd Ha Hb. split.
  - intros Ht. revert a Ha. induction Ht as [i j He|i k j He Ht IH]; intros a Ha.
    + apply graph_edge in He as (a' & b' & ? & ? & ?). simplify_eq. by apply tc_once.
    + apply graph_edge in He as (a' & c & ? & Hk & ?). simplify_eq.
      eapply tc_l; [done|]. by apply IH.
  - intros Ht. revert i Ha. induction Ht as [a b Hd|a c b Hd Ht IH]; intros i Ha.
    + apply tc_once, graph_edge. eauto.
    + pose proof Hd as (_ & [k Hk]%list_elem_of_lookup & _).
      eapply tc_l; [apply graph_edge; eauto|]. by apply IH.
Qed.

Lemma graph_nodes_elem p lanes x lane :
  (x, lane) ∈ graph_nodes (index p) lanes <->
    exists e, get (index p) x = Some e /\ effectively_disabled (index p) x = false /\
      lanes !! package (plugin e) = Some lane.
Proof.
  unfold graph_nodes. rewrite list_elem_of_omap. split.
  - intros (e & He & Hs). destruct (effectively_disabled (index p) (id e)) eqn:Hd; [done|].
    apply fmap_Some in Hs as (l & Hl & [= -> ->]). apply valid_entries_get in He. eauto.
  - intros (e & He & Hd & Hl). pose proof He as [Hx _]%get_index. apply first_id in Hx. subst x.
    exists e. rewrite Hd, Hl. split; [by apply valid_entries_get|done].
Qed.

Lemma graph_nodes_NoDup p lanes : NoDup (graph_nodes (index p) lanes).
Proof.
  unfold graph_nodes. pose proof (valid_entries_NoDup p) as Hnd.
  induction (valid_entries (index p)) as [|e es IH]; simpl; [constructor|].
  simpl in Hnd. apply NoDup_cons in Hnd as [Hn Hnd].
  destruct (effectively_disabled (index p) (id e)); simpl; [auto|].
  destruct (lanes !! package (plugin e)); simpl; [|auto]. constructor; [|auto].
  intros (e' & He' & Hs)%list_elem_of_omap. destruct (effectively_disabled _ _); [done|].
  apply fmap_Some in Hs as (? & _ & [= Heq _]). apply Hn, list_elem_of_fmap. eauto.
Qed.

(** The nodes are faulted by their identities. *)
Lemma cycle_faults_elem p lanes x :
  x ∈ map fault_entry (cycle_faults (index p) lanes) <->
    exists lane, tc (depends (index p) (graph_nodes (index p) lanes)) (x, lane) (x, lane).
Proof.
  set (nodes := graph_nodes (index p) lanes).
  pose proof (fun v => cyclic_members_elem _ v (graph_closed (index p) nodes)) as Hm.
  pose proof (graph_nodes_NoDup p lanes) as Hnd. fold nodes in Hnd.
  unfold cycle_faults. fold nodes. change (map fault_entry) with (fmap (M := list) fault_entry).
  rewrite list_elem_of_fmap. split.
  - intros (f & -> & (i & Hi & Hf)%list_elem_of_omap). apply Hm in Hi.
    apply fmap_Some in Hf as ([y lane] & Hy & ->). exists lane. simpl.
    by apply (path_nodes (index p) nodes i i).
  - intros [lane Ht]. assert ((x, lane) ∈ nodes) as [i Hi]%list_elem_of_lookup.
    { inversion Ht as [? ? (? & _)|? ? ? (? & _) _]; done. }
    exists (MkEntryFault x cycle_error). split; [done|]. apply list_elem_of_omap.
    exists i. rewrite Hi. split; [|done]. apply Hm. by apply (path_nodes (index p) nodes i i (x, lane) (x, lane)).
Qed.
End FaultLaws.

(** ** What quarantine leaves *)

Section QuarantineLaws.
Implicit Types (members : list EntryId) (live stepped : gset EntryId) (x : EntryId).

Lemma retain_others members live ss stepped :
  filter (fun s => step_entry s ∉ members) (retain_loop members live ss stepped).1 =
    filter (fun s => step_entry s ∉ members) ss.
Proof.
  revert stepped. induction ss as [|s ss IH]; intros stepped; simpl; [done|].
  destruct (decide (step_entry s ∈ members)) as [Hs|Hs].
  - rewrite (filter_cons_False _ s) by auto.
    destruct (decide (step_entry s ∈ stepped)); [apply IH|].
    specialize (IH ({[step_entry s]} ∪ stepped)).
    destruct (retain_loop members live ss _) as [kept st]. simpl in *.
    by rewrite filter_cons_False by auto.
  - rewrite (filter_cons_True _ s) by done. specialize (IH stepped).
    destruct (retain_loop members live ss _) as [kept st]. simpl in *.
    rewrite filter_cons_True by done. by f_equal.
Qed.

Lemma retain_member members live ss stepped x :
  x ∈ members ->
  let '(kept, stepped') := retain_loop members live ss stepped in
  stepped ⊆ stepped' /\
  map step_kind (filter (fun s => step_entry s = x) kept) =
    (if decide (x ∉ stepped /\ x ∈ stepped') then [containment x live] else []).
Proof.
  intros Hx. revert stepped. induction ss as [|s ss IH]; intros stepped; simpl.
  { split; [done|]. rewrite decide_False by tauto. done. }
  destruct (decide (step_entry s ∈ members)) as [Hs|Hs].
  - destruct (decide (step_entry s ∈ stepped)) as [Hst|Hst]; [apply IH|].
    specialize (IH ({[step_entry s]} ∪ stepped)).
    destruct (retain_loop members live ss _) as [kept st]. destruct IH as [Hsub IH].
    split; [set_solver|]. rewrite filter_cons. simpl. destruct (decide (step_entry s = x)) as [Heq|Hne].
    + simpl. rewrite IH, decide_False by set_solver. rewrite decide_True by set_solver. by rewrite Heq.
    + rewrite IH. apply decide_ext. set_solver.
  - specialize (IH stepped). destruct (retain_loop members live ss _) as [kept st].
    destruct IH as [Hsub IH]. split; [done|]. rewrite filter_cons_False; [done|]. by intros <-.
Qed.
End QuarantineLaws.

(** A quarantined plan holds exactly one step for each member of a cycle,
    which disables it if it is live and tracks it if not, never spawns it and
    never reports it unchanged; the steps of every other entry are the plan's,
    in the plan's order, whatever order the members are iterated in. *)
Theorem quarantine_contains_the_members (p : Plan) (members : list EntryId) (live : gset EntryId) :
  NoDup members ->
  let q := quarantine p members live in
  (forall x, x ∈ members -> steps_for x q = [if decide (x ∈ live) then Disable else Track] /\
    x ∉ plan_unchanged q) /\
  filter (fun s => step_entry s ∉ members) (steps q) = filter (fun s => step_entry s ∉ members) (steps p) /\
  plan_unchanged q = filter (fun x => x ∉ members) (plan_unchanged p) /\
  plan_faults q = plan_faults p.
Proof.
  intros Hnd. unfold quarantine.
  pose proof (retain_others members live (steps p) ∅) as Hoth.
  pose proof (fun x => retain_member members live (steps p) ∅ x) as Hmem.
  destruct (retain_loop members live (steps p) ∅) as [kept stepped]. simpl in *.
  split_and!; [|..|done|done].
  - intros x Hx. split; [|intros [? _]%list_elem_of_filter; done].
    destruct (Hmem x Hx) as [_ Hk]. unfold steps_for. simpl. rewrite filter_app, map_app, Hk.
    assert (filter (fun s => step_entry s = x) (map (fun y => MkStep y (containment y live))
      (filter (fun y => y ∉ stepped) members)) =
      if decide (x ∉ stepped) then [MkStep x (containment x live)] else []) as ->.
    { rewrite filter_map, filter_comm. simpl.
      assert (filter (fun y => y = x) members = [x]) as ->; [|rewrite filter_cons, filter_nil; by destruct (decide (x ∉ stepped))].
      clear -Hnd Hx. induction Hnd as [|y l Hy Hnd IH]; [by apply elem_of_nil in Hx|].
      rewrite filter_cons. destruct (decide (y = x)) as [->|Hne].
      - f_equal. apply filter_none. intros z Hz ->. done.
      - apply IH. apply elem_of_cons in Hx as [->|?]; done. }
    destruct (decide (x ∉ stepped)) as [Hs|Hs].
    + rewrite decide_False by tauto. done.
    + rewrite decide_True by (split; [set_solver|by destruct (decide (x ∈ stepped))]). done.
  - rewrite filter_app, Hoth, (filter_none _ (map _ _)), app_nil_r; [done|].
    intros s Hs Hn. apply list_elem_of_fmap in Hs as (y & -> & [_ Hy]%list_elem_of_filter). done.
Qed.

(** The entries faulted for a dependency cycle are exactly those of the
    enabled entries with a lane from which a chain of declared dependencies
    (an injected service, a provider of that name in the realm both see) leads
    back to themselves. *)
Theorem cycle_faults_name_the_cycles {C L} `{Declares L} (p : Profile C) (lanes : gmap string L) x :
  let nodes := graph_nodes (index p) lanes in
  (x ∈ map fault_entry (cycle_faults (index p) lanes) <->
    exists lane, tc (depends (index p) nodes) (x, lane) (x, lane)) /\
  (forall lane, (x, lane) ∈ nodes <->
    exists e, get (index p) x = Some e /\ effectively_disabled (index p) x = false /\
      lanes !! package (plugin e) = Some lane).
Proof. split; [apply cycle_faults_elem|intros lane; apply graph_nodes_elem]. Qed.

(** Two plugins that inject each other's service, and a bystander. *)
Module QuarantineExample.
#[export] Instance pair_declares : Declares (list ServiceType * option ServiceType) :=
  { injects := fst; provides := snd }.

Definition service (name : string) : ServiceType := MkServiceType 0 name.
Definition lanes : gmap string (list ServiceType * option ServiceType) :=
  <["left"%string := ([service "b"], Some (service "a"))]>
    (<["right"%string := ([service "a"], Some (service "b"))]>
       (<["free"%string := ([service "a"], None)]> ∅)).
Definition entry (x pkg : string) (realm : Realm) : ProfileEntry nat :=
  MkProfileEntry (MkEntryId x) (MkPluginRef pkg "1" "h") 0 false None [MkIsolationBinding "a" realm].
Definition document (realm : Realm) : Profile nat :=
  MkProfile [entry "l" "left" RealmRoot; entry "f" "free" RealmRoot; entry "r" "right" realm].

Example realms_break_the_cycle :
  map fault_entry (cycle_faults (index (document RealmRoot)) lanes) = [MkEntryId "l"; MkEntryId "r"] /\
  cycle_faults (index (document (RealmShared "x"))) lanes = [].
Proof. by vm_compute. Qed.

Definition planned : Plan := plan None (document RealmRoot) (Some Nat.eqb).

Lemma quarantine_contains_the_members_witness :
  steps_for (MkEntryId "l") (quarantine planned [MkEntryId "r"; MkEntryId "l"] ∅) = [Track].
Proof.
  assert (NoDup [MkEntryId "r"; MkEntryId "l"]) as Hnd.
  { apply NoDup_cons. split; [intros H%list_elem_of_singleton; congruence|apply NoDup_singleton]. }
  destruct (quarantine_contains_the_members planned [MkEntryId "r"; MkEntryId "l"] ∅ Hnd) as [Hm _].
  destruct (Hm (MkEntryId "l")) as [-> _]; [by right; left|]. by rewrite decide_False by set_solver.
Defined.
End QuarantineExample.
