(* ===== verification/Document.v ===== *)
(** * Profile documents ([jinnd-loader/src/{document,raw}.rs])

    The persisted document: decoded entries, entries kept verbatim because
    they did not decode, realm directives, and the merge and amendment that a
    save writes. JSON text is [serde_json]'s: its values, and how it reads and
    prints an entry, are parameters. *)

From stdpp Require Import base gmap sets list strings sorting pretty.
From Stdlib Require Import Ascii.
From S2P Require Import Prelude Api Entries.

(** ** String-keyed trees

    A [BTreeMap<String, String>] as its entries in key order. *)

Definition string_lt (a b : string) : Prop := String.compare a b = Lt.

#[export] Instance string_lt_dec a b : Decision (string_lt a b).
Proof. unfold string_lt. apply _. Defined.

Fixpoint btree_insert {A} (k : string) (v : A) (m : list (string * A)) : list (string * A) :=
  match m with
  | [] => [(k, v)]
  | (k', v') :: m' =>
      match String.compare k k' with
      | Lt => (k, v) :: m
      | Eq => (k, v) :: m'
      | Gt => (k', v') :: btree_insert k v m'
      end
  end.

(** [Iterator::collect]: a later pair replaces an earlier one of its key. *)
Definition btree_collect {A} (l : list (string * A)) : list (string * A) :=
  fold_left (fun m '(k, v) => btree_insert k v m) l [].

(** ** Documents *)

Section Documents.
Context {Value : Type}.

Record DocumentEntry := MkDocumentEntry {
  doc_id : string;
  doc_package : string;
  doc_version : string;
  doc_hash : string;
  doc_config : Value;
  doc_disabled : bool;
  doc_parent : option string;
  doc_isolate : list (string * string);
  doc_extra : list (string * string);
}.

Record RawEntry := MkRawEntry { raw_index : nat; raw_text : string; raw_error : KernelError }.

Record Document := MkDocument { doc_entries : list DocumentEntry; doc_raw : list RawEntry }.

Definition empty_document : Document := MkDocument [] [].

(** ** Realm directives *)

(** [{:?}] of a [str]; the fault's message quotes the directive. *)
Definition directive_error (d : string) : KernelError :=
  MkKernelError InvalidProfile
    ("realm directive " +:+ debug_str d +:+ " is neither `#entryId`, `@label`, nor `/`") None.

(** [split_at_checked(1)] splits off a first byte that is a whole character. *)
Definition realm (d : string) : result Realm KernelError :=
  match d with
  | String "#"%char (String _ _ as entry) => Ok (RealmLocal (MkEntryId entry))
  | String "@"%char (String _ _ as label) => Ok (RealmShared label)
  | String "/"%char EmptyString => Ok RealmRoot
  | _ => Err (directive_error d)
  end.

Definition directive (r : Realm) : string :=
  match r with
  | RealmRoot => "/"
  | RealmLocal entry => String "#"%char (entry_id entry)
  | RealmShared label => String "@"%char label
  end.

(** ** Decoding and rendering the entries array

    [decode] and [print] are [decode_entry] and [render_entry] on the source
    bytes of one array element. *)

Fixpoint parse_items (decode : string -> result DocumentEntry string) (index : nat)
    (items : list string) : Document :=
  match items with
  | [] => empty_document
  | item :: items =>
      let rest := parse_items decode (S index) items in
      match decode item with
      | Ok entry => MkDocument (entry :: doc_entries rest) (doc_raw rest)
      | Err reason =>
          MkDocument (doc_entries rest)
            (MkRawEntry index item
               (MkKernelError InvalidProfile ("the entry does not decode: " +:+ reason) None)
             :: doc_raw rest)
      end
  end.

(** [Vec::insert] at an index that may be past the end. *)
Definition insert_item (i : nat) (text : string) (items : list string) : list string :=
  let i := i `min` length items in take i items ++ text :: drop i items.

Definition render_items (print : DocumentEntry -> string) (d : Document) : list string :=
  fold_left (fun items raw => insert_item (raw_index raw) (raw_text raw) items)
    (doc_raw d) (map print (doc_entries d)).

(** The text around the items. *)
Definition newline : string := String (Ascii.ascii_of_nat 10) EmptyString.

Fixpoint render_loop (position : nat) (items : list string) : string :=
  match items with
  | [] => EmptyString
  | item :: items =>
      (if decide (0 < position) then "," else EmptyString) +:+ newline +:+ "    " +:+ item +:+
      render_loop (S position) items
  end.

Definition render (print : DocumentEntry -> string) (d : Document) : string :=
  let items := render_items print d in
  "{" +:+ newline +:+ "  " +:+ debug_str "entries" +:+ ": [" +:+ render_loop 0 items +:+
  (match items with [] => EmptyString | _ => newline +:+ "  " end) +:+ "]" +:+ newline +:+ "}".

(** [RawEntry::entry_id]: [legible] reads the element's [id], when it has one. *)
Definition raw_entry_id (legible : string -> option string) (raw : RawEntry) : EntryId :=
  match legible (raw_text raw) with
  | Some id => MkEntryId id
  | None => MkEntryId ("entries[" +:+ pretty (raw_index raw) +:+ "]")
  end.

(** ** Resolution *)

Fixpoint resolve_isolation (isolate : list (string * string)) : result (list IsolationBinding) KernelError :=
  match isolate with
  | [] => Ok []
  | (service, d) :: rest =>
      (let? r := realm d in let? bindings := resolve_isolation rest in
       Ok (MkIsolationBinding service r :: bindings))%result
  end.

Definition resolve_entry (e : DocumentEntry) : result (ProfileEntry Value) KernelError :=
  (let? bindings := resolve_isolation (doc_isolate e) in
   Ok (MkProfileEntry (MkEntryId (doc_id e))
         (MkPluginRef (doc_package e) (doc_version e) (doc_hash e)) (doc_config e) (doc_disabled e)
         (MkEntryId <$> doc_parent e) bindings))%result.

Fixpoint resolve_entries (es : list DocumentEntry) : list (ProfileEntry Value) * list EntryFault :=
  match es with
  | [] => ([], [])
  | e :: es =>
      let '(resolved, faults) := resolve_entries es in
      match resolve_entry e with
      | Ok r => (r :: resolved, faults)
      | Err error => (resolved, MkEntryFault (MkEntryId (doc_id e)) error :: faults)
      end
  end.

Definition resolve (legible : string -> option string) (d : Document) :
    Profile Value * list EntryFault :=
  let '(resolved, faults) := resolve_entries (doc_entries d) in
  (MkProfile resolved,
   map (fun raw => MkEntryFault (raw_entry_id legible raw) (raw_error raw)) (doc_raw d) ++ faults).

(** ** Saving *)

Definition isolate_of (bindings : list IsolationBinding) : list (string * string) :=
  btree_collect (map (fun b => (binding_service b, directive (binding_realm b))) bindings).

Definition merge_entry (baseline : Document) (e : ProfileEntry Value) : DocumentEntry :=
  MkDocumentEntry (entry_id (id e)) (package (plugin e)) (version (plugin e))
    (artifact_hash (plugin e)) (config e) (disabled e) (entry_id <$> parent e)
    (isolate_of (isolation e))
    (match List.find (fun p => bool_decide (doc_id p = entry_id (id e))) (doc_entries baseline) with
     | Some persisted => doc_extra persisted
     | None => []
     end).

Definition merge_profile (p : Profile Value) (baseline : Document) : Document :=
  MkDocument (map (merge_entry baseline) (entries p)) (doc_raw baseline).

Definition from_profile (p : Profile Value) : Document := merge_profile p empty_document.

Definition amend_entry (config : option Value) (disabled : option bool) (e : DocumentEntry) : DocumentEntry :=
  MkDocumentEntry (doc_id e) (doc_package e) (doc_version e) (doc_hash e)
    (default (doc_config e) config) (default (doc_disabled e) disabled) (doc_parent e)
    (doc_isolate e) (doc_extra e).

Fixpoint amend_first (entry : string) (config : option Value) (disabled : option bool)
    (es : list DocumentEntry) : option (list DocumentEntry) :=
  match es with
  | [] => None
  | e :: es =>
      if decide (doc_id e = entry) then Some (amend_entry config disabled e :: es)
      else cons e <$> amend_first entry config disabled es
  end.

Definition doc_amended (d : Document) (entry : string) (config : option Value)
    (disabled : option bool) : result Document KernelError :=
  match amend_first entry config disabled (doc_entries d) with
  | Some es => Ok (MkDocument es (doc_raw d))
  | None =>
      Err (MkKernelError InvalidProfile
             ("entry " +:+ debug_str entry +:+ " is not in the persisted document") None)
  end.
End Documents.
Arguments DocumentEntry : clear implicits.
Arguments Document : clear implicits.

(** ** Trees in key order *)

Section Trees.
Context {A : Type}.
Implicit Types (m l : list (string * A)).

Definition key_sorted m : Prop := StronglySorted string_lt (map fst m).

Lemma btree_insert_last m k (v : A) :
  Forall (fun p => string_lt p.1 k) m -> btree_insert k v m = m ++ [(k, v)].
Proof.
  induction m as [|[k' v'] m IH]; intros Hm; simpl; [done|].
  apply Forall_cons in Hm as [Hk Hm]. unfold string_lt in Hk. simpl in Hk.
  rewrite String.compare_antisym, Hk. simpl. by rewrite IH.
Qed.

Lemma btree_collect_sorted l : key_sorted l -> btree_collect l = l.
Proof.
  unfold btree_collect, key_sorted. intros Hs.
  assert (forall m, Forall (fun p => Forall (fun q => string_lt p.1 q.1) l) m ->
    fold_left (fun m '(k, v) => btree_insert k v m) l m = m ++ l) as H.
  { induction l as [|[k v] l IH]; intros m Hm; simpl; [by rewrite app_nil_r|].
    simpl in Hs. apply StronglySorted_cons in Hs as [Hk Hs].
    rewrite btree_insert_last.
    - rewrite IH; [by rewrite <-app_assoc|done|]. apply Forall_app. split.
      + eapply Forall_impl; [done|]. intros p Hp. by apply Forall_cons in Hp as [_ Hp].
      + apply Forall_singleton. simpl. rewrite Forall_forall in Hk. apply Forall_forall. intros q Hq. apply Hk. by apply list_elem_of_fmap_2.
    - eapply Forall_impl; [done|]. intros p Hp. by apply Forall_cons in Hp as [Hp _]. }
  by apply H.
Qed.
End Trees.

(** ** Directives *)

Definition named (r : Realm) : Prop :=
  match r with
  | RealmRoot => True
  | RealmLocal entry => entry_id entry <> EmptyString
  | RealmShared label => label <> EmptyString
  end.

Lemma realm_of_directive r : named r -> realm (directive r) = Ok r.
Proof. destruct r as [|[[|c s]]|[|c s]]; simpl; congruence. Qed.

Lemma directive_of_realm d r : realm d = Ok r -> directive r = d /\ named r.
Proof.
  unfold realm. destruct d as [|[[] [] [] [] [] [] [] []] [|c d]]; try done; by intros [= <-].
Qed.

Section DocumentLaws.
Context {Value : Type}.
Implicit Types (d : Document Value) (e : DocumentEntry Value) (p : Profile Value).

Definition isolates_sorted d : Prop := Forall (fun e => key_sorted (doc_isolate e)) (doc_entries d).

Lemma resolve_isolation_back l bindings :
  resolve_isolation l = Ok bindings ->
  map (fun b => (binding_service b, directive (binding_realm b))) bindings = l.
Proof.
  revert bindings. induction l as [|[service s] l IH]; intros bindings; simpl; [by intros [= <-]|].
  destruct (realm s) as [r|] eqn:Hr; [|done].
  destruct (resolve_isolation l) as [bs|]; [|done]. intros [= <-]. simpl.
  apply directive_of_realm in Hr as [-> _]. by rewrite IH.
Qed.

(** Resolving an entry and merging it back rebuilds it. *)
Lemma merge_resolved baseline e r :
  key_sorted (doc_isolate e) -> resolve_entry e = Ok r ->
  merge_entry baseline r =
    MkDocumentEntry (doc_id e) (doc_package e) (doc_version e) (doc_hash e) (doc_config e)
      (doc_disabled e) (doc_parent e) (doc_isolate e) (doc_extra (merge_entry baseline r)) /\
  entry_id (id r) = doc_id e.
Proof.
  intros Hs. unfold resolve_entry. destruct (resolve_isolation (doc_isolate e)) as [bs|] eqn:Hb; [|done].
  intros [= <-]. unfold merge_entry, isolate_of. simpl. rewrite (resolve_isolation_back _ _ Hb).
  rewrite btree_collect_sorted by done. by destruct (doc_parent e).
Qed.

Lemma find_own (es : list (DocumentEntry Value)) e :
  NoDup (map doc_id es) -> e ∈ es ->
  List.find (fun q => bool_decide (doc_id q = doc_id e)) es = Some e.
Proof.
  induction es as [|e' es IH]; intros Hnd Hin; [by apply elem_of_nil in Hin|].
  simpl in *. apply NoDup_cons in Hnd as [Hn Hnd].
  apply elem_of_cons in Hin as [->|Hin]; [by rewrite bool_decide_true|].
  rewrite bool_decide_false; [auto|]. intros Heq. apply Hn, list_elem_of_fmap. exists e. auto.
Qed.

Lemma resolve_entries_ok (es : list (DocumentEntry Value)) :
  Forall (fun e => is_ok (resolve_entry e) = true) es ->
  exists rs, resolve_entries es = (rs, []) /\ Forall2 (fun e r => resolve_entry e = Ok r) es rs.
Proof.
  induction es as [|e es IH]; intros Hall; simpl; [by exists []|].
  apply Forall_cons in Hall as [He Hall]. destruct (IH Hall) as (rs & -> & Hrs).
  destruct (resolve_entry e) as [r|] eqn:Hr; [|done]. exists (r :: rs). by repeat constructor.
Qed.

Lemma insert_item_at (pre rest : list string) text :
  insert_item (length pre) text (pre ++ rest) = pre ++ text :: rest.
Proof.
  unfold insert_item. rewrite length_app, Nat.min_l by lia. by rewrite take_app_length, drop_app_length.
Qed.

Lemma render_items_slots decode (print : DocumentEntry Value -> string) items pre :
  fold_left (fun items raw => insert_item (raw_index raw) (raw_text raw) items)
    (doc_raw (parse_items decode (length pre) items))
    (pre ++ map print (doc_entries (parse_items decode (length pre) items))) =
  pre ++ map (fun item => match decode item with Ok e => print e | Err _ => item end) items.
Proof.
  revert pre. induction items as [|item items IH]; intros pre; simpl; [done|].
  destruct (decode item) as [e|reason] eqn:Hd; simpl.
  - specialize (IH (pre ++ [print e])). rewrite length_app, Nat.add_comm in IH. simpl in IH.
    rewrite <-!app_assoc in IH. exact IH.
  - rewrite insert_item_at. specialize (IH (pre ++ [item])).
    rewrite length_app, Nat.add_comm in IH. simpl in IH. rewrite <-!app_assoc in IH. exact IH.
Qed.
End DocumentLaws.

(** A parsed document renders every element of the source array in its
    own place: a decoded entry as it prints, an undecodable one verbatim. *)
Theorem rendering_keeps_every_slot {Value} (decode : string -> result (DocumentEntry Value) string)
    (print : DocumentEntry Value -> string) (items : list string) :
  render_items print (parse_items decode 0 items) =
    map (fun item => match decode item with Ok e => print e | Err _ => item end) items.
Proof. exact (render_items_slots decode print items []). Qed.

(** Saving the profile a document resolves to, over that document, writes
    the document back unchanged, unknown fields and undecodable entries
    included, when all its entries resolve under distinct identities; and over
    any baseline, what is saved resolves to the same profile again. *)
Theorem saving_a_loaded_profile_keeps_the_document {Value} (legible : string -> option string)
    (d baseline : Document Value) :
  isolates_sorted d -> Forall (fun e => is_ok (resolve_entry e) = true) (doc_entries d) ->
  let p := (resolve legible d).1 in
  (NoDup (map doc_id (doc_entries d)) -> merge_profile p d = d) /\
  (resolve legible (merge_profile p baseline)).1 = p.
Proof.
  intros Hs Hok. unfold resolve, merge_profile.
  destruct (resolve_entries_ok _ Hok) as (rs & -> & Hrs). simpl. split.
  - intros Hnd. destruct d as [es raw]. simpl in *. f_equal. unfold isolates_sorted in Hs. simpl in Hs.
    assert (forall es' , Forall2 (fun e r => resolve_entry e = Ok r) es' rs ->
      Forall (fun e => e ∈ es) es' -> Forall (fun e => key_sorted (doc_isolate e)) es' ->
      map (merge_entry (MkDocument es raw)) rs = es') as H.
    { clear Hrs Hok Hs. induction rs as [|r rs IH]; intros es' Hrs Hin Hs.
      - by apply Forall2_nil_inv_r in Hrs.
      - apply Forall2_cons_inv_r in Hrs as (e & es1 & He & Hrs & ->).
        apply Forall_cons in Hin as [Hin Hins]. apply Forall_cons in Hs as [Hse Hs]. simpl.
        rewrite (IH es1) by done. f_equal.
        destruct (merge_resolved (MkDocument es raw) e r Hse He) as [-> Hid].
        simpl. rewrite Hid, (find_own es e) by done. by destruct e. }
    apply H; [done| |done]. by apply Forall_forall.
  - assert (forall es, Forall2 (fun e r => resolve_entry e = Ok r) es rs ->
      Forall (fun e => key_sorted (doc_isolate e)) es ->
      (resolve_entries (map (merge_entry baseline) rs)).1 = rs) as H.
    { clear Hrs Hok Hs. induction rs as [|r rs IH]; intros es Hrs Hs; [done|].
      apply Forall2_cons_inv_r in Hrs as (e & es1 & He & Hrs & ->).
      apply Forall_cons in Hs as [Hse Hs]. simpl. specialize (IH es1 Hrs Hs).
      destruct (resolve_entries (map (merge_entry baseline) rs)) as [rs' fs]. simpl in IH. subst rs'.
      destruct (merge_resolved baseline e r Hse He) as [-> _].
      unfold resolve_entry in *. simpl. by destruct (resolve_isolation (doc_isolate e)); [injection He as <-|]. }
    specialize (H _ Hrs Hs). destruct (resolve_entries (map (merge_entry baseline) rs)). simpl in *. by subst.
Qed.

Module DocumentExample.
Definition written (x directive : string) (extra : list (string * string)) : DocumentEntry nat :=
  MkDocumentEntry x "p" "1" "h" 7 false None [("svc"%string, directive)] extra.
Definition unread : RawEntry := MkRawEntry 0 "{}" (directive_error "?").
Definition legible (_ : string) : option string := None.
Definition disk : Document nat := MkDocument [written "a" "@x" [("k"%string, "1"%string)]] [unread].

Lemma saving_a_loaded_profile_keeps_the_document_witness :
  merge_profile (resolve legible disk).1 disk = disk.
Proof.
  apply (saving_a_loaded_profile_keeps_the_document legible disk disk).
  - apply Forall_singleton. repeat constructor.
  - by repeat constructor.
  - apply NoDup_singleton.
Defined.
End DocumentExample.

(** A save can erase what it did not understand. An entry whose realm
    directive does not parse is dropped from the document by the save of the
    profile it was loaded with; and a save over the document loaded before
    drops the undecodable entries and unknown fields of the one loaded since. *)
Theorem a_save_can_erase_what_does_not_resolve :
  let bad := DocumentExample.written "b" "no-sigil" [] in
  let d := MkDocument (doc_entries DocumentExample.disk ++ [bad]) [] in
  let reloaded := (resolve DocumentExample.legible DocumentExample.disk).1 in
  map fault_entry (resolve DocumentExample.legible d).2 = [MkEntryId "b"] /\
  map doc_id (doc_entries (merge_profile (resolve DocumentExample.legible d).1 d)) = ["a"%string] /\
  merge_profile reloaded empty_document =
    MkDocument [DocumentExample.written "a" "@x" []] [].
Proof. by vm_compute. Qed.
