(* ===== verification/Loader.v ===== *)
(** * The loader ([jinnd-loader/src/{state,loader,apply,rebind,gate,refuse}.rs])

    One committed document, one runtime per entry, and the document-led half
    of keeping them two views of one truth: a reconcile diffs, commits and
    applies its plan step by step. Lanes, handles, contexts and the world they
    act on are interfaces; a document engages the loader exclusively. *)

From stdpp Require Import base gmap sets list strings sorting.
From S2P Require Import Prelude Api Entries Diff Quarantine Document.

(** ** What the loader drives ([lanes.rs]) *)

(** Context derivation and resolution, as [Context] models them. *)
Class Contexts (Ctx : Type) := {
  derive_bind : Ctx -> list IsolationBinding -> Ctx;
  realm_of : Ctx -> string -> Realm;
}.

(** The registry watch a fiber's readiness signal is fed by. *)
Record Watch (Ctx : Type) := MkWatch { watch_at : Ctx; watch_services : list ServiceType }.
Arguments MkWatch {Ctx}. Arguments watch_at {Ctx}. Arguments watch_services {Ctx}.

(** The trait [EntryHandle]; every method may reach plugin code, so each acts
    on a world [W] of its own. *)
Class EntryHandle (W H C Ctx : Type) := {
  handle_id : H -> FiberId;
  handle_state : H -> W -> FiberState;
  withdrawing : H -> W -> bool;
  resting : H -> W -> bool;
  restart : H -> TransitionCause -> W -> W;
  restate : H -> C -> W -> result unit KernelError * W;
  rebind : H -> Ctx -> W -> W;
  handle_dispose : H -> W -> result unit KernelError * W;
  quiesce : H -> W -> result unit KernelError * W;
}.

Record PackageLane (W H C Ctx : Type) := MkPackageLane {
  lane_injects : list ServiceType;
  lane_provides : option ServiceType;
  spawn : EntryId -> Ctx -> C -> Watch Ctx -> W -> result H KernelError * W;
}.
Arguments MkPackageLane {W H C Ctx}. Arguments lane_injects {W H C Ctx}.
Arguments lane_provides {W H C Ctx}. Arguments spawn {W H C Ctx}.

#[export] Instance lane_declares {W H C Ctx} : Declares (PackageLane W H C Ctx) :=
  { injects := lane_injects; provides := lane_provides }.

(** ** State ([state.rs])

    The loader is driven with one config type [C]; the proxy of a live entry
    is the watch it is attached to. *)

Record Live (W H C Ctx : Type) := MkLive {
  lane : PackageLane W H C Ctx;
  handle : H;
  proxy : Watch Ctx;
}.
Arguments MkLive {W H C Ctx}. Arguments lane {W H C Ctx}. Arguments handle {W H C Ctx}.
Arguments proxy {W H C Ctx}.

Record EntryRuntime (W H C Ctx : Type) := MkEntryRuntime {
  spec : ProfileEntry C;
  context : option Ctx;
  live : option (Live W H C Ctx);
  runtime_fault : option KernelError;
}.
Arguments MkEntryRuntime {W H C Ctx}. Arguments spec {W H C Ctx}. Arguments context {W H C Ctx}.
Arguments live {W H C Ctx}. Arguments runtime_fault {W H C Ctx}.

(** What the loader holds for its whole life, and its mutable state. *)
Record Loader (W H C Ctx : Type) := MkLoader {
  root : Ctx;
  on_context : Ctx -> W -> W;
  lanes : gmap string (PackageLane W H C Ctx);
  attestation : Attestation C;
}.
Arguments MkLoader {W H C Ctx}. Arguments root {W H C Ctx}. Arguments on_context {W H C Ctx}.
Arguments lanes {W H C Ctx}. Arguments attestation {W H C Ctx}.

Record State (W H C Ctx : Type) := MkState {
  committed : option (Profile C);
  runtimes : gmap EntryId (EntryRuntime W H C Ctx);
}.
Arguments MkState {W H C Ctx}. Arguments committed {W H C Ctx}. Arguments runtimes {W H C Ctx}.

Definition invalid (message : string) : KernelError := MkKernelError InvalidProfile message None.

Inductive Bucket := BCreated | BRestarted | BDisposed | BUnchanged.

Section Steps.
Context {W H C Ctx : Type} `{Contexts Ctx, EntryHandle W H C Ctx}.
Context (loader : Loader W H C Ctx).
Implicit Types (s : State W H C Ctx) (w : W) (x : EntryId) (ix : EntryIndex C).

Abbreviation Outcome := (result Bucket KernelError * (State W H C Ctx * W))%type.

Definition set_runtime x (r : EntryRuntime W H C Ctx) s : State W H C Ctx :=
  MkState (committed s) (<[x := r]> (runtimes s)).

Definition left_document : KernelError := invalid "the entry left the document".
Definition no_runtime : KernelError := invalid "the entry has no runtime".

(** ** Steps of a plan ([apply.rs], [rebind.rs]) *)

Definition derive_context (e : ProfileEntry C) s w : result Ctx KernelError * W :=
  let parent_context :=
    match parent e with
    | None => Some (root loader)
    | Some q => r ← runtimes s !! q; context r
    end in
  match parent_context with
  | None => (Err (invalid "the parent entry has no live context"), w)
  | Some c =>
      let c := derive_bind c (isolation e) in
      (Ok c, on_context loader c w)
  end.

Definition dispose_step x ix (remove : bool) s w : Outcome :=
  let taken :=
    if remove && bool_decide (get ix x = None) then
      Ok (r ← runtimes s !! x; live r, MkState (committed s) (delete x (runtimes s)))
    else
      match runtimes s !! x with
      | None => Err no_runtime
      | Some r =>
          Ok (live r,
              set_runtime x (MkEntryRuntime (default (spec r) (get ix x)) None None (runtime_fault r)) s)
      end in
  match taken with
  | Err e => (Err e, (s, w))
  | Ok (None, s) => (Ok BUnchanged, (s, w))
  | Ok (Some l, s) =>
      match handle_dispose (handle l) w with
      | (Ok _, w) => (Ok BDisposed, (s, w))
      | (Err e, w) => (Err e, (s, w))
      end
  end.

Definition restate_step x ix s w : Outcome :=
  match get ix x, runtimes s !! x with
  | None, _ => (Err left_document, (s, w))
  | Some _, None => (Err no_runtime, (s, w))
  | Some e, Some r =>
      let s := set_runtime x (MkEntryRuntime e (context r) (live r) (runtime_fault r)) s in
      match live r with
      | None => (Ok BUnchanged, (s, w))
      | Some l =>
          match restate (handle l) (config e) w with
          | (Ok _, w) => (Ok BRestarted, (s, restart (handle l) ConfigChanged w))
          | (Err error, w) => (Err error, (s, w))
          end
      end
  end.

Definition spawn_step x ix s w : Outcome :=
  match get ix x with
  | None => (Err left_document, (s, w))
  | Some e =>
      match derive_context e s w with
      | (Err error, w) => (Err error, (s, w))
      | (Ok c, w) =>
          if decide (package (plugin e) = GROUP_PACKAGE) then
            (Ok BUnchanged, (set_runtime x (MkEntryRuntime e (Some c) None None) s, w))
          else
            match lanes loader !! package (plugin e) with
            | None =>
                (Err (invalid ("no lane is registered for package " +:+ debug_str (package (plugin e)))),
                 (s, w))
            | Some l =>
                let watch := MkWatch c (lane_injects l) in
                match spawn l x c (config e) watch w with
                | (Err error, w) => (Err error, (s, w))
                | (Ok h, w) =>
                    (Ok BCreated, (set_runtime x (MkEntryRuntime e (Some c) (Some (MkLive l h watch)) None) s, w))
                end
            end
      end
  end.

Definition track_step x ix s w : Outcome :=
  match get ix x with
  | None => (Err left_document, (s, w))
  | Some e => (Ok BUnchanged, (set_runtime x (MkEntryRuntime e None None None) s, w))
  end.

(** Whether the realm of the lane's provided service moved. *)
Definition realm_moved (old : option Ctx) (new : Ctx) (l : option (PackageLane W H C Ctx)) : bool :=
  match l ← l; lane_provides l with
  | None => false
  | Some service =>
      bool_decide ((fun c => realm_of c (service_name service)) <$> old <>
                   Some (realm_of new (service_name service)))
  end.

Definition rebind_step x ix s w : Outcome :=
  match get ix x, runtimes s !! x with
  | None, _ => (Err left_document, (s, w))
  | Some _, None => (Err no_runtime, (s, w))
  | Some e, Some r =>
      match derive_context e s w with
      | (Err error, w) => (Err error, (s, w))
      | (Ok c, w) =>
          let moved := realm_moved (context r) c (lane <$> live r) in
          let l :=
            (fun l => MkLive (lane l) (handle l) (MkWatch c (lane_injects (lane l)))) <$> live r in
          let s := set_runtime x (MkEntryRuntime e (Some c) l (runtime_fault r)) s in
          match l with
          | None => (Ok BUnchanged, (s, w))
          | Some l =>
              let w := rebind (handle l) c w in
              if moved then (Ok BRestarted, (s, restart (handle l) DependencyChanged w))
              else (Ok BUnchanged, (s, w))
          end
      end
  end.

Definition replace_step x ix s w : Outcome :=
  match dispose_step x ix true s w with
  | (Err e, sw) => (Err e, sw)
  | (Ok _, (s, w)) =>
      match spawn_step x ix s w with
      | (Ok _, sw) => (Ok BRestarted, sw)
      | (Err e, sw) => (Err e, sw)
      end
  end.

Definition run_step ix (st : Step) s w : Outcome :=
  let x := step_entry st in
  match step_kind st with
  | Remove => dispose_step x ix true s w
  | Disable => dispose_step x ix false s w
  | Rebind => rebind_step x ix s w
  | Restate => restate_step x ix s w
  | Replace => replace_step x ix s w
  | Create | Enable => spawn_step x ix s w
  | Track => track_step x ix s w
  end.

Definition file_outcome (x : EntryId) (outcome : result Bucket KernelError) (report : ReconcileReport) :
    ReconcileReport :=
  let '(MkReconcileReport c r d u e) := report in
  match outcome with
  | Ok BCreated => MkReconcileReport (c ++ [x]) r d u e
  | Ok BRestarted => MkReconcileReport c (r ++ [x]) d u e
  | Ok BDisposed => MkReconcileReport c r (d ++ [x]) u e
  | Ok BUnchanged => MkReconcileReport c r d (u ++ [x]) e
  | Err error => MkReconcileReport c r d u (e ++ [MkEntryFault x error])
  end.

(** [cancelled] is the number of steps begun before the token is cancelled. *)
Fixpoint apply_loop ix (cancelled : option nat) (ss : list Step) (report : ReconcileReport) s w :
    ReconcileReport * (State W H C Ctx * W) :=
  match ss, cancelled with
  | [], _ | _, Some 0 => (report, (s, w))
  | st :: ss, _ =>
      let '(outcome, (s, w)) := run_step ix st s w in
      apply_loop ix (pred <$> cancelled) ss (file_outcome (step_entry st) outcome report) s w
  end.

Definition apply (p : Plan) (profile : Profile C) (cancelled : option nat) s w :
    ReconcileReport * (State W H C Ctx * W) :=
  apply_loop (index profile) cancelled (steps p)
    (MkReconcileReport [] [] [] (plan_unchanged p) (plan_faults p)) s w.
End Steps.

(** ** Exclusion ([gate.rs], [refuse.rs]) *)

Record Slots := MkSlots { slot_document : bool; slot_entries : gset EntryId }.

Definition no_slots : Slots := MkSlots false ∅.

Definition engage_entry (x : EntryId) (g : Slots) : option Slots :=
  if slot_document g || bool_decide (x ∈ slot_entries g) then None
  else Some (MkSlots (slot_document g) ({[x]} ∪ slot_entries g)).

Definition release_entry (x : EntryId) (g : Slots) : Slots :=
  MkSlots (slot_document g) (slot_entries g ∖ {[x]}).

Definition engage_document (g : Slots) : option Slots :=
  if slot_document g || bool_decide (slot_entries g <> ∅) then None
  else Some (MkSlots true (slot_entries g)).

Definition release_document (g : Slots) : Slots := MkSlots false (slot_entries g).

Definition entry_engaged : KernelError :=
  invalid "operation refused: a loader operation is already in flight for this entry".
Definition document_engaged : KernelError :=
  invalid "reconcile refused: a loader operation is already in flight".

Definition refuse_teardown_context (in_teardown : bool) (operation : string) : result unit KernelError :=
  if in_teardown then
    Err (invalid (operation +:+ " refused: the profile cannot be amended from a teardown context"))
  else Ok ().

Section Refusals.
Context {W H C Ctx : Type} `{EntryHandle W H C Ctx}.
Implicit Types (s : State W H C Ctx) (w : W).

Definition live_handles s : list H :=
  omap (fun p : EntryId * EntryRuntime W H C Ctx => handle <$> live p.2) (map_to_list (runtimes s)).

Definition refuse_amid_withdrawal (operation : string) s w : result unit KernelError :=
  if existsb (fun h => withdrawing h w) (live_handles s) then
    Err (invalid (operation +:+ " refused: a fiber withdrawal is in flight; retry after quiescence"))
  else Ok ().

Definition refuse_unrested (h : H) (operation : string) w : result unit KernelError :=
  if negb (resting h w) then
    Err (invalid (operation +:+ " refused: the entry's fiber is mid-transition and the operation would await it; retry after the fiber settles"))
  else Ok ().

(** [current] is the fiber whose task makes the call. *)
Definition refuse_own_fiber (current : option FiberId) (h : H) (operation : string) : result unit KernelError :=
  if decide (current = Some (handle_id h)) then
    Err (invalid (operation +:+ " refused: it would await the calling task's own fiber; amend from outside the fiber"))
  else Ok ().
End Refusals.

(** ** Persistence ([store.rs]) *)

(** What running a config's own [Serialize] comes to. *)
Inductive Serialized (V : Type) := SValue (v : V) | SRefused (cause : string) | SPanicked (message : string).
Arguments SValue {V}. Arguments SRefused {V}. Arguments SPanicked {V}.

(** The store, the encoder and the printer are kernel-external; the baseline
    and the pending echo are the persistence's own. *)
Class Medium (W C V : Type) := {
  serialize : C -> W -> Serialized V * W;
  store_save : Document V -> W -> result unit KernelError * W;
  print_entry : DocumentEntry V -> string;
}.

Record Persistence (V : Type) := MkPersistence { baseline : Document V; written : option string }.
Arguments MkPersistence {V}. Arguments baseline {V}. Arguments written {V}.

Section Persisting.
Context {W C V : Type} `{Medium W C V}.
Implicit Types (p : Persistence V) (w : W).

Definition contained_value (subject : string) (c : C) w : result V KernelError * W :=
  match serialize c w with
  | (SValue v, w) => (Ok v, w)
  | (SRefused cause, w) =>
      (Err (invalid ("the config of " +:+ subject +:+ " does not serialize: " +:+ cause)), w)
  | (SPanicked m, w) =>
      (Err (invalid ("the config of " +:+ subject +:+ " panicked while serializing: " +:+ m)), w)
  end.

Fixpoint value_entries (es : list (ProfileEntry C)) w : result (list (ProfileEntry V)) KernelError * W :=
  match es with
  | [] => (Ok [], w)
  | e :: es =>
      match contained_value ("entry " +:+ debug_str (entry_id (id e))) (config e) w with
      | (Err error, w) => (Err error, w)
      | (Ok v, w) =>
          match value_entries es w with
          | (Err error, w) => (Err error, w)
          | (Ok vs, w) =>
              (Ok (MkProfileEntry (id e) (plugin e) v (disabled e) (parent e) (isolation e) :: vs), w)
          end
      end
  end.

Definition value_profile (pr : Profile C) w : result (Profile V) KernelError * W :=
  match value_entries (entries pr) w with
  | (Ok vs, w) => (Ok (MkProfile vs), w)
  | (Err error, w) => (Err error, w)
  end.

(** A save that lands becomes the next baseline, and its bytes the echo. *)
Definition save_document (d : Document V) p w : result unit KernelError * (Persistence V * W) :=
  match store_save d w with
  | (Ok _, w) => (Ok (), (MkPersistence d (Some (render print_entry d)), w))
  | (Err error, w) => (Err error, (p, w))
  end.

Definition save_committed (values : Profile V) p w : result unit KernelError * (Persistence V * W) :=
  save_document (merge_profile values (baseline p)) p w.

Definition save_amendment x (config : option V) (off : option bool) p w :
    result unit KernelError * (Persistence V * W) :=
  match doc_amended (baseline p) (entry_id x) config off with
  | Ok d => save_document d p w
  | Err error => (Err error, (p, w))
  end.

Definition retire_echo (delivered : string) p : bool * Persistence V :=
  if decide (written p = Some delivered) then (true, MkPersistence (baseline p) None) else (false, p).
End Persisting.

(** ** Reconciliation ([loader.rs], [cycles.rs]) *)

Record Machine (W H C Ctx V : Type) := MkMachine {
  state : State W H C Ctx;
  gate : Slots;
  persist : option (Persistence V);
}.
Arguments MkMachine {W H C Ctx V}. Arguments state {W H C Ctx V}. Arguments gate {W H C Ctx V}.
Arguments persist {W H C Ctx V}.

Section Reconciling.
Context {W H C Ctx V : Type} `{Contexts Ctx, EntryHandle W H C Ctx, Medium W C V}.
Context (loader : Loader W H C Ctx).

(** The orders in which a [HashMap] and a [HashSet] are iterated. *)
Context (enumerate : gmap EntryId (EntryRuntime W H C Ctx) -> list (EntryId * EntryRuntime W H C Ctx)).
Context (iterate : list EntryId -> list EntryId).

Implicit Types (s : State W H C Ctx) (m : Machine W H C Ctx V) (w : W).

Definition applied s : option (Profile C) :=
  if decide (runtimes s = ∅) then None
  else Some (MkProfile (map (fun p : EntryId * EntryRuntime W H C Ctx => spec p.2) (enumerate (runtimes s)))).

Definition live_entries s : gset EntryId :=
  dom (filter (fun p : EntryId * EntryRuntime W H C Ctx => is_Some (live p.2)) (runtimes s)).

Definition quarantine_cycles (p : Plan) (profile : Profile C) s : Plan :=
  match cycle_faults (index profile) (lanes loader) with
  | [] => p
  | cyclic =>
      let q := quarantine p (iterate (map fault_entry cyclic)) (live_entries s) in
      MkPlan (steps q) (plan_faults q ++ cyclic) (plan_unchanged q)
  end.

Definition drain_faults s : list EntryFault * State W H C Ctx :=
  (omap (fun p : EntryId * EntryRuntime W H C Ctx => MkEntryFault p.1 <$> runtime_fault p.2)
     (enumerate (runtimes s)),
   MkState (committed s)
     ((fun r => MkEntryRuntime (spec r) (context r) (live r) None) <$> runtimes s)).

(** Encodes the new document, outside the permit; [None] without a store. *)
Definition encode_committed (profile : Profile C) m w : result (option (Profile V)) KernelError * W :=
  match persist m with
  | None => (Ok None, w)
  | Some _ =>
      match value_profile profile w with
      | (Ok values, w) => (Ok (Some values), w)
      | (Err error, w) => (Err error, w)
      end
  end.

Definition save_encoded (encoded : option (Profile V)) m w :
    result unit KernelError * (option (Persistence V) * W) :=
  match persist m, encoded with
  | Some p, Some values =>
      let '(saved, (p, w)) := save_committed values p w in (saved, (Some p, w))
  | p, _ => (Ok (), (p, w))
  end.

(** What a reconcile decides before anything moves: its plan and encoding. *)
Definition prepare (profile : Profile C) m w : result (Plan * option (Profile V)) KernelError * W :=
  match refuse_amid_withdrawal "reconcile" (state m) w with
  | Err error => (Err error, w)
  | Ok _ =>
      let p := plan (applied (state m)) profile (attestation loader) in
      let p := quarantine_cycles p profile (state m) in
      match encode_committed profile m w with
      | (Err error, w) => (Err error, w)
      | (Ok encoded, w) => (Ok (p, encoded), w)
      end
  end.

(** [settle] is the loop that quiesces every fiber; it moves the world only. *)
Definition reconcile_engaged (settle : State W H C Ctx -> W -> W) (cancelled : option nat)
    (profile : Profile C) m w : result ReconcileReport KernelError * (Machine W H C Ctx V * W) :=
  match prepare profile m w with
  | (Err error, w) => (Err error, (m, w))
  | (Ok (p, encoded), w) =>
      match save_encoded encoded m w with
      | (Err error, (_, w)) => (Err error, (m, w))
      | (Ok _, (stored, w)) =>
          let '(drained, s) := drain_faults (MkState (Some profile) (runtimes (state m))) in
          let '(report, (s, w)) := apply loader p profile cancelled s w in
          let report :=
            MkReconcileReport (created report) (restarted report) (disposed report)
              (unchanged report) (errors report ++ drained) in
          (Ok report, (MkMachine s (gate m) stored, settle s w))
      end
  end.

(** The document engagement is taken first and released on every exit. *)
Definition reconcile_with (settle : State W H C Ctx -> W -> W) (in_teardown : bool)
    (cancelled : option nat) (profile : Profile C) m w :
    result ReconcileReport KernelError * (Machine W H C Ctx V * W) :=
  match refuse_teardown_context in_teardown "reconcile" with
  | Err error => (Err error, (m, w))
  | Ok _ =>
      match engage_document (gate m) with
      | None => (Err document_engaged, (m, w))
      | Some g =>
          let '(outcome, (m, w)) :=
            reconcile_engaged settle cancelled profile (MkMachine (state m) g (persist m)) w in
          (outcome, (MkMachine (state m) (release_document (gate m)) (persist m), w))
      end
  end.
End Reconciling.

(** [settle]: passes over every fiber until two agree. [yield_now] is what the
    other tasks do meanwhile. *)
Section Settling.
Context {W H C Ctx : Type} `{EntryHandle W H C Ctx} (yield_now : W -> W).
Implicit Types (s : State W H C Ctx) (w : W).

Definition settle_pass s w : list (FiberId * FiberState) * W :=
  let w := yield_now (yield_now (fold_left (fun w h => (quiesce h w).2) (live_handles s) w)) in
  (sort_by (fun a b : FiberId * FiberState => bool_decide (fiber_id a.1 <= fiber_id b.1)%Z)
     (map (fun h => (handle_id h, handle_state h w)) (live_handles s)), w).

Fixpoint settle_loop (fuel : nat) (previous : option (list (FiberId * FiberState))) s w : option W :=
  match fuel with
  | 0 => None
  | S fuel =>
      let '(snapshot, w) := settle_pass s w in
      if decide (previous = Some snapshot) then Some w else settle_loop fuel (Some snapshot) s w
  end.
End Settling.
