(* ===== verification/Reconcile.v ===== *)
(** * Reconciliation converges

    What one successful reconcile of [Loader.v] leaves: every entry of the
    document with its own spec and standing, in the context its ancestry
    derives, and nothing else; and what it may miss. *)

From stdpp Require Import base gmap sets list strings sorting.
From S2P Require Import Prelude Api Entries Diff Cycles Quarantine Document Loader.

(** ** Documents that look the same *)

Section SameTree.
Context {C : Type}.
Implicit Types (p : Profile C) (x : EntryId).

(** The lineages of a profile are those of its valid entries alone. *)
Lemma lineage_same p p' x es :
  (forall x, first p' x = get (index p) x) -> lineage p' x es <-> lineage p x es.
Proof.
  intros Hf. split.
  - induction 1 as [x e He Hp|x e q es He Hp Hl IH]; rewrite Hf in He;
      apply get_index in He as [He _]; [by apply lineage_root|by eapply lineage_child].
  - intros Hl. assert (forall e rest, es = e :: rest -> first p' x = Some e) as Hfirst.
    { intros e rest ->. rewrite Hf. apply get_index.
      destruct (lineage_first _ _ _ Hl) as (? & ? & [= <- <-] & ?). eauto. }
    induction Hl as [x e He Hp|x e q es He Hp Hl IH].
    + apply lineage_root; eauto.
    + eapply lineage_child; [eauto|done|]. apply IH. intros e' rest ->. rewrite Hf. apply get_index.
      destruct (lineage_first _ _ _ Hl) as (? & ? & [= <- <-] & ?). eauto.
Qed.

Lemma get_lineage p x e : get (index p) x = Some e -> exists es, lineage p x (e :: es).
Proof.
  intros [He [es Hl]]%get_index. destruct (lineage_first _ _ _ Hl) as (e' & rest & -> & ?).
  simplify_eq. eauto.
Qed.

(** Two charts that agree on every question a diff asks. *)
Definition same_tree (ix ix' : EntryIndex C) : Prop := forall x,
  get ix x = get ix' x /\
  (is_Some (get ix x) -> effectively_disabled ix x = effectively_disabled ix' x /\
    environment ix x = environment ix' x).

Lemma same_tree_first p p' :
  (forall x, first p' x = get (index p) x) -> same_tree (index p') (index p).
Proof.
  intros Hf x. assert (get (index p') x = get (index p) x) as Hg.
  { destruct (get (index p) x) as [e|] eqn:He.
    - apply get_index. split; [by rewrite Hf|]. destruct (get_lineage _ _ _ He) as [es Hl].
      exists (e :: es). by apply (lineage_same p).
    - destruct (get (index p') x) as [e|] eqn:He'; [|done].
      apply get_index in He' as [He' _]. congruence. }
  split; [done|]. rewrite Hg. intros [e He]. destruct (get_lineage _ _ _ He) as [es Hl].
  destruct (walks_lineage _ _ _ Hl) as [-> ->].
  apply (lineage_same p p' x _ Hf) in Hl. by destruct (walks_lineage _ _ _ Hl) as [-> ->].
Qed.

Lemma first_unique p x e :
  NoDup (map id (entries p)) -> first p x = Some e <-> e ∈ entries p /\ id e = x.
Proof.
  intros Hnd. split; [intros He; split; [by eapply first_elem|by eapply first_id]|].
  intros [Hin Hx]. unfold first, first_position.
  destruct (position _ (entries p)) as [i|] eqn:Hp.
  - apply position_Some in Hp as (e' & Hi & Heq%bool_decide_eq_true & _). simpl. rewrite Hi. f_equal.
    eapply NoDup_map_inj; [done|by eapply list_elem_of_lookup_2|done|congruence].
  - apply position_None in Hp. rewrite Forall_forall in Hp. specialize (Hp _ Hin).
    by apply bool_decide_eq_false in Hp.
Qed.

(** The environment of an entry extends its parent's. *)
Lemma environment_step p x e :
  get (index p) x = Some e ->
  environment (index p) x =
    match parent e with Some q => environment (index p) q | None => [] end ++ [(x, isolation e)].
Proof.
  intros Hg. pose proof Hg as [He _]%get_index. destruct (get_lineage _ _ _ Hg) as [es Hl].
  pose proof (first_id _ _ _ He) as Hx. destruct (walks_lineage _ _ _ Hl) as [_ ->]. simpl.
  rewrite reverse_cons, Hx. f_equal. inversion Hl as [? ? _ Hp|? ? q ? _ Hp Hq]; subst; rewrite Hp; [done|].
  by destruct (walks_lineage _ _ _ Hq) as [_ ->].
Qed.

Lemma disabled_step p x e :
  get (index p) x = Some e ->
  effectively_disabled (index p) x =
    disabled e || match parent e with Some q => effectively_disabled (index p) q | None => false end.
Proof.
  intros Hg. destruct (get_lineage _ _ _ Hg) as [es Hl].
  destruct (walks_lineage _ _ _ Hl) as [-> _]. simpl. f_equal.
  inversion Hl as [? ? _ Hp|? ? q ? _ Hp Hq]; subst; rewrite Hp; [done|].
  by destruct (walks_lineage _ _ _ Hq) as [-> _].
Qed.

Lemma get_parent p x e q : get (index p) x = Some e -> parent e = Some q -> is_Some (get (index p) q).
Proof.
  intros Hg Hp. pose proof Hg as [Hx _]%get_index. apply first_id in Hx. subst x.
  by apply (depth_parent p e q); [apply valid_entries_get|].
Qed.

(** An environment determines the parent and the isolation. *)
Lemma environment_inj p p' x e e' :
  get (index p) x = Some e -> get (index p') x = Some e' ->
  environment (index p) x = environment (index p') x ->
  isolation e = isolation e' /\ parent e = parent e' /\
  forall q, parent e = Some q -> environment (index p) q = environment (index p') q.
Proof.
  intros Hg Hg'. rewrite (environment_step _ _ _ Hg), (environment_step _ _ _ Hg').
  intros [Henv Hiso]%app_inj_tail. injection Hiso as Hiso. split; [done|].
  assert (forall (pr : Profile C) y ye, get (index pr) y = Some ye -> forall q, parent ye = Some q ->
    exists pre iso, environment (index pr) q = pre ++ [(q, iso)]) as Hlast.
  { intros pr y ye Hy q Hq. destruct (get_parent _ _ _ _ Hy Hq) as [qe Hqe].
    rewrite (environment_step _ _ _ Hqe). eauto. }
  destruct (parent e) as [q|] eqn:Hp, (parent e') as [q'|] eqn:Hp'.
  - destruct (Hlast _ _ _ Hg _ Hp) as (pre & iso & H1), (Hlast _ _ _ Hg' _ Hp') as (pre' & iso' & H2).
    assert (q = q') as ->. { rewrite H1, H2 in Henv. by apply app_inj_tail in Henv as [_ [= -> _]]. }
    split; [done|]. by intros ? [= <-].
  - destruct (Hlast _ _ _ Hg _ Hp) as (pre & iso & H1). rewrite H1 in Henv.
    by destruct pre.
  - destruct (Hlast _ _ _ Hg' _ Hp') as (pre & iso & H1). rewrite H1 in Henv.
    by destruct pre.
  - by split.
Qed.

(** A profile that lists exactly the valid entries of another charts alike. *)
Lemma same_tree_valid p p' :
  NoDup (map id (entries p')) -> (forall e, e ∈ entries p' <-> get (index p) (id e) = Some e) ->
  same_tree (index p') (index p).
Proof.
  intros Hnd Hin. apply same_tree_first. intros x. destruct (get (index p) x) as [e|] eqn:Hg.
  - pose proof Hg as [Hx _]%get_index. apply first_id in Hx. subst x.
    apply first_unique; [done|]. by rewrite Hin.
  - destruct (first p' x) as [e|] eqn:He; [|done]. apply first_unique in He as [He <-]; [|done].
    apply Hin in He. congruence.
Qed.
End SameTree.

(** ** What a reconciled loader looks like *)

Section Synced.
Context {W H C Ctx : Type} `{Contexts Ctx, EntryHandle W H C Ctx}.
Context (loader : Loader W H C Ctx).
Implicit Types (s : State W H C Ctx) (w : W) (x : EntryId) (p : Profile C).

(** The context an entry's ancestry derives under the root. *)
Definition context_in p x : Ctx :=
  fold_left (fun c b => derive_bind c b.2) (environment (index p) x) (root loader).

(** Everything of a runtime but its handle. *)
Definition seen (r : EntryRuntime W H C Ctx) :
    ProfileEntry C * option Ctx * option (PackageLane W H C Ctx * Watch Ctx) * option KernelError :=
  (spec r, context r, (fun l => (lane l, proxy l)) <$> live r, runtime_fault r).

Definition watched (l : PackageLane W H C Ctx) (c : Ctx) : PackageLane W H C Ctx * Watch Ctx :=
  (l, MkWatch c (lane_injects l)).

(** The runtime a document asks for an entry. *)
Definition ideal p x : option (ProfileEntry C * option Ctx *
    option (PackageLane W H C Ctx * Watch Ctx) * option KernelError) :=
  e ← get (index p) x;
  Some (if effectively_disabled (index p) x then (e, None, None, None)
        else
          (e, Some (context_in p x),
           if decide (package (plugin e) = GROUP_PACKAGE) then None
           else (fun l => watched l (context_in p x)) <$> lanes loader !! package (plugin e),
           None)).

Definition staffed p x : Prop := forall e,
  get (index p) x = Some e -> effectively_disabled (index p) x = false ->
  package (plugin e) <> GROUP_PACKAGE -> is_Some (lanes loader !! package (plugin e)).

(** An entry is as its document asks, with a lane to run on where it needs one. *)
Definition in_place p x s : Prop := seen <$> runtimes s !! x = ideal p x /\ staffed p x.

Definition synced s p : Prop := forall x, in_place p x s.

Lemma context_in_step p x e :
  get (index p) x = Some e ->
  context_in p x =
    derive_bind (match parent e with Some q => context_in p q | None => root loader end) (isolation e).
Proof.
  intros Hg. unfold context_in. rewrite (environment_step _ _ _ Hg), fold_left_app. simpl.
  by destruct (parent e).
Qed.

Lemma context_in_environment p p' x :
  environment (index p) x = environment (index p') x -> context_in p x = context_in p' x.
Proof. unfold context_in. by intros ->. Qed.
End Synced.

(** ** What one step leaves *)

Section StepLaws.
Context {W H C Ctx : Type} `{Contexts Ctx, EntryHandle W H C Ctx}.
Context (loader : Loader W H C Ctx) (new : Profile C).
Implicit Types (s : State W H C Ctx) (w : W) (x y : EntryId) (e : ProfileEntry C).

Abbreviation ix := (index new).

Lemma set_runtime_ne x y (r : EntryRuntime W H C Ctx) s :
  y <> x -> runtimes (set_runtime x r s) !! y = runtimes s !! y.
Proof. intros Hne. simpl. by rewrite lookup_insert_ne by done. Qed.

Lemma dispose_others x b s w o s' w' y :
  dispose_step x ix b s w = (o, (s', w')) -> y <> x -> runtimes s' !! y = runtimes s !! y.
Proof.
  unfold dispose_step. intros Hr Hne.
  repeat case_match; simplify_eq; simpl; by rewrite ?lookup_insert_ne, ?lookup_delete_ne by done.
Qed.

Lemma spawn_others x s w o s' w' y :
  spawn_step loader x ix s w = (o, (s', w')) -> y <> x -> runtimes s' !! y = runtimes s !! y.
Proof.
  unfold spawn_step. intros Hr Hne.
  repeat case_match; simplify_eq; simpl; by rewrite ?lookup_insert_ne by done.
Qed.

(** A step moves the runtime of its own entry only. *)
Lemma run_step_others st s w o s' w' y :
  run_step loader ix st s w = (o, (s', w')) -> y <> step_entry st ->
  runtimes s' !! y = runtimes s !! y.
Proof.
  intros Hr Hne. unfold run_step in Hr.
  destruct (step_kind st); eauto using dispose_others, spawn_others;
    unfold track_step, replace_step, restate_step, rebind_step in Hr;
    repeat case_match; simplify_eq; simpl; rewrite ?lookup_insert_ne by done;
    eauto using dispose_others.
  all: etransitivity; [by eapply spawn_others|by eapply dispose_others].
Qed.

(** Every parent of [x] with a context has the one its new ancestry derives. *)
Definition parent_right x s : Prop := forall e q r c,
  get ix x = Some e -> parent e = Some q -> runtimes s !! q = Some r -> context r = Some c ->
  c = context_in loader new q.

Lemma derive_right x e s w c w' :
  get ix x = Some e -> parent_right x s -> derive_context loader e s w = (Ok c, w') ->
  c = context_in loader new x.
Proof.
  intros Hg Hp Hd. rewrite (context_in_step _ _ _ _ Hg). unfold derive_context in Hd.
  destruct (parent e) as [q|] eqn:Hq; simpl in Hd; [|by simplify_eq].
  destruct (runtimes s !! q) as [r|] eqn:Hr; simpl in Hd; [|done].
  destruct (context r) as [cq|] eqn:Hc; [|done]. simplify_eq. by rewrite (Hp e q r cq).
Qed.

Lemma spawn_in_place x s w b s' w' :
  spawn_step loader x ix s w = (Ok b, (s', w')) -> effectively_disabled ix x = false ->
  parent_right x s -> in_place loader new x s'.
Proof.
  intros Hs Hd Hp. unfold spawn_step in Hs. destruct (get ix x) as [e|] eqn:Hg; [|done].
  destruct (derive_context loader e s w) as [[c|] w1] eqn:Hc; [|done].
  apply (derive_right _ _ _ _ _ _ Hg Hp) in Hc as ->.
  unfold in_place, ideal, staffed. rewrite Hg, Hd. simpl. split.
  - repeat case_match; simplify_eq; simpl; rewrite lookup_insert, decide_True by done; done.
  - intros ? [= <-] _ Hne. repeat case_match; simplify_eq; eauto.
Qed.

Lemma remove_in_place x s w b s' w' :
  dispose_step x ix true s w = (Ok b, (s', w')) -> get ix x = None -> in_place loader new x s'.
Proof.
  intros Hs Hg. unfold dispose_step in Hs. rewrite Hg, bool_decide_true in Hs by done. simpl in Hs.
  unfold in_place, ideal, staffed. rewrite Hg. simpl. split; [|done].
  repeat case_match; simplify_eq; simpl; by rewrite lookup_delete, decide_True.
Qed.

Lemma disable_in_place p x s w b s' w' :
  dispose_step x ix false s w = (Ok b, (s', w')) -> is_Some (get ix x) ->
  effectively_disabled ix x = true -> in_place loader p x s -> in_place loader new x s'.
Proof.
  intros Hs [e Hg] Hd [Hi _]. unfold dispose_step in Hs. rewrite Hg in Hs. simpl in Hs.
  unfold in_place, staffed. split; [|congruence]. unfold ideal. rewrite Hg, Hd. simpl.
  unfold ideal in Hi. destruct (runtimes s !! x) as [r|] eqn:Hr; [|done].
  assert (runtime_fault r = None) as Hf.
  { destruct (get (index p) x); [|done]. simpl in Hi. unfold seen in Hi.
    destruct (effectively_disabled (index p) x); by simplify_eq. }
  repeat case_match; simplify_eq; simpl; rewrite lookup_insert, decide_True by done; simpl;
    unfold seen; simpl; by rewrite Hf.
Qed.

Lemma track_in_place x s w b s' w' :
  track_step x ix s w = (Ok b, (s', w')) -> effectively_disabled ix x = true ->
  in_place loader new x s'.
Proof.
  unfold track_step. intros Hs Hd. destruct (get ix x) as [e|] eqn:Hg; [|done]. simplify_eq.
  unfold in_place, ideal, staffed. rewrite Hg, Hd. simpl. rewrite lookup_insert, decide_True by done. by split.
Qed.

(** An enabled entry in place, read back from its runtime. *)
Lemma in_place_enabled p x s e r :
  in_place loader p x s -> get (index p) x = Some e -> effectively_disabled (index p) x = false ->
  runtimes s !! x = Some r ->
  context r = Some (context_in loader p x) /\ runtime_fault r = None /\
  (fun l => (lane l, proxy l)) <$> live r =
    (if decide (package (plugin e) = GROUP_PACKAGE) then None
     else (fun l => watched l (context_in loader p x)) <$> lanes loader !! package (plugin e)).
Proof.
  intros [Hi _] Hg Hd Hr. unfold ideal in Hi. rewrite Hr, Hg, Hd in Hi. simpl in Hi.
  unfold seen in Hi. by simplify_eq.
Qed.

Lemma staffed_plugin p x e e' :
  staffed loader p x -> get (index p) x = Some e -> effectively_disabled (index p) x = false ->
  get ix x = Some e' -> plugin e = plugin e' -> staffed loader new x.
Proof. intros Hs Hg Hd Hg' Heq ? He _ Hne. simplify_eq. rewrite <-Heq in *. by apply (Hs e). Qed.

Lemma restate_in_place p x e e' s w b s' w' :
  restate_step x ix s w = (Ok b, (s', w')) -> in_place loader p x s ->
  get (index p) x = Some e -> effectively_disabled (index p) x = false ->
  get ix x = Some e' -> effectively_disabled ix x = false -> plugin e = plugin e' ->
  context_in loader p x = context_in loader new x -> in_place loader new x s'.
Proof.
  intros Hs Hi Hg Hd Hg' Hd' Hp Hc. split; [|eapply staffed_plugin; [apply Hi|done..]].
  unfold restate_step in Hs. rewrite Hg' in Hs. destruct (runtimes s !! x) as [r|] eqn:Hr; [|done].
  destruct (in_place_enabled _ _ _ _ _ Hi Hg Hd Hr) as (Hctx & Hf & Hl).
  unfold ideal. rewrite Hg', Hd'. simpl. rewrite Hp, Hc in Hl. rewrite Hc in Hctx.
  assert (runtimes s' = <[x := MkEntryRuntime e' (context r) (live r) (runtime_fault r)]> (runtimes s)) as ->
    by (clear Hl; repeat case_match; by simplify_eq).
  rewrite lookup_insert, decide_True by done. unfold seen. simpl. by rewrite Hf, Hctx, Hl.
Qed.

Lemma rebind_in_place p x e e' s w b s' w' :
  rebind_step loader x ix s w = (Ok b, (s', w')) -> in_place loader p x s ->
  get (index p) x = Some e -> effectively_disabled (index p) x = false ->
  get ix x = Some e' -> effectively_disabled ix x = false -> plugin e = plugin e' ->
  parent_right x s -> in_place loader new x s'.
Proof.
  intros Hs Hi Hg Hd Hg' Hd' Hp Hpar. split; [|eapply staffed_plugin; [apply Hi|done..]].
  unfold rebind_step in Hs. rewrite Hg' in Hs. destruct (runtimes s !! x) as [r|] eqn:Hr; [|done].
  destruct (derive_context loader e' s w) as [[c|] w1] eqn:Hc; [|done].
  apply (derive_right _ _ _ _ _ _ Hg' Hpar) in Hc as ->.
  destruct (in_place_enabled _ _ _ _ _ Hi Hg Hd Hr) as (Hctx & Hf & Hl).
  unfold ideal. rewrite Hg', Hd'. simpl. rewrite Hp in Hl.
  assert (runtimes s' = <[x := MkEntryRuntime e' (Some (context_in loader new x))
    ((fun l => MkLive (lane l) (handle l) (MkWatch (context_in loader new x) (lane_injects (lane l))))
       <$> live r) (runtime_fault r)]> (runtimes s)) as ->.
  { destruct (live r); simpl in Hs; repeat case_match; by simplify_eq. }
  rewrite lookup_insert, decide_True by done. unfold seen. simpl. rewrite Hf. do 2 f_equal.
  destruct (decide (package (plugin e') = GROUP_PACKAGE)), (live r) as [l|],
    (lanes loader !! package (plugin e')) as [l'|]; simpl in *; unfold watched in *; by simplify_eq.
Qed.

Lemma replace_in_place x s w b s' w' :
  replace_step loader x ix s w = (Ok b, (s', w')) -> effectively_disabled ix x = false ->
  parent_right x s -> in_place loader new x s'.
Proof.
  intros Hs Hd Hp. unfold replace_step in Hs.
  destruct (dispose_step x ix true s w) as [[o|] [s1 w1]] eqn:Hdis; [|done].
  destruct (spawn_step loader x ix s1 w1) as [[o'|] [s2 w2]] eqn:Hsp; [|done]. simplify_eq.
  eapply spawn_in_place; [done..|]. intros e q r c Hg Hq. rewrite (dispose_others _ _ _ _ _ _ _ _ Hdis);
    [by eapply Hp|]. intros ->. pose proof Hg as [Hx _]%get_index. apply first_id in Hx. subst x.
  apply valid_entries_get in Hg. apply (depth_parent _ _ _ Hg) in Hq as [_ Hq]. lia.
Qed.
End StepLaws.

(** ** A whole plan *)

Section PlanLaws.
Context {W H C Ctx : Type} `{Contexts Ctx, EntryHandle W H C Ctx}.
Context (loader : Loader W H C Ctx) (old new : Profile C) (eq : C -> C -> bool).
Implicit Types (s : State W H C Ctx) (w : W) (x : EntryId) (e : ProfileEntry C).

Definition owed x : list StepKind :=
  verdict (Some (index old)) (index new) (map id (entries new)) (Some eq) x.

Definition kinds x (ss : list Step) : list StepKind :=
  map step_kind (filter (fun st => step_entry st = x) ss).

(** What a move between two documents must not ask for: a change of an entry
    that stays disabled, or of the environment of an entry that is replaced. *)
Definition gentle : Prop := forall x e e',
  get (index old) x = Some e -> get (index new) x = Some e' ->
  (effectively_disabled (index old) x = true -> effectively_disabled (index new) x = true -> e = e') /\
  (effectively_disabled (index old) x = false -> effectively_disabled (index new) x = false ->
     plugin e <> plugin e' -> environment (index old) x = environment (index new) x).

Context (eq_spec : forall a b, eq a b = true <-> a = b).
Context (Hgentle : gentle) (Hfaults : faults (index new) = []).

Lemma eq_changed a b : changed (Some eq) a b = false <-> a = b.
Proof. simpl. rewrite negb_false_iff. apply eq_spec. Qed.

Lemma listed_valid x : x ∈ map id (entries new) -> is_Some (get (index new) x).
Proof.
  destruct (index_charted new) as [Hc _]. pose proof (ch_accounted _ _ Hc) as Hperm.
  rewrite Hfaults in Hperm. simpl in Hperm. rewrite app_nil_r in Hperm. rewrite Hperm.
  intros (e & -> & He)%list_elem_of_fmap. apply valid_entries_get in He. eauto.
Qed.

Lemma unchanged_in_place x s : owed x = [] -> in_place loader old x s -> in_place loader new x s.
Proof.
  unfold owed, verdict. intros Hv [Hi Hs]. destruct (get (index new) x) as [e'|] eqn:Hg'.
  - unfold verdict_of in Hv. pose proof Hg' as [Hx _]%get_index. apply first_id in Hx. subst x.
    destruct (get (index old) (id e')) as [e|] eqn:Hg; [|done].
    destruct (Hgentle _ _ _ Hg Hg') as [Hdis _].
    destruct (effectively_disabled (index old) (id e')) eqn:Hd,
      (effectively_disabled (index new) (id e')) eqn:Hd'; simpl in Hv; try done.
    + unfold in_place, ideal, staffed in *. rewrite Hg, Hd in Hi. rewrite Hg', Hd'.
      rewrite Hdis in Hi by done. by split.
    + destruct (decide _) as [|Hp]; [done|]. apply dec_stable in Hp.
      destruct (decide _) as [He|]; [|done]. simpl in Hv. destruct (negb _) eqn:Hc; [done|].
      apply eq_changed in Hc. destruct (environment_inj _ _ _ _ _ Hg Hg' He) as (Hiso & Hpar & _).
      pose proof Hg as [Hid _]%get_index. apply first_id in Hid.
      rewrite (disabled_step _ _ _ Hg) in Hd. rewrite (disabled_step _ _ _ Hg') in Hd'.
      apply orb_false_iff in Hd as [Hd Hdq], Hd' as [Hd' Hdq'].
      assert (e = e') as -> by (destruct e, e'; simpl in *; congruence).
      unfold in_place, ideal, staffed in *.
      rewrite Hg, (disabled_step _ _ _ Hg), Hd, Hdq in *.
      rewrite Hg', (disabled_step _ _ _ Hg'), Hd, Hdq' in *.
      by rewrite <-(context_in_environment loader _ _ _ He).
  - unfold in_place, ideal, staffed in *. rewrite Hg'. split; [|done].
    destruct (get (index old) x) as [e|] eqn:Hg; [|by rewrite Hi].
    destruct (decide _) as [|Hn]; [done|]. exfalso. apply Hn. split; [done|].
    intros Hin. apply listed_valid in Hin as [? ?]. congruence.
Qed.

(** Where the plan stands: an entry is as the old document asks until its first
    step, and as the new one asks from then on. *)
Definition halfway (ss : list Step) s : Prop := forall x, exists fulfilled,
  owed x = fulfilled ++ kinds x ss /\
  (fulfilled = [] /\ in_place loader old x s \/ fulfilled <> [] /\ in_place loader new x s).

Lemma kinds_cons_ne x y k ss : x <> y -> kinds y (MkStep x k :: ss) = kinds y ss.
Proof. intros Hne. unfold kinds. rewrite filter_cons. simpl. by rewrite decide_False. Qed.

Lemma kinds_cons x k ss : kinds x (MkStep x k :: ss) = k :: kinds x ss.
Proof. unfold kinds. rewrite filter_cons. simpl. by rewrite decide_True. Qed.

Lemma kinds_elem x k ss : k ∈ kinds x ss -> MkStep x k ∈ ss.
Proof.
  intros ([y k'] & -> & [Hy Hin]%list_elem_of_filter)%list_elem_of_fmap. simpl in *. by subst y.
Qed.

(** When a step derives a context, whatever context the parent has is right. *)
Lemma parents_right applied_doc x k ss s :
  halfway (MkStep x k :: ss) s ->
  StronglySorted (precedes applied_doc new) (MkStep x k :: ss) -> 1 <= phase k ->
  effectively_disabled (index new) x = false -> parent_right loader new x s.
Proof.
  intros Hh Hsort Hk Hd e q r c Hg Hq Hr Hc.
  pose proof (disabled_step _ _ _ Hg) as Hdq. rewrite Hd, Hq in Hdq.
  symmetry in Hdq. apply orb_false_iff in Hdq as [_ Hdq].
  destruct (get_parent _ _ _ _ Hg Hq) as [qe Hqe].
  assert (depth (index new) x = S (depth (index new) q)) as Hdepth.
  { pose proof Hg as [Hx _]%get_index. apply first_id in Hx. subst x.
    by eapply depth_parent; [apply valid_entries_get|]. }
  assert (x <> q) as Hne by (intros ->; lia).
  destruct (Hh q) as (fulfilled & Ho & Hcase). rewrite kinds_cons_ne in Ho by done.
  destruct Hcase as [[-> Hi]|[_ Hi]].
  - assert (get (index old) q <> None) as Hold.
    { intros Hn. destruct Hi as [Hi _]. unfold ideal in Hi. by rewrite Hr, Hn in Hi. }
    destruct (get (index old) q) as [qo|] eqn:Hqo; [|done].
    destruct (effectively_disabled (index old) q) eqn:Hdo.
    { destruct Hi as [Hi _]. unfold ideal in Hi. rewrite Hr, Hqo, Hdo in Hi. simpl in Hi.
      unfold seen in Hi. by simplify_eq. }
    destruct (in_place_enabled _ _ _ _ _ _ Hi Hqo Hdo Hr) as (Hctx & _).
    assert (environment (index old) q = environment (index new) q) as Henv.
    { destruct (decide (plugin qo = plugin qe)) as [Hp|Hp]; [|by apply (Hgentle _ _ _ Hqo Hqe)].
      destruct (decide (environment (index old) q = environment (index new) q)) as [|Henv]; [done|].
      exfalso. pose proof Hqe as [Hid _]%get_index. apply first_id in Hid.
      unfold owed, verdict in Ho. rewrite Hqe in Ho. unfold verdict_of in Ho.
      rewrite Hid, Hqo, Hdo, Hdq in Ho. simpl in Ho.
      rewrite (decide_False (P := plugin qo <> plugin qe)) in Ho by tauto.
      rewrite decide_False in Ho by done. simpl in Ho.
      assert (MkStep q Rebind ∈ ss) as Hin by (apply kinds_elem; rewrite <-Ho; by left).
      apply StronglySorted_inv in Hsort as [_ Hall]. rewrite Forall_forall in Hall.
      destruct (Hall _ Hin) as [Hlt|[Heq Hle]]; simpl in *; [lia|].
      rewrite Heq in Hle. unfold step_depth in Hle. simpl in Hle. destruct k; simpl in *; lia. }
    rewrite Hc in Hctx. injection Hctx as ->. by apply context_in_environment.
  - destruct (in_place_enabled _ _ _ _ _ _ Hi Hqe Hdq Hr) as (Hctx & _). congruence.
Qed.

(** The step an entry is owed first puts it in place. *)
Lemma first_step applied_doc x k ss s w b s' w' :
  owed x = k :: kinds x ss -> halfway (MkStep x k :: ss) s ->
  StronglySorted (precedes applied_doc new) (MkStep x k :: ss) -> in_place loader old x s ->
  run_step loader (index new) (MkStep x k) s w = (Ok b, (s', w')) -> in_place loader new x s'.
Proof.
  intros Ho Hh Hsort Hi Hr. pose proof (parents_right _ _ _ _ _ Hh Hsort) as Hpar.
  unfold owed, verdict, verdict_of in Ho. unfold run_step in Hr. simpl in Hr.
  destruct (get (index new) x) as [e'|] eqn:Hg'.
  - pose proof Hg' as [Hid _]%get_index. apply first_id in Hid. rewrite Hid in Ho.
    destruct (get (index old) x) as [e|] eqn:Hg.
    + destruct (effectively_disabled (index old) x) eqn:Hd,
        (effectively_disabled (index new) x) eqn:Hd'; simpl in Ho; try done.
      * injection Ho as <- _. eapply spawn_in_place; [done..|]. apply Hpar; [simpl; lia|done].
      * injection Ho as <- _. by eapply disable_in_place.
      * destruct (decide _) as [|Hp].
        { injection Ho as <- _. eapply replace_in_place; [done..|]. apply Hpar; [simpl; lia|done]. }
        apply dec_stable in Hp. destruct (decide _) as [He|He]; simpl in Ho.
        { destruct (negb _); [|done]. injection Ho as <- _. eapply restate_in_place; try done.
          by apply context_in_environment. }
        injection Ho as <- _. eapply rebind_in_place; try done. apply Hpar; [simpl; lia|done].
    + injection Ho as <- _. destruct (effectively_disabled (index new) x) eqn:Hd'; simpl in Hr.
      * by eapply track_in_place.
      * eapply spawn_in_place; [done..|]. apply Hpar; [simpl; lia|done].
  - destruct (decide _); [|done]. injection Ho as <- _. by eapply remove_in_place.
Qed.

(** The only step that follows another of its entry is a restatement. *)
Lemma later_step x k rest fulfilled s w b s' w' :
  owed x = fulfilled ++ k :: rest -> fulfilled <> [] -> in_place loader new x s ->
  run_step loader (index new) (MkStep x k) s w = (Ok b, (s', w')) -> in_place loader new x s'.
Proof.
  intros Ho Hne Hi Hr. destruct fulfilled as [|k0 fulfilled]; [done|].
  assert (forall k1, [k1] = (k0 :: fulfilled) ++ k :: rest -> False) as Hone.
  { intros k1 Heq. apply (f_equal length) in Heq. rewrite length_app in Heq. simpl in Heq. lia. }
  unfold owed, verdict, verdict_of in Ho. destruct (get (index new) x) as [e'|] eqn:Hg'.
  - pose proof Hg' as [Hid _]%get_index. apply first_id in Hid. rewrite Hid in Ho.
    destruct (get (index old) x) as [e|] eqn:Hg; [|by destruct (Hone _ Ho)].
    destruct (effectively_disabled (index old) x) eqn:Hd,
      (effectively_disabled (index new) x) eqn:Hd'; simpl in Ho; try done; try by destruct (Hone _ Ho).
    destruct (decide _) as [|Hp]; [by destruct (Hone _ Ho)|].
    destruct (decide _) as [He|He], (negb _); simpl in Ho; try done; try by destruct (Hone _ Ho).
    destruct fulfilled as [|? [|]]; simplify_eq.
    simpl in *. simplify_eq. by apply (restate_in_place loader new new _ e' e' s w b s' w').
  - destruct (decide _); [by destruct (Hone _ Ho)|done].
Qed.

Lemma halfway_step applied_doc st ss s w b s' w' :
  halfway (st :: ss) s -> StronglySorted (precedes applied_doc new) (st :: ss) ->
  run_step loader (index new) st s w = (Ok b, (s', w')) -> halfway ss s'.
Proof.
  intros Hh Hsort Hr y. destruct st as [x k]. destruct (decide (x = y)) as [->|Hne].
  - destruct (Hh y) as (fulfilled & Ho & Hcase). rewrite kinds_cons in Ho.
    exists (fulfilled ++ [k]). split; [by rewrite <-app_assoc|right].
    split; [by destruct fulfilled|]. destruct Hcase as [[-> Hi]|[Hne Hi]].
    + by eapply first_step.
    + by eapply later_step.
  - destruct (Hh y) as (fulfilled & Ho & Hcase). rewrite kinds_cons_ne in Ho by done.
    exists fulfilled. split; [done|]. unfold in_place in *.
    by rewrite (run_step_others loader new _ _ _ _ _ _ y Hr) by (simpl; congruence).
Qed.

Lemma errors_grow x o r : exists more, errors (file_outcome x o r) = errors r ++ more.
Proof. destruct r as [c r d u e], o as [[]|]; simpl; eauto using app_nil_r; by exists []; rewrite app_nil_r. Qed.

Lemma loop_errors_grow c ss r s w r' sw :
  apply_loop loader (index new) c ss r s w = (r', sw) -> exists more, errors r' = errors r ++ more.
Proof.
  revert c r s w. induction ss as [|st ss IH]; intros c r s w Hl; simpl in Hl.
  - simplify_eq. exists []. by rewrite app_nil_r.
  - destruct c as [[|c]|].
    + simplify_eq. exists []. by rewrite app_nil_r.
    + destruct (run_step _ _ _ _ _) as [o [s1 w1]]. apply IH in Hl as [more ->].
      destruct (errors_grow (step_entry st) o r) as [more' ->]. exists (more' ++ more). by rewrite app_assoc.
    + destruct (run_step _ _ _ _ _) as [o [s1 w1]]. apply IH in Hl as [more ->].
      destruct (errors_grow (step_entry st) o r) as [more' ->]. exists (more' ++ more). by rewrite app_assoc.
Qed.

Lemma run_step_committed st s w o s' w' :
  run_step loader (index new) st s w = (o, (s', w')) -> committed s' = committed s.
Proof.
  unfold run_step, replace_step, track_step, rebind_step, restate_step, spawn_step, dispose_step.
  intros Hr. repeat case_match; simplify_eq; done.
Qed.

(** A plan applied without an error leaves every entry in place. *)
Lemma loop_in_place applied_doc ss r s w r' s' w' :
  apply_loop loader (index new) None ss r s w = (r', (s', w')) -> errors r' = [] ->
  StronglySorted (precedes applied_doc new) ss -> halfway ss s ->
  synced loader s' new /\ committed s' = committed s.
Proof.
  revert r s w. induction ss as [|st ss IH]; intros r s w Hl Herr Hsort Hh; simpl in Hl.
  - simplify_eq. split; [|done]. intros x. destruct (Hh x) as (fulfilled & Ho & [[-> Hi]|[_ Hi]]); [|done].
    by apply unchanged_in_place.
  - destruct (run_step _ _ _ _ _) as [[b|error] [s1 w1]] eqn:Hr.
    + pose proof (StronglySorted_inv Hsort) as [Hsort' _].
      destruct (IH _ _ _ Hl Herr Hsort') as [Hs Hc]; [by eapply halfway_step|]. split; [done|].
      by rewrite Hc, (run_step_committed _ _ _ _ _ _ Hr).
    + apply loop_errors_grow in Hl as [more Hmore]. rewrite Herr in Hmore. destruct r.
      by destruct errors.
Qed.
End PlanLaws.

(** ** The document a loader has applied *)

Section Applied.
Context {W H C Ctx : Type} `{Contexts Ctx, EntryHandle W H C Ctx}.
Context (loader : Loader W H C Ctx).
Context (enumerate : gmap EntryId (EntryRuntime W H C Ctx) -> list (EntryId * EntryRuntime W H C Ctx)).
Context (enumerate_all : forall m, enumerate m ≡ₚ map_to_list m).
Implicit Types (s : State W H C Ctx) (x : EntryId) (p : Profile C).

(** The document [ad], absent or not, charts like [p]. *)
Definition charts_like (ad : option (Profile C)) p : Prop :=
  match ad with
  | None => forall x, get (index p) x = None
  | Some q => same_tree (index q) (index p)
  end.

Lemma synced_lookup s p x r :
  synced loader s p -> runtimes s !! x = Some r -> get (index p) x = Some (spec r).
Proof.
  intros Hs Hr. destruct (Hs x) as [Hi _]. unfold ideal in Hi. rewrite Hr in Hi.
  destruct (get (index p) x) as [e|]; [|done]. simpl in Hi. unfold seen in Hi.
  by destruct (effectively_disabled (index p) x); simplify_eq.
Qed.

Lemma synced_live s p x e : synced loader s p -> get (index p) x = Some e -> is_Some (runtimes s !! x).
Proof.
  intros Hs Hg. destruct (Hs x) as [Hi _]. unfold ideal in Hi. rewrite Hg in Hi.
  by destruct (runtimes s !! x); [|done].
Qed.

Lemma applied_like s p : synced loader s p -> charts_like (applied enumerate s) p.
Proof.
  intros Hs. unfold applied. destruct (decide (runtimes s = ∅)) as [He|_].
  - intros x. destruct (get (index p) x) as [e|] eqn:Hg; [|done].
    apply (synced_live _ _ _ _ Hs) in Hg as [r Hr]. by rewrite He, lookup_empty in Hr.
  - assert (forall e, e ∈ map (fun p : EntryId * EntryRuntime W H C Ctx => spec p.2)
      (enumerate (runtimes s)) <-> get (index p) (id e) = Some e) as Hin.
    { intros e. rewrite enumerate_all. split.
      - intros ([x r] & -> & Hr%elem_of_map_to_list)%list_elem_of_fmap. simpl.
        apply (synced_lookup _ _ _ _ Hs) in Hr. pose proof Hr as [Hx _]%get_index.
        apply first_id in Hx. by rewrite Hx.
      - intros Hg. destruct (synced_live _ _ _ _ Hs Hg) as [r Hr].
        apply list_elem_of_fmap. exists (id e, r). rewrite elem_of_map_to_list. split; [|done].
        apply (synced_lookup _ _ _ _ Hs) in Hr. simpl. congruence. }
    apply same_tree_valid; [simpl|done]. rewrite map_map, enumerate_all.
    replace (map (fun p : EntryId * EntryRuntime W H C Ctx => id (spec p.2)) (map_to_list (runtimes s)))
      with (map fst (map_to_list (runtimes s))); [apply NoDup_fst_map_to_list|].
    apply map_ext_in. intros [x r] Hr%list_elem_of_In%elem_of_map_to_list. simpl.
    apply (synced_lookup _ _ _ _ Hs) in Hr. apply get_index in Hr as [Hr _]. by apply first_id in Hr.
Qed.

Lemma verdict_like ad p new listed eq x :
  charts_like ad p ->
  verdict (index <$> ad) (index new) listed (Some eq) x =
    verdict (Some (index p)) (index new) listed (Some eq) x.
Proof.
  unfold verdict. intros Hl. destruct ad as [q|]; simpl in *.
  - destruct (get (index new) x) as [e|] eqn:Hg.
    + pose proof Hg as [Hx _]%get_index. apply first_id in Hx. subst x. unfold verdict_of.
      destruct (Hl (id e)) as [Hge Hrest]. rewrite Hge in *.
      destruct (get (index p) (id e)) as [prev|]; [|done].
      by destruct Hrest as [-> ->].
    + by destruct (Hl x) as [-> _].
  - destruct (get (index new) x) as [e|] eqn:Hg.
    + unfold verdict_of. pose proof Hg as [Hx _]%get_index. apply first_id in Hx.
      by rewrite Hl.
    + rewrite Hl. rewrite decide_False; [done|]. by intros [[? [=]] _].
Qed.

(** Nothing is owed to a document that is the one applied. *)
Lemma nothing_owed ad p eq :
  (forall a, eq a a = true) -> charts_like ad p -> steps (plan ad p (Some eq)) = [].
Proof.
  intros Heq Hl. assert (forall x, steps_for x (plan ad p (Some eq)) = []) as Hnone.
  { intros x. destruct (plan_verdicts ad p (Some eq) x) as [-> _]. rewrite (verdict_like ad p) by done.
    unfold verdict. destruct (get (index p) x) as [e|] eqn:Hg.
    - pose proof Hg as [Hx _]%get_index. apply first_id in Hx. subst x.
      unfold verdict_of. rewrite Hg. destruct (effectively_disabled (index p) (id e)); simpl; [done|].
      by rewrite decide_False, decide_True, Heq by tauto.
    - rewrite decide_False; [done|]. by intros [[? [=]] _]. }
  destruct (steps (plan ad p (Some eq))) as [|[x k] ss] eqn:Hs; [done|].
  specialize (Hnone x). unfold steps_for in Hnone. rewrite Hs, filter_cons in Hnone. simpl in Hnone.
  by rewrite decide_True in Hnone.
Qed.
End Applied.

(** ** Reconciliation *)

Section Converging.
Context {W H C Ctx V : Type} `{Contexts Ctx, EntryHandle W H C Ctx, Medium W C V}.
Context (loader : Loader W H C Ctx).
Context (enumerate : gmap EntryId (EntryRuntime W H C Ctx) -> list (EntryId * EntryRuntime W H C Ctx)).
Context (iterate : list EntryId -> list EntryId).
Implicit Types (s : State W H C Ctx) (m : Machine W H C Ctx V) (w : W) (x : EntryId).

Lemma drained_synced s p c :
  synced loader s p -> synced loader (drain_faults enumerate (MkState c (runtimes s))).2 p.
Proof.
  intros Hs x. destruct (Hs x) as [Hi Hst]. split; [|done]. simpl. rewrite lookup_fmap, <-Hi.
  destruct (runtimes s !! x) as [r|] eqn:Hr; [|done]. simpl. unfold seen. simpl.
  unfold ideal in Hi. destruct (get (index p) x); [|done]. simpl in Hi.
  unfold seen in Hi. destruct (effectively_disabled (index p) x);
    injection Hi as _ _ _ Hf; by rewrite Hf.
Qed.

(** What a plan holds before its first step. *)
Lemma halfway_start ad old new eq s :
  charts_like ad old -> synced loader s old ->
  halfway loader old new eq (steps (plan ad new (Some eq))) s.
Proof.
  intros Hl Hs x. exists []. split; [simpl|by left].
  destruct (plan_verdicts ad new (Some eq) x) as [Hv _]. rewrite (verdict_like ad old) in Hv by done.
  unfold owed. by rewrite <-Hv.
Qed.

Lemma quarantine_quiet p new s :
  plan_faults (quarantine_cycles loader iterate p new s) = [] ->
  quarantine_cycles loader iterate p new s = p /\ cycle_faults (index new) (lanes loader) = [].
Proof.
  unfold quarantine_cycles. destruct (cycle_faults _ _); [done|]. simpl.
  by intros [_ ?]%app_eq_nil.
Qed.
End Converging.


(** ** Documents that are not reached

    A loader over a world that logs spawns and disposals, whose one lane
    always succeeds; contexts are the bindings they were derived with. *)

Module ReconcileExample.
Inductive Happening := Spawned (x : EntryId) (h : FiberId) | Disposed (h : FiberId).

#[export] Instance log_contexts : Contexts (list (list IsolationBinding)) :=
  { derive_bind c b := c ++ [b];
    realm_of c name :=
      match List.find (fun b => bool_decide (binding_service b = name)) (concat (reverse c)) with
      | Some b => binding_realm b
      | None => RealmRoot
      end }.

#[export] Instance log_handle : EntryHandle (list Happening) FiberId nat (list (list IsolationBinding)) :=
  { handle_id h := h;
    handle_state _ _ := Active;
    withdrawing _ _ := false;
    resting _ _ := true;
    restart _ _ w := w;
    restate _ _ w := (Ok (), w);
    rebind _ _ w := w;
    handle_dispose h w := (Ok (), w ++ [Disposed h]);
    quiesce _ w := (Ok (), w) }.

#[export] Instance log_medium : Medium (list Happening) nat nat :=
  { serialize c w := (SValue c, w);
    store_save _ w := (Ok (), w);
    print_entry _ := "" }.

Definition log_lane : PackageLane (list Happening) FiberId nat (list (list IsolationBinding)) :=
  MkPackageLane [] None (fun x _ _ _ w =>
    let h := MkFiberId (Z.of_nat (length w)) in (Ok h, w ++ [Spawned x h])).

Definition log_loader : Loader (list Happening) FiberId nat (list (list IsolationBinding)) :=
  MkLoader [] (fun _ w => w) {["pkg" := log_lane]} (Some Nat.eqb).

Definition entry (x : string) (version : string) (up : option string) (off : bool)
    (bindings : list IsolationBinding) : ProfileEntry nat :=
  MkProfileEntry (MkEntryId x) (MkPluginRef "pkg" version "") 0 off (MkEntryId <$> up) bindings.

Definition Reached : Type :=
  Machine (list Happening) FiberId nat (list (list IsolationBinding)) nat * list Happening.

Definition start : Reached := (MkMachine (MkState None ∅) no_slots None, []).

Definition serve (mw : Reached) (p : Profile nat) : result ReconcileReport KernelError * Reached :=
  reconcile_with log_loader map_to_list (fun l => l) (fun _ w => w) false None p mw.1 mw.2.

(** Every document in turn; the report is that of the last. *)
Definition served (ps : list (Profile nat)) : result ReconcileReport KernelError * Reached :=
  fold_left (fun acc p => serve acc.2 p) ps (Ok (MkReconcileReport [] [] [] [] []), start).

Definition x : EntryId := MkEntryId "x".

Definition report_of (r : result ReconcileReport KernelError * Reached) : option ReconcileReport :=
  match r.1 with Ok report => Some report | Err _ => None end.

Definition runtime_of (r : result ReconcileReport KernelError * Reached) (y : EntryId) :=
  runtimes (state r.2.1) !! y.

(** The group comes up while its entry [x] goes off; then [x] goes on. *)
Definition both_down : Profile nat := MkProfile [entry "g" "1" None true []; entry "x" "1" (Some "g"%string) false []].
Definition crossed : Profile nat := MkProfile [entry "g" "1" None false []; entry "x" "1" (Some "g"%string) true []].
Definition both_up : Profile nat := MkProfile [entry "g" "1" None false []; entry "x" "1" (Some "g"%string) false []].

(** A new plugin for [g], in a realm of its own. *)
Definition isolated : Profile nat :=
  MkProfile [entry "g" "2" None false [MkIsolationBinding "s" (RealmShared "r")];
             entry "x" "1" (Some "g"%string) false []].

(** [g] leaves although [x] names it; then [x] lets go of it. *)
Definition orphaned : Profile nat := MkProfile [entry "x" "1" (Some "g"%string) false []].
Definition adopted : Profile nat := MkProfile [entry "x" "1" None false []].

(** [x] moves under an entry of the same document. *)
Definition alone : Profile nat := MkProfile [entry "x" "1" None false []].
Definition moved : Profile nat := MkProfile [entry "n" "1" None false []; entry "x" "1" (Some "n"%string) false []].



(** A move under an entry the same document creates is refused, and made by the
    next reconcile of the same document. *)
Example a_move_under_a_new_entry_takes_two :
  (map fault_entry ∘ errors) <$> report_of (served [alone; moved]) = Some [x] /\
  errors <$> report_of (served [alone; moved; moved]) = Some [].
Proof. by vm_compute. Qed.
End ReconcileExample.

Import ReconcileExample.

(** A reconcile can miss its document for good and say that nothing
    changed. An entry that stays disabled keeps its old specification, so one
    that was turned off under a disabled group and on again afterwards is never
    spawned; and a child rebound before its parent is replaced keeps the context
    of the parent's old realm. *)
Theorem an_entry_can_be_missed :
  (exists e report,
     get (index both_up) x = Some e /\
     effectively_disabled (index both_up) x = false /\
     let r := served
       [both_down; crossed; both_up] in
     report_of r = Some report /\ errors report = [] /\
     x ∈ unchanged report /\
     live <$> runtime_of r x = Some None) /\
  (exists report,
     let r := served
       [both_up; isolated; isolated] in
     report_of r = Some report /\ errors report = [] /\
     x ∈ unchanged report /\
     context <$> runtime_of r x <>
       Some (Some (context_in log_loader isolated x))).
Proof.
  split.
  - eexists _, _. do 2 (split; [by vm_compute|]). cbv zeta. split_and!; [by vm_compute|done| |by vm_compute].
    apply list_elem_of_further, list_elem_of_here.
  - eexists. cbv zeta. split_and!; [by vm_compute|done| |by vm_compute].
    apply list_elem_of_further, list_elem_of_here.
Qed.

(** An entry whose parent left the document keeps its fiber; when the
    document takes it back on its own, the loader forgets that fiber and spawns
    another: two run for one entry, and no disposal of the first is ever asked. *)
Theorem a_readmitted_entry_runs_twice :
  let r := served
    [both_up; orphaned; adopted] in
  errors <$> report_of r = Some [] /\
  r.2.2 = [Spawned (MkEntryId "g") (MkFiberId 0);
           Spawned x (MkFiberId 1);
           Disposed (MkFiberId 0);
           Spawned x (MkFiberId 3)] /\
  live_handles (state r.2.1) = [MkFiberId 3].
Proof. by vm_compute. Qed.
