(* ===== verification/Gate.v ===== *)
(** * Exclusion between loader operations ([jinnd-loader/src/gate.rs])

    Operations run on many tasks and await plugin code; what keeps them apart is
    the engagement cell of [Loader.v]. Here any number of tasks engage and
    release in any order. *)

From stdpp Require Import base gmap sets relations strings.
From S2P Require Import Prelude Api Loader.

(** What a task holds: one entry, or ([None]) the whole document. *)
Abbreviation Hold := (option EntryId).

Record Floor := MkFloor { slots : Slots; holders : gmap nat Hold }.

Inductive Move := Engage (task : nat) (what : Hold) | Release (task : nat).

(** [engage_entry]/[engage_document], and the [Drop] of what they returned. *)
Definition engage (what : Hold) (g : Slots) : option Slots :=
  match what with Some x => engage_entry x g | None => engage_document g end.

Definition release (what : Hold) (g : Slots) : Slots :=
  match what with Some x => release_entry x g | None => release_document g end.

(** Every move is answered at once: a conflicting claim is refused. *)
Definition moved (v : Move) (f : Floor) : bool * Floor :=
  match v with
  | Engage task what =>
      match holders f !! task, engage what (slots f) with
      | None, Some g => (true, MkFloor g (<[task := what]> (holders f)))
      | _, _ => (false, f)
      end
  | Release task =>
      match holders f !! task with
      | Some what => (true, MkFloor (release what (slots f)) (delete task (holders f)))
      | None => (false, f)
      end
  end.

Definition clear : Floor := MkFloor no_slots ∅.

Definition reached : Floor -> Prop :=
  reachable (fun f => f = clear) (fun f f' => exists v, f' = (moved v f).2).

(** The cell is exactly what the tasks hold. *)
Record exact (f : Floor) : Prop := {
  ex_document : slot_document (slots f) = true <-> exists t, holders f !! t = Some None;
  ex_entries x : x ∈ slot_entries (slots f) <-> exists t, holders f !! t = Some (Some x);
  ex_apart t t' what what' : holders f !! t = Some what -> holders f !! t' = Some what' -> t <> t' ->
    exists x x', what = Some x /\ what' = Some x' /\ x <> x';
}.

Lemma exact_clear : exact clear.
Proof.
  split; [|intros x|]; simpl; try (split; [done|]); try intros [t Ht]; try intros t t' what what' Ht.
  all: by rewrite lookup_empty in Ht || set_solver.
Qed.

Lemma engaged_exact f task what g :
  exact f -> holders f !! task = None -> engage what (slots f) = Some g ->
  exact (MkFloor g (<[task := what]> (holders f))).
Proof.
  intros [Hd He Ha] Hfree Heng.
  assert (slot_document (slots f) = false) as Hoff.
  { destruct what; simpl in Heng; unfold engage_entry, engage_document in Heng;
      by destruct (slot_document (slots f)). }
  assert (forall t, holders f !! t <> Some None) as Hnone.
  { intros t Ht. assert (slot_document (slots f) = true) by (apply Hd; eauto). congruence. }
  assert (forall t w', holders f !! t = Some w' -> exists x x', what = Some x /\ w' = Some x' /\ x <> x') as Hnew.
  { intros t w' Ht. destruct what as [x|]; simpl in Heng.
    - unfold engage_entry in Heng. rewrite Hoff in Heng. simpl in Heng. case_bool_decide as Hx; [done|].
      destruct w' as [x'|]; [|by apply Hnone in Ht]. exists x, x'. split_and!; [done..|].
      intros <-. apply Hx, He. eauto.
    - unfold engage_document in Heng. rewrite Hoff in Heng. simpl in Heng. case_bool_decide as Hx; [done|].
      exfalso. destruct w' as [x'|]; [|by apply Hnone in Ht].
      assert (x' ∈ slot_entries (slots f)) as Hin by (apply He; eauto). rewrite Hx in Hin. set_solver. }
  split; simpl.
  - destruct what as [x|]; simpl in Heng.
    + unfold engage_entry in Heng. rewrite Hoff in Heng. simpl in Heng. case_bool_decide; simplify_eq. simpl.
      split; [done|]. intros [t Ht]. apply lookup_insert_Some in Ht as [[_ [=]]|[_ Ht]]. by apply Hnone in Ht.
    + unfold engage_document in Heng. rewrite Hoff in Heng. simpl in Heng. case_bool_decide; simplify_eq. simpl.
      split; [|done]. intros _. exists task. by rewrite lookup_insert, decide_True.
  - intros x. assert (forall g', slot_entries g' = slot_entries (slots f) -> what = None ->
      x ∈ slot_entries g' <-> exists t, <[task := what]> (holders f) !! t = Some (Some x)) as Hsame.
    { intros g' -> ->. rewrite He. split; intros [t Ht]; exists t.
      - rewrite lookup_insert_ne; [done|]. intros <-. congruence.
      - by apply lookup_insert_Some in Ht as [[_ [=]]|[_ Ht]]. }
    destruct what as [z|]; simpl in Heng.
    + unfold engage_entry in Heng. rewrite Hoff in Heng. simpl in Heng. case_bool_decide; simplify_eq. simpl.
      rewrite elem_of_union, elem_of_singleton, He. split.
      * intros [->|[t Ht]]; [exists task; by rewrite lookup_insert, decide_True|].
        exists t. rewrite lookup_insert_ne; [done|]. intros <-. congruence.
      * intros [t Ht]. apply lookup_insert_Some in Ht as [[_ [= ->]]|[_ Ht]]; eauto.
    + unfold engage_document in Heng. rewrite Hoff in Heng. simpl in Heng. case_bool_decide; simplify_eq.
      by apply Hsame.
  - intros t t' w1 w2 H1 H2 Hne. apply lookup_insert_Some in H1 as [[<- <-]|[Hn1 H1]],
      H2 as [[<- <-]|[Hn2 H2]]; [done|by eapply Hnew| |by eapply Ha].
    destruct (Hnew _ _ H1) as (x & x' & -> & -> & Hx). exists x', x. by split_and!.
Qed.

Lemma released_exact f task what :
  exact f -> holders f !! task = Some what ->
  exact (MkFloor (release what (slots f)) (delete task (holders f))).
Proof.
  intros [Hd He Ha] Ht. split; simpl.
  - destruct what as [x|]; simpl.
    + rewrite Hd. split; intros [t Hl]; exists t; rewrite lookup_delete_Some in *; [|naive_solver].
      split; [|done]. intros <-. congruence.
    + split; [done|]. intros [t Hl]. apply lookup_delete_Some in Hl as [Hne Hl].
      by destruct (Ha _ _ _ _ Ht Hl Hne) as (? & ? & ? & ? & _).
  - intros x. destruct what as [z|]; simpl.
    + rewrite elem_of_difference, elem_of_singleton, He. split.
      * intros [[t Hl] Hne]. exists t. apply lookup_delete_Some. split; [|done]. intros <-. congruence.
      * intros [t Hl]. apply lookup_delete_Some in Hl as [Hne Hl]. split; [eauto|]. intros ->.
        destruct (Ha _ _ _ _ Ht Hl Hne) as (? & ? & ? & ? & ?). congruence.
    + rewrite He. split; intros [t Hl]; exists t; rewrite lookup_delete_Some in *; [|naive_solver].
      split; [|done]. intros <-. congruence.
  - intros t t' w1 w2 H1 H2 Hne. apply lookup_delete_Some in H1 as [_ H1], H2 as [_ H2]. eauto.
Qed.

Lemma reached_exact f : reached f -> exact f.
Proof.
  apply (reachable_invariant (fun f => f = clear) _ exact); [intros ? ->; apply exact_clear|].
  intros f1 f2 Hex [v ->]. destruct v as [task what|task]; simpl.
  - destruct (holders f1 !! task) eqn:Hh; [done|].
    destruct (engage what (slots f1)) eqn:He; [|done]. by apply engaged_exact.
  - destruct (holders f1 !! task) eqn:Hh; [|done]. by apply released_exact.
Qed.

(** Whatever the order of claims and releases, two operations in flight hold
    different entries, and one that holds the document is alone; a claim is
    refused only because of a conflicting holder (never made to wait), and once
    every task has released the cell is clear. *)
Theorem operations_exclude_each_other f :
  reached f ->
  (forall t t' what what', holders f !! t = Some what -> holders f !! t' = Some what' -> t <> t' ->
     exists x x', what = Some x /\ what' = Some x' /\ x <> x') /\
  (forall task what, holders f !! task = None -> (moved (Engage task what) f).1 = false ->
     exists t what', holders f !! t = Some what' /\ (what' = None \/ what = None \/ what' = what)) /\
  (holders f = ∅ -> slots f = no_slots).
Proof.
  intros Hex%reached_exact. split; [by apply ex_apart|]. split.
  - intros task what Hfree Hno. simpl in Hno. rewrite Hfree in Hno.
    destruct (engage what (slots f)) eqn:Heng; [done|]. destruct (slot_document (slots f)) eqn:Hd.
    { apply (ex_document _ Hex) in Hd as [t Ht]. eauto. }
    destruct what as [x|]; simpl in Heng.
    + unfold engage_entry in Heng. rewrite Hd in Heng. simpl in Heng. case_bool_decide as Hx; [|done].
      apply (ex_entries _ Hex) in Hx as [t Ht]. exists t, (Some x). auto.
    + unfold engage_document in Heng. rewrite Hd in Heng. simpl in Heng. case_bool_decide as Hx; [|done].
      apply set_choose_L in Hx as [x Hx]. apply (ex_entries _ Hex) in Hx as [t Ht].
      exists t, (Some x). auto.
  - intros Hempty. destruct (slots f) as [d es] eqn:Hs. unfold no_slots. f_equal.
    + destruct d; [|done]. assert (slot_document (slots f) = true) as Hd by by rewrite Hs.
      apply (ex_document _ Hex) in Hd as [t Ht]. by rewrite Hempty, lookup_empty in Ht.
    + apply set_eq. intros x. split; [|set_solver]. intros Hx.
      assert (x ∈ slot_entries (slots f)) as Hin by by rewrite Hs.
      apply (ex_entries _ Hex) in Hin as [t Ht]. by rewrite Hempty, lookup_empty in Ht.
Qed.

Module GateExample.
Definition x : EntryId := MkEntryId "x".
Definition y : EntryId := MkEntryId "y".

(** Two amendments in flight; the reconcile that comes between them is refused. *)
Definition busy : Floor :=
  (moved (Engage 2 None) (moved (Engage 1 (Some y)) (moved (Engage 0 (Some x)) clear).2).2).2.

Lemma operations_exclude_each_other_witness :
  holders busy !! 0 = Some (Some x) /\ holders busy !! 1 = Some (Some y) /\
  (moved (Engage 2 None) busy).1 = false /\
  exists t what, holders busy !! t = Some what.
Proof.
  assert (reached busy) as Hr.
  { exists clear. split; [done|]. do 3 (eapply rtc_l; [by eexists|]). apply rtc_refl. }
  destruct (operations_exclude_each_other busy Hr) as (_ & Hrefused & _).
  split_and!; try by vm_compute.
  destruct (Hrefused 2 None ltac:(by vm_compute) ltac:(by vm_compute)) as (t & what & Ht & _). eauto.
Defined.
End GateExample.
