(* ===== verification/Amend.v ===== *)
(** * Runtime-led changes ([jinnd-loader/src/{amend,dispose,administer}.rs])

    Amendments offer the runtime a change before the document follows it; a
    disposal withdraws the fiber first; an administration stages one change of
    the document's shape and commits it later. Each is one function from a
    machine and a world; between a stage and its commit others may run. *)

From stdpp Require Import base gmap sets list strings sorting.
From S2P Require Import Prelude Api Entries Diff Quarantine Document Loader.

(** ** Amendments ([amend.rs]) *)

Record Amendment (C : Type) := MkAmendment {
  amend_committed : Profile C;
  amend_spec : ProfileEntry C;
  amend_previous : C;
}.
Arguments MkAmendment {C}. Arguments amend_committed {C}. Arguments amend_spec {C}.
Arguments amend_previous {C}.

Definition with_config {C} (c : C) (e : ProfileEntry C) : ProfileEntry C :=
  MkProfileEntry (id e) (plugin e) c (disabled e) (parent e) (isolation e).
Definition with_disabled {C} (off : bool) (e : ProfileEntry C) : ProfileEntry C :=
  MkProfileEntry (id e) (plugin e) (config e) off (parent e) (isolation e).
Definition with_plugin {C} (r : PluginRef) (e : ProfileEntry C) : ProfileEntry C :=
  MkProfileEntry (id e) r (config e) (disabled e) (parent e) (isolation e).

Lemma with_config_id {C} (c : C) e : id (with_config c e) = id e.
Proof. done. Qed.
Lemma with_disabled_id {C} off (e : ProfileEntry C) : id (with_disabled off e) = id e.
Proof. done. Qed.

Definition faulted_entry : KernelError :=
  invalid "the entry is faulted: reconcile the document to reconverge the two views".
Definition foreign_config : KernelError := invalid "foreign config type".
Definition no_such_entry : KernelError := invalid "no such entry".

(** [iter_mut().find]: the first entry of that identity, before and after. *)
Fixpoint change_first {C} (x : EntryId) (change : ProfileEntry C -> ProfileEntry C)
    (es : list (ProfileEntry C)) : option (list (ProfileEntry C) * (ProfileEntry C * ProfileEntry C)) :=
  match es with
  | [] => None
  | e :: es =>
      if decide (id e = x) then Some (change e :: es, (e, change e))
      else '(es, found) ← change_first x change es; Some (e :: es, found)
  end.

Section Amending.
Context {W H C Ctx V : Type} `{Contexts Ctx, EntryHandle W H C Ctx, Medium W C V}.
Context (debug_config : C -> string).
Implicit Types (s : State W H C Ctx) (m : Machine W H C Ctx V) (w : W) (x : EntryId).

Abbreviation Outcome := (result unit KernelError * (Machine W H C Ctx V * W))%type.

Definition with_state s m : Machine W H C Ctx V := MkMachine s (gate m) (persist m).

Definition amended x (change : ProfileEntry C -> ProfileEntry C) s : result (Amendment C) KernelError :=
  match runtimes s !! x with
  | None => Err no_runtime
  | Some r =>
      match runtime_fault r, committed s with
      | Some _, _ => Err faulted_entry
      | None, None => Err foreign_config
      | None, Some p =>
          match change_first x change (entries p) with
          | None => Err no_such_entry
          | Some (es, (before, after)) => Ok (MkAmendment (MkProfile es) after (config before))
          end
      end
  end.

Definition live_handle x s : option H := r ← runtimes s !! x; handle <$> live r.

Definition commit x (a : Amendment C) s : result unit KernelError * State W H C Ctx :=
  match runtimes s !! x with
  | None => (Err no_runtime, s)
  | Some r =>
      (Ok (), MkState (Some (amend_committed a))
        (<[x := MkEntryRuntime (amend_spec a) (context r) (live r) (runtime_fault r)]> (runtimes s)))
  end.

Definition record_divergence x (reality : ProfileEntry C) (message : string) s :
    KernelError * State W H C Ctx :=
  let divergence := invalid message in
  (divergence,
   match runtimes s !! x with
   | Some r => set_runtime x (MkEntryRuntime reality (context r) (live r) (Some divergence)) s
   | None => s
   end).

(** The three conflict-point refusals of a live target. *)
Definition refuse_target (current : option FiberId) (h : option H) (operation : string) s w :
    result unit KernelError :=
  match h with
  | None => Ok ()
  | Some h =>
      let? _ := refuse_own_fiber current h operation in
      let? _ := refuse_unrested h operation w in
      refuse_amid_withdrawal operation s w
  end%result.

Definition encode_config (c : C) m w : result (option V) KernelError * W :=
  match persist m with
  | None => (Ok None, w)
  | Some _ =>
      match contained_value "the amended entry" c w with
      | (Ok v, w) => (Ok (Some v), w)
      | (Err error, w) => (Err error, w)
      end
  end.

(** A save through the persistence, when there is one. *)
Definition save_through x (value : option V) (off : option bool) m w : Outcome :=
  match persist m with
  | None => (Ok (), (m, w))
  | Some p =>
      let '(saved, (p, w)) := save_amendment x value off p w in
      (saved, (MkMachine (state m) (gate m) (Some p), w))
  end.

Definition persist_amendment x (encoded : option V) (change : ProfileEntry C -> ProfileEntry C) m w :
    Outcome :=
  match amended x change (state m) with
  | Err error => (Err error, (m, w))
  | Ok a =>
      match (match encoded with
             | Some v => save_through x (Some v) None m w
             | None => (Ok (), (m, w))
             end) with
      | (Err error, mw) => (Err error, mw)
      | (Ok _, (m, w)) =>
          let '(out, s) := commit x a (state m) in (out, (with_state s m, w))
      end
  end.

Definition offer (h : option H) (c : C) w : result unit KernelError * W :=
  match h with Some h => restate h c w | None => (Ok (), w) end.

Definition diverged_amendment (c previous : C) (fault withdrawal : KernelError) : string :=
  "the two views diverged: the runtime staged " +:+ debug_config c +:+ ", the document holds " +:+
  debug_config previous +:+ " (write-back failed: " +:+ message fault +:+ "; withdrawal failed: " +:+
  message withdrawal +:+ ")".

Definition amend_engaged (current : option FiberId) (await_restart : bool) x (c : C) m w : Outcome :=
  match amended x (with_config c) (state m) with
  | Err error => (Err error, (m, w))
  | Ok staged =>
      match encode_config c m w with
      | (Err error, w) => (Err error, (m, w))
      | (Ok encoded, w) =>
          let h := live_handle x (state m) in
          match refuse_target current h "the amendment" (state m) w with
          | Err error => (Err error, (m, w))
          | Ok _ =>
              match offer h c w with
              | (Err error, w) => (Err error, (m, w))
              | (Ok _, w) =>
                  match persist_amendment x encoded (with_config c) m w with
                  | (Err fault, (m, w)) =>
                      match offer h (amend_previous staged) w with
                      | (Ok _, w) => (Err fault, (m, w))
                      | (Err withdrawal, w) =>
                          let '(divergence, s) :=
                            record_divergence x (amend_spec staged)
                              (diverged_amendment c (amend_previous staged) fault withdrawal) (state m) in
                          (Err divergence, (with_state s m, w))
                      end
                  | (Ok _, (m, w)) =>
                      match h with
                      | None => (Ok (), (m, w))
                      | Some h =>
                          let w := restart h ConfigChanged w in
                          if await_restart then
                            let '(rested, w) := quiesce h w in (rested, (m, w))
                          else (Ok (), (m, w))
                      end
                  end
              end
          end
      end
  end.

(** The entry engagement spans the operation, every exit included. *)
Definition engaged_entry x (refused : KernelError) m (body : Machine W H C Ctx V -> Outcome) (w : W) :
    Outcome :=
  match engage_entry x (gate m) with
  | None => (Err refused, (m, w))
  | Some g =>
      let '(out, (m, w)) := body (MkMachine (state m) g (persist m)) in
      (out, (MkMachine (state m) (release_entry x (gate m)) (persist m), w))
  end.

Definition amend (in_teardown : bool) (current : option FiberId) (await_restart : bool) x (c : C) m w :
    Outcome :=
  match refuse_teardown_context in_teardown "the amendment" with
  | Err error => (Err error, (m, w))
  | Ok _ =>
      engaged_entry x entry_engaged m (fun m => amend_engaged current await_restart x c m w) w
  end.
End Amending.

(** ** Disposals ([dispose.rs]) *)

Section Disposing.
Context {W H C Ctx V : Type} `{Contexts Ctx, EntryHandle W H C Ctx, Medium W C V}.
Implicit Types (s : State W H C Ctx) (m : Machine W H C Ctx V) (w : W) (x : EntryId).

(** The write-back of a disposal, retried once; the applied view follows the
    disposed fiber whatever it said. *)
Definition persist_disposal x m w : result unit KernelError * (Machine W H C Ctx V * W) :=
  match amended x (with_disabled true) (state m) with
  | Err error => (Err error, (m, w))
  | Ok a =>
      let '(persisted, (m, w)) :=
        match save_through x None (Some true) m w with
        | (Err _, (m, w)) => save_through x None (Some true) m w
        | saved => saved
        end in
      match runtimes (state m) !! x with
      | None => (Err no_runtime, (m, w))
      | Some r =>
          let s := set_runtime x (MkEntryRuntime (amend_spec a) None None (runtime_fault r)) (state m) in
          match persisted with
          | Err error => (Err error, (with_state s m, w))
          | Ok _ => (Ok (), (with_state (MkState (Some (amend_committed a)) (runtimes s)) m, w))
          end
      end
  end.

Definition diverged_disposal (fault : KernelError) : string :=
  "the two views diverged: the runtime is disposed, the document stays enabled (write-back failed: "
    +:+ message fault +:+ ")".

Definition dispose_engaged (current : option FiberId) x m w :
    result unit KernelError * (Machine W H C Ctx V * W) :=
  match amended x (with_disabled true) (state m) with
  | Err error => (Err error, (m, w))
  | Ok staged =>
      let h := live_handle x (state m) in
      match refuse_target current h "the disposal" (state m) w with
      | Err error => (Err error, (m, w))
      | Ok _ =>
          match (match h with Some h => handle_dispose h w | None => (Ok (), w) end) with
          | (Err error, w) => (Err error, (m, w))
          | (Ok _, w) =>
              match persist_disposal x m w with
              | (Err fault, (m, w)) =>
                  let '(divergence, s) :=
                    record_divergence x (amend_spec staged) (diverged_disposal fault) (state m) in
                  (Err divergence, (with_state s m, w))
              | (Ok _, mw) => (Ok (), mw)
              end
          end
      end
  end.

Definition dispose_entry (in_teardown : bool) (current : option FiberId) x m w :
    result unit KernelError * (Machine W H C Ctx V * W) :=
  match refuse_teardown_context in_teardown "the disposal" with
  | Err error => (Err error, (m, w))
  | Ok _ => engaged_entry x entry_engaged m (fun m => dispose_engaged current x m w) w
  end.
End Disposing.

(** ** Administration ([administer.rs], [administer/commit.rs]) *)

Inductive Administration (C : Type) :=
  | Add (record : ProfileEntry C)
  | RemoveEntry (x : EntryId)
  | DisableEntry (x : EntryId)
  | EnableEntry (x : EntryId)
  | Configure (x : EntryId) (c : C)
  | Swap (x : EntryId) (r : PluginRef).
Arguments Add {C}. Arguments RemoveEntry {C}. Arguments DisableEntry {C}. Arguments EnableEntry {C}.
Arguments Configure {C}. Arguments Swap {C}.

(** A staged change: its engagement, the amended document, the steps of its own
    entry and the document's encoding. *)
Record Staged (C V : Type) := MkStaged {
  staged_entry : EntryId;
  staged_document : bool;
  staged_profile : Profile C;
  staged_steps : list Step;
  staged_encoded : option (Profile V);
}.
Arguments MkStaged {C V}. Arguments staged_entry {C V}. Arguments staged_document {C V}.
Arguments staged_profile {C V}. Arguments staged_steps {C V}. Arguments staged_encoded {C V}.

Section Administering.
Context {W H C Ctx V : Type} `{Contexts Ctx, EntryHandle W H C Ctx, Medium W C V}.
Context (loader : Loader W H C Ctx).
Context (enumerate : gmap EntryId (EntryRuntime W H C Ctx) -> list (EntryId * EntryRuntime W H C Ctx)).
Implicit Types (s : State W H C Ctx) (m : Machine W H C Ctx V) (w : W) (x : EntryId).

Definition administered (a : Administration C) : EntryId :=
  match a with
  | Add record => id record
  | RemoveEntry x | DisableEntry x | EnableEntry x | Configure x _ | Swap x _ => x
  end.

Definition engages_document (a : Administration C) : bool :=
  match a with Add _ | RemoveEntry _ => true | _ => false end.

Definition not_of_record : KernelError := invalid "no such entry in the document of record".

(** One change of the first entry of that identity. *)
Definition changed_profile (old : Profile C) x (change : ProfileEntry C -> ProfileEntry C) :
    result (Profile C) KernelError :=
  match change_first x change (entries old) with
  | Some (es, _) => Ok (MkProfile es)
  | None => Err not_of_record
  end.

Definition amended_profile (old : Profile C) (a : Administration C) : result (Profile C) KernelError :=
  match a with
  | Add record =>
      if existsb (fun e => bool_decide (id e = id record)) (entries old) then
        Err (invalid "the entry id already exists")
      else Ok (MkProfile (entries old ++ [record]))
  | RemoveEntry x =>
      match position (fun e => bool_decide (id e = x)) (entries old) with
      | Some i => Ok (MkProfile (delete i (entries old)))
      | None => Err not_of_record
      end
  | DisableEntry x => changed_profile old x (with_disabled true)
  | EnableEntry x => changed_profile old x (with_disabled false)
  | Configure x c => changed_profile old x (with_config c)
  | Swap x r => changed_profile old x (with_plugin r)
  end.

Definition staged_engagement (a : Administration C) (g : Slots) : result Slots KernelError :=
  if engages_document a then
    match engage_document g with
    | Some g => Ok g
    | None => Err (invalid "operation refused: a loader operation is already in flight")
    end
  else
    match engage_entry (administered a) g with
    | Some g => Ok g
    | None => Err entry_engaged
    end.

(** What the administration decides once it is engaged; the steps are those of
    its own entry in the plan the document-led diff would make. *)
Definition stage_engaged (current : option FiberId) (a : Administration C) m w :
    result (Staged C V) KernelError * W :=
  let x := administered a in
  match refuse_amid_withdrawal "the administration" (state m) w with
  | Err error => (Err error, w)
  | Ok _ =>
      match (match live_handle x (state m) with
             | Some h =>
                 let? _ := refuse_own_fiber current h "the administration" in
                 refuse_unrested h "the administration" w
             | None => Ok ()
             end)%result with
      | Err error => (Err error, w)
      | Ok _ =>
          match committed (state m) with
          | None => (Err (invalid "no committed document"), w)
          | Some old =>
              match amended_profile old a with
              | Err error => (Err error, w)
              | Ok profile =>
                  match List.find (fun f => bool_decide (fault_entry f = x)) (faults (index profile)) with
                  | Some f => (Err (fault_error f), w)
                  | None =>
                      let present := default (MkProfile []) (applied enumerate (state m)) in
                      let p := plan (Some present) profile (attestation loader) in
                      match encode_committed profile m w with
                      | (Err error, w) => (Err error, w)
                      | (Ok encoded, w) =>
                          (Ok (MkStaged x (engages_document a) profile
                             (filter (fun st => step_entry st = x) (steps p)) encoded), w)
                      end
                  end
              end
          end
      end
  end.

Definition release_staged (st : Staged C V) m : Machine W H C Ctx V :=
  MkMachine (state m)
    (if staged_document st then release_document (gate m) else release_entry (staged_entry st) (gate m))
    (persist m).

(** A stage that succeeds keeps its engagement. *)
Definition stage (in_teardown : bool) (current : option FiberId) (a : Administration C) m w :
    result (Staged C V) KernelError * (Machine W H C Ctx V * W) :=
  match refuse_teardown_context in_teardown "the administration" with
  | Err error => (Err error, (m, w))
  | Ok _ =>
      match staged_engagement a (gate m) with
      | Err error => (Err error, (m, w))
      | Ok g =>
          match stage_engaged current a m w with
          | (Err error, w) => (Err error, (m, w))
          | (Ok st, w) => (Ok st, (MkMachine (state m) g (persist m), w))
          end
      end
  end.

Definition restate_spec x (spec : option (ProfileEntry C)) s : State W H C Ctx :=
  match runtimes s !! x, spec with
  | Some r, Some e => set_runtime x (MkEntryRuntime e (context r) (live r) (runtime_fault r)) s
  | _, _ => s
  end.

Definition diverged_step (fault : KernelError) : string :=
  "the two views diverged: the document committed, the runtime refused the step (" +:+ message fault +:+
  "); the next reconcile reconverges them".

(** The disposal landed: the runtime row follows the document, and the successor
    of a replacement spawns. An entry absent from the new document has no spec to
    record, and only a removal is. *)
Definition landed x (k : StepKind) (profile : Profile C) s w : State W H C Ctx * W :=
  let ix := index profile in
  let s :=
    if decide (k = Remove) then MkState (committed s) (delete x (runtimes s))
    else
      match runtimes s !! x with
      | Some r => set_runtime x (MkEntryRuntime (default (spec r) (get ix x)) None None (runtime_fault r)) s
      | None => s
      end in
  if decide (k = Replace) then
    match spawn_step loader x ix s w with
    | (Ok _, sw) => sw
    | (Err fault, (s, w)) =>
        match get ix x with
        | Some e => ((record_divergence x e (diverged_step fault) s).2, w)
        | None => (s, w)
        end
    end
  else (s, w).

(** A step stated but not landed: its kind and the handle to dispose. *)
Abbreviation Pending := (option (StepKind * option H)).

Definition persist_committed (st : Staged C V) m w : result unit KernelError * (Machine W H C Ctx V * W) :=
  match save_encoded (staged_encoded st) m w with
  | (Err error, (_, w)) => (Err error, (m, w))
  | (Ok _, (stored, w)) =>
      (Ok (), (MkMachine (MkState (Some (staged_profile st)) (runtimes (state m))) (gate m) stored, w))
  end.

(** The new config offered to the fiber, and the entry as the document had it. *)
Definition offer_staged (step : option StepKind) (h : option H) (spec : option (ProfileEntry C)) x s w :
    result (option (ProfileEntry C)) KernelError * W :=
  match step, h, spec with
  | Some Restate, Some h, Some e =>
      match restate h (config e) w with
      | (Err error, w) => (Err error, w)
      | (Ok _, w) =>
          (Ok (p ← committed s; List.find (fun e => bool_decide (id e = x)) (entries p)), w)
      end
  | _, _, _ => (Ok None, w)
  end.

(** The runtime step of a committed change, stated. *)
Definition state_step (st : Staged C V) (h : option H) m w :
    result Pending KernelError * (Machine W H C Ctx V * W) :=
  let x := staged_entry st in
  let spec := get (index (staged_profile st)) x in
  match step_kind <$> head (staged_steps st) with
  | Some (Remove as k) | Some (Disable as k) | Some (Replace as k) => (Ok (Some (k, h)), (m, w))
  | Some Restate =>
      let m := with_state (restate_spec x spec (state m)) m in
      (Ok None, (m, match h with Some h => restart h ConfigChanged w | None => w end))
  | Some _ =>
      let '(report, (s, w)) :=
        apply loader (MkPlan (staged_steps st) [] []) (staged_profile st) None (state m) w in
      match List.find (fun f => bool_decide (fault_entry f = x)) (errors report), spec with
      | Some f, Some e =>
          let '(divergence, s) := record_divergence x e (diverged_step (fault_error f)) s in
          (Err divergence, (with_state s m, w))
      | Some f, None => (Err (invalid (diverged_step (fault_error f))), (with_state s m, w))
      | None, _ => (Ok None, (with_state s m, w))
      end
  | None => (Ok None, (with_state (restate_spec x spec (state m)) m, w))
  end.

(** Refused, a commit releases the engagement; otherwise its task holds it. *)
Definition commit_administration (st : Staged C V) m w :
    result Pending KernelError * (Machine W H C Ctx V * W) :=
  let x := staged_entry st in
  let spec := get (index (staged_profile st)) x in
  let h := live_handle x (state m) in
  match offer_staged (step_kind <$> head (staged_steps st)) h spec x (state m) w with
  | (Err error, w) => (Err error, (release_staged st m, w))
  | (Ok restated, w) =>
      match persist_committed st m w with
      | (Err fault, (m, w)) =>
          match restated, h with
          | Some previous, Some h =>
              match restate h (config previous) w with
              | (Ok _, w) => (Err fault, (release_staged st m, w))
              | (Err error, w) => (Err error, (release_staged st m, w))
              end
          | _, _ => (Err fault, (release_staged st m, w))
          end
      | (Ok _, (m, w)) =>
          match state_step st h m w with
          | (Err error, (m, w)) => (Err error, (release_staged st m, w))
          | stated => stated
          end
      end
  end.

(** The task a commit leaves behind. *)
Definition finish_administration (st : Staged C V) (pending : Pending) m w : Machine W H C Ctx V * W :=
  match pending with
  | None => (release_staged st m, w)
  | Some (k, h) =>
      let w := match h with Some h => (handle_dispose h w).2 | None => w end in
      let '(s, w) := landed (staged_entry st) k (staged_profile st) (state m) w in
      (release_staged st (with_state s m), w)
  end.
End Administering.

(** ** The two views of an entry *)

(** What can be observed of the world: the config a fiber was last stated, and
    the document on disk. A lane that refuses a config keeps the one it had, and
    a save that fails leaves the file as it was; nothing else moves either. *)
Class Observes (W H C Ctx V : Type) `{EntryHandle W H C Ctx, Medium W C V} := {
  stated : H -> W -> option C;
  on_disk : W -> option (Document V);
  restate_accepts h c w w' : restate h c w = (Ok (), w') -> stated h w' = Some c;
  restate_refuses h c w e w' : restate h c w = (Err e, w') -> stated h w' = stated h w;
  restart_stated h h' k w : stated h (restart h' k w) = stated h w;
  quiesce_stated h h' w : stated h (quiesce h' w).2 = stated h w;
  serialize_stated h c w : stated h (serialize (C := C) c w).2 = stated h w;
  save_stated h d w : stated h (store_save d w).2 = stated h w;
  save_lands d w w' : store_save d w = (Ok (), w') -> on_disk w' = Some d;
  save_fails d w e w' : store_save d w = (Err e, w') -> on_disk w' = on_disk w;
  restate_disk h c w : on_disk (restate h c w).2 = on_disk w;
  restart_disk h k w : on_disk (restart h k w) = on_disk w;
  quiesce_disk h w : on_disk (quiesce h w).2 = on_disk w;
  dispose_disk h w : on_disk (handle_dispose h w).2 = on_disk w;
  serialize_disk c w : on_disk (serialize c w).2 = on_disk w;
}.

Create Rewrite HintDb observe.

#[export] Hint Rewrite @restart_stated @quiesce_stated @serialize_stated @save_stated @restate_disk
  @restart_disk @quiesce_disk @serialize_disk : observe.

Definition named {C} (x : EntryId) (es : list (ProfileEntry C)) : option (ProfileEntry C) :=
  List.find (fun e => bool_decide (id e = x)) es.

Section Views.
Context {W H C Ctx V : Type} `{Contexts Ctx, EntryHandle W H C Ctx, Medium W C V}.
Context `{!Observes W H C Ctx V}.
Implicit Types (s : State W H C Ctx) (m : Machine W H C Ctx V) (w : W) (x y : EntryId).

(** The entry as the committed document has it. *)
Definition record_of x s : option (ProfileEntry C) := p ← committed s; named x (entries p).

(** The fiber of the entry was stated the config of record, and the file holds
    the baseline. *)
Definition in_step x m w : Prop :=
  (forall h e, live_handle x (state m) = Some h -> record_of x (state m) = Some e ->
     stated h w = Some (config e)) /\
  (forall p, persist m = Some p -> on_disk w = Some (baseline p)).

(** The document [d'] is [d] with the config and the disabled flag of one entry
    replaced by what is given, and nothing else. *)
Definition doc_named x (d : Document V) : option (DocumentEntry V) :=
  List.find (fun e => bool_decide (doc_id e = entry_id x)) (doc_entries d).

Definition rewrites x (v : option V) (off : option bool) (d d' : Document V) : Prop :=
  doc_raw d' = doc_raw d /\ map doc_id (doc_entries d') = map doc_id (doc_entries d) /\
  (exists e, doc_named x d = Some e /\
     doc_named x d' = Some (MkDocumentEntry (doc_id e) (doc_package e) (doc_version e) (doc_hash e)
       (match v with Some v => v | None => doc_config e end) (match off with Some b => b | None => doc_disabled e end)
       (doc_parent e) (doc_isolate e) (doc_extra e))) /\
  forall y, y <> x -> doc_named y d' = doc_named y d.

(** The value the store writes of a config: what its serialization comes to. *)
Definition writes (c : C) w (v : option V) : Prop := exists u, v = Some u /\ (serialize c w).1 = SValue u.
Definition writes_none (v : option V) : Prop := v = None.

(** The entry was changed, in memory and through the store, where the value
    written is one of [wrote]; no other was. *)
Definition taken x (change : ProfileEntry C -> ProfileEntry C) (wrote : option V -> Prop) (off : option bool) m m' : Prop :=
  (exists e, record_of x (state m) = Some e /\ record_of x (state m') = Some (change e) /\
     spec <$> runtimes (state m') !! x = Some (change e)) /\
  (forall y, y <> x -> runtimes (state m') !! y = runtimes (state m) !! y /\
     record_of y (state m') = record_of y (state m)) /\
  match persist m with
  | None => persist m' = None
  | Some p => exists v d, wrote v /\ doc_amended (baseline p) (entry_id x) v off = Ok d /\
      rewrites x v off (baseline p) d /\ persist m' = Some (MkPersistence d (Some (render print_entry d)))
  end.

Lemma amend_first_named x v off es es' :
  amend_first (entry_id x) v off es = Some es' ->
  map doc_id es' = map (@doc_id V) es /\
  (exists e, List.find (fun e => bool_decide (doc_id e = entry_id x)) es = Some e /\
     List.find (fun e => bool_decide (doc_id e = entry_id x)) es' = Some (amend_entry v off e)) /\
  forall y, y <> x -> List.find (fun e => bool_decide (doc_id e = entry_id y)) es' =
                      List.find (fun e => bool_decide (doc_id e = entry_id y)) es.
Proof.
  revert es'. induction es as [|e es IH]; intros es'; cbn; [done|]. case_decide as Hx.
  - intros [= <-]. cbn. rewrite !bool_decide_true by done. split_and!; [done|by exists e|].
    intros y Hy. rewrite !bool_decide_false; [done|..]; rewrite Hx; intros E; apply Hy; destruct x, y; cbn in *; congruence.
  - destruct (amend_first _ _ _ es) as [es1|]; [|done]. intros [= <-]. destruct (IH es1 eq_refl) as (Hm & He & Ho).
    cbn. rewrite Hm, !(bool_decide_false (doc_id e = entry_id x)) by done. split_and!; [done|done|].
    intros y Hy. destruct (bool_decide _); auto.
Qed.

Lemma doc_amended_rewrites x v off (d d' : Document V) : doc_amended d (entry_id x) v off = Ok d' -> rewrites x v off d d'.
Proof.
  unfold doc_amended. destruct (amend_first _ _ _ _) as [es|] eqn:E; [|done]. intros [= <-].
  apply amend_first_named in E as (Hm & (e & He & He') & Ho). split_and!; [done|done| |exact Ho]. exists e. split; [exact He|].
  unfold doc_named. cbn. rewrite He'. unfold amend_entry. by destruct v, off.
Qed.

Lemma taken_mono x change (wrote wrote' : option V -> Prop) off m m' :
  (forall v, is_Some (persist m) -> wrote v -> wrote' v) -> taken x change wrote off m m' -> taken x change wrote' off m m'.
Proof.
  intros Hw (H1' & H2' & H3'). split_and!; [done|done|]. destruct (persist m) as [p|]; [|done].
  destruct H3' as (v & d & Hv & Hd). exists v, d. split; [apply Hw; [by eexists|done]|done].
Qed.

(** The loader's views did not move but for a fault recorded on the entry. *)
Definition diverged x err m m' : Prop :=
  committed (state m') = committed (state m) /\ persist m' = persist m /\
  (exists r, runtimes (state m') !! x = Some r /\ runtime_fault r = Some err) /\
  (forall y, y <> x -> runtimes (state m') !! y = runtimes (state m) !! y).

Lemma change_first_named x (change : ProfileEntry C -> ProfileEntry C) es es' before after :
  (forall e, id (change e) = id e) -> change_first x change es = Some (es', (before, after)) ->
  named x es = Some before /\ after = change before /\ named x es' = Some after /\
  forall y, y <> x -> named y es' = named y es.
Proof.
  intros Hid. revert es'. induction es as [|e es IH]; intros es' Hc; simpl in Hc; [done|]. unfold named in *.
  destruct (decide (id e = x)) as [Hx|Hx].
  - simplify_eq. simpl. rewrite !Hid, !bool_decide_true by done. split_and!; try done.
    intros y Hy. by rewrite !(bool_decide_false (id before = y)) by congruence.
  - apply bind_Some in Hc as ([es1 found] & Hc & Heq). simplify_eq.
    destruct (IH _ Hc) as (H1' & -> & H2' & H3'). simpl.
    rewrite !(bool_decide_false (id e = x)) by done. split_and!; try done.
    intros y Hy. simpl. destruct (bool_decide _); auto.
Qed.

Lemma amended_ok x change s a :
  (forall e, id (change e) = id e) -> amended x change s = Ok a ->
  exists r e, runtimes s !! x = Some r /\ runtime_fault r = None /\ record_of x s = Some e /\
    amend_spec a = change e /\ amend_previous a = config e /\
    named x (entries (amend_committed a)) = Some (change e) /\
    forall y, y <> x -> named y (entries (amend_committed a)) = record_of y s.
Proof.
  intros Hid Ha. unfold amended in Ha. destruct (runtimes s !! x) as [r|] eqn:Hr; [|done].
  destruct (runtime_fault r) eqn:Hf; [done|]. destruct (committed s) as [p|] eqn:Hp; [|done].
  destruct (change_first x change (entries p)) as [[es [before after]]|] eqn:Hc; [|done]. simplify_eq.
  destruct (change_first_named _ _ _ _ _ _ Hid Hc) as (Hb & -> & Ha & Ho).
  exists r, before. unfold record_of. rewrite Hp. by split_and!.
Qed.

Lemma engage_release x g g' : engage_entry x g = Some g' -> release_entry x g' = g.
Proof.
  unfold engage_entry, release_entry. destruct (slot_document g) eqn:Hd; [done|]. simpl.
  case_bool_decide as Hx; [done|]. intros [= <-]. simpl. destruct g as [d es]. simpl in *. f_equal; [done|].
  set_solver.
Qed.

Lemma save_through_views x v off m w out m' w' :
  save_through x v off m w = (out, (m', w')) ->
  state m' = state m /\ gate m' = gate m /\ (forall h, stated h w' = stated h w) /\
  match out with
  | Ok _ =>
      match persist m with
      | None => persist m' = None
      | Some p => exists d, doc_amended (baseline p) (entry_id x) v off = Ok d /\
          persist m' = Some (MkPersistence d (Some (render print_entry d))) /\ on_disk w' = Some d
      end
  | Err _ => m' = m /\ on_disk w' = on_disk w
  end.
Proof.
  unfold save_through, save_amendment, save_document. destruct m as [s g [p|]]; simpl; intros Hs.
  - destruct (doc_amended _ _ _ _) as [d|]; [|by simplify_eq].
    assert (forall h, stated h (store_save d w).2 = stated h w) as Hst by (intros; apply save_stated).
    destruct (store_save d w) as [[[]|e] w1] eqn:Hsave; simplify_eq; simpl in *; split_and!; auto.
    + exists d. split_and!; try done. by eapply save_lands.
    + by eapply save_fails.
  - by simplify_eq.
Qed.

Lemma save_through_disk x v off m w out m' w' :
  save_through x v off m w = (out, (m', w')) ->
  (forall p, persist m = Some p -> on_disk w = Some (baseline p)) ->
  forall p, persist m' = Some p -> on_disk w' = Some (baseline p).
Proof.
  intros (_ & _ & _ & Hout)%save_through_views Hd p Hp. destruct out.
  - destruct (persist m); [|congruence]. destruct Hout as (d & _ & Hp' & ->). by simplify_eq.
  - destruct Hout as [-> ->]. auto.
Qed.

Lemma encode_views (c : C) m w out w' :
  encode_config c m w = (out, w') ->
  (forall h, stated h w' = stated h w) /\ on_disk w' = on_disk w /\
  forall v, out = Ok v -> (v = None <-> persist m = None) /\ (is_Some (persist m) -> writes c w v).
Proof.
  unfold encode_config, contained_value. intros He.
  destruct (persist m); [|by simplify_eq; split_and!; [..|by intros ? [= <-]; split; [|intros []]]].
  assert (forall h, stated h (serialize c w).2 = stated h w) as Hst by (intros; apply serialize_stated).
  pose proof (serialize_disk c w) as Hdisk.
  unfold writes. destruct (serialize c w) as [[] w1]; simplify_eq; (split_and!; [done|done|]); intros ? ?; simplify_eq.
  split; [done|]. intros _. by eexists.
Qed.

Lemma offer_views h (c : C) w out w' :
  offer h c w = (out, w') -> on_disk w' = on_disk w /\
  forall h', h = Some h' ->
    match out with Ok _ => stated h' w' = Some c | Err _ => stated h' w' = stated h' w end.
Proof.
  destruct h as [h|]; simpl; intros Ho; [|by simplify_eq].
  pose proof (restate_disk h c w) as Hd. rewrite Ho in Hd. split; [done|].
  intros h' [= ->]. destruct out as [[]|]; [by eapply restate_accepts|by eapply restate_refuses].
Qed.

Lemma persist_amendment_views x encoded change m w out m' w' a :
  (forall e : ProfileEntry C, id (change e) = id e) -> amended x change (state m) = Ok a ->
  (encoded = None <-> persist m = None) ->
  persist_amendment x encoded change m w = (out, (m', w')) ->
  gate m' = gate m /\ (forall h, stated h w' = stated h w) /\
  ((forall p, persist m = Some p -> on_disk w = Some (baseline p)) ->
   forall p, persist m' = Some p -> on_disk w' = Some (baseline p)) /\
  match out with Ok _ => taken x change (fun v => v = encoded) None m m' /\ live_handle x (state m') = live_handle x (state m)
  | Err _ => m' = m end.
Proof.
  intros Hid Ha Henc Hp. unfold persist_amendment in Hp. rewrite Ha in Hp.
  destruct (amended_ok _ _ _ _ Hid Ha) as (r & e & Hr & Hf & He & Hspec & Hprev & Hnamed & Hothers).
  assert (exists saved m1 w1, match encoded with
      | Some v => save_through x (Some v) None m w | None => (Ok (), (m, w)) end = (saved, (m1, w1)) /\
    save_through x encoded None m w = (saved, (m1, w1))) as (saved & m1 & w1 & Hs & Hsave).
  { destruct encoded as [v|]; [destruct (save_through _ _ _ _ _) as [? [? ?]]; eauto|].
    exists (Ok ()), m, w. split; [done|]. unfold save_through.
    by rewrite (proj1 Henc eq_refl). }
  rewrite Hs in Hp. pose proof (save_through_disk _ _ _ _ _ _ _ _ Hsave) as Hdisk.
  apply save_through_views in Hsave as (Hst & Hg & Hstated & Hout). destruct saved as [[]|error].
  - unfold commit in Hp. rewrite Hst, Hr in Hp. simplify_eq. simpl. split_and!; try done.
    + unfold taken, record_of. simpl. rewrite lookup_insert, decide_True by done. simpl.
      rewrite Hspec. split_and!.
      * exists e. by split_and!.
      * intros y Hy. rewrite lookup_insert_ne by done. by split; [|apply Hothers].
      * destruct (persist m); [|done]. destruct Hout as (d & ? & ? & _). exists encoded, d. split_and!; try done. by apply doc_amended_rewrites.
    + unfold live_handle. simpl. rewrite lookup_insert, decide_True by done. by rewrite Hr.
  - simplify_eq. by destruct Hout as [-> _].
Qed.

(** The two views of [x] stay in step, whatever moved them together. *)
Lemma in_step_stated x m w m' w' :
  in_step x m w -> live_handle x (state m') = live_handle x (state m) ->
  record_of x (state m') = record_of x (state m) ->
  (forall h, live_handle x (state m) = Some h -> stated h w = stated h w') ->
  (forall p, persist m' = Some p -> on_disk w' = Some (baseline p)) -> in_step x m' w'.
Proof.
  intros [Hs _] Hh He Hw Hd. split; [|done]. intros h e Hl Hr. rewrite Hh in Hl. rewrite He in Hr.
  rewrite <-Hw by done. by apply Hs.
Qed.

Lemma amend_engaged_views debug current await x (c : C) m w out m' w' :
  in_step x m w -> amend_engaged debug current await x c m w = (out, (m', w')) ->
  gate m' = gate m /\
  match out with
  | Ok _ => taken x (with_config c) (writes c w) None m m' /\ in_step x m' w'
  | Err err =>
      (m' = m \/ await = true /\ taken x (with_config c) (writes c w) None m m') /\ in_step x m' w' \/ diverged x err m m'
  end.
Proof.
  intros Hin Ha. unfold amend_engaged in Ha.
  destruct (amended x (with_config c) (state m)) as [a|] eqn:Ham; [|simplify_eq; tauto].
  destruct (amended_ok _ _ _ _ (with_config_id c) Ham) as (r & e & Hr & Hf & He & Hspec & Hprev & _).
  destruct (encode_config c m w) as [encoded w1] eqn:Henc.
  apply encode_views in Henc as (Hst1 & Hd1 & Hv).
  assert (in_step x m w1) as Hin1.
  { apply (in_step_stated x _ _ _ _ Hin); [done..| |]; [by intros; rewrite Hst1|]. rewrite Hd1. apply Hin. }
  destruct encoded as [v|]; [|simplify_eq; tauto]. destruct (Hv v eq_refl) as [Hnone Hwrites]. clear Hv.
  destruct (refuse_target _ _ _ _ _); [|simplify_eq; tauto].
  destruct (offer (live_handle x (state m)) c w1) as [[[]|error] w2] eqn:Ho;
    pose proof Ho as [Hd2 Hst2]%offer_views.
  - destruct (persist_amendment x v (with_config c) m w2) as [[[]|fault] [m3 w3]] eqn:Hp;
      apply (persist_amendment_views _ _ _ _ _ _ _ _ _ (with_config_id c) Ham Hnone) in Hp as (Hg & Hst3 & Hd3 & Hout).
    + destruct Hout as [Htaken Hh]. apply (taken_mono _ _ _ (writes c w)) in Htaken; [|by intros ? Hs ->; apply Hwrites].
      assert (in_step x m3 w3) as Hin3.
      { split; [|apply Hd3; rewrite Hd2; apply Hin1]. intros h e' Hl Hrec. rewrite Hh in Hl.
        destruct Htaken as [(e0 & _ & Hrec' & _) _]. rewrite Hrec in Hrec'. simplify_eq.
        rewrite Hst3. by apply Hst2. }
      destruct (live_handle x (state m)) as [h|] eqn:Hl; [|simplify_eq; tauto].
      assert (in_step x m3 (restart h ConfigChanged w3)) as Hin4.
      { apply (in_step_stated x _ _ _ _ Hin3); [done..| |]; [by intros; autorewrite with observe|].
        autorewrite with observe. apply Hin3. }
      destruct await; [|simplify_eq; tauto].
      pose proof (quiesce_disk h (restart h ConfigChanged w3)) as Hqd.
      assert (forall h', stated h' (quiesce h (restart h ConfigChanged w3)).2 =
        stated h' (restart h ConfigChanged w3)) as Hqs by (intros; apply quiesce_stated).
      destruct (quiesce h (restart h ConfigChanged w3)) as [out' w5]. simplify_eq. simpl in *.
      assert (in_step x m' w').
      { apply (in_step_stated x _ _ _ _ Hin4); [done..| |]; [by intros; rewrite Hqs|]. rewrite Hqd. apply Hin4. }
      destruct out; naive_solver.
    + subst m3. destruct (offer (live_handle x (state m)) (amend_previous a) w3) as [[[]|error] w4] eqn:Hw;
        apply offer_views in Hw as [Hd4 Hst4]; unfold record_divergence in Ha.
      * simplify_eq. split; [done|left]. split; [by left|]. split.
        -- intros h e' Hl Hrec. rewrite He in Hrec. simplify_eq. rewrite <-Hprev. by apply Hst4.
        -- rewrite Hd4. apply Hd3. rewrite Hd2. apply Hin1.
      * rewrite Hr in Ha. simplify_eq. split; [done|right]. unfold diverged. simpl. split_and!; try done.
        -- rewrite lookup_insert, decide_True by done. eexists. by split.
        -- intros y Hy. by rewrite lookup_insert_ne.
  - simplify_eq. split; [done|left]. split; [by left|]. apply (in_step_stated x _ _ _ _ Hin1); [done..| |].
    + intros h Hl. symmetry. by apply Hst2.
    + rewrite Hd2. apply Hin1.
Qed.

(** The engagement spans it all; only an amendment that awaits the reload can
    fail after it landed. *)
Lemma amend_views debug in_teardown current await x (c : C) m w out m' w' :
  in_step x m w -> amend debug in_teardown current await x c m w = (out, (m', w')) ->
  gate m' = gate m /\
  match out with
  | Ok _ => taken x (with_config c) (writes c w) None m m' /\ in_step x m' w'
  | Err err =>
      (m' = m \/ await = true /\ taken x (with_config c) (writes c w) None m m') /\ in_step x m' w' \/ diverged x err m m'
  end.
Proof.
  intros Hin Ha. unfold amend, engaged_entry in Ha.
  destruct (refuse_teardown_context _ _); [|by simplify_eq; split; [|left; split; [left|]]].
  destruct (engage_entry x (gate m)) as [g|] eqn:Hg; [|by simplify_eq; split; [|left; split; [left|]]].
  destruct (amend_engaged _ _ _ _ _ _ _) as [o [m1 w1]] eqn:He. simplify_eq. simpl.
  apply amend_engaged_views in He as [Hg1 Hout]; [|done]. rewrite Hg1. simpl.
  rewrite (engage_release _ _ _ Hg). split; [done|]. destruct out; [done|].
  destruct Hout as [[[->|Ht] Hi]|Hd]; [left|left|by right].
  - split; [left; by destruct m|done].
  - by split; [right|].
Qed.
End Views.

(** ** Disposals move the runtime first *)

Section DisposalViews.
Context {W H C Ctx V : Type} `{Contexts Ctx, EntryHandle W H C Ctx, Medium W C V}.
Context `{!Observes W H C Ctx V}.
Implicit Types (s : State W H C Ctx) (m : Machine W H C Ctx V) (w : W) (x y : EntryId).

(** The runtime of a disposed entry. *)
Definition inert x (e : ProfileEntry C) m : Prop :=
  exists r, runtimes (state m) !! x = Some r /\ spec r = e /\ context r = None /\ live r = None.

Definition disk_current m w : Prop := forall p, persist m = Some p -> on_disk w = Some (baseline p).

Lemma persist_disposal_views x m w out m' w' a :
  amended x (with_disabled true) (state m) = Ok a -> disk_current m w ->
  persist_disposal x m w = (out, (m', w')) ->
  gate m' = gate m /\ disk_current m' w' /\ inert x (amend_spec a) m' /\
  match out with
  | Ok _ => taken x (with_disabled true) writes_none (Some true) m m'
  | Err _ => committed (state m') = committed (state m) /\ persist m' = persist m /\
      (forall y, y <> x -> runtimes (state m') !! y = runtimes (state m) !! y)
  end.
Proof.
  intros Ha Hd Hp. unfold persist_disposal in Hp. rewrite Ha in Hp.
  destruct (amended_ok _ _ _ _ (with_disabled_id true) Ha) as (r & e & Hr & _ & He & Hspec & _ & Hnamed & Hothers).
  assert (exists saved m1 w0 w1, match save_through x None (Some true) m w with
      | (Err _, (m, w)) => save_through x None (Some true) m w | saved => saved end = (saved, (m1, w1)) /\
    save_through x None (Some true) m w0 = (saved, (m1, w1)) /\ disk_current m w0)
    as (saved & m1 & w0 & w1 & Hs & Hsave & Hd0).
  { destruct (save_through x None (Some true) m w) as [[u|error] [m1 w1]] eqn:Hsave.
    - exists (Ok u), m1, w, w1. by split_and!.
    - pose proof (save_through_disk _ _ _ _ _ _ _ _ Hsave Hd) as Hd1.
      apply save_through_views in Hsave as (_ & _ & _ & -> & _).
      destruct (save_through _ _ _ m w1) as [saved [m2 w2]] eqn:Hsave2. by exists saved, m2, w1, w2. }
  rewrite Hs in Hp. pose proof (save_through_disk _ _ _ _ _ _ _ _ Hsave Hd0) as Hd1.
  apply save_through_views in Hsave as (Hst & Hg & _ & Hout). rewrite Hst, Hr in Hp.
  unfold inert, taken, record_of, with_state, set_runtime in *.
  destruct saved as [u|error]; simplify_eq; simpl; rewrite lookup_insert, decide_True by done;
    (split; [done|split; [done|split; [by eexists|]]]).
  - simpl. rewrite Hspec. split_and!.
    + exists e. by split_and!.
    + intros y Hy. rewrite lookup_insert_ne by done. by split; [|apply Hothers].
    + destruct (persist m); [|done]. destruct Hout as (d & ? & ? & _). exists None, d. split_and!; try done. by apply doc_amended_rewrites.
  - destruct Hout as [-> _]. split_and!; try done. intros y Hy. by rewrite lookup_insert_ne.
Qed.
End DisposalViews.

(** C6: an amendment of an entry that was in step moves both its views or neither. When it is
    accepted, the fiber was stated the new config, the runtime holds it, and the
    committed document, on disk as well, holds what the config serializes to as
    the last value written for the entry ([writes], [rewrites]), every other
    line of it as it was; after an error either nothing moved,
    or both views are at the new config (only the fiber's reload failed), or the
    returned error is recorded as the entry's fault. Other entries are never
    touched, and the engagement is released on every exit. *)
Theorem amendment_moves_both_views_or_none {W H C Ctx V} `{Contexts Ctx, EntryHandle W H C Ctx, Medium W C V}
    `{!Observes W H C Ctx V} debug in_teardown current await x (c : C) (m : Machine W H C Ctx V) w out m' w' :
  in_step x m w -> amend debug in_teardown current await x c m w = (out, (m', w')) ->
  gate m' = gate m /\
  match out with
  | Ok _ => taken x (with_config c) (writes c w) None m m' /\ in_step x m' w'
  | Err err =>
      (m' = m \/ taken x (with_config c) (writes c w) None m m') /\ in_step x m' w' \/ diverged x err m m'
  end.
Proof.
  intros Hin Ha. destruct (amend_views _ _ _ _ _ _ _ _ _ _ _ Hin Ha) as [Hg Hout]. split; [done|]. destruct out; [done|].
  destruct Hout as [[[->|[_ Ht]] Hi]|Hd]; [left|left|by right]; split; [by left|done|by right|done].
Qed.

(** C12: a disposal withdraws the fiber before the document follows. Accepted, the
    fiber was disposed, the entry runs nothing and the document has it disabled,
    config retained, in memory and on disk (one failed save is retried). Refused,
    nothing of the loader moved; and where only the document could not follow,
    the entry runs nothing and the returned error is its recorded fault. *)
Theorem disposal_is_never_forgotten {W H C Ctx V} `{Contexts Ctx, EntryHandle W H C Ctx, Medium W C V}
    `{!Observes W H C Ctx V} in_teardown current x (m : Machine W H C Ctx V) w out m' w' :
  disk_current m w -> dispose_entry in_teardown current x m w = (out, (m', w')) ->
  let disposed_first := forall h, live_handle x (state m) = Some h ->
    exists w1, handle_dispose h w = (Ok (), w1) in
  gate m' = gate m /\
  match out with
  | Ok _ => taken x (with_disabled true) writes_none (Some true) m m' /\ disk_current m' w' /\ disposed_first /\
      exists e, inert x e m'
  | Err err =>
      m' = m \/
      diverged x err m m' /\ disk_current m' w' /\ disposed_first /\
      exists e, record_of x (state m) = Some e /\ inert x (with_disabled true e) m'
  end.
Proof.
  intros Hd Hr disposed_first. unfold dispose_entry, engaged_entry in Hr.
  destruct (refuse_teardown_context _ _); [|by simplify_eq; split; [|left]].
  destruct (engage_entry x (gate m)) as [g|] eqn:Hg; [|by simplify_eq; split; [|left]].
  unfold dispose_engaged in Hr. simpl in Hr.
  destruct (amended x (with_disabled true) (state m)) as [a|] eqn:Ha;
    [|simplify_eq; simpl; rewrite (engage_release _ _ _ Hg); split; [done|left; by destruct m]].
  destruct (refuse_target _ _ _ _ _);
    [|simplify_eq; simpl; rewrite (engage_release _ _ _ Hg); split; [done|left; by destruct m]].
  destruct (match live_handle x (state m) with Some h => handle_dispose h w | None => (Ok (), w) end)
    as [[[]|error] w1] eqn:Hdis;
    [|simplify_eq; simpl; rewrite (engage_release _ _ _ Hg); split; [done|left; by destruct m]].
  assert (disk_current m w1) as Hd1.
  { intros p Hp. destruct (live_handle x (state m)) as [h|]; [|by simplify_eq; apply Hd].
    pose proof (dispose_disk h w) as Heq. rewrite Hdis in Heq. simpl in Heq. rewrite Heq. by apply Hd. }
  assert disposed_first as Hfirst.
  { intros h Hh. rewrite Hh in Hdis. by exists w1. }
  destruct (amended_ok _ _ _ _ (with_disabled_id true) Ha) as (r & e & Hrt & _ & He & Hspec & _).
  destruct (persist_disposal x _ w1) as [[u|fault] [m2 w2]] eqn:Hp;
    apply (persist_disposal_views x (MkMachine (state m) g (persist m)) _ _ _ _ _ Ha) in Hp
      as (Hg2 & Hd2 & Hin & Hout); try exact Hd1; simpl in Hr, Hout.
  - simplify_eq. simpl. rewrite Hg2. simpl. rewrite (engage_release _ _ _ Hg). split_and!; try done.
    by exists (amend_spec a).
  - destruct Hin as (r2 & Hr2 & Hsp2 & Hc2 & Hl2). unfold record_divergence in Hr. rewrite Hr2 in Hr.
    simplify_eq. simpl. rewrite Hg2. simpl. rewrite (engage_release _ _ _ Hg). split; [done|right].
    destruct Hout as (Hcm & Hpm & Hoth). unfold diverged, inert. simpl.
    split_and!; try done.
    + rewrite lookup_insert, decide_True by done. eexists. by split.
    + intros y Hy. rewrite lookup_insert_ne by done. by apply Hoth.
    + exists e. split; [done|]. rewrite lookup_insert, decide_True by done. eexists. split; [done|].
      simpl. by rewrite Hspec.
Qed.

(** ** A scripted world

    Fallible calls are answered by a script, [true] refusing; the world keeps
    what each fiber was last told and what was last saved. *)

Module AmendExample.
Record Toy := MkToy {
  script : list bool;
  next : Z;
  told : gmap FiberId nat;
  file : option (Document nat);
}.

Definition refused : KernelError := invalid "refused".

Definition ask (w : Toy) : bool * Toy :=
  match script w with
  | [] => (false, w)
  | b :: bs => (b, MkToy bs (next w) (told w) (file w))
  end.

#[export] Instance toy_contexts : Contexts (list (list IsolationBinding)) :=
  { derive_bind c b := c ++ [b]; realm_of _ _ := RealmRoot }.

#[export] Instance toy_handle : EntryHandle Toy FiberId nat (list (list IsolationBinding)) :=
  { handle_id h := h;
    handle_state _ _ := Active;
    withdrawing _ _ := false;
    resting _ _ := true;
    restart _ _ w := w;
    restate h c w :=
      let '(b, w) := ask w in
      if b then (Err refused, w) else (Ok (), MkToy (script w) (next w) (<[h := c]> (told w)) (file w));
    rebind _ _ w := w;
    handle_dispose _ w := let '(b, w) := ask w in (if b then Err refused else Ok (), w);
    quiesce _ w := (Ok (), w) }.

#[export] Instance toy_medium : Medium Toy nat nat :=
  { serialize c w := (SValue c, w);
    store_save d w :=
      let '(b, w) := ask w in
      if b then (Err refused, w) else (Ok (), MkToy (script w) (next w) (told w) (Some d));
    print_entry _ := "" }.

Lemma ask_told w : told (ask w).2 = told w.
Proof. unfold ask. by destruct (script w). Qed.
Lemma ask_file w : file (ask w).2 = file w.
Proof. unfold ask. by destruct (script w). Qed.

#[export] Instance toy_observes : Observes Toy FiberId nat (list (list IsolationBinding)) nat.
Proof.
  refine {| stated h w := told w !! h; on_disk := file |}; simpl; intros; try done.
  all: try (pose proof (ask_told w); pose proof (ask_file w); destruct (ask w) as [[] w1]; simplify_eq; simpl in *).
  all: rewrite ?lookup_insert, ?decide_True by done; congruence.
Defined.

Definition toy_lane : PackageLane Toy FiberId nat (list (list IsolationBinding)) :=
  MkPackageLane [] None (fun x _ c _ w =>
    let '(b, w) := ask w in
    if b then (Err refused, w)
    else (Ok (MkFiberId (next w)),
          MkToy (script w) (next w + 1) (<[MkFiberId (next w) := c]> (told w)) (file w))).

(** A package that needs the service it provides. *)
Definition loop_lane : PackageLane Toy FiberId nat (list (list IsolationBinding)) :=
  MkPackageLane [MkServiceType 0 "s"] (Some (MkServiceType 0 "s")) (spawn toy_lane).

Definition toy_loader : Loader Toy FiberId nat (list (list IsolationBinding)) :=
  MkLoader [] (fun _ w => w) {["pkg" := toy_lane; "loop" := loop_lane]} (Some Nat.eqb).

Abbreviation M := (Machine Toy FiberId nat (list (list IsolationBinding)) nat).
Abbreviation At := (M * Toy)%type.

Definition start : At := (MkMachine (MkState None ∅) no_slots (Some (MkPersistence empty_document None)),
  MkToy [] 0 ∅ (Some empty_document)).

Definition entry (x version : string) (c : nat) (off : bool) : ProfileEntry nat :=
  MkProfileEntry (MkEntryId x) (MkPluginRef "pkg" version "") c off None [].
Definition x : EntryId := MkEntryId "x".
Definition y : EntryId := MkEntryId "y".

Definition serve (answers : list bool) (p : Profile nat) (mw : At) : option ReconcileReport * At :=
  match reconcile_with toy_loader map_to_list (fun l => l) (fun _ w => w) false None p mw.1
    (MkToy answers (next mw.2) (told mw.2) (file mw.2)) with
  | (Ok report, mw) => (Some report, mw)
  | (Err _, mw) => (None, mw)
  end.

Definition one (version : string) (c : nat) (off : bool) : Profile nat := MkProfile [entry "x" version c off].
Definition two : Profile nat := MkProfile [entry "x" "1" 1 false; entry "y" "1" 1 false].

Definition running : At := (serve [] two start).2.

Definition update (z : EntryId) (c : nat) (mw : At) : result unit KernelError * At :=
  amend (fun _ => "") false None true z c mw.1 mw.2.

Lemma amendment_moves_both_views_or_none_witness :
  (update x 7 running).1 = Ok () /\ record_of x (state (update x 7 running).2.1) = Some (entry "x" "1" 7 false).
Proof.
  assert (in_step x running.1 running.2) as Hin.
  { split; [by intros h e [= <-] [= <-]|by intros p [= <-]]. }
  destruct (amendment_moves_both_views_or_none (fun _ => "") false None true x 7 running.1 running.2
    (update x 7 running).1 (update x 7 running).2.1 (update x 7 running).2.2 Hin) as [_ Hout].
  { by vm_compute. }
  assert ((update x 7 running).1 = Ok ()) as Hok by by vm_compute. rewrite Hok in Hout.
  split; [done|]. destruct Hout as [[(e & He & He' & _) _] _]. rewrite He'.
  assert (record_of x (state running.1) = Some (entry "x" "1" 1 false)) as Hx by by vm_compute.
  rewrite Hx in He. by injection He as <-.
Defined.

Lemma disposal_is_never_forgotten_witness :
  let out := dispose_entry false None x running.1 running.2 in
  out.1 = Ok () /\ record_of x (state out.2.1) = Some (entry "x" "1" 1 true).
Proof.
  assert (disk_current running.1 running.2) as Hd by by intros p [= <-].
  destruct (disposal_is_never_forgotten false None x running.1 running.2
    (dispose_entry false None x running.1 running.2).1 (dispose_entry false None x running.1 running.2).2.1
    (dispose_entry false None x running.1 running.2).2.2 Hd) as [_ Hout].
  { by vm_compute. }
  assert ((dispose_entry false None x running.1 running.2).1 = Ok ()) as Hok by by vm_compute.
  rewrite Hok in Hout. split; [done|]. destruct Hout as [[(e & He & He' & _) _] _].
  assert (record_of x (state running.1) = Some (entry "x" "1" 1 false)) as Hx by by vm_compute.
  rewrite Hx in He. injection He as <-. exact He'.
Defined.

Definition scripted (answers : list bool) (mw : At) : At :=
  (mw.1, MkToy answers (next mw.2) (told mw.2) (file mw.2)).

(** An administration, staged and committed under a script, with whatever runs
    between the two, and the task it leaves. *)
Definition administer (a : Administration nat) (between : At -> At) (answers : list bool) (mw : At) :
    option (result unit KernelError) * At :=
  match stage toy_loader map_to_list false None a mw.1 mw.2 with
  | (Err _, mw) => (None, mw)
  | (Ok st, mw) =>
      let mw := scripted answers (between mw) in
      match commit_administration toy_loader st mw.1 mw.2 with
      | (Err e, mw) => (Some (Err e), mw)
      | (Ok pending, mw) => (Some (Ok ()), finish_administration toy_loader st pending mw.1 mw.2)
      end
  end.

Definition running_one : At := (serve [] (one "1" 1 false) start).2.
Definition stopped_one : At := (serve [] (one "1" 1 true) start).2.

Definition faulted (mw : At) : list EntryId :=
  map fst (filter (fun p : EntryId * EntryRuntime Toy FiberId nat _ => is_Some (runtime_fault p.2))
    (map_to_list (runtimes (state mw.1)))).

Definition runs (z : EntryId) (mw : At) : option FiberId := live_handle z (state mw.1).

Definition errors_of (r : option ReconcileReport * At) : option (list EntryId) :=
  map fault_entry ∘ errors <$> r.1.

Definition replaced : option ReconcileReport * At := serve [false; false; true] (one "2" 1 false) running_one.
Definition restated : option ReconcileReport * At := serve [false; true] (one "1" 2 false) running_one.
Definition enabled : option (result unit KernelError) * At :=
  administer (EnableEntry x) (fun mw => mw) [false; true] stopped_one.
Definition reconciled : option ReconcileReport * At := serve [] (one "1" 1 false) enabled.2.
Definition overtaken : option (result unit KernelError) * At :=
  administer (Configure x 5) (fun mw => (update y 7 mw).2) [] running.
Definition unwritten : option (result unit KernelError) * At :=
  administer (Configure x 5) (fun mw => mw) [false; true; true] running.

Definition looping : ProfileEntry nat :=
  MkProfileEntry (MkEntryId "z") (MkPluginRef "loop" "1" "") 1 false None [].

(** A cycle is quarantined by a reconcile, and spawned by an administration. *)
Example an_administration_does_not_look_for_cycles :
  errors_of (serve [] (MkProfile [looping]) start) = Some [MkEntryId "z"] /\
  runs (MkEntryId "z") (serve [] (MkProfile [looping]) start).2 = None /\
  let added := administer (Add looping) (fun mw => mw) [] running in
  added.1 = Some (Ok ()) /\ runs (MkEntryId "z") added.2 = Some (MkFiberId 2).
Proof. by vm_compute. Qed.
End AmendExample.

Import AmendExample.

(** A step that was refused is not retried. The applied spec is the
    document's before the lane is asked, so after one refusal the same document
    is reported as unchanged: a replaced entry whose spawn was refused runs
    nothing for good, a refused config is never told to the fiber again, and an
    entry enabled by an administration whose spawn was refused stays down after
    the reconcile its recorded fault calls for. *)
Theorem a_refused_step_is_forgotten :
  (errors_of replaced = Some [x] /\
   let again := serve [] (one "2" 1 false) replaced.2 in
   errors_of again = Some [] /\ runs x again.2 = None) /\
  (errors_of restated = Some [x] /\
   let again := serve [] (one "1" 2 false) restated.2 in
   errors_of again = Some [] /\ runs x again.2 = Some (MkFiberId 0) /\
   told again.2.2 !! MkFiberId 0 = Some 1) /\
  (enabled.1 <> Some (Ok ()) /\ faulted enabled.2 = [x] /\
   errors_of reconciled = Some [x] /\ runs x reconciled.2 = None /\
   let again := serve [] (one "1" 1 false) reconciled.2 in
   errors_of again = Some [] /\ runs x again.2 = None).
Proof. vm_compute. by split_and!. Qed.

(** An administration can part the two views without a fault. One staged
    before an amendment of another entry and committed after it writes the old
    document back, so that entry runs a config no document holds; and where both
    the write-back and the withdrawal of the staged config fail, the fiber keeps
    a config the document never took. *)
Theorem an_administration_can_part_the_views :
  (overtaken.1 = Some (Ok ()) /\ faulted overtaken.2 = [] /\
   record_of y (state overtaken.2.1) = Some (entry "y" "1" 1 false) /\
   spec <$> runtimes (state overtaken.2.1) !! y = Some (entry "y" "1" 7 false) /\
   ~ in_step y overtaken.2.1 overtaken.2.2) /\
  (unwritten.1 = Some (Err refused) /\ faulted unwritten.2 = [] /\
   record_of x (state unwritten.2.1) = Some (entry "x" "1" 1 false) /\
   ~ in_step x unwritten.2.1 unwritten.2.2).
Proof.
  assert (forall z (mw : At) h e, live_handle z (state mw.1) = Some h -> record_of z (state mw.1) = Some e ->
    stated h mw.2 <> Some (config e) -> ~ in_step z mw.1 mw.2) as Hout.
  { intros z mw h e Hh He Hne [Hin _]. by apply Hne, Hin. }
  split; split_and!; try by vm_compute.
  - apply (Hout y overtaken.2 (MkFiberId 1) (entry "y" "1" 1 false)); by vm_compute.
  - apply (Hout x unwritten.2 (MkFiberId 0) (entry "x" "1" 1 false)); by vm_compute.
Qed.
