(* ===== verification/Waits.v ===== *)
(** * The wait graph ([jinnd-wasm/src/waits.rs])

    Who is parked on whom right now. A crossing that would close a cycle is
    refused when it is made; every other one holds an edge for as long as the
    caller is parked. *)

From stdpp Require Import base gmap sets list strings relations.
From S2P Require Import Prelude Api.

Record WaitEdge := MkWaitEdge { waiter : FiberId; target : FiberId; edge_on : string }.

#[export] Instance WaitEdge_eq_dec : EqDecision WaitEdge.
Proof. solve_decision. Defined.

Record Cycle := MkCycle {
  cycle_waiter : FiberId;
  waiter_entry : option EntryId;
  cycle_target : FiberId;
  target_entry : option EntryId;
  cycle_on : string;
  through : list WaitEdge;
}.

(** [Inner]: edges by ticket, in ticket order. *)
Record WaitGraph := MkWaitGraph { last_ticket : Z; tickets : list (Z * WaitEdge) }.

Definition new_graph : WaitGraph := MkWaitGraph 0 [].

Definition edges (g : WaitGraph) : list WaitEdge := map snd (tickets g).

(** ** The search for a path ([Inner::reaches]) *)

Section Search.
Context (goal : FiberId).

(** The inner loop over the edges of one fiber: a path to the goal, or what is
    seen and the frontier (its top first). *)
Fixpoint scan (fiber : FiberId) (path es : list WaitEdge) (seen : list FiberId)
    (frontier : list (FiberId * list WaitEdge)) :
    list WaitEdge + (list FiberId * list (FiberId * list WaitEdge)) :=
  match es with
  | [] => inr (seen, frontier)
  | e :: es =>
      if decide (waiter e = fiber) then
        let onward := path ++ [e] in
        if decide (target e = goal) then inl onward
        else if decide (target e ∈ seen) then scan fiber path es seen frontier
        else scan fiber path es (seen ++ [target e]) ((target e, onward) :: frontier)
      else scan fiber path es seen frontier
  end.

Fixpoint search (fuel : nat) (es : list WaitEdge) (seen : list FiberId)
    (frontier : list (FiberId * list WaitEdge)) : option (list WaitEdge) :=
  match fuel, frontier with
  | S fuel, (fiber, path) :: frontier =>
      match scan fiber path es seen frontier with
      | inl found => Some found
      | inr (seen, frontier) => search fuel es seen frontier
      end
  | _, _ => None
  end.
End Search.

Definition reaches (from goal : FiberId) (g : WaitGraph) : option (list WaitEdge) :=
  if decide (from = goal) then Some []
  else search goal (S (length (edges g))) (edges g) [from] [(from, [])].

(** ** Operations *)

Definition would_close (w t : option FiberId) (g : WaitGraph) : bool :=
  match w, t with
  | Some w, Some t => bool_decide (reaches t w g <> None)
  | _, _ => false
  end.

Section Naming.
(** The snapshot that names the entry a fiber serves. *)
Context (entry : FiberId -> option EntryId).

(** An end without a fiber gets an inert ticket ([None]). *)
Definition enter (w t : option FiberId) (on : string) (g : WaitGraph) :
    result (option Z) Cycle * WaitGraph :=
  match w, t with
  | Some w, Some t =>
      match reaches t w g with
      | Some through => (Err (MkCycle w (entry w) t (entry t) on through), g)
      | None =>
          let ticket := (last_ticket g + 1)%Z in
          (Ok (Some ticket), MkWaitGraph ticket (tickets g ++ [(ticket, MkWaitEdge w t on)]))
      end
  | _, _ => (Ok None, g)
  end.

Definition cycle (w t : FiberId) (on : string) (g : WaitGraph) : Cycle :=
  MkCycle w (entry w) t (entry t) on (default [] (reaches t w g)).
End Naming.

Definition release (ticket : Z) (g : WaitGraph) : WaitGraph :=
  MkWaitGraph (last_ticket g) (filter (fun p : Z * WaitEdge => p.1 <> ticket) (tickets g)).

(** [Drop] of a ticket. *)
Definition drop_ticket (ticket : option Z) (g : WaitGraph) : WaitGraph :=
  match ticket with Some ticket => release ticket g | None => g end.

(** ** The relation of live waits *)

Definition awaits (es : list WaitEdge) (a b : FiberId) : Prop :=
  exists e, e ∈ es /\ waiter e = a /\ target e = b.

(** Consecutive waits from [a] to [b]. *)
Fixpoint path_between (es : list WaitEdge) (a b : FiberId) (p : list WaitEdge) : Prop :=
  match p with
  | [] => a = b
  | e :: p => e ∈ es /\ waiter e = a /\ path_between es (target e) b p
  end.

Lemma path_snoc es a b p e :
  path_between es a b p -> e ∈ es -> waiter e = b -> path_between es a (target e) (p ++ [e]).
Proof.
  revert a. induction p as [|e' p IH]; simpl; intros a.
  - intros <- He Hw. by split_and!.
  - intros (? & ? & ?) ? ?. split_and!; auto.
Qed.

Lemma path_rtc es a b p : path_between es a b p -> rtc (awaits es) a b.
Proof.
  revert a. induction p as [|e p IH]; simpl; intros a; [intros <-; apply rtc_refl|].
  intros (He & Hw & Hp). eapply rtc_l; [by exists e|by apply IH].
Qed.

Section SearchLaws.
Context (goal from : FiberId) (es : list WaitEdge).
Implicit Types (fiber : FiberId) (path : list WaitEdge) (seen : list FiberId)
  (frontier : list (FiberId * list WaitEdge)).

(** What holds before a fiber is taken off the frontier: what is off it has all
    its targets seen. *)
Record sweeping seen frontier : Prop := {
  sw_from : from ∈ seen;
  sw_goal : goal ∉ seen;
  sw_nodup : NoDup seen;
  sw_paths fiber path : (fiber, path) ∈ frontier -> path_between es from fiber path;
  sw_done fiber e : fiber ∈ seen -> fiber ∉ map fst frontier -> e ∈ es -> waiter e = fiber ->
    target e ∈ seen;
  sw_targets : forall f, f ∈ seen -> f = from \/ f ∈ map target es;
}.

(** One inner loop, from any suffix of the edges. *)
Lemma scan_sweeping fiber path done todo seen frontier :
  es = done ++ todo -> path_between es from fiber path ->
  from ∈ seen -> goal ∉ seen -> NoDup seen ->
  (forall f p, (f, p) ∈ frontier -> path_between es from f p) ->
  (forall f e, f ∈ seen -> f ∉ map fst frontier -> f <> fiber -> e ∈ es -> waiter e = f -> target e ∈ seen) ->
  (forall e, e ∈ done -> waiter e = fiber -> target e ∈ seen) ->
  (forall f, f ∈ seen -> f = from \/ f ∈ map target es) ->
  match scan goal fiber path todo seen frontier with
  | inl found => path_between es from goal found
  | inr (seen', frontier') =>
      sweeping seen' frontier' /\
      exists more, seen' = seen ++ more /\ length frontier' = length frontier + length more
  end.
Proof.
  revert done seen frontier. induction todo as [|e todo IH]; intros done seen frontier Hes Hpath Hfrom Hgoal
    Hnd Hfp Hoff Hdone Htg; simpl.
  - split; [|exists []; by rewrite app_nil_r]. split; try done. intros f e Hf Hn He Hw.
    destruct (decide (f = fiber)) as [->|Hne]; [|by eapply Hoff].
    apply Hdone; [|done]. by rewrite Hes, app_nil_r in He.
  - assert (e ∈ es) as He by (rewrite Hes; apply elem_of_app; right; by left).
    assert (forall l : list FiberId, (waiter e = fiber -> target e ∈ l) ->
      (forall e', e' ∈ done -> waiter e' = fiber -> target e' ∈ l) ->
      forall e', e' ∈ done ++ [e] -> waiter e' = fiber -> target e' ∈ l) as Hext.
    { intros l Hnew Hold e' [He'| ->%list_elem_of_singleton]%elem_of_app; auto. }
    rewrite cons_middle, app_assoc in Hes.
    destruct (decide (waiter e = fiber)) as [Hw|Hw].
    + destruct (decide (target e = goal)) as [<-|Hng]; [by apply path_snoc with fiber|].
      destruct (decide (target e ∈ seen)) as [Hs|Hs].
      * apply (IH (done ++ [e])); try done. by apply Hext.
      * ospecialize* (IH (done ++ [e]) (seen ++ [target e]) ((target e, path ++ [e]) :: frontier)); try done.
        -- apply elem_of_app; by left.
        -- intros [?|?%list_elem_of_singleton]%elem_of_app; congruence.
        -- apply NoDup_app. split_and!; [done| |apply NoDup_singleton].
           intros f Hf ->%list_elem_of_singleton. done.
        -- intros f p [[= -> ->]|Hin]%elem_of_cons; [by apply path_snoc with fiber|auto].
        -- intros f e' Hf Hn Hne He' Hw'. simpl in Hn. apply not_elem_of_cons in Hn as [Hn1 Hn2].
           apply elem_of_app in Hf as [Hf| ->%list_elem_of_singleton]; [|done].
           apply elem_of_app. left. by eapply Hoff.
        -- apply Hext; [intros _; apply elem_of_app; right; by left|].
           intros e' He' Hw'. apply elem_of_app. left. auto.
        -- intros f [Hf| ->%list_elem_of_singleton]%elem_of_app; [auto|].
           right. apply list_elem_of_fmap. by exists e.
        -- destruct (scan goal fiber path todo (seen ++ [target e]) _) as [found|[seen' frontier']]; [done|].
           destruct IH as [Hsw (more & -> & Hlen)]. split; [done|].
           exists (target e :: more). rewrite <-app_assoc. split; [done|]. simpl in *. lia.
    + apply (IH (done ++ [e])); try done. by apply Hext.
Qed.

Lemma sweeping_done seen : sweeping seen [] -> ~ rtc (awaits es) from goal.
Proof.
  intros Hsw Hr. apply (sw_goal _ _ Hsw).
  apply (rtc_invariant (awaits es) (fun f => f ∈ seen)) with from; [|done|apply Hsw].
  intros f f' Hf (e & He & Hw & <-). eapply (sw_done _ _ Hsw); [done|simpl; set_solver|done|done].
Qed.

Lemma search_sweeping fuel seen frontier :
  sweeping seen frontier -> length frontier + S (length es) <= fuel + length seen ->
  match search goal fuel es seen frontier with
  | Some found => path_between es from goal found
  | None => ~ rtc (awaits es) from goal
  end.
Proof.
  revert seen frontier. induction fuel as [|fuel IH]; intros seen frontier Hsw Hfuel; simpl.
  - assert (length seen <= S (length es)) as Hbound.
    { rewrite <-(length_map target es). change (S (length (map target es))) with (length (from :: map target es)).
      apply submseteq_length, NoDup_submseteq; [apply Hsw|]. intros f Hf. apply elem_of_cons.
      by apply (sw_targets _ _ Hsw). }
    destruct frontier as [|x frontier]; [|simpl in Hfuel; lia].
    by apply sweeping_done with seen.
  - destruct frontier as [|[fiber path] frontier].
    + by apply sweeping_done with seen.
    + pose proof (scan_sweeping fiber path [] es seen frontier eq_refl
        (sw_paths _ _ Hsw _ _ ltac:(by left)) (sw_from _ _ Hsw) (sw_goal _ _ Hsw) (sw_nodup _ _ Hsw)) as Hscan.
      ospecialize* Hscan.
      * intros f p Hin. apply (sw_paths _ _ Hsw). by right.
      * intros f e Hf Hn Hne He Hw. eapply (sw_done _ _ Hsw); [done| |done|done].
        simpl. by apply not_elem_of_cons.
      * intros e He. by apply elem_of_nil in He.
      * apply Hsw.
      * destruct (scan goal fiber path es seen frontier) as [found|[seen' frontier']]; [done|].
        destruct Hscan as [Hsw' (more & -> & Hlen)]. apply IH; [done|].
        rewrite length_app, Hlen. simpl in Hfuel. lia.
Qed.
End SearchLaws.

(** The search answers a path exactly when there is one. *)
Lemma reaches_spec from goal g :
  match reaches from goal g with
  | Some p => path_between (edges g) from goal p
  | None => ~ rtc (awaits (edges g)) from goal
  end.
Proof.
  unfold reaches. destruct (decide (from = goal)) as [->|Hne]; [done|].
  apply search_sweeping; [|simpl; lia]. split; simpl.
  - by left.
  - intros ?%list_elem_of_singleton. congruence.
  - apply NoDup_singleton.
  - intros f p [= -> ->]%list_elem_of_singleton. done.
  - intros f e ->%list_elem_of_singleton Hn. exfalso. apply Hn. by left.
  - intros f ->%list_elem_of_singleton. by left.
Qed.

(** ** What an operation does to the relation *)

Lemma awaits_app es e a b :
  awaits (es ++ [e]) a b <-> awaits es a b \/ (a = waiter e /\ b = target e).
Proof.
  unfold awaits. split.
  - intros (e' & [He| ->%list_elem_of_singleton]%elem_of_app & <- & <-); eauto.
  - intros [(e' & He & Hw & Ht)|[-> ->]]; [exists e'|exists e];
      (split; [apply elem_of_app|done]); [by left|right; by left].
Qed.

(** What a wait that closes no cycle adds to reachability. *)
Lemma awaits_added es e a b :
  ~ rtc (awaits es) (target e) (waiter e) -> rtc (awaits (es ++ [e])) a b ->
  rtc (awaits es) a b \/ (rtc (awaits es) a (waiter e) /\ rtc (awaits es) (target e) b).
Proof.
  intros Hno Hr. revert b Hr. apply (rtc_ind_r (fun b => rtc (awaits es) a b \/ _ /\ rtc (awaits es) (target e) b)).
  - left. apply rtc_refl.
  - intros b c _ [Hbc|[-> ->]]%awaits_app [Hab|[Haw Htb]].
    + left. by eapply rtc_r.
    + right. split; [done|by eapply rtc_r].
    + right. split; [done|apply rtc_refl].
    + done.
Qed.

Definition acyclic (es : list WaitEdge) : Prop := forall f, ~ tc (awaits es) f f.

Lemma tc_head es a b : tc (awaits es) a b <-> exists c, awaits es a c /\ rtc (awaits es) c b.
Proof.
  split.
  - intros [x y H|x y z H Hr]; eexists; (split; [done|]); [apply rtc_refl|by apply tc_rtc].
  - intros (c & H & Hr). by eapply tc_rtc_r; [apply tc_once|].
Qed.

Lemma acyclic_added es e :
  acyclic es -> ~ rtc (awaits es) (target e) (waiter e) -> acyclic (es ++ [e]).
Proof.
  intros Hac Hno f (c & Hfc & Hcf)%tc_head.
  apply awaits_added in Hcf as [Hcf|[Hcw Htf]]; [| |done];
    apply awaits_app in Hfc as [Hfc|[-> ->]]; try done.
  - apply (Hac f), tc_head. eauto.
  - apply Hno. etrans; [done|]. by eapply rtc_l.
Qed.

Lemma acyclic_sublist es es' : (forall e, e ∈ es' -> e ∈ es) -> acyclic es -> acyclic es'.
Proof.
  intros Hsub Hac f Hf. apply (Hac f). revert Hf. apply (tc_congruence id).
  intros a b (e & He & ? & ?). exists e. auto.
Qed.

(** In an acyclic graph every chain of waits ends at a fiber that waits for
    nobody. *)
Lemma acyclic_ends es f :
  acyclic es -> exists last, rtc (awaits es) f last /\ forall g, ~ awaits es last g.
Proof.
  intros Hac. assert (sn (awaits es) f) as Hsn.
  { apply tc_finite_sn; [exact Hac|]. exists (map target es). intros g Hg.
    revert Hg. apply (tc_ind_r (fun g => g ∈ map target es)).
    - intros ? (e & He & _ & <-). by apply list_elem_of_fmap_2.
    - intros x ? _ (e & He & _ & <-) _. by apply list_elem_of_fmap_2. }
  induction Hsn as [f _ IH].
  destruct (decide (Exists (fun e => waiter e = f) es)) as [(e & He & Hw)%Exists_exists|Hn].
  - destruct (IH (target e)) as (l & Hl & Hend); [by exists e|].
    exists l. split; [|done]. eapply rtc_l; [by exists e|done].
  - exists f. split; [apply rtc_refl|]. intros g (e & He & Hw & _). apply Hn, Exists_exists. eauto.
Qed.

(** ** The graph under any interleaving of crossings *)

Section Crossings.
Context (entry : FiberId -> option EntryId).

(** One crossing parks, or one ticket is dropped: a live one, an inert one or
    one already dropped. *)
Inductive crossing (g : WaitGraph) : WaitGraph -> Prop :=
  | parks w t on : crossing g (enter entry w t on g).2
  | settles ticket : crossing g (drop_ticket ticket g).

Record sound (g : WaitGraph) : Prop := {
  sound_acyclic : acyclic (edges g);
  sound_tickets : NoDup (map fst (tickets g));
  sound_last k : k ∈ map fst (tickets g) -> (k <= last_ticket g)%Z;
}.

Lemma elem_of_release k e ticket g :
  (k, e) ∈ tickets (release ticket g) <-> k <> ticket /\ (k, e) ∈ tickets g.
Proof. unfold release. simpl. by rewrite list_elem_of_filter. Qed.

Lemma edges_release e ticket g : e ∈ edges (release ticket g) -> e ∈ edges g.
Proof.
  intros ([k e'] & -> & Hin)%list_elem_of_fmap. apply elem_of_release in Hin as [_ Hin].
  apply list_elem_of_fmap. by exists (k, e').
Qed.

Lemma sound_new : sound new_graph.
Proof.
  split; simpl.
  - intros f (c & (e & He & _) & _)%tc_head. by apply elem_of_nil in He.
  - constructor.
  - by intros k ?%elem_of_nil.
Qed.

Lemma sound_release ticket g : sound g -> sound (release ticket g).
Proof.
  intros [Hac Hnd Hlast]. split.
  - eapply acyclic_sublist; [|done]. intros e. apply edges_release.
  - simpl. by apply NoDup_map_filter.
  - simpl. intros k ([k' e] & -> & [_ Hin]%list_elem_of_filter)%list_elem_of_fmap.
    apply Hlast, list_elem_of_fmap. by exists (k', e).
Qed.

Lemma sound_enter w t on g : sound g -> sound (enter entry w t on g).2.
Proof.
  intros Hs. unfold enter. destruct w as [w|], t as [t|]; try done.
  pose proof (reaches_spec t w g) as Hr. destruct (reaches t w g) as [p|]; [done|].
  destruct Hs as [Hac Hnd Hlast]. split; simpl.
  - unfold edges. simpl. rewrite map_app. simpl. by apply acyclic_added.
  - rewrite map_app. simpl. apply NoDup_app. split_and!; [done| |apply NoDup_singleton].
    intros k Hk ->%list_elem_of_singleton. specialize (Hlast _ Hk). lia.
  - intros k. rewrite map_app. simpl. intros [Hk| ->%list_elem_of_singleton]%elem_of_app; [|lia].
    specialize (Hlast _ Hk). lia.
Qed.

Definition crossed : WaitGraph -> Prop := reachable (fun g => g = new_graph) crossing.

Lemma crossed_sound g : crossed g -> sound g.
Proof.
  apply reachable_invariant; [intros ? ->; apply sound_new|].
  intros g' _ Hs [w t on|[ticket|]]; [by apply sound_enter|by apply sound_release|done].
Qed.

(** C13: However crossings park and settle, the waits never close a cycle: from
    every fiber the chain of waits ends at one that waits for nobody, so some
    crossing can always be answered. A crossing is refused exactly when its
    target already waits, transitively, on its caller; the refusal names both
    ends and a path of live waits between them and leaves the graph alone, and
    an admitted one adds its edge, last, under a ticket no live crossing has. *)
Theorem waits_never_deadlock g :
  crossed g ->
  (forall f, exists last, rtc (awaits (edges g)) f last /\ forall next, ~ awaits (edges g) last next) /\
  forall w t on,
    (would_close (Some w) (Some t) g = true <-> rtc (awaits (edges g)) t w) /\
    match enter entry (Some w) (Some t) on g with
    | (Err c, g') =>
        g' = g /\ c = cycle entry w t on g /\ cycle_waiter c = w /\ cycle_target c = t /\
        path_between (edges g) t w (through c)
    | (Ok ticket, g') =>
        ~ rtc (awaits (edges g)) t w /\
        exists k, ticket = Some k /\ k ∉ map fst (tickets g) /\
          tickets g' = tickets g ++ [(k, MkWaitEdge w t on)]
    end.
Proof.
  intros Hs%crossed_sound. split; [intros f; by apply acyclic_ends, Hs|]. intros w t on.
  unfold would_close, enter, cycle. pose proof (reaches_spec t w g) as Hr.
  destruct (reaches t w g) as [p|].
  - split; [|done]. rewrite bool_decide_eq_true. split; [|done]. intros _. by eapply path_rtc.
  - split; [rewrite bool_decide_eq_true; tauto|]. split; [done|]. eexists. split_and!; [done| |done].
    intros Hk. apply (sound_last _ Hs) in Hk. lia.
Qed.
End Crossings.

(** ** Example: a chain of three, and two ways round *)

Module WaitsExample.
Definition f (n : Z) : FiberId := MkFiberId n.
Definition names (a : FiberId) : option EntryId :=
  if decide (a = f 1) then Some (MkEntryId "app") else None.
Definition park (a b : Z) (g : WaitGraph) : WaitGraph :=
  (enter names (Some (f a)) (Some (f b)) "jinn:kv.get" g).2.

Definition chain : WaitGraph := park 2 3 (park 1 2 new_graph).

Lemma waits_never_deadlock_witness :
  crossed names chain /\
  enter names (Some (f 3)) (Some (f 1)) "jinn:kv.get" chain =
    (Err (MkCycle (f 3) None (f 1) (Some (MkEntryId "app")) "jinn:kv.get" (edges chain)), chain) /\
  would_close (Some (f 3)) (Some (f 1)) (release 1 chain) = false /\
  exists last, rtc (awaits (edges chain)) (f 1) last /\ forall next, ~ awaits (edges chain) last next.
Proof.
  assert (crossed names chain) as Hc.
  { eapply reachable_step; [eapply reachable_step; [by apply reachable_init|]|]; apply parks. }
  split_and!; [done|by vm_compute|by vm_compute|].
  exact (proj1 (waits_never_deadlock names chain Hc) (f 1)).
Defined.

(** The walk takes the fiber it saw last, so the path a refusal reports need
    not be the shortest: here [1 -> 2 -> 4] exists beside it. *)
Example the_reported_path_can_be_the_long_one :
  reaches (f 1) (f 4) (park 3 5 (park 5 4 (park 1 3 (park 2 4 (park 1 2 new_graph))))) =
  Some (map (fun p : Z * Z => MkWaitEdge (f p.1) (f p.2) "jinn:kv.get") [(1, 3); (3, 5); (5, 4)]%Z).
Proof. reflexivity. Qed.
End WaitsExample.
