(* ===== verification/Text.v ===== *)
(** * Text as the standard library reads it

    The string operations of Rust's standard library that the WASM host uses, on
    ASCII text where the case of a letter or white space matters, and what
    parsing makes of a printed number. *)

From Stdlib Require Import Ascii.
From stdpp Require Import base gmap sets list strings pretty.
From S2P Require Import Prelude.

(** ** Searching and cutting *)

Definition slash : ascii := "/"%char.

(** [str::split(c)]: never empty. *)
Fixpoint split_on (c : ascii) (s : string) : list string :=
  match s with
  | EmptyString => [EmptyString]
  | String x s =>
      if decide (x = c) then EmptyString :: split_on c s
      else match split_on c s with
           | first :: rest => String x first :: rest
           | [] => [String x EmptyString]
           end
  end.

Fixpoint trim_start (c : ascii) (s : string) : string :=
  match s with
  | String x rest => if decide (x = c) then trim_start c rest else s
  | EmptyString => EmptyString
  end.

(** [str::starts_with]. *)
Fixpoint starts_with (p s : string) : bool :=
  match p, s with
  | EmptyString, _ => true
  | String x p, String y s => bool_decide (x = y) && starts_with p s
  | String _ _, EmptyString => false
  end.

Lemma starts_with_spec p s : starts_with p s = true <-> exists rest, s = p +:+ rest.
Proof.
  revert s. induction p as [|x p IH]; intros s; simpl; [split; [by exists s|done]|].
  destruct s as [|y s]; [split; [done|by intros [? ?]]|].
  rewrite andb_true_iff, bool_decide_eq_true, IH. split.
  - intros [-> [rest ->]]. by exists rest.
  - intros [rest [= <- ->]]. split; [done|by exists rest].
Qed.

(** [str::split_once]: at the first occurrence. *)
Fixpoint split_once (c : ascii) (s : string) : option (string * string) :=
  match s with
  | EmptyString => None
  | String x s =>
      if decide (x = c) then Some (EmptyString, s)
      else '(before, after) ← split_once c s; Some (String x before, after)
  end.

Fixpoint has_char (c : ascii) (s : string) : bool :=
  match s with EmptyString => false | String x s => bool_decide (x = c) || has_char c s end.

(** [str::strip_suffix]. *)
Fixpoint strip_suffix (suffix s : string) : option string :=
  if decide (s = suffix) then Some EmptyString
  else match s with
       | String c rest => String c <$> strip_suffix suffix rest
       | EmptyString => None
       end.

Definition is_space (c : ascii) : bool :=
  let n := nat_of_ascii c in bool_decide (n = 32 \/ 9 <= n <= 13).

Fixpoint trim_front (s : string) : string :=
  match s with
  | String c rest => if is_space c then trim_front rest else s
  | EmptyString => EmptyString
  end.

Fixpoint trim_back (s : string) : string :=
  match s with
  | String c rest =>
      match trim_back rest with
      | EmptyString => if is_space c then EmptyString else String c EmptyString
      | rest => String c rest
      end
  | EmptyString => EmptyString
  end.

(** [str::trim]. *)
Definition trim (s : string) : string := trim_front (trim_back s).

(** ** Numbers *)

Definition digit (c : ascii) : option Z :=
  let n := Z.of_nat (nat_of_ascii c) in
  if decide (48 <= n <= 57)%Z then Some (n - 48)%Z else None.

Fixpoint digits (max acc : Z) (s : string) : option Z :=
  match s with
  | EmptyString => Some acc
  | String c s =>
      d ← digit c;
      let acc := (acc * 10 + d)%Z in
      if (acc <=? max)%Z then digits max acc s else None
  end.

(** [str::parse] of an unsigned integer up to [max]: an optional plus sign,
    then digits. *)
Definition parse_unsigned (max : Z) (s : string) : option Z :=
  let s := match s with
           | String c (String _ _ as rest) => if decide (c = "+"%char) then rest else s
           | _ => s
           end in
  if decide (s = "") then None else digits max 0 s.

Definition parse_u16 (s : string) : option Z := parse_unsigned 65535 s.

Definition lower (c : ascii) : ascii :=
  let n := nat_of_ascii c in if decide (65 <= n <= 90) then ascii_of_nat (n + 32) else c.

Fixpoint to_lowercase (s : string) : string :=
  match s with EmptyString => EmptyString | String c s => String (lower c) (to_lowercase s) end.


(** ** Printed numbers read back *)

Lemma digit_pretty x : (x < 10)%N -> digit (pretty_N_char x) = Some (Z.of_N x).
Proof.
  intros Hx. assert (x = 0 \/ x = 1 \/ x = 2 \/ x = 3 \/ x = 4 \/ x = 5 \/ x = 6 \/ x = 7 \/ x = 8 \/ x = 9)%N
    as H by lia. by repeat destruct H as [->|H]; try subst x.
Qed.

Lemma digits_pretty_go max n s :
  (Z.of_N n <= max)%Z -> digits max 0 (pretty_N_go n s) = digits max (Z.of_N n) s.
Proof.
  revert s. induction (N.lt_wf_0 n) as [n _ IH]; intros s Hn.
  assert (n = 0 \/ 0 < n)%N as [->|Hpos] by lia; [by rewrite pretty_N_go_0|].
  rewrite pretty_N_go_step by done. pose proof (N.div_mod n 10 ltac:(lia)) as Hdm.
  pose proof (N.mod_lt n 10 ltac:(lia)) as Hm.
  pose proof (N.div_lt n 10 Hpos ltac:(lia)) as Hlt. rewrite IH by lia. cbn [digits]. rewrite digit_pretty by done. simpl.
  replace (Z.of_N (n / 10) * 10 + Z.of_N (n mod 10))%Z with (Z.of_N n) by lia.
  by rewrite (proj2 (Z.leb_le _ _) Hn).
Qed.

Lemma digits_pretty max n : (0 <= n <= max)%Z -> digits max 0 (pretty n) = Some n.
Proof.
  intros Hn. destruct n as [|p|p]; [|change (pretty (Z.pos p)) with (pretty (N.pos p))|lia].
  - change (pretty 0%Z) with "0"%string. cbn [digits]. change (digit "0") with (Some 0%Z). cbn [mbind option_bind].
    change (0 * 10 + 0)%Z with 0%Z. by rewrite (proj2 (Z.leb_le 0 max)) by lia.
  - unfold pretty, pretty_N. rewrite decide_False by done. rewrite digits_pretty_go by lia. done.
Qed.

Lemma parse_digits max s n : digits max 0 s = Some n -> s <> "" -> parse_unsigned max s = Some n.
Proof.
  intros Hd Hs. unfold parse_unsigned. destruct s as [|c [|c' s]]; [done|done|].
  rewrite (decide_False (P := c = "+"%char)); [done|]. intros ->. done.
Qed.

Lemma pretty_ne_empty n : (0 <= n)%Z -> pretty n <> "".
Proof.
  intros Hn H. pose proof (digits_pretty n n ltac:(lia)) as Hd. rewrite H in Hd. injection Hd as <-. done.
Qed.

Lemma parse_pretty max n : (0 <= n <= max)%Z -> parse_unsigned max (pretty n) = Some n.
Proof. intros Hn. apply parse_digits; [by apply digits_pretty|apply pretty_ne_empty; lia]. Qed.

Lemma digit_not_space c n : digit c = Some n -> is_space c = false.
Proof.
  unfold digit, is_space. case_decide; [|done]. intros _. apply bool_decide_eq_false. lia.
Qed.

Lemma trim_back_digits max acc s n : digits max acc s = Some n -> trim_back s = s.
Proof.
  revert acc. induction s as [|c s IH]; intros acc; [done|]. cbn [digits trim_back].
  destruct (digit c) as [d|] eqn:Hc; [|done]. simpl. destruct (_ <=? max)%Z; [|done]. intros Hs.
  rewrite (IH _ Hs). destruct s; [|done]. by rewrite (digit_not_space _ _ Hc).
Qed.

Lemma trim_digits max acc s n : digits max acc s = Some n -> trim s = s.
Proof.
  intros Hs. unfold trim. rewrite (trim_back_digits _ _ _ _ Hs). destruct s as [|c s]; [done|].
  cbn [digits] in Hs. simpl. destruct (digit c) as [d|] eqn:Hc; [|done].
  by rewrite (digit_not_space _ _ Hc).
Qed.

(** ** Suffixes *)

Lemma append_length a b : String.length (a +:+ b) = String.length a + String.length b.
Proof. induction a as [|c a IH]; simpl; [done|by rewrite IH]. Qed.

Lemma strip_suffix_app suffix s : strip_suffix suffix (s +:+ suffix) = Some s.
Proof.
  induction s as [|c s IH].
  - change (EmptyString +:+ suffix) with suffix. destruct suffix; cbn [strip_suffix]; case_decide; done.
  - change (String c s +:+ suffix) with (String c (s +:+ suffix)). cbn [strip_suffix].
    rewrite decide_False, IH; [done|]. intros H. apply (f_equal String.length) in H. simpl in H.
    rewrite append_length in H. lia.
Qed.

Lemma strip_suffix_Some suffix s p : strip_suffix suffix s = Some p -> s = p +:+ suffix.
Proof.
  revert p. induction s as [|c s IH]; intros p; cbn [strip_suffix]; case_decide as Hs.
  - intros [= <-]. subst; by rewrite ?Hs.
  - done.
  - intros [= <-]. by rewrite Hs.
  - destruct (strip_suffix suffix s) as [q|]; [|done]. intros [= <-]. simpl. by rewrite (IH q).
Qed.

(** ** Cuts *)

Lemma append_assoc (a b c : string) : (a +:+ b) +:+ c = a +:+ (b +:+ c).
Proof.
  induction a as [|x a IH]; [done|]. change (String x ((a +:+ b) +:+ c) = String x (a +:+ b +:+ c)). by rewrite IH.
Qed.

Lemma has_char_app c a b : has_char c (a +:+ b) = has_char c a || has_char c b.
Proof. induction a as [|x a IH]; [done|]. change (bool_decide (x = c) || has_char c (a +:+ b) = bool_decide (x = c) || has_char c a || has_char c b). by rewrite IH, orb_assoc. Qed.

Lemma split_once_first c a b : has_char c a = false -> split_once c (a +:+ String c b) = Some (a, b).
Proof.
  induction a as [|x a IH]; [by intros _; simpl; rewrite decide_True|]. intros [Hx Ha]%orb_false_iff.
  apply bool_decide_eq_false in Hx. change (String x a +:+ String c b) with (String x (a +:+ String c b)). cbn [split_once].
  rewrite decide_False, IH by done. done.
Qed.

Lemma split_once_before c s a b : split_once c s = Some (a, b) -> has_char c a = false.
Proof.
  revert a. induction s as [|x s IH]; intros a; [done|]. cbn [split_once]. destruct (decide (x = c)) as [|Hx]; [by intros [= <- _]|].
  destruct (split_once c s) as [[a' b']|]; [|done]. intros [= <- <-]. cbn [has_char]. rewrite (IH a') by done.
  by rewrite bool_decide_eq_false_2.
Qed.

Lemma split_once_None c s : split_once c s = None -> has_char c s = false.
Proof.
  induction s as [|x s IH]; [done|]. cbn [split_once has_char]. destruct (decide (x = c)) as [|Hx]; [done|].
  destruct (split_once c s) as [[]|]; [done|]. intros _. rewrite IH by done. by rewrite bool_decide_eq_false_2.
Qed.

(** A cut is at the first occurrence: nothing before it has the character. *)
Lemma split_once_spec c s a b : split_once c s = Some (a, b) <-> s = a +:+ String c b /\ has_char c a = false.
Proof.
  split; [|intros [-> Ha]; by apply split_once_first]. intros Hs. split; [|by eapply split_once_before].
  revert a Hs. induction s as [|x s IH]; intros a; [done|]. cbn [split_once]. case_decide as Hx; [by intros [= <- <-]; subst|].
  destruct (split_once c s) as [[a' b']|]; [|done]. intros [= <- <-]. by rewrite (IH a' eq_refl) at 1.
Qed.

Lemma split_once_absent c s : split_once c s = None <-> has_char c s = false.
Proof.
  split; [apply split_once_None|]. intros Hs. destruct (split_once c s) as [[a b]|] eqn:E; [|done].
  apply split_once_spec in E as [-> _]. rewrite has_char_app in Hs. cbn [has_char] in Hs.
  by rewrite bool_decide_eq_true_2, orb_true_r in Hs.
Qed.

(** ** What a numeral stands for *)

(** The value of a row of digits, the most significant first. *)
Fixpoint positional (ds : list Z) : Z :=
  match ds with [] => 0 | d :: ds => d * 10 ^ Z.of_nat (length ds) + positional ds end%Z.

Definition numeral (s : string) (n : Z) : Prop :=
  s <> "" /\ exists ds, mapM digit (String.list_ascii_of_string s) = Some ds /\ n = positional ds.

Lemma digit_bounds c d : digit c = Some d -> (0 <= d <= 9)%Z.
Proof. unfold digit. case_decide; [|done]. intros [= <-]. lia. Qed.

Lemma positional_nonneg s ds : mapM digit (String.list_ascii_of_string s) = Some ds -> (0 <= positional ds)%Z.
Proof.
  revert ds. induction s as [|c s IH]; intros ds; cbn; [by intros [= <-]|].
  destruct (digit c) as [d|] eqn:Hc; [|done]. cbn. destruct (mapM _ _) as [ds'|]; [|done]. cbn. intros [= <-]. cbn [positional].
  pose proof (digit_bounds _ _ Hc). pose proof (IH _ eq_refl). nia.
Qed.

Lemma digits_spec max acc s n : (0 <= acc <= max)%Z ->
  digits max acc s = Some n <->
  exists ds, mapM digit (String.list_ascii_of_string s) = Some ds /\
    n = (acc * 10 ^ Z.of_nat (length ds) + positional ds)%Z /\ (n <= max)%Z.
Proof.
  revert acc. induction s as [|c s IH]; intros acc Hacc; cbn [digits].
  - split; [intros [= <-]; exists []; cbn; split_and!; [done|lia|lia]|]. intros (ds & [= <-] & -> & _). cbn. f_equal. lia.
  - cbn [String.list_ascii_of_string mapM]. destruct (digit c) as [d|] eqn:Hc; cbn [mbind option_bind].
    2: { split; [done|]. by intros (ds & ? & _). }
    pose proof (digit_bounds _ _ Hc) as Hd.
    assert (forall ds, (acc * 10 ^ Z.of_nat (length (d :: ds)) + positional (d :: ds) =
      (acc * 10 + d) * 10 ^ Z.of_nat (length ds) + positional ds)%Z) as Hstep.
    { intros ds. cbn [length positional]. rewrite Nat2Z.inj_succ, Z.pow_succ_r by lia. ring. }
    destruct (Z.leb_spec (acc * 10 + d) max) as [Hle|Hgt].
    + rewrite IH by lia. split.
      * intros (ds & Hds & Hn & Hmax). rewrite Hds. exists (d :: ds). cbn [mbind option_bind]. by rewrite Hstep.
      * destruct (mapM _ _) as [ds|]; [|by intros (? & ? & _)]. cbn [mbind option_bind].
        intros (? & [= <-] & -> & Hmax). exists ds. rewrite Hstep in *. done.
    + split; [done|]. destruct (mapM _ _) as [ds|] eqn:Hds; [|by intros (? & ? & _)]. cbn [mbind option_bind].
      intros (? & [= <-] & -> & Hmax). rewrite Hstep in Hmax. pose proof (positional_nonneg _ _ Hds).
      pose proof (Z.pow_pos_nonneg 10 (Z.of_nat (length ds)) ltac:(lia) ltac:(lia)). nia.
Qed.

(** [str::parse] reads a numeral, with or without a plus, up to the bound. *)
Lemma parse_unsigned_spec max s n : (0 <= max)%Z ->
  parse_unsigned max s = Some n <-> (n <= max)%Z /\ (numeral s n \/ exists u, s = String "+" u /\ numeral u n).
Proof.
  intros Hmax.
  assert (forall u, u <> "" -> digits max 0 u = Some n <-> (n <= max)%Z /\ numeral u n) as Hd.
  { intros u Hu. rewrite digits_spec by lia. unfold numeral. split.
    - intros (ds & ? & -> & ?). split; [done|]. split; [done|]. exists ds. split; [done|lia].
    - intros (? & _ & ds & ? & ->). exists ds. split_and!; [done|lia|done]. }
  assert (forall u, ~ numeral (String "+" u) n) as Hplus by (intros u (_ & ds & E & _); done).
  unfold parse_unsigned. destruct s as [|c s].
  { rewrite decide_True by done. split; [done|]. intros (_ & [[? _]|(u & ? & _)]); done. }
  destruct (decide (c = "+"%char)) as [->|Hc].
  - destruct s as [|c' s].
    + rewrite decide_False by done. split; [done|]. intros (_ & [H|(u & [= <-] & [? _])]); [by apply Hplus in H|done].
    + rewrite decide_False, Hd by done. split.
      * intros [? ?]. split; [done|]. right. by eexists.
      * intros (? & [H|(u & [= <-] & ?)]); [by apply Hplus in H|done].
  - destruct s as [|c' s]; rewrite ?decide_False, Hd by done.
    + split; [intros [? ?]; auto|]. intros (? & [?|(u & [=] & _)]); done.
    + split; [intros [? ?]; auto|]. intros (? & [?|(u & [=] & _)]); done.
Qed.
