(* ===== verification/Paths.v ===== *)
(** * Paths and their containment ([jinnd-wasm/src/hostfs/scope.rs])

    A path is compared, cut and extended by its components, as Rust's [Path]
    does on Unix. [canonicalize] belongs to the file system: it is the
    operation of the class [Links], whose laws [LinkLaws] say what following
    every link means. *)

From Stdlib Require Import Ascii.
From stdpp Require Import base gmap sets list strings.
From S2P Require Import Prelude Api Entries Text.

(** ** Components *)

Inductive Component := RootDir | CurDir | ParentDir | Normal (name : string).

#[export] Instance Component_eq_dec : EqDecision Component.
Proof. solve_decision. Defined.

Abbreviation Path := (list Component).

(** One segment that is not the first of a relative path: [Path::components]
    skips empty segments and [.]. *)
Definition segment (s : string) : option Component :=
  if decide (s = "") then None
  else if decide (s = ".") then None
  else if decide (s = "..") then Some ParentDir
  else Some (Normal s).

Definition components (path : string) : Path :=
  match path with
  | String x _ =>
      if decide (x = slash) then RootDir :: omap segment (split_on slash path)
      else
        let segments := split_on slash path in
        (if decide (hd EmptyString segments = ".") then [CurDir] else []) ++ omap segment segments
  | EmptyString => []
  end.

Definition is_normal (c : Component) : bool :=
  match c with Normal _ => true | _ => false end.

(** ** Refusals *)

Record Refused := MkRefused { refused_reason : RefusalReason; refused_error : KernelError }.

Definition effect_failed (text : string) : KernelError := MkKernelError EffectFailed text None.

Definition escapes (path : string) : Refused :=
  MkRefused ScopeMismatch (effect_failed ("fs path escapes its scope: " +:+ debug_str path)).

Definition lexical (path : string) : result Path Refused :=
  let relative := components (trim_start slash path) in
  if forallb is_normal relative then Ok relative else Err (escapes path).

(** ** Following links *)

Inductive IoError := IoNotFound | IoOther (text : string).

Class Links := canonicalize : Path -> result Path IoError.

Section Containment.
Context `{Links} (root : Path).

(** The loop: [up] is [existing] from its last component, [tail] the absent
    components below it, outermost first. *)
Fixpoint resolve_loop (path : string) (up tail : Path) : result Path Refused :=
  match canonicalize (reverse up) with
  | Ok resolved =>
      let resolved := resolved ++ tail in
      if decide (root `prefix_of` resolved) then Ok resolved else Err (escapes path)
  | Err IoNotFound =>
      match up with
      | Normal name :: parent =>
          if decide (reverse up = root) then Err (escapes path)
          else resolve_loop path parent (Normal name :: tail)
      | _ => Err (escapes path)
      end
  | Err (IoOther unresolvable) =>
      Err (MkRefused Unresolvable (effect_failed
        ("fs path unresolvable, refused: " +:+ debug_str path +:+ ": " +:+ unresolvable)))
  end.

Definition resolve (path : string) : result Path Refused :=
  match lexical path with
  | Ok relative => resolve_loop path (reverse (root ++ relative)) []
  | Err refused => Err refused
  end.

Fixpoint authorized_loop (resolved : Path) (scopes : list string) (path : string) :
    result Path Refused :=
  match scopes with
  | [] => Err (MkRefused ScopeMismatch (effect_failed
            ("fs path outside the caller's granted scope: " +:+ debug_str path)))
  | scope :: scopes =>
      match resolve scope with
      | Ok prefix =>
          if decide (prefix `prefix_of` resolved) then Ok resolved
          else authorized_loop resolved scopes path
      | Err refused => Err refused
      end
  end.

Definition authorized (scopes : list string) (path : string) : result Path Refused :=
  match resolve path with
  | Ok resolved =>
      match scopes with [] => Ok resolved | _ => authorized_loop resolved scopes path end
  | Err refused => Err refused
  end.

(** ** What a resolution finds *)

(** The deepest ancestor of [candidate] that exists, with every link on it
    followed, and the absent components below it. *)
Definition deepest (candidate resolved tail : Path) : Prop :=
  exists existing, candidate = existing ++ tail /\ canonicalize existing = Ok resolved /\
    (forall t t', tail = t ++ t' -> t <> [] -> canonicalize (existing ++ t) = Err IoNotFound).

Lemma resolve_loop_Ok path up tail p :
  resolve_loop path up tail = Ok p ->
  (forall t t', tail = t ++ t' -> t <> [] -> canonicalize (reverse up ++ t) = Err IoNotFound) ->
  exists r t, p = r ++ t /\ deepest (reverse up ++ tail) r t /\ root `prefix_of` p.
Proof.
  revert tail. induction up as [|c up IH]; intros tail; simpl.
  - destruct (canonicalize (reverse [])) as [r|[|text]] eqn:Hc; intros Hp Habs; [|done|done].
    case_decide as Hroot; [|done]. injection Hp as <-. exists r, tail. split; [done|]. split; [|done].
    exists (reverse []). done.
  - destruct (canonicalize (reverse (c :: up))) as [r|[|text]] eqn:Hc; intros Hp Habs; [| |done].
    + case_decide as Hroot; [|done]. injection Hp as <-. exists r, tail. split; [done|]. split; [|done].
      exists (reverse (c :: up)). done.
    + destruct c as [| | |name]; try done. case_decide as Hne; [done|].
      rewrite reverse_cons, <-app_assoc. apply IH; [done|].
      intros [|x t] t' Ht Hnil; [done|]. injection Ht as <- Ht.
      destruct t as [|y t]; [by rewrite <-reverse_cons|].
      rewrite cons_middle, app_assoc, <-reverse_cons. by apply (Habs _ t').
Qed.

Lemma resolve_loop_there path candidate file :
  canonicalize candidate = Ok file -> root `prefix_of` file ->
  resolve_loop path (reverse candidate) [] = Ok file.
Proof.
  intros Hc Hroot. pose proof (reverse_involutive candidate) as Hup.
  destruct (reverse candidate) as [|c up]; cbn [resolve_loop];
    rewrite Hup, Hc; cbn [app]; by rewrite app_nil_r, decide_True.
Qed.

Lemma lexical_Ok path relative :
  lexical path = Ok relative ->
  relative = components (trim_start slash path) /\ Forall (fun c => is_normal c = true) relative.
Proof.
  unfold lexical. destruct (forallb _ _) eqn:Hn; intros [= <-]. split; [done|].
  apply Forall_forall. intros c Hc. rewrite forallb_forall in Hn. by apply Hn, list_elem_of_In.
Qed.

(** The walk ends at the latest at the root, which is never taken for absent
    below. *)
Lemma resolve_Ok path p :
  resolve path = Ok p ->
  exists relative r t, lexical path = Ok relative /\ p = r ++ t /\ deepest (root ++ relative) r t /\
    root `prefix_of` p.
Proof.
  unfold resolve. destruct (lexical path) as [relative|refused]; [|done]. intros Hp.
  apply resolve_loop_Ok in Hp as (r & t & -> & Hd & Hr).
  - rewrite reverse_involutive, app_nil_r in Hd. by exists relative, r, t.
  - intros t t' Ht Hne. symmetry in Ht. apply app_eq_nil in Ht as [-> _]. done.
Qed.

Lemma authorized_loop_Ok resolved scopes path p :
  authorized_loop resolved scopes path = Ok p ->
  p = resolved /\ exists scope prefix, scope ∈ scopes /\ resolve scope = Ok prefix /\ prefix `prefix_of` p.
Proof.
  induction scopes as [|scope scopes IH]; simpl; [done|].
  destruct (resolve scope) as [prefix|refused] eqn:Hs; [|done]. case_decide as Hp.
  - intros [= <-]. split; [done|]. exists scope, prefix. split; [by left|done].
  - intros (-> & s & q & ? & ? & ?)%IH. split; [done|]. exists s, q. split; [by right|done].
Qed.
End Containment.

(** ** What following every link means *)

Class LinkLaws (L : Links) : Prop := {
  canonical_again p r : canonicalize p = Ok r -> canonicalize r = Ok r;
  canonical_below p r t : canonicalize p = Ok r -> canonicalize (p ++ t) = canonicalize (r ++ t);
}.

Section Jail.
Context `{L : Links, !LinkLaws L} (root : Path).

Lemma deepest_same candidate r t :
  deepest candidate r t ->
  canonicalize (r ++ t) = canonicalize candidate /\
  (canonicalize (r ++ t) = Ok (r ++ t) \/ canonicalize (r ++ t) = Err IoNotFound).
Proof.
  intros (existing & -> & He & Habs). split; [by symmetry; apply canonical_below|].
  destruct t as [|c t].
  - left. rewrite app_nil_r. by eapply canonical_again.
  - right. rewrite <-(canonical_below _ _ _ He). apply (Habs (c :: t) []); [by rewrite app_nil_r|done].
Qed.

(** C30: The path handed to a file operation stays in its jail: no component of
    what the caller wrote leads upwards, what is handed over names the same
    file as the path the caller wrote, has no link left in it unless it is
    absent, lies under the root, and lies under one of the granted scopes,
    itself resolved under the root. *)
Theorem authorized_stays_inside scopes path p :
  authorized root scopes path = Ok p ->
  exists relative, lexical path = Ok relative /\ Forall (fun c => is_normal c = true) relative /\
    canonicalize p = canonicalize (root ++ relative) /\
    (canonicalize p = Ok p \/ canonicalize p = Err IoNotFound) /\
    root `prefix_of` p /\
    (scopes = [] \/ exists scope prefix, scope ∈ scopes /\ resolve root scope = Ok prefix /\
      prefix `prefix_of` p /\ root `prefix_of` prefix).
Proof.
  unfold authorized. destruct (resolve root path) as [q|refused] eqn:Hq; [|done]. intros Hp.
  assert (p = q /\ (scopes = [] \/ exists scope prefix, scope ∈ scopes /\ resolve root scope = Ok prefix /\
    prefix `prefix_of` p)) as [-> Hs].
  { destruct scopes as [|scope scopes]; [injection Hp as <-; auto|].
    apply authorized_loop_Ok in Hp as [-> Hs]. auto. }
  apply resolve_Ok in Hq as (relative & r & t & Hl & -> & Hd & Hroot).
  destruct (deepest_same _ _ _ Hd) as [Hsame Hcan].
  exists relative. split_and!; [done|by apply lexical_Ok in Hl as [_ ?]|done|done|done|].
  destruct Hs as [->|(scope & prefix & Hin & Hres & Hpre)]; [by left|right].
  exists scope, prefix. split_and!; [done..|]. by apply resolve_Ok in Hres as (? & ? & ? & _ & _ & _ & ?).
Qed.

(** A file that is there is reached: when what the caller wrote names an
    existing file under the root and under the first granted scope, the
    operation is handed exactly that file. *)
Theorem authorized_reaches scopes path relative file :
  lexical path = Ok relative -> canonicalize (root ++ relative) = Ok file -> root `prefix_of` file ->
  (forall scope, head scopes = Some scope -> exists prefix, resolve root scope = Ok prefix /\ prefix `prefix_of` file) ->
  authorized root scopes path = Ok file.
Proof.
  intros Hl Hc Hroot Hs. assert (resolve root path = Ok file) as Hres.
  { unfold resolve. rewrite Hl. by apply resolve_loop_there. }
  unfold authorized. rewrite Hres. destruct scopes as [|scope scopes]; [done|].
  destruct (Hs scope eq_refl) as (prefix & Hp & Hin). simpl. by rewrite Hp, decide_True.
Qed.
End Jail.

(** ** Example: a root with a link that leads out of it *)

Module PathsExample.
Definition abs (names : list string) : Path := RootDir :: map Normal names.

Definition present : list Path :=
  [abs []; abs ["jail"]; abs ["jail"; "a"]; abs ["jail"; "a"; "f"]; abs ["out"]; abs ["out"; "f"]].

(** [/jail/l] is a link to [/out]. *)
Definition follow (p : Path) : Path :=
  match p with
  | a :: b :: c :: rest => if decide ([a; b; c] = abs ["jail"; "l"]) then abs ["out"] ++ rest else p
  | _ => p
  end.

#[export] Instance linked : Links := fun p =>
  if decide (follow p ∈ present) then Ok (follow p) else Err IoNotFound.

Lemma follow_out rest : follow (abs ["out"] ++ rest) = abs ["out"] ++ rest.
Proof. by destruct rest. Qed.

Lemma follow_app p t : follow (follow p ++ t) = follow (p ++ t).
Proof.
  destruct p as [|a [|b [|c p]]]; [done..|]. unfold follow at 2. cbn [app].
  case_decide as Hl; [|done]. rewrite <-app_assoc, follow_out. unfold follow. by rewrite decide_True.
Qed.

#[export] Instance linked_laws : LinkLaws linked.
Proof.
  split; unfold canonicalize, linked; intros p r.
  - case_decide as Hp; [|done]. intros [= <-].
    assert (follow (follow p) = follow p) as ->; [|by rewrite decide_True].
    pose proof (follow_app p []) as Hf. by rewrite !app_nil_r in Hf.
  - intros t. case_decide; [|done]. intros [= <-]. by rewrite follow_app.
Qed.

Definition jail : Path := abs ["jail"].

Lemma authorized_stays_inside_witness :
  authorized jail ["/a"] "a/new" = Ok (abs ["jail"; "a"; "new"]) /\
  authorized jail [] "l/f" = Err (escapes "l/f") /\ authorized jail [] "../out/f" = Err (escapes "../out/f") /\
  exists relative, lexical "a/new" = Ok relative /\
    canonicalize (abs ["jail"; "a"; "new"]) = canonicalize (jail ++ relative).
Proof.
  split_and!; [vm_compute; done..|].
  destruct (authorized_stays_inside jail ["/a"] "a/new" (abs ["jail"; "a"; "new"]) ltac:(by vm_compute))
    as (relative & Hl & _ & Hsame & _). by exists relative.
Defined.

Lemma authorized_reaches_witness :
  authorized jail ["/a"] "//a/./f" = Ok (abs ["jail"; "a"; "f"]).
Proof.
  apply (authorized_reaches jail ["/a"] "//a/./f" [Normal "a"; Normal "f"]).
  - by vm_compute.
  - by vm_compute.
  - by exists (map Normal ["a"; "f"]).
  - intros scope [= <-]. exists (abs ["jail"; "a"]). split; [by vm_compute|by exists [Normal "f"]].
Defined.

(** A scope that no longer resolves refuses the call before the scopes written
    after it are looked at: the order of the grants matters. *)
Example a_broken_scope_hides_the_next :
  authorized jail ["/a"; "/l"] "a/f" = Ok (abs ["jail"; "a"; "f"]) /\
  authorized jail ["/l"; "/a"] "a/f" = Err (escapes "/l").
Proof. split; by vm_compute. Qed.
End PathsExample.
