(* ===== verification/Grants.v ===== *)
(** * Grants ([jinnd-wasm/src/grants.rs], [grants/*.rs])

    The judgment that turns what a profile wrote into authority: the scope
    values of a grant, their admission against the scope type a contract
    declares, the authority an admitted grant confers, and how several grants
    of one contract compose. Strings are ASCII text where the source folds
    their case. *)

From Stdlib Require Import Ascii.
From stdpp Require Import base gmap sets list strings pretty sorting.
From S2P Require Import Prelude Api Entries Text Paths.

(** ** What a profile writes *)

Inductive ScopeValue :=
  | Rate (floor : N)
  | PathScope (path : string)
  | ScopeList (items : list ScopeValue)
  | ScopeMap (fields : list (string * ScopeValue))
  | Malformed (wrote : string).

(** [fmt] joins with [", "] after the first, which is preceded by [first]. *)
Fixpoint joined (first : string) (parts : list string) : string :=
  match parts with
  | [] => ""
  | part :: parts => first +:+ part +:+ joined ", " parts
  end.

(** [Display]. *)
Fixpoint display (v : ScopeValue) : string :=
  match v with
  | Rate floor => pretty floor
  | PathScope path => debug_str path
  | ScopeList items => "[" +:+ joined "" (map display items) +:+ "]"
  | ScopeMap fields =>
      "{" +:+ joined " " (map (fun f : string * ScopeValue => f.1 +:+ ": " +:+ display f.2) fields) +:+ " }"
  | Malformed wrote => wrote
  end.

Record Grant := MkGrant { contract : string; scope : option ScopeValue; ops : option ScopeValue }.

Definition CLOCK_CONTRACT := "jinn:clock"%string.
Definition FS_CONTRACT := "jinn:fs"%string.
Definition PROCESS_CONTRACT := "jinn:process"%string.
Definition NET_CONTRACT := "jinn:net"%string.
Definition KEYSTORE_CONTRACT := "jinn:keystore"%string.
Definition INTROSPECT_CONTRACT := "jinn:introspect"%string.
Definition PROFILE_CONTRACT := "jinn:profile"%string.
Definition AUTH_CONTRACT := "jinn:auth"%string.
Definition PROFILE_ADMIN_CONTRACT := "jinn:profile-admin"%string.

Inductive Declared :=
  | DeclaredRate | PathPrefix | ProcessPolicy | NetPolicy | EntryIds | KeyPrefix | NoScope | Undeclared.

#[export] Instance Declared_eq_dec : EqDecision Declared.
Proof. solve_decision. Defined.

Definition declared (c : string) : Declared :=
  if decide (c = CLOCK_CONTRACT) then DeclaredRate
  else if decide (c = FS_CONTRACT) then PathPrefix
  else if decide (c = PROCESS_CONTRACT) then ProcessPolicy
  else if decide (c = NET_CONTRACT) then NetPolicy
  else if decide (c ∈ [PROFILE_CONTRACT; PROFILE_ADMIN_CONTRACT]) then EntryIds
  else if decide (c = KEYSTORE_CONTRACT) then KeyPrefix
  else if decide (c ∈ ["jinn:ledger"; INTROSPECT_CONTRACT; AUTH_CONTRACT]) then NoScope
  else Undeclared.

Definition refused (text : string) : KernelError :=
  MkKernelError EffectFailed ("grant refused: " +:+ text) None.

(** ** Operation classes ([grants/ops.rs]) *)

Definition declared_ops (c : string) : option (list string) :=
  if decide (c = FS_CONTRACT) then Some ["read"; "list"; "meta"; "write"; "append"; "remove"]
  else if decide (c = KEYSTORE_CONTRACT) then Some ["get"; "put"; "delete"; "list"]
  else if decide (c = PROFILE_CONTRACT) then Some ["patch-entry"; "entry"; "document"]
  else if decide (c = PROFILE_ADMIN_CONTRACT) then
    Some ["add-entry"; "remove-entry"; "set-disabled"; "set-grants"; "swap-plugin"]
  else if decide (c = CLOCK_CONTRACT) then Some ["now"; "alarm-at"; "alarm-every"]
  else if decide (c = PROCESS_CONTRACT) then
    Some ["run"; "spawn"; "write-stdin"; "close-stdin"; "read"; "wait"; "kill"]
  else if decide (c = NET_CONTRACT) then Some ["request"; "listen"; "accept"; "read"; "write"; "close"]
  else if decide (c = "jinn:ledger") then Some ["read-range"; "last-seq"]
  else if decide (c = INTROSPECT_CONTRACT) then Some ["entries"; "readiness"]
  else None.

(** [Vec::contains] before [Vec::push]. *)
Definition push_unique (held : list string) (item : string) : list string :=
  if decide (item ∈ held) then held else held ++ [item].

Fixpoint ops_loop (c : string) (known : list string) (items : list ScopeValue) (ops : list string) :
    result (list string) KernelError :=
  match items with
  | [] => Ok ops
  | item :: items =>
      match item with
      | PathScope name =>
          if decide (name ∈ known) then ops_loop c known items (push_unique ops name)
          else Err (refused (c +:+ " declares no operation " +:+ display item))
      | other => Err (refused (c +:+ " declares no operation " +:+ display other))
      end
  end.

Definition admit_ops (c : string) (wrote : ScopeValue) : result (list string) KernelError :=
  match declared_ops c with
  | None =>
      Err (refused ("no contract bundle declares operations for " +:+ c +:+ "; ops " +:+ display wrote +:+
        " cannot validate"))
  | Some known =>
      match wrote with
      | ScopeList items =>
          match ops_loop c known items [] with
          | Ok [] => Err (refused (c +:+ " ops names no operation (drop the grant instead)"))
          | Ok ops => Ok ops
          | Err error => Err error
          end
      | _ => Err (refused (c +:+ " ops must be a list of operation names, wrote " +:+ display wrote))
      end
  end.

Definition ok {T E} (r : result T E) : option T :=
  match r with Ok x => Some x | Err _ => None end.

Definition attenuation (g : Grant) : option (list string) :=
  wrote ← ops g; ok (admit_ops (contract g) wrote).

(** ** Policies ([grants/policy.rs]) *)

Inductive EnvPolicy := InheritNone | Allow (names : list string).

Record ProcessScope := MkProcessScope { exec : list string; env : EnvPolicy }.

(** Port ranges are inclusive [u16] pairs. *)
Record NetScope := MkNetScope { bind : list (Z * Z); outbound : list string }.

Inductive GrantScope :=
  | Root
  | PathsScope (paths : list string)
  | ProcessGrant (policy : ProcessScope)
  | NetGrant (policy : NetScope)
  | EntriesScope (ids : list string)
  | KeysScope (prefixes : list string).

Definition in_range (port : Z) (r : Z * Z) : bool := (r.1 <=? port)%Z && (port <=? r.2)%Z.

Definition admits_port (n : NetScope) (port : Z) : bool := existsb (in_range port) (bind n).

(** The host as written, and the port as written. *)
Definition authority_parts (text : string) : option (string * option string) :=
  match text with
  | String "[" rest =>
      '(inside, tail) ← split_once "]" rest;
      Some (inside, match tail with String ":" port => Some port | _ => None end)
  | _ =>
      match split_once ":" text with
      | Some (host, port) => Some (host, Some port)
      | None => Some (text, None)
      end
  end.

Definition normalize_authority (text : string) : option (string * string * Z) :=
  if bool_decide (text = "") || has_char "@" text || has_char "/" text then None
  else
    '(host, port) ← authority_parts text;
    port ← match port with None => Some 80%Z | Some port => parse_u16 port end;
    if decide (host = "") then None
    else
      let host := to_lowercase host in
      let normal := if has_char ":" host then "[" +:+ host +:+ "]:" +:+ pretty port
                    else host +:+ ":" +:+ pretty port in
      Some (normal, host, port).

Definition admits_authority (n : NetScope) (authority : string) : bool :=
  existsb (fun entry => match normalize_authority entry with
                        | Some (normal, _, _) => bool_decide (normal = authority)
                        | None => false
                        end) (outbound n).

(** [u16::saturating_add]. *)
Definition saturating_add_u16 (a b : Z) : Z := Z.min (a + b) 65535.

(** The order of the pairs. *)
Definition range_le (a b : Z * Z) : bool :=
  (a.1 <? b.1)%Z || ((a.1 =? b.1)%Z && (a.2 <=? b.2)%Z).

(** The loop; [normal] is held last range first. *)
Fixpoint coalesce_loop (normal ranges : list (Z * Z)) : list (Z * Z) :=
  match ranges with
  | [] => reverse normal
  | (low, high) :: ranges =>
      match normal with
      | (first, held) :: below =>
          if (low <=? saturating_add_u16 held 1)%Z
          then coalesce_loop ((first, Z.max held high) :: below) ranges
          else coalesce_loop ((low, high) :: normal) ranges
      | [] => coalesce_loop [(low, high)] ranges
      end
  end.

Definition coalesce (ranges : list (Z * Z)) : list (Z * Z) :=
  coalesce_loop [] (sort_by range_le ranges).

Definition extend_unique (held more : list string) : list string := fold_left push_unique more held.

Definition union_env (held more : EnvPolicy) : EnvPolicy :=
  match held, more with
  | Allow names, Allow more => Allow (extend_unique names more)
  | InheritNone, more => more
  | Allow names, InheritNone => Allow names
  end.

Definition union (held other : GrantScope) : GrantScope :=
  match held, other with
  | Root, _ => Root
  | _, Root => Root
  | PathsScope held, PathsScope more => PathsScope (extend_unique held more)
  | EntriesScope held, EntriesScope more => EntriesScope (extend_unique held more)
  | KeysScope held, KeysScope more => KeysScope (extend_unique held more)
  | ProcessGrant held, ProcessGrant more =>
      ProcessGrant (MkProcessScope (extend_unique (exec held) (exec more)) (union_env (env held) (env more)))
  | NetGrant held, NetGrant more =>
      NetGrant (MkNetScope (coalesce (bind held ++ bind more)) (extend_unique (outbound held) (outbound more)))
  | held, _ => held
  end.

Definition admits_entry (s : GrantScope) (entry : string) : bool :=
  match s with
  | EntriesScope ids => existsb (fun id => bool_decide (id = "*"%string) || bool_decide (id = entry)) ids
  | _ => false
  end.

Definition admits_key (s : GrantScope) (key : string) : bool :=
  match s with
  | KeysScope prefixes => existsb (fun prefix => starts_with prefix key) prefixes
  | _ => false
  end.

(** ** Reading a scope ([grants/parse.rs]) *)

Definition absolute_prefix (path : string) : bool :=
  match components path with
  | RootDir :: _ as parts => forallb (fun c => match c with RootDir | Normal _ => true | _ => false end) parts
  | _ => false
  end.

Fixpoint field (fields : list (string * ScopeValue)) (name : string) : option ScopeValue :=
  match fields with
  | [] => None
  | (key, value) :: fields => if decide (key = name) then Some value else field fields name
  end.

Section Parse.
Context (c : string).

(** The collected [map]: the first item that is no string is the error. *)
Fixpoint collect_strings (what : string) (items : list ScopeValue) : result (list string) KernelError :=
  match items with
  | [] => Ok []
  | PathScope text :: items =>
      match collect_strings what items with Ok rest => Ok (text :: rest) | Err error => Err error end
  | other :: _ =>
      Err (refused (c +:+ " scope " +:+ what +:+ " entry is not a string: " +:+ display other))
  end.

Definition strings (what : string) (value : ScopeValue) : result (list string) KernelError :=
  match value with
  | ScopeList items => collect_strings what items
  | _ => Err (refused (c +:+ " scope " +:+ what +:+ " must be a list of strings, wrote " +:+ display value))
  end.

(** The loop over the written fields. *)
Fixpoint known_fields (known : list string) (fields : list (string * ScopeValue)) : result () KernelError :=
  match fields with
  | [] => Ok ()
  | (key, _) :: fields =>
      if decide (key ∈ known) then known_fields known fields
      else Err (refused (c +:+ " scope has no field " +:+ debug_str key))
  end.

Definition exec_field (fields : list (string * ScopeValue)) : result (list string) KernelError :=
  match field fields "exec" with None => Ok [] | Some value => strings "exec" value end.

Definition env_field (fields : list (string * ScopeValue)) : result EnvPolicy KernelError :=
  match field fields "env" with
  | None => Ok InheritNone
  | Some (PathScope policy) =>
      if decide (policy = "inherit-none") then Ok InheritNone
      else Err (refused (c +:+ " env policy must be " +:+ debug_str "inherit-none" +:+
        " or a name list, wrote " +:+ display (PathScope policy)))
  | Some (ScopeList items) =>
      match strings "env" (ScopeList items) with Ok names => Ok (Allow names) | Err error => Err error end
  | Some other =>
      Err (refused (c +:+ " env policy must be " +:+ debug_str "inherit-none" +:+
        " or a name list, wrote " +:+ display other))
  end.

Local Open Scope result_scope.

Definition process_scope (scope : ScopeValue) : result ProcessScope KernelError :=
  match scope with
  | ScopeMap fields =>
      let? exec := exec_field fields in
      match list_find (fun prefix => absolute_prefix prefix = false) exec with
      | Some (_, bad) => Err (refused (c +:+ " exec prefix " +:+ debug_str bad +:+ " is not an absolute normal path"))
      | None =>
          let? env := env_field fields in
          let? _ := known_fields ["exec"; "env"] fields in
          Ok (MkProcessScope exec env)
      end
  | _ =>
      Err (refused (c +:+ " declares scope type process-policy; scope " +:+ display scope +:+ " is not a policy"))
  end.

Definition is_empty (s : string) : bool := bool_decide (s = ""%string).

Definition entry_scope (scope : ScopeValue) : result (list string) KernelError :=
  let? ids := strings "entry-ids" scope in
  if bool_decide (ids = []) || existsb is_empty ids then
    Err (refused (c +:+ " scope must name at least one entry id (or " +:+ debug_str "*" +:+ "), wrote " +:+
      display scope))
  else Ok ids.

Definition key_scope (scope : ScopeValue) : result (list string) KernelError :=
  let? prefixes := match scope with
                   | PathScope prefix => Ok [prefix]
                   | other => strings "key-prefix" other
                   end in
  if bool_decide (prefixes = []) || existsb is_empty prefixes then
    Err (refused (c +:+ " scope must name at least one non-empty key prefix, wrote " +:+ display scope))
  else Ok prefixes.

Definition bind_field (fields : list (string * ScopeValue)) : result (list (Z * Z)) KernelError :=
  match field fields "bind" with
  | None => Ok []
  | Some (ScopeList range) =>
      match range with
      | [Rate low; Rate high] =>
          if (low <=? high)%N && (high <=? 65535)%N then Ok [(Z.of_N low, Z.of_N high)]
          else Err (refused (c +:+ " bind range must be [low, high] within 0..=65535, wrote " +:+
            display (ScopeList range)))
      | _ => Err (refused (c +:+ " bind range must be [low, high] within 0..=65535, wrote " +:+
            display (ScopeList range)))
      end
  | Some other => Err (refused (c +:+ " bind must be a [low, high] port range, wrote " +:+ display other))
  end.

Definition net_scope (scope : ScopeValue) : result NetScope KernelError :=
  match scope with
  | ScopeMap fields =>
      let? bind := bind_field fields in
      let? outbound := match field fields "outbound" with
                       | None => Ok []
                       | Some value => strings "outbound" value
                       end in
      let? _ := known_fields ["bind"; "outbound"] fields in
      Ok (MkNetScope bind outbound)
  | _ =>
      Err (refused (c +:+ " declares scope type net-policy; scope " +:+ display scope +:+ " is not a policy"))
  end.
End Parse.

(** ** Admission and authority *)

Definition discard {T} (r : result T KernelError) : result () KernelError :=
  match r with Ok _ => Ok () | Err error => Err error end.

Definition admit_scope (c : string) (scope : ScopeValue) : result () KernelError :=
  match declared c, scope with
  | DeclaredRate, Rate _ => Ok ()
  | DeclaredRate, wrote =>
      Err (refused (c +:+ " declares scope type rate; scope " +:+ display wrote +:+ " is not a rate"))
  | PathPrefix, PathScope path =>
      match lexical path with
      | Ok _ => Ok ()
      | Err _ => Err (refused (c +:+ " scope " +:+ debug_str path +:+ " is not a containment path"))
      end
  | PathPrefix, wrote =>
      Err (refused (c +:+ " declares scope type path-prefix; scope " +:+ display wrote +:+ " is not a path"))
  | ProcessPolicy, wrote => discard (process_scope c wrote)
  | NetPolicy, wrote => discard (net_scope c wrote)
  | EntryIds, wrote => discard (entry_scope c wrote)
  | KeyPrefix, wrote => discard (key_scope c wrote)
  | NoScope, wrote =>
      Err (refused (c +:+ " declares no scope type; scope " +:+ display wrote +:+ " cannot validate"))
  | Undeclared, wrote =>
      Err (refused ("no contract bundle declares a scope type for " +:+ c +:+ "; scope " +:+ display wrote +:+
        " cannot validate"))
  end.

Definition grant_admit (g : Grant) : result () KernelError :=
  match match ops g with None => Ok () | Some ops => discard (admit_ops (contract g) ops) end with
  | Err error => Err error
  | Ok _ => match scope g with None => Ok () | Some scope => admit_scope (contract g) scope end
  end.

(** [and_then(parse ... .ok()).unwrap_or_default()]. *)
Definition parsed {T} (default_value : T) (parse : ScopeValue -> result T KernelError)
    (scope : option ScopeValue) : T :=
  default default_value (wrote ← scope; ok (parse wrote)).

Definition authority (g : Grant) : GrantScope :=
  let c := contract g in
  match declared c, scope g with
  | ProcessPolicy, scope => ProcessGrant (parsed (MkProcessScope [] InheritNone) (process_scope c) scope)
  | NetPolicy, scope => NetGrant (parsed (MkNetScope [] []) (net_scope c) scope)
  | EntryIds, scope => EntriesScope (parsed [] (entry_scope c) scope)
  | KeyPrefix, scope => KeysScope (parsed [] (key_scope c) scope)
  | _, Some (PathScope path) => PathsScope [path]
  | _, _ => Root
  end.

Fixpoint admission (grants : list Grant) : list Grant * list KernelError :=
  match grants with
  | [] => ([], [])
  | g :: grants =>
      let '(admitted, refusals) := admission grants in
      match grant_admit g with
      | Ok _ => (g :: admitted, refusals)
      | Err error => (admitted, error :: refusals)
      end
  end.

Definition grant_refusals (grants : list Grant) : list KernelError := (admission grants).2.

(** ** Sets of ports *)

Definition covers (rs : list (Z * Z)) (port : Z) : Prop := exists r, r ∈ rs /\ (r.1 <= port <= r.2)%Z.

(** What a parsed range satisfies: [u16] ends in order. *)
Definition range_ok (r : Z * Z) : Prop := (0 <= r.1 <= r.2 /\ r.2 <= 65535)%Z.

(** At least one port between any range and the next. *)
Definition apart (a b : Z * Z) : Prop := (a.2 + 1 < b.1)%Z.

Definition normal_form (rs : list (Z * Z)) : Prop := Forall range_ok rs /\ StronglySorted apart rs.

Lemma covers_cons r rs port : covers (r :: rs) port <-> (r.1 <= port <= r.2)%Z \/ covers rs port.
Proof.
  unfold covers. split.
  - intros (r' & [->|Hr]%elem_of_cons & Hp); [by left|right; by exists r'].
  - intros [Hp|(r' & Hr & Hp)]; [exists r; split; [by left|done]|exists r'; split; [by right|done]].
Qed.

Lemma covers_nil port : ~ covers [] port.
Proof. intros (r & Hr & _). by apply elem_of_nil in Hr. Qed.

Lemma covers_app a b port : covers (a ++ b) port <-> covers a port \/ covers b port.
Proof.
  induction a as [|r a IH]; simpl; [|rewrite !covers_cons, IH; tauto].
  split; [by right|]. intros [H|H]; [by apply covers_nil in H|done].
Qed.

Lemma covers_proper a b port : a ≡ₚ b -> covers a port <-> covers b port.
Proof. intros Hp. unfold covers. by setoid_rewrite Hp. Qed.

Lemma admits_port_covers n port : admits_port n port = true <-> covers (bind n) port.
Proof.
  unfold admits_port, covers, in_range. rewrite existsb_exists. split.
  - intros (r & Hin & Hp). exists r. split; [by apply list_elem_of_In|lia].
  - intros (r & Hin & Hp). exists r. split; [by apply list_elem_of_In|lia].
Qed.

(** The accumulator, last range first, and what is still to come. *)
Lemma coalesce_loop_spec normal ranges :
  Forall range_ok normal -> StronglySorted (flip apart) normal -> Forall range_ok ranges ->
  StronglySorted (fun a b => range_le a b = true) ranges ->
  (forall r a, r ∈ ranges -> a ∈ normal -> (a.1 <= r.1)%Z) ->
  normal_form (coalesce_loop normal ranges) /\
  forall port, covers (coalesce_loop normal ranges) port <-> covers normal port \/ covers ranges port.
Proof.
  revert normal. induction ranges as [|[low high] ranges IH]; intros normal Hok Hap Hr Hs Hle; simpl.
  - split; [|intros port; rewrite (covers_proper _ _ _ (reverse_Permutation normal));
      split; [by left|intros [H|H]; [done|by apply covers_nil in H]]].
    split; [by apply Forall_reverse|]. clear Hok Hle.
    induction Hap as [|a normal Hap IHa Ha]; [constructor|]. rewrite reverse_cons.
    apply StronglySorted_app_2; [|done|repeat constructor].
    intros x y Hx ->%list_elem_of_singleton. rewrite elem_of_reverse in Hx.
    rewrite Forall_forall in Ha. by apply Ha.
  - apply Forall_cons in Hr as [Hlh Hr]. apply StronglySorted_inv in Hs as [Hs Hall].
    assert (forall r, r ∈ ranges -> (low <= r.1)%Z) as Hlow.
    { intros r Hin. rewrite Forall_forall in Hall. specialize (Hall r Hin).
      unfold range_le in Hall. simpl in Hall. lia. }
    destruct normal as [|[first held] below].
    + destruct (IH [(low, high)]) as [Hn Hc]; try done.
      { by apply Forall_singleton. }
      { repeat constructor. }
      { intros r a Hin ->%list_elem_of_singleton. by apply Hlow. }
      split; [done|]. intros port. rewrite Hc, !covers_cons. tauto.
    + apply Forall_cons in Hok as [Hf Hok]. pose proof Hap as [Hap' Hall']%StronglySorted_inv.
      assert (first <= low)%Z as Hfl by (apply (Hle (low, high) (first, held)); by left).
      unfold saturating_add_u16, range_ok in *. simpl in *. destruct (low <=? _)%Z eqn:Hcmp.
      * destruct (IH ((first, Z.max held high) :: below)) as [Hn Hc]; try done.
        -- constructor; [simpl; lia|done].
        -- by constructor.
        -- intros r a Hin [->|Ha]%elem_of_cons; [apply (Hle r (first, held)); [by right|by left]|].
           apply Hle; [by right|by right].
        -- split; [done|]. intros port. rewrite Hc, !covers_cons. simpl.
           split; intros [[H|H]|H]; try tauto; try lia.
           destruct H as [H|H]; [left; left; lia|tauto].
      * destruct (IH ((low, high) :: (first, held) :: below)) as [Hn Hc]; try done.
        -- constructor; [simpl; lia|]. constructor; [simpl; lia|done].
        -- constructor; [done|]. constructor; [unfold apart; simpl; lia|].
           eapply Forall_impl; [exact Hall'|]. unfold apart. simpl. lia.
        -- intros r a Hin [->|Ha]%elem_of_cons; [by apply Hlow|].
           apply Hle; [by right|done].
        -- split; [done|]. intros port. rewrite Hc, !covers_cons. tauto.
Qed.

Lemma coalesce_spec ranges :
  Forall range_ok ranges ->
  normal_form (coalesce ranges) /\ forall port, covers (coalesce ranges) port <-> covers ranges port.
Proof.
  intros Hok. pose proof (sort_by_Permutation range_le ranges) as Hp.
  destruct (coalesce_loop_spec [] (sort_by range_le ranges)) as [Hn Hc].
  - constructor.
  - constructor.
  - by rewrite Hp.
  - apply sort_by_sorted; unfold range_le; intros; lia.
  - by intros r a _ ?%elem_of_nil.
  - split; [done|]. intros port. rewrite Hc, (covers_proper _ _ _ Hp).
    split; [intros [H|H]; [by apply covers_nil in H|done]|by right].
Qed.

(** The first range of a normal form is read off its ports. *)
Lemma normal_form_head r rs port :
  normal_form (r :: rs) -> covers (r :: rs) port -> (port <= r.2 + 1)%Z -> (r.1 <= port <= r.2)%Z.
Proof.
  intros [_ [_ Hall]%StronglySorted_inv] [Hp|(r' & Hr' & Hp)]%covers_cons Hle; [done|].
  rewrite Forall_forall in Hall. specialize (Hall _ Hr'). unfold apart in Hall. lia.
Qed.

Lemma normal_form_inv r rs : normal_form (r :: rs) -> normal_form rs /\ range_ok r.
Proof. intros [[? ?]%Forall_cons [? _]%StronglySorted_inv]. done. Qed.

Lemma normal_form_first r rs port : normal_form (r :: rs) -> covers (r :: rs) port -> (r.1 <= port)%Z.
Proof.
  intros [[Hr _]%Forall_cons [_ Hall]%StronglySorted_inv] [Hp|(r' & Hr' & Hp)]%covers_cons; [lia|].
  rewrite Forall_forall in Hall. specialize (Hall _ Hr'). unfold apart, range_ok in *. lia.
Qed.

Lemma normal_form_unique a b :
  normal_form a -> normal_form b -> (forall port, covers a port <-> covers b port) -> a = b.
Proof.
  revert b. induction a as [|r a IH]; intros [|s b] Ha Hb Hc; [done| | |].
  - exfalso. apply normal_form_inv in Hb as [_ Hs]. apply (covers_nil s.1), Hc, covers_cons.
    left. unfold range_ok in Hs. lia.
  - exfalso. apply normal_form_inv in Ha as [_ Hr]. apply (covers_nil r.1), Hc, covers_cons.
    left. unfold range_ok in Hr. lia.
  - pose proof (normal_form_inv _ _ Ha) as [Ha' Hr]. pose proof (normal_form_inv _ _ Hb) as [Hb' Hs].
    unfold range_ok in Hr, Hs.
    assert (forall port, (r.1 <= port <= r.2)%Z -> covers (s :: b) port) as Hra
      by (intros port Hp; apply Hc, covers_cons; by left).
    assert (forall port, (s.1 <= port <= s.2)%Z -> covers (r :: a) port) as Hsb
      by (intros port Hp; apply Hc, covers_cons; by left).
    assert (r.1 = s.1) as H1.
    { pose proof (normal_form_first _ _ r.1 Hb (Hra r.1 ltac:(lia))).
      pose proof (normal_form_first _ _ s.1 Ha (Hsb s.1 ltac:(lia))). lia. }
    assert (r.2 = s.2) as H2.
    { destruct (Z.lt_trichotomy r.2 s.2) as [Hlt|[He|Hgt]]; [exfalso|done|exfalso].
      - pose proof (normal_form_head _ _ (r.2 + 1) Ha (Hsb (r.2 + 1)%Z ltac:(lia)) ltac:(lia)). lia.
      - pose proof (normal_form_head _ _ (s.2 + 1) Hb (Hra (s.2 + 1)%Z ltac:(lia)) ltac:(lia)). lia. }
    destruct r as [r1 r2], s as [s1 s2]. simpl in *. subst. f_equal. apply IH; [done..|].
    intros port. specialize (Hc port). rewrite !covers_cons in Hc. simpl in Hc.
    assert (forall l, normal_form ((s1, s2) :: l) -> covers l port -> ~ (s1 <= port <= s2)%Z) as Hout.
    { intros l [_ [_ Hall]%StronglySorted_inv] (q & Hq & Hp). rewrite Forall_forall in Hall.
      specialize (Hall _ Hq). unfold apart in Hall. simpl in Hall. lia. }
    specialize (Hout a Ha) as Hoa. specialize (Hout b Hb) as Hob. tauto.
Qed.

(** Coalescing yields the canonical form of a set of ports: the ranges it
    answers are in order, at least one port apart, of [u16] ends, and admit
    exactly the ports of the ranges given, never one between them; two lists
    coalesce to the same ranges exactly when they admit the same ports. *)
Theorem coalesce_is_canonical ranges other :
  Forall range_ok ranges -> Forall range_ok other ->
  normal_form (coalesce ranges) /\
  (forall port, admits_port (MkNetScope (coalesce ranges) []) port = existsb (in_range port) ranges) /\
  (coalesce ranges = coalesce other <->
    forall port, existsb (in_range port) ranges = existsb (in_range port) other).
Proof.
  intros Hr Ho. destruct (coalesce_spec _ Hr) as [Hnr Hcr], (coalesce_spec _ Ho) as [Hno Hco].
  assert (forall rs port, existsb (in_range port) rs = true <-> covers rs port) as Hex
    by (intros rs port; apply (admits_port_covers (MkNetScope rs []))).
  split_and!; [done| |split].
  - intros port. apply eq_true_iff_eq. rewrite admits_port_covers, Hex. apply Hcr.
  - intros He port. apply eq_true_iff_eq. rewrite !Hex, <-Hcr, <-Hco, He. done.
  - intros He. apply normal_form_unique; [done..|]. intros port.
    rewrite Hcr, Hco, <-!Hex, He. done.
Qed.

(** ** What an authority confers *)

(** One thing a provider asks an authority for. *)
Inductive Act :=
  | Bind (port : Z)
  | Call (authority : string)
  | Patch (entry : string)
  | UseKey (key : string)
  | Subtree (path : string)
  | Exec (prefix : string)
  | Inherit (variable : string).

Definition allowed_names (e : EnvPolicy) : list string :=
  match e with InheritNone => [] | Allow names => names end.

Definition confers (s : GrantScope) (x : Act) : Prop :=
  match s, x with
  | Root, Subtree _ => True
  | PathsScope paths, Subtree path => path ∈ paths
  | ProcessGrant policy, Exec prefix => prefix ∈ exec policy
  | ProcessGrant policy, Inherit name => name ∈ allowed_names (env policy)
  | NetGrant policy, Bind port => admits_port policy port = true
  | NetGrant policy, Call authority => admits_authority policy authority = true
  | EntriesScope _, Patch entry => admits_entry s entry = true
  | KeysScope _, UseKey key => admits_key s key = true
  | _, _ => False
  end.

(** The scope type an authority belongs to: one per declared type. *)
Definition kind (s : GrantScope) : nat :=
  match s with
  | Root | PathsScope _ => 0
  | ProcessGrant _ => 1
  | NetGrant _ => 2
  | EntriesScope _ => 3
  | KeysScope _ => 4
  end.

Definition scope_ok (s : GrantScope) : Prop :=
  match s with NetGrant policy => Forall range_ok (bind policy) | _ => True end.

Lemma elem_of_extend_unique x held more : x ∈ extend_unique held more <-> x ∈ held \/ x ∈ more.
Proof.
  unfold extend_unique. revert held. induction more as [|y more IH]; intros held; simpl.
  - split; [by left|]. intros [H|H]; [done|by apply elem_of_nil in H].
  - rewrite IH, elem_of_cons. unfold push_unique. case_decide as Hy.
    + split; [tauto|]. intros [H|[->|H]]; auto.
    + rewrite elem_of_app, list_elem_of_singleton. tauto.
Qed.

Lemma existsb_elem {A} (p : A -> bool) l : existsb p l = true <-> exists x, x ∈ l /\ p x = true.
Proof. rewrite existsb_exists. by setoid_rewrite list_elem_of_In. Qed.

Lemma existsb_extend_unique p held more :
  existsb p (extend_unique held more) = true <-> existsb p held = true \/ existsb p more = true.
Proof. rewrite !existsb_elem. setoid_rewrite elem_of_extend_unique. naive_solver. Qed.

Lemma union_env_names name held more :
  name ∈ allowed_names (union_env held more) <-> name ∈ allowed_names held \/ name ∈ allowed_names more.
Proof. destruct held, more; simpl; rewrite ?elem_of_extend_unique; set_solver. Qed.

Lemma union_spec a b :
  kind a = kind b -> scope_ok a -> scope_ok b ->
  kind (union a b) = kind a /\ scope_ok (union a b) /\
  forall x, confers (union a b) x <-> confers a x \/ confers b x.
Proof.
  destruct a as [|pa|pa|na|ia|ka], b as [|pb|pb|nb|ib|kb]; intros Hk Ha Hb; try done; simpl in *.
  all: try (split_and!; [done..|]; intros []; rewrite ?existsb_extend_unique, ?elem_of_extend_unique,
    ?union_env_names; tauto).
  assert (Forall range_ok (bind na ++ bind nb)) as Hok by by apply Forall_app.
  apply coalesce_spec in Hok as [[Hr _] Hc]. split_and!; [done..|].
  intros []; simpl; try tauto.
  - rewrite !admits_port_covers. simpl. by rewrite Hc, covers_app.
  - unfold admits_authority. apply existsb_extend_unique.
Qed.

(** ** What a grant writes *)

(** A port in decimal, within its 16 bits; a plus before it is read over. *)
Inductive writes_port : string -> Z -> Prop :=
  | WritesPort text port : numeral text port -> (port <= 65535)%Z -> writes_port text port
  | WritesPlusPort text port : numeral text port -> (port <= 65535)%Z -> writes_port (String "+" text) port.

(** An authority as a document spells it: a name, or a literal in brackets, and
    a port, which is 80 where none is written. *)
Inductive spells : string -> string -> Z -> Prop :=
  | SpellsName h : h <> "" -> starts_with "[" h = false -> has_char ":" h = false -> spells h h 80
  | SpellsPort h text port :
      h <> "" -> starts_with "[" h = false -> has_char ":" h = false -> writes_port text port ->
      spells (h +:+ String ":" text) h port
  | SpellsLiteral h : h <> "" -> has_char "]" h = false -> spells ("[" +:+ h +:+ "]") h 80
  | SpellsLiteralPort h text port :
      h <> "" -> has_char "]" h = false -> writes_port text port ->
      spells ("[" +:+ h +:+ "]:" +:+ text) h port.

(** A literal followed by text that is no port. *)
Definition strays (entry h : string) : Prop :=
  exists tail, entry = "[" +:+ h +:+ String "]" tail /\ h <> "" /\ has_char "]" h = false /\
    tail <> "" /\ starts_with ":" tail = false.

(** No credentials and no path. *)
Definition bare (entry : string) : Prop := has_char "@" entry = false /\ has_char "/" entry = false.

(** The one text all spellings of a host and a port share. *)
Definition normal_form_of (h : string) (port : Z) : string :=
  let h := to_lowercase h in
  (if has_char ":" h then "[" +:+ h +:+ "]" else h) +:+ ":" +:+ pretty port.

(** A field of a scope document. *)
Definition has_field (fields : list (string * ScopeValue)) (name : string) (value : ScopeValue) : Prop :=
  (name, value) ∈ fields.

Definition lists (value : ScopeValue) (x : string) : Prop :=
  exists items, value = ScopeList items /\ PathScope x ∈ items.

Definition field_lists fields name (x : string) : Prop :=
  exists value, has_field fields name value /\ lists value x.

(** What a grant asks for, read off the document alone. *)
Definition written (g : Grant) (x : Act) : Prop :=
  match declared (contract g), scope g, x with
  | ProcessPolicy, Some (ScopeMap fields), Exec prefix => field_lists fields "exec" prefix
  | ProcessPolicy, Some (ScopeMap fields), Inherit name => field_lists fields "env" name
  | NetPolicy, Some (ScopeMap fields), Bind port =>
      exists low high, has_field fields "bind" (ScopeList [Rate low; Rate high]) /\
        (Z.of_N low <= port <= Z.of_N high)%Z
  | NetPolicy, Some (ScopeMap fields), Call authority =>
      exists entry h port, field_lists fields "outbound" entry /\ bare entry /\
        spells entry h port /\ authority = normal_form_of h port
  | EntryIds, Some written, Patch entry => lists written entry \/ lists written "*"
  | KeyPrefix, Some (PathScope prefix), UseKey key => exists rest, key = prefix +:+ rest
  | KeyPrefix, Some written, UseKey key =>
      exists prefix rest, lists written prefix /\ key = prefix +:+ rest
  | PathPrefix, Some (PathScope path), Subtree path' => path' = path
  | DeclaredRate, _, Subtree _ => True
  | (PathPrefix | NoScope | Undeclared), None, Subtree _ => True
  | _, _, _ => False
  end.

(** What the reading of an authority drops: text after the bracket of a literal
    that is no port. *)
Definition misread (g : Grant) (x : Act) : Prop :=
  match declared (contract g), scope g, x with
  | NetPolicy, Some (ScopeMap fields), Call authority =>
      exists entry h, field_lists fields "outbound" entry /\ bare entry /\
        strays entry h /\ authority = normal_form_of h 80
  | _, _, _ => False
  end.

(** The fields of a document have names of their own, as those of a JSON object
    do. *)
Definition own_fields (g : Grant) : Prop :=
  match scope g with Some (ScopeMap fields) => NoDup (map fst fields) | _ => True end.

Lemma field_spec fields name value :
  NoDup (map fst fields) -> field fields name = Some value <-> has_field fields name value.
Proof.
  unfold has_field. induction fields as [|[key v] fields IH]; cbn; intros Hnd.
  { split; [done|by intros ?%elem_of_nil]. }
  apply NoDup_cons in Hnd as [Hk Hnd]. rewrite elem_of_cons. case_decide as E.
  - subst key. split; [intros [= ->]; by left|]. intros [[= ->]|Hin]; [done|]. destruct Hk.
    apply list_elem_of_fmap. by exists (name, value).
  - rewrite IH by done. split; [by right|]. intros [[= <- <-]|?]; done.
Qed.

Lemma field_absent fields name x : field fields name = None -> NoDup (map fst fields) -> ~ field_lists fields name x.
Proof. intros Hf Hnd (v & Hv & _). apply field_spec in Hv; [|done]. congruence. Qed.

Definition written_strings (value : option ScopeValue) (x : string) : Prop :=
  exists items, value = Some (ScopeList items) /\ PathScope x ∈ items.

Lemma written_strings_lists fields name x :
  NoDup (map fst fields) -> written_strings (field fields name) x <-> field_lists fields name x.
Proof.
  intros Hnd. split.
  - intros (items & Hf & Hx). exists (ScopeList items). split; [by apply field_spec|by exists items].
  - intros (v & Hv & items & -> & Hx). exists items. split; [by apply field_spec|done].
Qed.

(** ** Reading an authority *)

Lemma authority_parts_name c text : c <> "["%char ->
  authority_parts (String c text) =
  match split_once ":" (String c text) with
  | Some (host, port) => Some (host, Some port) | None => Some (String c text, None)
  end.
Proof. intros Hc. destruct c as [[] [] [] [] [] [] [] []]; try reflexivity. by destruct Hc. Qed.

Lemma after_bracket tail :
  (exists port, tail = String ":" port /\ match tail with String ":" port => Some port | _ => None end = Some port) \/
  (starts_with ":" tail = false /\ match tail with String ":" port => Some port | _ => None end = None).
Proof.
  destruct tail as [|c tail]; [by right|]. destruct (decide (c = ":"%char)) as [->|Hc]; [left; by exists tail|].
  right. cbn [starts_with]. rewrite bool_decide_eq_false_2 by congruence. split; [done|].
  destruct c as [[] [] [] [] [] [] [] []]; try reflexivity. by destruct Hc.
Qed.

Lemma writes_port_spec text port : writes_port text port <-> parse_u16 text = Some port.
Proof.
  unfold parse_u16. rewrite parse_unsigned_spec by done. split.
  - intros []; split; auto. right. eauto.
  - intros (? & [?|(u & -> & ?)]); by constructor.
Qed.

(** The host and the port the reading takes of a text without credentials. *)
Definition takes (entry h : string) (port : Z) : Prop :=
  exists text, authority_parts entry = Some (h, text) /\ h <> "" /\
    match text with None => port = 80%Z | Some text => writes_port text port end.

Lemma takes_spec entry h port : takes entry h port <-> spells entry h port \/ (strays entry h /\ port = 80%Z).
Proof.
  assert (forall h c text, c <> "["%char -> String c text = h -> starts_with "[" h = false) as Hnb.
  { intros ? c text Hc <-. cbn [starts_with]. by rewrite bool_decide_eq_false_2 by congruence. }
  split.
  - intros (text & Hp & Hh & Ht). destruct entry as [|c entry]; [by injection Hp as <- <-|].
    destruct (decide (c = "["%char)) as [->|Hc].
    + cbn [authority_parts] in Hp. destruct (split_once "]" entry) as [[inside tail]|] eqn:Hs; [|done].
      cbn [mbind option_bind] in Hp. apply split_once_spec in Hs as [-> Hb].
      destruct (after_bracket tail) as [(p & -> & _)|[Hn E]]; [|rewrite E in Hp]; injection Hp as <- <-.
      * left. by apply (SpellsLiteralPort inside p port).
      * subst port. destruct tail as [|c tail]; [left; by apply (SpellsLiteral inside)|].
        right. split; [|done]. by exists (String c tail).
    + rewrite authority_parts_name in Hp by done. destruct (split_once ":" (String c entry)) as [[host p]|] eqn:Hs.
      * injection Hp as <- <-. apply split_once_spec in Hs as [E Hn]. rewrite E. left. constructor; try done.
        destruct host as [|c' host]; [done|]. injection E as <- _. by eapply Hnb.
      * injection Hp as <- <-. subst port. left. constructor; [done|by eapply Hnb|by apply split_once_None].
  - assert (forall h, h <> "" -> starts_with "[" h = false -> exists c t, h = String c t /\ c <> "["%char) as Hne.
    { intros [|c t] Hh Hs; [done|]. exists c, t. split; [done|]. intros ->. done. }
    intros [Hsp|[(tail & -> & Hh & Hb & Ht & Hc) ->]];
      [destruct Hsp as [h Hh Hs Hc|h text p Hh Hs Hc Hp|h Hh Hb|h text p Hh Hb Hp]|].
    + exists None. split_and!; [|done|done]. destruct (Hne h) as (c & t & -> & Hn); [done..|].
      rewrite authority_parts_name by done. by apply split_once_absent in Hc as ->.
    + exists (Some text). split_and!; [|done|done]. destruct (Hne h) as (c & t & -> & Hn); [done..|].
      change (String c t +:+ String ":" text) with (String c (t +:+ String ":" text)).
      rewrite authority_parts_name by done. change (String c (t +:+ String ":" text)) with (String c t +:+ String ":" text).
      by rewrite split_once_first.
    + exists None. split_and!; [|done|done]. change ("[" +:+ h +:+ "]") with (String "[" (h +:+ String "]" "")).
      cbn [authority_parts]. by rewrite split_once_first.
    + exists (Some text). split_and!; [|done|done]. change ("[" +:+ h +:+ "]:" +:+ text) with (String "[" (h +:+ String "]" (String ":" text))).
      cbn [authority_parts]. by rewrite split_once_first.
    + exists None. split_and!; [|done|done]. change ("[" +:+ h +:+ String "]" tail) with (String "[" (h +:+ String "]" tail)).
      cbn [authority_parts]. rewrite split_once_first by done. cbn [mbind option_bind].
      by destruct (after_bracket tail) as [(p & -> & E)|[_ ->]].
Qed.

Lemma normalize_authority_spec entry a :
  (exists h port, normalize_authority entry = Some (a, h, port)) <->
  bare entry /\ exists h port, takes entry h port /\ a = normal_form_of h port.
Proof.
  unfold normalize_authority, bare, takes, normal_form_of.
  destruct (decide (entry = "")) as [->|He].
  { cbn. split; [by intros (? & ? & ?)|]. by intros (_ & h & port & (text & [= <- <-] & ? & _) & _). }
  rewrite (bool_decide_eq_false_2 (entry = "")) by done. cbn [orb].
  destruct (has_char "@" entry), (has_char "/" entry); cbn [orb];
    try (split; [by intros (? & ? & ?)|by intros ([? ?] & _)]).
  split.
  - intros (h & port & H). split; [done|]. destruct (authority_parts entry) as [[h0 text]|]; [|done]. cbn in H.
    destruct (match text with None => _ | Some _ => _ end) as [p|] eqn:Hp; [|done]. cbn in H.
    case_decide as Hh; [done|]. injection H as <- <- <-. exists h0, p. split.
    + exists text. split_and!; [done|done|]. destruct text; [by apply writes_port_spec|by injection Hp].
    + destruct (has_char ":" (to_lowercase h0)); by rewrite ?append_assoc.
  - intros (_ & h & port & (text & -> & Hh & Ht) & ->). exists (to_lowercase h), port. cbn.
    assert (match text with None => Some 80%Z | Some port => parse_u16 port end = Some port) as ->.
    { destruct text; [by apply writes_port_spec|by subst]. }
    cbn. rewrite decide_False by done. destruct (has_char ":" (to_lowercase h)); by rewrite ?append_assoc.
Qed.

Lemma collect_strings_Ok c what items texts :
  collect_strings c what items = Ok texts -> items = map PathScope texts.
Proof.
  revert texts. induction items as [|[] items IH]; simpl; intros texts H; try done; [by injection H as <-|].
  destruct (collect_strings c what items) as [rest|]; [|done]. injection H as <-. simpl. by rewrite (IH rest).
Qed.

Lemma strings_Ok c what value texts :
  strings c what value = Ok texts -> value = ScopeList (map PathScope texts).
Proof. destruct value; simpl; try done. by intros ->%collect_strings_Ok. Qed.

Lemma written_texts texts x : written_strings (Some (ScopeList (map PathScope texts))) x <-> x ∈ texts.
Proof.
  split.
  - intros (items & [= <-] & Hx). apply list_elem_of_fmap in Hx as (y & [= ->] & Hy). done.
  - intros Hx. eexists. split; [done|]. by apply list_elem_of_fmap_2.
Qed.

Lemma written_nothing x : ~ written_strings None x.
Proof. by intros (items & ? & _). Qed.

Lemma optional_strings_Ok c what value texts :
  match value with None => Ok [] | Some value => strings c what value end = Ok texts ->
  forall x, written_strings value x <-> x ∈ texts.
Proof.
  destruct value as [value|].
  - intros ->%strings_Ok x. apply written_texts.
  - intros [= <-] x. split; [intros H; by apply written_nothing in H|intros H; by apply elem_of_nil in H].
Qed.

Lemma env_field_Ok c fields e :
  env_field c fields = Ok e -> forall x, written_strings (field fields "env") x <-> x ∈ allowed_names e.
Proof.
  unfold env_field. intros He x. destruct (field fields "env") as [v|].
  - assert (forall v', v' = v -> (forall items, v' <> ScopeList items) -> ~ written_strings (Some v') x) as Hno
      by (intros v' _ Hv (items & [= ->] & _); by apply (Hv items)).
    destruct v as [| |items| |]; try done.
    + case_decide; [|done]. injection He as <-. simpl.
      split; [intros Hx; by apply Hno in Hx|intros Hx; by apply elem_of_nil in Hx].
    + destruct (strings c "env" (ScopeList items)) as [names|] eqn:Hs; [|done]. injection He as <-. simpl.
      apply strings_Ok in Hs. rewrite Hs. apply written_texts.
  - injection He as <-. split; [intros H; by apply written_nothing in H|intros H; by apply elem_of_nil in H].
Qed.

Lemma process_scope_Ok c wrote policy :
  process_scope c wrote = Ok policy ->
  exists fields, wrote = ScopeMap fields /\
    (forall x, written_strings (field fields "exec") x <-> x ∈ exec policy) /\
    (forall x, written_strings (field fields "env") x <-> x ∈ allowed_names (env policy)).
Proof.
  destruct wrote as [| | |fields|]; simpl; try done. intros H.
  destruct (exec_field c fields) as [prefixes|] eqn:He; [|done].
  destruct (list_find _ prefixes) as [[]|]; [done|].
  destruct (env_field c fields) as [e|] eqn:Hn; [|done].
  destruct (known_fields c _ fields); [|done]. injection H as <-. exists fields. split; [done|].
  split; [by apply (optional_strings_Ok c "exec")|by apply (env_field_Ok c)].
Qed.

Lemma bind_field_Ok c fields ranges :
  bind_field c fields = Ok ranges ->
  (field fields "bind" = None /\ ranges = []) \/
  (exists low high, field fields "bind" = Some (ScopeList [Rate low; Rate high]) /\
    ranges = [(Z.of_N low, Z.of_N high)] /\ range_ok (Z.of_N low, Z.of_N high)).
Proof.
  unfold bind_field. intros H. destruct (field fields "bind") as [v|]; [|injection H as <-; auto].
  break_in H. right. do 2 eexists. split_and!; [done|done|].
  match goal with H : _ && _ = true |- _ => apply andb_true_iff in H as [?%N.leb_le ?%N.leb_le] end.
  unfold range_ok. simpl. lia.
Qed.

Lemma net_scope_Ok c wrote policy :
  net_scope c wrote = Ok policy ->
  exists fields, wrote = ScopeMap fields /\ bind_field c fields = Ok (bind policy) /\
    (forall x, written_strings (field fields "outbound") x <-> x ∈ outbound policy).
Proof.
  destruct wrote as [| | |fields|]; simpl; try done. intros H.
  destruct (bind_field c fields) as [ranges|] eqn:Hb; [|done].
  destruct (match field fields "outbound" with None => _ | _ => _ end) as [hosts|] eqn:Ho; [|done].
  destruct (known_fields c _ fields); [|done]. injection H as <-. exists fields. split_and!; [done|done|].
  by apply (optional_strings_Ok c "outbound").
Qed.

Lemma nonempty_Ok {T} (bad : bool) (e : KernelError) (x y : T) :
  (if bad then Err e else Ok x) = Ok y -> x = y.
Proof. destruct bad; [done|]. by intros [= ->]. Qed.

Lemma entry_scope_Ok c wrote ids : entry_scope c wrote = Ok ids -> wrote = ScopeList (map PathScope ids).
Proof.
  unfold entry_scope. destruct (strings c _ wrote) eqn:Hs; [|done].
  intros ->%nonempty_Ok. by apply strings_Ok in Hs.
Qed.

Lemma key_scope_Ok c wrote prefixes :
  key_scope c wrote = Ok prefixes ->
  (exists prefix, wrote = PathScope prefix /\ prefixes = [prefix]) \/ wrote = ScopeList (map PathScope prefixes).
Proof.
  unfold key_scope. destruct wrote; try done; intros H.
  - apply nonempty_Ok in H as <-. eauto.
  - destruct (strings c _ _) eqn:Hs; [|done]. apply nonempty_Ok in H as ->. apply strings_Ok in Hs. auto.
Qed.

Lemma admits_authority_spec n a :
  admits_authority n a = true <->
  exists entry host port, entry ∈ outbound n /\ normalize_authority entry = Some (a, host, port).
Proof.
  unfold admits_authority. rewrite existsb_elem. split.
  - intros (entry & Hin & Hn). destruct (normalize_authority entry) as [[[normal host] port]|] eqn:He; [|done].
    apply bool_decide_eq_true in Hn as ->. by exists entry, host, port.
  - intros (entry & host & port & Hin & Hn). exists entry. split; [done|]. rewrite Hn. by apply bool_decide_eq_true.
Qed.

Lemma admits_entry_spec ids entry :
  admits_entry (EntriesScope ids) entry = true <-> entry ∈ ids \/ "*"%string ∈ ids.
Proof.
  simpl. rewrite existsb_elem. setoid_rewrite orb_true_iff. setoid_rewrite bool_decide_eq_true.
  naive_solver.
Qed.

Lemma admits_key_spec prefixes key :
  admits_key (KeysScope prefixes) key = true <-> exists prefix, prefix ∈ prefixes /\ starts_with prefix key = true.
Proof. apply existsb_elem. Qed.

(** A scoped grant that is admitted, by the scope type of its contract. *)
Lemma grant_admit_scope g wrote :
  grant_admit g = Ok () -> scope g = Some wrote -> admit_scope (contract g) wrote = Ok ().
Proof. unfold grant_admit. intros H Hs. rewrite Hs in H. by destruct (ops g) as [o|]; [destruct (discard _)|]. Qed.

Lemma lists_texts texts x : lists (ScopeList (map PathScope texts)) x <-> x ∈ texts.
Proof.
  rewrite <-written_texts. unfold lists, written_strings.
  split; intros (items & E & Hx); exists items; (split; [congruence|done]).
Qed.

(** What the outbound entries of a policy confer. *)
Lemma admits_authority_written n (from : string -> Prop) a : (forall x, from x <-> x ∈ outbound n) ->
  admits_authority n a = true <->
  (exists entry h port, from entry /\ bare entry /\ spells entry h port /\ a = normal_form_of h port) \/
  (exists entry h, from entry /\ bare entry /\ strays entry h /\ a = normal_form_of h 80).
Proof.
  intros Ho. rewrite admits_authority_spec. split.
  - intros (entry & host & port & Hin & Hn). apply Ho in Hin.
    destruct (proj1 (normalize_authority_spec entry a)) as (Hb & h & p & Ht & ->); [by exists host, port|].
    apply takes_spec in Ht as [Ht|[Ht ->]]; [left; by exists entry, h, p|right; by exists entry, h].
  - intros [(entry & h & port & Hin & Hb & Ht & ->)|(entry & h & Hin & Hb & Ht & ->)]; apply Ho in Hin; exists entry;
      [destruct (proj2 (normalize_authority_spec entry (normal_form_of h port))) as (host & p & Hn)
      |destruct (proj2 (normalize_authority_spec entry (normal_form_of h 80))) as (host & p & Hn)];
      try (by exists host, p); (split; [done|]); do 2 eexists; (split; [apply takes_spec; by eauto|done]).
Qed.

(** C31: An admitted grant, its fields with names of their own, confers exactly
    what its document asks for: each port of a written range, each authority a
    written entry spells, in the one form of its host and port, each
    written entry (or every entry when [*] is written), each key under a
    written prefix, each written path, executable prefix and variable. A bare
    grant of a policy contract confers nothing, and nothing written is dropped.
    One thing is widened, and [misread] says exactly how: an outbound entry with
    text other than a port after the bracket of its literal confers port 80 of
    that literal. *)
Theorem authority_is_what_was_written g x :
  grant_admit g = Ok () -> own_fields g -> confers (authority g) x <-> written g x \/ misread g x.
Proof.
  intros Hg Hown. pose proof (grant_admit_scope g) as Ha. unfold own_fields, written, misread, authority, admit_scope in *.
  destruct (scope g) as [wrote|]; [specialize (Ha wrote Hg eq_refl)|clear Ha].
  2: { destruct (declared (contract g)), x; simpl; try done; set_solver. }
  destruct (declared (contract g)).
  - destruct wrote, x; try done; simpl; tauto.
  - destruct wrote as [|path| | |]; try done. destruct x; simpl; try tauto. rewrite list_elem_of_singleton. tauto.
  - destruct (process_scope (contract g) wrote) as [policy|] eqn:Hp; [|done].
    unfold parsed. simpl. rewrite Hp. apply process_scope_Ok in Hp as (fields & -> & Hx & He).
    destruct x; simpl; try tauto; rewrite <-?Hx, <-?He, written_strings_lists by done; tauto.
  - destruct (net_scope (contract g) wrote) as [policy|] eqn:Hp; [|done].
    unfold parsed. simpl. rewrite Hp. apply net_scope_Ok in Hp as (fields & -> & Hb & Ho).
    destruct x as [port|a| | | | |]; simpl; try tauto.
    + rewrite admits_port_covers, (right_id False or).
      assert (forall low high, has_field fields "bind" (ScopeList [Rate low; Rate high]) <->
        field fields "bind" = Some (ScopeList [Rate low; Rate high])) as Hf by (intros; by rewrite field_spec).
      setoid_rewrite Hf. apply bind_field_Ok in Hb as [[Hn Hb]|(low & high & Hn & Hb & _)]; rewrite Hn, Hb.
      * split; [intros H; by apply covers_nil in H|by intros (? & ? & ? & _)].
      * rewrite covers_cons. simpl. split.
        -- intros [H|H]; [by exists low, high|by apply covers_nil in H].
        -- intros (? & ? & [= <- <-] & ?). by left.
    + apply admits_authority_written. intros y. by rewrite <-Ho, written_strings_lists.
  - destruct (entry_scope (contract g) wrote) as [ids|] eqn:Hp; [|done].
    unfold parsed. simpl. rewrite Hp. apply entry_scope_Ok in Hp as ->.
    destruct x; simpl; try tauto. rewrite (admits_entry_spec ids entry), !lists_texts. tauto.
  - destruct (key_scope (contract g) wrote) as [prefixes|] eqn:Hp; [|done].
    unfold parsed. simpl. rewrite Hp. apply key_scope_Ok in Hp as [(prefix & -> & ->)| ->].
    + destruct x; simpl; try tauto. rewrite orb_false_r, starts_with_spec. tauto.
    + destruct x; simpl; try tauto. rewrite (admits_key_spec prefixes key). setoid_rewrite lists_texts.
      setoid_rewrite starts_with_spec. naive_solver.
  - done.
  - done.
Qed.

Lemma authority_ok g : grant_admit g = Ok () -> scope_ok (authority g).
Proof.
  intros Hg. pose proof (grant_admit_scope g) as Ha. unfold authority, admit_scope in *.
  destruct (declared (contract g)); try done; destruct (scope g) as [wrote|]; try done; try by destruct wrote.
  - specialize (Ha wrote Hg eq_refl). destruct (net_scope (contract g) wrote) as [policy|] eqn:Hp; [|done].
    unfold parsed. simpl. rewrite Hp. simpl. apply net_scope_Ok in Hp as (fields & _ & Hb & _).
   
    apply bind_field_Ok in Hb as [[_ ->]|(low & high & _ & -> & Hok)]; by constructor.
  - constructor.
Qed.

(** Grants of one contract are of one kind, the one its bundle declares. *)
Lemma authority_kind g g' : contract g = contract g' -> kind (authority g) = kind (authority g').
Proof.
  unfold authority. intros ->. destruct (declared (contract g')); try done;
    by destruct (scope g) as [[]|], (scope g') as [[]|].
Qed.

(** The judgment splits a seat's grants and loses none. *)
Lemma admission_spec gs g :
  g ∈ (admission gs).1 <-> g ∈ gs /\ grant_admit g = Ok ().
Proof.
  induction gs as [|g' gs IH]; simpl; [split; [by intros ?%elem_of_nil|by intros [?%elem_of_nil _]]|].
  destruct (admission gs) as [admitted refusals]. simpl in IH. rewrite elem_of_cons.
  destruct (grant_admit g') as [[]|] eqn:Hg; simpl; rewrite ?elem_of_cons, IH; split.
  - intros [->|[? ?]]; auto.
  - intros [[->|?] ?]; auto.
  - intros [? ?]; auto.
  - intros [[->|?] ?]; [congruence|auto].
Qed.

(** ** Examples *)

Module GrantsExample.
Definition net (low high : N) (hosts : list string) : Grant :=
  MkGrant NET_CONTRACT (Some (ScopeMap [("bind"%string, ScopeList [Rate low; Rate high]);
    ("outbound"%string, ScopeList (map PathScope hosts))])) None.

Lemma coalesce_is_canonical_witness :
  coalesce [(21, 30); (10, 20); (40, 65535); (15, 18)]%Z = [(10, 30); (40, 65535)]%Z /\
  coalesce [(21, 30); (10, 20); (40, 65535); (15, 18)]%Z = coalesce [(40, 65535); (10, 30)]%Z /\
  normal_form (coalesce [(1000, 1000); (2000, 2000)]%Z).
Proof.
  assert (forall rs, forallb (fun r => (0 <=? r.1) && (r.1 <=? r.2) && (r.2 <=? 65535))%Z rs = true ->
    Forall range_ok rs) as Hok.
  { intros rs H. apply Forall_forall. intros r Hr. rewrite forallb_forall in H.
    apply list_elem_of_In in Hr. specialize (H r Hr). unfold range_ok. lia. }
  split_and!; [by vm_compute..|].
  apply (coalesce_is_canonical [(1000, 1000); (2000, 2000)]%Z []); by apply Hok.
Defined.

Lemma authority_is_what_was_written_witness :
  grant_admit (net 1000 1000 ["Example.com"; "[::1]:0443"]) = Ok () /\
  confers (authority (net 1000 1000 ["Example.com"; "[::1]:0443"])) (Call "example.com:80") /\
  confers (authority (net 1000 1000 ["Example.com"; "[::1]:0443"])) (Call "[::1]:443") /\
  ~ confers (authority (net 1000 1000 ["Example.com"; "[::1]:0443"])) (Bind 1001).
Proof.
  assert (own_fields (net 1000 1000 ["Example.com"; "[::1]:0443"])) as Hown.
  { apply (bool_decide_unpack (NoDup ["bind"; "outbound"]%string)). by vm_compute. }
  split_and!; [by vm_compute| | |].
  - apply (authority_is_what_was_written (net 1000 1000 ["Example.com"; "[::1]:0443"])); [by vm_compute|done|].
    left. exists "Example.com"%string, "Example.com"%string, 80%Z.
    split; [eexists; split; [by right; left|eexists; split; [reflexivity|by left]]|]. split_and!; [done|by apply (SpellsName "Example.com")|by vm_compute].
  - apply (authority_is_what_was_written (net 1000 1000 ["Example.com"; "[::1]:0443"])); [by vm_compute|done|].
    left. exists "[::1]:0443"%string, "::1"%string, 443%Z.
    split; [eexists; split; [by right; left|eexists; split; [reflexivity|by right; left]]|]. split_and!; [by split| |by vm_compute].
    apply (SpellsLiteralPort "::1" "0443"); [done|done|]. constructor; [|done]. split; [done|]. by exists [0; 4; 4; 3]%Z.
  - intros H. apply (authority_is_what_was_written (net 1000 1000 ["Example.com"; "[::1]:0443"])) in H; [|by vm_compute|done].
    destruct H as [(low & high & Hf & H)|[]]. apply elem_of_cons in Hf as [[= -> ->]|Hf]; [lia|].
    apply list_elem_of_singleton in Hf. done.
Defined.

(** What follows the bracket of a v6 literal is not looked at unless it is a
    colon: the text still reads as an authority, of port 80. *)
Example text_after_a_bracket_is_dropped :
  normalize_authority "[::1]8443" = Some ("[::1]:80"%string, "::1"%string, 80%Z).
Proof. by vm_compute. Qed.
End GrantsExample.
