(* ===== verification/Broker.v ===== *)
(** * The capability broker ([jinnd-wasm/src/broker.rs], [broker/*.rs],
    [broker_state.rs])

    The one dispatch point of contract calls: peers with their grants,
    providers with their generations, handles pinned to the generation they
    resolved against. An operation is a sequence of critical sections of the
    broker's lock and of appends to the ledger sink; the functions below
    compose them as the code does, and [section] interleaves those of any
    number of operations. A provider is an opaque [callable]; the future it
    answers is what a crossing waits for. *)

From stdpp Require Import base gmap sets list strings pretty relations.
From S2P Require Import Prelude Api Entries Paths Grants Waits.

Abbreviation PeerId := Z.
Abbreviation HandleId := Z.

(** ** Bookkeeping ([broker_state.rs]) *)

Inductive OpsClass := All | Only (ops : list string).

Definition union_class (held other : OpsClass) : OpsClass :=
  match held, other with
  | All, _ => All
  | _, All => All
  | Only held, Only more => Only (extend_unique held more)
  end.

Definition admits_op (class : OpsClass) (operation : string) : bool :=
  match class with All => true | Only ops => bool_decide (operation ∈ ops) end.

Section Dispatch.
(** Providers' faces and listeners' delivery faces; the naming seam of the wait
    graph. *)
Context {Callable Target : Type} (entry : FiberId -> option EntryId).

Record PeerRecord := MkPeerRecord {
  peer_fiber : option FiberId;
  peer_entry : option string;
  peer_grants : gmap string GrantScope;
  peer_ops : gmap string OpsClass;
  peer_target : option Target;
}.

Record Provider := MkProvider { provider_peer : PeerId; callable : Callable; generation : Z }.

Record Handle := MkHandle { owner : PeerId; handle_contract : string; pinned : Z }.

Record State := MkState {
  peers : gmap PeerId PeerRecord;
  providers : gmap string Provider;
  generations : gmap string Z;
  handles : gmap HandleId Handle;
  next_peer : PeerId;
  next_handle : HandleId;
}.

(** The locked state, what the sink was given in order, the wait graph when
    one is installed, and the provision edge. *)
Record Broker := MkBroker {
  state : State;
  ledger : list (LedgerEventKind * option FiberId);
  waits : option WaitGraph;
  provisions : Z;
}.

Definition new_broker : Broker := MkBroker (MkState ∅ ∅ ∅ ∅ 0 0) [] None 0.

Definition fiber_of (s : State) (peer : PeerId) : option FiberId :=
  record ← peers s !! peer; peer_fiber record.

Definition granted (s : State) (peer : PeerId) (c : string) : bool :=
  match peers s !! peer with
  | Some record => bool_decide (is_Some (peer_grants record !! c))
  | None => false
  end.

Definition generation_of (s : State) (c : string) : Z := default 0%Z (generations s !! c).

Definition with_peers (f : gmap PeerId PeerRecord -> gmap PeerId PeerRecord) (s : State) : State :=
  MkState (f (peers s)) (providers s) (generations s) (handles s) (next_peer s) (next_handle s).

Definition with_state (f : State -> State) (b : Broker) : Broker :=
  MkBroker (f (state b)) (ledger b) (waits b) (provisions b).

Definition append (kind : LedgerEventKind) (fiber : option FiberId) (b : Broker) : Broker :=
  MkBroker (state b) (ledger b ++ [(kind, fiber)]) (waits b) (provisions b).

Definition moved (b : Broker) : Broker :=
  MkBroker (state b) (ledger b) (waits b) (provisions b + 1).

(** [get_mut] of one peer. *)
Definition on_peer (peer : PeerId) (f : PeerRecord -> PeerRecord) (b : Broker) : Broker :=
  with_state (with_peers (alter f peer)) b.

(** ** Authority ([broker/authority.rs]) *)

Definition attach_target (peer : PeerId) (target : Target) : Broker -> Broker :=
  on_peer peer (fun r => MkPeerRecord (peer_fiber r) (peer_entry r) (peer_grants r) (peer_ops r) (Some target)).

Definition target_of (peer : PeerId) (b : Broker) : option Target :=
  record ← peers (state b) !! peer; peer_target record.

Definition attribute_entry (peer : PeerId) (name : string) : Broker -> Broker :=
  on_peer peer (fun r => MkPeerRecord (peer_fiber r) (Some name) (peer_grants r) (peer_ops r) (peer_target r)).

Definition entry_of (peer : PeerId) (b : Broker) : option string :=
  record ← peers (state b) !! peer; peer_entry record.

Definition attribution (peer : PeerId) (b : Broker) : option FiberId := fiber_of (state b) peer.

(** [entry(..).and_modify(union).or_insert(..)]. *)
Definition widen {A} (join : A -> A -> A) (c : string) (more : A) (m : gmap string A) : gmap string A :=
  <[c := match m !! c with Some held => join held more | None => more end]> m.

Definition grant_with (peer : PeerId) (c : string) (scope : GrantScope) : Broker -> Broker :=
  on_peer peer (fun r => MkPeerRecord (peer_fiber r) (peer_entry r) (widen Grants.union c scope (peer_grants r))
    (peer_ops r) (peer_target r)).

Definition grant_root (peer : PeerId) (c : string) : Broker -> Broker := grant_with peer c Root.

Definition grant_scoped (peer : PeerId) (c scope : string) : Broker -> Broker :=
  grant_with peer c (PathsScope [scope]).

Definition widen_ops (peer : PeerId) (c : string) (class : OpsClass) : Broker -> Broker :=
  on_peer peer (fun r => MkPeerRecord (peer_fiber r) (peer_entry r) (peer_grants r)
    (widen union_class c class (peer_ops r)) (peer_target r)).

Definition grant_ops (peer : PeerId) (c : string) (ops : list string) : Broker -> Broker :=
  widen_ops peer c (Only ops).

Definition lift_ops (peer : PeerId) (c : string) : Broker -> Broker := widen_ops peer c All.

(** [grants/ops.rs]. *)
Definition attenuate (peer : PeerId) (g : Grant) : Broker -> Broker :=
  match attenuation g with
  | Some ops => grant_ops peer (contract g) ops
  | None => lift_ops peer (contract g)
  end.

Definition refusal (code : ErrorCode) (text : string) : KernelError := MkKernelError code text None.

Definition class_text (c operation : string) : string :=
  "grant refused: " +:+ c +:+ " " +:+ operation +:+ " is outside the granted operation class".

Definition op_allowed (s : State) (peer : PeerId) (c operation : string) : bool :=
  match peers s !! peer with
  | Some record => match peer_ops record !! c with Some class => admits_op class operation | None => true end
  | None => true
  end.

Definition check_op (peer : PeerId) (c operation : string) (b : Broker) : result () KernelError * Broker :=
  if op_allowed (state b) peer c operation then (Ok (), b)
  else (Err (refusal EffectFailed (class_text c operation)),
        append (GrantRefused c ScopeMismatch (Some (class_text c operation))) (fiber_of (state b) peer) b).

Definition policy (peer : PeerId) (c : string) (b : Broker) : option GrantScope :=
  record ← peers (state b) !! peer; peer_grants record !! c.

Definition scopes (peer : PeerId) (c : string) (b : Broker) : option (list string) :=
  (fun scope => match scope with PathsScope paths => paths | _ => [] end) <$> policy peer c b.

Definition check_grant (peer : PeerId) (c : string) (b : Broker) : result () KernelError * Broker :=
  if granted (state b) peer c then (Ok (), b)
  else (Err (refusal EffectFailed ("grant refused: " +:+ c)),
        append (GrantRefused c NotGranted None) (fiber_of (state b) peer) b).

(** ** Peers and provisions ([broker.rs]) *)

Definition provider_of (c : string) (b : Broker) : option (option FiberId * Z) :=
  provider ← providers (state b) !! c;
  Some (fiber_of (state b) (provider_peer provider), generation provider).

Definition register_peer (fiber : option FiberId) (b : Broker) : PeerId * Broker :=
  let id := (next_peer (state b) + 1)%Z in
  (id, with_state (fun s => MkState (<[id := MkPeerRecord fiber None ∅ ∅ None]> (peers s)) (providers s)
         (generations s) (handles s) id (next_handle s)) b).

(** The second critical section of [provide]. *)
Definition install (peer : PeerId) (c : string) (face : Callable) (s : State) : result State KernelError :=
  let taken := match providers s !! c with
               | Some existing => bool_decide (provider_peer existing <> peer)
               | None => false
               end in
  if taken then Err (refusal DuplicateProvision (c +:+ " already has a live provider"))
  else
    let generation := (generation_of s c + 1)%Z in
    Ok (MkState (peers s) (<[c := MkProvider peer face generation]> (providers s))
      (<[c := generation]> (generations s)) (handles s) (next_peer s) (next_handle s)).

Definition provide (peer : PeerId) (c : string) (face : Callable) (b : Broker) :
    result () KernelError * Broker :=
  match check_grant peer c b with
  | (Err error, b) => (Err error, b)
  | (Ok _, b) =>
      match install peer c face (state b) with
      | Err error => (Err error, b)
      | Ok s =>
          (Ok (), moved (append (ServiceProvided c) (fiber_of s peer) (with_state (fun _ => s) b)))
      end
  end.

Definition holds (s : State) (peer : PeerId) (c : string) : bool :=
  match providers s !! c with
  | Some provider => bool_decide (provider_peer provider = peer)
  | None => false
  end.

Definition vacate (c : string) (s : State) : State :=
  MkState (peers s) (delete c (providers s)) (generations s) (handles s) (next_peer s) (next_handle s).

Definition withdraw (peer : PeerId) (c : string) (b : Broker) : Broker :=
  if holds (state b) peer c then
    moved (append (ServiceWithdrawn c) (fiber_of (state b) peer) (with_state (vacate c) b))
  else b.

(** The first critical section of [remove_peer]. *)
Definition provided_by (peer : PeerId) (s : State) : list string :=
  map fst (filter (fun p : string * Provider => provider_peer p.2 = peer) (map_to_list (providers s))).

(** The last one. *)
Definition forget_peer (peer : PeerId) (s : State) : State :=
  MkState (delete peer (peers s)) (providers s) (generations s)
    (filter (fun h : HandleId * Handle => owner h.2 <> peer) (handles s)) (next_peer s) (next_handle s).

Definition remove_peer (peer : PeerId) (b : Broker) : Broker :=
  with_state (forget_peer peer)
    (fold_left (fun b c => withdraw peer c b) (provided_by peer (state b)) b).

(** The second critical section of [resolve]. *)
Definition mint (caller : PeerId) (c : string) (s : State) : HandleId * State :=
  let handle := (next_handle s + 1)%Z in
  (handle, MkState (peers s) (providers s) (generations s)
    (<[handle := MkHandle caller c (generation_of s c)]> (handles s)) (next_peer s) handle).

Definition broker_resolve (caller : PeerId) (c : string) (b : Broker) : result HandleId KernelError * Broker :=
  match check_grant caller c b with
  | (Err error, b) => (Err error, b)
  | (Ok _, b) =>
      let '(handle, s) := mint caller c (state b) in
      (Ok handle, append (ContractResolved c) (fiber_of s caller) (with_state (fun _ => s) b))
  end.

(** ** Dispatch ([broker/calls.rs]) *)

Definition waiter_name (c : Cycle) : string :=
  match waiter_entry c with Some e => entry_id e | None => "fiber " +:+ pretty (fiber_id (cycle_waiter c)) end.

Definition target_name (c : Cycle) : string :=
  match target_entry c with Some e => entry_id e | None => "fiber " +:+ pretty (fiber_id (cycle_target c)) end.

Definition cycle_error (c : Cycle) : KernelError :=
  refusal DependencyCycle ("wait cycle: " +:+ waiter_name c +:+ " cannot call " +:+ cycle_on c +:+ " on " +:+
    target_name c +:+ " — " +:+ target_name c +:+ " is already awaiting it").

(** [None] without a wait graph; [Some None] is an inert ticket. *)
Definition park (caller provider : option FiberId) (on : string) (b : Broker) :
    result (option (option Z)) Cycle * Broker :=
  match waits b with
  | None => (Ok None, b)
  | Some graph =>
      match enter entry caller provider on graph with
      | (Ok ticket, graph) =>
          (Ok (Some ticket), MkBroker (state b) (ledger b) (Some graph) (provisions b))
      | (Err cycle, graph) =>
          (Err cycle,
           append (CycleRefused on (cycle_target cycle) (target_entry cycle) (map target (through cycle))) caller
             (MkBroker (state b) (ledger b) (Some graph) (provisions b)))
      end
  end.

(** The ticket of a settled crossing is dropped. *)
Definition settle (ticket : option (option Z)) (b : Broker) : Broker :=
  match ticket, waits b with
  | Some ticket, Some graph => MkBroker (state b) (ledger b) (Some (drop_ticket ticket graph)) (provisions b)
  | _, _ => b
  end.

(** The future an operation answers: an error at once, or the provider's answer
    to one call, awaited under a ticket. *)
Inductive Crossing :=
  | Fails (error : KernelError)
  | Crosses (face : Callable) (caller : PeerId) (c operation : string) (ticket : option (option Z)).

Definition no_provider (c : string) : KernelError :=
  refusal MissingDependency (c +:+ " has no live provider").

Definition foreign_handle : KernelError := refusal EffectFailed "the handle is not the caller's".

Definition stale (c : string) : KernelError :=
  refusal EffectFailed ("stale handle: " +:+ c +:+ " changed provider since resolve").

Definition crossing_name (c operation : string) : string := c +:+ "." +:+ operation.

(** The match on the provider that was looked up. *)
Definition cross (caller : PeerId) (c operation : string) (pin : Z)
    (provider : option (Callable * Z * option FiberId)) (fiber : option FiberId) (b : Broker) :
    result Crossing Cycle * Broker :=
  match check_op caller c operation b with
  | (Err _, b) => (Ok (Fails (refusal EffectFailed (class_text c operation))), b)
  | (Ok _, b) =>
      match provider with
      | Some (face, generation, at_fiber) =>
          if decide (generation <> pin) then (Ok (Fails (stale c)), append (StaleHandleRefused c) fiber b)
          else
            match park fiber at_fiber (crossing_name c operation) b with
            | (Err cycle, b) => (Err cycle, b)
            | (Ok ticket, b) =>
                (Ok (Crosses face caller c operation ticket), append (ContractCall c operation) fiber b)
            end
      | None => (Ok (Fails (no_provider c)), append (ContractCall c operation) fiber b)
      end
  end.

(** What the first critical section of a call reads. *)
Definition looked_up (s : State) (caller : PeerId) (handle : HandleId) :
    option (string * Z * option (Callable * Z * option FiberId)) :=
  record ← handles s !! handle;
  if decide (owner record = caller) then
    let c := handle_contract record in
    Some (c, pinned record,
      (fun provider => (callable provider, generation provider, fiber_of s (provider_peer provider))) <$>
        (providers s !! c))
  else None.

Definition call_or_refuse (caller : PeerId) (handle : HandleId) (operation : string) (b : Broker) :
    result Crossing Cycle * Broker :=
  match looked_up (state b) caller handle with
  | None => (Ok (Fails foreign_handle), b)
  | Some (c, pin, provider) => cross caller c operation pin provider (fiber_of (state b) caller) b
  end.

Definition call (caller : PeerId) (handle : HandleId) (operation : string) (b : Broker) : Crossing * Broker :=
  match call_or_refuse caller handle operation b with
  | (Ok answer, b) => (answer, b)
  | (Err cycle, b) => (Fails (cycle_error cycle), b)
  end.

Definition dispatch (caller : PeerId) (c operation : string) (b : Broker) : Crossing * Broker :=
  match check_grant caller c b with
  | (Err refused, b) => (Fails refused, b)
  | (Ok _, b) =>
      match check_op caller c operation b with
      | (Err refused, b) => (Fails refused, b)
      | (Ok _, b) =>
          let provider := (fun p => (callable p, fiber_of (state b) (provider_peer p))) <$> (providers (state b) !! c) in
          let fiber := fiber_of (state b) caller in
          match park fiber (provider ≫= snd) (crossing_name c operation) b with
          | (Err cycle, b) => (Fails (cycle_error cycle), b)
          | (Ok ticket, b) =>
              let b := append (ContractCall c operation) fiber b in
              match provider with
              | None => (Fails (no_provider c), settle ticket b)
              | Some (face, _) => (Crosses face caller c operation ticket, b)
              end
          end
      end
  end.

(** The answers of the lanes that bind to the current provider: the provider's
    face to be asked, or the answer without one. *)
Definition withdraw_effect (c : string) (effect : Z) (b : Broker) : result Callable KernelError :=
  match providers (state b) !! c with
  | None => Err (refusal MissingDependency
              (c +:+ " has no live provider to withdraw effect " +:+ pretty effect))
  | Some provider => Ok (callable provider)
  end.

Definition vitality (c : string) (b : Broker) : bool + Callable :=
  match providers (state b) !! c with None => inl false | Some provider => inr (callable provider) end.

(** ** Interleaving the critical sections

    [passed]: the checks of the grant that succeeded; what a later section of
    the same operation relies on. *)

Record World := MkWorld { broker : Broker; passed : gset (PeerId * string) }.

Definition updated (f : Broker -> Broker) (w : World) : World := MkWorld (f (broker w)) (passed w).

Definition same_peers (f : PeerRecord -> PeerRecord) : Prop :=
  forall r, peer_fiber (f r) = peer_fiber r /\ forall c, is_Some (peer_grants r !! c) -> is_Some (peer_grants (f r) !! c).

Inductive section (w : World) : World -> Prop :=
  | registers fiber : section w (updated (fun b => (register_peer fiber b).2) w)
  | edits peer f : same_peers f -> section w (updated (on_peer peer f) w)
  | checks peer c : granted (state (broker w)) peer c = true ->
      section w (MkWorld (broker w) ({[(peer, c)]} ∪ passed w))
  | installs peer c face s : (peer, c) ∈ passed w -> install peer c face (state (broker w)) = Ok s ->
      section w (updated (with_state (fun _ => s)) w)
  | vacates peer c : holds (state (broker w)) peer c = true -> section w (updated (with_state (vacate c)) w)
  | forgets peer : section w (updated (with_state (forget_peer peer)) w)
  | mints caller c : (caller, c) ∈ passed w ->
      section w (updated (with_state (fun s => (mint caller c s).2)) w)
  | appends kind fiber : section w (updated (append kind fiber) w)
  | moves : section w (updated moved w)
  | parks_on caller provider on : section w (updated (fun b => (park caller provider on b).2) w)
  | settles_on ticket : section w (updated (settle ticket) w).

Definition running : World -> Prop := reachable (fun w => w = MkWorld new_broker ∅) section.

(** ** The operations are runs of sections *)

Lemma check_grant_run peer c w r b :
  check_grant peer c (broker w) = (r, b) ->
  exists w', rtc section w w' /\ broker w' = b /\ (r = Ok () -> (peer, c) ∈ passed w' /\ b = broker w).
Proof.
  unfold check_grant. destruct (granted _ _ _) eqn:Hg; intros [= <- <-].
  - eexists. split; [apply rtc_once, checks; exact Hg|]. simpl. split; [done|]. intros _. set_solver.
  - eexists. split; [apply rtc_once, appends|]. done.
Qed.

Lemma withdraw_run peer c w : exists w', rtc section w w' /\ broker w' = withdraw peer c (broker w).
Proof.
  unfold withdraw. destruct (holds _ _ _) eqn:Hh; [|exists w; by split; [apply rtc_refl|]].
  eexists. split; [eapply rtc_l; [by eapply vacates|eapply rtc_l; [apply appends|apply rtc_once, moves]]|].
  simpl. done.
Qed.

Lemma provide_run peer c face w :
  exists w', rtc section w w' /\ broker w' = (provide peer c face (broker w)).2.
Proof.
  unfold provide. destruct (check_grant peer c (broker w)) as [[[]|error] b] eqn:Hc;
    destruct (check_grant_run _ _ _ _ _ Hc) as (w1 & Hr & <- & Hok); [|by exists w1].
  destruct (Hok eq_refl) as [Hp _]. destruct (install peer c face _) as [s|error] eqn:Hi; [|by exists w1].
  eexists. split; [etrans; [exact Hr|]; eapply rtc_l; [by eapply installs|];
    eapply rtc_l; [apply appends|apply rtc_once, moves]|]. done.
Qed.

Lemma resolve_run caller c w :
  exists w', rtc section w w' /\ broker w' = (broker_resolve caller c (broker w)).2.
Proof.
  unfold broker_resolve. destruct (check_grant caller c (broker w)) as [[[]|error] b] eqn:Hc;
    destruct (check_grant_run _ _ _ _ _ Hc) as (w1 & Hr & <- & Hok); [|by exists w1].
  destruct (Hok eq_refl) as [Hp _]. simpl.
  eexists. split; [etrans; [exact Hr|]; eapply rtc_l; [by eapply mints|]; apply rtc_once, appends|]. done.
Qed.

Lemma remove_peer_run peer w : exists w', rtc section w w' /\ broker w' = remove_peer peer (broker w).
Proof.
  unfold remove_peer.
  assert (forall l w, exists w', rtc section w w' /\
    broker w' = fold_left (fun b c => withdraw peer c b) l (broker w)) as Hl.
  { induction l as [|c l IH]; intros w0; simpl; [by exists w0; split; [apply rtc_refl|]|].
    destruct (withdraw_run peer c w0) as (w1 & H1 & He). rewrite <-He.
    destruct (IH w1) as (w2 & H2 & ?). exists w2. split; [by etrans|done]. }
  destruct (Hl (provided_by peer (state (broker w))) w) as (w1 & H1 & He). rewrite <-He.
  eexists. split; [eapply rtc_r; [exact H1|apply forgets]|done].
Qed.

Lemma dispatch_run caller c operation w :
  exists w', rtc section w w' /\ broker w' = (dispatch caller c operation (broker w)).2.
Proof.
  unfold dispatch. destruct (check_grant caller c (broker w)) as [[[]|error] b] eqn:Hc;
    destruct (check_grant_run _ _ _ _ _ Hc) as (w1 & Hr & <- & Hok); [|by exists w1].
  unfold check_op. destruct (op_allowed _ _ _ _).
  - set (provider := _ <$> _). set (fiber := fiber_of _ caller).
    assert (section w1 (updated (fun b => (park fiber (provider ≫= snd) (crossing_name c operation) b).2) w1))
      as Hp by apply parks_on.
    unfold updated in Hp. destruct (park fiber _ _ (broker w1)) as [[ticket|cycle] b]; cbn [snd] in Hp.
    + destruct provider as [[face at_fiber]|].
      * eexists. split; [etrans; [exact Hr|]; eapply rtc_l; [exact Hp|apply rtc_once, appends]|]. done.
      * eexists. split; [etrans; [exact Hr|]; eapply rtc_l; [exact Hp|];
          eapply rtc_l; [apply appends|apply rtc_once, settles_on]|]. done.
    + eexists. split; [eapply rtc_r; [exact Hr|exact Hp]|]. done.
  - eexists. split; [eapply rtc_r; [exact Hr|apply appends]|]. done.
Qed.

Lemma cross_run caller c operation pin provider fiber w :
  exists w', rtc section w w' /\ broker w' = (cross caller c operation pin provider fiber (broker w)).2.
Proof.
  unfold cross, check_op. destruct (op_allowed _ _ _ _).
  - destruct provider as [[[face g] at_fiber]|].
    + case_decide; [eexists; by split; [apply rtc_once, appends|]|].
      assert (section w (updated (fun b => (park fiber at_fiber (crossing_name c operation) b).2) w)) as Hp
        by apply parks_on.
      unfold updated in Hp. destruct (park fiber _ _ (broker w)) as [[ticket|cycle] b]; cbn [snd] in Hp.
      * eexists. split; [eapply rtc_l; [exact Hp|apply rtc_once, appends]|done].
      * eexists. split; [apply rtc_once; exact Hp|done].
    + eexists. by split; [apply rtc_once, appends|].
  - eexists. by split; [apply rtc_once, appends|].
Qed.

Lemma call_run caller handle operation w :
  exists w', rtc section w w' /\ broker w' = (call_or_refuse caller handle operation (broker w)).2.
Proof.
  unfold call_or_refuse. destruct (looked_up _ _ _) as [[[c pin] provider]|]; [apply cross_run|].
  exists w. by split; [apply rtc_refl|].
Qed.

(** ** Invariants of the broker *)

Record coherent (w : World) : Prop := {
  live_generation c p : providers (state (broker w)) !! c = Some p ->
    generation p = generation_of (state (broker w)) c;
  handle_pinned h r : handles (state (broker w)) !! h = Some r ->
    (pinned r <= generation_of (state (broker w)) (handle_contract r))%Z;
  handle_passed h r : handles (state (broker w)) !! h = Some r -> (owner r, handle_contract r) ∈ passed w;
  handle_issued h r : handles (state (broker w)) !! h = Some r -> (h <= next_handle (state (broker w)))%Z;
  provider_passed c p : providers (state (broker w)) !! c = Some p -> (provider_peer p, c) ∈ passed w;
}.

(** What one section may change of provisions and handles. *)
Record advances (w w' : World) : Prop := {
  adv_generation c : (generation_of (state (broker w)) c <= generation_of (state (broker w')) c)%Z;
  adv_provider c : generation_of (state (broker w')) c = generation_of (state (broker w)) c ->
    providers (state (broker w')) !! c = providers (state (broker w)) !! c \/
    providers (state (broker w')) !! c = None;
  adv_handles h r : handles (state (broker w')) !! h = Some r ->
    (h <= next_handle (state (broker w)))%Z -> handles (state (broker w)) !! h = Some r;
  adv_next : (next_handle (state (broker w)) <= next_handle (state (broker w')))%Z;
  adv_passed : passed w ⊆ passed w';
}.

#[local] Instance advances_refl : Reflexive advances.
Proof. split; try done. by left. Qed.

#[local] Instance advances_trans : Transitive advances.
Proof.
  intros w1 w2 w3 [G1 P1 H1 N1 S1] [G2 P2 H2 N2 S2]. split.
  - intros c. specialize (G1 c). specialize (G2 c). lia.
  - intros c Hc. assert (generation_of (state (broker w2)) c = generation_of (state (broker w1)) c) as H12.
    { specialize (G1 c). specialize (G2 c). lia. }
    destruct (P2 c ltac:(congruence)) as [->|Hn]; [by apply P1|by right].
  - intros h r Hr Hh. apply H1; [|done]. apply H2; [done|lia].
  - lia.
  - by etrans.
Qed.

(** Sections that leave provisions, generations and handles alone. *)
Lemma advances_same w w' :
  providers (state (broker w')) = providers (state (broker w)) ->
  generations (state (broker w')) = generations (state (broker w)) ->
  handles (state (broker w')) = handles (state (broker w)) ->
  next_handle (state (broker w')) = next_handle (state (broker w)) -> passed w ⊆ passed w' ->
  advances w w' /\ (coherent w -> coherent w').
Proof.
  intros Hp Hg Hh Hn Hs. split.
  - split; unfold generation_of; rewrite ?Hp, ?Hg, ?Hh, ?Hn; try done. intros; by left.
  - intros [L P A I R]. split; unfold generation_of in *; rewrite ?Hp, ?Hg, ?Hh, ?Hn; try done;
      intros; apply Hs; eauto.
Qed.

Lemma park_state fiber at_fiber on b : state (park fiber at_fiber on b).2 = state b.
Proof. unfold park. destruct (waits b); [|done]. by destruct (enter _ _ _ _ _) as [[] ?]. Qed.

Lemma settle_state ticket b : state (settle ticket b) = state b.
Proof. unfold settle. by destruct ticket, (waits b). Qed.

Lemma section_installs w peer c face s :
  (peer, c) ∈ passed w -> install peer c face (state (broker w)) = Ok s ->
  advances w (updated (with_state (fun _ => s)) w) /\ (coherent w -> coherent (updated (with_state (fun _ => s)) w)).
Proof.
  intros Hpass. unfold install. destruct (match providers _ !! c with Some _ => _ | None => _ end); [done|].
  intros [= <-]. unfold updated, with_state. split.
  - split; simpl; try done; unfold generation_of; simpl.
    + intros c'.
      destruct (decide (c' = c)) as [->|]; [rewrite lookup_insert_eq; simpl; lia|by rewrite lookup_insert_ne].
    + intros c'.
      destruct (decide (c' = c)) as [->|]; [rewrite lookup_insert_eq; simpl; lia|].
      rewrite !lookup_insert_ne by done. by left.
  - intros [L P A I R]. split; simpl; unfold generation_of in *; simpl.
    + intros c' p. destruct (decide (c' = c)) as [->|].
      * rewrite !lookup_insert_eq. by intros [= <-].
      * rewrite !lookup_insert_ne by done. apply L.
    + intros h r Hr. specialize (P h r Hr).
      destruct (decide (handle_contract r = c)) as [Hc|]; [rewrite Hc in *; rewrite lookup_insert_eq; simpl; lia|].
      by rewrite lookup_insert_ne.
    + done.
    + done.
    + intros c' p. destruct (decide (c' = c)) as [->|].
      * rewrite lookup_insert_eq. by intros [= <-].
      * rewrite lookup_insert_ne by done. apply R.
Qed.

Lemma section_vacates w c :
  advances w (updated (with_state (vacate c)) w) /\ (coherent w -> coherent (updated (with_state (vacate c)) w)).
Proof.
  assert (forall c' p, delete c (providers (state (broker w))) !! c' = Some p ->
    providers (state (broker w)) !! c' = Some p) as Hd by (intros c' p H; by apply lookup_delete_Some in H as [_ H]).
  split.
  - split; unfold generation_of; simpl; try done. intros c' _.
    destruct (decide (c' = c)) as [->|]; [right; apply lookup_delete_eq|left; by apply lookup_delete_ne].
  - intros [L P A I R]. split; unfold generation_of in *; simpl in *; eauto.
Qed.

Lemma section_forgets w peer :
  advances w (updated (with_state (forget_peer peer)) w) /\
  (coherent w -> coherent (updated (with_state (forget_peer peer)) w)).
Proof.
  assert (forall h r, filter (fun h : HandleId * Handle => owner h.2 <> peer) (handles (state (broker w))) !! h = Some r ->
    handles (state (broker w)) !! h = Some r) as Hf by (intros h r H; by apply map_lookup_filter_Some in H as [H _]).
  split.
  - split; unfold generation_of; simpl; eauto; done.
  - intros [L P A I R]. split; unfold generation_of in *; simpl in *; eauto.
Qed.

Lemma section_mints w caller c :
  (caller, c) ∈ passed w ->
  advances w (updated (with_state (fun s => (mint caller c s).2)) w) /\
  (coherent w -> coherent (updated (with_state (fun s => (mint caller c s).2)) w)).
Proof.
  intros Hpass.
  assert (forall h r, <[(next_handle (state (broker w)) + 1)%Z := MkHandle caller c (generation_of (state (broker w)) c)]>
      (handles (state (broker w))) !! h = Some r ->
    (h = (next_handle (state (broker w)) + 1)%Z /\ r = MkHandle caller c (generation_of (state (broker w)) c)) \/
    handles (state (broker w)) !! h = Some r) as Hi.
  { intros h r. destruct (decide (h = (next_handle (state (broker w)) + 1)%Z)) as [->|];
      [rewrite lookup_insert_eq; intros [= <-]; auto|rewrite lookup_insert_ne by done; auto]. }
  split.
  - split; unfold generation_of; simpl; try done.
    + by left.
    + intros h r [[-> ->]|Hr]%Hi Hle; [lia|done].
    + lia.
  - intros [L P A I R]. split; unfold generation_of in *; simpl in *; try done.
    + intros h r [[-> ->]|Hr]%Hi; [done|by eapply P].
    + intros h r [[-> ->]|Hr]%Hi; [done|by eapply A].
    + intros h r [[-> ->]|Hr]%Hi; [lia|]. specialize (I h r Hr). lia.
Qed.

Lemma section_laws w w' : section w w' -> advances w w' /\ (coherent w -> coherent w').
Proof.
  intros [].
  1, 2, 3, 8, 9, 10, 11: apply advances_same; unfold updated; simpl; rewrite ?park_state, ?settle_state; set_solver.
  - by eapply section_installs.
  - apply section_vacates.
  - apply section_forgets.
  - by apply section_mints.
Qed.

Lemma sections_laws w w' : rtc section w w' -> advances w w' /\ (coherent w -> coherent w').
Proof.
  induction 1 as [w|w1 w2 w3 H12 _ IH]; [by split|].
  apply section_laws in H12 as [Ha Hc]. destruct IH as [Ha' Hc']. split; [by etrans|auto].
Qed.

Lemma running_coherent w : running w -> coherent w.
Proof.
  apply reachable_invariant; [|intros w1 w2 Hc Hs; by apply (section_laws w1 w2)].
  intros ? ->. split; unfold generation_of; simpl; done.
Qed.

Lemma looked_up_Some s caller h c pin provider :
  looked_up s caller h = Some (c, pin, provider) ->
  handles s !! h = Some (MkHandle caller c pin) /\
  provider = (fun p => (callable p, generation p, fiber_of s (provider_peer p))) <$> (providers s !! c).
Proof.
  unfold looked_up. destruct (handles s !! h) as [[o c' pin']|]; simpl; [|done].
  case_decide as Ho; [|done]. simpl in Ho. subst o. by intros [= -> -> <-].
Qed.

Lemma cross_Crosses caller c operation pin provider fiber b face caller' c' operation' ticket b' :
  cross caller c operation pin provider fiber b = (Ok (Crosses face caller' c' operation' ticket), b') ->
  caller' = caller /\ c' = c /\ operation' = operation /\ op_allowed (state b) caller c operation = true /\
  exists at_fiber, provider = Some (face, pin, at_fiber).
Proof.
  unfold cross, check_op. destruct (op_allowed _ _ _ _) eqn:Hop; [|done].
  destruct provider as [[[f g] at_fiber]|]; [|done]. case_decide as Hg; [done|].
  destruct (park _ _ _ _) as [[t|cycle] b1]; [|done]. intros [= <- <- <- <- <- <-].
  split_and!; try done. exists at_fiber. f_equal. f_equal. f_equal. by destruct (decide (g = pin)).
Qed.

(** C29: A handle never changes provider. Whatever happens between the moment a
    handle is minted and a call through it, in any interleaving of provisions,
    withdrawals, removals and other calls, the call reaches a peer only if its
    caller is the one the handle was minted for, the operation is within the
    caller's class, and the provision the handle resolved against is still the
    one in place. *)
Theorem a_handle_never_changes_provider w w' caller c h s x c' operation pin provider fiber b face y d o t b' :
  running w -> (caller, c) ∈ passed w -> mint caller c (state (broker w)) = (h, s) ->
  rtc section (updated (with_state (fun _ => s)) w) w' ->
  looked_up (state (broker w')) x h = Some (c', pin, provider) ->
  cross x c' operation pin provider fiber b = (Ok (Crosses face y d o t), b') ->
  x = caller /\ (y, d, o) = (caller, c, operation) /\ op_allowed (state b) caller c operation = true /\
  exists p, callable p = face /\ providers (state (broker w)) !! c = Some p /\
    providers (state (broker w')) !! c = Some p.
Proof.
  intros Hrun Hpass Hm Hr [Hl ->]%looked_up_Some (-> & -> & -> & Hop & at_fiber & Hp)%cross_Crosses.
  assert (section w (updated (with_state (fun _ => s)) w)) as H1.
  { pose proof (mints w caller c Hpass) as H. unfold updated, with_state in *. rewrite Hm in H. done. }
  destruct (section_laws _ _ H1) as [A1 C1], (sections_laws _ _ Hr) as [A2 C2].
  apply running_coherent in Hrun as C. specialize (C2 (C1 C)).
  injection Hm as <- <-. apply (adv_handles _ _ A2) in Hl; [|simpl; lia].
  simpl in Hl. rewrite lookup_insert_eq in Hl. injection Hl as <- <- <-.
  destruct (providers (state (broker w')) !! c) as [p|] eqn:Hc; [|done]. injection Hp as <- Hg _.
  pose proof (live_generation _ C2 _ _ Hc) as Hlive.
  pose proof (adv_provider _ _ (transitivity A1 A2) c) as [He|He]; [congruence| |congruence].
  split_and!; try done. exists p. split_and!; [done|congruence|done].
Qed.

Lemma park_spec caller at_fiber on b r b' :
  park caller at_fiber on b = (r, b') ->
  state b' = state b /\ provisions b' = provisions b /\
  match r with
  | Ok _ => ledger b' = ledger b
  | Err cycle =>
      exists graph w t, waits b = Some graph /\ caller = Some w /\ at_fiber = Some t /\ cycle_target cycle = t /\
        path_between (edges graph) t w (through cycle) /\
        ledger b' = ledger b ++ [(CycleRefused on t (entry t) (map target (through cycle)), caller)]
  end.
Proof.
  unfold park, enter. destruct (waits b) as [graph|] eqn:Hw; [|by intros [= <- <-]].
  destruct caller as [w|], at_fiber as [t|]; try by intros [= <- <-].
  pose proof (reaches_spec t w graph) as Hr. destruct (reaches t w graph) as [p|]; intros [= <- <-]; [|done].
  split_and!; [done..|]. by exists graph, w, t.
Qed.

Lemma settle_ledger ticket b : ledger (settle ticket b) = ledger b /\ provisions (settle ticket b) = provisions b.
Proof. unfold settle. by destruct ticket, (waits b). Qed.

(** Every crossing is on the record before it reaches a peer. One dispatch
    appends exactly one row, attributed to the caller's fiber, and changes
    neither peers nor provisions: a crossing for a caller that holds the grant
    and the operation while a provider is in place; a refusal of the grant or
    of the operation; a refused cycle, with the waits that would have closed
    it; a crossing that met no provider. *)
Theorem every_crossing_is_on_the_record caller c operation b answer b' :
  dispatch caller c operation b = (answer, b') ->
  state b' = state b /\ provisions b' = provisions b /\
  exists kind, ledger b' = ledger b ++ [(kind, fiber_of (state b) caller)] /\
  match answer with
  | Crosses face x d o _ =>
      (x, d, o) = (caller, c, operation) /\ kind = ContractCall c operation /\
      granted (state b) caller c = true /\ op_allowed (state b) caller c operation = true /\
      exists p, providers (state b) !! c = Some p /\ callable p = face
  | Fails error =>
      match code error with
      | EffectFailed =>
          (granted (state b) caller c = false /\ kind = GrantRefused c NotGranted None) \/
          (granted (state b) caller c = true /\ op_allowed (state b) caller c operation = false /\
            kind = GrantRefused c ScopeMismatch (Some (class_text c operation)))
      | DependencyCycle =>
          granted (state b) caller c = true /\ op_allowed (state b) caller c operation = true /\
          exists graph w t path, waits b = Some graph /\ fiber_of (state b) caller = Some w /\
            provider_of c b ≫= fst = Some t /\ path_between (edges graph) t w path /\
            kind = CycleRefused (crossing_name c operation) t (entry t) (map target path)
      | MissingDependency =>
          granted (state b) caller c = true /\ op_allowed (state b) caller c operation = true /\
          providers (state b) !! c = None /\ kind = ContractCall c operation
      | _ => False
      end
  end.
Proof.
  unfold dispatch, check_grant, check_op. destruct (granted _ _ _) eqn:Hg; [|intros [= <- <-]; simpl; eauto 10].
  destruct (op_allowed _ _ _ _) eqn:Hop; [|intros [= <- <-]; simpl; eauto 10].
  unfold provider_of. destruct (park _ _ _ b) as [r b1] eqn:Hp. apply park_spec in Hp as (Hs & Hv & Hr).
  destruct r as [ticket|cycle].
  - destruct (providers (state b) !! c) as [p|] eqn:Hpr; simpl; intros [= <- <-].
    + split_and!; [done..|]. eexists. simpl. rewrite Hr. split_and!; try done. by exists p.
    + destruct (settle_ledger ticket (append (ContractCall c operation) (fiber_of (state b) caller) b1)) as [Hl Hv'].
      rewrite settle_state, Hl, Hv'. split_and!; [done..|]. eexists. simpl. rewrite Hr. done.
  - destruct Hr as (graph & w & t & Hw & Hc & Ht & Hct & Hpath & Hl). intros [= <- <-].
    split_and!; [done..|]. eexists. split; [exact Hl|]. simpl. split_and!; [done..|].
    exists graph, w, t, (through cycle). split_and!; try done.
    by destruct (providers (state b) !! c).
Qed.

Lemma withdraw_all peer l b :
  NoDup l -> (forall c, c ∈ l -> holds (state b) peer c = true) ->
  let b' := fold_left (fun b c => withdraw peer c b) l b in
  peers (state b') = peers (state b) /\ generations (state b') = generations (state b) /\
  handles (state b') = handles (state b) /\
  (forall c, providers (state b') !! c = if decide (c ∈ l) then None else providers (state b) !! c) /\
  ledger b' = ledger b ++ map (fun c => (ServiceWithdrawn c, fiber_of (state b) peer)) l.
Proof.
  intros Hnd. revert b. induction Hnd as [|c l Hc Hnd IH]; intros b Hh; simpl.
  - split_and!; [done..|by rewrite app_nil_r].
  - set (b1 := moved (append (ServiceWithdrawn c) (fiber_of (state b) peer) (with_state (vacate c) b))).
    assert (withdraw peer c b = b1) as -> by (unfold withdraw; by rewrite (Hh c) by (by left)).
    destruct (IH b1) as (H1 & H2 & H3 & H4 & H5).
    { intros c' Hc'. specialize (Hh c' ltac:(by right)). unfold holds in *. simpl.
      destruct (decide (c' = c)) as [->|]; [done|]. by rewrite lookup_delete_ne. }
    split_and!; [done..| |].
    + intros c'. rewrite H4. simpl. destruct (decide (c' = c)) as [->|].
      * rewrite (decide_False (P := c ∈ l)), decide_True, lookup_delete_eq by (done || by left). done.
      * rewrite lookup_delete_ne by done. destruct (decide (c' ∈ l)).
        -- by rewrite decide_True by by right.
        -- by rewrite decide_False by (intros [?|?]%elem_of_cons; done).
    + rewrite H5. simpl. by rewrite <-app_assoc.
Qed.

Lemma provided_by_spec peer s c :
  c ∈ provided_by peer s <-> holds s peer c = true.
Proof.
  unfold provided_by, holds. rewrite list_elem_of_fmap. split.
  - intros ([c' p] & -> & [Hp Hin]%list_elem_of_filter). apply elem_of_map_to_list in Hin. simpl in *.
    rewrite Hin. by apply bool_decide_eq_true.
  - destruct (providers s !! c) as [p|] eqn:Hc; [|done]. intros Hp%bool_decide_eq_true.
    exists (c, p). split; [done|]. apply list_elem_of_filter. split; [done|]. by apply elem_of_map_to_list.
Qed.

(** Removing a peer withdraws exactly its contribution: afterwards it is
    not known, provides nothing and owns no handle; every provision and handle
    of another peer, and every generation, is as it was; and one withdrawal is
    on the ledger for each contract it provided, in its fiber's name. *)
Theorem remove_peer_takes_its_contribution peer b :
  let b' := remove_peer peer b in
  peers (state b') = delete peer (peers (state b)) /\ generations (state b') = generations (state b) /\
  (forall c, providers (state b') !! c = if holds (state b) peer c then None else providers (state b) !! c) /\
  (forall h r, handles (state b') !! h = Some r <-> handles (state b) !! h = Some r /\ owner r <> peer) /\
  ledger b' = ledger b ++ map (fun c => (ServiceWithdrawn c, fiber_of (state b) peer)) (provided_by peer (state b)).
Proof.
  unfold remove_peer. destruct (withdraw_all peer (provided_by peer (state b)) b) as (H1 & H2 & H3 & H4 & H5).
  - unfold provided_by. apply NoDup_map_filter. apply NoDup_fst_map_to_list.
  - intros c. apply provided_by_spec.
  - cbn zeta. set (b1 := fold_left _ _ b) in *. simpl. split_and!; [by rewrite H1|done| |intros h r|done].
    + intros c. rewrite H4. destruct (holds (state b) peer c) eqn:Hh.
      * by rewrite decide_True by by apply provided_by_spec.
      * by rewrite decide_False by (rewrite provided_by_spec; congruence).
    + rewrite H3, map_lookup_filter_Some. done.
Qed.
End Dispatch.

(** ** Examples *)

Module BrokerExample.
Definition f (n : Z) : FiberId := MkFiberId n.
Definition names (a : FiberId) : option EntryId := Some (MkEntryId ("entry-" +:+ pretty (fiber_id a))).
Abbreviation Broker := (Broker (Callable := string) (Target := unit)).
Abbreviation World := (World (Callable := string) (Target := unit)).

(** Two peers that hold the grant of one contract. *)
Definition seats : Broker :=
  grant_root 2 "kv" (grant_root 1 "kv" (register_peer (Some (f 12)) (register_peer (Some (f 11)) new_broker).2).2).

(** Peer 2 provides, peer 1 resolves and calls. *)
Definition provided : Broker := (provide 2 "kv" "store" seats).2.
Definition consuming : Broker := (broker_resolve 1 "kv" provided).2.

Lemma grant_same_peers c (scope : GrantScope) :
  same_peers (Target := unit) (fun r => MkPeerRecord (peer_fiber r) (peer_entry r)
    (widen Grants.union c scope (peer_grants r)) (peer_ops r) (peer_target r)).
Proof.
  intros r. split; [done|]. intros c' Hc'. simpl. unfold widen.
  destruct (decide (c' = c)) as [->|]; [rewrite lookup_insert_eq; eauto|by rewrite lookup_insert_ne].
Qed.

Definition both : gset (PeerId * string) := {[(1%Z, "kv"%string)]} ∪ ({[(2%Z, "kv"%string)]} ∪ ∅).

(** Both checks pass, in either order with what follows. *)
Lemma seats_running : running names (MkWorld seats both).
Proof.
  assert (running names (MkWorld seats ∅)) as Hr.
  { eapply reachable_step; [eapply reachable_step; [eapply reachable_step; [eapply reachable_step|]|]|].
    - by apply reachable_init.
    - apply (registers _ _ (Some (f 11))).
    - apply (registers _ _ (Some (f 12))).
    - exact (edits _ _ 1%Z _ (grant_same_peers "kv" Root)).
    - exact (edits _ _ 2%Z _ (grant_same_peers "kv" Root)). }
  eapply reachable_step; [eapply reachable_step; [exact Hr|]|].
  - apply (checks _ (MkWorld seats ∅) 2%Z "kv"). by vm_compute.
  - apply (checks _ (MkWorld seats _) 1%Z "kv"). by vm_compute.
Qed.

(** What [provide] leaves after its second section. *)
Definition installed (b : Broker) : Broker :=
  with_state (fun s => match install 2 "kv" "store"%string s with Ok s => s | Err _ => s end) b.

Lemma a_handle_never_changes_provider_witness :
  exists (w w' : World) h, running names w /\ rtc (section names) w w' /\
    (call_or_refuse names 1 h "get" (broker w')).1 = Ok (Crosses "store"%string 1 "kv" "get" None) /\
    exists p, callable p = "store"%string /\ providers (state (broker w)) !! "kv"%string = Some p /\
      providers (state (broker w')) !! "kv"%string = Some p.
Proof.
  set (w := MkWorld (installed seats) both).
  set (minted := mint 1 "kv" (state (broker w))).
  set (w' := updated (with_state (fun _ => minted.2)) w).
  assert (running names w) as Hw.
  { eapply reachable_step; [apply seats_running|].
    apply (installs names (MkWorld seats both) 2%Z "kv" "store"%string (state (installed seats))); [|by vm_compute].
    by vm_compute. }
  assert ((1%Z, "kv"%string) ∈ passed w) as Hp by by vm_compute.
  exists w, w', (fst minted). split_and!; [done| |by vm_compute|].
  - apply rtc_once, (mints names w 1%Z "kv" Hp).
  - destruct (a_handle_never_changes_provider names w w' 1 "kv" (fst minted) (snd minted) 1 "kv" "get" 1
      (Some ("store"%string, 1%Z, Some (f 12))) (Some (f 11)) (broker w') "store"%string 1 "kv" "get" None
      (append (ContractCall "kv" "get") (Some (f 11)) (broker w'))) as (_ & _ & _ & p & Hpr);
      [done|done|by vm_compute|apply rtc_refl|by vm_compute|by vm_compute|].
    by exists p.
Defined.

Lemma every_crossing_is_on_the_record_witness :
  let b := (dispatch names 1 "kv" "get" provided).2 in
  exists kind, ledger b = ledger provided ++ [(kind, Some (f 11))].
Proof.
  destruct (dispatch names 1 "kv" "get" provided) as [answer b] eqn:Hd.
  destruct (every_crossing_is_on_the_record names 1 "kv" "get" provided answer b Hd) as (_ & _ & kind & Hl & _).
  exists kind. exact Hl.
Defined.

(** The check of the grant and the provision are two critical sections: a
    provider removed between them keeps the slot, is unknown, and leaves it to
    nobody, since only the holder of a slot withdraws it. *)
Example a_removed_peer_can_keep_a_slot :
  exists w : World, running names w /\
    (exists p, providers (state (broker w)) !! "kv"%string = Some p /\
       peers (state (broker w)) !! provider_peer p = None) /\
    (provide 1 "kv" "other"%string (broker w)).1 =
      Err (refusal DuplicateProvision "kv already has a live provider").
Proof.
  set (w := updated (with_state (forget_peer 2)) (MkWorld seats both)).
  exists (updated installed w). split_and!; [|eexists; split; by vm_compute|by vm_compute].
  eapply reachable_step; [eapply reachable_step; [apply seats_running|apply (forgets _ _ 2%Z)]|].
  apply (installs names w 2%Z "kv" "store"%string (state (installed (broker w)))); by vm_compute.
Qed.
End BrokerExample.
