(* ===== verification/Seat.v ===== *)
(** * A seat's admission and its readiness gate ([jinnd-wasm/src/lane.rs],
    [lane/injects.rs], [alarms.rs])

    What an activation does before it instantiates the guest: it registers the
    peer, turns the admitted grants into authority at the broker and judges the
    declaration; and the gate that tells the fiber when it may activate at
    all. The lane and the broker append to one sink. *)

From stdpp Require Import base gmap sets list strings pretty.
From S2P Require Import Prelude Api Entries Paths Grants Waits Broker.

(** ** The clock's resolution floor ([alarms.rs]) *)

Definition DEFAULT_MIN_PERIOD_MS : N := 250.

Definition clock_floor (grants : list Grant) : N :=
  match list_find (fun g => contract g = CLOCK_CONTRACT) grants with
  | Some (_, g) =>
      match scope g with Some (Rate floor) => N.max floor 1 | _ => DEFAULT_MIN_PERIOD_MS end
  | None => DEFAULT_MIN_PERIOD_MS
  end.

(** ** The gate ([lane/injects.rs]) *)

Record Declaration := MkDeclaration { contracts : list string; decl_faults : list string }.

Record Gate := MkGate { declared_by : Declaration; gated : list string; unmet : list string; gate_moved : Z }.

Definition granted_by (admitted : list Grant) (c : string) : Prop := Exists (fun g => contract g = c) admitted.

#[export] Instance granted_by_dec admitted c : Decision (granted_by admitted c).
Proof. unfold granted_by. apply _. Defined.

Definition covered (d : Declaration) (grants : list Grant) : list string :=
  filter (granted_by (admission grants).1) (contracts d).

Definition new_gate (d : Declaration) (grants : list Grant) : Gate := MkGate d (covered d grants) [] 0.

Definition restate_gate (d : Declaration) (grants : list Grant) (g : Gate) : Gate :=
  MkGate d (covered d grants) (unmet g) (gate_moved g + 1).

Definition gate_admission (admitted : list Grant) (g : Gate) : list KernelError :=
  map (fun fault => refusal EffectFailed ("injects entry refused: " +:+ fault)) (decl_faults (declared_by g)) ++
  map (fun c => refusal EffectFailed ("injects entry refused: " +:+ c +:+ " is declared but not granted"))
    (filter (fun c => ~ granted_by admitted c) (contracts (declared_by g))).

Section Seats.
Context {Callable Target : Type} (entry : FiberId -> option EntryId).
Abbreviation Broker := (Broker (Callable := Callable) (Target := Target)).

(** The identity of [StringLane] among service types. *)
Context (string_lane : TypeId).

Definition lane_service : ServiceType := MkServiceType string_lane "jinn:services".

Definition KERNEL_PROVIDER : FiberId := MkFiberId 0.

Section Compute.
Context (b : Broker) (state_of : FiberId -> option FiberState).

(** The guard of the match in the loop. *)
Definition provider_ready (provider : option FiberId) : bool :=
  match provider with Some fiber => bool_decide (state_of fiber = Some Active) | None => true end.

(** The loop: the snapshots taken and the contracts found unmet. *)
Fixpoint compute_loop (gated : list string) (dependencies : list DependencySnapshot) (unmet : list string) :
    list DependencySnapshot * list string :=
  match gated with
  | [] => (dependencies, unmet)
  | c :: gated =>
      match provider_of c b with
      | Some (provider, generation) =>
          if provider_ready provider then
            compute_loop gated (dependencies ++
              [MkDependencySnapshot lane_service (default KERNEL_PROVIDER provider) (MkGeneration generation) RealmRoot])
              unmet
          else compute_loop gated dependencies (unmet ++ [c])
      | None => compute_loop gated dependencies (unmet ++ [c])
      end
  end.

Definition compute (g : Gate) (loader : option Epoch) : option Epoch * Gate :=
  let '(deps, missing) := compute_loop (gated g) [] [] in
  (epoch ← loader; if decide (missing = []) then Some (MkEpoch (dependencies epoch ++ deps)) else None,
   MkGate (declared_by g) (gated g) missing (gate_moved g)).
End Compute.

(** One turn of the watcher after an edge: what it publishes, if anything
    ([Some None] withdraws readiness), and what it publishes next against. *)
Definition watcher_turn (last next : option Epoch) : option (option Epoch) * option Epoch :=
  if decide (next = last) then (None, last) else (Some next, next).

(** ** Admission of a seat ([WasmBody::activate]) *)

Definition admit_grant (peer : PeerId) (b : Broker) (g : Grant) : Broker :=
  attenuate peer g (grant_with peer (contract g) (authority g) b).

Definition admit_grants (peer : PeerId) (admitted : list Grant) (b : Broker) : Broker :=
  fold_left (admit_grant peer) admitted b.

Definition record_errors (errors : list KernelError) (fiber : FiberId) (b : Broker) : Broker :=
  fold_left (fun b error => append (ErrorRecorded error) (Some fiber) b) errors b.

Record SeatSpec := MkSeatSpec { grants : list Grant; faults : list string }.

(** Up to the instantiation: the peer with its admitted grants, or the first
    refusal of the declaration. *)
Definition admit_seat (seat : SeatSpec) (g : Gate) (name : EntryId) (fiber : FiberId) (b : Broker) :
    result (PeerId * list Grant) KernelError * Broker :=
  let '(peer, b) := register_peer (Some fiber) b in
  let b := attribute_entry peer (entry_id name) b in
  let b := record_errors (map (fun fault => refusal EffectFailed ("grant entry refused: " +:+ fault)) (faults seat))
             fiber b in
  let '(admitted, refusals) := admission (grants seat) in
  let b := record_errors refusals fiber b in
  let b := admit_grants peer admitted b in
  match gate_admission admitted g with
  | first :: rest => (Err first, remove_peer peer (record_errors (first :: rest) fiber b))
  | [] => (Ok (peer, admitted), b)
  end.

(** ** What a seat holds *)

Definition class_of (g : Grant) : OpsClass :=
  match attenuation g with Some ops => Only ops | None => All end.

Definition widen_all {A} (join : A -> A -> A) (val : Grant -> A) (gs : list Grant) (m : gmap string A) : gmap string A :=
  fold_left (fun m g => widen join (contract g) (val g) m) gs m.

Lemma admit_grants_record peer gs b r :
  peers (state b) !! peer = Some r ->
  peers (state (admit_grants peer gs b)) !! peer =
    Some (MkPeerRecord (peer_fiber r) (peer_entry r) (widen_all Grants.union authority gs (peer_grants r))
      (widen_all union_class class_of gs (peer_ops r)) (peer_target r)).
Proof.
  revert b r. induction gs as [|g gs IH]; intros b r Hr; simpl; [by destruct r|].
  assert (peers (state (admit_grant peer b g)) !! peer =
    Some (MkPeerRecord (peer_fiber r) (peer_entry r) (widen Grants.union (contract g) (authority g) (peer_grants r))
      (widen union_class (contract g) (class_of g) (peer_ops r)) (peer_target r))) as H1.
  { unfold admit_grant, attenuate, class_of, grant_ops, lift_ops, grant_with, widen_ops, on_peer.
    destruct (attenuation g); simpl; by rewrite !lookup_alter_eq, Hr. }
  by rewrite (IH _ _ H1).
Qed.

(** The value a key ends with represents the grants of that key. *)
Lemma widen_all_rep {A} (join : A -> A -> A) (val : Grant -> A) (rep : list Grant -> A -> Prop) gs c :
  (forall g, g ∈ gs -> contract g = c -> rep [g] (val g)) ->
  (forall l g a, (forall g', g' ∈ l ++ [g] -> g' ∈ gs /\ contract g' = c) -> rep l a ->
    rep (l ++ [g]) (join a (val g))) ->
  match widen_all join val gs ∅ !! c with
  | Some a => rep (filter (fun g => contract g = c) gs) a /\ filter (fun g => contract g = c) gs <> []
  | None => filter (fun g => contract g = c) gs = []
  end.
Proof.
  induction gs as [|g gs IH] using rev_ind; intros H1 Hj; [done|].
  unfold widen_all in *. rewrite fold_left_app. simpl.
  ospecialize (IH _ _).
  { intros g' Hg'. apply H1, elem_of_app. by left. }
  { intros l g' a Hl. apply Hj. intros g'' Hg''. destruct (Hl g'' Hg''). rewrite elem_of_app. auto. }
  rewrite filter_app. unfold widen at 1. destruct (decide (contract g = c)) as [Hc|Hc].
  - rewrite Hc, lookup_insert_eq, filter_cons_True by done. rewrite filter_nil.
    split; [|intros H; by apply app_eq_nil in H as [_ H]].
    destruct (fold_left _ gs ∅ !! c) as [held|].
    + destruct IH as [IH _]. apply Hj; [|done]. intros g' Hg'. apply elem_of_app in Hg' as [Hg'|Hg'].
      * apply list_elem_of_filter in Hg' as [? ?]. rewrite elem_of_app. auto.
      * apply list_elem_of_singleton in Hg' as ->. rewrite elem_of_app, list_elem_of_singleton. auto.
    + rewrite IH. apply H1; [|done]. apply elem_of_app. right. by left.
  - rewrite lookup_insert_ne, filter_cons_False, filter_nil, app_nil_r by done. exact IH.
Qed.

(** What the grants of one contract add up to. *)
Definition scopes_of (l : list Grant) (s : GrantScope) : Prop :=
  (exists g, g ∈ l /\ kind s = kind (authority g)) /\ scope_ok s /\
  forall x, confers s x <-> exists g, g ∈ l /\ confers (authority g) x.

Definition classes_of (l : list Grant) (class : OpsClass) : Prop :=
  forall operation, admits_op class operation = true <-> exists g, g ∈ l /\ admits_op (class_of g) operation = true.

Lemma scopes_of_one g : grant_admit g = Ok () -> scopes_of [g] (authority g).
Proof.
  intros Hg. split; [exists g; split; [by left|done]|]. split; [by apply authority_ok|].
  intros x. split; [intros H; exists g; split; [by left|done]|]. by intros (g' & ->%list_elem_of_singleton & H).
Qed.

Lemma scopes_of_more l g s c :
  (forall g', g' ∈ l ++ [g] -> contract g' = c) -> grant_admit g = Ok () ->
  scopes_of l s -> scopes_of (l ++ [g]) (Grants.union s (authority g)).
Proof.
  intros Hc Hg ((g0 & Hg0 & Hk) & Hs & Hx).
  assert (kind s = kind (authority g)) as Hkind.
  { rewrite Hk. apply authority_kind. rewrite !Hc; [done|..]; apply elem_of_app; [right; by left|by left]. }
  destruct (union_spec s (authority g) Hkind Hs (authority_ok g Hg)) as (Hku & Hsu & Hxu).
  split; [exists g0; split; [apply elem_of_app; by left|congruence]|]. split; [done|].
  intros x. rewrite Hxu, Hx. setoid_rewrite elem_of_app. setoid_rewrite list_elem_of_singleton. naive_solver.
Qed.

Lemma union_class_spec a b operation :
  admits_op (union_class a b) operation = true <-> admits_op a operation = true \/ admits_op b operation = true.
Proof.
  destruct a as [|a], b as [|b]; simpl; [tauto..|].
  rewrite !bool_decide_eq_true. apply elem_of_extend_unique.
Qed.

Lemma classes_of_more l g class :
  classes_of l class -> classes_of (l ++ [g]) (union_class class (class_of g)).
Proof.
  unfold classes_of. intros Hl operation. rewrite union_class_spec, (Hl operation). setoid_rewrite elem_of_app.
  setoid_rewrite list_elem_of_singleton. naive_solver.
Qed.

(** C32: A seat that starts with nothing holds, field by field and whatever the
    order of its admitted grants, the union of what they give: a
    contract is granted when one of them names it, its authority confers what
    one of the contract's grants confers and nothing else, and an operation of
    it is allowed when one of them covers it. The fields are united apart, so
    the operations of one grant apply under the authority of another
    ([grants_confer_their_product]); the floor of a clock grant is not among
    them, it follows the order ([the_clock_floor_follows_the_order]). *)
Theorem a_seat_holds_the_sum_of_its_grants peer gs b r :
  peers (state b) !! peer = Some r -> peer_grants r = ∅ -> peer_ops r = ∅ ->
  (forall g, g ∈ gs -> grant_admit g = Ok ()) ->
  let b' := admit_grants peer gs b in
  forall c,
    (granted (state b') peer c = true <-> exists g, g ∈ gs /\ contract g = c) /\
    (forall x, (exists s, policy peer c b' = Some s /\ confers s x) <->
      exists g, g ∈ gs /\ contract g = c /\ confers (authority g) x) /\
    (granted (state b') peer c = true -> forall operation, op_allowed (state b') peer c operation = true <->
      exists g, g ∈ gs /\ contract g = c /\ admits_op (class_of g) operation = true).
Proof.
  intros Hr Hg Ho Hadm b' c. pose proof (admit_grants_record peer gs b r Hr) as Hrec. rewrite Hg, Ho in Hrec.
  unfold granted, policy, op_allowed. fold b' in Hrec. rewrite Hrec. simpl.
  assert (forall g, g ∈ filter (fun g => contract g = c) gs <-> g ∈ gs /\ contract g = c) as Hf
    by (intros g; rewrite list_elem_of_filter; tauto).
  pose proof (widen_all_rep Grants.union authority scopes_of gs c) as Hscopes.
  ospecialize (Hscopes _ _).
  { intros g Hin _. by apply scopes_of_one, Hadm. }
  { intros l g s Hl. apply scopes_of_more with c; [intros g' Hg'; by apply Hl|].
    apply Hadm, Hl, elem_of_app. right. by left. }
  pose proof (widen_all_rep union_class class_of classes_of gs c) as Hclasses.
  ospecialize (Hclasses _ _).
  { intros g _ _ operation. split; [intros H; exists g; split; [by left|done]|].
    by intros (g' & ->%list_elem_of_singleton & H). }
  { intros l g class _. apply classes_of_more. }
  destruct (widen_all Grants.union authority gs ∅ !! c) as [s|].
  - destruct Hscopes as [(_ & _ & Hx) Hne]. split_and!.
    + rewrite bool_decide_eq_true. split; [|by eauto]. intros _.
      destruct (filter _ gs) as [|g l]; [done|]. exists g. apply Hf. by left.
    + intros x. split.
      * intros (s' & [= <-] & (g & Hin & H)%Hx). apply Hf in Hin as [? ?]. by exists g.
      * intros (g & ? & ? & H). exists s. split; [done|]. apply Hx. exists g. by rewrite Hf.
    + intros _ operation. destruct (widen_all union_class class_of gs ∅ !! c) as [class|]; [|congruence].
      destruct Hclasses as [Hcl _]. rewrite (Hcl operation). setoid_rewrite Hf. naive_solver.
  - assert (forall g, ~ (g ∈ gs /\ contract g = c)) as Hno.
    { intros g Hin. apply Hf in Hin. rewrite Hscopes in Hin. by apply elem_of_nil in Hin. }
    split_and!.
    + split; [by intros [? H]%bool_decide_eq_true|]. intros (g & H). by apply Hno in H.
    + intros x. split; [by intros (? & ? & _)|]. intros (g & H1 & H2 & _). exfalso. by apply (Hno g).
    + by intros [? H]%bool_decide_eq_true.
Qed.

(** ** The gate *)

Definition met (b : Broker) (state_of : FiberId -> option FiberState) (c : string) : bool :=
  match provider_of c b with Some (provider, _) => provider_ready state_of provider | None => false end.

Definition snapshot_of (b : Broker) (c : string) : list DependencySnapshot :=
  match provider_of c b with
  | Some (provider, generation) =>
      [MkDependencySnapshot lane_service (default KERNEL_PROVIDER provider) (MkGeneration generation) RealmRoot]
  | None => []
  end.

Lemma compute_loop_spec b state_of cs deps missing :
  compute_loop b state_of cs deps missing =
  (deps ++ concat (map (snapshot_of b) (filter (fun c => met b state_of c = true) cs)),
   missing ++ filter (fun c => met b state_of c = false) cs).
Proof.
  revert deps missing. induction cs as [|c cs IH]; intros deps missing; simpl; [by rewrite !app_nil_r|].
  assert (snapshot_of b c = snapshot_of b c) as Hs by done. unfold snapshot_of at 2 in Hs.
  destruct (met b state_of c) eqn:Hm; [rewrite filter_cons_True, filter_cons_False by congruence|
    rewrite filter_cons_False, filter_cons_True by congruence]; unfold met in Hm;
    destruct (provider_of c b) as [[provider generation]|]; try done; rewrite ?Hm, IH; simpl; rewrite ?Hs.
  - by rewrite <-app_assoc.
  - by rewrite <-app_assoc.
  - by rewrite <-app_assoc.
Qed.

(** The gate opens exactly when everything it waits for is there: an epoch
    is answered if and only if the loader's signal has one and every declared
    contract that an admitted grant covers has a provider whose fiber is
    active, or that the kernel supplies. The epoch is the loader's, followed by
    one snapshot for each of these contracts in declaration order; otherwise
    the gate is left naming exactly the contracts that are unmet. *)
Theorem the_gate_opens_when_all_is_met b state_of d gs loader :
  let g := new_gate d gs in
  let '(epoch, g') := compute b state_of g loader in
  (is_Some epoch <-> is_Some loader /\
    forall c, c ∈ contracts d -> (exists grant, grant ∈ gs /\ grant_admit grant = Ok () /\ contract grant = c) ->
      met b state_of c = true) /\
  (forall e, epoch = Some e -> exists l, loader = Some l /\
    dependencies e = dependencies l ++ concat (map (snapshot_of b) (gated g))) /\
  unmet g' = filter (fun c => met b state_of c = false) (gated g) /\ gated g' = gated g.
Proof.
  unfold compute. rewrite compute_loop_spec. simpl.
  assert (filter (fun c => met b state_of c = false) (covered d gs) = [] <->
    forall c, c ∈ contracts d -> (exists grant, grant ∈ gs /\ grant_admit grant = Ok () /\ contract grant = c) ->
      met b state_of c = true) as Hall.
  { assert (forall c, c ∈ covered d gs <->
      c ∈ contracts d /\ exists grant, grant ∈ gs /\ grant_admit grant = Ok () /\ contract grant = c) as Hcov.
    { intros c. unfold covered, granted_by. rewrite list_elem_of_filter, Exists_exists.
      setoid_rewrite admission_spec. naive_solver. }
    split.
    - intros Hn c Hc Hg. apply not_false_iff_true. intros Hf.
      by apply (filter_nil_not_elem_of _ _ _ Hn Hf), Hcov.
    - intros H. apply filter_none. intros c [Hc Hg]%Hcov Hf. rewrite (H c Hc Hg) in Hf. done. }
  split_and!; [| |done|done].
  - rewrite <-Hall. destruct loader as [l|]; simpl; [|split; [by intros []|by intros [[] _]]].
    case_decide as Hm; split.
    + intros _. split; [by eexists|done].
    + intros _. by eexists.
    + by intros [].
    + by intros [_ ?].
  - intros e. destruct loader as [l|]; simpl; [|done]. case_decide as Hm; [|done]. intros [= <-].
    exists l. split; [done|]. simpl. rewrite filter_all; [done|]. apply Forall_forall.
    intros c Hc. apply not_false_iff_true. intros Hf.
    assert (c ∈ filter (fun c => met b state_of c = false) (covered d gs)) as Hin by by apply list_elem_of_filter.
    rewrite Hm in Hin. by apply elem_of_nil in Hin.
Qed.
End Seats.

(** ** Examples *)

Module SeatExample.
Definition f (n : Z) : FiberId := MkFiberId n.
Abbreviation Broker := (Broker (Callable := string) (Target := unit)).

(** Two grants of [jinn:fs]: to read under one path, to write under another. *)
Definition read_a : Grant := MkGrant FS_CONTRACT (Some (PathScope "/a")) (Some (ScopeList [PathScope "read"])).
Definition write_b : Grant := MkGrant FS_CONTRACT (Some (PathScope "/b")) (Some (ScopeList [PathScope "write"])).

Definition seated : Broker := (register_peer (Some (f 1)) new_broker).2.
Definition holding : Broker := admit_grants 1 [read_a; write_b] seated.

Lemma a_seat_holds_the_sum_of_its_grants_witness :
  granted (state holding) 1 FS_CONTRACT = true /\
  exists s, policy 1 FS_CONTRACT holding = Some s /\ confers s (Subtree "/b").
Proof.
  assert (forall g, g ∈ [read_a; write_b] -> grant_admit g = Ok ()) as Hadm.
  { intros g [->|[->|H%elem_of_nil]%elem_of_cons]%elem_of_cons; [by vm_compute|by vm_compute|done]. }
  destruct (a_seat_holds_the_sum_of_its_grants 1 [read_a; write_b] seated (MkPeerRecord (Some (f 1)) None ∅ ∅ None)
    eq_refl eq_refl eq_refl Hadm FS_CONTRACT) as (_ & Hx & _).
  split; [by vm_compute|]. apply Hx. exists write_b. split; [right; by left|]. split; [done|]. by left.
Defined.

(** The scopes and the operation classes of one contract's grants are added
    up separately: a seat granted to read under one path and to write under
    another may write under the first, which none of its grants confers. *)
Theorem grants_confer_their_product :
  (forall g, g ∈ [read_a; write_b] -> grant_admit g = Ok ()) /\
  check_op 1 FS_CONTRACT "write" holding = (Ok (), holding) /\
  scopes 1 FS_CONTRACT holding = Some ["/a"; "/b"]%string /\
  ~ exists g, g ∈ [read_a; write_b] /\ confers (authority g) (Subtree "/a") /\
      admits_op (class_of g) "write" = true.
Proof.
  split_and!.
  - intros g [->|[->|H%elem_of_nil]%elem_of_cons]%elem_of_cons; [by vm_compute|by vm_compute|done].
  - by vm_compute.
  - by vm_compute.
  - intros (g & [->|[->|H%elem_of_nil]%elem_of_cons]%elem_of_cons & Ha & Hw); [by vm_compute in Hw| |done].
    apply list_elem_of_singleton in Ha. discriminate.
Qed.

(** The floor of the clock is the one of the first clock grant: it follows the
    order the grants are written in. *)
Example the_clock_floor_follows_the_order :
  let fine := MkGrant CLOCK_CONTRACT (Some (Rate 10)) None in
  let coarse := MkGrant CLOCK_CONTRACT (Some (Rate 1000)) None in
  clock_floor [fine; coarse] = 10%N /\ clock_floor [coarse; fine] = 1000%N.
Proof. by split. Qed.

(** A provider of two contracts, and an edit that declares the one instead of
    the other: a snapshot names the provider and the generation but not the
    contract, so the epoch does not move. *)
Definition bare (c : string) : Grant := MkGrant c None None.
Definition serving : Broker :=
  let b := grant_root 1 "log" (grant_root 1 "kv" seated) in
  (provide 1 "log" "p"%string (provide 1 "kv" "p"%string b).2).2.
Definition active (_ : FiberId) : option FiberState := Some Active.

Example an_edited_declaration_can_keep_the_epoch :
  let gs := [bare "kv"; bare "log"] in
  let g := new_gate (MkDeclaration ["kv"%string] []) gs in
  let e := (compute 7 serving active g (Some (MkEpoch []))).1 in
  let e' := (compute 7 serving active (restate_gate (MkDeclaration ["log"%string] []) gs g) (Some (MkEpoch []))).1 in
  is_Some e /\ watcher_turn e e' = (None, e).
Proof. split; [by eexists|by vm_compute]. Qed.
End SeatExample.
