(* ===== verification/Disk.v ===== *)
(** * Files and what a crash leaves of them

    The file operations of the host providers, as programs over a disk with a
    cache: what reads see, what is known to be on stable storage, and what was
    never synced. An operation takes effect, fails, or is torn half way, and the
    process can die between any two of them; a weakest precondition with a crash
    condition reasons about all of this at once. [commit_atomic] is
    [jinnd-wasm/src/hostfs/retention.rs]'s stage-sync-rename. *)

From stdpp Require Import base gmap sets list strings relations.
From S2P Require Import Prelude Api Entries Paths.

Abbreviation Bytes := (list Z).

#[export] Instance Component_countable : Countable Component.
Proof.
  apply (inj_countable'
    (fun c => match c with RootDir => inl 0 | CurDir => inl 1 | ParentDir => inl 2 | Normal name => inr name end)
    (fun c => match c with inl 0 => RootDir | inl 1 => CurDir | inl _ => ParentDir | inr name => Normal name end)).
  by intros [].
Defined.

#[export] Instance IoError_eq_dec : EqDecision IoError.
Proof. solve_decision. Defined.

(** ** Paths beside a path *)

Definition parent (p : Path) : option Path :=
  match reverse p with
  | Normal _ :: up => Some (reverse up)
  | _ => None
  end.

Definition file_name (p : Path) : string :=
  match reverse p with Normal name :: _ => name | _ => "" end.

Definition with_file_name (p : Path) (name : string) : Path := default p (parent p) ++ [Normal name].

Definition STAGE_SUFFIX : string := ".jinnd-stage".

Definition staged_beside (target : Path) : Path := with_file_name target (file_name target +:+ STAGE_SUFFIX).

(** ** The disk *)

(** Regular files by path: the contents reads see, those known to be on stable
    storage, and the paths whose cached content was not synced since it was
    last touched. *)
Record Disk := MkDisk {
  cache : gmap Path Bytes;
  stable : gmap Path Bytes;
  dirty : gset Path;
}.

(** What a crash leaves: a path whose content is unsynced may hold anything;
    any other the stable content, or the cached one if it got there. *)
Definition crash (d : Disk) (left_over : gmap Path Bytes) : Prop :=
  forall p, p ∈ dirty d \/ left_over !! p = stable d !! p \/ left_over !! p = cache d !! p.

(** The disk of the next process. *)
Definition rebooted (left_over : gmap Path Bytes) : Disk := MkDisk left_over left_over ∅.

Inductive FsOp :=
  | ReadFile (p : Path)
  | FileLen (p : Path)
  | CreateFile (p : Path)
  | WriteAll (p : Path) (bytes : Bytes)
  | SyncFile (p : Path)
  | RenameFile (a b : Path)
  | SyncDir (p : Path)
  | CreateDirs (p : Path)
  | RemoveFile (p : Path)
  | SetLen (p : Path) (length : Z)
  | OverwriteFile (p : Path) (bytes : Bytes).

Inductive Reply := Done | Content (bytes : Bytes) | Length (n : Z).

Definition put (p : Path) (bytes : Bytes) (d : Disk) : Disk :=
  MkDisk (<[p := bytes]> (cache d)) (stable d) ({[p]} ∪ dirty d).

Definition flushed (dir : Path) (d : Disk) (p : Path) : Prop := parent p = Some dir /\ p ∉ dirty d.

#[export] Instance flushed_dec dir d p : Decision (flushed dir d p).
Proof. unfold flushed. apply _. Defined.

Definition sync_dir (dir : Path) (d : Disk) : Disk :=
  MkDisk (cache d)
    (filter (fun f : Path * Bytes => ~ flushed dir d f.1) (stable d) ∪
     filter (fun f : Path * Bytes => flushed dir d f.1) (cache d))
    (dirty d).

Definition set_len (n : Z) (bytes : Bytes) : Bytes :=
  take (Z.to_nat n) bytes ++ replicate (Z.to_nat n - length bytes) 0%Z.

(** What an operation does when the system carries it out. *)
Definition perform (op : FsOp) (d : Disk) : result Reply IoError * Disk :=
  match op with
  | ReadFile p =>
      (match cache d !! p with Some bytes => Ok (Content bytes) | None => Err IoNotFound end, d)
  | FileLen p =>
      (match cache d !! p with Some bytes => Ok (Length (Z.of_nat (length bytes))) | None => Err IoNotFound end, d)
  | CreateFile p => (Ok Done, put p [] d)
  | WriteAll p bytes =>
      match cache d !! p with
      | Some held => (Ok Done, put p (held ++ bytes) d)
      | None => (Err IoNotFound, d)
      end
  | SyncFile p => (Ok Done, MkDisk (cache d) (stable d) (dirty d ∖ {[p]}))
  | RenameFile a b =>
      match cache d !! a with
      | Some bytes =>
          (Ok Done, MkDisk (<[b := bytes]> (delete a (cache d))) (stable d)
             (if decide (a ∈ dirty d) then {[b]} ∪ dirty d ∖ {[a]} else dirty d ∖ {[b]}))
      | None => (Err IoNotFound, d)
      end
  | SyncDir dir => (Ok Done, sync_dir dir d)
  | CreateDirs _ => (Ok Done, d)
  | RemoveFile p =>
      match cache d !! p with
      | Some _ => (Ok Done, MkDisk (delete p (cache d)) (stable d) (dirty d ∖ {[p]}))
      | None => (Err IoNotFound, d)
      end
  | SetLen p n =>
      match cache d !! p with
      | Some held => (Ok Done, put p (set_len n held) d)
      | None => (Err IoNotFound, d)
      end
  | OverwriteFile p bytes => (Ok Done, put p bytes d)
  end.

Section Runs.
(** Which operations the system may fail. *)
Context (may_fail : FsOp -> Prop).

(** An operation is carried out, fails without effect, or fails with a part of
    its bytes written. *)
Inductive op_step (d : Disk) (op : FsOp) : result Reply IoError -> Disk -> Prop :=
  | performs : op_step d op (perform op d).1 (perform op d).2
  | fails text : may_fail op -> op_step d op (Err (IoOther text)) d
  | tears_append p bytes part held text : may_fail op -> op = WriteAll p bytes -> part `prefix_of` bytes ->
      cache d !! p = Some held -> op_step d op (Err (IoOther text)) (put p (held ++ part) d)
  | tears_write p bytes part text : may_fail op -> op = OverwriteFile p bytes -> part `prefix_of` bytes ->
      op_step d op (Err (IoOther text)) (put p part d).

(** ** Programs *)

Inductive Io (A : Type) : Type :=
  | Ret (value : A)
  | Do (op : FsOp) (next : result Reply IoError -> Io A).
Arguments Ret {A}.
Arguments Do {A}.

Fixpoint io_bind {A B} (m : Io A) (k : A -> Io B) : Io B :=
  match m with
  | Ret x => k x
  | Do op next => Do op (fun r => io_bind (next r) k)
  end.

Inductive io_step {A} : Io A * Disk -> Io A * Disk -> Prop :=
  | steps op next d r d' : op_step d op r d' -> io_step (Do op next, d) (next r, d').

(** The weakest precondition: [safe] holds of the disk at every point, and
    [post] at the end. *)
Fixpoint wp {A} (safe : Disk -> Prop) (post : A -> Disk -> Prop) (m : Io A) (d : Disk) : Prop :=
  safe d /\
  match m with
  | Ret x => post x d
  | Do op next => forall r d', op_step d op r d' -> wp safe post (next r) d'
  end.

Lemma wp_safe {A} safe post (m : Io A) d : wp safe post m d -> safe d.
Proof. by destruct m; intros []. Qed.

Lemma wp_ret {A} (safe : Disk -> Prop) (post : A -> Disk -> Prop) x d : safe d -> post x d -> wp safe post (Ret x) d.
Proof. by split. Qed.

Lemma wp_mono {A} (safe safe' : Disk -> Prop) (post post' : A -> Disk -> Prop) m d :
  (forall d, safe d -> safe' d) -> (forall x d, post x d -> post' x d) ->
  wp safe post m d -> wp safe' post' m d.
Proof.
  intros Hs Hp. revert d. induction m as [x|op next IH]; intros d [Hd Hm]; split; eauto.
Qed.

Lemma wp_bind {A B} safe (post : B -> Disk -> Prop) (m : Io A) (k : A -> Io B) d :
  wp safe (fun x d => wp safe post (k x) d) m d -> wp safe post (io_bind m k) d.
Proof.
  revert d. induction m as [x|op next IH]; intros d [Hd Hm]; [done|]. split; [done|].
  intros r d' Hstep. by apply IH, Hm.
Qed.

(** Every disk a run passes through is safe, whatever fails on the way. *)
Lemma wp_sound {A} safe (post : A -> Disk -> Prop) m d m' d' :
  wp safe post m d -> rtc io_step (m, d) (m', d') ->
  safe d' /\ forall x, m' = Ret x -> post x d'.
Proof.
  intros Hwp Hr. remember (m, d) as c eqn:Hc. remember (m', d') as c' eqn:Hc'.
  revert m d m' d' Hc Hc' Hwp. induction Hr as [c|c1 c2 c3 H12 _ IH]; intros m d m' d' -> Heq Hwp.
  - injection Heq as -> ->. split; [by eapply wp_safe|]. intros x ->. apply Hwp.
  - inversion H12 as [op next d1 r d2 Hop]; subst. eapply IH; [done|done|]. by apply Hwp.
Qed.

(** ** The commit of one file *)

(** [?] on the answer of an operation. *)
Definition attempt (op : FsOp) (next : Reply -> Io (result () IoError)) : Io (result () IoError) :=
  Do op (fun r => match r with Ok reply => next reply | Err error => Ret (Err error) end).

Definition commit_stages (target : Path) (bytes : Bytes) : Io (result () IoError) :=
  let staged := staged_beside target in
  attempt (CreateFile staged) (fun _ =>
  attempt (WriteAll staged bytes) (fun _ =>
  attempt (SyncFile staged) (fun _ =>
  attempt (RenameFile staged target) (fun _ =>
  match parent target with
  | Some dir => attempt (SyncDir dir) (fun _ => Ret (Ok ()))
  | None => Ret (Ok ())
  end)))).

Definition commit_atomic (target : Path) (bytes : Bytes) : Io (result () IoError) :=
  io_bind (commit_stages target bytes) (fun outcome =>
    match outcome with
    | Ok _ => Ret (Ok ())
    | Err error => Do (RemoveFile (staged_beside target)) (fun _ => Ret (Err error))
    end).

(** ** What operations leave alone *)

Definition touches (op : FsOp) : list Path :=
  match op with
  | CreateFile p | WriteAll p _ | RemoveFile p | SetLen p _ | OverwriteFile p _ => [p]
  | RenameFile a b => [a; b]
  | _ => []
  end.

(** [p] holds [v] whatever happens. *)
Definition settled (d : Disk) (p : Path) (v : option Bytes) : Prop :=
  p ∉ dirty d /\ cache d !! p = v /\ stable d !! p = v.

(** [p] holds [v] or [w], now and after a crash. *)
Definition between (d : Disk) (p : Path) (v w : option Bytes) : Prop :=
  p ∉ dirty d /\ (cache d !! p = v \/ cache d !! p = w) /\ (stable d !! p = v \/ stable d !! p = w).

Lemma settled_between d p v w : settled d p v -> between d p v w.
Proof. intros (? & ? & ?). split_and!; auto. Qed.

Lemma settled_between_r d p v w : settled d p w -> between d p v w.
Proof. intros (? & ? & ?). split_and!; auto. Qed.

Lemma settled_crash d p v c : settled d p v -> crash d c -> c !! p = v.
Proof. intros (Hd & Hc & Hs) Hcr. destruct (Hcr p) as [?|[H|H]]; [done|congruence..]. Qed.

Lemma between_crash d p v w c : between d p v w -> crash d c -> c !! p = v \/ c !! p = w.
Proof. intros (Hd & Hc & Hs) Hcr. destruct (Hcr p) as [?|[->| ->]]; [done|done..]. Qed.

Lemma sync_dir_stable dir d p :
  stable (sync_dir dir d) !! p = if decide (flushed dir d p) then cache d !! p else stable d !! p.
Proof.
  unfold sync_dir. simpl. rewrite lookup_union. case_decide as Hf.
  - rewrite map_lookup_filter_None_2 by (right; simpl; tauto). rewrite (left_id_L None _).
    destruct (cache d !! p) as [bytes|] eqn:Hc.
    + by apply map_lookup_filter_Some_2.
    + apply map_lookup_filter_None_2. by left.
  - rewrite (map_lookup_filter_None_2 _ (cache d)) by (right; intros; simpl; tauto).
    rewrite (right_id_L None _). destruct (stable d !! p) as [bytes|] eqn:Hc.
    + by apply map_lookup_filter_Some_2.
    + apply map_lookup_filter_None_2. by left.
Qed.

(** A path an operation does not touch keeps its content; its stable content
    may catch up. *)
Definition kept (d d' : Disk) (p : Path) : Prop :=
  p ∉ dirty d -> p ∉ dirty d' /\ cache d' !! p = cache d !! p /\
  (stable d' !! p = stable d !! p \/ stable d' !! p = cache d !! p).

Lemma put_kept d q bytes p : p <> q -> kept d (put q bytes d) p.
Proof.
  intros Hne Hd. unfold put. simpl. rewrite lookup_insert_ne by done. split_and!; [set_solver|done|by left].
Qed.

Lemma step_kept d op r d' p : op_step d op r d' -> p ∉ touches op -> kept d d' p.
Proof.
  assert (kept d d p) as Hsame by (intros Hd; auto).
  intros [|text Hf|q bytes part held text Hf -> _ _|q bytes part text Hf -> _] Hp; [|done|..];
    [|apply put_kept; set_solver..].
  destruct op as [q|q|q|q bytes|q|a b|dir|q|q|q n|q bytes]; simpl in *; try done;
    try (apply put_kept; set_solver).
  - destruct (cache d !! q); [apply put_kept; set_solver|done].
  - intros Hd. simpl. split_and!; [set_solver|done|by left].
  - destruct (cache d !! a); [|done]. intros Hd. simpl. rewrite lookup_insert_ne, lookup_delete_ne by set_solver.
    split_and!; [case_decide; set_solver|done|by left].
  - intros Hd. split_and!; [done|done|]. rewrite sync_dir_stable. case_decide; auto.
  - destruct (cache d !! q); [|done]. intros Hd. simpl. rewrite lookup_delete_ne by set_solver.
    split_and!; [set_solver|done|by left].
  - destruct (cache d !! q); [apply put_kept; set_solver|done].
Qed.

Lemma kept_settled d d' p v : kept d d' p -> settled d p v -> settled d' p v.
Proof. intros Hk (Hd & Hc & Hs). destruct (Hk Hd) as (? & ? & [?|?]); split_and!; congruence. Qed.

Lemma kept_between d d' p v w : kept d d' p -> between d p v w -> between d' p v w.
Proof.
  intros Hk (Hd & Hc & Hs). destruct (Hk Hd) as (H1 & H2 & [H3|H3]); split_and!; rewrite ?H2, ?H3; done.
Qed.

Lemma step_Ok d op reply d' : op_step d op (Ok reply) d' -> perform op d = (Ok reply, d').
Proof. intros H. inversion H; subst. by destruct (perform op d). Qed.

(** An operation that fails leaves what it does not tear. *)
Lemma step_Err d op error d' p :
  op_step d op (Err error) d' -> (forall q bytes, op <> OverwriteFile q bytes \/ p <> q) ->
  (forall q bytes, op <> WriteAll q bytes \/ p <> q) -> kept d d' p.
Proof.
  assert (kept d d p) as Hsame by (intros Hd; auto).
  intros H Ho Hw. inversion H as [Hr Hd| | |]; subst; try done.
  - destruct op as [q|q|q|q bytes|q|a b|dir|q|q|q n|q bytes]; simpl in *; try done; by case_match.
  - destruct (Hw p0 bytes); [done|]. by apply put_kept.
  - destruct (Ho p0 bytes); [done|]. by apply put_kept.
Qed.

(** ** The commit is all or nothing *)

Lemma append_longer (a b : string) : b <> EmptyString -> a +:+ b <> a.
Proof.
  intros Hb. induction a as [|x a IH]; [done|]. intros [= H]. by apply IH.
Qed.

Lemma staged_ne target dir : parent target = Some dir -> staged_beside target <> target.
Proof.
  unfold staged_beside, with_file_name, parent, file_name. pose proof (reverse_involutive target) as Ht.
  destruct (reverse target) as [|[| | |name] up]; try done. intros _ H. simpl in H. rewrite <-Ht in H.
  rewrite reverse_cons in H. apply app_inj_2 in H as [_ [= H]]; [|done].
  by apply append_longer in H.
Qed.

Section Commit.
Context (target dir : Path) (bytes : Bytes) (old : option Bytes) (d0 : Disk).
Hypothesis in_dir : parent target = Some dir.

Abbreviation staged := (staged_beside target).

(** What every other path keeps. *)
Definition apart (d : Disk) : Prop :=
  forall q v w, q <> target -> q <> staged ->
    (settled d0 q v -> settled d q v) /\ (between d0 q v w -> between d q v w).

Definition committing (d : Disk) : Prop := between d target old (Some bytes) /\ apart d.

Lemma apart_step d op r d' :
  op_step d op r d' -> (forall q, q ∈ touches op -> q = target \/ q = staged) -> apart d -> apart d'.
Proof.
  intros Hstep Ht Hap q v w Hq Hs. assert (kept d d' q) as Hk
    by (eapply step_kept; [done|]; intros Hin; destruct (Ht q Hin); done).
  destruct (Hap q v w Hq Hs) as [H1 H2]. split; intros H; [eapply kept_settled|eapply kept_between]; eauto.
Qed.

(** One operation on the staged file. *)
Lemma attempt_staged op next post d :
  (forall q, q ∈ touches op -> q = staged) ->
  settled d target old -> apart d ->
  (forall error d', settled d' target old -> apart d' -> post (Err error) d') ->
  (forall reply d', perform op d = (Ok reply, d') -> settled d' target old -> apart d' ->
    wp committing post (next reply) d') ->
  wp committing post (attempt op next) d.
Proof.
  intros Ht Hset Hap Herr Hok. split; [split; [by apply settled_between|done]|].
  intros r d' Hstep. assert (settled d' target old) as Hset'.
  { eapply kept_settled; [|done]. eapply step_kept; [done|]. intros Hin.
    apply (staged_ne target dir in_dir). symmetry. by apply Ht. }
  assert (apart d') as Hap' by (eapply apart_step; [done|auto|done]).
  destruct r as [reply|error]; [apply Hok; [by apply step_Ok|done..]|].
  apply wp_ret; [split; [by apply settled_between|done]|auto].
Qed.

(** What the commit answers: the new content on stable storage; or a failure,
    the prior content untouched unless the directory could not be synced. *)
Definition committed (r : result () IoError) (d : Disk) : Prop :=
  apart d /\
  match r with
  | Ok _ => settled d target (Some bytes)
  | Err _ => settled d target old \/ (may_fail (SyncDir dir) /\ committing d)
  end.

Lemma commit_stages_wp d :
  settled d target old -> apart d -> wp committing committed (commit_stages target bytes) d.
Proof.
  intros Hset Hap. unfold commit_stages.
  apply attempt_staged; [set_solver|done|done|by split; auto|].
  intros _ d1 [= <- <-] Hset1 Hap1.
  apply attempt_staged; [set_solver|done|done|by split; auto|].
  simpl. rewrite lookup_insert_eq. intros _ d2 [= <- <-] Hset2 Hap2.
  apply attempt_staged; [set_solver|done|done|by split; auto|].
  intros _ d3 [= <- <-] Hset3 Hap3.
  split; [split; [by apply settled_between|done]|]. intros r d4 Hstep.
  assert (apart d4) as Hap4 by (eapply apart_step; [done|set_solver|done]).
  pose proof (staged_ne target dir in_dir) as Hne.
  destruct r as [reply|error].
  - apply step_Ok in Hstep. simpl in Hstep. rewrite !lookup_insert_eq in Hstep. injection Hstep as _ <-.
    rewrite in_dir.
    match type of Hap4 with apart ?x => set (d4 := x) in * end.
    assert (cache d4 !! target = Some bytes) as Hnew by (subst d4; simpl; by rewrite lookup_insert_eq).
    assert (between d4 target old (Some bytes)) as Hb4.
    { destruct Hset3 as (Hd & _ & Hs). split; [|split].
      - subst d4. simpl in *. case_decide; set_solver.
      - by right.
      - left. exact Hs. }
    split; [done|]. intros r d5 Hstep5.
    assert (apart d5) as Hap5 by (eapply apart_step; [done|set_solver|done]).
    assert (kept d4 d5 target) as Hk5 by (eapply step_kept; [done|set_solver]).
    assert (committing d5) as Hc5 by (split; [by eapply kept_between|done]).
    destruct r as [answer|error]; (apply wp_ret; [done|]; split; [done|]).
    + apply step_Ok in Hstep5 as [= _ <-]. destruct Hb4 as (Hd & _ & _). split; [done|].
      rewrite sync_dir_stable, decide_True by done. done.
    + right. split; [|done]. by inversion Hstep5.
  - assert (settled d4 target old) as Hset4.
    { eapply kept_settled; [|done]. eapply step_Err; [done|by left|by left]. }
    apply wp_ret; [split; [by apply settled_between|done]|]. split; [done|by left].
Qed.

(** Staging, syncing and renaming replaces the content as a whole: at every
    point a crash leaves the old content or the new one, and no other file is
    touched. *)
Lemma commit_atomic_wp d :
  settled d target old -> apart d -> wp committing committed (commit_atomic target bytes) d.
Proof.
  intros Hset Hap. apply wp_bind. eapply wp_mono; [done| |by apply commit_stages_wp].
  intros [[]|error] d' [Hap' Hr].
  - apply wp_ret; [split; [by apply settled_between_r|done]|done].
  - assert (committing d') as Hc by (destruct Hr as [Hr|[_ Hr]]; [split; [by apply settled_between|done]|done]).
    split; [done|]. intros r d2 Hstep.
    assert (apart d2) as Hap2 by (eapply apart_step; [done|set_solver|done]).
    assert (kept d' d2 target) as Hk.
    { eapply step_kept; [done|]. pose proof (staged_ne target dir in_dir). set_solver. }
    assert (between d2 target old (Some bytes)) as Hb by (eapply kept_between; [exact Hk|exact (proj1 Hc)]).
    apply wp_ret; [by split|]. split; [done|].
    destruct Hr as [Hr|[Hf Hr]]; [left; by eapply kept_settled|right].
    split; [done|]. by split.
Qed.
End Commit.
End Runs.
Arguments Ret {A}.
Arguments Do {A}.

(** Committing a file is all or nothing. Whatever operation fails or is
    torn, and wherever the process dies, a crash leaves at the target the prior
    content or the whole new one, and every other settled file but the staged
    one as it was; once the commit has answered success, the new content
    survives. *)
Theorem commit_is_all_or_nothing may_fail target dir bytes old d m d' left_over :
  parent target = Some dir -> settled d target old ->
  rtc (io_step may_fail) (commit_atomic target bytes, d) (m, d') -> crash d' left_over ->
  (left_over !! target = old \/ left_over !! target = Some bytes) /\
  (forall q v, q <> target -> q <> staged_beside target -> settled d q v -> left_over !! q = v) /\
  (m = Ret (Ok ()) -> left_over !! target = Some bytes).
Proof.
  intros Hdir Hset Hr Hc. assert (apart target d d) as Hap by (intros q v w _ _; done).
  pose proof (commit_atomic_wp may_fail target dir bytes old d Hdir d Hset Hap) as Hwp.
  destruct (wp_sound _ _ _ _ _ _ _ Hwp Hr) as [[Hb Ha] Hpost]. split_and!.
  - by eapply between_crash.
  - intros q v Hq Hs Hsq. eapply settled_crash; [by apply Ha|done].
  - intros ->. destruct (Hpost _ eq_refl) as [_ Hset']. by eapply settled_crash.
Qed.

(** ** Examples *)

Module DiskExample.
Definition file : Path := [RootDir; Normal "data"; Normal "f"].
Definition disk : Disk := rebooted {[ file := [1; 2]%Z ]}.

(** The run without a failure. *)
Fixpoint run_well {A} (m : Io A) (d : Disk) : A * Disk :=
  match m with
  | Ret x => (x, d)
  | Do op next => let '(r, d) := perform op d in run_well (next r) d
  end.

Lemma run_well_steps {A} may_fail (m : Io A) d :
  rtc (io_step may_fail) (m, d) (Ret (run_well m d).1, (run_well m d).2).
Proof.
  revert d. induction m as [x|op next IH]; intros d; [apply rtc_refl|]. simpl.
  destruct (perform op d) as [r d'] eqn:Hp. eapply rtc_l; [|apply IH].
  constructor. pose proof (performs may_fail d op) as H. by rewrite Hp in H.
Qed.

Lemma commit_is_all_or_nothing_witness :
  (run_well (commit_atomic file [7]%Z) disk).1 = Ok () /\
  forall left_over, crash (run_well (commit_atomic file [7]%Z) disk).2 left_over -> left_over !! file = Some [7]%Z.
Proof.
  split; [by vm_compute|]. intros left_over Hc.
  destruct (commit_is_all_or_nothing (fun _ => True) file [RootDir; Normal "data"] [7]%Z (Some [1; 2]%Z) disk
    (Ret (run_well (commit_atomic file [7]%Z) disk).1) (run_well (commit_atomic file [7]%Z) disk).2 left_over) as (_ & _ & H); [by vm_compute| | |exact Hc|].
  - split_and!; [set_solver|by vm_compute|by vm_compute].
  - apply run_well_steps.
  - apply H. by vm_compute.
Defined.

(** The commit of one file replaces and then removes whatever is called like
    its staged file: a file of that name is lost. *)
Example committing_destroys_a_file_named_like_the_staged_one :
  let other := [RootDir; Normal "data"; Normal "f.jinnd-stage"] in
  let d := rebooted {[ file := [1; 2]%Z; other := [3]%Z ]} in
  cache (run_well (commit_atomic file [7]%Z) d).2 !! other = None.
Proof. by vm_compute. Qed.

(** A failed sync of the directory is answered as a failure of the whole, with
    the new content in place. *)
Example a_failed_commit_can_have_committed :
  exists d, rtc (io_step (fun op => op = SyncDir [RootDir; Normal "data"]))
    (commit_atomic file [7]%Z, disk) (Ret (Err (IoOther "sync")), d) /\ cache d !! file = Some [7]%Z.
Proof.
  eexists. split.
  - do 4 (eapply rtc_l; [constructor; apply performs|]).
    eapply rtc_l; [constructor; by apply (fails _ _ _ "sync")|].
    eapply rtc_l; [constructor; apply performs|]. apply rtc_refl.
  - by vm_compute.
Qed.
End DiskExample.
