(* ===== verification/Spill.v ===== *)
(** * The spill of retained inverses ([jinnd-wasm/src/hostfs/retention.rs],
    [retention/wire.rs])

    Every revertible effect of a file provider writes its inverse to a file
    keyed by the effect's id before it mutates anything. This file models the
    records' wire format, the store's operations as programs over [Disk], and
    what opening the store finds after a crash. *)

From Stdlib Require Import Ascii.
From stdpp Require Import base gmap sets list strings pretty sorting.
From S2P Require Import Prelude Api Entries Text Paths Grants Waits Broker Disk.

(** ** Bytes *)

(** [to_le_bytes] of [k] bytes, and back. *)
Fixpoint le_bytes (k : nat) (n : Z) : Bytes :=
  match k with 0 => [] | S k => (n mod 256)%Z :: le_bytes k (n / 256) end.

Fixpoint le_value (bytes : Bytes) : Z :=
  match bytes with [] => 0 | b :: bytes => (b + 256 * le_value bytes)%Z end.

Lemma le_bytes_length k n : length (le_bytes k n) = k.
Proof. revert n. induction k as [|k IH]; intros n; simpl; [done|]. by rewrite IH. Qed.

Lemma le_round_trip k n : (0 <= n < 256 ^ Z.of_nat k)%Z -> le_value (le_bytes k n) = n.
Proof.
  revert n. induction k as [|k IH]; intros n Hn; simpl; [change (256 ^ Z.of_nat 0)%Z with 1%Z in Hn; lia|].
  rewrite Nat2Z.inj_succ, Z.pow_succ_r in Hn by lia. rewrite IH.
  - pose proof (Z.div_mod n 256). lia.
  - split; [apply Z.div_pos; lia|apply Z.div_lt_upper_bound; lia].
Qed.

#[local] Opaque le_bytes le_value.

(** [split_at_checked]. *)
Definition split_at (n : nat) (bytes : Bytes) : option (Bytes * Bytes) :=
  if decide (n <= length bytes) then Some (take n bytes, drop n bytes) else None.

Lemma split_at_app a b n : length a = n -> split_at n (a ++ b) = Some (a, b).
Proof.
  intros <-. unfold split_at. rewrite decide_True by (rewrite length_app; lia).
  by rewrite take_app_length, drop_app_length.
Qed.

Fixpoint as_bytes (s : string) : Bytes :=
  match s with EmptyString => [] | String c s => Z.of_nat (nat_of_ascii c) :: as_bytes s end.

(** [String::from_utf8]: refuses what is not UTF-8. *)
Class Utf8 := from_utf8 : Bytes -> option string.

Class Utf8Laws (U : Utf8) : Prop := { from_as_bytes s : from_utf8 (as_bytes s) = Some s }.

(** ** The records *)

Inductive Prior := PriorAbsent | PriorContent (bytes : Bytes) | PriorLength (length : Z).

Record Header := MkHeader {
  label : string;
  key : string;
  header_owner : Z;
  header_entry : string;
  operation : string;
}.

Record SpillRecord := MkSpillRecord { header : Header; prior : Prior }.

#[export] Instance Header_eq_dec : EqDecision Header.
Proof. solve_decision. Defined.

Definition TAG_ABSENT : Z := 0.
Definition TAG_CONTENT : Z := 1.
Definition TAG_LENGTH : Z := 2.
Definition TAG_ENTRY : Z := 128.

Definition corrupt (id : Z) (detail : string) : KernelError :=
  refusal EffectFailed ("inverse record " +:+ pretty id +:+ " unreadable: " +:+ detail).

Definition push_prefixed (segment : Bytes) : Bytes :=
  le_bytes 4 (Z.min (Z.of_nat (length segment)) (2 ^ 32 - 1)) ++ segment.

Definition encode_header (h : Header) (tag : Z) : Bytes :=
  [Z.lor tag TAG_ENTRY] ++ push_prefixed (as_bytes (label h)) ++ push_prefixed (as_bytes (key h)) ++
  le_bytes 8 (header_owner h) ++ push_prefixed (as_bytes (header_entry h)) ++
  push_prefixed (as_bytes (operation h)).

Definition prior_tag (p : Prior) : Z :=
  match p with PriorAbsent => TAG_ABSENT | PriorContent _ => TAG_CONTENT | PriorLength _ => TAG_LENGTH end.

Definition encode_record (r : SpillRecord) : Bytes :=
  encode_header (header r) (prior_tag (prior r)) ++
  match prior r with PriorAbsent => [] | PriorContent content => content | PriorLength n => le_bytes 8 n end.

Section Wire.
Context `{Utf8}.

Definition take_prefixed (bytes : Bytes) : option (string * Bytes) :=
  '(prefix, rest) ← split_at 4 bytes;
  '(segment, rest) ← split_at (Z.to_nat (le_value prefix)) rest;
  s ← from_utf8 segment;
  Some (s, rest).

Definition ok_or {T} (x : option T) (error : KernelError) : result T KernelError :=
  match x with Some x => Ok x | None => Err error end.

Local Open Scope result_scope.

Definition decode_header (id : Z) (bytes : Bytes) : result (Z * Header * Bytes) KernelError :=
  match bytes with
  | [] => Err (corrupt id "empty")
  | tag :: rest =>
      let? labelled := ok_or (take_prefixed rest) (corrupt id "label") in
      let? keyed := ok_or (take_prefixed labelled.2) (corrupt id "key") in
      let? owned := ok_or (split_at 8 keyed.2) (corrupt id "owner") in
      let? entered :=
        (if decide (Z.land tag TAG_ENTRY <> 0%Z) then
           let? e := ok_or (take_prefixed owned.2) (corrupt id "entry") in
           let? o := ok_or (take_prefixed e.2) (corrupt id "operation") in
           Ok (e.1, o.1, o.2)
         else Ok (""%string, ""%string, owned.2)) in
      Ok (Z.land tag (255 - TAG_ENTRY),
          MkHeader labelled.1 keyed.1 (le_value owned.1) entered.1.1 entered.1.2, entered.2)
  end.

Definition decode_record (id : Z) (bytes : Bytes) : result SpillRecord KernelError :=
  let? decoded := decode_header id bytes in
  let '(tag, h, body) := decoded in
  if decide (tag = TAG_ABSENT) then Ok (MkSpillRecord h PriorAbsent)
  else if decide (tag = TAG_CONTENT) then Ok (MkSpillRecord h (PriorContent body))
  else if decide (tag = TAG_LENGTH) then
    let? taken := ok_or (split_at 8 body) (corrupt id "length") in
    Ok (MkSpillRecord h (PriorLength (le_value taken.1)))
  else Err (corrupt id "tag").

(** One read of at most 4096 bytes; the header alone is decoded. *)
Definition HEAD : nat := 4096.

Definition read_header (id : Z) (file : Bytes) : result Header KernelError :=
  let? decoded := decode_header id (take HEAD file) in
  Ok decoded.1.2.
End Wire.

(** ** Round trips *)

(** What a [Header] built from Rust values satisfies. *)
Definition sized (s : string) : Prop := (Z.of_nat (length (as_bytes s)) < 2 ^ 32)%Z.

Record header_ok (h : Header) : Prop := {
  label_sized : sized (label h);
  key_sized : sized (key h);
  entry_sized : sized (header_entry h);
  operation_sized : sized (operation h);
  owner_u64 : (0 <= header_owner h < 2 ^ 64)%Z;
}.

Definition prior_ok (p : Prior) : Prop :=
  match p with PriorLength n => (0 <= n < 2 ^ 64)%Z | _ => True end.

Section RoundTrips.
Context `{U : Utf8, !Utf8Laws U}.

Lemma take_prefixed_push s rest : sized s -> take_prefixed (push_prefixed (as_bytes s) ++ rest) = Some (s, rest).
Proof.
  intros Hs. unfold take_prefixed, push_prefixed. unfold sized in Hs.
  rewrite <-app_assoc, split_at_app by apply le_bytes_length. simpl.
  rewrite Z.min_l by lia. rewrite le_round_trip by (change (256 ^ Z.of_nat 4)%Z with (2 ^ 32)%Z; lia).
  rewrite split_at_app by lia. simpl. by rewrite from_as_bytes.
Qed.

#[local] Opaque push_prefixed.

Lemma decode_encode_header id h tag rest :
  header_ok h -> (tag = TAG_ABSENT \/ tag = TAG_CONTENT \/ tag = TAG_LENGTH) ->
  decode_header id (encode_header h tag ++ rest) = Ok (tag, h, rest).
Proof.
  intros [Hl Hk He Ho Hu] Htag. unfold encode_header, decode_header. simpl.
  rewrite <-!app_assoc, take_prefixed_push by done. simpl. rewrite take_prefixed_push by done. simpl.
  rewrite split_at_app by apply le_bytes_length. simpl. rewrite decide_True.
  2: { by destruct Htag as [->|[->| ->]]. }
  rewrite take_prefixed_push by done. simpl. rewrite take_prefixed_push by done. simpl.
  rewrite le_round_trip by (change (256 ^ Z.of_nat 8)%Z with (2 ^ 64)%Z; lia).
  destruct h. simpl. by destruct Htag as [->|[->| ->]].
Qed.

Lemma decode_encode_record id r :
  header_ok (header r) -> prior_ok (prior r) -> decode_record id (encode_record r) = Ok r.
Proof.
  intros Hh Hp. unfold decode_record, encode_record. rewrite decode_encode_header; [|done|].
  - destruct r as [h []]; simpl in *; try done.
    rewrite <-(app_nil_r (le_bytes 8 length)), split_at_app by apply le_bytes_length. simpl.
    by rewrite le_round_trip by (change (256 ^ Z.of_nat 8)%Z with (2 ^ 64)%Z; lia).
  - destruct (prior r); auto.
Qed.

(** A spilled inverse reads back as it was written: its label, key, owner,
    entry and operation, and the prior it restores. *)
Theorem spilled_records_read_back id r :
  header_ok (header r) -> prior_ok (prior r) -> decode_record id (encode_record r) = Ok r.
Proof. apply decode_encode_record. Qed.
End RoundTrips.

(** ** The store *)

Definition EPOCH_FILE : string := "epoch".
Definition INVERSE_SUFFIX : string := ".inverse".

(** The system's text for an error. *)
Definition io_text (e : IoError) : string :=
  match e with IoNotFound => "No such file or directory (os error 2)" | IoOther text => text end.

Definition store_io (detail : string) (e : IoError) : KernelError :=
  refusal EffectFailed ("inverse store " +:+ detail +:+ ": " +:+ io_text e).

Definition spill_path (store : Path) (id : Z) : Path := store ++ [Normal (pretty id +:+ INVERSE_SUFFIX)].

Section Store.
Context `{Utf8} (store : Path).

Definition persist (id : Z) (r : SpillRecord) : Io (result () KernelError) :=
  io_bind (commit_atomic (spill_path store id) (encode_record r)) (fun outcome =>
    Ret match outcome with Ok _ => Ok () | Err refused => Err (store_io "persist" refused) end).

Definition load (id : Z) : Io (result SpillRecord KernelError) :=
  Do (ReadFile (spill_path store id)) (fun r =>
    Ret match r with
        | Ok (Content bytes) => decode_record id bytes
        | Ok _ => Err (store_io "load" IoNotFound)
        | Err refused => Err (store_io "load" refused)
        end).

Definition reclaim_spill (id : Z) : Io (result () KernelError) :=
  Do (RemoveFile (spill_path store id)) (fun r =>
    Ret match r with
        | Ok _ | Err IoNotFound => Ok ()
        | Err refused => Err (store_io "reclaim" refused)
        end).

(** *** Opening: what the files left by the last process say *)

(** The names in one directory. *)
Definition name_in (dir p : Path) : option string :=
  match parent p with
  | Some up => if decide (up = dir) then Some (file_name p) else None
  | None => None
  end.

Definition read_dir (dir : Path) (files : gmap Path Bytes) : list (string * Bytes) :=
  omap (fun f : Path * Bytes => name ← name_in dir f.1; Some (name, f.2)) (map_to_list files).

Definition is_staged (name : string) : bool := bool_decide (is_Some (strip_suffix STAGE_SUFFIX name)).

(** Every staged file at or below the directory is removed. *)
Definition sweep_staged (dir : Path) (files : gmap Path Bytes) : gmap Path Bytes :=
  filter (fun f : Path * Bytes => ~ (dir `prefix_of` f.1 /\ is_staged (file_name f.1) = true)) files.

(** The boot epoch: one more than the one on file, or zero. *)
Definition next_epoch (files : gmap Path Bytes) : Z :=
  match bytes ← files !! (store ++ [Normal EPOCH_FILE]);
        text ← from_utf8 bytes;
        parse_unsigned (2 ^ 64 - 1) (trim text) with
  | Some previous => previous + 1
  | None => 0
  end%Z.

Definition inverse_id (name : string) : option Z :=
  digits ← strip_suffix INVERSE_SUFFIX name; parse_unsigned (2 ^ 64 - 1) digits.

Fixpoint index_loop (entries : list (string * Bytes)) : result (list (Z * Header)) KernelError :=
  match entries with
  | [] => Ok []
  | (name, bytes) :: entries =>
      match inverse_id name with
      | None => index_loop entries
      | Some id =>
          match read_header id bytes with
          | Err error => Err error
          | Ok header =>
              match index_loop entries with
              | Ok index => Ok ((id, header) :: index)
              | Err error => Err error
              end
          end
      end
  end.

Definition id_le (a b : Z * Header) : bool := (a.1 <=? b.1)%Z.

(** The epoch, the index by id, and the files with the epoch made durable; the
    refusals of the file system itself are those of [commit_atomic]. *)
Definition open_store (files : gmap Path Bytes) :
    result (Z * list (Z * Header) * gmap Path Bytes) KernelError :=
  let files := sweep_staged store files in
  let epoch := next_epoch files in
  let files := <[store ++ [Normal EPOCH_FILE] := as_bytes (pretty epoch)]> files in
  match index_loop (read_dir store files) with
  | Ok index => Ok (epoch, sort_by id_le index, files)
  | Err error => Err error
  end.
End Store.

(** The first id of a boot ([HostFs::open]). *)
Definition base_id (epoch : Z) : Z := ((epoch + 1) * 2 ^ 32) `mod` 2 ^ 64.

Definition first_id (epoch : Z) (index : list (Z * Header)) : Z :=
  Z.max (match map (fun r : Z * Header => r.1 + 1)%Z index with
         | [] => base_id epoch
         | id :: ids => fold_left Z.max ids id
         end) (base_id epoch).

(** ** What opening finds *)

Section Opening.
Context `{U : Utf8, !Utf8Laws U} (store : Path).

Lemma as_bytes_app a b : as_bytes (a +:+ b) = as_bytes a ++ as_bytes b.
Proof. induction a as [|c a IH]; simpl; [done|by rewrite IH]. Qed.

Lemma inverse_id_spill id : (0 <= id < 2 ^ 64)%Z -> inverse_id (pretty id +:+ INVERSE_SUFFIX) = Some id.
Proof. intros Hid. unfold inverse_id. rewrite strip_suffix_app. simpl. apply parse_pretty. lia. Qed.

(** The last characters of an inverse's name are not those of a staged one. *)
Lemma inverse_not_staged s : is_staged (s +:+ INVERSE_SUFFIX) = false.
Proof.
  apply bool_decide_eq_false. intros [p Hp]. apply strip_suffix_Some in Hp.
  apply (f_equal as_bytes) in Hp. rewrite !as_bytes_app in Hp.
  change (as_bytes STAGE_SUFFIX) with (as_bytes ".jin" ++ as_bytes "nd-stage") in Hp.
  rewrite app_assoc in Hp. apply app_inj_2 in Hp as [_ Hp]; [|done]. by vm_compute in Hp.
Qed.

Lemma name_in_child dir name : name_in dir (dir ++ [Normal name]) = Some name.
Proof.
  unfold name_in, parent, file_name. rewrite reverse_app. simpl. rewrite reverse_involutive.
  by rewrite decide_True.
Qed.

Lemma elem_of_read_dir dir files name bytes :
  files !! (dir ++ [Normal name]) = Some bytes -> (name, bytes) ∈ read_dir dir files.
Proof.
  intros Hf. apply list_elem_of_omap. exists (dir ++ [Normal name], bytes).
  split; [by apply elem_of_map_to_list|]. simpl. by rewrite name_in_child.
Qed.

Lemma index_loop_spec entries index :
  index_loop entries = Ok index ->
  forall id h, (id, h) ∈ index <->
    exists name bytes, (name, bytes) ∈ entries /\ inverse_id name = Some id /\ read_header id bytes = Ok h.
Proof.
  revert index. induction entries as [|[name bytes] entries IH]; intros index; simpl.
  - intros [= <-] id h. split; [by intros ?%elem_of_nil|]. by intros (? & ? & ?%elem_of_nil & _).
  - destruct (inverse_id name) as [id0|] eqn:Hid.
    + destruct (read_header id0 bytes) as [h0|] eqn:Hh; [|done].
      destruct (index_loop entries) as [index'|]; [|done]. intros [= <-] id h.
      rewrite elem_of_cons, (IH _ eq_refl). split.
      * intros [[= -> ->]|(n & b & ? & ? & ?)]; [exists name, bytes|exists n, b]; split_and!; try done;
          apply elem_of_cons; auto.
      * intros (n & b & [[= -> ->]|Hin]%elem_of_cons & Hn & Hb); [left; congruence|right; eauto].
    + intros Hi id h. rewrite (IH _ Hi). split.
      * intros (n & b & ? & ? & ?). exists n, b. split; [by right|done].
      * intros (n & b & [[= -> ->]|Hin]%elem_of_cons & Hn & Hb); [congruence|eauto].
Qed.

Lemma sweep_staged_keeps dir files p :
  is_staged (file_name p) = false -> sweep_staged dir files !! p = files !! p.
Proof.
  intros Hs. unfold sweep_staged. destruct (files !! p) as [bytes|] eqn:Hf.
  - apply map_lookup_filter_Some_2; [done|]. simpl. intros [_ H]. congruence.
  - apply map_lookup_filter_None_2. by left.
Qed.

Lemma file_name_child dir name : file_name (dir ++ [Normal name]) = name.
Proof. unfold file_name. by rewrite reverse_app. Qed.

(** A decoder that succeeds looks no further than what it consumed. *)
Lemma split_at_more n bytes a b more : split_at n bytes = Some (a, b) -> split_at n (bytes ++ more) = Some (a, b ++ more).
Proof.
  unfold split_at. case_decide as Hn; [|done]. intros [= <- <-].
  rewrite decide_True by (rewrite length_app; lia). by rewrite take_app_le, drop_app_le.
Qed.

Lemma take_prefixed_more bytes s rest more :
  take_prefixed bytes = Some (s, rest) -> take_prefixed (bytes ++ more) = Some (s, rest ++ more).
Proof.
  unfold take_prefixed. intros H. destruct (split_at 4 bytes) as [[prefix r1]|] eqn:H1; [|done].
  rewrite (split_at_more _ _ _ _ _ H1). simpl in *.
  destruct (split_at _ r1) as [[segment r2]|] eqn:H2; [|done]. rewrite (split_at_more _ _ _ _ _ H2). simpl in *.
  destruct (from_utf8 segment); [|done]. simpl in *. by injection H as -> ->.
Qed.

Lemma decode_header_more id bytes tag h rest more :
  decode_header id bytes = Ok (tag, h, rest) -> decode_header id (bytes ++ more) = Ok (tag, h, rest ++ more).
Proof.
  destruct bytes as [|t bytes]; [done|]. simpl.
  destruct (take_prefixed bytes) as [[l r1]|] eqn:H1; [|done]. rewrite (take_prefixed_more _ _ _ _ H1). simpl.
  destruct (take_prefixed r1) as [[k r2]|] eqn:H2; [|done]. rewrite (take_prefixed_more _ _ _ _ H2). simpl.
  destruct (split_at 8 r2) as [[o r3]|] eqn:H3; [|done]. rewrite (split_at_more _ _ _ _ _ H3). simpl.
  case_decide; [|by intros [= <- <- <-]].
  destruct (take_prefixed r3) as [[e r4]|] eqn:H4; [|done]. rewrite (take_prefixed_more _ _ _ _ H4). simpl.
  destruct (take_prefixed r4) as [[p r5]|] eqn:H5; [|done]. rewrite (take_prefixed_more _ _ _ _ H5). simpl.
  by intros [= <- <- <-].
Qed.

Lemma read_header_spec id h tag rest :
  header_ok h -> (tag = TAG_ABSENT \/ tag = TAG_CONTENT \/ tag = TAG_LENGTH) ->
  if decide (length (encode_header h tag) <= HEAD)
  then read_header id (encode_header h tag ++ rest) = Ok h
  else exists error, read_header id (encode_header h tag ++ rest) = Err error.
Proof.
  intros Hh Htag. unfold read_header. case_decide as Hfit.
  - rewrite take_app_ge, decode_encode_header by done. done.
  - rewrite take_app_le by lia. pose proof (decode_encode_header id h tag [] Hh Htag) as He.
    rewrite app_nil_r in He. set (e := encode_header h tag) in *. clearbody e.
    destruct (decode_header id (take HEAD e)) as [[[t h'] r]|error] eqn:Hd; [|by eexists].
    exfalso. apply (decode_header_more _ _ _ _ _ (drop HEAD e)) in Hd.
    rewrite take_drop, He in Hd. assert (r ++ drop HEAD e = []) as Hnil by congruence.
    apply app_eq_nil in Hnil as [_ Hnil]. apply (f_equal length) in Hnil.
    rewrite length_drop in Hnil. change (length []) with 0 in Hnil. lia.
Qed.

Lemma spill_path_ne_epoch id : spill_path store id <> store ++ [Normal EPOCH_FILE].
Proof.
  intros H. apply app_inj_1 in H as [_ [= H]]; [|done].
  apply (f_equal (fun s => length (as_bytes s))) in H. rewrite as_bytes_app, length_app in H.
  change (length (as_bytes EPOCH_FILE)) with 5 in H. change (length (as_bytes INVERSE_SUFFIX)) with 8 in H. lia.
Qed.

(** C33: What was spilled is found again. After a crash, opening the store lists
    every inverse that was on stable storage, under its id and with its header,
    and its record still reads back; but a header longer than the 4096 bytes
    that are read of it, for which a long key is enough, makes every later
    opening of the store fail. *)
Theorem a_spilled_inverse_is_found_again d left_over id r :
  (0 <= id < 2 ^ 64)%Z -> header_ok (header r) -> prior_ok (prior r) ->
  settled d (spill_path store id) (Some (encode_record r)) -> crash d left_over ->
  if decide (length (encode_header (header r) (prior_tag (prior r))) <= HEAD)
  then forall epoch index files, open_store store left_over = Ok (epoch, index, files) ->
    (id, header r) ∈ index /\ (bytes ← files !! spill_path store id; ok (decode_record id bytes)) = Some r
  else exists error, open_store store left_over = Err error.
Proof.
  intros Hid Hh Hp Hset Hcr.
  assert (left_over !! spill_path store id = Some (encode_record r)) as Hleft by by eapply settled_crash.
  assert (forall text, (<[store ++ [Normal EPOCH_FILE] := text]> (sweep_staged store left_over)) !! spill_path store id =
    Some (encode_record r)) as Hfile.
  { intros text. rewrite lookup_insert_ne by (symmetry; apply spill_path_ne_epoch).
    rewrite sweep_staged_keeps; [done|]. unfold spill_path. rewrite file_name_child. apply inverse_not_staged. }
  assert (prior_tag (prior r) = TAG_ABSENT \/ prior_tag (prior r) = TAG_CONTENT \/ prior_tag (prior r) = TAG_LENGTH)
    as Htag by (destruct (prior r); auto).
  unfold open_store. set (files1 := <[_ := _]> _) in *.
  assert ((pretty id +:+ INVERSE_SUFFIX, encode_record r) ∈ read_dir store files1) as Hin
    by (apply elem_of_read_dir, Hfile).
  pose proof (read_header_spec id (header r) (prior_tag (prior r))
    (match prior r with PriorAbsent => [] | PriorContent content => content | PriorLength n => le_bytes 8 n end)
    Hh Htag) as Hread.
  destruct (index_loop (read_dir store files1)) as [index|error] eqn:Hi.
  - pose proof (index_loop_spec _ _ Hi) as Hspec. case_decide as Hfit.
    + intros epoch index' files [= <- <- <-]. split.
      * rewrite sort_by_Permutation. apply Hspec. do 2 eexists. split; [exact Hin|].
        split; [by apply inverse_id_spill|done].
      * unfold files1. rewrite Hfile. simpl. by rewrite decode_encode_record.
    + exfalso. destruct Hread as [error Hread].
      clear -Hi Hin Hread Hid Utf8Laws0. revert index Hi. induction (read_dir store files1) as [|[n b] l IH]; [by apply elem_of_nil in Hin|].
      intros index. simpl. apply elem_of_cons in Hin as [[= <- <-]|Hin].
      * rewrite inverse_id_spill by done. unfold encode_record. by rewrite Hread.
      * destruct (inverse_id n); [|by apply IH]. destruct (read_header _ b); [|done].
        destruct (index_loop l) as [i|] eqn:Hl; [|done]. intros _. by eapply IH.
  - case_decide; [done|]. by eexists.
Qed.

Lemma read_dir_elem dir files name bytes :
  (name, bytes) ∈ read_dir dir files -> files !! (dir ++ [Normal name]) = Some bytes.
Proof.
  intros ([p b] & Hf & Hn)%list_elem_of_omap. apply elem_of_map_to_list in Hf. simpl in Hn.
  unfold name_in, parent, file_name in Hn. pose proof (reverse_involutive p) as Hp.
  destruct (reverse p) as [|[| | |x] up]; try done. simpl in Hn. case_decide as Hd; [|done].
  injection Hn as <- <-. rewrite reverse_cons in Hp. congruence.
Qed.

Lemma fold_max_bound l x bound : (x <= bound)%Z -> Forall (fun y => y <= bound)%Z l -> (fold_left Z.max l x <= bound)%Z.
Proof. intros Hx Hl. revert x Hx. induction Hl as [|y l Hy _ IH]; intros x Hx; simpl; [done|]. apply IH. lia. Qed.

(** An id is never issued twice. When the epoch file reads back, opening the
    store moves to the next epoch and makes it durable, and the ids of this boot
    start at the beginning of its block of [2^32], above every id an earlier
    boot issued or spilled; the ids of this boot end below those of the next. *)
Theorem ids_are_never_issued_twice files e epoch index files' :
  (0 <= e)%Z -> (e + 3 < 2 ^ 32)%Z -> files !! (store ++ [Normal EPOCH_FILE]) = Some (as_bytes (pretty e)) ->
  (forall name bytes id, files !! (store ++ [Normal name]) = Some bytes -> inverse_id name = Some id ->
    (id < base_id (e + 1))%Z) ->
  open_store store files = Ok (epoch, index, files') ->
  epoch = (e + 1)%Z /\ files' !! (store ++ [Normal EPOCH_FILE]) = Some (as_bytes (pretty epoch)) /\
  first_id epoch index = base_id epoch /\ (base_id epoch + 2 ^ 32 = base_id (epoch + 1))%Z /\
  (base_id epoch = base_id e + 2 ^ 32)%Z /\
  forall id h, (id, h) ∈ index -> (id < first_id epoch index)%Z.
Proof.
  intros He Hb Hf Hold. unfold open_store.
  assert (sweep_staged store files !! (store ++ [Normal EPOCH_FILE]) = Some (as_bytes (pretty e))) as Hs.
  { rewrite sweep_staged_keeps; [done|]. by rewrite file_name_child. }
  assert (next_epoch store (sweep_staged store files) = (e + 1)%Z) as ->.
  { unfold next_epoch. rewrite Hs. simpl. rewrite from_as_bytes. simpl.
    rewrite (trim_digits (2 ^ 64 - 1) 0 _ e) by (apply digits_pretty; lia). by rewrite parse_pretty by lia. }
  destruct (index_loop _) as [index0|] eqn:Hi; [|done]. intros [= <- <- <-].
  assert (forall k, (0 <= k)%Z -> (k + 1 < 2 ^ 32)%Z -> base_id k = ((k + 1) * 2 ^ 32)%Z) as Hbase
    by (intros k Hk1 Hk2; unfold base_id; apply Z.mod_small; lia).
  assert (forall id h, (id, h) ∈ sort_by id_le index0 -> (id < base_id (e + 1))%Z) as Hlt.
  { intros id h. rewrite sort_by_Permutation. intros (name & bytes & Hin & Hid & _)%(index_loop_spec _ _ Hi).
    apply read_dir_elem in Hin. apply lookup_insert_Some in Hin as [[Hp _]|[_ Hin]].
    - apply app_inj_1 in Hp as [_ [= <-]]; [|done]. by vm_compute in Hid.
    - apply map_lookup_filter_Some in Hin as [Hin _]. eauto. }
  assert (first_id (e + 1) (sort_by id_le index0) = base_id (e + 1)) as Hfirst.
  { unfold first_id. destruct (sort_by id_le index0) as [|[id h] l]; simpl; [lia|].
    apply Z.max_r, fold_max_bound; [specialize (Hlt id h ltac:(by left)); lia|].
    apply Forall_forall. intros x ([id' h'] & -> & Hx)%list_elem_of_fmap.
    specialize (Hlt id' h' ltac:(by right)). simpl. lia. }
  split_and!; [done|by rewrite lookup_insert_eq|done|rewrite !Hbase by lia; lia|rewrite !Hbase by lia; lia|].
  intros id h Hin. rewrite Hfirst. by eapply Hlt.
Qed.
End Opening.

(** ** Examples *)

Module SpillExample.
Fixpoint text_of (bytes : Bytes) : string :=
  match bytes with [] => EmptyString | b :: bytes => String (ascii_of_nat (Z.to_nat b)) (text_of bytes) end.

(** ASCII text, for which every string of bytes is one. *)
#[export] Instance ascii_text : Utf8 := fun bytes => Some (text_of bytes).

#[export] Instance ascii_text_laws : Utf8Laws ascii_text.
Proof.
  split. intros s. unfold from_utf8, ascii_text. f_equal. induction s as [|c s IH]; [done|]. simpl.
  by rewrite IH, Nat2Z.id, ascii_nat_embedding.
Qed.

Definition store : Path := [RootDir; Normal "inverses"].
Definition note (key : string) : SpillRecord :=
  MkSpillRecord (MkHeader "notes.txt" key 3 "app" "write") (PriorContent [104; 105]%Z).

Lemma note_ok key : sized key -> header_ok (header (note key)).
Proof. intros Hk. split; try done; by vm_compute. Qed.

Lemma spilled_records_read_back_witness : decode_record 5 (encode_record (note "k")) = Ok (note "k").
Proof. apply (spilled_records_read_back 5 (note "k")); [by apply note_ok|done]. Defined.

Definition spilled (id : Z) (key : string) : gmap Path Bytes :=
  {[ store ++ [Normal EPOCH_FILE] := as_bytes "4"; spill_path store id := encode_record (note key) ]}.

Definition block : Z := 5 * 2 ^ 32.

Lemma spilled_opens :
  exists index files, open_store store (spilled block "k") = Ok (5%Z, index, files).
Proof.
  assert (match open_store store (spilled block "k") with Ok (e, _, _) => e = 5%Z | Err _ => False end) as H
    by by vm_compute.
  destruct (open_store store (spilled block "k")) as [[[epoch index] files]|]; [subst epoch|done].
  by exists index, files.
Qed.

Lemma a_spilled_inverse_is_found_again_witness :
  exists index files, open_store store (spilled block "k") = Ok (5%Z, index, files) /\ (block, header (note "k")) ∈ index.
Proof.
  destruct spilled_opens as (index & files & Ho).
  assert (0 <= block < 2 ^ 64)%Z as Hid by (unfold block; lia).
  assert (header_ok (header (note "k"))) as Hh by by apply note_ok.
  pose proof (a_spilled_inverse_is_found_again store (rebooted (spilled block "k")) (spilled block "k") block (note "k")
    Hid Hh I) as H.
  assert (length (encode_header (header (note "k")) (prior_tag (prior (note "k")))) <= HEAD) as Hfit
    by (apply Nat.leb_le; by vm_compute).
  destruct (decide (length (encode_header (header (note "k")) (prior_tag (prior (note "k")))) <= HEAD)) as [_|n]; [|exact (False_ind _ (n Hfit))].
  destruct H with (epoch := 5%Z) (index := index) (files := files) as [Hin _].
  - split_and!; [apply not_elem_of_empty|by vm_compute|by vm_compute].
  - intros p. by right; left.
  - done.
  - exists index, files. split; [exact Ho|exact Hin].
Defined.

Lemma ids_are_never_issued_twice_witness :
  exists index files, open_store store (spilled block "k") = Ok (5%Z, index, files) /\ first_id 5 index = (6 * 2 ^ 32)%Z.
Proof.
  destruct spilled_opens as (index & files & Ho).
  destruct (ids_are_never_issued_twice store (spilled block "k") 4 5 index files) as (_ & _ & Hf & _);
    [lia|lia|by vm_compute| |exact Ho|].
  - intros name bytes id Hin Hid. unfold spilled in Hin.
    apply lookup_insert_Some in Hin as [[Hp _]|[_ Hin]].
    + apply app_inj_1 in Hp as [_ [= <-]]; [|done]. by vm_compute in Hid.
    + apply lookup_singleton_Some in Hin as [Hp _]. apply app_inj_1 in Hp as [_ [= <-]]; [|done].
      vm_compute in Hid. injection Hid as <-. by vm_compute.
  - exists index, files. split; [exact Ho|]. rewrite Hf. by vm_compute.
Defined.

(** A key of five thousand characters, which no limit refuses, and the store
    never opens again. *)
Fixpoint repeated (n : nat) : string := match n with 0 => EmptyString | S n => String "k" (repeated n) end.

Example a_long_key_closes_the_store :
  open_store store (spilled block (repeated 5000)) = Err (corrupt block "key").
Proof.
  assert (match open_store store (spilled block (repeated 5000)) with Err e => e = corrupt block "key" | Ok _ => False end)
    as H by by vm_compute.
  destruct (open_store store (spilled block (repeated 5000))); [done|by subst].
Qed.

(** An epoch file that does not read as a number starts again at the first
    epoch: the ids of this boot are those an earlier boot issued. *)
Example an_unreadable_epoch_starts_again :
  base_id (next_epoch store {[ store ++ [Normal EPOCH_FILE] := as_bytes "" ]}) = base_id 0.
Proof. by vm_compute. Qed.
End SpillExample.
