(* ===== verification/HostFs.v ===== *)
(** * The file provider ([jinnd-wasm/src/hostfs.rs], [hostfs/ops.rs],
    [hostfs/inverses.rs], [hostfs/wire.rs])

    The operations of [jinn:fs] behind the broker: the reads, the three
    revertible effects in their one order (authorize, answer a recorded key,
    capture the prior, make the inverse durable, mutate, ledger), and what
    consumes an inverse. One operation runs on its own; it may be cut short
    anywhere by a crash. *)

From stdpp Require Import base gmap sets list strings pretty sorting relations.
From S2P Require Import Prelude Api Entries Text Paths Grants Waits Broker Disk Spill.

Record Retained := MkRetained { retained_header : Header; consumed : bool }.

(** The provider: its canonical root, its store, the index by id (in id order)
    and the next id. *)
Record HostFs := MkHostFs { root : Path; store : Path; index : list (Z * Retained); next_id : Z }.

(** What one operation appends to the sink. *)
Abbreviation Rows := (list (LedgerEventKind * option FiberId)).

(** [BTreeMap::insert] of a fresh key above the others, [get], [remove]. *)
Definition retained_at (id : Z) (index : list (Z * Retained)) : option Retained :=
  snd <$> (snd <$> list_find (fun r : Z * Retained => r.1 = id) index).

Definition forget_id (id : Z) (index : list (Z * Retained)) : list (Z * Retained) :=
  filter (fun r : Z * Retained => r.1 <> id) index.

Definition consume_id (id : Z) (index : list (Z * Retained)) : list (Z * Retained) :=
  map (fun r : Z * Retained => if decide (r.1 = id) then (r.1, MkRetained (retained_header r.2) true) else r) index.

Definition with_index (f : list (Z * Retained) -> list (Z * Retained)) (h : HostFs) : HostFs :=
  MkHostFs (root h) (store h) (f (index h)) (next_id h).

(** [fetch_add]: the counter wraps. *)
Definition take_id (h : HostFs) : Z * HostFs :=
  (next_id h, MkHostFs (root h) (store h) (index h) ((next_id h + 1) mod 2 ^ 64)).

(** ** Opening *)

Definition open_hostfs `{Utf8} (root store : Path) (files : gmap Path Bytes) :
    result (HostFs * gmap Path Bytes) KernelError :=
  match open_store store (sweep_staged root files) with
  | Err error => Err error
  | Ok (epoch, spilled, files) =>
      Ok (MkHostFs root store (map (fun r : Z * Header => (r.1, MkRetained r.2 false)) spilled)
            (first_id epoch spilled), files)
  end.

(** ** The index ([inverses.rs]) *)

Definition effect_label (operation path : string) (effect : Z) : string :=
  "fs " +:+ operation +:+ " " +:+ trim_start slash path +:+ " [effect " +:+ pretty effect +:+ "]".

Definition owner_number (owner : option FiberId) : Z :=
  match owner with Some f => fiber_id f | None => 0 end.

Definition recorded (owner : option FiberId) (key : string) (h : HostFs) : option Z :=
  if decide (key = "") then None
  else (fun found => found.2.1) <$>
    list_find (fun r : Z * Retained => Spill.key (retained_header r.2) = key /\
                 header_owner (retained_header r.2) = owner_number owner) (index h).

Definition effects (h : HostFs) : list (Z * string) :=
  map (fun r : Z * Retained => (r.1, label (retained_header r.2)))
    (filter (fun r : Z * Retained => consumed r.2 = false) (index h)).

(** The journal of one entry, in id order. *)
Definition journal (name : string) (h : HostFs) : list (Z * string) :=
  map (fun r : Z * Retained =>
         (r.1, effect_label (operation (retained_header r.2)) (label (retained_header r.2)) r.1))
    (filter (fun r : Z * Retained => consumed r.2 = false /\ header_entry (retained_header r.2) <> "" /\
               header_entry (retained_header r.2) = name) (index h)).

Definition retain (hd : Header) (p : Prior) (h : HostFs) : Io (result Z KernelError * HostFs) :=
  let '(id, h) := take_id h in
  io_bind (persist (store h) id (MkSpillRecord hd p)) (fun spilled =>
    Ret match spilled with
        | Ok _ => (Ok id, with_index (fun ix => ix ++ [(id, MkRetained hd false)]) h)
        | Err refused => (Err refused, h)
        end).

Definition release (id : Z) (h : HostFs) : Io HostFs :=
  io_bind (reclaim_spill (store h) id) (fun _ => Ret (with_index (forget_id id) h)).

Definition no_effect (id : Z) : KernelError := refusal EffectFailed ("no revertible effect " +:+ pretty id).

Definition reclaim (id : Z) (h : HostFs) : Io (result () KernelError * HostFs) :=
  match retained_at id (index h) with
  | None => Ret (Err (no_effect id), h)
  | Some _ =>
      io_bind (reclaim_spill (store h) id) (fun r =>
        Ret match r with Ok _ => (Ok (), with_index (consume_id id) h) | Err error => (Err error, h) end)
  end.

(** ** The effects ([ops.rs]) *)

Definition io_refusal (operation path : string) (e : IoError) : KernelError :=
  refusal (if decide (e = IoNotFound) then NotFound else PluginFailed)
    ("fs " +:+ operation +:+ " " +:+ debug_str path +:+ ": " +:+ io_text e).

(** Who acts, on what: the attribution, the operation, the header, the path. *)
Record Effect := MkEffect {
  by_fiber : option FiberId;
  effect_operation : string;
  effect_header : Header;
  effect_path : string;
}.

Abbreviation Outcome := (result Z KernelError * HostFs * Rows)%type.

Definition not_durable (e : Effect) (refused : KernelError) : KernelError :=
  refusal PluginFailed ("fs " +:+ effect_operation e +:+ " " +:+ debug_str (effect_path e) +:+
    " refused: inverse not durable (" +:+ message refused +:+ ")").

Definition commit_effect (e : Effect) (p : Prior) (mutate : Io (result () IoError)) (h : HostFs) : Io Outcome :=
  io_bind (retain (effect_header e) p h) (fun retained =>
    match retained with
    | (Err refused, h) =>
        let error := not_durable e refused in
        Ret (Err error, h, [(ErrorRecorded error, by_fiber e)])
    | (Ok id, h) =>
        io_bind mutate (fun done =>
          match done with
          | Err refused =>
              io_bind (release id h) (fun h =>
                Ret (Err (io_refusal (effect_operation e) (effect_path e) refused), h, []))
          | Ok _ =>
              Ret (Ok id, h,
                [(EffectRegistered (effect_label (effect_operation e) (effect_path e) id), by_fiber e)])
          end)
    end).

Definition create_parent (file : Path) (next : Io (result () IoError)) : Io (result () IoError) :=
  match parent file with
  | Some dir => attempt (CreateDirs dir) (fun _ => next)
  | None => next
  end.

Definition refused_read (e : Effect) (h : HostFs) (error : IoError) : Io Outcome :=
  Ret (Err (io_refusal (effect_operation e) (effect_path e) error), h, []).

Definition write_effect (e : Effect) (file : Path) (data : Bytes) (h : HostFs) : Io Outcome :=
  let mutate := create_parent file (commit_atomic file data) in
  Do (ReadFile file) (fun r =>
    match r with
    | Ok (Content bytes) => commit_effect e (PriorContent bytes) mutate h
    | Err IoNotFound => commit_effect e PriorAbsent mutate h
    | Ok _ => refused_read e h IoNotFound
    | Err refused => refused_read e h refused
    end).

Definition append_effect (e : Effect) (file : Path) (data : Bytes) (h : HostFs) : Io Outcome :=
  let mutate := create_parent file (Do (ReadFile file) (fun r =>
    match r with
    | Ok (Content bytes) => commit_atomic file (bytes ++ data)
    | Err IoNotFound => commit_atomic file data
    | Ok _ => Ret (Err IoNotFound)
    | Err refused => Ret (Err refused)
    end)) in
  Do (FileLen file) (fun r =>
    match r with
    | Ok (Length n) => commit_effect e (PriorLength n) mutate h
    | Err IoNotFound => commit_effect e PriorAbsent mutate h
    | Ok _ => refused_read e h IoNotFound
    | Err refused => refused_read e h refused
    end).

Definition remove_effect (e : Effect) (file : Path) (h : HostFs) : Io Outcome :=
  Do (ReadFile file) (fun r =>
    match r with
    | Ok (Content bytes) =>
        commit_effect e (PriorContent bytes) (attempt (RemoveFile file) (fun _ => Ret (Ok ()))) h
    | Ok _ => refused_read e h IoNotFound
    | Err refused => refused_read e h refused
    end).

Definition act (e : Effect) (file : Path) (data : Bytes) (h : HostFs) : Io Outcome :=
  if decide (effect_operation e = "write") then write_effect e file data h
  else if decide (effect_operation e = "append") then append_effect e file data h
  else remove_effect e file h.

(** The branch of [dispatch] for an effect whose path is authorized. *)
Definition dispatch_effect (fiber : option FiberId) (name : option string) (operation path key : string)
    (data : Bytes) (file : Path) (h : HostFs) : Io Outcome :=
  match recorded fiber key h with
  | Some id => Ret (Ok id, h, [])
  | None =>
      act (MkEffect fiber operation
             (MkHeader (trim_start slash path) key (owner_number fiber) (default "" name) operation) path)
        file data h
  end.

(** ** Consuming an inverse *)

Section Undo.
Context `{Links, Utf8}.

Definition failed (e : IoError) : KernelError := refusal EffectFailed (io_text e).

Definition answered (r : result Reply IoError) : result () KernelError :=
  match r with Ok _ => Ok () | Err refused => Err (failed refused) end.

Definition apply_inverse (root : Path) (r : SpillRecord) : Io (result () KernelError) :=
  match resolve root (label (header r)) with
  | Err refused => Ret (Err (refused_error refused))
  | Ok file =>
      match prior r with
      | PriorAbsent =>
          Do (RemoveFile file) (fun r =>
            Ret match r with Ok _ | Err IoNotFound => Ok () | Err refused => Err (failed refused) end)
      | PriorContent bytes =>
          let write := Do (OverwriteFile file bytes) (fun r => Ret (answered r)) in
          match parent file with
          | Some dir =>
              Do (CreateDirs dir) (fun r => match r with Ok _ => write | Err refused => Ret (Err (failed refused)) end)
          | None => write
          end
      | PriorLength n => Do (SetLen file n) (fun r => Ret (answered r))
      end
  end.

Definition withdraw_effect (id : Z) (h : HostFs) : Io (result () KernelError * HostFs) :=
  match retained_at id (index h) with
  | None => Ret (Err (no_effect id), h)
  | Some r =>
      if consumed r then Ret (Ok (), h)
      else
        io_bind (load (store h) id) (fun loaded =>
          match loaded with
          | Err error => Ret (Err error, h)
          | Ok record =>
              io_bind (apply_inverse (root h) record) (fun applied =>
                match applied with
                | Err error => Ret (Err error, h)
                | Ok _ => reclaim id h
                end)
          end)
  end.
End Undo.

(** ** No crash loses an inverse *)

Lemma parent_child dir name : parent (dir ++ [Normal name]) = Some dir.
Proof. unfold parent. rewrite reverse_app. simpl. by rewrite reverse_involutive. Qed.

Lemma parent_staged p dir : parent p = Some dir -> parent (staged_beside p) = Some dir.
Proof. intros Hp. unfold staged_beside, with_file_name. rewrite Hp. apply parent_child. Qed.

Section Effects.
Context (may_fail : FsOp -> Prop) (h : HostFs) (e : Effect) (file dir : Path) (old : option Bytes) (p : Prior).
Hypothesis file_in_dir : parent file = Some dir.
(** Guests never reach the store. *)
Hypothesis store_apart : dir <> store h.
(** A failed sync of the file's own directory is answered as if nothing had
    been renamed. *)
Hypothesis dir_syncs : ~ may_fail (SyncDir dir).
Hypothesis id_fresh : Forall (fun r => r.1 <> next_id h) (index h).

Abbreviation spill := (spill_path (store h) (next_id h)).
Abbreviation inverse := (encode_record (MkSpillRecord (effect_header e) p)).

Lemma parent_spill : parent spill = Some (store h).
Proof. apply parent_child. Qed.

Lemma paths_differ a b da db : parent a = Some da -> parent b = Some db -> da <> db -> a <> b.
Proof. intros Ha Hb Hne ->. congruence. Qed.

(** The file still holds its prior, or the inverse that restores it does. *)
Definition recoverable (new : option Bytes) (d : Disk) : Prop :=
  settled d file old \/ (settled d spill (Some inverse) /\ between d file old new).

(** What an effect's mutation has to keep. *)
Definition moved (new : option Bytes) (r : result () IoError) (d : Disk) : Prop :=
  settled d spill (Some inverse) /\
  match r with
  | Ok _ => between d file old new /\ cache d !! file = new
  | Err _ => settled d file old
  end.

Definition mutates (new : option Bytes) (m : Io (result () IoError)) : Prop :=
  forall d, settled d file old -> settled d spill (Some inverse) -> wp may_fail (recoverable new) (moved new) m d.

(** What an effect answers, and what its answer stands for. *)
Definition landed (new : option Bytes) (o : Outcome) (d : Disk) : Prop :=
  root o.1.2 = root h /\ store o.1.2 = store h /\
  match o.1.1 with
  | Ok id =>
      id = next_id h /\ settled d spill (Some inverse) /\ between d file old new /\ cache d !! file = new /\
      index o.1.2 = index h ++ [(id, MkRetained (effect_header e) false)] /\
      o.2 = [(EffectRegistered (effect_label (effect_operation e) (effect_path e) id), by_fiber e)]
  | Err _ => settled d file old /\ index o.1.2 = index h
  end.

Lemma retain_wp d (new : option Bytes) :
  settled d file old -> settled d spill None ->
  wp may_fail (recoverable new)
    (fun r d' => settled d' file old /\
      match r.1 with
      | Ok id => id = next_id h /\ settled d' spill (Some inverse)
      | Err _ => True
      end /\ root r.2 = root h /\ store r.2 = store h /\
      index r.2 = match r.1 with Ok id => index h ++ [(id, MkRetained (effect_header e) false)] | Err _ => index h end)
    (retain (effect_header e) p h) d.
Proof.
  intros Hf Hs. unfold retain, take_id, persist. cbn [store]. apply wp_bind, wp_bind.
  assert (spill <> file /\ staged_beside spill <> file) as [Hne1 Hne2].
  { split; eapply paths_differ; try done; try apply parent_spill; apply parent_staged, parent_spill. }
  assert (Disk.apart spill d d) as Hap by (intros q v w _ _; done).
  eapply wp_mono; [| |apply (commit_atomic_wp may_fail spill (store h) inverse None d parent_spill d Hs Hap)].
  - intros d' [_ Hap']. left. by apply Hap'.
  - intros [[]|error] d' [Hap' Hr].
    + assert (settled d' file old) as Hf' by by apply Hap'.
      apply wp_ret; [by left|]. apply wp_ret; [by left|]. simpl. done.
    + assert (settled d' file old) as Hf' by by apply Hap'.
      apply wp_ret; [by left|]. apply wp_ret; [by left|]. simpl. done.
Qed.


Lemma file_ne_spill : file <> spill.
Proof. eapply paths_differ; [done|apply parent_spill|done]. Qed.

(** An operation that touches neither the file nor the inverse. *)
Lemma wp_quiet {A} op (next : result Reply IoError -> Io A) new post d :
  touches op = [] -> settled d file old -> settled d spill (Some inverse) ->
  (forall r d', settled d' file old -> settled d' spill (Some inverse) ->
    (forall reply, r = Ok reply -> perform op d = (Ok reply, d')) -> wp may_fail (recoverable new) post (next r) d') ->
  wp may_fail (recoverable new) post (Do op next) d.
Proof.
  intros Hq Hf Hs Hn. split; [by left|]. intros r d' Hstep.
  assert (forall q, kept d d' q) as Hk by (intros q; eapply step_kept; [done|]; rewrite Hq; apply not_elem_of_nil).
  apply Hn; [by eapply kept_settled..|]. intros reply ->. by eapply step_Ok.
Qed.

Lemma mutates_after_parents new m : mutates new m -> mutates new (create_parent file m).
Proof.
  intros Hm d Hf Hs. unfold create_parent. rewrite file_in_dir. apply wp_quiet; [done..|].
  intros [reply|error] d' Hf' Hs' _; [by apply Hm|]. apply wp_ret; [by left|done].
Qed.

Lemma commit_mutates bytes : mutates (Some bytes) (commit_atomic file bytes).
Proof.
  intros d Hf Hs. assert (Disk.apart file d d) as Hap by (intros q v w _ _; done).
  assert (spill <> file /\ spill <> staged_beside file) as [Hne1 Hne2].
  { split; [by apply not_eq_sym, file_ne_spill|]. eapply paths_differ; [apply parent_spill|by apply parent_staged|done]. }
  assert (forall d', Disk.apart file d d' -> settled d' spill (Some inverse)) as Hkeep.
  { intros d' Hap'. eapply (proj1 (Hap' _ _ None Hne1 Hne2)); exact Hs. }
  eapply wp_mono; [| |apply (commit_atomic_wp may_fail file dir bytes old d file_in_dir d Hf Hap)].
  - intros d' [Hb Hap']. right. split; [by apply Hkeep|done].
  - intros [[]|error] d' [Hap' Hr]; (split; [by apply Hkeep|]).
    + split; [by apply settled_between_r|apply Hr].
    + by destruct Hr as [?|[? _]].
Qed.

Lemma append_mutates data :
  mutates (Some (default [] old ++ data)) (Do (ReadFile file) (fun r =>
    match r with
    | Ok (Content bytes) => commit_atomic file (bytes ++ data)
    | Err IoNotFound => commit_atomic file data
    | Ok _ => Ret (Err IoNotFound)
    | Err refused => Ret (Err refused)
    end)).
Proof.
  intros d Hf Hs. split; [by left|]. intros r d' Hstep.
  assert (kept d d' file /\ kept d d' spill) as [Hk1 Hk2] by (split; (eapply step_kept; [done|apply not_elem_of_nil])).
  assert (settled d' file old /\ settled d' spill (Some inverse)) as [Hf' Hs'] by (split; by eapply kept_settled).
  destruct Hf as (_ & Hc & _). inversion Hstep as [Hr Hd|text Hfail Hr Hd| |]; subst; [| |done..].
  - simpl. rewrite Hc. clear Hc Hk1 Hk2 Hstep. generalize (commit_mutates (default [] old ++ data) d). unfold moved, recoverable. destruct old as [bytes|]; intros Hm; by apply Hm.
  - apply wp_ret; [by left|done].
Qed.

Lemma remove_mutates : mutates None (attempt (RemoveFile file) (fun _ => Ret (Ok ()))).
Proof.
  intros d Hf Hs. split; [by left|]. intros r d' Hstep.
  assert (settled d' spill (Some inverse)) as Hs'.
  { eapply kept_settled; [|done]. eapply step_kept; [done|]. intros Heq%list_elem_of_singleton. by apply file_ne_spill. }
  destruct r as [reply|error].
  - eapply step_Ok in Hstep. simpl in Hstep. destruct Hf as (Hd & Hc & Hst).
    assert (between d' file old None /\ cache d' !! file = None) as [Hb Hn].
    { destruct (cache d !! file); [injection Hstep as _ <-|done]. simpl. rewrite lookup_delete_eq.
      split; [|done]. split_and!; simpl; [set_solver|right; apply lookup_delete_eq|by left]. }
    apply wp_ret; [by right|done].
  - assert (settled d' file old) as Hf' by (eapply kept_settled; [|done]; eapply step_Err; [done|by left|by left]).
    apply wp_ret; [by left|done].
Qed.

Lemma forget_fresh (l : list (Z * Retained)) r :
  Forall (fun r => r.1 <> next_id h) l -> forget_id (next_id h) (l ++ [(next_id h, r)]) = l.
Proof.
  intros Hl. unfold forget_id. rewrite filter_app, filter_cons_False by (simpl; tauto).
  rewrite (app_nil_r (A := Z * Retained)). induction Hl as [|x l Hx _ IH]; [done|]. by rewrite filter_cons_True, IH.
Qed.

(** Dropping the inverse of an effect that did not happen. *)
Lemma release_wp new h' d (post : HostFs -> Disk -> Prop) :
  store h' = store h -> settled d file old ->
  (forall d', settled d' file old -> post (with_index (forget_id (next_id h)) h') d') ->
  wp may_fail (recoverable new) post (release (next_id h) h') d.
Proof.
  intros Hst Hf Hp. unfold release, reclaim_spill. rewrite Hst. apply wp_bind. split; [by left|]. intros r d' Hstep.
  assert (settled d' file old) as Hf'.
  { eapply kept_settled; [|done]. eapply step_kept; [done|]. intros Heq%list_elem_of_singleton. by apply file_ne_spill. }
  apply wp_ret; [by left|]. apply wp_ret; [by left|]. by apply Hp.
Qed.

Lemma commit_effect_wp new mutate d :
  mutates new mutate -> settled d file old -> settled d spill None ->
  wp may_fail (recoverable new) (landed new) (commit_effect e p mutate h) d.
Proof.
  intros Hm Hf Hs. unfold commit_effect. apply wp_bind.
  eapply wp_mono; [done| |by apply (retain_wp _ new)].
  intros [[id|error] h'] d1 (Hf1 & Hid & Hroot & Hst & Hix); simpl in Hid, Hroot, Hst, Hix.
  - destruct Hid as [-> Hs1]. apply wp_bind. eapply wp_mono; [done| |by apply Hm].
    intros [[]|error] d2 [Hs2 Hr].
    + apply wp_ret; [right; split; [done|apply Hr]|]. unfold landed. simpl. by destruct Hr.
    + apply wp_bind. apply release_wp; [done..|]. intros d3 Hf3. apply wp_ret; [by left|].
      unfold landed. simpl. split_and!; [done..|]. rewrite Hix. by apply forget_fresh.
  - apply wp_ret; [by left|]. done.
Qed.

Lemma refused_read_wp new d error : settled d file old ->
  wp may_fail (recoverable new) (landed new) (refused_read e h error) d.
Proof. intros Hf. apply wp_ret; [by left|done]. Qed.
End Effects.

(** What an effect captures, and what it means to leave. *)
Definition captured (operation : string) (old : option Bytes) : Prior :=
  match old with
  | None => PriorAbsent
  | Some bytes => if decide (operation = "append") then PriorLength (Z.of_nat (length bytes)) else PriorContent bytes
  end.

Definition intended (operation : string) (data : Bytes) (old : option Bytes) : option Bytes :=
  if decide (operation = "write") then Some data
  else if decide (operation = "append") then Some (default [] old ++ data) else None.

Lemma step_read may_fail file op d r d' :
  (op = ReadFile file \/ op = FileLen file) -> op_step may_fail d op r d' ->
  d' = d /\ (r = (perform op d).1 \/ exists text, r = Err (IoOther text)).
Proof. by intros [->| ->]; inversion 1; subst; eauto. Qed.

Lemma effect_wp may_fail h e file dir old data d :
  parent file = Some dir -> dir <> store h -> ~ may_fail (SyncDir dir) ->
  Forall (fun r => r.1 <> next_id h) (index h) ->
  settled d file old -> settled d (spill_path (store h) (next_id h)) None ->
  let operation := effect_operation e in
  wp may_fail (recoverable h e file old (captured operation old) (intended operation data old))
    (landed h e file old (captured operation old) (intended operation data old)) (act e file data h) d.
Proof.
  intros Hdir Hap Hsync Hfresh Hf Hs operation. unfold act, write_effect, append_effect, remove_effect. subst operation.
  unfold captured, intended. pose proof (proj1 (proj2 Hf)) as Hc.
  assert (forall safe post op (next : result Reply IoError -> Io Outcome),
    (op = ReadFile file \/ op = FileLen file) -> safe d ->
    wp may_fail safe post (next (perform op d).1) d ->
    (forall text, wp may_fail safe post (next (Err (IoOther text))) d) ->
    wp may_fail safe post (Do op next) d) as Hread.
  { intros safe post op next Hop Hsafe Hn He. split; [done|]. intros r d' Hstep.
    by destruct (step_read _ _ _ _ _ _ Hop Hstep) as [-> [->|[text ->]]]. }
  repeat case_decide; try congruence; apply Hread; auto; try (by left); simpl; rewrite ?Hc;
    try (intros text; by apply refused_read_wp);
    destruct old as [bytes|]; try (by apply refused_read_wp);
    eapply commit_effect_wp; eauto;
    try (apply mutates_after_parents with dir; [done..|]).
  all: try by eapply commit_mutates.
  all: try by eapply append_mutates.
  by eapply remove_mutates.
Qed.

(** The record an effect spills. *)
Definition effect_of (fiber : option FiberId) (name : option string) (operation path key : string) : Effect :=
  MkEffect fiber operation
    (MkHeader (trim_start slash path) key (owner_number fiber) (default "" name) operation) path.

Definition spilled_by (e : Effect) (old : option Bytes) : SpillRecord :=
  MkSpillRecord (effect_header e) (captured (effect_operation e) old).

Lemma recorded_snoc fiber h h' id hd :
  recorded fiber (Spill.key hd) h = None -> Spill.key hd <> "" -> header_owner hd = owner_number fiber ->
  index h' = index h ++ [(id, MkRetained hd false)] -> recorded fiber (Spill.key hd) h' = Some id.
Proof.
  unfold recorded. intros Hn Hk Ho Hix. rewrite decide_False in * by done. rewrite Hix.
  apply fmap_None in Hn. rewrite list_find_app_r by done. simpl. by rewrite decide_True.
Qed.

(** C16: No crash loses an inverse, as long as no sync of the directory of the
    file fails. The effect is a new one (its key answers nothing yet, its id is
    fresh), and the file, outside the directory of the store, and the place of
    the spilled inverse are settled on the disk when it starts. Then wherever
    the process dies, and whatever else fails, the file is left with its prior content, or with
    what the effect intended and the inverse on stable storage. An effect that
    answered its id did what it intended, left its inverse durable and its
    registration on the ledger, and its key answers that id from now on without
    touching a file; one that was refused left the file as it was
    and retained nothing. A failed sync of the directory is excluded because the
    code then drops the inverse of what happened
    ([a_failed_sync_drops_the_inverse_of_what_happened]). *)
Theorem no_crash_loses_an_inverse may_fail h fiber name operation path key file dir old data d m d' left_over :
  parent file = Some dir -> dir <> store h -> ~ may_fail (SyncDir dir) ->
  Forall (fun r => r.1 <> next_id h) (index h) -> recorded fiber key h = None ->
  settled d file old -> settled d (spill_path (store h) (next_id h)) None ->
  rtc (io_step may_fail) (dispatch_effect fiber name operation path key data file h, d) (m, d') ->
  crash d' left_over ->
  let e := effect_of fiber name operation path key in
  let kept := left_over !! spill_path (store h) (next_id h) = Some (encode_record (spilled_by e old)) in
  let new := intended operation data old in
  (left_over !! file = old \/ (left_over !! file = new /\ kept)) /\
  forall answer h' rows, m = Ret (answer, h', rows) ->
    match answer with
    | Ok id => id = next_id h /\ cache d' !! file = new /\ kept /\
        index h' = index h ++ [(id, MkRetained (effect_header e) false)] /\
        rows = [(EffectRegistered (effect_label operation path id), fiber)] /\
        (key <> "" -> forall name operation path data file,
          dispatch_effect fiber name operation path key data file h' = Ret (Ok id, h', []))
    | Err _ => cache d' !! file = old /\ left_over !! file = old /\ index h' = index h
    end.
Proof.
  intros Hdir Hap Hsync Hfresh Hrec Hf Hs Hr Hc e kept new. unfold dispatch_effect in Hr. rewrite Hrec in Hr.
  pose proof (effect_wp may_fail h e file dir old data d Hdir Hap Hsync Hfresh Hf Hs) as Hwp.
  destruct (wp_sound _ _ _ _ _ _ _ Hwp Hr) as [Hsafe Hpost]. split.
  - destruct Hsafe as [Hold|[Hin Hb]]; [left; by eapply settled_crash|].
    destruct (between_crash _ _ _ _ _ Hb Hc) as [?|?]; [by left|right]. split; [done|]. by eapply settled_crash.
  - intros answer h' rows ->. specialize (Hpost _ eq_refl). unfold landed in Hpost. simpl in Hpost.
    destruct Hpost as (_ & _ & Hpost). destruct answer as [id|error].
    + destruct Hpost as (Hid & Hin & _ & Hnew & Hix & Hrows).
      split_and!; try done; [by eapply settled_crash|].
      assert (key <> "" -> recorded fiber key h' = Some id) as Hkey by (intros; by apply (recorded_snoc fiber h h' id (effect_header e))).
      intros ??????. unfold dispatch_effect. by rewrite Hkey.
    + destruct Hpost as [Hold Hix]. split_and!; [apply Hold|by eapply settled_crash|done].
Qed.

(** ** Withdrawing restores the prior *)

Section Withdrawal.
Context `{Links, U : Utf8, !Utf8Laws U} (may_fail : FsOp -> Prop).
Context (h : HostFs) (id : Z) (e : Effect) (file dir : Path) (old : option Bytes) (data : Bytes).
Hypothesis file_in_dir : parent file = Some dir.
Hypothesis store_apart : dir <> store h.
Hypothesis header_fits : header_ok (effect_header e).
Hypothesis length_fits : prior_ok (captured (effect_operation e) old).
Hypothesis label_resolves : resolve (root h) (label (effect_header e)) = Ok file.
Hypothesis is_retained : retained_at id (index h) = Some (MkRetained (effect_header e) false).

Abbreviation kept_spill := (spill_path (store h) id).
Abbreviation record := (spilled_by e old).

(** The inverse is still durable, or the file is restored. *)
Definition restorable (d : Disk) : Prop :=
  settled d kept_spill (Some (encode_record record)) \/ cache d !! file = old.

(** What running the inverse answers. *)
Definition restored (r : result () KernelError) (d : Disk) : Prop :=
  settled d kept_spill (Some (encode_record record)) /\
  match r with Ok _ => cache d !! file = old | Err _ => True end.

Lemma file_ne_kept : file <> kept_spill.
Proof. eapply paths_differ; [done|apply parent_child|done]. Qed.

Lemma wp_restore (op : FsOp) (next : result Reply IoError -> Io (result () KernelError)) d :
  settled d kept_spill (Some (encode_record record)) ->
  (forall q, q ∈ touches op -> q = file) ->
  (forall r d', op_step may_fail d op r d' -> settled d' kept_spill (Some (encode_record record)) ->
    wp may_fail restorable restored (next r) d') ->
  wp may_fail restorable restored (Do op next) d.
Proof.
  intros Hs Ht Hn. split; [by left|]. intros r d' Hstep. apply Hn; [done|].
  eapply kept_settled; [|done]. eapply step_kept; [done|]. intros Hin. by apply file_ne_kept; rewrite (Ht _ Hin).
Qed.

Lemma set_len_back (bytes more : Bytes) : set_len (Z.of_nat (length bytes)) (bytes ++ more) = bytes.
Proof.
  unfold set_len. rewrite Nat2Z.id, take_app_length, length_app.
  by replace (length bytes - (length bytes + length more)) with 0 by lia; rewrite app_nil_r.
Qed.

Lemma last_restore (op : FsOp) (answer : result Reply IoError -> result () KernelError) d :
  settled d kept_spill (Some (encode_record record)) ->
  (forall q, q ∈ touches op -> q = file) ->
  (forall r d', op_step may_fail d op r d' -> answer r = Ok () -> cache d' !! file = old) ->
  wp may_fail restorable restored (Do op (fun r => Ret (answer r))) d.
Proof.
  intros Hs Ht Ha. apply wp_restore; [done..|]. intros r d' Hstep Hs'. apply wp_ret; [by left|].
  split; [done|]. destruct (answer r) as [[]|] eqn:Hr; eauto.
Qed.

Lemma apply_inverse_wp d :
  settled d kept_spill (Some (encode_record record)) ->
  cache d !! file = intended (effect_operation e) data old ->
  wp may_fail restorable restored (apply_inverse (root h) record) d.
Proof.
  intros Hs Hf. unfold apply_inverse. simpl. rewrite label_resolves. unfold captured.
  destruct old as [bytes|] eqn:Hold; rewrite <-Hold in Hs; [case_decide as Happ|].
  - apply last_restore; [done|set_solver|]. intros [reply|error] d' Hstep Hok; [|done].
    eapply step_Ok in Hstep. simpl in Hstep. rewrite Hf in Hstep. unfold intended in Hstep. rewrite Happ in Hstep.
    simpl in Hstep. injection Hstep as _ <-. simpl. by rewrite lookup_insert_eq, set_len_back, Hold.
  - rewrite file_in_dir. apply wp_restore; [done|set_solver|]. intros [reply|error] d' Hstep Hs'.
    2: { apply wp_ret; [by left|done]. }
    apply last_restore; [done|set_solver|]. intros [reply'|error] d2 Hstep' Hok; [|done].
    eapply step_Ok in Hstep'. simpl in Hstep'. injection Hstep' as _ <-. simpl. by rewrite lookup_insert_eq, Hold.
  - apply last_restore; [done|set_solver|]. intros r d' Hstep Hok. rewrite Hold.
    inversion Hstep as [Hr Hd|text Hfail Hr Hd| |]; subst; [|done|done|done].
    simpl in *. destruct (cache d !! file) eqn:Hcf; simpl; [by rewrite lookup_delete_eq|done].
Qed.

(** What a withdrawal answers: the prior is back and the inverse spent, or it
    can be asked for again. *)
Definition withdrawn (o : result () KernelError * HostFs) (d : Disk) : Prop :=
  match o.1 with
  | Ok _ => cache d !! file = old /\ cache d !! kept_spill = None /\ o.2 = with_index (consume_id id) h
  | Err _ => settled d kept_spill (Some (encode_record record)) /\ o.2 = h
  end.

Lemma reclaim_wp d :
  settled d kept_spill (Some (encode_record record)) -> cache d !! file = old ->
  wp may_fail restorable withdrawn (reclaim id h) d.
Proof.
  intros Hs Hf. unfold reclaim, reclaim_spill. rewrite is_retained. simpl. split; [by left|]. intros r d' Hstep.
  assert (cache d' !! file = old) as Hf'.
  { pose proof file_ne_kept as Hne. inversion Hstep as [Hr Hd|text Hfail Hr Hd| |]; subst; try done.
    simpl. destruct (cache d !! kept_spill); simpl; [|done].
    rewrite lookup_delete_ne by done. done. }
  destruct Hs as (Hdirty & Hc & Hst). inversion Hstep as [Hr Hd|text Hfail Hr Hd| |]; subst; try done.
  - assert (perform (RemoveFile kept_spill) d =
      (Ok Done, MkDisk (delete kept_spill (cache d)) (stable d) (dirty d ∖ {[kept_spill]}))) as Hop by (simpl; by rewrite Hc).
    rewrite Hop in *. apply (wp_ret may_fail); [exact (or_intror Hf')|]. split; [exact Hf'|].
    split; [|done]. apply lookup_delete_eq.
  - simpl. apply (wp_ret may_fail); [exact (or_intror Hf')|]. done.
Qed.

Lemma withdraw_wp d :
  settled d kept_spill (Some (encode_record record)) ->
  cache d !! file = intended (effect_operation e) data old ->
  wp may_fail restorable withdrawn (withdraw_effect id h) d.
Proof.
  intros Hs Hf. unfold withdraw_effect. rewrite is_retained. simpl. split; [by left|]. intros r d' Hstep.
  assert (d' = d) as -> by (inversion Hstep; subst; done).
  inversion Hstep as [Hr Hd|text Hfail Hr Hd| |]; subst; try done.
  2: { simpl. by apply (wp_ret may_fail); [left|]. }
  simpl. rewrite (proj1 (proj2 Hs)), decode_encode_record by done.
  apply wp_bind. eapply wp_mono; [done| |by apply apply_inverse_wp].
  intros [[]|error] d2 [Hs2 Hr2].
  - by apply reclaim_wp.
  - by apply (wp_ret may_fail); [left|].
Qed.
End Withdrawal.

Lemma consume_snoc (l : list (Z * Retained)) id r :
  Forall (fun x => x.1 <> id) l -> consume_id id (l ++ [(id, r)]) = l ++ [(id, MkRetained (retained_header r) true)].
Proof.
  intros Hl. unfold consume_id. rewrite map_app. simpl. rewrite decide_True by done. f_equal.
  induction Hl as [|x l Hx _ IH]; [done|]. simpl. by rewrite decide_False, IH.
Qed.

Lemma retained_snoc (l : list (Z * Retained)) id r :
  Forall (fun x => x.1 <> id) l -> retained_at id (l ++ [(id, r)]) = Some r.
Proof.
  intros Hl. unfold retained_at. rewrite list_find_app_r.
  - simpl. by rewrite decide_True.
  - apply list_find_None. by eapply Forall_impl; [exact Hl|].
Qed.

(** C17: A withdrawn effect leaves no trace. When an effect answered its id and
    nobody touched its file since, a withdrawal that answers success has put
    the prior content, absence or length back, spent the inverse and taken the
    effect off the live list; one that fails keeps the inverse durable and the
    index as it was, so that it can be asked for again; and at every point in
    between the inverse is still durable or the file restored. *)
Theorem a_withdrawn_effect_leaves_no_trace `{Links, U : Utf8, !Utf8Laws U} may_fail
    h fiber name operation path key file dir old data d id h1 rows d1 m d2 :
  let e := effect_of fiber name operation path key in
  parent file = Some dir -> dir <> store h -> ~ may_fail (SyncDir dir) ->
  Forall (fun r => r.1 <> next_id h) (index h) -> recorded fiber key h = None ->
  settled d file old -> settled d (spill_path (store h) (next_id h)) None ->
  header_ok (effect_header e) -> prior_ok (captured operation old) ->
  resolve (root h) (label (effect_header e)) = Ok file ->
  rtc (io_step may_fail) (dispatch_effect fiber name operation path key data file h, d) (Ret (Ok id, h1, rows), d1) ->
  rtc (io_step may_fail) (withdraw_effect id h1, d1) (m, d2) ->
  let durable := settled d2 (spill_path (store h) id) (Some (encode_record (spilled_by e old))) in
  (durable \/ cache d2 !! file = old) /\
  forall answer h2, m = Ret (answer, h2) ->
    match answer with
    | Ok _ => cache d2 !! file = old /\ cache d2 !! spill_path (store h) id = None /\ effects h2 = effects h
    | Err _ => durable /\ h2 = h1
    end.
Proof.
  intros e Hdir Hap Hsync Hfresh Hrec Hf Hs Hh Hp Hres Hr Hw durable.
  unfold dispatch_effect in Hr. rewrite Hrec in Hr.
  pose proof (effect_wp may_fail h e file dir old data d Hdir Hap Hsync Hfresh Hf Hs) as Hwp.
  destruct (wp_sound _ _ _ _ _ _ _ Hwp Hr) as [_ Hpost].
  destruct (Hpost _ eq_refl) as (Hroot & Hstore & -> & Hin & _ & Hnew & Hix & _). simpl in Hroot, Hstore, Hix.
  rewrite <-Hstore in Hap, Hin. rewrite <-Hroot in Hres.
  assert (retained_at (next_id h) (index h1) = Some (MkRetained (effect_header e) false)) as Hret
    by (rewrite Hix; by apply retained_snoc).
  pose proof (withdraw_wp may_fail h1 (next_id h) e file dir old data Hdir Hap Hh Hp Hres Hret d1 Hin Hnew) as Hwd.
  destruct (wp_sound _ _ _ _ _ _ _ Hwd Hw) as [Hsafe Hend]. subst durable. rewrite <-Hstore. split; [done|].
  intros answer h2 ->. specialize (Hend _ eq_refl). unfold withdrawn in Hend. simpl in Hend.
  destruct answer as [[]|error]; [|done]. destruct Hend as (Hold & Hgone & ->). split_and!; [done..|].
  unfold effects, with_index. simpl. rewrite Hix, consume_snoc, filter_app, filter_cons_False by done.
  by rewrite filter_nil, (app_nil_r (A := Z * Retained)).
Qed.

(** ** Examples *)

Module HostFsExample.
Import DiskExample SpillExample.

(** No links anywhere. *)
#[export] Instance plain : Links := fun p => Ok p.

Definition data : Path := [RootDir; Normal "data"].
Definition notes : Path := data ++ [Normal "notes.txt"].
Definition provider : HostFs := MkHostFs data SpillExample.store [] block.
Definition before : Disk := rebooted {[ notes := [1; 2]%Z ]}.
Definition well (op : FsOp) : Prop := False.

Definition write_notes (h : HostFs) : Io Outcome :=
  dispatch_effect (Some (MkFiberId 3)) (Some "app") "write" "/notes.txt" "k" [7]%Z notes h.

Definition the_effect : Effect := effect_of (Some (MkFiberId 3)) (Some "app") "write" "/notes.txt" "k".

Definition after : Disk := (run_well (write_notes provider) before).2.
Definition holding : HostFs := (run_well (write_notes provider) before).1.1.2.

Lemma no_crash_loses_an_inverse_witness :
  (run_well (write_notes provider) before).1.1.1 = Ok block /\
  forall left_over, crash after left_over ->
    left_over !! spill_path SpillExample.store block = Some (encode_record (spilled_by the_effect (Some [1; 2]%Z))).
Proof.
  split; [by vm_compute|]. intros left_over Hc.
  assert ((run_well (write_notes provider) before).1 = (Ok block, holding,
    [(EffectRegistered (effect_label "write" "/notes.txt" block), Some (MkFiberId 3))])) as Hres by by vm_compute.
  assert (data <> HostFs.store provider) as Hap by (intros Heq; by vm_compute in Heq).
  assert (settled before notes (Some [1; 2]%Z)) as Hf
    by (split_and!; [apply not_elem_of_empty|by vm_compute|by vm_compute]).
  assert (settled before (spill_path (HostFs.store provider) (next_id provider)) None) as Hs
    by (split_and!; [apply not_elem_of_empty|by vm_compute|by vm_compute]).
  assert (recorded (Some (MkFiberId 3)) "k" provider = None) as Hrec by reflexivity.
  assert (parent notes = Some data) as Hdir by reflexivity.
  assert (~ well (SyncDir data)) as Hsync by exact (fun x => x).
  pose proof (run_well_steps well (write_notes provider) before) as Hrun.
  pose proof (no_crash_loses_an_inverse well provider (Some (MkFiberId 3)) (Some "app"%string) "write" "/notes.txt" "k"
    notes data (Some [1; 2]%Z) [7]%Z before _ _ left_over Hdir Hap Hsync (Forall_nil_2 _) Hrec Hf Hs Hrun Hc) as [_ H].
  rewrite Hres in H. destruct (H _ _ _ eq_refl) as (_ & _ & Hk & _). exact Hk.
Defined.

Lemma a_withdrawn_effect_leaves_no_trace_witness :
  (run_well (withdraw_effect block holding) after).1.1 = Ok () /\
  cache (run_well (withdraw_effect block holding) after).2 !! notes = Some [1; 2]%Z.
Proof.
  split; [by vm_compute|].
  assert ((run_well (write_notes provider) before).1 = (Ok block, holding,
    [(EffectRegistered (effect_label "write" "/notes.txt" block), Some (MkFiberId 3))])) as Hres by by vm_compute.
  assert (data <> HostFs.store provider) as Hap by (intros Heq; by vm_compute in Heq).
  assert (settled before notes (Some [1; 2]%Z)) as Hf
    by (split_and!; [apply not_elem_of_empty|by vm_compute|by vm_compute]).
  assert (settled before (spill_path (HostFs.store provider) (next_id provider)) None) as Hs
    by (split_and!; [apply not_elem_of_empty|by vm_compute|by vm_compute]).
  assert (recorded (Some (MkFiberId 3)) "k" provider = None) as Hrec by reflexivity.
  assert (parent notes = Some data) as Hdir by reflexivity.
  assert (~ well (SyncDir data)) as Hsync by exact (fun x => x).
  assert (header_ok (effect_header the_effect)) as Hh
    by (split; vm_compute; try reflexivity; split; [intros [=]|reflexivity]).
  assert (resolve (root provider) (label (effect_header the_effect)) = Ok notes) as Hl by by vm_compute.
  pose proof (run_well_steps well (write_notes provider) before) as Hrun. rewrite Hres in Hrun.
  pose proof (run_well_steps well (withdraw_effect block holding) after) as Hwithdraw.
  pose proof (a_withdrawn_effect_leaves_no_trace well provider (Some (MkFiberId 3)) (Some "app"%string) "write" "/notes.txt"
    "k" notes data (Some [1; 2]%Z) [7]%Z before block holding _ after _ _ Hdir Hap Hsync (Forall_nil_2 _) Hrec Hf Hs Hh I
    Hl Hrun Hwithdraw) as [_ H].
  assert ((run_well (withdraw_effect block holding) after).1 =
    (Ok (), (run_well (withdraw_effect block holding) after).1.2)) as Hout by by vm_compute.
  rewrite Hout in H. exact (proj1 (H _ _ eq_refl)).
Defined.

(** A sync of the directory that fails after the rename: the effect is refused
    and its inverse dropped, with the new content in place and nothing left
    that restores the old one. *)
Example a_failed_sync_drops_the_inverse_of_what_happened :
  exists h d, rtc (io_step (fun op => op = SyncDir data)) (write_notes provider, before)
      (Ret (Err (io_refusal "write" "/notes.txt" (IoOther "sync")), h, []), d) /\
    cache d !! notes = Some [7]%Z /\ index h = [] /\ cache d !! spill_path SpillExample.store block = None.
Proof.
  eexists _, _. split.
  - (* read, then the five operations of the spill, the parent, four of the commit *)
    do 11 (eapply rtc_l; [constructor; apply performs|]).
    eapply rtc_l; [constructor; by apply (fails _ _ _ "sync")|].
    do 2 (eapply rtc_l; [constructor; apply performs|]). apply rtc_refl.
  - split_and!; by vm_compute.
Qed.

(** The content a withdrawal writes back is not synced before its inverse is
    removed: a crash after the answer can lose both. *)
Example a_crash_after_a_withdrawal_loses_the_prior :
  exists left_over, crash (run_well (withdraw_effect block holding) after).2 left_over /\
    left_over !! notes = None /\ left_over !! spill_path SpillExample.store block = None.
Proof.
  set (d := (run_well (withdraw_effect block holding) after).2).
  exists (delete notes (cache d)). split_and!; [|apply lookup_delete_eq|by vm_compute].
  intros p. destruct (decide (p = notes)) as [->|Hne]; [left|right; right; by apply lookup_delete_ne].
  assert (bool_decide (notes ∈ dirty d) = true) as Hd by by vm_compute. by apply bool_decide_eq_true in Hd.
Qed.

(** Fibers are numbered from one again in every process, and a key is looked up
    under the fiber's number alone: after a restart another plugin's effect is
    answered from the record of one it never made. *)
Example a_restart_answers_another_plugins_effect :
  exists h files, open_hostfs data SpillExample.store
      (<[SpillExample.store ++ [Normal EPOCH_FILE] := as_bytes "4"]> (cache after)) = Ok (h, files) /\
    header_entry (retained_header (default (MkRetained (effect_header the_effect) true) (retained_at block (index h)))) = "app" /\
    forall path bytes file, dispatch_effect (Some (MkFiberId 3)) (Some "other") "write" path "k" bytes file h = Ret (Ok block, h, []).
Proof.
  assert (match open_hostfs data SpillExample.store (<[SpillExample.store ++ [Normal EPOCH_FILE] := as_bytes "4"]> (cache after)) with
          | Ok (h, _) => index h = [(block, MkRetained (effect_header the_effect) false)]
          | Err _ => False end) as H by by vm_compute.
  destruct (open_hostfs _ _ _) as [[h files]|]; [|done]. exists h, files. split; [done|].
  split; [by rewrite H|]. intros path bytes file. unfold dispatch_effect, recorded. by rewrite H.
Qed.
End HostFsExample.
