(* ===== verification/Topics.v ===== *)
(** * Topics: the byte-lane event port ([jinnd-wasm/src/topics.rs],
    [topics/tombstone.rs], [topics/publish.rs], [topics/restarting.rs],
    [selector.rs])

    A table of listeners; a walk that selects from a snapshot of it, is refused
    as a whole or runs as a whole, and lands one row; rows without a target for
    the time of a replacement; and the kernel's own publish, which hands each
    listener's private lane its payload and never waits. Deliveries run plugin
    code: they may change anything, this table included. *)

From stdpp Require Import base gmap sets list strings relations.
From S2P Require Import Prelude Api Grants Waits.

Abbreviation Bytes := (list Z).

(** ** Selectors ([selector.rs]) *)

Inductive Selector := SelectAll | ContextSet (contexts : list Z) | RealmOf (service : string).

Definition selects (s : Selector) (same_realm : string -> Z -> Z -> bool) (emitter listener : Z) : bool :=
  match s with
  | SelectAll => true
  | ContextSet contexts => bool_decide (listener ∈ contexts)
  | RealmOf service => same_realm service emitter listener
  end.

(** [NoRealms]. *)
Definition no_realms (service : string) (emitter listener : Z) : bool := false.

(** ** Restarts ([topics/restarting.rs]) *)

Record Unserved := MkUnserved { unserved_entry : EntryId; incarnation : Z; owed : Owed }.

Definition expects_reply (m : DispatchMode) : bool := match m with Emit => false | _ => true end.

(** ** Reserved topics ([topics/publish.rs]) *)

Definition TRANSITIONS_TOPIC : string := "jinn:introspect/transitions".
Definition LANE_CAPACITY : nat := 256.
Definition reserved (topic : string) : bool := bool_decide (topic = TRANSITIONS_TOPIC).
Definition grant_for (topic : string) : string := if reserved topic then INTROSPECT_CONTRACT else topic.

(** ** The table *)

Section Topics.
(** What a listener's host answers with, and everything else there is. *)
Context {Target Rest : Type}.

Inductive Delivery := Live (to : Target) | Tombstone (entry : EntryId) (under : Z).

Record Listener := MkListener {
  listener_id : Z;
  topic : string;
  context : Z;
  token : Z;
  fiber : option FiberId;
  budget : option Z;
  delivery : Delivery;
  lane : option nat;
}.

(** A lane's task: what it was opened with, the queue, the delivery under way. *)
Record LaneTask := MkLaneTask {
  lane_target : Target;
  lane_topic : string;
  lane_token : Z;
  lane_budget : option Z;
  queue : list Bytes;
  in_flight : option Bytes;
}.

(** [Inner], with the lanes its rows hold the ends of. *)
Record Table := MkTable { listeners : list Listener; next : Z; lanes : list LaneTask }.

Definition new_table : Table := MkTable [] 0 [].

Definition with_listeners (f : list Listener -> list Listener) (t : Table) : Table :=
  MkTable (f (listeners t)) (next t) (lanes t).

Definition is_tombstone (l : Listener) : bool := match delivery l with Tombstone _ _ => true | Live _ => false end.

(** What [listen_within] and [rebind] are given. *)
Record Rebind := MkRebind {
  rebind_topic : string;
  rebind_context : Z;
  rebind_token : Z;
  rebind_fiber : option FiberId;
  rebind_budget : option Z;
  rebind_target : Target;
}.

Definition listen_within (r : Rebind) (t : Table) : Z * Table :=
  let id := (next t + 1)%Z in
  (id, MkTable (listeners t ++ [MkListener id (rebind_topic r) (rebind_context r) (rebind_token r)
         (rebind_fiber r) (rebind_budget r) (Live (rebind_target r)) None]) id (lanes t)).

Definition unlisten (id : Z) (t : Table) : option string * Table :=
  match list_find (fun l => listener_id l = id) (listeners t) with
  | Some (i, l) => (Some (topic l), with_listeners (fun ls => delete i ls) t)
  | None => (None, t)
  end.

Fixpoint register_all (new : list Rebind) (t : Table) : list Z * Table :=
  match new with
  | [] => ([], t)
  | r :: new => let '(id, t) := listen_within r t in let '(ids, t) := register_all new t in (id :: ids, t)
  end.

Definition rebind (old : list Z) (new : list Rebind) (t : Table) : list Z * Table :=
  register_all new (with_listeners (filter (fun l => listener_id l ∉ old)) t).

(** *** Tombstones *)

Definition buried (entry : EntryId) (under : Z) (l : Listener) : Listener :=
  MkListener (listener_id l) (topic l) (context l) (token l) (fiber l) (budget l) (Tombstone entry under) (lane l).

Definition entomb (id : Z) (entry : EntryId) (under : Z) (t : Table) : option string * Table :=
  match list_find (fun l => listener_id l = id) (listeners t) with
  | Some (i, l) => (Some (topic l), with_listeners (alter (buried entry under) i) t)
  | None => (None, t)
  end.

Definition entombed (f : FiberId) (t : Table) : list (Z * string) :=
  map (fun l => (listener_id l, topic l))
    (filter (fun l => fiber l = Some f /\ is_tombstone l = true) (listeners t)).

Fixpoint incarnation_in (entry : EntryId) (ls : list Listener) : option Z :=
  match ls with
  | [] => None
  | l :: ls =>
      match delivery l with
      | Tombstone owner under => if decide (owner = entry) then Some under else incarnation_in entry ls
      | Live _ => incarnation_in entry ls
      end
  end.

Definition entombed_incarnation (entry : EntryId) (t : Table) : option Z := incarnation_in entry (listeners t).

Definition withdraw_tombstones (f : FiberId) (t : Table) : list string * Table :=
  (map snd (entombed f t),
   with_listeners (filter (fun l => ~ (fiber l = Some f /\ is_tombstone l = true))) t).

(** *** The selection of one walk *)

Record Selected := MkSelected {
  selected_fiber : option FiberId;
  selected_token : Z;
  selected_budget : option Z;
  selected_target : Target;
}.

Record Selection := MkSelection {
  live : list Selected;
  tombstone : option Unserved;
  fibers : list FiberId;
}.

Definition matching (emitter : Z) (on : string) (s : Selector) (same_realm : string -> Z -> Z -> bool)
    (l : Listener) : Prop :=
  topic l = on /\ selects s same_realm emitter (context l) = true.

#[export] Instance matching_dec emitter on s same_realm l : Decision (matching emitter on s same_realm l).
Proof. unfold matching. apply _. Defined.

Definition select_one (m : DispatchMode) (c : Selection) (l : Listener) : Selection :=
  match delivery l with
  | Live to =>
      MkSelection (live c ++ [MkSelected (fiber l) (token l) (budget l) to]) (tombstone c)
        (fibers c ++ option_list (fiber l))
  | Tombstone entry under =>
      if expects_reply m then
        MkSelection (live c)
          (match tombstone c with Some u => Some u | None => Some (MkUnserved entry under OwedStalled) end)
          (fibers c ++ option_list (fiber l))
      else c
  end.

Definition select (emitter : Z) (on : string) (m : DispatchMode) (s : Selector)
    (same_realm : string -> Z -> Z -> bool) (t : Table) : Selection :=
  fold_left (select_one m) (filter (matching emitter on s same_realm) (listeners t)) (MkSelection [] None []).

(** ** The world a walk runs in *)

Record World := MkWorld {
  table : Table;
  graph : option WaitGraph;
  rows : list (LedgerEventKind * option FiberId);
  rest : Rest;
}.

Definition with_graph (g : option WaitGraph) (w : World) : World := MkWorld (table w) g (rows w) (rest w).

Record EmitReport := MkEmitReport {
  outputs : list Bytes;
  failures : list KernelError;
  refused : option Unserved;
  wait_cycle : option Cycle;
}.

Definition no_report : EmitReport := MkEmitReport [] [] None None.
Definition push_output (o : Bytes) (r : EmitReport) : EmitReport :=
  MkEmitReport (outputs r ++ [o]) (failures r) (refused r) (wait_cycle r).
Definition push_failure (e : KernelError) (r : EmitReport) : EmitReport :=
  MkEmitReport (outputs r) (failures r ++ [e]) (refused r) (wait_cycle r).
Definition clear_outputs (r : EmitReport) : EmitReport := MkEmitReport [] (failures r) (refused r) (wait_cycle r).

(** Whether a sink is installed; the restart oracle, when one is; the entries
    fibers serve; and what a delivery does. *)
Context (traced : bool) (oracle : World -> option (FiberId -> option Unserved)).
Context (names : FiberId -> option EntryId).
Context (deliver : Target -> Z -> string -> Bytes -> option Z -> World -> result Bytes KernelError * World).

Definition append (kind : LedgerEventKind) (f : option FiberId) (w : World) : World :=
  MkWorld (table w) (graph w) (rows w ++ (if traced then [(kind, f)] else [])) (rest w).

(** [collect] into a [Result]: the first refusal drops the tickets taken. *)
Fixpoint enter_all (emitter : option FiberId) (sel : list Selected) (on : string) (g : WaitGraph) :
    result (list (option Z)) Cycle * WaitGraph :=
  match sel with
  | [] => (Ok [], g)
  | l :: sel =>
      match enter names emitter (selected_fiber l) on g with
      | (Err c, g) => (Err c, g)
      | (Ok ticket, g) =>
          match enter_all emitter sel on g with
          | (Ok taken, g) => (Ok (ticket :: taken), g)
          | (Err c, g) => (Err c, drop_ticket ticket g)
          end
      end
  end.

Definition park (emitter : option FiberId) (sel : list Selected) (on : string) (w : World) :
    result (list (option Z)) Cycle * World :=
  match graph w with
  | None => (Ok [], w)
  | Some g => let '(r, g) := enter_all emitter sel on g in (r, with_graph (Some g) w)
  end.

(** The tickets of a walk go out of scope. *)
Definition unpark (taken : list (option Z)) (w : World) : World :=
  with_graph ((fun g => fold_left (fun g t => drop_ticket t g) taken g) <$> graph w) w.

Fixpoint first_unserved (unserved : FiberId -> option Unserved) (fs : list FiberId) : option Unserved :=
  match fs with
  | [] => None
  | f :: fs => match unserved f with Some u => Some u | None => first_unserved unserved fs end
  end.

Definition doomed (fs : list FiberId) (w : World) : option Unserved :=
  match oracle w with Some unserved => first_unserved unserved fs | None => None end.

Definition deliver_to (l : Selected) (on : string) (payload : Bytes) (w : World) : result Bytes KernelError * World :=
  deliver (selected_target l) (selected_token l) on payload (selected_budget l) w.

Fixpoint collect_walk (sel : list Selected) (on : string) (payload : Bytes) (r : EmitReport) (w : World) :
    EmitReport * World :=
  match sel with
  | [] => (r, w)
  | l :: sel =>
      let '(answer, w) := deliver_to l on payload w in
      collect_walk sel on payload
        (match answer with Ok output => push_output output r | Err failure => push_failure failure r end) w
  end.

Fixpoint bail_walk (sel : list Selected) (on : string) (payload : Bytes) (r : EmitReport) (w : World) :
    EmitReport * World :=
  match sel with
  | [] => (r, w)
  | l :: sel =>
      match deliver_to l on payload w with
      | (Ok [], w) => bail_walk sel on payload r w
      | (Ok output, w) => (push_output output r, w)
      | (Err failure, w) => bail_walk sel on payload (push_failure failure r) w
      end
  end.

Fixpoint waterfall_walk (sel : list Selected) (on : string) (current : Bytes) (r : EmitReport) (w : World) :
    EmitReport * World :=
  match sel with
  | [] => (push_output current r, w)
  | l :: sel =>
      match deliver_to l on current w with
      | (Ok [], w) => waterfall_walk sel on current r w
      | (Ok output, w) => waterfall_walk sel on output r w
      | (Err failure, w) => waterfall_walk sel on current (push_failure failure r) w
      end
  end.

Definition walk (m : DispatchMode) (sel : list Selected) (on : string) (payload : Bytes) (w : World) :
    EmitReport * World :=
  match m with
  | Emit => let '(r, w) := collect_walk sel on payload no_report w in (clear_outputs r, w)
  | Parallel | Serial => collect_walk sel on payload no_report w
  | Bail => bail_walk sel on payload no_report w
  | Waterfall => waterfall_walk sel on payload no_report w
  end.

(** [u32::try_from] with its fallback. *)
Definition u32_count (n : nat) : Z := Z.min (Z.of_nat n) (2 ^ 32 - 1).

Definition cycle_row (on : string) (c : Cycle) : LedgerEventKind :=
  CycleRefused on (cycle_target c) (target_entry c) (map Waits.target (through c)).

Definition emit (emitter : Z) (on : string) (m : DispatchMode) (s : Selector) (payload : Bytes)
    (f : option FiberId) (same_realm : string -> Z -> Z -> bool) (w : World) : EmitReport * World :=
  let selection := select emitter on m s same_realm (table w) in
  match park f (live selection) on w with
  | (Err c, w) => (MkEmitReport [] [] None (Some c), append (cycle_row on c) f w)
  | (Ok taken, w) =>
      let unserved := match doomed (fibers selection) w with Some u => Some u | None => tombstone selection end in
      match (if expects_reply m then unserved else None) with
      | Some u =>
          (MkEmitReport [] [] (Some u) None,
           unpark taken (append (DispatchRefused on m (unserved_entry u) (incarnation u) (owed u)) f w))
      | None =>
          let '(report, w) := walk m (live selection) on payload w in
          (report,
           unpark taken (append (DispatchTrace on m (u32_count (length (live selection)))
             (u32_count (length (failures report))) emitter) f w))
      end
  end.

(** ** Publishing ([LocalTopics::publish]) *)

(** Whether there is a runtime to open a lane on. *)
Context (has_runtime : bool).

(** [Lane::open], and keeping it in the row. *)
Definition open_lane (l : Listener) (to : Target) (on : string) (ts : list LaneTask) : option (nat * list LaneTask) :=
  match lane l with
  | Some i => Some (i, ts)
  | None =>
      if has_runtime then Some (length ts, ts ++ [MkLaneTask to on (token l) (budget l) [] None]) else None
  end.

Definition push (payload : Bytes) (k : LaneTask) : LaneTask :=
  MkLaneTask (lane_target k) (lane_topic k) (lane_token k) (lane_budget k) (queue k ++ [payload]) (in_flight k).

(** [try_send]: a full queue refuses. *)
Definition try_send (i : nat) (payload : Bytes) (ts : list LaneTask) : option (list LaneTask) :=
  k ← ts !! i; if decide (length (queue k) < LANE_CAPACITY) then Some (<[i := push payload k]> ts) else None.

Definition in_lane (i : nat) (l : Listener) : Listener :=
  MkListener (listener_id l) (topic l) (context l) (token l) (fiber l) (budget l) (delivery l) (Some i).

(** One listener is offered the payload; [Some true] when it took it. *)
Definition offer (on : string) (payload : Bytes) (l : Listener) (ts : list LaneTask) :
    option bool * Listener * list LaneTask :=
  if decide (topic l = on) then
    match delivery l with
    | Tombstone _ _ => (None, l, ts)
    | Live to =>
        match open_lane l to on ts with
        | None => (Some false, l, ts)
        | Some (i, ts) =>
            match try_send i payload ts with
            | Some ts => (Some true, in_lane i l, ts)
            | None => (Some false, in_lane i l, ts)
            end
        end
    end
  else (None, l, ts).

Fixpoint offer_all (on : string) (payload : Bytes) (ls : list Listener) (ts : list LaneTask) :
    list (option bool) * list Listener * list LaneTask :=
  match ls with
  | [] => ([], [], ts)
  | l :: ls =>
      let '(took, l, ts) := offer on payload l ts in
      let '(answers, ls, ts) := offer_all on payload ls ts in
      (took :: answers, l :: ls, ts)
  end.

Definition counted (b : bool) (answers : list (option bool)) : nat := length (filter (fun a => a = Some b) answers).

Definition publish (on : string) (payload : Bytes) (w : World) : nat * World :=
  let '(answers, ls, ts) := offer_all on payload (listeners (table w)) (lanes (table w)) in
  let dropped := counted false answers in
  let w := MkWorld (MkTable ls (next (table w)) ts) (graph w) (rows w) (rest w) in
  (counted true answers,
   if decide (dropped = 0) then w else append (PublishDropped on (Z.of_nat dropped)) None w).

(** *** The task of a lane *)

Definition set_lane (i : nat) (k : LaneTask) (w : World) : World :=
  MkWorld (MkTable (listeners (table w)) (next (table w)) (<[i := k]> (lanes (table w)))) (graph w) (rows w) (rest w).

(** [recv]: the head of the queue goes to a task of its own. *)
Definition lane_recv (i : nat) (w : World) : option World :=
  k ← lanes (table w) !! i;
  match in_flight k, queue k with
  | None, payload :: queue =>
      Some (set_lane i (MkLaneTask (lane_target k) (lane_topic k) (lane_token k) (lane_budget k) queue (Some payload)) w)
  | _, _ => None
  end.

(** The delivery settles: it answered, failed or trapped ([None]). *)
Definition lane_settle (i : nat) (settled : option (result Bytes KernelError)) (w : World) : option World :=
  k ← lanes (table w) !! i;
  match in_flight k with
  | Some _ =>
      Some (append (DispatchTrace (lane_topic k) Emit 1 (match settled with Some (Ok _) => 0 | _ => 1 end) 0) None
        (set_lane i (MkLaneTask (lane_target k) (lane_topic k) (lane_token k) (lane_budget k) (queue k) None) w))
  | None => None
  end.

(** ** What a walk does *)

(** One delivery: to whom, with what, and what it answered. *)
Abbreviation Call := (Selected * Bytes * result Bytes KernelError)%type.

Inductive delivered (on : string) : list Call -> World -> World -> Prop :=
  | delivered_none w : delivered on [] w w
  | delivered_next l payload answer calls w w1 w2 :
      deliver_to l on payload w = (answer, w1) -> delivered on calls w1 w2 ->
      delivered on ((l, payload, answer) :: calls) w w2.

Definition callees (calls : list Call) : list Selected := map (fun c => c.1.1) calls.
Definition oks (calls : list Call) : list Bytes := omap (fun c : Call => ok c.2) calls.
Definition errs (calls : list Call) : list KernelError :=
  omap (fun c : Call => match c.2 with Err e => Some e | Ok _ => None end) calls.

(** A non-empty output decides. *)
Definition decisive (c : Call) : option Bytes := match c.2 with Ok (b :: o) => Some (b :: o) | _ => None end.

(** The payload after some deliveries of a waterfall. *)
Definition flow (payload : Bytes) (calls : list Call) : Bytes :=
  fold_left (fun p c => default p (decisive c)) calls payload.

Definition threaded (payload : Bytes) (calls : list Call) : Prop :=
  forall i c, calls !! i = Some c -> c.1.2 = flow payload (take i calls).

(** What each mode owes its emitter. *)
Definition as_the_mode_says (m : DispatchMode) (sel : list Selected) (payload : Bytes) (calls : list Call)
    (r : EmitReport) : Prop :=
  failures r = errs calls /\ refused r = None /\ wait_cycle r = None /\
  match m with
  | Emit => callees calls = sel /\ Forall (fun c : Call => c.1.2 = payload) calls /\ outputs r = []
  | Parallel | Serial => callees calls = sel /\ Forall (fun c : Call => c.1.2 = payload) calls /\ outputs r = oks calls
  | Bail => Forall (fun c : Call => c.1.2 = payload) calls /\
      ((callees calls = sel /\ Forall (fun c => decisive c = None) calls /\ outputs r = []) \/
       exists before c output skipped, calls = before ++ [c] /\ Forall (fun c => decisive c = None) before /\
         decisive c = Some output /\ sel = callees calls ++ skipped /\ outputs r = [output])
  | Waterfall => callees calls = sel /\ threaded payload calls /\ outputs r = [flow payload calls]
  end.

Lemma errs_cons c calls : errs (c :: calls) = match c.2 with Err e => [e] | Ok _ => [] end ++ errs calls.
Proof. destruct c as [[] [|]]; done. Qed.

Lemma collect_walk_spec sel on payload r w r' w' :
  collect_walk sel on payload r w = (r', w') ->
  exists calls, delivered on calls w w' /\ callees calls = sel /\ Forall (fun c : Call => c.1.2 = payload) calls /\
    r' = MkEmitReport (outputs r ++ oks calls) (failures r ++ errs calls) (refused r) (wait_cycle r).
Proof.
  revert r w. induction sel as [|l sel IH]; intros r w; simpl.
  - intros [= <- <-]. exists []. split_and!; [constructor|done|constructor|]. simpl. rewrite !app_nil_r. by destruct r.
  - destruct (deliver_to l on payload w) as [answer w1] eqn:Hd. intros (calls & Hc & Hl & Hp & ->)%IH.
    exists ((l, payload, answer) :: calls). split_and!; [by econstructor|simpl; by f_equal|by constructor|].
    destruct answer; simpl; unfold oks, errs; simpl; by rewrite <-app_assoc.
Qed.

Lemma bail_walk_spec sel on payload r w r' w' :
  bail_walk sel on payload r w = (r', w') ->
  exists calls, delivered on calls w w' /\ Forall (fun c : Call => c.1.2 = payload) calls /\
    failures r' = failures r ++ errs calls /\ refused r' = refused r /\ wait_cycle r' = wait_cycle r /\
    ((callees calls = sel /\ Forall (fun c => decisive c = None) calls /\ outputs r' = outputs r) \/
     exists before c output skipped, calls = before ++ [c] /\ Forall (fun c => decisive c = None) before /\
       decisive c = Some output /\ sel = callees calls ++ skipped /\ outputs r' = outputs r ++ [output]).
Proof.
  revert r w. induction sel as [|l sel IH]; intros r w; simpl.
  - intros [= <- <-]. exists []. rewrite app_nil_r. split_and!; try done; try by constructor.
  - assert (forall answer w1 r1, deliver_to l on payload w = (answer, w1) -> decisive (l, payload, answer) = None ->
      outputs r1 = outputs r -> refused r1 = refused r -> wait_cycle r1 = wait_cycle r ->
      failures r1 = failures r ++ match answer with Err e => [e] | Ok _ => [] end ->
      bail_walk sel on payload r1 w1 = (r', w') ->
      exists calls, delivered on calls w w' /\ Forall (fun c : Call => c.1.2 = payload) calls /\
        failures r' = failures r ++ errs calls /\ refused r' = refused r /\ wait_cycle r' = wait_cycle r /\
        ((callees calls = l :: sel /\ Forall (fun c => decisive c = None) calls /\ outputs r' = outputs r) \/
         exists before c output skipped, calls = before ++ [c] /\ Forall (fun c => decisive c = None) before /\
           decisive c = Some output /\ l :: sel = callees calls ++ skipped /\ outputs r' = outputs r ++ [output])) as Hgo.
    { intros answer w1 r1 Hd Hdec Ho Hre Hcy Hf (calls & Hc & Hp & Hf' & Hre' & Hcy' & Hend)%IH.
      exists ((l, payload, answer) :: calls). rewrite errs_cons, Hf', Hf, <-app_assoc.
      split_and!; [by econstructor|by constructor|done|congruence|congruence|].
      destruct Hend as [(Hl & Hn & Hout)|(before & c & output & skipped & -> & Hn & Hcd & Hsel & Hout)].
      - left. split_and!; [simpl; by f_equal|by constructor|congruence].
      - right. exists ((l, payload, answer) :: before), c, output, skipped. rewrite Ho in Hout.
        split_and!; try done; [by constructor|simpl; by f_equal]. }
    destruct (deliver_to l on payload w) as [[[|b o]|failure] w1] eqn:Hd; intros Hw.
    + apply (Hgo (Ok []) w1 r eq_refl eq_refl eq_refl eq_refl eq_refl); [|exact Hw]. by rewrite app_nil_r.
    + injection Hw as <- <-. exists [(l, payload, Ok (b :: o))]. simpl. rewrite app_nil_r.
      split_and!; try done; [by repeat econstructor|by repeat constructor|].
      right. exists [], (l, payload, Ok (b :: o)), (b :: o), sel. split_and!; [done|constructor|done..].
    + by apply (Hgo (Err failure) w1 (push_failure failure r) eq_refl eq_refl eq_refl eq_refl eq_refl).
Qed.

Lemma waterfall_walk_spec sel on payload r w r' w' :
  waterfall_walk sel on payload r w = (r', w') ->
  exists calls, delivered on calls w w' /\ callees calls = sel /\ threaded payload calls /\
    r' = MkEmitReport (outputs r ++ [flow payload calls]) (failures r ++ errs calls) (refused r) (wait_cycle r).
Proof.
  revert payload r w. induction sel as [|l sel IH]; intros payload r w; simpl.
  - intros [= <- <-]. exists []. split_and!; [constructor|done|by intros []|]. simpl. by rewrite app_nil_r.
  - assert (forall answer w1 r1, deliver_to l on payload w = (answer, w1) ->
      r1 = MkEmitReport (outputs r) (failures r ++ match answer with Err e => [e] | Ok _ => [] end) (refused r) (wait_cycle r) ->
      waterfall_walk sel on (default payload (decisive (l, payload, answer))) r1 w1 = (r', w') ->
      exists calls, delivered on calls w w' /\ callees calls = l :: sel /\ threaded payload calls /\
        r' = MkEmitReport (outputs r ++ [flow payload calls]) (failures r ++ errs calls) (refused r) (wait_cycle r)) as Hgo.
    { intros answer w1 r1 Hd -> (calls & Hc & Hl & Hp & ->)%IH. exists ((l, payload, answer) :: calls).
      rewrite errs_cons. simpl. rewrite <-app_assoc. split_and!; [by econstructor|simpl; by f_equal| |done].
      intros [|i] c Hi; simpl in Hi; [by injection Hi as <-|]. simpl. by apply Hp. }
    destruct (deliver_to l on payload w) as [[[|b o]|failure] w1] eqn:Hd; intros Hw.
    + apply (Hgo (Ok []) w1 r eq_refl); [|exact Hw]. rewrite app_nil_r. by destruct r.
    + apply (Hgo (Ok (b :: o)) w1 r eq_refl); [|exact Hw]. rewrite app_nil_r. by destruct r.
    + by apply (Hgo (Err failure) w1 (push_failure failure r) eq_refl).
Qed.

Lemma walk_spec m sel on payload w r w' :
  walk m sel on payload w = (r, w') -> exists calls, delivered on calls w w' /\ as_the_mode_says m sel payload calls r.
Proof.
  destruct m; simpl.
  - destruct (collect_walk sel on payload no_report w) as [r1 w1] eqn:Hw. intros [= <- <-].
    apply collect_walk_spec in Hw as (calls & Hc & Hl & Hp & ->). exists calls. by repeat split.
  - intros (calls & Hc & Hl & Hp & ->)%collect_walk_spec. exists calls. by repeat split.
  - intros (calls & Hc & Hl & Hp & ->)%collect_walk_spec. exists calls. by repeat split.
  - intros (calls & Hc & Hp & Hf & Hr & Hy & Hend)%bail_walk_spec. exists calls. split; [done|].
    repeat (split; [done|]). simpl in Hend.
    destruct Hend as [?|(b & c & o & sk & ? & ? & ? & ? & ?)]; [by left|right]. by exists b, c, o, sk.
  - intros (calls & Hc & Hl & Hp & ->)%waterfall_walk_spec. exists calls. by repeat split.
Qed.

(** *** The waits of a walk *)

Lemma tickets_dropped taken g :
  tickets (fold_left (fun g t => drop_ticket t g) taken g) =
  filter (fun p : Z * WaitEdge => Some p.1 ∉ taken) (tickets g).
Proof.
  revert g. induction taken as [|t taken IH]; intros g; simpl.
  - symmetry. apply filter_all, Forall_forall. intros p _. apply not_elem_of_nil.
  - rewrite IH. destruct t as [k|]; simpl.
    + rewrite list_filter_filter. apply list_filter_iff. intros p. rewrite not_elem_of_cons.
      assert (Some p.1 <> Some k <-> p.1 <> k) as -> by (split; congruence). tauto.
    + apply list_filter_iff. intros p. rewrite not_elem_of_cons. split; [by split|by intros []].
Qed.

Lemma enter_all_spec emitter sel on g :
  sound g ->
  match enter_all emitter sel on g with
  | (Err c, g') => tickets g' = tickets g /\ emitter = Some (cycle_waiter c) /\
      exists l, l ∈ sel /\ selected_fiber l = Some (cycle_target c)
  | (Ok taken, g') => exists added, tickets g' = tickets g ++ added /\
      (forall p, p ∈ added -> Some p.1 ∈ taken) /\ (forall k, Some k ∈ taken -> (last_ticket g < k)%Z) /\
      forall e l t, emitter = Some e -> l ∈ sel -> selected_fiber l = Some t -> MkWaitEdge e t on ∈ map snd added
  end.
Proof.
  revert g. induction sel as [|l sel IH]; intros g Hg; simpl.
  - exists []. rewrite app_nil_r. split_and!; [done|intros p Hp|intros k Hk|intros e l t _ Hl];
      by (exfalso; eapply elem_of_nil).
  - pose proof (sound_enter names emitter (selected_fiber l) on g Hg) as Hg1.
    destruct (enter names emitter (selected_fiber l) on g) as [[ticket|c] g1] eqn:He; simpl in Hg1.
    + assert (exists one, tickets g1 = tickets g ++ one /\ (last_ticket g <= last_ticket g1)%Z /\
        (forall p, p ∈ one -> Some p.1 = ticket) /\ (forall k, ticket = Some k -> (last_ticket g < k)%Z) /\
        (forall e t, emitter = Some e -> selected_fiber l = Some t -> MkWaitEdge e t on ∈ map snd one)) as
        (one & H1 & H2 & H3 & H4 & H5).
      { unfold enter in He. destruct emitter as [e|], (selected_fiber l) as [t|];
          try destruct (reaches t e g); simplify_eq He; intros <- <-;
          try (exists []; rewrite app_nil_r; split_and!; try done; intros p Hp; by apply elem_of_nil in Hp).
        eexists. split_and!; [done|simpl; lia| | |].
        - by intros p ->%list_elem_of_singleton.
        - intros k [= <-]. lia.
        - intros e' t' [= <-] [= <-]. by left. }
      specialize (IH g1 Hg1). destruct (enter_all emitter sel on g1) as [[taken|c] g2].
      * destruct IH as (added & Ht & Hin & Hlast & Hed). exists (one ++ added).
        rewrite Ht, H1, app_assoc. split_and!; [done| | |].
        -- intros p [Hp|Hp]%elem_of_app; apply elem_of_cons; [left; by apply H3|right; by apply Hin].
        -- intros k [Hk|Hk]%elem_of_cons; [by apply H4|]. specialize (Hlast k Hk). lia.
        -- intros e l' t Hem [->|Hl]%elem_of_cons Ht'; rewrite map_app; apply elem_of_app; [left|right]; eauto.
      * destruct IH as (Ht & Hem & l' & Hl & Hf). split; [|split; [done|]].
        -- destruct ticket as [k|]; simpl; rewrite Ht, H1.
           ++ rewrite filter_app, filter_all, filter_none; [apply app_nil_r| |].
              ** intros p Hp. specialize (H3 p Hp). intros Hne. by injection H3.
              ** apply Forall_forall. intros p Hp Heq. specialize (H4 k eq_refl).
                 assert (p.1 <= last_ticket g)%Z; [|lia]. apply (sound_last _ Hg). apply list_elem_of_fmap. by exists p.
           ++ destruct one as [|p one]; [apply app_nil_r|]. by specialize (H3 p ltac:(by left)).
        -- exists l'. split; [by right|done].
    + unfold enter in He. destruct emitter as [e|], (selected_fiber l) as [t|] eqn:Hfib; try done.
      destruct (reaches t e g); [|done]. injection He as <- <-. split_and!; [done|done|].
      exists l. split; [by left|done].
Qed.

(** *** The outcome of a walk *)

Definition row (kind : LedgerEventKind) (f : option FiberId) : list (LedgerEventKind * option FiberId) :=
  if traced then [(kind, f)] else [].

Definition waits_of (w : World) : option (list (Z * WaitEdge)) := tickets <$> graph w.

(** Nothing but one row came of it. *)
Definition only_row (kind : LedgerEventKind) (f : option FiberId) (w w' : World) : Prop :=
  table w' = table w /\ rest w' = rest w /\ waits_of w' = waits_of w /\ rows w' = rows w ++ row kind f.

Inductive outcome (emitter : Z) (on : string) (m : DispatchMode) (payload : Bytes) (f : option FiberId)
    (sel : Selection) (w : World) : EmitReport -> World -> Prop :=
  | outcome_cycle c l w' : f = Some (cycle_waiter c) -> l ∈ live sel -> selected_fiber l = Some (cycle_target c) ->
      only_row (cycle_row on c) f w w' ->
      outcome emitter on m payload f sel w (MkEmitReport [] [] None (Some c)) w'
  | outcome_refused g u w' : expects_reply m = true ->
      match doomed (fibers sel) (with_graph g w) with Some v => u = v | None => tombstone sel = Some u end ->
      only_row (DispatchRefused on m (unserved_entry u) (incarnation u) (owed u)) f w w' ->
      outcome emitter on m payload f sel w (MkEmitReport [] [] (Some u) None) w'
  | outcome_ran g (taken : list (option Z)) calls r w1 w' :
      (expects_reply m = true -> doomed (fibers sel) (with_graph g w) = None /\ tombstone sel = None) ->
      (forall waits e l t, g = Some waits -> f = Some e -> l ∈ live sel -> selected_fiber l = Some t ->
        exists k, Some k ∈ taken /\ (k, MkWaitEdge e t on) ∈ tickets waits) ->
      delivered on calls (with_graph g w) w1 -> as_the_mode_says m (live sel) payload calls r ->
      table w' = table w1 -> rest w' = rest w1 ->
      waits_of w' = filter (fun p : Z * WaitEdge => Some p.1 ∉ taken) <$> waits_of w1 ->
      rows w' = rows w1 ++ row (DispatchTrace on m (u32_count (length (live sel))) (u32_count (length (failures r))) emitter) f ->
      outcome emitter on m payload f sel w r w'.

Lemma emit_outcome emitter on m s payload f same_realm w r w' :
  (forall g, graph w = Some g -> sound g) ->
  emit emitter on m s payload f same_realm w = (r, w') ->
  outcome emitter on m payload f (select emitter on m s same_realm (table w)) w r w'.
Proof.
  intros Hsound. unfold emit. set (sel := select _ _ _ _ _ _).
  assert (match park f (live sel) on w with
    | (Err c, w1) => exists l, f = Some (cycle_waiter c) /\ l ∈ live sel /\ selected_fiber l = Some (cycle_target c) /\
        exists g, w1 = with_graph g w /\ waits_of w1 = waits_of w
    | (Ok taken, w1) => exists g, w1 = with_graph g w /\
        (forall (waits : WaitGraph) e l t, g = Some waits -> f = Some e -> l ∈ live sel -> selected_fiber l = Some t ->
          exists k, Some k ∈ taken /\ (k, MkWaitEdge e t on) ∈ tickets waits) /\
        (forall kind f, waits_of (unpark taken (append kind f w1)) = waits_of w)
    end) as Hpark.
  { unfold park. destruct (graph w) as [g|] eqn:Hg.
    - pose proof (enter_all_spec f (live sel) on g (Hsound g eq_refl)) as Hs.
      destruct (enter_all f (live sel) on g) as [[taken|c] g1].
      + destruct Hs as (added & Ht & Hin & Hlast & Hed). exists (Some g1). split_and!; [done| |].
        * intros waits e l t [= <-] Hf Hl Hft. pose proof (proj1 (list_elem_of_fmap _ _ _) (Hed _ _ _ Hf Hl Hft)) as ([k x] & Hx & Hp).
          simpl in Hx. subst x. exists k. rewrite Ht. split; [exact (Hin _ Hp)|]. apply elem_of_app. by right.
        * intros kind f'. unfold waits_of, unpark, append. simpl. rewrite tickets_dropped, Ht, filter_app.
          rewrite (filter_none _ added), (filter_all _ (tickets g)), app_nil_r, Hg; [done| |].
          -- apply Forall_forall. intros p Hp Htk. specialize (Hlast _ Htk).
             assert (p.1 <= last_ticket g)%Z; [|lia]. apply (sound_last g); [auto|].
             apply list_elem_of_fmap. by exists p.
          -- intros p Hp Hn. by apply Hn, Hin.
      + destruct Hs as (Ht & Hf & l & Hl & Hft). exists l. split_and!; [done..|]. exists (Some g1). split; [done|].
        unfold waits_of. simpl. by rewrite Ht, Hg.
    - exists None. split_and!; [by destruct w; simpl in *; subst|done|].
      intros. unfold waits_of. simpl. by rewrite Hg. }
  destruct (park f (live sel) on w) as [[taken|c] w1].
  - destruct Hpark as (g & -> & Hed & Hback).
    destruct (if expects_reply m then _ else None) as [u|] eqn:Hu.
    + intros [= <- <-]. destruct (expects_reply m) eqn:Hm; [|done].
      eapply (outcome_refused _ _ _ _ _ _ _ g); [done| |split_and!; [done..|by rewrite Hback|done]].
      destruct (doomed _ _); [by injection Hu|done].
    + destruct (walk m (live sel) on payload (with_graph g w)) as [report w2] eqn:Hw. intros [= <- <-].
      apply walk_spec in Hw as (calls & Hc & Hr).
      eapply (outcome_ran _ _ _ _ _ _ _ g taken calls report w2); try done.
      * intros Hm. rewrite Hm in Hu. by destruct (doomed _ _).
      * unfold waits_of, unpark, append. simpl. destruct (graph w2); simpl; [|done]. by rewrite tickets_dropped.
  - destruct Hpark as (l & Hf & Hl & Ht & g & -> & Hb). intros [= <- <-]. by eapply outcome_cycle.
Qed.

(** C14: A walk runs whole or not at all. It is refused for a wait that would
    close a cycle with a listener's fiber, or, when a reply is expected, for a
    selected listener whose incarnation owes a transition: then nothing was
    delivered, no wait is left and one row says so. Otherwise it holds a wait
    on every selected listener from before the first delivery to after the
    last, delivers as its mode says whatever the listeners do meanwhile, and
    lands one trace with its counts. *)
Theorem a_walk_runs_whole_or_not_at_all emitter on m s payload f same_realm w r w' :
  (forall g, graph w = Some g -> sound g) ->
  emit emitter on m s payload f same_realm w = (r, w') ->
  outcome emitter on m payload f (select emitter on m s same_realm (table w)) w r w'.
Proof. apply emit_outcome. Qed.

(** ** The table under any sequence of operations *)

Inductive table_op :=
  | OpListen (r : Rebind)
  | OpUnlisten (id : Z)
  | OpRebind (old : list Z) (new : list Rebind)
  | OpEntomb (id : Z) (entry : EntryId) (under : Z)
  | OpWithdraw (f : FiberId)
  | OpPublish (on : string) (payload : Bytes).

Definition offered (on : string) (payload : Bytes) (t : Table) : Table :=
  let '(_, ls, ts) := offer_all on payload (listeners t) (lanes t) in MkTable ls (next t) ts.

Definition apply_op (op : table_op) (t : Table) : Table :=
  match op with
  | OpListen r => (listen_within r t).2
  | OpUnlisten id => (unlisten id t).2
  | OpRebind old new => (rebind old new t).2
  | OpEntomb id entry under => (entomb id entry under t).2
  | OpWithdraw f => (withdraw_tombstones f t).2
  | OpPublish on payload => offered on payload t
  end.

(** The operation takes this row away. *)
Definition removes (op : table_op) (l : Listener) : Prop :=
  match op with
  | OpUnlisten id => listener_id l = id
  | OpRebind old _ => listener_id l ∈ old
  | OpWithdraw f => fiber l = Some f /\ is_tombstone l = true
  | _ => False
  end.

Record table_ok (t : Table) : Prop := {
  ids_differ : NoDup (map listener_id (listeners t));
  ids_below l : l ∈ listeners t -> (listener_id l <= next t)%Z;
}.

(** The same registration: it may have been entombed, or given a lane. *)
Record same_row (l l' : Listener) : Prop := {
  same_id : listener_id l' = listener_id l;
  same_topic : topic l' = topic l;
  same_context : context l' = context l;
  same_fiber : fiber l' = fiber l;
  same_tombstone : is_tombstone l = true -> is_tombstone l' = true;
}.

Lemma same_row_refl l : same_row l l.
Proof. by split. Qed.

Lemma register_all_rows new t :
  exists added, listeners (register_all new t).2 = listeners t ++ added /\
    Forall2 (fun r l => topic l = rebind_topic r /\ context l = rebind_context r /\ fiber l = rebind_fiber r /\
      delivery l = Live (rebind_target r)) new added.
Proof.
  revert t. induction new as [|r new IH]; intros t; [exists []; by rewrite app_nil_r|]. simpl.
  destruct (IH (listen_within r t).2) as (added & Hl & Hf). unfold listen_within in *. simpl in *.
  destruct (register_all new _) as [ids t1]. simpl in *.
  eexists (_ :: added). rewrite Hl, <-app_assoc. split; [done|]. by constructor.
Qed.

Lemma offer_row on payload l ts : same_row l (offer on payload l ts).1.2.
Proof.
  unfold offer. destruct (decide (topic l = on)); [|done]. destruct (delivery l) eqn:Hd; [|done].
  destruct (open_lane l to on ts) as [[i ts']|]; [|done]. by destruct (try_send i payload ts').
Qed.

Lemma offer_all_rows on payload ls ts : Forall2 same_row ls (offer_all on payload ls ts).1.2.
Proof.
  revert ts. induction ls as [|l ls IH]; intros ts; simpl; [constructor|].
  pose proof (offer_row on payload l ts) as Hl. destruct (offer on payload l ts) as [[took l'] ts'].
  specialize (IH ts'). destruct (offer_all on payload ls ts') as [[answers ls'] ts'']. by constructor.
Qed.

(** Every row an operation does not remove stays. *)
Lemma op_keeps op t l :
  l ∈ listeners t -> ~ removes op l -> exists l', l' ∈ listeners (apply_op op t) /\ same_row l l'.
Proof.
  intros Hl Hn. destruct op as [r|id|old new|id entry under|f|on payload]; simpl in *.
  - exists l. split; [apply elem_of_app; by left|done].
  - exists l. split; [|done]. unfold unlisten. destruct (list_find _ _) as [[i l']|] eqn:Hf; [|done].
    apply list_find_Some in Hf as (Hi & Hid & _). simpl.
    apply list_elem_of_lookup in Hl as [j Hj]. apply list_elem_of_lookup.
    destruct (decide (j < i)) as [Hlt|Hge].
    + exists j. by rewrite list_lookup_delete_lt.
    + destruct (decide (j = i)) as [->|Hne]; [congruence|]. exists (pred j).
      rewrite list_lookup_delete_ge by lia. by replace (S (pred j)) with j by lia.
  - destruct (register_all_rows new (with_listeners (filter (fun l => listener_id l ∉ old)) t)) as (added & Ha & _).
    exists l. split; [|done]. unfold rebind. rewrite Ha. apply elem_of_app. left. simpl. by apply list_elem_of_filter.
  - unfold entomb. destruct (list_find _ _) as [[i l']|] eqn:Hf; [|by exists l].
    apply list_find_Some in Hf as (Hi & Hid & _). simpl.
    apply list_elem_of_lookup in Hl as [j Hj]. destruct (decide (i = j)) as [<-|Hne].
    + exists (buried entry under l). split; [|by split]. apply list_elem_of_lookup. exists i.
      by rewrite list_lookup_alter_eq, Hj.
    + exists l. split; [|done]. apply list_elem_of_lookup. exists j. by rewrite list_lookup_alter_ne.
  - exists l. split; [|done]. apply list_elem_of_filter. split; [|done]. exact Hn.
  - unfold offered. pose proof (offer_all_rows on payload (listeners t) (lanes t)) as Hr.
    destruct (offer_all on payload (listeners t) (lanes t)) as [[answers ls] ts]. simpl in *.
    apply list_elem_of_lookup in Hl as [j Hj]. destruct (Forall2_lookup_l _ _ _ _ _ Hr Hj) as (l' & Hj' & Hs).
    exists l'. split; [by eapply list_elem_of_lookup_2|done].
Qed.

Lemma table_ok_new : table_ok new_table.
Proof. split; [constructor|]. intros l Hl. by apply elem_of_nil in Hl. Qed.

Lemma sublist_map {A B} (f : A -> B) l k : l `sublist_of` k -> map f l `sublist_of` map f k.
Proof. induction 1; simpl; by constructor. Qed.

(** Rows taken out of a table. *)
Lemma table_ok_sub t ls :
  table_ok t -> sublist ls (listeners t) -> table_ok (with_listeners (fun _ => ls) t).
Proof.
  intros [Hnd Hle] Hs. split; simpl.
  - eapply sublist_NoDup; [exact Hnd|by apply sublist_map].
  - intros l Hl. apply Hle. by eapply elem_of_sublist.
Qed.

(** Rows replaced by themselves, as far as ids go. *)
Lemma table_ok_rows t ls ts :
  table_ok t -> map listener_id ls = map listener_id (listeners t) -> table_ok (MkTable ls (next t) ts).
Proof.
  intros [Hnd Hle] Hm. split; simpl; [by rewrite Hm|]. intros l Hl.
  assert (listener_id l ∈ map listener_id (listeners t)) as Hin by (rewrite <-Hm; by apply list_elem_of_fmap_2).
  apply list_elem_of_fmap in Hin as (l' & -> & Hl'). by apply Hle.
Qed.

Lemma table_ok_listen r t : table_ok t -> table_ok (listen_within r t).2.
Proof.
  intros [Hnd Hle]. split; simpl.
  - rewrite map_app. apply NoDup_app. split_and!; [done| |apply NoDup_singleton].
    intros k (l & -> & Hl)%list_elem_of_fmap Hk%list_elem_of_singleton. specialize (Hle l Hl). simpl in Hk. lia.
  - intros l [Hl| ->%list_elem_of_singleton]%elem_of_app; [|done]. specialize (Hle l Hl). lia.
Qed.

Lemma table_ok_register new t : table_ok t -> table_ok (register_all new t).2.
Proof.
  revert t. induction new as [|r new IH]; intros t Ht; [done|]. cbn [register_all].
  pose proof (table_ok_listen r t Ht) as H1. destruct (listen_within r t) as [id t1]. specialize (IH t1 H1).
  by destruct (register_all new t1).
Qed.

Lemma table_ok_op op t : table_ok t -> table_ok (apply_op op t).
Proof.
  intros Ht. destruct op as [r|id|old new|id entry under|f|on payload]; simpl.
  - by apply table_ok_listen.
  - unfold unlisten. destruct (list_find _ _) as [[i l]|]; [|done]. apply (table_ok_sub _ _ Ht). apply sublist_delete.
  - apply table_ok_register, (table_ok_sub _ _ Ht). apply sublist_filter.
  - unfold entomb. destruct (list_find _ _) as [[i l]|]; [|done]. apply table_ok_rows; [done|].
    apply list_eq. intros j. rewrite !list_lookup_fmap. destruct (decide (i = j)) as [<-|Hne].
    + rewrite list_lookup_alter_eq. by destruct (listeners t !! i).
    + by rewrite list_lookup_alter_ne.
  - apply (table_ok_sub _ _ Ht). apply sublist_filter.
  - unfold offered. pose proof (offer_all_rows on payload (listeners t) (lanes t)) as Hr.
    destruct (offer_all on payload (listeners t) (lanes t)) as [[answers ls] ts]. simpl in *. apply table_ok_rows; [done|].
    clear -Hr. induction Hr as [|l l' ls ls' Hs _ IH]; [done|]. simpl. rewrite IH. f_equal. apply Hs.
Qed.

(** *** What a selection holds *)

Lemma select_fold m ls c :
  let sel := fold_left (select_one m) ls c in
  (forall x, x ∈ live c -> x ∈ live sel) /\ (is_Some (tombstone c) -> is_Some (tombstone sel)) /\
  forall l, l ∈ ls ->
    match delivery l with
    | Live to => MkSelected (fiber l) (token l) (budget l) to ∈ live sel
    | Tombstone _ _ => expects_reply m = true -> is_Some (tombstone sel)
    end.
Proof.
  revert c. induction ls as [|l ls IH]; intros c; simpl.
  - split_and!; [done|done|]. intros l Hl. by apply elem_of_nil in Hl.
  - destruct (IH (select_one m c l)) as (H1 & H2 & H3). split_and!.
    + intros x Hx. apply H1. unfold select_one. destruct (delivery l); [|by destruct (expects_reply m)].
      simpl. apply elem_of_app. by left.
    + intros Ht. apply H2. unfold select_one. destruct (delivery l); [done|]. destruct (expects_reply m); [|done].
      simpl. destruct (tombstone c); [done|]. by destruct Ht.
    + intros l' [->|Hl']%elem_of_cons; [|by apply H3]. destruct (delivery l) as [to|entry under] eqn:Hd.
      * apply H1. unfold select_one. rewrite Hd. simpl. apply elem_of_app. right. by left.
      * intros Hm. apply H2. unfold select_one. rewrite Hd, Hm. simpl. by destruct (tombstone c).
Qed.

Lemma select_holds emitter on m s same_realm t l :
  l ∈ listeners t -> matching emitter on s same_realm l ->
  match delivery l with
  | Live to => MkSelected (fiber l) (token l) (budget l) to ∈ live (select emitter on m s same_realm t)
  | Tombstone _ _ => expects_reply m = true -> is_Some (tombstone (select emitter on m s same_realm t))
  end.
Proof. intros Hl Hm. apply (select_fold m). by apply list_elem_of_filter. Qed.

(** ** The restart window *)

(** One operation that does not end the window of row [id]. *)
Definition in_window (id : Z) (t t' : Table) : Prop :=
  exists op, t' = apply_op op t /\ forall l, l ∈ listeners t -> listener_id l = id -> ~ removes op l.

Lemma window_keeps id t t' l :
  rtc (in_window id) t t' -> l ∈ listeners t -> listener_id l = id ->
  exists l', l' ∈ listeners t' /\ same_row l l'.
Proof.
  intros Hr. revert l. induction Hr as [t|t t1 t2 (op & -> & Hn) _ IH]; intros l Hl Hid; [by exists l|].
  destruct (op_keeps op t l Hl (Hn l Hl Hid)) as (l1 & Hl1 & Hs1).
  destruct (IH l1 Hl1) as (l2 & Hl2 & Hs2); [by rewrite (same_id _ _ Hs1)|]. exists l2. split; [done|].
  destruct Hs1, Hs2. split; try congruence. auto.
Qed.

Lemma entomb_buries id entry under t l :
  table_ok t -> l ∈ listeners t -> listener_id l = id ->
  buried entry under l ∈ listeners (entomb id entry under t).2.
Proof.
  intros [Hnd _] Hl Hid. unfold entomb. destruct (list_find _ _) as [[i l']|] eqn:Hf.
  - apply list_find_Some in Hf as (Hi & Hid' & _). apply list_elem_of_lookup in Hl as [j Hj].
    assert (i = j) as ->.
    { apply (NoDup_lookup (map listener_id (listeners t)) i j id); [done|rewrite <-Hid'|rewrite <-Hid]; by apply lookup_map. }
    simpl. apply list_elem_of_lookup. exists j. by rewrite list_lookup_alter_eq, Hj.
  - apply list_find_None in Hf. rewrite Forall_forall in Hf. exfalso. by eapply Hf.
Qed.

(** C15: A replacement is never silent. From the moment a listener is entombed
    until its row is withdrawn, whatever else is done to the table, a walk that
    expects a reply and selects it delivers nothing and is refused; and the
    commit that ends the window puts the successor's listeners in place in the
    same step, so that a walk selects the one or the other, never neither. *)
Theorem a_replacement_is_never_silent t0 id entry under l t' emitter on m s payload f same_realm w r w' :
  table_ok t0 -> l ∈ listeners t0 -> listener_id l = id ->
  rtc (in_window id) (entomb id entry under t0).2 t' ->
  table w = t' -> (forall g, graph w = Some g -> sound g) ->
  matching emitter on s same_realm l -> expects_reply m = true ->
  emit emitter on m s payload f same_realm w = (r, w') ->
  (is_Some (refused r) \/ is_Some (wait_cycle r)) /\ outputs r = [] /\ failures r = [] /\
  table w' = t' /\ rest w' = rest w /\
  forall old new successor, successor ∈ new -> rebind_topic successor = topic l -> rebind_context successor = context l ->
    exists x, x ∈ live (select emitter on m s same_realm (rebind old new t').2) /\
      selected_fiber x = rebind_fiber successor /\ selected_target x = rebind_target successor.
Proof.
  intros Hok Hl Hid Hr Hw Hsound Hm He Hemit. pose proof (entomb_buries id entry under t0 l Hok Hl Hid) as Hb.
  destruct (window_keeps _ _ _ _ Hr Hb Hid) as (l' & Hl' & Hs). specialize (same_tombstone _ _ Hs eq_refl) as Ht.
  assert (matching emitter on s same_realm l') as Hm'.
  { destruct Hm as [Ht1 Hsel]. split; [by rewrite (same_topic _ _ Hs)|by rewrite (same_context _ _ Hs)]. }
  pose proof (select_holds emitter on m s same_realm t' l' Hl' Hm') as Hsel.
  unfold is_tombstone in Ht. destruct (delivery l') as [|entry' under']; [done|]. specialize (Hsel He).
  assert (forall old new successor, successor ∈ new -> rebind_topic successor = topic l ->
    rebind_context successor = context l -> exists x, x ∈ live (select emitter on m s same_realm (rebind old new t').2) /\
      selected_fiber x = rebind_fiber successor /\ selected_target x = rebind_target successor) as Hnew.
  { intros old new succ Hin Htop Hctx.
    destruct (register_all_rows new (with_listeners (filter (fun l => listener_id l ∉ old)) t')) as (added & Ha & Hf).
    apply list_elem_of_lookup in Hin as [i Hi].
    destruct (Forall2_lookup_l _ _ _ _ _ Hf Hi) as (x & Hx & Hxt & Hxc & Hxf & Hxd).
    pose proof (select_holds emitter on m s same_realm (rebind old new t').2 x) as Hlive. rewrite Hxd in Hlive.
    eexists. split; [apply Hlive|done].
    - unfold rebind. rewrite Ha. apply elem_of_app. right. by eapply list_elem_of_lookup_2.
    - destruct Hm as [Ht1 Ht2]. split; congruence. }
  subst t'. apply emit_outcome in Hemit; [|done]. destruct Hemit as
    [c x w2 _ _ _ (Htab & Hrest & _)|g u w2 _ _ (Htab & Hrest & _)|g taken calls r w1 w2 Hnone _ _ _ _ _ _ _].
  - split_and!; auto.
  - split_and!; auto.
  - destruct (Hnone He) as [_ Hno]. rewrite Hno in Hsel. by destruct Hsel.
Qed.

(** ** What is published arrives *)

Definition queue_of (i : nat) (ts : list LaneTask) : list Bytes :=
  match ts !! i with Some k => option_list (in_flight k) ++ queue k | None => [] end.

Definition taken_by (i : nat) (payload : Bytes) (a : option bool) (l : Listener) : list Bytes :=
  if decide (a = Some true /\ lane l = Some i) then [payload] else [].

(** The payloads lane [i] took from one publish. *)
Fixpoint took (i : nat) (payload : Bytes) (answers : list (option bool)) (ls : list Listener) : list Bytes :=
  match answers, ls with
  | a :: answers, l :: ls => taken_by i payload a l ++ took i payload answers ls
  | _, _ => []
  end.

Definition bounded (ts : list LaneTask) : Prop := Forall (fun k => length (queue k) <= LANE_CAPACITY) ts.

(** Whether a listener takes a payload of this topic, from its own lane alone. *)
Definition expected (on : string) (ts : list LaneTask) (l : Listener) : option bool :=
  if decide (topic l = on) then
    match delivery l, lane l with
    | Tombstone _ _, _ => None
    | Live _, Some i => Some (match ts !! i with Some k => bool_decide (length (queue k) < LANE_CAPACITY) | None => false end)
    | Live _, None => Some has_runtime
    end
  else None.

(** Each row's lane is its own. *)
Record lanes_ok (ls : list Listener) (ts : list LaneTask) : Prop := {
  lanes_there i : i ∈ omap lane ls -> i < length ts;
  lanes_own : NoDup (omap lane ls);
  lanes_bounded : bounded ts;
}.

Lemma offer_spec on payload l ts :
  let '(a, l', ts') := offer on payload l ts in
  a = expected on ts l /\ (forall i, queue_of i ts' = queue_of i ts ++ taken_by i payload a l') /\
  (bounded ts -> bounded ts') /\ length ts <= length ts' /\
  (forall i, i < length ts -> lane l <> Some i -> ts' !! i = ts !! i) /\
  (lane l' = lane l \/ (lane l = None /\ lane l' = Some (length ts) /\ length ts' = S (length ts))) /\
  (forall i, lane l' = Some i -> lane l = Some i \/ i < length ts').
Proof using has_runtime.
  clear deliver.
  assert (forall ts i k, ts !! i = Some k ->
    (forall j, queue_of j (<[i := push payload k]> ts) = queue_of j ts ++ (if decide (i = j) then [payload] else [])) /\
    (length (queue k) < LANE_CAPACITY -> bounded ts -> bounded (<[i := push payload k]> ts))) as Hpush.
  { intros ts0 i k Hi. split.
    - intros j. unfold queue_of. destruct (decide (i = j)) as [<-|Hne].
      + rewrite list_lookup_insert_eq by (by eapply lookup_lt_Some). rewrite Hi. simpl. by rewrite app_assoc.
      + by rewrite list_lookup_insert_ne, app_nil_r.
    - intros Hlt Hb. apply Forall_insert; [done|]. simpl. rewrite length_app. simpl. lia. }
  unfold offer, expected. destruct (decide (topic l = on)) as [_|_].
  2: { split_and!; auto. intros i. unfold taken_by. rewrite decide_False by (by intros []). by rewrite app_nil_r. }
  destruct (delivery l) as [to|].
  2: { split_and!; auto. intros i. unfold taken_by. rewrite decide_False by (by intros []). by rewrite app_nil_r. }
  assert (forall l' ts' i, taken_by i payload (Some false) l' = [] /\ queue_of i ts' = queue_of i ts' ++ taken_by i payload (Some false) l') as Hno.
  { intros l' ts' i. unfold taken_by. rewrite decide_False by (by intros [[=]]). by rewrite app_nil_r. }
  unfold open_lane, try_send. destruct (lane l) as [i|] eqn:Hlane.
  - destruct (ts !! i) as [k|] eqn:Hi; simpl.
    + destruct (Hpush ts i k Hi) as [Hq Hb]. case_decide as Hlt; (split; [first [by rewrite bool_decide_true|by rewrite bool_decide_false]|]).
      * split_and!; [|auto|by rewrite length_insert| |by left|by left].
        -- intros j. rewrite Hq. unfold taken_by. simpl. f_equal. repeat case_decide; naive_solver.
        -- intros j _ Hne. rewrite list_lookup_insert_ne; [done|congruence].
      * split_and!; try (intros ?; apply Hno); auto; naive_solver.
    + split_and!; try (intros ?; apply Hno); auto; naive_solver.
  - destruct has_runtime.
    + set (fresh := MkLaneTask to on (token l) (budget l) [] None).
      assert ((ts ++ [fresh]) !! length ts = Some fresh) as Hl by apply lookup_app_last.
      rewrite Hl. simpl. destruct (Hpush (ts ++ [fresh]) (length ts) fresh Hl) as [Hq Hb].
      split_and!; [done| | |rewrite length_insert, length_app; simpl; lia| | |].
      * intros j. rewrite Hq. unfold taken_by. simpl.
        assert (queue_of j (ts ++ [fresh]) = queue_of j ts) as ->.
        { unfold queue_of. destruct (decide (j < length ts)); [by rewrite lookup_app_l|].
          rewrite lookup_app_r by lia. rewrite (lookup_ge_None_2 ts) by lia. by destruct (j - length ts) as [|[]]. }
        f_equal. repeat case_decide; naive_solver.
      * intros Hbd. apply Hb; [unfold LANE_CAPACITY; simpl; lia|]. apply Forall_app. split; [done|].
        apply Forall_singleton. simpl. unfold LANE_CAPACITY. lia.
      * intros j Hj _. rewrite list_lookup_insert_ne by lia. by rewrite lookup_app_l.
      * right. by rewrite length_insert, length_app, Nat.add_1_r.
      * intros j [= <-]. right. rewrite length_insert, length_app. simpl. lia.
    + split_and!; try (intros ?; apply Hno); auto; naive_solver.
Qed.

Lemma offer_all_queues on payload ls ts :
  let '(answers, ls', ts') := offer_all on payload ls ts in
  (forall i, queue_of i ts' = queue_of i ts ++ took i payload answers ls') /\
  (bounded ts -> bounded ts') /\ length ts <= length ts'.
Proof.
  revert ts. induction ls as [|l ls IH]; intros ts; simpl.
  - split_and!; [|done|done]. intros i. by rewrite app_nil_r.
  - pose proof (offer_spec on payload l ts) as Ho. destruct (offer on payload l ts) as [[a l'] ts1].
    destruct Ho as (_ & Hq & Hb & Hlen & _). specialize (IH ts1).
    destruct (offer_all on payload ls ts1) as [[answers ls'] ts2]. destruct IH as (Hq2 & Hb2 & Hlen2).
    split_and!; [|auto|lia]. intros i. by rewrite Hq2, Hq, <-app_assoc.
Qed.

(** Each row answers from its own lane, whatever the rows before it did. *)
Lemma offer_all_answers on payload ls ts :
  lanes_ok ls ts -> let '(answers, ls', ts') := offer_all on payload ls ts in
  answers = map (expected on ts) ls /\ lanes_ok ls' ts' /\
  forall i, i ∈ omap lane ls' -> i ∈ omap lane ls \/ length ts <= i.
Proof.
  revert ts. induction ls as [|l ls IH]; intros ts [Hthere Hown Hbd]; simpl.
  { split_and!; [done| |by left]. by split. }
  pose proof (offer_spec on payload l ts) as Ho. destruct (offer on payload l ts) as [[a l'] ts1].
  destruct Ho as (-> & _ & Hb & Hlen & Hkeep & Hlane & _).
  assert (forall i, i ∈ omap lane ls -> i < length ts /\ lane l <> Some i) as Hother.
  { intros i Hi. simpl in *. destruct (lane l) as [j|]; [|by split; [apply Hthere|]].
    split; [apply Hthere; by right|]. intros [= ->]. by apply NoDup_cons in Hown as [Hno _]. }
  assert (lanes_ok ls ts1) as Hok1.
  { split; [|simpl in Hown; destruct (lane l); [by apply NoDup_cons in Hown as [_ ?]|done]|auto].
    intros i Hi. destruct (Hother i Hi). lia. }
  specialize (IH ts1 Hok1). pose proof (offer_all_queues on payload ls ts1) as Hgrow.
  destruct (offer_all on payload ls ts1) as [[answers ls'] ts2].
  destruct IH as (-> & [Hthere' Hown' Hbd'] & Hnew), Hgrow as (_ & _ & Hlen2). split_and!.
  - f_equal. apply map_ext_in. intros l2 Hl2%list_elem_of_In. unfold expected.
    destruct (lane l2) as [i|] eqn:Hi; [|done].
    destruct (Hother i) as [Hlt Hne]; [apply list_elem_of_omap; by exists l2|]. by rewrite (Hkeep i Hlt Hne).
  - split; [| |done]; simpl.
    + intros i Hi. destruct (lane l') as [j|] eqn:Hl'; [|by apply Hthere'].
      apply elem_of_cons in Hi as [->|Hi]; [|by apply Hthere']. destruct Hlane as [Heq|(_ & [= ->] & Hs)]; [|lia].
      assert (j < length ts); [|lia]. apply Hthere. simpl. rewrite <-Heq. by left.
    + destruct (lane l') as [j|] eqn:Hl'; [|done]. apply NoDup_cons. split; [|done]. intros Hj.
      destruct Hlane as [Heq|(_ & [= ->] & Hs)]; destruct (Hnew _ Hj) as [Hin|Hge].
      * destruct (Hother j Hin). congruence.
      * assert (j < length ts); [|lia]. apply Hthere. simpl. rewrite <-Heq. by left.
      * destruct (Hother _ Hin). lia.
      * lia.
  - intros i Hi. simpl in *. assert (i ∈ omap lane ls' -> i ∈ omap lane (l :: ls) \/ length ts <= i) as Hrest.
    { intros Hi'. destruct (Hnew i Hi'); [left; simpl; destruct (lane l); [by right|done]|right; lia]. }
    destruct (lane l') as [j|] eqn:Hl'; [|by apply Hrest]. apply elem_of_cons in Hi as [->|Hi]; [|by apply Hrest].
    destruct Hlane as [<-|(_ & [= ->] & _)]; [left; by left|by right].
Qed.

(** *** Runs of the bus *)

Inductive Mark := Accepted (i : nat) (payload : Bytes) | Settled (i : nat) (payload : Bytes).

Fixpoint acceptances (payload : Bytes) (answers : list (option bool)) (ls : list Listener) : list Mark :=
  match answers, ls with
  | a :: answers, l :: ls =>
      match a, lane l with Some true, Some i => [Accepted i payload] | _, _ => [] end ++ acceptances payload answers ls
  | _, _ => []
  end.

Definition accepted (i : nat) (tr : list Mark) : list Bytes :=
  omap (fun m => match m with Accepted j payload => if decide (j = i) then Some payload else None | _ => None end) tr.
Definition settled (i : nat) (tr : list Mark) : list Bytes :=
  omap (fun m => match m with Settled j payload => if decide (j = i) then Some payload else None | _ => None end) tr.

(** A publish, any other change of the table, a turn of a lane's task, or
    anything that leaves the table alone. *)
Inductive bus_step (w : World) : list Mark -> World -> Prop :=
  | bus_publish on payload answers ls ts : offer_all on payload (listeners (table w)) (lanes (table w)) = (answers, ls, ts) ->
      bus_step w (acceptances payload answers ls) (publish on payload w).2
  | bus_op op : match op with OpPublish _ _ => False | _ => True end ->
      bus_step w [] (MkWorld (apply_op op (table w)) (graph w) (rows w) (rest w))
  | bus_recv i w' : lane_recv i w = Some w' -> bus_step w [] w'
  | bus_settle i k payload answer w' : lanes (table w) !! i = Some k -> in_flight k = Some payload ->
      lane_settle i answer w = Some w' -> bus_step w [Settled i payload] w'
  | bus_elsewhere w' : table w' = table w -> bus_step w [] w'.

Inductive bus_run : World -> list Mark -> World -> Prop :=
  | bus_none w : bus_run w [] w
  | bus_next w tr w1 marks w2 : bus_run w tr w1 -> bus_step w1 marks w2 -> bus_run w (tr ++ marks) w2.

Lemma took_accepted i payload answers ls : took i payload answers ls = accepted i (acceptances payload answers ls).
Proof.
  revert ls. induction answers as [|a answers IH]; intros [|l ls]; try done. simpl. unfold accepted in *.
  rewrite omap_app, <-IH. f_equal. unfold taken_by. destruct a as [[]|], (lane l) as [j|]; simpl;
    repeat case_decide; naive_solver.
Qed.

Lemma acceptances_settled i payload answers ls : settled i (acceptances payload answers ls) = [].
Proof.
  revert ls. induction answers as [|a answers IH]; intros [|l ls]; try done. simpl. unfold settled in *.
  rewrite omap_app, IH. by destruct a as [[]|], (lane l).
Qed.

Lemma accepted_app i a b : accepted i (a ++ b) = accepted i a ++ accepted i b.
Proof. apply omap_app. Qed.
Lemma settled_app i a b : settled i (a ++ b) = settled i a ++ settled i b.
Proof. apply omap_app. Qed.

Record bus_ok (tr : list Mark) (w : World) : Prop := {
  bus_order i : accepted i tr = settled i tr ++ queue_of i (lanes (table w));
  bus_lanes : lanes_ok (listeners (table w)) (lanes (table w));
}.

Lemma lanes_ok_sub ls ls' ts : lanes_ok ls ts -> omap lane ls' `sublist_of` omap lane ls -> lanes_ok ls' ts.
Proof.
  intros [Ht Ho Hb] Hs. split; [|by eapply sublist_NoDup|done]. intros i Hi. apply Ht. by eapply elem_of_sublist.
Qed.

Lemma sublist_omap {A B} (f : A -> option B) l k : l `sublist_of` k -> omap f l `sublist_of` omap f k.
Proof. induction 1 as [|x l k _ IH|x l k _ IH]; simpl; [constructor|..]; destruct (f x); try done; by constructor. Qed.

Lemma op_lanes op t :
  match op with OpPublish _ _ => False | _ => True end ->
  lanes (apply_op op t) = lanes t /\ omap lane (listeners (apply_op op t)) `sublist_of` omap lane (listeners t).
Proof.
  assert (forall r t, lanes (listen_within r t).2 = lanes t /\
    omap lane (listeners (listen_within r t).2) = omap lane (listeners t)) as Hl.
  { intros r t'. simpl. by rewrite omap_app, app_nil_r. }
  assert (forall new t, lanes (register_all new t).2 = lanes t /\
    omap lane (listeners (register_all new t).2) = omap lane (listeners t)) as Hr.
  { induction new as [|r new IH]; intros t'; [done|]. cbn [register_all]. destruct (Hl r t') as [H1 H2].
    destruct (listen_within r t') as [id t1]. destruct (IH t1) as [H3 H4]. destruct (register_all new t1).
    simpl in *. by rewrite H3, H4. }
  destruct op as [r|id|old new|id entry under|f|]; try done; intros _; cbn [apply_op].
  - destruct (Hl r t) as [-> ->]. done.
  - unfold unlisten. destruct (list_find _ _) as [[i l]|]; [|done]. split; [done|]. apply sublist_omap, sublist_delete.
  - unfold rebind. destruct (Hr new (with_listeners (filter (fun l => listener_id l ∉ old)) t)) as [-> ->].
    split; [done|]. apply sublist_omap, sublist_filter.
  - unfold entomb. destruct (list_find _ _) as [[i l]|]; [|done]. split; [done|]. simpl.
    assert (forall ls j, omap lane (alter (buried entry under) j ls) = omap lane ls) as ->; [|done].
    induction ls as [|x ls IH]; intros [|j]; [done..|]. cbn. destruct (lane x); [f_equal|]; apply (IH j).
  - split; [done|]. apply sublist_omap, sublist_filter.
Qed.

Lemma queue_set i j k ts :
  is_Some (ts !! i) ->
  queue_of j (<[i := k]> ts) = if decide (i = j) then option_list (in_flight k) ++ queue k else queue_of j ts.
Proof.
  intros Hi. unfold queue_of. case_decide as Hij; [subst|by rewrite list_lookup_insert_ne].
  rewrite list_lookup_insert_eq; [done|]. by apply lookup_lt_is_Some.
Qed.

Lemma lanes_ok_set i k k' ls ts :
  lanes_ok ls ts -> ts !! i = Some k -> length (queue k') <= length (queue k) -> lanes_ok ls (<[i := k']> ts).
Proof.
  intros [Ht Ho Hb] Hi Hlen. split; [intros j; rewrite length_insert; apply Ht|done|].
  apply Forall_insert; [done|]. unfold bounded in Hb. rewrite Forall_lookup in Hb. specialize (Hb i k Hi). simpl in Hb. lia.
Qed.

Lemma bus_step_ok tr w marks w' : bus_ok tr w -> bus_step w marks w' -> bus_ok (tr ++ marks) w'.
Proof.
  intros [Hord Hok] Hstep. inversion Hstep as [on payload answers ls ts Ho|op Hop|i w1 Hr|i k payload answer w1 Hi Hf Hs|w1 Ht];
    subst.
  - pose proof (offer_all_queues on payload (listeners (table w)) (lanes (table w))) as Hq.
    pose proof (offer_all_answers on payload (listeners (table w)) (lanes (table w)) Hok) as Ha.
    assert (table (publish on payload w).2 = MkTable ls (next (table w)) ts) as Ht
      by (unfold publish; rewrite Ho; simpl; by case_decide).
    rewrite Ho in Hq, Ha. destruct Hq as (Hq & _), Ha as (_ & Hok' & _). split; rewrite Ht; [|done].
    intros i. rewrite accepted_app, settled_app, Hord, acceptances_settled, app_nil_r, <-app_assoc. f_equal. simpl.
    by rewrite Hq, took_accepted.
  - rewrite app_nil_r. destruct (op_lanes op (table w) Hop) as [Hl Hs]. split; simpl; rewrite Hl; [done|].
    by eapply lanes_ok_sub.
  - rewrite app_nil_r. unfold lane_recv in Hr. destruct (lanes (table w) !! i) as [k|] eqn:Hi; [|done]. simpl in Hr.
    destruct (in_flight k) eqn:Hf; [done|]. destruct (queue k) as [|payload q] eqn:Hq; [done|]. injection Hr as <-.
    split; simpl; [|eapply lanes_ok_set; [done|done|rewrite Hq; simpl; lia]].
    intros j. rewrite Hord, queue_set by done. case_decide as Hij; [subst j|done].
    unfold queue_of. by rewrite Hi, Hf, Hq.
  - unfold lane_settle in Hs. rewrite Hi in Hs. simpl in Hs. rewrite Hf in Hs. injection Hs as <-.
    split; simpl; [|by eapply lanes_ok_set].
    intros j. rewrite accepted_app, settled_app, Hord, queue_set by done. cbn.
    case_decide as Hij; [subst j|by rewrite !app_nil_r].
    unfold queue_of. rewrite Hi, Hf. simpl. by rewrite !app_nil_r, <-app_assoc.
  - rewrite app_nil_r. split; rewrite Ht; done.
Qed.

(** What is published arrives in order, and what does not is counted. After
    any run, what a listener's lane accepted is what it settled, in that order,
    followed by what it is delivering and what waits, and at most 256 payloads
    wait. A publish reaches exactly the listeners whose own lane has room, so
    that a slow one costs only itself; the others are counted in one row. *)
Theorem published_payloads_arrive_in_order w0 tr w on payload :
  table w0 = new_table -> bus_run w0 tr w ->
  (forall i, accepted i tr = settled i tr ++ queue_of i (lanes (table w))) /\
  bounded (lanes (table w)) /\
  let takes b := length (filter (fun l => expected on (lanes (table w)) l = Some b) (listeners (table w))) in
  let '(reached, w') := publish on payload w in
  reached = takes true /\
  rows w' = rows w ++ if decide (takes false = 0) then [] else row (PublishDropped on (Z.of_nat (takes false))) None.
Proof.
  intros Hnew Hrun. assert (bus_ok tr w) as [Hord Hok].
  { induction Hrun as [w|w tr w1 marks w2 _ IH Hstep]; [|by eapply bus_step_ok; [apply IH|]].
    split; rewrite Hnew; [done|]. split; [intros i Hi; by apply elem_of_nil in Hi|constructor|constructor]. }
  split; [done|]. split; [apply Hok|]. intros takes. unfold publish.
  pose proof (offer_all_answers on payload _ _ Hok) as Ha.
  destruct (offer_all on payload (listeners (table w)) (lanes (table w))) as [[answers ls] ts].
  destruct Ha as (-> & _). unfold counted. rewrite !filter_map, !length_map. fold (takes true). fold (takes false).
  split; [done|]. case_decide; simpl; [by rewrite app_nil_r|done].
Qed.
End Topics.

(** ** Examples *)

Module TopicsExample.
Abbreviation the_world := (@World Z nat).

(** A listener answers with its own target and is counted. *)
Definition answer (to : Z) (token : Z) (on : string) (payload : Bytes) (budget : option Z) (w : the_world) :
    result Bytes KernelError * the_world :=
  (Ok [to], MkWorld (table w) (graph w) (rows w) (S (rest w))).
Definition unwatched (w : the_world) : option (FiberId -> option Unserved) := None.
Definition nameless (f : FiberId) : option EntryId := None.

Definition registration (fiber target : Z) : Rebind :=
  MkRebind "jinn:chat/said" 1 7 (Some (MkFiberId fiber)) None target.
Definition heard : Table := (register_all [registration 2 10; registration 3 20] new_table).2.
Definition start : the_world := MkWorld heard (Some new_graph) [] 0.

Definition say (m : DispatchMode) (w : the_world) : EmitReport * the_world :=
  emit true unwatched nameless answer 0 "jinn:chat/said" m SelectAll [1]%Z (Some (MkFiberId 1)) no_realms w.

Lemma a_walk_runs_whole_or_not_at_all_witness :
  outputs (say Parallel start).1 = [[10]; [20]]%Z /\ rest (say Parallel start).2 = 2 /\
  outcome true unwatched answer 0 "jinn:chat/said" Parallel [1]%Z (Some (MkFiberId 1))
    (select 0 "jinn:chat/said" Parallel SelectAll no_realms heard) start (say Parallel start).1 (say Parallel start).2.
Proof.
  split_and!; [by vm_compute|by vm_compute|].
  apply (a_walk_runs_whole_or_not_at_all true unwatched nameless answer 0 "jinn:chat/said" Parallel SelectAll [1]%Z
    (Some (MkFiberId 1)) no_realms start).
  - intros g [= <-]. apply sound_new.
  - exact (surjective_pairing (say Parallel start)).
Defined.

Lemma heard_ok : table_ok heard.
Proof. apply table_ok_register, table_ok_new. Qed.

Definition replaced : Table := (entomb 1 (MkEntryId "chat") 5 heard).2.
Definition during : the_world := MkWorld replaced (Some new_graph) [] 0.

Lemma a_replacement_is_never_silent_witness :
  refused (say Bail during).1 = Some (MkUnserved (MkEntryId "chat") 5 OwedStalled) /\ rest (say Bail during).2 = 0.
Proof.
  split; [by vm_compute|].
  assert (exists l, listeners heard !! 0 = Some l /\ listener_id l = 1%Z /\ matching 0 "jinn:chat/said" SelectAll no_realms l)
    as (l & Hl & Hid & Hm) by (eexists; split; [reflexivity|]; split; [reflexivity|split; reflexivity]).
  destruct (a_replacement_is_never_silent true unwatched nameless answer true heard 1 (MkEntryId "chat") 5 l replaced 0
    "jinn:chat/said" Bail SelectAll [1]%Z (Some (MkFiberId 1)) no_realms during (say Bail during).1 (say Bail during).2
    heard_ok) as (_ & _ & _ & _ & Hrest & _); [by eapply list_elem_of_lookup_2|exact Hid|apply rtc_refl|reflexivity| |exact Hm|reflexivity| |].
  - intros g [= <-]. apply sound_new.
  - exact (surjective_pairing (say Bail during)).
  - exact Hrest.
Defined.

Definition told : nat * the_world := publish true true TRANSITIONS_TOPIC [9]%Z
  (MkWorld (listen_within (MkRebind TRANSITIONS_TOPIC 1 7 None None 10%Z) new_table).2 None [] 0).

Lemma published_payloads_arrive_in_order_witness :
  told.1 = 1 /\ bounded (lanes (table told.2)) /\ queue_of 0 (lanes (table told.2)) = [[9]]%Z.
Proof.
  split; [by vm_compute|].
  set (w0 := MkWorld (Target := Z) new_table None [] 0).
  set (w1 := MkWorld (Target := Z) (listen_within (MkRebind TRANSITIONS_TOPIC 1 7 None None 10%Z) new_table).2 None [] 0).
  assert (bus_run true true w0 ([] ++ []) w1) as Hrun1.
  { eapply bus_next; [apply bus_none|]. apply (bus_op _ _ w0 (OpListen (MkRebind TRANSITIONS_TOPIC 1 7 None None 10%Z)) I). }
  assert (bus_run true true w0 (([] ++ []) ++ [Accepted 0 [9]%Z]) told.2) as Hrun
    by (eapply bus_next; [exact Hrun1|]; exact (bus_publish true true w1 TRANSITIONS_TOPIC [9]%Z _ _ _ eq_refl)).
  destruct (published_payloads_arrive_in_order true true w0 _ _ TRANSITIONS_TOPIC [] eq_refl Hrun) as (Hord & Hb & _).
  split; [exact Hb|]. symmetry. exact (Hord 0).
Defined.
End TopicsExample.
