(* ===== verification/Alarms.v ===== *)
(** * Alarms ([jinnd-wasm/src/alarms.rs], [alarms/table.rs])

    One lock owns which alarms are live, and a wake's ledger row is appended
    under it. Arming, cancelling and the timer tasks interleave between any two
    of their critical sections; a timer may fire at any moment. *)

From stdpp Require Import base gmap sets list strings pretty relations.
From S2P Require Import Prelude Api Entries Paths Broker.

Inductive AlarmSpec := At (instant : Z) | Every (period : Z).

Definition alarm_label (s : AlarmSpec) : string :=
  match s with
  | At instant => "alarm at " +:+ pretty instant
  | Every period => "alarm every " +:+ pretty period +:+ "ms"
  end.

(** The resolution floor of a request. *)
Definition validate (s : AlarmSpec) (floor_ms : Z) : result () KernelError :=
  match s with
  | Every period =>
      if decide (period < floor_ms)%Z then
        Err (refusal EffectFailed ("alarm period " +:+ pretty period +:+ "ms is finer than the granted floor " +:+
          pretty floor_ms +:+ "ms"))
      else Ok ()
  | At _ => Ok ()
  end.

(** ** The table ([AlarmTable]) *)

(** A row holds the timer task once it is known. *)
Record AlarmTable := MkAlarmTable { next : Z; rows : gmap Z (option nat) }.

Definition new_alarms : AlarmTable := MkAlarmTable 0 ∅.

Definition mint (t : AlarmTable) : Z * AlarmTable :=
  let id := (next t + 1)%Z in (id, MkAlarmTable id (<[id := None]> (rows t))).

Definition install (id : Z) (handle : nat) (t : AlarmTable) : bool * AlarmTable :=
  match rows t !! id with
  | Some _ => (true, MkAlarmTable (next t) (<[id := Some handle]> (rows t)))
  | None => (false, t)
  end.

Definition alive (id : Z) (t : AlarmTable) : bool := bool_decide (is_Some (rows t !! id)).

Definition take (id : Z) (t : AlarmTable) : option (option nat) * AlarmTable :=
  (rows t !! id, MkAlarmTable (next t) (delete id (rows t))).

(** ** Requests and timer tasks *)

Record ArmRequest := MkArmRequest { spec : AlarmSpec; token : Z; requester : option FiberId }.

(** Where a timer task is. *)
Inductive Phase :=
  | Sleeping
  | Waking                                  (** the timer fired *)
  | Delivering                              (** the wake is claimed *)
  | Failed (error : KernelError)            (** the delivery failed *)
  | Recording (error : KernelError)         (** the alarm was found live *)
  | Completing                              (** a one-shot is over *)
  | Over.

Record Timer := MkTimer { timer_id : Z; request : ArmRequest; phase : Phase; aborted : bool }.

(** An [arm] call after its row was minted, and after its task was spawned. *)
Inductive Arming := Minted (id : Z) (r : ArmRequest) | Spawned (id : Z) (task : nat).

Record World := MkWorld {
  alarms : AlarmTable;
  timers : list Timer;
  arming : list Arming;
  ledger : list (LedgerEventKind * option FiberId);
}.

Definition with_alarms (t : AlarmTable) (w : World) : World := MkWorld t (timers w) (arming w) (ledger w).
Definition with_timers (ts : list Timer) (w : World) : World := MkWorld (alarms w) ts (arming w) (ledger w).
Definition with_arming (a : list Arming) (w : World) : World := MkWorld (alarms w) (timers w) a (ledger w).
Definition append (kind : LedgerEventKind) (f : option FiberId) (w : World) : World :=
  MkWorld (alarms w) (timers w) (arming w) (ledger w ++ [(kind, f)]).

Definition set_phase (i : nat) (p : Phase) (w : World) : World :=
  with_timers (alter (fun t => MkTimer (timer_id t) (request t) p (aborted t)) i (timers w)) w.

(** [AbortHandle::abort]: the task may be dropped at its next await. *)
Definition abort (i : nat) (w : World) : World :=
  with_timers (alter (fun t => MkTimer (timer_id t) (request t) (phase t) true) i (timers w)) w.

(** *** Arming *)

Definition arm_mint (r : ArmRequest) (w : World) : World :=
  let '(id, t) := mint (alarms w) in with_arming (arming w ++ [Minted id r]) (with_alarms t w).

Definition no_timer_runtime : KernelError := refusal EffectFailed "no timer runtime to host the alarm".

Definition arm_spawn (has_runtime : bool) (k : nat) (w : World) : option World :=
  match arming w !! k with
  | Some (Minted id r) =>
      if has_runtime then
        Some (with_arming (<[k := Spawned id (length (timers w))]> (arming w))
                (with_timers (timers w ++ [MkTimer id r Sleeping false]) w))
      else
        Some (append (ErrorRecorded no_timer_runtime) (requester r)
                (with_arming (delete k (arming w)) (with_alarms (take id (alarms w)).2 w)))
  | _ => None
  end.

Definition arm_install (k : nat) (w : World) : option World :=
  match arming w !! k with
  | Some (Spawned id task) =>
      let '(there, t) := install id task (alarms w) in
      let w := with_arming (delete k (arming w)) (with_alarms t w) in
      Some (if there then w else abort task w)
  | _ => None
  end.

(** *** Cancelling *)

Definition cancel (id : Z) (w : World) : bool * World :=
  let '(taken, t) := take id (alarms w) in
  let w := with_alarms t w in
  match taken with
  | Some (Some task) => (true, abort task w)
  | Some None => (true, w)
  | None => (false, w)
  end.

(** *** Rebinding

    One [arm] and one [rebind] that nothing interrupts. *)

Definition arm (has_runtime : bool) (r : ArmRequest) (w : World) : Z * World :=
  let id := (mint (alarms w)).1 in
  let k := length (arming w) in
  let w := arm_mint r w in
  let w := default w (arm_spawn has_runtime k w) in
  (id, default w (arm_install k w)).

Fixpoint arm_all (has_runtime : bool) (requests : list ArmRequest) (w : World) : list Z * World :=
  match requests with
  | [] => ([], w)
  | r :: rest =>
      let '(id, w) := arm has_runtime r w in
      let '(ids, w) := arm_all has_runtime rest w in
      (id :: ids, w)
  end.

Definition rebind (has_runtime : bool) (old : list Z) (requests : list ArmRequest) (w : World) : list Z * World :=
  arm_all has_runtime requests (fold_left (fun w id => (cancel id w).2) old w).

(** *** A timer task ([run], [wake]) *)

(** [claim_wake]: the row is appended under the lock that found it live. *)
Definition claim_wake (id : Z) (f : option FiberId) (w : World) : bool * World :=
  if alive id (alarms w) then (true, append (AlarmWake id) f w) else (false, w).

(** What follows a wake, delivered or not claimed. *)
Definition after_wake (claimed : bool) (s : AlarmSpec) : Phase :=
  match s with At _ => Completing | Every _ => if claimed then Sleeping else Over end.

(** One turn of a task; [answer] is what a delivery settles with. *)
Definition turn (i : nat) (answer : result () KernelError) (w : World) : option World :=
  match timers w !! i with
  | Some t =>
      match phase t with
      | Sleeping => Some (set_phase i Waking w)
      | Waking =>
          let '(claimed, w) := claim_wake (timer_id t) (requester (request t)) w in
          Some (set_phase i (if claimed then Delivering else after_wake false (spec (request t))) w)
      | Delivering =>
          match answer with
          | Ok _ => Some (set_phase i (after_wake true (spec (request t))) w)
          | Err error => Some (set_phase i (Failed error) w)
          end
      | Failed error =>
          Some (set_phase i (if alive (timer_id t) (alarms w) && bool_decide (fiber error = None)
                             then Recording error else after_wake true (spec (request t))) w)
      | Recording error =>
          Some (set_phase i (after_wake true (spec (request t)))
                  (append (ErrorRecorded error) (requester (request t)) w))
      | Completing => Some (set_phase i Over (with_alarms (take (timer_id t) (alarms w)).2 w))
      | Over => None
      end
  | None => None
  end.

(** An aborted task is dropped at an await. *)
Definition dropped (i : nat) (w : World) : option World :=
  match timers w !! i with
  | Some t => if aborted t then Some (set_phase i Over w) else None
  | None => None
  end.

(** ** Every interleaving *)

Inductive alarm_step (w : World) : World -> Prop :=
  | step_mint r : alarm_step w (arm_mint r w)
  | step_spawn has_runtime k w' : arm_spawn has_runtime k w = Some w' -> alarm_step w w'
  | step_install k w' : arm_install k w = Some w' -> alarm_step w w'
  | step_cancel id : alarm_step w (cancel id w).2
  | step_turn i answer w' : turn i answer w = Some w' -> alarm_step w w'
  | step_dropped i w' : dropped i w = Some w' -> alarm_step w w'.

Definition at_start (w : World) : Prop := w = MkWorld new_alarms [] [] [].

(** The wakes of one alarm on the ledger. *)
Definition is_wake (id : Z) (r : LedgerEventKind * option FiberId) : Prop := r.1 = AlarmWake id.

#[export] Instance is_wake_dec id r : Decision (is_wake id r).
Proof. unfold is_wake. destruct r.1; try (right; congruence). destruct (decide (alarm = id)); [left|right]; congruence. Defined.

Definition wakes (id : Z) (w : World) : list (LedgerEventKind * option FiberId) := filter (is_wake id) (ledger w).

(** The row of [id] is gone for good. *)
Definition retired (id : Z) (w : World) : Prop := (id <= next (alarms w))%Z /\ rows (alarms w) !! id = None.

Record alarms_ok (w : World) : Prop := {
  rows_minted id : is_Some (rows (alarms w) !! id) -> (id <= next (alarms w))%Z;
}.

Lemma install_rows id task t id' :
  is_Some (rows (install id task t).2 !! id') <-> is_Some (rows t !! id').
Proof.
  unfold install. destruct (rows t !! id) as [h|] eqn:Hid; [|done]. simpl.
  destruct (decide (id = id')) as [<-|Hne]; [rewrite lookup_insert_eq, Hid|by rewrite lookup_insert_ne].
  split; eauto.
Qed.

Lemma abort_alarms i w : alarms (abort i w) = alarms w /\ ledger (abort i w) = ledger w.
Proof. done. Qed.

(** What a step does to the rows and to the wakes of one alarm. *)
Lemma step_rows w w' id :
  alarm_step w w' ->
  (next (alarms w) <= next (alarms w'))%Z /\
  (is_Some (rows (alarms w') !! id) -> is_Some (rows (alarms w) !! id) \/ (next (alarms w) < id <= next (alarms w'))%Z) /\
  (wakes id w' = wakes id w \/
   exists f, is_Some (rows (alarms w) !! id) /\ wakes id w' = wakes id w ++ [(AlarmWake id, f)]).
Proof.
  intros Hstep. inversion Hstep as [r|rt k w1 Hs|k w1 Hs|id1|i answer w1 Hs|i w1 Hs]; subst; clear Hstep.
  - simpl. split_and!; [lia| |by left]. destruct (decide (id = next (alarms w) + 1)%Z) as [->|Hne]; [right; lia|].
    rewrite lookup_insert_ne by done. by left.
  - unfold arm_spawn in Hs. destruct (arming w !! k) as [[id1 r|]|]; [|done..].
    destruct rt; injection Hs as <-; simpl; (split_and!; [lia| |]); [by left|by left| |].
    + intros [h [_ Hh]%lookup_delete_Some]. left. by exists h.
    + unfold wakes. simpl. rewrite filter_app, filter_cons_False by done. rewrite filter_nil, app_nil_r. by left.
  - unfold arm_install in Hs. destruct (arming w !! k) as [[|id1 task]|]; [done| |done].
    pose proof (install_rows id1 task (alarms w) id) as Hi.
    assert (next (install id1 task (alarms w)).2 = next (alarms w)) as Hn by (unfold install; by destruct (rows (alarms w) !! id1)).
    destruct (install id1 task (alarms w)) as [there t]. simpl in *. injection Hs as <-.
    destruct there; simpl; rewrite Hn; (split_and!; [lia|intros ?; left; by apply Hi|by left]).
  - unfold cancel, take. destruct (rows (alarms w) !! id1) as [[task|]|]; simpl;
      (split_and!; [lia|intros [h [_ Hh]%lookup_delete_Some]; left; by exists h|by left]).
  - assert (forall p w2, alarms (set_phase i p w2) = alarms w2 /\ ledger (set_phase i p w2) = ledger w2) as Hset by done.
    unfold turn in Hs. destruct (timers w !! i) as [t|]; [|done].
    destruct (phase t) as [| | |error|error| |]; try (injection Hs as <-; simpl; split_and!; [lia|by left|by left]).
    + unfold claim_wake, alive in Hs. destruct (bool_decide _) eqn:Hlive; injection Hs as <-; simpl;
        (split_and!; [lia|by left|]); [|by left].
      unfold wakes. simpl. rewrite filter_app. apply bool_decide_eq_true in Hlive.
      destruct (decide (timer_id t = id)) as [<-|Hne].
      * right. eexists. split; [done|]. by rewrite filter_cons_True.
      * left. rewrite filter_cons_False by (unfold is_wake; simpl; congruence). by rewrite filter_nil, app_nil_r.
    + destruct answer; injection Hs as <-; simpl; (split_and!; [lia|by left|by left]).
    + injection Hs as <-. simpl. split_and!; [lia|by left|]. left. unfold wakes. simpl.
      by rewrite filter_app, filter_cons_False, filter_nil, app_nil_r.
    + injection Hs as <-. simpl. split_and!; [lia| |by left].
      intros [h [_ Hh]%lookup_delete_Some]. left. by exists h.
    + done.
  - unfold dropped in Hs. destruct (timers w !! i) as [t|]; [|done]. destruct (aborted t); [|done].
    injection Hs as <-. simpl. split_and!; [lia|by left|by left].
Qed.

(** *** Who owns an id *)

Definition arming_id (a : Arming) : option Z := match a with Minted id _ => Some id | Spawned _ _ => None end.

Definition owners (w : World) : list Z := omap arming_id (arming w) ++ map timer_id (timers w).

Definition waking (p : Phase) : Prop := match p with Sleeping | Waking => True | _ => False end.

(** What the ledger holds of an alarm, as far as its task got. *)
Record timer_ok (w : World) (t : Timer) : Prop := {
  wakes_attributed : Forall (fun r => r.2 = requester (request t)) (wakes (timer_id t) w);
  one_shot instant : spec (request t) = At instant ->
    length (wakes (timer_id t) w) <= 1 /\ (waking (phase t) -> wakes (timer_id t) w = []);
}.

Record ledger_ok (w : World) : Prop := {
  owners_differ : NoDup (owners w);
  owners_minted id : id ∈ owners w -> (id <= next (alarms w))%Z;
  unspawned_silent id : id ∉ map timer_id (timers w) -> wakes id w = [];
  timers_ok i t : timers w !! i = Some t -> timer_ok w t;
}.

Lemma at_start_ok w : at_start w -> ledger_ok w.
Proof.
  intros ->. split; [apply NoDup_nil_2| |done|by intros []].
  intros id Hid. by apply elem_of_nil in Hid.
Qed.

(** A step that moves neither ids nor the ledger's wakes. *)
Lemma ledger_ok_same w w' :
  ledger_ok w -> (next (alarms w) <= next (alarms w'))%Z -> (forall id, wakes id w' = wakes id w) ->
  map timer_id (timers w') = map timer_id (timers w) ->
  omap arming_id (arming w') `sublist_of` omap arming_id (arming w) ->
  (forall i t', timers w' !! i = Some t' -> exists t, timers w !! i = Some t /\ timer_id t' = timer_id t /\
    request t' = request t /\ (waking (phase t') -> waking (phase t) \/ exists period, spec (request t) = Every period)) ->
  ledger_ok w'.
Proof.
  intros [Hnd Hle Hsil Htim] Hn Hw Hids Harm Hts.
  assert (owners w' `sublist_of` owners w) as Hsub by (unfold owners; rewrite Hids; by apply sublist_app).
  split.
  - by eapply sublist_NoDup.
  - intros id Hid. specialize (Hle id ltac:(by eapply elem_of_sublist)). lia.
  - intros id Hid. rewrite Hw. apply Hsil. by rewrite <-Hids.
  - intros i t' Ht'. destruct (Hts i t' Ht') as (t & Ht & Hid & Hr & Hp). destruct (Htim i t Ht) as [Ha Ho].
    split; rewrite Hw, Hid, Hr; [done|]. intros instant Hs. destruct (Ho instant Hs) as [H1 H2].
    split; [done|]. intros Hwk. destruct (Hp Hwk) as [?|[period ?]]; [auto|congruence].
Qed.

Lemma set_phase_timers i p w j t' :
  timers (set_phase i p w) !! j = Some t' ->
  exists t, timers w !! j = Some t /\ timer_id t' = timer_id t /\ request t' = request t /\
    (phase t' = if decide (i = j) then p else phase t).
Proof.
  unfold set_phase. simpl. destruct (decide (i = j)) as [<-|Hne].
  - rewrite list_lookup_alter_eq. destruct (timers w !! i) as [t|]; [|done]. intros [= <-]. by exists t.
  - rewrite list_lookup_alter_ne by done. intros Ht. by exists t'.
Qed.

Lemma alter_ids (f : Timer -> Timer) i ts :
  (forall t, timer_id (f t) = timer_id t) -> map timer_id (alter f i ts) = map timer_id ts.
Proof.
  intros Hf. revert i. induction ts as [|t ts IH]; intros [|i]; try done; cbn; f_equal; [apply Hf|apply (IH i)].
Qed.

(** Only a task that wakes periodically sleeps again. *)
Lemma set_phase_ok i p w t :
  ledger_ok w -> timers w !! i = Some t ->
  (waking p -> waking (phase t) \/ exists period, spec (request t) = Every period) -> ledger_ok (set_phase i p w).
Proof.
  intros Hok Ht Hp. eapply ledger_ok_same; [exact Hok|simpl; lia|done|by apply alter_ids|done|].
  intros j t' Ht'. apply set_phase_timers in Ht' as (t1 & Ht1 & Hid & Hr & Hph). exists t1.
  split_and!; [done..|]. rewrite Hph. case_decide as Hij; [subst j|by left]. intros Hw. rewrite Ht in Ht1.
  injection Ht1 as <-. auto.
Qed.

Lemma after_wake_waking claimed s : waking (after_wake claimed s) -> exists period, s = Every period.
Proof. destruct s; [done|]. eauto. Qed.

Lemma wakes_append id kind f w :
  wakes id (append kind f w) = wakes id w ++ if decide (is_wake id (kind, f)) then [(kind, f)] else [].
Proof. unfold wakes. simpl. rewrite filter_app, filter_cons, filter_nil. by case_decide. Qed.

(** Rows that are no wake, and changes of the table, touch nothing here. *)
Lemma quiet_ok w w' :
  ledger_ok w -> (next (alarms w) <= next (alarms w'))%Z -> (forall id, wakes id w' = wakes id w) ->
  timers w' = timers w -> omap arming_id (arming w') `sublist_of` omap arming_id (arming w) -> ledger_ok w'.
Proof.
  intros Hok Hn Hw Ht Ha. eapply ledger_ok_same; [exact Hok|done|done|by rewrite Ht|done|].
  intros i t'. rewrite Ht. intros Ht'. exists t'. split_and!; auto.
Qed.

Lemma abort_ok i w : ledger_ok w -> ledger_ok (abort i w).
Proof.
  intros Hok. eapply ledger_ok_same; [exact Hok|simpl; lia|done|by apply alter_ids|done|].
  intros j t'. simpl. destruct (decide (i = j)) as [<-|Hne].
  - rewrite list_lookup_alter_eq. destruct (timers w !! i) as [t|]; [|done]. intros [= <-]. exists t. simpl. auto.
  - rewrite list_lookup_alter_ne by done. intros Ht. exists t'. auto.
Qed.

Lemma take_next id t : next (take id t).2 = next t.
Proof. done. Qed.

Lemma sublist_omap_delete k (a : list Arming) : omap arming_id (delete k a) `sublist_of` omap arming_id a.
Proof.
  revert k. induction a as [|x a IH]; intros [|k]; [done..| |]; cbn; destruct (arming_id x); try done.
  - by constructor.
  - constructor. apply IH.
Qed.

Lemma mint_ok r w : alarms_ok w -> ledger_ok w -> ledger_ok (arm_mint r w).
Proof.
  intros _ [Hnd Hle Hsil Htim]. set (id := (next (alarms w) + 1)%Z).
  assert (owners (arm_mint r w) ≡ₚ id :: owners w) as Hown.
  { unfold owners, arm_mint. simpl. rewrite omap_app. simpl. rewrite <-app_assoc. symmetry. apply Permutation_middle. }
  split.
  - rewrite Hown. apply NoDup_cons. split; [|done]. intros Hin%Hle. unfold id in Hin. lia.
  - intros k. rewrite Hown. simpl. intros [->|Hk%Hle]%elem_of_cons; [unfold id; lia|lia].
  - intros k Hk. unfold arm_mint, wakes in *. simpl in *. by apply Hsil.
  - intros i t Ht. unfold arm_mint in *. simpl in Ht. destruct (Htim i t Ht). by split.
Qed.

Lemma spawn_ok rt k w w' : ledger_ok w -> arm_spawn rt k w = Some w' -> ledger_ok w'.
Proof.
  intros Hok Hs. unfold arm_spawn in Hs. destruct (arming w !! k) as [[id r|]|] eqn:Hk; [|done..].
  destruct rt; injection Hs as <-.
  - destruct Hok as [Hnd Hle Hsil Htim].
    assert (exists l1 l2, arming w = l1 ++ Minted id r :: l2 /\ length l1 = k) as (l1 & l2 & Ha & Hlen)
      by (by apply list_elem_of_split_length in Hk as (l1 & l2 & Ha & Hl); eauto).
    assert (owners (with_arming (<[k:=Spawned id (length (timers w))]> (arming w))
      (with_timers (timers w ++ [MkTimer id r Sleeping false]) w)) ≡ₚ owners w) as Hown.
    { unfold owners. simpl. rewrite Ha, <-Hlen, insert_app_r_alt, Nat.sub_diag by lia. simpl. rewrite !omap_app. simpl.
      rewrite map_app. simpl. rewrite <-!app_assoc. apply Permutation_app_head.
      rewrite app_assoc, Permutation_app_comm. done. }
    assert (id ∉ map timer_id (timers w)) as Hfresh.
    { unfold owners in Hnd. rewrite Ha, omap_app in Hnd. simpl in Hnd. apply NoDup_app in Hnd as (_ & Hno & _).
      apply Hno, elem_of_app. right. by left. }
    split.
    + by rewrite Hown.
    + intros j. rewrite Hown. apply Hle.
    + intros j Hj. apply Hsil. simpl in Hj. rewrite map_app in Hj. intros Hin. apply Hj, elem_of_app. by left.
    + intros i t. simpl. intros [Ht|[_ Ht]]%lookup_app_Some; [by destruct (Htim i t Ht)|].
      apply list_lookup_singleton_Some in Ht as [_ <-]. assert (wakes id w = []) as Hw by by apply Hsil.
      split; simpl; unfold wakes in *; simpl; rewrite Hw; [constructor|]. simpl. auto with lia.
  - eapply quiet_ok; [done|simpl; lia| |done|].
    + intros j. rewrite wakes_append. case_decide as Hd; [done|]. by rewrite app_nil_r.
    + simpl. apply sublist_omap_delete.
Qed.

Lemma claim_ok i w t :
  ledger_ok w -> timers w !! i = Some t -> phase t = Waking ->
  ledger_ok (set_phase i Delivering (append (AlarmWake (timer_id t)) (requester (request t)) w)).
Proof.
  intros [Hnd Hle Hsil Htim] Ht Hp. set (w1 := append _ _ w).
  assert (forall id, wakes id w1 = wakes id w ++ if decide (id = timer_id t) then [(AlarmWake (timer_id t), requester (request t))] else []) as Hw.
  { intros id. unfold w1. rewrite wakes_append. f_equal. unfold is_wake. simpl. repeat case_decide; naive_solver. }
  assert (timer_id t ∈ map timer_id (timers w)) as Hin by (apply list_elem_of_fmap_2; by eapply list_elem_of_lookup_2).
  assert (map timer_id (timers (set_phase i Delivering w1)) = map timer_id (timers w)) as Hids by by apply alter_ids.
  split.
  - unfold owners. by rewrite Hids.
  - unfold owners. rewrite Hids. exact Hle.
  - intros id. rewrite Hids. intros Hn. change (wakes id (set_phase i Delivering w1)) with (wakes id w1).
    rewrite Hw, (Hsil id Hn), decide_False; [done|congruence].
  - intros j t' Ht'. apply set_phase_timers in Ht' as (t1 & Ht1 & Hid & Hr & Hph). change (timers w1) with (timers w) in Ht1.
    destruct (Htim j t1 Ht1) as [Ha Ho].
    assert (timer_id t1 = timer_id t -> i = j) as Hsame.
    { intros Heq. apply NoDup_app in Hnd as (_ & _ & Hnd). apply (NoDup_lookup (map timer_id (timers w)) i j (timer_id t)); [done|..].
      - by apply lookup_map.
      - rewrite <-Heq. by apply lookup_map. }
    split; change (wakes ?x (set_phase i Delivering w1)) with (wakes x w1) in *; rewrite Hid, Hr;
      change (wakes (timer_id t1) (set_phase i Delivering w1)) with (wakes (timer_id t1) w1); rewrite Hw.
    + apply Forall_app. split; [done|].
      destruct (decide (timer_id t1 = timer_id t)) as [Heq|_]; [|constructor]. rewrite <-(Hsame Heq) in Ht1. rewrite Ht in Ht1.
      injection Ht1 as <-. by repeat constructor.
    + intros instant Hs. destruct (Ho instant Hs) as [Hlen Hnone]. rewrite Hph.
      destruct (decide (timer_id t1 = timer_id t)) as [Heq|_].
      * rewrite <-(Hsame Heq) in *. rewrite decide_True by done. rewrite Ht in Ht1. injection Ht1 as <-.
        rewrite Hnone by (by rewrite Hp). split; [simpl; lia|by intros []].
      * rewrite app_nil_r. case_decide; [split; [done|by intros []]|done].
Qed.

Lemma turn_ok i answer w w' : ledger_ok w -> turn i answer w = Some w' -> ledger_ok w'.
Proof.
  intros Hok Hs. unfold turn in Hs. destruct (timers w !! i) as [t|] eqn:Ht; [|done].
  assert (forall claimed, ledger_ok (set_phase i (after_wake claimed (spec (request t))) w)) as Hafter
    by (intros c; eapply set_phase_ok; [done..|]; intros Hw; right; by eapply after_wake_waking).
  destruct (phase t) as [| | |error|error| |] eqn:Hp.
  - injection Hs as <-. eapply set_phase_ok; [done..|]. intros _. left. by rewrite Hp.
  - unfold claim_wake in Hs. destruct (alive _ _); injection Hs as <-; [by apply claim_ok|apply Hafter].
  - destruct answer; injection Hs as <-; [apply Hafter|]. by eapply set_phase_ok.
  - injection Hs as <-. destruct (_ && _); [by eapply set_phase_ok|apply Hafter].
  - injection Hs as <-. assert (ledger_ok (append (ErrorRecorded error) (requester (request t)) w)) as Hok'.
    { apply (quiet_ok w); [done|simpl; lia| |done|done].
      intros id. rewrite wakes_append. case_decide as Hd; [done|]. by rewrite app_nil_r. }
    eapply set_phase_ok; [exact Hok'|exact Ht|]. intros Hw. right. by eapply after_wake_waking.
  - injection Hs as <-. assert (ledger_ok (with_alarms (take (timer_id t) (alarms w)).2 w)) as Hok'
      by by apply (quiet_ok w).
    eapply set_phase_ok; [exact Hok'|exact Ht|done].
  - done.
Qed.

Lemma step_ok w w' : alarms_ok w -> ledger_ok w -> alarm_step w w' -> ledger_ok w'.
Proof.
  intros Ha Hok Hstep. inversion Hstep as [r|rt k w1 Hs|k w1 Hs|id1|i answer w1 Hs|i w1 Hs]; subst.
  - by apply mint_ok.
  - by eapply spawn_ok.
  - unfold arm_install in Hs. destruct (arming w !! k) as [[|id task]|]; [done| |done].
    assert (next (install id task (alarms w)).2 = next (alarms w)) as Hn
      by (unfold install; by destruct (rows (alarms w) !! id)).
    destruct (install id task (alarms w)) as [there t]. simpl in Hn. injection Hs as <-.
    assert (ledger_ok (with_arming (delete k (arming w)) (with_alarms t w))) as Hok'.
    { apply (quiet_ok w); [done|simpl; lia|done|done|]. simpl. apply sublist_omap_delete. }
    destruct there; [done|]. by apply abort_ok.
  - unfold cancel, take. assert (ledger_ok (with_alarms (MkAlarmTable (next (alarms w)) (delete id1 (rows (alarms w)))) w)) as Hok'
      by by apply (quiet_ok w).
    destruct (rows (alarms w) !! id1) as [[task|]|]; [by apply abort_ok|done|done].
  - by eapply turn_ok.
  - unfold dropped in Hs. destruct (timers w !! i) as [t|] eqn:Ht; [|done]. destruct (aborted t); [|done].
    injection Hs as <-. by eapply set_phase_ok.
Qed.

Lemma step_alarms_ok w w' : alarms_ok w -> alarm_step w w' -> alarms_ok w'.
Proof.
  intros Ha Hstep. split. intros id Hid. destruct (step_rows w w' id Hstep) as (Hn & Hr & _).
  destruct (Hr Hid) as [Hold|]; [|lia]. specialize (rows_minted _ Ha id Hold). lia.
Qed.

Lemma steps_alarms_ok w w' : alarms_ok w -> rtc alarm_step w w' -> alarms_ok w'.
Proof. intros Ha Hr. induction Hr; [done|]. apply IHHr. by eapply step_alarms_ok. Qed.

Lemma alarms_reached w : reachable at_start alarm_step w -> alarms_ok w /\ ledger_ok w.
Proof.
  apply (reachable_invariant _ _ (fun w => alarms_ok w /\ ledger_ok w)).
  - intros w0 H0. split; [|by apply at_start_ok]. rewrite H0. split. intros id [h Hh]. simpl in Hh. by rewrite lookup_empty in Hh.
  - intros w1 w2 [Ha Hl] Hstep. split; [by eapply step_alarms_ok|by eapply step_ok].
Qed.

(** A row gone for good stays so, and its alarm wakes no more. *)
Lemma retired_steps id w1 w2 : retired id w1 -> rtc alarm_step w1 w2 -> wakes id w2 = wakes id w1 /\ retired id w2.
Proof.
  intros H1 Hr. induction Hr as [w1|w1 w3 w2 Hstep _ IH]; [done|].
  destruct (step_rows w1 w3 id Hstep) as (Hn & Hrow & Hwk). destruct H1 as [Hle Hnone].
  assert (~ is_Some (rows (alarms w1) !! id)) as Hno by (rewrite Hnone; apply is_Some_None).
  assert (retired id w3) as H3.
  { split; [lia|]. apply eq_None_not_Some. intros Hs. destruct (Hrow Hs) as [?|?]; [done|lia]. }
  destruct (IH H3) as [IH1 IH2]. split; [|done]. rewrite IH1. destruct Hwk as [?|(f & Hs & _)]; done.
Qed.

Lemma cancel_all_wakes id old w : wakes id (fold_left (fun w id => (cancel id w).2) old w) = wakes id w.
Proof.
  revert w. induction old as [|i old IH]; intros w; simpl; [done|]. rewrite IH.
  unfold cancel, take. by destruct (rows (alarms w) !! i) as [[?|]|].
Qed.

(** A cancelled alarm is silent. Whatever arms, cancels, fires, fails or is
    aborted in between, from the moment a cancel of a minted alarm returned, or
    its one-shot completed, no wake of it is ever appended, it is never live
    again, and every later cancel answers that it was not. Every wake on the
    ledger is attributed to the fiber that asked for it, and a one-shot alarm
    has at most one. *)
Theorem a_cancelled_alarm_is_silent w id w1 w2 :
  reachable at_start alarm_step w -> (id <= next (alarms w))%Z ->
  w1 = (cancel id w).2 -> rtc alarm_step w1 w2 ->
  (wakes id w2 = wakes id w /\ alive id (alarms w2) = false /\ (cancel id w2).1 = false) /\
  forall t, t ∈ timers w2 ->
    Forall (fun r => r.2 = requester (request t)) (wakes (timer_id t) w2) /\
    forall instant, spec (request t) = At instant -> length (wakes (timer_id t) w2) <= 1.
Proof.
  intros Hreach Hid -> Hr.
  assert (retired id (cancel id w).2 /\ wakes id (cancel id w).2 = wakes id w) as [H1 Hw].
  { unfold cancel, take. destruct (rows (alarms w) !! id) as [[task|]|]; simpl;
      (split; [split; [done|apply lookup_delete_eq]|done]). }
  assert (reachable at_start alarm_step w2) as Hreach2.
  { destruct (reachable_step _ _ _ _ Hreach (step_cancel w id)) as (s0 & H0 & Hs0). exists s0. split; [done|]. by etrans. }
  split.
  - rewrite <-Hw. clear Hw Hreach Hreach2. assert (wakes id w2 = wakes id (cancel id w).2 /\ retired id w2) as [-> [_ H2]]
      by by apply retired_steps.
    split_and!; [done| |].
    + unfold alive. rewrite H2. apply bool_decide_false, is_Some_None.
    + unfold cancel, take. by rewrite H2.
  - intros t Ht. destruct (alarms_reached _ Hreach2) as [_ Hok]. apply list_elem_of_lookup in Ht as [i Hi].
    destruct (timers_ok _ Hok i t Hi) as [Ha Ho]. split; [done|]. intros instant Hs. by destruct (Ho instant Hs).
Qed.

(** ** Rebinding *)

Lemma cancel_all_rows old w :
  let w' := fold_left (fun w id => (cancel id w).2) old w in
  rtc alarm_step w w' /\ next (alarms w') = next (alarms w) /\ arming w' = arming w /\
  forall id, rows (alarms w') !! id = if decide (id ∈ old) then None else rows (alarms w) !! id.
Proof.
  revert w. induction old as [|i old IH]; intros w; simpl; [by split_and!|].
  destruct (IH (cancel i w).2) as (Hr & Hn & Ha & Hrows).
  assert (next (alarms (cancel i w).2) = next (alarms w) /\ arming (cancel i w).2 = arming w /\
          rows (alarms (cancel i w).2) = delete i (rows (alarms w))) as (Hn1 & Ha1 & Hr1)
    by (unfold cancel, take; by destruct (rows (alarms w) !! i) as [[?|]|]).
  split_and!; [by eapply rtc_l; [apply step_cancel|]|congruence|congruence|].
  intros id. rewrite Hrows, Hr1. destruct (decide (id = i)) as [->|Hne].
  - rewrite lookup_delete_eq, (decide_True (P := i ∈ i :: old)) by set_solver. by case_decide.
  - rewrite lookup_delete_ne by done. case_decide; [rewrite decide_True by set_solver|rewrite decide_False by set_solver]; done.
Qed.

(** What one undisturbed [arm] does: the next id, live exactly when a runtime
    hosts it, nobody else's row touched. *)
Lemma arm_rows rt r w :
  alarms_ok w ->
  let '(id, w') := arm rt r w in
  rtc alarm_step w w' /\ id = (next (alarms w) + 1)%Z /\ next (alarms w') = id /\
  rows (alarms w') = if rt then <[id := Some (length (timers w))]> (rows (alarms w)) else rows (alarms w).
Proof.
  intros Hok. assert (rows (alarms w) !! (next (alarms w) + 1)%Z = None) as Hfree.
  { apply eq_None_not_Some. intros Hs. pose proof (rows_minted _ Hok _ Hs). lia. }
  unfold arm. simpl.
  pose proof (step_mint w r) as H1.
  assert (arming (arm_mint r w) !! length (arming w) = Some (Minted (next (alarms w) + 1) r)) as Hk
    by by simpl; rewrite list_lookup_middle.
  unfold arm_spawn. rewrite Hk. destruct rt.
  - assert (arm_spawn true (length (arming w)) (arm_mint r w) =
            Some (with_arming (<[length (arming w) := Spawned (next (alarms w) + 1) (length (timers w))]>
              (arming (arm_mint r w))) (with_timers (timers w ++ [MkTimer (next (alarms w) + 1) r Sleeping false]) (arm_mint r w)))) as Hs
      by (unfold arm_spawn; by rewrite Hk).
    simpl. destruct (arm_install _ _) as [w'|] eqn:Hi.
    + pose proof Hi as Hi'. unfold arm_install in Hi. simpl in Hi.
      rewrite list_lookup_insert_eq in Hi by (rewrite length_app; simpl; lia).
      unfold install in Hi. simpl in Hi. rewrite lookup_insert_eq in Hi. injection Hi as <-. simpl.
      split_and!; [|done|done|apply insert_insert_eq].
      eapply rtc_l; [exact H1|]. eapply rtc_l; [eapply step_spawn, Hs|]. eapply rtc_once, step_install. exact Hi'.
    + exfalso. unfold arm_install in Hi. simpl in Hi.
      rewrite list_lookup_insert_eq in Hi by (rewrite length_app; simpl; lia).
      by destruct (install _ _ _) in Hi.
  - assert (arm_spawn false (length (arming w)) (arm_mint r w) =
            Some (append (ErrorRecorded no_timer_runtime) (requester r) (with_arming (delete (length (arming w))
              (arming (arm_mint r w))) (with_alarms (take (next (alarms w) + 1) (alarms (arm_mint r w))).2 (arm_mint r w))))) as Hs
      by (unfold arm_spawn; by rewrite Hk).
    simpl. assert (delete (length (arming w)) (arming w ++ [Minted (next (alarms w) + 1) r]) = arming w) as Hd
      by (rewrite delete_middle, app_nil_r; done).
    unfold arm_install. simpl. rewrite Hd. rewrite (lookup_ge_None_2 (arming w)) by done. simpl.
    split_and!; [|done|done|by apply delete_insert_id].
    eapply rtc_l; [exact H1|]. eapply rtc_once, step_spawn. rewrite Hs. simpl. by rewrite Hd.
Qed.

Lemma arm_all_rows rt rs w :
  alarms_ok w ->
  let '(ids, w') := arm_all rt rs w in
  rtc alarm_step w w' /\ ids = seqZ (next (alarms w) + 1) (Z.of_nat (length rs)) /\
  forall id, alive id (alarms w') = true <-> (rt = true /\ id ∈ ids) \/ alive id (alarms w) = true.
Proof.
  revert w. induction rs as [|r rs IH]; intros w Hok; cbn [arm_all length].
  - split_and!; [done|by rewrite seqZ_nil by lia|]. intros id. rewrite elem_of_nil. tauto.
  - pose proof (arm_rows rt r w Hok) as Ha. destruct (arm rt r w) as [id1 w1]. destruct Ha as (Hr1 & Hid & Hn & Hrows).
    specialize (IH w1 (steps_alarms_ok _ _ Hok Hr1)). destruct (arm_all rt rs w1) as [ids w2].
    destruct IH as (Hr2 & -> & Hal). split_and!; [by etrans| |].
    + rewrite (seqZ_cons (next (alarms w) + 1)) by lia. rewrite Hn, Hid. f_equal. unfold Z.succ. f_equal; lia.
    + intros id. rewrite Hal. unfold alive. rewrite Hrows, !bool_decide_eq_true. rewrite elem_of_cons. destruct rt; [|split; [intros [[]|]; [done|by right]|intros [[]|]; [done|by right]]].
      destruct (decide (id = id1)) as [->|Hne]; [rewrite lookup_insert_eq|rewrite lookup_insert_ne by done; tauto].
      split; [intros _; left; split; [done|by left]|intros _; right; by eexists].
Qed.

Lemma rebind_rows rt old requests w :
  alarms_ok w ->
  let '(ids, w') := rebind rt old requests w in
  rtc alarm_step (fold_left (fun w id => (cancel id w).2) old w) w' /\ rtc alarm_step w w' /\
  ids = seqZ (next (alarms w) + 1) (Z.of_nat (length requests)) /\
  (forall id, alive id (alarms w') = true <->
     (rt = true /\ id ∈ ids) \/ (alive id (alarms w) = true /\ id ∉ old)).
Proof.
  intros Hok. unfold rebind. destruct (cancel_all_rows old w) as (Hr1 & Hn & _ & Hrows). set (w1 := fold_left _ old w) in *.
  pose proof (arm_all_rows rt requests w1 (steps_alarms_ok _ _ Hok Hr1)) as Ha.
  destruct (arm_all rt requests w1) as [ids w']. destruct Ha as (Hr2 & -> & Hal).
  rewrite Hn in *. split_and!; [done|by etrans|done|].
  intros id. rewrite Hal. unfold alive. rewrite Hrows, !bool_decide_eq_true. case_decide; [|tauto].
  split; [intros [?|Hs]; [by left|]|intros [?|[_ ?]]; [by left|done]]. by apply is_Some_None in Hs.
Qed.

(** A swap's rebind moves every alarm over. From any state the host can
    reach, a rebind that nothing interrupts answers the next ids in the order of
    its requests, and afterwards the live alarms are exactly those of the staged
    seat and those live before that were not the displaced seat's; without a
    timer runtime the new ones are not live either. Every state it passes
    through is one the interleaving reaches, so no displaced alarm ever wakes
    again. *)
Theorem a_rebind_moves_every_alarm rt old requests w :
  reachable at_start alarm_step w ->
  let '(ids, w') := rebind rt old requests w in
  rtc alarm_step w w' /\ ids = seqZ (next (alarms w) + 1) (Z.of_nat (length requests)) /\
  (forall id, alive id (alarms w') = true <->
     (rt = true /\ id ∈ ids) \/ (alive id (alarms w) = true /\ id ∉ old)) /\
  forall id w2, id ∈ old -> (id <= next (alarms w))%Z -> rtc alarm_step w' w2 ->
    wakes id w2 = wakes id w /\ alive id (alarms w2) = false.
Proof.
  intros Hreach. destruct (alarms_reached _ Hreach) as [Hok _]. pose proof (rebind_rows rt old requests w Hok) as Hreb.
  destruct (rebind rt old requests w) as [ids w']. destruct Hreb as (Hr2 & Hr & -> & Hal). split_and!; [done..|].
  destruct (cancel_all_rows old w) as (_ & Hn & _ & Hrows). intros id w2 Hid Hle Hr3.
  assert (retired id (fold_left (fun w id => (cancel id w).2) old w)) as H1
    by (split; [lia|]; rewrite Hrows; by rewrite decide_True).
  destruct (retired_steps _ _ w2 H1) as [Hw [_ Hnone]]; [by etrans|]. split.
  - rewrite Hw. apply cancel_all_wakes.
  - unfold alive. rewrite Hnone. apply bool_decide_false, is_Some_None.
Qed.

(** ** Example *)

Module AlarmsExample.
Definition asked : ArmRequest := MkArmRequest (At 1000) 7 (Some (MkFiberId 2)).

(** Armed, spawned, installed, fired and claimed; then cancelled while the
    wake is being delivered. *)
Definition fired : option World :=
  w ← arm_spawn true 0 (arm_mint asked (MkWorld new_alarms [] [] []));
  w ← arm_install 0 w; w ← turn 0 (Ok ()) w; turn 0 (Ok ()) w.

Definition woken : World := default (MkWorld new_alarms [] [] []) fired.

Lemma woken_reached : reachable at_start alarm_step woken.
Proof.
  set (w0 := MkWorld new_alarms [] [] []).
  assert (reachable at_start alarm_step w0) as H0 by by apply reachable_init.
  pose proof (reachable_step _ _ _ _ H0 (step_mint _ asked)) as H1.
  pose proof (reachable_step _ _ _ _ H1 (step_spawn (arm_mint asked w0) true 0 _ eq_refl)) as H2.
  match type of H2 with reachable _ _ ?w => pose proof (reachable_step _ _ _ _ H2 (step_install w 0 _ eq_refl)) as H3 end.
  match type of H3 with reachable _ _ ?w => pose proof (reachable_step _ _ _ _ H3 (step_turn w 0 (Ok ()) _ eq_refl)) as H4 end.
  match type of H4 with reachable _ _ ?w => exact (reachable_step _ _ _ _ H4 (step_turn w 0 (Ok ()) _ eq_refl)) end.
Qed.

Lemma a_cancelled_alarm_is_silent_witness :
  (cancel 1 woken).1 = true /\ wakes 1 (cancel 1 woken).2 = [(AlarmWake 1, Some (MkFiberId 2))] /\
  (cancel 1 (cancel 1 woken).2).1 = false.
Proof.
  split_and!; [by vm_compute|by vm_compute|].
  destruct (a_cancelled_alarm_is_silent woken 1 (cancel 1 woken).2 (cancel 1 woken).2 woken_reached) as [(_ & _ & H) _];
    [by vm_compute|reflexivity|apply rtc_refl|exact H].
Defined.

(** Alarm 1 makes way for two others; nothing of it is left. *)
Lemma a_rebind_moves_every_alarm_witness :
  let '(ids, w') := rebind true [1%Z] [asked; MkArmRequest (Every 300) 8 None] woken in
  ids = [2; 3]%Z /\ alive 1 (alarms w') = false /\ alive 2 (alarms w') = true /\ alive 3 (alarms w') = true.
Proof.
  pose proof (a_rebind_moves_every_alarm true [1%Z] [asked; MkArmRequest (Every 300) 8 None] woken woken_reached) as H.
  destruct (rebind true [1%Z] [asked; MkArmRequest (Every 300) 8 None] woken) as [ids w'] eqn:Hr.
  destruct H as (_ & Hids & Hal & Hold).
  assert (ids = [2; 3]%Z) as Heq by (rewrite Hids; by vm_compute).
  split_and!; [exact Heq| | |].
  - apply (Hold 1%Z w'); [by left|by vm_compute|apply rtc_refl].
  - apply Hal. left. split; [reflexivity|]. rewrite Heq. by left.
  - apply Hal. left. split; [reflexivity|]. rewrite Heq. right. by left.
Defined.
End AlarmsExample.
