(* ===== verification/Settle.v ===== *)
(** * The guest-call deadline ([jinnd-wasm/src/settle.rs])

    A call's deadline runs over its active time alone: host imports park its
    clock around event walks. The clock is three numbers, changed at boundaries
    only; [within] races it against the call. Proved equal to counting, instant
    by instant, those at which nothing was parked. *)

From stdpp Require Import base numbers gmap sets list strings relations.
From S2P Require Import Prelude Api Entries Paths Broker.

(** ** The clock *)

Record ActiveClock := MkClock { depth : Z; elapsed : Z; resumed : Z }.

Definition new_clock (now : Z) : ActiveClock := MkClock 0 0 now.

Definition elapsed_at (now : Z) (c : ActiveClock) : Z :=
  (elapsed c + if decide (depth c = 0)%Z then now - resumed c else 0)%Z.

Definition park (now : Z) (c : ActiveClock) : ActiveClock :=
  MkClock (depth c + 1) (elapsed_at now c) (resumed c).

Definition resume (now : Z) (c : ActiveClock) : ActiveClock :=
  let d := saturating_sub (depth c) 1 in
  MkClock d (elapsed c) (if decide (d = 0)%Z then now else resumed c).

(** ** Settling a call *)

Inductive Settled (T : Type) := SettledOk (value : T) | SettledFault (e : KernelError) | SettledDead (e : KernelError).
Arguments SettledOk {T}.
Arguments SettledFault {T}.
Arguments SettledDead {T}.

(** What a guest call comes to: a trap (out of fuel or not, with its text), a
    fault it answered, or a value. *)
Inductive Ended (T : Type) := Trapped (out_of_fuel : bool) (text : string) | Faulted (text : string) | Returned (value : T).
Arguments Trapped {T}.
Arguments Faulted {T}.
Arguments Returned {T}.

Definition trapped (text : string) : KernelError := MkKernelError PluginFailed ("guest trapped: " +:+ text) None.
Definition delivery_trap (out_of_fuel : bool) (text : string) (budgeted : bool) : KernelError :=
  if budgeted && out_of_fuel then MkKernelError PluginFailed "guest exhausted its delivery fuel budget" None else trapped text.
Definition hung : KernelError := MkKernelError PluginFailed "guest exceeded its call deadline" None.
Definition faulted (text : string) : KernelError := MkKernelError PluginFailed text None.

(** [None] is [DeadlineElapsed]. *)
Definition settle_call {T} (within : option (Ended T)) (budgeted : bool) : Settled T :=
  match within with
  | None => SettledDead hung
  | Some (Trapped fuel text) => SettledDead (delivery_trap fuel text budgeted)
  | Some (Faulted text) => SettledFault (faulted text)
  | Some (Returned value) => SettledOk value
  end.

Definition settle {T} (within : option (Ended T)) : Settled T := settle_call within false.
Definition settle_delivery {T} (within : option (Ended T)) (budgeted : bool) : Settled T := settle_call within budgeted.

(** ** The race ([within]) *)

(** Where the loop is: at its top, about to look at the clock's channel, about
    to poll the call, about to poll the timer, pending, or over. *)
Inductive Spot := AtTop | AtChanged | AtCall | AtTimer | Pending | Over (value : bool).

(** The clock with the version of its channel; what this call has seen of it;
    the time; its baseline and its timer. *)
Record Race := MkRace {
  clock : ActiveClock;
  version : nat;
  seen : nat;
  now : Z;
  baseline : Z;
  expires : Z;
  running : bool;
  spot : Spot;
}.

Definition at_spot (s : Spot) (r : Race) : Race :=
  MkRace (clock r) (version r) (seen r) (now r) (baseline r) (expires r) (running r) s.

Definition changed_clock (f : Z -> ActiveClock -> ActiveClock) (r : Race) : Race :=
  MkRace (f (now r) (clock r)) (S (version r)) (seen r) (now r) (baseline r) (expires r) (running r) (spot r).

Definition later (t : Z) (r : Race) : Race :=
  MkRace (clock r) (version r) (seen r) t (baseline r) (expires r) (running r) (spot r).

Section Within.
Context (deadline : Z).

(** [subscribe], the baseline, and the timer before its first reset. *)
Definition start (c : ActiveClock) (v : nat) (t : Z) : Race :=
  MkRace c v v t (elapsed_at t c) (t + deadline) false AtTop.

Definition spent (r : Race) : Z := elapsed_at (now r) (clock r) - baseline r.

(** [borrow_and_update] and the reset of the timer. *)
Definition look (r : Race) : Race :=
  let remaining := saturating_sub deadline (spent r) in
  MkRace (clock r) (version r) (version r) (now r) (baseline r) (now r + remaining)
    (bool_decide (depth (clock r) = 0 \/ remaining = 0)%Z) AtChanged.

(** One step of the loop; [ready] is what polling the call would say. *)
Definition loop_step (ready : bool) (r : Race) : Race :=
  match spot r with
  | AtTop => look r
  | AtChanged => if decide (version r = seen r) then at_spot AtCall r else at_spot AtTop r
  | AtCall => if ready then at_spot (Over true) r else at_spot AtTimer r
  | AtTimer =>
      if running r && bool_decide (expires r <= now r)%Z then
        if decide (deadline <= spent r)%Z then at_spot (Over false) r else at_spot AtTop r
      else at_spot Pending r
  | Pending => at_spot AtChanged r
  | Over _ => r
  end.

End Within.

(** ** Counting instants *)

Inductive Edge := Parks | Resumes.

(** Parks and resumes with their instants, in order. *)
Abbreviation Timeline := (list (Z * Edge)).

Definition turned (d : Z) (e : Z * Edge) : Z := match e.2 with Parks => d + 1 | Resumes => d - 1 end.

(** How many parks are open at an instant. *)
Definition parked_at (tl : Timeline) (t : Z) : Z := fold_left turned (filter (fun e : Z * Edge => (e.1 <= t)%Z) tl) 0%Z.

(** The instants from [a] to [b] at which nothing is parked. *)
Definition active (tl : Timeline) (a b : Z) : Z :=
  Z.of_nat (length (filter (fun t => parked_at tl t = 0%Z) (seqZ a (b - a)))).

Definition latest (origin : Z) (tl : Timeline) : Z := fold_left (fun _ e => e.1) tl origin.

(** The clock after a timeline: every resume ends a park. *)
Inductive clocked (origin : Z) : Timeline -> ActiveClock -> Prop :=
  | clocked_new : clocked origin [] (new_clock origin)
  | clocked_park tl c t : clocked origin tl c -> (latest origin tl <= t)%Z ->
      clocked origin (tl ++ [(t, Parks)]) (park t c)
  | clocked_resume tl c t : clocked origin tl c -> (latest origin tl <= t)%Z -> (0 < depth c)%Z ->
      clocked origin (tl ++ [(t, Resumes)]) (resume t c).

Lemma latest_snoc o tl t e : latest o (tl ++ [(t, e)]) = t.
Proof. unfold latest. by rewrite fold_left_app. Qed.

Lemma clocked_ordered o tl c : clocked o tl c -> Forall (fun e : Z * Edge => (o <= e.1 <= latest o tl)%Z) tl /\ (o <= latest o tl)%Z.
Proof.
  induction 1 as [|tl c t _ [IH Ho] Ht|tl c t _ [IH Ho] Ht _]; [by split|..]; rewrite latest_snoc;
    (split; [|lia]); apply Forall_app; (split; [|apply Forall_singleton; simpl; lia]);
    (eapply Forall_impl; [exact IH|]); simpl; lia.
Qed.

Lemma parked_before tl t e s : (s < t)%Z -> parked_at (tl ++ [(t, e)]) s = parked_at tl s.
Proof. intros Hs. unfold parked_at. rewrite filter_app, filter_cons_False by (simpl; lia). by rewrite filter_nil, app_nil_r. Qed.

Lemma parked_after o tl c s : clocked o tl c -> (latest o tl <= s)%Z -> parked_at tl s = fold_left turned tl 0%Z.
Proof.
  intros Hc Hs. unfold parked_at. rewrite filter_all; [done|].
  eapply Forall_impl; [apply (clocked_ordered _ _ _ Hc)|]. simpl. lia.
Qed.

Lemma clocked_depth o tl c : clocked o tl c -> depth c = fold_left turned tl 0%Z /\ (0 <= depth c)%Z.
Proof.
  induction 1 as [|tl c t _ [IH Hd] _|tl c t _ [IH Hd] _ Hpos]; [done|..]; rewrite fold_left_app; simpl; unfold turned at 1;
    simpl; [lia|]. unfold saturating_sub. lia.
Qed.

Lemma active_split tl a b c : (a <= b <= c)%Z -> active tl a c = (active tl a b + active tl b c)%Z.
Proof.
  intros H. unfold active. replace (c - a)%Z with ((b - a) + (c - b))%Z by lia. rewrite seqZ_app by lia.
  rewrite filter_app, length_app. replace (a + (b - a))%Z with b by lia. lia.
Qed.

Lemma filter_iff_in (P Q : Z -> Prop) `{forall x, Decision (P x), forall x, Decision (Q x)} (l : list Z) :
  (forall x, x ∈ l -> P x <-> Q x) -> filter P l = filter Q l.
Proof.
  induction l as [|x l IH]; intros HPQ; [done|]. rewrite !filter_cons, IH by (intros y Hy; apply HPQ; by right).
  pose proof (HPQ x ltac:(by left)). repeat case_decide; tauto || done.
Qed.

Lemma active_same tl tl' a b : (forall t, (a <= t < b)%Z -> parked_at tl t = parked_at tl' t) -> active tl a b = active tl' a b.
Proof.
  intros H. unfold active. do 2 f_equal. apply filter_iff_in. intros t Ht%elem_of_seqZ. rewrite H by lia. done.
Qed.

(** While nothing changes, every instant counts or none does. *)
Lemma active_flat o tl c b :
  clocked o tl c -> (latest o tl <= b)%Z ->
  active tl (latest o tl) b = if decide (depth c = 0)%Z then (b - latest o tl)%Z else 0%Z.
Proof.
  intros Hc Hb. unfold active. destruct (clocked_depth _ _ _ Hc) as [Hd _].
  assert (forall t, t ∈ seqZ (latest o tl) (b - latest o tl) -> parked_at tl t = depth c) as Hall.
  { intros t Ht%elem_of_seqZ. rewrite Hd. eapply parked_after; [exact Hc|lia]. }
  case_decide as H0.
  - rewrite filter_all; [rewrite length_seqZ; lia|]. apply Forall_forall. intros t Ht. by rewrite Hall.
  - rewrite filter_none; [done|]. intros t Ht. by rewrite Hall.
Qed.

(** The constant-size clock counts the instants at which nothing is parked. *)
Lemma clock_counts o tl c t : clocked o tl c -> (latest o tl <= t)%Z -> elapsed_at t c = active tl o t.
Proof.
  intros Hc. revert t. induction Hc as [|tl c s Hc IH Hs|tl c s Hc IH Hs Hpos]; intros t Ht.
  - pose proof (active_flat o [] _ t (clocked_new o) Ht) as Hf. unfold latest in Hf. simpl in Hf.
    unfold elapsed_at. simpl. rewrite Hf. lia.
  - rewrite latest_snoc in Ht. pose proof (clocked_park _ _ _ _ Hc Hs) as Hc'.
    destruct (clocked_ordered _ _ _ Hc) as [_ Ho], (clocked_depth _ _ _ Hc) as [_ Hd].
    pose proof (active_flat _ _ _ t Hc' ltac:(by rewrite latest_snoc)) as Hf. rewrite latest_snoc in Hf. simpl in Hf.
    rewrite decide_False in Hf by lia.
    rewrite (active_split _ o s t), Hf by lia. unfold elapsed_at at 1. simpl. rewrite decide_False by lia.
    rewrite (IH s Hs), (active_same (tl ++ [(s, Parks)]) tl) by (intros; apply parked_before; lia). lia.
  - rewrite latest_snoc in Ht. pose proof (clocked_resume _ _ _ _ Hc Hs Hpos) as Hc'.
    destruct (clocked_ordered _ _ _ Hc) as [_ Ho].
    pose proof (active_flat _ _ _ t Hc' ltac:(by rewrite latest_snoc)) as Hf. rewrite latest_snoc in Hf.
    rewrite (active_split _ o s t), Hf by lia.
    rewrite (active_same (tl ++ [(s, Resumes)]) tl) by (intros; apply parked_before; lia).
    rewrite <-(IH s Hs). unfold elapsed_at, resume. simpl. rewrite (decide_False (P := depth c = 0%Z)) by lia.
    repeat case_decide; lia.
Qed.

Lemma elapsed_mono o tl c a b : clocked o tl c -> (latest o tl <= a <= b)%Z ->
  elapsed_at b c = (elapsed_at a c + if decide (depth c = 0)%Z then b - a else 0)%Z.
Proof. intros _ Hab. unfold elapsed_at. case_decide; lia. Qed.

(** ** Runs of the race *)

Section Deadline.
Context (deadline origin began : Z).

(** The call starts; then the loop steps, anyone parks or resumes, time
    passes. *)
Inductive raced : Timeline -> Race -> Prop :=
  | raced_start tl c v : clocked origin tl c -> (latest origin tl <= began)%Z -> raced tl (start deadline c v began)
  | raced_loop tl r ready : raced tl r -> raced tl (loop_step deadline ready r)
  | raced_park tl r : raced tl r -> raced (tl ++ [(now r, Parks)]) (changed_clock park r)
  | raced_resume tl r : raced tl r -> (0 < depth (clock r))%Z -> raced (tl ++ [(now r, Resumes)]) (changed_clock resume r)
  | raced_later tl r t : raced tl r -> (now r <= t)%Z -> spot r <> Over true -> spot r <> Over false -> raced tl (later t r).

(** The timer was set by the last look, when the clock was as it is. *)
Definition timed (r : Race) : Prop :=
  exists t, (t <= now r)%Z /\
    let remaining := saturating_sub deadline (elapsed_at t (clock r) - baseline r) in
    elapsed_at (now r) (clock r) = (elapsed_at t (clock r) + if decide (depth (clock r) = 0)%Z then now r - t else 0)%Z /\
    expires r = (t + remaining)%Z /\ running r = bool_decide (depth (clock r) = 0 \/ remaining = 0)%Z.

Record race_ok (tl : Timeline) (r : Race) : Prop := {
  race_clocked : clocked origin tl (clock r);
  race_now : (latest origin tl <= now r)%Z /\ (origin <= began <= now r)%Z;
  race_spent : spent r = active tl began (now r);
  race_seen : seen r <= version r;
  race_timed : spot r <> AtTop -> spot r <> Over true -> spot r <> Over false -> version r = seen r -> timed r;
  race_over : spot r = Over false -> (deadline <= active tl began (now r))%Z;
}.

Lemma active_unchanged tl t e a : active (tl ++ [(t, e)]) a t = active tl a t.
Proof. apply active_same. intros s Hs. apply parked_before. lia. Qed.

(** An edge now: the clock moves on, what was spent stays. *)
Lemma race_edge tl r e f :
  race_ok tl r -> clocked origin (tl ++ [(now r, e)]) (f (now r) (clock r)) ->
  elapsed_at (now r) (f (now r) (clock r)) = elapsed_at (now r) (clock r) ->
  race_ok (tl ++ [(now r, e)]) (changed_clock f r).
Proof.
  intros [Hc Hn Hsp Hv Ht Ho] Hc' He. split; simpl.
  - done.
  - rewrite latest_snoc. split; [lia|apply Hn].
  - rewrite active_unchanged, <-Hsp. unfold spent. simpl. by rewrite He.
  - lia.
  - lia.
  - rewrite active_unchanged. done.
Qed.

Lemma park_elapsed t c : (0 <= depth c)%Z -> elapsed_at t (park t c) = elapsed_at t c.
Proof. intros Hd. unfold elapsed_at at 1. simpl. rewrite decide_False by lia. lia. Qed.

Lemma resume_elapsed t c : (0 < depth c)%Z -> elapsed_at t (resume t c) = elapsed_at t c.
Proof. intros Hd. unfold elapsed_at, resume. simpl. rewrite (decide_False (P := depth c = 0%Z)) by lia. case_decide; lia. Qed.

Lemma look_timed tl r : race_ok tl r -> race_ok tl (look deadline r).
Proof.
  intros [Hc Hn Hsp Hv Ht Ho]. split; try done. intros _ _ _ _. exists (now r). simpl. split; [lia|].
  split; [case_decide; lia|done].
Qed.

Lemma at_spot_ok tl r s :
  race_ok tl r -> (s = AtTop \/ spot r <> AtTop) -> (forall b, spot r <> Over b) -> (forall b, s <> Over b) ->
  race_ok tl (at_spot s r).
Proof.
  intros [Hc Hn Hsp Hv Ht Ho] Hs Hno Hso. split; try done; simpl.
  - intros Hne _ _ Heq. destruct Hs as [->|Hs]; [done|]. by apply Ht.
  - intros ->. by destruct (Hso false).
Qed.

Lemma loop_ok tl r ready : race_ok tl r -> race_ok tl (loop_step deadline ready r).
Proof.
  intros Hok. unfold loop_step. destruct (spot r) as [| | | | |b] eqn:Hspot; [by apply look_timed|..|done].
  - case_decide; apply at_spot_ok; rewrite ?Hspot; auto.
  - destruct ready; [|apply at_spot_ok; rewrite ?Hspot; auto]. destruct Hok. by split.
  - destruct (running r && _); [|apply at_spot_ok; rewrite ?Hspot; auto].
    case_decide as Hd; [|apply at_spot_ok; rewrite ?Hspot; auto]. destruct Hok as [Hc Hn Hsp Hv Ht Ho].
    split; try done. simpl. by rewrite <-Hsp.
  - apply at_spot_ok; rewrite ?Hspot; auto.
Qed.

Lemma raced_ok tl r : raced tl r -> race_ok tl r.
Proof.
  induction 1 as [tl c v Hc Hb|tl r ready _ IH|tl r _ IH|tl r _ IH Hd|tl r t _ IH Ht Hn1 Hn2].
  - destruct (clocked_ordered _ _ _ Hc) as [_ Ho]. split; simpl; try done; try lia.
    unfold spent. simpl. rewrite Z.sub_diag. unfold active. by rewrite Z.sub_diag.
  - by apply loop_ok.
  - pose proof IH as [Hc [Hn _] _ _ _ _]. apply race_edge; [done|by apply clocked_park|].
    apply park_elapsed. apply (clocked_depth _ _ _ Hc).
  - pose proof IH as [Hc [Hn _] _ _ _ _]. apply race_edge; [done|by apply clocked_resume|]. by apply resume_elapsed.
  - destruct IH as [Hc Hn Hsp Hv Hti Ho]. split; simpl; [done|lia| |done| |by intros].
    + pose proof (clock_counts _ _ _ t Hc ltac:(lia)) as H1.
      pose proof (clock_counts _ _ _ (now r) Hc ltac:(lia)) as H2.
      rewrite (active_split _ origin began) in H1, H2 by lia. unfold spent in *. simpl. lia.
    + intros H1 H2 H3 H4. destruct (Hti H1 H2 H3 H4) as (t0 & Ht0 & He & Hex & Hrun). exists t0. simpl.
      split; [lia|]. split; [|done]. rewrite (elapsed_mono _ _ _ (now r) t Hc) by lia. rewrite He. case_decide; lia.
Qed.

Lemma timed_due r : timed r -> running r && bool_decide (expires r <= now r)%Z = true <-> (deadline <= spent r)%Z.
Proof.
  intros (t & Ht & He & Hex & Hrun). unfold spent. rewrite He, Hex, Hrun. unfold saturating_sub.
  rewrite andb_true_iff, !bool_decide_eq_true. case_decide; lia.
Qed.

(** Six steps of the loop, at most, notice what happened. *)
Lemma pending_ends r ready :
  spot r = Pending -> (version r = seen r -> ready = false -> timed r) -> ready = true \/ (deadline <= spent r)%Z ->
  exists n, n <= 6 /\ spot (Nat.iter n (loop_step deadline ready) r) = Over ready.
Proof.
  intros Hp Ht Hdue. assert (forall r', spot r' = AtCall -> (ready = false -> timed r') -> spent r' = spent r ->
    exists n, n <= 2 /\ spot (Nat.iter n (loop_step deadline ready) r') = Over ready) as Hcall.
  { intros r' Hs Ht' Hsp. destruct ready eqn:Hready.
    - exists 1. split; [lia|]. simpl. unfold loop_step. by rewrite Hs.
    - exists 2. split; [lia|]. destruct Hdue as [?|Hdue]; [done|]. cbn. unfold loop_step at 2. rewrite Hs.
      unfold loop_step. cbn -[Z.le]. rewrite (proj2 (timed_due r' (Ht' eq_refl))) by lia.
      unfold spent in *. cbn in *. rewrite decide_True by lia. done. }
  destruct (decide (version r = seen r)) as [Hv|Hv].
  - destruct (Hcall (at_spot AtCall r)) as (n & Hn & Hend); [done| |done|].
    + intros Hr. exact (Ht Hv Hr).
    + exists (n + 2). split; [lia|]. rewrite Nat.iter_add. unfold Nat.iter at 2. cbn [nat_rect].
      assert (loop_step deadline ready r = at_spot AtChanged r) as -> by (unfold loop_step; by rewrite Hp).
      assert (loop_step deadline ready (at_spot AtChanged r) = at_spot AtCall r) as ->
        by (unfold loop_step; cbn; by rewrite decide_True).
      done.
  - set (r3 := look deadline (at_spot AtTop (at_spot AtChanged r))).
    destruct (Hcall (at_spot AtCall r3)) as (n & Hn & Hend); [done| |done|].
    + intros _. exists (now r). simpl. split; [lia|]. split; [case_decide; lia|done].
    + exists (n + 4). split; [lia|]. rewrite Nat.iter_add. unfold Nat.iter at 2. cbn [nat_rect].
      assert (loop_step deadline ready r = at_spot AtChanged r) as -> by (unfold loop_step; by rewrite Hp).
      assert (loop_step deadline ready (at_spot AtChanged r) = at_spot AtTop (at_spot AtChanged r)) as ->
        by (unfold loop_step; cbn; by rewrite decide_False).
      change (loop_step deadline ready (at_spot AtTop (at_spot AtChanged r))) with r3.
      assert (loop_step deadline ready r3 = at_spot AtCall r3) as -> by (unfold loop_step; cbn; by rewrite decide_True).
      done.
Qed.

(** The deadline counts active time alone. However parks and resumes, the
    passing of time and the steps of the loop interleave, a call is given up
    only once the instants of it at which nothing was parked are at least its
    deadline; while it is pending with nothing changed, its timer is due
    exactly then; and once it is due, or the call is ready, six steps of the
    loop at most end it as they should. *)
Theorem the_deadline_counts_active_time_alone tl r :
  raced tl r ->
  (spot r = Over false -> (deadline <= active tl began (now r))%Z) /\
  (spot r = Pending ->
    (version r = seen r -> running r && bool_decide (expires r <= now r)%Z = true <->
      (deadline <= active tl began (now r))%Z) /\
    ((deadline <= active tl began (now r))%Z ->
      exists n, n <= 6 /\ spot (Nat.iter n (loop_step deadline false) r) = Over false) /\
    exists n, n <= 6 /\ spot (Nat.iter n (loop_step deadline true) r) = Over true).
Proof.
  intros [Hc Hn Hsp Hv Ht Ho]%raced_ok. split; [done|]. intros Hp. rewrite <-Hsp.
  assert (version r = seen r -> timed r) as Htimed by (intros Heq; apply Ht; [by rewrite Hp..|done]).
  split_and!.
  - intros Heq. by apply timed_due, Htimed.
  - intros Hd. apply pending_ends; auto.
  - apply pending_ends; auto.
Qed.
End Deadline.

(** ** Example: five units, parked for sixteen of the first twenty *)

Module SettleExample.
Definition steps (n : nat) (r : Race) : Race := Nat.iter n (loop_step 5 false) r.

Definition waiting : Race := steps 4 (start 5 (new_clock 0) 0 2).
Definition parked : Race := changed_clock park (later 4 waiting).
Definition unparked : Race := changed_clock resume (later 20 parked).
Definition ended : Race := steps 7 (later 23 (steps 6 unparked)).

Lemma raced_steps tl r n : raced 5 0 2 tl r -> raced 5 0 2 tl (steps n r).
Proof. intros Hr. induction n as [|n IH]; [done|]. by apply raced_loop. Qed.

Lemma ended_raced : raced 5 0 2 [(4, Parks); (20, Resumes)]%Z ended.
Proof.
  assert (raced 5 0 2 [] waiting) as H1 by (apply raced_steps, raced_start; [constructor|done]).
  assert (raced 5 0 2 ([] ++ [(4, Parks)])%Z parked) as H2
    by (apply (raced_park 5 0 2 [] (later 4 waiting)); by apply raced_later).
  assert (raced 5 0 2 (([] ++ [(4, Parks)]) ++ [(20, Resumes)])%Z unparked) as H3
    by (apply (raced_resume 5 0 2 _ (later 20 parked)); [by apply raced_later|done]).
  apply raced_steps, raced_later; [by apply raced_steps|done|done|done].
Qed.

Lemma the_deadline_counts_active_time_alone_witness :
  spot ended = Over false /\ now ended = 23%Z /\ (5 <= active [(4, Parks); (20, Resumes)] 2 23)%Z.
Proof.
  split_and!; [by vm_compute|by vm_compute|].
  destruct (the_deadline_counts_active_time_alone 5 0 2 _ _ ended_raced) as [H _]. exact (H eq_refl).
Defined.
End SettleExample.
