(* ===== verification/Slot.v ===== *)
(** * Seats and their journals ([jinnd-wasm/src/slot.rs], [slot/*.rs],
    [lane/journal.rs], [lane/commit.rs], [lane_swap.rs])

    A seat pairs an instance with the one journal of what it registered. It is
    retired (everything withdrawn, last first), suspended (its world effects
    handed to the entry's journal) or replaced whole by a staged one. The
    broker, the topic table and the alarms are those of their own files; guest
    inverses and the providers of world effects are opaque: they answer, as the
    history of what ran decides. Nothing else runs between two of these steps. *)

From stdpp Require Import base gmap sets list strings pretty.
From S2P Require Import Prelude Api Entries Paths Grants Waits Broker Topics Alarms.

(** ** The registration journal ([handle.rs]) *)

Record ListenRecord := MkListen { listen_topic : string; listen_token : Z; listen_id : option Z; listen_budget : option Z }.
Record AlarmRecord := MkAlarm { alarm_text : string; alarm_spec : AlarmSpec; alarm_token : Z; alarm_id : option Z }.
Record HostRecord := MkHost { host_contract : string; host_label : string; host_effect : Z }.

Inductive Registration :=
  | REffect (label : string) (token : Z)
  | RProvision (contract : string)
  | RListen (r : ListenRecord)
  | RAlarm (r : AlarmRecord)
  | RHost (r : HostRecord)
  | RKernel (r : HostRecord).

(** The derived views. *)
Definition effects (rs : list Registration) : list (string * Z) :=
  omap (fun r => match r with REffect label token => Some (label, token) | _ => None end) rs.
Definition provisions (rs : list Registration) : list string :=
  omap (fun r => match r with RProvision c => Some c | _ => None end) rs.
Definition listens (rs : list Registration) : list ListenRecord :=
  omap (fun r => match r with RListen l => Some l | _ => None end) rs.
Definition alarm_requests (rs : list Registration) : list AlarmRecord :=
  omap (fun r => match r with RAlarm a => Some a | _ => None end) rs.

Definition host_key (r : HostRecord) : string * Z := (host_contract r, host_effect r).
Definition host_records (rs : list Registration) : list HostRecord :=
  omap (fun r => match r with RHost h => Some h | _ => None end) rs.
Definition kernel_records (rs : list Registration) : list HostRecord :=
  omap (fun r => match r with RKernel h => Some h | _ => None end) rs.

Definition listen_ids (rs : list Registration) : list Z := omap listen_id (listens rs).
Definition alarm_ids (rs : list Registration) : list Z := omap alarm_id (alarm_requests rs).

Section Seats.
(** Providers' faces and instances; a listener is delivered to its instance. *)
Context {Callable Instance : Type}.

Record SeatState := MkSeat { instance : Instance; registrations : list Registration }.

Definition host_effects (s : SeatState) : list (string * Z) := map host_key (host_records (registrations s)).

Definition views (s : SeatState) : list string * list Z * list Z :=
  (provisions (registrations s), listen_ids (registrations s), alarm_ids (registrations s)).

(** ** The slot ([slot.rs], [slot/gate.rs]) *)

Record SharedSlot := MkSlot { current : option SeatState; closing : bool; sealed : bool; ever : bool }.

Definition new_slot : SharedSlot := MkSlot None false false false.

Definition slot_install (s : SeatState) (x : SharedSlot) : option SeatState * SharedSlot :=
  (current x, MkSlot (Some s) (closing x) (sealed x) true).

Definition slot_take (x : SharedSlot) : option SeatState * SharedSlot :=
  (current x, MkSlot None (closing x) (sealed x) (ever x)).

(** [close] raises the two flags around the drain. *)
Definition shut_door (x : SharedSlot) : SharedSlot := MkSlot (current x) true (sealed x) (ever x).
Definition seal (x : SharedSlot) : SharedSlot := MkSlot (current x) (closing x) true (ever x).
Definition unseal (x : SharedSlot) : SharedSlot := MkSlot (current x) false false (ever x).

(** Hands the registrations back when no seat is live. *)
Definition extend (late : list Registration) (x : SharedSlot) : option (list Registration) * SharedSlot :=
  match current x with
  | Some s => (None, MkSlot (Some (MkSeat (instance s) (registrations s ++ late))) (closing x) (sealed x) (ever x))
  | None => (Some late, x)
  end.

Definition slot_registrations (x : SharedSlot) : list string * list Z * list Z :=
  match current x with Some s => views s | None => ([], [], []) end.

(** ** The lane a seat lives in *)

(** What ran outside the kernel, in order. *)
Inductive Act :=
  | Undo (i : Instance) (token : Z) (answer : result () KernelError)
  | Withdraw (h : HostRecord) (answer : result () KernelError)
  | Release (h : HostRecord) (answer : result () KernelError)
  | WentLive (i : Instance)
  | Disposed (i : Instance).

Record Lane := MkLane {
  lane_broker : @Broker Callable Instance;
  lane_topics : @Table Instance;
  lane_alarms : Alarms.World;
  lane_slot : SharedSlot;
  journals : gmap EntryId (list HostRecord);
  trail : list (LedgerEventKind * option EntryId * option FiberId);
  acts : list Act;
}.

Definition with_broker (b : @Broker Callable Instance) (l : Lane) : Lane :=
  MkLane b (lane_topics l) (lane_alarms l) (lane_slot l) (journals l) (trail l) (acts l).
Definition with_topics (t : @Table Instance) (l : Lane) : Lane :=
  MkLane (lane_broker l) t (lane_alarms l) (lane_slot l) (journals l) (trail l) (acts l).
Definition with_alarms (a : Alarms.World) (l : Lane) : Lane :=
  MkLane (lane_broker l) (lane_topics l) a (lane_slot l) (journals l) (trail l) (acts l).
Definition with_slot (x : SharedSlot) (l : Lane) : Lane :=
  MkLane (lane_broker l) (lane_topics l) (lane_alarms l) x (journals l) (trail l) (acts l).
Definition with_journals (j : gmap EntryId (list HostRecord)) (l : Lane) : Lane :=
  MkLane (lane_broker l) (lane_topics l) (lane_alarms l) (lane_slot l) j (trail l) (acts l).
(** [append_for]; [append] names no entry. *)
Definition append_for (kind : LedgerEventKind) (e : option EntryId) (f : option FiberId) (l : Lane) : Lane :=
  MkLane (lane_broker l) (lane_topics l) (lane_alarms l) (lane_slot l) (journals l) (trail l ++ [(kind, e, f)]) (acts l).
Definition append (kind : LedgerEventKind) (f : option FiberId) : Lane -> Lane := append_for kind None f.
Definition act (a : Act) (l : Lane) : Lane :=
  MkLane (lane_broker l) (lane_topics l) (lane_alarms l) (lane_slot l) (journals l) (trail l) (acts l ++ [a]).

(** The broker and the alarms append to the same sink as the lane: what an
    operation of theirs appends joins the trail as it runs. *)
Definition unnamed (r : LedgerEventKind * option FiberId) : LedgerEventKind * option EntryId * option FiberId :=
  (r.1, None, r.2).

Definition on_broker {A} (f : @Broker Callable Instance -> A * @Broker Callable Instance) (l : Lane) : A * Lane :=
  let b := lane_broker l in
  let '(a, b) := f (MkBroker (Broker.state b) [] (Broker.waits b) (Broker.provisions b)) in
  (a, MkLane b (lane_topics l) (lane_alarms l) (lane_slot l) (journals l) (trail l ++ map unnamed (Broker.ledger b)) (acts l)).

Definition on_alarms {A} (f : Alarms.World -> A * Alarms.World) (l : Lane) : A * Lane :=
  let w := lane_alarms l in
  let '(a, w) := f (Alarms.MkWorld (Alarms.alarms w) (Alarms.timers w) (Alarms.arming w) []) in
  (a, MkLane (lane_broker l) (lane_topics l) w (lane_slot l) (journals l) (trail l ++ map unnamed (Alarms.ledger w)) (acts l)).

(** [Broker::withdraw] of one contract. *)
Definition withdraw_provision (peer : Z) (c : string) (l : Lane) : Lane :=
  (on_broker (fun b => ((), Broker.withdraw peer c b)) l).2.

(** What guest inverses and providers answer. *)
Context (undo : Instance -> Z -> list Act -> result () KernelError).
Context (withdrawn : Callable -> HostRecord -> list Act -> result () KernelError).
(** Whether a timer runtime is there to arm on; the slot as a provider's face. *)
Context (has_runtime : bool) (slot_face : Callable).

Definition undo_effect (i : Instance) (token : Z) (l : Lane) : result () KernelError * Lane :=
  let answer := undo i token (acts l) in (answer, act (Undo i token answer) l).

(** [Broker::withdraw_effect]: the answer without a provider, or the
    provider's. *)
Definition asked (h : HostRecord) (l : Lane) : result () KernelError :=
  match Broker.withdraw_effect (host_contract h) (host_effect h) (lane_broker l) with
  | Err error => Err error
  | Ok face => withdrawn face h (acts l)
  end.

Definition withdraw_host (h : HostRecord) (l : Lane) : result () KernelError * Lane :=
  let answer := asked h l in (answer, act (Withdraw h answer) l).

(** [get_or_insert]. *)
Definition or_first (first : option KernelError) (answer : result () KernelError) : option KernelError :=
  match first, answer with
  | Some e, _ => Some e
  | None, Err e => Some e
  | None, Ok _ => None
  end.


(** [EffectWithdrawn] under [label], when the trail is on. *)
Definition record_withdrawal (ledger : option FiberId) (label : string) (ok : bool) (l : Lane) : Lane :=
  match ledger with Some f => append (EffectWithdrawn label ok) (Some f) l | None => l end.

(** ** Closing a seat ([slot/teardown.rs]) *)

Definition release_kernel (h : HostRecord) (ledger : option FiberId) (first : option KernelError) (l : Lane) :
    option KernelError * Lane :=
  let answer := asked h l in
  (or_first first answer, record_withdrawal ledger (host_label h) (is_ok answer) (act (Release h answer) l)).

Definition withdraw_listen (r : ListenRecord) (ledger : option FiberId) (l : Lane) : Lane :=
  match listen_id r with
  | Some id =>
      let '(there, t) := Topics.unlisten id (lane_topics l) in
      let l := with_topics t l in
      match there with Some topic => record_withdrawal ledger ("listen " +:+ topic) true l | None => l end
  | None => l
  end.

Definition cancel_alarm (r : AlarmRecord) (ledger : option FiberId) (l : Lane) : Lane :=
  match alarm_id r with
  | Some id =>
      let '(cancelled, l) := on_alarms (Alarms.cancel id) l in
      if cancelled then record_withdrawal ledger (alarm_text r) true l else l
  | None => l
  end.

(** One registration of [retire]; [done] is [withdrawn_hosts]. *)
Definition retire_one (i : Instance) (peer : Z) (ledger : option FiberId) (r : Registration)
    (c : option KernelError * list (string * Z) * Lane) : option KernelError * list (string * Z) * Lane :=
  let '(first, done, l) := c in
  match r with
  | REffect label token =>
      let '(answer, l) := undo_effect i token l in
      (or_first first answer, done, record_withdrawal ledger label (is_ok answer) l)
  | RListen x => (first, done, withdraw_listen x ledger l)
  | RAlarm x => (first, done, cancel_alarm x ledger l)
  | RHost h =>
      if decide (host_key h ∈ done) then (first, done, l)
      else
        let '(answer, l) := withdraw_host h l in
        (or_first first answer, done ++ [host_key h], record_withdrawal ledger (host_label h) (is_ok answer) l)
  | RKernel h => let '(first, l) := release_kernel h ledger first l in (first, done, l)
  | RProvision c => (first, done, withdraw_provision peer c l)
  end.

Definition retire_all (i : Instance) (peer : Z) (ledger : option FiberId) (rs : list Registration) (l : Lane) :
    option KernelError * list (string * Z) * Lane :=
  foldr (retire_one i peer ledger) (None, [], l) rs.

Definition retire (s : SeatState) (peer : Z) (ledger : option FiberId) (l : Lane) : result () KernelError * Lane :=
  let '(first, _, l) := retire_all (instance s) peer ledger (registrations s) l in
  (match first with None => Ok () | Some e => Err e end, act (Disposed (instance s)) l).

(** The records kept: the first of each key. *)
Definition keep_one (kept : list HostRecord) (h : HostRecord) : list HostRecord :=
  if decide (host_key h ∈ map host_key kept) then kept else kept ++ [h].

Definition suspend_one (peer : Z) (ledger : option FiberId) (tomb : EntryId * Z) (r : Registration) (l : Lane) : Lane :=
  match r with
  | REffect _ _ | RHost _ => l
  | RKernel h => (release_kernel h ledger None l).2
  | RListen x =>
      match listen_id x with
      | Some id => with_topics (Topics.entomb id tomb.1 tomb.2 (lane_topics l)).2 l
      | None => l
      end
  | RAlarm x => cancel_alarm x ledger l
  | RProvision c => withdraw_provision peer c l
  end.

Definition suspend (s : SeatState) (peer : Z) (ledger : option FiberId) (tomb : EntryId * Z) (l : Lane) :
    list HostRecord * Lane :=
  (fold_left keep_one (host_records (registrations s)) [],
   act (Disposed (instance s)) (foldr (suspend_one peer ledger tomb) l (registrations s))).

(** ** The entry's journal ([lane/journal.rs]) *)

Definition inherit (e : EntryId) (records : list HostRecord) (l : Lane) : Lane :=
  with_journals (<[e := fold_left keep_one records (default [] (journals l !! e))]> (journals l)) l.

Definition release (e : EntryId) (gone : list (string * Z)) (l : Lane) : Lane :=
  with_journals (alter (filter (fun h => host_key h ∉ gone)) e (journals l)) l.

Fixpoint withdraw_records (e : EntryId) (f : option FiberId) (rs : list HostRecord) (first : option KernelError)
    (l : Lane) : option KernelError * Lane :=
  match rs with
  | [] => (first, l)
  | h :: rs =>
      let '(answer, l) := withdraw_host h l in
      let l := append_for (EffectWithdrawn (host_label h) (is_ok answer)) (Some e) f l in
      withdraw_records e f rs (or_first first answer) l
  end.

Definition withdraw_journal (e : EntryId) (f : option FiberId) (l : Lane) : result () KernelError * Lane :=
  let retained := default [] (journals l !! e) in
  let '(first, l) := withdraw_records e f (rev retained) None (with_journals (delete e (journals l)) l) in
  (match first with None => Ok () | Some error => Err error end, l).

(** ** Committing a staged seat ([slot/commit.rs]) *)

Definition rebinds_of (staged : Instance) (context : Z) (f : option FiberId) (rs : list Registration) :
    list (@Rebind Instance) :=
  map (fun r => MkRebind (listen_topic r) context (listen_token r) f (listen_budget r) staged) (listens rs).

Definition arms_of (f : option FiberId) (rs : list Registration) : list ArmRequest :=
  map (fun r => MkArmRequest (alarm_spec r) (alarm_token r) f) (alarm_requests rs).

(** The minted ids land in the journal, in order. *)
Fixpoint number (rs : list Registration) (ids aids : list Z) : list Registration :=
  match rs with
  | [] => []
  | RListen r :: rs =>
      RListen (MkListen (listen_topic r) (listen_token r) (head ids) (listen_budget r)) :: number rs (tail ids) aids
  | RAlarm r :: rs =>
      RAlarm (MkAlarm (alarm_text r) (alarm_spec r) (alarm_token r) (head aids)) :: number rs ids (tail aids)
  | r :: rs => r :: number rs ids aids
  end.

Definition provide_one (old : list string) (peer : Z) (f : option FiberId) (l : Lane) (c : string) : Lane :=
  if decide (c ∈ old) then l
  else
    match on_broker (Broker.provide peer c slot_face) l with
    | (Ok _, l) => l
    | (Err error, l) => append (ErrorRecorded error) f l
    end.

Definition withdraw_one (new : list string) (peer : Z) (l : Lane) (c : string) : Lane :=
  if decide (c ∈ new) then l else withdraw_provision peer c l.

Definition commit_staged (staged : Instance) (rs : list Registration) (peer : Z) (f : option FiberId) (context : Z)
    (l : Lane) : option SeatState * Lane :=
  let '(old_provisions, old_listens, old_alarms) := slot_registrations (lane_slot l) in
  let old_listens :=
    old_listens ++ match f with Some x => map fst (Topics.entombed x (lane_topics l)) | None => [] end in
  let '(ids, t) := Topics.rebind old_listens (rebinds_of staged context f rs) (lane_topics l) in
  let l := with_topics t l in
  let l := (on_broker (fun b => ((), Broker.attach_target peer staged b)) l).2 in
  let '(aids, l) := on_alarms (Alarms.rebind has_runtime old_alarms (arms_of f rs)) l in
  let rs := number rs ids aids in
  let '(displaced, x) := slot_install (MkSeat staged rs) (lane_slot l) in
  let l := with_slot x l in
  let l := fold_left (provide_one old_provisions peer f) (provisions rs) l in
  let l := fold_left (withdraw_one (provisions rs) peer) old_provisions l in
  (displaced, act (WentLive staged) l).

(** ** Where an activation lands ([lane/commit.rs]) *)

Definition trail_label (r : Registration) : option string :=
  match r with
  | REffect label _ => Some label
  | RListen x => Some ("listen " +:+ listen_topic x)
  | RAlarm x => Some (alarm_text x)
  | RProvision _ | RHost _ | RKernel _ => None
  end.

Definition trail_registrations (guest_trail : bool) (rs : list Registration) (f : FiberId) (l : Lane) : Lane :=
  if guest_trail then
    fold_left (fun l label => append (EffectRegistered label) (Some f) l) (omap trail_label rs) l
  else l.

Definition land (guest_trail committing : bool) (i : Instance) (rs : list Registration) (f : FiberId) (peer context : Z)
    (l : Lane) : Lane :=
  let '(displaced, l) :=
    if committing then
      let tombs := Topics.entombed f (lane_topics l) in
      let '(displaced, l) := commit_staged i rs peer (Some f) context l in
      (displaced,
       if guest_trail then
         fold_left (fun l t => append (EffectWithdrawn ("listen " +:+ t) true) (Some f) l) (map snd tombs) l
       else l)
    else
      let '(displaced, x) := slot_install (MkSeat i rs) (lane_slot l) in (displaced, with_slot x l) in
  match displaced with Some previous => act (Disposed (instance previous)) l | None => l end.

(** ** A staged instance that never commits, and a displaced seat
    ([lane_swap.rs]) *)

Definition unwind_one (i : Instance) (f : FiberId) (r : Registration) (l : Lane) : Lane :=
  let settle (c : result () KernelError * Lane) :=
    match c with (Err error, l) => append (ErrorRecorded error) (Some f) l | (Ok _, l) => l end in
  match r with
  | REffect _ token => settle (undo_effect i token l)
  | RHost h => settle (withdraw_host h l)
  | RKernel h => settle (let answer := asked h l in (answer, act (Release h answer) l))
  | RProvision _ | RListen _ | RAlarm _ => l
  end.

Definition unwind (i : Instance) (rs : list Registration) (f : FiberId) (l : Lane) : Lane :=
  act (Disposed i) (foldr (unwind_one i f) l rs).

Definition retire_displaced (e : EntryId) (s : SeatState) (l : Lane) : Lane :=
  act (Disposed (instance s)) (inherit e (host_records (registrations s)) l).

(** ** An incarnation's end ([lane.rs], [lane/closing.rs], [entry.rs]) *)

Definition take_seat (l : Lane) : option SeatState * Lane :=
  let '(s, x) := slot_take (seal (shut_door (lane_slot l))) in (s, with_slot x l).

(** What a fiber's withdrawal runs: the seat retires, and its effects leave the
    entry's journal. *)
Definition retire_entry (e : EntryId) (peer : Z) (ledger : option FiberId) (l : Lane) : result () KernelError * Lane :=
  let '(s, l) := take_seat l in
  let '(retired, l) :=
    match s with
    | Some s => let '(r, l) := retire s peer ledger l in (r, release e (host_effects s) l)
    | None => (Ok (), l)
    end in
  (retired, (on_broker (fun b => ((), Broker.remove_peer peer b)) l).2).

Definition record_suspension (ledger : option FiberId) (retained : list HostRecord) (l : Lane) : Lane :=
  match ledger with Some f => append (FiberSuspended (Z.of_nat (length retained))) (Some f) l | None => l end.

(** What a fiber's suspension runs. *)
Definition suspend_entry (e : EntryId) (slot_id peer : Z) (ledger : option FiberId) (l : Lane) : Lane :=
  let '(s, l) := take_seat l in
  let l :=
    match s with
    | Some s =>
        let '(retained, l) := suspend s peer ledger (e, slot_id) l in
        record_suspension ledger retained (inherit e retained l)
    | None => l
    end in
  (on_broker (fun b => ((), Broker.remove_peer peer b)) l).2.

(** The handle's dispose: the fiber's withdrawal, then the journal. *)
Definition dispose_entry (e : EntryId) (f : FiberId) (peer : Z) (ledger : option FiberId) (l : Lane) :
    result () KernelError * Lane :=
  withdraw_journal e (Some f) (retire_entry e peer ledger l).2.

(** ** Lemmas: what each step touches *)

Abbreviation broker_state l := (Broker.state (lane_broker l)).
Abbreviation alarm_rows l := (rows (Alarms.alarms (lane_alarms l))).

(** Everything but the trail, the acts and what is named. *)
Record cleared (rs : list Registration) (peer : Z) (l l' : Lane) : Prop := {
  cleared_slot : lane_slot l' = lane_slot l;
  cleared_journals : journals l' = journals l;
  cleared_alarms id : alarm_rows l' !! id = if decide (id ∈ alarm_ids rs) then None else alarm_rows l !! id;
  cleared_next : Alarms.next (Alarms.alarms (lane_alarms l')) = Alarms.next (Alarms.alarms (lane_alarms l));
  cleared_providers c : providers (broker_state l') !! c =
    if decide (c ∈ provisions rs /\ holds (broker_state l) peer c = true) then None
    else providers (broker_state l) !! c;
  cleared_peers : peers (broker_state l') = peers (broker_state l);
  cleared_generations : generations (broker_state l') = generations (broker_state l);
  cleared_handles : handles (broker_state l') = handles (broker_state l);
}.

(** A step that touches the topics, the trail and the acts alone. *)
Record apart (l l' : Lane) : Prop := {
  apart_slot : lane_slot l' = lane_slot l;
  apart_journals : journals l' = journals l;
  apart_alarms : lane_alarms l' = lane_alarms l;
  apart_broker : lane_broker l' = lane_broker l;
}.

Lemma cleared_apart rs peer l l' : alarm_ids rs = [] -> provisions rs = [] -> apart l l' -> cleared rs peer l l'.
Proof.
  intros Ha Hp [Hs Hj Hal Hb]. split; rewrite ?Hs, ?Hj, ?Hal, ?Hb; try reflexivity.
  - intros id. case_decide as Hd; [rewrite Ha in Hd; by apply not_elem_of_nil in Hd|done].
  - intros c. case_decide as Hd; [rewrite Hp in Hd; destruct Hd as [Hd _]; by apply not_elem_of_nil in Hd|done].
Qed.

Lemma alarm_ids_cons r rs : alarm_ids (r :: rs) = alarm_ids [r] ++ alarm_ids rs.
Proof. unfold alarm_ids. destruct r as [| | |r| |]; simpl; try done. by destruct (alarm_id r). Qed.

Lemma listen_ids_cons r rs : listen_ids (r :: rs) = listen_ids [r] ++ listen_ids rs.
Proof. unfold listen_ids. destruct r as [| |r| | |]; simpl; try done. by destruct (listen_id r). Qed.

Lemma provisions_cons r rs : provisions (r :: rs) = provisions [r] ++ provisions rs.
Proof. by destruct r. Qed.

Lemma cleared_cons r rs peer l l1 l2 : cleared rs peer l l1 -> cleared [r] peer l1 l2 -> cleared (r :: rs) peer l l2.
Proof.
  clear undo withdrawn has_runtime slot_face.
  intros H1 H2. split.
  - rewrite (cleared_slot _ _ _ _ H2). apply H1.
  - rewrite (cleared_journals _ _ _ _ H2). apply H1.
  - intros id. rewrite (cleared_alarms _ _ _ _ H2), (cleared_alarms _ _ _ _ H1), (alarm_ids_cons r rs).
    repeat case_decide; set_solver.
  - rewrite (cleared_next _ _ _ _ H2). apply H1.
  - intros c. rewrite (cleared_providers _ _ _ _ H2), (provisions_cons r rs). unfold holds.
    rewrite (cleared_providers _ _ _ _ H1). unfold holds.
    repeat case_decide; try done; set_solver.
  - rewrite (cleared_peers _ _ _ _ H2). apply H1.
  - rewrite (cleared_generations _ _ _ _ H2). apply H1.
  - rewrite (cleared_handles _ _ _ _ H2). apply H1.
Qed.

Lemma withdraw_provision_cleared peer c l : cleared [RProvision c] peer l (withdraw_provision peer c l).
Proof.
  clear undo withdrawn has_runtime slot_face.
  unfold withdraw_provision, on_broker, Broker.withdraw. simpl.
  destruct (holds (broker_state l) peer c) eqn:Hh; simpl; (split; try done).
  - intros c'. unfold vacate, with_state. simpl. destruct (decide (c' = c)) as [->|Hne].
    + rewrite lookup_delete_eq, decide_True; [done|split; [by left|done]].
    + rewrite lookup_delete_ne by done. rewrite decide_False; [done|]. set_solver.
  - intros c'. rewrite decide_False; [done|]. intros [Hc%list_elem_of_singleton Hh']. congruence.
Qed.

Lemma record_withdrawal_cleared rs peer ledger label b l l' :
  cleared rs peer l l' -> cleared rs peer l (record_withdrawal ledger label b l').
Proof. destruct ledger; [|done]. intros []. by split. Qed.

Lemma cancel_alarm_cleared peer r ledger l : cleared [RAlarm r] peer l (cancel_alarm r ledger l).
Proof.
  clear undo withdrawn has_runtime slot_face.
  unfold cancel_alarm. destruct (alarm_id r) as [id|] eqn:Hid; [|apply cleared_apart; [|done|done]; unfold alarm_ids; simpl; by rewrite Hid].
  unfold on_alarms, Alarms.cancel, take. simpl.
  assert (forall w l', Alarms.alarms w = MkAlarmTable (next (Alarms.alarms (lane_alarms l))) (delete id (alarm_rows l)) ->
    lane_alarms l' = w -> lane_broker l' = lane_broker l -> lane_slot l' = lane_slot l -> journals l' = journals l ->
    cleared [RAlarm r] peer l l') as Hc.
  { intros w l' Hw <- Hb Hs Hj. split; try congruence.
    - intros id'. rewrite Hw. unfold alarm_ids. simpl. rewrite Hid. destruct (decide (id' = id)) as [->|Hne].
      + rewrite decide_True by (by left). apply lookup_delete_eq.
      + rewrite decide_False by set_solver. simpl. by rewrite lookup_delete_ne.
    - by rewrite Hw.
    - intros c. rewrite Hb. case_decide as Hd; [|done]. destruct Hd as [Hd _]. by apply not_elem_of_nil in Hd. }
  destruct (alarm_rows l !! id) as [[task|]|]; simpl; [apply record_withdrawal_cleared..|];
    (eapply Hc; [|reflexivity..]; reflexivity).
Qed.

Lemma retire_one_cleared i peer ledger r first done l1 :
  let '(_, _, l2) := retire_one i peer ledger r (first, done, l1) in cleared [r] peer l1 l2.
Proof.
  destruct r as [label token|c|x|x|h|h]; simpl.
  - apply record_withdrawal_cleared. by apply cleared_apart.
  - apply withdraw_provision_cleared.
  - unfold withdraw_listen. destruct (listen_id x) as [id|]; [|by apply cleared_apart].
    destruct (unlisten id (lane_topics l1)) as [[t|] tb]; [apply record_withdrawal_cleared|]; by apply cleared_apart.
  - apply cancel_alarm_cleared.
  - case_decide; [by apply cleared_apart|]. apply record_withdrawal_cleared. by apply cleared_apart.
  - apply record_withdrawal_cleared. by apply cleared_apart.
Qed.

Lemma suspend_one_cleared peer ledger tomb r l : cleared [r] peer l (suspend_one peer ledger tomb r l).
Proof.
  destruct r as [label token|c|x|x|h|h]; simpl.
  - by apply cleared_apart.
  - apply withdraw_provision_cleared.
  - destruct (listen_id x) as [id|]; by apply cleared_apart.
  - apply cancel_alarm_cleared.
  - by apply cleared_apart.
  - apply record_withdrawal_cleared. by apply cleared_apart.
Qed.

Lemma retire_all_cleared i peer ledger rs l : cleared rs peer l (retire_all i peer ledger rs l).2.
Proof.
  induction rs as [|r rs IH]; [by apply cleared_apart|]. simpl. destruct (retire_all i peer ledger rs l) as [[first done] l1] eqn:Hr.
  simpl in IH. eapply cleared_cons; [exact IH|]. pose proof (retire_one_cleared i peer ledger r first done l1) as H.
  by destruct (retire_one i peer ledger r (first, done, l1)) as [[first2 done2] l2].
Qed.

Lemma suspend_all_cleared peer ledger tomb rs l : cleared rs peer l (foldr (suspend_one peer ledger tomb) l rs).
Proof.
  induction rs as [|r rs IH]; [by apply cleared_apart|]. simpl. eapply cleared_cons; [exact IH|]. apply suspend_one_cleared.
Qed.

(** ** What runs, in which order *)

Inductive Inverse := ByGuest (i : Instance) (token : Z) | ByHost (h : HostRecord) | ByKernel (h : HostRecord).

Definition inverse_of (i : Instance) (r : Registration) : option Inverse :=
  match r with
  | REffect _ token => Some (ByGuest i token)
  | RHost h => Some (ByHost h)
  | RKernel h => Some (ByKernel h)
  | RProvision _ | RListen _ | RAlarm _ => None
  end.

Definition act_inverse (a : Act) : option Inverse :=
  match a with
  | Undo i token _ => Some (ByGuest i token)
  | Withdraw h _ => Some (ByHost h)
  | Release h _ => Some (ByKernel h)
  | WentLive _ | Disposed _ => None
  end.

Definition act_answer (a : Act) : option (result () KernelError) :=
  match a with Undo _ _ r | Withdraw _ r | Release _ r => Some r | WentLive _ | Disposed _ => None end.

Definition inverses (i : Instance) (rs : list Registration) : list Inverse := omap (inverse_of i) rs.
Definition ran (a : list Act) : list Inverse := omap act_inverse a.
Definition answers (a : list Act) : list (result () KernelError) := omap act_answer a.
Definition first_error (rs : list (result () KernelError)) : option KernelError := fold_left or_first rs None.

Definition host_of (x : Inverse) : option HostRecord := match x with ByHost h => Some h | _ => None end.
Definition hosts (xs : list Inverse) : list HostRecord := omap host_of xs.

(** World effects once per key, the first time the key comes up. *)
Fixpoint once (seen : list (string * Z)) (xs : list Inverse) : list Inverse :=
  match xs with
  | [] => []
  | ByHost h :: xs =>
      if decide (host_key h ∈ seen) then once seen xs else ByHost h :: once (seen ++ [host_key h]) xs
  | x :: xs => x :: once seen xs
  end.

Lemma once_snoc seen xs x :
  once seen (xs ++ [x]) = once seen xs ++ once (seen ++ map host_key (hosts (once seen xs))) [x].
Proof.
  clear undo withdrawn has_runtime slot_face.
  revert seen. induction xs as [|y xs IH]; intros seen; [simpl; by rewrite app_nil_r|].
  rewrite <-app_comm_cons. destruct y as [i t|h|h]; simpl; [by rewrite IH| |by rewrite IH].
  case_decide as Hd; [by rewrite IH|]. rewrite IH. simpl. by rewrite <-app_assoc.
Qed.

Lemma once_distinct seen xs :
  NoDup (seen ++ map host_key (hosts xs)) -> once seen xs = xs.
Proof.
  clear undo withdrawn has_runtime slot_face.
  revert seen. induction xs as [|x xs IH]; intros seen Hnd; [done|]. destruct x as [i t|h|h]; simpl in *.
  - by rewrite IH.
  - rewrite decide_False. 2:{ apply NoDup_app in Hnd as (_ & Hd & _). intros Hin. apply (Hd _ Hin). by left. }
    rewrite IH; [done|]. by rewrite <-app_assoc.
  - by rewrite IH.
Qed.

Lemma once_keys seen xs k :
  k ∈ seen ++ map host_key (hosts (once seen xs)) <-> k ∈ seen ++ map host_key (hosts xs).
Proof.
  clear undo withdrawn has_runtime slot_face.
  revert seen. induction xs as [|x xs IH]; intros seen; [done|]. destruct x as [i t|h|h]; simpl; [apply IH| |apply IH].
  case_decide as Hd; simpl.
  - rewrite IH. rewrite !elem_of_app, elem_of_cons. split; [tauto|]. intros [?|[->|?]]; tauto.
  - specialize (IH (seen ++ [host_key h])). rewrite <-!app_assoc in IH. exact IH.
Qed.

Lemma once_NoDup seen xs : NoDup seen -> NoDup (seen ++ map host_key (hosts (once seen xs))).
Proof.
  clear undo withdrawn has_runtime slot_face.
  revert seen. induction xs as [|x xs IH]; intros seen Hnd; [by rewrite app_nil_r|].
  destruct x as [i t|h|h]; simpl; [by apply IH| |by apply IH].
  case_decide as Hd; [by apply IH|]. specialize (IH (seen ++ [host_key h])). rewrite <-app_assoc in IH. apply IH.
  apply NoDup_app. split_and!; [done| |apply NoDup_singleton]. set_solver.
Qed.

(** What a retirement appended to the acts. *)
Definition retiring (i : Instance) (rs : list Registration) (first : option KernelError) (done : list (string * Z))
    (a a' : list Act) : Prop :=
  exists new, a' = a ++ new /\ ran new = once [] (rev (inverses i rs)) /\
    done = map host_key (hosts (ran new)) /\ first = first_error (answers new).

Lemma inverses_cons i r rs : rev (inverses i (r :: rs)) = rev (inverses i rs) ++ option_list (inverse_of i r).
Proof. unfold inverses. simpl. destruct (inverse_of i r); simpl; [done|by rewrite app_nil_r]. Qed.

Lemma first_error_snoc rs r : first_error (rs ++ [r]) = or_first (first_error rs) r.
Proof. unfold first_error. by rewrite fold_left_app. Qed.

(** One more registration, whose inverse ran and answered. *)
Lemma retiring_ran i r rs first done a a' x act answer :
  retiring i rs first done a a' -> inverse_of i r = Some x -> act_inverse act = Some x -> act_answer act = Some answer ->
  (forall h, x = ByHost h -> host_key h ∉ done) ->
  retiring i (r :: rs) (or_first first answer)
    (match x with ByHost h => done ++ [host_key h] | _ => done end) a (a' ++ [act]).
Proof.
  intros (new & -> & Hran & -> & ->) Hx Hact Hans Hfresh. exists (new ++ [act]). rewrite <-app_assoc.
  assert (ran (new ++ [act]) = ran new ++ [x]) as Hr by (unfold ran; rewrite omap_app; simpl; by rewrite Hact).
  split_and!; [done| | |].
  - rewrite Hr, inverses_cons, Hx. simpl. rewrite once_snoc, <-Hran. f_equal.
    destruct x as [t1 t2|h|h]; simpl; [done| |done]. by rewrite decide_False by by apply Hfresh.
  - rewrite Hr. unfold hosts. rewrite omap_app, map_app. by destruct x; simpl; rewrite ?app_nil_r.
  - unfold answers. rewrite omap_app. simpl. rewrite Hans. simpl. by rewrite first_error_snoc.
Qed.

(** One more registration, whose inverse is not run. *)
Lemma retiring_skips i r rs first done a a' :
  retiring i rs first done a a' ->
  match inverse_of i r with None => True | Some (ByHost h) => host_key h ∈ done | Some _ => False end ->
  retiring i (r :: rs) first done a a'.
Proof.
  intros (new & -> & Hran & -> & ->) Hx. exists new. split_and!; [done| |done|done].
  rewrite inverses_cons, Hran. destruct (inverse_of i r) as [[t1 t2|h|h]|]; simpl; [done| |done|by rewrite app_nil_r].
  rewrite once_snoc. simpl. rewrite decide_True; [by rewrite app_nil_r|]. by rewrite <-Hran.
Qed.

Lemma record_withdrawal_acts ledger label b l : acts (record_withdrawal ledger label b l) = acts l.
Proof. by destruct ledger. Qed.

Lemma withdraw_listen_acts r ledger l : acts (withdraw_listen r ledger l) = acts l.
Proof.
  unfold withdraw_listen. destruct (listen_id r) as [id|]; [|done].
  destruct (unlisten id (lane_topics l)) as [[t|] tb]; [by rewrite record_withdrawal_acts|done].
Qed.

Lemma on_broker_acts {A} f (l : Lane) : acts (@on_broker A f l).2 = acts l.
Proof. unfold on_broker. by destruct (f _). Qed.

Lemma on_alarms_acts {A} f (l : Lane) : acts (@on_alarms A f l).2 = acts l.
Proof. unfold on_alarms. by destruct (f _). Qed.

Lemma cancel_alarm_acts r ledger l : acts (cancel_alarm r ledger l) = acts l.
Proof.
  unfold cancel_alarm. destruct (alarm_id r) as [id|]; [|done]. pose proof (on_alarms_acts (Alarms.cancel id) l) as H.
  destruct (on_alarms (Alarms.cancel id) l) as [[] l1]; [by rewrite record_withdrawal_acts|done].
Qed.

Lemma retire_all_acts i peer ledger rs l :
  let '(first, done, l') := retire_all i peer ledger rs l in retiring i rs first done (acts l) (acts l').
Proof.
  induction rs as [|r rs IH]; [exists []; by rewrite app_nil_r|].
  unfold retire_all. cbn [foldr]. fold (retire_all i peer ledger rs l).
  destruct (retire_all i peer ledger rs l) as [[first done] l1]. destruct r as [label token|c|x|x|h|h]; cbn [retire_one].
  - simpl. rewrite record_withdrawal_acts. by eapply (retiring_ran _ _ _ _ _ _ _ (ByGuest i token)).
  - unfold withdraw_provision. rewrite on_broker_acts. by apply retiring_skips.
  - rewrite withdraw_listen_acts. by apply retiring_skips.
  - rewrite cancel_alarm_acts. by apply retiring_skips.
  - case_decide as Hd; [by apply retiring_skips|]. simpl. rewrite record_withdrawal_acts.
    eapply (retiring_ran _ _ _ _ _ _ _ (ByHost h)); [exact IH|done..|]. by intros h' [= <-].
  - unfold release_kernel. simpl. rewrite record_withdrawal_acts. by eapply (retiring_ran _ _ _ _ _ _ _ (ByKernel h)).
Qed.

(** ** The topic rows *)

Lemma unlisten_rows id (t : @Table Instance) :
  NoDup (map listener_id (listeners t)) ->
  listeners (unlisten id t).2 = filter (fun x => listener_id x <> id) (listeners t) /\
  forall x, x ∈ listeners t -> listener_id x = id -> (unlisten id t).1 = Some (topic x).
Proof.
  clear undo withdrawn has_runtime slot_face.
  intros Hnd. unfold unlisten. destruct (list_find _ (listeners t)) as [[i y]|] eqn:Hf.
  - apply list_find_Some in Hf as (Hi & Hy & _). simpl. split.
    + destruct (list_elem_of_split_length _ _ _ Hi) as (xs & ys & Heq & Hlen). rewrite Heq in Hnd |- *. subst i.
      rewrite delete_middle. rewrite map_app in Hnd. simpl in Hnd. rewrite filter_app, filter_cons_False by (by intros []).
      apply NoDup_app in Hnd as (_ & Hd & Hnd). apply NoDup_cons in Hnd as [Hnin _].
      rewrite !filter_all; [done|..]; rewrite Forall_forall.
      * intros x Hx Hid. apply Hnin. rewrite Hy, <-Hid. by apply list_elem_of_fmap_2.
      * intros x Hx Hid. apply (Hd (listener_id x)); [by apply list_elem_of_fmap_2|]. rewrite Hid, <-Hy. by left.
    + intros x Hx Hid. f_equal. f_equal. eapply NoDup_map_inj; [exact Hnd|by eapply list_elem_of_lookup_2|done|congruence].
  - apply list_find_None in Hf. simpl. split.
    + symmetry. apply filter_all. exact Hf.
    + intros x Hx Hid. rewrite Forall_forall in Hf. by destruct (Hf x Hx).
Qed.

Lemma retire_one_topics i peer ledger r first done l1 :
  let '(_, _, l2) := retire_one i peer ledger r (first, done, l1) in
  lane_topics l2 = match r with
                   | RListen x => match listen_id x with Some id => (unlisten id (lane_topics l1)).2 | None => lane_topics l1 end
                   | _ => lane_topics l1
                   end.
Proof.
  assert (forall ledger label b l, lane_topics (record_withdrawal ledger label b l) = lane_topics l) as Hrec
    by (intros [f|]; done).
  destruct r as [label token|c|x|x|h|h]; cbn [retire_one].
  - simpl. by rewrite Hrec.
  - done.
  - unfold withdraw_listen. destruct (listen_id x) as [id|]; [|done].
    destruct (unlisten id (lane_topics l1)) as [[t|] tb]; [by rewrite Hrec|done].
  - unfold cancel_alarm. destruct (alarm_id x) as [id|]; [|done]. unfold on_alarms.
    destruct (Alarms.cancel id _) as [[] w]; [by rewrite Hrec|done].
  - case_decide; [done|]. simpl. by rewrite Hrec.
  - simpl. by rewrite Hrec.
Qed.

(** The rows of a retired seat are gone, the others stay as they were. *)
Lemma retire_all_topics i peer ledger rs l :
  NoDup (map listener_id (listeners (lane_topics l))) ->
  listeners (lane_topics (retire_all i peer ledger rs l).2) =
    filter (fun x => listener_id x ∉ listen_ids rs) (listeners (lane_topics l)).
Proof.
  clear has_runtime slot_face.
  intros Hnd. induction rs as [|r rs IH].
  - simpl. symmetry. apply filter_all, Forall_forall. intros x _. apply not_elem_of_nil.
  - unfold retire_all. cbn [foldr]. fold (retire_all i peer ledger rs l).
    destruct (retire_all i peer ledger rs l) as [[first done] l1]. simpl in IH.
    pose proof (retire_one_topics i peer ledger r first done l1) as Ht.
    destruct (retire_one i peer ledger r (first, done, l1)) as [[first2 done2] l2]. simpl. rewrite Ht.
    assert (NoDup (map listener_id (listeners (lane_topics l1)))) as Hnd1 by (rewrite IH; by apply NoDup_map_filter).
    assert (forall ids, listen_ids [r] = ids ->
      forall k, k ∉ listen_ids (r :: rs) <-> k ∉ ids /\ k ∉ listen_ids rs) as Hids.
    { intros ids <- y. rewrite (listen_ids_cons r rs), elem_of_app. tauto. }
    assert (listen_ids [r] = [] -> listeners (lane_topics l1) =
      filter (fun y => listener_id y ∉ listen_ids (r :: rs)) (listeners (lane_topics l))) as Hsame.
    { intros Hr. rewrite IH. apply list_filter_iff. intros y. rewrite (Hids [] Hr _). set_solver. }
    destruct r as [label token|c|x|x|h|h]; try by apply Hsame.
    assert (listen_ids [RListen x] = option_list (listen_id x)) as Hx
      by (unfold listen_ids; simpl; by destruct (listen_id x)).
    destruct (listen_id x) as [id|]; [|by apply Hsame].
    destruct (unlisten_rows id (lane_topics l1) Hnd1) as [-> _]. rewrite IH, list_filter_filter.
    apply list_filter_iff. intros y. rewrite (Hids [id] Hx _). set_solver.
Qed.

Definition entomb_in (tomb : EntryId * Z) (ids : list Z) (x : @Listener Instance) : @Listener Instance :=
  if decide (listener_id x ∈ ids) then buried tomb.1 tomb.2 x else x.

Lemma entomb_rows id tomb (t : @Table Instance) :
  NoDup (map listener_id (listeners t)) ->
  listeners (entomb id tomb.1 tomb.2 t).2 = map (entomb_in tomb [id]) (listeners t).
Proof.
  intros Hnd. unfold entomb. destruct (list_find _ (listeners t)) as [[i y]|] eqn:Hf.
  - apply list_find_Some in Hf as (Hi & Hy & _). simpl.
    destruct (list_elem_of_split_length _ _ _ Hi) as (xs & ys & Heq & Hlen). rewrite Heq in Hnd |- *. subst i.
    rewrite alter_app_r_alt by lia. rewrite Nat.sub_diag. simpl. rewrite !map_app in *. simpl in *.
    apply NoDup_app in Hnd as (_ & Hd & Hnd). apply NoDup_cons in Hnd as [Hnin _]. unfold entomb_in at 2.
    rewrite decide_True by (rewrite Hy; by left). f_equal; [|f_equal]; symmetry; apply map_fixed.
    + intros x Hx. unfold entomb_in. rewrite decide_False; [done|]. intros Hid%list_elem_of_singleton.
      apply (Hd (listener_id x)); [by apply list_elem_of_fmap_2|]. rewrite Hid, <-Hy. by left.
    + intros x Hx. unfold entomb_in. rewrite decide_False; [done|]. intros Hid%list_elem_of_singleton.
      apply Hnin. rewrite Hy, <-Hid. by apply list_elem_of_fmap_2.
  - apply list_find_None in Hf. simpl. symmetry. apply map_fixed. intros x Hx. unfold entomb_in.
    rewrite decide_False; [done|]. intros Hid%list_elem_of_singleton. rewrite Forall_forall in Hf. by apply (Hf x Hx).
Qed.

Lemma entomb_in_id tomb ids x : listener_id (entomb_in tomb ids x) = listener_id x.
Proof. unfold entomb_in. by case_decide. Qed.

Lemma entomb_in_ids tomb ids ls : map listener_id (map (entomb_in tomb ids) ls) = map listener_id ls.
Proof. rewrite map_map. apply map_ext. apply entomb_in_id. Qed.

Lemma entomb_in_app tomb ids ids' x : entomb_in tomb ids (entomb_in tomb ids' x) = entomb_in tomb (ids ++ ids') x.
Proof.
  clear undo withdrawn has_runtime slot_face.
  unfold entomb_in. repeat case_decide; simpl in *; try done; set_solver.
Qed.

Lemma suspend_one_topics peer ledger tomb r l :
  NoDup (map listener_id (listeners (lane_topics l))) ->
  listeners (lane_topics (suspend_one peer ledger tomb r l)) =
    map (entomb_in tomb (listen_ids [r])) (listeners (lane_topics l)).
Proof.
  intros Hnd. assert (listeners (lane_topics l) = map (entomb_in tomb []) (listeners (lane_topics l))) as Hnil.
  { symmetry. apply map_fixed. intros x _. unfold entomb_in. by rewrite decide_False by apply not_elem_of_nil. }
  assert (forall ledger label b l, lane_topics (record_withdrawal ledger label b l) = lane_topics l) as Hrec
    by (intros [f|]; done).
  destruct r as [label token|c|x|x|h|h]; simpl; try exact Hnil.
  - assert (listen_ids [RListen x] = option_list (listen_id x)) as ->
      by (unfold listen_ids; simpl; by destruct (listen_id x)).
    destruct (listen_id x) as [id|]; [|exact Hnil]. by apply entomb_rows.
  - unfold cancel_alarm. destruct (alarm_id x) as [id|]; [|exact Hnil]. unfold on_alarms.
    destruct (Alarms.cancel id _) as [[] w]; [by rewrite Hrec|exact Hnil].
  - by rewrite Hrec.
Qed.

Lemma suspend_all_topics peer ledger tomb rs l :
  NoDup (map listener_id (listeners (lane_topics l))) ->
  listeners (lane_topics (foldr (suspend_one peer ledger tomb) l rs)) =
    map (entomb_in tomb (listen_ids rs)) (listeners (lane_topics l)).
Proof.
  intros Hnd. induction rs as [|r rs IH].
  - symmetry. apply map_fixed. intros x _. unfold entomb_in. by rewrite decide_False by apply not_elem_of_nil.
  - cbn [foldr]. rewrite suspend_one_topics by (rewrite IH; by rewrite entomb_in_ids).
    rewrite IH, map_map. apply map_ext. intros x. rewrite entomb_in_app. by rewrite <-listen_ids_cons.
Qed.

Lemma suspend_all_acts peer ledger tomb rs l :
  exists new, acts (foldr (suspend_one peer ledger tomb) l rs) = acts l ++ new /\
    ran new = rev (map ByKernel (kernel_records rs)).
Proof.
  induction rs as [|r rs (new & IH & Hran)]; [exists []; by rewrite app_nil_r|].
  cbn [foldr]. assert (forall l', acts l' = acts (foldr (suspend_one peer ledger tomb) l rs) ->
    kernel_records (r :: rs) = kernel_records rs ->
    exists new, acts l' = acts l ++ new /\ ran new = rev (map ByKernel (kernel_records (r :: rs)))) as Hquiet
    by (intros l' Hl' ->; exists new; by rewrite Hl').
  destruct r as [label token|c|x|x|h|h]; try (apply Hquiet; [|done]).
  - done.
  - apply (on_broker_acts (fun b => ((), Broker.withdraw peer c b))).
  - simpl. by destruct (listen_id x).
  - simpl. by rewrite cancel_alarm_acts.
  - done.
  - simpl. rewrite record_withdrawal_acts. simpl. rewrite IH, <-app_assoc. eexists. split; [done|].
    unfold ran in *. rewrite omap_app. simpl. by rewrite Hran.
Qed.

(** *** The trail *)

(** What a withdrawal row names: an effect by its label, a service. *)
Definition row_label (r : LedgerEventKind * option EntryId * option FiberId) : option (string + string) :=
  match r.1.1 with
  | EffectWithdrawn label _ => Some (inl label)
  | ServiceWithdrawn c => Some (inr c)
  | _ => None
  end.

Definition closing_label (r : Registration) : string + string :=
  match r with
  | REffect label _ => inl label
  | RProvision c => inr c
  | RListen x => inl ("listen " +:+ listen_topic x)
  | RAlarm x => inl (alarm_text x)
  | RHost h | RKernel h => inl (host_label h)
  end.

(** Everything a journal names is there, each once. *)
Record in_place (rs : list Registration) (peer : Z) (l : Lane) : Prop := {
  listens_there x : x ∈ listens rs -> exists id y, listen_id x = Some id /\ y ∈ listeners (lane_topics l) /\
    listener_id y = id /\ topic y = listen_topic x;
  alarms_there x : x ∈ alarm_requests rs -> exists id, alarm_id x = Some id /\ is_Some (alarm_rows l !! id);
  provisions_there c : c ∈ provisions rs -> holds (broker_state l) peer c = true;
  listens_once : NoDup (listen_ids rs);
  alarms_once : NoDup (alarm_ids rs);
  provisions_once : NoDup (provisions rs);
  hosts_once : NoDup (map host_key (host_records rs));
}.

Lemma in_place_tail r rs peer l : in_place (r :: rs) peer l -> in_place rs peer l.
Proof.
  intros [Hl Ha Hp Hln Han Hpn Hhn].
  rewrite (listen_ids_cons r rs) in Hln. rewrite (alarm_ids_cons r rs) in Han. rewrite (provisions_cons r rs) in Hpn.
  apply NoDup_app in Hln as (_ & _ & Hln), Han as (_ & _ & Han), Hpn as (_ & _ & Hpn). split; try done.
  - intros x Hx. apply Hl. destruct r; try done. by right.
  - intros x Hx. apply Ha. destruct r; try done. by right.
  - intros c Hc. apply Hp. destruct r; try done. by right.
  - destruct r; try done. by apply NoDup_cons in Hhn as [_ ?].
Qed.

Lemma hosts_inverses i rs : hosts (rev (inverses i rs)) = rev (host_records rs).
Proof.
  induction rs as [|r rs IH]; [done|]. rewrite inverses_cons. unfold hosts in *. rewrite omap_app, IH.
  destruct r; simpl; by rewrite ?app_nil_r.
Qed.

Lemma retired_keys i rs first done a a' k :
  retiring i rs first done a a' -> k ∈ done <-> k ∈ map host_key (host_records rs).
Proof.
  intros (new & _ & Hran & -> & _). rewrite Hran. pose proof (once_keys [] (rev (inverses i rs)) k) as Hk.
  simpl in Hk. rewrite Hk, hosts_inverses, map_rev, !list_elem_of_In. symmetry. apply in_rev.
Qed.

Definition labels (rows : list (LedgerEventKind * option EntryId * option FiberId)) : list (option (string + string)) :=
  map row_label rows.

Lemma record_withdrawal_labels f label b l l0 :
  trail l = trail l0 ->
  exists new, trail (record_withdrawal (Some f) label b l) = trail l0 ++ new /\ labels new = [Some (inl label)].
Proof. intros Ht. eexists. simpl. by rewrite Ht. Qed.

Lemma retire_one_trail i peer f r rs first done l l1 :
  NoDup (map listener_id (listeners (lane_topics l))) -> in_place (r :: rs) peer l ->
  cleared rs peer l l1 ->
  listeners (lane_topics l1) = filter (fun x => listener_id x ∉ listen_ids rs) (listeners (lane_topics l)) ->
  (forall k, k ∈ done <-> k ∈ map host_key (host_records rs)) ->
  let '(_, _, l2) := retire_one i peer (Some f) r (first, done, l1) in
  exists new, trail l2 = trail l1 ++ new /\ labels new = [Some (closing_label r)].
Proof.
  intros Hnd [Hl Ha Hp Hln Han Hpn Hhn] Hc Ht Hd.
  destruct r as [label token|c|x|x|h|h]; cbn [retire_one closing_label].
  - by apply record_withdrawal_labels.
  - unfold withdraw_provision, on_broker, Broker.withdraw. simpl.
    assert (holds (broker_state l1) peer c = true) as ->.
    { pose proof (Hp c (list_elem_of_here _ _)) as Hh. unfold holds in *. rewrite (cleared_providers _ _ _ _ Hc).
      rewrite decide_False; [done|]. intros [Hin _]. simpl in Hpn. by apply NoDup_cons in Hpn as [? _]. }
    simpl. by eexists.
  - destruct (Hl x (list_elem_of_here _ _)) as (id & y & Hid & Hy & Hyid & Hytopic). unfold withdraw_listen. rewrite Hid.
    assert (y ∈ listeners (lane_topics l1)) as Hy1.
    { rewrite Ht. apply list_elem_of_filter. split; [|done]. rewrite Hyid. rewrite (listen_ids_cons (RListen x) rs) in Hln.
      apply NoDup_app in Hln as (_ & Hdis & _). apply Hdis. unfold listen_ids. simpl. rewrite Hid. by left. }
    destruct (unlisten_rows id (lane_topics l1)) as [_ Hu]; [rewrite Ht; by apply NoDup_map_filter|].
    specialize (Hu y Hy1 Hyid). destruct (unlisten id (lane_topics l1)) as [there t]. simpl in Hu. rewrite Hu.
    rewrite <-Hytopic. by apply record_withdrawal_labels.
  - destruct (Ha x (list_elem_of_here _ _)) as (id & Hid & Hlive). unfold cancel_alarm. rewrite Hid.
    assert (is_Some (alarm_rows l1 !! id)) as [o Ho].
    { rewrite (cleared_alarms _ _ _ _ Hc). rewrite decide_False; [done|]. rewrite (alarm_ids_cons (RAlarm x) rs) in Han.
      apply NoDup_app in Han as (_ & Hdis & _). apply Hdis. unfold alarm_ids. simpl. rewrite Hid. by left. }
    unfold on_alarms, Alarms.cancel, take. simpl. rewrite Ho.
    destruct o as [task|]; simpl; rewrite app_nil_r; eexists; by split.
  - rewrite decide_False. 2:{ rewrite Hd. simpl in Hhn. by apply NoDup_cons in Hhn as [? _]. }
    by apply record_withdrawal_labels.
  - by apply record_withdrawal_labels.
Qed.

Lemma retire_all_trail i peer f rs l :
  NoDup (map listener_id (listeners (lane_topics l))) -> in_place rs peer l ->
  exists new, trail (retire_all i peer (Some f) rs l).2 = trail l ++ new /\
    labels new = map Some (rev (map closing_label rs)).
Proof.
  intros Hnd. induction rs as [|r rs IH]; intros Hin; [exists []; by rewrite app_nil_r|].
  destruct (IH (in_place_tail _ _ _ _ Hin)) as (new & Hnew & Hlab). clear IH.
  pose proof (retire_all_cleared i peer (Some f) rs l) as Hc. pose proof (retire_all_topics i peer (Some f) rs l Hnd) as Ht.
  pose proof (retire_all_acts i peer (Some f) rs l) as Hacts.
  unfold retire_all. cbn [foldr]. fold (retire_all i peer (Some f) rs l).
  destruct (retire_all i peer (Some f) rs l) as [[first done] l1]. cbn [snd] in *.
  pose proof (retire_one_trail i peer f r rs first done l l1 Hnd Hin Hc Ht (fun k => retired_keys _ _ _ _ _ _ k Hacts)) as Hone.
  destruct (retire_one i peer (Some f) r (first, done, l1)) as [[first2 done2] l2].
  destruct Hone as (new1 & Hnew1 & Hlab1). exists (new ++ new1). cbn [snd]. rewrite Hnew1, Hnew, <-app_assoc.
  split; [done|]. unfold labels in *. simpl. by rewrite !map_app, Hlab, Hlab1.
Qed.

(** ** Retirement and suspension *)

(** Retiring a seat withdraws exactly what it contributed. Whatever the
    guest's inverses and the providers answer, every inverse of its journal runs
    once, the last registered first, a world effect once per key; its listeners,
    its alarms and the provisions it holds are gone and nothing else of the
    broker, the topics, the alarms or the journals moved; the answer is the
    first failure, after all ran. Where everything the journal names was in
    place once, the rows of the trail are those of the journal, last first. *)
Theorem retiring_withdraws_the_whole_contribution s peer ledger l :
  NoDup (map listener_id (listeners (lane_topics l))) ->
  let '(answer, l') := retire s peer ledger l in
  let rs := registrations s in
  (exists new, acts l' = acts l ++ new ++ [Disposed (instance s)] /\
    ran new = once [] (rev (inverses (instance s) rs)) /\
    answer = match first_error (answers new) with None => Ok () | Some e => Err e end) /\
  listeners (lane_topics l') = filter (fun x => listener_id x ∉ listen_ids rs) (listeners (lane_topics l)) /\
  cleared rs peer l l' /\
  forall f, ledger = Some f -> in_place rs peer l ->
    exists rows, trail l' = trail l ++ rows /\ labels rows = map Some (rev (map closing_label rs)).
Proof.
  intros Hnd. unfold retire.
  pose proof (retire_all_cleared (instance s) peer ledger (registrations s) l) as Hc.
  pose proof (retire_all_topics (instance s) peer ledger (registrations s) l Hnd) as Ht.
  pose proof (retire_all_acts (instance s) peer ledger (registrations s) l) as Ha.
  pose proof (fun f => retire_all_trail (instance s) peer f (registrations s) l Hnd) as Htr.
  destruct (retire_all (instance s) peer ledger (registrations s) l) as [[first done] l1] eqn:Hr. cbn [snd] in *.
  destruct Ha as (new & Hacts & Hran & _ & ->). split_and!.
  - exists new. simpl. by rewrite Hacts, <-app_assoc.
  - exact Ht.
  - destruct Hc. by split.
  - intros f -> Hin. specialize (Htr f Hin). by rewrite Hr in Htr.
Qed.

(** *** Records once per key *)

Definition keys (hs : list HostRecord) : list (string * Z) := map host_key hs.

Lemma keep_one_keys kept hs k : k ∈ keys (fold_left keep_one hs kept) <-> k ∈ keys (kept ++ hs).
Proof.
  revert kept. induction hs as [|h hs IH]; intros kept; simpl; [by rewrite app_nil_r|]. rewrite IH. unfold keep_one, keys.
  rewrite !map_app, !elem_of_app. simpl. rewrite elem_of_cons. case_decide as Hd; [|rewrite map_app, elem_of_app; simpl; rewrite list_elem_of_singleton; tauto].
  split; [tauto|]. intros [?|[->|?]]; tauto.
Qed.

Lemma keep_one_NoDup kept hs : NoDup (keys kept) -> NoDup (keys (fold_left keep_one hs kept)).
Proof.
  revert kept. induction hs as [|h hs IH]; intros kept Hnd; simpl; [done|]. apply IH. unfold keep_one. case_decide as Hd; [done|].
  unfold keys in *. rewrite map_app. apply NoDup_app. split_and!; [done| |apply NoDup_singleton].
  intros k Hk Hin%list_elem_of_singleton. by rewrite Hin in Hk.
Qed.

Lemma keep_one_distinct kept hs : NoDup (keys (kept ++ hs)) -> fold_left keep_one hs kept = kept ++ hs.
Proof.
  revert kept. induction hs as [|h hs IH]; intros kept Hnd; simpl; [by rewrite app_nil_r|].
  unfold keep_one at 2. rewrite decide_False. 2:{ unfold keys in Hnd. rewrite map_app in Hnd.
    apply NoDup_app in Hnd as (_ & Hd & _). intros Hin. apply (Hd _ Hin). by left. }
  rewrite IH by by rewrite <-app_assoc. by rewrite <-app_assoc.
Qed.

(** Suspending a seat releases what only a running process can hold, entombs its
    listeners and hands back its world effects, each once; no inverse of a guest
    and none of a world effect runs. *)
Lemma suspending_keeps_the_world s peer ledger tomb l :
  NoDup (map listener_id (listeners (lane_topics l))) ->
  let '(retained, l') := suspend s peer ledger tomb l in
  let rs := registrations s in
  retained = fold_left keep_one (host_records rs) [] /\
  (exists new, acts l' = acts l ++ new ++ [Disposed (instance s)] /\ ran new = rev (map ByKernel (kernel_records rs))) /\
  listeners (lane_topics l') = map (entomb_in tomb (listen_ids rs)) (listeners (lane_topics l)) /\
  cleared rs peer l l'.
Proof.
  intros Hnd. unfold suspend. split_and!; [done| | |].
  - destruct (suspend_all_acts peer ledger tomb (registrations s) l) as (new & Hacts & Hran). exists new.
    simpl. by rewrite Hacts, <-app_assoc.
  - by apply suspend_all_topics.
  - destruct (suspend_all_cleared peer ledger tomb (registrations s) l). by split.
Qed.

(** ** The life of an entry *)

(** The slot, the journals and the acts stay as they were. *)
Record quiet (l l' : Lane) : Prop := {
  quiet_slot : lane_slot l' = lane_slot l;
  quiet_journals : journals l' = journals l;
  quiet_acts : acts l' = acts l;
}.

Lemma quiet_refl l : quiet l l.
Proof. done. Qed.

Lemma quiet_trans l1 l2 l3 : quiet l1 l2 -> quiet l2 l3 -> quiet l1 l3.
Proof. intros [] []. split; congruence. Qed.

Lemma quiet_fold {A} (g : Lane -> A -> Lane) xs l : (forall l x, quiet l (g l x)) -> quiet l (fold_left g xs l).
Proof.
  intros Hg. revert l. induction xs as [|x xs IH]; intros l; simpl; [done|]. eapply quiet_trans; [apply Hg|apply IH].
Qed.

Lemma on_broker_quiet {A} f l : quiet l (@on_broker A f l).2.
Proof. unfold on_broker. by destruct (f _). Qed.

Lemma on_alarms_quiet {A} f l : quiet l (@on_alarms A f l).2.
Proof. unfold on_alarms. by destruct (f _). Qed.

Lemma provide_one_quiet old peer f l c : quiet l (provide_one old peer f l c).
Proof.
  unfold provide_one. case_decide as Hd; [done|]. pose proof (on_broker_quiet (Broker.provide peer c slot_face) l) as Hq.
  destruct (on_broker _ l) as [[[]|error] l1]; simpl in Hq; [done|]. destruct Hq. by split.
Qed.

Lemma withdraw_one_quiet new peer l c : quiet l (withdraw_one new peer l c).
Proof. unfold withdraw_one. case_decide; [done|]. apply on_broker_quiet. Qed.

(** What a commit does to the slot, the journals and the acts. *)
Lemma commit_slot staged rs peer f context l :
  let '(displaced, l') := commit_staged staged rs peer f context l in
  displaced = current (lane_slot l) /\ journals l' = journals l /\ acts l' = acts l ++ [WentLive staged] /\
  exists ids aids, lane_slot l' =
    MkSlot (Some (MkSeat staged (number rs ids aids))) (closing (lane_slot l)) (sealed (lane_slot l)) true.
Proof.
  unfold commit_staged. destruct (slot_registrations (lane_slot l)) as [[oldp oldl] olda].
  destruct (Topics.rebind _ _ (lane_topics l)) as [ids t].
  pose proof (on_broker_quiet (fun b => ((), Broker.attach_target peer staged b)) (with_topics t l)) as [Hs1 Hj1 Ha1].
  set (l1 := (on_broker _ (with_topics t l)).2) in *.
  pose proof (on_alarms_quiet (Alarms.rebind has_runtime olda (arms_of f rs)) l1) as [Hs2 Hj2 Ha2].
  destruct (on_alarms _ l1) as [aids l2]. cbn [snd] in *. unfold slot_install. cbv zeta beta iota.
  set (l3 := with_slot _ l2).
  pose proof (quiet_fold (provide_one oldp peer f) (provisions (number rs ids aids)) l3 (provide_one_quiet oldp peer f)) as H3.
  set (l4 := fold_left (provide_one oldp peer f) _ l3) in *.
  pose proof (quiet_fold (withdraw_one (provisions (number rs ids aids)) peer) oldp l4 (withdraw_one_quiet _ peer)) as H4.
  set (l5 := fold_left (withdraw_one _ peer) oldp l4) in *.
  destruct (quiet_trans _ _ _ H3 H4) as [Hs Hj Ha].
  assert (journals l3 = journals l2 /\ acts l3 = acts l2) as [Hj3 Ha3] by done.
  split_and!.
  - by rewrite Hs2, Hs1.
  - simpl. by rewrite Hj, Hj3, Hj2, Hj1.
  - simpl. by rewrite Ha, Ha3, Ha2, Ha1.
  - exists ids, aids. simpl. rewrite Hs. unfold l3. simpl. by rewrite Hs2, Hs1.
Qed.

Lemma number_hosts rs ids aids : host_records (number rs ids aids) = host_records rs.
Proof.
  revert ids aids. induction rs as [|r rs IH]; intros ids aids; [done|]. destruct r; simpl; try apply IH. f_equal. apply IH.
Qed.

(** The world effects an entry answers for, the oldest first. *)
Definition seat_hosts (x : SharedSlot) : list HostRecord :=
  match current x with Some s => host_records (registrations s) | None => [] end.

Definition journal (e : EntryId) (l : Lane) : list HostRecord := default [] (journals l !! e).

(** Those of the seats a swap displaced and has not retired yet, which are in
    neither. *)
Definition displaced_hosts (ps : list SeatState) : list HostRecord :=
  concat (map (fun s => host_records (registrations s)) ps).

(** What can happen to an entry short of its disposal, with the world effects
    registered by it. A swap commits in one step and retires the seat it
    displaced in another, and anything may come between. It is orderly when
    displaced seats retire in the order they were displaced, and no suspension
    comes before. *)
Inductive lives (orderly : bool) (e : EntryId) :
    list SeatState * Lane -> list HostRecord -> list SeatState * Lane -> Prop :=
  | lives_lands guest_trail committing i rs f peer context ps l :
      current (lane_slot l) = None ->
      lives orderly e (ps, l) (host_records rs) (ps, land guest_trail committing i rs f peer context l)
  | lives_late late ps l : is_Some (current (lane_slot l)) ->
      lives orderly e (ps, l) (host_records late) (ps, with_slot (extend late (lane_slot l)).2 l)
  | lives_commits staged rs peer f context ps l displaced l1 :
      commit_staged staged rs peer f context l = (Some displaced, l1) ->
      lives orderly e (ps, l) (host_records rs) (ps ++ [displaced], l1)
  | lives_retires before displaced after l :
      (orderly = true -> before = []) ->
      lives orderly e (before ++ displaced :: after, l) [] (before ++ after, retire_displaced e displaced l)
  | lives_suspends slot_id peer ledger ps l :
      (orderly = true -> ps = []) ->
      lives orderly e (ps, l) [] (ps, suspend_entry e slot_id peer ledger l).

Inductive lifetime (orderly : bool) (e : EntryId) (l0 : Lane) : list HostRecord -> list SeatState * Lane -> Prop :=
  | lifetime_begins : lifetime orderly e l0 [] ([], l0)
  | lifetime_goes hs hs' w w' : lifetime orderly e l0 hs w -> lives orderly e w hs' w' -> lifetime orderly e l0 (hs ++ hs') w'.

(** The journal [J] keeps one record per key; it, the displaced seats [P] and the
    seat [S] hold what was registered, each once where no key came up twice, in
    that order where the swaps are orderly. *)
Record holding (orderly : bool) (hs J P S : list HostRecord) : Prop := {
  journal_once : NoDup (keys J);
  held_keys k : k ∈ keys (J ++ P ++ S) <-> k ∈ keys hs;
  held_all : NoDup (keys hs) -> J ++ P ++ S ≡ₚ hs;
  held_order : orderly = true -> NoDup (keys hs) -> J ++ P ++ S = hs;
}.

Lemma ran_app a b : ran (a ++ b) = ran a ++ ran b.
Proof. apply omap_app. Qed.

Lemma hosts_app xs ys : hosts (xs ++ ys) = hosts xs ++ hosts ys.
Proof. apply omap_app. Qed.

Lemma keys_app hs hs' : keys (hs ++ hs') = keys hs ++ keys hs'.
Proof. apply map_app. Qed.

#[local] Instance keys_perm : Proper ((≡ₚ) ==> (≡ₚ)) keys.
Proof. intros hs hs'. apply Permutation_map. Qed.

(** Registering at the end. *)
Lemma holding_adds orderly hs J P S P' S' more :
  holding orderly hs J P S -> P' ++ S' = P ++ S ++ more -> holding orderly (hs ++ more) J P' S'.
Proof.
  intros [Hj Hk Ha Ho] E.
  assert (J ++ P' ++ S' = (J ++ P ++ S) ++ more) as Hall by by rewrite E, <-!app_assoc.
  assert (NoDup (keys (hs ++ more)) -> NoDup (keys hs)) as Hnd by (rewrite keys_app; by intros (? & _)%NoDup_app).
  split; rewrite ?Hall; [done| | |].
  - intros k. by rewrite !keys_app, !elem_of_app, <-Hk, !keys_app, !elem_of_app.
  - intros H. by rewrite Ha by auto.
  - intros H1 H2. by rewrite Ho by auto.
Qed.

(** Moving some of it into the journal. *)
Lemma holding_keeps orderly hs J P S D P' S' :
  holding orderly hs J P S -> P ++ S ≡ₚ D ++ P' ++ S' -> (orderly = true -> P ++ S = D ++ P' ++ S') ->
  holding orderly hs (fold_left keep_one D J) P' S'.
Proof.
  intros [Hj Hk Ha Ho] E Ee.
  assert (NoDup (keys hs) -> fold_left keep_one D J = J ++ D) as Hkept.
  { intros Hnd. apply keep_one_distinct. pose proof Hnd as Hnd'. rewrite <-(Ha Hnd), E, app_assoc, keys_app in Hnd'.
    by apply NoDup_app in Hnd' as (? & _). }
  split.
  - by apply keep_one_NoDup.
  - intros k. rewrite <-Hk. rewrite E, keys_app, elem_of_app, keep_one_keys, !keys_app, !elem_of_app. tauto.
  - intros Hnd. by rewrite Hkept, <-app_assoc, <-E by done; apply Ha.
  - intros H1 Hnd. by rewrite Hkept, <-app_assoc, <-Ee by done; apply Ho.
Qed.

Lemma seat_hosts_current x s : current x = Some s -> seat_hosts x = host_records (registrations s).
Proof. intros Hx. unfold seat_hosts. by rewrite Hx. Qed.

Lemma host_records_app rs rs' : host_records (rs ++ rs') = host_records rs ++ host_records rs'.
Proof. apply omap_app. Qed.

Lemma fold_append_quiet {A} (g : A -> LedgerEventKind) f xs l :
  quiet l (fold_left (fun l x => append (g x) f l) xs l).
Proof. apply quiet_fold. intros l' x. by split. Qed.

Lemma land_hosts guest_trail committing i rs f peer context l :
  current (lane_slot l) = None ->
  let l' := land guest_trail committing i rs f peer context l in
  journals l' = journals l /\ seat_hosts (lane_slot l') = host_records rs /\
  hosts (ran (acts l')) = hosts (ran (acts l)).
Proof.
  intros Hnone. unfold land. destruct committing.
  - pose proof (commit_slot i rs peer (Some f) context l) as Hc.
    destruct (commit_staged i rs peer (Some f) context l) as [displaced l1]. destruct Hc as (-> & Hj & Ha & ids & aids & Hs).
    rewrite Hnone. assert (quiet l1 (if guest_trail
        then fold_left (fun l t => append (EffectWithdrawn ("listen " +:+ t) true) (Some f) l)
               (map snd (Topics.entombed f (lane_topics l))) l1 else l1)) as [Hs1 Hj1 Ha1]
      by (destruct guest_trail; [apply fold_append_quiet|done]).
    rewrite Hs1, Hj1, Ha1. split_and!; [done| |].
    + rewrite Hs. unfold seat_hosts. simpl. apply number_hosts.
    + rewrite Ha, ran_app, hosts_app. simpl. by rewrite app_nil_r.
  - unfold slot_install. rewrite Hnone. by split_and!.
Qed.

Lemma retire_hosts s peer ledger l :
  let '(_, l') := retire s peer ledger l in
  exists new, acts l' = acts l ++ new /\ lane_slot l' = lane_slot l /\ journals l' = journals l /\
    hosts (ran new) = hosts (once [] (rev (inverses (instance s) (registrations s)))).
Proof.
  unfold retire. pose proof (retire_all_cleared (instance s) peer ledger (registrations s) l) as Hc.
  pose proof (retire_all_acts (instance s) peer ledger (registrations s) l) as Ha.
  destruct (retire_all (instance s) peer ledger (registrations s) l) as [[first done] l1]. cbn [snd] in *.
  destruct Ha as (new & Hacts & Hran & _ & _). exists (new ++ [Disposed (instance s)]). destruct Hc as [Hs Hj _ _ _ _ _ _].
  split_and!; [simpl; by rewrite Hacts, <-app_assoc|exact Hs|exact Hj|].
  rewrite ran_app, hosts_app. simpl. by rewrite app_nil_r, Hran.
Qed.

Lemma suspend_hosts s peer ledger tomb l :
  let '(retained, l') := suspend s peer ledger tomb l in
  retained = fold_left keep_one (host_records (registrations s)) [] /\
  lane_slot l' = lane_slot l /\ journals l' = journals l /\ hosts (ran (acts l')) = hosts (ran (acts l)).
Proof.
  unfold suspend. destruct (suspend_all_acts peer ledger tomb (registrations s) l) as (new & Hacts & Hran).
  destruct (suspend_all_cleared peer ledger tomb (registrations s) l) as [Hs Hj _ _ _ _ _ _].
  split_and!; [done|exact Hs|exact Hj|]. simpl. rewrite Hacts, !ran_app, !hosts_app, Hran. simpl.
  assert (forall ks, hosts (rev (map ByKernel ks)) = []) as ->; [|by rewrite !app_nil_r].
  intros ks. induction ks as [|k ks IH]; [done|]. simpl. by rewrite hosts_app, IH.
Qed.

Lemma keep_one_again kept hs : fold_left keep_one (fold_left keep_one hs []) kept = fold_left keep_one hs kept.
Proof.
  induction hs as [|h hs IH] using rev_ind; [done|]. rewrite !fold_left_app. cbn [fold_left]. rewrite <-IH.
  set (kf := fold_left keep_one hs []). unfold keep_one at 2. case_decide as Hd; [|by rewrite fold_left_app].
  unfold keep_one at 2. rewrite decide_True; [done|]. apply keep_one_keys. rewrite keys_app, elem_of_app. by right.
Qed.

Lemma suspend_entry_hosts e slot_id peer ledger l :
  let l' := suspend_entry e slot_id peer ledger l in
  match current (lane_slot l) with
  | Some s => journals l' = <[e := fold_left keep_one (host_records (registrations s)) (default [] (journals l !! e))]> (journals l)
  | None => journals l' = journals l
  end /\
  current (lane_slot l') = None /\ hosts (ran (acts l')) = hosts (ran (acts l)).
Proof.
  assert (forall ledger retained l1, quiet l1 (record_suspension ledger retained l1)) as Hq by (intros [f|]; by split).
  cbv beta iota zeta delta [suspend_entry take_seat slot_take seal shut_door]. cbn [current closing sealed ever].
  destruct (current (lane_slot l)) as [s|] eqn:Hs.
  - pose proof (suspend_hosts s peer ledger (e, slot_id) (with_slot (MkSlot None true true (ever (lane_slot l))) l)) as Hsu.
    destruct (suspend s peer ledger (e, slot_id) _) as [retained l1]. destruct Hsu as (-> & Hsl & Hj & Ha).
    match goal with |- context [record_suspension ledger ?r ?l2] => destruct (Hq ledger r l2) as [Hs2 Hj2 Ha2] end.
    match goal with |- context [on_broker ?f ?l2] => destruct (on_broker_quiet f l2) as [Hs3 Hj3 Ha3] end.
    rewrite Hs3, Hj3, Ha3, Hs2, Hj2, Ha2. simpl. rewrite Hj, Hsl, Ha. simpl. by rewrite keep_one_again.
  - done.
Qed.

Lemma displaced_hosts_app ps qs : displaced_hosts (ps ++ qs) = displaced_hosts ps ++ displaced_hosts qs.
Proof. unfold displaced_hosts. by rewrite map_app, concat_app. Qed.

Definition answered_for (orderly : bool) (e : EntryId) (hs : list HostRecord) (w : list SeatState * Lane) : Prop :=
  holding orderly hs (journal e w.2) (displaced_hosts w.1) (seat_hosts (lane_slot w.2)).

Lemma lives_answered_for orderly e hs more w w' :
  answered_for orderly e hs w -> lives orderly e w more w' ->
  answered_for orderly e (hs ++ more) w' /\ hosts (ran (acts w'.2)) = hosts (ran (acts w.2)).
Proof.
  unfold answered_for, journal. intros Hh Hl. destruct Hl as [gt committing i rs f peer context ps l Hnone|late ps l [s Hs]
    |staged rs peer f context ps l displaced l1 Hc|before displaced after l Hord|slot_id peer ledger ps l Hord]; cbn [fst snd] in *.
  - destruct (land_hosts gt committing i rs f peer context l Hnone) as (Hj & Hs & Ha). rewrite Hj, Ha. split; [|done].
    eapply holding_adds; [exact Hh|]. rewrite Hs. unfold seat_hosts. by rewrite Hnone.
  - split; [|done]. eapply holding_adds; [exact Hh|]. simpl. unfold extend, seat_hosts. rewrite Hs. simpl.
    by rewrite host_records_app.
  - pose proof (commit_slot staged rs peer f context l) as Hcs. rewrite Hc in Hcs.
    destruct Hcs as (Hcur & Hj & Ha & ids & aids & Hslot). rewrite Hj, Ha, ran_app, hosts_app. split; [|simpl; by rewrite app_nil_r].
    eapply holding_adds; [exact Hh|]. rewrite displaced_hosts_app, Hslot. unfold displaced_hosts at 2, seat_hosts. simpl.
    by rewrite <-Hcur, app_nil_r, number_hosts, <-app_assoc.
  - rewrite app_nil_r. unfold retire_displaced, inherit. simpl. rewrite lookup_insert_eq. cbn [default].
    rewrite ran_app, hosts_app. split; [|simpl; by rewrite app_nil_r].
    eapply holding_keeps; [exact Hh| |]; rewrite !displaced_hosts_app;
      change (displaced_hosts (displaced :: after)) with (host_records (registrations displaced) ++ displaced_hosts after).
    + solve_Permutation.
    + intros Ho. rewrite (Hord Ho). simpl. by rewrite <-!app_assoc.
  - rewrite app_nil_r. pose proof (suspend_entry_hosts e slot_id peer ledger l) as Hse.
    destruct (current (lane_slot l)) as [s|] eqn:Hs; destruct Hse as (Hj & Hsl & Ha); rewrite Ha; (split; [|done]).
    + rewrite Hj, lookup_insert_eq. cbn [default]. eapply holding_keeps; [exact Hh| |]; rewrite (seat_hosts_current _ s) by done;
        unfold seat_hosts; rewrite Hsl, ?app_nil_r; [apply Permutation_app_comm|]. intros Ho. by rewrite (Hord Ho), app_nil_r.
    + rewrite Hj. unfold seat_hosts in *. rewrite Hsl. by rewrite Hs in Hh.
Qed.

Lemma lifetime_answered_for orderly e l0 hs w :
  NoDup (keys (journal e l0)) -> current (lane_slot l0) = None -> lifetime orderly e l0 hs w ->
  answered_for orderly e (journal e l0 ++ hs) w /\ hosts (ran (acts w.2)) = hosts (ran (acts l0)).
Proof.
  intros Hnd Hnone Hl. induction Hl as [|hs hs' w w' _ [IH Ha] Hs].
  - split; [|done]. unfold answered_for. cbn [fst snd]. unfold seat_hosts. rewrite Hnone. split; [done|intros k|..]; by rewrite !app_nil_r.
  - rewrite app_assoc. destruct (lives_answered_for _ _ _ _ _ _ IH Hs) as [Hh Ha']. split; [done|congruence].
Qed.

(** *** Disposal *)

Lemma withdraw_records_acts e f rs first l :
  let '(_, l') := withdraw_records e f rs first l in
  exists new, acts l' = acts l ++ new /\ ran new = map ByHost rs /\ journals l' = journals l /\ lane_slot l' = lane_slot l.
Proof.
  revert first l. induction rs as [|h rs IH]; intros first l; simpl; [exists []; by rewrite app_nil_r|].
  specialize (IH (or_first first (asked h l))
    (append_for (EffectWithdrawn (host_label h) (is_ok (asked h l))) (Some e) f (act (Withdraw h (asked h l)) l))).
  destruct (withdraw_records _ _ _ _ _) as [first' l']. destruct IH as (new & Hacts & Hran & Hj & Hs).
  exists (Withdraw h (asked h l) :: new). rewrite Hacts. simpl. rewrite <-app_assoc. split_and!; [done| |done|done].
  unfold ran in *. simpl. by rewrite Hran.
Qed.

Lemma hosts_by_host hs : hosts (map ByHost hs) = hs.
Proof. induction hs as [|h hs IH]; [done|]. change (h :: hosts (map ByHost hs) = h :: hs). by f_equal. Qed.

Lemma retire_entry_acts e peer ledger l :
  let l' := (retire_entry e peer ledger l).2 in
  exists new seats, acts l' = acts l ++ new /\ hosts (ran new) = hosts (once [] seats) /\
    hosts seats = rev (seat_hosts (lane_slot l)) /\ current (lane_slot l') = None /\
    default [] (journals l' !! e) =
      filter (fun h => host_key h ∉ keys (seat_hosts (lane_slot l))) (default [] (journals l !! e)).
Proof.
  cbv beta iota zeta delta [retire_entry take_seat slot_take seal shut_door]. cbn [current closing sealed ever].
  destruct (current (lane_slot l)) as [s|] eqn:Hs.
  - pose proof (retire_hosts s peer ledger (with_slot (MkSlot None true true (ever (lane_slot l))) l)) as Hr.
    destruct (retire s peer ledger _) as [answer l1]. destruct Hr as (new & Ha & Hsl & Hj & Hran). cbn [snd].
    match goal with |- context [on_broker ?f ?l2] => destruct (on_broker_quiet f l2) as [Hs3 Hj3 Ha3] end.
    exists new, (rev (inverses (instance s) (registrations s))). rewrite hosts_inverses, (seat_hosts_current _ s) by done.
    rewrite Hs3, Hj3, Ha3. simpl. rewrite Ha, Hsl, Hj. split_and!; try done. simpl.
    rewrite lookup_alter_eq. by destruct (journals l !! e).
  - cbn [snd]. match goal with |- context [on_broker ?f ?l2] => destruct (on_broker_quiet f l2) as [Hs3 Hj3 Ha3] end.
    exists [], []. rewrite Hs3, Hj3, Ha3. unfold seat_hosts. rewrite Hs. split_and!; try done; [by rewrite app_nil_r|].
    symmetry. apply filter_all, Forall_forall. intros h _. apply not_elem_of_nil.
Qed.

(** What a disposal withdraws: the seat's, then what the journal keeps beside. *)
Lemma dispose_entry_acts e f peer ledger l :
  let l' := (dispose_entry e f peer ledger l).2 in
  exists new seats, acts l' = acts l ++ new /\
    hosts (ran new) = hosts (once [] seats) ++ rev (filter (fun h => host_key h ∉ keys (seat_hosts (lane_slot l)))
                                                  (default [] (journals l !! e))) /\
    hosts seats = rev (seat_hosts (lane_slot l)) /\ journals l' !! e = None /\ current (lane_slot l') = None.
Proof.
  unfold dispose_entry. destruct (retire_entry_acts e peer ledger l) as (new1 & seats & Ha1 & Hran1 & Hseats & Hs1 & Hj1).
  set (l1 := (retire_entry e peer ledger l).2) in *. unfold withdraw_journal.
  pose proof (withdraw_records_acts e (Some f) (rev (default [] (journals l1 !! e))) None
    (with_journals (delete e (journals l1)) l1)) as Hw.
  destruct (withdraw_records _ _ _ _ _) as [first l2]. destruct Hw as (new2 & Ha2 & Hran2 & Hj2 & Hs2). cbn [snd].
  exists (new1 ++ new2), seats. split_and!; [| |done| |].
  - rewrite Ha2. simpl. by rewrite Ha1, app_assoc.
  - rewrite ran_app, hosts_app, Hran1, Hran2, hosts_by_host. by rewrite Hj1.
  - rewrite Hj2. apply lookup_delete_eq.
  - by rewrite Hs2.
Qed.

(** C23: Every world effect of an entry is withdrawn exactly once. However its
    incarnations are landed, extended, suspended, restarted and swapped, no world
    effect is withdrawn before the entry is disposed. The disposal, run without
    interruption, then withdraws,
    once per key and whatever the inverses answer, each that was registered over
    all of them or inherited from an earlier process, but for those of a seat
    that a swap displaced and has not retired yet: they are in neither the
    journal nor the slot, and stay behind. After the disposal nothing is
    in the journal or the slot. Where no key was registered twice every world
    effect is withdrawn or left behind exactly once; and where nothing is
    left behind and the swaps were orderly, the order is exactly
    the reverse of the registrations, across incarnations. *)
Theorem every_world_effect_is_withdrawn_once orderly e l0 registered ps l f peer ledger :
  NoDup (keys (journal e l0)) -> current (lane_slot l0) = None -> lifetime orderly e l0 registered (ps, l) ->
  let all := journal e l0 ++ registered in
  let l' := (dispose_entry e f peer ledger l).2 in
  hosts (ran (acts l)) = hosts (ran (acts l0)) /\
  exists new, acts l' = acts l ++ new /\
    NoDup (keys (hosts (ran new))) /\
    (forall k, k ∈ keys all <-> k ∈ keys (hosts (ran new)) \/ k ∈ keys (displaced_hosts ps)) /\
    (NoDup (keys all) -> hosts (ran new) ++ displaced_hosts ps ≡ₚ all) /\
    (orderly = true -> ps = [] -> NoDup (keys all) -> hosts (ran new) = rev all) /\
    journals l' !! e = None /\ current (lane_slot l') = None.
Proof.
  intros Hnd Hnone Hl. destruct (lifetime_answered_for _ _ _ _ _ Hnd Hnone Hl) as [[Hj Hk Hp Ho] Hn]. cbn [fst snd] in *.
  cbv zeta. split; [done|].
  destruct (dispose_entry_acts e f peer ledger l) as (new & seats & Ha & Hran & Hseats & Hj' & Hs').
  fold (journal e l) in Hran. set (J := journal e l) in *. set (S := seat_hosts (lane_slot l)) in *. set (P := displaced_hosts ps) in *.
  assert (forall k, k ∈ keys (hosts (once [] seats)) <-> k ∈ keys S) as Honce.
  { intros k. pose proof (once_keys [] seats k) as H1. simpl in H1. unfold keys. rewrite H1, Hseats, map_rev, !list_elem_of_In.
    symmetry. apply in_rev. }
  assert (forall (hs : list HostRecord) k, k ∈ keys (rev hs) <-> k ∈ keys hs) as Hrev
    by (intros hs k; unfold keys; rewrite map_rev, !list_elem_of_In; symmetry; apply in_rev).
  assert (NoDup (keys (J ++ S)) -> hosts (ran new) = rev (J ++ S)) as Hdistinct.
  { intros Hall. rewrite keys_app in Hall. apply NoDup_app in Hall as (Hjn & Hdis & Hsn). rewrite Hran, rev_app_distr. f_equal.
    - rewrite once_distinct; [done|]. simpl. by rewrite Hseats, map_rev, <-Permutation_rev.
    - f_equal. apply filter_all, Forall_forall. intros h Hh Hin. apply (Hdis (host_key h)); [|done]. by apply list_elem_of_fmap_2. }
  exists new. split_and!; [done| | | | |done|done].
  - rewrite Hran, keys_app. apply NoDup_app. split_and!.
    + apply (once_NoDup [] seats). constructor.
    + intros k Hin Hin2. rewrite Honce in Hin. rewrite Hrev in Hin2.
      apply list_elem_of_fmap in Hin2 as (h & -> & [Hh _]%list_elem_of_filter). done.
    + unfold keys at 1. rewrite map_rev, <-Permutation_rev. by apply NoDup_map_filter.
  - intros k. rewrite <-Hk, Hran, !keys_app, !elem_of_app, Honce, Hrev. split.
    + intros [Hin|[?|?]]; [|by right|by left; left]. left. destruct (decide (k ∈ keys S)) as [?|Hno]; [by left|right].
      apply list_elem_of_fmap in Hin as (h & -> & Hh). apply list_elem_of_fmap_2, list_elem_of_filter. done.
    + intros [[?|Hin]|?]; [by right; right| |by right; left]. left. apply list_elem_of_fmap in Hin as (h & -> & [_ Hh]%list_elem_of_filter).
      by apply list_elem_of_fmap_2.
  - intros Hall. pose proof Hall as Hall'. rewrite <-(Hp Hall) in Hall'. rewrite Hdistinct, <-Permutation_rev.
    + rewrite <-(Hp Hall), <-app_assoc. by rewrite (Permutation_app_comm S).
    + rewrite (Permutation_app_comm P), app_assoc, keys_app in Hall'. by apply NoDup_app in Hall' as (? & _).
  - intros Hor Hps Hall. specialize (Ho Hor Hall). unfold P in Ho. rewrite Hps in Ho. simpl in Ho. rewrite <-Ho in Hall |- *. auto.
Qed.

(** ** Committing *)

(** The peer may provide the contract: it is granted, and no other holds it. *)
Definition may_provide (s : @State Callable Instance) (peer : Z) (c : string) : Prop :=
  granted s peer c = true /\ forall p, providers s !! c = Some p -> provider_peer p = peer.

(** The slot provides the contract for the peer, under a later generation. *)
Definition provided_anew (s s' : @State Callable Instance) (peer : Z) (c : string) : Prop :=
  exists g, providers s' !! c = Some (MkProvider peer slot_face g) /\ generation_of s' c = g /\ (generation_of s c < g)%Z.

Definition same_service (s s' : @State Callable Instance) (c : string) : Prop :=
  providers s' !! c = providers s !! c /\ generations s' !! c = generations s !! c.

Lemma same_service_trans s1 s2 s3 c : same_service s1 s2 c -> same_service s2 s3 c -> same_service s1 s3 c.
Proof. intros [] []. split; congruence. Qed.

Record beside (l l' : Lane) : Prop := {
  beside_topics : lane_topics l' = lane_topics l;
  beside_alarms : lane_alarms l' = lane_alarms l;
  beside_peers : peers (broker_state l') = peers (broker_state l);
  beside_handles : handles (broker_state l') = handles (broker_state l);
}.

Lemma beside_trans l1 l2 l3 : beside l1 l2 -> beside l2 l3 -> beside l1 l3.
Proof. intros [] []. split; congruence. Qed.

(** What one [Broker::provide] does to the locked state. *)
Lemma provide_effect peer c (b : @Broker Callable Instance) :
  let s' := Broker.state (provide peer c slot_face b).2 in
  let s := Broker.state b in
  peers s' = peers s /\ handles s' = handles s /\ (forall c', c' <> c -> same_service s s' c') /\
  (may_provide s peer c -> provided_anew s s' peer c) /\ (~ may_provide s peer c -> same_service s s' c).
Proof.
  unfold provide, check_grant, may_provide. destruct (granted (Broker.state b) peer c) eqn:Hg; [|split_and!; try done; by intros []].
  destruct (Broker.install peer c slot_face (Broker.state b)) as [s'|error] eqn:Hi; unfold Broker.install in Hi; case_match eqn:Ht; try done.
  - injection Hi as <-. simpl. split_and!; [done|done| | |].
    + intros c' Hne. split; simpl; by rewrite lookup_insert_ne by done.
    + intros _. exists (generation_of (Broker.state b) c + 1)%Z. split_and!; [apply lookup_insert_eq| |lia].
      unfold generation_of. simpl. by rewrite lookup_insert_eq.
    + intros Hno. destruct Hno. split; [done|]. intros p Hp. rewrite Hp in Ht. by apply bool_decide_eq_false, dec_stable in Ht.
  - split_and!; try done. intros [_ Hm]. destruct (providers (Broker.state b) !! c) as [p|]; [|done].
    apply bool_decide_eq_true in Ht. by destruct (Ht (Hm p eq_refl)).
Qed.

Lemma provide_one_effect old peer f l c :
  let l' := provide_one old peer f l c in
  beside l l' /\ (forall c', c' <> c -> same_service (broker_state l) (broker_state l') c') /\
  (c ∉ old -> may_provide (broker_state l) peer c -> provided_anew (broker_state l) (broker_state l') peer c) /\
  (c ∈ old \/ ~ may_provide (broker_state l) peer c -> same_service (broker_state l) (broker_state l') c).
Proof.
  unfold provide_one. case_decide as Hold; [split_and!; done|]. unfold on_broker.
  set (b := MkBroker (broker_state l) [] (Broker.waits (lane_broker l)) (Broker.provisions (lane_broker l))).
  pose proof (provide_effect peer c b) as (Hp & Hh & Hne & Hnew & Hsame).
  destruct (provide peer c slot_face b) as [[[]|error] b']; simpl in *; (split_and!; [by split|done|done|]);
    (intros [?|?]; [done|by apply Hsame]).
Qed.

Lemma provide_all_effect old peer f cs l :
  let l' := fold_left (provide_one old peer f) cs l in
  beside l l' /\
  forall c, (c ∈ cs -> c ∉ old -> may_provide (broker_state l) peer c ->
               provided_anew (broker_state l) (broker_state l') peer c) /\
    (c ∉ cs \/ c ∈ old \/ ~ may_provide (broker_state l) peer c -> same_service (broker_state l) (broker_state l') c).
Proof.
  clear undo withdrawn.
  revert l. induction cs as [|c0 cs IH]; intros l; simpl.
  - split; [done|]. intros c. split; [intros Hin; by apply not_elem_of_nil in Hin|done].
  - destruct (provide_one_effect old peer f l c0) as (Hb1 & Hne & Hnew & Hsame).
    set (l1 := provide_one old peer f l c0) in *. destruct (IH l1) as [Hb2 Hall]. clear IH.
    split; [by eapply beside_trans|]. intros c. destruct (Hall c) as [Hin Hout].
    assert (granted (broker_state l1) peer c = granted (broker_state l) peer c) as Hgr
      by (unfold granted; by rewrite (beside_peers _ _ Hb1)).
    destruct (decide (c = c0)) as [->|Hc0].
    + assert (c0 ∉ old -> may_provide (broker_state l) peer c0 -> may_provide (broker_state l1) peer c0) as Hmay.
      { intros Ho Hm. destruct (Hnew Ho Hm) as (g & Hg & _). split; [rewrite Hgr; apply Hm|]. rewrite Hg. by intros p [= <-]. }
      split.
      * intros _ Ho Hm. destruct (Hnew Ho Hm) as (g & Hg & Hgen & Hlt). destruct (decide (c0 ∈ cs)) as [Hcs|Hcs].
        -- destruct (Hin Hcs Ho (Hmay Ho Hm)) as (g2 & Hg2 & Hgen2 & Hlt2). exists g2. split_and!; [done..|lia].
        -- destruct (Hout (or_introl Hcs)) as [Hp Hgs]. exists g. unfold generation_of in *. rewrite Hp, Hgs. done.
      * intros [Hno|Hcase]; [by destruct Hno; left|]. specialize (Hsame Hcase). eapply same_service_trans; [exact Hsame|].
        apply Hout. right. destruct Hcase as [?|Hno]; [by left|right]. intros [Hg Hp]. apply Hno.
        split; [by rewrite <-Hgr|]. destruct Hsame as [Hpr _]. by rewrite <-Hpr.
    + specialize (Hne c Hc0). assert (may_provide (broker_state l1) peer c <-> may_provide (broker_state l) peer c) as Hmay
        by (unfold may_provide; rewrite Hgr; destruct Hne as [-> _]; done).
      split.
      * intros Hcs Ho Hm. assert (c ∈ cs) as Hcs' by (apply elem_of_cons in Hcs as [?|?]; done).
        destruct (Hin Hcs' Ho (proj2 Hmay Hm)) as (g & Hg & Hgen & Hlt). exists g. split_and!; [done..|].
        destruct Hne as [_ Hgs]. unfold generation_of in *. by rewrite <-Hgs.
      * intros Hcase. eapply same_service_trans; [exact Hne|]. apply Hout. rewrite elem_of_cons in Hcase. rewrite Hmay. tauto.
Qed.

Lemma withdraw_all_effect new peer cs l :
  let l' := fold_left (withdraw_one new peer) cs l in
  beside l l' /\ generations (broker_state l') = generations (broker_state l) /\
  forall c, providers (broker_state l') !! c =
    if decide (c ∈ cs /\ c ∉ new /\ holds (broker_state l) peer c = true) then None else providers (broker_state l) !! c.
Proof.
  clear undo withdrawn.
  revert l. induction cs as [|c0 cs IH]; intros l; simpl.
  - by split_and!.
  - set (l1 := withdraw_one new peer l c0).
    assert (beside l l1 /\ generations (broker_state l1) = generations (broker_state l) /\ forall c,
      providers (broker_state l1) !! c = if decide (c = c0 /\ c ∉ new /\ holds (broker_state l) peer c = true) then None
                                         else providers (broker_state l) !! c) as (Hb1 & Hg1 & Hp1).
    { unfold l1, withdraw_one. destruct (decide (c0 ∈ new)) as [Hin|Hin].
      - split_and!; [done|done|]. intros c. case_decide as Hd; [|done]. by destruct Hd as (-> & ? & _).
      - destruct (withdraw_provision_cleared peer c0 l) as [_ _ _ _ Hp Hpe Hge Hha]. split_and!; [|done|].
        + split; [| |done|done]; by unfold withdraw_provision, on_broker.
        + intros c. rewrite Hp. simpl. repeat case_decide; rewrite ?list_elem_of_singleton in *; try done; naive_solver. }
    destruct (IH l1) as (Hb2 & Hg2 & Hp2). clear IH. split_and!; [by eapply beside_trans|congruence|].
    intros c. rewrite Hp2. unfold holds in *. rewrite !Hp1. repeat case_decide; rewrite ?elem_of_cons in *; try done; naive_solver.
Qed.

(** *** The minted ids *)

Definition live_row (staged : Instance) (context : Z) (f : option FiberId) (r : ListenRecord) (id : Z) : @Listener Instance :=
  MkListener id (listen_topic r) context (listen_token r) f (listen_budget r) (Live staged) None.

Lemma register_all_ids (new : list (@Rebind Instance)) t :
  let '(ids, t') := register_all new t in
  ids = seqZ (Topics.next t + 1) (Z.of_nat (length new)) /\
  listeners t' = listeners t ++ zip_with (fun r id => MkListener id (rebind_topic r) (rebind_context r) (rebind_token r)
    (rebind_fiber r) (rebind_budget r) (Live (rebind_target r)) None) new ids.
Proof.
  revert t. induction new as [|r new IH]; intros t; cbn [register_all length].
  - rewrite seqZ_nil by lia. simpl. by rewrite app_nil_r.
  - unfold listen_within. match goal with |- context [register_all new ?t1] => specialize (IH t1); destruct (register_all new t1) as [ids t'] end.
    simpl in IH. destruct IH as [-> ->]. rewrite (seqZ_cons (Topics.next t + 1)) by lia. simpl.
    rewrite <-app_assoc. replace (Z.pred (Z.of_nat (S (length new)))) with (Z.of_nat (length new)) by lia. done.
Qed.

Lemma number_listens rs ids aids :
  length ids = length (listens rs) ->
  listen_ids (number rs ids aids) = ids /\ provisions (number rs ids aids) = provisions rs.
Proof.
  revert ids aids. induction rs as [|r rs IH]; intros ids aids Hlen; [by destruct ids|].
  destruct r as [label token|c|r|r|h|h]; simpl in Hlen |- *; try exact (IH ids aids Hlen).
  - destruct (IH ids aids Hlen) as [Hi Hp]. split; [exact Hi|by f_equal].
  - destruct ids as [|id ids]; [done|]. destruct (IH ids aids) as [Hi Hp]; [simpl in Hlen; lia|]. simpl.
    rewrite listen_ids_cons. split; [|done]. rewrite Hi. done.
  - destruct (IH ids (tail aids) Hlen) as [Hi Hp]. done.
Qed.

Lemma number_alarms rs ids aids :
  length aids = length (alarm_requests rs) -> alarm_ids (number rs ids aids) = aids.
Proof.
  revert ids aids. induction rs as [|r rs IH]; intros ids aids Hlen; [by destruct aids|].
  destruct r as [label token|c|r|r|h|h]; simpl in Hlen |- *; try exact (IH ids aids Hlen).
  - by apply (IH (tail ids) aids).
  - destruct aids as [|id aids]; [done|]. rewrite alarm_ids_cons. simpl. rewrite IH by (simpl in Hlen; lia). done.
Qed.

Lemma live_rows staged context f rs ids :
  zip_with (fun r id => MkListener id (rebind_topic r) (rebind_context r) (rebind_token r) (rebind_fiber r)
    (rebind_budget r) (Live (rebind_target r)) None) (rebinds_of staged context f rs) ids =
  zip_with (live_row staged context f) (listens rs) ids.
Proof. unfold rebinds_of. by rewrite zip_with_fmap_l. Qed.

(** What a commit leaves of the contract of one service. *)
Definition committed_service (old new : list string) (peer : Z) (s s' : @State Callable Instance) (c : string) : Prop :=
  (c ∈ old -> c ∈ new -> same_service s s' c) /\
  (c ∈ old -> c ∉ new -> providers s' !! c = if decide (holds s peer c = true) then None else providers s !! c) /\
  (c ∉ old -> c ∈ new -> may_provide s peer c -> provided_anew s s' peer c) /\
  (c ∉ old -> (c ∈ new -> ~ may_provide s peer c) -> same_service s s' c).

Lemma commit_services old new peer f l l1 l2 c :
  l1 = fold_left (provide_one old peer f) new l -> l2 = fold_left (withdraw_one new peer) old l1 ->
  beside l l2 /\ committed_service old new peer (broker_state l) (broker_state l2) c.
Proof.
  clear undo withdrawn.
  intros -> ->. destruct (provide_all_effect old peer f new l) as [Hb1 Hall]. set (l1 := fold_left _ new l) in *.
  destruct (withdraw_all_effect new peer old l1) as (Hb2 & Hg2 & Hp2). destruct (Hall c) as [Hnew Hsame].
  split; [by eapply beside_trans|]. split_and!.
  - intros Ho Hn. destruct (Hsame (or_intror (or_introl Ho))) as [Hp Hg]. split; [|by rewrite Hg2].
    rewrite Hp2, decide_False by (intros (_ & ? & _); done). exact Hp.
  - intros Ho Hn. destruct (Hsame (or_introl Hn)) as [Hp Hg]. rewrite Hp2. unfold holds. rewrite Hp.
    repeat case_decide; try done; naive_solver.
  - intros Ho Hn Hm. destruct (Hnew Hn Ho Hm) as (g & Hg & Hgen & Hlt). exists g. unfold generation_of in *.
    rewrite Hp2, Hg2, decide_False by (intros (? & _ & _); done). done.
  - intros Ho Hno. assert (same_service (broker_state l) (broker_state l1) c) as [Hp Hg].
    { apply Hsame. destruct (decide (c ∈ new)) as [Hn|Hn]; [right; right; by apply Hno|by left]. }
    split; [|by rewrite Hg2]. rewrite Hp2, decide_False by (intros (? & _ & _); done). exact Hp.
Qed.

Lemma number_inverses i rs ids aids : inverses i (number rs ids aids) = inverses i rs.
Proof.
  revert ids aids. induction rs as [|r rs IH]; intros ids aids; [done|].
  destruct r; unfold inverses in *; simpl; try (f_equal; apply IH); apply IH.
Qed.

(** Attaching a delivery face changes no authority and no provider. *)
Lemma committed_attached old new peer staged (b : @Broker Callable Instance) s' c :
  committed_service old new peer (Broker.state (attach_target peer staged b)) s' c ->
  committed_service old new peer (Broker.state b) s' c.
Proof.
  assert (may_provide (Broker.state (attach_target peer staged b)) peer c <-> may_provide (Broker.state b) peer c) as Hm.
  { unfold may_provide, granted. simpl. rewrite lookup_alter_eq. by destruct (peers (Broker.state b) !! peer). }
  intros (H1 & H2 & H3 & H4). split_and!; [exact H1|exact H2| |].
  - intros Ho Hn Hmay. apply (H3 Ho Hn). by apply Hm.
  - intros Ho Hn. apply (H4 Ho). intros Hin Hmay. apply (Hn Hin). by apply Hm.
Qed.

(** C24: A commit replaces a seat whole. The staged journal becomes the slot's
    with freshly minted ids; the listeners of the displaced seat and the
    tombstones of its fiber go in the same step as the staged ones come, each
    delivered to the staged instance; the live alarms are those of the staged
    seat and of the others. A contract both provide keeps its provider and its
    generation, so handles on it stand; one only the old provided is vacated; one
    only the new provides is provided through the slot where it may be; every
    other service, and every handle, is as it was. Nothing is undone. *)
Theorem a_commit_replaces_a_seat_whole staged rs peer f context l :
  alarms_ok (lane_alarms l) ->
  let '(displaced, l') := commit_staged staged rs peer f context l in
  let '(oldp, oldl, olda) := slot_registrations (lane_slot l) in
  let tombs := match f with Some x => map fst (entombed x (lane_topics l)) | None => [] end in
  displaced = current (lane_slot l) /\ journals l' = journals l /\ acts l' = acts l ++ [WentLive staged] /\
  exists rs', current (lane_slot l') = Some (MkSeat staged rs') /\
    provisions rs' = provisions rs /\ host_records rs' = host_records rs /\ inverses staged rs' = inverses staged rs /\
    listen_ids rs' = seqZ (Topics.next (lane_topics l) + 1) (Z.of_nat (length (listens rs))) /\
    listeners (lane_topics l') = filter (fun x => listener_id x ∉ oldl ++ tombs) (listeners (lane_topics l)) ++
      zip_with (live_row staged context f) (listens rs) (listen_ids rs') /\
    alarm_ids rs' = seqZ (Alarms.next (Alarms.alarms (lane_alarms l)) + 1) (Z.of_nat (length (alarm_requests rs))) /\
    (forall id, alive id (Alarms.alarms (lane_alarms l')) = true <->
       (has_runtime = true /\ id ∈ alarm_ids rs') \/ (alive id (Alarms.alarms (lane_alarms l)) = true /\ id ∉ olda)) /\
    (forall c, committed_service oldp (provisions rs) peer (broker_state l) (broker_state l') c) /\
    handles (broker_state l') = handles (broker_state l).
Proof.
  clear undo withdrawn.
  intros Hok. pose proof (commit_slot staged rs peer f context l) as Hslot. revert Hslot. unfold commit_staged.
  destruct (slot_registrations (lane_slot l)) as [[oldp oldl] olda].
  set (tombs := match f with Some x => map fst (entombed x (lane_topics l)) | None => [] end). unfold Topics.rebind.
  pose proof (register_all_ids (rebinds_of staged context f rs)
    (with_listeners (filter (fun x => listener_id x ∉ oldl ++ tombs)) (lane_topics l))) as Ht.
  destruct (register_all _ _) as [ids t]. destruct Ht as [Hids Hls]. simpl in Hids, Hls. rewrite live_rows in Hls.
  assert (length (rebinds_of staged context f rs) = length (listens rs)) as Hlenr by apply length_map. rewrite Hlenr in Hids.
  assert (length ids = length (listens rs)) as Hlen by (rewrite Hids, length_seqZ; lia).
  unfold on_alarms. simpl. pose proof (rebind_rows has_runtime olda (arms_of f rs)
    (Alarms.MkWorld (Alarms.alarms (lane_alarms l)) (Alarms.timers (lane_alarms l)) (Alarms.arming (lane_alarms l)) [])) as Hreb.
  destruct (Alarms.rebind has_runtime olda (arms_of f rs) _) as [aids w]. destruct Hreb as (_ & _ & Haids & Hal).
  { destruct Hok as [Hr]. by split. }
  simpl in Haids, Hal. assert (length (arms_of f rs) = length (alarm_requests rs)) as Hlena by apply length_map.
  rewrite Hlena in Haids. assert (length aids = length (alarm_requests rs)) as Hlen2 by (rewrite Haids, length_seqZ; lia).
  set (rs' := number rs ids aids).
  destruct (number_listens rs ids aids Hlen) as [Hli Hpr]. pose proof (number_alarms rs ids aids Hlen2) as Hai. fold rs' in Hli, Hpr, Hai.
  rewrite Hpr. set (l1 := with_slot _ _). set (l2 := fold_left (provide_one oldp peer f) _ l1). set (l3 := fold_left _ oldp l2).
  intros (_ & Hj & Ha & ids' & aids' & Hsl). split_and!; [done|exact Hj|exact Ha|].
  assert (current (lane_slot l3) = Some (MkSeat staged rs')) as Hcur.
  { destruct (quiet_trans l1 l2 l3) as [Hs3 _ _]; [apply quiet_fold, provide_one_quiet|apply quiet_fold, withdraw_one_quiet|].
    by rewrite Hs3. }
  assert (beside l1 l3 /\ forall c, committed_service oldp (provisions rs) peer (broker_state l1) (broker_state l3) c) as [Hb Hc].
  { split; [by destruct (commit_services oldp (provisions rs) peer f l1 l2 l3 ""%string eq_refl eq_refl)|].
    intros c. by destruct (commit_services oldp (provisions rs) peer f l1 l2 l3 c eq_refl eq_refl). }
  exists rs'. split_and!.
  - exact Hcur.
  - exact Hpr.
  - apply number_hosts.
  - apply number_inverses.
  - by rewrite Hli.
  - simpl. rewrite (beside_topics _ _ Hb), Hli. exact Hls.
  - by rewrite Hai.
  - intros id. simpl. rewrite (beside_alarms _ _ Hb), Hai. apply Hal.
  - intros c. specialize (Hc c). simpl in Hc |- *. apply (committed_attached _ _ _ staged), Hc.
  - simpl. by rewrite (beside_handles _ _ Hb).
Qed.
End Seats.

(** ** Examples *)

Module SlotExample.
Definition e : EntryId := MkEntryId "notes".
Definition f : FiberId := MkFiberId 7.

(** Inverses answer; a provider is the number of its face. *)
Definition undone (i : nat) (token : Z) (past : list (@Act nat)) : result () KernelError := Ok ().
Definition gone (face : nat) (h : HostRecord) (past : list (@Act nat)) : result () KernelError := Ok ().

(** Peer 1 is the seat's; peer 2 provides the file contract. *)
Definition peers_of : @Broker nat nat :=
  (Broker.provide 2 "jinn:fs" 100
    (grant_root 1 "kv" (grant_root 2 "jinn:fs" (register_peer None (register_peer (Some f) new_broker).2).2))).2.

Definition empty : @Lane nat nat :=
  MkLane peers_of new_table (Alarms.MkWorld new_alarms [] [] []) new_slot ∅ [] [].

Definition written (n : Z) : HostRecord := MkHost "jinn:fs" ("write " +:+ pretty n) n.
Definition said : Registration := RListen (MkListen "chat" 3 None None).
Definition first_seat : list Registration := [REffect "timer" 5; RProvision "kv"; said; RHost (written 10)].

(** A replacement landed over the tombstones of nothing. *)
Definition landed : @Lane nat nat := land true 0 true true 1 first_seat f 1 0 empty.

Definition the_seat : @SeatState nat := default (MkSeat 0 []) (current (lane_slot landed)).

Definition closed : result () KernelError * @Lane nat nat := retire undone gone the_seat 1 (Some f) landed.

Lemma retiring_withdraws_the_whole_contribution_witness :
  ran (drop 1 (acts closed.2)) = [ByHost (written 10); ByGuest 1 5] /\ listeners (lane_topics closed.2) = [] /\
  labels (drop 1 (trail closed.2)) =
    [Some (inl "write 10"); Some (inl "listen chat"); Some (inr "kv"); Some (inl "timer")]%string.
Proof.
  assert (NoDup (map listener_id (listeners (lane_topics landed)))) as Hnd
    by (vm_compute; apply NoDup_singleton).
  pose proof (retiring_withdraws_the_whole_contribution undone gone the_seat 1 (Some f) landed Hnd) as H.
  destruct (retire undone gone the_seat 1 (Some f) landed) as [answer l'] eqn:Hr.
  destruct H as ((new & Hacts & Hran & _) & Hls & _ & Htr).
  assert (closed.2 = l') as -> by (unfold closed; by rewrite Hr).
  split_and!.
  - rewrite Hacts. replace (acts landed) with [@WentLive nat 1] by (by vm_compute).
    change (ran (new ++ [Disposed (instance the_seat)]) = [ByHost (written 10); ByGuest 1 5]).
    rewrite ran_app, Hran. by vm_compute.
  - rewrite Hls. by vm_compute.
  - destruct (Htr f eq_refl) as (rows & Hrows & Hlab).
    { assert (registrations the_seat = [REffect "timer" 5; RProvision "kv"; RListen (MkListen "chat" 3 (Some 1%Z) None);
        RHost (written 10)]) as -> by (vm_compute; reflexivity).
      split.
      - intros x Hx. apply list_elem_of_singleton in Hx as ->. exists 1%Z, (MkListener 1 "chat" 0 3 (Some f) None (Live 1) None).
        split_and!; [reflexivity|vm_compute; by left|reflexivity|reflexivity].
      - intros x Hx. by apply not_elem_of_nil in Hx.
      - intros c Hc. apply list_elem_of_singleton in Hc as ->. vm_compute; reflexivity.
      - apply NoDup_singleton.
      - apply NoDup_nil_2.
      - apply NoDup_singleton.
      - apply NoDup_singleton. }
    rewrite Hrows. transitivity (labels rows); [f_equal; apply drop_app_length'; vm_compute; reflexivity|].
    rewrite Hlab. by vm_compute.
Defined.

(** Two incarnations and three world effects, withdrawn last first. *)
Definition extended : @Lane nat nat := with_slot (extend [RHost (written 11)] (lane_slot landed)).2 landed.
Definition suspended : @Lane nat nat := suspend_entry gone e 1 1 (Some f) extended.
Definition again : @Lane nat nat := land true 0 true true 2 [said; RHost (written 12)] f 1 0 suspended.

Definition swapped : @Lane nat nat := (commit_staged true 0 3 [said; RHost (written 13)] 1 (Some f) 0 again).2.
Definition displaced_seat : SeatState := default the_seat (current (lane_slot again)).

(** Two incarnations and a swap, whose displaced seat retires at once. *)
Lemma swapped_lives :
  lifetime gone true 0 true e empty [written 10; written 11; written 12; written 13] ([displaced_seat], swapped).
Proof.
  assert (lifetime gone true 0 true e empty [written 10] ([], landed)) as H1.
  { apply (lifetime_goes _ _ _ _ _ _ [] (host_records first_seat) ([], empty)); [constructor|]. by apply lives_lands. }
  assert (lifetime gone true 0 true e empty ([written 10] ++ [written 11]) ([], extended)) as H2.
  { apply (lifetime_goes _ _ _ _ _ _ _ (host_records [RHost (written 11)]) ([], landed)); [exact H1|]. apply lives_late. by eexists. }
  assert (lifetime gone true 0 true e empty (([written 10] ++ [written 11]) ++ []) ([], suspended)) as H3.
  { eapply lifetime_goes; [exact H2|]. by apply lives_suspends. }
  assert (lifetime gone true 0 true e empty [written 10; written 11; written 12] ([], again)) as H4.
  { apply (lifetime_goes _ _ _ _ _ _ _ (host_records [said; RHost (written 12)]) ([], suspended) ([], again) H3). apply lives_lands.
    vm_compute; reflexivity. }
  apply (lifetime_goes _ _ _ _ _ _ _ (host_records [said; RHost (written 13)]) ([], again) ([] ++ [displaced_seat], swapped) H4).
  apply (lives_commits _ _ _ _ _ 3 [said; RHost (written 13)] 1 (Some f) 0). vm_compute; reflexivity.
Qed.

Definition settled : @Lane nat nat := retire_displaced e displaced_seat swapped.

Lemma settled_lives : lifetime gone true 0 true e empty [written 10; written 11; written 12; written 13] ([], settled).
Proof.
  assert (lives gone true 0 true e ([] ++ [displaced_seat], swapped) [] ([] ++ [], settled)) as H
    by exact (lives_retires gone true 0 true e [] displaced_seat [] swapped (fun _ => eq_refl)).
  exact (lifetime_goes gone true 0 true e empty _ _ _ _ swapped_lives H).
Qed.

(** Disposed, an entry withdraws its four world effects last first; before its
    displaced seat retires, the effect of that seat is left behind. *)
Lemma every_world_effect_is_withdrawn_once_witness :
  (exists past, acts (dispose_entry undone gone e f 1 (Some f) settled).2 = acts settled ++ past /\
    hosts (ran past) = [written 13; written 12; written 11; written 10]) /\
  exists past, acts (dispose_entry undone gone e f 1 (Some f) swapped).2 = acts swapped ++ past /\
    hosts (ran past) ++ [written 12] ≡ₚ [written 10; written 11; written 12; written 13].
Proof.
  assert (NoDup (keys [written 10; written 11; written 12; written 13])) as Hnd by (apply (bool_decide_unpack _); vm_compute; reflexivity).
  split.
  - destruct (every_world_effect_is_withdrawn_once undone gone true 0 true e empty _ [] settled f 1 (Some f)
      NoDup_nil_2 eq_refl settled_lives) as (_ & past & Hacts & _ & _ & _ & Horder & _).
    exists past. split; [exact Hacts|]. exact (Horder eq_refl eq_refl Hnd).
  - destruct (every_world_effect_is_withdrawn_once undone gone true 0 true e empty _ [displaced_seat] swapped f 1 (Some f)
      NoDup_nil_2 eq_refl swapped_lives) as (_ & past & Hacts & _ & _ & Hall & _).
    exists past. split; [exact Hacts|]. exact (Hall Hnd).
Defined.

Lemma a_commit_replaces_a_seat_whole_witness :
  let '(displaced, l') := commit_staged true 0 2 [said] 1 (Some f) 0 landed in
  displaced = current (lane_slot landed) /\
  (listeners (lane_topics l') = [MkListener 2 "chat" 0 3 (Some f) None (Live 2) None]) /\
  providers (Broker.state (lane_broker l')) !! "kv" = None.
Proof.
  pose proof (a_commit_replaces_a_seat_whole true 0 2 [said] 1 (Some f) 0 landed) as H.
  destruct (commit_staged true 0 2 [said] 1 (Some f) 0 landed) as [displaced l'].
  destruct H as (Hd & _ & _ & rs' & _ & _ & _ & _ & Hids & Hls & _ & _ & Hc & _).
  - split. intros id Hid. vm_compute in Hid. by destruct Hid.
  - split_and!; [exact Hd| |].
    + rewrite Hls, Hids. vm_compute; reflexivity.
    + destruct (Hc "kv"%string) as (_ & Hgone & _). rewrite Hgone; [vm_compute; reflexivity| |].
      * vm_compute. by left.
      * apply not_elem_of_nil.
Defined.

(** *** Behaviour the comments deny *)

(** A keyed replay journals its effect again; its withdrawal then comes before
    that of an effect made after it. *)
Example a_replayed_effect_is_withdrawn_out_of_order :
  let s := MkSeat 1 [RHost (written 10); RHost (written 11); RHost (written 10)] in
  hosts (ran (acts (retire undone gone s 1 (Some f) empty).2)) = [written 10; written 11].
Proof. vm_compute; reflexivity. Qed.

(** A disposal between a swap's commit and the retirement of the displaced seat
    withdraws neither the seat's world effects nor, ever, anybody else. *)
Example a_disposal_can_miss_a_displaced_seat :
  let swapped := (commit_staged true 0 2 [said] 1 (Some f) 0 landed).2 in
  let disposed := (dispose_entry undone gone e f 1 (Some f) swapped).2 in
  let over := retire_displaced e the_seat disposed in
  hosts (ran (acts over)) = [] /\ current (lane_slot over) = None /\ journals over !! e = Some [written 10].
Proof. vm_compute; split_and!; reflexivity. Qed.

(** A child process of a displaced seat is in no journal: nothing releases it. *)
Example a_displaced_seat_keeps_its_children :
  let child := MkHost "jinn:process" "spawn sh" 4 in
  let seated := land true 0 true true 1 [RKernel child] f 1 0 empty in
  let swapped := (commit_staged true 0 2 [] 1 (Some f) 0 seated).2 in
  let over := (dispose_entry undone gone e f 1 (Some f) (retire_displaced e (MkSeat 1 [RKernel child]) swapped)).2 in
  ran (acts over) = [] /\ current (lane_slot over) = None /\ journals over !! e = None.
Proof. vm_compute; split_and!; reflexivity. Qed.
End SlotExample.
