(* ===== verification/Swap.v ===== *)
(** * Hot swaps ([jinnd-wasm/src/swap.rs], [lane_swap.rs])

    One phase per slot, under one lock, decides between a swap's commit and a
    disposal. [swap_batch] prepares every entry pinned to an artifact and then
    claims all their slots and commits in one critical section, or rolls the
    whole batch back. Swaps, activations and disposals interleave between any
    two critical sections. What preparing an instance does, and what committing
    one seat does, are [Slot]'s; here an instance is a number. *)

From stdpp Require Import base gmap sets list strings relations.
From S2P Require Import Prelude Api.

(** ** The phase machine ([SwapCore]) *)

Inductive SlotPhase := Steady | Preparing | Tombstone.

#[export] Instance SlotPhase_eq_dec : EqDecision SlotPhase.
Proof. solve_decision. Defined.

Abbreviation SwapCore := (gmap Z SlotPhase).

Definition begin (slot : Z) (c : SwapCore) : bool * SwapCore :=
  match default Steady (c !! slot) with
  | Steady => (true, <[slot := Preparing]> c)
  | phase => (false, <[slot := phase]> c)
  end.

(** Whether the commit ran, and the phases after it. *)
Definition commit_all_with (slots : list Z) (c : SwapCore) : option SwapCore :=
  if forallb (fun s => bool_decide (c !! s = Some Preparing)) slots
  then Some (fold_left (fun c s => <[s := Steady]> c) slots c) else None.

Definition rollback (slot : Z) (c : SwapCore) : SwapCore :=
  if decide (c !! slot = Some Preparing) then <[slot := Steady]> c else c.

Definition dispose (slot : Z) (c : SwapCore) : SlotPhase * SwapCore :=
  (default Steady (c !! slot), <[slot := Tombstone]> c).

Definition is_tombstone (slot : Z) (c : SwapCore) : bool := bool_decide (c !! slot = Some Tombstone).

(** ** One batch ([swap_batch], [swap_pinned]) *)

Record SwapOutcome := MkOutcome { swapped : list EntryId; rolled_back : bool }.

(** Where the driver is. *)
Inductive Pc :=
  | Beginning (todo : list (EntryId * Z))
  | Awaiting (entry : EntryId) (slot : Z) (todo : list (EntryId * Z))   (** [prepare] *)
  | Claiming
  | Landed (displaced : list (EntryId * nat)) (done : list EntryId)     (** committed *)
  | Retiring (displaced : list (EntryId * nat)) (done : list EntryId)
  | Retargeting (done : list EntryId)
  | RollingBack (slots : list Z)
  | Discarding (instances : list nat)
  | Done (o : SwapOutcome).

Record Swap := MkSwap {
  old_hash : string;
  new_hash : string;
  entries : list (EntryId * Z);
  begun : list Z;
  prepared : list (EntryId * Z * nat);
  pc : Pc;
}.

(** A row of the roster: the incarnation's slot and the entry's package. *)
Record Row := MkRow { slot_id : Z; package : string }.

Record World := MkWorld {
  core : SwapCore;
  seats : gmap Z nat;
  booting : list (Z * nat);       (** activated, not yet installed *)
  code : gmap nat string;         (** the artifact an instance runs *)
  roster : gmap EntryId Row;
  packages : gmap string string;
  next_slot : Z;
  minted : nat;
  swaps : list Swap;
  discarded : list nat;
  retired : list nat;
  rows : list LedgerEventKind;
}.

Definition with_core (c : SwapCore) (w : World) : World :=
  MkWorld c (seats w) (booting w) (code w) (roster w) (packages w) (next_slot w) (minted w) (swaps w)
    (discarded w) (retired w) (rows w).
Definition with_seats (s : gmap Z nat) (w : World) : World :=
  MkWorld (core w) s (booting w) (code w) (roster w) (packages w) (next_slot w) (minted w) (swaps w)
    (discarded w) (retired w) (rows w).
Definition with_swaps (s : list Swap) (w : World) : World :=
  MkWorld (core w) (seats w) (booting w) (code w) (roster w) (packages w) (next_slot w) (minted w) s
    (discarded w) (retired w) (rows w).
Definition with_packages (p : gmap string string) (w : World) : World :=
  MkWorld (core w) (seats w) (booting w) (code w) (roster w) p (next_slot w) (minted w) (swaps w)
    (discarded w) (retired w) (rows w).
Definition with_roster (r : gmap EntryId Row) (w : World) : World :=
  MkWorld (core w) (seats w) (booting w) (code w) r (packages w) (next_slot w) (minted w) (swaps w)
    (discarded w) (retired w) (rows w).
Definition discard (i : nat) (w : World) : World :=
  MkWorld (core w) (seats w) (booting w) (code w) (roster w) (packages w) (next_slot w) (minted w) (swaps w)
    (discarded w ++ [i]) (retired w) (rows w).
Definition retire (i : nat) (w : World) : World :=
  MkWorld (core w) (seats w) (booting w) (code w) (roster w) (packages w) (next_slot w) (minted w) (swaps w)
    (discarded w) (retired w ++ [i]) (rows w).
Definition append (kind : LedgerEventKind) (w : World) : World :=
  MkWorld (core w) (seats w) (booting w) (code w) (roster w) (packages w) (next_slot w) (minted w) (swaps w)
    (discarded w) (retired w) (rows w ++ [kind]).
(** A fresh instance of an artifact. *)
Definition mint (hash : string) (w : World) : World :=
  MkWorld (core w) (seats w) (booting w) (<[minted w := hash]> (code w)) (roster w) (packages w) (next_slot w)
    (S (minted w)) (swaps w) (discarded w) (retired w) (rows w).

Definition at_pc (p : Pc) (t : Swap) : Swap := MkSwap (old_hash t) (new_hash t) (entries t) (begun t) (prepared t) p.

(** The live entries whose component is the artifact, with their slots. *)
Definition entries_pinned_to (hash : string) (w : World) : list (EntryId * Z) :=
  sort_by (fun a b => String.leb (entry_id a.1) (entry_id b.1))
    (omap (fun r : EntryId * Row =>
       if decide (packages w !! package r.2 = Some hash) then Some (r.1, slot_id r.2) else None)
      (map_to_list (roster w))).

Definition start (old new : string) (w : World) : World :=
  append (SwapPhase new SwapBegan)
    (with_swaps (swaps w ++ [MkSwap old new (entries_pinned_to old w) [] [] (Beginning (entries_pinned_to old w))]) w).

(** The bookkeeping of a commit, seat by seat. *)
Fixpoint commit_seats (ps : list (EntryId * Z * nat)) (s : gmap Z nat) : list (EntryId * nat) * gmap Z nat :=
  match ps with
  | [] => ([], s)
  | (e, slot, i) :: ps =>
      let '(displaced, s') := commit_seats ps (<[slot := i]> s) in
      (match s !! slot with Some old => (e, old) :: displaced | None => displaced end, s')
  end.

(** One step of a driver; [healthy] is what a preparation comes to. *)
Definition driver_step (healthy : bool) (t : Swap) (w : World) : option (Swap * World) :=
  match pc t with
  | Beginning [] => Some (at_pc Claiming t, w)
  | Beginning ((e, slot) :: todo) =>
      let '(ok, c) := begin slot (core w) in
      Some (if ok
            then (MkSwap (old_hash t) (new_hash t) (entries t) (begun t ++ [slot]) (prepared t) (Awaiting e slot todo), with_core c w)
            else (at_pc (RollingBack (begun t)) t, with_core c w))
  | Awaiting e slot todo =>
      (* No live instance to hand off, or a failed health gate. *)
      if healthy && bool_decide (is_Some (seats w !! slot)) then
        Some (MkSwap (old_hash t) (new_hash t) (entries t) (begun t) (prepared t ++ [(e, slot, minted w)]) (Beginning todo),
              append (SwapPhase (new_hash t) InstanceHealthy) (mint (new_hash t) w))
      else Some (at_pc (RollingBack (begun t)) t, w)
  | Claiming =>
      match commit_all_with (begun t) (core w) with
      | Some c =>
          let '(displaced, s) := commit_seats (prepared t) (seats w) in
          Some (MkSwap (old_hash t) (new_hash t) (entries t) (begun t) [] (Landed displaced (map (fun p => p.1.1) (prepared t))),
                with_core c (with_seats s w))
      | None => Some (at_pc (RollingBack (begun t)) t, w)
      end
  | Landed displaced done => Some (at_pc (Retiring displaced done) t, append (SwapPhase (new_hash t) SwapCommitted) w)
  | Retiring ((e, i) :: displaced) done => Some (at_pc (Retiring displaced done) t, retire i w)
  | Retiring [] done => Some (at_pc (Retargeting done) t, w)
  | Retargeting done =>
      Some (at_pc (Done (MkOutcome done false)) t,
            with_packages ((fun h => if decide (h = old_hash t) then new_hash t else h) <$> packages w) w)
  | RollingBack (slot :: slots) => Some (at_pc (RollingBack slots) t, with_core (rollback slot (core w)) w)
  | RollingBack [] =>
      Some (MkSwap (old_hash t) (new_hash t) (entries t) (begun t) [] (Discarding (map snd (prepared t))), w)
  | Discarding (i :: instances) => Some (at_pc (Discarding instances) t, discard i w)
  | Discarding [] =>
      Some (at_pc (Done (MkOutcome [] true)) t, append (SwapPhase (new_hash t) RolledBack) w)
  | Done _ => None
  end.

Definition swap_step (k : nat) (healthy : bool) (w : World) : option World :=
  t ← swaps w !! k;
  '(t, w) ← driver_step healthy t w;
  Some (with_swaps (<[k := t]> (swaps w)) w).

(** ** Activations and disposals ([lane.rs], [lane/closing.rs]) *)

(** The component is read, the slot is minted, the row goes into the roster. *)
Definition activate (e : EntryId) (pkg : string) (w : World) : option World :=
  hash ← packages w !! pkg;
  let slot := (next_slot w + 1)%Z in
  let w' := mint hash w in
  Some (MkWorld (core w') (seats w') (booting w' ++ [(slot, minted w)]) (code w') (<[e := MkRow slot pkg]> (roster w'))
    (packages w') slot (minted w') (swaps w') (discarded w') (retired w') (rows w')).

(** The activation lands: its seat is installed. *)
Definition install (k : nat) (w : World) : option World :=
  '(slot, i) ← booting w !! k;
  if decide (core w !! slot = Some Tombstone) then None
  else
    Some (MkWorld (core w) (<[slot := i]> (seats w)) (delete k (booting w)) (code w) (roster w) (packages w) (next_slot w)
      (minted w) (swaps w) (discarded w) (retired w) (rows w)).

(** [close]: the tombstone first. *)
Definition close (e : EntryId) (w : World) : option World :=
  row ← roster w !! e;
  Some (with_core (dispose (slot_id row) (core w)).2 w).

Definition take (slot : Z) (w : World) : option World :=
  i ← seats w !! slot;
  if is_tombstone slot (core w) then Some (retire i (with_seats (delete slot (seats w)) w)) else None.

Definition forget (e : EntryId) (w : World) : option World :=
  row ← roster w !! e;
  if is_tombstone (slot_id row) (core w) && bool_decide (seats w !! slot_id row = None)
  then Some (with_roster (delete e (roster w)) w) else None.

Inductive step (w : World) : World -> Prop :=
  | step_starts old new : step w (start old new w)
  | step_drives k healthy w' : swap_step k healthy w = Some w' -> step w w'
  | step_activates e pkg w' : activate e pkg w = Some w' -> step w w'
  | step_installs k w' : install k w = Some w' -> step w w'
  | step_closes e w' : close e w = Some w' -> step w w'
  | step_takes slot w' : take slot w = Some w' -> step w w'
  | step_forgets e w' : forget e w = Some w' -> step w w'.

Definition at_start (w : World) : Prop :=
  exists pkgs, w = MkWorld ∅ ∅ [] ∅ ∅ pkgs 0 0 [] [] [] [].

Definition running : World -> Prop := reachable at_start step.

(** ** What holds throughout *)

Definition slot_of (p : EntryId * Z * nat) : Z := p.1.2.

(** The slots a driver still holds in [Preparing]. *)
Definition holding (t : Swap) : list Z :=
  match pc t with
  | Beginning _ | Awaiting _ _ _ | Claiming => begun t
  | RollingBack slots => slots
  | Landed _ _ | Retiring _ _ | Retargeting _ | Discarding _ | Done _ => []
  end.

(** The instances a driver answers for. *)
Definition held_by (t : Swap) : list nat :=
  map snd (prepared t) ++
  match pc t with
  | Landed displaced _ | Retiring displaced _ => map snd displaced
  | Discarding instances => instances
  | Beginning _ | Awaiting _ _ _ | Claiming | RollingBack _ | Retargeting _ | Done _ => []
  end.

(** Where every instance is. *)
Definition owners (w : World) : list nat :=
  map snd (map_to_list (seats w)) ++ map snd (booting w) ++ concat (map held_by (swaps w)) ++ discarded w ++ retired w.

(** What a driver's lists say at each point. *)
Definition tidy (t : Swap) : Prop :=
  match pc t with
  | Beginning todo => begun t = map slot_of (prepared t) /\ entries t = map fst (prepared t) ++ todo
  | Awaiting e slot todo =>
      begun t = map slot_of (prepared t) ++ [slot] /\ entries t = map fst (prepared t) ++ (e, slot) :: todo
  | Claiming => begun t = map slot_of (prepared t) /\ entries t = map fst (prepared t)
  | Landed _ done | Retiring _ done | Retargeting done => prepared t = [] /\ done = map fst (entries t)
  | RollingBack _ => True
  | Discarding _ => prepared t = []
  | Done o => prepared t = [] /\ swapped o = if rolled_back o then [] else map fst (entries t)
  end.

Record swaps_ok (w : World) : Prop := {
  held_once : NoDup (concat (map holding (swaps w)));
  held_phase s : s ∈ concat (map holding (swaps w)) -> core w !! s = Some Preparing \/ core w !! s = Some Tombstone;
  preparing_held s : core w !! s = Some Preparing -> s ∈ concat (map holding (swaps w));
  all_tidy k t : swaps w !! k = Some t -> tidy t;
  prepared_seated k t p : swaps w !! k = Some t -> p ∈ prepared t ->
    is_Some (seats w !! slot_of p) \/ core w !! slot_of p = Some Tombstone;
  all_owned : owners w ≡ₚ seq 0 (minted w);
  booting_once : NoDup (map fst (booting w));
  booting_fresh s : s ∈ map fst (booting w) -> (s <= next_slot w)%Z /\ seats w !! s = None;
  seats_below s : is_Some (seats w !! s) -> (s <= next_slot w)%Z;
}.

Lemma concat_map_take {A} (f : Swap -> list A) l k t :
  l !! k = Some t -> concat (map f l) ≡ₚ f t ++ concat (map f (delete k l)).
Proof.
  revert k. induction l as [|x l IH]; intros [|k] Hk; simpl in *; try done; [by injection Hk as ->|].
  rewrite (IH k Hk). rewrite !app_assoc. by rewrite (Permutation_app_comm (f x)).
Qed.

Lemma concat_map_put {A} (f : Swap -> list A) l k t t' :
  l !! k = Some t -> concat (map f (<[k := t']> l)) ≡ₚ f t' ++ concat (map f (delete k l)).
Proof.
  revert k. induction l as [|x l IH]; intros [|k] Hk; simpl in *; try done.
  rewrite (IH k Hk). rewrite !app_assoc. by rewrite (Permutation_app_comm (f x)).
Qed.

(** *** The phase machine *)

Lemma commit_all_with_spec slots c c' :
  commit_all_with slots c = Some c' ->
  (forall s, s ∈ slots -> c !! s = Some Preparing) /\
  forall s, c' !! s = if decide (s ∈ slots) then Some Steady else c !! s.
Proof.
  unfold commit_all_with. destruct (forallb _ slots) eqn:Hall; [|done]. intros [= <-]. rewrite forallb_forall in Hall. split.
  - intros s Hs%list_elem_of_In. specialize (Hall s Hs). by apply bool_decide_eq_true_1 in Hall.
  - clear Hall. revert c. induction slots as [|s0 slots IH]; intros c s; simpl; [done|]. rewrite IH.
    destruct (decide (s = s0)) as [->|Hne].
    + rewrite lookup_insert_eq. rewrite (decide_True (P := s0 ∈ s0 :: slots)) by (by left). by case_decide.
    + rewrite lookup_insert_ne by done. repeat case_decide; try done; rewrite elem_of_cons in *; naive_solver.
Qed.

Lemma seat_insert_values (s : gmap Z nat) slot i :
  map snd (map_to_list (<[slot := i]> s)) ++ option_list (s !! slot) ≡ₚ i :: map snd (map_to_list s).
Proof.
  destruct (s !! slot) as [old|] eqn:Hs.
  - rewrite <-insert_delete_eq, map_to_list_insert by apply lookup_delete_eq.
    rewrite <-(insert_delete_id s slot old Hs) at 2. rewrite map_to_list_insert by apply lookup_delete_eq. simpl.
    by rewrite (Permutation_app_comm _ [old]).
  - rewrite map_to_list_insert by done. by rewrite app_nil_r.
Qed.

Lemma commit_seats_spec ps s :
  NoDup (map slot_of ps) ->
  let '(displaced, s') := commit_seats ps s in
  map snd (map_to_list s') ++ map snd displaced ≡ₚ map snd (map_to_list s) ++ map snd ps /\
  (forall p, p ∈ ps -> s' !! slot_of p = Some p.2) /\
  (forall x, x ∉ map slot_of ps -> s' !! x = s !! x) /\
  length displaced <= length ps.
Proof.
  revert s. induction ps as [|[[e slot] i] ps IH]; intros s Hnd; simpl.
  - split_and!; [done| |done|lia]. intros p Hp. by apply not_elem_of_nil in Hp.
  - apply NoDup_cons in Hnd as [Hnin Hnd]. specialize (IH (<[slot := i]> s) Hnd).
    destruct (commit_seats ps (<[slot := i]> s)) as [displaced s']. destruct IH as (Hp & Hin & Hout & Hlen).
    split_and!.
    + assert (forall d, map snd (match s !! slot with Some old => (e, old) :: d | None => d end) ≡ₚ
        option_list (s !! slot) ++ map snd d) as Hd by (intros d; by destruct (s !! slot)).
      rewrite Hd. rewrite (Permutation_app_comm (option_list _)), app_assoc, Hp.
      rewrite <-app_assoc, (Permutation_app_comm (map snd ps)), app_assoc, seat_insert_values. simpl.
      by rewrite Permutation_middle.
    + intros p [->|Hp']%elem_of_cons; [|by apply Hin]. simpl. unfold slot_of at 1. simpl. rewrite Hout by exact Hnin.
      apply lookup_insert_eq.
    + intros x Hx. rewrite Hout by set_solver. apply lookup_insert_ne. set_solver.
    + destruct (s !! slot); simpl; lia.
Qed.

(** *** A driver's step *)

(** What one driver's step has to keep, beside the others' [R] and [H]. *)
Record kept (t t' : Swap) (w w' : World) (R : list Z) (H : list nat) : Prop := {
  kept_swaps : swaps w' = swaps w;
  kept_booting : booting w' = booting w;
  kept_next : next_slot w' = next_slot w;
  kept_once : NoDup (holding t' ++ R);
  kept_phase s : s ∈ holding t' ++ R -> core w' !! s = Some Preparing \/ core w' !! s = Some Tombstone;
  kept_preparing s : core w' !! s = Some Preparing -> s ∈ holding t' ++ R;
  kept_tidy : tidy t';
  kept_prepared p : p ∈ prepared t' -> is_Some (seats w' !! slot_of p) \/ core w' !! slot_of p = Some Tombstone;
  kept_seated s : is_Some (seats w !! s) \/ core w !! s = Some Tombstone -> is_Some (seats w' !! s) \/ core w' !! s = Some Tombstone;
  kept_seats s : is_Some (seats w' !! s) -> is_Some (seats w !! s);
  kept_owned : map snd (map_to_list (seats w')) ++ map snd (booting w') ++ (held_by t' ++ H) ++ discarded w' ++ retired w'
    ≡ₚ seq 0 (minted w');
}.

Lemma kept_ok w k t t' w' :
  swaps_ok w -> swaps w !! k = Some t ->
  kept t t' w w' (concat (map holding (delete k (swaps w)))) (concat (map held_by (delete k (swaps w)))) ->
  swaps_ok (with_swaps (<[k := t']> (swaps w')) w').
Proof.
  intros Hok Hk [Hsw Hbo Hne Ho Hph Hpr Ht Hpre Hseat Hback Hown].
  assert (forall s, s ∈ concat (map holding (<[k := t']> (swaps w))) <->
    s ∈ holding t' ++ concat (map holding (delete k (swaps w)))) as Hin by (intros s; by rewrite (concat_map_put holding _ _ _ t' Hk)).
  split; simpl; rewrite ?Hsw.
  - by rewrite (concat_map_put holding _ _ _ t' Hk).
  - intros s Hs%Hin. by apply Hph.
  - intros s Hs. by apply Hin, Hpr.
  - intros j u Hu. apply list_lookup_insert_Some in Hu as [(-> & <- & _)|[_ Hu]]; [done|by eapply all_tidy].
  - intros j u p Hu Hp. apply list_lookup_insert_Some in Hu as [(-> & <- & _)|[_ Hu]]; [by apply Hpre|].
    apply Hseat. by eapply prepared_seated.
  - unfold owners. simpl. rewrite (concat_map_put held_by _ _ _ t' Hk). exact Hown.
  - rewrite Hbo. apply Hok.
  - rewrite Hbo, Hne. intros s Hs. destruct (booting_fresh _ Hok s Hs) as [? Hnone]. split; [done|].
    apply eq_None_not_Some. intros Hsome. apply Hback in Hsome. rewrite Hnone in Hsome. by apply is_Some_None in Hsome.
  - rewrite Hne. intros s Hs. by apply (seats_below _ Hok), Hback.
Qed.

Lemma begin_spec slot c :
  let '(ok, c') := begin slot c in
  (forall s, s <> slot -> c' !! s = c !! s) /\
  (ok = true -> c !! slot <> Some Preparing /\ c !! slot <> Some Tombstone /\ c' !! slot = Some Preparing) /\
  (ok = false -> (c !! slot = Some Preparing \/ c !! slot = Some Tombstone) /\ c' !! slot = c !! slot).
Proof.
  unfold begin. destruct (c !! slot) as [[]|] eqn:Hs; simpl; (split_and!; [intros s Hne; by rewrite lookup_insert_ne|..]);
    intros ?; try done; rewrite lookup_insert_eq; naive_solver.
Qed.

Lemma rollback_spec slot c s :
  rollback slot c !! s = if decide (s = slot /\ c !! slot = Some Preparing) then Some Steady else c !! s.
Proof.
  unfold rollback. destruct (decide (c !! slot = Some Preparing)) as [Hp|Hp].
  - destruct (decide (s = slot)) as [->|Hne]; [rewrite lookup_insert_eq, decide_True by done; done|].
    rewrite lookup_insert_ne by done. by rewrite decide_False by naive_solver.
  - by rewrite decide_False by naive_solver.
Qed.

Section Drive.
Context (w : World) (k : nat) (t : Swap) (Hok : swaps_ok w) (Hk : swaps w !! k = Some t).

Abbreviation R := (concat (map holding (delete k (swaps w)))).
Abbreviation H := (concat (map held_by (delete k (swaps w)))).

Lemma mine_once : NoDup (holding t ++ R).
Proof using Hok Hk. rewrite <-(concat_map_take holding _ _ _ Hk). apply Hok. Qed.

Lemma mine_phase s : s ∈ holding t ++ R -> core w !! s = Some Preparing \/ core w !! s = Some Tombstone.
Proof using Hok Hk. intros Hs. apply (held_phase _ Hok). by rewrite (concat_map_take holding _ _ _ Hk). Qed.

Lemma mine_preparing s : core w !! s = Some Preparing -> s ∈ holding t ++ R.
Proof using Hok Hk. intros Hs. rewrite <-(concat_map_take holding _ _ _ Hk). by apply Hok. Qed.

Lemma mine_owned :
  map snd (map_to_list (seats w)) ++ map snd (booting w) ++ (held_by t ++ H) ++ discarded w ++ retired w ≡ₚ seq 0 (minted w).
Proof using Hok Hk. rewrite <-(concat_map_take held_by _ _ _ Hk). apply Hok. Qed.

(** A step that moves the driver's own position alone. *)
Lemma kept_quiet t' kind :
  holding t' = holding t -> held_by t' = held_by t -> tidy t' -> (forall p, p ∈ prepared t' -> p ∈ prepared t) ->
  kept t t' w w R H /\ kept t t' w (append kind w) R H.
Proof using Hok Hk.
  intros Hh Hb Ht Hp. split; (split; try done; rewrite ?Hh, ?Hb;
    [apply mine_once|apply mine_phase|apply mine_preparing| |apply mine_owned]);
    intros p Hin; eapply (prepared_seated _ Hok); eauto.
Qed.
(** Nothing of a driver's instances was moved: it turns to rolling back. *)
Lemma rolls_back_kept :
  holding t = begun t -> held_by t = map snd (prepared t) -> kept t (at_pc (RollingBack (begun t)) t) w w R H.
Proof using Hok Hk.
  intros Hh Hb. apply (kept_quiet _ (SwapPhase "" SwapBegan)); [done| |done|done]. rewrite Hb. apply app_nil_r.
Qed.

Lemma begins_kept e slot todo c :
  pc t = Beginning ((e, slot) :: todo) -> begin slot (core w) = (true, c) ->
  kept t (MkSwap (old_hash t) (new_hash t) (entries t) (begun t ++ [slot]) (prepared t) (Awaiting e slot todo))
    w (with_core c w) R H.
Proof using Hok Hk.
  intros Hpc Hbeg. pose proof (begin_spec slot (core w)) as Hs. rewrite Hbeg in Hs.
  destruct Hs as (Hother & Hyes & _). destruct (Hyes eq_refl) as (Hnp & Hnt & Hp).
  pose proof (all_tidy _ Hok k t Hk) as Ht. unfold tidy in Ht. rewrite Hpc in Ht. destruct Ht as [Hbegun Hent].
  assert (holding t = begun t) as Hh by (unfold holding; by rewrite Hpc).
  assert (slot ∉ holding t ++ R) as Hfresh by (intros Hin; by destruct (mine_phase _ Hin)).
  assert (holding (MkSwap (old_hash t) (new_hash t) (entries t) (begun t ++ [slot]) (prepared t) (Awaiting e slot todo)) ++ R
    ≡ₚ slot :: holding t ++ R) as Hperm by (rewrite Hh; unfold holding; simpl; solve_Permutation).
  split; try done; simpl.
  - rewrite Hperm. apply NoDup_cons. split; [done|apply mine_once].
  - intros s. rewrite Hperm. intros [->|Hs]%elem_of_cons; [by left|]. rewrite Hother by (intros ->; done). by apply mine_phase.
  - intros s Hs. rewrite Hperm. destruct (decide (s = slot)) as [->|Hne]; [by left|]. right. rewrite Hother in Hs by done.
    by apply mine_preparing.
  - unfold tidy. simpl. by rewrite Hbegun.
  - intros p Hin. destruct (prepared_seated _ Hok k t p Hk Hin) as [?|Htomb]; [by left|]. right.
    destruct (decide (slot_of p = slot)) as [Heq|Hne]; [by rewrite Heq in Htomb|]. by rewrite Hother.
  - intros s [?|Htomb]; [by left|right]. rewrite Hother; [done|]. by intros ->.
  - assert (held_by (MkSwap (old_hash t) (new_hash t) (entries t) (begun t ++ [slot]) (prepared t) (Awaiting e slot todo)) = held_by t)
      as -> by (unfold held_by; simpl; by rewrite Hpc). apply mine_owned.
Qed.

Lemma prepares_kept e slot todo kind :
  pc t = Awaiting e slot todo -> is_Some (seats w !! slot) ->
  kept t (MkSwap (old_hash t) (new_hash t) (entries t) (begun t) (prepared t ++ [(e, slot, minted w)]) (Beginning todo))
    w (append kind (mint (new_hash t) w)) R H.
Proof using Hok Hk.
  intros Hpc Hseat. pose proof (all_tidy _ Hok k t Hk) as Ht. unfold tidy in Ht. rewrite Hpc in Ht. destruct Ht as [Hbegun Hent].
  assert (holding t = begun t) as Hh by (unfold holding; by rewrite Hpc).
  assert (held_by t = map snd (prepared t)) as Hb by (unfold held_by; rewrite Hpc; apply app_nil_r).
  assert (map snd (map_to_list (seats w)) ++ map snd (booting w) ++ ((map snd (prepared t) ++ [minted w]) ++ H) ++
    discarded w ++ retired w ≡ₚ seq 0 (S (minted w))) as Hown.
  { rewrite seq_S, <-mine_owned, Hb. solve_Permutation. }
  split; try done; simpl; unfold holding; simpl; rewrite <-?Hh.
  - apply mine_once.
  - apply mine_phase.
  - apply mine_preparing.
  - unfold tidy. simpl. rewrite !map_app. simpl. rewrite <-app_assoc. split; [by rewrite Hh|done].
  - intros p [Hin|Hin%list_elem_of_singleton]%elem_of_app; [by eapply prepared_seated|]. left. by rewrite Hin.
  - unfold held_by at 1. simpl. rewrite app_nil_r, map_app. exact Hown.
Qed.

Lemma commits_kept c displaced s :
  pc t = Claiming -> commit_all_with (begun t) (core w) = Some c -> commit_seats (prepared t) (seats w) = (displaced, s) ->
  kept t (MkSwap (old_hash t) (new_hash t) (entries t) (begun t) [] (Landed displaced (map (fun p => p.1.1) (prepared t))))
    w (with_core c (with_seats s w)) R H.
Proof using Hok Hk.
  intros Hpc Hc Hs. pose proof (all_tidy _ Hok k t Hk) as Ht. unfold tidy in Ht. rewrite Hpc in Ht. destruct Ht as [Hbegun Hent].
  assert (holding t = begun t) as Hh by (unfold holding; by rewrite Hpc).
  assert (held_by t = map snd (prepared t)) as Hb by (unfold held_by; rewrite Hpc; apply app_nil_r).
  destruct (commit_all_with_spec _ _ _ Hc) as [Hall Hc']. pose proof mine_once as Hnd. rewrite Hh in Hnd.
  apply NoDup_app in Hnd as (Hnd & Hdis & HndR). rewrite Hbegun in Hnd.
  pose proof (commit_seats_spec (prepared t) (seats w) Hnd) as Hcs. rewrite Hs in Hcs. destruct Hcs as (Hperm & Hin & Hout & _).
  assert (forall x, is_Some (s !! x) <-> is_Some (seats w !! x)) as Hdom.
  { intros x. destruct (decide (x ∈ map slot_of (prepared t))) as [Hx|Hx]; [|by rewrite Hout].
    apply list_elem_of_fmap in Hx as (p & -> & Hp). rewrite (Hin p Hp). split; [intros _|by eexists].
    destruct (prepared_seated _ Hok k t p Hk Hp) as [?|Htomb]; [done|].
    rewrite (Hall (slot_of p)) in Htomb by (rewrite Hbegun; by apply list_elem_of_fmap_2). done. }
  split; try done; simpl; unfold holding; simpl.
  - intros x Hx. rewrite Hc', decide_False by (intros Hb'; by apply (Hdis x)). apply mine_phase. rewrite elem_of_app. by right.
  - intros x Hx. rewrite Hc' in Hx. case_decide as Hd; [done|]. apply mine_preparing in Hx. rewrite Hh in Hx.
    by apply elem_of_app in Hx as [?|?].
  - unfold tidy. simpl. split; [done|]. rewrite Hent, map_map. done.
  - intros p Hp. by apply not_elem_of_nil in Hp.
  - intros x [Hx|Hx]; [left; by apply Hdom|right]. rewrite Hc', decide_False; [done|]. intros Hin'. by rewrite Hall in Hx.
  - intros x Hx. by apply Hdom.
  - unfold held_by at 1. simpl. rewrite <-mine_owned, Hb.
    transitivity ((map snd (map_to_list s) ++ map snd displaced) ++ map snd (booting w) ++ H ++ discarded w ++ retired w);
      [solve_Permutation|]. rewrite Hperm. solve_Permutation.
Qed.

Lemma rolls_one_kept slot slots :
  pc t = RollingBack (slot :: slots) -> kept t (at_pc (RollingBack slots) t) w (with_core (rollback slot (core w)) w) R H.
Proof using Hok Hk.
  intros Hpc. pose proof mine_once as Hnd. pose proof mine_phase as Hph. pose proof mine_preparing as Hpr.
  assert (holding t = slot :: slots) as Hh by (unfold holding; by rewrite Hpc). rewrite Hh in Hnd, Hph, Hpr.
  rewrite <-app_comm_cons in Hnd, Hph, Hpr. apply NoDup_cons in Hnd as [Hnin Hnd].
  split; try done; simpl; unfold holding; simpl.
  - intros s Hs. rewrite rollback_spec. rewrite decide_False by (intros [-> _]; done). apply Hph. by right.
  - intros s Hs. rewrite rollback_spec in Hs. case_decide as Hd; [done|]. pose proof (Hpr s Hs) as [->|?]%elem_of_cons; [|done].
    by destruct Hd.
  - intros p Hp. rewrite rollback_spec. destruct (prepared_seated _ Hok k t p Hk Hp) as [?|Htomb]; [by left|right].
    rewrite decide_False; [done|]. intros [Heq Hp']. rewrite Heq in Htomb. congruence.
  - intros s [?|Htomb]; [by left|right]. rewrite rollback_spec.
    rewrite decide_False; [done|]. intros [-> Hp']. congruence.
  - assert (held_by (at_pc (RollingBack slots) t) = held_by t) as -> by (unfold held_by; simpl; by rewrite Hpc).
    apply mine_owned.
Qed.

(** The last lists are emptied one by one. *)
Lemma empties_kept t' w' :
  swaps w' = swaps w -> booting w' = booting w -> next_slot w' = next_slot w -> core w' = core w -> seats w' = seats w ->
  minted w' = minted w -> holding t = [] -> holding t' = [] -> prepared t' = [] -> tidy t' ->
  held_by t' ++ discarded w' ++ retired w' ≡ₚ held_by t ++ discarded w ++ retired w -> kept t t' w w' R H.
Proof using Hok Hk.
  intros Hsw Hbo Hne Hco Hse Hmi Hh Hh' Hp' Ht Hperm. pose proof mine_once as Hnd. pose proof mine_phase as Hph.
  pose proof mine_preparing as Hpr. rewrite Hh in Hnd, Hph, Hpr.
  split; try done; rewrite ?Hh', ?Hco, ?Hse, ?Hbo, ?Hmi; try done.
  - intros p Hp. rewrite Hp' in Hp. by apply not_elem_of_nil in Hp.
  - rewrite <-mine_owned.
    transitivity (map snd (map_to_list (seats w)) ++ map snd (booting w) ++ H ++ (held_by t' ++ discarded w' ++ retired w'));
      [solve_Permutation|]. rewrite Hperm. solve_Permutation.
Qed.
End Drive.

Lemma driver_kept w k t healthy t' w' :
  swaps_ok w -> swaps w !! k = Some t -> driver_step healthy t w = Some (t', w') ->
  kept t t' w w' (concat (map holding (delete k (swaps w)))) (concat (map held_by (delete k (swaps w)))).
Proof.
  intros Hok Hk Hs. pose proof (all_tidy _ Hok k t Hk) as Ht. unfold driver_step in Hs.
  assert (forall s, pc t = s -> holding (at_pc s t) = holding t /\ held_by (at_pc s t) = held_by t) as Hsame
    by (intros s <-; done).
  destruct (pc t) as [[|[e slot] todo]|e slot todo| |displaced done|[|[e i] displaced] done|done|[|slot slots]|[|i instances]|o] eqn:Hpc;
    unfold tidy in Ht; rewrite Hpc in Ht.
  - injection Hs as <- <-. apply (kept_quiet w k t Hok Hk (at_pc Claiming t) (SwapPhase "" SwapBegan)).
    + unfold holding. by rewrite Hpc.
    + unfold held_by. simpl. by rewrite Hpc.
    + unfold tidy. simpl. rewrite app_nil_r in Ht. exact Ht.
    + done.
  - pose proof (begin_spec slot (core w)) as Hb. destruct (begin slot (core w)) as [[|] c] eqn:Hbeg; injection Hs as <- <-.
    + by apply begins_kept.
    + destruct Hb as (Hother & _ & Hno). destruct (Hno eq_refl) as [Hcase Hsl].
      assert (c = core w) as -> by (apply map_eq; intros s; destruct (decide (s = slot)) as [->|]; [done|by apply Hother]).
      assert (with_core (core w) w = w) as -> by (by destruct w).
      apply (rolls_back_kept w k t Hok Hk); [unfold holding; by rewrite Hpc|unfold held_by; rewrite Hpc; apply app_nil_r].
  - destruct healthy; simpl in Hs.
    + case_bool_decide as Hseat; injection Hs as <- <-; [by eapply prepares_kept|].
      apply (rolls_back_kept w k t Hok Hk); [unfold holding; by rewrite Hpc|unfold held_by; rewrite Hpc; apply app_nil_r].
    + injection Hs as <- <-.
      apply (rolls_back_kept w k t Hok Hk); [unfold holding; by rewrite Hpc|unfold held_by; rewrite Hpc; apply app_nil_r].
  - destruct (commit_all_with (begun t) (core w)) as [c|] eqn:Hc.
    + destruct (commit_seats (prepared t) (seats w)) as [displaced s] eqn:Hcs. injection Hs as <- <-. by apply commits_kept.
    + injection Hs as <- <-.
      apply (rolls_back_kept w k t Hok Hk); [unfold holding; by rewrite Hpc|unfold held_by; rewrite Hpc; apply app_nil_r].
  - injection Hs as <- <-. destruct Ht as [Hp Hd]. apply (empties_kept w k t Hok Hk); try done; unfold holding, held_by; simpl; by rewrite ?Hpc.
  - injection Hs as <- <-. destruct Ht as [Hp Hd]. apply (empties_kept w k t Hok Hk); try done; unfold holding, held_by; simpl; by rewrite ?Hpc.
  - injection Hs as <- <-. destruct Ht as [Hp Hd]. apply (empties_kept w k t Hok Hk); try done; unfold holding, held_by; simpl; rewrite ?Hpc, ?Hp; simpl; [done|].
    solve_Permutation.
  - injection Hs as <- <-. destruct Ht as [Hp Hd]. apply (empties_kept w k t Hok Hk); try done; unfold holding, held_by; simpl; by rewrite ?Hpc.
  - injection Hs as <- <-. apply (empties_kept w k t Hok Hk); try done; unfold holding, held_by; simpl; rewrite ?Hpc, ?app_nil_r; done.
  - injection Hs as <- <-. by apply rolls_one_kept.
  - injection Hs as <- <-. apply (empties_kept w k t Hok Hk); try done; unfold holding, held_by; simpl; by rewrite ?Hpc.
  - injection Hs as <- <-. apply (empties_kept w k t Hok Hk); try done; unfold holding, held_by; simpl; rewrite ?Hpc, ?Ht; simpl; [done|].
    solve_Permutation.
  - done.
Qed.

Lemma driver_same_swaps w t healthy t' w' : driver_step healthy t w = Some (t', w') -> swaps w' = swaps w.
Proof.
  intros Hs. unfold driver_step in Hs. repeat case_match; by simplify_eq/=.
Qed.

Lemma swap_step_ok k healthy w w' : swaps_ok w -> swap_step k healthy w = Some w' -> swaps_ok w'.
Proof.
  intros Hok Hs. unfold swap_step in Hs. destruct (swaps w !! k) as [t|] eqn:Hk; [|done]. simpl in Hs.
  destruct (driver_step healthy t w) as [[t' w1]|] eqn:Hd; [|done]. injection Hs as <-.
  eapply kept_ok; [exact Hok|exact Hk|by eapply driver_kept].
Qed.

(** *** The other steps *)

(** Every driver, its slots and what is seated stay as they were. *)
Lemma swaps_ok_same w w' :
  swaps_ok w -> swaps w' = swaps w -> core w' = core w -> seats w' = seats w -> booting w' = booting w ->
  next_slot w' = next_slot w -> minted w' = minted w -> discarded w' = discarded w -> retired w' = retired w -> swaps_ok w'.
Proof.
  intros [H1 H2 H3 H4 H5 H6 H7 H8 H9] Hsw Hco Hse Hbo Hne Hmi Hdi Hre.
  split; unfold owners in *; rewrite ?Hsw, ?Hco, ?Hse, ?Hbo, ?Hne, ?Hmi, ?Hdi, ?Hre; assumption.
Qed.

Lemma start_ok old new w : swaps_ok w -> swaps_ok (start old new w).
Proof.
  intros [H1 H2 H3 H4 H5 H6 H7 H8 H9]. assert (forall A (f : Swap -> list A) t, f t = [] ->
    concat (map f (swaps w ++ [t])) = concat (map f (swaps w))) as Hc
    by (intros A f t Hf; rewrite map_app, concat_app; simpl; rewrite Hf; simpl; by rewrite app_nil_r).
  split; unfold owners in *; simpl; rewrite ?Hc by done; try assumption.
  - intros k t Ht. apply lookup_app_Some in Ht as [Ht|[_ Ht]]; [by eapply H4|].
    by apply list_lookup_singleton_Some in Ht as [_ <-].
  - intros k t p Ht Hp. apply lookup_app_Some in Ht as [Ht|[_ Ht]]; [by eapply H5|].
    apply list_lookup_singleton_Some in Ht as [_ <-]. by apply not_elem_of_nil in Hp.
Qed.

Lemma close_ok e w w' : swaps_ok w -> close e w = Some w' -> swaps_ok w'.
Proof.
  intros Hok Hs. unfold close in Hs. destruct (roster w !! e) as [[slot pkg]|]; [|done]. injection Hs as <-.
  assert (forall s, (<[slot := Tombstone]> (core w)) !! s = Some Tombstone \/ (<[slot := Tombstone]> (core w)) !! s = core w !! s) as Hc
    by (intros s; destruct (decide (s = slot)) as [->|]; [left; apply lookup_insert_eq|right; by apply lookup_insert_ne]).
  split; simpl; try apply Hok.
  - intros s Hs. destruct (Hc s) as [? | ->]; [by right|]. by apply Hok.
  - intros s Hs. destruct (Hc s) as [Ht|Heq]; [by rewrite Ht in Hs|]. rewrite Heq in Hs. by apply Hok.
  - intros k t p Hk Hp. destruct (prepared_seated _ Hok k t p Hk Hp) as [?|Ht]; [by left|right].
    destruct (Hc (slot_of p)) as [? | ->]; done.
Qed.

Lemma take_ok slot w w' : swaps_ok w -> take slot w = Some w' -> swaps_ok w'.
Proof.
  intros Hok Hs. unfold take in Hs. destruct (seats w !! slot) as [i|] eqn:Hi; [|done]. simpl in Hs.
  destruct (is_tombstone slot (core w)) eqn:Ht; [|done]. injection Hs as <-. apply bool_decide_eq_true_1 in Ht.
  assert (forall s, is_Some (delete slot (seats w) !! s) -> is_Some (seats w !! s)) as Hback
    by (intros s [x [_ Hx]%lookup_delete_Some]; by eexists).
  split; simpl; try apply Hok.
  - intros k t p Hk Hp. destruct (decide (slot_of p = slot)) as [->|Hne]; [by right|].
    rewrite lookup_delete_ne by done. by eapply prepared_seated.
  - unfold owners. simpl. rewrite <-(all_owned _ Hok). unfold owners.
    rewrite <-(insert_delete_id (seats w) slot i Hi) at 2. rewrite map_to_list_insert by apply lookup_delete_eq. simpl.
    solve_Permutation.
  - intros s Hs. destruct (booting_fresh _ Hok s Hs) as [? Hn]. split; [done|].
    apply eq_None_not_Some. intros Hsome%Hback. rewrite Hn in Hsome. by apply is_Some_None in Hsome.
  - intros s Hs. by apply (seats_below _ Hok), Hback.
Qed.

Lemma activate_ok e pkg w w' : swaps_ok w -> activate e pkg w = Some w' -> swaps_ok w'.
Proof.
  intros Hok Hs. unfold activate in Hs. destruct (packages w !! pkg) as [hash|]; [|done]. injection Hs as <-.
  assert (seats w !! (next_slot w + 1)%Z = None) as Hfree.
  { apply eq_None_not_Some. intros Hsome%(seats_below _ Hok). lia. }
  assert (map snd (map_to_list (seats w)) ++ (map snd (booting w) ++ [minted w]) ++ concat (map held_by (swaps w)) ++
    discarded w ++ retired w ≡ₚ seq 0 (S (minted w))) as Hown.
  { rewrite seq_S, <-(all_owned _ Hok). unfold owners. solve_Permutation. }
  split; simpl; try apply Hok.
  - unfold owners. simpl. rewrite map_app. exact Hown.
  - rewrite map_app. simpl. apply NoDup_app. split_and!; [apply Hok| |apply NoDup_singleton].
    intros s Hs Hs'%list_elem_of_singleton. destruct (booting_fresh _ Hok s Hs) as [? _]. lia.
  - intros s Hs. rewrite map_app in Hs. apply elem_of_app in Hs as [Hs|Hs%list_elem_of_singleton].
    + destruct (booting_fresh _ Hok s Hs) as [? ?]. split; [lia|done].
    + simpl in Hs. subst s. split; [lia|done].
  - intros s Hs. apply (seats_below _ Hok) in Hs. lia.
Qed.

Lemma install_ok k w w' : swaps_ok w -> install k w = Some w' -> swaps_ok w'.
Proof.
  intros Hok Hs. unfold install in Hs. destruct (booting w !! k) as [[slot i]|] eqn:Hb; [|done]. simpl in Hs.
  case_decide as Hd; [done|]. injection Hs as <-.
  assert (booting w ≡ₚ (slot, i) :: delete k (booting w)) as Hperm by by apply delete_Permutation.
  pose proof (booting_once _ Hok) as Hnd. rewrite Hperm in Hnd. simpl in Hnd. apply NoDup_cons in Hnd as [Hnin Hnd].
  destruct (booting_fresh _ Hok slot) as [Hle Hnone]; [rewrite Hperm; by left|].
  split; simpl; try apply Hok; try done.
  - intros j t p Hj Hp. destruct (prepared_seated _ Hok j t p Hj Hp) as [?|?]; [left|by right].
    destruct (decide (slot_of p = slot)) as [->|Hne]; [rewrite lookup_insert_eq; by eexists|by rewrite lookup_insert_ne].
  - unfold owners. simpl. rewrite map_to_list_insert by done. rewrite <-(all_owned _ Hok). unfold owners.
    rewrite Hperm at 2. simpl. solve_Permutation.
  - intros s Hs. assert (s <> slot) as Hne by (intros ->; done).
    destruct (booting_fresh _ Hok s) as [? ?]; [rewrite Hperm; by right|]. split; [done|]. by rewrite lookup_insert_ne.
  - intros s Hs. destruct (decide (s = slot)) as [->|Hne]; [done|]. rewrite lookup_insert_ne in Hs by done. by apply (seats_below _ Hok).
Qed.

Lemma world_step_ok w w' : swaps_ok w -> step w w' -> swaps_ok w'.
Proof.
  intros Hok [old new|k healthy w1 Hs|e pkg w1 Hs|k w1 Hs|e w1 Hs|slot w1 Hs|e w1 Hs].
  - by apply start_ok.
  - by eapply swap_step_ok.
  - by eapply activate_ok.
  - by eapply install_ok.
  - by eapply close_ok.
  - by eapply take_ok.
  - unfold forget in Hs. destruct (roster w !! e) as [row|]; [|done]. simpl in Hs. destruct (_ && _); [|done].
    injection Hs as <-. by eapply swaps_ok_same.
Qed.

Lemma running_ok w : running w -> swaps_ok w.
Proof.
  apply (reachable_invariant _ _ swaps_ok); [|intros; by eapply world_step_ok].
  intros w0 (pkgs & ->). split; simpl; try done.
  - constructor.
  - intros s Hs. by apply not_elem_of_nil in Hs.
  - constructor.
  - intros s Hs. by apply not_elem_of_nil in Hs.
  - intros s Hs. rewrite lookup_empty in Hs. by apply is_Some_None in Hs.
Qed.

(** ** What a swap promises *)

(** Which driver steps touch the seats, and the tombstones. *)
Lemma driver_seats w k t healthy t' w' :
  swaps_ok w -> swaps w !! k = Some t -> driver_step healthy t w = Some (t', w') ->
  (seats w' = seats w \/
   pc t = Claiming /\ (forall s, s ∈ begun t -> core w !! s = Some Preparing) /\
   (forall p, p ∈ prepared t -> seats w' !! slot_of p = Some p.2) /\
   forall s, s ∉ begun t -> seats w' !! s = seats w !! s) /\
  forall s, core w !! s = Some Tombstone -> core w' !! s = Some Tombstone /\ seats w' !! s = seats w !! s.
Proof.
  intros Hok Hk Hs. pose proof (all_tidy _ Hok k t Hk) as Ht. pose proof (mine_once w k t Hok Hk) as Hnd.
  unfold driver_step in Hs. unfold tidy in Ht. unfold holding in Hnd.
  destruct (pc t) as [[|[e slot] todo]|e slot todo| |displaced done|[|[e i] displaced] done|done|[|slot slots]|[|i instances]|o] eqn:Hpc;
    try (injection Hs as <- <-; split; [by left|intros s0 Hs0; split; [exact Hs0|reflexivity]]).
  - pose proof (begin_spec slot (core w)) as Hb. destruct (begin slot (core w)) as [ok c] eqn:Hbeg.
    assert (forall s, core w !! s = Some Tombstone -> c !! s = Some Tombstone) as Hc.
    { destruct Hb as (Hother & Hyes & Hno). intros s Hs'. destruct (decide (s = slot)) as [->|]; [|by rewrite Hother].
      destruct ok; [by destruct (Hyes eq_refl) as (_ & ? & _)|]. by destruct (Hno eq_refl) as [_ ->]. }
    destruct ok; injection Hs as <- <-; (split; [by left|]; intros s Hs'; split; [by apply Hc|done]).
  - destruct (healthy && _); injection Hs as <- <-; (split; [by left|intros s0 Hs0; split; [exact Hs0|reflexivity]]).
  - destruct (commit_all_with (begun t) (core w)) as [c|] eqn:Hc; [|injection Hs as <- <-; split; [by left|intros s0 Hs0; split; [exact Hs0|reflexivity]]].
    destruct (commit_seats (prepared t) (seats w)) as [displaced s] eqn:Hcs. injection Hs as <- <-.
    destruct Ht as [Hbegun _]. apply NoDup_app in Hnd as (Hnd & _). rewrite Hbegun in Hnd.
    pose proof (commit_seats_spec (prepared t) (seats w) Hnd) as Hspec. rewrite Hcs in Hspec. destruct Hspec as (_ & Hin & Hout & _).
    destruct (commit_all_with_spec _ _ _ Hc) as [Hall Hc']. simpl. split.
    + right. split_and!; [done|done|exact Hin|]. intros x Hx. apply Hout. by rewrite <-Hbegun.
    + intros x Hx. assert (x ∉ begun t) as Hno by (intros Hb; by rewrite Hall in Hx).
      rewrite Hc', decide_False by done. split; [done|]. apply Hout. by rewrite <-Hbegun.
  - injection Hs as <- <-. split; [by left|]. intros s Hs'. simpl. rewrite rollback_spec, decide_False; [done|].
    intros [-> Hp]. congruence.
  - done.
Qed.

(** A step is a driver's, or it seats nobody where somebody is or was disposed. *)
Lemma step_seats w w' :
  swaps_ok w -> step w w' ->
  (exists k t healthy t' w1, swaps w !! k = Some t /\ driver_step healthy t w = Some (t', w1) /\
    core w' = core w1 /\ seats w' = seats w1) \/
  forall s, (core w !! s = Some Tombstone -> core w' !! s = Some Tombstone) /\
    (core w !! s = Some Tombstone \/ is_Some (seats w !! s) -> seats w' !! s = seats w !! s \/ seats w' !! s = None).
Proof.
  intros Hok [old new|k healthy w1 Hs|e pkg w1 Hs|k w1 Hs|e w1 Hs|slot w1 Hs|e w1 Hs].
  - right. intros s. split; [done|by left].
  - unfold swap_step in Hs. destruct (swaps w !! k) as [t|] eqn:Hk; [|done]. simpl in Hs.
    destruct (driver_step healthy t w) as [[t' w2]|] eqn:Hd; [|done]. injection Hs as <-. left. by exists k, t, healthy, t', w2.
  - unfold activate in Hs. destruct (packages w !! pkg) as [hash|]; [|done]. injection Hs as <-. right. intros s. split; [done|by left].
  - unfold install in Hs. destruct (booting w !! k) as [[slot i]|] eqn:Hb; [|done]. simpl in Hs. case_decide as Hd; [done|].
    injection Hs as <-. right. intros s. split; [done|]. intros Hcase. left. simpl. apply lookup_insert_ne. intros <-.
    destruct Hcase as [?|Hsome]; [done|]. destruct (booting_fresh _ Hok slot) as [_ Hn];
      [apply (list_elem_of_fmap_2 fst _ (slot, i)), (list_elem_of_lookup_2 _ _ _ Hb)|].
    rewrite Hn in Hsome. by apply is_Some_None in Hsome.
  - unfold close in Hs. destruct (roster w !! e) as [row|]; [|done]. injection Hs as <-. right. intros s. simpl.
    split; [|by left]. intros Hx. destruct (decide (s = slot_id row)) as [->|]; [apply lookup_insert_eq|by rewrite lookup_insert_ne].
  - unfold take in Hs. destruct (seats w !! slot) as [i|]; [|done]. simpl in Hs. destruct (is_tombstone _ _); [|done].
    injection Hs as <-. right. intros s. simpl. split; [done|]. intros _.
    destruct (decide (s = slot)) as [->|]; [right; apply lookup_delete_eq|left]. by apply lookup_delete_ne.
  - unfold forget in Hs. destruct (roster w !! e); [|done]. simpl in Hs. destruct (_ && _); [|done]. injection Hs as <-.
    right. intros s. split; [done|by left].
Qed.

Lemma nodup_concat_apart {A} (f : Swap -> list A) l i j x y s :
  NoDup (concat (map f l)) -> l !! i = Some x -> l !! j = Some y -> s ∈ f x -> s ∈ f y -> i = j.
Proof.
  revert i j. induction l as [|z l IH]; intros i j Hnd Hi Hj Hx Hy; [done|].
  simpl in Hnd. apply NoDup_app in Hnd as (_ & Hdisj & Hnd).
  assert (forall k u, l !! k = Some u -> s ∈ f u -> s ∈ concat (map f l)) as Hin.
  { intros k u Hk Hu. rewrite (concat_map_take f l k u) by done. apply elem_of_app. by left. }
  destruct i as [|i], j as [|j]; simpl in Hi, Hj; simplify_eq.
  - done.
  - by destruct (Hdisj s Hx); eapply Hin.
  - by destruct (Hdisj s Hy); eapply Hin.
  - f_equal. by eapply IH.
Qed.

(** C25: A swap lands whole or not at all, and a disposal wins. Whatever swaps,
    activations and disposals interleave, a seat is given another instance only
    by the claim of a batch, which seats the prepared instance of every entry of
    the batch in that one step while none of their slots is disposed, and touches
    no other seat; a disposed slot stays so, and its seat is only ever taken.
    No slot is taken by two batches: the slots a batch began and neither
    committed nor rolled back ([holding]) are its own, each once, and preparing
    or disposed. Every instance ever made is in exactly one place. A batch that is over either
    swapped every entry it listed or none, and holds neither an instance nor a
    slot; with none under way no slot is left preparing. *)
Theorem a_swap_lands_whole_or_not_at_all w w' :
  running w -> step w w' ->
  (forall slot old new, seats w !! slot = Some old -> seats w' !! slot = Some new -> new <> old ->
    exists k t, swaps w !! k = Some t /\ pc t = Claiming /\ slot ∈ begun t /\ begun t = map slot_of (prepared t) /\
      entries t = map fst (prepared t) /\
      (forall p, p ∈ prepared t -> core w !! slot_of p = Some Preparing /\ seats w' !! slot_of p = Some p.2) /\
      forall s, s ∉ begun t -> seats w' !! s = seats w !! s) /\
  (forall slot, core w !! slot = Some Tombstone ->
    core w' !! slot = Some Tombstone /\ (seats w' !! slot = seats w !! slot \/ seats w' !! slot = None)) /\
  (forall i j t u s, swaps w' !! i = Some t -> swaps w' !! j = Some u -> s ∈ holding t -> s ∈ holding u ->
    i = j /\ NoDup (holding t) /\ (core w' !! s = Some Preparing \/ core w' !! s = Some Tombstone)) /\
  (owners w' ≡ₚ seq 0 (minted w')) /\
  (forall k t o, swaps w' !! k = Some t -> pc t = Done o ->
    swapped o = (if rolled_back o then [] else map fst (entries t)) /\ held_by t = [] /\ holding t = []) /\
  ((forall t, t ∈ swaps w' -> exists o, pc t = Done o) -> forall s, core w' !! s <> Some Preparing).
Proof.
  intros Hrun Hstep. pose proof (running_ok w Hrun) as Hok. pose proof (world_step_ok w w' Hok Hstep) as Hok'.
  assert (forall k t o, swaps w' !! k = Some t -> pc t = Done o ->
    swapped o = (if rolled_back o then [] else map fst (entries t)) /\ held_by t = [] /\ holding t = []) as Hdone.
  { intros k t o Hk Hpc. pose proof (all_tidy _ Hok' k t Hk) as Ht. unfold tidy in Ht. rewrite Hpc in Ht.
    destruct Ht as [Hp Ho]. unfold held_by, holding. rewrite Hpc, Hp. done. }
  split_and!; [| | |apply Hok'|exact Hdone|].
  - clear Hok' Hdone. intros slot a b Ha Hb Hne.
    destruct (step_seats w w' Hok Hstep) as [(k & t & healthy & t' & w1 & Hk & Hd & _ & Hse)|Hother].
    2:{ destruct (proj2 (Hother slot)) as [?|?]; [right; by eexists|congruence..]. }
    rewrite Hse in *. destruct (driver_seats w k t healthy t' w1 Hok Hk Hd) as [[Heq | (Hpc & Hall & Hin & Hout)] _]; [congruence|].
    pose proof (all_tidy _ Hok k t Hk) as Ht. unfold tidy in Ht. rewrite Hpc in Ht. destruct Ht as [Hbegun Hent].
    exists k, t. split_and!; try done.
    + destruct (decide (slot ∈ begun t)) as [?|Hno]; [done|]. rewrite Hout in Hb by done. congruence.
    + intros p Hp. split; [|by apply Hin]. apply Hall. rewrite Hbegun. by apply list_elem_of_fmap_2.
  - clear Hok' Hdone. intros x Hx.
    destruct (step_seats w w' Hok Hstep) as [(k & t & healthy & t' & w1 & Hk & Hd & Hco & Hse)|Hother].
    + destruct (driver_seats w k t healthy t' w1 Hok Hk Hd) as [_ Hto]. destruct (Hto x Hx).
      rewrite Hco, Hse. split; [done|by left].
    + destruct (Hother x) as [H1 H2]. split; [by apply H1|]. apply H2. by left.
  - intros i j t u s Hi Hj Ht Hu. pose proof (held_once _ Hok') as Hnd.
    split; [by eapply (nodup_concat_apart holding)|].
    rewrite (concat_map_take holding _ i t) in Hnd by done. split; [by apply NoDup_app in Hnd as [? _]|].
    apply (held_phase _ Hok'). rewrite (concat_map_take holding _ i t) by done. apply elem_of_app. by left.
  - intros Hall s Hs. apply (preparing_held _ Hok') in Hs.
    assert (concat (map holding (swaps w')) = []) as Hnil.
    { assert (forall t, t ∈ swaps w' -> holding t = []) as Hh.
      { intros t Ht. destruct (Hall t Ht) as [o Ho]. unfold holding. by rewrite Ho. }
      clear -Hh. induction (swaps w') as [|t l IH]; [done|]. simpl. rewrite Hh by (by left). apply IH. intros u Hu. apply Hh. by right. }
    rewrite Hnil in Hs. by apply not_elem_of_nil in Hs.
Qed.

(** *** It ends *)

(** A bound on the steps a driver has left. *)
Definition left (t : Swap) : nat :=
  match pc t with
  | Beginning todo => 4 * length todo + length (begun t) + length (prepared t) + 6
  | Awaiting _ _ todo => 4 * length todo + length (begun t) + length (prepared t) + 8
  | Claiming => length (begun t) + length (prepared t) + 5
  | Landed displaced _ => length displaced + 3
  | Retiring displaced _ => length displaced + 2
  | Retargeting _ => 1
  | RollingBack slots => length slots + length (prepared t) + 2
  | Discarding instances => length instances + 1
  | Done _ => 0
  end.

Lemma commit_seats_length ps s : length (commit_seats ps s).1 <= length ps.
Proof.
  revert s. induction ps as [|[[e slot] i] ps IH]; intros s; simpl; [lia|]. specialize (IH (<[slot := i]> s)).
  destruct (commit_seats ps (<[slot := i]> s)) as [d s']. simpl in IH. destruct (s !! slot); simpl; lia.
Qed.

Lemma driver_progress healthy t w :
  match driver_step healthy t w with
  | Some (t', _) => left t' < left t
  | None => exists o, pc t = Done o
  end.
Proof.
  unfold driver_step, left.
  destruct (pc t) as [[|[e slot] todo]|e slot todo| |displaced done|[|[e i] displaced] done|done|[|slot slots]|[|i instances]|o] eqn:Hpc;
    simpl; try lia.
  - destruct (begin slot (core w)) as [[|] c]; simpl; rewrite ?length_app; simpl; lia.
  - destruct (healthy && _); simpl; rewrite ?length_app; simpl; lia.
  - destruct (commit_all_with (begun t) (core w)) as [c|]; [|simpl; lia].
    pose proof (commit_seats_length (prepared t) (seats w)) as Hlen.
    destruct (commit_seats (prepared t) (seats w)) as [displaced s]. simpl in *. lia.
  - rewrite length_map. lia.
  - by eexists.
Qed.

(** A run: each step somebody's, marked when it is the driver's own. *)
Inductive run (k : nat) (w : World) : nat -> World -> Prop :=
  | run_here : run k w 0 w
  | run_own n healthy w1 w2 : run k w n w1 -> swap_step k healthy w1 = Some w2 -> run k w (S n) w2
  | run_other n w1 w2 : run k w n w1 -> step w1 w2 -> swaps w2 !! k = swaps w1 !! k -> run k w n w2.

Lemma run_bound k w t n w' :
  swaps w !! k = Some t -> run k w n w' -> exists t', swaps w' !! k = Some t' /\ n + left t' <= left t.
Proof.
  intros Hk Hrun. induction Hrun as [|n healthy w1 w2 _ (t1 & Hk1 & IH) Hs|n w1 w2 _ (t1 & Hk1 & IH) _ Hsame].
  - exists t. split; [done|lia].
  - unfold swap_step in Hs. rewrite Hk1 in Hs. simpl in Hs. pose proof (driver_progress healthy t1 w1) as Hp.
    destruct (driver_step healthy t1 w1) as [[t2 w3]|] eqn:Hd; [|done]. injection Hs as <-. exists t2. simpl. split; [|lia].
    apply list_lookup_insert_eq. rewrite (driver_same_swaps _ _ _ _ _ Hd). by apply lookup_lt_Some in Hk1.
  - exists t1. by rewrite Hsame.
Qed.

(** C26: A swap always ends. Whatever the preparations come to and whatever runs
    in between, a driver takes at most as many steps of its own as four for each
    entry left and one for each slot and instance it holds, and eight; and until
    its batch is over a step of its own is there to take, whatever the
    preparation it awaits comes to. *)
Theorem a_swap_always_ends k w t n w' :
  swaps w !! k = Some t -> run k w n w' ->
  n <= left t /\
  exists t', swaps w' !! k = Some t' /\ ((exists o, pc t' = Done o) \/ forall healthy, is_Some (swap_step k healthy w')).
Proof.
  intros Hk Hrun. destruct (run_bound _ _ _ _ _ Hk Hrun) as (t' & Hk' & Hle). split; [lia|]. exists t'. split; [done|].
  destruct (driver_step true t' w') as [[t1 w1]|] eqn:Hd.
  - right. intros healthy. unfold swap_step. rewrite Hk'. simpl. pose proof (driver_progress healthy t' w') as Hp.
    destruct (driver_step healthy t' w') as [[t2 w2]|]; [by eexists|]. destruct Hp as [o Ho].
    unfold driver_step in Hd. by rewrite Ho in Hd.
  - left. pose proof (driver_progress true t' w') as Hp. by rewrite Hd in Hp.
Qed.

(** ** Examples *)

Module SwapExample.
Definition a : EntryId := MkEntryId "a".
Definition b : EntryId := MkEntryId "b".

(** Two entries of one package, live. *)
Definition booted : option World :=
  let w := MkWorld ∅ ∅ [] ∅ ∅ {[ "chat" := "old" ]} 0 0 [] [] [] [] in
  w ← activate a "chat" w; w ← install 0 w; w ← activate b "chat" w; install 0 w.

(** The driver takes [n] steps of its own. *)
Fixpoint drive (n : nat) (w : World) : option World :=
  match n with O => Some w | S n => w ← swap_step 0 true w; drive n w end.

Definition claimed : option World := w ← booted; drive 5 (start "old" "new" w).
Definition landed : option World := w ← claimed; swap_step 0 true w.

Lemma drive_running n w w' : running w -> drive n w = Some w' -> running w'.
Proof.
  revert w. induction n as [|n IH]; intros w Hw Hd; simpl in Hd; [by injection Hd as <-|].
  destruct (swap_step 0 true w) as [w1|] eqn:Hs; [|done]. eapply IH; [|exact Hd].
  eapply reachable_step; [exact Hw|]. by eapply step_drives.
Qed.

Lemma claimed_running w : claimed = Some w -> running w.
Proof.
  unfold claimed, booted. intros Hc. set (w0 := MkWorld _ _ _ _ _ _ _ _ _ _ _ _) in Hc.
  assert (running w0) as H0 by (apply reachable_init; by eexists).
  destruct (activate a "chat" w0) as [w1|] eqn:H1; [|done]. simpl in Hc.
  destruct (install 0 w1) as [w2|] eqn:H2; [|done]. simpl in Hc.
  destruct (activate b "chat" w2) as [w3|] eqn:H3; [|done]. simpl in Hc.
  destruct (install 0 w3) as [w4|] eqn:H4; [|done]. simpl in Hc.
  eapply (drive_running 5 (start "old" "new" w4)); [|exact Hc].
  eapply reachable_step; [|apply step_starts]. eapply reachable_step; [|by eapply step_installs].
  eapply reachable_step; [|by eapply step_activates]. eapply reachable_step; [|by eapply step_installs].
  eapply reachable_step; [exact H0|by eapply step_activates].
Qed.

(** The claim seats both at once. *)
Lemma a_swap_lands_whole_or_not_at_all_witness :
  exists w w', claimed = Some w /\ landed = Some w' /\ seats w !! 1%Z = Some 0 /\ seats w' !! 1%Z = Some 2 /\
    exists k t, swaps w !! k = Some t /\ pc t = Claiming /\ 1%Z ∈ begun t.
Proof.
  destruct claimed as [w|] eqn:Hc; [|vm_compute in Hc; discriminate Hc].
  destruct landed as [w'|] eqn:Hl; [|vm_compute in Hl; discriminate Hl].
  exists w, w'. assert (step w w') as Hstep.
  { apply (step_drives w 0 true). unfold landed in Hl. rewrite Hc in Hl. exact Hl. }
  destruct (a_swap_lands_whole_or_not_at_all w w' (claimed_running w Hc) Hstep) as [Hwhole _].
  assert (seats w !! 1%Z = Some 0) as H1 by (vm_compute in Hc; injection Hc as <-; vm_compute; reflexivity).
  assert (seats w' !! 1%Z = Some 2) as H2 by (vm_compute in Hl; injection Hl as <-; vm_compute; reflexivity).
  split_and!; [reflexivity|reflexivity|exact H1|exact H2|].
  destruct (Hwhole 1%Z 0 2 H1 H2) as (k & t & Hk & Hpc & Hb & _); [discriminate|]. exists k, t. by split_and!.
Defined.

Definition begun_world : World := default (MkWorld ∅ ∅ [] ∅ ∅ ∅ 0 0 [] [] [] []) (start "old" "new" <$> booted).

Lemma a_swap_always_ends_witness :
  exists t, swaps begun_world !! 0 = Some t /\ left t = 14 /\ 0 <= left t /\
    exists t', swaps begun_world !! 0 = Some t' /\
      ((exists o, pc t' = Done o) \/ forall healthy, is_Some (swap_step 0 healthy begun_world)).
Proof.
  exists (MkSwap "old" "new" [(a, 1%Z); (b, 2%Z)] [] [] (Beginning [(a, 1%Z); (b, 2%Z)])).
  assert (swaps begun_world !! 0 = Some (MkSwap "old" "new" [(a, 1%Z); (b, 2%Z)] [] [] (Beginning [(a, 1%Z); (b, 2%Z)]))) as Hk
    by (vm_compute; reflexivity).
  split_and!; [exact Hk|reflexivity|apply (a_swap_always_ends 0 begun_world _ 0 begun_world Hk (run_here 0 begun_world))..].
Defined.

(** An entry activated between the listing and the retargeting keeps the old
    artifact, while its package says it runs the new one: no later swap of the
    old artifact finds it. *)
Definition late : option World :=
  let w := MkWorld ∅ ∅ [] ∅ ∅ {[ "chat" := "old" ]} 0 0 [] [] [] [] in
  w ← activate a "chat" (start "old" "new" w); w ← install 0 w; drive 5 w.

Example an_entry_can_keep_the_old_artifact :
  (fun w => (seats w !! 1%Z, code w !! 0, packages w !! "chat", entries_pinned_to "old" w)) <$> late =
    Some (Some 0, Some "old", Some "new", [])%string /\
  (fun w => map pc (swaps w)) <$> late = Some [Done (MkOutcome [] false)].
Proof. vm_compute; split; reflexivity. Qed.
End SwapExample.
