(* ===== verification/Wire.v ===== *)
(** * The wire of the host contracts ([jinnd-wasm/src/hostwire.rs],
    [hostfs/wire.rs], [hostcaps.rs], [hostcaps/procnet.rs])

    What the glue of a guest writes and the providers read, and back. A reader
    takes a payload to a value and what is left of it; every read is
    bounds-checked. Whether bytes are UTF-8 is [from_utf8]'s to say. *)

From Stdlib Require Import Ascii.
From stdpp Require Import base list strings pretty.
From S2P Require Import Prelude Api Entries Paths Grants Waits Broker Disk Spill.

(** ** Writing *)

Definition TAG_DATA : Z := 0.
Definition TAG_WOULD_BLOCK : Z := 1.
Definition TAG_EOF : Z := 2.
Definition TAG_TRUNCATED : Z := 3.

(** [u32::try_from(n).unwrap_or(u32::MAX)]. *)
Definition saturated (n : nat) : Z := Z.min (Z.of_nat n) (2 ^ 32 - 1).

Definition put_segment (segment : Bytes) : Bytes := le_bytes 4 (saturated (length segment)) ++ segment.
Definition put_text (s : string) : Bytes := put_segment (as_bytes s).
Definition put_pair (p : string * string) : Bytes := put_text p.1 ++ put_text p.2.

(** [hostcaps.rs]: segments, then a free tail. *)
Definition prefixed (segments : list Bytes) (tail : Bytes) : Bytes := concat (map put_segment segments) ++ tail.

Definition handle_payload (handle : Z) (tail : Bytes) : Bytes := le_bytes 8 handle ++ tail.

Definition encode_spawn (command : string) (args : list string) (cwd : option string) (env : list (string * string)) :
    Bytes :=
  le_bytes 4 (saturated (length args)) ++ le_bytes 4 (saturated (length env)) ++ put_text command ++
  put_text (default ""%string cwd) ++ concat (map put_text args) ++ concat (map put_pair env).

(** [hostcaps/procnet/process.rs]. *)
Definition encode_run (command : string) (args : list string) : Bytes :=
  put_text command ++ concat (map put_text args).

Definition encode_read (outcome : option Bytes) (eof : bool) : Bytes :=
  match outcome with Some data => TAG_DATA :: data | None => if eof then [TAG_EOF] else [TAG_WOULD_BLOCK] end.

Definition encode_handle (handle : Z) : Bytes := le_bytes 8 handle.

Definition encode_body_request (method url : string) (body : Bytes) : Bytes := put_text method ++ put_text url ++ body.

Definition encode_request (method url : string) (headers : list (string * string)) (body : Bytes) : Bytes :=
  le_bytes 4 (saturated (length headers)) ++ put_text method ++ put_text url ++ concat (map put_pair headers) ++ body.

Definition encode_response (status : Z) (headers : list (string * string)) (body : Bytes) : Bytes :=
  le_bytes 4 status ++ le_bytes 4 (saturated (length headers)) ++ concat (map put_pair headers) ++ body.

(** What a key store effect is called ([keystore_label]). *)
Definition keystore_label (operation key : string) (effect : Z) : string :=
  "keystore " +:+ operation +:+ " " +:+ key +:+ " [effect " +:+ pretty effect +:+ "]".

(** ** Reading *)

Abbreviation Reader T := (Bytes -> result (T * Bytes) KernelError).

Section Readers.
Context `{Utf8} (what : string).
Local Open Scope result_scope.

Definition malformed : KernelError := refusal PluginFailed ("malformed " +:+ what +:+ " payload").

(** [take] of [count] bytes. *)
Definition take_bytes (count : nat) : Reader Bytes := fun wire =>
  match split_at count wire with Some (head, rest) => Ok (head, rest) | None => Err malformed end.

Definition read_value (width : nat) : Reader Z := fun wire =>
  let? taken := take_bytes width wire in Ok (le_value taken.1, taken.2).

Definition read_u8 : Reader Z := read_value 1.
Definition read_u32 : Reader Z := read_value 4.
Definition read_u64 : Reader Z := read_value 8.

(** Two's complement. *)
Definition read_i32 : Reader Z := fun wire =>
  let? taken := read_value 4 wire in
  Ok (if decide (taken.1 < 2 ^ 31)%Z then taken.1 else (taken.1 - 2 ^ 32)%Z, taken.2).

Definition read_segment : Reader Bytes := fun wire =>
  let? length := read_u32 wire in take_bytes (Z.to_nat length.1) length.2.

Definition read_text : Reader string := fun wire =>
  let? segment := read_segment wire in
  match from_utf8 segment.1 with Some s => Ok (s, segment.2) | None => Err malformed end.

Definition read_pair : Reader (string * string) := fun wire =>
  let? name := read_text wire in
  let? value := read_text name.2 in
  Ok ((name.1, value.1), value.2).

(** [(0..count).map(read).collect()]. *)
Fixpoint many {T} (read : Reader T) (count : nat) : Reader (list T) := fun wire =>
  match count with
  | O => Ok ([], wire)
  | S count =>
      let? x := read wire in
      let? xs := many read count x.2 in
      Ok (x.1 :: xs.1, xs.2)
  end.

(** [while !wire.is_empty()]; a text takes four bytes at least. *)
Fixpoint texts (fuel : nat) (wire : Bytes) : result (list string) KernelError :=
  match wire, fuel with
  | [], _ => Ok []
  | _, O => Err malformed
  | _, S fuel =>
      let? x := read_text wire in
      let? xs := texts fuel x.2 in
      Ok (x.1 :: xs)
  end.
End Readers.

Section Decoding.
Context `{Utf8}.
Local Open Scope result_scope.

Definition decode_spawn (payload : Bytes) :
    result (string * list string * option string * list (string * string)) KernelError :=
  let what := "process spawn"%string in
  let? argc := read_u32 what payload in
  let? envc := read_u32 what argc.2 in
  let? command := read_text what envc.2 in
  let? cwd := read_text what command.2 in
  let? args := many (read_text what) (Z.to_nat argc.1) cwd.2 in
  let? env := many (read_pair what) (Z.to_nat envc.1) args.2 in
  Ok (command.1, args.1, if decide (cwd.1 = "")%string then None else Some cwd.1, env.1).

Definition decode_run (payload : Bytes) : result (string * list string) KernelError :=
  let what := "process run"%string in
  let? command := read_text what payload in
  let? args := texts what (length command.2) command.2 in
  Ok (command.1, args).

Definition decode_handle (answer : Bytes) : result Z KernelError :=
  let? handle := read_u64 "handle answer" answer in Ok handle.1.

Definition read_answer (answer : Bytes) : result (Z * Bytes) KernelError := read_u8 "read answer" answer.

Definition count_answer (answer : Bytes) : result Z KernelError :=
  let? count := read_u32 "count answer" answer in Ok count.1.

Definition decode_body_request (payload : Bytes) : result (string * string * Bytes) KernelError :=
  let what := "net request"%string in
  let? method := read_text what payload in
  let? url := read_text what method.2 in
  Ok (method.1, url.1, url.2).

Definition decode_request (payload : Bytes) :
    result (string * string * list (string * string) * Bytes) KernelError :=
  let what := "net request"%string in
  let? count := read_u32 what payload in
  let? method := read_text what count.2 in
  let? url := read_text what method.2 in
  let? headers := many (read_pair what) (Z.to_nat count.1) url.2 in
  Ok (method.1, url.1, headers.1, headers.2).

(** A status that is no [u16] reads as its largest. *)
Definition decode_response (answer : Bytes) : result (Z * list (string * string) * Bytes) KernelError :=
  let what := "net response"%string in
  let? status := read_u32 what answer in
  let? count := read_u32 what status.2 in
  let? headers := many (read_pair what) (Z.to_nat count.1) count.2 in
  Ok (Z.min status.1 (2 ^ 16 - 1), headers.1, headers.2).
End Decoding.

(** ** The file provider's codec ([hostfs/wire.rs]) *)

Record FileMeta := MkMeta { meta_path : string; size : Z; modified_ms : Z; is_dir : bool }.

#[export] Instance FileMeta_eq_dec : EqDecision FileMeta.
Proof. solve_decision. Defined.

Definition encode_meta (m : FileMeta) : Bytes :=
  put_text (meta_path m) ++ le_bytes 8 (size m) ++ le_bytes 8 (modified_ms m) ++ [if is_dir m then 1 else 0]%Z.

Definition encode_metas (metas : list FileMeta) : Bytes := concat (map encode_meta metas).

Section FileWire.
Context `{Utf8}.
Local Open Scope result_scope.

(** Its refusals read "malformed fs effect payload" and the like. *)
Definition split_keyed (payload : Bytes) : result (string * string * Bytes) KernelError :=
  let what := "fs effect"%string in
  let? path := read_segment what payload in
  let? key := read_segment what path.2 in
  match from_utf8 path.1, from_utf8 key.1 with
  | Some path, Some k => Ok (path, k, key.2)
  | _, _ => Err (malformed what)
  end.

Definition path_payload (payload : Bytes) (what : string) : result string KernelError :=
  match from_utf8 payload with Some path => Ok path | None => Err (malformed ("fs " +:+ what)) end.

Definition read_meta : Reader FileMeta := fun wire =>
  let what := "fs meta"%string in
  let? path := read_text what wire in
  let? size := read_u64 what path.2 in
  let? modified := read_u64 what size.2 in
  let? dir := read_u8 what modified.2 in
  Ok (MkMeta path.1 size.1 modified.1 (bool_decide (dir.1 <> 0%Z)), dir.2).

Fixpoint metas (fuel : nat) (wire : Bytes) : result (list FileMeta) KernelError :=
  match wire, fuel with
  | [], _ => Ok []
  | _, O => Err (malformed "fs meta")
  | _, S fuel =>
      let? x := read_meta wire in
      let? xs := metas fuel x.2 in
      Ok (x.1 :: xs)
  end.

Definition decode_metas (wire : Bytes) : result (list FileMeta) KernelError := metas (length wire) wire.
End FileWire.

(** ** Reading back *)

(** [from_utf8] answers what the bytes spell. *)
Class Utf8Sound (U : Utf8) : Prop := { as_from_utf8 bytes s : from_utf8 bytes = Some s -> as_bytes s = bytes }.

Definition octets (w : Bytes) : Prop := Forall (fun b => 0 <= b < 256)%Z w.

(** A reader reads what was written of [x], and leaves the rest. *)
Definition reads {T} (read : Reader T) (x : T) (w : Bytes) : Prop := forall rest, read (w ++ rest) = Ok (x, rest).

(** A reader consumes only what [enc] writes. *)
Definition consumes {T} (read : Reader T) (enc : T -> Bytes) : Prop :=
  forall w x rest, octets w -> read w = Ok (x, rest) -> w = enc x ++ rest.

Record pair_sized (p : string * string) : Prop := { name_sized : sized p.1; value_sized : sized p.2 }.

Definition countable {T} (l : list T) : Prop := (Z.of_nat (length l) < 2 ^ 32)%Z.

Lemma octets_app a b : octets (a ++ b) <-> octets a /\ octets b.
Proof. apply Forall_app. Qed.

Lemma saturated_small n : (Z.of_nat n < 2 ^ 32)%Z -> saturated n = Z.of_nat n.
Proof. unfold saturated. lia. Qed.

Lemma le_value_bound w : octets w -> (0 <= le_value w < 256 ^ Z.of_nat (length w))%Z.
Proof.
  induction 1 as [|b w Hb _ IH]; simpl le_value; [simpl; lia|]. cbn [length].
  rewrite Nat2Z.inj_succ, Z.pow_succ_r by lia. simpl. nia.
Qed.

Lemma le_bytes_value w : octets w -> le_bytes (length w) (le_value w) = w.
Proof.
  induction 1 as [|b w Hb Hw IH]; [done|]. simpl. f_equal.
  - rewrite Z.mul_comm, Z_mod_plus_full. by apply Z.mod_small.
  - rewrite Z.mul_comm, Z_div_plus_full, Z.div_small by lia. by rewrite Z.add_0_l.
Qed.

#[local] Opaque le_bytes le_value.

Lemma split_at_Some n w a b : split_at n w = Some (a, b) -> w = a ++ b /\ length a = n.
Proof.
  unfold split_at. destruct (decide (n <= length w)) as [Hn|]; [|done]. intros [= <- <-].
  split; [symmetry; apply take_drop|]. rewrite length_take. lia.
Qed.

Section Written.
Context `{U : Utf8} (what : string).

Lemma reads_bytes w : reads (take_bytes what (length w)) w w.
Proof. intros rest. unfold take_bytes. by rewrite split_at_app. Qed.

Lemma reads_value k n : (0 <= n < 256 ^ Z.of_nat k)%Z -> reads (read_value what k) n (le_bytes k n).
Proof.
  intros Hn rest. unfold read_value, take_bytes. rewrite split_at_app by apply le_bytes_length. simpl.
  by rewrite le_round_trip.
Qed.

Lemma reads_segment w : (Z.of_nat (length w) < 2 ^ 32)%Z -> reads (read_segment what) w (put_segment w).
Proof.
  intros Hw rest. unfold read_segment, put_segment, read_u32. rewrite <-app_assoc, saturated_small by done.
  rewrite reads_value by (change (256 ^ Z.of_nat 4)%Z with (2 ^ 32)%Z; lia). simpl.
  rewrite Nat2Z.id. apply reads_bytes.
Qed.

Lemma reads_text `{!Utf8Laws U} s : sized s -> reads (read_text what) s (put_text s).
Proof.
  intros Hs rest. unfold read_text, put_text. rewrite reads_segment by done. simpl. by rewrite from_as_bytes.
Qed.

Lemma reads_pair `{!Utf8Laws U} p : pair_sized p -> reads (read_pair what) p (put_pair p).
Proof.
  intros [Hn Hv] rest. unfold read_pair, put_pair. rewrite <-app_assoc, reads_text by done. simpl.
  rewrite reads_text by done. by destruct p.
Qed.

Lemma reads_many {T} (read : Reader T) enc l :
  Forall (fun x => reads read x (enc x)) l -> reads (many read (length l)) l (concat (map enc l)).
Proof.
  induction 1 as [|x l Hx _ IH]; intros rest; simpl; [done|]. rewrite <-app_assoc, Hx. simpl. by rewrite IH.
Qed.

Lemma consumes_bytes n : consumes (take_bytes what n) (fun w => w).
Proof.
  intros w x rest _. unfold take_bytes. destruct (split_at n w) as [[a b]|] eqn:Hs; [|done]. intros [= <- <-].
  by apply split_at_Some in Hs as [].
Qed.

Lemma consumes_value k w x rest :
  octets w -> read_value what k w = Ok (x, rest) -> w = le_bytes k x ++ rest /\ (0 <= x < 256 ^ Z.of_nat k)%Z.
Proof.
  unfold read_value, take_bytes. intros Hw. destruct (split_at k w) as [[a b]|] eqn:Hs; [|done]. simpl. intros [= <- <-].
  apply split_at_Some in Hs as [-> <-]. apply octets_app in Hw as [Ha _]. rewrite le_bytes_value by done.
  split; [done|by apply le_value_bound].
Qed.

Lemma consumes_segment : consumes (read_segment what) put_segment.
Proof.
  intros w x rest Hw. unfold read_segment, read_u32. destruct (read_value what 4 w) as [[n w']|] eqn:Hn; [|done].
  simpl. apply consumes_value in Hn as [-> Hn]; [|done]. unfold take_bytes.
  destruct (split_at (Z.to_nat n) w') as [[a b]|] eqn:Hs; [|done]. intros [= <- <-].
  apply split_at_Some in Hs as [-> Hlen]. change (256 ^ Z.of_nat 4)%Z with (2 ^ 32)%Z in Hn. unfold put_segment.
  rewrite saturated_small by lia. rewrite Hlen, Z2Nat.id by lia. by rewrite <-app_assoc.
Qed.

Lemma octets_left {T} (read : Reader T) enc w x rest :
  consumes read enc -> octets w -> read w = Ok (x, rest) -> octets rest.
Proof. intros Hc Hw Hr. pose proof (Hc _ _ _ Hw Hr) as ->. by apply octets_app in Hw as []. Qed.

Lemma octets_value k w x rest : octets w -> read_value what k w = Ok (x, rest) -> octets rest.
Proof. intros Hw Hr. apply consumes_value in Hr as [-> _]; [|done]. by apply octets_app in Hw as []. Qed.

Lemma consumes_text `{!Utf8Sound U} : consumes (read_text what) put_text.
Proof.
  intros w x rest Hw. unfold read_text. destruct (read_segment what w) as [[a b]|] eqn:Hs; [|done]. simpl.
  destruct (from_utf8 a) as [s|] eqn:Hu; [|done]. intros [= <- <-]. unfold put_text.
  rewrite (as_from_utf8 _ _ Hu). by apply consumes_segment.
Qed.

Lemma consumes_pair `{!Utf8Sound U} : consumes (read_pair what) put_pair.
Proof.
  intros w x rest Hw. unfold read_pair. destruct (read_text what w) as [[a b]|] eqn:Ha; [|done]. simpl.
  destruct (read_text what b) as [[c d]|] eqn:Hc; [|done]. intros [= <- <-]. unfold put_pair. simpl.
  pose proof (octets_left _ _ _ _ _ consumes_text Hw Ha) as Hb.
  apply consumes_text in Ha as ->; [|done]. apply consumes_text in Hc as ->; [|done]. by rewrite <-app_assoc.
Qed.

Lemma consumes_many {T} (read : Reader T) enc n w x rest :
  consumes read enc -> octets w -> many read n w = Ok (x, rest) -> w = concat (map enc x) ++ rest /\ length x = n.
Proof.
  intros Hc. revert w x. induction n as [|n IH]; intros w x Hw; simpl; [by intros [= <- <-]|].
  destruct (read w) as [[a b]|] eqn:Ha; [|done]. simpl. destruct (many read n b) as [[c d]|] eqn:Hm; [|done].
  intros [= <- <-]. pose proof (octets_left _ _ _ _ _ Hc Hw Ha) as Hb. apply Hc in Ha as ->; [|done].
  apply IH in Hm as [-> <-]; [|done]. simpl. by rewrite <-app_assoc.
Qed.
End Written.

(** What a reader answers does not depend on what follows. *)
Definition local_read {T} (read : Reader T) : Prop :=
  forall w x rest more, read w = Ok (x, rest) -> read (w ++ more) = Ok (x, rest ++ more).

Ltac local_next H lem :=
  match type of H with
  | context [match ?read ?w with Ok _ => _ | Err _ => _ end] =>
      let E := fresh "E" in
      destruct (read w) as [[? ?]|] eqn:E; [|discriminate H]; cbn [fst snd] in H; rewrite (lem _ _ _ _ E); cbn [fst snd]
  end.

Section Local.
Context `{U : Utf8} (what : string).

Lemma local_bytes n : local_read (take_bytes what n).
Proof.
  intros w x rest more. unfold take_bytes. destruct (split_at n w) as [[a b]|] eqn:Hs; [|done]. intros [= <- <-].
  apply split_at_Some in Hs as [-> <-]. by rewrite <-app_assoc, split_at_app.
Qed.

Lemma local_value k : local_read (read_value what k).
Proof. intros w x rest more H. unfold read_value in *. local_next H (local_bytes k). by injection H as <- <-. Qed.

Lemma local_text : local_read (read_text what).
Proof.
  intros w x rest more H. unfold read_text, read_segment, read_u32 in *.
  destruct (read_value what 4 w) as [[n w']|] eqn:Hn; [|done]. rewrite (local_value _ _ _ _ _ Hn). cbn [fst snd] in *.
  local_next H (local_bytes (Z.to_nat n)). destruct (from_utf8 l); [|done]. by injection H as <- <-.
Qed.

Lemma local_pair : local_read (read_pair what).
Proof. intros w x rest more H. unfold read_pair in *. do 2 local_next H local_text. by injection H as <- <-. Qed.

Lemma local_many {T} (read : Reader T) n : local_read read -> local_read (many read n).
Proof.
  intros Hl. induction n as [|n IH]; intros w x rest more H; simpl in *; [by injection H as <- <-|].
  local_next H Hl. local_next H IH. by injection H as <- <-.
Qed.
End Local.

Lemma local_spawn `{U : Utf8} w x more : decode_spawn w = Ok x -> decode_spawn (w ++ more) = Ok x.
Proof.
  intros H. unfold decode_spawn, read_u32 in *. do 2 local_next H (local_value "process spawn" 4).
  do 2 local_next H (local_text "process spawn").
  local_next H (local_many _ (Z.to_nat z) (local_text "process spawn")).
  local_next H (local_many _ (Z.to_nat z0) (local_pair "process spawn")). done.
Qed.

(** ** The formats *)

Record spawn_ok (command : string) (args : list string) (cwd : option string) (env : list (string * string)) : Prop := {
  spawn_command : sized command;
  spawn_args : Forall sized args;
  spawn_argc : countable args;
  spawn_cwd : forall d, cwd = Some d -> sized d /\ d <> ""%string;
  spawn_env : Forall pair_sized env;
  spawn_envc : countable env;
}.

Record meta_ok (m : FileMeta) : Prop := {
  meta_sized : sized (meta_path m);
  size_u64 : (0 <= size m < 2 ^ 64)%Z;
  modified_u64 : (0 <= modified_ms m < 2 ^ 64)%Z;
}.

Lemma sized_empty : sized "".
Proof. by vm_compute. Qed.

Lemma u32_pow : (256 ^ Z.of_nat 4 = 2 ^ 32)%Z.
Proof. done. Qed.
Lemma u64_pow : (256 ^ Z.of_nat 8 = 2 ^ 64)%Z.
Proof. done. Qed.

Lemma reads_count {T} what (l : list T) : countable l -> reads (read_u32 what) (Z.of_nat (length l)) (le_bytes 4 (saturated (length l))).
Proof. intros Hl. unfold countable in Hl. rewrite saturated_small by done. apply reads_value. rewrite u32_pow. lia. Qed.

Lemma put_text_length s : 4 <= length (put_text s).
Proof. unfold put_text, put_segment. rewrite length_app, le_bytes_length. lia. Qed.

Lemma not_nil_of_length {T} n (l : list T) : S n <= length l -> exists x l', l = x :: l'.
Proof. destruct l; simpl; [lia|eauto]. Qed.

(** The next reader of a decoder reads what was written for it. *)
Ltac reads_next :=
  rewrite <-?app_assoc;
  first [rewrite reads_count by done | rewrite reads_text by (done || apply sized_empty)
        | rewrite (reads_many _ put_text) by (eapply Forall_impl; [eassumption|]; intros; by apply reads_text)
        | rewrite (reads_many _ put_pair) by (eapply Forall_impl; [eassumption|]; intros; by apply reads_pair)];
  simpl; rewrite ?Nat2Z.id.

Section Formats.
Context `{U : Utf8}.

Section Forward.
Context `{!Utf8Laws U}.

Lemma decode_encode_spawn command args cwd env rest :
  spawn_ok command args cwd env -> decode_spawn (encode_spawn command args cwd env ++ rest) = Ok (command, args, cwd, env).
Proof.
  intros []. unfold decode_spawn, encode_spawn. do 3 reads_next.
  destruct cwd as [d|]; simpl; [destruct (spawn_cwd0 d eq_refl) as [Hd Hne]|].
  - do 3 reads_next. by rewrite decide_False.
  - by do 3 reads_next.
Qed.

Lemma texts_written what fuel args :
  Forall sized args -> length (concat (map put_text args)) <= fuel -> texts what fuel (concat (map put_text args)) = Ok args.
Proof.
  intros Ha. revert fuel. induction Ha as [|s args Hs _ IH]; intros fuel Hf; [by destruct fuel|].
  simpl in *. rewrite length_app in Hf. pose proof (put_text_length s) as Hlen.
  destruct (not_nil_of_length 3 (put_text s ++ concat (map put_text args))) as (b & w & Hw); [rewrite length_app; lia|].
  destruct fuel as [|fuel]; [lia|]. cbn [texts]. rewrite Hw. cbn [texts]. rewrite <-Hw, reads_text by done. simpl.
  by rewrite IH by lia.
Qed.

Lemma decode_encode_run command args :
  sized command -> Forall sized args -> decode_run (encode_run command args) = Ok (command, args).
Proof. intros Hc Ha. unfold decode_run, encode_run. reads_next. by rewrite texts_written. Qed.

Lemma decode_encode_body_request method url body :
  sized method -> sized url -> decode_body_request (encode_body_request method url body) = Ok (method, url, body).
Proof. intros Hm Hu. unfold decode_body_request, encode_body_request. by do 2 reads_next. Qed.

Lemma decode_encode_request method url headers body :
  sized method -> sized url -> countable headers -> Forall pair_sized headers ->
  decode_request (encode_request method url headers body) = Ok (method, url, headers, body).
Proof. intros Hm Hu Hc Hh. unfold decode_request, encode_request. by do 4 reads_next. Qed.

Lemma decode_encode_response status headers body :
  (0 <= status < 2 ^ 16)%Z -> countable headers -> Forall pair_sized headers ->
  decode_response (encode_response status headers body) = Ok (status, headers, body).
Proof.
  intros Hs Hc Hh. unfold decode_response, encode_response, read_u32 at 1.
  rewrite reads_value by (rewrite u32_pow; lia). simpl. do 2 reads_next. rewrite Z.min_l by lia. done.
Qed.

Lemma split_prefixed path key data :
  sized path -> sized key -> split_keyed (prefixed [as_bytes path; as_bytes key] data) = Ok (path, key, data).
Proof.
  intros Hp Hk. unfold split_keyed, prefixed. simpl. rewrite <-!app_assoc, reads_segment by done. simpl.
  rewrite reads_segment by done. simpl. by rewrite !from_as_bytes.
Qed.

Lemma reads_meta m : meta_ok m -> reads read_meta m (encode_meta m).
Proof.
  intros [Hp Hs Hm] rest. unfold read_meta, encode_meta, read_u64, read_u8. reads_next.
  rewrite <-?app_assoc, reads_value by (rewrite u64_pow; lia). simpl.
  rewrite <-?app_assoc, reads_value by (rewrite u64_pow; lia). simpl.
  destruct m as [p s t []]; reflexivity.
Qed.

Lemma metas_written fuel ms :
  Forall meta_ok ms -> length (encode_metas ms) <= fuel -> metas fuel (encode_metas ms) = Ok ms.
Proof.
  intros Ha. revert fuel. induction Ha as [|m ms Hm _ IH]; intros fuel Hf; [by destruct fuel|].
  unfold encode_metas in *. simpl in *. rewrite length_app in Hf.
  assert (4 <= length (encode_meta m)) as Hlen
    by (unfold encode_meta; rewrite length_app; pose proof (put_text_length (meta_path m)); lia).
  destruct (not_nil_of_length 3 (encode_meta m ++ concat (map encode_meta ms))) as (b & w & Hw); [rewrite length_app; lia|].
  destruct fuel as [|fuel]; [lia|]. rewrite Hw. cbn [metas]. rewrite <-Hw, reads_meta by done. simpl.
  by rewrite IH by lia.
Qed.

Lemma decode_encode_metas ms : Forall meta_ok ms -> decode_metas (encode_metas ms) = Ok ms.
Proof. intros Hm. by apply metas_written. Qed.

Lemma decode_encode_handle h rest : (0 <= h < 2 ^ 64)%Z -> decode_handle (encode_handle h ++ rest) = Ok h.
Proof. intros Hh. unfold decode_handle, encode_handle, read_u64. by rewrite reads_value by (rewrite u64_pow; lia). Qed.
End Forward.

Section Backward.
Context `{!Utf8Sound U}.

Lemma read_count what w n rest :
  octets w -> read_u32 what w = Ok (n, rest) ->
  w = le_bytes 4 (saturated (Z.to_nat n)) ++ rest /\ octets rest /\ (0 <= n < 2 ^ 32)%Z.
Proof.
  intros Hw Hr. pose proof (octets_value _ _ _ _ _ Hw Hr). apply consumes_value in Hr as [-> Hn]; [|done].
  rewrite u32_pow in Hn. rewrite saturated_small by lia. rewrite Z2Nat.id by lia. done.
Qed.

Lemma read_text_left what w s rest :
  octets w -> read_text what w = Ok (s, rest) -> w = put_text s ++ rest /\ octets rest.
Proof. intros Hw Hr. split; [by eapply consumes_text|]. eapply octets_left; [apply (consumes_text what)|done..]. Qed.

Lemma many_texts_left what n w xs rest :
  octets w -> many (read_text what) n w = Ok (xs, rest) -> w = concat (map put_text xs) ++ rest /\ length xs = n /\ octets rest.
Proof.
  intros Hw Hr. destruct (consumes_many _ put_text _ _ _ _ (consumes_text what) Hw Hr) as [-> Hn].
  by apply octets_app in Hw as [].
Qed.

Lemma many_pairs_left what n w xs rest :
  octets w -> many (read_pair what) n w = Ok (xs, rest) -> w = concat (map put_pair xs) ++ rest /\ length xs = n /\ octets rest.
Proof.
  intros Hw Hr. destruct (consumes_many _ put_pair _ _ _ _ (consumes_pair what) Hw Hr) as [-> Hn].
  by apply octets_app in Hw as [].
Qed.

(** One step of a decoder that succeeded. *)
Ltac next_read H :=
  match type of H with
  | context [match ?read ?w with Ok _ => _ | Err _ => _ end] =>
      let r := fresh "r" in let E := fresh "E" in
      destruct (read w) as [[? ?]|] eqn:E; [|discriminate H]; cbn [fst snd] in H;
      first [apply read_count in E as (-> & ? & ?); [|assumption]
            |apply read_text_left in E as (-> & ?); [|assumption]
            |apply many_texts_left in E as (-> & <- & ?); [|assumption]
            |apply many_pairs_left in E as (-> & <- & ?); [|assumption]]
  end.

Lemma decoded_spawn p command args cwd env :
  octets p -> decode_spawn p = Ok (command, args, cwd, env) -> exists rest, p = encode_spawn command args cwd env ++ rest.
Proof.
  intros Hp Hd. unfold decode_spawn in Hd. do 6 next_read Hd. injection Hd as <- <- <- <-.
  unfold encode_spawn. eexists. rewrite <-!app_assoc. case_decide as Hs; [rewrite Hs|]; simpl; by rewrite <-?app_assoc.
Qed.

Lemma texts_read what fuel w xs : octets w -> texts what fuel w = Ok xs -> w = concat (map put_text xs).
Proof.
  revert w xs. induction fuel as [|fuel IH]; intros w xs Hw Ht; (destruct w as [|b w]; [by injection Ht as <-|]); [done|].
  cbn [texts] in Ht. next_read Ht. destruct (texts what fuel l) as [ys|] eqn:Hys; [|done].
  injection Ht as <-. simpl. f_equal. by apply IH.
Qed.

Lemma decoded_run p command args : octets p -> decode_run p = Ok (command, args) -> p = encode_run command args.
Proof.
  intros Hp Hd. unfold decode_run in Hd. next_read Hd. destruct (texts _ _ _) as [xs|] eqn:Hx; [|done].
  injection Hd as <- <-. unfold encode_run. f_equal. by eapply texts_read.
Qed.

Lemma decoded_body_request p method url body :
  octets p -> decode_body_request p = Ok (method, url, body) -> p = encode_body_request method url body.
Proof. intros Hp Hd. unfold decode_body_request in Hd. do 2 next_read Hd. by injection Hd as <- <- <-. Qed.

Lemma decoded_request p method url headers body :
  octets p -> decode_request p = Ok (method, url, headers, body) -> p = encode_request method url headers body.
Proof.
  intros Hp Hd. unfold decode_request in Hd. do 4 next_read Hd. injection Hd as <- <- <- <-. done.
Qed.

Lemma decoded_keyed p path key data :
  octets p -> split_keyed p = Ok (path, key, data) -> p = prefixed [as_bytes path; as_bytes key] data.
Proof.
  intros Hp Hd. unfold split_keyed in Hd. destruct (read_segment _ p) as [[a w]|] eqn:Ha; [|done]. simpl in Hd.
  destruct (read_segment _ w) as [[b w']|] eqn:Hb; [|done]. simpl in Hd.
  destruct (from_utf8 a) as [s|] eqn:Hs; [|done]. destruct (from_utf8 b) as [k|] eqn:Hk; [|done]. injection Hd as <- <- <-.
  assert (octets w) as Hw by (eapply octets_left; [apply consumes_segment|done..]).
  apply consumes_segment in Ha as ->; [|done]. apply consumes_segment in Hb as ->; [|done].
  rewrite (as_from_utf8 _ _ Hs), (as_from_utf8 _ _ Hk). unfold prefixed. simpl. by rewrite <-!app_assoc.
Qed.
End Backward.

(** What is written of each format is what is read of it. *)
Lemma formats_round_trip `{!Utf8Laws U} :
  (forall command args cwd env, spawn_ok command args cwd env ->
     decode_spawn (encode_spawn command args cwd env) = Ok (command, args, cwd, env)) /\
  (forall command args env, spawn_ok command args None env ->
     decode_spawn (encode_spawn command args (Some "") env) = Ok (command, args, None, env)) /\
  (forall command args, sized command -> Forall sized args ->
     decode_run (encode_run command args) = Ok (command, args)) /\
  (forall method url body, sized method -> sized url ->
     decode_body_request (encode_body_request method url body) = Ok (method, url, body)) /\
  (forall method url headers body, sized method -> sized url -> countable headers -> Forall pair_sized headers ->
     decode_request (encode_request method url headers body) = Ok (method, url, headers, body)) /\
  (forall status headers body, (0 <= status < 2 ^ 16)%Z -> countable headers -> Forall pair_sized headers ->
     decode_response (encode_response status headers body) = Ok (status, headers, body)) /\
  (forall path key data, sized path -> sized key ->
     split_keyed (prefixed [as_bytes path; as_bytes key] data) = Ok (path, key, data)) /\
  (forall ms, Forall meta_ok ms -> decode_metas (encode_metas ms) = Ok ms) /\
  (forall h, (0 <= h < 2 ^ 64)%Z -> decode_handle (encode_handle h) = Ok h).
Proof.
  split_and!; intros.
  - rewrite <-(app_nil_r (encode_spawn _ _ _ _)). by apply decode_encode_spawn.
  - rewrite <-(decode_encode_spawn command args None env []) by done. by rewrite app_nil_r.
  - by apply decode_encode_run.
  - by apply decode_encode_body_request.
  - by apply decode_encode_request.
  - by apply decode_encode_response.
  - by apply split_prefixed.
  - by apply decode_encode_metas.
  - rewrite <-(app_nil_r (encode_handle h)). by apply decode_encode_handle.
Qed.

(** A payload is read only as what it spells. Of any bytes at all, a request
    that decodes is the encoding of what it decoded to, so no two readings share
    a payload; after a spawn something may follow, which is ignored, but a spawn
    cut short anywhere is refused. *)
Theorem what_is_read_was_written `{!Utf8Laws U, !Utf8Sound U} p :
  octets p ->
  (forall command args, decode_run p = Ok (command, args) -> p = encode_run command args) /\
  (forall method url body, decode_body_request p = Ok (method, url, body) -> p = encode_body_request method url body) /\
  (forall method url headers body, decode_request p = Ok (method, url, headers, body) ->
     p = encode_request method url headers body) /\
  (forall path key data, split_keyed p = Ok (path, key, data) -> p = prefixed [as_bytes path; as_bytes key] data) /\
  (forall command args cwd env, decode_spawn p = Ok (command, args, cwd, env) ->
     exists rest, p = encode_spawn command args cwd env ++ rest) /\
  (forall command args cwd env more, spawn_ok command args cwd env ->
     encode_spawn command args cwd env = p ++ more -> more <> [] ->
     exists error, decode_spawn p = Err error).
Proof.
  intros Hp. split_and!.
  - intros command args. by apply decoded_run.
  - intros method url body. by apply decoded_body_request.
  - intros method url headers body. by apply decoded_request.
  - intros path key data. by apply decoded_keyed.
  - intros command args cwd env. by apply decoded_spawn.
  - intros command args cwd env more Hok Hmore Hne.
    destruct (decode_spawn p) as [[[[c a] d] v]|error] eqn:Hd; [|by exists error]. exfalso.
    pose proof (local_spawn _ _ more Hd) as H2. destruct (decoded_spawn _ _ _ _ _ Hp Hd) as [rest ->].
    pose proof (decode_encode_spawn _ _ _ _ [] Hok) as H1. rewrite app_nil_r, Hmore, H2 in H1.
    injection H1 as -> -> -> ->. apply (f_equal length) in Hmore. rewrite !length_app in Hmore.
    destruct more; [done|]. simpl in Hmore. lia.
Qed.
End Formats.

(** ** Examples *)

Module WireExample.
Definition octet (b : Z) : bool := (0 <=? b)%Z && (b <? 256)%Z.

(** Any octets are a text of one character each. *)
#[export] Instance octet_text : Utf8 := fun bytes =>
  if forallb octet bytes then Some (SpillExample.text_of bytes) else None.

Lemma octets_checked w : forallb octet w = true -> octets w.
Proof.
  induction w as [|b w IH]; intros Hw; [by apply Forall_nil|]. simpl in Hw. apply andb_true_iff in Hw as [Hb Hw].
  unfold octet in Hb. apply andb_true_iff in Hb as [H1 H2]. apply Z.leb_le in H1. apply Z.ltb_lt in H2.
  apply Forall_cons. split; [lia|by apply IH].
Qed.

Lemma as_bytes_octets s : forallb octet (as_bytes s) = true.
Proof.
  induction s as [|c s IH]; [done|]. simpl. rewrite IH, andb_true_r. unfold octet.
  pose proof (nat_ascii_bounded c). apply andb_true_iff. split; [apply Z.leb_le|apply Z.ltb_lt]; lia.
Qed.

#[export] Instance octet_text_laws : Utf8Laws octet_text.
Proof.
  split. intros s. unfold from_utf8, octet_text. rewrite as_bytes_octets. f_equal.
  induction s as [|c s IH]; [done|]. simpl. by rewrite IH, Nat2Z.id, ascii_nat_embedding.
Qed.

#[export] Instance octet_text_sound : Utf8Sound octet_text.
Proof.
  split. intros bytes s. unfold from_utf8, octet_text. destruct (forallb octet bytes) eqn:Hb; [|done].
  intros [= <-]. induction bytes as [|b bytes IH]; [done|]. simpl in *. apply andb_true_iff in Hb as [H1 H2].
  rewrite IH by done. f_equal. unfold octet in H1. apply andb_true_iff in H1 as [H1 H3].
  apply Z.leb_le in H1. apply Z.ltb_lt in H3. rewrite nat_ascii_embedding by lia. lia.
Qed.

Definition call : Bytes := encode_spawn "ls" ["-l"] None [("HOME", "/")]%string.

Lemma call_ok : spawn_ok "ls" ["-l"] None [("HOME", "/")]%string.
Proof.
  split; [reflexivity| |reflexivity|discriminate| |reflexivity].
  - apply Forall_cons. split; [reflexivity|by apply Forall_nil].
  - apply Forall_cons. split; [by split|by apply Forall_nil].
Qed.

(** A spawn without its last byte. *)
Lemma what_is_read_was_written_witness :
  octets (take 36 call) /\ call = take 36 call ++ [47]%Z /\ exists error, decode_spawn (take 36 call) = Err error.
Proof.
  assert (octets (take 36 call)) as Ho by (apply octets_checked; vm_compute; reflexivity).
  assert (call = take 36 call ++ [47]%Z) as Hc by (vm_compute; reflexivity).
  split; [exact Ho|]. split; [exact Hc|].
  destruct (what_is_read_was_written (take 36 call) Ho) as (_ & _ & _ & _ & _ & H).
  exact (H "ls"%string ["-l"]%string None [("HOME", "/")]%string [47]%Z call_ok Hc ltac:(discriminate)).
Defined.

(** An empty working directory is none. *)
Example an_empty_directory_is_none : decode_spawn (encode_spawn "ls" [] (Some "") []) = Ok ("ls", [], None, [])%string.
Proof. vm_compute. reflexivity. Qed.

Example a_read_at_the_end : encode_read None true = [2]%Z /\ encode_read (Some [7]%Z) false = [0; 7]%Z.
Proof. split; reflexivity. Qed.

(** An exit code below zero. *)
Example a_signed_exit : read_i32 "wait answer" [255; 255; 255; 255]%Z = Ok (-1, [])%Z.
Proof. vm_compute. reflexivity. Qed.

Example a_short_handle_is_malformed : decode_handle [1; 2; 3]%Z = Err (malformed "handle answer").
Proof. vm_compute. reflexivity. Qed.
End WireExample.
