(* ===== verification/Sha256.v ===== *)
(** * Artifact pinning ([jinnd-wasm/src/sha256.rs], [artifact.rs])

    The digest an artifact is pinned by, as the code computes it (one array of
    64 words reused from block to block, rotations by shifts), and the same
    function as FIPS 180-4 defines it, bit by bit; and the admission of an
    artifact under its pin. *)

From Stdlib Require Import Ascii.
From stdpp Require Import base list strings.
From S2P Require Import Prelude Api Disk Spill Wire.

Local Open Scope Z_scope.

(** ** Words *)

Definition wrapping_add32 (a b : Z) : Z := (a + b) mod 2 ^ 32.
Definition rotate_right (x n : Z) : Z := Z.lor (Z.shiftr x n) (Z.shiftl x (32 - n) mod 2 ^ 32).
(** [!x] of a [u32]. *)
Definition not32 (x : Z) : Z := Z.lxor x (2 ^ 32 - 1).

(** [u32::from_be_bytes], and back; [u64::to_be_bytes]. *)
Definition from_be_bytes (b0 b1 b2 b3 : Z) : Z := b0 * 2 ^ 24 + b1 * 2 ^ 16 + b2 * 2 ^ 8 + b3.
Definition to_be_bytes (n : nat) (x : Z) : Bytes :=
  map (fun k => (x / 2 ^ (8 * Z.of_nat k)) mod 256) (reverse (seq 0 n)).

(** In decimal. *)
Definition K : list Z :=
  [1116352408; 1899447441; 3049323471; 3921009573; 961987163; 1508970993; 2453635748; 2870763221;
   3624381080; 310598401; 607225278; 1426881987; 1925078388; 2162078206; 2614888103; 3248222580;
   3835390401; 4022224774; 264347078; 604807628; 770255983; 1249150122; 1555081692; 1996064986;
   2554220882; 2821834349; 2952996808; 3210313671; 3336571891; 3584528711; 113926993; 338241895;
   666307205; 773529912; 1294757372; 1396182291; 1695183700; 1986661051; 2177026350; 2456956037;
   2730485921; 2820302411; 3259730800; 3345764771; 3516065817; 3600352804; 4094571909; 275423344;
   430227734; 506948616; 659060556; 883997877; 958139571; 1322822218; 1537002063; 1747873779;
   1955562222; 2024104815; 2227730452; 2361852424; 2428436474; 2756734187; 3204031479; 3329325298].

(** The eight working variables, and the eight words of the hash. *)
Record Vars := MkVars { va : Z; vb : Z; vc : Z; vd : Z; ve : Z; vf : Z; vg : Z; vh : Z }.

Definition initial_hash : Vars :=
  MkVars 0x6a09e667 0xbb67ae85 0x3c6ef372 0xa54ff53a 0x510e527f 0x9b05688c 0x1f83d9ab 0x5be0cd19.

(** ** The digest ([digest], [hex_digest]) *)

(** [while message.len() % 64 != 56]. *)
Fixpoint pad_loop (fuel : nat) (message : Bytes) : Bytes :=
  if decide (Z.of_nat (length message) mod 64 = 56) then message
  else match fuel with O => message | S fuel => pad_loop fuel (message ++ [0]) end.

Definition padded (bytes : Bytes) : Bytes :=
  let bit_length := (Z.of_nat (length bytes) * 8) mod 2 ^ 64 in
  pad_loop 64 (bytes ++ [0x80]) ++ to_be_bytes 8 bit_length.

(** The first sixteen words of [w]. *)
Fixpoint load_words (count i : nat) (block : Bytes) (w : list Z) : list Z :=
  match count with
  | O => w
  | S count =>
      let word := from_be_bytes (block !!! (4 * i)%nat) (block !!! (4 * i + 1)%nat) (block !!! (4 * i + 2)%nat)
                    (block !!! (4 * i + 3)%nat) in
      load_words count (S i) block (<[i := word]> w)
  end.

(** [for i in 16..64]. *)
Fixpoint extend_words (count i : nat) (w : list Z) : list Z :=
  match count with
  | O => w
  | S count =>
      let s0 := Z.lxor (Z.lxor (rotate_right (w !!! (i - 15)%nat) 7) (rotate_right (w !!! (i - 15)%nat) 18))
                  (Z.shiftr (w !!! (i - 15)%nat) 3) in
      let s1 := Z.lxor (Z.lxor (rotate_right (w !!! (i - 2)%nat) 17) (rotate_right (w !!! (i - 2)%nat) 19))
                  (Z.shiftr (w !!! (i - 2)%nat) 10) in
      extend_words count (S i)
        (<[i := wrapping_add32 (wrapping_add32 (wrapping_add32 (w !!! (i - 16)%nat) s0) (w !!! (i - 7)%nat)) s1]> w)
  end.

(** One turn of the compression loop. *)
Definition round (k w : Z) (v : Vars) : Vars :=
  let s1 := Z.lxor (Z.lxor (rotate_right (ve v) 6) (rotate_right (ve v) 11)) (rotate_right (ve v) 25) in
  let ch := Z.lxor (Z.land (ve v) (vf v)) (Z.land (not32 (ve v)) (vg v)) in
  let temp1 := wrapping_add32 (wrapping_add32 (wrapping_add32 (wrapping_add32 (vh v) s1) ch) k) w in
  let s0 := Z.lxor (Z.lxor (rotate_right (va v) 2) (rotate_right (va v) 13)) (rotate_right (va v) 22) in
  let maj := Z.lxor (Z.lxor (Z.land (va v) (vb v)) (Z.land (va v) (vc v))) (Z.land (vb v) (vc v)) in
  let temp2 := wrapping_add32 s0 maj in
  MkVars (wrapping_add32 temp1 temp2) (va v) (vb v) (vc v) (wrapping_add32 (vd v) temp1) (ve v) (vf v) (vg v).

Fixpoint rounds (count i : nat) (w : list Z) (v : Vars) : Vars :=
  match count with O => v | S count => rounds count (S i) w (round (K !!! i) (w !!! i) v) end.

Definition add_vars (h v : Vars) : Vars :=
  MkVars (wrapping_add32 (va h) (va v)) (wrapping_add32 (vb h) (vb v)) (wrapping_add32 (vc h) (vc v))
    (wrapping_add32 (vd h) (vd v)) (wrapping_add32 (ve h) (ve v)) (wrapping_add32 (vf h) (vf v))
    (wrapping_add32 (vg h) (vg v)) (wrapping_add32 (vh h) (vh v)).

(** One block; the array of words outlives it. *)
Definition block_step (s : list Z * Vars) (block : Bytes) : list Z * Vars :=
  let w := extend_words 48 16 (load_words 16 0 block s.1) in
  (w, add_vars s.2 (rounds 64 0 w s.2)).

(** [chunks_exact(64)]: what does not fill a chunk is dropped. *)
Fixpoint chunks_exact (fuel : nat) (message : Bytes) : list Bytes :=
  match fuel with
  | O => []
  | S fuel =>
      if decide (64 <= length message)%nat then take 64 message :: chunks_exact fuel (drop 64 message) else []
  end.

Definition words_of (v : Vars) : list Z := [va v; vb v; vc v; vd v; ve v; vf v; vg v; vh v].

Definition digest (bytes : Bytes) : Bytes :=
  let message := padded bytes in
  let '(_, h) := fold_left block_step (chunks_exact (length message) message) (replicate 64 0, initial_hash) in
  concat (map (to_be_bytes 4) (words_of h)).

(** One digit of [{octet:02x}]. *)
Definition hex_digit (n : Z) : ascii := ascii_of_nat (Z.to_nat (if decide (n < 10) then 48 + n else 87 + n)).

Fixpoint hex (bytes : Bytes) : string :=
  match bytes with
  | [] => EmptyString
  | b :: bytes => String (hex_digit (b / 16)) (String (hex_digit (b mod 16)) (hex bytes))
  end.

Definition hex_digest (bytes : Bytes) : string := hex (digest bytes).

(** ** Admission ([artifact.rs]) *)

Record PinnedArtifact := MkPinned { pin : string; pinned_bytes : Bytes }.

Definition mismatch : KernelError :=
  MkKernelError InvalidProfile "artifact hash mismatch: refused (Law 5 pin-by-hash)" None.

Definition refused_detail (expected actual : string) : string := "pinned " +:+ expected +:+ ", artifact is " +:+ actual.

(** The answer and the row appended. *)
Definition admit_artifact (bytes : Bytes) (expected : string) : result PinnedArtifact KernelError * LedgerEventKind :=
  let actual := hex_digest bytes in
  if decide (actual <> expected) then (Err mismatch, ArtifactRefused (refused_detail expected actual))
  else (Ok (MkPinned actual bytes), ArtifactLoaded actual).

Example the_empty_message :
  hex_digest [] = "e3b0c44298fc1c149afbf4c8996fb92427ae41e4649b934ca495991b7852b855"%string.
Proof. vm_compute. reflexivity. Qed.

(** ** FIPS 180-4

    The functions of the standard, bit by bit. *)

Module Fips.
Fixpoint bits_from (count : nat) (i : Z) (f : Z -> bool) : Z :=
  match count with O => 0 | S count => Z.b2z (f i) + 2 * bits_from count (i + 1) f end.

(** The 32-bit word with these bits. *)
Definition word_of (f : Z -> bool) : Z := bits_from 32 0 f.

Definition ROTR (n x : Z) : Z := word_of (fun i => Z.testbit x ((i + n) mod 32)).
Definition SHR (n x : Z) : Z := word_of (fun i => Z.testbit x (i + n)).
Definition XOR (x y : Z) : Z := word_of (fun i => xorb (Z.testbit x i) (Z.testbit y i)).
Definition Ch (x y z : Z) : Z := word_of (fun i => if Z.testbit x i then Z.testbit y i else Z.testbit z i).
Definition Maj (x y z : Z) : Z :=
  word_of (fun i =>
    let '(a, b, c) := (Z.testbit x i, Z.testbit y i, Z.testbit z i) in (a && b) || (a && c) || (b && c)).
Definition Sigma0 (x : Z) : Z := XOR (XOR (ROTR 2 x) (ROTR 13 x)) (ROTR 22 x).
Definition Sigma1 (x : Z) : Z := XOR (XOR (ROTR 6 x) (ROTR 11 x)) (ROTR 25 x).
Definition sigma0 (x : Z) : Z := XOR (XOR (ROTR 7 x) (ROTR 18 x)) (SHR 3 x).
Definition sigma1 (x : Z) : Z := XOR (XOR (ROTR 17 x) (ROTR 19 x)) (SHR 10 x).

(** Addition modulo [2^32], of any number of words. *)
Definition sum (xs : list Z) : Z := fold_right Z.add 0 xs mod 2 ^ 32.

(** The message, a one bit, the least number of zero bits, its length in 64
    bits: here in octets. *)
Definition zeros (l : Z) : nat := Z.to_nat ((55 - l) mod 64).
Definition pad (message : Bytes) : Bytes :=
  message ++ [0x80] ++ replicate (zeros (Z.of_nat (length message))) 0 ++
  to_be_bytes 8 (8 * Z.of_nat (length message) mod 2 ^ 64).

Definition block (message : Bytes) (k : nat) : Bytes := take 64 (drop (64 * k) message).
Definition blocks (message : Bytes) : list Bytes := map (block message) (seq 0 (length message / 64)).

Definition word (b : Bytes) (t : nat) : Z :=
  from_be_bytes (b !!! (4 * t)%nat) (b !!! (4 * t + 1)%nat) (b !!! (4 * t + 2)%nat) (b !!! (4 * t + 3)%nat).

(** [W_0 .. W_(n-1)]. *)
Fixpoint schedule (b : Bytes) (n : nat) : list Z :=
  match n with
  | O => []
  | S t =>
      let W := schedule b t in
      W ++ [if decide (t < 16)%nat then word b t
            else sum [sigma1 (W !!! (t - 2)%nat); W !!! (t - 7)%nat; sigma0 (W !!! (t - 15)%nat); W !!! (t - 16)%nat]]
  end.

(** The constants: the first 32 bits of the fractional parts of the cube roots
    of the first 64 primes, and for the first hash of the square roots of the
    first eight. *)
Definition primes : list Z :=
  filter (fun n => forallb (fun d => negb (n mod d =? 0)) (seqZ 2 (n - 2)) = true) (seqZ 2 320).

(** The integer [k]-th root, bit by bit. *)
Fixpoint root_bits (bits : nat) (k n r : Z) : Z :=
  match bits with
  | O => r
  | S b => let r' := r + 2 ^ Z.of_nat b in root_bits b k n (if r' ^ k <=? n then r' else r)
  end.

Definition fraction (k p : Z) : Z := root_bits 36 k (p * 2 ^ (32 * k)) 0 mod 2 ^ 32.

Definition constants : list Z := map (fraction 3) (take 64 primes).

Definition first_hash : Vars :=
  let H := map (fraction 2) (take 8 primes) in
  MkVars (H !!! 0%nat) (H !!! 1%nat) (H !!! 2%nat) (H !!! 3%nat) (H !!! 4%nat) (H !!! 5%nat) (H !!! 6%nat) (H !!! 7%nat).

Definition step (v : Vars) (kw : Z * Z) : Vars :=
  let T1 := sum [vh v; Sigma1 (ve v); Ch (ve v) (vf v) (vg v); kw.1; kw.2] in
  let T2 := sum [Sigma0 (va v); Maj (va v) (vb v) (vc v)] in
  MkVars (sum [T1; T2]) (va v) (vb v) (vc v) (sum [vd v; T1]) (ve v) (vf v) (vg v).

Definition compress (h : Vars) (b : Bytes) : Vars :=
  let v := fold_left step (combine constants (schedule b 64)) h in
  MkVars (sum [va v; va h]) (sum [vb v; vb h]) (sum [vc v; vc h]) (sum [vd v; vd h])
    (sum [ve v; ve h]) (sum [vf v; vf h]) (sum [vg v; vg h]) (sum [vh v; vh h]).

Definition SHA256 (message : Bytes) : Bytes :=
  concat (map (to_be_bytes 4) (words_of (fold_left compress (blocks (pad message)) first_hash))).
End Fips.

(** The two tables of the code are those of the standard. *)
Lemma K_constants : K = Fips.constants.
Proof. by vm_compute. Qed.

Lemma initial_first_hash : initial_hash = Fips.first_hash.
Proof. by vm_compute. Qed.

(** ** Bits *)

Definition is_word (x : Z) : Prop := 0 <= x < 2 ^ 32.

Lemma bits_from_testbit (count : nat) : forall i f n,
  0 <= n -> Z.testbit (Fips.bits_from count i f) n = if decide (n < Z.of_nat count) then f (i + n) else false.
Proof.
  induction count as [|count IH]; intros i f n Hn; cbn [Fips.bits_from].
  - rewrite Z.testbit_0_l. by rewrite decide_False by lia.
  - rewrite Z.add_comm. destruct (decide (n = 0)) as [E|E].
    + subst n. rewrite Z.testbit_0_r, decide_True by lia. by rewrite Z.add_0_r.
    + replace n with (Z.succ (n - 1)) by lia. rewrite Z.testbit_succ_r by lia. rewrite IH by lia.
      replace (i + 1 + (n - 1)) with (i + Z.succ (n - 1)) by lia.
      destruct (decide (n - 1 < Z.of_nat count)), (decide (Z.succ (n - 1) < Z.of_nat (S count))); done || lia.
Qed.

Lemma word_of_testbit f n : 0 <= n < 32 -> Z.testbit (Fips.word_of f) n = f n.
Proof. intros Hn. unfold Fips.word_of. rewrite bits_from_testbit by lia. rewrite decide_True by lia. f_equal. Qed.

Lemma is_word_high x n : is_word x -> 32 <= n -> Z.testbit x n = false.
Proof. intros Hx Hn. rewrite <-(Z.mod_small x (2 ^ 32)) by done. apply Z.mod_pow2_bits_high. lia. Qed.

Lemma word_of_high f n : 32 <= n -> Z.testbit (Fips.word_of f) n = false.
Proof. intros Hn. unfold Fips.word_of. rewrite bits_from_testbit by lia. by rewrite decide_False by lia. Qed.

(** A number without high bits is the word of its low ones. *)
Lemma word_of_eq x f :
  (forall n, 32 <= n -> Z.testbit x n = false) -> (forall n, 0 <= n < 32 -> Z.testbit x n = f n) -> x = Fips.word_of f.
Proof.
  intros Hh Hl. apply Z.bits_inj'. intros n Hn. destruct (decide (n < 32)).
  - rewrite word_of_testbit by lia. apply Hl. lia.
  - by rewrite Hh, word_of_high by lia.
Qed.

Lemma high_is_word x : 0 <= x -> (forall n, 32 <= n -> Z.testbit x n = false) -> is_word x.
Proof.
  intros Hx Hh. split; [done|]. destruct (decide (x < 2 ^ 32)) as [|Hn]; [done|].
  assert (x mod 2 ^ 32 = x) as <-; [|by apply Z.mod_pos_bound].
  apply Z.bits_inj'. intros j Hj. destruct (decide (j < 32)); [apply Z.mod_pow2_bits_low; lia|].
  rewrite Z.mod_pow2_bits_high by lia. by rewrite Hh by lia.
Qed.

Lemma bits_from_nonneg (count : nat) : forall i f, 0 <= Fips.bits_from count i f.
Proof.
  induction count as [|count IH]; intros i f; cbn [Fips.bits_from]; [done|].
  specialize (IH (i + 1) f). destruct (f i); simpl; lia.
Qed.

Lemma word_of_is_word f : is_word (Fips.word_of f).
Proof. apply high_is_word; [apply bits_from_nonneg|apply word_of_high]. Qed.

Lemma rotate_right_ROTR x n : is_word x -> 0 < n < 32 -> rotate_right x n = Fips.ROTR n x.
Proof.
  intros Hx Hn. apply word_of_eq; intros i Hi; unfold rotate_right; rewrite Z.lor_spec, Z.shiftr_spec by lia.
  - rewrite is_word_high by (done || lia). by rewrite Z.mod_pow2_bits_high by lia.
  - rewrite Z.mod_pow2_bits_low, Z.shiftl_spec by lia. destruct (decide (i + n < 32)).
    + rewrite (Z.testbit_neg_r x (i - (32 - n))) by lia. by rewrite orb_false_r, Z.mod_small by lia.
    + rewrite (is_word_high x (i + n)) by (done || lia). simpl. f_equal.
      rewrite <-(Z_mod_plus_full (i + n) (-1) 32). rewrite Z.mod_small; lia.
Qed.

Lemma shiftr_SHR x n : is_word x -> 0 <= n -> Z.shiftr x n = Fips.SHR n x.
Proof.
  intros Hx Hn. apply word_of_eq; intros i Hi; rewrite Z.shiftr_spec by lia; [|done]. apply is_word_high; [done|lia].
Qed.

Lemma lxor_XOR x y : is_word x -> is_word y -> Z.lxor x y = Fips.XOR x y.
Proof.
  intros Hx Hy. apply word_of_eq; intros i Hi; rewrite Z.lxor_spec; [|done].
  by rewrite !is_word_high by (done || lia).
Qed.

Lemma not32_testbit x i : 0 <= i < 32 -> Z.testbit (not32 x) i = negb (Z.testbit x i).
Proof.
  intros Hi. unfold not32. rewrite Z.lxor_spec. replace (2 ^ 32 - 1) with (Z.ones 32) by done.
  rewrite Z.ones_spec_low by lia. by destruct (Z.testbit x i).
Qed.

Lemma ch_Ch e f g : is_word f -> is_word g -> Z.lxor (Z.land e f) (Z.land (not32 e) g) = Fips.Ch e f g.
Proof.
  intros Hf Hg. apply word_of_eq; intros i Hi; rewrite Z.lxor_spec, !Z.land_spec.
  - by rewrite (is_word_high f), (is_word_high g), !andb_false_r by (done || lia).
  - rewrite not32_testbit by done. by destruct (Z.testbit e i), (Z.testbit f i), (Z.testbit g i).
Qed.

Lemma maj_Maj a b c :
  is_word b -> is_word c -> Z.lxor (Z.lxor (Z.land a b) (Z.land a c)) (Z.land b c) = Fips.Maj a b c.
Proof.
  intros Hb Hc. apply word_of_eq; intros i Hi; rewrite !Z.lxor_spec, !Z.land_spec.
  - by rewrite (is_word_high b), (is_word_high c), !andb_false_r by (done || lia).
  - by destruct (Z.testbit a i), (Z.testbit b i), (Z.testbit c i).
Qed.

(** ** Sums *)

Lemma wrapping_add32_comm a b : wrapping_add32 a b = Fips.sum [b; a].
Proof. unfold wrapping_add32, Fips.sum. simpl. f_equal. lia. Qed.

Lemma sum_is_word xs : is_word (Fips.sum xs).
Proof. apply Z.mod_pos_bound. done. Qed.

(** A chain of wrapping additions is one sum. *)
Lemma wrapping_add32_sum xs b : wrapping_add32 (Fips.sum xs) b = Fips.sum (xs ++ [b]).
Proof.
  unfold wrapping_add32, Fips.sum. rewrite Zplus_mod_idemp_l. f_equal. induction xs as [|x xs IH]; simpl; lia.
Qed.

Lemma sum_two a b : wrapping_add32 a b = Fips.sum [a; b].
Proof. unfold wrapping_add32, Fips.sum. simpl. f_equal. lia. Qed.

Lemma sum_four a b c d : wrapping_add32 (wrapping_add32 (wrapping_add32 a b) c) d = Fips.sum [a; b; c; d].
Proof. by rewrite (sum_two a b), !wrapping_add32_sum. Qed.

Lemma sum_five a b c d e :
  wrapping_add32 (wrapping_add32 (wrapping_add32 (wrapping_add32 a b) c) d) e = Fips.sum [a; b; c; d; e].
Proof. by rewrite (sum_four a b c d), wrapping_add32_sum. Qed.

Lemma sum_Permutation xs ys : xs ≡ₚ ys -> Fips.sum xs = Fips.sum ys.
Proof. intros Hp. unfold Fips.sum. f_equal. induction Hp; simpl; lia. Qed.

(** ** The schedule *)

Lemma xor_three a b c :
  is_word a -> is_word b -> is_word c -> Z.lxor (Z.lxor a b) c = Fips.XOR (Fips.XOR a b) c.
Proof. intros Ha Hb Hc. rewrite (lxor_XOR a b) by done. apply lxor_XOR; [apply word_of_is_word|done]. Qed.


Lemma length_schedule b n : length (Fips.schedule b n) = n.
Proof. induction n as [|n IH]; [done|]. simpl. rewrite length_app, IH. simpl. lia. Qed.

Lemma lookup_total_octet b i : octets b -> 0 <= b !!! i < 256.
Proof.
  intros Hb. destruct (decide (i < length b)%nat).
  - by apply (Forall_lookup_total_1 _ _ _ Hb).
  - rewrite list_lookup_total_alt, lookup_ge_None_2 by lia. done.
Qed.

Lemma word_is_word b t : octets b -> is_word (Fips.word b t).
Proof.
  intros Hb. unfold Fips.word, from_be_bytes, is_word. pose proof (fun i => lookup_total_octet b i Hb) as H.
  pose proof (H (4 * t)%nat). pose proof (H (4 * t + 1)%nat). pose proof (H (4 * t + 2)%nat).
  pose proof (H (4 * t + 3)%nat). lia.
Qed.

Lemma schedule_words b n : octets b -> Forall is_word (Fips.schedule b n).
Proof.
  intros Hb. induction n as [|n IH]; [constructor|]. cbn [Fips.schedule]. apply Forall_app. split; [done|].
  constructor; [|constructor]. destruct (decide (n < 16)%nat); [by apply word_is_word|apply sum_is_word].
Qed.

Lemma lookup_total_take (l : list Z) n i : (i < n)%nat -> take n l !!! i = l !!! i.
Proof. intros Hi. rewrite !list_lookup_total_alt. by rewrite lookup_take_lt. Qed.

Lemma take_S_insert (l : list Z) i x : (i < length l)%nat -> take (S i) (<[i := x]> l) = take i l ++ [x].
Proof.
  intros Hi. rewrite (take_S_r _ _ x) by by apply list_lookup_insert_eq. by rewrite take_insert_ge.
Qed.

(** The words in place are those of the schedule so far; the rest of the array
    is whatever the last block left there. *)
Definition holds_schedule (b : Bytes) (i : nat) (w : list Z) : Prop :=
  length w = 64%nat /\ take i w = Fips.schedule b i.

Lemma load_words_schedule b count : forall i w,
  (i + count <= 16)%nat -> holds_schedule b i w -> holds_schedule b (i + count) (load_words count i b w).
Proof.
  induction count as [|count IH]; intros i w Hc [Hl Hw]; cbn [load_words].
  - rewrite Nat.add_0_r. by split.
  - rewrite Nat.add_succ_r, <-Nat.add_succ_l. apply IH; [lia|]. split; [by rewrite length_insert|].
    rewrite take_S_insert by lia. cbn [Fips.schedule]. rewrite Hw. by rewrite decide_True by lia.
Qed.

Lemma schedule_lookup_word b i w j :
  octets b -> holds_schedule b i w -> (j < i)%nat -> (i <= 64)%nat -> is_word (w !!! j) /\ w !!! j = Fips.schedule b i !!! j.
Proof.
  intros Hb [Hl Hw] Hj Hi. rewrite <-Hw, lookup_total_take by done. split; [|done].
  rewrite <-(lookup_total_take w i j) by done. rewrite Hw.
  apply (Forall_lookup_total_1 is_word); [by apply schedule_words|]. by rewrite length_schedule.
Qed.

Lemma sigma0_eq x : is_word x -> Z.lxor (Z.lxor (rotate_right x 7) (rotate_right x 18)) (Z.shiftr x 3) = Fips.sigma0 x.
Proof.
  intros Hx. rewrite !rotate_right_ROTR, shiftr_SHR by (done || lia). unfold Fips.sigma0.
  apply xor_three; apply word_of_is_word.
Qed.

Lemma sigma1_eq x : is_word x -> Z.lxor (Z.lxor (rotate_right x 17) (rotate_right x 19)) (Z.shiftr x 10) = Fips.sigma1 x.
Proof.
  intros Hx. rewrite !rotate_right_ROTR, shiftr_SHR by (done || lia). unfold Fips.sigma1.
  apply xor_three; apply word_of_is_word.
Qed.

Lemma extend_words_schedule b count : octets b -> forall i w,
  (16 <= i)%nat -> (i + count <= 64)%nat -> holds_schedule b i w -> holds_schedule b (i + count) (extend_words count i w).
Proof.
  intros Hb. induction count as [|count IH]; intros i w Hi Hc Hw; cbn [extend_words].
  - by rewrite Nat.add_0_r.
  - rewrite Nat.add_succ_r, <-Nat.add_succ_l. apply IH; [lia|lia|]. pose proof Hw as [Hl Ht].
    split; [by rewrite length_insert|].
    rewrite take_S_insert by lia. cbn [Fips.schedule]. rewrite Ht, decide_False by lia. do 2 f_equal.
    destruct (schedule_lookup_word b i w (i - 15) Hb Hw) as [H15 E15]; [lia|lia|].
    destruct (schedule_lookup_word b i w (i - 2) Hb Hw) as [H2 E2]; [lia|lia|].
    destruct (schedule_lookup_word b i w (i - 16) Hb Hw) as [H16 E16]; [lia|lia|].
    destruct (schedule_lookup_word b i w (i - 7) Hb Hw) as [H7 E7]; [lia|lia|].
    rewrite sigma0_eq, sigma1_eq by done. rewrite E15, E2, E16, E7.
    rewrite sum_four. apply sum_Permutation. simpl. solve_Permutation.
Qed.

(** ** The rounds *)

Definition vars_words (v : Vars) : Prop :=
  is_word (va v) /\ is_word (vb v) /\ is_word (vc v) /\ is_word (vd v) /\
  is_word (ve v) /\ is_word (vf v) /\ is_word (vg v) /\ is_word (vh v).

Lemma Sigma0_eq x :
  is_word x -> Z.lxor (Z.lxor (rotate_right x 2) (rotate_right x 13)) (rotate_right x 22) = Fips.Sigma0 x.
Proof.
  intros Hx. rewrite !rotate_right_ROTR by (done || lia). unfold Fips.Sigma0.
  apply xor_three; apply word_of_is_word.
Qed.

Lemma Sigma1_eq x :
  is_word x -> Z.lxor (Z.lxor (rotate_right x 6) (rotate_right x 11)) (rotate_right x 25) = Fips.Sigma1 x.
Proof.
  intros Hx. rewrite !rotate_right_ROTR by (done || lia). unfold Fips.Sigma1.
  apply xor_three; apply word_of_is_word.
Qed.

Lemma round_step k w v : vars_words v -> round k w v = Fips.step v (k, w).
Proof.
  intros (Ha & Hb & Hc & Hd & He & Hf & Hg & Hh). unfold round, Fips.step. cbn [fst snd].
  rewrite Sigma0_eq, Sigma1_eq, ch_Ch, maj_Maj by done. by rewrite (sum_five (vh v)), !sum_two.
Qed.

Lemma step_words v kw : vars_words v -> vars_words (Fips.step v kw).
Proof.
  intros (Ha & Hb & Hc & Hd & He & Hf & Hg & Hh). unfold vars_words, Fips.step. cbn [va vb vc vd ve vf vg vh].
  do 7 (split; [done || apply sum_is_word|]). exact Hg.
Qed.

Lemma drop_total (l : list Z) i : (i < length l)%nat -> drop i l = l !!! i :: drop (S i) l.
Proof. intros Hi. apply drop_S. by apply list_lookup_lookup_total_lt. Qed.

Lemma rounds_steps (w : list Z) (count : nat) : length w = 64%nat -> forall i v,
  (i + count = 64)%nat -> vars_words v ->
  rounds count i w v = fold_left Fips.step (combine (drop i K) (drop i w)) v /\ vars_words (rounds count i w v).
Proof.
  intros Hl. induction count as [|count IH]; intros i v Hi Hv; cbn [rounds].
  - replace i with 64%nat by lia. rewrite (drop_ge w) by lia. by destruct (drop 64 K).
  - rewrite (drop_total K), (drop_total w) by (rewrite ?Hl; cbn [length K]; lia). cbn [combine fold_left].
    rewrite <-round_step by done. apply IH; [lia|]. rewrite round_step by done. by apply step_words.
Qed.

Lemma block_step_compress w h b :
  octets b -> length w = 64%nat -> vars_words h ->
  (block_step (w, h) b).2 = Fips.compress h b /\ length (block_step (w, h) b).1 = 64%nat /\
  vars_words (block_step (w, h) b).2.
Proof.
  intros Hb Hw Hh. unfold block_step. cbn [fst snd].
  assert (holds_schedule b 16 (load_words 16 0 b w)) as Hload by by apply (load_words_schedule b 16 0 w).
  pose proof (extend_words_schedule b 48 Hb 16 _ ltac:(lia) ltac:(lia) Hload) as [Hl Ht].
  revert Hl Ht. generalize (extend_words 48 16 (load_words 16 0 b w)). clear w Hw Hload. intros w Hl Ht.
  rewrite take_ge in Ht by lia. change (16 + 48)%nat with 64%nat in Ht.
  pose proof (rounds_steps w 64 Hl 0 h eq_refl Hh) as [Hr Hv]. rewrite !drop_0 in Hr. subst w.
  unfold Fips.compress. rewrite <-K_constants, <-Hr. revert Hv. clear Hr. generalize (rounds 64 0 (Fips.schedule b 64) h). intros v Hv.
  split; [|split; [done|]]; unfold add_vars; rewrite !wrapping_add32_comm; [done|].
  repeat split; apply sum_is_word.
Qed.

Lemma blocks_compress bs : Forall octets bs -> forall w h,
  length w = 64%nat -> vars_words h -> (fold_left block_step bs (w, h)).2 = fold_left Fips.compress bs h.
Proof.
  induction 1 as [|b bs Hb _ IH]; intros w h Hw Hh; [done|]. cbn [fold_left].
  destruct (block_step_compress w h b Hb Hw Hh) as (E & Hl & Hv).
  destruct (block_step (w, h) b) as [w' h']. cbn in *. rewrite <-E. by apply IH.
Qed.

(** ** Padding and blocks *)

Definition zeros_before (n : nat) : nat := Z.to_nat ((56 - Z.of_nat n) mod 64).

Lemma zeros_before_done n : Z.of_nat n mod 64 = 56 <-> zeros_before n = 0%nat.
Proof. unfold zeros_before. split; intros H; Z.to_euclidean_division_equations; lia. Qed.

Lemma zeros_before_more n : Z.of_nat n mod 64 <> 56 -> zeros_before n = S (zeros_before (S n)).
Proof. unfold zeros_before. intros H. Z.to_euclidean_division_equations. lia. Qed.

Lemma zeros_before_bound n : (zeros_before n < 64)%nat.
Proof. unfold zeros_before. pose proof (Z.mod_pos_bound (56 - Z.of_nat n) 64). lia. Qed.

Lemma pad_loop_zeros fuel : forall message,
  (zeros_before (length message) <= fuel)%nat ->
  pad_loop fuel message = message ++ replicate (zeros_before (length message)) 0.
Proof.
  induction fuel as [|fuel IH]; intros message Hf; cbn [pad_loop]; destruct (decide _) as [E|E].
  - rewrite (proj1 (zeros_before_done _) E). by rewrite app_nil_r.
  - destruct E. apply zeros_before_done. lia.
  - rewrite (proj1 (zeros_before_done _) E). by rewrite app_nil_r.
  - rewrite zeros_before_more in Hf |- * by done. cbn [replicate].
    rewrite IH; rewrite length_app, Nat.add_1_r; [by rewrite <-app_assoc|lia].
Qed.

Lemma padded_pad bytes : padded bytes = Fips.pad bytes.
Proof.
  unfold padded, Fips.pad. rewrite pad_loop_zeros by (apply Nat.lt_le_incl, zeros_before_bound).
  rewrite <-!app_assoc. do 3 f_equal.
  - f_equal. unfold zeros_before, Fips.zeros. rewrite length_app. simpl. f_equal. f_equal. lia.
  - do 2 f_equal. lia.
Qed.

Lemma length_to_be_bytes n x : length (to_be_bytes n x) = n.
Proof. unfold to_be_bytes. by rewrite length_map, length_reverse, length_seq. Qed.

Lemma octets_to_be_bytes n x : octets (to_be_bytes n x).
Proof.
  apply Forall_forall. intros y (k & -> & _)%list_elem_of_fmap. apply Z.mod_pos_bound. lia.
Qed.

Lemma octets_pad bytes : octets bytes -> octets (Fips.pad bytes).
Proof.
  intros Hb. unfold Fips.pad. rewrite !octets_app. split; [done|]. split; [by repeat constructor|].
  split; [|apply octets_to_be_bytes]. apply Forall_replicate. lia.
Qed.

Lemma chunks_exact_blocks fuel : forall m, (length m <= fuel)%nat -> chunks_exact fuel m = Fips.blocks m.
Proof.
  induction fuel as [|fuel IH]; intros m Hm; cbn [chunks_exact].
  - destruct m; [done|simpl in Hm; lia].
  - unfold Fips.blocks. destruct (decide (64 <= length m)%nat) as [Hl|Hl].
    + rewrite IH by (rewrite length_drop; lia). unfold Fips.blocks. rewrite length_drop.
      assert (length m / 64 = S ((length m - 64) / 64))%nat as ->.
      { replace (length m) with ((length m - 64) + 1 * 64)%nat at 1 by lia. rewrite Nat.div_add by lia. lia. }
      cbn [seq map]. rewrite <-seq_shift, map_map. f_equal. apply map_ext. intros k. unfold Fips.block.
      rewrite drop_drop. do 2 f_equal. lia.
    + by rewrite Nat.div_small by lia.
Qed.

Lemma octets_blocks m : octets m -> Forall octets (Fips.blocks m).
Proof.
  intros Hm. apply Forall_forall. intros b (k & -> & _)%list_elem_of_fmap. apply Forall_take, Forall_drop, Hm.
Qed.

Lemma pad_multiple bytes : exists n, length (Fips.pad bytes) = (n * 64)%nat.
Proof.
  unfold Fips.pad, Fips.zeros. rewrite !length_app, length_replicate, length_to_be_bytes. cbn [length].
  generalize (length bytes). intros l. exists (Z.to_nat ((Z.of_nat l + 9 + (55 - Z.of_nat l) mod 64) / 64)).
  Z.to_euclidean_division_equations. lia.
Qed.

(** The padded message is whole blocks: nothing of it is dropped. *)
Lemma pad_whole bytes : (Fips.pad bytes = concat (Fips.blocks (Fips.pad bytes))).
Proof.
  destruct (pad_multiple bytes) as [n Hn].
  revert Hn. generalize (Fips.pad bytes). unfold Fips.blocks. clear bytes. induction n as [|n IH]; intros m Hn.
  - by destruct m.
  - rewrite Hn, Nat.div_mul by lia. cbn [seq map concat]. unfold Fips.block at 1. cbn [Nat.mul].
    rewrite drop_0. rewrite <-(take_drop 64 m) at 1. f_equal. rewrite (IH (drop 64 m)) at 1 by (rewrite length_drop; lia).
    rewrite length_drop, Hn. replace (S n * 64 - 64)%nat with (n * 64)%nat by lia. rewrite Nat.div_mul by lia.
    rewrite <-seq_shift, map_map. f_equal. apply map_ext. intros k. unfold Fips.block. rewrite drop_drop. do 2 f_equal. lia.
Qed.

(** C38: the digest an artifact is pinned by is SHA-256 as FIPS 180-4 defines it:
    for every string of octets, whatever the array of words held from the
    block before, the code's rotations, shifts and wrapping sums give the
    words of the standard, with the constants taken from the roots of the first
    primes, and the text is its hexadecimal. Of the padded message
    no octet is left out of the blocks. *)
Theorem the_digest_is_sha256 (bytes : Bytes) :
  octets bytes ->
  digest bytes = Fips.SHA256 bytes /\ hex_digest bytes = hex (Fips.SHA256 bytes) /\
  concat (chunks_exact (length (padded bytes)) (padded bytes)) = padded bytes.
Proof.
  intros Hb. assert (digest bytes = Fips.SHA256 bytes) as E.
  2: { split; [done|]. split; [by rewrite <-E|]. rewrite chunks_exact_blocks, padded_pad by done. by rewrite <-pad_whole. }
  unfold digest, Fips.SHA256. rewrite <-initial_first_hash, padded_pad, chunks_exact_blocks by done.
  pose proof (blocks_compress (Fips.blocks (Fips.pad bytes)) (octets_blocks _ (octets_pad _ Hb)) (replicate 64 0) initial_hash
    eq_refl ltac:(by repeat split)) as H.
  destruct (fold_left block_step _ _) as [w h]. cbn in H. by rewrite H.
Qed.

(** ** Admission *)

Lemma hex_digit_inj a b : 0 <= a < 16 -> 0 <= b < 16 -> hex_digit a = hex_digit b -> a = b.
Proof.
  intros Ha Hb He. unfold hex_digit in He. apply (f_equal nat_of_ascii) in He.
  rewrite !nat_ascii_embedding in He by (repeat destruct (decide _); lia).
  repeat destruct (decide _); lia.
Qed.

Lemma hex_inj xs : octets xs -> forall ys, octets ys -> hex xs = hex ys -> xs = ys.
Proof.
  induction 1 as [|x xs Hx _ IH]; intros [|y ys] Hys He; simpl in He; try done.
  apply Forall_cons in Hys as [Hy Hys]. injection He as H1 H2 He. f_equal; [|by apply IH].
  assert (x / 16 = y / 16) by (apply hex_digit_inj; [..|done]; Z.to_euclidean_division_equations; lia).
  assert (x mod 16 = y mod 16) by (apply hex_digit_inj; [..|done]; Z.to_euclidean_division_equations; lia).
  Z.to_euclidean_division_equations. lia.
Qed.

Lemma octets_digest bytes : octets (digest bytes).
Proof.
  unfold digest. destruct (fold_left _ _ _) as [w h]. unfold words_of. cbn [map concat].
  rewrite !octets_app. repeat split; try apply octets_to_be_bytes. constructor.
Qed.

(** An artifact is admitted when its digest is the pin, its bytes as they were,
    and otherwise refused; the one row says which. Two artifacts admitted under
    one pin have one digest. *)
Theorem admitted_under_its_pin (bytes : Bytes) (expected : string) :
  match admit_artifact bytes expected with
  | (Ok p, row) =>
      hex_digest bytes = expected /\ p = MkPinned expected bytes /\ row = ArtifactLoaded expected /\
      (forall bytes' p' row', admit_artifact bytes' expected = (Ok p', row') -> digest bytes' = digest bytes)
  | (Err e, row) =>
      hex_digest bytes <> expected /\ e = mismatch /\ row = ArtifactRefused (refused_detail expected (hex_digest bytes))
  end.
Proof.
  unfold admit_artifact. destruct (decide (hex_digest bytes <> expected)) as [|E]; [done|].
  apply dec_stable in E. subst expected. do 3 (split; [done|]). intros bytes' p' row'.
  destruct (decide (hex_digest bytes' <> hex_digest bytes)) as [|E]; [done|]. intros _.
  apply dec_stable in E. by apply hex_inj in E; [|apply octets_digest..].
Qed.

(** ** The vectors of the standard *)

Module Sha256Example.
Definition abc : Bytes := as_bytes "abc".
Definition two_blocks : Bytes := as_bytes "abcdbcdecdefdefgefghfghighijhijkijkljklmklmnlmnomnopnopq".

Example the_digest_of_abc :
  hex_digest abc = "ba7816bf8f01cfea414140de5dae2223b00361a396177a9cb410ff61f20015ad"%string.
Proof. vm_compute. reflexivity. Qed.

Example the_digest_of_two_blocks :
  hex_digest two_blocks = "248d6a61d20638b8e5c026930c3e6039a33ce45964ff2167f6ecedd419db06c1"%string.
Proof. vm_compute. reflexivity. Qed.

Example the_digest_at_the_split :
  hex_digest (replicate 55 0x61) = "9f4390f8d30c2dd92ec9f095b65e2b9ae9b0a925a5258e241c9f1e910f734318"%string.
Proof. vm_compute. reflexivity. Qed.

Lemma the_digest_is_sha256_witness :
  octets two_blocks /\ digest two_blocks = Fips.SHA256 two_blocks /\
  (length (chunks_exact (length (padded two_blocks)) (padded two_blocks)) = 2)%nat.
Proof.
  assert (octets two_blocks) as H by by repeat constructor.
  split; [exact H|]. split; [exact (proj1 (the_digest_is_sha256 two_blocks H))|]. vm_compute. reflexivity.
Defined.
End Sha256Example.
