(* ===== verification/Handles.v ===== *)
(** * Handle tables ([jinnd-wasm/src/hostbase.rs])

    The core a provider that mints handles shares: rows keyed by handle and
    owned by the peer they were minted for, the broker's word on who calls and
    under what authority, and the refusal of another peer's handle. *)

From stdpp Require Import base gmap sets list strings pretty.
From S2P Require Import Prelude Api Grants Broker.

(** ** What a provider asks of the broker *)

(** The two questions, for whoever keeps the broker: a provider holds it
    weakly. *)
Class Callers := {
  caller_fiber : PeerId -> option FiberId;
  caller_policy : PeerId -> string -> option GrantScope;
}.

(** The broker's answers; none when it is gone or was never attached. *)
Definition callers_of {Callable Target} (broker : option (@Broker Callable Target)) : Callers := {|
  caller_fiber := fun peer => b ← broker; attribution peer b;
  caller_policy := fun peer contract => b ← broker; policy peer contract b;
|}.

(** ** The table *)

(** [trait Owned]. *)
Class Owned (T : Type) := owner_of : T -> PeerId.

Abbreviation Rows := (list (LedgerEventKind * option FiberId)).

Section Provider.
Context {T : Type} `{Owned T} `{Callers}.

Record ProviderCore := MkCore { sink : Rows; contract : string; table : gmap Z T; next_handle : Z }.

Definition new_core (contract : string) : ProviderCore := MkCore [] contract ∅ 0.

Definition record_row (kind : LedgerEventKind) (fiber : option FiberId) (c : ProviderCore) : ProviderCore :=
  MkCore (sink c ++ [(kind, fiber)]) (contract c) (table c) (next_handle c).

Definition attribution_of (caller : PeerId) : option FiberId := caller_fiber caller.

Definition policy_of (caller : PeerId) (c : ProviderCore) : option GrantScope := caller_policy caller (contract c).

Definition refuse (caller : PeerId) (reason : RefusalReason) (text : string) (c : ProviderCore) :
    KernelError * ProviderCore :=
  (refusal EffectFailed text,
   record_row (GrantRefused (contract c) reason (Some text)) (attribution_of caller) c).

(** [fetch_add(1) + 1]; [fetch_max]. *)
Definition mint_handle (c : ProviderCore) : Z * ProviderCore :=
  ((next_handle c + 1)%Z, MkCore (sink c) (contract c) (table c) ((next_handle c + 1) mod 2 ^ 64)%Z).

Definition seed (floor : Z) (c : ProviderCore) : ProviderCore :=
  MkCore (sink c) (contract c) (table c) (Z.max (next_handle c) floor).

Definition insert_row (handle : Z) (row : T) (c : ProviderCore) : ProviderCore :=
  MkCore (sink c) (contract c) (<[handle := row]> (table c)) (next_handle c).

Definition remove_row (handle : Z) (c : ProviderCore) : option T * ProviderCore :=
  (table c !! handle, MkCore (sink c) (contract c) (delete handle (table c)) (next_handle c)).

Definition held_rows (c : ProviderCore) : nat := size (table c).

Definition foreign_text (handle : Z) (c : ProviderCore) : string :=
  contract c +:+ " handle " +:+ pretty handle +:+ " is not the caller's".

Definition unknown_handle (handle : Z) (c : ProviderCore) : KernelError :=
  refusal NotFound ("unknown " +:+ contract c +:+ " handle " +:+ pretty handle).

(** [ProviderCore::row]. *)
Definition row_for (caller : PeerId) (handle : Z) (c : ProviderCore) : result T KernelError * ProviderCore :=
  match table c !! handle with
  | Some row =>
      if decide (owner_of row = caller) then (Ok row, c)
      else let '(error, c) := refuse caller ForeignHandle (foreign_text handle c) c in (Err error, c)
  | None => (Err (unknown_handle handle c), c)
  end.

(** ** What a lookup comes to *)

(** A handle answers its owner's row and nothing else: another peer's use is
    one row on the record, an unknown handle none. *)
Lemma row_for_cases caller handle c :
  match row_for caller handle c with
  | (Ok row, c') => table c !! handle = Some row /\ owner_of row = caller /\ c' = c
  | (Err error, c') =>
      (table c !! handle = None /\ code error = NotFound /\ c' = c) \/
      exists row, table c !! handle = Some row /\ owner_of row <> caller /\
        c' = record_row (GrantRefused (contract c) ForeignHandle (Some (foreign_text handle c)))
               (caller_fiber caller) c
  end.
Proof.
  unfold row_for. destruct (table c !! handle) as [row|]; [|by left].
  destruct (decide (owner_of row = caller)); [done|]. cbn. right. by exists row.
Qed.
End Provider.

Arguments ProviderCore : clear implicits.
