(* ===== verification/Streams.v ===== *)
(** * The streams of a child ([jinnd-wasm/src/hostprocess/ring.rs], [stream.rs],
    [collector.rs])

    A bounded ring between a pipe and the calls that read or write it, the task
    that moves bytes on the other side, and the signals that resume it. Every
    critical section is one move, and moves interleave as they like. *)

From stdpp Require Import base list strings relations.
From S2P Require Import Prelude Api Broker Disk.

Definition STREAM_CAP : nat := 64 * 1024.
(** One read of a pump, one take of a feeder or a collector. *)
Definition CHUNK : nat := 8192.
Definition RUN_OUTPUT_CAP : Z := 2 ^ 20.

(** ** The ring ([ring.rs]) *)

Record Ring := MkRing { data : Bytes; closed : bool; cap : nat }.

Definition new_ring (cap : nat) : Ring := MkRing [] false cap.

Definition ring_offer (bytes : Bytes) (r : Ring) : nat * Ring :=
  if closed r then (0, r)
  else
    let accepted := Nat.min (cap r - length (data r)) (length bytes) in
    (accepted, MkRing (data r ++ take accepted bytes) (closed r) (cap r)).

Definition ring_take (max : nat) (r : Ring) : (Bytes * bool) * Ring :=
  let count := Nat.min max (length (data r)) in
  let rest := drop count (data r) in
  ((take count (data r), closed r && bool_decide (rest = [])), MkRing rest (closed r) (cap r)).

Definition ring_close (r : Ring) : Ring := MkRing (data r) true (cap r).

Definition full (r : Ring) : Prop := cap r <= length (data r).

(** ** An output stream ([Stream], [pump], [Collector]) *)

(** Where the pump is: at its read; with the bytes it has yet to offer, before
    the offer, before [ready.notify_one], at [is_closed], at [notified] and
    asleep there or woken; closing, about to notify, over with its verdict; gone
    at a closed ring or aborted, with the bytes it still held. *)
Inductive Pump :=
  | Reading
  | Offering (held : Bytes)
  | Notifying (held : Bytes)
  | Checking (held : Bytes)
  | Awaiting (held : Bytes)
  | Parked (held : Bytes)
  | Woken (held : Bytes)
  | Closing (verdict : result () string)
  | Announcing (verdict : result () string)
  | Ended (verdict : result () string)
  | Stopped (held : Bytes)
  | Aborted (held : Bytes).

(** The collector of a run: before its take; after it, with whether it took
    anything and the flag; at [readable], asleep or woken; over. *)
Inductive Drain :=
  | NoCollector
  | Draining
  | Took (some eof : bool)
  | AtReadable
  | Sleeping
  | Resumed
  | Drained
  | Overflow.

(** What a call has still to do after its critical section: a take that made
    room notifies [space]; a release notifies [ready] and then [space]. *)
Inductive Notice := Space | ReadyThenSpace.

Record Output := MkOutput {
  ring : Ring;
  space : bool;
  ready : bool;
  pump : Pump;
  drain : Drain;
  notices : list Notice;
  collected : Bytes;
  pumped : Bytes;
  taken : Bytes;
}.

Definition new_output : Output :=
  MkOutput (new_ring STREAM_CAP) false false Reading NoCollector [] [] [] [].

(** [Collector::start]. *)
Definition new_collector : Output :=
  MkOutput (new_ring STREAM_CAP) false false Reading Draining [] [] [] [].

Definition set_ring (r : Ring) (s : Output) : Output :=
  MkOutput r (space s) (ready s) (pump s) (drain s) (notices s) (collected s) (pumped s) (taken s).
Definition set_space (b : bool) (s : Output) : Output :=
  MkOutput (ring s) b (ready s) (pump s) (drain s) (notices s) (collected s) (pumped s) (taken s).
Definition set_ready (b : bool) (s : Output) : Output :=
  MkOutput (ring s) (space s) b (pump s) (drain s) (notices s) (collected s) (pumped s) (taken s).
Definition set_pump (p : Pump) (s : Output) : Output :=
  MkOutput (ring s) (space s) (ready s) p (drain s) (notices s) (collected s) (pumped s) (taken s).
Definition set_drain (d : Drain) (s : Output) : Output :=
  MkOutput (ring s) (space s) (ready s) (pump s) d (notices s) (collected s) (pumped s) (taken s).
Definition set_notices (ns : list Notice) (s : Output) : Output :=
  MkOutput (ring s) (space s) (ready s) (pump s) (drain s) ns (collected s) (pumped s) (taken s).
Definition got (bytes : Bytes) (s : Output) : Output :=
  MkOutput (ring s) (space s) (ready s) (pump s) (drain s) (notices s) (collected s) (pumped s) (taken s ++ bytes).
Definition collect (bytes : Bytes) (s : Output) : Output :=
  MkOutput (ring s) (space s) (ready s) (pump s) (drain s) (notices s) (collected s ++ bytes) (pumped s) (taken s).
Definition read_in (bytes : Bytes) (s : Output) : Output :=
  MkOutput (ring s) (space s) (ready s) (pump s) (drain s) (notices s) (collected s) (pumped s ++ bytes) (taken s).

(** [Notify::notify_one]: wakes the one task asleep there, or keeps a permit. *)
Definition notify_space (s : Output) : Output :=
  match pump s with Parked held => set_pump (Woken held) s | _ => set_space true s end.
Definition notify_ready (s : Output) : Output :=
  match drain s with Sleeping => set_drain Resumed s | _ => set_ready true s end.

(** One critical section of [pump]; [input] is what the pipe answers a read:
    no byte is its end. *)
Definition pump_turn (input : result Bytes string) (s : Output) : option Output :=
  match pump s with
  | Reading =>
      match input with
      | Ok [] => Some (set_pump (Closing (Ok ())) s)
      | Ok bytes => if decide (length bytes <= CHUNK) then Some (set_pump (Offering bytes) (read_in bytes s)) else None
      | Err error => Some (set_pump (Closing (Err error)) s)
      end
  | Offering held | Woken held =>
      let '(accepted, r) := ring_offer held (ring s) in
      Some (set_pump (Notifying (drop accepted held)) (set_ring r s))
  | Notifying held =>
      Some (notify_ready (set_pump (match held with [] => Reading | _ => Checking held end) s))
  | Checking held => Some (set_pump (if closed (ring s) then Stopped held else Awaiting held) s)
  | Awaiting held =>
      Some (if space s then set_pump (Offering held) (set_space false s) else set_pump (Parked held) s)
  | Closing verdict => Some (set_pump (Announcing verdict) (set_ring (ring_close (ring s)) s))
  | Announcing verdict => Some (notify_ready (set_pump (Ended verdict) s))
  | Parked _ | Ended _ | Stopped _ | Aborted _ => None
  end.

(** A read of the guest ([Stream::take]): the ring, then [space] if it took
    anything. *)
Definition guest_take (max : nat) (s : Output) : (Bytes * bool) * Output :=
  let '((bytes, eof), r) := ring_take max (ring s) in
  ((bytes, eof),
   set_notices (notices s ++ match bytes with [] => [] | _ => [Space] end) (got bytes (set_ring r s))).

(** [Stream::release], its close. *)
Definition guest_release (s : Output) : Output :=
  set_notices (notices s ++ [ReadyThenSpace]) (set_ring (ring_close (ring s)) s).

(** The next thing the call holding the [i]-th notice does. *)
Definition serve_notice (i : nat) (s : Output) : option Output :=
  match notices s !! i with
  | None => None
  | Some Space => Some (notify_space (set_notices (delete i (notices s)) s))
  | Some ReadyThenSpace => Some (notify_ready (set_notices (<[i := Space]> (notices s)) s))
  end.

(** One critical section of [Collector::drain]. *)
Definition drain_turn (s : Output) : option Output :=
  match drain s with
  | Draining | Resumed =>
      let '((bytes, eof), r) := ring_take CHUNK (ring s) in
      Some (set_drain (Took (negb (bool_decide (bytes = []))) eof) (collect bytes (got bytes (set_ring r s))))
  | Took some eof =>
      let s := if some then notify_space s else s in
      Some (set_drain
        (if decide (RUN_OUTPUT_CAP < Z.of_nat (length (collected s)))%Z then Overflow
         else if (eof : bool) then Drained else AtReadable) s)
  | AtReadable => Some (if ready s then set_drain Draining (set_ready false s) else set_drain Sleeping s)
  | NoCollector | Sleeping | Drained | Overflow => None
  end.

Definition held_by (p : Pump) : Bytes :=
  match p with
  | Offering held | Notifying held | Checking held | Awaiting held | Parked held | Woken held | Stopped held
  | Aborted held => held
  | Reading | Closing _ | Announcing _ | Ended _ => []
  end.

(** [Collector::cut]: the pump aborted and awaited, the stream closed. *)
Definition cut (s : Output) : Output :=
  let p := match pump s with Ended verdict => Ended verdict | p => Aborted (held_by p) end in
  notify_ready (set_pump p (set_ring (ring_close (ring s)) s)).

(** [Collector::finish]: the pump's own verdict; the pump is over. *)
Definition collector_error (error : string) : KernelError :=
  refusal PluginFailed ("process run stdout collector: " +:+ error).
Definition collector_task_error (error : string) : KernelError :=
  refusal PluginFailed ("process run stdout collector task: " +:+ error).

Definition finish (joined : string) (s : Output) : option (result Bytes KernelError) :=
  match pump s with
  | Ended (Ok _) | Stopped _ => Some (Ok (collected s))
  | Ended (Err error) => Some (Err (collector_error error))
  | Aborted _ => Some (Err (collector_task_error joined))
  | _ => None
  end.

Inductive Move := Pumps (input : result Bytes string) | Takes (max : nat) | Releases | Serves (i : nat) | Drains | Cuts.

(** A stream is read by the calls of a guest or by one collector, never both. *)
Definition move (m : Move) (s : Output) : option Output :=
  match m, drain s with
  | Pumps input, _ => pump_turn input s
  | Serves i, _ => serve_notice i s
  | Takes max, NoCollector => Some (guest_take max s).2
  | Releases, NoCollector => Some (guest_release s)
  | Drains, _ => drain_turn s
  | Cuts, NoCollector => None
  | Cuts, _ => Some (cut s)
  | _, _ => None
  end.

Definition output_init (s : Output) : Prop := s = new_output \/ s = new_collector.
Definition output_step (s s' : Output) : Prop := exists m, move m s = Some s'.
Definition output_running : Output -> Prop := reachable output_init output_step.

(** A run of moves, for concrete traces. *)
Fixpoint moves (ms : list Move) (s : Output) : option Output :=
  match ms with [] => Some s | m :: ms => match move m s with Some s => moves ms s | None => None end end.

Lemma CHUNK_pos : 0 < CHUNK.
Proof. apply Nat.ltb_lt. vm_compute. reflexivity. Qed.
Lemma STREAM_CAP_pos : 0 < STREAM_CAP.
Proof. apply Nat.ltb_lt. vm_compute. reflexivity. Qed.
#[global] Opaque STREAM_CAP CHUNK.

(** ** What always holds of an output stream *)

(** Somebody is about to notify [space]. *)
Definition owed_space (ns : list Notice) (d : Drain) : bool :=
  match ns, d with [], Took true _ => true | [], _ => false | _, _ => true end.

Section PumpOk.
Context (r : Ring) (permit owed : bool).

(** A pump that could not offer everything will be resumed: by a permit, by a
    call that is about to notify, or by the read that makes room. *)
Definition resumable : Prop := full r \/ permit = true \/ owed = true.

Definition pump_ok (p : Pump) : Prop :=
  match p with
  | Offering held | Woken held => held <> []
  | Notifying held => held = [] \/ resumable \/ closed r = true
  | Checking held => held <> [] /\ (resumable \/ closed r = true)
  | Awaiting held => held <> [] /\ resumable /\ (closed r = true -> permit = true \/ owed = true)
  | Parked held =>
      held <> [] /\ permit = false /\ (full r \/ owed = true) /\ (closed r = true -> owed = true)
  | Announcing _ | Ended _ | Stopped _ => closed r = true
  | Reading | Closing _ | Aborted _ => True
  end.
End PumpOk.

(** What the collector has is what was taken, and it stops at its cap. *)
Definition drain_ok (r : Ring) (got all : Bytes) (d : Drain) : Prop :=
  match d with
  | NoCollector => got = []
  | Took _ eof =>
      got = all /\ (Z.of_nat (length got) <= RUN_OUTPUT_CAP + Z.of_nat CHUNK)%Z /\
      (eof = true -> closed r = true /\ data r = [])
  | Drained =>
      got = all /\ (Z.of_nat (length got) <= RUN_OUTPUT_CAP)%Z /\ closed r = true /\ data r = []
  | Overflow =>
      got = all /\ (RUN_OUTPUT_CAP < Z.of_nat (length got) <= RUN_OUTPUT_CAP + Z.of_nat CHUNK)%Z
  | Draining | AtReadable | Sleeping | Resumed => got = all /\ (Z.of_nat (length got) <= RUN_OUTPUT_CAP)%Z
  end.

(** With a collector nobody else closes the ring, so a closed ring means a pump
    that reached the end of its pipe, or a cut. *)
Definition closed_ok (r : Ring) (d : Drain) (p : Pump) : Prop :=
  d <> NoCollector -> closed r = true -> match p with Announcing _ | Ended _ | Aborted _ => True | _ => False end.

Record output_ok (s : Output) : Prop := {
  in_order : pumped s = taken s ++ data (ring s) ++ held_by (pump s);
  capacity : cap (ring s) = STREAM_CAP;
  within : length (data (ring s)) <= STREAM_CAP;
  pumping : pump_ok (ring s) (space s) (owed_space (notices s) (drain s)) (pump s);
  draining : drain_ok (ring s) (collected s) (taken s) (drain s);
  closing : closed_ok (ring s) (drain s) (pump s);
}.

Lemma ring_take_split max r :
  (ring_take max r).1.1 ++ data (ring_take max r).2 = data r /\ closed (ring_take max r).2 = closed r /\
  cap (ring_take max r).2 = cap r /\ length (data (ring_take max r).2) <= length (data r) /\
  length (ring_take max r).1.1 <= max /\
  ((ring_take max r).1.2 = true -> closed r = true /\ data (ring_take max r).2 = []).
Proof.
  unfold ring_take. cbn. rewrite take_drop, length_drop, length_take. split; [done|]. do 2 (split; [done|]).
  split; [lia|]. split; [lia|]. intros [? ?%bool_decide_eq_true]%andb_prop. done.
Qed.

Lemma ring_offer_split held r :
  length (data r) <= cap r ->
  let n := (ring_offer held r).1 in
  data (ring_offer held r).2 ++ drop n held = data r ++ held /\ closed (ring_offer held r).2 = closed r /\
  cap (ring_offer held r).2 = cap r /\ length (data (ring_offer held r).2) <= cap r /\
  (drop n held = [] \/ full (ring_offer held r).2 \/ closed r = true).
Proof.
  intros Hb. unfold ring_offer. destruct (closed r) eqn:Hc; cbn; [rewrite drop_0; repeat split; auto|].
  set (n := Nat.min (cap r - length (data r)) (length held)).
  rewrite <-app_assoc, take_drop, length_app, length_take. repeat split; [done..|lia|].
  destruct (decide (length held <= cap r - length (data r))).
  - left. apply drop_ge. lia.
  - right. left. unfold full. cbn. rewrite length_app, length_take. lia.
Qed.

Lemma output_ok_init s : output_init s -> output_ok s.
Proof. intros [->| ->]; split; cbn; try done; lia || (repeat split; done || lia). Qed.

Lemma notify_ready_ok s : output_ok s -> output_ok (notify_ready s).
Proof.
  intros [H1 H2 H3 H4 H5 H6]. unfold notify_ready. destruct s as [r sp rd p d ns c pu t]; cbn in *.
  destruct d; split; cbn in *; try done. intros _. by apply H6.
Qed.

Lemma pump_ok_granted r sp owed owed' p :
  pump_ok r sp owed p -> (forall held, p <> Parked held) -> pump_ok r true owed' p.
Proof. intros Hp Hn. destruct p; unfold pump_ok, resumable in *; naive_solver. Qed.

(** Whatever is about to notify [space] does: a sleeping pump wakes, any other
    finds the permit. *)
Lemma notify_space_pump_ok s owed owed' :
  pump_ok (ring s) (space s) owed (pump s) ->
  pump_ok (ring (notify_space s)) (space (notify_space s)) owed' (pump (notify_space s)).
Proof.
  intros Hp. unfold notify_space. destruct (pump s) eqn:E; cbn;
    try (rewrite E; eapply pump_ok_granted; [exact Hp|done]).
  by destruct Hp.
Qed.

Lemma notify_space_same s :
  ring (notify_space s) = ring s /\ collected (notify_space s) = collected s /\ pumped (notify_space s) = pumped s /\
  taken (notify_space s) = taken s /\ notices (notify_space s) = notices s /\ drain (notify_space s) = drain s /\
  held_by (pump (notify_space s)) = held_by (pump s).
Proof. unfold notify_space. destruct (pump s) eqn:E; cbn; by rewrite ?E. Qed.

Lemma closed_ok_notify s : closed_ok (ring s) (drain s) (pump s) ->
  closed_ok (ring s) (drain s) (pump (notify_space s)).
Proof. unfold closed_ok, notify_space. destruct (pump s) eqn:E; cbn; rewrite ?E; naive_solver. Qed.

(** The pump moves on, the ring as it was. *)
Lemma set_pump_ok p s :
  output_ok s -> held_by p = held_by (pump s) -> pump_ok (ring s) (space s) (owed_space (notices s) (drain s)) p ->
  closed_ok (ring s) (drain s) p -> output_ok (set_pump p s).
Proof. intros [H1 H2 H3 H4 H5 H6] Eh Hp Hc. split; cbn; try done. by rewrite Eh. Qed.

Lemma closed_ok_other r d p p' :
  closed_ok r d p -> match p with Announcing _ | Ended _ | Aborted _ => False | _ => True end -> closed_ok r d p'.
Proof. intros H Hp Hd Hc. specialize (H Hd Hc). by destruct p. Qed.

Lemma drain_ok_same r r' c t d :
  drain_ok r c t d -> closed r' = closed r -> (closed r = true -> data r' = data r) -> drain_ok r' c t d.
Proof.
  intros Hd Hc Hsame. destruct d; cbn in *; rewrite ?Hc; try done.
  - destruct Hd as (? & ? & Heof). do 2 (split; [done|]). intros He. destruct (Heof He) as [? ?].
    split; [done|]. by rewrite Hsame.
  - destruct Hd as (? & ? & ? & ?). do 3 (split; [done|]). by rewrite Hsame.
Qed.

Lemma drain_ok_closed r c t d : drain_ok r c t d -> drain_ok (ring_close r) c t d.
Proof.
  intros Hd. destruct d; cbn in *; try done; [|tauto]. destruct Hd as (? & ? & Heof). do 2 (split; [done|]).
  intros He. by destruct (Heof He).
Qed.

Lemma offer_ok held s :
  output_ok s -> held_by (pump s) = held -> match pump s with Announcing _ | Ended _ | Aborted _ => False | _ => True end ->
  output_ok (set_pump (Notifying (drop (ring_offer held (ring s)).1 held)) (set_ring (ring_offer held (ring s)).2 s)).
Proof.
  intros [H1 H2 H3 H4 H5 H6] Eh Hnot. pose proof (ring_offer_split held (ring s)) as Ho. rewrite H2 in Ho.
  destruct (Ho H3) as (Hd & Hc & Hcap & Hlen & Hrest). destruct (ring_offer held (ring s)) as [n r] eqn:Er. cbn in *.
  split; cbn; try done.
  - by rewrite Hd, H1, Eh.
  - unfold resumable. naive_solver.
  - assert (closed (ring s) = true -> data r = data (ring s)) as Hsame.
    { intros Hcl. unfold ring_offer in Er. rewrite Hcl in Er. by injection Er as _ <-. }
    apply (drain_ok_same (ring s)); done.
  - intros Hn. rewrite Hc. intros Hcl. specialize (H6 Hn Hcl). by destruct (pump s).
Qed.

Lemma pump_turn_ok input s s' : output_ok s -> pump_turn input s = Some s' -> output_ok s'.
Proof.
  intros Hs. pose proof Hs as [H1 H2 H3 H4 H5 H6]. unfold pump_turn.
  destruct (pump s) as [ |held|held|held|held|held|held|v|v|v|held|held] eqn:Ep; try done; cbn in *.
  - assert (forall v, output_ok (set_pump (Closing v) s)) as Hclose.
    { intros v. apply set_pump_ok; [done|by rewrite Ep|done|]. exact (closed_ok_other _ _ _ _ H6 I). }
    destruct input as [[|b bytes]|error]; intros E; [injection E as <-; apply Hclose| |injection E as <-; apply Hclose].
    destruct (decide _); [|done]. injection E as <-. split; cbn; try done.
    rewrite H1. by rewrite app_nil_r, <-app_assoc.
  - destruct (ring_offer held (ring s)) as [n r] eqn:Er. intros [= <-].
    pose proof (offer_ok held s Hs ltac:(by rewrite Ep) ltac:(by rewrite Ep)) as H. by rewrite Er in H.
  - intros [= <-]. apply notify_ready_ok, set_pump_ok; [done|by rewrite Ep; destruct held| |exact (closed_ok_other _ _ _ _ H6 I)].
    destruct held; [done|]. split; [done|]. by destruct H4.
  - intros [= <-]. apply set_pump_ok; [done|by rewrite Ep; destruct (closed _)| |exact (closed_ok_other _ _ _ _ H6 I)].
    destruct (closed (ring s)) eqn:Ec; [done|]. destruct H4 as [? [?|?]]; [|done]. split; [done|]. by rewrite Ec.
  - intros [= <-]. destruct H4 as (Hh & Hr & Hc). destruct (space s) eqn:Esp.
    + by split.
    + apply set_pump_ok; [done|by rewrite Ep| |exact (closed_ok_other _ _ _ _ H6 I)]. rewrite Esp. unfold resumable in Hr.
      cbn. naive_solver.
  - destruct (ring_offer held (ring s)) as [n r] eqn:Er. intros [= <-].
    pose proof (offer_ok held s Hs ltac:(by rewrite Ep) ltac:(by rewrite Ep)) as H. by rewrite Er in H.
  - intros [= <-]. split; cbn; try done. by apply (drain_ok_closed (ring s)).
  - intros [= <-]. apply notify_ready_ok, set_pump_ok; [done|by rewrite Ep|done|]. done.
Qed.

Lemma serve_ok i s s' : output_ok s -> serve_notice i s = Some s' -> output_ok s'.
Proof.
  intros Hs. pose proof Hs as [H1 H2 H3 H4 H5 H6]. unfold serve_notice.
  destruct (notices s !! i) as [[|]|] eqn:Ei; intros [= <-].
  - set (s1 := set_notices (delete i (notices s)) s).
    destruct (notify_space_same s1) as (Er & Ec & Epu & Et & En & Ed & Eh).
    split; rewrite ?Er, ?Ec, ?Epu, ?Et, ?Eh, ?En, ?Ed; try done.
    + rewrite <-Er. by eapply notify_space_pump_ok.
    + by apply (closed_ok_notify s1).
  - apply notify_ready_ok. split; cbn; try done.
    assert (owed_space (<[i:=Space]> (notices s)) (drain s) = owed_space (notices s) (drain s)) as ->; [|done].
    apply lookup_lt_Some in Ei. destruct (notices s); [simpl in Ei; lia|by destruct i].
Qed.

(** Bytes leave the ring: a read of a guest, or a turn of a collector. *)
Lemma pump_ok_took r r' sp owed owed' p :
  pump_ok r sp owed p -> closed r' = closed r -> (owed = true -> owed' = true) ->
  (full r -> full r' \/ owed' = true) -> pump_ok r' sp owed' p.
Proof.
  intros Hp Hc Ho Hf. destruct p; unfold pump_ok, resumable in *; rewrite ?Hc; naive_solver.
Qed.

Lemma guest_take_ok max s : drain s = NoCollector -> output_ok s -> output_ok (guest_take max s).2.
Proof.
  intros Hd [H1 H2 H3 H4 H5 H6]. unfold guest_take.
  destruct (ring_take_split max (ring s)) as (Hsplit & Hc & Hcap & Hlen & _ & _).
  destruct (ring_take max (ring s)) as [[bytes eof] r] eqn:Er. cbn in *. split; cbn.
  - by rewrite H1, <-Hsplit, <-!app_assoc.
  - by rewrite Hcap.
  - lia.
  - eapply pump_ok_took; [done..| |].
    + destruct (notices s); [by rewrite Hd|done].
    + intros Hf. destruct bytes; [left|right; by destruct (notices s)].
      unfold full in *. simpl in Hsplit. rewrite Hsplit, Hcap. done.
  - rewrite Hd in *. done.
  - intros Hn. by rewrite Hd in Hn.
Qed.

Lemma guest_release_ok s : drain s = NoCollector -> output_ok s -> output_ok (guest_release s).
Proof.
  intros Hd [H1 H2 H3 H4 H5 H6]. split; cbn; try done.
  - assert (owed_space (notices s ++ [ReadyThenSpace]) (drain s) = true) as -> by by destruct (notices s).
    destruct (pump s); unfold pump_ok, resumable in *; naive_solver.
  - by rewrite Hd in *.
  - intros Hn. by rewrite Hd in Hn.
Qed.

Lemma drain_turn_ok s s' : output_ok s -> drain_turn s = Some s' -> output_ok s'.
Proof.
  intros Hs. pose proof Hs as [H1 H2 H3 H4 H5 H6]. unfold drain_turn.
  assert (forall d, d = Draining \/ d = Resumed -> drain s = d ->
    (let '(bytes, eof, r) := ring_take CHUNK (ring s) in
     Some (set_drain (Took (negb (bool_decide (bytes = []))) eof) (collect bytes (got bytes (set_ring r s))))) = Some s' ->
    output_ok s') as Htake.
  { intros d Hdd Ed. destruct (ring_take_split CHUNK (ring s)) as (Hsplit & Hc & Hcap & Hlen & Hmax & Heof).
    destruct (ring_take CHUNK (ring s)) as [[bytes eof] r] eqn:Er. cbn in *. intros [= <-]. split; cbn.
    - by rewrite H1, <-Hsplit, <-!app_assoc.
    - by rewrite Hcap.
    - lia.
    - eapply pump_ok_took; [done..| |].
      + destruct (notices s); [|done]. by destruct Hdd as [-> | ->]; rewrite Ed.
      + intros Hf. destruct bytes; [left|right; by destruct (notices s)].
        unfold full in *. simpl in Hsplit. rewrite Hsplit, Hcap. done.
    - assert (collected s = taken s /\ (Z.of_nat (length (collected s)) <= RUN_OUTPUT_CAP)%Z) as [-> Hl]
        by by destruct Hdd as [-> | ->]; rewrite Ed in H5.
      rewrite length_app. rewrite Hc. repeat split; [lia|naive_solver..].
    - intros _. rewrite Hc. apply H6. by destruct Hdd as [-> | ->]; rewrite Ed. }
  destruct (drain s) as [ | |some eof| | | | |] eqn:Ed; try done.
  - apply (Htake Draining); auto.
  - intros [= <-]. clear Htake. destruct H5 as (Hcol & Hlen & Heof).
    set (s1 := if some then notify_space s else s).
    assert (ring s1 = ring s /\ collected s1 = collected s /\ pumped s1 = pumped s /\ taken s1 = taken s /\
      notices s1 = notices s /\ held_by (pump s1) = held_by (pump s)) as (E1 & E2 & E3 & E4 & E5 & E6).
    { unfold s1. destruct some; [|done]. destruct (notify_space_same s) as (?&?&?&?&?&?&?). done. }
    split; cbn; rewrite ?E1, ?E2, ?E3, ?E4, ?E5, ?E6; try done.
    + assert (pump_ok (ring s) (space s1) (owed_space (notices s) (Took false eof)) (pump s1)) as Hp.
      { unfold s1. destruct some; [|done]. destruct (notify_space_same s) as [<- _]. by eapply notify_space_pump_ok. }
      destruct (decide _) as [|_]; [by destruct (notices s)|]. by destruct (notices s), eof.
    + unfold drain_ok. destruct (decide _); [rewrite <-Hcol; repeat split; done || lia|].
      destruct eof; rewrite <-Hcol; repeat split; try lia; by apply Heof.
    + intros _. unfold s1. destruct some; [|by apply H6].
      apply (closed_ok_notify s); [by rewrite Ed|by rewrite Ed].
  - intros [= <-]. destruct (ready s); split; cbn; try done; intros _; by apply H6.
  - apply (Htake Resumed); auto.
Qed.

Lemma cut_ok s : drain s <> NoCollector -> output_ok s -> output_ok (cut s).
Proof.
  intros Hn [H1 H2 H3 H4 H5 H6]. apply notify_ready_ok. split; cbn; try done.
  - rewrite H1. by destruct (pump s).
  - by destruct (pump s).
  - by apply (drain_ok_closed (ring s)).
  - intros _ _. by destruct (pump s).
Qed.

Lemma output_step_ok s s' : output_ok s -> output_step s s' -> output_ok s'.
Proof.
  intros Hs [m Hm]. unfold move in Hm.
  destruct m; [by eapply pump_turn_ok| | |by eapply serve_ok|by eapply drain_turn_ok|];
    destruct (drain s) eqn:Ed; try done; injection Hm as <-;
    by (apply guest_take_ok || apply guest_release_ok || (apply cut_ok; [by rewrite Ed|])).
Qed.

Lemma output_running_ok s : output_running s -> output_ok s.
Proof. apply reachable_invariant; [exact output_ok_init|exact output_step_ok]. Qed.

(** A stream read by calls never gets a collector. *)
Lemma move_no_collector m s s' : move m s = Some s' -> drain s = NoCollector -> drain s' = NoCollector.
Proof.
  intros Hm Hd. unfold move in Hm. rewrite Hd in Hm. destruct m as [input|max| |i| |]; try done.
  - unfold pump_turn in Hm. destruct (pump s); try done; repeat (case_match; try done); injection Hm as <-;
      unfold notify_ready; cbn; by rewrite ?Hd.
  - injection Hm as <-. unfold guest_take. by destruct (ring_take max (ring s)) as [[bytes eof] r].
  - by injection Hm as <-.
  - unfold serve_notice in Hm. destruct (notices s !! i) as [[|]|]; try done; injection Hm as <-.
    + destruct (notify_space_same (set_notices (delete i (notices s)) s)) as (_ & _ & _ & _ & _ & -> & _). done.
    + unfold notify_ready. cbn. by rewrite Hd.
  - unfold drain_turn in Hm. by rewrite Hd in Hm.
Qed.

(** ** What a reader sees *)

Lemma drained_for_good s s' :
  output_ok s -> output_step s s' -> closed (ring s) = true -> data (ring s) = [] ->
  closed (ring s') = true /\ data (ring s') = [] /\ taken s' = taken s.
Proof.
  intros Hs [m Hm] Hc Hd. unfold move in Hm.
  assert (forall held, ring_offer held (ring s) = (0, ring s)) as Ho by (intros; unfold ring_offer; by rewrite Hc).
  assert (forall max, ring_take max (ring s) = (([], true), MkRing [] true (cap (ring s)))) as Ht.
  { intros max. unfold ring_take. rewrite Hd, Hc. simpl. by rewrite Nat.min_0_r. }
  destruct m as [input|max| |i| |].
  - unfold pump_turn in Hm. destruct (pump s) eqn:Ep; try done; rewrite ?Ho in Hm;
      repeat (case_match; try done); injection Hm as <-; unfold notify_ready; cbn; repeat case_match; done.
  - destruct (drain s); try done. unfold guest_take in Hm. rewrite Ht in Hm. injection Hm as <-. cbn.
    by rewrite app_nil_r.
  - destruct (drain s); try done. by injection Hm as <-.
  - unfold serve_notice in Hm. destruct (notices s !! i) as [[|]|]; try done; injection Hm as <-.
    + by destruct (notify_space_same (set_notices (delete i (notices s)) s)) as (-> & _ & _ & -> & _).
    + unfold notify_ready. cbn. by destruct (drain s).
  - unfold drain_turn in Hm. rewrite Ht in Hm. destruct (drain s) as [ | |some eof| | | | |]; try done; injection Hm as <-; cbn.
    + by rewrite app_nil_r.
    + destruct some; [|done]. by destruct (notify_space_same s) as (-> & _ & _ & -> & _).
    + by destruct (ready s).
    + by rewrite app_nil_r.
  - assert (closed (ring (cut s)) = true /\ data (ring (cut s)) = [] /\ taken (cut s) = taken s) as Hcut.
    { unfold cut, notify_ready. cbn. by destruct (drain s). }
    destruct (drain s); try done; by injection Hm as <-.
Qed.

Lemma drained_later s s' :
  rtc output_step s s' -> output_ok s -> closed (ring s) = true -> data (ring s) = [] -> taken s' = taken s.
Proof.
  induction 1 as [|s s1 s2 Hstep _ IH]; [done|]. intros Hs Hc Hd.
  destruct (drained_for_good s s1 Hs Hstep Hc Hd) as (? & ? & <-). apply IH; [by eapply output_step_ok|done..].
Qed.

Lemma guest_take_end max bytes s :
  (guest_take max s).1 = (bytes, true) ->
  closed (ring (guest_take max s).2) = true /\ data (ring (guest_take max s).2) = [] /\
  taken (guest_take max s).2 = taken s ++ bytes.
Proof.
  unfold guest_take. destruct (ring_take_split max (ring s)) as (_ & Hc & _ & _ & _ & Heof).
  destruct (ring_take max (ring s)) as [[bs eof] r]. cbn in *. intros [= -> ->].
  destruct (Heof eq_refl). by rewrite Hc.
Qed.

(** C28: a stream loses nothing, invents nothing and never grows past its cap:
    what the pipe gave is what readers took, then what is buffered, then what
    the pump still holds, in order. A pump sleeps only on a full, open ring or
    when a call is about to wake it. Once a read answers the end, no later one
    takes anything. *)
Theorem a_stream_keeps_its_bytes s :
  output_running s ->
  pumped s = taken s ++ data (ring s) ++ held_by (pump s) /\
  length (data (ring s)) <= STREAM_CAP /\
  (forall held, pump s = Parked held ->
     (full (ring s) /\ closed (ring s) = false) \/ owed_space (notices s) (drain s) = true) /\
  (forall max bytes s', (guest_take max s).1 = (bytes, true) -> rtc output_step (guest_take max s).2 s' ->
     drain s = NoCollector -> taken s' = taken s ++ bytes).
Proof.
  intros Hr. pose proof (output_running_ok s Hr) as Hs. pose proof Hs as [H1 H2 H3 H4 H5 H6].
  split; [done|]. split; [done|]. split.
  - intros held Ep. rewrite Ep in H4. destruct H4 as (_ & _ & [Hf|Ho] & Hc); [|by right].
    destruct (closed (ring s)); [right; by apply Hc|by left].
  - intros max bytes s' Ht Hrtc Hd. destruct (guest_take_end max bytes s Ht) as (Hc & He & <-).
    by apply (drained_later _ _ Hrtc); [apply guest_take_ok|..].
Qed.

(** A run answers with everything its child wrote or not at all: the
    collector is drained only at the end of the pipe, and then its bytes are
    what the pipe gave, at most the cap, and the answer is the pump's verdict;
    past the cap it overflows, with at most one chunk more in memory. *)
Theorem a_run_answers_the_whole_output joined s :
  output_running s ->
  (drain s = Drained ->
   match finish joined s with
   | Some (Ok bytes) => pump s = Ended (Ok ()) /\ bytes = pumped s /\ (Z.of_nat (length bytes) <= RUN_OUTPUT_CAP)%Z
   | Some (Err _) => (exists error, pump s = Ended (Err error)) \/ (exists held, pump s = Aborted held)
   | None => exists verdict, pump s = Announcing verdict
   end) /\
  (drain s = Overflow ->
   (RUN_OUTPUT_CAP < Z.of_nat (length (taken s)) <= RUN_OUTPUT_CAP + Z.of_nat CHUNK)%Z /\ collected s = taken s).
Proof.
  intros Hr. destruct (output_running_ok s Hr) as [H1 H2 H3 H4 H5 H6]. split; intros Ed; rewrite Ed in H5.
  - destruct H5 as (Hcol & Hlen & Hc & Hd). specialize (H6 ltac:(by rewrite Ed) Hc). rewrite Hd in H1.
    unfold finish. destruct (pump s) as [ | | | | | | | |v|[[]|error]| |held] eqn:Ep; try done; eauto.
    split; [done|]. split; [|done]. by rewrite Hcol, H1, app_nil_r.
  - destruct H5 as [Hcol Hlen]. by rewrite <-Hcol.
Qed.

(** A pump asleep on a full ring is woken by the next read that takes
    anything, once that read has notified. *)
Lemma a_read_wakes_the_pump s held max :
  output_running s -> drain s = NoCollector -> notices s = [] -> pump s = Parked held -> 0 < max ->
  exists s', serve_notice 0 (guest_take max s).2 = Some s' /\ pump s' = Woken held /\
    exists accepted, 0 < accepted /\ (ring_offer held (ring s')).1 = accepted.
Proof.
  intros Hr Hd Hn Ep Hmax. pose proof STREAM_CAP_pos as Hcap. destruct (output_running_ok s Hr) as [H1 H2 H3 H4 H5 H6].
  rewrite Ep, Hn, Hd in H4. destruct H4 as (Hheld & _ & [Hf|Ho] & Hc); [|done]. unfold full in Hf. rewrite H2 in Hf.
  assert (closed (ring s) = false) as Hopen by (destruct (closed (ring s)); [by specialize (Hc eq_refl)|done]).
  unfold guest_take, ring_take. destruct (data (ring s)) as [|b bs] eqn:Eb; [simpl in Hf; lia|].
  rewrite Hopen. simpl length. replace (Nat.min max (S (length bs))) with (S (Nat.min (pred max) (length bs))) by lia.
  cbn [take drop]. unfold serve_notice. cbn. rewrite Hn. cbn. eexists. split; [done|].
  unfold notify_space. cbn. rewrite Ep. split; [done|]. eexists. split; [|done]. unfold ring_offer. cbn. rewrite H2.
  simpl in Hf, H3. rewrite length_drop. destruct held; [done|]. simpl. lia.
Qed.

(** ** The collector of a long output

    A collector takes one chunk for every notification, and notifications do
    not add up while it has not yet turned: one wakes it and one is kept. A
    child that writes more chunks than that before the collector turns and
    then ends leaves the rest in the ring, with nobody left to notify: only
    the bound of the run ends the wait. *)

Definition the_pump_reads (bytes : Bytes) : list Move := [Pumps (Ok bytes); Pumps (Ok []); Pumps (Ok [])].
Definition the_collector_turns : list Move := [Drains; Drains; Drains].

Definition four_chunks_and_the_end : list Move :=
  the_collector_turns ++ concat (replicate 4 (the_pump_reads (replicate CHUNK 0%Z))) ++
  [Pumps (Ok []); Pumps (Ok []); Pumps (Ok [])] ++ the_collector_turns ++ the_collector_turns.

Lemma stream_moves_running ms s s' : output_running s -> moves ms s = Some s' -> output_running s'.
Proof.
  revert s. induction ms as [|m ms IH]; intros s Hs Hm; [by injection Hm as <-|]. simpl in Hm.
  destruct (move m s) as [s1|] eqn:E; [|done]. apply (IH s1); [|done]. eapply reachable_step; [done|by exists m].
Qed.

Definition asleep_for_good (s : Output) : bool :=
  match drain s, pump s, notices s with
  | Sleeping, Ended (Ok ()), [] => closed (ring s) && negb (bool_decide (data (ring s) = []))
  | _, _, _ => false
  end.

Lemma four_chunks_leave_it_asleep :
  asleep_for_good <$> moves four_chunks_and_the_end new_collector = Some true.
Proof. vm_compute. reflexivity. Qed.

Lemma a_collector_can_sleep_on_what_is_there :
  exists s, output_running s /\ asleep_for_good s = true /\ forall m s', move m s = Some s' -> m = Cuts.
Proof.
  pose proof four_chunks_leave_it_asleep as H. revert H. generalize four_chunks_and_the_end. intros ms H.
  apply fmap_Some in H as (s & E & Ha).
  exists s. split; [apply (stream_moves_running _ _ _ (reachable_init _ _ _ (or_intror eq_refl)) E)|].
  split; [done|]. intros m s' Hm. unfold asleep_for_good in Ha. unfold move, pump_turn, serve_notice, drain_turn in Hm.
  destruct (drain s), (pump s) as [ | | | | | | | | |[[]|]| | ], (notices s); try done. by destruct m.
Qed.

(** ** Standard input ([Stream::offer], [feed]) *)

(** The feeder: before its take; writing what it took; after a write that
    failed; at the shutdown; at [notified], asleep there or woken; over, the
    pipe shut down or given up with what it held. *)
Inductive Feeder :=
  | Taking
  | Writing (chunk : Bytes)
  | GivingUp (chunk : Bytes)
  | ShuttingDown
  | AtSpace
  | Idle
  | Roused
  | Shut
  | GaveUp (chunk : Bytes).

(** The calls in progress: a write past [is_closed] with its bytes; a
    notification to come, of a write or a release; a release that closed. *)
Inductive Writer := Offers (bytes : Bytes) | NotifiesSpace | NotifiesReady.

Record Input := MkInput {
  in_ring : Ring;
  in_space : bool;
  in_ready : bool;
  feeder : Feeder;
  writers : list Writer;
  accepted : Bytes;
  delivered : Bytes;
}.

Definition new_input : Input := MkInput (new_ring STREAM_CAP) false false Taking [] [] [].

Definition with_in_ring (r : Ring) (s : Input) : Input :=
  MkInput r (in_space s) (in_ready s) (feeder s) (writers s) (accepted s) (delivered s).
Definition with_in_space (b : bool) (s : Input) : Input :=
  MkInput (in_ring s) b (in_ready s) (feeder s) (writers s) (accepted s) (delivered s).
Definition with_in_ready (b : bool) (s : Input) : Input :=
  MkInput (in_ring s) (in_space s) b (feeder s) (writers s) (accepted s) (delivered s).
Definition with_feeder (f : Feeder) (s : Input) : Input :=
  MkInput (in_ring s) (in_space s) (in_ready s) f (writers s) (accepted s) (delivered s).
Definition with_writers (ws : list Writer) (s : Input) : Input :=
  MkInput (in_ring s) (in_space s) (in_ready s) (feeder s) ws (accepted s) (delivered s).
Definition accept (bytes : Bytes) (s : Input) : Input :=
  MkInput (in_ring s) (in_space s) (in_ready s) (feeder s) (writers s) (accepted s ++ bytes) (delivered s).
Definition deliver (bytes : Bytes) (s : Input) : Input :=
  MkInput (in_ring s) (in_space s) (in_ready s) (feeder s) (writers s) (accepted s) (delivered s ++ bytes).

Definition rouse (s : Input) : Input :=
  match feeder s with Idle => with_feeder Roused s | _ => with_in_space true s end.

(** One critical section of [feed]; [written] is what [write_all] comes to: how
    much it wrote before it failed. *)
Definition feed_turn (written : option nat) (s : Input) : option Input :=
  match feeder s with
  | Taking | Roused =>
      let '((chunk, eof), r) := ring_take CHUNK (in_ring s) in
      Some (with_feeder (if decide (chunk <> []) then Writing chunk else if (eof : bool) then ShuttingDown else AtSpace)
        (with_in_ring r s))
  | Writing chunk =>
      Some (match written with
            | None => with_feeder Taking (deliver chunk s)
            | Some n => with_feeder (GivingUp (drop n chunk)) (deliver (take n chunk) s)
            end)
  | GivingUp chunk => Some (with_feeder (GaveUp chunk) (with_in_ring (ring_close (in_ring s)) s))
  | ShuttingDown => Some (with_feeder Shut s)
  | AtSpace => Some (if in_space s then with_feeder Taking (with_in_space false s) else with_feeder Idle s)
  | Idle | Shut | GaveUp _ => None
  end.

Definition stdin_closed : KernelError := refusal PluginFailed "process stdin is closed".

(** [Stream::offer]: the check, then the ring, then the notification. *)
Definition offer_begin (bytes : Bytes) (s : Input) : result Input KernelError :=
  if closed (in_ring s) then Err stdin_closed else Ok (with_writers (writers s ++ [Offers bytes]) s).

(** The count a call answers is what the ring accepted. *)
Definition offer_end (bytes : Bytes) (s : Input) : nat * Input :=
  let '(n, r) := ring_offer bytes (in_ring s) in (n, accept (take n bytes) (with_in_ring r s)).

Definition input_release (s : Input) : Input :=
  with_writers (writers s ++ [NotifiesReady]) (with_in_ring (ring_close (in_ring s)) s).

Definition writer_turn (i : nat) (s : Input) : option Input :=
  match writers s !! i with
  | None => None
  | Some (Offers bytes) => Some (with_writers (<[i := NotifiesSpace]> (writers s)) (offer_end bytes s).2)
  | Some NotifiesReady => Some (with_in_ready true (with_writers (<[i := NotifiesSpace]> (writers s)) s))
  | Some NotifiesSpace => Some (rouse (with_writers (delete i (writers s)) s))
  end.

Inductive InMove := Feeds (written : option nat) | Writes (bytes : Bytes) | Turns (i : nat) | Closes.

Definition in_move (m : InMove) (s : Input) : option Input :=
  match m with
  | Feeds written => feed_turn written s
  | Writes bytes => match offer_begin bytes s with Ok s => Some s | Err _ => None end
  | Turns i => writer_turn i s
  | Closes => Some (input_release s)
  end.

Definition input_init (s : Input) : Prop := s = new_input.
Definition input_step (s s' : Input) : Prop := exists m, in_move m s = Some s'.
Definition input_running : Input -> Prop := reachable input_init input_step.

Definition held_in (f : Feeder) : Bytes :=
  match f with Writing chunk | GivingUp chunk | GaveUp chunk => chunk | _ => [] end.

(** Somebody is about to notify the feeder. *)
Definition owed_writer (ws : list Writer) : Prop := exists w, w ∈ ws /\ (w = NotifiesSpace \/ w = NotifiesReady).

Definition feeder_ok (r : Ring) (permit : bool) (ws : list Writer) (f : Feeder) : Prop :=
  match f with
  | AtSpace => (data r = [] /\ closed r = false) \/ permit = true \/ owed_writer ws
  | Idle => permit = false /\ ((data r = [] /\ closed r = false) \/ owed_writer ws)
  | ShuttingDown | Shut => closed r = true /\ data r = []
  | GaveUp _ => closed r = true
  | Taking | Roused | Writing _ | GivingUp _ => True
  end.

Record input_ok (s : Input) : Prop := {
  in_sequence : accepted s = delivered s ++ held_in (feeder s) ++ data (in_ring s);
  in_capacity : cap (in_ring s) = STREAM_CAP;
  in_within : length (data (in_ring s)) <= STREAM_CAP;
  feeding : feeder_ok (in_ring s) (in_space s) (writers s) (feeder s);
}.

Lemma owed_writer_insert i w ws : w = NotifiesSpace \/ w = NotifiesReady -> i < length ws -> owed_writer (<[i := w]> ws).
Proof. intros Hw Hi. exists w. split; [|done]. by apply list_elem_of_insert. Qed.

Lemma owed_writer_app ws w : w = NotifiesSpace \/ w = NotifiesReady -> owed_writer (ws ++ [w]).
Proof. intros Hw. exists w. split; [set_solver|done]. Qed.

Lemma owed_writer_more ws ws' : owed_writer ws -> owed_writer (ws ++ ws').
Proof. intros (w & Hw & ?). exists w. split; [set_solver|done]. Qed.

Lemma feeder_ok_more r permit ws ws' f : feeder_ok r permit ws f -> feeder_ok r permit (ws ++ ws') f.
Proof.
  intros Hf. destruct f; cbn in *; try done.
  - destruct Hf as [?|[?|?]]; [by left|by right; left|right; right; by apply owed_writer_more].
  - destruct Hf as [? [?|?]]; (split; [done|]); [by left|right; by apply owed_writer_more].
Qed.

Lemma feeder_ok_owed r r' permit ws ws' f :
  feeder_ok r permit ws f -> owed_writer ws' -> (closed r = true -> closed r' = true /\ data r' = data r) ->
  feeder_ok r' permit ws' f.
Proof.
  intros Hf Ho Hc. destruct f; cbn in *; try done; try (by right; right); try (by split; [apply Hf|right]).
  all: try (destruct Hf as [Hcl Hdt]; by destruct (Hc Hcl) as [? ->]). by apply Hc.
Qed.

Lemma rouse_ok s s' :
  input_ok s -> in_ring s' = in_ring s -> in_space s' = in_space s -> feeder s' = feeder s ->
  accepted s' = accepted s -> delivered s' = delivered s -> input_ok (rouse s').
Proof.
  intros [H1 H2 H3 H4] Er Es Ef Ea Ed. unfold rouse. rewrite Ef.
  destruct (feeder s) eqn:E; split; cbn; rewrite ?Er, ?Es, ?Ef, ?Ea, ?Ed, ?E; cbn; try done; try tauto.
Qed.

Lemma offer_end_ok bytes ws s :
  input_ok s -> owed_writer ws -> input_ok (with_writers ws (offer_end bytes s).2).
Proof.
  intros [H1 H2 H3 H4] Hws. unfold offer_end.
  pose proof (ring_offer_split bytes (in_ring s)) as Ho. rewrite H2 in Ho. destruct (Ho H3) as (Hd & Hc & Hcap & Hlen & _).
  assert (data (ring_offer bytes (in_ring s)).2 = data (in_ring s) ++ take (ring_offer bytes (in_ring s)).1 bytes /\
    (closed (in_ring s) = true -> data (ring_offer bytes (in_ring s)).2 = data (in_ring s))) as [Hdata Hsame].
  { unfold ring_offer. destruct (closed (in_ring s)); cbn; [by rewrite app_nil_r|done]. }
  destruct (ring_offer bytes (in_ring s)) as [n r]. cbn in *. split; cbn; try done.
  - by rewrite H1, Hdata, <-!app_assoc.
  - eapply feeder_ok_owed; [done..|]. intros Hcl. by rewrite Hc, Hsame.
Qed.

Lemma feed_turn_ok written s s' : input_ok s -> feed_turn written s = Some s' -> input_ok s'.
Proof.
  intros [H1 H2 H3 H4]. unfold feed_turn.
  assert (held_in (feeder s) = [] ->
    (let '((chunk, eof), r) := ring_take CHUNK (in_ring s) in
     Some (with_feeder (if decide (chunk <> []) then Writing chunk else if (eof : bool) then ShuttingDown else AtSpace)
       (with_in_ring r s))) = Some s' -> 0 < CHUNK -> input_ok s') as Htake.
  { intros Hh. destruct (ring_take_split CHUNK (in_ring s)) as (Hs & Hc & Hcap & Hlen & _ & Heof).
    assert (0 < CHUNK -> (ring_take CHUNK (in_ring s)).1.1 = [] -> data (in_ring s) = []) as Hnone.
    { unfold ring_take. cbn. destruct (data (in_ring s)) as [|b bs]; [done|]. simpl length.
      intros Hp. by replace (Nat.min CHUNK (S (length bs))) with (S (Nat.min (pred CHUNK) (length bs))) by lia. }
    assert ((ring_take CHUNK (in_ring s)).1.2 = false -> (ring_take CHUNK (in_ring s)).1.1 = [] ->
      data (in_ring s) = [] -> closed (in_ring s) = false) as Hopen.
    { unfold ring_take. cbn. intros He _ Hd. by rewrite Hd, drop_nil, andb_true_r in He. }
    rewrite Hh in H1. destruct (ring_take CHUNK (in_ring s)) as [[chunk eof] r]. cbn in *. intros [= <-] Hpos.
    destruct (decide (chunk <> [])) as [Hn|Hn]; [|apply dec_stable in Hn; subst chunk].
    - split; cbn; try lia. by rewrite H1, Hs.
    - simpl in Hs. specialize (Hnone Hpos eq_refl). destruct eof; split; cbn; rewrite ?Hs, ?Hc, ?Hcap; try done.
      + by destruct (Heof eq_refl).
      + left. split; [done|]. by apply Hopen. }
  destruct (feeder s) eqn:E; try done.
  - intros Ht. by apply Htake, CHUNK_pos.
  - intros [= <-]. destruct written; split; cbn; try done; rewrite H1; cbn; rewrite <-!app_assoc; [|done].
    by rewrite (app_assoc (take n chunk)), take_drop.
  - intros [= <-]. by split.
  - intros [= <-]. by split.
  - intros [= <-]. destruct (in_space s) eqn:Es; split; cbn; try done. destruct H4 as [?|[?|?]]; [|done|]; rewrite Es; auto.
  - intros Ht. by apply Htake, CHUNK_pos.
Qed.

Lemma input_release_ok s : input_ok s -> input_ok (input_release s).
Proof.
  intros [H1 H2 H3 H4]. split; cbn; try done. eapply feeder_ok_owed; [done|by apply owed_writer_app; right|done].
Qed.

Lemma input_step_ok s s' : input_ok s -> input_step s s' -> input_ok s'.
Proof.
  intros Hs [m Hm]. pose proof Hs as [H1 H2 H3 H4]. destruct m as [written|bytes|i|]; cbn in Hm.
  - by eapply feed_turn_ok.
  - unfold offer_begin in Hm. destruct (closed _); [done|]. injection Hm as <-. split; cbn; try done.
    by apply feeder_ok_more.
  - unfold writer_turn in Hm. destruct (writers s !! i) as [[bytes| |]|] eqn:Ei; try done; injection Hm as <-.
    + apply offer_end_ok, owed_writer_insert; [done|by left|by eapply lookup_lt_Some].
    + by eapply rouse_ok.
    + split; cbn; try done. eapply feeder_ok_owed; [done| |done].
      apply owed_writer_insert; [by left|]. by eapply lookup_lt_Some.
  - injection Hm as <-. by apply input_release_ok.
Qed.

Lemma input_running_ok s : input_running s -> input_ok s.
Proof.
  apply reachable_invariant; [|exact input_step_ok]. intros ? ->. split; cbn; try done. lia.
Qed.

(** What a write answered as accepted reaches the child in order: the
    bytes accepted are those delivered, then what the feeder holds, then what
    is buffered. The pipe is shut down only once stdin was closed and every
    accepted byte was delivered. A feeder sleeps only when there is nothing to
    write and nothing to end, or when a call is about to rouse it. *)
Theorem stdin_arrives_in_order s :
  input_running s ->
  accepted s = delivered s ++ held_in (feeder s) ++ data (in_ring s) /\ length (data (in_ring s)) <= STREAM_CAP /\
  (feeder s = Shut -> closed (in_ring s) = true /\ delivered s = accepted s) /\
  (feeder s = Idle ->
     (data (in_ring s) = [] /\ closed (in_ring s) = false /\ delivered s = accepted s) \/ owed_writer (writers s)) /\
  (forall bytes s', offer_begin bytes s = Ok s' ->
     let '(n, s'') := offer_end bytes s' in accepted s'' = accepted s ++ take n bytes).
Proof.
  intros Hr. destruct (input_running_ok s Hr) as [H1 H2 H3 H4]. split; [done|]. split; [done|]. split; [|split].
  - intros E. rewrite E in *. destruct H4 as [Hc Hd]. by rewrite H1, Hd, app_nil_r.
  - intros E. rewrite E in *. destruct H4 as [_ [[Hd Hc]|?]]; [left|by right]. by rewrite H1, Hd, app_nil_r.
  - intros bytes s'. unfold offer_begin. destruct (closed _); [done|]. intros [= <-]. unfold offer_end.
    by destruct (ring_offer _ _).
Qed.

Module StreamsExample.
Lemma after_moves s ms : output_init s -> output_running (default s (moves ms s)).
Proof.
  intros Hi. destruct (moves ms s) as [s'|] eqn:E; [|by apply reachable_init].
  by apply (stream_moves_running ms s); [apply reachable_init|].
Qed.

Fixpoint in_moves (ms : list InMove) (s : Input) : option Input :=
  match ms with [] => Some s | m :: ms => match in_move m s with Some s => in_moves ms s | None => None end end.

Lemma after_in_moves ms : input_running (default new_input (in_moves ms new_input)).
Proof.
  assert (forall s, input_running s -> input_running (default s (in_moves ms s))) as H;
    [|by apply H, reachable_init].
  induction ms as [|m ms IH]; intros s Hs; [done|]. simpl. destruct (in_move m s) as [s1|] eqn:E; [|done].
  assert (input_running s1) as H1 by by eapply reachable_step; [|by exists m]. specialize (IH s1 H1).
  by destruct (in_moves ms s1).
Qed.

(** A pump that brought three bytes, of which a read took two. *)
Definition read_some : list Move := the_pump_reads [1; 2; 3]%Z ++ [Takes 2; Serves 0].
Definition after : Output := default new_output (moves read_some new_output).

Lemma after_running : output_running after.
Proof. apply after_moves. by left. Qed.

Lemma a_stream_keeps_its_bytes_witness :
  taken after = [1; 2]%Z /\ data (ring after) = [3]%Z /\ pumped after = taken after ++ data (ring after) ++ held_by (pump after).
Proof.
  split; [vm_compute; reflexivity|]. split; [vm_compute; reflexivity|].
  exact (proj1 (a_stream_keeps_its_bytes after after_running)).
Defined.

(** A collector that saw two bytes and the end of the pipe. *)
Definition collected_all : list Move :=
  the_pump_reads [7; 8]%Z ++ [Pumps (Ok []); Pumps (Ok []); Pumps (Ok []); Drains; Drains].
Definition done_collecting : Output := default new_collector (moves collected_all new_collector).

Lemma done_collecting_running : output_running done_collecting.
Proof. apply after_moves. by right. Qed.

Lemma a_run_answers_the_whole_output_witness :
  drain done_collecting = Drained /\ finish "gone" done_collecting = Some (Ok [7; 8]%Z) /\
  (match finish "gone" done_collecting with Some (Ok bytes) => bytes = pumped done_collecting | _ => False end).
Proof.
  assert (drain done_collecting = Drained) as Hd by (vm_compute; reflexivity).
  pose proof (proj1 (a_run_answers_the_whole_output "gone" done_collecting done_collecting_running) Hd) as H.
  split; [exact Hd|]. assert (finish "gone" done_collecting = Some (Ok [7; 8]%Z)) as Hf by (vm_compute; reflexivity).
  split; [exact Hf|]. rewrite Hf in H |- *. exact (proj1 (proj2 H)).
Defined.

(** A write of two bytes that reached the child. *)
Definition written : Input :=
  default new_input (in_moves ([Writes [5; 6]%Z; Turns 0; Turns 0] ++ replicate 6 (Feeds None)) new_input).

Lemma written_running : input_running written.
Proof. apply after_in_moves. Qed.

Lemma stdin_arrives_in_order_witness :
  delivered written = [5; 6]%Z /\ accepted written = delivered written ++ held_in (feeder written) ++ data (in_ring written).
Proof.
  split; [vm_compute; reflexivity|]. exact (proj1 (stdin_arrives_in_order written written_running)).
Defined.
End StreamsExample.
