(* ===== verification/Process.v ===== *)
(** * The process provider ([jinnd-wasm/src/hostprocess.rs], [hostprocess/child.rs],
    [ops.rs], [reap.rs])

    A table of children behind the broker: admission under the caller's exec
    allowlist, the tasks that supervise a child and move its streams, the
    operations on a handle, the release of a seat, and the bounded one-shot
    [run]. Children, their supervisors, their streams and any number of calls
    are interleaved between any two critical sections; what the operating
    system answers is an input. *)

From stdpp Require Import base gmap sets list strings pretty relations.
From S2P Require Import Prelude Api Entries Paths Grants Broker Disk Spill Wire Streams Handles.

Definition PROCESS_CONTRACT : string := "jinn:process".

(** ** Admission *)

Section Admission.
(** How a failure of [canonicalize] is displayed. *)
Context (display : IoError -> string).

Definition is_absolute (path : Path) : bool := match path with RootDir :: _ => true | _ => false end.

(** [allowed]. *)
Definition under_prefix (links : Links) (resolved : Path) (prefix : string) : bool :=
  match links (components prefix) with Ok p => bool_decide (p `prefix_of` resolved) | Err _ => false end.

Definition allowed (links : Links) (command : string) (prefixes : list string) : result Path string :=
  if negb (is_absolute (components command)) then
    Err ("process command must be absolute: " +:+ debug_str command)
  else
    match links (components command) with
    | Err error =>
        Err ("process command unresolvable, refused: " +:+ debug_str command +:+ ": " +:+ display error)
    | Ok resolved =>
        if existsb (under_prefix links resolved) prefixes then Ok resolved
        else Err ("process command outside the caller's exec allowlist: " +:+ debug_str command)
    end.

(** [HostProcess::authorize]; [joined] is false when the blocking task died. *)
Definition authorize `{Callers} {T} (links : Links) (joined : bool) (caller : PeerId) (command : string)
    (c : ProviderCore T) : result (Path * ProcessScope) KernelError * ProviderCore T :=
  match policy_of caller c with
  | Some (ProcessGrant scope) =>
      match (if joined then allowed links command (exec scope) else Err "process resolution task failed"%string) with
      | Ok program => (Ok (program, scope), c)
      | Err text => let '(error, c) := refuse caller ScopeMismatch text c in (Err error, c)
      end
  | _ => let '(error, c) := refuse caller NotGranted "process caller holds no policy" c in (Err error, c)
  end.
End Admission.

(** [command]: the program, its arguments, its directory and its whole
    environment; [daemon] is the daemon's own. *)
Record Command := MkCommand {
  program : Path;
  arguments : list string;
  directory : option string;
  environment : gmap string string;
}.

Definition allowed_env (daemon : string -> option string) (scope : ProcessScope) : gmap string string :=
  match env scope with
  | InheritNone => ∅
  | Allow names =>
      fold_left (fun m name => match daemon name with Some value => <[name := value]> m | None => m end) names ∅
  end.

Definition command_of (daemon : string -> option string) (program : Path) (args : list string) (cwd : option string)
    (env : list (string * string)) (scope : ProcessScope) : Command :=
  MkCommand program args cwd (fold_left (fun m p => <[p.1 := p.2]> m) env (allowed_env daemon scope)).

(** ** Children ([child.rs]) *)

Inductive Signal := Interrupt | Terminate | Kill.

#[export] Instance Signal_eq_dec : EqDecision Signal.
Proof. solve_decision. Defined.

Definition signal_from_wire (byte : Z) : option Signal :=
  if decide (byte = 0%Z) then Some Interrupt else if decide (byte = 1%Z) then Some Terminate
  else if decide (byte = 2%Z) then Some Kill else None.

Definition signal_name (s : Signal) : string :=
  match s with Interrupt => "interrupt" | Terminate => "terminate" | Kill => "kill" end.

(** What [wait] answers for a child: by a code, by a signal, or neither. *)
Inductive ExitStatus := ByCode (code : Z) | BySignal (signal : Z) | NoStatus.

Definition exit_code (status : ExitStatus) : Z :=
  match status with ByCode code => code | BySignal signal => (- signal)%Z | NoStatus => (-1)%Z end.

(** The supervisor: in its loop; out of it with the code, before the row;
    before the send; over. *)
Inductive Supervisor := Watching | Reaped (code : Z) | Recorded (code : Z) | Over (code : Z).

(** [control]: the signals sent and not yet received, while the supervisor
    listens. [received] is what was delivered to the child. *)
Record Child := MkChild {
  child_fiber : option FiberId;
  child_command : Command;
  stdin : Input;
  stdout : Output;
  stderr : Output;
  control : option (list Signal);
  supervisor : Supervisor;
  exited : option Z;
  received : list Signal;
}.

Definition new_child (fiber : option FiberId) (command : Command) : Child :=
  MkChild fiber command new_input new_output new_output (Some []) Watching None [].

Definition with_stdin (s : Input) (c : Child) : Child :=
  MkChild (child_fiber c) (child_command c) s (stdout c) (stderr c) (control c) (supervisor c) (exited c) (received c).
Definition with_stdout (s : Output) (c : Child) : Child :=
  MkChild (child_fiber c) (child_command c) (stdin c) s (stderr c) (control c) (supervisor c) (exited c) (received c).
Definition with_stderr (s : Output) (c : Child) : Child :=
  MkChild (child_fiber c) (child_command c) (stdin c) (stdout c) s (control c) (supervisor c) (exited c) (received c).
Definition with_supervisor (s : Supervisor) (c : Child) : Child :=
  MkChild (child_fiber c) (child_command c) (stdin c) (stdout c) (stderr c) (control c) s (exited c) (received c).
Definition with_control (q : option (list Signal)) (c : Child) : Child :=
  MkChild (child_fiber c) (child_command c) (stdin c) (stdout c) (stderr c) q (supervisor c) (exited c) (received c).
Definition deliver_signal (s : Signal) (c : Child) : Child :=
  MkChild (child_fiber c) (child_command c) (stdin c) (stdout c) (stderr c) (control c) (supervisor c) (exited c)
    (received c ++ [s]).

(** [exit.send], and the end of the task: its receiver goes. *)
Definition send_exit (code : Z) (c : Child) : Child :=
  MkChild (child_fiber c) (child_command c) (stdin c) (stdout c) (stderr c) None (Over code) (Some code) (received c).

(** The clones in the table name the child by its handle. *)
Record Row := MkRow { row_owner : PeerId; row_fiber : option FiberId }.

#[export] Instance owned_row : Owned Row := row_owner.

(** ** Calls ([ops.rs], [hostprocess.rs]) *)

Inductive HandleOp :=
  | WriteStdin (bytes : Bytes)
  | CloseStdin
  | Read (which : Z) (max : nat)
  | Wait (timeout_ms : Z)
  | Signals (s : Signal).

Section Operations.
Context `{Utf8}.
Local Open Scope result_scope.

(** The fields after the handle. *)
Definition parse_op (operation : string) (rest : Bytes) : result HandleOp KernelError :=
  let what := "process handle"%string in
  if decide (operation = "write-stdin") then Ok (WriteStdin rest)
  else if decide (operation = "close-stdin") then Ok CloseStdin
  else if decide (operation = "read") then
    let? which := read_u8 what rest in
    let? max := read_u32 what which.2 in
    Ok (Read which.1 (Nat.min (Z.to_nat max.1) STREAM_CAP))
  else if decide (operation = "wait") then let? timeout := read_u64 what rest in Ok (Wait timeout.1)
  else if decide (operation = "kill") then
    let? byte := read_u8 what rest in
    match signal_from_wire byte.1 with
    | Some s => Ok (Signals s)
    | None => Err (refusal PluginFailed "unknown process signal")
    end
  else Err (refusal PluginFailed ("unknown process operation " +:+ debug_str operation)).
End Operations.

Definition answer_count (n : nat) : Bytes := le_bytes 4 (saturated n).
Definition answer_read (data : Bytes) (eof : bool) : Bytes :=
  encode_read (match data with [] => None | _ => Some data end) eof.
Definition answer_wait (exit : option Z) : Bytes :=
  match exit with Some code => TAG_DATA :: le_bytes 4 (code mod 2 ^ 32)%Z | None => [TAG_WOULD_BLOCK] end.

(** What a call has still to do. A spawn: its line on the ledger. An operation past its lookup. A write past [is_closed]. A kill past its check
    of the exit; past its send. A withdrawal past the removal; past its check;
    its release, stream by stream, its check, its send, its wait. *)
Inductive Task :=
  | RecordsSpawn (handle : Z) (caller : PeerId) (fiber : option FiberId) (command : string) (pid : Z)
  | Holds (caller : PeerId) (handle : Z) (fiber : option FiberId) (op : HandleOp)
  | Writes (caller : PeerId) (handle : Z) (bytes : Bytes)
  | Kills (caller : PeerId) (handle : Z) (fiber : option FiberId) (s : Signal)
  | RecordsKill (caller : PeerId) (handle : Z) (fiber : option FiberId) (s : Signal)
  | Withdraws (handle : Z) (fiber : option FiberId)
  | RecordsWithdraw (handle : Z) (fiber : option FiberId)
  | ReleasesOut (handle : Z)
  | ReleasesErr (handle : Z)
  | ReleasesIn (handle : Z)
  | ChecksExit (handle : Z)
  | SendsKill (handle : Z)
  | AwaitsExit (handle : Z).

Definition task_handle (t : Task) : Z :=
  match t with
  | RecordsSpawn h _ _ _ _ | Holds _ h _ _ | Writes _ h _ | Kills _ h _ _ | RecordsKill _ h _ _
  | Withdraws h _ | RecordsWithdraw h _ | ReleasesOut h | ReleasesErr h | ReleasesIn h | ChecksExit h | SendsKill h
  | AwaitsExit h => h
  end.

Record World := MkWorld {
  core : ProviderCore Row;
  children : gmap Z Child;
  tasks : list Task;
  answers : list (PeerId * result Bytes KernelError);
  withdrawn : list (Z * bool * result () KernelError);   (** whether it removed the row, and its answer *)
}.

Definition new_world : World := MkWorld (new_core PROCESS_CONTRACT) ∅ [] [] [].

Definition with_core (f : ProviderCore Row -> ProviderCore Row) (w : World) : World :=
  MkWorld (f (core w)) (children w) (tasks w) (answers w) (withdrawn w).
Definition on_child (handle : Z) (f : Child -> Child) (w : World) : World :=
  MkWorld (core w) (alter f handle (children w)) (tasks w) (answers w) (withdrawn w).
Definition with_tasks (ts : list Task) (w : World) : World :=
  MkWorld (core w) (children w) ts (answers w) (withdrawn w).
Definition answer (caller : PeerId) (r : result Bytes KernelError) (w : World) : World :=
  MkWorld (core w) (children w) (tasks w) (answers w ++ [(caller, r)]) (withdrawn w).
Definition released (handle : Z) (r : result () KernelError) (w : World) : World :=
  MkWorld (core w) (children w) (tasks w) (answers w) (withdrawn w ++ [(handle, true, r)]).
(** The answer of a withdrawal that found no row. *)
Definition absent (handle : Z) (w : World) : World :=
  MkWorld (core w) (children w) (tasks w) (answers w) (withdrawn w ++ [(handle, false, Ok ())]).

Definition not_reaped : KernelError :=
  refusal EffectFailed "process release: the child was not reaped after SIGKILL".

Definition spawn_failed (command error : string) : KernelError :=
  refusal PluginFailed ("process spawn " +:+ debug_str command +:+ ": " +:+ error).

(** The send of a signal: false once the receiver is gone. *)
Definition send_signal (s : Signal) (c : Child) : bool * Child :=
  match control c with Some q => (true, with_control (Some (q ++ [s])) c) | None => (false, c) end.

Section Steps.
Context `{Utf8} `{Callers} (display : IoError -> string).

(** [spawn] up to its row: the refusals, then the child the system started, its
    tasks and the row; nobody knows the handle in between. Its line on the
    ledger comes after, when the tasks already run. *)
Definition begin_spawn (links : Links) (joined : bool) (daemon : string -> option string) (os : result Z string)
    (caller : PeerId) (payload : Bytes) (w : World) : World :=
  match decode_spawn payload with
  | Err error => answer caller (Err error) w
  | Ok (command, args, cwd, env) =>
      match authorize display links joined caller command (core w) with
      | (Err error, c) => answer caller (Err error) (with_core (fun _ => c) w)
      | (Ok (program, scope), c) =>
          let fiber := attribution_of caller in
          match os with
          | Err error => answer caller (Err (spawn_failed command error)) (with_core (fun _ => c) w)
          | Ok pid =>
              let '(handle, c) := mint_handle c in
              MkWorld (insert_row handle (MkRow caller fiber) c)
                (<[handle := new_child fiber (command_of daemon program args cwd env scope)]> (children w))
                (tasks w ++ [RecordsSpawn handle caller fiber command pid]) (answers w) (withdrawn w)
          end
      end
  end.

(** [handle_op] up to its own row. *)
Definition begin_op (caller : PeerId) (operation : string) (payload : Bytes) (w : World) : World :=
  match read_u64 "process handle" payload with
  | Err error => answer caller (Err error) w
  | Ok (handle, rest) =>
      match row_for caller handle (core w) with
      | (Err error, c) => answer caller (Err error) (with_core (fun _ => c) w)
      | (Ok row, _) =>
          match parse_op operation rest with
          | Err error => answer caller (Err error) w
          | Ok op => with_tasks (tasks w ++ [Holds caller handle (row_fiber row) op]) w
          end
      end
  end.

(** [withdraw] up to the removal; without a row it is over. *)
Definition begin_withdraw (handle : Z) (w : World) : World :=
  let '(row, c) := remove_row handle (core w) in
  match row with
  | None => absent handle w
  | Some row => with_tasks (tasks w ++ [Withdraws handle (row_fiber row)]) (with_core (fun _ => c) w)
  end.

(** The next critical section of a task: what it leaves to do, and the world
    after it. [timeout]: the bound of a wait elapsed. *)
Definition run_task (t : Task) (timeout : bool) (w : World) : option (option Task * World) :=
  let child := children w !! task_handle t in
  match t with
  | RecordsSpawn h caller fiber command pid =>
      Some (None, answer caller (Ok (encode_handle h)) (with_core (record_row (ProcessSpawned h command pid) fiber) w))
  | Holds caller h fiber op =>
      c ← child;
      match op with
      | WriteStdin bytes =>
          if closed (in_ring (stdin c)) then Some (None, answer caller (Err stdin_closed) w)
          else Some (Some (Writes caller h bytes), w)
      | CloseStdin => Some (None, answer caller (Ok []) (on_child h (with_stdin (input_release (stdin c))) w))
      | Read which max =>
          let '((data, eof), s) := guest_take max (if decide (which = 0%Z) then stdout c else stderr c) in
          Some (None, answer caller (Ok (answer_read data eof))
            (on_child h (if decide (which = 0%Z) then with_stdout s else with_stderr s) w))
      | Wait _ =>
          if decide (exited c = None) then if timeout then Some (None, answer caller (Ok (answer_wait None)) w) else None
          else Some (None, answer caller (Ok (answer_wait (exited c))) w)
      | Signals s =>
          if decide (exited c = None) then Some (Some (Kills caller h fiber s), w)
          else Some (None, answer caller (Ok []) w)
      end
  | Writes caller h bytes =>
      c ← child;
      let '(n, s) := offer_end bytes (stdin c) in
      Some (None, answer caller (Ok (answer_count n))
        (on_child h (with_stdin (with_writers (writers s ++ [NotifiesSpace]) s)) w))
  | Kills caller h fiber s =>
      c ← child;
      let '(sent, c) := send_signal s c in
      Some (if sent : bool then (Some (RecordsKill caller h fiber s), on_child h (fun _ => c) w)
            else (None, answer caller (Ok []) w))
  | RecordsKill caller h fiber s =>
      Some (None, answer caller (Ok []) (with_core (record_row (ProcessKilled h (signal_name s)) fiber) w))
  | Withdraws h fiber =>
      c ← child;
      Some (Some (if decide (exited c = None) then RecordsWithdraw h fiber else ReleasesOut h), w)
  | RecordsWithdraw h fiber => Some (Some (ReleasesOut h), with_core (record_row (ProcessKilled h "kill") fiber) w)
  | ReleasesOut h => c ← child; Some (Some (ReleasesErr h), on_child h (with_stdout (guest_release (stdout c))) w)
  | ReleasesErr h => c ← child; Some (Some (ReleasesIn h), on_child h (with_stderr (guest_release (stderr c))) w)
  | ReleasesIn h => c ← child; Some (Some (ChecksExit h), on_child h (with_stdin (input_release (stdin c))) w)
  | ChecksExit h =>
      c ← child;
      Some (if decide (exited c = None) then (Some (SendsKill h), w) else (None, released h (Ok ()) w))
  | SendsKill h => c ← child; Some (Some (AwaitsExit h), on_child h (fun _ => (send_signal Kill c).2) w)
  | AwaitsExit h =>
      c ← child;
      if decide (exited c = None) then if timeout then Some (None, released h (Err not_reaped) w) else None
      else Some (None, released h (Ok ()) w)
  end.

(** What the supervisor sees: the child's end ([None] when [wait] fails), a
    signal to deliver, the last sender gone. *)
Inductive Seen := Ends (status : option ExitStatus) | Hears | HangsUp.

(** One critical section of [supervise]. *)
Definition supervise (h : Z) (seen : Seen) (w : World) : option World :=
  c ← children w !! h;
  match supervisor c with
  | Watching =>
      match seen with
      | Ends status =>
          Some (on_child h (with_supervisor (Reaped (match status with Some s => exit_code s | None => (-1)%Z end))) w)
      | Hears =>
          match control c with
          | Some (s :: q) => Some (on_child h (fun c => deliver_signal s (with_control (Some q) c)) w)
          | _ => None
          end
      | HangsUp =>
          if decide (control c = Some [] /\ table (core w) !! h = None /\ Forall (fun t => task_handle t <> h) (tasks w))
          then Some (on_child h (with_control None) w) else None
      end
  | Reaped code =>
      Some (on_child h (with_supervisor (Recorded code)) (with_core (record_row (ProcessExited h code) (child_fiber c)) w))
  | Recorded code => Some (on_child h (send_exit code) w)
  | Over _ => None
  end.

(** The tasks that move a stream: the pump and the feeder, and the calls'
    notifications. *)
Definition stream_move (m : Move) : bool := match m with Pumps _ | Serves _ => true | _ => false end.
Definition stdin_move (m : InMove) : bool := match m with Feeds _ | Turns _ => true | _ => false end.

Inductive ProcessMove :=
  | SpawnCall (links : Links) (joined : bool) (daemon : string -> option string) (os : result Z string)
      (caller : PeerId) (payload : Bytes)
  | OpCall (caller : PeerId) (operation : string) (payload : Bytes)
  | WithdrawCall (handle : Z)
  | TaskTurn (i : nat) (timeout : bool)
  | SupervisorTurn (handle : Z) (seen : Seen)
  | OutTurn (handle : Z) (m : Move)
  | ErrTurn (handle : Z) (m : Move)
  | InTurn (handle : Z) (m : InMove).

(** The counter does not wrap in the life of a process. *)
Definition process_move (m : ProcessMove) (w : World) : option World :=
  match m with
  | SpawnCall links joined daemon os caller payload =>
      if decide (next_handle (core w) + 1 < 2 ^ 64)%Z
      then Some (begin_spawn links joined daemon os caller payload w) else None
  | OpCall caller operation payload => Some (begin_op caller operation payload w)
  | WithdrawCall handle => Some (begin_withdraw handle w)
  | TaskTurn i timeout =>
      t ← tasks w !! i;
      done ← run_task t timeout w;
      Some (with_tasks (match done.1 with Some t => <[i := t]> (tasks w) | None => delete i (tasks w) end) done.2)
  | SupervisorTurn h seen => supervise h seen w
  | OutTurn h m =>
      c ← children w !! h;
      if stream_move m then s ← move m (stdout c); Some (on_child h (with_stdout s) w) else None
  | ErrTurn h m =>
      c ← children w !! h;
      if stream_move m then s ← move m (stderr c); Some (on_child h (with_stderr s) w) else None
  | InTurn h m =>
      c ← children w !! h;
      if stdin_move m then s ← in_move m (stdin c); Some (on_child h (with_stdin s) w) else None
  end.

Definition process_step (w w' : World) : Prop := exists m, process_move m w = Some w'.
Definition process_running : World -> Prop := reachable (fun w => w = new_world) process_step.
End Steps.

(** ** What always holds of the table and its children *)

(** The exits recorded for a handle, in order. *)
Definition exits (h : Z) (rows : Rows) : list Z :=
  omap (fun r : LedgerEventKind * option FiberId =>
    match r.1 with ProcessExited h' code => if decide (h' = h) then Some code else None | _ => None end) rows.

Arguments exits : simpl never.

Definition exit_rows (s : Supervisor) : list Z :=
  match s with Watching | Reaped _ => [] | Recorded code | Over code => [code] end.

Record child_ok (rows : Rows) (h : Z) (c : Child) : Prop := {
  out_ok : output_ok (stdout c) /\ drain (stdout c) = NoCollector;
  err_ok : output_ok (stderr c) /\ drain (stderr c) = NoCollector;
  stdin_ok : input_ok (stdin c);
  exit_recorded : exits h rows = exit_rows (supervisor c);
  exit_sent : exited c = match supervisor c with Over code => Some code | _ => None end;
}.

(** What a child never takes back: a closed stream, an exit. *)
Record child_le (c c' : Child) : Prop := {
  out_stays : closed (ring (stdout c)) = true -> closed (ring (stdout c')) = true;
  err_stays : closed (ring (stderr c)) = true -> closed (ring (stderr c')) = true;
  in_stays : closed (in_ring (stdin c)) = true -> closed (in_ring (stdin c')) = true;
  exit_stays : exited c <> None -> exited c' = exited c;
}.

Definition streams_closed (c : Child) : Prop :=
  closed (ring (stdout c)) = true /\ closed (ring (stderr c)) = true /\ closed (in_ring (stdin c)) = true.

(** How far a release is. *)
Definition released_to (t : Task) (c : Child) : Prop :=
  match t with
  | ReleasesErr _ => closed (ring (stdout c)) = true
  | ReleasesIn _ => closed (ring (stdout c)) = true /\ closed (ring (stderr c)) = true
  | ChecksExit _ | SendsKill _ | AwaitsExit _ => streams_closed c
  | _ => True
  end.

Definition is_release (t : Task) : bool :=
  match t with
  | Withdraws _ _ | RecordsWithdraw _ _ | ReleasesOut _ | ReleasesErr _ | ReleasesIn _ | ChecksExit _ | SendsKill _
  | AwaitsExit _ => true
  | _ => false
  end.

Definition task_ok (w : World) (t : Task) : Prop :=
  (is_release t = true -> table (core w) !! task_handle t = None) /\
  exists c, children w !! task_handle t = Some c /\ released_to t c.

Record process_ok (w : World) : Prop := {
  children_ok : forall h c, children w !! h = Some c -> child_ok (sink (core w)) h c;
  absent_ok : forall h, children w !! h = None -> exits h (sink (core w)) = [] /\ table (core w) !! h = None;
  numbered : forall h c, children w !! h = Some c -> (0 < h <= next_handle (core w))%Z;
  counted : (0 <= next_handle (core w) < 2 ^ 64)%Z;
  tasks_ok : Forall (task_ok w) (tasks w);
  withdrawn_ok : forall h r, (h, true, r) ∈ withdrawn w ->
    table (core w) !! h = None /\
    exists c, children w !! h = Some c /\ streams_closed c /\ (r = Ok () -> exited c <> None);
  absent_answers : forall h r, (h, false, r) ∈ withdrawn w -> r = Ok ();
}.

Lemma child_le_refl c : child_le c c.
Proof. by split. Qed.

Lemma streams_closed_le c c' : child_le c c' -> streams_closed c -> streams_closed c'.
Proof. intros [H1 H2 H3 _] (? & ? & ?). split; [auto|split; auto]. Qed.

Lemma released_to_le t c c' : child_le c c' -> released_to t c -> released_to t c'.
Proof.
  intros Hle. pose proof Hle as [H1 H2 H3 _].
  destruct t; cbn; try done; try (by apply streams_closed_le). intros [? ?]. split; auto.
Qed.

Lemma exits_app h rows rows' : exits h (rows ++ rows') = exits h rows ++ exits h rows'.
Proof. apply omap_app. Qed.

Lemma child_ok_rows rows rows' h c : exits h rows' = exits h rows -> child_ok rows h c -> child_ok rows' h c.
Proof. intros He [H1 H2 H3 H4 H5]. split; try done. by rewrite He. Qed.

(** A child moves on. *)
Lemma on_child_ok h f w :
  process_ok w ->
  (forall c, children w !! h = Some c -> child_ok (sink (core w)) h (f c) /\ child_le c (f c)) ->
  process_ok (on_child h f w).
Proof.
  intros [H1 H2 H3 H4 H5 H6 H7] Hf.
  assert (forall h' c, children w !! h' = Some c ->
    exists c', children (on_child h f w) !! h' = Some c' /\ child_le c c') as Hle.
  { intros h' c Hc. cbn. destruct (decide (h = h')) as [<-|Hn].
    - rewrite lookup_alter_eq, Hc. eexists. split; [done|]. by apply Hf.
    - rewrite lookup_alter_ne by done. exists c. split; [done|apply child_le_refl]. }
  split; cbn; try done.
  - intros h' c Hc. destruct (decide (h = h')) as [<-|Hn]; [|rewrite lookup_alter_ne in Hc by done; auto].
    rewrite lookup_alter_eq in Hc. destruct (children w !! h) as [c0|] eqn:E; [|done].
    injection Hc as <-. by apply Hf.
  - intros h' Hc. apply H2. destruct (decide (h = h')) as [<-|Hn]; [|by rewrite lookup_alter_ne in Hc].
    rewrite lookup_alter_eq in Hc. by destruct (children w !! h).
  - intros h' c Hc. destruct (decide (h = h')) as [<-|Hn]; [|rewrite lookup_alter_ne in Hc by done; eauto].
    rewrite lookup_alter_eq in Hc. destruct (children w !! h) eqn:E; [|done]. eauto.
  - eapply Forall_impl; [exact H5|]. intros t [Hr (c & Hc & Ht)]. split; [done|].
    destruct (Hle _ _ Hc) as (c' & Hc' & Hl). exists c'. split; [done|]. by eapply released_to_le.
  - intros h' r Hw. destruct (H6 _ _ Hw) as [Ht (c & Hc & Hs & Hx)]. split; [done|].
    destruct (Hle _ _ Hc) as (c' & Hc' & Hl). exists c'. split; [done|]. split; [by eapply streams_closed_le|].
    intros Hr. destruct Hl as [_ _ _ Hl]. rewrite Hl; auto.
Qed.

(** A row that is no exit is appended. *)
Lemma record_ok kind fiber w :
  (forall h code, kind <> ProcessExited h code) -> process_ok w -> process_ok (with_core (record_row kind fiber) w).
Proof.
  intros Hk [H1 H2 H3 H4 H5 H6 H7].
  assert (forall h, exits h (sink (core w) ++ [(kind, fiber)]) = exits h (sink (core w))) as He.
  { intros h. rewrite exits_app. unfold exits at 2. cbn. destruct kind; rewrite ?app_nil_r; try done.
    exfalso. by eapply Hk. }
  split; cbn; try done.
  - intros h c Hc. eapply child_ok_rows; [apply He|auto].
  - intros h Hc. rewrite He. auto.
Qed.

Lemma answer_ok caller r w : process_ok w -> process_ok (answer caller r w).
Proof. intros [H1 H2 H3 H4 H5 H6 H7]. by split. Qed.

Lemma with_tasks_ok ts w : process_ok w -> Forall (task_ok w) ts -> process_ok (with_tasks ts w).
Proof. intros [H1 H2 H3 H4 H5 H6 H7] Hts. by split. Qed.

Lemma released_ok h r w :
  process_ok w -> table (core w) !! h = None ->
  (exists c, children w !! h = Some c /\ streams_closed c /\ (r = Ok () -> exited c <> None)) ->
  process_ok (released h r w).
Proof.
  intros [H1 H2 H3 H4 H5 H6 H7] Ht Hc. split; cbn; try done.
  - intros h' r' [Hw|[= -> ->]%list_elem_of_singleton]%elem_of_app; [by apply H6|by split].
  - intros h' r' [Hw|Hw%list_elem_of_singleton]%elem_of_app; [by eapply H7|done].
Qed.

Lemma absent_process_ok h w : process_ok w -> process_ok (absent h w).
Proof.
  intros [H1 H2 H3 H4 H5 H6 H7]. split; cbn; try done.
  - intros h' r' [Hw|Hw%list_elem_of_singleton]%elem_of_app; [by apply H6|done].
  - intros h' r' [Hw|[= -> ->]%list_elem_of_singleton]%elem_of_app; [by eapply H7|done].
Qed.

(** *** Streams of a child *)

Lemma move_closed m s s' : move m s = Some s' -> closed (ring s) = true -> closed (ring s') = true.
Proof.
  intros Hm Hc. unfold move in Hm.
  assert (forall held, (ring_offer held (ring s)).2 = ring s) as Ho by (intros; unfold ring_offer; by rewrite Hc).
  assert (forall max, closed (ring_take max (ring s)).2 = true) as Ht by done.
  destruct m as [input|max| |i| |].
  - unfold pump_turn in Hm.
    destruct (pump s) as [ |held|held|held|held|held|held|v|v|v|held|held]; try done; try specialize (Ho held);
      try destruct (ring_offer held (ring s)); repeat (case_match; try done); injection Hm as <-;
      unfold notify_ready; cbn in *; subst; repeat case_match; done.
  - destruct (drain s); try done. injection Hm as <-. unfold guest_take. specialize (Ht max).
    by destruct (ring_take max (ring s)) as [[bytes eof] r].
  - destruct (drain s); try done. by injection Hm as <-.
  - unfold serve_notice in Hm. destruct (notices s !! i) as [[|]|]; try done; injection Hm as <-.
    + by destruct (notify_space_same (set_notices (delete i (notices s)) s)) as (-> & _).
    + unfold notify_ready. cbn. by destruct (drain s).
  - unfold drain_turn in Hm. specialize (Ht CHUNK).
    destruct (ring_take CHUNK (ring s)) as [[bytes eof] r].
    destruct (drain s) as [ | |some eof'| | | | |]; try done; injection Hm as <-; cbn; try done.
    + destruct some; [|done]. by destruct (notify_space_same s) as (-> & _).
    + by destruct (ready s).
  - assert (closed (ring (cut s)) = true) by (unfold cut, notify_ready; cbn; by destruct (drain s)).
    destruct (drain s); try done; by injection Hm as <-.
Qed.

Lemma in_move_closed m s s' : in_move m s = Some s' -> closed (in_ring s) = true -> closed (in_ring s') = true.
Proof.
  intros Hm Hc. destruct m as [written|bytes|i|]; cbn in Hm.
  - unfold feed_turn in Hm.
    assert (closed (ring_take CHUNK (in_ring s)).2 = true) as Ht by done.
    destruct (ring_take CHUNK (in_ring s)) as [[bytes eof] r].
    destruct (feeder s); try done; repeat (case_match; try done); by injection Hm as <-.
  - unfold offer_begin in Hm. by rewrite Hc in Hm.
  - unfold writer_turn in Hm. destruct (writers s !! i) as [[bytes| |]|]; try done; injection Hm as <-; cbn.
    + unfold offer_end, ring_offer. by rewrite Hc.
    + unfold rouse. cbn. by destruct (feeder s).
    + done.
  - by injection Hm as <-.
Qed.

Lemma guest_take_closed max s : closed (ring (guest_take max s).2) = closed (ring s).
Proof. done. Qed.

Section ChildSteps.
Context (rows : Rows) (h : Z) (c : Child).
Hypothesis Hok : child_ok rows h c.

Lemma with_stdout_ok s :
  output_ok s -> drain s = NoCollector -> (closed (ring (stdout c)) = true -> closed (ring s) = true) ->
  child_ok rows h (with_stdout s c) /\ child_le c (with_stdout s c).
Proof. destruct Hok as [H1 H2 H3 H4 H5]. intros Hs Hd Hc. by split; split. Qed.

Lemma with_stderr_ok s :
  output_ok s -> drain s = NoCollector -> (closed (ring (stderr c)) = true -> closed (ring s) = true) ->
  child_ok rows h (with_stderr s c) /\ child_le c (with_stderr s c).
Proof. destruct Hok as [H1 H2 H3 H4 H5]. intros Hs Hd Hc. by split; split. Qed.

Lemma with_stdin_ok s :
  input_ok s -> (closed (in_ring (stdin c)) = true -> closed (in_ring s) = true) ->
  child_ok rows h (with_stdin s c) /\ child_le c (with_stdin s c).
Proof. destruct Hok as [H1 H2 H3 H4 H5]. intros Hs Hc. by split; split. Qed.

Lemma with_control_ok q : child_ok rows h (with_control q c) /\ child_le c (with_control q c).
Proof. destruct Hok as [H1 H2 H3 H4 H5]. by split; split. Qed.

Lemma send_signal_ok s : child_ok rows h (send_signal s c).2 /\ child_le c (send_signal s c).2.
Proof.
  unfold send_signal. destruct (control c); [apply with_control_ok|]. split; [done|apply child_le_refl].
Qed.
End ChildSteps.

(** *** Steps *)

Lemma task_ok_holds w w' t t' :
  task_ok w t -> task_handle t' = task_handle t -> table (core w') = table (core w) ->
  (is_release t' = true -> is_release t = true) ->
  (forall c, children w !! task_handle t = Some c -> released_to t c ->
     exists c', children w' !! task_handle t = Some c' /\ released_to t' c') -> task_ok w' t'.
Proof.
  intros [Hr (c & Hc & Ht)] Eh Et Hrel Hstep. unfold task_ok. rewrite Eh, Et. split; [auto|]. by apply (Hstep c).
Qed.

Section Preserved.
Context `{Utf8} `{Callers} (display : IoError -> string).

Lemma with_core_same w : process_ok w -> process_ok (with_core (fun _ => core w) w).
Proof. by destruct w. Qed.

(** A task's turn: the world stays sound, and so does what the task has left. *)
Definition sound_turn (w : World) (t : Task) (done : option Task * World) : Prop :=
  process_ok done.2 /\ tasks done.2 = tasks w /\ forall t', done.1 = Some t' -> task_ok done.2 t'.

Lemma sound_stays w t t' :
  process_ok w -> task_ok w t -> task_handle t' = task_handle t -> is_release t' = is_release t ->
  (forall c, released_to t c -> released_to t' c) -> sound_turn w t (Some t', w).
Proof.
  intros Hw Ht Eh Er Hrel. split; [done|]. split; [done|]. intros ? [= <-].
  eapply task_ok_holds; [exact Ht|done|done|by rewrite Er|]. intros c Hc Hc'. exists c. auto.
Qed.

Lemma sound_record w t t' kind fiber :
  process_ok w -> task_ok w t -> (forall h code, kind <> ProcessExited h code) ->
  task_handle t' = task_handle t -> is_release t' = is_release t ->
  (forall c, released_to t c -> released_to t' c) -> sound_turn w t (Some t', with_core (record_row kind fiber) w).
Proof.
  intros Hw Ht Hk Eh Er Hrel. split; [by apply record_ok|]. split; [done|]. intros ? [= <-].
  eapply task_ok_holds; [exact Ht|done|done|by rewrite Er|]. intros c Hc Hc'. exists c. auto.
Qed.

Lemma sound_child w t t' f :
  process_ok w -> task_ok w t -> task_handle t' = task_handle t -> is_release t' = is_release t ->
  (forall c, children w !! task_handle t = Some c ->
     child_ok (sink (core w)) (task_handle t) (f c) /\ child_le c (f c)) ->
  (forall c, released_to t c -> released_to t' (f c)) -> sound_turn w t (Some t', on_child (task_handle t) f w).
Proof.
  intros Hw Ht Eh Er Hf Hrel. split; [by apply on_child_ok|]. split; [done|]. intros ? [= <-].
  eapply task_ok_holds; [exact Ht|done|done|by rewrite Er|]. intros c Hc Hc'. cbn.
  rewrite lookup_alter_eq, Hc. eexists. split; [done|]. auto.
Qed.

Lemma sound_over w t w' : process_ok w' -> tasks w' = tasks w -> sound_turn w t (None, w').
Proof. intros Hw Ht. by split. Qed.

(** A change of one child that its streams allow. *)
Lemma on_child_with w h c f :
  process_ok w -> children w !! h = Some c ->
  (child_ok (sink (core w)) h c -> child_ok (sink (core w)) h (f c) /\ child_le c (f c)) -> process_ok (on_child h f w).
Proof.
  intros Hw Hc Hf. apply on_child_ok; [done|]. intros c' Hc'. rewrite Hc in Hc'. injection Hc' as <-.
  apply Hf. by apply Hw.
Qed.

Lemma run_task_ok t timeout w next w' :
  process_ok w -> t ∈ tasks w -> run_task t timeout w = Some (next, w') -> sound_turn w t (next, w').
Proof.
  intros Hw Hin. pose proof (proj1 (Forall_forall _ _) (tasks_ok _ Hw) t Hin) as Ht.
  pose proof Ht as [Htab (c & Hc & Hrel)]. pose proof (children_ok _ Hw _ _ Hc) as Hok.
  pose proof Hok as [[Ho Hod] [He Hed] Hi Hx Hs].
  unfold run_task. rewrite Hc. cbn [mbind option_bind].
  destruct t as [h caller fiber command pid|caller h fiber op|caller h bytes|caller h fiber s|caller h fiber s
    |h fiber|h fiber|h|h|h|h|h|h]; cbn [task_handle] in *.
  - intros [= <- <-]. apply sound_over; [|done]. by apply answer_ok, record_ok.
  - destruct op as [bytes| |which max|ms|s].
    + destruct (closed _); intros [= <- <-]; [apply sound_over; [by apply answer_ok|done]|by apply sound_stays].
    + intros [= <- <-]. apply sound_over; [|done]. apply answer_ok, (on_child_with w h c); [done..|].
      intros _. apply with_stdin_ok; [done|by apply input_release_ok|done].
    + destruct (guest_take max (if decide (which = 0%Z) then stdout c else stderr c)) as [[data eof] s] eqn:Et.
      intros [= <- <-]. apply sound_over; [|done]. apply answer_ok, (on_child_with w h c); [done..|]. intros _.
      assert (s = (guest_take max (if decide (which = 0%Z) then stdout c else stderr c)).2) as -> by by rewrite Et.
      destruct (decide (which = 0%Z)); [apply with_stdout_ok|apply with_stderr_ok]; try done; by apply guest_take_ok.
    + destruct (decide _); [destruct timeout; [|done]|]; intros [= <- <-]; (apply sound_over; [by apply answer_ok|done]).
    + destruct (decide _); intros [= <- <-]; [by apply sound_stays|apply sound_over; [by apply answer_ok|done]].
  - destruct (offer_end bytes (stdin c)) as [n s] eqn:Eo. intros [= <- <-]. apply sound_over; [|done].
    apply answer_ok, (on_child_with w h c); [done..|]. intros _.
    assert (s = (offer_end bytes (stdin c)).2) as -> by by rewrite Eo.
    apply with_stdin_ok; [done|apply offer_end_ok; [done|by apply owed_writer_app; left]|].
    cbn. unfold offer_end, ring_offer. intros Hcl. by rewrite Hcl.
  - destruct (send_signal s c) as [sent c'] eqn:Es. assert (c' = (send_signal s c).2) as -> by by rewrite Es.
    destruct sent; intros [= <- <-].
    + apply (sound_child w (Kills caller h fiber s)); try done. cbn. intros c1 Hc1. rewrite Hc in Hc1.
      injection Hc1 as <-. by apply send_signal_ok.
    + apply sound_over; [by apply answer_ok|done].
  - intros [= <- <-]. apply sound_over; [|done]. by apply answer_ok, record_ok.
  - intros [= <- <-]. by destruct (decide _); apply sound_stays.
  - intros [= <- <-]. by apply sound_record.
  - intros [= <- <-]. apply (sound_child w (ReleasesOut h)); try done. cbn. intros c1 Hc1. rewrite Hc in Hc1.
    injection Hc1 as <-. by apply with_stdout_ok; [|apply guest_release_ok| |].
  - intros [= <- <-]. apply (sound_child w (ReleasesErr h)); try done. cbn. intros c1 Hc1. rewrite Hc in Hc1.
    injection Hc1 as <-. by apply with_stderr_ok; [|apply guest_release_ok| |].
  - intros [= <- <-]. apply (sound_child w (ReleasesIn h)); try done.
    + cbn. intros c1 Hc1. rewrite Hc in Hc1. injection Hc1 as <-. by apply with_stdin_ok; [|apply input_release_ok|].
    + cbn. intros c1 [? ?]. by split.
  - destruct (decide _) as [|Hn]; intros [= <- <-]; [by apply sound_stays|]. apply sound_over; [|done].
    apply released_ok; [done|by apply Htab|]. by exists c.
  - intros [= <- <-]. apply (sound_child w (SendsKill h)); try done.
    + cbn. intros c1 Hc1. rewrite Hc in Hc1. injection Hc1 as <-. by apply send_signal_ok.
    + cbn. intros c1 _. unfold send_signal. by destruct (control c).
  - destruct (decide _) as [|Hn]; [destruct timeout; [|done]|]; intros [= <- <-]; (apply sound_over; [|done]);
      (apply released_ok; [done|by apply Htab|]); exists c; done.
Qed.

Lemma exits_exit h h' code fiber :
  exits h [(ProcessExited h' code, fiber)] = if decide (h' = h) then [code] else [].
Proof. unfold exits. simpl. by destruct (decide (h' = h)). Qed.

(** The exit is recorded, once. *)
Lemma record_exit_ok h code c w :
  process_ok w -> children w !! h = Some c -> supervisor c = Reaped code ->
  process_ok (on_child h (with_supervisor (Recorded code)) (with_core (record_row (ProcessExited h code) (child_fiber c)) w)).
Proof.
  intros Hw Hc Es.
  assert (forall h' c', alter (with_supervisor (Recorded code)) h (children w) !! h' = Some c' ->
    exists c0, children w !! h' = Some c0 /\ child_le c0 c' /\ c' = (if decide (h = h') then with_supervisor (Recorded code) c0 else c0)) as Hb.
  { intros h' c' Hc'. destruct (decide (h = h')) as [<-|Hn].
    - rewrite lookup_alter_eq, Hc in Hc'. injection Hc' as <-. exists c. split; [done|]. split; [by split|done].
    - rewrite lookup_alter_ne in Hc' by done. exists c'. split; [done|]. split; [apply child_le_refl|done]. }
  assert (forall h' c0, children w !! h' = Some c0 ->
    exists c', alter (with_supervisor (Recorded code)) h (children w) !! h' = Some c' /\ child_le c0 c') as Hf.
  { intros h' c0 Hc0. destruct (decide (h = h')) as [<-|Hn].
    - rewrite lookup_alter_eq, Hc0. eexists. split; [done|]. by split.
    - rewrite lookup_alter_ne by done. exists c0. split; [done|apply child_le_refl]. }
  destruct Hw as [H1 H2 H3 H4 H5 H6 H7]. split; cbn.
  - intros h' c' Hc'. destruct (Hb _ _ Hc') as (c0 & Hc0 & _ & ->). pose proof (H1 _ _ Hc0) as [K1 K2 K3 K4 K5].
    destruct (decide (h = h')) as [<-|Hn].
    + rewrite Hc in Hc0. injection Hc0 as <-. split; cbn; try done.
      * rewrite exits_app, exits_exit, K4, Es. by rewrite decide_True by done.
      * by rewrite K5, Es.
    + split; try done. rewrite exits_app, exits_exit, K4. by rewrite decide_False, app_nil_r by done.
  - intros h' Hn. assert (children w !! h' = None) as Hn'.
    { destruct (children w !! h') eqn:E; [|done]. destruct (Hf _ _ E) as (c' & Hc' & _). by rewrite Hc' in Hn. }
    destruct (H2 _ Hn') as [He Ht]. split; [|done].
    rewrite exits_app, exits_exit, He, decide_False; [done|]. intros <-. by rewrite Hc in Hn'.
  - intros h' c' Hc'. destruct (Hb _ _ Hc') as (c0 & Hc0 & _). eauto.
  - done.
  - eapply Forall_impl; [exact H5|]. intros t [Hr (c0 & Hc0 & Ht)]. split; [done|].
    destruct (Hf _ _ Hc0) as (c' & Hc' & Hl). exists c'. split; [done|]. by eapply released_to_le.
  - intros h' r Hw. destruct (H6 _ _ Hw) as [Ht (c0 & Hc0 & Hs & Hx)]. split; [done|].
    destruct (Hf _ _ Hc0) as (c' & Hc' & Hl). exists c'. split; [done|]. split; [by eapply streams_closed_le|].
    intros Hr. destruct Hl as [_ _ _ Hl]. rewrite Hl; auto.
  - done.
Qed.

Lemma supervise_ok h seen w w' : process_ok w -> supervise h seen w = Some w' -> process_ok w'.
Proof.
  intros Hw. unfold supervise. destruct (children w !! h) as [c|] eqn:Hc; [|done]. cbn.
  pose proof (children_ok _ Hw _ _ Hc) as Hok. pose proof Hok as [Ho He Hi Hx Hs].
  destruct (supervisor c) as [|code|code|code] eqn:Es; [|intros [= <-]|intros [= <-]|done].
  - destruct seen as [status| |].
    + intros [= <-]. apply (on_child_with w h c); [done..|]. intros _. by split; split.
    + destruct (control c) as [[|s q]|] eqn:Eq; try done. intros [= <-]. apply (on_child_with w h c); [done..|].
      intros _. split; split; cbn; rewrite ?Es; try done.
    + destruct (decide _); [|done]. intros [= <-]. apply (on_child_with w h c); [done..|]. intros _.
      by apply with_control_ok.
  - by apply (record_exit_ok h code c).
  - apply (on_child_with w h c); [done..|]. intros _. by split; split.
Qed.

Lemma begin_spawn_ok links joined daemon os caller payload w :
  process_ok w -> (next_handle (core w) + 1 < 2 ^ 64)%Z ->
  process_ok (begin_spawn display links joined daemon os caller payload w).
Proof.
  intros Hw Hroom. unfold begin_spawn. destruct (decode_spawn payload) as [[[[command args] cwd] env]|error];
    [|by apply answer_ok].
  assert (forall kind reason text, process_ok (answer caller kind (with_core (fun _ => (refuse caller reason text (core w)).2) w))) as Href.
  { intros. apply answer_ok. by apply (record_ok _ _ w). }
  unfold authorize. destruct (policy_of caller (core w)) as [[|?|scope|?|?|?]|]; try by apply Href.
  destruct (if joined then _ else _) as [program|text]; [|by apply Href].
  destruct os as [pid|error]; [|by apply answer_ok, (with_core_same w)].
  destruct Hw as [H1 H2 H3 H4 H5 H6 H7]. set (h := (next_handle (core w) + 1)%Z).
  assert (children w !! h = None) as Hfresh.
  { destruct (children w !! h) as [c|] eqn:E; [|done]. apply H3 in E. unfold h in E. lia. }
  destruct (H2 h Hfresh) as [Hx Ht].
  split; cbn; fold h.
  - intros h' c. destruct (decide (h = h')) as [<-|Hn]; [|rewrite lookup_insert_ne by done; auto].
    rewrite lookup_insert_eq. intros [= <-]. split; cbn; try done; try (by split; [apply output_ok_init; left|]).
    split; cbn; try done. lia.
  - intros h' Hc. destruct (decide (h = h')) as [<-|Hn]; [by rewrite lookup_insert_eq in Hc|].
    rewrite lookup_insert_ne in Hc by done. rewrite lookup_insert_ne by done. auto.
  - rewrite Z.mod_small by lia. intros h' c. destruct (decide (h = h')) as [<-|Hn]; [lia|].
    rewrite lookup_insert_ne by done. intros Hc. apply H3 in Hc. lia.
  - rewrite Z.mod_small; lia.
  - apply Forall_app. split.
    + eapply Forall_impl; [exact H5|]. intros t [Hr (c & Hc & Hrel)].
      assert (h <> task_handle t) by (intros E; rewrite <-E, Hfresh in Hc; done).
      split; cbn; fold h; rewrite !lookup_insert_ne by done; [done|by exists c].
    + constructor; [|constructor]. split; cbn; [done|]. eexists. fold h. by rewrite lookup_insert_eq.
  - intros h' r Hr. destruct (H6 _ _ Hr) as [Htab (c & Hc & Hs)].
    assert (h <> h') by (intros <-; by rewrite Hfresh in Hc). rewrite !lookup_insert_ne by done. split; [done|by exists c].
  - done.
Qed.

Lemma begin_op_ok caller operation payload w : process_ok w -> process_ok (begin_op caller operation payload w).
Proof.
  intros Hw. unfold begin_op. destruct (read_u64 _ payload) as [[h rest]|error]; [|by apply answer_ok].
  pose proof (row_for_cases caller h (core w)) as Hr. destruct (row_for caller h (core w)) as [[row|error] c].
  - destruct Hr as (Hrow & _ & ->). destruct (parse_op operation rest) as [op|error]; [|by apply answer_ok].
    apply with_tasks_ok; [done|]. apply Forall_app. split; [by apply Hw|]. constructor; [|constructor].
    split; cbn; [done|]. destruct (children w !! h) as [ch|] eqn:E; [by exists ch|].
    destruct (absent_ok _ Hw _ E) as [_ Hn]. by rewrite Hn in Hrow.
  - apply answer_ok. destruct Hr as [(_ & _ & ->)|(row & _ & _ & ->)]; [by apply (with_core_same w)|].
    by apply (record_ok _ _ w).
Qed.

Lemma begin_withdraw_ok h w : process_ok w -> process_ok (begin_withdraw h w).
Proof.
  intros Hw. unfold begin_withdraw, remove_row. destruct (table (core w) !! h) as [row|] eqn:Et; [|by apply absent_process_ok].
  pose proof Hw as [H1 H2 H3 H4 H5 H6 H7].
  assert (forall h', table (core w) !! h' = None -> delete h (table (core w)) !! h' = None) as Hdel.
  { intros h' Hn. destruct (decide (h = h')) as [<-|]; [apply lookup_delete_eq|by rewrite lookup_delete_ne]. }
  assert (is_Some (children w !! h)) as [c Hc].
  { destruct (children w !! h) eqn:E; [done|]. destruct (H2 _ E) as [_ Hn]. by rewrite Hn in Et. }
  split; cbn; try done.
  - intros h' Hn. destruct (H2 _ Hn). auto.
  - apply Forall_app. split.
    + eapply Forall_impl; [exact H5|]. intros t [Hr Hrest]. split; [cbn; auto|done].
    + constructor; [|constructor]. split; cbn; [intros _; apply lookup_delete_eq|by exists c].
  - intros h' r Hr. destruct (H6 _ _ Hr) as [Htab Hrest]. auto.
Qed.

Lemma process_step_ok w w' : process_ok w -> process_step display w w' -> process_ok w'.
Proof.
  intros Hw [m Hm]. destruct m as [links joined daemon os caller payload|caller operation payload|h|i timeout|h seen|h m|h m|h m];
    cbn in Hm.
  - destruct (decide _); [|done]. injection Hm as <-. by apply begin_spawn_ok.
  - injection Hm as <-. by apply begin_op_ok.
  - injection Hm as <-. by apply begin_withdraw_ok.
  - destruct (tasks w !! i) as [t|] eqn:Ei; [|done]. cbn in Hm.
    destruct (run_task t timeout w) as [[next w1]|] eqn:Er; [|done]. injection Hm as <-.
    destruct (run_task_ok t timeout w next w1 Hw ltac:(by eapply list_elem_of_lookup_2) Er) as (Hw1 & Et & Hnext).
    cbn in *. apply with_tasks_ok; [done|]. pose proof (tasks_ok _ Hw1) as Hts. rewrite Et in Hts.
    destruct next as [t'|]; [by apply Forall_insert; [|apply Hnext]|by apply Forall_delete].
  - by eapply supervise_ok.
  - destruct (children w !! h) as [c|] eqn:Hc; [|done]. cbn in Hm. destruct (stream_move m); [|done].
    destruct (move m (stdout c)) as [s|] eqn:E; [|done]. injection Hm as <-.
    apply (on_child_with w h c); [done..|]. intros Hok. pose proof Hok as [[Ho Hd] _ _ _ _].
    apply with_stdout_ok; [done|by eapply output_step_ok; [|exists m]|by eapply move_no_collector|by eapply move_closed].
  - destruct (children w !! h) as [c|] eqn:Hc; [|done]. cbn in Hm. destruct (stream_move m); [|done].
    destruct (move m (stderr c)) as [s|] eqn:E; [|done]. injection Hm as <-.
    apply (on_child_with w h c); [done..|]. intros Hok. pose proof Hok as [_ [Ho Hd] _ _ _].
    apply with_stderr_ok; [done|by eapply output_step_ok; [|exists m]|by eapply move_no_collector|by eapply move_closed].
  - destruct (children w !! h) as [c|] eqn:Hc; [|done]. cbn in Hm. destruct (stdin_move m); [|done].
    destruct (in_move m (stdin c)) as [s|] eqn:E; [|done]. injection Hm as <-.
    apply (on_child_with w h c); [done..|]. intros Hok. pose proof Hok as [_ _ Hi _ _].
    apply with_stdin_ok; [done|by eapply input_step_ok; [|exists m]|by eapply in_move_closed].
Qed.

Lemma process_running_ok w : process_running display w -> process_ok w.
Proof.
  apply reachable_invariant; [|exact process_step_ok]. intros ? ->. split; cbn; try done.
  all: intros h r Hr; by apply elem_of_nil in Hr.
Qed.
End Preserved.

(** ** The one-shot ([HostProcess::run], [reap_on_record]) *)

Inductive Stop := Done | Failed | Overflowed | Bound.

(** The call: in its loop, with what [wait] and the drain came to; joining the
    pump; before the cut; before the row of the truncation; before the row of
    the kill; at the reap; over, with whether the reap was left to a task. *)
Inductive RunPc :=
  | Selecting (exit : option (option ExitStatus)) (output : option bool)
  | Finishing
  | Cutting (stop : Stop) (live : bool)
  | Truncating (live : bool)
  | Killing (stop : Stop)
  | Reaping (stop : Stop)
  | Answered (r : result Bytes KernelError) (pending : bool).

(** [run_rows]: what the call and its task appended, in order. *)
Record Run := MkRun { run_handle : Z; run_command : string; output : Output; run_pc : RunPc; run_rows : list LedgerEventKind }.

Definition goto (pc : RunPc) (r : Run) : Run := MkRun (run_handle r) (run_command r) (output r) pc (run_rows r).
Definition with_output (s : Output) (r : Run) : Run := MkRun (run_handle r) (run_command r) s (run_pc r) (run_rows r).
Definition appends (kind : LedgerEventKind) (r : Run) : Run :=
  MkRun (run_handle r) (run_command r) (output r) (run_pc r) (run_rows r ++ [kind]).

Definition run_failed (command what : string) : KernelError :=
  refusal PluginFailed ("process run " +:+ debug_str command +:+ ": " +:+ what).

(** [run] up to its loop. *)
Definition begin_run `{Utf8} `{Callers} (display : IoError -> string) (links : Links) (joined : bool)
    (os : result Z string) (caller : PeerId) (payload : Bytes) (c : ProviderCore Row) :
    result Run KernelError * ProviderCore Row :=
  match decode_run payload with
  | Err error => (Err error, c)
  | Ok (command, args) =>
      match authorize display links joined caller command c with
      | (Err error, c) => (Err error, c)
      | (Ok (program, scope), c) =>
          match os with
          | Err error => (Err (run_failed command error), c)
          | Ok pid =>
              let '(handle, c) := mint_handle c in
              let row := ProcessSpawned handle command pid in
              (Ok (MkRun handle command new_collector (Selecting None None) [row]),
               record_row row (attribution_of caller) c)
          end
      end
  end.

(** The match after each [select!]. *)
Definition stopped (exit : option (option ExitStatus)) (output : option bool) : option Stop :=
  match exit, output with
  | Some None, _ => Some Failed
  | _, Some false => Some Overflowed
  | Some (Some _), Some true => Some Done
  | _, _ => None
  end.

Definition is_live (exit : option (option ExitStatus)) : bool := match exit with None => true | Some _ => false end.

Definition select (exit : option (option ExitStatus)) (output : option bool) : RunPc :=
  match stopped exit output with
  | None => Selecting exit output
  | Some Done => Finishing
  | Some stop => Cutting stop (is_live exit)
  end.

Definition held_open : string :=
  "stdout held open past the bound after the exit (a descendant inherited the pipe; use spawn for long-lived children)".

(** What a stop answers once its child is dealt with. *)
Definition stop_answer (stop : Stop) (live : bool) (r : Run) : result Bytes KernelError :=
  match stop with
  | Overflowed => Ok [TAG_TRUNCATED]
  | Bound => Err (run_failed (run_command r) (if live then "exceeded its bound and was killed" else held_open))
  | Failed | Done => Err (run_failed (run_command r) "the wait failed")
  end.

(** A reap that landed within its bound, or did not, and then by the task left
    with it ([reap.rs]). *)
Inductive ReapMove := ReapedIn (code : Z) | ReapBound | ReapedLate (code : Z).

Definition reap_on_record (m : ReapMove) (r : Run) : option Run :=
  match m, run_pc r with
  | ReapedIn code, Reaping stop =>
      Some (goto (Answered (stop_answer stop true r) false) (appends (ProcessExited (run_handle r) code) r))
  | ReapBound, Reaping stop =>
      Some (goto (Answered (stop_answer stop true r) true) (appends (ProcessReapPending (run_handle r)) r))
  | ReapedLate code, Answered a true => Some (goto (Answered a false) (appends (ProcessExited (run_handle r) code) r))
  | _, _ => None
  end.

(** [Waited]: [wait] answered, [None] when it failed; [DrainSeen]: the drain is
    over; [Elapsed]: the deadline; [Joined]: the pump's task; [Goes]: the next
    critical section; [Reaps]: the reap of a child it killed. *)
Inductive RunMove :=
  | Waited (status : option ExitStatus)
  | DrainSeen
  | Elapsed
  | StreamTurn (m : Move)
  | Joined (dead : string)
  | Goes
  | Reaps (m : ReapMove).

Definition run_move (m : RunMove) (r : Run) : option Run :=
  match m, run_pc r with
  | Waited status, Selecting None out =>
      let r := match status with Some s => appends (ProcessExited (run_handle r) (exit_code s)) r | None => r end in
      Some (goto (select (Some status) out) r)
  | DrainSeen, Selecting exit None =>
      match drain (output r) with
      | Drained => Some (goto (select exit (Some true)) r)
      | Overflow => Some (goto (select exit (Some false)) r)
      | _ => None
      end
  | Elapsed, Selecting exit _ => Some (goto (Cutting Bound (is_live exit)) r)
  | StreamTurn (Pumps input), _ => s ← move (Pumps input) (output r); Some (with_output s r)
  | StreamTurn Drains, Selecting _ None => s ← move Drains (output r); Some (with_output s r)
  | Joined dead, Finishing =>
      answer ← finish dead (output r);
      Some (goto (Answered (match answer with Ok bytes => Ok (TAG_DATA :: bytes) | Err error => Err error end) false) r)
  | Goes, Cutting stop live =>
      s ← move Cuts (output r);
      Some (goto (match stop with
                  | Overflowed => Truncating live
                  | Bound => if live then Killing Bound else Answered (stop_answer Bound false r) false
                  | _ => Answered (stop_answer stop live r) false
                  end) (with_output s r))
  | Goes, Truncating live =>
      Some (goto (if live then Killing Overflowed else Answered (stop_answer Overflowed false r) false)
        (appends (ProcessOutputTruncated (run_handle r) RUN_OUTPUT_CAP) r))
  | Goes, Killing stop => Some (goto (Reaping stop) (appends (ProcessKilled (run_handle r) "kill") r))
  | Reaps m, _ => reap_on_record m r
  | _, _ => None
  end.

Definition run_init (r : Run) : Prop :=
  exists handle command pid, r = MkRun handle command new_collector (Selecting None None) [ProcessSpawned handle command pid].
Definition run_step (r r' : Run) : Prop := exists m, run_move m r = Some r'.
Definition run_running : Run -> Prop := reachable run_init run_step.

(** ** What a run leaves on the record and answers *)

(** The rows after the spawn, before the answer. *)
Inductive told (h : Z) : RunPc -> list LedgerEventKind -> Prop :=
  | told_start out : out <> Some false -> told h (Selecting None out) []
  | told_exit c s : told h (Selecting (Some (Some s)) None) [ProcessExited h c]
  | told_done c : told h Finishing [ProcessExited h c]
  | told_failed : told h (Cutting Failed false) []
  | told_cut_live stop : stop = Overflowed \/ stop = Bound -> told h (Cutting stop true) []
  | told_cut_dead stop c : stop = Overflowed \/ stop = Bound -> told h (Cutting stop false) [ProcessExited h c]
  | told_truncating_live : told h (Truncating true) []
  | told_truncating_dead c : told h (Truncating false) [ProcessExited h c]
  | told_killing stop before : told_before h stop before -> told h (Killing stop) before
  | told_reaping stop before :
      told_before h stop before -> told h (Reaping stop) (before ++ [ProcessKilled h "kill"])
with told_before (h : Z) : Stop -> list LedgerEventKind -> Prop :=
  | before_overflow : told_before h Overflowed [ProcessOutputTruncated h RUN_OUTPUT_CAP]
  | before_bound : told_before h Bound [].

(** The rows of a kill: the kill, then the exit within the bound, or a pending
    reap and the exit when it lands. *)
Definition killed (h : Z) (pending : bool) (rows : list LedgerEventKind) : Prop :=
  if pending then rows = [ProcessKilled h "kill"; ProcessReapPending h]
  else exists c, rows = [ProcessKilled h "kill"; ProcessExited h c] \/
                 rows = [ProcessKilled h "kill"; ProcessReapPending h; ProcessExited h c].

(** How a run ends: its answer, the stream, and everything on the record after
    the spawn. *)
Inductive ended (h : Z) (command : string) (s : Output) (rows : list LedgerEventKind) : result Bytes KernelError -> bool -> Prop :=
  | ended_whole c :
      pump s = Ended (Ok ()) -> rows = [ProcessExited h c] ->
      ended h command s rows (Ok (TAG_DATA :: pumped s)) false
  | ended_torn error c :
      pump s = Ended (Err error) -> rows = [ProcessExited h c] ->
      ended h command s rows (Err (collector_error error)) false
  | ended_truncated_dead c :
      (RUN_OUTPUT_CAP < Z.of_nat (length (taken s)))%Z ->
      rows = [ProcessExited h c; ProcessOutputTruncated h RUN_OUTPUT_CAP] ->
      ended h command s rows (Ok [TAG_TRUNCATED]) false
  | ended_truncated_live pending rest :
      (RUN_OUTPUT_CAP < Z.of_nat (length (taken s)))%Z ->
      rows = ProcessOutputTruncated h RUN_OUTPUT_CAP :: rest -> killed h pending rest ->
      ended h command s rows (Ok [TAG_TRUNCATED]) pending
  | ended_bound pending :
      killed h pending rows ->
      ended h command s rows (Err (run_failed command "exceeded its bound and was killed")) pending
  | ended_held_open c :
      rows = [ProcessExited h c] -> ended h command s rows (Err (run_failed command held_open)) false
  | ended_wait_failed :
      rows = [] -> ended h command s rows (Err (run_failed command "the wait failed")) false.

Definition on_record (h : Z) (command : string) (s : Output) (pc : RunPc) (rows : list LedgerEventKind) : Prop :=
  match pc with Answered a pending => ended h command s rows a pending | pc => told h pc rows end.

(** What the stream is at each point of the call. *)
Definition drain_at (pc : RunPc) (s : Output) : Prop :=
  match pc with
  | Selecting _ out => match out with None => True | Some true => drain s = Drained | Some false => drain s = Overflow end
  | Finishing => drain s = Drained
  | Cutting Overflowed _ | Truncating _ | Killing Overflowed | Reaping Overflowed => drain s = Overflow
  | _ => True
  end.

Definition not_aborted (pc : RunPc) (s : Output) : Prop :=
  match pc with Selecting _ _ | Finishing => forall held, pump s <> Aborted held | _ => True end.

Record run_ok (r : Run) : Prop := {
  stream_ok : output_ok (output r);
  collecting : drain (output r) <> NoCollector;
  drained_at : drain_at (run_pc r) (output r);
  pump_alive : not_aborted (run_pc r) (output r);
  history : exists command pid rows,
    run_rows r = ProcessSpawned (run_handle r) command pid :: rows /\
    on_record (run_handle r) (run_command r) (output r) (run_pc r) rows;
}.

Lemma notify_ready_keeps s :
  taken (notify_ready s) = taken s /\ (drain s <> Sleeping -> drain (notify_ready s) = drain s) /\
  (drain s <> NoCollector -> drain (notify_ready s) <> NoCollector) /\ pump (notify_ready s) = pump s /\
  pumped (notify_ready s) = pumped s.
Proof. unfold notify_ready. destruct (drain s) eqn:E; cbn; rewrite ?E; repeat split; done. Qed.

Lemma pump_keeps input s s' :
  pump_turn input s = Some s' ->
  taken s' = taken s /\ (drain s <> Sleeping -> drain s' = drain s) /\ (drain s <> NoCollector -> drain s' <> NoCollector) /\
  (forall held, pump s' <> Aborted held).
Proof.
  unfold pump_turn. intros Hp.
  destruct (pump s) as [ |held|held|held|held|held|held|v|v|v|held|held] eqn:Ep; try done; cbn in *.
  - destruct input as [[|b bytes]|error]; [|destruct (decide _); [|done]|]; by injection Hp as <-.
  - destruct (ring_offer held (ring s)). by injection Hp as <-.
  - injection Hp as <-. set (s1 := set_pump _ s). destruct (notify_ready_keeps s1) as (-> & Hd & Hn & -> & _).
    repeat split; [done..|]. unfold s1. cbn. by destruct held.
  - injection Hp as <-. by destruct (closed (ring s)).
  - injection Hp as <-. by destruct (space s).
  - destruct (ring_offer held (ring s)). by injection Hp as <-.
  - by injection Hp as <-.
  - injection Hp as <-. set (s1 := set_pump _ s). by destruct (notify_ready_keeps s1) as (-> & Hd & Hn & -> & _).
Qed.

Lemma drain_keeps s s' :
  drain_turn s = Some s' -> (forall held, pump s <> Aborted held) ->
  drain s' <> NoCollector /\ (forall held, pump s' <> Aborted held).
Proof.
  unfold drain_turn. intros Hd Hp.
  destruct (drain s) as [ | |some eof| | | | |]; try done.
  - destruct (ring_take CHUNK (ring s)) as [[bytes eof] r]. by injection Hd as <-.
  - injection Hd as <-. cbn. split; [by repeat case_match|]. destruct some; [|done].
    unfold notify_space. by destruct (pump s) eqn:E; cbn; rewrite ?E.
  - injection Hd as <-. by destruct (ready s).
  - destruct (ring_take CHUNK (ring s)) as [[bytes eof] r]. by injection Hd as <-.
Qed.

Lemma cut_keeps s :
  taken (cut s) = taken s /\ (drain s = Overflow -> drain (cut s) = Overflow) /\
  (drain s <> NoCollector -> drain (cut s) <> NoCollector).
Proof.
  unfold cut. match goal with |- context [notify_ready ?x] => destruct (notify_ready_keeps x) as (-> & Hd & Hn & _) end.
  split; [done|]. split; [|done]. intros E. rewrite <-E at 1. apply Hd. cbn. by rewrite E.
Qed.

Lemma ended_kept h command s s' rows a pending input :
  ended h command s rows a pending -> pump_turn input s = Some s' -> ended h command s' rows a pending.
Proof.
  intros He Hp. destruct (pump_keeps _ _ _ Hp) as (Ht & _).
  destruct He as [? E ?|? ? E ?|? ?|? ? ?|? ?|? ?|?]; try (unfold pump_turn in Hp; by rewrite E in Hp).
  - by eapply ended_truncated_dead; [rewrite Ht|].
  - by eapply ended_truncated_live; [rewrite Ht| |].
  - by apply ended_bound.
  - by eapply ended_held_open.
  - by apply ended_wait_failed.
Qed.

Lemma run_ok_init r : run_init r -> run_ok r.
Proof.
  intros (h & command & pid & ->). split; cbn; try done; [by apply output_ok_init; right|].
  exists command, pid, []. split; [done|]. by constructor.
Qed.

(** The call moves on, the stream as it was. *)
Lemma goto_ok r pc more :
  run_ok r -> drain_at pc (output r) -> not_aborted pc (output r) ->
  (forall rows, on_record (run_handle r) (run_command r) (output r) (run_pc r) rows ->
     on_record (run_handle r) (run_command r) (output r) pc (rows ++ more)) ->
  run_ok (MkRun (run_handle r) (run_command r) (output r) pc (run_rows r ++ more)).
Proof.
  intros [Hs Hn Hd Hp (command & pid & rows & Er & Hold)] Hd' Hp' Hstep. split; cbn; try done.
  exists command, pid, (rows ++ more). rewrite Er. split; [done|]. by apply Hstep.
Qed.

(** The stream moves on under the call. *)
Lemma stream_ok_step r s :
  run_ok r -> output_step (output r) s -> drain s <> NoCollector -> drain_at (run_pc r) s -> not_aborted (run_pc r) s ->
  (forall h command rows a pending, ended h command (output r) rows a pending -> ended h command s rows a pending) -> run_ok (with_output s r).
Proof.
  intros [Hs Hn Hd Hp (command & pid & rows & Er & Hold)] Hstep Hn' Hd' Hp' He. split; cbn; try done.
  - by eapply output_step_ok.
  - exists command, pid, rows. split; [done|]. unfold on_record in *. destruct (run_pc r); auto.
Qed.

Lemma drain_at_stays pc s s' :
  drain_at pc s -> (drain s <> Sleeping -> drain s' = drain s) -> drain_at pc s'.
Proof.
  intros Hd Hk. destruct pc as [exit [[]|]| |[]| |[]|[]|]; cbn in *; try done; by rewrite Hk, Hd by (rewrite Hd; done).
Qed.

Lemma pump_moves_ok input r s : run_ok r -> move (Pumps input) (output r) = Some s -> run_ok (with_output s r).
Proof.
  intros Hr Hm. pose proof Hr as [Hs Hn Hd Hp _]. pose proof Hm as Hpump. unfold move in Hpump. cbn in Hpump.
  destruct (pump_keeps _ _ _ Hpump) as (Ht & Hk & Hnc & Hna).
  apply stream_ok_step; [done|by eexists|auto|by eapply drain_at_stays| |].
  - by destruct (run_pc r); cbn.
  - intros h command rows a pending He. by eapply ended_kept.
Qed.

Lemma drain_moves_ok exit r s :
  run_ok r -> run_pc r = Selecting exit None -> move Drains (output r) = Some s -> run_ok (with_output s r).
Proof.
  intros Hr Epc Hm. pose proof Hr as [Hs Hn Hd Hp (command & pid & rows & Er & Hold)]. pose proof Hm as Hdr.
  assert (drain_turn (output r) = Some s) as Hdt by (unfold move in Hdr; by destruct (drain (output r))).
  rewrite Epc in Hp. destruct (drain_keeps _ _ Hdt Hp) as [Hn' Hp']. split; cbn; rewrite ?Epc in *; try done.
  - eapply output_step_ok; [done|by eexists].
  - exists command, pid, rows. done.
Qed.

Lemma cut_moves_ok r stop live s :
  run_ok r -> run_pc r = Cutting stop live -> move Cuts (output r) = Some s -> run_ok (with_output s r).
Proof.
  intros Hr Epc Hm. pose proof Hr as [Hs Hn Hd Hp (command & pid & rows & Er & Hold)].
  assert (s = cut (output r)) as -> by (unfold move in Hm; destruct (drain (output r)); congruence).
  destruct (cut_keeps (output r)) as (Ht & Ho & Hnc). split; cbn; rewrite ?Epc in *; try done; try auto.
  - by apply cut_ok.
  - destruct stop; cbn in *; auto.
  - exists command, pid, rows. done.
Qed.

Lemma goto_silent r pc :
  run_ok r -> drain_at pc (output r) -> not_aborted pc (output r) ->
  (forall rows, on_record (run_handle r) (run_command r) (output r) (run_pc r) rows ->
     on_record (run_handle r) (run_command r) (output r) pc rows) ->
  run_ok (goto pc r).
Proof.
  intros Hr Hd Hp Hstep. pose proof (goto_ok r pc [] Hr Hd Hp) as H. rewrite app_nil_r in H. apply H.
  intros rows Hrows. rewrite app_nil_r. auto.
Qed.

Lemma goto_appends r pc kind :
  run_ok r -> drain_at pc (output r) -> not_aborted pc (output r) ->
  (forall rows, on_record (run_handle r) (run_command r) (output r) (run_pc r) rows ->
     on_record (run_handle r) (run_command r) (output r) pc (rows ++ [kind])) ->
  run_ok (goto pc (appends kind r)).
Proof. intros. by apply (goto_ok r pc [kind]). Qed.

Ltac tells :=
  let l := fresh "told_rows" in let H := fresh "Htold" in intros l H; inversion H; subst; rewrite ?app_nil_r; cbn.

Lemma run_waits_ok status r out :
  run_ok r -> run_pc r = Selecting None out ->
  run_ok (goto (select (Some status) out)
    (match status with Some s => appends (ProcessExited (run_handle r) (exit_code s)) r | None => r end)).
Proof.
  intros Hr Epc. pose proof Hr as [Hs Hn Hd Hp _]. rewrite Epc in Hd, Hp.
  assert (out <> Some false) as Hout.
  { pose proof (history _ Hr) as (command & pid & rows & Er & Hold). rewrite Epc in Hold. by inversion Hold. }
  destruct status as [st|].
  - apply goto_appends; [done|by destruct out as [[]|]|by destruct out as [[]|]|].
    rewrite Epc. destruct out as [[]|]; [|done|]; cbn; tells; constructor.
  - apply goto_silent; [done|done|done|].
    rewrite Epc. destruct out as [[]|]; [|done|]; cbn; tells; constructor.
Qed.

Lemma run_drained_ok exit (over : bool) r :
  run_ok r -> run_pc r = Selecting exit None -> drain (output r) = (if over then Drained else Overflow) ->
  run_ok (goto (select exit (Some over)) r).
Proof.
  intros Hr Epc Edr. pose proof Hr as [Hs Hn Hd Hp _]. rewrite Epc in Hd, Hp.
  pose proof (history _ Hr) as (command & pid & rows & Er & Hold). rewrite Epc in Hold.
  apply goto_silent; [done| | |].
  - by destruct exit as [[st|]|], over.
  - by destruct exit as [[st|]|], over.
  - rewrite Epc. destruct exit as [[st|]|]; [|by inversion Hold|]; destruct over; cbn; tells; constructor; auto.
Qed.

Lemma run_elapsed_ok exit out r :
  run_ok r -> run_pc r = Selecting exit out -> run_ok (goto (Cutting Bound (is_live exit)) r).
Proof.
  intros Hr Epc. apply goto_silent; [done..|].
  rewrite Epc. tells; constructor; auto.
Qed.

Lemma run_joined_ok dead a r :
  run_ok r -> run_pc r = Finishing -> finish dead (output r) = Some a ->
  run_ok (goto (Answered (match a with Ok bytes => Ok (TAG_DATA :: bytes) | Err error => Err error end) false) r).
Proof.
  intros Hr Epc Hf. pose proof Hr as [Hs Hn Hd Hp _]. rewrite Epc in Hd, Hp. cbn in Hd, Hp.
  pose proof Hs as [K1 K2 K3 K4 K5 K6]. rewrite Hd in K5. destruct K5 as (Hcol & _ & Hc & Hdata).
  specialize (K6 Hn Hc). apply goto_silent; [done..|].
  rewrite Epc. intros rows Htold. inversion Htold as [| |c E1 E2| | | | | | |]; subst. cbn. unfold finish in Hf.
  destruct (pump (output r)) as [ | | | | | | | |v|[[]|error]|held|held] eqn:Ep; try done; injection Hf as <-.
  - rewrite Hdata in K1. cbn in K1. rewrite app_nil_r in K1. rewrite Hcol, <-K1. by eapply ended_whole.
  - by eapply ended_torn.
  - by specialize (Hp held).
Qed.

Lemma run_goes_ok r r' : run_ok r -> run_move Goes r = Some r' -> run_ok r'.
Proof.
  intros Hr Hm. pose proof Hr as [Hs Hn Hd Hp _]. unfold run_move in Hm.
  pose proof (history _ Hr) as (command & pid & rows & Er & Hold).
  destruct (run_pc r) as [exit out| |stop live|live|stop|stop|a pending] eqn:Epc; try done.
  - destruct (move Cuts (output r)) as [s|] eqn:Ec; [|done]. injection Hm as <-.
    pose proof (cut_moves_ok r stop live s Hr Epc Ec) as Hr1.
    pose proof (drained_at _ Hr1) as Hd1. cbn in Hd1. rewrite Epc in Hd1.
    destruct stop; try (by inversion Hold; naive_solver); [| |destruct live];
      (apply goto_silent; [done|done|done|]); cbn; rewrite Epc; tells; try naive_solver; try (by econstructor).
    + apply told_killing. constructor.
  - injection Hm as <-. destruct live; (apply goto_appends; [done|done|done|]); rewrite Epc; tells; cbn.
    + apply told_killing. constructor.
    + pose proof (draining _ Hs) as Hdr. cbn in Hd. rewrite Hd in Hdr. destruct Hdr as [Hcol Hlen].
      eapply ended_truncated_dead; [rewrite <-Hcol; lia|done].
  - injection Hm as <-. apply goto_appends; [done|by destruct stop|done|]. rewrite Epc. tells. by constructor.
Qed.

Lemma run_reap_ok stop row pending r :
  run_ok r -> run_pc r = Reaping stop -> killed (run_handle r) pending [ProcessKilled (run_handle r) "kill"; row] ->
  run_ok (goto (Answered (stop_answer stop true r) pending) (appends row r)).
Proof.
  intros Hr Epc Hk. pose proof Hr as [Hs Hn Hd Hp _]. rewrite Epc in Hd. apply goto_appends; [done|done|done|].
  rewrite Epc. intros rows Htold. inversion Htold as [| | | | | | | | |stop' before Hb E1 E2]; subst.
  rewrite <-app_assoc. destruct Hb; cbn.
  - pose proof (draining _ Hs) as Hdr. cbn in Hd. rewrite Hd in Hdr. destruct Hdr as [Hcol Hlen].
    eapply ended_truncated_live; [rewrite <-Hcol; lia|done|done].
  - by apply ended_bound.
Qed.

Lemma killed_late h rows c : killed h true rows -> killed h false (rows ++ [ProcessExited h c]).
Proof. cbn. intros ->. exists c. by right. Qed.

Lemma run_late_ok a code r :
  run_ok r -> run_pc r = Answered a true -> run_ok (goto (Answered a false) (appends (ProcessExited (run_handle r) code) r)).
Proof.
  intros Hr Epc. apply goto_appends; [done..|]. rewrite Epc. intros rows He.
  inversion He as [| | |pending rest Hlen -> Hk|pending Hk| |]; subst.
  - eapply ended_truncated_live; [done|done|by apply killed_late].
  - by apply ended_bound, killed_late.
Qed.

Lemma run_step_ok r r' : run_ok r -> run_step r r' -> run_ok r'.
Proof.
  intros Hr [m Hm]. destruct m as [status| | |m|dead| |[code| |code]]; try (by eapply run_goes_ok); unfold run_move, reap_on_record in Hm.
  - destruct (run_pc r) as [[st|] out| | | | | |] eqn:Epc; try done. injection Hm as <-. by apply run_waits_ok.
  - destruct (run_pc r) as [exit [out|]| | | | | |] eqn:Epc; try done.
    destruct (drain (output r)) eqn:Ed; try done; injection Hm as <-;
      [by apply (run_drained_ok exit true)|by apply (run_drained_ok exit false)].
  - destruct (run_pc r) as [exit out| | | | | |] eqn:Epc; try done. injection Hm as <-. by eapply run_elapsed_ok.
  - destruct m as [input| | | | |]; try done.
    + assert (exists s, move (Pumps input) (output r) = Some s /\ r' = with_output s r) as (s & Es & ->).
      { destruct (move (Pumps input) (output r)) as [s|]; [|by destruct (run_pc r)]. exists s. split; [done|].
        destruct (run_pc r); by injection Hm. }
      by eapply pump_moves_ok.
    + destruct (run_pc r) as [exit [out|]| | | | | |] eqn:Epc; try done.
      destruct (move Drains (output r)) as [s|] eqn:Es; [|done]. injection Hm as <-. by eapply drain_moves_ok.
  - destruct (run_pc r) eqn:Epc; try done. destruct (finish dead (output r)) as [a|] eqn:Ef; [|done].
    injection Hm as <-. by eapply run_joined_ok.
  - destruct (run_pc r) eqn:Epc; try done. injection Hm as <-. apply run_reap_ok; [done..|]. exists code. by left.
  - destruct (run_pc r) eqn:Epc; try done. injection Hm as <-. by apply run_reap_ok.
  - destruct (run_pc r) as [| | | | | |a [|]] eqn:Epc; try done. injection Hm as <-. by apply run_late_ok.
Qed.

Lemma run_running_ok r : run_running r -> run_ok r.
Proof. apply reachable_invariant; [exact run_ok_init|exact run_step_ok]. Qed.

(** ** What the provider promises *)

Lemma allowed_env_names daemon scope name value :
  allowed_env daemon scope !! name = Some value ->
  exists names, env scope = Allow names /\ name ∈ names /\ daemon name = Some value.
Proof.
  unfold allowed_env. destruct (env scope) as [|names]; [by rewrite lookup_empty|]. intros Hl.
  exists names. split; [done|].
  assert (forall m, fold_left (fun (m : gmap string string) name => match daemon name with Some value => <[name:=value]> m | None => m end) names m !! name = Some value ->
    (name ∈ names /\ daemon name = Some value) \/ m !! name = Some value) as H.
  { clear Hl. induction names as [|n names IH]; intros m Hl; [by right|]. simpl in Hl.
    destruct (IH _ Hl) as [[? ?]|Hm]; [left; split; [by right|done]|].
    destruct (daemon n) as [v|] eqn:En; [|by right]. destruct (decide (n = name)) as [->|Hn].
    - rewrite lookup_insert_eq in Hm. injection Hm as ->. left. split; [by left|done].
    - rewrite lookup_insert_ne in Hm by done. by right. }
  by destruct (H ∅ Hl) as [?|?].
Qed.

Lemma environment_names daemon program args cwd pairs scope name value :
  environment (command_of daemon program args cwd pairs scope) !! name = Some value ->
  (name, value) ∈ pairs \/ exists names, env scope = Allow names /\ name ∈ names /\ daemon name = Some value.
Proof.
  cbn. intros Hl.
  assert (forall m : gmap string string, fold_left (fun m (p : string * string) => <[p.1:=p.2]> m) pairs m !! name = Some value ->
    (name, value) ∈ pairs \/ m !! name = Some value) as H.
  { clear Hl. induction pairs as [|[n v] pairs IH]; intros m Hl; [by right|]. simpl in Hl.
    destruct (IH _ Hl) as [?|Hm]; [left; by right|]. destruct (decide (n = name)) as [->|Hn].
    - rewrite lookup_insert_eq in Hm. injection Hm as ->. left. by left.
    - rewrite lookup_insert_ne in Hm by done. by right. }
  destruct (H _ Hl) as [?|?]; [by left|right]. by apply allowed_env_names.
Qed.

Lemma allowed_Ok display links command prefixes program :
  allowed display links command prefixes = Ok program ->
  is_absolute (components command) = true /\ links (components command) = Ok program /\
  exists prefix p, prefix ∈ prefixes /\ links (components prefix) = Ok p /\ p `prefix_of` program.
Proof.
  unfold allowed. destruct (is_absolute _); [|done]. cbn. destruct (links (components command)) as [resolved|]; [|done].
  destruct (existsb _ _) eqn:Ex; [|done]. intros [= ->]. do 2 (split; [done|]).
  apply existsb_exists in Ex as (prefix & Hin & Hp). unfold under_prefix in Hp.
  destruct (links (components prefix)) as [p|] eqn:El; [|done]. apply bool_decide_eq_true in Hp.
  exists prefix, p. split; [|done]. by apply list_elem_of_In.
Qed.

(** A call starts a child only under its caller's own policy: the program
    is the resolved command, absolute and under a resolved prefix of the exec
    allowlist, with the arguments and directory of the call; its environment is
    the pairs of the call and the allowlisted variables of the daemon, nothing
    else; and the row is the caller's. A refusal starts nothing and leaves the
    table as it was. *)
Theorem only_what_is_granted_is_spawned `{Utf8} `{Callers} display links joined daemon os caller payload w :
  (0 <= next_handle (core w) < 2 ^ 64 - 1)%Z ->
  let w' := begin_spawn display links joined daemon os caller payload w in
  (children w' = children w /\ table (core w') = table (core w)) \/
  exists command args cwd pairs scope c prefix p,
    decode_spawn payload = Ok (command, args, cwd, pairs) /\
    caller_policy caller (contract (core w)) = Some (ProcessGrant scope) /\
    (let h := (next_handle (core w) + 1)%Z in
     children w' = <[h := c]> (children w) /\ table (core w') = <[h := MkRow caller (caller_fiber caller)]> (table (core w))) /\
    is_absolute (components command) = true /\ links (components command) = Ok (program (child_command c)) /\
    prefix ∈ exec scope /\ links (components prefix) = Ok p /\ p `prefix_of` program (child_command c) /\
    arguments (child_command c) = args /\ directory (child_command c) = cwd /\
    forall name value, environment (child_command c) !! name = Some value ->
      (name, value) ∈ pairs \/ exists names, env scope = Allow names /\ name ∈ names /\ daemon name = Some value.
Proof.
  intros Hroom. cbn zeta. unfold begin_spawn.
  destruct (decode_spawn payload) as [[[[command args] cwd] pairs]|error] eqn:Ed; [|by left].
  unfold authorize, policy_of.
  destruct (caller_policy caller (contract (core w))) as [[|?|scope|?|?|?]|] eqn:Epol; try by left.
  destruct joined; [|by left]. destruct (allowed display links command (exec scope)) as [program|text] eqn:Ea; [|by left].
  destruct os as [pid|error]; [|by left]. right.
  destruct (allowed_Ok _ _ _ _ _ Ea) as (Habs & Hres & prefix & p & Hin & Hlink & Hpre).
  eexists command, args, cwd, pairs, scope, _, prefix, p. do 2 (split; [done|]). split; [by split|].
  do 7 (split; [done|]). intros name value. apply environment_names.
Qed.

(** C27: whatever the interleaving of calls, supervisors and streams, the exit
    of a child is on the ledger at most once and before anybody sees it. From
    the moment a withdrawal removed a row nobody finds the handle again; when
    it answers, the three streams of the child are closed, and when it answers
    success the child was reaped and its exit is on the ledger. This is the
    withdrawal that removed the row: one that finds none, a second one for
    instance, answers success at once and does nothing else, whatever became of
    the child ([a_second_withdrawal_waits_for_nothing]). *)
Theorem a_released_child_is_reaped `{Utf8} `{Callers} display w :
  process_running display w ->
  (forall h, (length (exits h (sink (core w))) <= 1)%nat) /\
  (forall h c code, children w !! h = Some c -> exited c = Some code -> exits h (sink (core w)) = [code]) /\
  (forall h r, (h, true, r) ∈ withdrawn w ->
     (forall caller, row_for caller h (core w) = (Err (unknown_handle h (core w)), core w)) /\
     exists c, children w !! h = Some c /\ streams_closed c /\
       (r = Ok () -> exists code, exited c = Some code /\ exits h (sink (core w)) = [code])) /\
  (forall h r, (h, false, r) ∈ withdrawn w -> r = Ok ()) /\
  (forall h, table (core w) !! h = None -> begin_withdraw h w = absent h w).
Proof.
  intros Hr. pose proof (process_running_ok display w Hr) as [H1 H2 H3 H4 H5 H6 H7].
  assert (forall h c code, children w !! h = Some c -> exited c = Some code -> exits h (sink (core w)) = [code]) as Hexit.
  { intros h c code Hc Hx. destruct (H1 _ _ Hc) as [_ _ _ K4 K5]. rewrite K5 in Hx. rewrite K4.
    destruct (supervisor c); try done. by injection Hx as ->. }
  split_and!; [|done| |done|intros h Hn; unfold begin_withdraw, remove_row; by rewrite Hn].
  - intros h. destruct (children w !! h) as [c|] eqn:Hc; [|by destruct (H2 _ Hc) as [-> _]; simpl; lia].
    destruct (H1 _ _ Hc) as [_ _ _ -> _]. destruct (supervisor c); simpl; lia.
  - intros h r Hw. destruct (H6 _ _ Hw) as [Ht (c & Hc & Hs & Hx)]. split; [intros caller; unfold row_for; by rewrite Ht|].
    exists c. do 2 (split; [done|]). intros Hok. destruct (exited c) as [code|] eqn:E; [|by destruct (Hx Hok)].
    exists code. split; [done|]. by eapply Hexit.
Qed.

(** A peer that did not mint a handle is refused on the record, and nothing
    else happens. *)
Lemma another_peer_is_refused `{Utf8} `{Callers} caller operation payload handle rest row w :
  read_u64 "process handle" payload = Ok (handle, rest) -> table (core w) !! handle = Some row -> row_owner row <> caller ->
  exists error, begin_op caller operation payload w =
    answer caller (Err error)
      (with_core (record_row (GrantRefused (contract (core w)) ForeignHandle (Some (foreign_text handle (core w))))
        (caller_fiber caller)) w).
Proof.
  intros Hp Hrow Hother. unfold begin_op. rewrite Hp. pose proof (row_for_cases caller handle (core w)) as Hc.
  destruct (row_for caller handle (core w)) as [[r|error] c].
  - destruct Hc as (Hr & Ho & _). rewrite Hrow in Hr. injection Hr as <-. done.
  - destruct Hc as [[Hn _]|(r & _ & _ & ->)]; [by rewrite Hrow in Hn|]. by eexists.
Qed.

(** A run answers in one of seven ways, each with its rows and nothing
    else: the whole output of a child that exited and whose pipe ended; the
    truncation alone, when more than the cap was collected; or a typed error.
    A child that is killed is killed on the record, and its exit lands on the
    record too, within the bound or after a pending reap. *)
Theorem a_run_ends_on_the_record r a pending :
  run_running r -> run_pc r = Answered a pending ->
  exists command pid rows,
    run_rows r = ProcessSpawned (run_handle r) command pid :: rows /\
    ended (run_handle r) (run_command r) (output r) rows a pending.
Proof.
  intros Hr Epc. destruct (run_running_ok r Hr) as [_ _ _ _ (command & pid & rows & Er & Hold)].
  exists command, pid, rows. split; [done|]. by rewrite Epc in Hold.
Qed.

(** ** Concrete worlds *)

Module ProcessExample.
#[local] Instance one_caller : Callers := {|
  caller_fiber := fun _ => Some (MkFiberId 1);
  caller_policy := fun _ _ => Some (ProcessGrant (MkProcessScope ["/bin"%string] InheritNone));
|}.
#[local] Existing Instance WireExample.octet_text.

Definition no_links : Links := fun p => Ok p.
Definition shown (e : IoError) : string := match e with IoNotFound => "not found" | IoOther text => text end.
Definition spawn_ls : ProcessMove :=
  SpawnCall no_links true (fun _ => None) (Ok 42%Z) 7 (encode_spawn "/bin/ls" [] None []).

Fixpoint turns (ms : list ProcessMove) (w : World) : option World :=
  match ms with [] => Some w | m :: ms => match process_move shown m w with Some w => turns ms w | None => None end end.

Lemma turns_running ms w : turns ms new_world = Some w -> process_running shown w.
Proof.
  assert (forall w0, process_running shown w0 -> turns ms w0 = Some w -> process_running shown w) as H;
    [|by apply H, reachable_init].
  induction ms as [|m ms IH]; intros w0 Hw0 Ht; [by injection Ht as <-|]. simpl in Ht.
  destruct (process_move shown m w0) as [w1|] eqn:E; [|done]. apply (IH w1); [|done].
  eapply reachable_step; [done|by exists m].
Qed.

Lemma reached ms (P : World -> bool) :
  P <$> turns ms new_world = Some true -> exists w, process_running shown w /\ P w = true.
Proof. intros H. apply fmap_Some in H as (w & Hw & HP). exists w. split; [by eapply turns_running|done]. Qed.

(** A child that exits at once can be on the record as exited before it is as
    spawned: its supervisor runs before the line of the spawn is appended. *)
Definition exit_first (w : World) : bool :=
  match map fst (sink (core w)) with [ProcessExited 1 0; ProcessSpawned 1 _ _] => true | _ => false end.

Lemma an_exit_can_precede_its_spawn : exists w, process_running shown w /\ exit_first w = true.
Proof.
  apply (reached [spawn_ls; SupervisorTurn 1 (Ends (Some (ByCode 0))); SupervisorTurn 1 Hears; TaskTurn 0 false]).
  vm_compute. reflexivity.
Qed.

(** A withdrawal that looks between the row of an exit and its send records a
    kill of the child that was already reaped. *)
Definition killed_after_exit (w : World) : bool :=
  match map fst (sink (core w)) with [ProcessSpawned 1 _ _; ProcessExited 1 0; ProcessKilled 1 _] => true | _ => false end.

Lemma a_reaped_child_can_be_recorded_killed : exists w, process_running shown w /\ killed_after_exit w = true.
Proof.
  apply (reached [spawn_ls; TaskTurn 0 false; SupervisorTurn 1 (Ends (Some (ByCode 0))); SupervisorTurn 1 Hears;
                  WithdrawCall 1; TaskTurn 0 false; TaskTurn 0 false]).
  vm_compute. reflexivity.
Qed.

(** While the first withdrawal still waits for its child, a second one has
    answered success: it found no row. *)
Definition answered_unreaped (w : World) : bool :=
  match withdrawn w, exited <$> children w !! 1%Z, tasks w with
  | [(1%Z, false, Ok ())], Some None, [AwaitsExit 1] => true
  | _, _, _ => false
  end.

Lemma a_second_withdrawal_waits_for_nothing : exists w, process_running shown w /\ answered_unreaped w = true.
Proof.
  apply (reached ([spawn_ls; TaskTurn 0 false; WithdrawCall 1] ++ replicate 7 (TaskTurn 0 false) ++ [WithdrawCall 1])).
  vm_compute. reflexivity.
Qed.

(** A seat that closes over a running child. *)
Definition closing : list ProcessMove :=
  [spawn_ls; TaskTurn 0 false; WithdrawCall 1] ++ replicate 7 (TaskTurn 0 false) ++
  [SupervisorTurn 1 Hears; SupervisorTurn 1 (Ends (Some (BySignal 9))); SupervisorTurn 1 Hears; SupervisorTurn 1 Hears;
   TaskTurn 0 false].

Definition closed_over (w : World) : bool :=
  match withdrawn w, map fst (sink (core w)) with
  | [(1%Z, true, Ok ())], [ProcessSpawned 1 _ 42; ProcessKilled 1 _; ProcessExited 1 (-9)] => true
  | _, _ => false
  end.

Lemma a_released_child_is_reaped_witness :
  exists w, process_running shown w /\ closed_over w = true /\
    exists c code, children w !! 1%Z = Some c /\ streams_closed c /\ exited c = Some code.
Proof.
  destruct (reached closing closed_over ltac:(vm_compute; reflexivity)) as (w & Hw & Hc). exists w.
  split; [exact Hw|]. split; [exact Hc|].
  destruct (a_released_child_is_reaped shown w Hw) as (_ & _ & H & _).
  assert ((1%Z, true, Ok ()) ∈ withdrawn w) as Hin.
  { unfold closed_over in Hc. destruct (withdrawn w) as [|[[[|[]|] []] [[]|]] [|]]; try discriminate. constructor. }
  destruct (H 1%Z (Ok ()) Hin) as (_ & c & Hl & Hs & Hx). destruct (Hx eq_refl) as (code & He & _).
  exists c, code. split; [exact Hl|]. split; [exact Hs|exact He].
Defined.

Lemma only_what_is_granted_is_spawned_witness :
  let w := begin_spawn shown no_links true (fun _ => None) (Ok 42%Z) 7 (encode_spawn "/bin/ls" [] None []) new_world in
  exists c, children w !! 1%Z = Some c /\ exists p, p `prefix_of` program (child_command c).
Proof.
  pose proof (only_what_is_granted_is_spawned shown no_links true (fun _ => None) (Ok 42%Z) 7
    (encode_spawn "/bin/ls" [] None []) new_world ltac:(split; [discriminate|reflexivity])) as [[Hn _]|H].
  - exfalso. apply (f_equal (fun m => bool_decide (m !! 1%Z = None))) in Hn.
    apply (f_equal negb) in Hn. revert Hn. vm_compute. discriminate.
  - destruct H as (command & args & cwd & pairs & scope & c & prefix & p & _ & _ & (Hc & _) & _ & _ & _ & _ & Hp & _).
    exists c. split; [|by exists p]. cbn in Hc |- *. rewrite Hc. apply lookup_insert_eq.
Defined.

(** A run whose child writes two bytes and exits. *)
Definition runs : list RunMove :=
  [StreamTurn (Pumps (Ok [7; 8]%Z)); StreamTurn (Pumps (Ok [])); StreamTurn (Pumps (Ok [])); Waited (Some (ByCode 0));
   StreamTurn (Pumps (Ok [])); StreamTurn (Pumps (Ok [])); StreamTurn (Pumps (Ok [])); StreamTurn Drains; StreamTurn Drains;
   DrainSeen; Joined "gone"].

Fixpoint run_moves (ms : list RunMove) (r : Run) : option Run :=
  match ms with [] => Some r | m :: ms => match run_move m r with Some r => run_moves ms r | None => None end end.

Definition run_start : Run := MkRun 1 "/bin/ls" new_collector (Selecting None None) [ProcessSpawned 1 "/bin/ls" 42].
Definition run_end : Run := default run_start (run_moves runs run_start).

Lemma run_moves_running ms : run_running (default run_start (run_moves ms run_start)).
Proof.
  assert (forall r, run_running r -> run_running (default r (run_moves ms r))) as H.
  2: { apply H, reachable_init. by exists 1%Z, "/bin/ls"%string, 42%Z. }
  induction ms as [|m ms IH]; intros r Hr; [done|]. simpl. destruct (run_move m r) as [r1|] eqn:E; [|done].
  assert (run_running r1) as H1 by by eapply reachable_step; [|by exists m]. specialize (IH r1 H1).
  by destruct (run_moves ms r1).
Qed.

Lemma a_run_ends_on_the_record_witness :
  run_pc run_end = Answered (Ok [0; 7; 8]%Z) false /\
  exists command pid rows, run_rows run_end = ProcessSpawned (run_handle run_end) command pid :: rows /\
    ended (run_handle run_end) (run_command run_end) (output run_end) rows (Ok [0; 7; 8]%Z) false.
Proof.
  assert (run_pc run_end = Answered (Ok [0; 7; 8]%Z) false) as Hpc by (vm_compute; reflexivity).
  split; [exact Hpc|].
  exact (a_run_ends_on_the_record run_end (Ok [0; 7; 8]%Z) false (run_moves_running runs) Hpc).
Defined.
End ProcessExample.
