(* ===== verification/Keystore.v ===== *)
(** * The key store provider ([jinnd-wasm/src/hostkeystore.rs],
    [hostkeystore/effects.rs], [vault.rs], [master.rs])

    One sealed document holds the whole map of names to values; a mutation
    spills its prior sealed, moves the map, commits the document and is on the
    record by name and digest. The cipher, the key derivation and the entropy
    of the system are parameters; the disk, the commit and the retention of
    inverses are those of the file provider. *)

From stdpp Require Import base gmap sets list strings pretty sorting relations.
From S2P Require Import Prelude Api Entries Text Paths Grants Broker Disk Spill HostFs Wire Sha256 Handles.

Definition STORE_FILE : string := "secrets.bin".
(** ["JKS1"]. *)
Definition MAGIC : Bytes := [74; 75; 83; 49]%Z.
Definition NONCE_LEN : nat := 12.
Definition KEY_NAME_CAP : nat := 512.
Definition SALT_FILE : string := "salt".
Definition SALT_LEN : nat := 16.

(** ** The cipher and the key *)

(** ChaCha20-Poly1305: a seal under a key and a nonce, and its opening, which
    authenticates. *)
Class Cipher := {
  encrypt : Bytes -> Bytes -> Bytes -> option Bytes;
  decrypt : Bytes -> Bytes -> Bytes -> option Bytes;
}.

Class CipherLaws (C : Cipher) : Prop := {
  decrypt_encrypt key nonce plain sealed : encrypt key nonce plain = Some sealed -> decrypt key nonce sealed = Some plain;
}.

(** What a draw of entropy answers; it fills the buffer it is given. *)
Abbreviation Draw := (result Bytes string).

Definition keystore_failed (detail : string) (e : IoError) : KernelError :=
  refusal EffectFailed ("keystore " +:+ detail +:+ ": " +:+ io_text e).
Definition store_corrupt (detail : string) : KernelError :=
  refusal EffectFailed ("keystore store unreadable: " +:+ detail).
Definition entropy_failed (error : string) : KernelError := refusal EffectFailed ("keystore entropy: " +:+ error).

(** [MasterKeySource], off the platforms that have a keychain. *)
Inductive MasterKeySource := Passphrase (bytes : Bytes) | Absent.

(** scrypt, over a passphrase and a salt. *)
Class Derivation := derived_key : Bytes -> Bytes -> result Bytes string.

Definition salt_failed (text : string) : KernelError := refusal EffectFailed ("keystore salt: " +:+ text).

(** [salt]: read, or created once: written in place and then synced. *)
Definition read_salt (dir : Path) (draw : Draw) : Io (result Bytes KernelError) :=
  let path := dir ++ [Normal SALT_FILE] in
  Do (ReadFile path) (fun r =>
    match r with
    | Ok (Content bytes) =>
        Ret (if decide (length bytes = SALT_LEN) then Ok bytes else Err (salt_failed "not 16 bytes"))
    | Ok _ => Ret (Err (salt_failed "not 16 bytes"))
    | Err IoNotFound =>
        match draw with
        | Err error => Ret (Err (entropy_failed error))
        | Ok salt =>
            Do (OverwriteFile path salt) (fun r =>
              match r with
              | Err error => Ret (Err (salt_failed (io_text error)))
              | Ok _ =>
                  Do (SyncFile path) (fun r =>
                    Ret match r with Ok _ => Ok salt | Err error => Err (salt_failed (io_text error)) end)
              end)
        end
    | Err error => Ret (Err (salt_failed (io_text error)))
    end).

Definition unavailable : KernelError :=
  refusal EffectFailed
    "keystore master key unavailable: set JINND_KEYSTORE_PASSPHRASE or JINND_KEYSTORE_PASSPHRASE_FILE".

(** [MasterKeySource::resolve]. *)
Definition resolve_key `{Derivation} (source : MasterKeySource) (dir : Path) (draw : Draw) : Io (result Bytes KernelError) :=
  match source with
  | Absent => Ret (Err unavailable)
  | Passphrase passphrase =>
      io_bind (read_salt dir draw) (fun r =>
        Ret match r with
            | Err error => Err error
            | Ok salt =>
                match derived_key passphrase salt with
                | Ok key => Ok key
                | Err error => Err (refusal EffectFailed ("keystore kdf: " +:+ error))
                end
            end)
  end.

(** [trimmed]: trailing newlines are the shell's. *)
Definition newline_byte (b : Z) : bool := bool_decide (b = 10%Z) || bool_decide (b = 13%Z).

Fixpoint trim_newlines (reversed : Bytes) : Bytes :=
  match reversed with
  | b :: rest => if newline_byte b then trim_newlines rest else reversed
  | [] => []
  end.

Definition trimmed (bytes : Bytes) : Bytes := reverse (trim_newlines (reverse bytes)).

Definition unreadable (variable : string) (path : option string) (why : string) : KernelError :=
  refusal InvalidProfile
    ("keystore master key source " +:+ variable +:+
     match path with Some path => " (" +:+ path +:+ ")" | None => "" end +:+ " cannot be read: " +:+ why).

(** [from_vars], over the two variables: a value that is no text is [Err]; the
    file is what reading it answers. *)
Definition from_vars (passphrase : option (result Bytes ())) (file : option (string * result Bytes string)) :
    result MasterKeySource KernelError :=
  match passphrase with
  | Some (Err _) => Err (unreadable "JINND_KEYSTORE_PASSPHRASE" None "it is not valid text")
  | Some (Ok value) =>
      if decide (trimmed value = []) then Err (unreadable "JINND_KEYSTORE_PASSPHRASE" None "it is set but empty")
      else Ok (Passphrase (trimmed value))
  | None =>
      match file with
      | Some (path, Err error) => Err (unreadable "JINND_KEYSTORE_PASSPHRASE_FILE" (Some path) error)
      | Some (path, Ok read) =>
          if decide (trimmed read = [])
          then Err (unreadable "JINND_KEYSTORE_PASSPHRASE_FILE" (Some path) "the passphrase file is empty")
          else Ok (Passphrase (trimmed read))
      | None => Ok Absent
      end
  end.

(** ** The vault ([vault.rs]) *)

Abbreviation Secrets := (gmap string Bytes).

(** [BTreeMap] iterates by name. *)
Definition name_le (a b : string * Bytes) : bool := String.leb a.1 b.1.

Definition sorted_entries (m : Secrets) : list (string * Bytes) := sort_by name_le (map_to_list m).

Definition encode_secret (e : string * Bytes) : Bytes := put_segment (as_bytes e.1) ++ put_segment e.2.

Definition encode_secrets (m : Secrets) : Bytes :=
  le_bytes 4 (saturated (base.size m)) ++ concat (map encode_secret (sorted_entries m)).

Section Decoding.
Context `{Utf8}.

(** An error of the reader becomes the corruption it stands for. *)
Definition or_corrupt {T} (detail : string) (r : result T KernelError) : result T KernelError :=
  match r with Ok x => Ok x | Err _ => Err (store_corrupt detail) end.

Fixpoint decode_loop (count : nat) (wire : Bytes) (m : Secrets) : result Secrets KernelError :=
  match count with
  | O => Ok m
  | S count =>
      match or_corrupt "name" (read_text "keystore document" wire) with
      | Err error => Err error
      | Ok (name, wire) =>
          match or_corrupt "value" (read_segment "keystore document" wire) with
          | Err error => Err error
          | Ok (value, wire) => decode_loop count wire (<[name := value]> m)
          end
      end
  end.

Definition decode_secrets (plain : Bytes) : result Secrets KernelError :=
  match or_corrupt "count" (read_u32 "keystore document" plain) with
  | Err error => Err error
  | Ok (count, wire) => decode_loop (Z.to_nat count) wire ∅
  end.
End Decoding.

Record Vault := MkVault {
  vault_dir : Path;
  source : MasterKeySource;
  master : option Bytes;
  entries : Secrets;
}.

Definition locked (v : Vault) : bool := match master v with None => true | Some _ => false end.

Definition install_key (key : Bytes) (v : Vault) : Vault := MkVault (vault_dir v) (source v) (Some key) (entries v).

Definition get_secret (key : string) (v : Vault) : option Bytes := entries v !! key.

Definition set_secret (key : string) (value : option Bytes) (v : Vault) : Vault :=
  MkVault (vault_dir v) (source v) (master v)
    (match value with Some value => <[key := value]> (entries v) | None => delete key (entries v) end).

Definition document (v : Vault) : Path := vault_dir v ++ [Normal STORE_FILE].

Section Sealing.
Context `{Cipher}.

(** [Vault::seal]: the nonce first, then the cipher, then the seal. *)
Definition seal (draw : Draw) (plain : Bytes) (v : Vault) : result Bytes KernelError :=
  match draw with
  | Err error => Err (entropy_failed error)
  | Ok nonce =>
      match master v with
      | None => Err (store_corrupt "master key not resolved")
      | Some key =>
          match encrypt key nonce plain with
          | None => Err (store_corrupt "seal")
          | Some sealed => Ok (MAGIC ++ nonce ++ sealed)
          end
      end
  end.

(** [unseal_with]. *)
Definition unseal_with (key : Bytes) (sealed : Bytes) : result Bytes KernelError :=
  match split_at (length MAGIC) sealed with
  | None => Err (store_corrupt "magic")
  | Some (magic, body) =>
      if decide (magic <> MAGIC) then Err (store_corrupt "magic")
      else
        match split_at NONCE_LEN body with
        | None => Err (store_corrupt "nonce")
        | Some (nonce, ciphertext) =>
            match decrypt key nonce ciphertext with
            | None => Err (store_corrupt "authentication failed")
            | Some plain => Ok plain
            end
        end
  end.

Definition unseal (sealed : Bytes) (v : Vault) : result Bytes KernelError :=
  match master v with
  | None => Err (store_corrupt "master key not resolved")
  | Some key => unseal_with key sealed
  end.

(** [Vault::sealed]. *)
Definition sealed_document (draw : Draw) (v : Vault) : result (Path * Bytes) KernelError :=
  match seal draw (encode_secrets (entries v)) v with
  | Err error => Err error
  | Ok sealed => Ok (document v, sealed)
  end.

(** [Vault::open], over the files the last process left: the directory is
    there, the staged files are swept, and a document is read only if the key
    that authenticates it can be had. *)
Definition open_vault `{Utf8} (key_of : MasterKeySource -> result Bytes KernelError) (dir : Path)
    (source : MasterKeySource) (files : gmap Path Bytes) : result Vault KernelError :=
  let files := sweep_staged dir files in
  match files !! (dir ++ [Normal STORE_FILE]) with
  | None => Ok (MkVault dir source None ∅)
  | Some sealed =>
      match key_of source with
      | Err error => Err error
      | Ok key =>
          match unseal_with key sealed with
          | Err error => Err error
          | Ok plain =>
              match decode_secrets plain with
              | Err error => Err error
              | Ok entries => Ok (MkVault dir source (Some key) entries)
              end
          end
      end
  end.
End Sealing.

(** [commit]. *)
Definition commit_document (target : Path) (sealed : Bytes) : Io (result () KernelError) :=
  io_bind (commit_atomic target sealed) (fun r =>
    Ret match r with Ok _ => Ok () | Err error => Err (keystore_failed "commit" error) end).

(** ** The provider *)

(** [spills]: the retained inverses, their index and the next id, as the file
    provider keeps its own. *)
Record Keystore := MkKeystore { vault : Vault; spills : HostFs }.

Definition with_vault (f : Vault -> Vault) (k : Keystore) : Keystore := MkKeystore (f (vault k)) (spills k).
Definition with_spills (h : HostFs) (k : Keystore) : Keystore := MkKeystore (vault k) h.

(** What the system answers during one operation: the task that resolves the
    key may die; a draw for the salt and one for each nonce. *)
Record Chance := MkChance { dies : option string; salt_draw : Draw; prior_draw : Draw; document_draw : Draw }.

Definition secret_missing (key : string) : KernelError :=
  refusal NotFound ("keystore key " +:+ debug_str key +:+ ": not found").

Definition bad_name : KernelError :=
  refusal InvalidProfile "keystore key name must be 1..=512 bytes without NUL".

Definition outside_prefixes (key : string) : string :=
  "keystore key " +:+ debug_str key +:+ " is outside the caller's granted prefixes".

Section Callings.
Context `{Callers}.

(** [prefixes]: none for a bare grant. *)
Definition key_prefixes (caller : PeerId) : option (list string) :=
  match caller_policy caller KEYSTORE_CONTRACT with
  | Some (KeysScope prefixes) => Some prefixes
  | Some _ => Some []
  | None => None
  end.

Definition well_named (key : string) : bool :=
  negb (bool_decide (key = ""%string)) && bool_decide (String.length key <= KEY_NAME_CAP) &&
  negb (has_char (Ascii.ascii_of_nat 0) key).

(** [authorized], and the row of a refusal. *)
Definition authorized_key (caller : PeerId) (key : string) : result () KernelError * Rows :=
  if negb (well_named key) then (Err bad_name, [])
  else
    match key_prefixes caller with
    | Some prefixes =>
        if admits_key (KeysScope prefixes) key then (Ok (), [])
        else (Err (refusal EffectFailed (outside_prefixes key)),
              [(GrantRefused KEYSTORE_CONTRACT ScopeMismatch (Some (outside_prefixes key)), caller_fiber caller)])
    | None => (Err (refusal EffectFailed (outside_prefixes key)),
               [(GrantRefused KEYSTORE_CONTRACT ScopeMismatch (Some (outside_prefixes key)), caller_fiber caller)])
    end.

(** [accessed]: the name and the digest. *)
Definition accessed (fiber : option FiberId) (operation key : string) (value : option Bytes) : LedgerEventKind * option FiberId :=
  (KeystoreAccessed operation key (hex_digest <$> value), fiber).

(** The two reads. *)
Definition get_op (caller : PeerId) (key : string) (k : Keystore) : result Bytes KernelError * Rows :=
  match authorized_key caller key with
  | (Err error, rows) => (Err error, rows)
  | (Ok _, _) =>
      let value := get_secret key (vault k) in
      (match value with Some bytes => Ok bytes | None => Err (secret_missing key) end,
       [accessed (caller_fiber caller) "get" key value])
  end.

Definition list_op (caller : PeerId) (k : Keystore) : Bytes :=
  let prefixes := default [] (key_prefixes caller) in
  concat (map (fun e : string * Bytes => put_segment (as_bytes e.1))
    (filter (fun e : string * Bytes => existsb (fun prefix => starts_with prefix e.1) prefixes = true)
      (sorted_entries (entries (vault k))))).
End Callings.

Section Mutations.
Context `{Utf8} `{Cipher} `{Derivation}.

Abbreviation Answer := (result Z KernelError * Keystore * Rows)%type.

(** [unlock]. *)
Definition unlock (c : Chance) (k : Keystore) : Io (result () KernelError * Keystore) :=
  if locked (vault k) then
    match dies c with
    | Some joined => Ret (Err (refusal EffectFailed ("keystore master key: " +:+ joined)), k)
    | None =>
        io_bind (resolve_key (source (vault k)) (vault_dir (vault k)) (salt_draw c)) (fun r =>
          Ret match r with
              | Err error => (Err error, k)
              | Ok key => (Ok (), with_vault (install_key key) k)
              end)
    end
  else Ret (Ok (), k).

(** The prior of a mutation, sealed. *)
Definition sealed_prior (c : Chance) (key : string) (value : option Bytes) (v : Vault) : result Prior KernelError :=
  match get_secret key v with
  | Some current =>
      match seal (prior_draw c) current v with Ok sealed => Ok (PriorContent sealed) | Err error => Err error end
  | None => match value with None => Err (secret_missing key) | Some _ => Ok PriorAbsent end
  end.

Definition spill_not_durable (operation key : string) (refused : KernelError) : KernelError :=
  refusal PluginFailed ("keystore " +:+ operation +:+ " " +:+ debug_str key +:+
    " refused: inverse not durable (" +:+ message refused +:+ ")").

(** After a failed commit: the map as it was, the inverse dropped. *)
Definition restore (key : string) (p : Prior) (id : Z) (refused : KernelError) (k : Keystore) : Io Answer :=
  match p with
  | PriorContent sealed =>
      match unseal sealed (vault k) with
      | Err error => Ret (Err error, k, [])
      | Ok prior =>
          io_bind (release id (spills k)) (fun h =>
            Ret (Err refused, with_spills h (with_vault (set_secret key (Some prior)) k), []))
      end
  | _ =>
      io_bind (release id (spills k)) (fun h =>
        Ret (Err refused, with_spills h (with_vault (set_secret key None) k), []))
  end.

(** From the retained inverse on. *)
Definition move_and_commit (c : Chance) (fiber : option FiberId) (operation key : string) (value : option Bytes)
    (p : Prior) (id : Z) (k : Keystore) : Io Answer :=
  let k := with_vault (set_secret key value) k in
  match sealed_document (document_draw c) (vault k) with
  | Err error => Ret (Err error, k, [])
  | Ok (target, sealed) =>
      io_bind (commit_document target sealed) (fun r =>
        match r with
        | Err refused => restore key p id refused k
        | Ok _ =>
            Ret (Ok id, k,
              [(EffectRegistered (keystore_label operation key id), fiber); accessed fiber operation key value])
        end)
  end.

(** [mutate], under the serial lock. *)
Definition mutate (c : Chance) (fiber : option FiberId) (name : option string) (operation key : string)
    (value : option Bytes) (k : Keystore) : Io Answer :=
  io_bind (unlock c k) (fun unlocked =>
    match unlocked with
    | (Err error, k) => Ret (Err error, k, [])
    | (Ok _, k) =>
        match sealed_prior c key value (vault k) with
        | Err error => Ret (Err error, k, [])
        | Ok p =>
            io_bind (retain (MkHeader key "" (owner_number fiber) (default "" name) operation) p (spills k)) (fun r =>
              match r with
              | (Err refused, h) =>
                  let error := spill_not_durable operation key refused in
                  Ret (Err error, with_spills h k, [(ErrorRecorded error, fiber)])
              | (Ok id, h) => move_and_commit c fiber operation key value p id (with_spills h k)
              end)
        end
    end).

Definition never_a_length : KernelError := refusal EffectFailed "a keystore inverse never records a length".

(** [apply_inverse]. *)
Definition apply_secret (c : Chance) (r : SpillRecord) (k : Keystore) : Io (result () KernelError * Keystore) :=
  io_bind (unlock c k) (fun unlocked =>
    match unlocked with
    | (Err error, k) => Ret (Err error, k)
    | (Ok _, k) =>
        match (match prior r with
               | PriorAbsent => Ok None
               | PriorContent sealed => match unseal sealed (vault k) with Ok x => Ok (Some x) | Err error => Err error end
               | PriorLength _ => Err never_a_length
               end) with
        | Err error => Ret (Err error, k)
        | Ok restored =>
            let k := with_vault (set_secret (label (header r)) restored) k in
            match sealed_document (document_draw c) (vault k) with
            | Err error => Ret (Err error, k)
            | Ok (target, sealed) => io_bind (commit_document target sealed) (fun r => Ret (r, k))
            end
        end
    end).

(** [witness]. *)
Definition attests (r : SpillRecord) (v : Vault) : bool :=
  match prior r with
  | PriorAbsent => bool_decide (get_secret (label (header r)) v = None)
  | PriorContent sealed =>
      match unseal sealed v with
      | Ok prior => bool_decide (get_secret (label (header r)) v = Some prior)
      | Err _ => false
      end
  | PriorLength _ => false
  end.

Definition reclaim_secret (id : Z) (k : Keystore) : Io (result () KernelError * Keystore) :=
  io_bind (reclaim id (spills k)) (fun r => Ret (r.1, with_spills r.2 k)).

(** [withdraw]. *)
Definition withdraw_secret (c : Chance) (id : Z) (k : Keystore) : Io (result () KernelError * Keystore) :=
  match retained_at id (index (spills k)) with
  | None => Ret (Err (no_effect id), k)
  | Some r =>
      if consumed r then Ret (Ok (), k)
      else
        io_bind (load (store (spills k)) id) (fun loaded =>
          match loaded with
          | Err error => Ret (Err error, k)
          | Ok record =>
              io_bind (apply_secret c record k) (fun applied =>
                match applied with
                | (Err error, k) => Ret (Err error, k)
                | (Ok _, k) => reclaim_secret id k
                end)
          end)
  end.

(** [undo_action]: the inverse the keyed revert runs, and its witness; one that
    was consumed refuses to run and attests nothing. *)
Definition already_consumed (id : Z) : KernelError :=
  refusal EffectFailed ("effect " +:+ pretty id +:+ "'s inverse was already consumed").

Definition undo_secret (c : Chance) (id : Z) (k : Keystore) : option (Io (result () KernelError * Keystore)) :=
  match retained_at id (index (spills k)) with
  | None => None
  | Some r =>
      Some (if consumed r then Ret (Err (already_consumed id), k)
            else io_bind (load (store (spills k)) id) (fun loaded =>
                   match loaded with Err error => Ret (Err error, k) | Ok record => apply_secret c record k end))
  end.

Definition undo_attests (id : Z) (k : Keystore) : option (Io bool) :=
  match retained_at id (index (spills k)) with
  | None => None
  | Some r =>
      Some (if consumed r then Ret false
            else io_bind (load (store (spills k)) id) (fun loaded =>
                   Ret match loaded with Err _ => false | Ok record => attests record (vault k) end))
  end.

(** [effects], and the journal of one entry ([journals]), in id order. *)
Definition secret_effects (k : Keystore) : list (Z * string) := effects (spills k).

Definition secret_journal (name : string) (k : Keystore) : list (Z * string) :=
  map (fun r : Z * Retained =>
         (r.1, keystore_label (operation (retained_header r.2)) (label (retained_header r.2)) r.1))
    (filter (fun r : Z * Retained => consumed r.2 = false /\ header_entry (retained_header r.2) <> ""%string /\
               header_entry (retained_header r.2) = name) (index (spills k))).

(** [dispatch]. *)
Definition key_payload (payload : Bytes) : result string KernelError :=
  match from_utf8 payload with Some key => Ok key | None => Err (refusal PluginFailed "malformed keystore payload") end.

Definition mutation `{Callers} (c : Chance) (caller : PeerId) (name : option string) (operation key : string)
    (value : option Bytes) (k : Keystore) : Io (result Bytes KernelError * Keystore * Rows) :=
  match authorized_key caller key with
  | (Err error, rows) => Ret (Err error, k, rows)
  | (Ok _, _) =>
      io_bind (mutate c (caller_fiber caller) name operation key value k) (fun r =>
        Ret (match r.1.1 with Ok id => Ok (encode_handle id) | Err error => Err error end, r.1.2, r.2))
  end.

Definition keystore_dispatch `{Callers} (c : Chance) (caller : PeerId) (name : option string) (operation : string)
    (payload : Bytes) (k : Keystore) : Io (result Bytes KernelError * Keystore * Rows) :=
  if decide (operation = "get") then
    Ret match key_payload payload with
        | Err error => (Err error, k, [])
        | Ok key => let '(r, rows) := get_op caller key k in (r, k, rows)
        end
  else if decide (operation = "list") then Ret (Ok (list_op caller k), k, [])
  else if decide (operation = "put") then
    match read_text "keystore put" payload with
    | Err error => Ret (Err error, k, [])
    | Ok (key, value) => mutation c caller name "put" key (Some value) k
    end
  else if decide (operation = "delete") then
    match key_payload payload with
    | Err error => Ret (Err error, k, [])
    | Ok key => mutation c caller name "delete" key None k
    end
  else Ret (Err (refusal PluginFailed ("unknown keystore operation " +:+ debug_str operation)), k, []).
End Mutations.

(** [HostKeystore::open]. *)
Definition open_keystore `{Utf8} `{Cipher} (key_of : MasterKeySource -> result Bytes KernelError) (dir : Path)
    (source : MasterKeySource) (files : gmap Path Bytes) : result (Keystore * gmap Path Bytes) KernelError :=
  match open_vault key_of dir source files with
  | Err error => Err error
  | Ok v =>
      let store := dir ++ [Normal "inverses"] in
      match open_store store (sweep_staged dir files) with
      | Err error => Err error
      | Ok (epoch, spilled, files) =>
          Ok (MkKeystore v (MkHostFs dir store (map (fun r : Z * Header => (r.1, MkRetained r.2 false)) spilled)
                (first_id epoch spilled)), files)
      end
  end.

(** ** A sealed document opens to its map *)

Record secrets_sized (m : Secrets) : Prop := {
  few : (Z.of_nat (base.size m) < 2 ^ 32)%Z;
  each_sized key value : m !! key = Some value -> sized key /\ (Z.of_nat (length value) < 2 ^ 32)%Z;
}.

Lemma sorted_entries_Permutation m : sorted_entries m ≡ₚ map_to_list m.
Proof. apply sort_by_Permutation. Qed.

#[local] Opaque put_segment.

Section Decoded.
Context `{U : Utf8, !Utf8Laws U}.

Lemma decode_loop_entries l m :
  Forall (fun e : string * Bytes => sized e.1 /\ (Z.of_nat (length e.2) < 2 ^ 32)%Z) l ->
  decode_loop (length l) (concat (map encode_secret l)) m = Ok (foldl (fun m (e : string * Bytes) => <[e.1 := e.2]> m) m l).
Proof.
  intros Hl. revert m. induction Hl as [|[key value] l [Hk Hv] _ IH]; intros m; simpl; [done|].
  unfold encode_secret at 1. simpl. rewrite <-!app_assoc.
  pose proof (reads_text "keystore document" key Hk) as Hr. unfold put_text in Hr. rewrite Hr. simpl.
  rewrite (reads_segment "keystore document" value Hv). simpl. apply IH.
Qed.

Lemma foldl_insert_map (l : list (string * Bytes)) (m : Secrets) :
  NoDup l.*1 -> Forall (fun key => m !! key = None) l.*1 ->
  foldl (fun m (e : string * Bytes) => <[e.1 := e.2]> m) m l = m ∪ list_to_map l.
Proof.
  revert m. induction l as [|[key value] l IH]; intros m; simpl.
  - intros _ _. by rewrite (right_id_L ∅ (∪)).
  - intros [Hk Hnd]%NoDup_cons [Hm Hl]%Forall_cons. rewrite IH; [|done|].
    + rewrite <-insert_union_l, <-insert_union_r by done. done.
    + rewrite Forall_forall in *. intros k' Hin. rewrite lookup_insert_ne; [by apply Hl|]. by intros ->.
Qed.

Lemma decode_encode_secrets m : secrets_sized m -> decode_secrets (encode_secrets m) = Ok m.
Proof.
  intros [Hf Hs]. unfold decode_secrets, encode_secrets.
  pose proof (sorted_entries_Permutation m) as Hp. set (l := sorted_entries m) in *.
  assert (length l = base.size m) as Hlen by by rewrite Hp, length_map_to_list.
  rewrite saturated_small by done.
  unfold read_u32. rewrite (reads_value "keystore document" 4) by (rewrite u32_pow; lia). simpl.
  rewrite Nat2Z.id, <-Hlen, decode_loop_entries.
  - rewrite foldl_insert_map.
    + rewrite (left_id_L ∅ (∪)). rewrite (list_to_map_proper l (map_to_list m)), list_to_map_to_list; [done| |done].
      rewrite Hp. apply NoDup_fst_map_to_list.
    + rewrite Hp. apply NoDup_fst_map_to_list.
    + apply Forall_forall. intros k _. apply lookup_empty.
  - apply Forall_forall. intros [key value] Hin. rewrite Hp in Hin. by apply Hs, elem_of_map_to_list.
Qed.
End Decoded.

Section Sealed.
Context `{C : Cipher, !CipherLaws C}.

Lemma unseal_with_sealed key nonce plain sealed :
  length nonce = NONCE_LEN -> encrypt key nonce plain = Some sealed ->
  unseal_with key (MAGIC ++ nonce ++ sealed) = Ok plain.
Proof.
  intros Hn He. unfold unseal_with. rewrite split_at_app by done. rewrite decide_False by naive_solver.
  rewrite split_at_app by done. by rewrite (decrypt_encrypt key nonce plain sealed He).
Qed.

Lemma unseal_seal draw plain sealed v :
  (forall nonce, draw = Ok nonce -> length nonce = NONCE_LEN) ->
  seal draw plain v = Ok sealed -> unseal sealed v = Ok plain.
Proof.
  unfold seal, unseal. intros Hn. destruct draw as [nonce|]; [|done]. destruct (master v) as [key|]; [|done].
  destruct (encrypt key nonce plain) as [body|] eqn:He; [|done]. intros [= <-]. apply unseal_with_sealed; [by apply Hn|done].
Qed.
End Sealed.

(** ** No crash loses a secret *)

(** No operation of the program touches the path. *)
Fixpoint avoids {A} (q : Path) (m : Io A) : Prop :=
  match m with Ret _ => True | Do op next => q ∉ touches op /\ forall r, avoids q (next r) end.

Lemma avoids_bind {A B} q (m : Io A) (f : A -> Io B) :
  avoids q m -> (forall x, avoids q (f x)) -> avoids q (io_bind m f).
Proof. intros Hm Hf. induction m as [x|op next IH]; [apply Hf|]. destruct Hm as [Hq Hn]. split; [done|]. intros r. by apply IH. Qed.

Lemma wp_avoids {A} may_fail q v (m : Io A) d :
  avoids q m -> settled d q v -> wp may_fail (fun d => settled d q v) (fun _ d => settled d q v) m d.
Proof.
  revert d. induction m as [x|op next IH]; intros d Hm Hd; [by apply wp_ret|]. destruct Hm as [Hq Hn].
  split; [done|]. intros r d' Hstep. apply IH; [done|]. eapply kept_settled; [|done]. by eapply step_kept.
Qed.

Lemma wp_and {A} may_fail safe safe' (post post' : A -> Disk -> Prop) m d :
  wp may_fail safe post m d -> wp may_fail safe' post' m d ->
  wp may_fail (fun d => safe d /\ safe' d) (fun x d => post x d /\ post' x d) m d.
Proof.
  revert d. induction m as [x|op next IH]; intros d [H1 H2] [H3 H4]; split; [done..|]. intros r d' Hstep. apply IH; auto.
Qed.

Lemma avoids_commit q target bytes :
  q <> target -> q <> staged_beside target -> avoids q (commit_atomic target bytes).
Proof.
  intros Ht Hs. unfold commit_atomic, commit_stages, attempt. simpl.
  repeat (split; [set_solver|]; intros [?|?]; simpl); repeat (split; [set_solver|]; intros [?|?]; simpl); try done.
  destruct (parent target); simpl; [|done]. split; [set_solver|]. intros [?|?]; simpl; [done|].
  split; [set_solver|]. done.
Qed.

Lemma avoids_retain q hd p h :
  q <> spill_path (store h) (next_id h) -> q <> staged_beside (spill_path (store h) (next_id h)) ->
  avoids q (retain hd p h).
Proof.
  intros H1 H2. unfold retain, take_id, persist.
  apply avoids_bind; [|by intros]. apply avoids_bind; [by apply avoids_commit|by intros].
Qed.

Lemma avoids_release q id h : q <> spill_path (store h) id -> avoids q (release id h).
Proof. intros Hq. unfold release, reclaim_spill. simpl. split; [set_solver|]. by intros. Qed.

Definition salt_path (v : Vault) : Path := vault_dir v ++ [Normal SALT_FILE].

(** The document holds the map, under the key; no document is the empty map. *)
Definition opens_to `{Utf8} `{Cipher} (key : Bytes) (held : option Bytes) (m : Secrets) : Prop :=
  match held with
  | None => m = ∅
  | Some sealed => exists plain, unseal_with key sealed = Ok plain /\ decode_secrets plain = Ok m
  end.

(** The next process: the files of the last one, the same configured source. *)
Definition reopened `{Utf8} `{Cipher} `{Derivation} (draw : Draw) (left_over : gmap Path Bytes) (v : Vault) :
    result Vault KernelError :=
  open_vault (fun s => (DiskExample.run_well (resolve_key s (vault_dir v) draw) (rebooted left_over)).1)
    (vault_dir v) (source v) left_over.

Section Reopening.
Context `{U : Utf8, C : Cipher, D : Derivation} (v : Vault) (passphrase salt key : Bytes).
Hypothesis configured : source v = Passphrase passphrase.
Hypothesis salt_sized : length salt = SALT_LEN.
Hypothesis derives : derived_key passphrase salt = Ok key.

Lemma resolves draw left_over :
  left_over !! salt_path v = Some salt ->
  (DiskExample.run_well (resolve_key (source v) (vault_dir v) draw) (rebooted left_over)).1 = Ok key.
Proof.
  intros Hs. rewrite configured. unfold resolve_key, read_salt. simpl. unfold salt_path in Hs. rewrite Hs. simpl.
  by rewrite decide_True, derives.
Qed.

Lemma reopens draw left_over m :
  left_over !! salt_path v = Some salt -> opens_to key (left_over !! document v) m ->
  exists v', reopened draw left_over v = Ok v' /\ entries v' = m.
Proof.
  intros Hs Hm. unfold reopened, open_vault. rewrite sweep_staged_keeps by by rewrite file_name_child.
  change (vault_dir v ++ [Normal STORE_FILE]) with (document v). destruct (left_over !! document v) as [sealed|].
  - destruct Hm as (plain & Hu & Hd). rewrite resolves by done. rewrite Hu, Hd. eauto.
  - eauto.
Qed.
End Reopening.

(** The vault has its key; the salt it was derived with and a document of the
    map are on stable storage. *)
Record faithful `{Utf8} `{Cipher} `{Derivation} (passphrase salt key : Bytes) (v : Vault) (d : Disk) : Prop := {
  configured : source v = Passphrase passphrase;
  has_key : master v = Some key;
  derived : derived_key passphrase salt = Ok key;
  salt_whole : length salt = SALT_LEN;
  salt_durable : settled d (salt_path v) (Some salt);
  document_durable : exists held, settled d (document v) held /\ opens_to key held (entries v);
}.

(** The system answers with whole nonces, and the next document seals. *)
Record sealable `{Cipher} (key : Bytes) (c : Chance) (m : Secrets) : Prop := {
  prior_whole nonce : prior_draw c = Ok nonce -> length nonce = NONCE_LEN;
  document_drawn : exists nonce, document_draw c = Ok nonce /\ length nonce = NONCE_LEN /\
    is_Some (encrypt key nonce (encode_secrets m));
  map_sized : secrets_sized m;
}.

Section Mutating.
Context `{U : Utf8, !Utf8Laws U, C : Cipher, !CipherLaws C, D : Derivation} (may_fail : FsOp -> Prop).
Context (k : Keystore) (c : Chance) (fiber : option FiberId) (name : option string) (operation key : string).
Context (value : option Bytes) (passphrase salt secret : Bytes) (held : option Bytes) (d0 : Disk).

Abbreviation v := (vault k).
Abbreviation h := (spills k).
Abbreviation next := (set_secret key value v).
Abbreviation kept_spill := (spill_path (store h) (next_id h)).

Hypothesis before : faithful passphrase salt secret v d0.
Hypothesis store_apart : vault_dir v <> store h.
Hypothesis dir_syncs : ~ may_fail (SyncDir (vault_dir v)).
Hypothesis id_fresh : Forall (fun r => r.1 <> next_id h) (index h).
Hypothesis spill_free : settled d0 kept_spill None.
Hypothesis seals : sealable secret c (entries next).
Hypothesis document_held : settled d0 (document v) held.

Definition the_header : Header := MkHeader key "" (owner_number fiber) (default "" name) operation.
Definition the_effect : Effect := MkEffect fiber operation the_header key.

(** What an inverse restores: the sealed value, or the absence. *)
Definition restores (p : Prior) : Prop :=
  match get_secret key v with
  | Some current => exists sealed, p = PriorContent sealed /\ unseal sealed v = Ok current
  | None => p = PriorAbsent
  end.

Lemma sealed_prior_restores p : sealed_prior c key value v = Ok p -> restores p.
Proof.
  unfold sealed_prior, restores. destruct (get_secret key v) as [current|].
  - destruct (seal _ _ _) as [sealed|] eqn:Hs; [|done]. intros [= <-]. exists sealed. split; [done|].
    eapply unseal_seal; [|done]. apply seals.
  - destruct value; [by intros [= <-]|done].
Qed.

Lemma next_document : exists doc, sealed_document (document_draw c) next = Ok (document v, doc) /\
  opens_to secret (Some doc) (entries next).
Proof.
  destruct seals as [_ (nonce & Hd & Hn & [body He]) Hsz]. exists (MAGIC ++ nonce ++ body).
  unfold sealed_document, seal. rewrite Hd. assert (master next = Some secret) as -> by apply before.
  rewrite He. split; [done|]. exists (encode_secrets (entries next)).
  split; [by eapply unseal_with_sealed|by apply decode_encode_secrets].
Qed.

(** Undoing the move in memory gives the map back. *)
Lemma set_back p current :
  match p with PriorContent _ => get_secret key v = Some current | _ => get_secret key v = None end ->
  set_secret key (match p with PriorContent _ => Some current | _ => None end) next = v.
Proof.
  intros Hp. destruct (vault k) as [dir src ms es]; unfold set_secret, get_secret in *; simpl in *. f_equal.
  apply map_eq. intros i. destruct (decide (i = key)) as [->|Hne].
  - destruct p; simpl; rewrite ?lookup_delete_eq, ?lookup_insert_eq; [done|by destruct Hp|done].
  - destruct p, value; simpl; rewrite ?lookup_delete_ne, ?lookup_insert_ne, ?lookup_delete_ne by done; done.
Qed.

Lemma parent_document : parent (document v) = Some (vault_dir v).
Proof. apply parent_child. Qed.

Lemma salt_ne_spill : salt_path v <> kept_spill /\ salt_path v <> staged_beside kept_spill.
Proof.
  split; eapply paths_differ; [apply parent_child|apply parent_child|done|apply parent_child|apply parent_staged, parent_child|done].
Qed.

Lemma salt_ne_document : salt_path v <> document v /\ salt_path v <> staged_beside (document v).
Proof.
  unfold salt_path, document. split; [by intros [_ [=]]%app_inj_2|]. unfold staged_beside, with_file_name.
  rewrite parent_child. rewrite file_name_child. by intros [_ [=]]%app_inj_2.
Qed.

(** Every disk on the way keeps the salt, and the document whole. *)
Definition surviving (doc : Bytes) (d : Disk) : Prop :=
  settled d (salt_path v) (Some salt) /\ between d (document v) held (Some doc).

(** What the mutation answers: the new map in memory and on the disk, with the
    inverse durable and both rows; or everything as it was. *)
Definition mutated (doc : Bytes) (o : result Z KernelError * Keystore * Rows) (d : Disk) : Prop :=
  settled d (salt_path v) (Some salt) /\ store (spills o.1.2) = store h /\
  match o.1.1 with
  | Ok id =>
      id = next_id h /\ settled d (document v) (Some doc) /\ vault o.1.2 = next /\
      (exists p, restores p /\ settled d kept_spill (Some (encode_record (MkSpillRecord the_header p)))) /\
      index (spills o.1.2) = index h ++ [(id, MkRetained the_header false)] /\
      o.2 = [(EffectRegistered (keystore_label operation key id), fiber);
             (KeystoreAccessed operation key (hex_digest <$> value), fiber)]
  | Err _ => settled d (document v) held /\ vault o.1.2 = v /\ index (spills o.1.2) = index h
  end.

Lemma still_surviving doc d : settled d (salt_path v) (Some salt) -> settled d (document v) held -> surviving doc d.
Proof. intros Hs Hd. split; [done|by apply settled_between]. Qed.

(** The mutation refused, with the map back in memory. *)
Lemma released_wp doc h' refused d :
  settled d (document v) held -> settled d (salt_path v) (Some salt) ->
  store h' = store h -> index h' = index h ++ [(next_id h, MkRetained the_header false)] ->
  wp may_fail (surviving doc) (mutated doc)
    (io_bind (release (next_id h) h') (fun h => Ret (Err refused, MkKeystore v h, []))) d.
Proof.
  intros Hdoc Hsalt Hst Hix. unfold release, reclaim_spill. rewrite Hst. cbn [io_bind].
  split; [by apply still_surviving|]. intros r d' Hstep.
  assert (forall q w, q <> kept_spill -> settled d q w -> settled d' q w) as Hkeep.
  { intros q w Hq Hw. eapply kept_settled; [|done]. eapply step_kept; [done|]. by intros ?%list_elem_of_singleton. }
  assert (settled d' (document v) held) as Hdoc' by (apply Hkeep; [by eapply file_ne_spill; [apply parent_document|]|done]).
  assert (settled d' (salt_path v) (Some salt)) as Hsalt' by by apply Hkeep; [apply salt_ne_spill|].
  apply wp_ret; [by apply still_surviving|]. split; [done|]. split; [done|]. simpl. split; [done|]. split; [done|].
  rewrite Hix. by apply forget_fresh.
Qed.

Lemma restore_wp doc p h' refused d :
  restores p -> settled d (document v) held -> settled d (salt_path v) (Some salt) ->
  store h' = store h -> index h' = index h ++ [(next_id h, MkRetained the_header false)] ->
  wp may_fail (surviving doc) (mutated doc) (restore key p (next_id h) refused (MkKeystore next h')) d.
Proof.
  intros Hp Hdoc Hsalt Hst Hix. unfold restore. unfold restores in Hp.
  destruct (get_secret key v) as [current|] eqn:Hcur.
  - destruct Hp as (sealed & -> & Hu). cbn [vault]. assert (unseal sealed next = unseal sealed v) as -> by done.
    rewrite Hu. unfold with_vault, with_spills. cbn [vault spills].
    rewrite (set_back (PriorContent sealed) current); [by apply released_wp|done].
  - subst p. unfold with_vault, with_spills. cbn [vault spills].
    rewrite (set_back PriorAbsent []); [by apply released_wp|done].
Qed.

Lemma move_wp doc p h' d :
  sealed_document (document_draw c) next = Ok (document v, doc) -> restores p ->
  settled d (document v) held -> settled d (salt_path v) (Some salt) ->
  settled d kept_spill (Some (encode_record (MkSpillRecord the_header p))) ->
  store h' = store h -> index h' = index h ++ [(next_id h, MkRetained the_header false)] ->
  wp may_fail (surviving doc) (mutated doc) (move_and_commit c fiber operation key value p (next_id h) (MkKeystore v h')) d.
Proof.
  intros Hdoc Hp Hd Hs Hsp Hst Hix. unfold move_and_commit, with_vault. cbn [vault spills]. rewrite Hdoc.
  apply wp_bind, wp_bind. assert (Disk.apart (document v) d d) as Hap by (intros q u w _ _; done).
  destruct salt_ne_document as [Hn1 Hn2].
  assert (forall d', Disk.apart (document v) d d' -> settled d' (salt_path v) (Some salt)) as Hsalt.
  { intros d' Hap'. eapply (proj1 (Hap' _ _ None Hn1 Hn2)); exact Hs. }
  assert (forall d', Disk.apart (document v) d d' -> settled d' kept_spill (Some (encode_record (MkSpillRecord the_header p)))) as Hspill.
  { intros d' Hap'. eapply (proj1 (Hap' _ _ None _ _)); exact Hsp. Unshelve.
    - apply not_eq_sym. by eapply file_ne_spill; [apply parent_document|].
    - eapply paths_differ; [apply parent_spill|apply parent_staged, parent_document|by apply not_eq_sym]. }
  eapply wp_mono; [| |apply (commit_atomic_wp may_fail (document v) (vault_dir v) doc held d parent_document d Hd Hap)].
  - intros d' [Hb Hap']. by split; [apply Hsalt|].
  - intros [[]|error] d' [Hap' Hr].
    + assert (surviving doc d') as Hsv by (split; [by apply Hsalt|by apply settled_between_r]).
      apply wp_ret; [done|]. apply wp_ret; [done|]. split; [by apply Hsalt|]. split; [done|]. simpl. split_and!; try done.
      exists p. split; [done|by apply Hspill].
    + destruct Hr as [Hr|[? _]]; [|done].
      apply wp_ret; [apply still_surviving; [by apply Hsalt|done]|]. apply restore_wp; [done|done|by apply Hsalt|done..].
Qed.

Lemma mutate_wp doc :
  sealed_document (document_draw c) next = Ok (document v, doc) ->
  wp may_fail (surviving doc) (mutated doc) (mutate c fiber name operation key value k) d0.
Proof.
  intros Hdoc. destruct before as [Hsrc Hkey Hder Hlen Hsalt _]. unfold mutate, unlock, locked. rewrite Hkey. cbn [io_bind].
  assert (surviving doc d0) as H0 by by apply still_surviving.
  destruct (sealed_prior c key value v) as [p|error] eqn:Hp; [|by apply wp_ret].
  apply sealed_prior_restores in Hp. apply wp_bind. change (MkHeader _ _ _ _ _) with (effect_header the_effect).
  eapply wp_mono; [| |apply wp_and;
    [apply (retain_wp may_fail h the_effect (document v) (vault_dir v) held p parent_document store_apart d0 (Some doc)); done|
     apply (wp_avoids may_fail (salt_path v) (Some salt)); [by apply avoids_retain; apply salt_ne_spill|done]]].
  - intros d [[Hd|[_ Hd]] Hs]; split; try done. by apply settled_between.
  - intros [[id|refused] h'] d [(Hd & Hid & _ & Hst & Hix) Hs]; simpl in Hid, Hst, Hix.
    + destruct Hid as [-> Hsp]. unfold with_spills. by apply move_wp.
    + apply wp_ret; [by apply still_surviving|]. split; [done|]. split; [done|]. by split_and!.
Qed.
End Mutating.

(** C18: No crash loses a secret, as long as no sync of the directory of the vault
    fails and the next map can be sealed and opened again ([sealable]). From a
    provider whose document on the disk holds its map, under a fresh id whose
    spill file is absent, wherever a put or a delete is cut short the next process,
    with the same passphrase, opens the map before it or the map after it,
    whole. What it answers stands: on success the map, in memory and for the
    next process, is the one with the key set, the inverse that restores the
    prior is durable, and the two rows name the key and the digest of the
    value and nothing else of it; on a refusal the map is what it was, in
    memory and for the next process. Where the sync of the directory does fail,
    a refusal can leave the map moved ([a_refused_mutation_can_have_moved_the_map]). *)
Theorem no_crash_loses_a_secret `{U : Utf8, !Utf8Laws U, C : Cipher, !CipherLaws C, D : Derivation} may_fail
    k c fiber name operation key value passphrase salt secret d0 m d :
  let v := vault k in
  let next := set_secret key value v in
  let spill := spill_path (store (spills k)) (next_id (spills k)) in
  faithful passphrase salt secret v d0 -> vault_dir v <> store (spills k) -> ~ may_fail (SyncDir (vault_dir v)) ->
  Forall (fun r => r.1 <> next_id (spills k)) (index (spills k)) -> settled d0 spill None ->
  sealable secret c (entries next) ->
  rtc (io_step may_fail) (mutate c fiber name operation key value k, d0) (m, d) ->
  (forall draw left_over, crash d left_over ->
    exists v', reopened draw left_over v = Ok v' /\ (entries v' = entries v \/ entries v' = entries next)) /\
  forall answer k' rows, m = Ret (answer, k', rows) ->
    faithful passphrase salt secret (vault k') d /\
    (forall draw left_over, crash d left_over ->
      exists v', reopened draw left_over v = Ok v' /\ entries v' = entries (vault k')) /\
    match answer with
    | Ok id =>
        id = next_id (spills k) /\ vault k' = next /\
        (exists p, restores k key p /\
           settled d spill (Some (encode_record (MkSpillRecord (the_header fiber name operation key) p)))) /\
        rows = [(EffectRegistered (keystore_label operation key id), fiber);
                (KeystoreAccessed operation key (hex_digest <$> value), fiber)]
    | Err _ => vault k' = v /\ index (spills k') = index (spills k)
    end.
Proof.
  intros v next spill Hf Hap Hsync Hfresh Hspill Hseal Hrun.
  destruct (document_durable _ _ _ _ _ Hf) as (held & Hheld & Hopens).
  destruct (next_document k c key value passphrase salt secret d0 Hf Hseal) as (doc & Hdoc & Hnext).
  pose proof (mutate_wp may_fail k c fiber name operation key value passphrase salt secret held d0
    Hf Hap Hsync Hfresh Hspill Hseal Hheld doc Hdoc) as Hwp.
  destruct (wp_sound _ _ _ _ _ _ _ Hwp Hrun) as [[Hsalt Hbetween] Hpost].
  destruct Hf as [Hsrc Hkey Hder Hlen _ _].
  assert (forall draw left_over held' es, crash d left_over -> left_over !! document v = held' ->
    opens_to secret held' es -> exists v', reopened draw left_over v = Ok v' /\ entries v' = es) as Hre.
  { intros draw left_over held' es Hc Hl Ho. eapply reopens; [done..| |by rewrite Hl]. by eapply settled_crash. }
  split.
  - intros draw left_over Hc. destruct (between_crash _ _ _ _ _ Hbetween Hc) as [Hl|Hl].
    + destruct (Hre draw left_over _ _ Hc Hl Hopens) as (v' & ? & ?). eauto.
    + destruct (Hre draw left_over _ _ Hc Hl Hnext) as (v' & ? & ?). eauto.
  - intros answer k' rows ->. destruct (Hpost _ eq_refl) as (_ & _ & Hend). simpl in Hend.
    destruct answer as [id|error].
    + destruct Hend as (-> & Hd & Hv & Hp & _ & Hrows). rewrite Hv. split; [|split].
      * split; try done. by exists (Some doc).
      * intros draw left_over Hc. eapply Hre; [done| |done]. by eapply settled_crash.
      * by split_and!.
    + destruct Hend as (Hd & Hv & Hix). rewrite Hv. split; [|split].
      * split; try done. by exists held.
      * intros draw left_over Hc. eapply Hre; [done| |done]. by eapply settled_crash.
      * by split.
Qed.

(** ** A withdrawn mutation restores its secret *)

Section Withdrawing.
Context `{U : Utf8, !Utf8Laws U, C : Cipher, !CipherLaws C, D : Derivation} (may_fail : FsOp -> Prop).
Context (k : Keystore) (c : Chance) (id : Z) (hd : Header) (p : Prior) (was : option Bytes).
Context (passphrase salt secret : Bytes) (held : option Bytes) (doc : Bytes) (d0 : Disk).

Abbreviation v := (vault k).
Abbreviation h := (spills k).
Abbreviation back := (set_secret (label hd) was v).
Abbreviation held_spill := (spill_path (store h) id).
Abbreviation record := (MkSpillRecord hd p).

Hypothesis before : faithful passphrase salt secret v d0.
Hypothesis store_apart : vault_dir v <> store h.
Hypothesis dir_syncs : ~ may_fail (SyncDir (vault_dir v)).
Hypothesis is_retained : retained_at id (index h) = Some (MkRetained hd false).
Hypothesis hd_ok : header_ok hd.
(** The prior it carries, under the key of the vault. *)
Hypothesis prior_is : match p with
  | PriorAbsent => was = None
  | PriorContent sealed => exists current, unseal sealed v = Ok current /\ was = Some current
  | PriorLength _ => False
  end.
Hypothesis spilled : settled d0 held_spill (Some (encode_record record)).
Hypothesis document_held : settled d0 (document v) held.
Hypothesis seals : sealed_document (document_draw c) back = Ok (document v, doc).

(** The inverse is still there, or the document is the restored one. *)
Definition withdrawing (d : Disk) : Prop :=
  settled d (salt_path v) (Some salt) /\
  ((settled d held_spill (Some (encode_record record)) /\ between d (document v) held (Some doc)) \/
   settled d (document v) (Some doc)).

Definition withdrawn_secret (o : result () KernelError * Keystore) (d : Disk) : Prop :=
  settled d (salt_path v) (Some salt) /\
  match o.1 with
  | Ok _ => settled d (document v) (Some doc) /\ vault o.2 = back /\
            cache d !! held_spill = None /\ spills o.2 = with_index (consume_id id) h
  | Err _ => settled d held_spill (Some (encode_record record)) /\ spills o.2 = h
  end.

Lemma document_ne_held : document v <> held_spill.
Proof. eapply paths_differ; [apply parent_child|apply parent_child|done]. Qed.

Lemma reclaim_secret_wp k' d :
  spills k' = h -> vault k' = back -> settled d (salt_path v) (Some salt) ->
  settled d held_spill (Some (encode_record record)) -> settled d (document v) (Some doc) ->
  wp may_fail withdrawing withdrawn_secret (reclaim_secret id k') d.
Proof.
  intros Hh Hv Hs Hsp Hd. unfold reclaim_secret, reclaim, reclaim_spill. rewrite Hh, is_retained. cbn [io_bind].
  split; [by split; [|right]|]. intros r d' Hstep.
  assert (settled d' (document v) (Some doc) /\ settled d' (salt_path v) (Some salt)) as [Hd' Hs'].
  { split; (eapply kept_settled; [|done]); (eapply step_kept; [done|]); intros E%list_elem_of_singleton.
    - by apply document_ne_held.
    - revert E. eapply paths_differ; [apply parent_child|apply parent_child|done]. }
  destruct Hsp as (Hdirty & Hc & Hst).
  inversion Hstep as [Hr Hdd|text Hfail Hr Hdd| |]; subst; try done.
  - assert (perform (RemoveFile held_spill) d =
      (Ok Done, MkDisk (delete held_spill (cache d)) (stable d) (dirty d ∖ {[held_spill]}))) as Hop by (simpl; by rewrite Hc).
    rewrite Hop in *. apply (wp_ret may_fail); [by split; [|right]|]. split; [done|]. simpl. split_and!; try done.
    apply lookup_delete_eq.
  - apply (wp_ret may_fail); [by split; [|right]|]. split; [done|]. simpl. split; [by split_and!|done].
Qed.

Lemma apply_secret_wp d :
  settled d (salt_path v) (Some salt) -> settled d held_spill (Some (encode_record record)) -> settled d (document v) held ->
  wp may_fail withdrawing
    (fun o d => withdrawing d /\ settled d (salt_path v) (Some salt) /\ settled d held_spill (Some (encode_record record)) /\
       spills o.2 = h /\
       match o.1 with Ok _ => settled d (document v) (Some doc) /\ vault o.2 = back | Err _ => True end)
    (apply_secret c record k) d.
Proof.
  intros Hs Hsp Hd. unfold apply_secret, unlock, locked. rewrite (has_key _ _ _ _ _ before). cbn [io_bind].
  assert (Hr : match prior record with
    | PriorAbsent => Ok None
    | PriorContent sealed => match unseal sealed v with Ok x => Ok (Some x) | Err error => Err error end
    | PriorLength _ => Err never_a_length
    end = Ok (E := KernelError) was).
  { simpl. destruct p; [by rewrite prior_is| |done]. destruct prior_is as (current & -> & ->). done. }
  rewrite Hr. unfold with_vault. cbn [vault header]. rewrite seals. apply wp_bind, wp_bind.
  assert (Disk.apart (document v) d d) as Hap by (intros q u w _ _; done).
  destruct (salt_ne_document k) as [Hn1 Hn2].
  assert (forall d', Disk.apart (document v) d d' ->
    settled d' (salt_path v) (Some salt) /\ settled d' held_spill (Some (encode_record record))) as Hkeep.
  { intros d' Hap'. split; [by apply (proj1 (Hap' _ (Some salt) None Hn1 Hn2))|].
    apply (proj1 (Hap' held_spill (Some (encode_record record)) None ltac:(apply not_eq_sym, document_ne_held)
      ltac:(eapply paths_differ; [apply parent_child|apply parent_staged, parent_child|by apply not_eq_sym]))). done. }
  eapply wp_mono; [| |apply (commit_atomic_wp may_fail (document v) (vault_dir v) doc held d (parent_document k) d Hd Hap)].
  - intros d' [Hb Hap']. destruct (Hkeep d' Hap'). split; [done|]. by left.
  - intros [[]|error] d' [Hap' Hc]; destruct (Hkeep d' Hap') as [Hs' Hsp'].
    + assert (withdrawing d') as Hw by (split; [done|by right]). apply wp_ret; [done|]. by apply wp_ret.
    + destruct Hc as [Hc|[? _]]; [|done].
      assert (withdrawing d') as Hw by (split; [done|left; split; [done|by apply settled_between]]).
      apply wp_ret; [done|]. by apply wp_ret.
Qed.

Lemma withdraw_secret_wp : wp may_fail withdrawing withdrawn_secret (withdraw_secret c id k) d0.
Proof.
  destruct before as [_ _ _ _ Hsalt _]. unfold withdraw_secret. rewrite is_retained. cbn [consumed].
  assert (withdrawing d0) as H0 by (split; [done|left; split; [done|by apply settled_between]]).
  unfold load. cbn [io_bind]. split; [done|]. intros r d Hstep.
  assert (d = d0) as -> by (inversion Hstep; subst; done).
  inversion Hstep as [Hr Hd|text Hfail Hr Hd| |]; subst; try done.
  simpl. rewrite (proj1 (proj2 spilled)), decode_encode_record; [|done|by destruct p].
  apply wp_bind. eapply wp_mono; [done| |by apply apply_secret_wp].
  intros [[[]|error] k'] d (Hw & Hs & Hsp & Hk & Hv); simpl in *.
  - destruct Hv. by apply reclaim_secret_wp.
  - by apply wp_ret.
Qed.
End Withdrawing.

(** A withdrawn mutation restores its secret. From a provider whose
    document holds its map and an inverse that is durable, wherever a
    withdrawal is cut short the next process opens the map as it was or with
    the prior back, and the inverse is gone only if the prior is; answered,
    the prior is back in memory and on stable storage and the inverse spent; a
    refusal keeps the inverse durable and the index as it was, so that the
    withdrawal can be asked for again. *)
Theorem a_withdrawn_mutation_restores_its_secret `{U : Utf8, !Utf8Laws U, C : Cipher, !CipherLaws C, D : Derivation}
    may_fail k c id hd p was passphrase salt secret d0 m d :
  let v := vault k in
  let back := set_secret (label hd) was v in
  let spill := spill_path (store (spills k)) id in
  let inverse := Some (encode_record (MkSpillRecord hd p)) in
  faithful passphrase salt secret v d0 -> vault_dir v <> store (spills k) -> ~ may_fail (SyncDir (vault_dir v)) ->
  retained_at id (index (spills k)) = Some (MkRetained hd false) -> header_ok hd ->
  match p with
  | PriorAbsent => was = None
  | PriorContent sealed => exists current, unseal sealed v = Ok current /\ was = Some current
  | PriorLength _ => False
  end ->
  settled d0 spill inverse -> sealable secret c (entries back) ->
  rtc (io_step may_fail) (withdraw_secret c id k, d0) (m, d) ->
  (forall draw left_over, crash d left_over ->
    exists v', reopened draw left_over v = Ok v' /\
      ((entries v' = entries v /\ left_over !! spill = inverse) \/ entries v' = entries back)) /\
  forall answer k', m = Ret (answer, k') ->
    match answer with
    | Ok _ => faithful passphrase salt secret (vault k') d /\ vault k' = back /\
              cache d !! spill = None /\ spills k' = with_index (consume_id id) (spills k)
    | Err _ => settled d spill inverse /\ spills k' = spills k
    end.
Proof.
  intros v back spill inverse Hf Hap Hsync Hret Hhd Hprior Hspill Hseal Hrun.
  destruct (document_durable _ _ _ _ _ Hf) as (held & Hheld & Hopens).
  destruct (next_document k c (label hd) was passphrase salt secret d0 Hf Hseal) as (doc & Hdoc & Hnext).
  pose proof (withdraw_secret_wp may_fail k c id hd p was passphrase salt secret held doc d0
    Hf Hap Hsync Hret Hhd Hprior Hspill Hheld Hdoc) as Hwp.
  destruct (wp_sound _ _ _ _ _ _ _ Hwp Hrun) as [[Hsalt Hsafe] Hpost].
  destruct Hf as [Hsrc Hkey Hder Hlen _ _].
  assert (forall draw left_over held' es, crash d left_over -> left_over !! document v = held' ->
    opens_to secret held' es -> exists v', reopened draw left_over v = Ok v' /\ entries v' = es) as Hre.
  { intros draw left_over held' es Hc Hl Ho. eapply reopens; [done..| |by rewrite Hl]. by eapply settled_crash. }
  split.
  - intros draw left_over Hc. destruct Hsafe as [[Hsp Hb]|Hd].
    + destruct (between_crash _ _ _ _ _ Hb Hc) as [Hl|Hl].
      * destruct (Hre draw left_over _ _ Hc Hl Hopens) as (v' & ? & ?). exists v'. split; [done|]. left.
        split; [done|]. by eapply settled_crash.
      * destruct (Hre draw left_over _ _ Hc Hl Hnext) as (v' & ? & ?). eauto.
    + destruct (Hre draw left_over _ _ Hc (settled_crash _ _ _ _ Hd Hc) Hnext) as (v' & ? & ?). eauto.
  - intros answer k' ->. destruct (Hpost _ eq_refl) as (_ & Hend). simpl in Hend.
    destruct answer as [[]|error]; [|done]. destruct Hend as (Hd & Hv & Hgone & Hix). rewrite Hv.
    split; [|by split_and!]. split; try done. by exists (Some doc).
Qed.

(** ** Examples *)

Module KeystoreExample.
Import DiskExample SpillExample.

(** A cipher that keeps the key and the nonce in front, and checks them. *)
#[export] Instance plain_cipher : Cipher := {
  encrypt key nonce plain := Some (key ++ nonce ++ plain);
  decrypt key nonce sealed :=
    if decide (take (length (key ++ nonce)) sealed = key ++ nonce) then Some (drop (length (key ++ nonce)) sealed) else None;
}.

#[export] Instance plain_cipher_laws : CipherLaws plain_cipher.
Proof.
  split. intros key nonce plain sealed [= <-]. cbn -[length app]. rewrite app_assoc, take_app_length, drop_app_length.
  by rewrite decide_True.
Qed.

#[export] Instance joined : Derivation := fun passphrase salt => Ok (passphrase ++ salt).

Definition dir : Path := [RootDir; Normal "keys"].
Definition store : Path := dir ++ [Normal "inverses"].
Definition salt : Bytes := replicate SALT_LEN 5%Z.
Definition other_salt : Bytes := replicate SALT_LEN 6%Z.
Definition nonce : Bytes := replicate NONCE_LEN 8%Z.
Definition secret : Bytes := [1]%Z ++ salt.
Definition chance : Chance := MkChance None (Ok salt) (Ok nonce) (Ok nonce).
Definition held_map : Secrets := {[ "db" := [9]%Z ]}.

Definition vault : Vault := MkVault dir (Passphrase [1]%Z) (Some secret) held_map.
Definition provider : Keystore := MkKeystore vault (MkHostFs dir store [] block).
Definition held_document : Bytes := MAGIC ++ nonce ++ secret ++ nonce ++ encode_secrets held_map.
Definition before : Disk := rebooted {[ salt_path vault := salt; document vault := held_document ]}.
Definition well (op : FsOp) : Prop := False.

Definition put_db : Io (result Z KernelError * Keystore * Rows) :=
  mutate chance (Some (MkFiberId 3)) (Some "app") "put" "db" (Some [7; 7]%Z) provider.
Definition stored : Disk := (run_well put_db before).2.
Definition holding : Keystore := (run_well put_db before).1.1.2.
Definition next : Vault := set_secret "db" (Some [7; 7]%Z) vault.

Lemma sized_singleton key value : sized key -> (Z.of_nat (length value) < 2 ^ 32)%Z -> secrets_sized {[ key := value ]}.
Proof.
  intros Hk Hv. split; [by rewrite map_size_singleton|]. intros key' value' [<- <-]%lookup_singleton_Some. by split.
Qed.

Lemma sealable_one value : (Z.of_nat (length value) < 2 ^ 32)%Z -> sealable secret chance {[ "db"%string := value ]}.
Proof.
  intros Hv. split; [by intros n [= <-]|exists nonce; split_and!; [done..|by eexists]|]. apply sized_singleton; [by vm_compute|done].
Qed.

Lemma provider_faithful : faithful [1]%Z salt secret vault before.
Proof.
  split; [done..| |].
  - split_and!; [apply not_elem_of_empty|by vm_compute|by vm_compute].
  - exists (Some held_document). split; [split_and!; [apply not_elem_of_empty|by vm_compute|by vm_compute]|].
    exists (encode_secrets held_map). split; by vm_compute.
Qed.

Lemma no_crash_loses_a_secret_witness :
  (run_well put_db before).1.1.1 = Ok block /\ faithful [1]%Z salt secret (Keystore.vault holding) stored /\
  Keystore.vault holding = next.
Proof.
  assert (vault_dir (Keystore.vault provider) <> HostFs.store (spills provider)) as Hap by (intros Heq; by vm_compute in Heq).
  assert (settled before (spill_path (HostFs.store (spills provider)) (next_id (spills provider))) None) as Hs
    by (split_and!; [apply not_elem_of_empty|by vm_compute|by vm_compute]).
  assert (~ well (SyncDir (vault_dir (Keystore.vault provider)))) as Hsync by exact (fun x => x).
  assert (sealable secret chance (entries (set_secret "db" (Some [7; 7]%Z) (Keystore.vault provider)))) as Hseal.
  { replace (entries _) with ({[ "db"%string := [7; 7]%Z ]} : Secrets) by (by vm_compute). by apply sealable_one. }
  pose proof (run_well_steps well put_db before) as Hrun.
  pose proof (no_crash_loses_a_secret well provider chance (Some (MkFiberId 3)) (Some "app"%string) "put" "db" (Some [7; 7]%Z)
    [1]%Z salt secret before _ _ provider_faithful Hap Hsync (Forall_nil_2 _) Hs Hseal Hrun) as [_ H].
  assert ((run_well put_db before).1 = (Ok block, holding,
    [(EffectRegistered (keystore_label "put" "db" block), Some (MkFiberId 3));
     (KeystoreAccessed "put" "db" (Some (hex_digest [7; 7]%Z)), Some (MkFiberId 3))])) as Hres by by vm_compute.
  rewrite Hres in H. destruct (H _ _ _ eq_refl) as (Hf & _ & _ & Hv & _). split; [by rewrite Hres|]. by split.
Defined.

Definition db_header : Header := MkHeader "db" "" 3 "app" "put".
Definition sealed_nine : Bytes := MAGIC ++ nonce ++ secret ++ nonce ++ [9]%Z.

Lemma a_withdrawn_mutation_restores_its_secret_witness :
  (run_well (withdraw_secret chance block holding) stored).1.1 = Ok () /\
  Keystore.vault (run_well (withdraw_secret chance block holding) stored).1.2 = vault.
Proof.
  assert (vault_dir (Keystore.vault holding) <> HostFs.store (spills holding)) as Hap by (intros Heq; by vm_compute in Heq).
  assert (~ well (SyncDir (vault_dir (Keystore.vault holding)))) as Hsync by exact (fun x => x).
  assert (retained_at block (index (spills holding)) = Some (MkRetained db_header false)) as Hret by by vm_compute.
  assert (header_ok db_header) as Hh by (split; vm_compute; try reflexivity; split; [intros [=]|reflexivity]).
  assert (Hfull : settled stored (spill_path (HostFs.store (spills holding)) block)
    (Some (encode_record (MkSpillRecord db_header (PriorContent sealed_nine))))).
  { split_and!; [|by vm_compute|by vm_compute]. apply (bool_decide_unpack _). by vm_compute. }
  assert (sealable secret chance (entries (set_secret "db" (Some [9]%Z) (Keystore.vault holding)))) as Hseal.
  { replace (entries _) with ({[ "db"%string := [9]%Z ]} : Secrets) by (by vm_compute). by apply sealable_one. }
  assert (faithful [1]%Z salt secret (Keystore.vault holding) stored) as Hf.
  { split; [by vm_compute|by vm_compute|by vm_compute|by vm_compute| |].
    - split_and!; [|by vm_compute|by vm_compute]. apply (bool_decide_unpack _). by vm_compute.
    - exists (Some (MAGIC ++ nonce ++ secret ++ nonce ++ encode_secrets (entries next))). split.
      + split_and!; [|by vm_compute|by vm_compute]. apply (bool_decide_unpack _). by vm_compute.
      + exists (encode_secrets (entries next)). split; by vm_compute. }
  pose proof (run_well_steps well (withdraw_secret chance block holding) stored) as Hrun.
  pose proof (a_withdrawn_mutation_restores_its_secret well holding chance block db_header (PriorContent sealed_nine) (Some [9]%Z)
    [1]%Z salt secret stored _ _ Hf Hap Hsync Hret Hh ltac:(exists [9]%Z; split; by vm_compute) Hfull Hseal Hrun) as [_ H].
  assert ((run_well (withdraw_secret chance block holding) stored).1 =
    (Ok (), (run_well (withdraw_secret chance block holding) stored).1.2)) as Hout by by vm_compute.
  rewrite Hout in H. destruct (H _ _ eq_refl) as (_ & Hv & _). split; [by rewrite Hout|]. rewrite Hv. by vm_compute.
Defined.

(** Entropy that fails at the document: the mutation is refused with the map
    moved in memory, the document as it was and the inverse on the live list. *)
Example a_refused_mutation_can_have_moved_the_map :
  let '(answer, k, rows, d) :=
    run_well (io_bind (mutate (MkChance None (Ok salt) (Ok nonce) (Err "entropy"%string)) None None "put" "db" (Some [7]%Z) provider)
      (fun r => Ret r)) before in
  answer = Err (entropy_failed "entropy") /\ get_secret "db" (Keystore.vault k) = Some [7]%Z /\
  cache d !! document vault = Some held_document /\ map fst (index (spills k)) = [block] /\ rows = [].
Proof. by vm_compute. Qed.

(** Runs with failures, and the first operations of a run. *)
Fixpoint run_with {A} (fault : FsOp -> bool) (m : Io A) (d : Disk) : A * Disk :=
  match m with
  | Ret x => (x, d)
  | Do op next =>
      if fault op then run_with fault (next (Err (IoOther "disk"))) d
      else let '(r, d) := perform op d in run_with fault (next r) d
  end.

Lemma run_with_steps {A} (may_fail : FsOp -> Prop) fault (m : Io A) d :
  (forall op, fault op = true -> may_fail op) ->
  rtc (io_step may_fail) (m, d) (Ret (run_with fault m d).1, (run_with fault m d).2).
Proof.
  intros Hf. revert d. induction m as [x|op next IH]; intros d; [apply rtc_refl|]. simpl. destruct (fault op) eqn:Hop.
  - eapply rtc_l; [|apply IH]. constructor. by apply fails, Hf.
  - destruct (perform op d) as [r d'] eqn:Hp. eapply rtc_l; [|apply IH].
    constructor. pose proof (performs may_fail d op) as H. by rewrite Hp in H.
Qed.

Fixpoint run_for {A} (n : nat) (m : Io A) (d : Disk) : Io A * Disk :=
  match n, m with
  | S n, Do op next => let '(r, d) := perform op d in run_for n (next r) d
  | _, _ => (m, d)
  end.

Lemma run_for_steps {A} may_fail n (m : Io A) d : rtc (io_step may_fail) (m, d) (run_for n m d).
Proof.
  revert m d. induction n as [|n IH]; intros [x|op next] d; try apply rtc_refl. simpl.
  destruct (perform op d) as [r d'] eqn:Hp. eapply rtc_l; [|apply IH].
  constructor. pose proof (performs may_fail d op) as H. by rewrite Hp in H.
Qed.

(** A commit that fails under a withdrawal leaves the map with the prior: it is
    refused, the inverse kept, and what is read is not what is stored. *)
Definition commit_fault (op : FsOp) : bool :=
  match op with CreateFile p => bool_decide (p = staged_beside (document vault)) | _ => false end.

Example a_refused_withdrawal_can_have_moved_the_map :
  exists k d error, rtc (io_step (fun op => commit_fault op = true)) (withdraw_secret chance block holding, stored) (Ret (Err error, k), d) /\
    get_secret "db" (Keystore.vault k) = Some [9]%Z /\ cache d !! document vault = cache stored !! document vault.
Proof.
  pose proof (run_with_steps _ commit_fault (withdraw_secret chance block holding) stored (fun _ H => H)) as Hrun.
  assert (match run_with commit_fault (withdraw_secret chance block holding) stored with
    | (Err _, k, d) => get_secret "db" (Keystore.vault k) = Some [9]%Z /\ cache d !! document vault = cache stored !! document vault
    | _ => False
    end) as H by by vm_compute.
  destruct (run_with _ _ _) as [[[[]|error] k] d]; [done|]. by exists k, d, error.
Qed.

(** ** The first unlock *)

Definition fresh : Keystore := MkKeystore (MkVault dir (Passphrase [1]%Z) None ∅) (MkHostFs dir store [] block).
Definition first_put : Io (result Z KernelError * Keystore * Rows) :=
  mutate chance None None "put" "db" (Some [9]%Z) fresh.

(** The disk after the first operations, and what a crash leaves there. *)
Definition after_ops (n : nat) : Disk := (run_for n first_put (rebooted ∅)).2.

Lemma leaves_but (d : Disk) (p : Path) (left_over : gmap Path Bytes) :
  (p ∈ dirty d \/ left_over !! p = stable d !! p) ->
  (forall q, q <> p -> left_over !! q = cache d !! q) -> crash d left_over.
Proof. intros Hp Hq q. destruct (decide (q = p)) as [->|Hne]; [by destruct Hp; auto|right; right; by apply Hq]. Qed.

(** The salt is written in place: cut short there, what is left is no salt, and
    no later process unlocks the store. *)
Example a_torn_salt_locks_the_store :
  exists m d left_over, rtc (io_step well) (first_put, rebooted ∅) (m, d) /\ crash d left_over /\
    left_over !! salt_path vault = Some [] /\
    (exists v', reopened (Ok salt) left_over (Keystore.vault fresh) = Ok v' /\ locked v' = true) /\
    forall draw, (run_well (resolve_key (Passphrase [1]%Z) dir draw) (rebooted left_over)).1 = Err (salt_failed "not 16 bytes").
Proof.
  exists (run_for 2 first_put (rebooted ∅)).1, (after_ops 2), (<[salt_path vault := []]> (cache (after_ops 2))). split_and!.
  - unfold after_ops. rewrite <-surjective_pairing. apply run_for_steps.
  - apply (leaves_but _ (salt_path vault)).
    + left. apply (bool_decide_unpack _). by vm_compute.
    + intros q Hq. by apply lookup_insert_ne.
  - by vm_compute.
  - exists (Keystore.vault fresh). split; by vm_compute.
  - intros draw. by vm_compute.
Qed.

(** The salt's own name is on stable storage only once the directory is synced:
    a first mutation cut short after the rename can leave a document without
    the salt it was sealed under, which no later process opens. *)
Example a_document_can_outlive_its_salt :
  exists m d left_over, rtc (io_step well) (first_put, rebooted ∅) (m, d) /\ crash d left_over /\
    left_over !! document vault = cache d !! document vault /\ is_Some (cache d !! document vault) /\
    left_over !! salt_path vault = None /\
    reopened (Ok other_salt) left_over (Keystore.vault fresh) = Err (store_corrupt "authentication failed").
Proof.
  exists (run_for 12 first_put (rebooted ∅)).1, (after_ops 12), (delete (salt_path vault) (cache (after_ops 12))). split_and!.
  - unfold after_ops. rewrite <-surjective_pairing. apply run_for_steps.
  - apply (leaves_but _ (salt_path vault)).
    + right. rewrite lookup_delete_eq. by vm_compute.
    + intros q Hq. by apply lookup_delete_ne.
  - by vm_compute.
  - apply (bool_decide_unpack _). by vm_compute.
  - apply lookup_delete_eq.
  - by vm_compute.
Qed.
End KeystoreExample.
