(* ===== verification/Http.v ===== *)
(** * The HTTP of the outbound calls ([jinnd-wasm/src/hostnet/http.rs],
    [hostnet/request.rs])

    Reading a URL, building a request head, reading a response head, and the
    exchange over a stream that answers its bytes in pieces. The addresses the
    standard library parses are modelled here too. *)

From Stdlib Require Import Ascii.
From stdpp Require Import base list strings pretty.
From S2P Require Import Prelude Api Entries Text Paths Grants Waits Broker Disk Spill Wire.

(** ** Addresses ([std::net]) *)

Inductive IpAddr := V4 (octets : list Z) | V6 (segments : list Z).

Record SocketAddr := MkSocketAddr { ip : IpAddr; port : Z }.

(** [Ipv4Addr::is_loopback], [Ipv6Addr::is_loopback]. *)
Definition is_loopback (a : IpAddr) : bool :=
  match a with
  | V4 (o :: _) => bool_decide (o = 127%Z)
  | V4 [] => false
  | V6 segments => bool_decide (segments = [0; 0; 0; 0; 0; 0; 0; 1]%Z)
  end.

(** One octet: at most three digits, without a leading zero. *)
Definition parse_octet (s : string) : option Z :=
  match s with
  | EmptyString => None
  | String "0" (String _ _) => None
  | _ => if decide (String.length s <= 3) then digits 255 0 s else None
  end.

Definition parse_ipv4 (s : string) : option (list Z) :=
  match split_on "." s with
  | [a; b; c; d] => a ← parse_octet a; b ← parse_octet b; c ← parse_octet c; d ← parse_octet d; Some [a; b; c; d]
  | _ => None
  end.

Definition hex_value (c : ascii) : option Z :=
  let n := Z.of_nat (nat_of_ascii c) in
  if decide (48 <= n <= 57)%Z then Some (n - 48)%Z
  else if decide (97 <= n <= 102)%Z then Some (n - 87)%Z
  else if decide (65 <= n <= 70)%Z then Some (n - 55)%Z
  else None.

Fixpoint hex_digits (acc : Z) (s : string) : option Z :=
  match s with EmptyString => Some acc | String c s => d ← hex_value c; hex_digits (acc * 16 + d) s end.

(** One group: one to four hexadecimal digits. *)
Definition parse_group (s : string) : option Z :=
  if decide (1 <= String.length s <= 4) then hex_digits 0 s else None.

(** Groups between colons; the last may be an IPv4 address, for two. *)
Fixpoint parse_groups (v4_last : bool) (parts : list string) : option (list Z) :=
  match parts with
  | [] => Some []
  | [last] =>
      match parse_ipv4 last with
      | Some [a; b; c; d] => if v4_last then Some [(a * 256 + b)%Z; (c * 256 + d)%Z] else None
      | _ => g ← parse_group last; Some [g]
      end
  | part :: parts => g ← parse_group part; gs ← parse_groups v4_last parts; Some (g :: gs)
  end.

(** At the first [::]. *)
Fixpoint split_double_colon (s : string) : option (string * string) :=
  match s with
  | EmptyString => None
  | String ":" (String ":" rest) => Some (EmptyString, rest)
  | String c s => '(before, after) ← split_double_colon s; Some (String c before, after)
  end.

Definition side (v4_last : bool) (s : string) : option (list Z) :=
  if decide (s = "") then Some [] else parse_groups v4_last (split_on ":" s).

Definition parse_ipv6 (s : string) : option (list Z) :=
  match split_double_colon s with
  | None => gs ← parse_groups true (split_on ":" s); if decide (length gs = 8) then Some gs else None
  | Some (before, after) =>
      hd ← side false before; tl ← side true after;
      if decide (length hd + length tl <= 7) then Some (hd ++ replicate (8 - length hd - length tl) 0%Z ++ tl) else None
  end.

(** [str::parse::<IpAddr>]. *)
Definition parse_ip (s : string) : option IpAddr :=
  match parse_ipv4 s with Some octets => Some (V4 octets) | None => V6 <$> parse_ipv6 s end.

(** A port here is digits alone. *)
Definition parse_port (s : string) : option Z := if decide (s = "") then None else digits 65535 0 s.

(** [str::parse::<SocketAddr>]; a scope id of an IPv6 address is digits. *)
Definition parse_socket_addr (s : string) : option SocketAddr :=
  match s with
  | String "[" rest =>
      '(inside, tail) ← split_once "]" rest;
      address ← match split_once "%" inside with
                | Some (address, scope) =>
                    if decide (scope = "") then None else _ ← digits (2 ^ 32 - 1) 0 scope; Some address
                | None => Some inside
                end;
      segments ← parse_ipv6 address;
      match tail with String ":" p => p ← parse_port p; Some (MkSocketAddr (V6 segments) p) | _ => None end
  | _ =>
      '(address, p) ← split_once ":" s;
      octets ← parse_ipv4 address; p ← parse_port p; Some (MkSocketAddr (V4 octets) p)
  end.

(** ** Text *)

Definition CR : ascii := "013".
Definition LF : ascii := "010".
Definition CRLF : string := String CR (String LF EmptyString).

(** [str::split("\r\n")]: never empty. *)
Fixpoint split_crlf (s : string) : list string :=
  match s with
  | EmptyString => [EmptyString]
  | String "013" (String "010" rest) => EmptyString :: split_crlf rest
  | String c s =>
      match split_crlf s with first :: rest => String c first :: rest | [] => [String c EmptyString] end
  end.

(** [str::split_whitespace]. *)
Fixpoint words_loop (s : string) : string * list string :=
  match s with
  | EmptyString => (EmptyString, [])
  | String c s =>
      let '(word, rest) := words_loop s in
      if is_space c then (EmptyString, if decide (word = "") then rest else word :: rest) else (String c word, rest)
  end.

Definition split_whitespace (s : string) : list string :=
  let '(word, rest) := words_loop s in if decide (word = "") then rest else word :: rest.

(** [str::contains] of a text. *)
Fixpoint contains_text (needle s : string) : bool :=
  starts_with needle s || match s with EmptyString => false | String _ s => contains_text needle s end.

(** Up to the first of these characters, and from it on. *)
Fixpoint split_any (cs : list ascii) (s : string) : string * string :=
  match s with
  | EmptyString => (EmptyString, EmptyString)
  | String c rest =>
      if bool_decide (c ∈ cs) then (EmptyString, s) else let '(before, after) := split_any cs rest in (String c before, after)
  end.

(** [str::rsplit_once]: at the last occurrence. *)
Fixpoint rsplit_once (c : ascii) (s : string) : option (string * string) :=
  match s with
  | EmptyString => None
  | String x s =>
      match rsplit_once c s with
      | Some (before, after) => Some (String x before, after)
      | None => if decide (x = c) then Some (EmptyString, s) else None
      end
  end.

Fixpoint drop_chars (n : nat) (s : string) : string :=
  match n, s with S n, String _ s => drop_chars n s | _, _ => s end.

(** ** Reading a URL *)

(** The headers the kernel writes. *)
Definition FRAMING : list string := ["host"; "connection"; "content-length"].

Definition invalid (detail : string) : KernelError := refusal InvalidProfile ("net request: " +:+ detail).
Definition net_failed (detail : string) : KernelError := refusal PluginFailed ("net request: " +:+ detail).

Inductive Transport := Plain | Tls.

#[export] Instance Transport_eq_dec : EqDecision Transport.
Proof. solve_decision. Defined.

Record Target := MkTarget {
  transport : Transport;
  authority : string;
  host : string;
  target_port : Z;
  target : string;
  path : string;
}.

(** The port of the scheme, on an authority that names none. *)
Definition defaulted (authority : string) (transport : Transport) : string :=
  match transport with
  | Plain => authority
  | Tls =>
      let ported := match rsplit_once "]" authority with
                    | Some (_, tail) => starts_with ":" tail
                    | None => has_char ":" authority
                    end in
      if ported || bool_decide (authority = "") then authority else authority +:+ ":443"
  end.

Definition parse_url (url : string) : result Target KernelError :=
  let lower := to_lowercase url in
  match (if starts_with "https://" lower then Some (Tls, 8)
         else if starts_with "http://" lower then Some (Plain, 7) else None) with
  | None => Err (invalid (debug_str url +:+ " is not an absolute http:// or https:// url"))
  | Some (transport, scheme) =>
      let '(written, tail) := split_any ["/"; "?"; "#"]%char (drop_chars scheme url) in
      match normalize_authority (defaulted written transport) with
      | None => Err (invalid (debug_str url +:+ " has no readable host:port authority"))
      | Some (authority, host, port) =>
          let target := match split_once "#" tail with Some (before, _) => before | None => tail end in
          let target := if decide (target = "") then "/"%string else target in
          let path := match split_once "?" target with Some (path, _) => path | None => target end in
          Ok (MkTarget transport authority host port target path)
      end
  end.

(** ** The request head *)

Definition is_graphic (c : ascii) : bool := let n := nat_of_ascii c in bool_decide (33 <= n <= 126).

Fixpoint all_chars (p : ascii -> bool) (s : string) : bool :=
  match s with EmptyString => true | String c s => p c && all_chars p s end.

(** Neither of the two characters that end a line. *)
Definition one_line (s : string) : bool := negb (has_char CR s) && negb (has_char LF s).

Definition header_line (name value : string) : string := to_lowercase name +:+ ": " +:+ value.

Fixpoint header_lines (headers : list (string * string)) : result string KernelError :=
  match headers with
  | [] => Ok ""%string
  | (name, value) :: headers =>
      if bool_decide (name = "") || has_char ":" name || negb (one_line name) || negb (one_line value)
      then Err (invalid ("header " +:+ debug_str name +:+ " is not one header line"))
      else if decide (to_lowercase name ∈ FRAMING)
      then Err (invalid ("header " +:+ debug_str (to_lowercase name) +:+
                  " frames the request and is the kernel's to write"))
      else
        match header_lines headers with
        | Err error => Err error
        | Ok rest => Ok (header_line name value +:+ CRLF +:+ rest)
        end
  end.

Definition request_line (method : string) (t : Target) : string := method +:+ " " +:+ target t +:+ " HTTP/1.1".
Definition content_length (body : Bytes) : string := "content-length: " +:+ pretty (Z.of_nat (length body)).

Definition head_text (method : string) (t : Target) (lines : string) (body : Bytes) : string :=
  request_line method t +:+ CRLF +:+ "host: " +:+ authority t +:+ CRLF +:+ "connection: close" +:+ CRLF +:+
  content_length body +:+ CRLF +:+ lines +:+ CRLF.

(** [head]. *)
Definition request_head (method : string) (t : Target) (headers : list (string * string)) (body : Bytes) :
    result Bytes KernelError :=
  if bool_decide (method = "") || negb (all_chars is_graphic method)
  then Err (invalid (debug_str method +:+ " is not a method token"))
  else
    match header_lines headers with
    | Err error => Err error
    | Ok lines => Ok (as_bytes (head_text method t lines body))
    end.

(** ** The response head *)

Record Head := MkHead { status : Z; headers : list (string * string) }.

(** [find]: the first of that name. *)
Definition header_value (name : string) (h : Head) : option string :=
  snd <$> (snd <$> list_find (fun e : string * string => e.1 = name) (headers h)).

Definition expected (h : Head) : result (option Z) KernelError :=
  if match header_value "transfer-encoding" h with Some coding => contains_text "chunked" coding | None => false end
  then Err (net_failed "the target answered chunked framing, which v0.2 does not decode")
  else
    match header_value "content-length" h with
    | None => Ok None
    | Some length =>
        match parse_unsigned (2 ^ 64 - 1) (trim length) with
        | Some n => Ok (Some n)
        | None => Err (net_failed ("content-length " +:+ debug_str length +:+ " is not a count"))
        end
    end.

(** Where the first blank line starts. *)
Fixpoint blank_at (bytes : Bytes) : option nat :=
  match bytes with
  | 13%Z :: ((10%Z :: 13%Z :: 10%Z :: _) as rest) => Some 0
  | _ :: bytes => S <$> blank_at bytes
  | [] => None
  end.

Definition header_of (line : string) : option (string * string) :=
  '(name, value) ← split_once ":" line; Some (to_lowercase (trim name), trim value).

Abbreviation Answered := (Z * list (string * string) * Bytes)%type.

(** What each read answers, the empty one being the end. A read that is not
    answered leaves the call to its bound. *)
Abbreviation Reads := (list (result Bytes string)).

Section Exchange.
Context `{Utf8}.

(** [response]. *)
Definition response (bytes : Bytes) : result (Head * Bytes) KernelError :=
  match blank_at bytes with
  | None => Err (net_failed "the target answered no complete response head")
  | Some ends =>
      match from_utf8 (take ends bytes) with
      | None => Err (net_failed "the response head is not UTF-8")
      | Some text =>
          match split_crlf text with
          | [] => Err (net_failed "the response has no status line")
          | first :: lines =>
              match (code ← split_whitespace first !! 1; parse_u16 code) with
              | None => Err (net_failed "the response has no status line")
              | Some status => Ok (MkHead status (omap header_of lines), drop (ends + 4) bytes)
              end
          end
      end
  end.

(** ** The exchange ([talk]) *)

Definition BODY_CAP : Z := 1024 * 1024.
Definition HEAD_CAP : Z := 64 * 1024.

Definition read_failed (authority error : string) : KernelError := net_failed ("read " +:+ authority +:+ ": " +:+ error).

Fixpoint read_head (authority : string) (reads : Reads) (buffer : Bytes) :
    option (result (Head * Bytes * Reads) KernelError) :=
  match response buffer with
  | Ok (h, held) => Some (Ok (h, held, reads))
  | Err unread =>
      if decide (HEAD_CAP < Z.of_nat (length buffer))%Z
      then Some (Err (net_failed ("the response head passed the 65536-byte cap")))
      else
        match reads with
        | [] => None
        | Err error :: _ => Some (Err (read_failed authority error))
        | Ok [] :: _ => Some (Err unread)
        | Ok chunk :: reads => read_head authority reads (buffer ++ chunk)
        end
  end.

Definition wants (expects : option Z) (held : Bytes) : bool :=
  match expects with None => true | Some n => (Z.of_nat (length held) <? n)%Z end.

Fixpoint read_body (authority : string) (expects : option Z) (reads : Reads) (held : Bytes) :
    option (result Bytes KernelError) :=
  if wants expects held then
    match reads with
    | [] => None
    | Err error :: _ => Some (Err (read_failed authority error))
    | Ok [] :: _ => Some (Ok held)
    | Ok chunk :: reads =>
        if decide (BODY_CAP < Z.of_nat (length (held ++ chunk)))%Z
        then Some (Err (net_failed ("the response body passed the 1048576-byte cap")))
        else read_body authority expects reads (held ++ chunk)
    end
  else Some (Ok held).

(** [truncate]. *)
Definition truncated (expects : option Z) (held : Bytes) : Bytes :=
  match expects with None => held | Some n => take (Z.to_nat n) held end.

Definition talk (authority : string) (written : result () string) (reads : Reads) : option (result Answered KernelError) :=
  match written with
  | Err error => Some (Err (net_failed ("write " +:+ authority +:+ ": " +:+ error)))
  | Ok _ =>
      match read_head authority reads [] with
      | None => None
      | Some (Err error) => Some (Err error)
      | Some (Ok (h, held, reads)) =>
          match expected h with
          | Err error => Some (Err error)
          | Ok expects =>
              if match expects with Some n => (BODY_CAP <? n)%Z | None => false end
              then Some (Err (net_failed "the target declared a body past the 1048576-byte cap"))
              else
                match read_body authority expects reads held with
                | None => None
                | Some (Err error) => Some (Err error)
                | Some (Ok held) => Some (Ok (status h, headers h, truncated expects held))
                end
          end
      end
  end.
End Exchange.

(** ** Lines *)

Lemma as_bytes_inj a b : as_bytes a = as_bytes b -> a = b.
Proof.
  revert b. induction a as [|c a IH]; intros [|d b]; simpl; try done. intros [= Hc Ha]. f_equal; [|by apply IH].
  rewrite <-(ascii_nat_embedding c), <-(ascii_nat_embedding d). f_equal. lia.
Qed.

(** Each line ended by its CRLF. *)
Fixpoint unlines (lines : list string) : string :=
  match lines with [] => EmptyString | l :: lines => l +:+ CRLF +:+ unlines lines end.

Lemma unlines_app a b : unlines (a ++ b) = unlines a +:+ unlines b.
Proof. induction a as [|l a IH]; [done|]. cbn [unlines app]. by rewrite IH, !append_assoc. Qed.

Definition line_ok (l : string) : Prop := one_line l = true.
Definition full_line (l : string) : Prop := one_line l = true /\ l <> ""%string.

Lemma one_line_cons c l : one_line (String c l) = true <-> c <> CR /\ c <> LF /\ one_line l = true.
Proof.
  unfold one_line. simpl. rewrite !andb_true_iff, !negb_true_iff, !orb_false_iff, !bool_decide_eq_false. tauto.
Qed.

Lemma one_line_app a b : one_line (a +:+ b) = true <-> one_line a = true /\ one_line b = true.
Proof.
  induction a as [|c a IH]; [simpl; split; [by split|tauto]|].
  change (String c a +:+ b) with (String c (a +:+ b)). rewrite !one_line_cons, IH. tauto.
Qed.

Lemma split_crlf_line l rest : line_ok l -> split_crlf (l +:+ CRLF +:+ rest) = l :: split_crlf rest.
Proof.
  intros Hl. induction l as [|c l IH]; [done|]. apply one_line_cons in Hl as (H1 & H2 & Hl).
  assert (split_crlf (String c l +:+ CRLF +:+ rest) = String c l :: split_crlf rest) as E; [|exact E].
  change (String c l +:+ CRLF +:+ rest) with (String c (l +:+ CRLF +:+ rest)).
  assert (Hstep : split_crlf (String c (l +:+ CRLF +:+ rest)) =
    match split_crlf (l +:+ CRLF +:+ rest) with first :: more => String c first :: more | [] => [String c EmptyString] end).
  { unfold CR in H1. clear IH Hl H2. destruct c as [b0 b1 b2 b3 b4 b5 b6 b7].
    destruct b0, b1, b2, b3, b4, b5, b6, b7; simpl; done || (by destruct H1). }
  by rewrite Hstep, IH.
Qed.

Lemma split_crlf_one l : line_ok l -> split_crlf l = [l].
Proof.
  intros Hl. induction l as [|c l IH]; [done|]. apply one_line_cons in Hl as (H1 & H2 & Hl).
  assert (Hstep : split_crlf (String c l) =
    match split_crlf l with first :: more => String c first :: more | [] => [String c EmptyString] end).
  { unfold CR in H1. clear IH Hl H2. destruct c as [b0 b1 b2 b3 b4 b5 b6 b7].
    destruct b0, b1, b2, b3, b4, b5, b6, b7; simpl; done || (by destruct H1). }
  by rewrite Hstep, IH.
Qed.

Lemma split_crlf_unlines lines rest : Forall line_ok lines -> split_crlf (unlines lines +:+ rest) = lines ++ split_crlf rest.
Proof.
  induction 1 as [|l lines Hl _ IH]; [done|]. cbn [unlines]. rewrite !append_assoc, split_crlf_line, IH by done. done.
Qed.

(** *** The first blank line *)

Lemma byte_ne c d : c <> d -> Z.of_nat (nat_of_ascii c) <> Z.of_nat (nat_of_ascii d).
Proof. intros Hne E. apply Hne. rewrite <-(ascii_nat_embedding c), <-(ascii_nat_embedding d). f_equal. lia. Qed.

Lemma blank_at_skip b w : b <> 13%Z -> blank_at (b :: w) = S <$> blank_at w.
Proof. intros Hb. destruct b as [|p|p]; [done| |done]. do 4 (destruct p as [p|p|]; try done). Qed.

Lemma blank_at_line l w : line_ok l -> blank_at (as_bytes l ++ w) = (fun n => String.length l + n) <$> blank_at w.
Proof.
  intros Hl. induction l as [|c l IH]; [cbn [as_bytes app String.length]; by destruct (blank_at w)|].
  cbn [as_bytes app String.length].
  apply one_line_cons in Hl as (H1 & H2 & Hl). rewrite blank_at_skip by by apply (byte_ne c CR).
  rewrite IH by done. by destruct (blank_at w).
Qed.

Lemma blank_at_end w : blank_at (13 :: 10 :: 13 :: 10 :: w)%Z = Some 0.
Proof. done. Qed.

Lemma blank_at_crlf b w : b <> 13%Z -> blank_at (13 :: 10 :: b :: w)%Z = (fun n => 2 + n) <$> blank_at (b :: w).
Proof.
  intros Hb. assert (blank_at (13 :: 10 :: b :: w)%Z = S <$> blank_at (10 :: b :: w)%Z) as ->.
  { destruct b as [|p|p]; [done| |done]. do 4 (destruct p as [p|p|]; try done). }
  rewrite blank_at_skip by done. by destruct (blank_at (b :: w)).
Qed.

Lemma as_bytes_length s : length (as_bytes s) = String.length s.
Proof. induction s as [|c s IH]; simpl; [done|by rewrite IH]. Qed.

Lemma line_length l rest : String.length (l +:+ CRLF +:+ rest) = String.length l + S (S (String.length rest)).
Proof. rewrite append_length. done. Qed.

Lemma blank_at_unlines l lines rest :
  Forall full_line (l :: lines) ->
  blank_at (as_bytes (unlines (l :: lines)) ++ [13; 10]%Z ++ rest) = Some (String.length (unlines (l :: lines)) - 2).
Proof.
  revert l. induction lines as [|m lines IH]; intros l [[Hl Hne] Hls]%Forall_cons.
  - cbn [unlines]. rewrite as_bytes_app, <-!app_assoc, blank_at_line by done. simpl.
    f_equal. rewrite line_length. cbn [String.length]. lia.
  - specialize (IH m Hls). cbn [unlines] in *. rewrite as_bytes_app, <-!app_assoc, blank_at_line by done.
    pose proof Hls as [[Hm Hmne] _]%Forall_cons. destruct m as [|c m]; [done|].
    apply one_line_cons in Hm as (H1 & _ & _). rewrite as_bytes_app, <-app_assoc.
    change (as_bytes CRLF) with [13; 10]%Z. cbn [app].
    change (as_bytes (String c m +:+ CRLF +:+ unlines lines)) with
      (Z.of_nat (nat_of_ascii c) :: as_bytes (m +:+ CRLF +:+ unlines lines)) in *. cbn [app] in *.
    rewrite blank_at_crlf by by apply (byte_ne c CR). rewrite IH. cbn [fmap option_fmap option_map]. f_equal.
    rewrite (line_length l), (line_length (String c m)). lia.
Qed.

(** ** A request is one request *)

Lemma to_lowercase_one_line s : one_line s = true -> one_line (to_lowercase s) = true.
Proof.
  induction s as [|c s IH]; [done|]. simpl. rewrite !one_line_cons. intros (H1 & H2 & Hs).
  assert (lower c <> CR /\ lower c <> LF) as [? ?]; [|by rewrite IH].
  unfold lower. case_decide as Hc; [|done].
  assert (nat_of_ascii CR = 13 /\ nat_of_ascii LF = 10) as [HCR HLF] by done.
  split; intros E; apply (f_equal nat_of_ascii) in E; rewrite nat_ascii_embedding in E by lia; lia.
Qed.

Definition written_lines (headers : list (string * string)) : list string :=
  map (fun h : string * string => header_line h.1 h.2) headers.

Lemma header_lines_written headers lines :
  header_lines headers = Ok lines ->
  lines = unlines (written_lines headers) /\ Forall full_line (written_lines headers) /\
  Forall (fun h : string * string => to_lowercase h.1 ∉ FRAMING) headers.
Proof.
  revert lines. induction headers as [|[name value] headers IH]; intros lines; cbn [header_lines]; [by intros [= <-]|].
  destruct (bool_decide (name = "") || _ || _ || _) eqn:Hb; [done|].
  destruct (decide (to_lowercase name ∈ FRAMING)) as [|Hf]; [done|].
  destruct (header_lines headers) as [rest|]; [|done]. intros [= <-]. destruct (IH _ eq_refl) as (-> & Hl & Hh).
  rewrite !orb_false_iff, !negb_false_iff in Hb. destruct Hb as [[[Hn _] Hn1] Hv].
  split_and!; [done| |by constructor]. constructor; [|done]. unfold full_line, header_line. cbn [fst snd]. split.
  - rewrite !one_line_app. split_and!; [by apply to_lowercase_one_line|done|done].
  - by destruct name.
Qed.

Lemma graphic_one_line s : all_chars is_graphic s = true -> one_line s = true.
Proof.
  induction s as [|c s IH]; [done|]. simpl. rewrite andb_true_iff, one_line_cons. unfold is_graphic.
  rewrite bool_decide_eq_true. intros [Hc Hs]. assert (nat_of_ascii CR = 13 /\ nat_of_ascii LF = 10) as [HCR HLF] by done.
  split_and!; [| |by apply IH]; intros ->; lia.
Qed.

Lemma pretty_char_one_line x : (x < 10)%N -> pretty_N_char x <> CR /\ pretty_N_char x <> LF.
Proof.
  intros Hx. assert (x = 0 \/ x = 1 \/ x = 2 \/ x = 3 \/ x = 4 \/ x = 5 \/ x = 6 \/ x = 7 \/ x = 8 \/ x = 9)%N as H by lia.
  by repeat destruct H as [->|H]; try subst x.
Qed.

Lemma pretty_go_one_line n s : one_line s = true -> one_line (pretty_N_go n s) = true.
Proof.
  revert s. induction (N.lt_wf_0 n) as [n _ IH]; intros s Hs. destruct (decide (n = 0)%N) as [->|Hn].
  - by rewrite pretty_N_go_0.
  - rewrite pretty_N_go_step by lia. apply IH; [apply N.div_lt; lia|].
    rewrite one_line_cons. pose proof (pretty_char_one_line (n mod 10) (N.mod_lt _ 10 ltac:(lia))). tauto.
Qed.

Lemma pretty_one_line n : (0 <= n)%Z -> one_line (pretty n) = true.
Proof.
  intros Hn. destruct n as [|p|p]; [done| |lia]. change (pretty (Z.pos p)) with (pretty (N.pos p)).
  unfold pretty, pretty_N. rewrite decide_False by done. by apply pretty_go_one_line.
Qed.

Definition kernel_lines (method : string) (t : Target) (body : Bytes) : list string :=
  [request_line method t; "host: " +:+ authority t; "connection: close"; content_length body]%string.

Lemma append_nonempty a b : a <> ""%string -> a +:+ b <> ""%string.
Proof. destruct a as [|c a]; [done|]. by intros _ ?. Qed.

Lemma request_head_lines method t hs body bytes :
  request_head method t hs body = Ok bytes -> one_line (target t) = true -> one_line (authority t) = true ->
  bytes = as_bytes (unlines (kernel_lines method t body ++ written_lines hs)) ++ [13; 10]%Z /\
  Forall full_line (kernel_lines method t body ++ written_lines hs) /\
  Forall (fun h : string * string => to_lowercase h.1 ∉ FRAMING) hs.
Proof.
  unfold request_head. destruct (bool_decide (method = "") || _) eqn:Hm; [done|].
  rewrite orb_false_iff, negb_false_iff, bool_decide_eq_false in Hm. destruct Hm as [Hne Hm].
  destruct (header_lines hs) as [lines|] eqn:Hl; [|done]. intros [= <-] Ht Ha.
  apply header_lines_written in Hl as (-> & Hl & Hf). split_and!; [| |done].
  - unfold head_text. rewrite unlines_app. cbn [unlines kernel_lines]. change [13; 10]%Z with (as_bytes CRLF).
    rewrite <-as_bytes_app. f_equal. rewrite !append_assoc. done.
  - apply Forall_app. split; [|done]. unfold kernel_lines, request_line, content_length.
    assert (one_line (pretty (Z.of_nat (length body))) = true) as Hb by (apply pretty_one_line; lia).
    apply graphic_one_line in Hm.
    rewrite !Forall_cons. unfold full_line. rewrite !one_line_app. split_and!; try done; by apply append_nonempty.
Qed.

(** What a call sends is one request. For a target and an authority that
    hold on one line, an accepted head is the kernel's four lines and one line
    for each of the caller's headers, none of them one the kernel frames the
    request with, then a blank line, which is the first blank line of what goes
    on the wire whatever the body holds: no header and no method ends the
    request early or starts another. *)
Theorem a_call_sends_one_request method t hs body bytes :
  request_head method t hs body = Ok bytes -> one_line (target t) = true -> one_line (authority t) = true ->
  (exists text, bytes = as_bytes text /\
     split_crlf text = kernel_lines method t body ++ written_lines hs ++ [""; ""]%string) /\
  blank_at (bytes ++ body) = Some (length bytes - 4) /\
  Forall (fun h : string * string => to_lowercase h.1 ∉ FRAMING) hs.
Proof.
  intros Hh Ht Ha. destruct (request_head_lines _ _ _ _ _ Hh Ht Ha) as (-> & Hl & Hf).
  set (lines := kernel_lines method t body ++ written_lines hs) in *. split_and!; [| |done].
  - exists (unlines lines +:+ CRLF). split; [by rewrite as_bytes_app|].
    rewrite split_crlf_unlines by (eapply Forall_impl; [exact Hl|by intros ? []]).
    unfold lines. by rewrite <-app_assoc.
  - rewrite <-app_assoc. change lines with (request_line method t :: (tail lines)) in Hl |- *.
    rewrite blank_at_unlines by done. f_equal. rewrite length_app, as_bytes_length. cbn [length]. lia.
Qed.

(** ** The answer, in whatever pieces it arrives *)

Lemma blank_at_Some bytes n :
  blank_at bytes = Some n <-> exists more, drop n bytes = (13 :: 10 :: 13 :: 10 :: more)%Z /\
    forall m more, m < n -> drop m bytes <> (13 :: 10 :: 13 :: 10 :: more)%Z.
Proof.
  revert n. induction bytes as [|b bytes IH]; intros n.
  - split; [done|]. intros (more & Hd & _). by rewrite drop_nil in Hd.
  - assert (blank_at (b :: bytes) = Some 0 /\ (exists more, b :: bytes = (13 :: 10 :: 13 :: 10 :: more)%Z) \/
            blank_at (b :: bytes) = S <$> blank_at bytes /\ (forall more, b :: bytes <> (13 :: 10 :: 13 :: 10 :: more)%Z)) as [[E [m0 Em]]|[E Hno]].
    { destruct (decide (b = 13%Z)) as [->|Hb]; [|right; split; [by apply blank_at_skip|by intros more [= ?]]].
      destruct bytes as [|b1 bytes]; [by right|]. destruct (decide (b1 = 10%Z)) as [->|Hb1].
      - destruct bytes as [|b2 bytes]; [by right|]. destruct (decide (b2 = 13%Z)) as [->|Hb2].
        + destruct bytes as [|b3 bytes]; [by right|]. destruct (decide (b3 = 10%Z)) as [->|Hb3]; [left; by eauto|].
          right. split; [|by intros more [= ?]]. clear IH. destruct b3 as [|p|p]; [done| |done]. do 4 (destruct p as [p|p|]; try done).
        + right. split; [|by intros more [= ?]]. clear IH. destruct b2 as [|p|p]; [done| |done]. do 4 (destruct p as [p|p|]; try done).
      - right. split; [|by intros more [= ?]]. clear IH. destruct b1 as [|p|p]; [done| |done]. do 4 (destruct p as [p|p|]; try done). }
    + rewrite E. split.
      * intros [= <-]. exists m0. split; [done|]. intros; lia.
      * intros (more & Hd & Hmin). destruct n as [|n]; [done|]. exfalso. eapply (Hmin 0); [lia|done].
    + rewrite E. split.
      * intros Hs. destruct (blank_at bytes) as [k|]; [|done]. injection Hs as <-.
        destruct (proj1 (IH k) eq_refl) as (more & Hd & Hmin). exists more. split; [done|].
        intros [|m] more' Hm; [apply Hno|apply Hmin; lia].
      * intros (more & Hd & Hmin). destruct n as [|n]; [by destruct (Hno more)|].
        rewrite (proj2 (IH n)); [done|]. exists more. split; [done|]. intros m more' Hm. apply (Hmin (S m)). lia.
Qed.

Lemma blank_at_bound bytes n : blank_at bytes = Some n -> n + 4 <= length bytes.
Proof.
  intros (more & Hd & _)%blank_at_Some. apply (f_equal length) in Hd. rewrite length_drop in Hd. simpl in Hd. lia.
Qed.

Lemma blank_at_app bytes more n : blank_at bytes = Some n -> blank_at (bytes ++ more) = Some n.
Proof.
  intros Hb. pose proof (blank_at_bound _ _ Hb) as Hn. apply blank_at_Some in Hb as (rest & Hd & Hmin).
  apply blank_at_Some. exists (rest ++ more). split; [by rewrite drop_app_le, Hd by lia|].
  intros m more' Hm Hd'. rewrite drop_app_le in Hd' by lia. apply (Hmin m (drop (m + 4) bytes) Hm).
  assert (4 <= length (drop m bytes)) as Hl by (rewrite length_drop; lia). rewrite <-drop_drop.
  destruct (drop m bytes) as [|b0 [|b1 [|b2 [|b3 bs]]]]; simpl in Hl; try lia. simpl in Hd'. by injection Hd' as -> -> -> -> _.
Qed.

(** A prefix that holds the blank line has it at the same place. *)
Lemma blank_at_prefix bytes more n : blank_at (bytes ++ more) = Some n -> n + 4 <= length bytes -> blank_at bytes = Some n.
Proof.
  intros (rest & Hd & Hmin)%blank_at_Some Hn. apply blank_at_Some. exists (drop (n + 4) bytes). split.
  - rewrite drop_app_le in Hd by lia. assert (4 <= length (drop n bytes)) as Hl by (rewrite length_drop; lia).
    rewrite <-drop_drop. destruct (drop n bytes) as [|b0 [|b1 [|b2 [|b3 bs]]]]; simpl in Hl; try lia.
    simpl in Hd. by injection Hd as -> -> -> -> _.
  - intros m more' Hm Hd'. apply (Hmin m (more' ++ more) Hm). rewrite drop_app_le by lia. by rewrite Hd'.
Qed.

Section Pieces.
Context `{Utf8}.

Lemma response_split bytes h held :
  response bytes = Ok (h, held) -> exists n, blank_at bytes = Some n /\ held = drop (n + 4) bytes.
Proof.
  unfold response. destruct (blank_at bytes) as [n|]; [|done]. destruct (from_utf8 _) as [text|]; [|done].
  destruct (split_crlf text) as [|first lines]; [done|].
  destruct (code ← _; _) as [s|]; [|done]. intros [= <- <-]. eauto.
Qed.

Lemma response_app bytes more h held : response bytes = Ok (h, held) -> response (bytes ++ more) = Ok (h, held ++ more).
Proof.
  intros Hr. destruct (response_split _ _ _ Hr) as (n & Hn & ->). pose proof (blank_at_bound _ _ Hn) as Hb.
  revert Hr. unfold response. rewrite (blank_at_app _ _ _ Hn), Hn, take_app_le by lia.
  destruct (from_utf8 _) as [text|]; [|done]. destruct (split_crlf text) as [|first lines]; [done|].
  destruct (code ← _; _) as [s|]; [|done]. intros [= <-]. by rewrite drop_app_le by lia.
Qed.

(** Once the blank line is in, the head reads as it will. *)
Lemma response_prefix bytes more h held n :
  response (bytes ++ more) = Ok (h, held) -> blank_at (bytes ++ more) = Some n -> n + 4 <= length bytes ->
  exists held', response bytes = Ok (h, held') /\ held = held' ++ more.
Proof.
  intros Hr Hn Hl. pose proof (blank_at_prefix _ _ _ Hn Hl) as Hp. revert Hr. unfold response. rewrite Hn, Hp, take_app_le by lia.
  destruct (from_utf8 _) as [text|]; [|done]. destruct (split_crlf text) as [|first lines]; [done|].
  destruct (code ← _; _) as [s|]; [|done]. intros [= <- <-]. eexists. split; [done|]. by rewrite drop_app_le by lia.
Qed.

Abbreviation pieces chunks := (map (fun chunk : Bytes => Ok (E := string) chunk) chunks).

Lemma read_head_pieces authority chunks after buffer h rest n :
  Forall (fun chunk => chunk <> []) chunks ->
  response (buffer ++ concat chunks) = Ok (h, rest) -> blank_at (buffer ++ concat chunks) = Some n ->
  (Z.of_nat n + 4 <= HEAD_CAP)%Z ->
  exists held left, read_head authority (pieces chunks ++ after) buffer = Some (Ok (h, held, pieces left ++ after)) /\
    rest = held ++ concat left /\ Forall (fun chunk => chunk <> []) left.
Proof.
  intros Hne. revert buffer. induction Hne as [|chunk chunks Hc Hne IH]; intros buffer Hr Hn Hcap; cbn [concat map app].
  - cbn [concat] in Hr. rewrite app_nil_r in Hr. exists rest, []. split; [|split; [symmetry; apply app_nil_r|done]].
    destruct after; cbn [read_head]; by rewrite Hr.
  - cbn [read_head]. destruct (response buffer) as [[h' held]|unread] eqn:Hb.
    + pose proof (response_app _ (concat (chunk :: chunks)) _ _ Hb) as Hr'. rewrite Hr in Hr'. injection Hr' as -> ->.
      exists held, (chunk :: chunks). split_and!; [done|done|by constructor].
    + destruct (decide (n + 4 <= length buffer)) as [Hl|Hl].
      { destruct (response_prefix _ _ _ _ _ Hr Hn Hl) as (held' & Hb' & _). by rewrite Hb in Hb'. }
      rewrite decide_False by (unfold HEAD_CAP in *; lia). destruct chunk as [|b chunk]; [done|].
      cbn [concat] in Hr, Hn. rewrite app_assoc in Hr, Hn. by apply IH.
Qed.

Lemma read_body_pieces authority expects chunks after held rest :
  Forall (fun chunk => chunk <> []) chunks -> held ++ concat chunks = rest -> (Z.of_nat (length rest) <= BODY_CAP)%Z ->
  match expects with Some n => (0 <= n <= Z.of_nat (length rest))%Z | None => head after = Some (Ok []) end ->
  exists held', read_body authority expects (pieces chunks ++ after) held = Some (Ok held') /\
    truncated expects held' = truncated expects rest.
Proof.
  intros Hne. revert held. induction Hne as [|chunk chunks Hc Hne IH]; intros held <- Hcap He; cbn [concat map app] in *.
  - rewrite app_nil_r in *. destruct after as [|r after]; cbn [read_body].
    + destruct expects as [n|]; [|done]. unfold wants. rewrite (proj2 (Z.ltb_ge _ _)) by lia. eauto.
    + destruct (wants expects held) eqn:Hw; [|eauto]. destruct expects as [n|].
      * unfold wants in Hw. apply Z.ltb_lt in Hw. lia.
      * injection He as ->. eauto.
  - cbn [read_body]. destruct (wants expects held) eqn:Hw.
    + destruct chunk as [|b chunk]; [done|]. rewrite decide_False.
      * apply IH; [by rewrite <-app_assoc|done|done].
      * rewrite !length_app in *. simpl in *. lia.
    + exists held. split; [done|]. destruct expects as [n|]; [|done]. unfold wants in Hw. apply Z.ltb_ge in Hw.
      unfold truncated. by rewrite take_app_le by lia.
Qed.

(** An answer is the same in whatever pieces it arrives. When what the
    target sends reads as a whole as a head within the cap and a body that is
    all there and within the cap, then however the stream cuts it up the call
    answers that status, those headers and the declared body, or the whole
    rest when the head declares no length and the stream ends. *)
Theorem an_answer_does_not_depend_on_its_pieces authority chunks after h rest expects :
  Forall (fun chunk => chunk <> []) chunks ->
  response (concat chunks) = Ok (h, rest) -> (Z.of_nat (length (concat chunks) - length rest) <= HEAD_CAP)%Z ->
  expected h = Ok expects -> (Z.of_nat (length rest) <= BODY_CAP)%Z ->
  match expects with Some n => (0 <= n <= Z.of_nat (length rest))%Z | None => head after = Some (Ok []) end ->
  talk authority (Ok ()) (pieces chunks ++ after) = Some (Ok (status h, headers h, truncated expects rest)).
Proof.
  intros Hne Hr Hhead Hx Hcap He. destruct (response_split _ _ _ Hr) as (n & Hn & Hrest).
  pose proof (blank_at_bound _ _ Hn) as Hb.
  assert (Z.of_nat n + 4 <= HEAD_CAP)%Z as Hcap' by (subst rest; rewrite length_drop in Hhead; lia).
  destruct (read_head_pieces authority chunks after [] h rest n Hne Hr Hn Hcap') as (held & left & Hread & Hsplit & Hleft).
  destruct (read_body_pieces authority expects left after held rest Hleft (eq_sym Hsplit) Hcap He) as (held' & Hbody & Htr).
  unfold talk. rewrite Hread, Hx. destruct expects as [m|].
  - rewrite (proj2 (Z.ltb_ge _ _)) by lia. by rewrite Hbody, Htr.
  - by rewrite Hbody, Htr.
Qed.

(** What a call answers is bounded, whatever the target sends. *)
Lemma read_head_bound authority reads buffer h held left :
  Forall (fun r => forall chunk, r = Ok chunk -> (Z.of_nat (length chunk) <= 8192)%Z) reads ->
  (Z.of_nat (length buffer) <= HEAD_CAP + 8192)%Z ->
  read_head authority reads buffer = Some (Ok (h, held, left)) -> (Z.of_nat (length held) <= HEAD_CAP + 8192)%Z.
Proof.
  intros Hr. revert buffer. induction Hr as [|r reads Hr Hrs IH]; intros buffer Hb; cbn [read_head].
  - destruct (response buffer) as [[h' held']|] eqn:Hres; [|by case_decide]. intros [= -> -> <-].
    destruct (response_split _ _ _ Hres) as (n & _ & ->). rewrite length_drop. lia.
  - destruct (response buffer) as [[h' held']|] eqn:Hres.
    + intros [= -> -> <-]. destruct (response_split _ _ _ Hres) as (n & _ & ->). rewrite length_drop. lia.
    + case_decide; [done|]. destruct r as [[|b chunk]|refused]; [done| |done]. apply IH.
      specialize (Hr _ eq_refl). rewrite length_app. lia.
Qed.

Lemma read_body_bound authority expects reads held held' :
  (Z.of_nat (length held) <= BODY_CAP)%Z -> read_body authority expects reads held = Some (Ok held') ->
  (Z.of_nat (length held') <= BODY_CAP)%Z.
Proof.
  revert held. induction reads as [|r reads IH]; intros held Hh; cbn [read_body].
  - destruct (wants expects held); [done|]. by intros [= <-].
  - destruct (wants expects held); [|by intros [= <-]]. destruct r as [[|b chunk]|refused]; [by intros [= <-]| |done].
    case_decide; [done|]. apply IH. lia.
Qed.

(** No answer is longer than the cap, nor than what its head declared. *)
Theorem an_answer_is_bounded authority written reads s hs body :
  Forall (fun r => forall chunk, r = Ok chunk -> (Z.of_nat (length chunk) <= 8192)%Z) reads ->
  talk authority written reads = Some (Ok (s, hs, body)) ->
  (Z.of_nat (length body) <= BODY_CAP)%Z /\
  forall n, expected (MkHead s hs) = Ok (Some n) -> (0 <= n)%Z -> (Z.of_nat (length body) <= n)%Z.
Proof.
  intros Hr. unfold talk. destruct written as [[]|]; [|done].
  destruct (read_head authority reads []) as [[[[h held] left]|]|] eqn:Hh; [|done|done].
  assert (Z.of_nat (length held) <= HEAD_CAP + 8192)%Z as Hheld.
  { eapply read_head_bound; [exact Hr| |exact Hh]. unfold HEAD_CAP. simpl. lia. }
  destruct (expected h) as [expects|] eqn:Hx; [|done]. destruct (match expects with Some _ => _ | None => _ end) eqn:Hc; [done|].
  destruct (read_body authority expects left held) as [[held'|]|] eqn:Hb; [|done|done]. intros [= <- <- <-].
  apply read_body_bound in Hb; [|unfold HEAD_CAP, BODY_CAP in *; lia]. destruct h as [s hs]. simpl. split.
  - destruct expects; simpl; [rewrite length_take|]; lia.
  - rewrite Hx. intros n [= ->] Hn. simpl. rewrite length_take. lia.
Qed.
End Pieces.

(** ** An authority names one host and one port *)

Lemma cut_unique c a b a' b' :
  has_char c a = false -> has_char c a' = false -> a +:+ String c b = a' +:+ String c b' -> a = a' /\ b = b'.
Proof. intros Ha Ha' E. apply (f_equal (split_once c)) in E. rewrite !split_once_first in E by done. by injection E. Qed.

Lemma digit_char_ne x c : (x < 10)%N -> digit c = None -> pretty_N_char x <> c.
Proof. intros Hx Hc <-. by rewrite digit_pretty in Hc. Qed.

Lemma pretty_go_has_char c n s : digit c = None -> has_char c (pretty_N_go n s) = has_char c s.
Proof.
  intros Hc. revert s. induction (N.lt_wf_0 n) as [n _ IH]; intros s. destruct (decide (n = 0)%N) as [->|Hn].
  - by rewrite pretty_N_go_0.
  - rewrite pretty_N_go_step by lia. rewrite IH by (apply N.div_lt; lia). cbn [has_char].
    rewrite bool_decide_eq_false_2; [done|]. apply digit_char_ne; [apply N.mod_lt; lia|done].
Qed.

Lemma pretty_has_char c n : (0 <= n)%Z -> digit c = None -> has_char c (pretty n) = false.
Proof.
  intros Hn Hc. destruct n as [|p|p]; [|change (pretty (Z.pos p)) with (pretty (N.pos p))|lia].
  - change (pretty 0%Z) with "0"%string. cbn [has_char]. rewrite bool_decide_eq_false_2; [done|]. by intros <-.
  - unfold pretty, pretty_N. rewrite decide_False by done. by rewrite pretty_go_has_char.
Qed.

Lemma pretty_inj_u16 a b : (0 <= a <= 65535)%Z -> (0 <= b <= 65535)%Z -> pretty a = pretty b -> a = b.
Proof.
  intros Ha Hb E. pose proof (parse_pretty 65535 a Ha) as H. rewrite E, parse_pretty in H by done. by injection H.
Qed.

Lemma lower_bracket c : lower c = "]"%char -> c = "]"%char.
Proof.
  unfold lower. destruct (decide (65 <= nat_of_ascii c <= 90)) as [Hc|]; [|done].
  intros E. apply (f_equal nat_of_ascii) in E. rewrite nat_ascii_embedding in E by lia.
  assert (nat_of_ascii "]"%char = 93) as E' by done. lia.
Qed.

Lemma to_lowercase_bracket s : has_char "]" s = false -> has_char "]" (to_lowercase s) = false.
Proof.
  induction s as [|c s IH]; [done|]. intros [Hc Hs]%orb_false_iff. cbn [to_lowercase has_char].
  apply orb_false_iff. split; [|by apply IH]. apply bool_decide_eq_false in Hc. apply bool_decide_eq_false.
  intros E. by apply Hc, lower_bracket.
Qed.

Lemma lower_colon c : lower c = ":"%char -> c = ":"%char.
Proof.
  unfold lower. destruct (decide (65 <= nat_of_ascii c <= 90)) as [Hc|]; [|done].
  intros E. apply (f_equal nat_of_ascii) in E. rewrite nat_ascii_embedding in E by lia.
  assert (nat_of_ascii ":"%char = 58) as E' by done. lia.
Qed.

Lemma to_lowercase_colon s : has_char ":" (to_lowercase s) = true -> has_char ":" s = true.
Proof.
  induction s as [|c s IH]; [done|]. cbn [to_lowercase has_char]. rewrite !orb_true_iff, !bool_decide_eq_true.
  intros [H|H]; [left; by apply lower_colon|right; by apply IH].
Qed.

Lemma digits_range max acc s n : (0 <= acc <= max)%Z -> digits max acc s = Some n -> (0 <= n <= max)%Z.
Proof.
  revert acc. induction s as [|c s IH]; intros acc Ha; cbn [digits]; [by intros [= <-]|].
  unfold digit. destruct (decide _) as [Hc|]; [|done]. simpl. destruct (_ <=? max)%Z eqn:Hm; [|done].
  apply Z.leb_le in Hm. apply IH. lia.
Qed.

Lemma parse_unsigned_range max s n : (0 <= max)%Z -> parse_unsigned max s = Some n -> (0 <= n <= max)%Z.
Proof. unfold parse_unsigned. case_decide; [done|]. intros Hm. apply digits_range. lia. Qed.

(** What a normal form is made of. *)
Lemma normalize_shape text normal h p :
  normalize_authority text = Some (normal, h, p) ->
  (0 <= p <= 65535)%Z /\
  (has_char ":" h = false /\ normal = h +:+ String ":" (pretty p) \/
   has_char ":" h = true /\ has_char "]" h = false /\ normal = "[" +:+ h +:+ String "]" (String ":" (pretty p))).
Proof.
  unfold normalize_authority. destruct (bool_decide (text = "") || _ || _); [done|].
  destruct (authority_parts text) as [[h0 port]|] eqn:Hp; [|done]. simpl.
  destruct (match port with None => _ | Some _ => _ end) as [q|] eqn:Hq; [|done]. simpl.
  destruct (decide (h0 = "")); [done|]. intros [= <- <- <-].
  assert (0 <= q <= 65535)%Z as Hr.
  { destruct port as [port|]; [|injection Hq as <-; lia]. by apply (parse_unsigned_range 65535) in Hq. }
  split; [done|]. destruct (has_char ":" (to_lowercase h0)) eqn:Hc; [right|by left]. split_and!; [done| |done].
  apply to_lowercase_colon in Hc. apply to_lowercase_bracket. clear Hq.
  unfold authority_parts in Hp. destruct text as [|c text]; [by injection Hp as <- <-|].
  assert ((exists tail, split_once "]" text = Some (h0, tail)) \/
    (split_once ":" (String c text) = None /\ h0 = String c text) \/ (exists tail, split_once ":" (String c text) = Some (h0, tail)))
    as [[tail Hs]|[[Hs ->]|[tail Hs]]].
  { destruct (decide (c = "["%char)) as [->|Hb].
    - left. destruct (split_once "]" text) as [[a b]|]; [|done]. injection Hp as <- _. eauto.
    - right. assert (Hp' : match split_once ":" (String c text) with
        | Some (host, port) => Some (host, Some port) | None => Some (String c text, None) end = Some (h0, port)).
      { clear -Hp Hb. destruct c as [b0 b1 b2 b3 b4 b5 b6 b7]. destruct b0, b1, b2, b3, b4, b5, b6, b7; try exact Hp. by destruct Hb. }
      destruct (split_once ":" (String c text)) as [[a b]|]; injection Hp' as <- _; eauto. }
  - by eapply split_once_before.
  - by rewrite (split_once_None _ _ Hs) in Hc.
  - by rewrite (split_once_before _ _ _ _ Hs) in Hc.
Qed.

(** Two authorities with one normal form are one host and one port. *)
Lemma normalize_inj a b normal h h' p p' :
  normalize_authority a = Some (normal, h, p) -> normalize_authority b = Some (normal, h', p') -> h = h' /\ p = p'.
Proof.
  intros Ha Hb. apply normalize_shape in Ha as [Hp Ha]. apply normalize_shape in Hb as [Hp' Hb].
  assert (forall x y q q', has_char ":" x = false -> has_char ":" y = true -> (0 <= q)%Z -> (0 <= q')%Z ->
    x +:+ String ":" (pretty q) = "[" +:+ y +:+ String "]" (String ":" (pretty q')) -> False) as Hmix.
  { intros x y q q' Hx Hy Hq Hq' E. destruct x as [|c x]; [done|]. change (String c x +:+ String ":" (pretty q)) with (String c (x +:+ String ":" (pretty q))) in E.
    injection E as -> E. apply orb_false_iff in Hx as [_ Hx].
    apply (f_equal (has_char "]")) in E as E2.
    assert (exists y1 y2, y = y1 +:+ String ":" y2 /\ has_char ":" y1 = false) as (y1 & y2 & -> & Hy1).
    { clear -Hy. induction y as [|c y IH]; [done|]. destruct (decide (c = ":"%char)) as [->|Hc]; [by exists EmptyString, y|].
      cbn [has_char] in Hy. rewrite bool_decide_eq_false_2 in Hy by done. destruct (IH Hy) as (y1 & y2 & -> & Hn).
      exists (String c y1), y2. split; [done|]. cbn [has_char]. by rewrite bool_decide_eq_false_2, Hn. }
    rewrite append_assoc in E. change (String ":" y2 +:+ String "]" (String ":" (pretty q'))) with
      (String ":" (y2 +:+ String "]" (String ":" (pretty q')))) in E.
    apply cut_unique in E as [_ E]; [|done|done]. apply (f_equal (has_char "]")) in E.
    rewrite pretty_has_char, has_char_app in E by done. cbn [has_char] in E. by rewrite orb_true_r in E. }
  destruct Ha as [[Hc ->]|(Hc & Hn & ->)], Hb as [[Hc' E]|(Hc' & Hn' & E)].
  - apply cut_unique in E as [-> E]; [|done|done]. split; [done|by apply pretty_inj_u16].
  - exfalso. by eapply Hmix; [exact Hc|exact Hc'|..|exact E]; lia.
  - exfalso. by eapply Hmix; [exact Hc'|exact Hc|..|symmetry; exact E]; lia.
  - change ("[" +:+ h +:+ String "]" (String ":" (pretty p))) with (String "[" (h +:+ String "]" (String ":" (pretty p)))) in E.
    change ("[" +:+ h' +:+ String "]" (String ":" (pretty p'))) with (String "[" (h' +:+ String "]" (String ":" (pretty p')))) in E.
    injection E as E. apply cut_unique in E as [-> E]; [|done|done]. injection E as E. split; [done|by apply pretty_inj_u16].
Qed.

(** What was parsed is in normal form. *)
Lemma parse_url_authority url t :
  parse_url url = Ok t -> exists written, normalize_authority written = Some (authority t, host t, target_port t).
Proof.
  unfold parse_url.
  destruct (if starts_with "https://" (to_lowercase url) then _ else _) as [[tr scheme]|]; [|done].
  destruct (split_any _ _) as [written tail]. destruct (normalize_authority _) as [[[a h] p]|] eqn:Hn; [|done].
  intros [= <-]. eauto.
Qed.

(** ** Examples *)

Module HttpExample.
Import SpillExample.
Local Open Scope string_scope.

Definition local : Target := MkTarget Plain "localhost:80" "localhost" 80 "/v1?q" "/v1".

Lemma a_call_sends_one_request_witness :
  exists bytes, request_head "GET" local [("X-Key", "a b")] [1]%Z = Ok bytes /\
    blank_at (bytes ++ [1]%Z) = Some (length bytes - 4).
Proof.
  destruct (request_head "GET" local [("X-Key", "a b")] [1]%Z) as [bytes|] eqn:Hh; [|by vm_compute in Hh].
  exists bytes. split; [done|].
  pose proof (a_call_sends_one_request "GET" local [("X-Key", "a b")] [1]%Z bytes Hh ltac:(by vm_compute) ltac:(by vm_compute)) as (_ & H & _).
  exact H.
Defined.

Definition answer : string :=
  "HTTP/1.1 200 OK" +:+ CRLF +:+ "Content-Length: 2" +:+ CRLF +:+ CRLF +:+ "hi".

Lemma an_answer_does_not_depend_on_its_pieces_witness :
  talk "localhost:80" (Ok ()) (map (fun b : Z => Ok (E := string) [b]) (as_bytes answer)) =
  Some (Ok (200%Z, [("content-length", "2")], [104; 105]%Z)).
Proof.
  pose proof (an_answer_does_not_depend_on_its_pieces "localhost:80" (map (fun b => [b]) (as_bytes answer)) []
    (MkHead 200 [("content-length", "2")]) [104; 105]%Z (Some 2%Z)) as H.
  rewrite app_nil_r, map_map in H. apply H.
  - apply Forall_forall. intros c Hc. apply list_elem_of_fmap in Hc as (b & -> & _). done.
  - by vm_compute.
  - by vm_compute.
  - by vm_compute.
  - by vm_compute.
  - split; by vm_compute.
Defined.

Lemma an_answer_is_bounded_witness : (Z.of_nat (length [104; 105]%Z) <= BODY_CAP)%Z.
Proof.
  pose proof (an_answer_is_bounded "localhost:80" (Ok ()) [Ok (as_bytes answer)] 200%Z [("content-length", "2")] [104; 105]%Z) as H.
  refine (proj1 (H _ _)); [|by vm_compute]. constructor; [|done]. intros chunk [= <-]. by vm_compute.
Defined.

(** The target of a URL is written on the request line as it is: one that holds
    line ends writes a second request. *)
Definition smuggling : string :=
  "http://localhost/a HTTP/1.1" +:+ CRLF +:+ "host: localhost" +:+ CRLF +:+ CRLF +:+ "DELETE /b HTTP/1.1" +:+ CRLF +:+ "x: y".

Example a_url_can_smuggle_a_request :
  exists t bytes, parse_url smuggling = Ok t /\ request_head "GET" t [] [] = Ok bytes /\ host t = "localhost" /\
    (forall ends, blank_at bytes = Some ends ->
       split_crlf (text_of (drop (ends + 4) bytes)) =
         ["DELETE /b HTTP/1.1"; "x: y HTTP/1.1"; "host: localhost:80"; "connection: close"; "content-length: 0"; ""; ""]).
Proof.
  destruct (parse_url smuggling) as [t|] eqn:Ht; [|by vm_compute in Ht]. exists t. vm_compute in Ht. injection Ht as <-.
  eexists. split; [done|]. split; [by vm_compute|]. split; [done|]. intros ends He. vm_compute in He. injection He as <-. by vm_compute.
Qed.

(** A header that frames the request and is not among the three passes. *)
Example transfer_encoding_is_passed_on :
  exists bytes, request_head "POST" local [("Transfer-Encoding", "chunked")] [1]%Z = Ok bytes /\
    split_crlf (text_of bytes) = ["POST /v1?q HTTP/1.1"; "host: localhost:80"; "connection: close"; "content-length: 1";
      "transfer-encoding: chunked"; ""; ""].
Proof. eexists. split; by vm_compute. Qed.

(** A URL with a query and no path writes no path. *)
Example a_bare_query_has_no_path :
  exists t, parse_url "http://localhost?q=1" = Ok t /\ target t = "?q=1" /\ path t = "".
Proof. eexists. split; [by vm_compute|done]. Qed.

(** A stream that ends before the declared length is answered as a whole body. *)
Example a_cut_body_is_answered_whole :
  talk "localhost:80" (Ok ())
    [Ok (as_bytes ("HTTP/1.1 200 OK" +:+ CRLF +:+ "content-length: 100" +:+ CRLF +:+ CRLF +:+ "hi")); Ok []] =
  Some (Ok (200%Z, [("content-length", "100")], [104; 105]%Z)).
Proof. by vm_compute. Qed.

(** An interim answer is taken for the final one. *)
Example an_interim_answer_is_final :
  talk "localhost:80" (Ok ())
    [Ok (as_bytes ("HTTP/1.1 100 Continue" +:+ CRLF +:+ CRLF)); Ok (as_bytes answer); Ok []] =
  Some (Ok (100%Z, [], as_bytes answer)).
Proof. by vm_compute. Qed.
End HttpExample.
