(* ===== verification/Outbound.v ===== *)
(** * Outbound calls of the net provider ([jinnd-wasm/src/hostnet/admit.rs],
    [hostnet/request.rs], [hostnet/tls.rs])

    Who a call may reach, the call itself on one connection, its row on the
    record, and the redirect that must cross the same admission. What the
    network and the TLS library answer during a call is an input. *)

From Stdlib Require Import Ascii.
From stdpp Require Import base gmap list strings pretty.
From S2P Require Import Prelude Api Entries Text Paths Grants Broker Disk Spill Wire Handles Http.

(** ** Admission *)

(** One admitted target, as its transport is dialled. *)
Inductive Dial := DialPlain (addr : SocketAddr) | DialTls (host : string) (port : Z).

Definition LOCALHOST : IpAddr := V4 [127; 0; 0; 1]%Z.

Section Admission.
Context `{Callers} {T : Type}.

Abbreviation Core := (ProviderCore T).

Definition no_policy : string := "net caller holds no policy".

Definition outbound_scope (caller : PeerId) (c : Core) : result NetScope KernelError * Core :=
  match policy_of caller c with
  | Some (NetGrant scope) => (Ok scope, c)
  | _ => let '(error, c) := refuse caller NotGranted no_policy c in (Err error, c)
  end.

Definition via (hop : option Z) : string :=
  match hop with None => "" | Some status => "the target answered " +:+ pretty status +:+ " redirecting to " end.

Definition not_listed (hop : option Z) (t : Target) : string :=
  "net request refused: " +:+ via hop +:+ authority t +:+ " is not on the granted outbound allowlist".

Definition not_loopback (hop : option Z) (t : Target) : string :=
  "net request refused: " +:+ via hop +:+ authority t +:+
  " is not a loopback target (plaintext http reaches loopback only; a real host is reached over https, where its certificate proves it)".

(** The loopback address a plaintext host is, if it is one. *)
Definition plain_ip (host : string) : option IpAddr :=
  match parse_ip host with
  | Some ip => if is_loopback ip then Some ip else None
  | None => if decide (host = "localhost") then Some LOCALHOST else None
  end.

(** [HostNet::admit]. *)
Definition admit_target (caller : PeerId) (scope : NetScope) (t : Target) (hop : option Z) (c : Core) :
    result Dial KernelError * Core :=
  if negb (admits_authority scope (authority t)) then
    let '(error, c) := refuse caller ScopeMismatch (not_listed hop t) c in (Err error, c)
  else
    match transport t with
    | Tls => (Ok (DialTls (host t) (target_port t)), c)
    | Plain =>
        match plain_ip (host t) with
        | Some ip => (Ok (DialPlain (MkSocketAddr ip (target_port t))), c)
        | None => let '(error, c) := refuse caller NotLoopback (not_loopback hop t) c in (Err error, c)
        end
    end.

Definition unreadable_hop (status : Z) (location : string) : string :=
  "net request refused: the target answered " +:+ pretty status +:+ " redirecting to " +:+ debug_str location +:+
  ", which this provider cannot read and therefore cannot prove is on the granted outbound allowlist".

(** [HostNet::admit_hop]. *)
Definition admit_hop (caller : PeerId) (scope : NetScope) (status : Z) (headers : list (string * string)) (c : Core) :
    result () KernelError * Core :=
  if negb (bool_decide (300 <= status < 400)%Z) then (Ok (), c)
  else
    match header_value "location" (MkHead status headers) with
    | None => (Ok (), c)
    | Some location =>
        if negb (contains_text "://" location) then (Ok (), c)
        else
          match parse_url location with
          | Ok hop =>
              match admit_target caller scope hop (Some status) c with
              | (Ok _, c) => (Ok (), c)
              | (Err error, c) => (Err error, c)
              end
          | Err _ =>
              let '(error, c) := refuse caller ScopeMismatch (unreadable_hop status location) c in (Err error, c)
          end
    end.

(** ** One call *)

(** What the TLS library answers: the name is none it can verify, there is no
    configuration, the peer is verified, it did not prove who it is, or the
    handshake failed underneath. *)
Inductive Handshake := BadName | NoConfig (error : string) | Verified | Unproven | Interrupted.

(** What the network answers during one call; what is not answered is left to
    the bound. *)
Record Encounter := MkEncounter {
  connects : option (result () string);
  handshake : option Handshake;
  writes : option (result () string);
  reads : Reads;
}.

Definition untrusted (detail : string) : KernelError := refusal Untrusted ("net request: " +:+ detail).

(** [tls::connect]. *)
Definition tls_connect (host authority : string) (h : Handshake) : result () KernelError :=
  match h with
  | BadName => Err (invalid (debug_str host +:+ " is not a server name TLS can verify"))
  | NoConfig error => Err (net_failed ("no tls client configuration: " +:+ error))
  | Verified => Ok ()
  | Unproven =>
      Err (untrusted (authority +:+ " did not prove it is " +:+ authority +:+ ": its certificate failed verification"))
  | Interrupted => Err (net_failed ("tls handshake with " +:+ authority +:+ " failed"))
  end.

Definition connect_failed (authority error : string) : KernelError :=
  net_failed ("connect " +:+ authority +:+ ": " +:+ error).

Context `{Utf8}.

(** [talk] over a stream whose write may not return. *)
Definition talk_on (authority : string) (e : Encounter) : option (result Answered KernelError) :=
  match writes e with None => None | Some written => talk authority written (reads e) end.

(** [exchange]. *)
Definition exchange (dial : Dial) (authority : string) (e : Encounter) : option (result Answered KernelError) :=
  match connects e with
  | None => None
  | Some (Err error) => Some (Err (connect_failed authority error))
  | Some (Ok _) =>
      match dial with
      | DialPlain _ => talk_on authority e
      | DialTls host _ =>
          match handshake e with
          | None => None
          | Some h =>
              match tls_connect host authority h with
              | Err error => Some (Err error)
              | Ok _ => talk_on authority e
              end
          end
      end
  end.

Definition nothing_answered : KernelError := net_failed "the target answered nothing within 3s".

(** [timeout(BOUND, exchange)]. *)
Definition bounded (r : option (result Answered KernelError)) : result Answered KernelError :=
  match r with Some r => r | None => Err nothing_answered end.

Definition answer_sizes (r : result Answered KernelError) : Z * Z :=
  match r with Ok (s, _, body) => (s, Z.of_nat (length body)) | Err _ => (0, 0)%Z end.

Definition requested (effect : Z) (method : string) (t : Target) (sent : Z) (r : result Answered KernelError) (ms : Z) : LedgerEventKind :=
  NetRequested (MkEffectId effect) method (authority t) (path t) (answer_sizes r).1 sent (answer_sizes r).2 ms.

(** The call once it is admitted and its head is built: [outbound] from the
    mint on, with what it dialled and wrote. *)
Definition send (caller : PeerId) (method : string) (scope : NetScope) (t : Target) (dial : Dial) (head body : Bytes)
    (e : Encounter) (ms : Z) (c : Core) : result Answered KernelError * Core :=
  let fiber := attribution_of caller in
  let '(effect, c) := mint_handle c in
  let answered := bounded (exchange dial (authority t) e) in
  let c := record_row (requested effect method t (Z.of_nat (length head + length body)) answered ms) fiber c in
  match answered with
  | Err error => (Err error, c)
  | Ok (s, hs, body) =>
      match admit_hop caller scope s hs c with
      | (Ok _, c) => (Ok (s, hs, body), c)
      | (Err error, c) => (Err error, c)
      end
  end.

(** [HostNet::outbound]; last, the connection dialled and what is written on it. *)
Definition outbound (caller : PeerId) (method url : string) (hs : list (string * string)) (body : Bytes)
    (e : Encounter) (ms : Z) (c : Core) : result Answered KernelError * Core * option (Dial * Bytes) :=
  match parse_url url with
  | Err error => (Err error, c, None)
  | Ok t =>
      match outbound_scope caller c with
      | (Err error, c) => (Err error, c, None)
      | (Ok scope, c) =>
          match admit_target caller scope t None c with
          | (Err error, c) => (Err error, c, None)
          | (Ok dial, c) =>
              match request_head method t hs body with
              | Err error => (Err error, c, None)
              | Ok head => (send caller method scope t dial head body e ms c, Some (dial, head ++ body))
              end
          end
      end
  end.

(** The two operations. *)
Definition request (caller : PeerId) (payload : Bytes) (e : Encounter) (ms : Z) (c : Core) :
    result Bytes KernelError * Core * option (Dial * Bytes) :=
  match decode_body_request payload with
  | Err error => (Err error, c, None)
  | Ok (method, url, body) =>
      let '(answer, c, sent) := outbound caller method url [] body e ms c in
      (match answer with Ok (_, _, body) => Ok body | Err error => Err error end, c, sent)
  end.

Definition send_request (caller : PeerId) (payload : Bytes) (e : Encounter) (ms : Z) (c : Core) :
    result Bytes KernelError * Core * option (Dial * Bytes) :=
  match decode_request payload with
  | Err error => (Err error, c, None)
  | Ok (method, url, hs, body) =>
      let '(answer, c, sent) := outbound caller method url hs body e ms c in
      (match answer with Ok (s, hs, body) => Ok (encode_response s hs body) | Err error => Err error end, c, sent)
  end.
End Admission.

(** ** Nothing leaves that was not admitted *)

(** The scope admits the dial under an authority: some entry of its allowlist
    is this very host and port, and plaintext goes to loopback alone. *)
Inductive admitted_dial (scope : NetScope) : Dial -> string -> Prop :=
  | AdmittedTls entry a h p :
      entry ∈ Grants.outbound scope -> normalize_authority entry = Some (a, h, p) -> admitted_dial scope (DialTls h p) a
  | AdmittedPlain entry a h p ip :
      entry ∈ Grants.outbound scope -> normalize_authority entry = Some (a, h, p) ->
      is_loopback ip = true -> (parse_ip h = Some ip \/ h = "localhost"%string /\ ip = LOCALHOST) ->
      admitted_dial scope (DialPlain (MkSocketAddr ip p)) a.

(** The first [location] of a redirect, where it is spelled with a scheme, names an
    authority the scope admits. Other redirects are outside it. *)
Definition hop_admitted (scope : NetScope) (status : Z) (hs : list (string * string)) : Prop :=
  forall location, (300 <= status < 400)%Z -> header_value "location" (MkHead status hs) = Some location ->
    contains_text "://" location = true ->
    exists hop dial, parse_url location = Ok hop /\ admitted_dial scope dial (authority hop).

Lemma plain_ip_loopback h ip :
  plain_ip h = Some ip -> is_loopback ip = true /\ (parse_ip h = Some ip \/ h = "localhost"%string /\ ip = LOCALHOST).
Proof.
  unfold plain_ip. destruct (parse_ip h) as [ip'|].
  - destruct (is_loopback ip') eqn:Hl; [|done]. intros [= <-]. by split; [|left].
  - case_decide; [|done]. intros [= <-]. by split; [|right].
Qed.

(** The path of a target, which the record carries, has no query. *)
Lemma parse_url_path url t : parse_url url = Ok t -> has_char "?" (path t) = false.
Proof.
  unfold parse_url.
  destruct (if starts_with "https://" (to_lowercase url) then _ else _) as [[tr scheme]|]; [|done].
  destruct (split_any _ _) as [written tail]. destruct (normalize_authority _) as [[[a h] p]|]; [|done].
  intros [= <-]. cbn [path]. destruct (split_once "?" _) as [[before after]|] eqn:Hs.
  - by eapply split_once_before.
  - by apply split_once_None.
Qed.

Section Calls.
Context `{Callers, Utf8} {T : Type}.

Abbreviation Core := (ProviderCore T).

(** One refusal more on the record. *)
Definition refused_once (caller : PeerId) (c c' : Core) : Prop :=
  exists reason text, c' = record_row (GrantRefused (contract c) reason (Some text)) (caller_fiber caller) c.

Lemma outbound_scope_spec caller (c : Core) :
  match outbound_scope caller c with
  | (Ok scope, c') => caller_policy caller (contract c) = Some (NetGrant scope) /\ c' = c
  | (Err _, c') => refused_once caller c c'
  end.
Proof.
  unfold outbound_scope, policy_of. destruct (caller_policy caller (contract c)) as [[]|]; simpl;
    try (by split); by eexists _, _.
Qed.

Lemma admit_target_spec caller scope t hop (c : Core) :
  (exists written, normalize_authority written = Some (authority t, host t, target_port t)) ->
  match admit_target caller scope t hop c with
  | (Ok dial, c') => admitted_dial scope dial (authority t) /\ c' = c
  | (Err _, c') => refused_once caller c c'
  end.
Proof.
  intros [written Hw]. unfold admit_target. destruct (admits_authority scope (authority t)) eqn:Ha; cbn [negb].
  - apply admits_authority_spec in Ha as (entry & h & p & Hin & Hn).
    destruct (normalize_inj _ _ _ _ _ _ _ Hw Hn) as [<- <-]. destruct (transport t).
    + destruct (plain_ip (host t)) as [ip|] eqn:Hip; [|by eexists _, _].
      apply plain_ip_loopback in Hip as [Hl Hip]. split; [|done]. by eapply AdmittedPlain.
    + split; [|done]. by eapply AdmittedTls.
  - by eexists _, _.
Qed.

Lemma admit_hop_spec caller scope s hs (c : Core) :
  match admit_hop caller scope s hs c with
  | (Ok _, c') => hop_admitted scope s hs /\ c' = c
  | (Err _, c') => refused_once caller c c'
  end.
Proof.
  unfold admit_hop. destruct (negb (bool_decide _)) eqn:Hs.
  { split; [|done]. apply negb_true_iff, bool_decide_eq_false in Hs. by intros location ?. }
  destruct (header_value "location" (MkHead s hs)) as [location|] eqn:Hl; [|split; [intros location _; by rewrite Hl|done]].
  destruct (contains_text "://" location) eqn:Hc; cbn [negb].
  2: { split; [|done]. unfold hop_admitted. intros location' _. rewrite Hl. intros [= <-]. by rewrite Hc. }
  destruct (parse_url location) as [hop|] eqn:Hp; [|by eexists _, _].
  pose proof (admit_target_spec caller scope hop (Some s) c (parse_url_authority _ _ Hp)) as Ha.
  destruct (admit_target caller scope hop (Some s) c) as [[dial|error] c'].
  - destruct Ha as [Ha ->]. split; [|done]. intros location' _. rewrite Hl. intros [= <-] _. eauto.
  - done.
Qed.

(** C19: Nothing leaves that was not admitted, and nothing that left is off the
    record. When a call dials, the caller holds a net policy whose allowlist
    has this very host and port, plaintext goes to a loopback address alone,
    what is written is the head and the body, and there is exactly one row for
    it, under an id minted for it, with the path and without the query; the
    row is there whatever the network answered and before the answer is
    refused. Of a redirect that is handed back only this is said: where its first
    [location] header is an absolute one, spelled with a scheme, it names an
    authority the caller could have called; a scheme-relative one and a second
    [location] are not looked at. A call that does not dial is an error with
    at most one refusal on the record, and mints nothing. *)
Theorem nothing_leaves_unadmitted caller method url hs body e ms (c : Core) :
  let '(answer, c', sent) := outbound caller method url hs body e ms c in
  match sent with
  | None => (exists error, answer = Err error) /\ (c' = c \/ refused_once caller c c')
  | Some (dial, bytes) =>
      exists scope t head,
        caller_policy caller (contract c) = Some (NetGrant scope) /\ parse_url url = Ok t /\
        admitted_dial scope dial (authority t) /\
        request_head method t hs body = Ok head /\ bytes = head ++ body /\
        has_char "?" (path t) = false /\ next_handle c' = ((next_handle c + 1) mod 2 ^ 64)%Z /\
        let answered := bounded (exchange dial (authority t) e) in
        let row := (requested (next_handle c + 1)%Z method t (Z.of_nat (length bytes)) answered ms, caller_fiber caller) in
        match answer with
        | Ok (s, rhs, rbody) => answered = Ok (s, rhs, rbody) /\ sink c' = sink c ++ [row] /\ hop_admitted scope s rhs
        | Err error =>
            (answered = Err error /\ sink c' = sink c ++ [row]) \/
            (exists r reason text, answered = Ok r /\
               sink c' = sink c ++ [row; (GrantRefused (contract c) reason (Some text), caller_fiber caller)])
        end
  end.
Proof.
  unfold outbound. destruct (parse_url url) as [t|error] eqn:Hu; [|by split; [eexists|left]].
  pose proof (outbound_scope_spec caller c) as Hs. destruct (outbound_scope caller c) as [[scope|error] c1]; [|by split; [eexists|right]].
  destruct Hs as [Hpolicy ->].
  pose proof (admit_target_spec caller scope t None c (parse_url_authority _ _ Hu)) as Ha.
  destruct (admit_target caller scope t None c) as [[dial|error] c1]; [|by split; [eexists|right]]. destruct Ha as [Ha ->].
  destruct (request_head method t hs body) as [head|error] eqn:Hh; [|by split; [eexists|left]].
  unfold send. cbn [mint_handle]. set (answered := bounded (exchange dial (authority t) e)). set (c1 := record_row _ _ _).
  assert (sink c1 = sink c ++ [(requested (next_handle c + 1)%Z method t (Z.of_nat (length (head ++ body))) answered ms, caller_fiber caller)]) as Hc1.
  { unfold c1, record_row. cbn [sink]. by rewrite length_app. }
  assert (bounded (exchange dial (authority t) e) = answered) as Hr by done. clearbody answered.
  destruct answered as [[[s rhs] rbody]|error].
  - pose proof (admit_hop_spec caller scope s rhs c1) as Hhop.
    destruct (admit_hop caller scope s rhs c1) as [[[]|error] c2].
    + destruct Hhop as [Hhop ->]. exists scope, t, head. do 5 (split; [done|]). split; [by apply (parse_url_path url)|]. split; [done|].
      cbv zeta. rewrite Hr. by split.
    + destruct Hhop as (reason & text & ->). exists scope, t, head. do 5 (split; [done|]). split; [by apply (parse_url_path url)|]. split; [done|].
      cbv zeta. rewrite Hr. right. exists (s, rhs, rbody), reason, text. split; [done|]. unfold record_row at 1. cbn [sink].
      by rewrite Hc1, <-app_assoc.
  - exists scope, t, head. do 5 (split; [done|]). split; [by apply (parse_url_path url)|]. split; [done|].
    cbv zeta. rewrite Hr. by left.
Qed.

End Calls.

(** ** Examples *)

Module OutboundExample.
Import SpillExample HttpExample.
Local Open Scope string_scope.

Definition scope : NetScope := MkNetScope [] ["localhost:80"; "api.example.com:443"].

#[export] Instance one_caller : Callers := {|
  caller_fiber := fun peer => if decide (peer = 1%Z) then Some (MkFiberId 3) else None;
  caller_policy := fun peer contract => if decide (peer = 1%Z) then Some (NetGrant scope) else None;
|}.

Definition core : ProviderCore () := new_core NET_CONTRACT.

Definition answering (text : string) : Encounter :=
  MkEncounter (Some (Ok ())) (Some Verified) (Some (Ok ())) [Ok (as_bytes text); Ok []].

Definition redirecting (location : string) : string :=
  "HTTP/1.1 302 Found" +:+ CRLF +:+ "location: " +:+ location +:+ CRLF +:+ "content-length: 0" +:+ CRLF +:+ CRLF.

(** A plain call to loopback is answered, on the record without its query. *)
Example a_local_call :
  let '(answer, c, sent) := outbound 1%Z "GET" "http://localhost/v1?key=s" [] [] (answering answer) 5%Z core in
  answer = Ok (200%Z, [("content-length", "2")], [104; 105]%Z) /\
  fst <$> sent = Some (DialPlain (MkSocketAddr LOCALHOST 80)) /\
  sink c = [(NetRequested (MkEffectId 1) "GET" "localhost:80" "/v1" 200 84 2 5, Some (MkFiberId 3))].
Proof. by vm_compute. Qed.

(** A redirect to a host that is not granted is refused after the row. *)
Example a_redirect_is_refused :
  let '(answer, c, _) :=
    outbound 1%Z "GET" "https://api.example.com/v1" [] [] (answering (redirecting "https://evil.example/")) 5%Z core in
  (exists error, answer = Err error) /\
  map fst (sink c) = [NetRequested (MkEffectId 1) "GET" "api.example.com:443" "/v1" 302 85 0 5;
    GrantRefused NET_CONTRACT ScopeMismatch (Some ("net request refused: the target answered 302 redirecting to " +:+
      "evil.example:443 is not on the granted outbound allowlist"))].
Proof. split; [by eexists|by vm_compute]. Qed.

(** A plaintext call beyond loopback is refused though its host is granted. *)
Example plaintext_stays_home :
  let '(answer, c, sent) := outbound 1%Z "GET" "http://api.example.com:443/" [] [] (answering answer) 5%Z core in
  (exists error, answer = Err error) /\ sent = None /\ length (sink c) = 1.
Proof. split; [by eexists|by vm_compute]. Qed.

(** A redirect relative to the scheme names another authority and is answered. *)
Example a_scheme_relative_redirect_is_answered :
  let '(answer, c, _) :=
    outbound 1%Z "GET" "https://api.example.com/v1" [] [] (answering (redirecting "//evil.example/")) 5%Z core in
  answer = Ok (302%Z, [("location", "//evil.example/"); ("content-length", "0")], []) /\ length (sink c) = 1.
Proof. by vm_compute. Qed.

(** Only the first location is looked at. *)
Example a_second_location_is_answered :
  let two := "HTTP/1.1 302 Found" +:+ CRLF +:+ "location: /here" +:+ CRLF +:+ "location: https://evil.example/" +:+ CRLF +:+
    "content-length: 0" +:+ CRLF +:+ CRLF in
  let '(answer, c, _) := outbound 1%Z "GET" "https://api.example.com/v1" [] [] (answering two) 5%Z core in
  answer = Ok (302%Z, [("location", "/here"); ("location", "https://evil.example/"); ("content-length", "0")], []) /\
  length (sink c) = 1.
Proof. by vm_compute. Qed.
End OutboundExample.
