(* ===== verification/Net.v ===== *)
(** * Sockets and their wakes ([jinnd-wasm/src/hostnet.rs], [hostnet/socket.rs],
    [ops.rs], [wake.rs], [readiness.rs])

    A table of listeners and connections behind the broker, each with a task
    that announces its readiness: one wake for each time the guest acted, none
    once the socket was released. The tasks, the calls of the guests, the
    releases and the arrivals of the network are interleaved between any two
    critical sections. Minting a socket, its row, its arm state and its task is
    one step: nobody was told the handle before. *)

From Stdlib Require Import Ascii.
From stdpp Require Import base gmap sets list strings pretty relations.
From S2P Require Import Prelude Api Entries Grants Broker Disk Spill Wire Handles Http.

(** ** Sockets *)

Inductive Kind := Listening | Connected.

#[export] Instance Kind_eq_dec : EqDecision Kind.
Proof. solve_decision. Defined.

(** A row: the peer it was minted for, its attribution, what it is. *)
Record Socket := MkSocket { owner : PeerId; socket_fiber : option FiberId; kind : Kind }.

#[export] Instance socket_owned : Owned Socket := owner.

(** The network's side of a socket: what an accept call would find, the
    connection a probe took off the queue, the bytes received, whether the
    peer closed or the connection broke, and the readiness the runtime holds. *)
Record Os := MkOs {
  backlog : list (result () string);
  stashed : bool;
  inbox : Bytes;
  hung_up : bool;
  broken : option string;
  ready : bool;
}.

Definition new_os : Os := MkOs [] false [] false None false.

Definition with_ready (b : bool) (o : Os) : Os := MkOs (backlog o) (stashed o) (inbox o) (hung_up o) (broken o) b.

(** The wake task of a socket: where it is, the permit of its notification,
    whether it was aborted, and the flag of a delivery. *)
Inductive TaskPc :=
  | Unspawned
  | Looking
  | Asleep
  | Watching
  | Claiming
  | Beginning
  | Delivering
  | Reporting (r : option KernelError)
  | Ended.

#[export] Instance TaskPc_eq_dec : EqDecision TaskPc.
Proof. solve_decision. Defined.

Record Waker := MkWaker {
  pc : TaskPc;
  permit : bool;
  aborted : bool;
  delivering : bool;
  holder : PeerId;
  wake_fiber : option FiberId;
}.

Definition at_pc (p : TaskPc) (t : Waker) : Waker := MkWaker p (permit t) (aborted t) (delivering t) (holder t) (wake_fiber t).
(** [notify_one]: one permit, kept until it is taken. *)
Definition notified (b : bool) (t : Waker) : Waker := MkWaker (pc t) b (aborted t) (delivering t) (holder t) (wake_fiber t).
Definition abort (t : Waker) : Waker := MkWaker (pc t) (permit t) true (delivering t) (holder t) (wake_fiber t).
Definition with_delivering (b : bool) (t : Waker) : Waker := MkWaker (pc t) (permit t) (aborted t) b (holder t) (wake_fiber t).

(** ** Calls *)

(** What a call still does after the socket is re-armed. *)
Inductive After :=
  | Answering (answer : Bytes)
  | Holding (listener : Z) (caller : PeerId) (fiber : option FiberId).

(** A call between two critical sections. *)
Inductive Call :=
  | Rearming (caller : PeerId) (h : Z) (next : After)
  | Kicking (caller : PeerId) (h : Z) (next : After)
  | Resuming (caller : PeerId) (next : After)
  | Accepted (caller : PeerId) (listener conn : Z) (fiber : option FiberId)
  | Bound (caller : PeerId) (h port : Z) (fiber : option FiberId)
  | Taking (caller : option PeerId) (h : Z) (fiber : option FiberId)
  | Rousing (caller : option PeerId) (h : Z) (fiber : option FiberId)
  | Aborting (caller : option PeerId) (h : Z) (fiber : option FiberId)
  | Joining (caller : option PeerId) (h : Z) (fiber : option FiberId)
  | Closing (caller : option PeerId) (h : Z) (fiber : option FiberId).

Record World := MkWorld {
  core : ProviderCore Socket;
  armed : gmap Z bool;
  wakers : gmap Z Waker;
  network : gmap Z Os;
  calls : list Call;
  answers : list (PeerId * result Bytes KernelError);
  acted : list Z;
  released : list Z;
}.

Definition new_world : World := MkWorld (new_core NET_CONTRACT) ∅ ∅ ∅ [] [] [] [].

Definition with_core (f : ProviderCore Socket -> ProviderCore Socket) (w : World) : World :=
  MkWorld (f (core w)) (armed w) (wakers w) (network w) (calls w) (answers w) (acted w) (released w).
Definition with_armed (m : gmap Z bool) (w : World) : World :=
  MkWorld (core w) m (wakers w) (network w) (calls w) (answers w) (acted w) (released w).
Definition on_waker (h : Z) (f : Waker -> Waker) (w : World) : World :=
  MkWorld (core w) (armed w) (alter f h (wakers w)) (network w) (calls w) (answers w) (acted w) (released w).
Definition on_os (h : Z) (f : Os -> Os) (w : World) : World :=
  MkWorld (core w) (armed w) (wakers w) (alter f h (network w)) (calls w) (answers w) (acted w) (released w).
Definition with_calls (cs : list Call) (w : World) : World :=
  MkWorld (core w) (armed w) (wakers w) (network w) cs (answers w) (acted w) (released w).
Definition answer (caller : PeerId) (r : result Bytes KernelError) (w : World) : World :=
  MkWorld (core w) (armed w) (wakers w) (network w) (calls w) (answers w ++ [(caller, r)]) (acted w) (released w).
Definition add_socket (h : Z) (s : Socket) (t : Waker) (o : Os) (w : World) : World :=
  MkWorld (core w) (<[h := true]> (armed w)) (<[h := t]> (wakers w)) (<[h := o]> (network w)) (calls w) (answers w) (acted w) (released w).
Definition note_acted (h : Z) (w : World) : World :=
  MkWorld (core w) (armed w) (wakers w) (network w) (calls w) (answers w) (acted w ++ [h]) (released w).
Definition note_released (h : Z) (w : World) : World :=
  MkWorld (core w) (armed w) (wakers w) (network w) (calls w) (answers w) (acted w) (released w ++ [h]).

(** ** The wake table ([wake.rs]) *)

(** [claim_wake]: the append rides the claim. *)
Definition claim_wake (h : Z) (append : World -> World) (w : World) : bool * World :=
  match armed w !! h with
  | Some true => (true, append (with_armed (<[h := false]> (armed w)) w))
  | _ => (false, w)
  end.

(** [WakeTable::rearm]. *)
Definition rearm_row (h : Z) (w : World) : bool * World :=
  match armed w !! h with
  | Some _ => (true, note_acted h (with_armed (<[h := true]> (armed w)) w))
  | None => (false, w)
  end.

(** [take]. *)
Definition take_row (h : Z) (w : World) : World := with_armed (delete h (armed w)) w.

Section Provider.
Context `{Callers, Utf8}.

Definition net_error (what error : string) : KernelError := refusal PluginFailed ("net " +:+ what +:+ ": " +:+ error).

(** ** Holding a socket ([hold]) *)

(** The row, the armed wake and its task, on a runtime when there is one. *)
Definition hold (runtime : bool) (caller : PeerId) (fiber : option FiberId) (k : Kind) (o : Os) (w : World) : Z * World :=
  let '(h, c) := mint_handle (core w) in
  (h, with_core (fun _ => insert_row h (MkSocket caller fiber k) c)
        (add_socket h (MkSocket caller fiber k)
           (MkWaker (if runtime then Looking else Unspawned) false false false caller fiber) o w)).

(** ** Binding ([listen]) *)

Definition bad_address (addr : string) : KernelError :=
  refusal InvalidProfile ("net listen: not an ip:port address: " +:+ debug_str addr).
Definition beyond_loopback (addr : string) : string :=
  "net listen refused: " +:+ debug_str addr +:+ " is not loopback (v0.1 binds loopback only)".
Definition beyond_range (p : Z) : string := "net listen refused: port " +:+ pretty p +:+ " is outside the granted ranges".

(** [authorize_bind]. *)
Definition authorize_bind (caller : PeerId) (addr : string) (c : ProviderCore Socket) :
    result SocketAddr KernelError * ProviderCore Socket :=
  match parse_socket_addr addr with
  | None => (Err (bad_address addr), c)
  | Some parsed =>
      match policy_of caller c with
      | Some (NetGrant scope) =>
          if negb (is_loopback (ip parsed)) then
            let '(error, c) := refuse caller NotLoopback (beyond_loopback addr) c in (Err error, c)
          else if admits_port scope (port parsed) then (Ok parsed, c)
          else let '(error, c) := refuse caller ScopeMismatch (beyond_range (port parsed)) c in (Err error, c)
      | _ => let '(error, c) := refuse caller NotGranted "net caller holds no policy" c in (Err error, c)
      end
  end.

Definition push_call (call : Call) (w : World) : World := with_calls (calls w ++ [call]) w.

(** [listen], up to the row of the ledger; [bound] is what the system answers. *)
Definition begin_listen (runtime : bool) (bound : result () string) (caller : PeerId) (payload : Bytes) (w : World) : World :=
  match from_utf8 payload with
  | None => answer caller (Err (refusal PluginFailed "malformed net listen payload")) w
  | Some addr =>
      match authorize_bind caller addr (core w) with
      | (Err error, c) => answer caller (Err error) (with_core (fun _ => c) w)
      | (Ok parsed, c) =>
          let w := with_core (fun _ => c) w in
          match bound with
          | Err error => answer caller (Err (net_error "listen" error)) w
          | Ok _ =>
              let fiber := attribution_of caller in
              let '(h, w) := hold runtime caller fiber Listening new_os w in
              push_call (Bound caller h (port parsed) fiber) w
          end
      end
  end.

(** ** Operations on a handle ([ops.rs]) *)

Definition READ_CAP : Z := 64 * 1024.

(** [try_accept]: a probe; finding nothing clears the readiness. *)
Definition try_accept (o : Os) : option (result () string) * Os :=
  if ready o then
    match backlog o with
    | found :: rest => (Some found, MkOs rest (stashed o) (inbox o) (hung_up o) (broken o) true)
    | [] => (None, with_ready false o)
    end
  else (None, o).

(** The connection stashed by the last probe, else one accept. *)
Definition accept_one (o : Os) : option (result () string) * Os :=
  if stashed o then (Some (Ok ()), MkOs (backlog o) false (inbox o) (hung_up o) (broken o) (ready o)) else try_accept o.

(** The level probe after an accept. *)
Definition probe_backlog (o : Os) : Os :=
  let '(found, o) := try_accept o in
  match found with
  | Some (Ok _) => MkOs (backlog o) true (inbox o) (hung_up o) (broken o) (ready o)
  | _ => o
  end.

Inductive ReadOutcome := ReadBytes (bytes : Bytes) | ReadEnd | ReadNothing | ReadFailed (error : string).

(** [try_read]: finding nothing clears the readiness. *)
Definition try_read (max : nat) (o : Os) : ReadOutcome * Os :=
  if ready o then
    match broken o with
    | Some error => (ReadFailed error, o)
    | None =>
        match inbox o with
        | [] => if hung_up o then (ReadEnd, o) else (ReadNothing, with_ready false o)
        | bytes => (ReadBytes (take max bytes), MkOs (backlog o) (stashed o) (drop max bytes) (hung_up o) (broken o) true)
        end
    end
  else (ReadNothing, o).

(** The level probe after a read ([probe_pending]). *)
Definition probe_pending (o : Os) : Os :=
  if ready o && bool_decide (inbox o = []) && negb (hung_up o) && bool_decide (broken o = None) then with_ready false o else o.

Definition clamped (n : Z) : nat := Z.to_nat (Z.max 1 (Z.min n READ_CAP)).

Definition accept_failed (error : string) : KernelError := net_error "accept" error.

Definition not_applicable (operation : string) (h : Z) : KernelError :=
  refusal PluginFailed ("net operation " +:+ debug_str operation +:+ " does not apply to handle " +:+ pretty h).

Definition op_accept (caller : PeerId) (h : Z) (s : Socket) (o : Os) (w : World) : World :=
  let '(found, o) := accept_one o in
  match found with
  | None => push_call (Rearming caller h (Answering [TAG_WOULD_BLOCK])) (on_os h (fun _ => o) w)
  | Some (Err error) => answer caller (Err (accept_failed error)) (on_os h (fun _ => o) w)
  | Some (Ok _) =>
      push_call (Rearming caller h (Holding h caller (socket_fiber s))) (on_os h (fun _ => probe_backlog o) w)
  end.

Definition op_read (caller : PeerId) (h : Z) (max : nat) (o : Os) (w : World) : World :=
  let '(outcome, o) := try_read max o in
  match outcome with
  | ReadEnd => answer caller (Ok (encode_read None true)) (on_os h (fun _ => o) w)
  | ReadBytes bytes =>
      push_call (Rearming caller h (Answering (encode_read (Some bytes) false))) (on_os h (fun _ => probe_pending o) w)
  | ReadNothing => push_call (Rearming caller h (Answering (encode_read None false))) (on_os h (fun _ => o) w)
  | ReadFailed error => answer caller (Err (net_error "read" error)) (on_os h (fun _ => o) w)
  end.

(** [withdraw], up to the row it removes; an unknown handle is nothing. *)
Definition begin_withdraw (caller : option PeerId) (h : Z) (w : World) : World :=
  match remove_row h (core w) with
  | (None, _) => match caller with Some caller => answer caller (Ok []) w | None => w end
  | (Some s, c) => push_call (Taking caller h (socket_fiber s)) (with_core (fun _ => c) w)
  end.

(** [handle_op]; [wrote] is what the socket takes of a write. *)
Definition begin_op (wrote : result Z string) (caller : PeerId) (operation : string) (payload : Bytes) (w : World) : World :=
  match read_u64 "net handle" payload with
  | Err error => answer caller (Err error) w
  | Ok (h, rest) =>
      match row_for caller h (core w) with
      | (Err error, c) => answer caller (Err error) (with_core (fun _ => c) w)
      | (Ok s, _) =>
          match network w !! h with
          | None => w
          | Some o =>
              if decide (operation = "accept" /\ kind s = Listening) then op_accept caller h s o w
              else if decide (operation = "read" /\ kind s = Connected) then
                match read_u32 "net handle" rest with
                | Err error => answer caller (Err error) w
                | Ok (max, _) => op_read caller h (clamped max) o w
                end
              else if decide (operation = "write" /\ kind s = Connected) then
                match wrote with
                | Ok n => answer caller (Ok (le_bytes 4 (saturated (Z.to_nat n)))) w
                | Err error => answer caller (Err (net_error "write" error)) w
                end
              else if decide (operation = "close") then begin_withdraw (Some caller) h w
              else answer caller (Err (not_applicable operation h)) w
          end
      end
  end.

(** ** The rest of a call *)

Definition continue (next : After) (runtime : bool) (caller : PeerId) (w : World) : option Call * World :=
  match next with
  | Answering bytes => (None, answer caller (Ok bytes) w)
  | Holding listener caller fiber =>
      let '(conn, w) := hold runtime caller fiber Connected new_os w in
      (Some (Accepted caller listener conn fiber), w)
  end.

Definition answered (caller : option PeerId) (w : World) : World :=
  match caller with Some caller => answer caller (Ok []) w | None => w end.

(** One critical section of a call: what is left of it, and the world. *)
Definition run_call (runtime : bool) (call : Call) (w : World) : option (option Call * World) :=
  match call with
  | Rearming caller h next =>
      let '(live, w) := rearm_row h w in
      Some (Some (if live then Kicking caller h next else Resuming caller next), w)
  | Kicking caller h next => Some (Some (Resuming caller next), on_waker h (notified true) w)
  | Resuming caller next =>
      if decide (next_handle (core w) + 1 < 2 ^ 64)%Z then Some (continue next runtime caller w) else None
  | Accepted caller listener conn fiber =>
      Some (None, answer caller (Ok (TAG_DATA :: le_bytes 8 conn)) (with_core (record_row (NetAccepted listener conn) fiber) w))
  | Bound caller h p fiber =>
      Some (None, answer caller (Ok (encode_handle h)) (with_core (record_row (NetListening h p) fiber) w))
  | Taking caller h fiber => Some (Some (Rousing caller h fiber), take_row h w)
  | Rousing caller h fiber => Some (Some (Aborting caller h fiber), on_waker h (notified true) w)
  | Aborting caller h fiber =>
      t ← wakers w !! h;
      if decide (pc t = Unspawned) then Some (Some (Closing caller h fiber), w)
      else
        let w := on_waker h abort w in
        Some (Some (if delivering t then Closing caller h fiber else Joining caller h fiber), w)
  | Joining caller h fiber =>
      t ← wakers w !! h;
      if decide (pc t = Ended) then Some (Some (Closing caller h fiber), w) else None
  | Closing caller h fiber =>
      Some (None, answered caller (note_released h (with_core (record_row (NetClosed h) fiber) w)))
  end.

(** ** The wake task ([readiness.rs]) *)

(** What the task meets: which arm of the select wins, whether an abort finds it
    waiting (what is ready at once does not wait), whether the holder has a face
    to deliver to, how a delivery ends. *)
Record Chance := MkChance { by_readiness : bool; waiting : bool; faced : bool; delivery : option KernelError }.

(** One step of the task of a socket. *)
Definition run_task (h : Z) (ch : Chance) (w : World) : option World :=
  t ← wakers w !! h;
  match pc t with
  | Unspawned | Ended => None
  | Looking =>
      Some (on_waker h (at_pc match armed w !! h with None => Ended | Some false => Asleep | Some true => Watching end) w)
  | Asleep =>
      if aborted t && waiting ch then Some (on_waker h (at_pc Ended) w)
      else if permit t then Some (on_waker h (fun t => at_pc Looking (notified false t)) w) else None
  | Watching =>
      if aborted t && waiting ch then Some (on_waker h (at_pc Ended) w)
      else if by_readiness ch then
        o ← network w !! h;
        if ready o then Some (on_waker h (at_pc Claiming) w) else None
      else if permit t then Some (on_waker h (fun t => at_pc Looking (notified false t)) w) else None
  | Claiming =>
      if faced ch then
        let '(claimed, w) := claim_wake h (with_core (record_row (NetReadable h) (wake_fiber t))) w in
        Some (on_waker h (at_pc (if claimed then Beginning
                                 else match armed w !! h with Some _ => Looking | None => Ended end)) w)
      else Some (on_waker h (at_pc Looking) (claim_wake h (fun w => w) w).2)
  | Beginning => Some (on_waker h (fun t => at_pc Delivering (with_delivering true t)) w)
  | Delivering =>
      if aborted t && waiting ch then Some (on_waker h (at_pc Ended) w)
      else Some (on_waker h (fun t => at_pc (Reporting (delivery ch)) (with_delivering false t)) w)
  | Reporting r =>
      let w := match r with
               | Some error =>
                   if bool_decide (is_Some (armed w !! h)) && bool_decide (Api.fiber error = None)
                   then with_core (record_row (ErrorRecorded error) (wake_fiber t)) w else w
               | None => w
               end in
      Some (on_waker h (at_pc Looking) w)
  end.

(** ** Steps *)

Inductive NetMove :=
  | ListenCall (runtime : bool) (bound : result () string) (caller : PeerId) (payload : Bytes)
  | OpCall (wrote : result Z string) (caller : PeerId) (operation : string) (payload : Bytes)
  | WithdrawCall (h : Z)
  | CallTurn (runtime : bool) (i : nat)
  | TaskTurn (h : Z) (ch : Chance)
  | Arrives (h : Z) (found : result () string)
  | Receives (h : Z) (bytes : Bytes)
  | HangsUp (h : Z)
  | Breaks (h : Z) (error : string).

(** An event of the network makes the socket ready. *)
Definition net_move (m : NetMove) (w : World) : option World :=
  match m with
  | ListenCall runtime bound caller payload =>
      if decide (next_handle (core w) + 1 < 2 ^ 64)%Z then Some (begin_listen runtime bound caller payload w) else None
  | OpCall wrote caller operation payload => Some (begin_op wrote caller operation payload w)
  | WithdrawCall h => Some (begin_withdraw None h w)
  | CallTurn runtime i =>
      call ← calls w !! i;
      done ← run_call runtime call w;
      Some (with_calls (match done.1 with Some call => <[i := call]> (calls done.2) | None => delete i (calls done.2) end) done.2)
  | TaskTurn h ch => run_task h ch w
  | Arrives h found => Some (on_os h (fun o => MkOs (backlog o ++ [found]) (stashed o) (inbox o) (hung_up o) (broken o) true) w)
  | Receives h bytes => Some (on_os h (fun o => MkOs (backlog o) (stashed o) (inbox o ++ bytes) (hung_up o) (broken o) true) w)
  | HangsUp h => Some (on_os h (fun o => MkOs (backlog o) (stashed o) (inbox o) true (broken o) true) w)
  | Breaks h error => Some (on_os h (fun o => MkOs (backlog o) (stashed o) (inbox o) (hung_up o) (Some error) true) w)
  end.

Definition net_step (w w' : World) : Prop := exists m, net_move m w = Some w'.
Definition net_running : World -> Prop := reachable (fun w => w = new_world) net_step.
End Provider.

(** ** Counting *)

Fixpoint tally {A} (p : A -> bool) (l : list A) : nat :=
  match l with [] => 0 | x :: l => Nat.b2n (p x) + tally p l end.

Section Tallies.
Context {A : Type} (p : A -> bool).

Lemma tally_app l k : tally p (l ++ k) = tally p l + tally p k.
Proof. induction l as [|x l IH]; simpl; [done|]. rewrite IH. lia. Qed.

Lemma tally_insert i x y l : l !! i = Some x -> tally p (<[i := y]> l) + Nat.b2n (p x) = tally p l + Nat.b2n (p y).
Proof.
  revert i. induction l as [|z l IH]; intros [|i]; simpl; try done; [intros [= ->]; lia|]. intros Hi. specialize (IH i Hi). lia.
Qed.

Lemma tally_delete i x l : l !! i = Some x -> tally p (delete i l) + Nat.b2n (p x) = tally p l.
Proof.
  revert i. induction l as [|z l IH]; intros [|i]; simpl; try done; [intros [= ->]; lia|].
  intros Hi. specialize (IH i Hi). change (delete (S i) (z :: l)) with (z :: delete i l). simpl. lia.
Qed.
End Tallies.

(** The rows that announce a handle, and those that close it. *)
Definition announces (h : Z) (r : LedgerEventKind * option FiberId) : bool :=
  match r.1 with NetReadable h' => bool_decide (h' = h) | _ => false end.
Definition closes (h : Z) (r : LedgerEventKind * option FiberId) : bool :=
  match r.1 with NetClosed h' => bool_decide (h' = h) | _ => false end.

(** The calls about to kick its task, those that release it, and those of them
    past the wake table. *)
Definition kicks (h : Z) (c : Call) : bool :=
  match c with Kicking _ h' _ => bool_decide (h' = h) | _ => false end.
Definition past_take (h : Z) (c : Call) : bool :=
  match c with
  | Rousing _ h' _ | Aborting _ h' _ | Joining _ h' _ | Closing _ h' _ => bool_decide (h' = h)
  | _ => false
  end.
Definition releases (h : Z) (c : Call) : bool :=
  match c with Taking _ h' _ => bool_decide (h' = h) | _ => past_take h c end.

(** ** One socket at a time *)

(** What the world holds of one handle. *)
Record View := MkView {
  v_armed : option bool;
  v_waker : option Waker;
  v_os : bool;
  v_held : bool;
  v_minted : bool;
  v_wakes : nat;
  v_acts : nat;
  v_kicks : nat;
  v_releases : nat;
  v_past : nat;
  v_closes : nat;
}.

Definition view (w : World) (h : Z) : View :=
  MkView (armed w !! h) (wakers w !! h) (bool_decide (is_Some (network w !! h)))
    (bool_decide (is_Some (table (core w) !! h))) (bool_decide (1 <= h <= next_handle (core w))%Z)
    (tally (announces h) (sink (core w))) (tally (fun h' => bool_decide (h' = h)) (acted w))
    (tally (kicks h) (calls w)) (tally (releases h) (calls w)) (tally (past_take h) (calls w))
    (tally (closes h) (sink (core w))).

Record minted_ok (v : View) (t : Waker) : Prop := {
  on_network : v_os v = true;
  one_wake_an_act : v_wakes v + Nat.b2n (bool_decide (v_armed v = Some true)) <= S (v_acts v);
  live_task : v_armed v <> None -> pc t <> Ended /\ aborted t = false;
  never_lost : v_armed v = Some true -> pc t = Asleep -> permit t = true \/ 0 < v_kicks v;
  held_is_live : v_held v = true -> v_armed v <> None;
  past_is_dead : 0 < v_past v + v_closes v -> v_armed v = None;
  past_releases : v_past v <= v_releases v;
  one_release : v_releases v + v_closes v + Nat.b2n (v_held v) = 1;
}.

Record unminted_ok (v : View) : Prop := {
  nothing_armed : v_armed v = None;
  no_task : v_waker v = None;
  no_network : v_os v = false;
  not_held : v_held v = false;
  no_rows : v_wakes v = 0 /\ v_acts v = 0 /\ v_closes v = 0;
  no_calls : v_kicks v = 0 /\ v_releases v = 0 /\ v_past v = 0;
}.

Definition view_ok (v : View) : Prop :=
  if v_minted v then exists t, v_waker v = Some t /\ minted_ok v t else unminted_ok v.

(** What a step may do to a handle: it stays in order, it stays minted, and once
    taken from the wake table it is silent for good. *)
Definition goes (v v' : View) : Prop :=
  view_ok v -> view_ok v' /\ (v_minted v = true -> v_minted v' = true /\
    (v_armed v = None -> v_armed v' = None /\ v_wakes v' = v_wakes v)).

Lemma goes_refl v : goes v v.
Proof. by intros Hv. Qed.

Lemma goes_same v v' : v = v' -> goes v v'.
Proof. intros ->. apply goes_refl. Qed.

Lemma goes_trans v1 v2 v3 : goes v1 v2 -> goes v2 v3 -> goes v1 v3.
Proof.
  intros H1 H2 Hv. destruct (H1 Hv) as [Hv2 K1]. destruct (H2 Hv2) as [Hv3 K2]. split; [done|]. intros Hm.
  destruct (K1 Hm) as [Hm2 A1]. destruct (K2 Hm2) as [Hm3 A2]. split; [done|]. intros Ha.
  destruct (A1 Ha) as [Ha2 E1]. destruct (A2 Ha2) as [Ha3 E2]. split; [done|congruence].
Qed.

(** The world's counters stay in range. *)
Definition counted (w : World) : Prop := (0 <= next_handle (core w) < 2 ^ 64)%Z.

Definition goes_all (w w' : World) : Prop := (counted w -> counted w') /\ forall h, counted w -> goes (view w h) (view w' h).

Lemma goes_all_refl w : goes_all w w.
Proof. split; [done|]. intros h _. apply goes_refl. Qed.

Lemma goes_all_trans w1 w2 w3 : goes_all w1 w2 -> goes_all w2 w3 -> goes_all w1 w3.
Proof. intros [C1 H1] [C2 H2]. split; [auto|]. intros h Hc. eapply goes_trans; eauto. Qed.

(** Steps that no handle's view notices. *)
Lemma unnoticed w w' :
  next_handle (core w') = next_handle (core w) -> (forall h, view w' h = view w h) -> goes_all w w'.
Proof. intros Hn Hv. split; [unfold counted; by rewrite Hn|]. intros h _. by apply goes_same. Qed.

(** *** Steps nothing of a handle shows *)

Section Views.
Context `{Callers, Utf8}.

Lemma view_rows w k f h :
  announces h (k, f) = false -> closes h (k, f) = false -> view (with_core (record_row k f) w) h = view w h.
Proof. intros Ha Hc. unfold view, with_core, record_row. cbn. rewrite !tally_app. cbn. rewrite Ha, Hc. cbn. by rewrite !Nat.add_0_r. Qed.

Lemma view_os w h0 f h : view (on_os h0 f w) h = view w h.
Proof.
  unfold view, on_os. cbn. f_equal. apply bool_decide_ext. destruct (decide (h = h0)) as [->|Hne].
  - rewrite lookup_alter_eq, fmap_is_Some. done.
  - by rewrite lookup_alter_ne.
Qed.

Lemma unnoticed_answer caller r w : goes_all w (answer caller r w).
Proof. by apply unnoticed. Qed.

Lemma unnoticed_os h0 f w : goes_all w (on_os h0 f w).
Proof. apply unnoticed; [done|]. intros h. apply view_os. Qed.

Lemma unnoticed_rows k f w :
  (forall h, announces h (k, f) = false) -> (forall h, closes h (k, f) = false) -> goes_all w (with_core (record_row k f) w).
Proof. intros Ha Hc. apply unnoticed; [done|]. intros h. by apply view_rows. Qed.

Lemma unnoticed_refusal caller reason text w :
  goes_all w (with_core (fun _ => (refuse caller reason text (core w)).2) w).
Proof. apply (unnoticed_rows (GrantRefused (contract (core w)) reason (Some text)) (attribution_of caller)); done. Qed.

Lemma unnoticed_push c w :
  (forall h, kicks h c = false) -> (forall h, releases h c = false) -> goes_all w (push_call c w).
Proof.
  intros Hk Hr. apply unnoticed; [done|]. intros h. unfold view, push_call, with_calls. cbn. rewrite !tally_app. cbn.
  assert (past_take h c = false) as Hp.
  { specialize (Hr h). unfold releases in Hr. destruct c; done. }
  by rewrite Hk, Hr, Hp, !Nat.add_0_r.
Qed.

(** *** Holding a socket *)

Lemma hold_goes runtime caller fiber k o w :
  (next_handle (core w) + 1 < 2 ^ 64)%Z -> goes_all w (hold runtime caller fiber k o w).2.
Proof.
  intros Hroom. unfold hold. cbn [mint_handle snd]. set (n := (next_handle (core w) + 1)%Z).
  assert (counted w -> (n mod 2 ^ 64 = n)%Z /\ (1 <= n)%Z) as Hn by (unfold counted; intros; subst n; rewrite Z.mod_small; lia).
  split.
  - unfold counted at 2. cbn. intros Hc. rewrite (proj1 (Hn Hc)). unfold counted in Hc. subst n. lia.
  - intros h Hc. destruct (Hn Hc) as [Hmod Hpos]. unfold view. cbn. rewrite Hmod.
    destruct (decide (h = n)) as [->|Hne].
    + rewrite !lookup_insert_eq. intros Hv. unfold view_ok in Hv. cbn in Hv.
      rewrite (bool_decide_eq_false_2 (1 <= n <= next_handle (core w))%Z) in Hv by (subst n; lia).
      destruct Hv as [_ _ _ _ (Hr & Hact & Hcl) (Hk & Hrel & Hp)]. cbn in *. split; [|by rewrite bool_decide_eq_false_2 by (subst n; lia)].
      unfold view_ok. cbn. rewrite bool_decide_eq_true_2 by lia. eexists. split; [done|].
      split; cbn; rewrite ?Hr, ?Hact, ?Hcl, ?Hk, ?Hrel, ?Hp; try done; try lia.
      * intros _. by destruct runtime.
      * by destruct runtime.
    + rewrite !lookup_insert_ne by done. assert (bool_decide (1 <= h <= n)%Z = bool_decide (1 <= h <= next_handle (core w))%Z) as ->.
      { apply bool_decide_ext. subst n. lia. }
      apply goes_refl.
Qed.

(** *** Calls *)

(** The tallies of a handle when a call takes its next form, or ends. *)
Definition next_calls (i : nat) (c : option Call) (cs : list Call) : list Call :=
  match c with Some c => <[i := c]> cs | None => delete i cs end.

Lemma next_tally (p : Call -> bool) i c c' cs :
  cs !! i = Some c ->
  tally p (next_calls i c' cs) + Nat.b2n (p c) = tally p cs + Nat.b2n (match c' with Some c' => p c' | None => false end).
Proof.
  intros Hi. destruct c' as [c'|]; simpl; [by apply tally_insert|]. rewrite (tally_delete p i c) by done. lia.
Qed.

Lemma tally_pos (p : Call -> bool) i c cs : cs !! i = Some c -> p c = true -> 0 < tally p cs.
Proof. intros Hi Hp. pose proof (tally_delete p i c cs Hi) as E. rewrite Hp in E. cbn in E. lia. Qed.

(** A call that changes form and touches no handle. *)
Lemma call_quiet i c c' w :
  calls w !! i = Some c ->
  (forall h, kicks h c = match c' with Some c' => kicks h c' | None => false end) ->
  (forall h, releases h c = match c' with Some c' => releases h c' | None => false end) ->
  (forall h, past_take h c = match c' with Some c' => past_take h c' | None => false end) ->
  goes_all w (with_calls (next_calls i c' (calls w)) w).
Proof.
  intros Hi Hk Hr Hp. apply unnoticed; [done|]. intros h. unfold view, with_calls. cbn.
  pose proof (next_tally (kicks h) i c c' _ Hi) as E1. rewrite (Hk h) in E1.
  pose proof (next_tally (releases h) i c c' _ Hi) as E2. rewrite (Hr h) in E2.
  pose proof (next_tally (past_take h) i c c' _ Hi) as E3. rewrite (Hp h) in E3.
  f_equal; lia.
Qed.

(** The view of one handle after a call moved on and the world changed at
    another handle. *)
Definition with_tallies (k r p : nat) (v : View) : View :=
  MkView (v_armed v) (v_waker v) (v_os v) (v_held v) (v_minted v) (v_wakes v) (v_acts v) k r p (v_closes v).

Lemma view_with_calls cs w h :
  view (with_calls cs w) h = with_tallies (tally (kicks h) cs) (tally (releases h) cs) (tally (past_take h) cs) (view w h).
Proof. done. Qed.

Ltac tallies_at i w h c :=
  let c' := lazymatch goal with |- context [next_calls i ?c' _] => c' end in
  let E1 := fresh "Ek" in let E2 := fresh "Er" in let E3 := fresh "Ep" in
  match goal with Hi : calls w !! i = Some c |- _ =>
    pose proof (next_tally (kicks h) i c c' _ Hi) as E1;
    pose proof (next_tally (releases h) i c c' _ Hi) as E2;
    pose proof (next_tally (past_take h) i c c' _ Hi) as E3
  end; cbn in E1, E2, E3.

(** The release of a row: the row leaves the table and a call takes it from
    there. *)
Lemma withdraw_goes caller h w : goes_all w (begin_withdraw caller h w).
Proof.
  unfold begin_withdraw, remove_row. destruct (table (core w) !! h) as [s|] eqn:Hs.
  - split; [done|]. intros h' Hc. unfold view, push_call, with_calls, with_core. cbn. rewrite !tally_app. cbn.
    destruct (decide (h' = h)) as [->|Hne].
    + rewrite lookup_delete_eq, (bool_decide_eq_true_2 (h = h)) by done. cbn. rewrite !Nat.add_0_r. intros Hv. unfold view_ok in *. cbn in *.
      rewrite Hs in Hv. destruct (bool_decide (1 <= h <= _)%Z); [|by destruct Hv].
      split; [|done]. destruct Hv as (t & Ht & [H1 H2 H3 H4 H5 H6 H7 H8]). exists t. split; [done|]. cbn in *.
      split; cbn in *; try done; lia.
    + rewrite lookup_delete_ne by done. rewrite (bool_decide_eq_false_2 (h = h')) by done. cbn. rewrite !Nat.add_0_r. apply goes_refl.
  - destruct caller; [apply unnoticed_answer|apply goes_all_refl].
Qed.

(** The calls that only change form, and those that end. *)
Lemma call_ends i c w w' :
  calls w !! i = Some c -> calls w' = calls w -> goes_all w w' ->
  (forall h, kicks h c = false) -> (forall h, releases h c = false) ->
  goes_all w (with_calls (next_calls i None (calls w')) w').
Proof.
  intros Hi Hcs Hg Hk Hr. eapply goes_all_trans; [exact Hg|]. apply (call_quiet i c); [by rewrite Hcs|..]; intros h.
  - apply Hk.
  - apply Hr.
  - specialize (Hr h). unfold releases in Hr. by destruct c.
Qed.

Lemma rearming_goes i caller h next w :
  calls w !! i = Some (Rearming caller h next) ->
  let '(live, w') := rearm_row h w in
  goes_all w (with_calls (next_calls i (Some (if live then Kicking caller h next else Resuming caller next)) (calls w')) w').
Proof.
  intros Hi. unfold rearm_row. destruct (armed w !! h) as [b|] eqn:Ha.
  2: { by apply (call_quiet i (Rearming caller h next)). }
  split; [done|]. intros h' Hc. unfold view, with_calls, note_acted, with_armed. cbn [core armed wakers network calls acted sink].
  tallies_at i w h' (Rearming caller h next). rewrite tally_app. cbn [tally].
  destruct (decide (h' = h)) as [->|Hne].
  - rewrite lookup_insert_eq. rewrite (bool_decide_eq_true_2 (h = h)) in * by done. cbn in *.
    intros Hv. unfold view_ok in *. cbn in *. rewrite Ha in Hv.
    destruct (bool_decide (1 <= h <= _)%Z); [|by destruct Hv].
    split; [|by rewrite Ha]. destruct Hv as (t & Ht & [H1 H2 H3 H4 H5 H6 H7 H8]). exists t. split; [done|]. cbn in *.
    split; cbn in *; try done; try lia.
    + rewrite (bool_decide_eq_true_2 (Some true = Some true)) by done. cbn. lia.
    + intros _. by apply H3.
    + intros Hpos. specialize (H6 ltac:(lia)). congruence.
  - rewrite lookup_insert_ne by done. rewrite (bool_decide_eq_false_2 (h = h')) in * by done. cbn in *.
    apply goes_same. unfold view. f_equal; lia.
Qed.

(** A change to the task of a socket that leaves where it is. *)
Lemma view_on_waker w h0 f h :
  view (on_waker h0 f w) h =
  (let v := view w h in
   MkView (v_armed v) (if decide (h = h0) then f <$> v_waker v else v_waker v) (v_os v) (v_held v) (v_minted v)
     (v_wakes v) (v_acts v) (v_kicks v) (v_releases v) (v_past v) (v_closes v)).
Proof.
  unfold view, on_waker. cbn. destruct (decide (h = h0)) as [->|Hne]; [by rewrite lookup_alter_eq|by rewrite lookup_alter_ne].
Qed.

Ltac elsewhere :=
  apply goes_same; unfold view; f_equal; rewrite ?lookup_insert_ne, ?lookup_delete_ne, ?lookup_alter_ne by done; (done || lia).

Ltac target Hv :=
  intros Hv; unfold view_ok in Hv |- *; cbn in Hv |- *;
  match type of Hv with context [bool_decide (?a <= ?h <= ?b)%Z] =>
    destruct (bool_decide (a <= h <= b)%Z); [|exfalso; destruct Hv as [? ? ? ? ? (? & ? & ?)]; cbn in *; lia] end.

Lemma kicking_goes i caller h next w :
  calls w !! i = Some (Kicking caller h next) ->
  goes_all w (with_calls (next_calls i (Some (Resuming caller next)) (calls w)) (on_waker h (notified true) w)).
Proof.
  intros Hi. split; [done|]. intros h' Hc. rewrite view_with_calls, view_on_waker. unfold with_tallies. cbn.
  pose proof (tally_pos (kicks h') i _ _ Hi) as Hpos. cbn in Hpos.
  pose proof (next_tally (kicks h') i _ (Some (Resuming caller next)) _ Hi) as Ek.
  pose proof (next_tally (releases h') i _ (Some (Resuming caller next)) _ Hi) as Er.
  pose proof (next_tally (past_take h') i _ (Some (Resuming caller next)) _ Hi) as Ep. cbn in Ek, Er, Ep.
  destruct (decide (h' = h)) as [->|Hne].
  - rewrite (bool_decide_eq_true_2 (h = h)) in * by done. specialize (Hpos eq_refl). cbn in *. target Hv.
    destruct Hv as (t & Ht & [H1 H2 H3 H4 H5 H6 H7 H8]). cbn in *. split; [|done].
    exists (notified true t). split; [by rewrite Ht|].
    split; cbn in *; try done; try lia. intros; apply H6; lia.
  - rewrite (bool_decide_eq_false_2 (h = h')) in * by done. cbn in *. apply goes_same. unfold view. f_equal; lia.
Qed.

(** A release is before the wake table or past it. *)
Definition takes (h : Z) (c : Call) : bool := match c with Taking _ h' _ => bool_decide (h' = h) | _ => false end.

Lemma releases_split h cs : tally (releases h) cs = tally (takes h) cs + tally (past_take h) cs.
Proof. induction cs as [|c cs IH]; [done|]. cbn. rewrite IH. destruct c; cbn; lia. Qed.

Lemma taking_goes i caller h fiber w :
  calls w !! i = Some (Taking caller h fiber) ->
  goes_all w (with_calls (next_calls i (Some (Rousing caller h fiber)) (calls w)) (take_row h w)).
Proof.
  intros Hi. split; [done|]. intros h' Hc. rewrite view_with_calls. unfold with_tallies, view, take_row, with_armed. cbn.
  pose proof (tally_pos (releases h') i _ _ Hi) as Hpos. cbn in Hpos.
  pose proof (next_tally (kicks h') i _ (Some (Rousing caller h fiber)) _ Hi) as Ek.
  pose proof (next_tally (releases h') i _ (Some (Rousing caller h fiber)) _ Hi) as Er.
  pose proof (next_tally (past_take h') i _ (Some (Rousing caller h fiber)) _ Hi) as Ep. cbn in Ek, Er, Ep.
  destruct (decide (h' = h)) as [->|Hne].
  - rewrite lookup_delete_eq. rewrite (bool_decide_eq_true_2 (h = h)) in * by done. specialize (Hpos eq_refl). cbn in *. target Hv.
    destruct Hv as (t & Ht & [H1 H2 H3 H4 H5 H6 H7 H8]). cbn in *. split; [|done].
    pose proof (tally_pos (takes h) i _ _ Hi) as Htake. cbn in Htake.
    rewrite (bool_decide_eq_true_2 (h = h)) in Htake by done. specialize (Htake eq_refl).
    pose proof (releases_split h (calls w)) as Hsplit.
    exists t. split; [done|]. split; cbn in *; try done; try lia.
    + rewrite (bool_decide_eq_false_2 (None = Some true)) by done. cbn. lia.
    + destruct (bool_decide (is_Some (table (core w) !! h))); cbn in *; [lia|done].
  - rewrite lookup_delete_ne by done. rewrite (bool_decide_eq_false_2 (h = h')) in * by done. cbn in *.
    apply goes_same. unfold view. f_equal; lia.
Qed.

(** Past the wake table: the task is roused or aborted. *)
Lemma past_goes i c c' h f w :
  calls w !! i = Some c -> (forall h', kicks h' c = kicks h' c') -> (forall h', releases h' c = releases h' c') ->
  (forall h', past_take h' c = past_take h' c') -> past_take h c = true ->
  goes_all w (with_calls (next_calls i (Some c') (calls w)) (on_waker h f w)).
Proof.
  intros Hi Hk Hr Hp Hpast. eapply goes_all_trans; [|apply (call_quiet i c (Some c') (on_waker h f w) Hi Hk Hr Hp)].
  split; [done|]. intros h' Hc. rewrite view_on_waker. destruct (decide (h' = h)) as [->|Hne]; [|by apply goes_same].
  pose proof (tally_pos (past_take h) i _ _ Hi Hpast) as Hpos.
  assert (0 < tally (releases h) (calls w)) as Hpos2.
  { apply (tally_pos _ i _ _ Hi). unfold releases. by destruct c. }
  cbn in *. target Hv. destruct Hv as (t & Ht & [H1 H2 H3 H4 H5 H6 H7 H8]). cbn in *. split; [|done].
  specialize (H6 ltac:(lia)). exists (f t). split; [by rewrite Ht|]. split; cbn in *; try done; rewrite ?H6 in *; try done.
Qed.

Lemma closing_goes i caller h fiber w :
  calls w !! i = Some (Closing caller h fiber) ->
  let w' := answered caller (note_released h (with_core (record_row (NetClosed h) fiber) w)) in
  goes_all w (with_calls (next_calls i None (calls w')) w').
Proof.
  intros Hi w'. assert (calls w' = calls w) as Hcs by (subst w'; by destruct caller). rewrite Hcs.
  assert (forall h', view w' h' = view (with_core (record_row (NetClosed h) fiber) w) h') as Hview
    by (intros h'; subst w'; by destruct caller).
  split; [subst w'; by destruct caller|]. intros h' Hc. rewrite view_with_calls, Hview. unfold with_tallies, view. cbn.
  rewrite !tally_app. cbn. rewrite !Nat.add_0_r.
  pose proof (tally_pos (past_take h') i _ _ Hi) as Hpos. cbn in Hpos.
  pose proof (next_tally (kicks h') i _ None _ Hi) as Ek. pose proof (next_tally (releases h') i _ None _ Hi) as Er.
  pose proof (next_tally (past_take h') i _ None _ Hi) as Ep. cbn in Ek, Er, Ep.
  pose proof (tally_pos (releases h') i _ _ Hi) as Hpos2. cbn in Hpos2.
  destruct (decide (h' = h)) as [->|Hne].
  - rewrite (bool_decide_eq_true_2 (h = h)) in * by done. specialize (Hpos eq_refl). specialize (Hpos2 eq_refl). cbn in *. target Hv.
    destruct Hv as (t & Ht & [H1 H2 H3 H4 H5 H6 H7 H8]). cbn in *. split; [|done].
    specialize (H6 ltac:(lia)). exists t. split; [done|]. split; cbn in *; try done; try lia; rewrite ?H6 in *; done.
  - rewrite (bool_decide_eq_false_2 (h = h')) in * by done. cbn in *. rewrite Nat.add_0_r.
    apply goes_same. unfold view. f_equal; lia.
Qed.

Lemma resuming_goes i runtime caller next w :
  calls w !! i = Some (Resuming caller next) -> (next_handle (core w) + 1 < 2 ^ 64)%Z ->
  let r := continue next runtime caller w in
  goes_all w (with_calls (next_calls i r.1 (calls r.2)) r.2).
Proof.
  intros Hi Hroom. destruct next as [bytes|listener caller' fiber]; unfold continue.
  - cbn [fst snd]. apply (call_ends i (Resuming caller (Answering bytes)) w (answer caller (Ok bytes) w)); try done.
  - pose proof (hold_goes runtime caller' fiber Connected new_os w Hroom) as Hg.
    assert (calls (hold runtime caller' fiber Connected new_os w).2 = calls w) as Hcs by done.
    destruct (hold runtime caller' fiber Connected new_os w) as [conn w1]. cbn [fst snd] in *.
    eapply goes_all_trans; [exact Hg|].
    apply (call_quiet i (Resuming caller (Holding listener caller' fiber)) (Some (Accepted caller' listener conn fiber)) w1);
      [by rewrite Hcs|done|done|done].
Qed.

Lemma run_call_goes runtime i c w done :
  calls w !! i = Some c -> run_call runtime c w = Some done ->
  goes_all w (with_calls (next_calls i done.1 (calls done.2)) done.2).
Proof.
  intros Hi. destruct c as [caller h next|caller h next|caller next|caller listener conn fiber|caller h p fiber|
    caller h fiber|caller h fiber|caller h fiber|caller h fiber|caller h fiber]; cbn [run_call].
  - pose proof (rearming_goes i caller h next w Hi) as Hg. destruct (rearm_row h w) as [live w']. by intros [= <-].
  - intros [= <-]. exact (kicking_goes i caller h next w Hi).
  - destruct (decide _) as [Hroom|]; [|done]. intros [= <-]. exact (resuming_goes i runtime caller next w Hi Hroom).
  - intros [= <-]. cbn [fst snd]. eapply call_ends; [exact Hi|done| |done|done].
    eapply goes_all_trans; [|apply unnoticed_answer]. by apply unnoticed_rows.
  - intros [= <-]. cbn [fst snd]. eapply call_ends; [exact Hi|done| |done|done].
    eapply goes_all_trans; [|apply unnoticed_answer]. by apply unnoticed_rows.
  - intros [= <-]. exact (taking_goes i caller h fiber w Hi).
  - intros [= <-].
    apply (past_goes i (Rousing caller h fiber) (Aborting caller h fiber) h (notified true) w); try done. cbn. by apply bool_decide_eq_true.
  - destruct (wakers w !! h) as [t|] eqn:Ht; [|done]. cbn. case_decide; intros [= <-]; cbn [fst snd].
    + by apply (call_quiet i (Aborting caller h fiber) (Some (Closing caller h fiber))).
    + apply (past_goes i (Aborting caller h fiber) (if delivering t then Closing caller h fiber else Joining caller h fiber) h abort w);
        try done; [by destruct (delivering t)..|]. cbn. by apply bool_decide_eq_true.
  - destruct (wakers w !! h) as [t|]; [|done]. cbn. case_decide; [|done]. intros [= <-]. cbn [fst snd].
    by apply (call_quiet i (Joining caller h fiber) (Some (Closing caller h fiber))).
  - intros [= <-]. exact (closing_goes i caller h fiber w Hi).
Qed.

(** *** The task of a socket *)

(** A step that moves a task on, and does nothing else to the handle. *)
Lemma task_moves h f w t :
  wakers w !! h = Some t ->
  (armed w !! h <> None -> pc t <> Ended /\ aborted t = false -> pc (f t) <> Ended /\ aborted (f t) = false) ->
  (armed w !! h = Some true -> pc (f t) = Asleep -> permit (f t) = true) ->
  goes_all w (on_waker h f w).
Proof.
  intros Ht Hlive Hsleep. split; [done|]. intros h' Hc. rewrite view_on_waker.
  destruct (decide (h' = h)) as [->|Hne]; [|by apply goes_same]. cbn. rewrite Ht.
  intros Hv. unfold view_ok in *. cbn in *. destruct (bool_decide (1 <= h <= _)%Z).
  2: { destruct Hv as [_ Hno _ _ _ _]. cbn in Hno. congruence. }
  destruct Hv as (t' & Ht' & [H1 H2 H3 H4 H5 H6 H7 H8]). cbn in *. rewrite Ht in Ht'. injection Ht' as <-. split; [|done].
  exists (f t). split; [done|]. split; cbn in *; try done; auto.
Qed.

(** A claim, whether it is on the record or not. *)
Lemma claim_goes h faced fiber p w t :
  wakers w !! h = Some t -> armed w !! h = Some true -> p <> Ended -> p <> Asleep -> aborted t = false ->
  let append := if faced : bool then with_core (record_row (NetReadable h) fiber) else fun w => w in
  goes_all w (on_waker h (at_pc p) (append (with_armed (<[h := false]> (armed w)) w))).
Proof.
  intros Ht Ha Hp1 Hp2 Hab append. split; [by destruct faced|]. intros h' Hc. rewrite view_on_waker.
  assert (view (append (with_armed (<[h := false]> (armed w)) w)) h' =
    let v := view w h' in
    MkView (<[h := false]> (armed w) !! h') (v_waker v) (v_os v) (v_held v) (v_minted v)
      (v_wakes v + Nat.b2n (faced && bool_decide (h = h'))) (v_acts v) (v_kicks v) (v_releases v) (v_past v) (v_closes v)) as ->.
  { subst append. destruct faced; unfold view; cbn; rewrite ?tally_app; cbn; by rewrite ?Nat.add_0_r. }
  cbn. destruct (decide (h' = h)) as [->|Hne].
  - rewrite lookup_insert_eq, Ht. rewrite (bool_decide_eq_true_2 (h = h)) by done. rewrite andb_true_r.
    intros Hv. unfold view_ok in *. cbn in *. destruct (bool_decide (1 <= h <= _)%Z).
    2: { destruct Hv as [_ Hno _ _ _ _]. cbn in Hno. congruence. }
    destruct Hv as (t' & Ht' & [H1 H2 H3 H4 H5 H6 H7 H8]). cbn in *. rewrite Ht in Ht'. injection Ht' as <-.
    split; [|by rewrite Ha]. exists (at_pc p t). split; [done|]. split; cbn in *; try done; auto.
    + rewrite Ha in H2. rewrite bool_decide_eq_true_2 in H2 by done. rewrite bool_decide_eq_false_2 by done.
      destruct faced; cbn in *; lia.
    + intros Hpos. specialize (H6 Hpos). congruence.
  - rewrite lookup_insert_ne by done. rewrite (bool_decide_eq_false_2 (h = h')) by done. rewrite andb_false_r. cbn.
    apply goes_same. unfold view. by rewrite Nat.add_0_r.
Qed.

Lemma claim_wake_cases h append w :
  claim_wake h append w =
  if decide (armed w !! h = Some true) then (true, append (with_armed (<[h := false]> (armed w)) w)) else (false, w).
Proof. unfold claim_wake. destruct (armed w !! h) as [[]|]; by case_decide. Qed.

(** The task of a live row was not aborted. *)
Lemma live_tasks h w t :
  view_ok (view w h) -> wakers w !! h = Some t -> armed w !! h <> None -> pc t <> Ended /\ aborted t = false.
Proof.
  unfold view_ok. destruct (v_minted (view w h)).
  - intros (t' & Ht' & Hok) Ht Ha. cbn in Ht'. rewrite Ht in Ht'. injection Ht' as <-. by apply (live_task _ _ Hok).
  - intros [_ Hno _ _ _ _] Ht. cbn in Hno. congruence.
Qed.

Ltac moved t := apply task_moves with t; [done|cbn; intuition congruence..].

Lemma run_task_goes h ch w w' : view_ok (view w h) -> run_task h ch w = Some w' -> goes_all w w'.
Proof.
  intros Hv. unfold run_task. destruct (wakers w !! h) as [t|] eqn:Ht; [|done]. cbn [mbind option_bind].
  pose proof (live_tasks h w t Hv Ht) as Hlive. destruct (pc t) as [| | | | | | |r|] eqn:Hpc; try done.
  - intros [= <-]. apply task_moves with t; [done|..]; destruct (armed w !! h) as [[]|]; cbn; naive_solver.
  - destruct (aborted t && waiting ch) eqn:Hab; [apply andb_prop in Hab as [Hab _]|clear Hab; destruct (permit t); [|done]]; intros [= <-]; moved t.
  - destruct (aborted t && waiting ch) eqn:Hab; [intros [= <-]; apply andb_prop in Hab as [Hab _]; moved t|]. clear Hab. destruct (by_readiness ch).
    + destruct (network w !! h) as [o|]; [|done]. cbn. destruct (ready o); [|done]. intros [= <-]. moved t.
    + destruct (permit t); [|done]. intros [= <-]. moved t.
  - destruct (faced ch); rewrite claim_wake_cases; case_decide as Ha; cbn [snd]; intros [= <-].
    + apply (claim_goes h true (wake_fiber t) Beginning w t); try done. apply Hlive. by rewrite Ha.
    + apply task_moves with t; [done|..]; destruct (armed w !! h) as [[]|]; cbn; naive_solver.
    + apply (claim_goes h false (wake_fiber t) Looking w t); try done. apply Hlive. by rewrite Ha.
    + moved t.
  - intros [= <-]. moved t.
  - destruct (aborted t && waiting ch) eqn:Hab; [apply andb_prop in Hab as [Hab _]|clear Hab]; intros [= <-]; moved t.
  - intros [= <-]. set (w1 := match r with Some _ => _ | None => w end).
    assert (goes_all w w1 /\ wakers w1 = wakers w /\ armed w1 = armed w) as (Hg & Hw & Harm).
    { subst w1. destruct r as [error|]; [|split; [apply goes_all_refl|done]].
      destruct (_ && _); [split; [by apply unnoticed_rows|done]|split; [apply goes_all_refl|done]]. }
    eapply goes_all_trans; [exact Hg|]. apply task_moves with t; rewrite ?Hw, ?Harm; [done|cbn; intuition congruence..].
Qed.

(** *** The calls of the guests *)

Lemma authorize_goes caller addr w :
  goes_all w (with_core (fun _ => (authorize_bind caller addr (core w)).2) w).
Proof.
  unfold authorize_bind. destruct (parse_socket_addr addr) as [parsed|]; [|by apply unnoticed].
  destruct (policy_of caller (core w)) as [[]|]; try apply unnoticed_refusal.
  destruct (negb _); [apply unnoticed_refusal|]. destruct (admits_port _ _); [by apply unnoticed|apply unnoticed_refusal].
Qed.

Lemma authorize_counts caller addr c : next_handle (authorize_bind caller addr c).2 = next_handle c.
Proof. unfold authorize_bind, refuse. repeat case_match; simplify_eq/=; done. Qed.

Lemma listen_goes runtime bound caller payload w :
  (next_handle (core w) + 1 < 2 ^ 64)%Z -> goes_all w (begin_listen runtime bound caller payload w).
Proof.
  intros Hroom. unfold begin_listen. destruct (from_utf8 payload) as [addr|]; [|apply unnoticed_answer].
  pose proof (authorize_goes caller addr w) as Hg. pose proof (authorize_counts caller addr (core w)) as Hn.
  destruct (authorize_bind caller addr (core w)) as [[parsed|error] c]; cbn [snd] in *.
  2: { eapply goes_all_trans; [exact Hg|apply unnoticed_answer]. }
  eapply goes_all_trans; [exact Hg|]. destruct bound; [|apply unnoticed_answer].
  pose proof (hold_goes runtime caller (attribution_of caller) Listening new_os (with_core (fun _ => c) w)) as Hh.
  destruct (hold _ _ _ _ _ _) as [h w1]. eapply goes_all_trans; [apply Hh; cbn; lia|]. by apply unnoticed_push.
Qed.

Lemma pushed_after_os h f c w :
  (forall h, kicks h c = false) -> (forall h, releases h c = false) -> goes_all w (push_call c (on_os h f w)).
Proof. intros Hk Hr. eapply goes_all_trans; [apply unnoticed_os|]. by apply unnoticed_push. Qed.

Lemma answered_after_os h f caller r w : goes_all w (answer caller r (on_os h f w)).
Proof. eapply goes_all_trans; [apply unnoticed_os|]. apply unnoticed_answer. Qed.

#[local] Hint Resolve unnoticed_answer unnoticed_os pushed_after_os answered_after_os withdraw_goes goes_all_refl : moves.

Lemma op_goes wrote caller operation payload w : goes_all w (begin_op wrote caller operation payload w).
Proof.
  unfold begin_op. destruct (read_u64 _ payload) as [[h rest]|]; [|auto with moves].
  unfold row_for. destruct (table (core w) !! h) as [s|]; [case_decide|].
  3: { eapply goes_all_trans; [|apply unnoticed_answer]. by apply unnoticed. }
  2: { unfold refuse. cbn. eapply goes_all_trans; [|apply unnoticed_answer]. by apply unnoticed_refusal. }
  destruct (network w !! h) as [o|]; [|auto with moves]. repeat case_decide; [..|auto with moves].
  - unfold op_accept. destruct (accept_one o) as [[[]|] o']; auto with moves.
  - destruct (read_u32 _ rest) as [[max rest']|]; [|auto with moves].
    unfold op_read. destruct (try_read _ o) as [[] o']; auto with moves.
  - destruct wrote; auto with moves.
  - auto with moves.
Qed.

Definition net_inv (w : World) : Prop := counted w /\ forall h, view_ok (view w h).

Lemma move_goes m w w' : net_inv w -> net_move m w = Some w' -> goes_all w w'.
Proof.
  intros [_ Hv]. destruct m; cbn [net_move].
  - case_decide; [|done]. intros [= <-]. by apply listen_goes.
  - intros [= <-]. apply op_goes.
  - intros [= <-]. apply withdraw_goes.
  - destruct (calls w !! i) as [c|] eqn:Hi; [|done]. cbn [mbind option_bind].
    destruct (run_call runtime c w) as [done'|] eqn:Hrun; [|done]. cbn. intros [= <-]. exact (run_call_goes runtime i c w done' Hi Hrun).
  - by apply run_task_goes.
  - intros [= <-]. apply unnoticed_os.
  - intros [= <-]. apply unnoticed_os.
  - intros [= <-]. apply unnoticed_os.
  - intros [= <-]. apply unnoticed_os.
Qed.

Lemma inv_goes w w' : net_inv w -> goes_all w w' -> net_inv w'.
Proof. intros [Hc Hv] [Hcs Hg]. split; [auto|]. intros h. by apply (Hg h Hc). Qed.

Lemma new_world_inv : net_inv new_world.
Proof.
  split; [done|]. intros h. unfold view_ok, view. cbn. rewrite bool_decide_eq_false_2 by lia.
  split; cbn; rewrite ?lookup_empty; done.
Qed.

Lemma net_running_inv w : net_running w -> net_inv w.
Proof.
  apply reachable_invariant; [intros ? ->; apply new_world_inv|]. intros w1 w2 Hi [m Hm]. eapply inv_goes; [exact Hi|]. by apply (move_goes m).
Qed.

Lemma later_inv w w' : net_inv w -> rtc net_step w w' -> net_inv w' /\ goes_all w w'.
Proof.
  intros Hi Hr. induction Hr as [w|w1 w2 w3 [m Hm] _ IH]; [split; [done|apply goes_all_refl]|].
  pose proof (move_goes m w1 w2 Hi Hm) as Hg. destruct (IH (inv_goes _ _ Hi Hg)) as [H3 Hg3]. split; [done|]. by eapply goes_all_trans.
Qed.

(** ** What holds of every socket *)

Lemma a_kick_is_coming h cs : 0 < tally (kicks h) cs -> exists i caller next, cs !! i = Some (Kicking caller h next).
Proof.
  induction cs as [|c cs IH]; cbn; [lia|]. destruct (kicks h c) eqn:Hk.
  - intros _. destruct c; try done. cbn in Hk. apply bool_decide_eq_true in Hk as ->. by eexists 0, _, _.
  - cbn. intros Hpos. destruct (IH Hpos) as (i & caller & next & Hi). by exists (S i), caller, next.
Qed.

(** The rows that announce a handle, the acts on it, its closings. *)
Definition wakes_of (h : Z) (w : World) : nat := tally (announces h) (sink (core w)).
Definition acts_of (h : Z) (w : World) : nat := tally (fun h' => bool_decide (h' = h)) (acted w).
Definition closings_of (h : Z) (w : World) : nat := tally (closes h) (sink (core w)).
Definition releases_of (h : Z) (w : World) : nat := tally (releases h) (calls w).

Lemma minted_view h w :
  net_running w -> (1 <= h <= next_handle (core w))%Z -> exists t, wakers w !! h = Some t /\ minted_ok (view w h) t.
Proof.
  intros Hr Hh. destruct (net_running_inv w Hr) as [_ Hv]. specialize (Hv h). unfold view_ok in Hv. cbn in Hv.
  by rewrite bool_decide_eq_true_2 in Hv by done.
Qed.

(** C20: every socket the provider ever minted, in every interleaving of the
    guests' calls, the releases, the wake tasks and the network: it is announced
    at most once for its arrival and once for each act of its guest; while the
    guest has acted since the last announcement its task cannot sleep without a
    permit or a kick that is on its way, and the task of a live socket has
    neither ended nor been aborted; it is either held, or being released by one
    call, or closed on the record, once; and when it has left the wake table no
    later state announces it again. *)
Theorem a_socket_wakes_once_an_act h w :
  net_running w -> (1 <= h <= next_handle (core w))%Z ->
  wakes_of h w <= S (acts_of h w) /\
  (exists t, wakers w !! h = Some t /\ (armed w !! h <> None -> pc t <> Ended /\ aborted t = false) /\
    (armed w !! h = Some true -> pc t = Asleep ->
     permit t = true \/ exists i caller next, calls w !! i = Some (Kicking caller h next))) /\
  releases_of h w + closings_of h w + Nat.b2n (bool_decide (is_Some (table (core w) !! h))) = 1 /\
  (armed w !! h = None -> forall w', rtc net_step w w' -> armed w' !! h = None /\ wakes_of h w' = wakes_of h w).
Proof.
  intros Hr Hh. destruct (minted_view h w Hr Hh) as (t & Ht & Hok). split_and!.
  - pose proof (one_wake_an_act _ _ Hok) as E. cbn in E. unfold wakes_of, acts_of. lia.
  - exists t. split_and!; [done|apply (live_task _ _ Hok)|]. intros Ha Hp.
    destruct (never_lost _ _ Hok Ha Hp) as [?|Hk]; [by left|]. right. by apply a_kick_is_coming.
  - apply (one_release _ _ Hok).
  - intros Ha w' Hlater. pose proof (net_running_inv w Hr) as Hi. destruct (later_inv w w' Hi Hlater) as [_ [_ Hg]].
    destruct Hi as [Hc Hv]. destruct (Hg h Hc (Hv h)) as [_ Hsilent]. cbn in Hsilent.
    rewrite bool_decide_eq_true_2 in Hsilent by done. by apply Hsilent.
Qed.

(** *** A readable socket can be announced *)

(** The task of an armed, readable socket, at a place of its loop. *)
Definition poised (h : Z) (p : TaskPc) (w : World) : Prop :=
  exists t o, wakers w !! h = Some t /\ pc t = p /\ aborted t = false /\ armed w !! h = Some true /\
    network w !! h = Some o /\ ready o = true.

Definition eager : Chance := MkChance true false true None.

Lemma poised_goes h p p' f w w1 :
  poised h p w -> (forall t, pc (f t) = p' /\ aborted (f t) = aborted t) ->
  run_task h eager w = Some (on_waker h f w1) ->
  armed w1 = armed w -> wakers w1 = wakers w -> network w1 = network w -> wakes_of h w1 = wakes_of h w ->
  exists w', rtc net_step w w' /\ poised h p' w' /\ wakes_of h w' = wakes_of h w.
Proof.
  intros (t & o & Ht & _ & Hab & Ha & Ho & Hready) Hf Hrun E1 E2 E3 E4. exists (on_waker h f w1). split_and!.
  - apply rtc_once. by exists (TaskTurn h eager).
  - exists (f t), o. cbn. rewrite lookup_alter_eq, E1, E2, E3, Ht. destruct (Hf t) as [-> ->]. done.
  - exact E4.
Qed.

(** One turn of the task, read off the place it is at. *)
Ltac turn := match goal with
  | Hp : poised ?h ?p ?w |- exists w', _ /\ poised ?h ?p' w' /\ _ =>
      let t := fresh "t" in let o := fresh "o" in
      let Ht := fresh in let Hpc := fresh in let Hab := fresh in let Ha := fresh in let Ho := fresh in let Hready := fresh in
      pose proof Hp as (t & o & Ht & Hpc & Hab & Ha & Ho & Hready);
      eapply (poised_goes h p p' _ w w Hp);
      [|unfold run_task; rewrite Ht; cbn; rewrite Hpc; cbn; rewrite ?Hab, ?Ha, ?Ho; cbn; rewrite ?Hready; reflexivity|done..];
      done
  end.

Lemma looking_goes h w : poised h Looking w -> exists w', rtc net_step w w' /\ poised h Watching w' /\ wakes_of h w' = wakes_of h w.
Proof. intros Hp. turn. Qed.
Lemma watching_goes h w : poised h Watching w -> exists w', rtc net_step w w' /\ poised h Claiming w' /\ wakes_of h w' = wakes_of h w.
Proof. intros Hp. turn. Qed.
Lemma beginning_goes h w : poised h Beginning w -> exists w', rtc net_step w w' /\ poised h Delivering w' /\ wakes_of h w' = wakes_of h w.
Proof. intros Hp. turn. Qed.
Lemma delivering_goes h w :
  poised h Delivering w -> exists w', rtc net_step w w' /\ poised h (Reporting None) w' /\ wakes_of h w' = wakes_of h w.
Proof. intros Hp. turn. Qed.

Lemma reporting_goes h r w :
  poised h (Reporting r) w -> exists w', rtc net_step w w' /\ poised h Looking w' /\ wakes_of h w' = wakes_of h w.
Proof.
  intros Hp. pose proof Hp as (t & o & Ht & Hpc & Hab & Ha & Ho & Hready).
  eapply (poised_goes h _ Looking (at_pc Looking) w _ Hp); [done|unfold run_task; rewrite Ht; cbn; rewrite Hpc; reflexivity|..];
    destruct r as [error|]; try done; destruct (_ && _); try done.
  unfold wakes_of. cbn. rewrite tally_app. cbn. lia.
Qed.

(** A task asleep on an armed row is woken by its permit, or by the kick. *)
Lemma asleep_goes h w :
  net_running w -> poised h Asleep w -> exists w', rtc net_step w w' /\ poised h Looking w' /\ wakes_of h w' = wakes_of h w.
Proof.
  intros Hr (t & o & Ht & Hpc & Hab & Ha & Ho & Hready). pose proof (net_running_inv w Hr) as [_ Hv]. specialize (Hv h).
  assert (forall w, poised h Asleep w -> (exists t, wakers w !! h = Some t /\ permit t = true) ->
    exists w', rtc net_step w w' /\ poised h Looking w' /\ wakes_of h w' = wakes_of h w) as Hwoken.
  { clear. intros w Hp (t & Ht & Hperm). pose proof Hp as (t' & o & Ht' & Hpc & Hab & _). rewrite Ht in Ht'. injection Ht' as <-.
    apply (poised_goes h _ Looking (fun t => at_pc Looking (notified false t)) w w Hp); try done.
    unfold run_task. rewrite Ht. cbn. by rewrite Hpc, Hab, Hperm. }
  unfold view_ok in Hv. destruct (v_minted (view w h)); [|destruct Hv as [Hno _ _ _ _ _]; cbn in Hno; congruence].
  destruct Hv as (t' & Ht' & Hok). cbn in Ht'. rewrite Ht in Ht'. injection Ht' as <-.
  destruct (never_lost _ _ Hok Ha Hpc) as [Hperm|Hkick].
  - apply Hwoken; [by exists t, o|by exists t].
  - destruct (a_kick_is_coming h (calls w) Hkick) as (i & caller & next & Hi).
    set (w1 := with_calls (<[i := Resuming caller next]> (calls w)) (on_waker h (notified true) w)).
    assert (poised h Asleep w1) as Hp1 by (exists (notified true t), o; cbn; by rewrite lookup_alter_eq, Ht).
    destruct (Hwoken w1 Hp1) as (w' & Hrun & Hp' & E).
    { exists (notified true t). cbn. by rewrite lookup_alter_eq, Ht. }
    exists w'. split_and!; [|done|exact E]. eapply rtc_l; [|exact Hrun]. exists (CallTurn true i). cbn. by rewrite Hi.
Qed.

Lemma claiming_announces h w : poised h Claiming w -> exists w', rtc net_step w w' /\ wakes_of h w' = S (wakes_of h w).
Proof.
  intros (t & o & Ht & Hpc & Hab & Ha & Ho & Hready). eexists. split.
  - apply rtc_once. exists (TaskTurn h eager). cbn. unfold run_task. rewrite Ht. cbn. rewrite Hpc. unfold claim_wake. rewrite Ha.
    reflexivity.
  - unfold wakes_of. cbn. rewrite tally_app. cbn. rewrite bool_decide_eq_true_2 by done. cbn. lia.
Qed.

(** No wake is lost: in every state the provider can reach, a live socket
    that is readable, that its guest acted on since the last announcement and
    that has a task can still be announced, whatever place its task is at, by
    turns of that task and at most one turn of a call, to a holder that has a
    face. *)
Theorem a_readable_socket_is_announced h w t o :
  net_running w -> armed w !! h = Some true -> wakers w !! h = Some t -> pc t <> Unspawned -> network w !! h = Some o ->
  ready o = true -> exists w', rtc net_step w w' /\ wakes_of h w' = S (wakes_of h w).
Proof.
  intros Hr Ha Ht Hspawned Ho Hready. pose proof (net_running_inv w Hr) as [_ Hv].
  destruct (live_tasks h w t (Hv h) Ht) as [Hended Hab]; [by rewrite Ha|].
  assert (poised h (pc t) w) as Hp by (by exists t, o).
  assert (forall p1 p2 w1, (exists w', rtc net_step w1 w' /\ poised h p1 w' /\ wakes_of h w' = wakes_of h w1) ->
    (forall w2, poised h p1 w2 -> exists w', rtc net_step w2 w' /\ p2 w' (wakes_of h w2)) ->
    exists w', rtc net_step w1 w' /\ p2 w' (wakes_of h w1)) as Hthen.
  { intros p1 p2 w1 (w2 & H12 & Hp2 & E) Hnext. destruct (Hnext w2 Hp2) as (w3 & H23 & H3). exists w3. rewrite E in H3.
    split; [by transitivity w2|done]. }
  set (done_ := fun w' n => wakes_of h w' = S n).
  assert (forall w, poised h Watching w -> exists w', rtc net_step w w' /\ done_ w' (wakes_of h w)) as Hwatch.
  { intros w1 H1. apply (Hthen Claiming done_); [by apply watching_goes|]. apply claiming_announces. }
  assert (forall w, poised h Looking w -> exists w', rtc net_step w w' /\ done_ w' (wakes_of h w)) as Hlook.
  { intros w1 H1. apply (Hthen Watching done_); [by apply looking_goes|done]. }
  assert (forall r w, poised h (Reporting r) w -> exists w', rtc net_step w w' /\ done_ w' (wakes_of h w)) as Hreport.
  { intros r w1 H1. apply (Hthen Looking done_); [by apply (reporting_goes h r)|done]. }
  assert (forall w, poised h Delivering w -> exists w', rtc net_step w w' /\ done_ w' (wakes_of h w)) as Hdeliver.
  { intros w1 H1. apply (Hthen (Reporting None) done_); [by apply delivering_goes|apply Hreport]. }
  destruct (pc t) eqn:Hpc; try done.
  - by apply Hlook.
  - apply (Hthen Looking done_); [by apply asleep_goes|done].
  - by apply Hwatch.
  - by apply claiming_announces.
  - apply (Hthen Delivering done_); [by apply beginning_goes|done].
  - by apply Hdeliver.
  - by apply (Hreport r).
Qed.
End Views.

(** ** Examples *)

Module NetExample.
Import SpillExample HttpExample.
Local Open Scope string_scope.

#[export] Instance one_caller : Callers := {|
  caller_fiber := fun peer => if decide (peer = 1%Z) then Some (MkFiberId 3) else None;
  caller_policy := fun peer contract => if decide (peer = 1%Z) then Some (NetGrant (MkNetScope [(8000, 8100)%Z] [])) else None;
|}.

Fixpoint net_run (ms : list NetMove) (w : World) : option World :=
  match ms with
  | [] => Some w
  | m :: ms => w' ← net_move m w; net_run ms w'
  end.

Lemma net_run_rtc ms w w' : net_run ms w = Some w' -> rtc net_step w w'.
Proof.
  revert w. induction ms as [|m ms IH]; intros w; cbn; [by intros [= ->]|].
  destruct (net_move m w) as [w1|] eqn:Hm; [|done]. intros Hrun. eapply rtc_l; [by exists m|by apply IH].
Qed.

Definition reads_first (b : bool) : Chance := MkChance b true true None.

(** A listener on port 8080; its task looks. *)
Definition listening : list NetMove :=
  [ListenCall true (Ok ()) 1%Z (as_bytes "127.0.0.1:8080"); CallTurn true 0; TaskTurn 1 (reads_first true)].

(** One wake, delivered. *)
Definition waking : list NetMove :=
  [TaskTurn 1 (reads_first true); TaskTurn 1 (reads_first true); TaskTurn 1 (reads_first true);
   TaskTurn 1 (reads_first true); TaskTurn 1 (reads_first true); TaskTurn 1 (reads_first true)].

Definition accept_it : NetMove := OpCall (Ok 0%Z) 1%Z "accept" (le_bytes 8 1).

(** A connection arrives, the guest accepts it, another arrives and is
    announced again. *)
Definition serving : list NetMove :=
  listening ++ [Arrives 1 (Ok ())] ++ waking ++
  [accept_it; CallTurn true 0; CallTurn true 0; CallTurn true 0; CallTurn true 0; TaskTurn 1 (reads_first true);
   TaskTurn 1 (reads_first true); Arrives 1 (Ok ())] ++ waking.

Example a_server_is_woken_for_each_connection :
  (fun w => (map fst (sink (core w)), answers w)) <$> net_run serving new_world =
  Some ([NetListening 1 8080; NetReadable 1; NetAccepted 1 2; NetReadable 1],
        [(1%Z, Ok (encode_handle 1)); (1%Z, Ok (TAG_DATA :: le_bytes 8 2))]).
Proof. by vm_compute. Qed.

(** A close while the task waits: the task is gone, nothing announces it. *)
Example a_closed_socket_is_silent :
  (fun w => (map fst (sink (core w)), pc <$> wakers w !! 1%Z, answers w)) <$>
  net_run (listening ++ [OpCall (Ok 0%Z) 1%Z "close" (le_bytes 8 1); CallTurn true 0; CallTurn true 0; CallTurn true 0;
    Arrives 1 (Ok ()); TaskTurn 1 (reads_first true); CallTurn true 0; CallTurn true 0]) new_world =
  Some ([NetListening 1 8080; NetClosed 1], Some Ended, [(1%Z, Ok (encode_handle 1)); (1%Z, Ok [])]).
Proof. by vm_compute. Qed.

(** A bind beyond loopback, or outside the granted ports. *)
Example a_bind_is_refused :
  (fun w => map (fun r => match r.1 with GrantRefused _ reason _ => Some reason | _ => None end) (sink (core w))) <$>
  net_run [ListenCall true (Ok ()) 1%Z (as_bytes "0.0.0.0:8080"); ListenCall true (Ok ()) 1%Z (as_bytes "127.0.0.1:80")] new_world =
  Some [Some NotLoopback; Some ScopeMismatch].
Proof. by vm_compute. Qed.

(** An accept the system fails is answered before the re-arm: connections that
    arrive afterwards are not announced until the guest polls. *)
Definition failing : list NetMove :=
  listening ++ [Arrives 1 (Err "Too many open files")] ++ waking ++
  [accept_it; Arrives 1 (Ok ())].

Example a_failed_accept_goes_deaf :
  (fun w => (armed w !! 1%Z, pc <$> wakers w !! 1%Z, permit <$> wakers w !! 1%Z, ready <$> network w !! 1%Z, calls w)) <$>
    net_run failing new_world =
  Some (Some false, Some Asleep, Some false, Some true, []) /\
  (w ← net_run failing new_world; net_move (TaskTurn 1 (reads_first true)) w) = None.
Proof. split; by vm_compute. Qed.

Definition served : World := default new_world (net_run serving new_world).

Lemma served_runs : net_running served.
Proof.
  exists new_world. split; [done|]. apply (net_run_rtc serving). unfold served.
  destruct (net_run serving new_world) as [w|] eqn:E; [done|]. by vm_compute in E.
Qed.

Lemma a_socket_wakes_once_an_act_witness : wakes_of 1 served = 2 /\ acts_of 1 served = 1 /\ wakes_of 1 served <= S (acts_of 1 served).
Proof.
  split; [by vm_compute|]. split; [by vm_compute|].
  refine (proj1 (a_socket_wakes_once_an_act 1 served served_runs _)). by vm_compute.
Defined.

Definition ready_to_wake : list NetMove := listening ++ [Arrives 1 (Ok ())].

Definition arrived : World := default new_world (net_run ready_to_wake new_world).

Lemma a_readable_socket_is_announced_witness : exists w', rtc net_step arrived w' /\ wakes_of 1 w' = 1.
Proof.
  assert (net_running arrived) as Hr.
  { exists new_world. split; [done|]. apply (net_run_rtc ready_to_wake). unfold arrived.
    destruct (net_run ready_to_wake new_world) as [w|] eqn:E; [done|]. by vm_compute in E. }
  destruct (wakers arrived !! 1%Z) as [t|] eqn:Ht; [|by vm_compute in Ht].
  destruct (network arrived !! 1%Z) as [o|] eqn:Ho; [|by vm_compute in Ho].
  refine (a_readable_socket_is_announced 1 arrived t o Hr _ Ht _ Ho _); [by vm_compute|..].
  - vm_compute in Ht. by injection Ht as <-.
  - vm_compute in Ho. by injection Ho as <-.
Defined.
End NetExample.
