(* ===== verification/GuestWire.v ===== *)
(** * What a guest and a provider write and read of each other

    The guest-facing imports of the process and net contracts
    ([hostcaps/procnet/process.rs], [hostcaps/procnet/net.rs]): the payload each
    call crosses the broker with, and how its answer is read. The providers'
    half is in [Process] and [Net]; the formats both share are those of [Wire].
    The theorem ties the two halves of every crossing. *)

From stdpp Require Import base gmap sets list strings.
From S2P Require Import Prelude Api Entries Paths Grants Waits Broker Disk Spill Wire Handles Streams Process.

(** ** What a guest asks of a handle *)

Inductive ChildStream := Stdout | Stderr.

Definition stream_index (which : ChildStream) : Z := match which with Stdout => 0 | Stderr => 1 end.

Definition signal_byte (s : Signal) : Z := match s with Interrupt => 0 | Terminate => 1 | Kill => 2 end.

(** The operation a call names and its payload. *)
Definition guest_write_stdin (handle : Z) (bytes : Bytes) : string * Bytes := ("write-stdin"%string, handle_payload handle bytes).
Definition guest_close_stdin (handle : Z) : string * Bytes := ("close-stdin"%string, handle_payload handle []).
Definition guest_read_child (handle : Z) (which : ChildStream) (max : Z) : string * Bytes :=
  ("read"%string, handle_payload handle ([stream_index which] ++ le_bytes 4 max)).
Definition guest_wait (handle timeout_ms : Z) : string * Bytes := ("wait"%string, handle_payload handle (le_bytes 8 timeout_ms)).
Definition guest_kill (handle : Z) (s : Signal) : string * Bytes := ("kill"%string, handle_payload handle [signal_byte s]).

Definition guest_accept (listener : Z) : string * Bytes := ("accept"%string, handle_payload listener []).
Definition guest_read_socket (connection max : Z) : string * Bytes := ("read"%string, handle_payload connection (le_bytes 4 max)).
Definition guest_write_socket (connection : Z) (bytes : Bytes) : string * Bytes := ("write"%string, handle_payload connection bytes).
Definition guest_close_socket (handle : Z) : string * Bytes := ("close"%string, handle_payload handle []).

(** ** What a guest makes of an answer *)

Inductive RunResult := RunOutput (data : Bytes) | OutputTruncated | RunFailed (text : string).
Inductive ReadResult := ReadData (data : Bytes) | ReadEof | ReadWouldBlock.
Inductive WaitResult := WaitExited (code : Z) | WaitRunning.
Inductive AcceptResult := AcceptConnection (handle : Z) | AcceptWouldBlock.

Section Answers.
Context `{Utf8}.
Local Open Scope result_scope.

Definition run_result (answer : Bytes) : result RunResult KernelError :=
  let? read := read_answer answer in
  Ok (if decide (read.1 = TAG_DATA) then RunOutput read.2
      else if decide (read.1 = TAG_TRUNCATED) then OutputTruncated
      else RunFailed "malformed run answer").

Definition read_result (answer : Bytes) : result ReadResult KernelError :=
  let? read := read_answer answer in
  Ok (if decide (read.1 = TAG_DATA) then ReadData read.2
      else if decide (read.1 = TAG_EOF) then ReadEof else ReadWouldBlock).

Definition wait_result (answer : Bytes) : result WaitResult KernelError :=
  let? tag := read_u8 "wait answer" answer in
  if decide (tag.1 = TAG_DATA) then let? code := read_i32 "wait answer" tag.2 in Ok (WaitExited code.1)
  else Ok WaitRunning.

Definition accept_result (answer : Bytes) : result AcceptResult KernelError :=
  let? tag := read_u8 "accept answer" answer in
  if decide (tag.1 = TAG_DATA) then let? handle := read_u64 "accept answer" tag.2 in Ok (AcceptConnection handle.1)
  else Ok AcceptWouldBlock.
End Answers.

(** ** Every crossing is understood *)

Section Crossings.
Context `{U : Utf8}.

(** The provider finds the handle, and in the rest the operation. *)
Definition understood (call : string * Bytes) (handle : Z) (op : HandleOp) : Prop :=
  exists rest, read_u64 "process handle" call.2 = Ok (handle, rest) /\ parse_op call.1 rest = Ok op.

Lemma read_byte what b rest : (0 <= b < 256)%Z -> read_u8 what (b :: rest) = Ok (b, rest).
Proof.
  intros Hb. unfold read_u8, read_value, take_bytes. change (b :: rest) with ([b] ++ rest).
  rewrite split_at_app by done. simpl. by rewrite Z.mul_0_r, Z.add_0_r.
Qed.

Lemma read_handle what h rest : (0 <= h < 2 ^ 64)%Z -> read_u64 what (handle_payload h rest) = Ok (h, rest).
Proof. intros Hh. unfold read_u64, handle_payload. apply reads_value. by rewrite u64_pow. Qed.

Lemma read_word what n rest : (0 <= n < 2 ^ 32)%Z -> read_u32 what (le_bytes 4 n ++ rest) = Ok (n, rest).
Proof. intros Hn. unfold read_u32. apply reads_value. by rewrite u32_pow. Qed.

Lemma read_signed what n rest :
  (- 2 ^ 31 <= n < 2 ^ 31)%Z -> read_i32 what (le_bytes 4 (n mod 2 ^ 32)%Z ++ rest) = Ok (n, rest).
Proof.
  intros Hn. unfold read_i32. pose proof (Z.mod_pos_bound n (2 ^ 32)%Z ltac:(lia)) as Hm.
  rewrite reads_value by (by rewrite u32_pow). simpl. f_equal. f_equal.
  destruct (decide (0 <= n)%Z).
  - rewrite Z.mod_small by lia. by rewrite decide_True by lia.
  - assert (n mod 2 ^ 32 = n + 2 ^ 32)%Z as E.
    { symmetry. apply (Z.mod_unique _ _ (-1)); lia. }
    rewrite E, decide_False by lia. lia.
Qed.

Lemma a_handle_operation_is_understood h : (0 <= h < 2 ^ 64)%Z ->
  (forall bytes, understood (guest_write_stdin h bytes) h (WriteStdin bytes)) /\
  understood (guest_close_stdin h) h CloseStdin /\
  (forall which max, (0 <= max < 2 ^ 32)%Z ->
     understood (guest_read_child h which max) h (Read (stream_index which) (Nat.min (Z.to_nat max) STREAM_CAP))) /\
  (forall ms, (0 <= ms < 2 ^ 64)%Z -> understood (guest_wait h ms) h (Wait ms)) /\
  (forall s, understood (guest_kill h s) h (Signals s)).
Proof.
  intros Hh. unfold understood. split_and!; intros; eexists; (split; [by apply read_handle|]); unfold parse_op; cbn [fst].
  - done.
  - done.
  - rewrite !(decide_False (P := _ = _)), decide_True by done. cbn [app].
    rewrite read_byte by (destruct which; simpl; lia). cbn [snd fst].
    rewrite <-(app_nil_r (le_bytes 4 max)), read_word by done. done.
  - rewrite !(decide_False (P := _ = _)), decide_True by done.
    rewrite <-(app_nil_r (le_bytes 8 ms)). unfold read_u64. by rewrite reads_value by (by rewrite u64_pow).
  - destruct s; done.
Qed.

(** C37: What is written is what is read, on both sides of every crossing of the
    process, net and file contracts, within 32-bit lengths. The requests: a spawn
    (only a working directory given as the empty string is read as none), a run,
    both editions of an outbound call, a keyed file effect, a path, each
    operation on a child, where a read is capped at the size of the ring, and on
    a socket. The answers: a handle, metadata, a response, the output of a run,
    and of a read, a write, a wait and an accept each of their cases, told
    apart. *)
Theorem what_is_written_is_read `{!Utf8Laws U} :
  ((forall command args cwd env, spawn_ok command args cwd env ->
      decode_spawn (encode_spawn command args cwd env) = Ok (command, args, cwd, env)) /\
   (forall command args env, spawn_ok command args None env ->
      decode_spawn (encode_spawn command args (Some "") env) = Ok (command, args, None, env)) /\
   (forall command args, sized command -> Forall sized args ->
      decode_run (encode_run command args) = Ok (command, args)) /\
   (forall method url body, sized method -> sized url ->
      decode_body_request (encode_body_request method url body) = Ok (method, url, body)) /\
   (forall method url headers body, sized method -> sized url -> countable headers -> Forall pair_sized headers ->
      decode_request (encode_request method url headers body) = Ok (method, url, headers, body)) /\
   (forall path key data, sized path -> sized key ->
      split_keyed (prefixed [as_bytes path; as_bytes key] data) = Ok (path, key, data)) /\
   (forall path what, path_payload (as_bytes path) what = Ok path)) /\
  (forall h, (0 <= h < 2 ^ 64)%Z ->
     ((forall bytes, understood (guest_write_stdin h bytes) h (WriteStdin bytes)) /\
      understood (guest_close_stdin h) h CloseStdin /\
      (forall which max, (0 <= max < 2 ^ 32)%Z ->
         understood (guest_read_child h which max) h (Read (stream_index which) (Nat.min (Z.to_nat max) STREAM_CAP))) /\
      (forall ms, (0 <= ms < 2 ^ 64)%Z -> understood (guest_wait h ms) h (Wait ms)) /\
      (forall s, understood (guest_kill h s) h (Signals s))) /\
     (read_u64 "net handle" (guest_accept h).2 = Ok (h, []) /\ read_u64 "net handle" (guest_close_socket h).2 = Ok (h, []) /\
      (forall bytes, read_u64 "net handle" (guest_write_socket h bytes).2 = Ok (h, bytes)) /\
      (forall max, (0 <= max < 2 ^ 32)%Z -> exists rest,
         read_u64 "net handle" (guest_read_socket h max).2 = Ok (h, rest) /\ read_u32 "net handle" rest = Ok (max, []))) /\
     (decode_handle (encode_handle h) = Ok h /\
      accept_result (TAG_DATA :: le_bytes 8 h) = Ok (AcceptConnection h) /\
      accept_result [TAG_WOULD_BLOCK] = Ok AcceptWouldBlock)) /\
  ((forall ms, Forall meta_ok ms -> decode_metas (encode_metas ms) = Ok ms) /\
   (forall status headers body, (0 <= status < 2 ^ 16)%Z -> countable headers -> Forall pair_sized headers ->
      decode_response (encode_response status headers body) = Ok (status, headers, body)) /\
   (forall output, run_result (TAG_DATA :: output) = Ok (RunOutput output)) /\
   run_result [TAG_TRUNCATED] = Ok OutputTruncated /\
   (forall data eof, read_result (encode_read (Some data) eof) = Ok (ReadData data)) /\
   read_result (encode_read None true) = Ok ReadEof /\
   read_result (encode_read None false) = Ok ReadWouldBlock /\
   (forall n, (Z.of_nat n < 2 ^ 32)%Z -> count_answer (answer_count n) = Ok (Z.of_nat n)) /\
   (forall code, (- 2 ^ 31 <= code < 2 ^ 31)%Z -> wait_result (answer_wait (Some code)) = Ok (WaitExited code)) /\
   wait_result (answer_wait None) = Ok WaitRunning).
Proof.
  destruct formats_round_trip as (H1 & H2 & H3 & H4 & H5 & H6 & H7 & H8 & H9).
  assert (forall what t, t = TAG_DATA \/ t = TAG_WOULD_BLOCK \/ t = TAG_EOF \/ t = TAG_TRUNCATED ->
    forall rest, read_u8 what (t :: rest) = Ok (t, rest)) as Htag.
  { intros what t Ht rest. apply read_byte. unfold TAG_DATA, TAG_WOULD_BLOCK, TAG_EOF, TAG_TRUNCATED in Ht. lia. }
  split; [|split].
  - split_and!; try done. intros path what. unfold path_payload. by rewrite from_as_bytes.
  - intros h Hh. split; [by apply a_handle_operation_is_understood|]. split.
    + split_and!; intros; try (by apply read_handle). eexists. split; [by apply read_handle|].
      rewrite <-(app_nil_r (le_bytes 4 max)). by apply read_word.
    + split; [by apply H9|]. unfold accept_result. rewrite !Htag by auto. split; [|done]. cbn [fst snd].
      rewrite decide_True by done. rewrite <-(app_nil_r (le_bytes 8 h)). unfold read_u64. by rewrite reads_value by (by rewrite u64_pow).
  - unfold run_result, read_result, wait_result, read_answer, answer_wait, encode_read, count_answer, answer_count.
    split_and!; try done; intros; rewrite ?Htag by auto; try done.
    + rewrite saturated_small by done. rewrite <-(app_nil_r (le_bytes 4 _)), read_word by lia. done.
    + cbn [fst snd]. rewrite decide_True by done. rewrite <-(app_nil_r (le_bytes 4 _)), read_signed by done. done.
Qed.
End Crossings.

Module GuestWireExample.
#[local] Existing Instance WireExample.octet_text.
#[local] Existing Instance WireExample.octet_text_laws.

(** A request, an answer at the end of a stream and a negative exit. *)
Lemma what_is_written_is_read_witness :
  decode_spawn WireExample.call = Ok ("ls", ["-l"], None, [("HOME", "/")])%string /\
  understood (guest_kill 3 Terminate) 3 (Signals Terminate) /\
  read_result (encode_read None true) = Ok ReadEof /\ wait_result (answer_wait (Some (-9)%Z)) = Ok (WaitExited (-9)).
Proof.
  destruct what_is_written_is_read as ((Hspawn & _) & Hops & (_ & _ & _ & _ & _ & Heof & _ & _ & Hwait & _)).
  split; [exact (Hspawn "ls"%string ["-l"]%string None [("HOME", "/")]%string WireExample.call_ok)|].
  destruct (Hops 3%Z ltac:(lia)) as ((_ & _ & _ & _ & Hkill) & _).
  split; [exact (Hkill Terminate)|]. split; [exact Heof|]. apply Hwait. lia.
Defined.
End GuestWireExample.
