(* ===== verification/Instance.v ===== *)
(** * The supervisor of an instance ([jinnd-wasm/src/instance.rs],
    [instance/*.rs], [handle.rs], [handle/*.rs], [surfaces.rs], [hostcaps.rs],
    [hostcaps/*.rs])

    One task owns a guest and serves the commands of its channel one at a time.
    While a guest entry runs, the guest calls the kernel; what it registers waits
    in its store until the entry's end hands it on, to the caller of an
    activation or to the journal of the live seat. A guest is whatever sequence
    of host calls and endings it makes of an entry, its deadline included;
    around them callers send commands, the lane aborts or commits, and the
    tables change in any way. *)

From stdpp Require Import base gmap sets list strings pretty relations.
From S2P Require Import Prelude Api Entries Paths Grants Waits Broker Disk Spill HostFs Topics Alarms Settle Slot Wire.

(** ** Commands and their answers ([handle/command.rs]) *)

Inductive Command :=
  | Activate (config : Bytes)
  | Check (consumer : Z)
  | Undo (token : Z)
  | HandleCall (caller : Z) (contract operation : string) (payload : Bytes)
  | Deliver (token : Z) (topic : string) (payload : Bytes) (budget : option Z)
  | Snapshot
  | Restore (blob : Bytes)
  | Seal
  | Shutdown.

Inductive Reply :=
  | Activated (r : result () KernelError) (outcome : list Registration)
  | Vital (b : bool)
  | Undone (r : result () KernelError)
  | Answered (r : result Bytes KernelError)
  | Restored (r : result () KernelError) (outcome : list Registration)
  | Sealed.

Definition sealed_error : KernelError :=
  MkKernelError InactiveContext "refused: the seat's journal is sealed for withdrawal" None.

(** A world effect, or a kernel registration, that the guest awaits. *)
Inductive Crossing :=
  | FsEffect (operation path : string)
  | KeystoreEffect (operation key : string)
  | Registering (contract operation what : string)
  | Accept.

(** What a guest asks of the kernel. *)
Inductive HostCall :=
  | Register (label : string) (token : Z)
  | Provide (contract : string)
  | Listen (topic : string) (token : Z)
  | ListenWithin (topic : string) (token fuel : Z)
  | Alarm (spec : AlarmSpec) (token : Z)
  | Resolve (contract : string)
  | Emit (topic : string)
  | OneShot (operation : string)
  | Begin (x : Crossing).

(** How a guest entry ends: at its deadline, in a trap, with a fault, or with
    what it returns. *)
Inductive Ending := Elapsed | Traps (out_of_fuel : bool) (text : string) | Faults (text : string) | Returns (blob : Bytes) (vital : bool).

Inductive Spot :=
  | Serving
  | InGuest (id : nat) (c : Command) (awaiting : option Crossing)
  | Refusing (error : KernelError)      (** it never came up *)
  | Gone.

(** [Seat], less the tables it shares. *)
Record Seat := MkInstanceSeat { peer : Z; seat_fiber : option FiberId; context : Z; clock_floor_ms : Z; has_slot : bool }.

(** The store's data, the loop's locals and the channels. [pushed] and [handed]
    are a history no operation reads: what was registered, and what was handed
    on, to a caller (its command) or to the journal. *)
Record Host := MkHostState {
  outcome : list Registration;
  staging : bool;                        (** the seat's watch *)
  staged : bool;                         (** what the loop last saw of it *)
  sealed : bool;
  active : bool;
  aborts : option KernelError;
  deaths : option KernelError;
  fuel : Z;
  queue : list (nat * Command);
  sent : nat;
  spot : Spot;
  replies : list (nat * Reply);
  unanswered : list nat;                 (** their callers read [gone] *)
  pushed : list Registration;
  handed : list (option nat * list Registration);
}.

(** The channel's capacity. *)
Definition CAPACITY : nat := 16.

Definition new_host (staging : bool) (s : Spot) : Host :=
  MkHostState [] staging staging false false None None u64_max [] 0 s [] [] [] [].

Definition set_outcome rs h :=
  MkHostState rs (staging h) (staged h) (sealed h) (active h) (aborts h) (deaths h) (fuel h) (queue h) (sent h) (spot h)
    (replies h) (unanswered h) (pushed h) (handed h).
Definition push (r : Registration) (h : Host) : Host :=
  MkHostState (outcome h ++ [r]) (staging h) (staged h) (sealed h) (active h) (aborts h) (deaths h) (fuel h) (queue h) (sent h)
    (spot h) (replies h) (unanswered h) (pushed h ++ [r]) (handed h).
Definition hand_on (to : option nat) (rs : list Registration) (h : Host) : Host :=
  MkHostState [] (staging h) (staged h) (sealed h) (active h) (aborts h) (deaths h) (fuel h) (queue h) (sent h) (spot h)
    (replies h) (unanswered h) (pushed h) (handed h ++ [(to, rs)]).
Definition at_spot (s : Spot) (h : Host) : Host :=
  MkHostState (outcome h) (staging h) (staged h) (sealed h) (active h) (aborts h) (deaths h) (fuel h) (queue h) (sent h) s
    (replies h) (unanswered h) (pushed h) (handed h).
Definition with_queue (q : list (nat * Command)) (h : Host) : Host :=
  MkHostState (outcome h) (staging h) (staged h) (sealed h) (active h) (aborts h) (deaths h) (fuel h) q (sent h) (spot h)
    (replies h) (unanswered h) (pushed h) (handed h).
Definition reply (id : nat) (r : Reply) (h : Host) : Host :=
  MkHostState (outcome h) (staging h) (staged h) (sealed h) (active h) (aborts h) (deaths h) (fuel h) (queue h) (sent h) (spot h)
    (replies h ++ [(id, r)]) (unanswered h) (pushed h) (handed h).
Definition set_fuel (n : Z) (h : Host) : Host :=
  MkHostState (outcome h) (staging h) (staged h) (sealed h) (active h) (aborts h) (deaths h) n (queue h) (sent h) (spot h)
    (replies h) (unanswered h) (pushed h) (handed h).
Definition set_staged (b : bool) (h : Host) : Host :=
  MkHostState (outcome h) (staging h) b (sealed h) (active h) (aborts h) (deaths h) (fuel h) (queue h) (sent h) (spot h)
    (replies h) (unanswered h) (pushed h) (handed h).
Definition commit_seat (h : Host) : Host :=
  MkHostState (outcome h) false (staged h) (sealed h) (active h) (aborts h) (deaths h) (fuel h) (queue h) (sent h) (spot h)
    (replies h) (unanswered h) (pushed h) (handed h).
Definition seal_host (h : Host) : Host :=
  MkHostState (outcome h) (staging h) (staged h) true (active h) (aborts h) (deaths h) (fuel h) (queue h) (sent h) (spot h)
    (replies h) (unanswered h) (pushed h) (handed h).
Definition set_active (h : Host) : Host :=
  MkHostState (outcome h) (staging h) (staged h) (sealed h) true (aborts h) (deaths h) (fuel h) (queue h) (sent h) (spot h)
    (replies h) (unanswered h) (pushed h) (handed h).
Definition abort (e : KernelError) (h : Host) : Host :=
  MkHostState (outcome h) (staging h) (staged h) (sealed h) (active h) (Some e) (deaths h) (fuel h) (queue h) (sent h) (spot h)
    (replies h) (unanswered h) (pushed h) (handed h).
Definition notice (e : KernelError) (h : Host) : Host :=
  MkHostState (outcome h) (staging h) (staged h) (sealed h) (active h) (aborts h) (Some e) (fuel h) (queue h) (sent h) (spot h)
    (replies h) (unanswered h) (pushed h) (handed h).

(** The task ends: the store vanishes, and every command still in the channel
    goes unanswered. *)
Definition exit (h : Host) : Host :=
  MkHostState (outcome h) (staging h) (staged h) (sealed h) (active h) (aborts h) (deaths h) (fuel h) [] (sent h) Gone
    (replies h) (unanswered h ++ map fst (queue h)) (pushed h) (handed h).

(** A command is sent while the channel has room; of a gone instance at once. *)
Definition send (c : Command) (h : Host) : option Host :=
  match spot h with
  | Gone =>
      Some (MkHostState (outcome h) (staging h) (staged h) (sealed h) (active h) (aborts h) (deaths h) (fuel h) (queue h)
        (S (sent h)) Gone (replies h) (unanswered h ++ [sent h]) (pushed h) (handed h))
  | _ =>
      if decide (length (queue h) < CAPACITY) then
        Some (MkHostState (outcome h) (staging h) (staged h) (sealed h) (active h) (aborts h) (deaths h) (fuel h)
          (queue h ++ [(sent h, c)]) (S (sent h)) (spot h) (replies h) (unanswered h) (pushed h) (handed h))
      else None
  end.

Definition sealed_refusal (what : string) : KernelError :=
  MkKernelError InactiveContext (what +:+ " " +:+ message sealed_error) None.

Section Instances.
Context {Callable Target : Type}.
(** The instance as a delivery target and as a provider's face; the slot's
    face; whether a timer runtime is there. *)
Context (me : Target) (own_face slot_face : Callable) (has_runtime : bool) (seat : Seat).

Record World := MkWorld { host : Host; lane : @Lane Callable Target }.

Definition with_host (f : Host -> Host) (w : World) : World := MkWorld (f (host w)) (lane w).
Definition with_lane (l : @Lane Callable Target) (w : World) : World := MkWorld (host w) l.

(** The broker's sink, under this fiber. *)
Definition record (kind : LedgerEventKind) (w : World) : World :=
  with_lane (Slot.append kind (seat_fiber seat) (lane w)) w.

Definition ask_broker {A} (f : @Broker Callable Target -> A * @Broker Callable Target) (w : World) : A * World :=
  let '(a, l) := on_broker f (lane w) in (a, with_lane l w).

(** ** Late registrations ([instance/late.rs]) *)

Definition listen_live (topic : string) (token : Z) (budget : option Z) (l : @Lane Callable Target) :
    Z * @Lane Callable Target :=
  let '(id, t) :=
    Topics.listen_within (MkRebind topic (context seat) token (seat_fiber seat) budget me) (lane_topics l) in
  (id, with_topics t l).

Definition arm_live (spec : AlarmSpec) (token : Z) (l : @Lane Callable Target) : Z * @Lane Callable Target :=
  on_alarms (Alarms.arm has_runtime (MkArmRequest spec token (seat_fiber seat))) l.

Definition route_one (r : Registration) (l : @Lane Callable Target) : Registration * @Lane Callable Target :=
  match r with
  | RListen (MkListen topic token None budget) =>
      let '(id, l) := listen_live topic token budget l in (RListen (MkListen topic token (Some id) budget), l)
  | RAlarm (MkAlarm text spec token None) =>
      let '(id, l) := arm_live spec token l in (RAlarm (MkAlarm text spec token (Some id)), l)
  | r => (r, l)
  end.

Fixpoint route_recorded (late : list Registration) (l : @Lane Callable Target) :
    list Registration * @Lane Callable Target :=
  match late with
  | [] => ([], l)
  | r :: late =>
      let '(r, l) := route_one r l in
      let '(late, l) := route_recorded late l in
      (r :: late, l)
  end.

Definition commit_late (w : World) : World :=
  if decide (outcome (host w) = []) then w
  else if staging (host w) then w
  else
    let '(late, l) := route_recorded (outcome (host w)) (lane w) in
    if has_slot seat then
      match extend late (lane_slot l) with
      | (Some kept, x) => MkWorld (set_outcome kept (host w)) (with_slot x l)
      | (None, x) => MkWorld (hand_on None late (host w)) (with_slot x l)
      end
    else MkWorld (set_outcome late (host w)) l.

(** ** What a guest asks of the kernel ([surfaces.rs], [hostcaps.rs]) *)

Definition admit_call (what : string) (w : World) : result () KernelError * World :=
  if has_slot seat && Slot.sealed (lane_slot (lane w)) then
    (Err (sealed_refusal what), record (ErrorRecorded (sealed_refusal what)) w)
  else (Ok (), w).

Definition reserved_error (topic : string) : KernelError :=
  MkKernelError EffectFailed (topic +:+ " is published by the kernel; a guest may only listen on it") (seat_fiber seat).

Definition reserve (topic : string) (w : World) : result () KernelError * World :=
  if reserved topic then (Err (reserved_error topic), record (ErrorRecorded (reserved_error topic)) w) else (Ok (), w).

Definition register_listener (topic : string) (token : Z) (budget : option Z) (w : World) :
    result Z KernelError * World :=
  match admit_call "listen" w with
  | (Err e, w) => (Err e, w)
  | (Ok _, w) =>
      match ask_broker (check_grant (peer seat) (grant_for topic)) w with
      | (Err e, w) => (Err e, w)
      | (Ok _, w) =>
          if staging (host w) then (Ok 0%Z, with_host (push (RListen (MkListen topic token None budget))) w)
          else
            let '(id, l) := listen_live topic token budget (lane w) in
            (Ok id, MkWorld (push (RListen (MkListen topic token (Some id) budget)) (host w)) l)
      end
  end.

Definition invalid_budget : KernelError :=
  MkKernelError InvalidProfile "delivery fuel budget must be non-zero" (seat_fiber seat).

Definition listen_within (topic : string) (token fuel : Z) (w : World) : result Z KernelError * World :=
  if decide (fuel = 0)%Z then (Err invalid_budget, record (ErrorRecorded invalid_budget) w)
  else register_listener topic token (Some fuel) w.

Definition register (label : string) (token : Z) (w : World) : result Z KernelError * World :=
  match admit_call "effect" w with
  | (Err e, w) => (Err e, w)
  | (Ok _, w) =>
      (Ok (Z.of_nat (length (effects (outcome (host w))))), with_host (push (REffect label token)) w)
  end.

Definition provide (c : string) (w : World) : result Z KernelError * World :=
  match admit_call "provide" w with
  | (Err e, w) => (Err e, w)
  | (Ok _, w) =>
      let index := Z.of_nat (length (Slot.provisions (outcome (host w)))) in
      match
        ask_broker
          (if staging (host w) then check_grant (peer seat) c
           else Broker.provide (peer seat) c (if has_slot seat then slot_face else own_face)) w
      with
      | (Err e, w) => (Err e, w)
      | (Ok _, w) => (Ok index, with_host (push (RProvision c)) w)
      end
  end.

Definition alarm_operation (s : AlarmSpec) : string :=
  match s with At _ => "alarm-at" | Every _ => "alarm-every" end.

Definition alarm (s : AlarmSpec) (token : Z) (w : World) : result Z KernelError * World :=
  match admit_call "alarm" w with
  | (Err e, w) => (Err e, w)
  | (Ok _, w) =>
      match ask_broker (check_grant (peer seat) CLOCK_CONTRACT) w with
      | (Err e, w) => (Err e, w)
      | (Ok _, w) =>
          match ask_broker (check_op (peer seat) CLOCK_CONTRACT (alarm_operation s)) w with
          | (Err e, w) => (Err e, w)
          | (Ok _, w) =>
              match validate s (clock_floor_ms seat) with
              | Err e => (Err e, w)
              | Ok _ =>
                  if staging (host w) then
                    (Ok 0%Z, with_host (push (RAlarm (MkAlarm (alarm_label s) s token None))) w)
                  else
                    let '(id, l) := arm_live s token (lane w) in
                    (Ok id, MkWorld (push (RAlarm (MkAlarm (alarm_label s) s token (Some id))) (host w)) l)
              end
          end
      end
  end.

(** The doors of [emit]; the walk itself is [Topics.emit]. *)
Definition emit_doors (topic : string) (w : World) : result Z KernelError * World :=
  match reserve topic w with
  | (Err e, w) => (Err e, w)
  | (Ok _, w) =>
      match ask_broker (check_grant (peer seat) (grant_for topic)) w with
      | (Err e, w) => (Err e, w)
      | (Ok _, w) => (Ok 0%Z, w)
      end
  end.

Definition crossing_text (x : Crossing) : string :=
  match x with
  | FsEffect operation _ => "fs " +:+ operation
  | KeystoreEffect operation _ => "keystore " +:+ operation
  | Registering c operation _ => c +:+ " " +:+ operation
  | Accept => "jinn:net accept"
  end.

(** The crossing is admitted, then awaited. *)
Definition begin_crossing (id : nat) (c : Command) (x : Crossing) (w : World) : result Z KernelError * World :=
  match admit_call (crossing_text x) w with
  | (Err e, w) => (Err e, w)
  | (Ok _, w) => (Ok 0%Z, with_host (at_spot (InGuest id c (Some x))) w)
  end.

Definition one_shot (operation : string) (w : World) : result Z KernelError * World :=
  match admit_call ("jinn:net " +:+ operation) w with (Err e, w) => (Err e, w) | (Ok _, w) => (Ok 0%Z, w) end.

(** A host call of the running entry; none while it awaits a crossing. *)
Definition host_call (h : HostCall) (w : World) : option (result Z KernelError * World) :=
  match spot (host w) with
  | InGuest id c None =>
      Some
        match h with
        | Register label token => register label token w
        | Provide c => provide c w
        | Listen topic token => register_listener topic token None w
        | ListenWithin topic token fuel => listen_within topic token fuel w
        | Alarm s token => alarm s token w
        | Resolve c => ask_broker (broker_resolve (peer seat) c) w
        | Emit topic => emit_doors topic w
        | OneShot operation => one_shot operation w
        | Begin x => begin_crossing id c x w
        end
  | _ => None
  end.

Definition registration_label (c what : string) (handle : Z) : string :=
  c +:+ " " +:+ what +:+ " [handle " +:+ pretty handle +:+ "]".

(** The first eight bytes, or what there is of them. *)
Definition fs_effect_id (answer : Bytes) : Z := le_value (firstn 8 answer).

(** What an answered crossing registers. *)
Definition crossed (x : Crossing) (answer : Bytes) : result (option Registration) KernelError :=
  match x with
  | FsEffect operation path =>
      let id := fs_effect_id answer in Ok (Some (RHost (MkHost FS_CONTRACT (effect_label operation path id) id)))
  | KeystoreEffect operation key =>
      match decode_handle answer with
      | Ok id => Ok (Some (RHost (MkHost KEYSTORE_CONTRACT (keystore_label operation key id) id)))
      | Err e => Err e
      end
  | Registering c _ what =>
      match decode_handle answer with
      | Ok id => Ok (Some (RKernel (MkHost c (registration_label c what id) id)))
      | Err e => Err e
      end
  | Accept =>
      match read_u8 "accept answer" answer with
      | Ok (tag, rest) =>
          if decide (tag = TAG_DATA) then
            match read_u64 "accept answer" rest with
            | Ok (id, _) => Ok (Some (RKernel (MkHost NET_CONTRACT (registration_label NET_CONTRACT "accept" id) id)))
            | Err e => Err e
            end
          else Ok None
      | Err e => Err e
      end
  end.

Definition crossing_answer (answer : result Bytes KernelError) (w : World) : option World :=
  match spot (host w) with
  | InGuest id c (Some x) =>
      let w := with_host (at_spot (InGuest id c None)) w in
      Some match answer with
           | Ok bytes => match crossed x bytes with Ok (Some r) => with_host (push r) w | _ => w end
           | Err _ => w
           end
  | _ => None
  end.

(** ** The command loop ([instance/serve.rs], [instance/guard.rs]) *)

(** Records the death of an instance that had activated. *)
Definition die (e : KernelError) (w : World) : KernelError * World :=
  if active (host w) then
    let e := MkKernelError (code e) (message e) (seat_fiber seat) in
    (e, with_host (notice e) (record (ErrorRecorded e) w))
  else (e, w).

Definition enter (id : nat) (c : Command) (w : World) : World := with_host (at_spot (InGuest id c None)) w.

Definition answer (id : nat) (r : Reply) (w : World) : World := with_host (reply id r) w.

Definition shut (w : World) : bool := sealed (host w) || (has_slot seat && closing (lane_slot (lane w))).

Definition take_command (id : nat) (c : Command) (w : World) : World :=
  match c with
  | Activate _ => if shut w then answer id (Activated (Err sealed_error) []) w else enter id c w
  | HandleCall _ _ _ _ => if shut w then answer id (Answered (Err sealed_error)) w else enter id c w
  | Deliver _ _ _ budget =>
      if shut w then answer id (Answered (Err sealed_error)) w
      else enter id c (match budget with Some n => with_host (set_fuel n) w | None => w end)
  | Check _ | Undo _ | Snapshot | Restore _ => enter id c w
  | Seal => answer id Sealed (with_host seal_host w)
  | Shutdown =>
      with_host (fun h => exit (MkHostState (outcome h) (staging h) (staged h) (sealed h) (active h) (aborts h)
        (deaths h) (fuel h) (queue h) (sent h) (spot h) (replies h) (unanswered h ++ [id]) (pushed h) (handed h))) w
  end.

(** An instance that never came up ([refuse_all]). *)
Definition refusal_of (e : KernelError) (c : Command) : option Reply :=
  match c with
  | Shutdown => None
  | Seal => Some Sealed
  | Activate _ => Some (Activated (Err e) [])
  | Check _ => Some (Vital false)
  | Undo _ => Some (Undone (Err e))
  | Restore _ => Some (Restored (Err e) [])
  | HandleCall _ _ _ _ | Deliver _ _ _ _ | Snapshot => Some (Answered (Err e))
  end.

Definition refuse_next (e : KernelError) (w : World) : option World :=
  match queue (host w) with
  | [] => None
  | (id, c) :: q =>
      let w := with_host (with_queue q) w in
      Some match refusal_of e c with Some r => answer id r w | None => take_command id Shutdown w end
  end.

(** One turn of the loop: an abort first, then the commit's flip, then the next
    command. *)
Definition turn (w : World) : option World :=
  match spot (host w) with
  | Serving =>
      match aborts (host w) with
      | Some e => Some (with_host exit (die e w).2)
      | None =>
          if staged (host w) && negb (staging (host w)) then Some (commit_late (with_host (set_staged false) w))
          else
            match queue (host w) with
            | [] => None
            | (id, c) :: q => Some (take_command id c (with_host (with_queue q) w))
            end
      end
  | Refusing e => refuse_next e w
  | InGuest _ _ _ | Gone => None
  end.

(** What a call within its deadline comes to; an abort interrupts it. *)
Definition ended {T} (value : T) (e : Ending) : option (Ended T) :=
  match e with
  | Elapsed => None
  | Traps fuel text => Some (Trapped fuel text)
  | Faults text => Some (Faulted text)
  | Returns _ _ => Some (Returned value)
  end.

Definition settled {T} (budgeted : bool) (value : T) (e : Ending) (w : World) : Settled T :=
  match aborts (host w) with Some error => SettledDead error | None => settle_call (ended value e) budgeted end.

Definition blob_of (e : Ending) : Bytes := match e with Returns blob _ => blob | _ => [] end.
Definition vital_of (e : Ending) : bool := match e with Returns _ vital => vital | _ => false end.

Definition serving : World -> World := with_host (at_spot Serving).

(** The death of the running entry: its caller reads the recorded error. *)
Definition dead (id : nat) (r : KernelError -> Reply) (e : KernelError) (w : World) : World :=
  let '(e, w) := die e w in with_host exit (answer id (r e) w).

(** The end of an entry that hands on what it registered late. *)
Definition settle_entry {T} (id : nat) (r : result T KernelError -> Reply) (s : Settled T) (w : World) : World :=
  let w := commit_late w in
  match s with
  | SettledOk value => serving (answer id (r (Ok value)) w)
  | SettledFault e => serving (answer id (r (Err e)) w)
  | SettledDead e => dead id (fun e => r (Err e)) e w
  end.

(** [check] and [snapshot] hand on only when they die. *)
Definition settle_probe {T} (id : nat) (r : result T KernelError -> Reply) (s : Settled T) (w : World) : World :=
  match s with
  | SettledOk value => serving (answer id (r (Ok value)) w)
  | SettledFault e => serving (answer id (r (Err e)) w)
  | SettledDead e => dead id (fun e => r (Err e)) e (commit_late w)
  end.

Definition settle_activation (id : nat) (s : Settled ()) (w : World) : World :=
  let rs := outcome (host w) in
  let w := with_host (hand_on (Some id) rs) w in
  match s with
  | SettledOk _ => serving (answer id (Activated (Ok ()) rs) (with_host set_active w))
  | SettledFault e => serving (answer id (Activated (Err e) rs) w)
  | SettledDead e => with_host exit (answer id (Activated (Err e) rs) w)
  end.

Definition settle_restore (id : nat) (s : Settled ()) (w : World) : World :=
  let w := commit_late w in
  let rs := outcome (host w) in
  let w := with_host (hand_on (Some id) rs) w in
  match s with
  | SettledOk _ => serving (answer id (Restored (Ok ()) rs) w)
  | SettledFault e => serving (answer id (Restored (Err e) rs) w)
  | SettledDead e => dead id (fun e => Restored (Err e) rs) e w
  end.

Definition vital_reply (r : result bool KernelError) : Reply :=
  Vital (match r with Ok vital => vital | Err _ => false end).

(** Which endings an entry can have: a guest that awaits a crossing neither
    returns nor traps, and [check] and [snapshot] answer no fault. *)
Definition can_end (c : Command) (awaiting : option Crossing) (e : Ending) (w : World) : bool :=
  match aborts (host w), e with
  | Some _, _ | None, Elapsed => true
  | None, Faults _ => bool_decide (awaiting = None) && match c with Check _ | Snapshot => false | _ => true end
  | None, _ => bool_decide (awaiting = None)
  end.

Definition end_entry (e : Ending) (w : World) : option World :=
  match spot (host w) with
  | InGuest id c awaiting =>
      if can_end c awaiting e w then
        match c with
        | Activate _ => Some (settle_activation id (settled false () e w) w)
        | Check _ => Some (settle_probe id vital_reply (settled false (vital_of e) e w) w)
        | Undo _ => Some (settle_entry id Undone (settled false () e w) w)
        | HandleCall _ _ _ _ => Some (settle_entry id Answered (settled false (blob_of e) e w) w)
        | Deliver _ _ _ budget =>
            Some (settle_entry id Answered (settled (bool_decide (is_Some budget)) (blob_of e) e w)
                    (with_host (set_fuel u64_max) w))
        | Snapshot => Some (settle_probe id Answered (settled false (blob_of e) e w) w)
        | Restore _ => Some (settle_restore id (settled false () e w) w)
        | Seal | Shutdown => None
        end
      else None
  | _ => None
  end.

(** Everything that moves: the loop, the guest, its callers, the lane, and
    whatever else happens to the tables. *)
Inductive step (w : World) : World -> Prop :=
  | step_turns w' : turn w = Some w' -> step w w'
  | step_calls h r w' : host_call h w = Some (r, w') -> step w w'
  | step_answers a w' : crossing_answer a w = Some w' -> step w w'
  | step_ends e w' : end_entry e w = Some w' -> step w w'
  | step_sends c h : send c (host w) = Some h -> step w (MkWorld h (lane w))
  | step_aborts e : step w (with_host (abort e) w)
  | step_commits : step w (with_host commit_seat w)
  | step_elsewhere l : step w (with_lane l w).

Definition at_start (w : World) : Prop :=
  exists b s l, (s = Serving \/ exists e, s = Refusing e) /\ w = MkWorld (new_host b s) l.

Definition running : World -> Prop := reachable at_start step.

(** ** What is handed on *)

(** A registration without the ids it is routed under. *)
Definition unrouted (r : Registration) : Registration :=
  match r with
  | RListen (MkListen topic token _ budget) => RListen (MkListen topic token None budget)
  | RAlarm (MkAlarm text spec token _) => RAlarm (MkAlarm text spec token None)
  | r => r
  end.

Definition routed (r : Registration) : Prop :=
  match r with RListen x => is_Some (listen_id x) | RAlarm x => is_Some (alarm_id x) | _ => True end.

Definition accounted (h : Host) : Prop :=
  map unrouted (pushed h) = map unrouted (concat (map snd (handed h)) ++ outcome h).

(** What callers were handed, and what they were answered. *)
Definition to_callers (l : list (option nat * list Registration)) : list Registration :=
  concat (omap (fun x => match x.1 with Some _ => Some x.2 | None => None end) l).
Definition given (l : list (nat * Reply)) : list Registration :=
  concat (map (fun x => match x.2 with Activated _ rs | Restored _ rs => rs | _ => [] end) l).

Lemma route_one_same r l : unrouted (route_one r l).1 = unrouted r.
Proof.
  destruct r as [| |[topic token [id|] budget]|[text spec token [id|]]| |]; done.
Qed.

Lemma route_one_routed r l : routed (route_one r l).1.
Proof.
  destruct r as [| |[topic token [id|] budget]|[text spec token [id|]]| |]; simpl; try done; by eexists.
Qed.

Lemma route_one_slot r l : lane_slot (route_one r l).2 = lane_slot l.
Proof.
  destruct r as [| |[topic token [id|] budget]|[text spec token [id|]]| |]; done.
Qed.

Lemma route_recorded_spec rs l :
  let '(late, l') := route_recorded rs l in
  map unrouted late = map unrouted rs /\ Forall routed late /\ lane_slot l' = lane_slot l.
Proof.
  revert l. induction rs as [|r rs IH]; intros l; simpl; [done|].
  pose proof (route_one_same r l) as Hs. pose proof (route_one_routed r l) as Hr. pose proof (route_one_slot r l) as Hl.
  destruct (route_one r l) as [r' l1]. specialize (IH l1). destruct (route_recorded rs l1) as [late l2].
  destruct IH as (Hm & Hf & Hx). simpl in *. split_and!; [by rewrite Hs, Hm|by constructor|by rewrite Hx].
Qed.

(** What an entry's end does with what waits, from [w] to [w']. *)
Definition handed_over (w w' : World) : Prop :=
  if staging (host w) then outcome (host w') = outcome (host w) /\ lane_slot (lane w') = lane_slot (lane w)
  else
    exists rs, map unrouted rs = map unrouted (outcome (host w)) /\ Forall routed rs /\
      match has_slot seat, current (lane_slot (lane w)) with
      | true, Some s =>
          outcome (host w') = [] /\ current (lane_slot (lane w')) = Some (MkSeat (instance s) (registrations s ++ rs))
      | _, _ => outcome (host w') = rs /\ lane_slot (lane w') = lane_slot (lane w)
      end.

(** [h'] is [h] but for what waits and what was handed on. *)
Definition but_journal (h h' : Host) : Prop :=
  h' = MkHostState (outcome h') (staging h) (staged h) (sealed h) (active h) (aborts h) (deaths h) (fuel h) (queue h) (sent h)
         (spot h) (replies h) (unanswered h) (pushed h) (handed h').

Lemma to_callers_app a b : to_callers (a ++ b) = to_callers a ++ to_callers b.
Proof. unfold to_callers. by rewrite omap_app, concat_app. Qed.

Lemma given_app a b : given (a ++ b) = given a ++ given b.
Proof. unfold given. by rewrite map_app, concat_app. Qed.

Lemma to_callers_one to rs : to_callers [(to, rs)] = match to with Some _ => rs | None => [] end.
Proof. destruct to; [apply app_nil_r|done]. Qed.

Lemma accounted_push r h : accounted h -> accounted (push r h).
Proof. unfold accounted. simpl. intros Ha. rewrite app_assoc, (map_app unrouted (pushed h)), Ha. by rewrite <-!map_app. Qed.

Lemma accounted_hand_on to rs h :
  map unrouted rs = map unrouted (outcome h) -> accounted h -> accounted (hand_on to rs h).
Proof.
  unfold accounted. simpl. intros Hrs ->.
  rewrite app_nil_r, (map_app snd), concat_app. simpl. by rewrite !map_app, app_nil_r, Hrs.
Qed.

Lemma accounted_set rs h :
  map unrouted rs = map unrouted (outcome h) -> accounted h -> accounted (set_outcome rs h).
Proof. unfold accounted. simpl. intros Hrs ->. by rewrite !map_app, Hrs. Qed.

Lemma but_journal_refl h : but_journal h h.
Proof. by destruct h. Qed.

Lemma commit_late_spec w :
  handed_over w (commit_late w) /\ but_journal (host w) (host (commit_late w)) /\
  to_callers (handed (host (commit_late w))) = to_callers (handed (host w)) /\
  (accounted (host w) -> accounted (host (commit_late w))).
Proof.
  unfold handed_over, commit_late.
  destruct (decide (outcome (host w) = [])) as [Hnil|Hne].
  { split_and!; try done; [|apply but_journal_refl]. destruct (staging (host w)); [done|]. exists []. rewrite Hnil.
    split_and!; [done|done|]. destruct (has_slot seat), (current (lane_slot (lane w))) as [[i rs]|] eqn:Hc; try done.
    by rewrite app_nil_r. }
  destruct (staging (host w)) eqn:Hst; [split_and!; try done; apply but_journal_refl|].
  pose proof (route_recorded_spec (outcome (host w)) (lane w)) as Hr.
  destruct (route_recorded (outcome (host w)) (lane w)) as [late l]. destruct Hr as (Hm & Hf & Hx).
  destruct (has_slot seat); [|split_and!; try done; [by exists late|by apply accounted_set]].
  unfold extend. rewrite Hx. destruct (current (lane_slot (lane w))) as [[i rs]|] eqn:Hc; simpl.
  - split_and!; try done; [by exists late|by rewrite to_callers_app, app_nil_r|by apply accounted_hand_on].
  - split_and!; try done; [by exists late|by apply accounted_set].
Qed.

(** ** What holds throughout *)

Definition at_work (s : Spot) : list nat := match s with InGuest id _ _ => [id] | _ => [] end.
Definition ids (h : Host) : list nat := map fst (queue h) ++ at_work (spot h) ++ map fst (replies h) ++ unanswered h.

Definition fuelled (s : Spot) : Z := match s with InGuest _ (Deliver _ _ _ (Some n)) _ => n | _ => u64_max end.

Definition enterable (c : Command) : Prop := match c with Seal | Shutdown => False | _ => True end.

Record host_ok (h : Host) : Prop := {
  ok_accounted : accounted h;
  ok_given : given (replies h) = to_callers (handed h);
  ok_ids : ids h ≡ₚ seq 0 (sent h);
  ok_gone : spot h = Gone -> queue h = [];
  ok_answers : spot h <> Gone -> unanswered h = [];
  ok_entered : forall id c x, spot h = InGuest id c x -> enterable c;
  ok_dead : forall e, deaths h = Some e -> spot h = Gone /\ Api.fiber e = seat_fiber seat;
  ok_fuel : fuel h = fuelled (spot h);
  ok_staged : staging h = true -> staged h = true;
}.

Lemma ask_broker_host {A} (f : @Broker Callable Target -> A * @Broker Callable Target) w :
  host (ask_broker f w).2 = host w.
Proof. unfold ask_broker, on_broker. by destruct (f _). Qed.

Lemma admit_call_host what w : host (admit_call what w).2 = host w.
Proof. unfold admit_call. by destruct (_ && _). Qed.

(** What a host call does to the host. *)
Inductive called (id : nat) (c : Command) (h : Host) : Host -> Prop :=
  | called_nothing : called id c h h
  | called_pushes r : called id c h (push r h)
  | called_begins x : called id c h (at_spot (InGuest id c (Some x)) h).

(** Past a door that may refuse, which leaves the host alone. *)
Ltac past t lem :=
  let H := fresh in
  pose proof lem as H; destruct t as [[?|?] ?]; simpl in *; rewrite <-H; clear H; [|by constructor].
Ltac past_door :=
  match goal with
  | |- context [match admit_call ?what ?w with _ => _ end] => past (admit_call what w) (admit_call_host what w)
  | |- context [match ask_broker ?f ?w with _ => _ end] => past (ask_broker f w) (ask_broker_host f w)
  end.

Lemma register_listener_called id c topic token budget w :
  called id c (host w) (host (register_listener topic token budget w).2).
Proof. unfold register_listener. do 2 past_door. destruct (staging _); simpl; constructor. Qed.

Lemma alarm_called id c s token w : called id c (host w) (host (alarm s token w).2).
Proof.
  unfold alarm. do 3 past_door. destruct (validate _ _); [|constructor]. case_match; constructor.
Qed.

Lemma host_call_called h w r w' :
  host_call h w = Some (r, w') ->
  exists id c, spot (host w) = InGuest id c None /\ called id c (host w) (host w').
Proof.
  unfold host_call. destruct (spot (host w)) as [|id c [x|]| |] eqn:Hs; try done. intros [= He]. exists id, c. split; [done|].
  rewrite <-(f_equal (fun p => host p.2) He : _ = host w'). clear He. destruct h; simpl.
  - unfold register. past_door. constructor.
  - unfold provide. do 2 past_door. constructor.
  - apply register_listener_called.
  - unfold listen_within. case_decide; [constructor|apply register_listener_called].
  - apply alarm_called.
  - rewrite ask_broker_host. constructor.
  - unfold emit_doors, reserve. destruct (reserved topic); [constructor|]. past_door. constructor.
  - unfold one_shot. past_door. constructor.
  - unfold begin_crossing. past_door. constructor.
Qed.

Lemma called_ok id c h h' : host_ok h -> spot h = InGuest id c None -> called id c h h' -> host_ok h'.
Proof.
  intros [] Hs Hc. inversion Hc; subst; [done| |].
  - split; try done. by apply accounted_push.
  - split; simpl; try done.
    + unfold ids in *. rewrite Hs in ok_ids0. done.
    + intros _. apply ok_answers0. by rewrite Hs.
    + intros ??? [= <- <- <-]. by eapply ok_entered0.
    + intros e He. destruct (ok_dead0 e He) as [Hg _]. by rewrite Hs in Hg.
    + by rewrite ok_fuel0, Hs.
Qed.

Lemma crossing_ok a w w' : host_ok (host w) -> crossing_answer a w = Some w' -> host_ok (host w').
Proof.
  intros [] Hc. unfold crossing_answer in Hc. destruct (spot (host w)) as [|id c [x|]| |] eqn:Hs; try done. injection Hc as <-.
  assert (host_ok (at_spot (InGuest id c None) (host w))) as Hok.
  { split; simpl; try done.
    + unfold ids in *. rewrite Hs in ok_ids0. done.
    + intros _. by apply ok_answers0.
    + intros ??? [= <- <- <-]. by eapply ok_entered0.
    + intros e He. by destruct (ok_dead0 e He). }
  destruct a as [bytes|e]; [|exact Hok]. destruct (crossed x bytes) as [[r|]|]; try exact Hok.
  eapply called_ok; [exact Hok|done|constructor].
Qed.

(** Inside an entry, with [g] handed to its caller and not yet answered. *)
Record entry_ok (id : nat) (g : list Registration) (h : Host) : Prop := {
  entry_accounted : accounted h;
  entry_given : given (replies h) ++ g = to_callers (handed h);
  entry_ids : map fst (queue h) ++ [id] ++ map fst (replies h) ++ unanswered h ≡ₚ seq 0 (sent h);
  entry_answers : unanswered h = [];
  entry_alive : deaths h = None;
  entry_fuel : fuel h = u64_max;
  entry_staged : staging h = true -> staged h = true;
}.

Lemma entry_of_ok id c x w :
  host_ok (host w) -> spot (host w) = InGuest id c x -> entry_ok id [] (set_fuel u64_max (host w)).
Proof.
  intros [] Hs. split; simpl; try done; [by rewrite app_nil_r|unfold ids in ok_ids0; by rewrite Hs in ok_ids0|apply ok_answers0; by rewrite Hs|].
  destruct (deaths (host w)) as [e|] eqn:He; [|done]. destruct (ok_dead0 e eq_refl) as [Hg _]. by rewrite Hs in Hg.
Qed.

Lemma entry_commit_late id g w : entry_ok id g (host w) -> entry_ok id g (host (commit_late w)).
Proof.
  intros []. destruct (commit_late_spec w) as (_ & Hb & Hg & Ha). unfold but_journal in Hb.
  split; [by apply Ha|rewrite Hg|..]; rewrite Hb; done.
Qed.

Lemma entry_hand_on id h : entry_ok id [] h -> entry_ok id (outcome h) (hand_on (Some id) (outcome h) h).
Proof.
  intros []. rewrite app_nil_r in entry_given0. split; simpl; try done; [by apply accounted_hand_on|].
  by rewrite to_callers_app, to_callers_one, entry_given0.
Qed.

Lemma given_reply id r l : given (l ++ [(id, r)]) = given l ++ given [(id, r)].
Proof. apply given_app. Qed.

Lemma finish_serving id g r h : entry_ok id g h -> given [(id, r)] = g -> host_ok (at_spot Serving (reply id r h)).
Proof.
  intros [] <-. split; simpl; try done; [by rewrite given_reply| |intros e He; by rewrite entry_alive0 in He].
  unfold ids. simpl. rewrite map_app. simpl. rewrite <-entry_ids0. solve_Permutation.
Qed.

Lemma finish_dead id g r h d :
  entry_ok id g h -> given [(id, r)] = g -> (forall e, d = Some e -> Api.fiber e = seat_fiber seat) ->
  host_ok (exit (reply id r (MkHostState (outcome h) (staging h) (staged h) (sealed h) (active h) (aborts h) d (fuel h)
    (queue h) (sent h) (spot h) (replies h) (unanswered h) (pushed h) (handed h)))).
Proof.
  intros [] <- Hd. split; simpl; try done; [by rewrite given_reply| |intros e He; split; [done|by apply Hd]].
  unfold ids. simpl. rewrite map_app. simpl. rewrite <-entry_ids0. solve_Permutation.
Qed.

Lemma dead_ok id g r e w :
  entry_ok id g (host w) -> (forall e, given [(id, r e)] = g) -> host_ok (host (dead id r e w)).
Proof.
  intros He Hg. unfold dead, die. destruct (active (host w)) eqn:Ha; simpl.
  - eapply (finish_dead id g _ (host w)); [done|done|]. by intros ? [= <-].
  - pose proof (finish_dead id g (r e) (host w) None He (Hg e) ltac:(done)) as Hok.
    pose proof (entry_alive _ _ _ He) as Hd. destruct (host w); simpl in *. by rewrite Hd.
Qed.

Lemma settle_entry_ok {T} id (r : result T KernelError -> Reply) s w :
  entry_ok id [] (host w) -> (forall x, given [(id, r x)] = []) -> host_ok (host (settle_entry id r s w)).
Proof.
  intros He Hg. apply entry_commit_late in He. unfold settle_entry.
  destruct s; simpl; [by eapply finish_serving..|by eapply dead_ok].
Qed.

Lemma settle_probe_ok {T} id (r : result T KernelError -> Reply) s w :
  entry_ok id [] (host w) -> (forall x, given [(id, r x)] = []) -> host_ok (host (settle_probe id r s w)).
Proof.
  intros He Hg. unfold settle_probe. destruct s; simpl; [by eapply finish_serving..|].
  eapply dead_ok; [by apply entry_commit_late|done].
Qed.

Lemma settle_activation_ok id s w : entry_ok id [] (host w) -> host_ok (host (settle_activation id s w)).
Proof.
  intros He. apply entry_hand_on in He. unfold settle_activation. destruct s; simpl.
  - eapply finish_serving; [|apply app_nil_r]. by destruct He.
  - eapply finish_serving; [exact He|apply app_nil_r].
  - pose proof (finish_dead id _ (Activated (Err e) (outcome (host w))) _ None He (app_nil_r _) ltac:(done)) as Hok.
    pose proof (entry_alive _ _ _ He) as Hd. destruct (host w); simpl in *. by rewrite Hd.
Qed.

Lemma settle_restore_ok id s w : entry_ok id [] (host w) -> host_ok (host (settle_restore id s w)).
Proof.
  intros He. apply entry_commit_late, entry_hand_on in He. unfold settle_restore. destruct s; simpl.
  - eapply finish_serving; [exact He|apply app_nil_r].
  - eapply finish_serving; [exact He|apply app_nil_r].
  - eapply dead_ok; [exact He|]. intros. apply app_nil_r.
Qed.

Lemma end_ok e w w' : host_ok (host w) -> end_entry e w = Some w' -> host_ok (host w').
Proof.
  intros Hok He. unfold end_entry in He. destruct (spot (host w)) as [|id c x| |] eqn:Hs; try done.
  destruct (can_end c x e w); [|done]. pose proof (entry_of_ok id c x w Hok Hs) as Hent.
  assert ((forall n, c <> Deliver n.1.1.1 n.1.1.2 n.1.2 n.2) -> set_fuel u64_max (host w) = host w) as Hfuel.
  { intros Hc. pose proof (ok_fuel _ Hok) as Hf. rewrite Hs in Hf. destruct c; try (by destruct (host w); simpl in *; rewrite Hf).
    destruct (Hc (token, topic, payload, budget)). done. }
  destruct c; try discriminate He; injection He as <-;
    [apply settle_activation_ok|apply settle_probe_ok|apply settle_entry_ok|apply settle_entry_ok|apply settle_entry_ok
    |apply settle_probe_ok|apply settle_restore_ok]; try done; rewrite <-Hfuel; done.
Qed.

Lemma commit_late_ok w : spot (host w) = Serving -> host_ok (host w) -> host_ok (host (commit_late w)).
Proof.
  intros Hs []. destruct (commit_late_spec w) as (_ & Hb & Hg & Ha). unfold but_journal in Hb.
  split; [by apply Ha| | | | | | | |]; by rewrite ?Hg, Hb.
Qed.

Lemma answered_ok id c q r h :
  host_ok h -> queue h = (id, c) :: q -> (forall id c x, spot h <> InGuest id c x) -> given [(id, r)] = [] ->
  host_ok (reply id r (with_queue q h)).
Proof.
  intros [] Hq Hs Hg. split; simpl; try done.
  - by rewrite given_reply, Hg, app_nil_r.
  - unfold ids in *. simpl. rewrite Hq in ok_ids0. rewrite map_app. simpl in *. rewrite <-ok_ids0. solve_Permutation.
  - intros Hgone. by rewrite (ok_gone0 Hgone) in Hq.
Qed.

Lemma exit_ok h d :
  host_ok h -> (forall id c x, spot h <> InGuest id c x) -> (forall e, d = Some e -> Api.fiber e = seat_fiber seat) ->
  host_ok (exit (MkHostState (outcome h) (staging h) (staged h) (sealed h) (active h) (aborts h) d (fuel h)
    (queue h) (sent h) (spot h) (replies h) (unanswered h) (pushed h) (handed h))).
Proof.
  intros [] Hs Hd. split; simpl; try done.
  - unfold ids in *. simpl. assert (at_work (spot h) = []) as Hw by (destruct (spot h); try done; by edestruct Hs).
    rewrite Hw in ok_ids0. simpl in *. rewrite <-ok_ids0. solve_Permutation.
  - intros e He. split; [done|by apply Hd].
  - rewrite ok_fuel0. destruct (spot h); try done. by edestruct Hs.
Qed.

Lemma shutdown_ok id c q h :
  host_ok h -> queue h = (id, c) :: q -> (forall id c x, spot h <> InGuest id c x) ->
  host_ok (exit (MkHostState (outcome h) (staging h) (staged h) (sealed h) (active h) (aborts h) (deaths h) (fuel h) q
    (sent h) (spot h) (replies h) (unanswered h ++ [id]) (pushed h) (handed h))).
Proof.
  intros [] Hq Hs. split; simpl; try done.
  - unfold ids in *. simpl. assert (at_work (spot h) = []) as Hw by (destruct (spot h); try done; by edestruct Hs).
    rewrite Hw, Hq in ok_ids0. simpl in *. rewrite <-ok_ids0. solve_Permutation.
  - intros e He. split; [done|]. by apply ok_dead0.
  - rewrite ok_fuel0. destruct (spot h); try done. by edestruct Hs.
Qed.

Lemma entered_ok id c q h :
  host_ok h -> queue h = (id, c) :: q -> spot h = Serving -> enterable c ->
  host_ok (at_spot (InGuest id c None)
    (set_fuel (match c with Deliver _ _ _ (Some n) => n | _ => fuel h end) (with_queue q h))).
Proof.
  intros [] Hq Hs Hc. split; simpl; try done.
  - unfold ids in *. simpl. rewrite Hq, Hs in ok_ids0. simpl in *. rewrite <-ok_ids0. solve_Permutation.
  - intros _. apply ok_answers0. by rewrite Hs.
  - by intros ??? [= <- <- <-].
  - intros e He. destruct (ok_dead0 e He) as [Hg _]. by rewrite Hs in Hg.
  - rewrite ok_fuel0, Hs. by destruct c as [| | | |? ? ? [n|]| | | |].
Qed.

Lemma take_command_ok id c q w :
  host_ok (host w) -> queue (host w) = (id, c) :: q -> spot (host w) = Serving ->
  host_ok (host (take_command id c (with_host (with_queue q) w))).
Proof.
  intros Hok Hq Hs. assert (forall id c x, spot (host w) <> InGuest id c x) as Hout by (intros ???; by rewrite Hs).
  assert (enterable c -> host_ok (at_spot (InGuest id c None)
    (set_fuel (match c with Deliver _ _ _ (Some n) => n | _ => fuel (host w) end) (with_queue q (host w))))) as Hent
    by (intros; by apply entered_ok).
  assert (forall r, given [(id, r)] = [] -> host_ok (reply id r (with_queue q (host w)))) as Hrep
    by (intros; by eapply answered_ok).
  destruct c; simpl; try (by apply Hent); try (destruct (shut _); [by apply Hrep|]; try (by apply Hent)).
  - destruct budget; by apply Hent.
  - pose proof (Hrep Sealed eq_refl) as []. by split.
  - by eapply shutdown_ok.
Qed.

Lemma turn_host_ok w w' : host_ok (host w) -> turn w = Some w' -> host_ok (host w').
Proof.
  intros Hok Ht. unfold turn in Ht. destruct (spot (host w)) as [| |e|] eqn:Hs; try done.
  - assert (forall id c x, spot (host w) <> InGuest id c x) as Hout by (intros ???; by rewrite Hs).
    destruct (aborts (host w)) as [e|] eqn:Hab.
    { injection Ht as <-. unfold die. destruct (active (host w)); simpl.
      - apply (exit_ok (host w)); [done|done|]. by intros ? [= <-].
      - pose proof (exit_ok (host w) (deaths (host w)) Hok Hout) as He. destruct (host w). apply He. intros e' He'.
        by apply (ok_dead _ Hok). }
    destruct (staged (host w) && negb (staging (host w))) eqn:Hf.
    + injection Ht as <-. apply commit_late_ok; [done|]. apply andb_true_iff in Hf as [_ Hf].
      destruct Hok. split; simpl; try done. intros Hst. by rewrite Hst in Hf.
    + destruct (queue (host w)) as [|[id c] q] eqn:Hq; [done|]. injection Ht as <-. by apply take_command_ok.
  - assert (forall id c x, spot (host w) <> InGuest id c x) as Hout by (intros ???; by rewrite Hs).
    unfold refuse_next in Ht. destruct (queue (host w)) as [|[id c] q] eqn:Hq; [done|]. injection Ht as <-.
    destruct (refusal_of e c) as [r|] eqn:Hr; simpl.
    + eapply answered_ok; [done|done|done|]. by destruct c; simplify_eq/=.
    + by eapply shutdown_ok.
Qed.

Lemma send_ok c h h' : host_ok h -> send c h = Some h' -> host_ok h'.
Proof.
  intros [] Hs. unfold send in Hs.
  assert (forall l, l ≡ₚ seq 0 (sent h) -> l ++ [sent h] ≡ₚ seq 0 (S (sent h))) as Hseq.
  { intros l Hl. by rewrite seq_S, Hl. }
  destruct (spot h) eqn:Hsp; [case_decide; [|done]..|]; injection Hs as <-; split; simpl; try done; try (by rewrite Hsp);
    unfold ids in *; simpl; rewrite ?Hsp in *; simpl in *; rewrite <-(Hseq _ ok_ids0), ?map_app; simpl; solve_Permutation.
Qed.

Lemma step_host_ok w w' : host_ok (host w) -> step w w' -> host_ok (host w').
Proof.
  intros Hok Hs. destruct Hs as [w' Ht|h r w' Hc|a w' Hc|e w' He|c h Hc|e| |l].
  - by eapply turn_host_ok.
  - apply host_call_called in Hc as (id & c & Hs & Hc). by eapply called_ok.
  - by eapply crossing_ok.
  - by eapply end_ok.
  - by eapply send_ok.
  - destruct Hok. by split.
  - destruct Hok. by split.
  - done.
Qed.

Lemma running_host_ok w : running w -> host_ok (host w).
Proof.
  apply (reachable_invariant _ _ (fun w => host_ok (host w))); [|intros; by eapply step_host_ok].
  intros w0 (b & s & l & Hs & ->). split; try done; try (by destruct Hs as [->|[e ->]]).
Qed.

(** ** What the loop promises *)

Lemma handed_over_same w w1 w2 :
  handed_over w w1 -> outcome (host w2) = outcome (host w1) -> lane_slot (lane w2) = lane_slot (lane w1) -> handed_over w w2.
Proof. unfold handed_over. by intros Hh -> ->. Qed.

Lemma die_same e w :
  outcome (host (die e w).2) = outcome (host w) /\ lane_slot (lane (die e w).2) = lane_slot (lane w).
Proof. unfold die. by destruct (active (host w)). Qed.

Lemma dead_same id r e w :
  spot (host (dead id r e w)) = Gone /\ outcome (host (dead id r e w)) = outcome (host w) /\
  lane_slot (lane (dead id r e w)) = lane_slot (lane w) /\
  exists e', replies (host (dead id r e w)) = replies (host w) ++ [(id, r e')].
Proof. unfold dead, die. destruct (active (host w)); simpl; split_and!; try done; by eexists. Qed.

Lemma settle_entry_hands {T} id (r : result T KernelError -> Reply) s w :
  handed_over w (settle_entry id r s w).
Proof.
  destruct (commit_late_spec w) as (Hh & _). eapply handed_over_same; [exact Hh|..];
    unfold settle_entry; destruct s; try done; by destruct (dead_same id (fun e => r (Err e)) e (commit_late w)) as (_ & Ho & Hl & _).
Qed.

Lemma settle_probe_hands {T} id (r : result T KernelError -> Reply) s w :
  let w' := settle_probe id r s w in
  (spot (host w') = Serving /\ outcome (host w') = outcome (host w)) \/ (spot (host w') = Gone /\ handed_over w w').
Proof.
  simpl. destruct s; simpl; [by left..|right].
  destruct (dead_same id (fun e => r (Err e)) e (commit_late w)) as (Hg & Ho & Hl & _).
  split; [done|]. destruct (commit_late_spec w) as (Hh & _). by eapply handed_over_same.
Qed.

Lemma commit_late_replies w : replies (host (commit_late w)) = replies (host w).
Proof. destruct (commit_late_spec w) as (_ & Hb & _). unfold but_journal in Hb. by rewrite Hb. Qed.

Lemma settle_restore_hands id s w :
  exists w1 r, handed_over w w1 /\ replies (host (settle_restore id s w)) = replies (host w) ++ [(id, Restored r (outcome (host w1)))] /\
    outcome (host (settle_restore id s w)) = [] /\ lane_slot (lane (settle_restore id s w)) = lane_slot (lane w1).
Proof.
  exists (commit_late w). destruct (commit_late_spec w) as (Hh & _). rewrite <-(commit_late_replies w).
  unfold settle_restore. destruct s; simpl; [by eexists..|].
  destruct (dead_same id (fun e => Restored (Err e) (outcome (host (commit_late w)))) e
    (with_host (hand_on (Some id) (outcome (host (commit_late w)))) (commit_late w))) as (_ & Ho & Hl & e' & Hr).
  by eexists.
Qed.

(** C21: Every registration is handed on, once and in order. Whatever a guest does
    and whatever happens around it, what it registered is, up to the ids it is
    routed under, what callers were handed in their answers and journals were
    given, in order of registration, followed by what still waits. An activation
    hands everything to its caller; a call, a delivery, an undo and the commit of
    a staged seat hand everything that waits to the journal of the live seat,
    each listener and alarm routed, unless the seat is staged, has no slot or
    is not live, when all of it goes on waiting; [check] and [snapshot] hand
    nothing on unless they die. *)
Theorem every_registration_is_handed_on w :
  running w ->
  accounted (host w) /\ given (replies (host w)) = to_callers (handed (host w)) /\
  (forall id c x e w', spot (host w) = InGuest id c x -> end_entry e w = Some w' ->
     match c with
     | Activate _ =>
         exists r, replies (host w') = replies (host w) ++ [(id, Activated r (outcome (host w)))] /\ outcome (host w') = []
     | Restore _ =>
         exists w1 r, handed_over w w1 /\ replies (host w') = replies (host w) ++ [(id, Restored r (outcome (host w1)))] /\
           outcome (host w') = [] /\ lane_slot (lane w') = lane_slot (lane w1)
     | Check _ | Snapshot =>
         (spot (host w') = Serving /\ outcome (host w') = outcome (host w)) \/ (spot (host w') = Gone /\ handed_over w w')
     | _ => handed_over w w'
     end) /\
  (forall w', spot (host w) = Serving -> aborts (host w) = None -> staged (host w) = true -> staging (host w) = false ->
     turn w = Some w' -> handed_over w w').
Proof.
  intros Hrun. pose proof (running_host_ok w Hrun) as [Hacc Hgiv _ _ _ _ _ _]. split_and!; [done|done| |].
  - intros id c x e w' Hs He. unfold end_entry in He. rewrite Hs in He. destruct (can_end c x e w); [|done].
    destruct c; try discriminate He; injection He as <-.
    + unfold settle_activation. destruct (settled _ _ _ _); simpl; by eexists.
    + apply settle_probe_hands.
    + apply settle_entry_hands.
    + apply settle_entry_hands.
    + exact (settle_entry_hands id Answered _ (with_host (set_fuel u64_max) w)).
    + apply settle_probe_hands.
    + apply settle_restore_hands.
  - intros w' Hs Ha Hst Hsg Ht. unfold turn in Ht. rewrite Hs, Ha, Hst, Hsg in Ht. simpl in Ht. injection Ht as <-.
    exact (proj1 (commit_late_spec (with_host (set_staged false) w))).
Qed.

(** How many steps of its own a loop can still take. *)
Definition left (h : Host) : nat :=
  2 * length (queue h) + (if staged h then 1 else 0) +
  match spot h with InGuest _ _ _ => 2 | Serving => 1 | Refusing _ | Gone => 0 end.

(** Nothing to do until something arrives. *)
Definition idle (h : Host) : Prop :=
  queue h = [] /\
  match spot h with
  | Serving => aborts h = None /\ (staged h = true -> staging h = true)
  | Refusing _ | Gone => True
  | InGuest _ _ _ => False
  end.

Lemma commit_late_left w : left (host (commit_late w)) = left (host w).
Proof. destruct (commit_late_spec w) as (_ & Hb & _). unfold but_journal in Hb. unfold left. by rewrite Hb. Qed.

Lemma turn_left w w' : turn w = Some w' -> left (host w') < left (host w).
Proof.
  intros Ht. unfold turn in Ht. destruct (spot (host w)) as [| |e|] eqn:Hs; try done.
  - destruct (aborts (host w)) as [e|].
    { injection Ht as <-. unfold die, left. destruct (active (host w)); simpl; rewrite Hs; lia. }
    destruct (staged (host w) && negb (staging (host w))) eqn:Hf.
    + injection Ht as <-. rewrite commit_late_left. apply andb_true_iff in Hf as [Hf _]. unfold left. simpl. rewrite Hs, Hf. lia.
    + destruct (queue (host w)) as [|[id c] q] eqn:Hq; [done|]. injection Ht as <-. unfold left. rewrite Hq, Hs.
      destruct c as [| | | |? ? ? [n|]| | | |]; simpl; try destruct (shut _); simpl; rewrite ?Hs; lia.
  - unfold refuse_next in Ht. destruct (queue (host w)) as [|[id c] q] eqn:Hq; [done|]. injection Ht as <-.
    unfold left. rewrite Hq, Hs. destruct c; simpl; rewrite ?Hs; lia.
Qed.

Lemma dead_left id r e w : left (host (dead id r e w)) <= 1.
Proof. unfold dead, die, left. destruct (active (host w)); simpl; destruct (staged (host w)); lia. Qed.

Lemma end_left e w w' : end_entry e w = Some w' -> left (host w') < left (host w).
Proof.
  intros He. unfold end_entry in He. destruct (spot (host w)) as [|id c x| |] eqn:Hs; try done.
  destruct (can_end c x e w); [|done].
  assert (forall w1, queue (host w1) = queue (host w) -> staged (host w1) = staged (host w) ->
    left (host (serving w1)) < left (host w)) as Hserve by (intros w1 Hq Hst; unfold left; simpl; rewrite Hq, Hst, Hs; lia).
  assert (forall w1, left (host w1) <= 1 -> left (host w1) < left (host w)) as Hdead
    by (intros w1 H1; unfold left at 2; rewrite Hs; lia).
  assert (forall w1, queue (host (commit_late w1)) = queue (host w1) /\ staged (host (commit_late w1)) = staged (host w1)) as Hc.
  { intros w1. destruct (commit_late_spec w1) as (_ & Hb & _). unfold but_journal in Hb. by rewrite Hb. }
  destruct (Hc w) as [Hq1 Hs1]. destruct (Hc (with_host (set_fuel u64_max) w)) as [Hq2 Hs2].
  destruct c; try discriminate He; injection He as <-;
    unfold settle_activation, settle_probe, settle_entry, settle_restore; destruct (settled _ _ _ _);
    first [apply Hserve; done | apply Hdead, dead_left | apply Hdead; unfold left; simpl; destruct (staged (host w)); lia].
Qed.

Lemma step_left w w' : step w w' -> sent (host w') = sent (host w) -> left (host w') <= left (host w).
Proof.
  intros Hs Hsent. destruct Hs as [w' Ht|h r w' Hc|a w' Hc|e w' He|c h Hc|e| |l]; try done.
  - by apply Nat.lt_le_incl, turn_left.
  - apply host_call_called in Hc as (id & c & Hs & Hc). unfold left. inversion Hc; simpl; rewrite ?Hs; lia.
  - unfold crossing_answer in Hc. destruct (spot (host w)) as [|id c [x|]| |] eqn:Hs; try done. injection Hc as <-.
    unfold left. rewrite Hs. destruct a as [bytes|]; [|simpl; lia]. destruct (crossed x bytes) as [[r|]|]; simpl; lia.
  - by eapply Nat.lt_le_incl, end_left.
  - unfold send in Hc. simpl in Hsent. exfalso. destruct (spot (host w)); [case_decide; [|done]..|]; injection Hc as <-; simpl in Hsent; lia.
Qed.

(** C22: No caller of an instance waits for ever. Every command ever sent is in
    exactly one place: queued, in the guest, answered once, or left unanswered,
    when its caller reads at once that the instance is gone. None is left
    unanswered while the instance is not gone, and an
    instance that is gone holds none. Until nothing is left to do a step of the
    loop's own is there to take, in the guest at the latest its deadline, and
    each such step uses one up of a number that only a new command or a commit
    can raise. *)
Theorem no_caller_waits_for_ever w :
  running w ->
  ids (host w) ≡ₚ seq 0 (sent (host w)) /\
  (spot (host w) = Gone -> queue (host w) = []) /\
  (spot (host w) <> Gone -> unanswered (host w) = []) /\
  (idle (host w) \/ (exists w', turn w = Some w') \/ exists w', end_entry Elapsed w = Some w') /\
  (forall w', turn w = Some w' -> left (host w') < left (host w)) /\
  (forall e w', end_entry e w = Some w' -> left (host w') < left (host w)) /\
  (forall w', step w w' -> sent (host w') = sent (host w) -> left (host w') <= left (host w)).
Proof.
  intros Hrun. pose proof (running_host_ok w Hrun) as [_ _ Hids Hgone Hans Hent _ _ _].
  split_and!; [done|done|done| |apply turn_left|intros e w1; apply end_left|apply step_left].
  unfold idle, turn, end_entry. destruct (spot (host w)) as [|id c x|e|] eqn:Hs.
  - destruct (aborts (host w)) eqn:Ha; [right; left; by eexists|].
    destruct (staged (host w)) eqn:Hst, (staging (host w)) eqn:Hsg; simpl; try (right; left; by eexists);
      (destruct (queue (host w)) as [|[]]; [by left|right; left; by eexists]).
  - right. right. specialize (Hent id c x eq_refl). unfold can_end. destruct (aborts (host w)); destruct c; done || by eexists.
  - unfold refuse_next. destruct (queue (host w)) as [|[]]; [by left|right; left; by eexists].
  - left. by rewrite Hgone.
Qed.

(** ** What a host call does *)

(** The tables are as they were. *)
Record untouched (l l' : @Lane Callable Target) : Prop := {
  same_topics : lane_topics l' = lane_topics l;
  same_alarms : lane_alarms l' = lane_alarms l;
  same_services : Broker.state (lane_broker l') = Broker.state (lane_broker l);
  same_slot : lane_slot l' = lane_slot l;
}.

#[local] Instance untouched_refl : Reflexive untouched.
Proof. by split. Qed.

#[local] Instance untouched_trans : Transitive untouched.
Proof. intros l1 l2 l3 [] []. split; congruence. Qed.

(** The registration a call names, before it is routed. *)
Definition named (h : HostCall) : option Registration :=
  match h with
  | Register label token => Some (REffect label token)
  | Provide c => Some (RProvision c)
  | Listen topic token => Some (RListen (MkListen topic token None None))
  | ListenWithin topic token fuel => Some (RListen (MkListen topic token None (Some fuel)))
  | Alarm s token => Some (RAlarm (MkAlarm (alarm_label s) s token None))
  | Resolve _ | Emit _ | OneShot _ | Begin _ => None
  end.

(** The calls a sealed seat refuses. *)
Definition registering (h : HostCall) : bool := match h with Resolve _ | Emit _ => false | _ => true end.

(** A call's answer [r] and what it did, for the registration it names. *)
Definition does (reg : option Registration) (w : World) (p : result Z KernelError * World) : Prop :=
  match p.1, reg with
  | Err _, _ => outcome (host p.2) = outcome (host w) /\ untouched (lane w) (lane p.2)
  | Ok _, None => outcome (host p.2) = outcome (host w)
  | Ok _, Some reg =>
      exists x, outcome (host p.2) = outcome (host w) ++ [x] /\ unrouted x = reg /\
        if staging (host w) then x = reg /\ untouched (lane w) (lane p.2) else routed x
  end.

Lemma admit_untouched what w : untouched (lane w) (lane (admit_call what w).2).
Proof. unfold admit_call. by destruct (_ && _). Qed.

Lemma check_grant_untouched p c w : untouched (lane w) (lane (ask_broker (check_grant p c) w).2).
Proof. unfold ask_broker, on_broker, check_grant. simpl. by destruct (granted _ p c). Qed.

Lemma check_op_untouched p c o w : untouched (lane w) (lane (ask_broker (check_op p c o) w).2).
Proof. unfold ask_broker, on_broker, check_op. simpl. by destruct (op_allowed _ p c o). Qed.

Lemma provide_untouched p c f w e w' :
  ask_broker (Broker.provide p c f) w = (Err e, w') -> untouched (lane w) (lane w').
Proof.
  unfold ask_broker, on_broker, Broker.provide, check_grant. simpl. destruct (granted _ p c); simpl; [|by intros [= <- <-]].
  destruct (Broker.install _ _ _ _); by intros [= <- <-].
Qed.

Lemma resolve_untouched p c w e w' :
  ask_broker (broker_resolve p c) w = (Err e, w') -> untouched (lane w) (lane w').
Proof.
  unfold ask_broker, on_broker, broker_resolve, check_grant. simpl. destruct (granted _ p c); simpl; by intros [= <- <-].
Qed.

(** A call that goes through a door does what the rest of it does. *)
Lemma does_through reg w w1 p :
  host w1 = host w -> untouched (lane w) (lane w1) -> does reg w1 p -> does reg w p.
Proof.
  intros Hh Hl. unfold does. rewrite Hh. destruct (p.1), reg as [reg|]; [|done|intros []; split; [done|by etrans]..].
  intros (x & Ho & Hu & Hs). exists x. split_and!; [done|done|]. destruct (staging (host w)); [|done].
  destruct Hs. split; [done|by etrans].
Qed.

Ltac through t lh lu :=
  let Hh := fresh in let Hu := fresh in
  pose proof lh as Hh; pose proof lu as Hu; destruct t as [[?|?] ?]; simpl in Hh, Hu;
  [apply (does_through _ _ _ _ Hh Hu); clear Hh Hu | unfold does; simpl; rewrite Hh; done].
Ltac through_door :=
  match goal with
  | |- context [match admit_call ?what ?w with _ => _ end] => through (admit_call what w) (admit_call_host what w) (admit_untouched what w)
  | |- context [match ask_broker (check_grant ?p ?c) ?w with _ => _ end] =>
      through (ask_broker (check_grant p c) w) (ask_broker_host (check_grant p c) w) (check_grant_untouched p c w)
  | |- context [match ask_broker (check_op ?p ?c ?o) ?w with _ => _ end] =>
      through (ask_broker (check_op p c o) w) (ask_broker_host (check_op p c o) w) (check_op_untouched p c o w)
  end.

Lemma register_listener_does topic token budget w :
  does (Some (RListen (MkListen topic token None budget))) w (register_listener topic token budget w).
Proof.
  unfold register_listener. do 2 through_door. destruct (staging (host _)) eqn:Hst; unfold does; simpl; rewrite Hst.
  - by eexists.
  - eexists. split_and!; [done|done|by eexists].
Qed.

Lemma alarm_does s token w : does (Some (RAlarm (MkAlarm (alarm_label s) s token None))) w (alarm s token w).
Proof.
  unfold alarm. do 3 through_door. destruct (validate _ _); [|done].
  destruct (staging (host _)) eqn:Hst; unfold does; simpl; rewrite Hst; [by eexists|].
  eexists. split_and!; [done|done|by eexists].
Qed.

Lemma provide_does c w : does (Some (RProvision c)) w (provide c w).
Proof.
  unfold provide. through_door. destruct (staging (host _)) eqn:Hst.
  - through_door. unfold does. simpl. eexists. split_and!; [done|done|]. by case_match.
  - set (f := Broker.provide _ _ _). pose proof (ask_broker_host f w0) as Hh. destruct (ask_broker f w0) as [[?|e] w1] eqn:Hp; simpl in Hh.
    + unfold does. simpl. rewrite Hh. eexists. split_and!; [done|done|]. by rewrite Hst.
    + split; simpl; [by rewrite Hh|by eapply provide_untouched].
Qed.

(** A host call registers what it names, or refuses and leaves everything as it
    was. A call that succeeds adds the one registration it names and nothing
    else: on a live seat routed, on a staged one recorded with the tables
    untouched. Once the seat's journal is sealed every call that registers or
    has an effect is refused, on the record. *)
Theorem a_host_call_registers_what_it_names h w r w' :
  host_call h w = Some (r, w') ->
  does (named h) w (r, w') /\
  (has_slot seat = true -> Slot.sealed (lane_slot (lane w)) = true -> registering h = true ->
     exists e, r = Err e /\ last (trail (lane w')) = Some (ErrorRecorded e, None, seat_fiber seat)).
Proof.
  unfold host_call. destruct (spot (host w)) as [|id c [x|]| |] eqn:Hs; try done. intros [= He].
  split.
  - rewrite <-He. destruct h; simpl.
    + unfold register. through_door. unfold does. simpl. eexists. split_and!; [done|done|]. by case_match.
    + apply provide_does.
    + apply register_listener_does.
    + unfold listen_within. case_decide; [done|apply register_listener_does].
    + apply alarm_does.
    + destruct (ask_broker _ w) as [[?|e] w1] eqn:Hr; unfold does; simpl;
        pose proof (ask_broker_host (broker_resolve (peer seat) contract) w) as Hh; rewrite Hr in Hh; simpl in Hh; rewrite Hh; [done|].
      split; [done|by eapply resolve_untouched].
    + unfold emit_doors, reserve. destruct (reserved topic); [done|]. through_door. done.
    + unfold one_shot. through_door. done.
    + unfold begin_crossing. through_door. done.
  - intros Hslot Hsealed Hreg.
    assert (forall what, admit_call what w = (Err (sealed_refusal what), record (ErrorRecorded (sealed_refusal what)) w)) as Had
      by (intros what; unfold admit_call; by rewrite Hslot, Hsealed).
    assert (forall e, last (trail (lane (record (ErrorRecorded e) w))) = Some (ErrorRecorded e, None, seat_fiber seat)) as Hlast
      by (intros e; simpl; apply last_snoc).
    destruct h; try discriminate Hreg; simpl in He;
      unfold register, provide, register_listener, alarm, one_shot, begin_crossing, listen_within in He;
      try (case_decide; [injection He as <- <-; by eexists|]);
      unfold register_listener in He; rewrite Had in He; injection He as <- <-; by eexists.
Qed.

(** An instance dies once, on the record. Only an instance that activated and
    is over left a notice; it names the instance's fiber, and the step that left
    it recorded the same error last, under that fiber. *)
Theorem a_death_is_recorded w e :
  running w -> deaths (host w) = Some e -> spot (host w) = Gone /\ Api.fiber e = seat_fiber seat.
Proof. intros Hrun. apply (ok_dead _ (running_host_ok w Hrun)). Qed.
End Instances.

(** ** Examples *)

Module InstanceExample.
Import SlotExample.

(** The first seat's instance, its slot the provider's face 101. *)
Definition seat_of (slot : bool) : Seat := MkInstanceSeat 1 (Some f) 0 1 slot.

Inductive Move :=
  | MTurn | MCall (h : HostCall) | MAnswer (a : result Bytes KernelError) | MEnd (e : Ending) | MSend (c : Command)
  | MCommit | MSlot (x : @SharedSlot nat).

Definition move (s : Seat) (m : Move) (w : @World nat nat) : option World :=
  match m with
  | MTurn => turn 0 true s w
  | MCall h => snd <$> host_call 0 100 101 true s h w
  | MAnswer a => crossing_answer a w
  | MEnd e => end_entry 0 true s e w
  | MSend c => (fun h => MkWorld h (lane w)) <$> send c (host w)
  | MCommit => Some (with_host commit_seat w)
  | MSlot x => Some (with_lane (with_slot x (lane w)) w)
  end.

Fixpoint moves (s : Seat) (ms : list Move) (w : World) : option World :=
  match ms with [] => Some w | m :: ms => w ← move s m w; moves s ms w end.

Abbreviation run_of s := (running 0 100 101 true s).

Lemma move_running s m w w' : run_of s w -> move s m w = Some w' -> run_of s w'.
Proof.
  intros Hr Hm. eapply reachable_step; [exact Hr|]. destruct m; simpl in Hm.
  - by apply step_turns.
  - destruct (host_call _ _ _ _ _ _ _) as [[r w1]|] eqn:Hc; [|done]. injection Hm as <-. by eapply step_calls.
  - by eapply step_answers.
  - by eapply step_ends.
  - destruct (send c (host w)) as [h|] eqn:Hs; [|done]. injection Hm as <-. by eapply step_sends.
  - injection Hm as <-. apply step_commits.
  - injection Hm as <-. apply step_elsewhere.
Qed.

Lemma moves_running s ms w w' : run_of s w -> moves s ms w = Some w' -> run_of s w'.
Proof.
  revert w. induction ms as [|m ms IH]; intros w Hr Hm; simpl in Hm; [by injection Hm as <-|].
  destruct (move s m w) as [w1|] eqn:H1; [|done]. eapply IH; [|exact Hm]. by eapply move_running.
Qed.

Definition fresh (staged : bool) : @World nat nat := MkWorld (new_host staged Serving) empty.

Lemma fresh_running s staged : run_of s (fresh staged).
Proof. apply reachable_init. exists staged, Serving, empty. split; [by left|done]. Qed.

(** A live instance of a seat whose journal holds one effect. *)
Definition seated (i : nat) : @SharedSlot nat := MkSlot (Some (Slot.MkSeat i [REffect "timer" 5])) false false true.
Definition activation : list Move :=
  [MSend (Activate []); MTurn; MCall (Register "timer" 5); MEnd (Returns [] false); MSlot (seated 0)].
Definition called : list Move :=
  [MSend (HandleCall 2 "kv" "get" []); MTurn; MCall (Listen "kv" 9); MCall (Register "lease" 6)].

Definition journal (w : @World nat nat) : option (list Registration) :=
  registrations <$> current (lane_slot (lane w)).

(** What a call registers joins the journal, routed. *)
Lemma every_registration_is_handed_on_witness :
  exists w w', moves (seat_of true) (activation ++ called) (fresh false) = Some w /\
    end_entry 0 true (seat_of true) (Returns [] false) w = Some w' /\
    outcome (host w') = [] /\
    journal w' = Some [REffect "timer" 5; RListen (MkListen "kv" 9 (Some 1%Z) None); REffect "lease" 6].
Proof.
  destruct (moves (seat_of true) (activation ++ called) (fresh false)) as [w|] eqn:Hw; [|vm_compute in Hw; discriminate Hw].
  destruct (end_entry 0 true (seat_of true) (Returns [] false) w) as [w'|] eqn:He;
    [|vm_compute in Hw; injection Hw as <-; vm_compute in He; discriminate He].
  assert (spot (host w) = InGuest 1 (HandleCall 2 "kv" "get" []) None) as Hs
    by (vm_compute in Hw; injection Hw as <-; vm_compute; reflexivity).
  destruct (every_registration_is_handed_on 0 100 101 true (seat_of true) w
    (moves_running _ _ _ _ (fresh_running _ _) Hw)) as (_ & _ & Hend & _).
  pose proof (Hend _ _ _ _ _ Hs He) as Hh. exists w, w'. split; [reflexivity|]. split; [exact He|].
  vm_compute in Hw. injection Hw as <-. destruct Hh as (rs & _ & _ & Ho & _). split; [exact Ho|].
  vm_compute in He. injection He as <-. vm_compute. reflexivity.
Defined.

Lemma no_caller_waits_for_ever_witness :
  exists w, moves (seat_of true) (activation ++ called) (fresh false) = Some w /\
    ids (host w) ≡ₚ [0; 1] /\ exists w', end_entry 0 true (seat_of true) Elapsed w = Some w'.
Proof.
  destruct (moves (seat_of true) (activation ++ called) (fresh false)) as [w|] eqn:Hw; [|vm_compute in Hw; discriminate Hw].
  exists w. split; [reflexivity|].
  destruct (no_caller_waits_for_ever 0 100 101 true (seat_of true) w
    (moves_running _ _ _ _ (fresh_running _ _) Hw)) as (Hids & _ & _ & Hown & _).
  vm_compute in Hw. injection Hw as <-. split; [exact Hids|].
  destruct Hown as [[_ []]|[[w' Ht]|Hd]]; [vm_compute in Ht; discriminate Ht|exact Hd].
Defined.

(** A sealed journal refuses. *)
Lemma a_host_call_registers_what_it_names_witness :
  exists w w', moves (seat_of true) (activation ++ called ++ [MSlot (seal (seated 0))]) (fresh false) = Some w /\
    host_call 0 100 101 true (seat_of true) (Register "late" 7) w = Some (Err (sealed_refusal "effect"), w') /\
    outcome (host w') = outcome (host w).
Proof.
  destruct (moves (seat_of true) (activation ++ called ++ [MSlot (seal (seated 0))]) (fresh false)) as [w|] eqn:Hw;
    [|vm_compute in Hw; discriminate Hw].
  destruct (host_call 0 100 101 true (seat_of true) (Register "late" 7) w) as [[r w']|] eqn:Hc;
    [|vm_compute in Hw; injection Hw as <-; vm_compute in Hc; discriminate Hc].
  destruct (a_host_call_registers_what_it_names 0 100 101 true (seat_of true) (Register "late" 7) w r w' Hc) as [Hd _].
  assert (r = Err (sealed_refusal "effect")) as ->
    by (vm_compute in Hw; injection Hw as <-; vm_compute in Hc; injection Hc as <- _; vm_compute; reflexivity).
  exists w, w'. split; [reflexivity|]. split; [exact Hc|exact (proj1 Hd)].
Defined.

(** What [check] registers is left behind by the seal that follows. *)
Example a_seal_leaves_what_a_check_registered :
  (fun w => (outcome (host w), journal w, replies (host w))) <$>
    moves (seat_of true)
      (activation ++ [MSend (Check 2); MTurn; MCall (Register "probe" 8); MEnd (Returns [] true); MSend Seal; MTurn]) (fresh false) =
  Some ([REffect "probe" 8], Some [REffect "timer" 5],
        [(0, Activated (Ok ()) [REffect "timer" 5]); (1, Vital true); (2, Sealed)]).
Proof. vm_compute. reflexivity. Qed.

(** So is what a delivery registers before the seat is installed. *)
Example a_seal_leaves_what_came_before_the_seat :
  (fun w => (outcome (host w), journal w)) <$>
    moves (seat_of true)
      ([MSend (Activate []); MTurn; MEnd (Returns [] false); MSend (Deliver 3 "tick" [] None); MTurn; MCall (Register "lease" 6);
        MEnd (Returns [] false); MSlot (seated 0); MSend Seal; MTurn]) (fresh false) =
  Some ([REffect "lease" 6], Some [REffect "timer" 5]).
Proof. vm_compute. reflexivity. Qed.

(** A swapped-in instance has no slot: committed, it keeps what it registers
    late, and the journal its seat is closed over never holds it. *)
Example a_swapped_instance_keeps_what_it_registers :
  (fun w => (staging (host w), outcome (host w), journal w)) <$>
    moves (seat_of false) (activation ++ [MCommit; MTurn] ++ called ++ [MEnd (Returns [] false); MSend Seal; MTurn]) (fresh true) =
  Some (false, [RListen (MkListen "kv" 9 (Some 1%Z) None); REffect "lease" 6], Some [REffect "timer" 5]).
Proof. vm_compute. reflexivity. Qed.

(** What a displaced instance registers in a call that outlives the commit joins
    the journal of its successor, which will be asked to undo it. *)
Example a_displaced_call_registers_with_its_successor :
  (fun w => current (lane_slot (lane w))) <$>
    moves (seat_of true) (activation ++ called ++ [MSlot (seated 1); MEnd (Returns [] false)]) (fresh false) =
  Some (Some (Slot.MkSeat 1 [REffect "timer" 5; RListen (MkListen "kv" 9 (Some 1%Z) None); REffect "lease" 6])).
Proof. vm_compute. reflexivity. Qed.

(** A provision recorded while staged, after the activation, is journaled and
    never provided. *)
Example a_staged_provision_is_never_provided :
  (fun w => (journal w, Broker.providers (Broker.state (lane_broker (lane w))) !! "kv")) <$>
    moves (seat_of true)
      (activation ++ [MSend (Deliver 3 "tick" [] None); MTurn; MCall (Provide "kv"); MEnd (Returns [] false); MCommit; MTurn])
      (fresh true) =
  Some (Some [REffect "timer" 5; RProvision "kv"], None).
Proof. vm_compute. reflexivity. Qed.

(** An abort interrupts the entry that runs, and everything queued goes
    unanswered. *)
Example an_abort_ends_everything :
  (fun w => (spot (host w), deaths (host w), unanswered (host w))) <$>
    (w ← moves (seat_of true) (activation ++ called ++ [MSend Snapshot]) (fresh false);
     end_entry 0 true (seat_of true) (Returns [] false) (with_host (abort hung) w)) =
  Some (Gone, Some (MkKernelError PluginFailed "guest exceeded its call deadline" (Some f)), [2]).
Proof. vm_compute. reflexivity. Qed.
End InstanceExample.
