(* ===== verification/Json.v ===== *)
(** * JSON values ([serde_json::Value], as [jinnd-daemon] uses it)

    The values a profile config is made of, their objects as entries in key
    order, and the merge-patch of RFC 7396 ([daemon/profile_cap/patch.rs]).
    Reading and writing JSON text is the library's: a class. *)

From Stdlib Require Import Ascii.
From stdpp Require Import base countable list strings sorting.
From S2P Require Import Prelude Api Entries Disk Spill Document.

(** ** Values *)

(** A number is a [u64], a negative [i64], or a double by its text. *)
Inductive Number := PosInt (n : N) | NegInt (n : Z) | Float (text : string).

#[export] Instance Number_eq_dec : EqDecision Number.
Proof. solve_decision. Defined.

Inductive Json :=
  | JNull
  | JBool (b : bool)
  | JNumber (n : Number)
  | JString (s : string)
  | JArray (items : list Json)
  | JObject (fields : list (string * Json)).

(** Reading and writing text ([Display], [from_str], [from_slice]). *)
Class JsonText := {
  json_text : Json -> string;
  json_parse : string -> result Json string;
  json_slice : list Z -> result Json string;
}.

(** What is written reads back. *)
Class JsonTextLaws (J : JsonText) : Prop := { json_parse_text v : json_parse (json_text v) = Ok v }.

(** The induction that goes under arrays and objects. *)
Section JsonInduction.
Context (P : Json -> Prop).
Context (Hnull : P JNull) (Hbool : forall b, P (JBool b)) (Hnumber : forall n, P (JNumber n)) (Hstring : forall s, P (JString s)).
Context (Harray : forall items, Forall P items -> P (JArray items)).
Context (Hobject : forall fields, Forall (fun f => P f.2) fields -> P (JObject fields)).

Fixpoint json_induction (v : Json) : P v :=
  match v with
  | JNull => Hnull
  | JBool b => Hbool b
  | JNumber n => Hnumber n
  | JString s => Hstring s
  | JArray items =>
      Harray items ((fix all l := match l return Forall P l with
                                  | [] => List.Forall_nil _
                                  | x :: l => List.Forall_cons _ _ _ (json_induction x) (all l)
                                  end) items)
  | JObject fields =>
      Hobject fields ((fix all l := match l return Forall (fun f : string * Json => P f.2) l with
                                    | [] => List.Forall_nil _
                                    | x :: l => List.Forall_cons _ _ _ (json_induction x.2) (all l)
                                    end) fields)
  end.
End JsonInduction.

(** [PartialEq]. *)
Fixpoint json_eqb (a b : Json) : bool :=
  match a, b with
  | JNull, JNull => true
  | JBool x, JBool y => bool_decide (x = y)
  | JNumber x, JNumber y => bool_decide (x = y)
  | JString x, JString y => bool_decide (x = y)
  | JArray xs, JArray ys =>
      (fix all xs ys := match xs, ys with
                        | [], [] => true
                        | x :: xs, y :: ys => json_eqb x y && all xs ys
                        | _, _ => false
                        end) xs ys
  | JObject xs, JObject ys =>
      (fix all (xs ys : list (string * Json)) := match xs, ys with
                        | [], [] => true
                        | x :: xs, y :: ys => bool_decide (x.1 = y.1) && json_eqb x.2 y.2 && all xs ys
                        | _, _ => false
                        end) xs ys
  | _, _ => false
  end.

Lemma json_eqb_eq a b : json_eqb a b = true <-> a = b.
Proof.
  revert b. induction a as [|x|x|x|xs IH|xs IH] using json_induction; intros [|y|y|y|ys|ys]; cbn; try (split; congruence).
  1-3: rewrite bool_decide_eq_true; split; congruence.
  - revert ys. induction IH as [|x xs Hx _ IH]; intros [|y ys]; try (split; congruence).
    rewrite andb_true_iff, Hx, IH. split; [intros [-> [= ->]]; done|by intros [= -> ->]].
  - revert ys. induction IH as [|[k x] xs Hx _ IH]; intros [|[k' y] ys]; try (split; congruence).
    cbn in *. rewrite !andb_true_iff, bool_decide_eq_true, Hx, IH.
    split; [intros [[-> ->] [= ->]]; done|by intros [= -> -> ->]].
Qed.

#[export] Instance Json_eq_dec : EqDecision Json.
Proof. intros a b. destruct (json_eqb a b) eqn:E; [left|right]; rewrite <-json_eqb_eq; congruence. Defined.

(** ** Objects *)

(** [Map::get], [Map::remove]. *)
Fixpoint field_of {A} (k : string) (fields : list (string * A)) : option A :=
  match fields with
  | [] => None
  | (k', v) :: fields => if decide (k' = k) then Some v else field_of k fields
  end.

Fixpoint without {A} (k : string) (fields : list (string * A)) : list (string * A) :=
  match fields with
  | [] => []
  | (k', v) :: fields => if decide (k' = k) then without k fields else (k', v) :: without k fields
  end.

(** [Value::get], [as_str], [as_array], [is_object]. *)
Definition json_get (k : string) (v : Json) : option Json := match v with JObject fields => field_of k fields | _ => None end.
Definition as_str (v : Json) : option string := match v with JString s => Some s | _ => None end.
Definition as_array (v : Json) : option (list Json) := match v with JArray items => Some items | _ => None end.
Definition as_bool (v : Json) : option bool := match v with JBool b => Some b | _ => None end.
Definition is_object (v : Json) : bool := match v with JObject _ => true | _ => false end.

(** [value[key] = x]: null becomes an object, anything else panics. *)
Definition index_assign (k : string) (x v : Json) : option Json :=
  match v with
  | JNull => Some (JObject [(k, x)])
  | JObject fields => Some (JObject (btree_insert k x fields))
  | _ => None
  end.

(** *** The order of keys *)

Lemma compare_self k : String.compare k k = Eq.
Proof. pose proof (String.compare_antisym k k) as E. by destruct (String.compare k k). Qed.

Lemma string_lt_trans a b c : string_lt a b -> string_lt b c -> string_lt a c.
Proof.
  unfold string_lt. revert b c. induction a as [|x a IH]; intros [|y b] [|z c]; cbn; try done.
  unfold Ascii.compare. destruct (N.compare_spec (Ascii.N_of_ascii x) (Ascii.N_of_ascii y)) as [E|E|E]; [| |done];
    destruct (N.compare_spec (Ascii.N_of_ascii y) (Ascii.N_of_ascii z)) as [E'|E'|E']; try done.
  - rewrite E, E', N.compare_refl. apply IH.
  - intros _ _. by rewrite (proj2 (N.compare_lt_iff _ _)) by (rewrite E; done).
  - intros _ _. by rewrite (proj2 (N.compare_lt_iff _ _)) by (rewrite <-E'; done).
  - intros _ _. by rewrite (proj2 (N.compare_lt_iff _ _)) by (by etransitivity).
Qed.

Lemma string_lt_irrefl a : ~ string_lt a a.
Proof. unfold string_lt. by rewrite compare_self. Qed.

Section Fields.
Context {A : Type}.
Implicit Types (l : list (string * A)) (k : string).

Lemma field_insert_eq k v l : field_of k (btree_insert k v l) = Some v.
Proof.
  induction l as [|[k' v'] l IH]; cbn; [by rewrite decide_True|].
  destruct (String.compare k k') eqn:E; cbn; [by rewrite decide_True|by rewrite decide_True|].
  rewrite decide_False; [done|]. intros ->. by rewrite compare_self in E.
Qed.

Lemma field_insert_ne k j v l : j <> k -> field_of j (btree_insert k v l) = field_of j l.
Proof.
  intros Hne. induction l as [|[k' v'] l IH]; cbn; [by rewrite decide_False by done|].
  destruct (String.compare k k') eqn:E; cbn.
  - apply String.compare_eq_iff in E as <-. by rewrite !decide_False by done.
  - by rewrite (decide_False (P := k = j)) by done.
  - by rewrite IH.
Qed.

Lemma field_without_eq k l : field_of k (without k l) = None.
Proof. induction l as [|[k' v'] l IH]; cbn; [done|]. case_decide; [done|]. cbn. by rewrite decide_False by done. Qed.

Lemma field_without_ne k j l : j <> k -> field_of j (without k l) = field_of j l.
Proof.
  intros Hne. induction l as [|[k' v'] l IH]; cbn; [done|]. repeat case_decide; cbn; rewrite ?IH; try congruence.
  - by rewrite decide_True by done.
  - by rewrite decide_False by done.
Qed.

Lemma field_of_elem k v l : field_of k l = Some v -> (k, v) ∈ l.
Proof.
  induction l as [|[k' v'] l IH]; cbn; [done|]. case_decide as Hk; [intros [= ->]; subst; apply list_elem_of_here|].
  intros Hf. apply list_elem_of_further, IH, Hf.
Qed.

Lemma field_of_key k v l : field_of k l = Some v -> k ∈ map fst l.
Proof. intros Hf. apply list_elem_of_fmap. exists (k, v). split; [done|by apply field_of_elem]. Qed.

(** *** Objects keep their keys in order *)

Lemma key_sorted_cons k v l : key_sorted ((k, v) :: l) <-> key_sorted l /\ forall j, j ∈ map fst l -> string_lt k j.
Proof. unfold key_sorted. cbn. rewrite StronglySorted_cons, Forall_forall. tauto. Qed.

Lemma keys_insert j k v l : j ∈ map fst (btree_insert k v l) -> j = k \/ j ∈ map fst l.
Proof.
  induction l as [|[k' v'] l IH]; cbn; [rewrite list_elem_of_singleton; auto|].
  destruct (String.compare k k') eqn:E; cbn.
  - apply String.compare_eq_iff in E as <-. rewrite !elem_of_cons. naive_solver.
  - rewrite !elem_of_cons. naive_solver.
  - rewrite !elem_of_cons. naive_solver.
Qed.

Lemma insert_sorted k v l : key_sorted l -> key_sorted (btree_insert k v l).
Proof.
  induction l as [|[k' v'] l IH]; intros Hs; cbn; [apply key_sorted_cons; split; [done|]; intros j Hj; by apply elem_of_nil in Hj|].
  pose proof Hs as Hs0. apply key_sorted_cons in Hs as [Hs Hk]. destruct (String.compare k k') eqn:E.
  - apply String.compare_eq_iff in E as <-. by apply key_sorted_cons.
  - apply key_sorted_cons. split; [done|]. cbn. intros j Hj. apply elem_of_cons in Hj as [->|Hj]; [done|].
    eapply string_lt_trans; [exact E|auto].
  - apply key_sorted_cons. split; [auto|]. intros j Hj. apply keys_insert in Hj as [->|Hj]; [|auto].
    unfold string_lt. by rewrite String.compare_antisym, E.
Qed.

Lemma keys_without j k l : j ∈ map fst (without k l) -> j ∈ map fst l.
Proof. induction l as [|[k' v'] l IH]; cbn; [done|]. case_decide; cbn; rewrite !elem_of_cons; naive_solver. Qed.

Lemma without_sorted k l : key_sorted l -> key_sorted (without k l).
Proof.
  induction l as [|[k' v'] l IH]; intros Hs; cbn; [done|]. apply key_sorted_cons in Hs as [Hs Hk]. case_decide; [auto|].
  apply key_sorted_cons. split; [auto|]. intros j Hj. by eapply Hk, keys_without.
Qed.

Lemma field_of_sorted k v l : key_sorted l -> (k, v) ∈ l -> field_of k l = Some v.
Proof.
  induction l as [|[k' v'] l IH]; intros Hs Hin; [by apply elem_of_nil in Hin|]. apply key_sorted_cons in Hs as [Hs Hk]. cbn.
  apply elem_of_cons in Hin as [[= -> ->]|Hin]; [by rewrite decide_True|]. rewrite decide_False; [auto|]. intros ->.
  apply (string_lt_irrefl k), Hk, list_elem_of_fmap. by exists (k, v).
Qed.

(** Objects with the same fields are the same. *)
Lemma fields_ext l l' : key_sorted l -> key_sorted l' -> (forall k, field_of k l = field_of k l') -> l = l'.
Proof.
  assert (forall k (l : list (string * A)), (forall j, j ∈ map fst l -> string_lt k j) -> field_of k l = None) as Hbelow.
  { intros k m Hm. destruct (field_of k m) as [v|] eqn:E; [|done]. apply field_of_key in E. by destruct (string_lt_irrefl k (Hm k E)). }
  revert l'. induction l as [|[k v] l IH]; intros [|[k' v'] l'] Hs Hs' Hext; [done| | |].
  - specialize (Hext k'). cbn in Hext. by rewrite decide_True in Hext.
  - specialize (Hext k). cbn in Hext. by rewrite decide_True in Hext.
  - apply key_sorted_cons in Hs as [Hs Hk]. apply key_sorted_cons in Hs' as [Hs' Hk'].
    assert (k = k') as <-.
    { destruct (decide (k = k')) as [|Hne]; [done|]. exfalso.
      pose proof (Hext k) as E. pose proof (Hext k') as E'. cbn in E, E'.
      rewrite (decide_True (P := k = k)) in E by done. rewrite (decide_False (P := k' = k)) in E by congruence.
      rewrite (decide_True (P := k' = k')) in E' by done. rewrite (decide_False (P := k = k')) in E' by done.
      apply eq_sym, field_of_key in E. apply field_of_key in E'.
      apply (string_lt_irrefl k). eapply string_lt_trans; [apply Hk, E'|apply Hk', E]. }
    pose proof (Hext k) as E. cbn in E. rewrite !decide_True in E by done. injection E as <-. f_equal.
    apply IH; [done..|]. intros j. specialize (Hext j). cbn in Hext. case_decide as Hj; [|done]. subst j.
    by rewrite !Hbelow.
Qed.
End Fields.

(** A value whose objects are in key order, at every depth. *)
Fixpoint ordered (v : Json) : Prop :=
  match v with
  | JArray items => (fix all l := match l with [] => True | x :: l => ordered x /\ all l end) items
  | JObject fields => key_sorted fields /\ (fix all (l : list (string * Json)) := match l with [] => True | f :: l => ordered f.2 /\ all l end) fields
  | _ => True
  end.

Lemma ordered_object fields : ordered (JObject fields) <-> key_sorted fields /\ forall k v, (k, v) ∈ fields -> ordered v.
Proof.
  cbn. split; intros [Hs Hall]; (split; [done|]); clear Hs.
  - induction fields as [|f fields IH]; intros k v Hin; [by apply elem_of_nil in Hin|]. destruct Hall as [Hf Hall].
    apply elem_of_cons in Hin as [<-|Hin]; [done|]. by apply (IH Hall k).
  - induction fields as [|[k v] fields IH]; [done|]. split; [apply (Hall k); apply list_elem_of_here|].
    apply IH. intros j u Hin. apply (Hall j). by apply list_elem_of_further.
Qed.

(** ** Merge-patch ([merge_patch]) *)

Definition fields_or_none (v : Json) : list (string * Json) := match v with JObject fields => fields | _ => [] end.

Fixpoint merge_patch (target patch : Json) {struct patch} : Json :=
  match patch with
  | JObject fields =>
      JObject ((fix each (fields existing : list (string * Json)) := match fields with
                | [] => existing
                | (key, value) :: fields =>
                    each fields (match value with
                                 | JNull => without key existing
                                 | _ => btree_insert key (merge_patch (default JNull (field_of key existing)) value) existing
                                 end)
                end) fields (fields_or_none target))
  | _ => patch
  end.

Definition merge_field (key : string) (value : Json) (existing : list (string * Json)) : list (string * Json) :=
  match value with
  | JNull => without key existing
  | _ => btree_insert key (merge_patch (default JNull (field_of key existing)) value) existing
  end.

Lemma merge_object target fields :
  merge_patch target (JObject fields) = JObject (fold_left (fun existing f => merge_field f.1 f.2 existing) fields (fields_or_none target)).
Proof.
  cbn. f_equal. generalize (fields_or_none target). induction fields as [|[k v] fields IH]; intros existing; [done|].
  cbn [fold_left]. rewrite <-IH. by destruct v.
Qed.

(** What a patch asks of one field. *)
Definition patched (target : option Json) (patch : option Json) : option Json :=
  match patch with
  | None => target
  | Some JNull => None
  | Some v => Some (merge_patch (default JNull target) v)
  end.

Lemma merge_field_lookup k v j existing :
  field_of j (merge_field k v existing) = if decide (j = k) then patched (field_of k existing) (Some v) else field_of j existing.
Proof.
  unfold merge_field. case_decide as Hj; [subst j|].
  - destruct v; cbn [patched]; by rewrite ?field_without_eq, ?field_insert_eq.
  - destruct v; by rewrite ?field_without_ne, ?field_insert_ne.
Qed.

Lemma merge_fields_lookup fields existing j :
  key_sorted fields ->
  field_of j (fold_left (fun existing f => merge_field f.1 f.2 existing) fields existing) =
  patched (field_of j existing) (field_of j fields).
Proof.
  revert existing. induction fields as [|[k v] fields IH]; intros existing Hs; [done|]. cbn [fold_left].
  apply key_sorted_cons in Hs as [Hs Hk]. rewrite IH by done. rewrite merge_field_lookup. cbn.
  destruct (decide (j = k)) as [->|Hne]; [|by rewrite (decide_False (P := k = j))].
  rewrite decide_True by done. destruct (field_of k fields) as [u|] eqn:E; [|done].
  apply field_of_key in E. by destruct (string_lt_irrefl k (Hk k E)).
Qed.

Lemma merge_fields_sorted fields existing :
  key_sorted existing -> key_sorted (fold_left (fun existing f => merge_field f.1 f.2 existing) fields existing).
Proof.
  revert existing. induction fields as [|[k v] fields IH]; intros existing Hs; [done|]. cbn [fold_left]. apply IH.
  unfold merge_field. destruct v; by (apply without_sorted || apply insert_sorted).
Qed.

Lemma ordered_fields v : ordered v -> key_sorted (fields_or_none v) /\ forall k u, field_of k (fields_or_none v) = Some u -> ordered u.
Proof.
  destruct v as [| | | | |fields]; cbn [fields_or_none]; try (split; [by constructor|done]).
  intros [Hs Hall]%ordered_object. split; [done|]. intros k u Hk. by eapply Hall, field_of_elem.
Qed.

(** The field of a merge is what the patch asks of it, whatever is nested. *)
Lemma merge_get target fields k :
  key_sorted fields -> json_get k (merge_patch target (JObject fields)) = patched (json_get k target) (field_of k fields).
Proof. intros Hs. rewrite merge_object. cbn. rewrite merge_fields_lookup by done. by destruct target. Qed.

(** Merging a patch again changes nothing. *)
Lemma merge_patch_idempotent patch target :
  ordered patch -> ordered target -> merge_patch (merge_patch target patch) patch = merge_patch target patch.
Proof.
  revert target. induction patch as [| | | | |fields IH] using json_induction; intros target Hp Ht; try done.
  apply ordered_object in Hp as [Hs Hall]. destruct (ordered_fields target Ht) as [Hts Htall].
  rewrite !merge_object. cbn [fields_or_none]. f_equal. apply fields_ext; [by do 2 apply merge_fields_sorted|by apply merge_fields_sorted|].
  intros k. rewrite !merge_fields_lookup by done. destruct (field_of k fields) as [v|] eqn:Hv; [|done].
  pose proof (field_of_elem _ _ _ Hv) as Hin. rewrite Forall_forall in IH. specialize (IH _ Hin). cbn in IH.
  assert (ordered (default JNull (field_of k (fields_or_none target)))) as Hord.
  { destruct (field_of k (fields_or_none target)) eqn:E; [by eapply Htall|done]. }
  specialize (IH _ (Hall k v Hin) Hord). destruct v; [done|..]; exact (f_equal Some IH).
Qed.

Lemma merge_ordered patch target : ordered patch -> ordered target -> ordered (merge_patch target patch).
Proof.
  revert target. induction patch as [| | | | |fields IH] using json_induction; intros target Hp Ht; try done.
  apply ordered_object in Hp as [Hs Hall]. destruct (ordered_fields target Ht) as [Hts Htall].
  rewrite merge_object. apply ordered_object. split; [by apply merge_fields_sorted|]. intros k v Hin.
  assert (field_of k (fold_left (fun existing f => merge_field f.1 f.2 existing) fields (fields_or_none target)) = Some v) as Hk.
  { assert (key_sorted (fold_left (fun existing f => merge_field f.1 f.2 existing) fields (fields_or_none target))) as Hss
      by (by apply merge_fields_sorted). by apply field_of_sorted. }
  rewrite merge_fields_lookup in Hk by done. rewrite Forall_forall in IH.
  destruct (field_of k fields) as [u|] eqn:Hu; [|by eapply Htall].
  pose proof (field_of_elem _ _ _ Hu) as Hinu. specialize (IH _ Hinu). cbn in IH.
  assert (ordered (default JNull (field_of k (fields_or_none target)))) as Hord.
  { destruct (field_of k (fields_or_none target)) eqn:E; [by eapply Htall|done]. }
  specialize (IH _ (Hall k u Hinu) Hord). destruct u; cbn [patched] in Hk; try done; injection Hk as <-; exact IH.
Qed.

(** ** Examples *)

Module JsonExample.
Import SpillExample.
Local Open Scope string_scope.

(** A text for every value: the bits of its number. *)
Definition Leaf : Type := () + bool + (N + Z + string) + string.

Fixpoint to_tree (v : Json) : gen_tree Leaf :=
  match v with
  | JNull => GenLeaf (inl (inl (inl ())))
  | JBool b => GenLeaf (inl (inl (inr b)))
  | JNumber (PosInt n) => GenLeaf (inl (inr (inl (inl n))))
  | JNumber (NegInt n) => GenLeaf (inl (inr (inl (inr n))))
  | JNumber (Float n) => GenLeaf (inl (inr (inr n)))
  | JString s => GenLeaf (inr s)
  | JArray items => GenNode 0 (map to_tree items)
  | JObject fields => GenNode 1 (map (fun f => GenNode 2 [GenLeaf (inr f.1); to_tree f.2]) fields)
  end.

Fixpoint of_tree (t : gen_tree Leaf) : Json :=
  match t with
  | GenLeaf (inl (inl (inl _))) => JNull
  | GenLeaf (inl (inl (inr b))) => JBool b
  | GenLeaf (inl (inr (inl (inl n)))) => JNumber (PosInt n)
  | GenLeaf (inl (inr (inl (inr n)))) => JNumber (NegInt n)
  | GenLeaf (inl (inr (inr n))) => JNumber (Float n)
  | GenLeaf (inr s) => JString s
  | GenNode 0 items => JArray (map of_tree items)
  | GenNode _ fields =>
      JObject (map (fun t => match t with GenNode _ [GenLeaf (inr k); v] => (k, of_tree v) | _ => ("", JNull) end) fields)
  end.

Lemma of_to_tree v : of_tree (to_tree v) = v.
Proof.
  induction v as [| |[]| |items IH|fields IH] using json_induction; try done; cbn; f_equal.
  - induction IH as [|x items Hx _ IH]; cbn; [done|]. by rewrite Hx, IH.
  - induction IH as [|[k x] fields Hx _ IH]; cbn in *; [done|]. by rewrite Hx, IH.
Qed.

#[export] Instance json_countable : Countable Json := inj_countable' to_tree of_tree of_to_tree.

Fixpoint pos_text (p : positive) : string :=
  match p with xH => "" | xO p => String "0" (pos_text p) | xI p => String "1" (pos_text p) end.

Fixpoint text_pos (s : string) : positive :=
  match s with
  | EmptyString => xH
  | String c s => if decide (c = "1"%char) then xI (text_pos s) else xO (text_pos s)
  end.

Lemma text_pos_text p : text_pos (pos_text p) = p.
Proof. induction p as [p IH|p IH|]; cbn; [by rewrite IH..|done]. Qed.

Definition of_bits (s : string) : result Json string :=
  match decode (text_pos s) with Some v => Ok v | None => Err "not a value" end.

#[export] Instance bits_text : JsonText :=
  { json_text v := pos_text (encode v); json_parse := of_bits; json_slice bytes := of_bits (text_of bytes) }.

#[export] Instance bits_text_laws : JsonTextLaws bits_text.
Proof. split. intros v. unfold json_parse, json_text, bits_text, of_bits. by rewrite text_pos_text, decode_encode. Qed.

(** The example of RFC 7396. *)
Example a_merge_patch :
  merge_patch (JObject [("a", JString "b"); ("c", JObject [("d", JString "e"); ("f", JString "g")])])
    (JObject [("a", JString "z"); ("c", JObject [("f", JNull)])]) =
  JObject [("a", JString "z"); ("c", JObject [("d", JString "e")])].
Proof. by vm_compute. Qed.
End JsonExample.
