(* ===== verification/Profile.v ===== *)
(** * The profile contract ([jinnd-daemon/src/seat.rs], [seat/declaration.rs],
    [daemon/wire.rs], [daemon/profile_read.rs], [daemon/profile_cap.rs],
    [profile_cap/patch.rs])

    How a profile config is read as grants and injects, what the daemon decides
    of a patched config before it commits, the reads a viewer is answered, and a
    patch: from the request of a plugin to the amendment of the loader and its
    row on the record. *)

From stdpp Require Import base gmap sets list strings pretty.
From S2P Require Import Prelude Api Grants Broker Seat Disk Spill Wire Entries Diff Quarantine Document Loader Amend Json.

(** ** Seats ([seat.rs]) *)

Section Seats.
Context `{JsonText}.
Local Open Scope string_scope.

Fixpoint scope_value (v : Json) : ScopeValue :=
  match v with
  | JNumber (PosInt floor) => Rate floor
  | JString path => PathScope path
  | JArray items => ScopeList (map scope_value items)
  | JObject fields => ScopeMap (map (fun f => (f.1, scope_value f.2)) fields)
  | JNull | JBool _ | JNumber _ => Grants.Malformed (json_text v)
  end.

(** A scope or an operation class that is written: null is none. *)
Definition written_scope (key : string) (fields : list (string * Json)) : option ScopeValue :=
  match field_of key fields with
  | None | Some JNull => None
  | Some v => Some (scope_value v)
  end.

Definition read_grant (v : Json) : result Grant string :=
  match v with
  | JString contract => Ok (MkGrant contract None None)
  | JObject fields =>
      match (name ← field_of "contract" fields; as_str name) with
      | Some contract => Ok (MkGrant contract (written_scope "scope" fields) (written_scope "ops" fields))
      | None => Err ("grant entry names no contract: " +:+ json_text v)
      end
  | other => Err ("not a grant entry: " +:+ json_text other)
  end.

(** What was read, and what could not be, each in the order it was written. *)
Fixpoint read_each {A} (read : Json -> result A string) (items : list Json) : list A * list string :=
  match items with
  | [] => ([], [])
  | item :: items =>
      let '(read_, faults) := read_each read items in
      match read item with
      | Ok a => (a :: read_, faults)
      | Err fault => (read_, fault :: faults)
      end
  end.

Definition written_grants (v : Json) : list Json := default [] (entries ← json_get "grants" v; as_array entries).

Definition seat_config (v : Json) : SeatSpec :=
  let '(gs, fs) := read_each read_grant (written_grants v) in MkSeatSpec gs fs.

(** The payload of the seat. *)
Definition seat_payload (v : Json) : Bytes :=
  match json_get "data" v with
  | None | Some JNull => []
  | Some (JString text) => as_bytes text
  | Some other => as_bytes (json_text other)
  end.

(** ** Declarations ([seat/declaration.rs]) *)

Definition declared_inject (v : Json) : result string string :=
  match v with
  | JString contract => Ok contract
  | JObject fields =>
      match List.find (fun key => bool_decide (key <> "contract")) (map fst fields) with
      | Some key =>
          Err ("injects entry carries `" +:+ key +:+ "`; a declaration names only a contract: " +:+ json_text v)
      | None =>
          match (name ← field_of "contract" fields; as_str name) with
          | Some contract => Ok contract
          | None => Err ("injects entry names no contract: " +:+ json_text v)
          end
      end
  | other => Err ("not an injects entry: " +:+ json_text other)
  end.

Definition seat_declaration (v : Json) : Declaration :=
  match json_get "injects" v with
  | None => MkDeclaration [] []
  | Some (JArray items) => let '(cs, fs) := read_each declared_inject items in MkDeclaration cs fs
  | Some other => MkDeclaration [] ["injects is not a list: " +:+ json_text other]
  end.

(** ** What a patched config must be ([validate]) *)

Definition validate (committed config : Json) : result () string :=
  if negb (is_object config) then Err "the patched config is not an object"
  else
    match Seat.faults (seat_config config) with
    | fault :: _ => Err ("grant entry refused: " +:+ fault)
    | [] =>
        match grant_refusals (grants (seat_config config)) with
        | refused :: _ => Err (message refused)
        | [] =>
            if decide (json_get "grants" config = json_get "grants" committed) then Ok ()
            else Err "grants are jinn:profile-admin's"
        end
    end.

Lemma validate_ok c c' :
  validate c c' = Ok () ->
  is_object c' = true /\ Seat.faults (seat_config c') = [] /\ grant_refusals (grants (seat_config c')) = [] /\
  json_get "grants" c' = json_get "grants" c.
Proof.
  unfold validate. destruct (is_object c') eqn:Ho; [|done]. cbn. destruct (Seat.faults _) eqn:Hf; [|done].
  destruct (grant_refusals _) eqn:Hr; [|done]. case_decide; [|done]. done.
Qed.

(** A seat reads nothing of its grants but the written list. *)
Lemma same_grants_same_seat c c' : json_get "grants" c' = json_get "grants" c -> seat_config c' = seat_config c.
Proof. intros E. unfold seat_config, written_grants. by rewrite E. Qed.

(** Nothing that is written is dropped: each item is read or is a fault. *)
Lemma read_each_splits {A} (read : Json -> result A string) items :
  length (read_each read items).1 + length (read_each read items).2 = length items /\
  (forall a, a ∈ (read_each read items).1 <-> exists item, item ∈ items /\ read item = Ok a) /\
  (forall f, f ∈ (read_each read items).2 <-> exists item, item ∈ items /\ read item = Err f).
Proof.
  induction items as [|item items (IH1 & IH2 & IH3)]; cbn.
  { split_and!; [done|..]; intros x; (split; [intros Hx; by apply elem_of_nil in Hx|intros (i & Hi & _); by apply elem_of_nil in Hi]). }
  destruct (read_each read items) as [rs fs]. destruct (read item) as [a|f] eqn:E; cbn in *; split_and!; try lia; intros x.
  - rewrite elem_of_cons, IH2. setoid_rewrite elem_of_cons. split; [intros [->|(i & Hi & Hr)]; eauto|intros (i & [->|Hi] & Hr); [left; congruence|right; eauto]].
  - rewrite IH3. setoid_rewrite elem_of_cons. split; [intros (i & Hi & Hr); eauto|intros (i & [->|Hi] & Hr); [congruence|eauto]].
  - rewrite IH2. setoid_rewrite elem_of_cons. split; [intros (i & Hi & Hr); eauto|intros (i & [->|Hi] & Hr); [congruence|eauto]].
  - rewrite elem_of_cons, IH3. setoid_rewrite elem_of_cons. split; [intros [->|(i & Hi & Hr)]; eauto|intros (i & [->|Hi] & Hr); [left; congruence|right; eauto]].
Qed.
End Seats.

(** ** Operator contracts ([daemon/wire.rs]) *)

(** Who is calling, for whoever keeps the broker: it is held weakly. *)
Class Operators := {
  operator_fiber : PeerId -> option FiberId;
  operator_entry : PeerId -> option EntryId;
  operator_policy : PeerId -> string -> option GrantScope;
}.

Definition operators_of {Callable Target} (broker : option (@Broker Callable Target)) : Operators := {|
  operator_fiber := fun peer => b ← broker; Broker.attribution peer b;
  operator_entry := fun peer => b ← broker; MkEntryId <$> Broker.entry_of peer b;
  operator_policy := fun peer contract => b ← broker; Broker.policy peer contract b;
|}.

(** A row as a provider hands it to the ledger. *)
Definition Row : Type := LedgerEventKind * option EntryId * option FiberId.

Section Profile.
Context {W H Ctx V : Type} `{Contexts Ctx, EntryHandle W H Json Ctx, Medium W Json V}.
Context `{JsonText, Utf8, Operators}.
Implicit Types (m : Machine W H Json Ctx V) (w : W).
Local Open Scope string_scope.

(** [Reader::text]. *)
Definition operator_text (what : string) : Wire.Reader string := fun wire =>
  match read_segment what wire with
  | Err error => Err error
  | Ok (bytes, rest) =>
      match from_utf8 bytes with
      | Some s => Ok (s, rest)
      | None => Err (refusal PluginFailed ("malformed " +:+ what +:+ " payload: not UTF-8"))
      end
  end.

Definition json_bytes (v : Json) : Bytes := as_bytes (json_text v).

Definition unknown_operation (contract operation : string) : KernelError :=
  refusal PluginFailed ("unknown " +:+ contract +:+ " operation " +:+ debug_str operation).

Definition TAG_REFUSED : Z := 1.
Definition TAG_ACCEPTED : Z := 2.

Definition refused_wire (reason : string) : Bytes := TAG_REFUSED :: as_bytes reason.
Definition accepted_wire (sequence : Z) : Bytes := TAG_ACCEPTED :: le_bytes 8 sequence.

Definition admits (contract : string) (caller : PeerId) (entry : string) : bool :=
  match operator_policy caller contract with Some scope => admits_entry scope entry | None => false end.

Definition scope_row (contract : string) (caller : PeerId) (reason : string) : Row :=
  (GrantRefused contract ScopeMismatch (Some reason), operator_entry caller, operator_fiber caller).

(** ** Reads ([profile_read.rs]) *)

(** The document of record. *)
Definition persisted m : option (Profile Json) := committed (state m).

(** [json!]: an object built field by field. *)
Definition entry_record (e : ProfileEntry Json) : Json :=
  JObject (btree_collect [
    ("id", JString (entry_id (id e)));
    ("package", JString (package (plugin e)));
    ("version", JString (version (plugin e)));
    ("hash", JString (artifact_hash (plugin e)));
    ("grants", default (JArray []) (json_get "grants" (config e)));
    ("config", config e);
    ("disabled", JBool (disabled e));
    ("parent", match parent e with Some p => JString (entry_id p) | None => JNull end)]).

Definition admitted_entries (caller : PeerId) m : list (ProfileEntry Json) :=
  match persisted m with
  | Some profile => filter (fun e => admits PROFILE_CONTRACT caller (entry_id (id e)) = true) (entries profile)
  | None => []
  end.

Definition refuse_read (caller : PeerId) (what : string) : result Bytes KernelError * list Row :=
  let reason := "grant refused: " +:+ PROFILE_CONTRACT +:+ " scope does not admit " +:+ what in
  (Err (refusal EffectFailed reason), [scope_row PROFILE_CONTRACT caller reason]).

Definition read_entry (caller : PeerId) (payload : Bytes) m : result Bytes KernelError * list Row :=
  match operator_text "profile entry" payload with
  | Err error => (Err error, [])
  | Ok (x, _) =>
      if admits PROFILE_CONTRACT caller x then
        (Ok (json_bytes match List.find (fun e => bool_decide (entry_id (id e) = x)) (admitted_entries caller m) with
                        | Some e => entry_record e
                        | None => JNull
                        end), [])
      else refuse_read caller ("entry " +:+ debug_str x)
  end.

Definition read_document (caller : PeerId) m : result Bytes KernelError * list Row :=
  match operator_policy caller PROFILE_CONTRACT with
  | Some (EntriesScope (_ :: _)) =>
      (Ok (json_bytes (JObject [("entries", JArray (map entry_record (admitted_entries caller m)))])), [])
  | _ => refuse_read caller "the document"
  end.

(** ** Patches ([profile_cap.rs]) *)

Definition refused_patch (entry : EntryId) (caller : PeerId) (reason : string) : result Bytes KernelError * list Row :=
  (Ok (refused_wire reason),
   [(AmendmentRefused ("patch-entry " +:+ debug_str (entry_id entry) +:+ " refused: " +:+ reason),
     operator_entry caller, operator_fiber caller)]).

(** What a patch comes to before the loader is offered it: an answer with its
    rows, or the config to amend the entry with. *)
Inductive Begun :=
  | Answered (answer : result Bytes KernelError) (rows : list Row)
  | Offering (entry : EntryId) (config : Json).

Definition answered (r : result Bytes KernelError * list Row) : Begun := Answered r.1 r.2.

Definition named_entry (x : EntryId) (p : Profile Json) : option (ProfileEntry Json) :=
  List.find (fun e => bool_decide (id e = x)) (entries p).

Definition begin_patch (caller : PeerId) (payload : Bytes) m : Begun :=
  match operator_text "profile patch-entry" payload with
  | Err error => Answered (Err error) []
  | Ok (x, rest) =>
      let entry := MkEntryId x in
      if negb (admits PROFILE_CONTRACT caller x) then
        let reason := "grant refused: " +:+ PROFILE_CONTRACT +:+ " scope does not admit entry " +:+ debug_str x in
        Answered (Ok (refused_wire reason)) [scope_row PROFILE_CONTRACT caller reason]
      else if decide (operator_entry caller = Some entry) then
        answered (refused_patch entry caller "an entry cannot patch itself")
      else
        match json_slice rest with
        | Err bad => answered (refused_patch entry caller ("merge-patch does not parse: " +:+ bad))
        | Ok patch =>
            match (p ← persisted m; config <$> named_entry entry p) with
            | None => answered (refused_patch entry caller "no such entry in the document of record")
            | Some committed =>
                let config := merge_patch committed patch in
                match validate committed config with
                | Err reason => answered (refused_patch entry caller reason)
                | Ok _ => Offering entry config
                end
            end
        end
  end.

Definition by_name (caller : PeerId) : string :=
  match operator_entry caller with Some by_whom => entry_id by_whom | None => "peer:" +:+ pretty caller end.

(** [{:?}] of a config, for the message of a divergence. *)
Context (debug_config : Json -> string).

(** The amendment, and its row: [receipt] is what the ledger answers. *)
Definition end_patch (in_teardown : bool) (current : option FiberId) (caller : PeerId) (receipt : result Z KernelError)
    (b : Begun) m w : result Bytes KernelError * list Row * (Machine W H Json Ctx V * W) :=
  match b with
  | Answered answer rows => (answer, rows, (m, w))
  | Offering entry config =>
      match amend debug_config in_teardown current false entry config m w with
      | (Err refused, mw) => (refused_patch entry caller (message refused), mw)
      | (Ok _, mw) =>
          match receipt with
          | Err error => (Err error, [], mw)
          | Ok sequence =>
              (Ok (accepted_wire sequence),
               [(ProfilePatched entry (by_name caller), operator_entry caller, operator_fiber caller)], mw)
          end
      end
  end.

(** [patch_entry], when nothing runs between its read and its amendment. *)
Definition patch_entry (in_teardown : bool) (current : option FiberId) (caller : PeerId) (payload : Bytes)
    (receipt : result Z KernelError) m w : result Bytes KernelError * list Row * (Machine W H Json Ctx V * W) :=
  end_patch in_teardown current caller receipt (begin_patch caller payload m) m w.

(** The provider's face. *)
Definition profile_call (in_teardown : bool) (current : option FiberId) (caller : PeerId) (operation : string)
    (payload : Bytes) (receipt : result Z KernelError) m w :
    result Bytes KernelError * list Row * (Machine W H Json Ctx V * W) :=
  if decide (operation = "patch-entry") then patch_entry in_teardown current caller payload receipt m w
  else if decide (operation = "entry") then (read_entry caller payload m, (m, w))
  else if decide (operation = "document") then (read_document caller m, (m, w))
  else (Err (unknown_operation PROFILE_CONTRACT operation), [], (m, w)).
End Profile.

(** ** A patch is confined *)

Section Confined.
Context {W H Ctx V : Type} `{Contexts Ctx, EntryHandle W H Json Ctx, Medium W Json V}.
Context `{!Observes W H Json Ctx V}.
Context `{JsonText, Utf8, Operators}.
Implicit Types (m : Machine W H Json Ctx V) (w : W).

(** A config the daemon may commit in place of another: its grants are those it
    had, they read as grants and they are admitted. *)
Record commits_over (c c' : Json) : Prop := {
  an_object : is_object c' = true;
  same_grants : json_get "grants" c' = json_get "grants" c;
  same_seat : seat_config c' = seat_config c;
  grants_read : Seat.faults (seat_config c') = [];
  grants_admitted : grant_refusals (Seat.grants (seat_config c')) = [];
}.

Lemma validate_commits c c' : validate c c' = Ok () -> commits_over c c'.
Proof. intros (? & ? & ? & ?)%validate_ok. split; auto using same_grants_same_seat. Qed.

(** What the provider refuses: the grant of the caller, or the patch. *)
Definition refusal_row (caller : PeerId) (r : Row) : Prop :=
  r.2 = operator_fiber caller /\ r.1.2 = operator_entry caller /\
  ((exists reason, r.1.1 = GrantRefused PROFILE_CONTRACT ScopeMismatch (Some reason)) \/ exists detail, r.1.1 = AmendmentRefused detail).

Definition refused_as (caller : PeerId) (answer : result Bytes KernelError) (rows : list Row) : Prop :=
  exists reason row, answer = Ok (refused_wire reason) /\ rows = [row] /\ refusal_row caller row.

Lemma refused_patch_as entry caller reason : refused_as caller (refused_patch entry caller reason).1 (refused_patch entry caller reason).2.
Proof. unfold refused_as, refusal_row. eexists _, _. split_and!; try done. right. by eexists. Qed.

(** What a patch that is offered was found to be. *)
Record offered (caller : PeerId) (payload : Bytes) m (x : EntryId) (c : Json) : Prop := MkOffered {
  offered_text : exists rest patch e,
    operator_text "profile patch-entry" payload = Ok (entry_id x, rest) /\ json_slice rest = Ok patch /\
    record_of x (state m) = Some e /\ c = merge_patch (config e) patch /\ commits_over (config e) c;
  offered_admitted : admits PROFILE_CONTRACT caller (entry_id x) = true;
  offered_other : operator_entry caller <> Some x;
}.

Lemma begin_patch_spec caller payload m :
  match begin_patch caller payload m with
  | Answered answer rows => (exists error, answer = Err error /\ rows = []) \/ refused_as caller answer rows
  | Offering x c => offered caller payload m x c
  end.
Proof.
  unfold begin_patch. destruct (operator_text _ payload) as [[x rest]|error] eqn:Htext; [|left; by exists error].
  destruct (admits _ caller x) eqn:Hadm; cbn [negb].
  2: { right. eexists _, _. split_and!; try done. split_and!; try done. left. by eexists. }
  case_decide as Hown; [right; apply refused_patch_as|].
  destruct (json_slice rest) as [patch|bad] eqn:Hparse; [|right; apply refused_patch_as].
  destruct (p ← persisted m; config <$> named_entry (MkEntryId x) p) as [c|] eqn:Hc; [|right; apply refused_patch_as].
  destruct (validate c (merge_patch c patch)) as [[]|reason] eqn:Hv; [|right; apply refused_patch_as].
  apply bind_Some in Hc as (p & Hp & Hc). apply fmap_Some in Hc as (e & He & ->).
  split; [|done|done]. exists rest, patch, e. split_and!; try done.
  - unfold record_of. unfold persisted in Hp. rewrite Hp. exact He.
  - by apply validate_commits.
Qed.

(** A patch reaches the document only as what its author may write. It
    lands in exactly one entry, one that the scope of the caller admits and that
    is not the caller's own, as the merge of the patch over the config of record,
    with the grants it had, which all read and are all admitted; nothing of any
    other entry moves, and the row of the patch is on the record when the ledger
    answers. It is refused with one row, and then the document, the store and
    the runtime are as they were, or the parting of the two views is the recorded
    fault of the entry. *)
Theorem a_patch_is_confined debug in_teardown current caller payload receipt m w answer rows m' w' :
  (forall x, in_step x m w) ->
  patch_entry debug in_teardown current caller payload receipt m w = (answer, rows, (m', w')) ->
  gate m' = gate m /\
  ((exists x c, offered caller payload m x c /\ taken x (with_config c) (writes c w) None m m' /\ in_step x m' w' /\
      match receipt with
      | Ok sequence => answer = Ok (accepted_wire sequence) /\
          rows = [(ProfilePatched x (by_name caller), operator_entry caller, operator_fiber caller)]
      | Err error => answer = Err error /\ rows = []
      end) \/
   ((exists error, answer = Err error /\ rows = []) \/ refused_as caller answer rows) /\
     (m' = m \/ exists x err, diverged x err m m')).
Proof.
  intros Hin. unfold patch_entry. pose proof (begin_patch_spec caller payload m) as Hb.
  destruct (begin_patch caller payload m) as [answer' rows'|x c]; cbn [end_patch].
  { intros [= -> -> -> ->]. split; [done|]. right. split; [done|by left]. }
  destruct (amend _ _ _ _ _ _ _ _) as [out [m1 w1]] eqn:Ha.
  apply (amend_views _ _ _ _ _ _ _ _ _ _ _ (Hin x)) in Ha as [Hg Hout]. destruct out as [[]|err].
  - destruct Hout as [Ht Hi]. destruct receipt as [sequence|error]; intros [= <- <- <- <-]; (split; [done|]); left; by exists x, c.
  - intros [= <- <- <- <-]. split; [done|]. right. split; [right; apply refused_patch_as|].
    destruct Hout as [[[->|[? _]] _]|Hd]; [by left|done|right; by exists x, err].
Qed.
End Confined.

(** ** Examples *)

Module ProfileExample.
Import SpillExample JsonExample.
Local Open Scope string_scope.

(** A loader whose entries run nothing; the world is the file. *)
Abbreviation File := (option (Document Json)).

#[export] Instance no_contexts : Contexts () := { derive_bind c _ := c; realm_of _ _ := RealmRoot }.

#[export] Instance no_handle : EntryHandle File Empty_set Json () :=
  { handle_id := fun (h : Empty_set) => match h with end;
    handle_state := fun (h : Empty_set) _ => match h with end;
    withdrawing := fun (h : Empty_set) _ => match h with end;
    resting := fun (h : Empty_set) _ => match h with end;
    restart _ _ w := w;
    restate _ _ w := (Ok (), w);
    rebind _ _ w := w;
    handle_dispose _ w := (Ok (), w);
    quiesce _ w := (Ok (), w) }.

#[export] Instance json_medium : Medium File Json Json :=
  { serialize c w := (SValue c, w); store_save d w := (Ok (), Some d); print_entry e := doc_id e }.

#[export] Instance file_observes : Observes File Empty_set Json () Json.
Proof. refine {| stated := fun (h : Empty_set) _ => match h with end; on_disk w := w |}; intros; by simplify_eq/=. Defined.

Abbreviation M := (Machine File Empty_set Json () Json).

Definition grants_of (names : list string) : Json := JArray (map JString names).
Definition data (text : string) (grants : list string) : Json := JObject [("data", JString text); ("grants", grants_of grants)].

Definition entry (x : string) (c : Json) : ProfileEntry Json :=
  MkProfileEntry (MkEntryId x) (MkPluginRef "pkg" "1" "h") c true None [].

Definition document : Profile Json :=
  MkProfile [entry "editor" (data "e" [PROFILE_CONTRACT]); entry "server" (data "a" [FS_CONTRACT; NET_CONTRACT])].

Definition runtime_of (e : ProfileEntry Json) : EntryId * EntryRuntime File Empty_set Json () :=
  (id e, MkEntryRuntime e None None None).

Definition loaded : M :=
  MkMachine (MkState (Some document) (list_to_map (map runtime_of (entries document)))) no_slots
    (Some (MkPersistence (from_profile document) None)).
Definition file : File := Some (from_profile document).

(** The editor may patch the server, and names itself too. *)
#[export] Instance editing : Operators := {|
  operator_fiber := fun peer => if decide (peer = 1%Z) then Some (MkFiberId 3) else None;
  operator_entry := fun peer => if decide (peer = 1%Z) then Some (MkEntryId "editor") else None;
  operator_policy := fun peer contract =>
    if decide (peer = 1%Z /\ contract = PROFILE_CONTRACT) then Some (EntriesScope ["server"; "editor"]) else None;
|}.

Definition asks (x : string) (patch : Json) : Bytes := put_text x ++ json_bytes patch.
Definition edit : Bytes := asks "server" (JObject [("data", JString "b")]).

Definition patching (payload : Bytes) := patch_entry (fun _ => "") false None 1%Z payload (Ok 9%Z) loaded file.

Definition config_of (x : string) (m : M) : option Json := config <$> record_of (MkEntryId x) (state m).

Example a_patch_lands :
  (patching edit).1 = (Ok (accepted_wire 9), [(ProfilePatched (MkEntryId "server") "editor", Some (MkEntryId "editor"), Some (MkFiberId 3))]) /\
  config_of "server" (patching edit).2.1 = Some (data "b" [FS_CONTRACT; NET_CONTRACT]) /\
  config_of "editor" (patching edit).2.1 = config_of "editor" loaded.
Proof. split_and!; by vm_compute. Qed.

Example a_patch_cannot_widen :
  (patching (asks "server" (JObject [("grants", grants_of [FS_CONTRACT; KEYSTORE_CONTRACT])]))).1.1 =
    Ok (refused_wire "grants are jinn:profile-admin's") /\
  (patching (asks "editor" (JObject []))).1.1 = Ok (refused_wire "an entry cannot patch itself") /\
  (patching (asks "other" (JObject []))).2.1 = loaded.
Proof. split_and!; by vm_compute. Qed.

Lemma in_step_loaded x : in_step x loaded file.
Proof. split; [by intros []|]. intros p [= <-]. done. Qed.

Lemma a_patch_is_confined_witness :
  exists c, offered 1%Z edit loaded (MkEntryId "server") c /\ taken (MkEntryId "server") (with_config c) (writes c file) None loaded (patching edit).2.1.
Proof.
  destruct (a_patch_is_confined (fun _ => "") false None 1%Z edit (Ok 9%Z) loaded file
    (patching edit).1.1 (patching edit).1.2 (patching edit).2.1 (patching edit).2.2 in_step_loaded) as [_ [Hl|[Hr _]]]; [by vm_compute| |].
  - destruct Hl as (x & c & Ho & Ht & _ & _ & Hrows).
    assert ((patching edit).1.2 = [(ProfilePatched (MkEntryId "server") "editor", Some (MkEntryId "editor"), Some (MkFiberId 3))]) as E
      by by vm_compute.
    rewrite E in Hrows. injection Hrows as <-. by exists c.
  - exfalso. assert (length (patching edit).1.2 = 1 /\ (patching edit).1.1 = Ok (accepted_wire 9)) as [El Ea] by (split; by vm_compute).
    destruct Hr as [(error & Hr & _)|(reason & row & Hr & _)]; rewrite Ea in Hr; by vm_compute in Hr.
Defined.

(** The config a patch merges over is read before the entry is engaged. When
    the grants of the entry are narrowed in between, the amendment writes the
    grants it read: what was taken away is granted again. *)
Definition narrowed : Json := data "a" [FS_CONTRACT].

Definition interleaved :=
  let '(_, (m, w)) := amend (fun _ => "") false None false (MkEntryId "server") narrowed loaded file in
  (m, end_patch (fun _ => "") false None 1%Z (Ok 9%Z) (begin_patch 1%Z edit loaded) m w).

Example a_patch_can_restore_a_grant :
  config_of "server" interleaved.1 = Some narrowed /\
  interleaved.2.1.1 = Ok (accepted_wire 9) /\
  config_of "server" interleaved.2.2.1 = Some (data "b" [FS_CONTRACT; NET_CONTRACT]).
Proof. split_and!; by vm_compute. Qed.
End ProfileExample.
