(* ===== verification/ProfileAdmin.v ===== *)
(** * The profile-admin contract ([jinnd-daemon/src/daemon/profile_admin_cap.rs],
    [profile_admin_cap/decode.rs], [writes.rs])

    Five writes that reshape the document: how each is decoded, whom its caller
    may administer, what is checked before the loader is offered it, the intent
    on the record with the digests of the file before and after, and the commit.
    The inverse of a write is read off the prior its row carries. *)

From stdpp Require Import base gmap sets list strings pretty relations finite.
From S2P Require Import Prelude Api Grants Broker Seat Disk Spill Wire Sha256 Entries Diff Quarantine Document Loader Reconcile Amend Json Profile.

(** ** Writes ([writes.rs]) *)

Inductive RefusalClass := Unauthorized | MalformedWrite | Conflict | Irreversible.

Definition class_code (c : RefusalClass) : Z :=
  match c with Unauthorized => 1 | MalformedWrite => 2 | Conflict => 3 | Irreversible => 4 end.
Definition class_name (c : RefusalClass) : string :=
  match c with
  | Unauthorized => "unauthorized" | MalformedWrite => "malformed" | Conflict => "conflict" | Irreversible => "irreversible"
  end.

Record Refusal := MkRefusal { class : RefusalClass; reason : string }.

Definition malformed_write (text : string) : Refusal := MkRefusal MalformedWrite text.
Definition conflict (text : string) : Refusal := MkRefusal Conflict text.

Inductive Change :=
  | AddRecord (record : ProfileEntry Json)
  | RemoveRecord
  | SetOff (off : bool)
  | Regrant (grants : Json)
  | SwapTo (r : PluginRef).

Record Write := MkWrite { write_entry : EntryId; write_kind : ProfileWrite; change : Change }.

Definition write_parent (r : Write) : option EntryId :=
  match change r with AddRecord record => parent record | _ => None end.

Section Decoding.
Context `{JsonText, Utf8}.
Local Open Scope string_scope.

(** ** Decoding ([decode.rs]) *)

Definition string_field (record : Json) (name : string) : result string Refusal :=
  match (v ← json_get name record; as_str v) with
  | Some s => Ok s
  | None => Err (malformed_write ("the entry record has no string " +:+ debug_str name))
  end.

Definition record_config (record : Json) : Json := default (JObject []) (json_get "config" record).

(** The grants of the record are written into its config, an object. *)
Definition with_grants (record config : Json) : Json :=
  match json_get "grants" record, config with
  | Some grants, JObject fields => JObject (btree_insert "grants" grants fields)
  | _, _ => config
  end.

Definition record_parent (record : Json) : result (option EntryId) Refusal :=
  match json_get "parent" record with
  | None | Some JNull => Ok None
  | Some (JString parent) => Ok (Some (MkEntryId parent))
  | Some _ => Err (malformed_write "parent is not an entry id")
  end.

Definition typed_record (record : Json) : result (ProfileEntry Json) Refusal :=
  if negb (is_object (record_config record)) then Err (malformed_write "config is not an object")
  else
    (let? up := record_parent record in
     let? x := string_field record "id" in
     let? pkg := string_field record "package" in
     let? hash := string_field record "hash" in
     Ok (MkProfileEntry (MkEntryId x)
           (MkPluginRef pkg (match string_field record "version" with Ok v => v | Err _ => "" end) hash)
           (with_grants record (record_config record))
           (default false (v ← json_get "disabled" record; as_bool v)) up []))%result.

Definition decode_record (text : string) : result (ProfileEntry Json) Refusal :=
  match json_parse text with
  | Err bad => Err (malformed_write ("the entry record does not parse: " +:+ bad))
  | Ok record => typed_record record
  end.

Definition segment (wire : Bytes) : result (string * Bytes) Refusal :=
  match operator_text "profile-admin" wire with
  | Ok r => Ok r
  | Err error => Err (malformed_write (message error))
  end.

Definition decode (operation : string) (payload : Bytes) : result Write Refusal :=
  (if decide (operation = "add-entry") then
     let? text := segment payload in
     let? record := decode_record text.1 in
     Ok (MkWrite (id record) WriteAdd (AddRecord record))
   else if decide (operation = "remove-entry") then
     let? x := segment payload in Ok (MkWrite (MkEntryId x.1) WriteRemove RemoveRecord)
   else if decide (operation = "set-disabled") then
     let? x := segment payload in
     let? off := segment x.2 in
     if decide (off.1 = "true") then Ok (MkWrite (MkEntryId x.1) SetDisabled (SetOff true))
     else if decide (off.1 = "false") then Ok (MkWrite (MkEntryId x.1) SetDisabled (SetOff false))
     else Err (malformed_write ("disabled must be true or false, wrote " +:+ debug_str off.1))
   else if decide (operation = "set-grants") then
     let? x := segment payload in
     let? text := segment x.2 in
     match json_parse text.1 with
     | Ok grants => Ok (MkWrite (MkEntryId x.1) SetGrants (Regrant grants))
     | Err bad => Err (malformed_write ("grants do not parse: " +:+ bad))
     end
   else if decide (operation = "swap-plugin") then
     let? x := segment payload in
     let? pkg := segment x.2 in
     let? v := segment pkg.2 in
     let? hash := segment v.2 in
     Ok (MkWrite (MkEntryId x.1) SwapPlugin (SwapTo (MkPluginRef pkg.1 v.1 hash.1)))
   else Err (malformed_write ("no such write " +:+ debug_str operation)))%result.
End Decoding.

(** ** Whom a caller may administer ([authorize_target]) *)

Definition own_or_ancestor : Refusal := MkRefusal Unauthorized "an entry cannot administer itself or an ancestor".

(** One look at an identity on the way up: the entry written, or the parent an
    addition names. *)
Definition targets (r : Write) (x : EntryId) : bool := bool_decide (x = write_entry r) || bool_decide (write_parent r = Some x).

Definition parent_in (p : Profile Json) (x : EntryId) : option EntryId := e ← named_entry x p; parent e.

Fixpoint authorize_loop (fuel : nat) (p : Profile Json) (r : Write) (cursor : option EntryId) : result () Refusal :=
  match fuel, cursor with
  | S fuel, Some x => if targets r x then Err own_or_ancestor else authorize_loop fuel p r (parent_in p x)
  | _, _ => Ok ()
  end.

(** The way up is cut after one identity more than the document has entries. *)
Definition authorize_target (p : Profile Json) (r : Write) (caller : option EntryId) : result () Refusal :=
  authorize_loop (S (length (entries p))) p r caller.

(** ** What is decided before the loader moves ([check]) *)

Section Checks.
Context {W H Ctx V : Type} `{Contexts Ctx, EntryHandle W H Json Ctx, Medium W Json V}.
Context `{JsonText, Utf8, Operators}.
Context (loader : Loader W H Json Ctx) (legible : string -> option string).
Implicit Types (m : Machine W H Json Ctx V) (w : W).
Local Open Scope string_scope.

(** [raw_entry_ids], [has_lane], [rendered_document]. *)
Definition raw_entry_ids m : list EntryId :=
  match persist m with Some p => map (raw_entry_id legible) (doc_raw (baseline p)) | None => [] end.
Definition has_lane (pkg : string) : bool := bool_decide (is_Some (lanes loader !! pkg)).
Definition rendered_document m : option string := (fun p => render print_entry (baseline p)) <$> persist m.

(** [Staged::rendered]. *)
Definition rendered_staged (st : Staged Json V) m : option string :=
  match persist m, staged_encoded st with
  | Some p, Some values => Some (render print_entry (merge_profile values (baseline p)))
  | _, _ => None
  end.

Definition document_digest (text : option string) : string := hex_digest (as_bytes (default "" text)).

Definition lane_for (r : PluginRef) : result () Refusal :=
  if decide (artifact_hash r = "") then Err (malformed_write "the entry names no artifact pin (Law 5)")
  else if has_lane (package r) then Ok ()
  else Err (malformed_write ("package " +:+ debug_str (package r) +:+
    " has no admitted artifact under any pin (Law 5): a document-led reconcile admits it first")).

Definition valid_config (c : Json) : result () Refusal :=
  match validate c c with Ok _ => Ok () | Err text => Err (malformed_write text) end.

Definition preserved_raw : Refusal :=
  MkRefusal Irreversible "the entry is preserved raw: its record cannot be captured as a prior".
Definition has_children : Refusal :=
  MkRefusal Irreversible "the entry has children: the inverse would be a subtree; remove leaves first".
Definition held_elsewhere : Refusal :=
  conflict "another entry holds this package under a different pin (one pin per package, R9): swap them together or name a distinct package".

(** The checks of an entry that must be there; [None] is a panic. *)
Definition check_change (p : Profile Json) (r : Write) : option (result () Refusal) :=
  match change r with
  | AddRecord _ | SetOff _ => Some (Ok ())
  | RemoveRecord =>
      Some (if existsb (fun e => bool_decide (parent e = Some (write_entry r))) (entries p) then Err has_children else Ok ())
  | Regrant grants =>
      (fun c => valid_config c) <$>
        index_assign "grants" grants (default JNull (config <$> named_entry (write_entry r) p))
  | SwapTo plugin_ =>
      Some (let? _ := lane_for plugin_ in
            if existsb (fun e => negb (bool_decide (id e = write_entry r)) && negb (disabled e) &&
                                 bool_decide (package (plugin e) = package plugin_) &&
                                 negb (bool_decide (artifact_hash (plugin e) = artifact_hash plugin_))) (entries p)
            then Err held_elsewhere else Ok ())%result
  end.

Definition check_add (p : Profile Json) (r : Write) (record : ProfileEntry Json) : result () Refusal :=
  if bool_decide (is_Some (named_entry (write_entry r) p)) then Err (malformed_write "the entry id already exists")
  else if match parent record with Some up => bool_decide (named_entry up p = None) | None => false end
  then Err (malformed_write "the parent is not an entry")
  else (let? _ := valid_config (config record) in lane_for (plugin record))%result.

(** The prior of an admitted write: the record before it, none of an addition. *)
Definition check (p : Profile Json) m (r : Write) : option (result (option Json) Refusal) :=
  if decide (write_entry r ∈ raw_entry_ids m) then Some (Err preserved_raw)
  else
    match change r with
    | AddRecord record => Some (let? _ := check_add p r record in Ok None)%result
    | _ =>
        match check_change p r with
        | None => None
        | Some (Err refusal) => Some (Err refusal)
        | Some (Ok _) =>
            match named_entry (write_entry r) p with
            | None => Some (Err (malformed_write "no such entry in the document of record"))
            | Some e => Some (Ok (Some (entry_record e)))
            end
        end
    end.

(** ** The write ([profile_admin_cap.rs]) *)

Definition administration (x : EntryId) (c : Change) (prior : option Json) : Administration Json :=
  match c with
  | AddRecord record => Add record
  | RemoveRecord => RemoveEntry x
  | SetOff true => DisableEntry x
  | SetOff false => EnableEntry x
  | Regrant grants =>
      Configure x (default JNull (index_assign "grants" grants (default (JObject []) (prior ← prior; json_get "config" prior))))
  | SwapTo r => Swap x r
  end.

Definition refused_wire_class (c : RefusalClass) (text : string) : Bytes := TAG_REFUSED :: class_code c :: as_bytes text.

Definition refuse_write (operation : string) (entry : option EntryId) (caller : PeerId) (r : Refusal) :
    result Bytes KernelError * list Row :=
  let target := match entry with Some x => " " +:+ debug_str (entry_id x) | None => "" end in
  (Ok (refused_wire_class (class r) (reason r)),
   [(AmendmentRefused (operation +:+ target +:+ " refused (" +:+ class_name (class r) +:+ "): " +:+ reason r),
     operator_entry caller, operator_fiber caller)]).

Inductive BegunWrite :=
  | AnsweredWrite (answer : result Bytes KernelError) (rows : list Row)
  | PanickedWrite
  | StagingWrite (r : Write) (prior : option Json) (before : string).

Definition answered_write (r : result Bytes KernelError * list Row) : BegunWrite := AnsweredWrite r.1 r.2.

(** Up to the stage. *)
Definition begin_write (caller : PeerId) (operation : string) (payload : Bytes) m : BegunWrite :=
  match decode operation payload with
  | Err refusal => answered_write (refuse_write operation None caller refusal)
  | Ok r =>
      let x := write_entry r in
      if negb (admits PROFILE_ADMIN_CONTRACT caller (entry_id x)) ||
         match write_parent r with Some up => negb (admits PROFILE_ADMIN_CONTRACT caller (entry_id up)) | None => false end
      then
        let text := "grant refused: " +:+ PROFILE_ADMIN_CONTRACT +:+ " scope does not admit entry " +:+ debug_str (entry_id x) in
        AnsweredWrite (Ok (refused_wire_class Unauthorized text)) [scope_row PROFILE_ADMIN_CONTRACT caller text]
      else
        match persisted m with
        | None => answered_write (refuse_write operation (Some x) caller (conflict "no committed document"))
        | Some p =>
            match authorize_target p r (operator_entry caller) with
            | Err refusal => answered_write (refuse_write operation (Some x) caller refusal)
            | Ok _ =>
                match check p m r with
                | None => PanickedWrite
                | Some (Err refusal) => answered_write (refuse_write operation (Some x) caller refusal)
                | Some (Ok prior) => StagingWrite r prior (document_digest (rendered_document m))
                end
            end
        end
  end.

(** The intent is recorded, then applied: the row lands before the commit. A
    stage that is dropped releases what it engaged. *)
Definition write_row (caller : PeerId) (r : Write) (before after : string) (prior : option Json) : Row :=
  (ProfileAdministered (write_entry r) (by_name caller) (write_kind r) before after (json_text <$> prior),
   operator_entry caller, operator_fiber caller).

(** The step a commit leaves to the task that settles it. *)
Definition Settling : Type := Staged Json V * option (StepKind * option H).

Context (enumerate : gmap EntryId (EntryRuntime W H Json Ctx) -> list (EntryId * EntryRuntime W H Json Ctx)).

Record Written := MkWritten {
  answer : result Bytes KernelError;
  rows : list Row;
  settling : option Settling;
  after_write : Machine W H Json Ctx V * W;
}.

Definition refused_written (r : result Bytes KernelError * list Row) (intent : list Row) mw : Written :=
  MkWritten r.1 (intent ++ r.2) None mw.

Definition did_not_land (sequence : Z) (failed : KernelError) : Refusal :=
  conflict ("intent " +:+ pretty sequence +:+ " did not land: " +:+ message failed).

(** [receipt] is what the ledger answers of the intent. *)
Definition end_write (in_teardown : bool) (current : option FiberId) (caller : PeerId) (operation : string)
    (receipt : result Z KernelError) (r : Write) (prior : option Json) (before : string) m w : Written :=
  let x := write_entry r in
  match stage loader enumerate in_teardown current (administration x (change r) prior) m w with
  | (Err refused, mw) => refused_written (refuse_write operation (Some x) caller (conflict (message refused))) [] mw
  | (Ok st, (m, w)) =>
      let intent := write_row caller r before (document_digest (rendered_staged st m)) prior in
      match receipt with
      | Err error => MkWritten (Err error) [] None (release_staged st m, w)
      | Ok sequence =>
          match commit_administration loader st m w with
          | (Err failed, mw) =>
              refused_written (refuse_write operation (Some x) caller (did_not_land sequence failed)) [intent] mw
          | (Ok pending, mw) => MkWritten (Ok (accepted_wire sequence)) [intent] (Some (st, pending)) mw
          end
      end
  end.

(** [write], when nothing runs between what it reads and its stage; none is a
    panic. *)
Definition write (in_teardown : bool) (current : option FiberId) (caller : PeerId) (operation : string) (payload : Bytes)
    (receipt : result Z KernelError) m w : option Written :=
  match begin_write caller operation payload m with
  | AnsweredWrite answer rows => Some (MkWritten answer rows None (m, w))
  | PanickedWrite => None
  | StagingWrite r prior before => Some (end_write in_teardown current caller operation receipt r prior before m w)
  end.

(** The task that settles it. *)
Definition settle_write (s : Settling) m w : Machine W H Json Ctx V * W := finish_administration loader s.1 s.2 m w.

(** The provider's face. *)
Definition admin_call (in_teardown : bool) (current : option FiberId) (caller : PeerId) (operation : string)
    (payload : Bytes) (receipt : result Z KernelError) m w : option Written :=
  if decide (operation ∈ ["add-entry"; "remove-entry"; "set-disabled"; "set-grants"; "swap-plugin"]) then
    write in_teardown current caller operation payload receipt m w
  else Some (MkWritten (Err (unknown_operation PROFILE_ADMIN_CONTRACT operation)) [] None (m, w)).
End Checks.

(** ** The way up *)

Section WayUp.
Context (p : Profile Json) (r : Write).

Fixpoint up (n : nat) (x : EntryId) : option EntryId :=
  match n with O => Some x | S n => y ← parent_in p x; up n y end.

Lemma up_add a b x : up (a + b) x = (y ← up a x; up b y).
Proof. revert x. induction a as [|a IH]; intros x; cbn; [done|]. destruct (parent_in p x); cbn; auto. Qed.

Lemma authorize_loop_ok fuel x :
  authorize_loop fuel p r (Some x) = Ok () <-> forall n y, n < fuel -> up n x = Some y -> targets r y = false.
Proof.
  revert x. induction fuel as [|fuel IH]; intros x; cbn; [split; [intros _ n y Hn; lia|done]|].
  destruct (targets r x) eqn:Ht.
  { split; [done|]. intros Hall. specialize (Hall 0 x ltac:(lia) eq_refl). congruence. }
  destruct (parent_in p x) as [z|] eqn:Hz.
  - rewrite IH. split.
    + intros Hall [|n] y Hn; cbn; [by intros [= <-]|]. rewrite Hz. cbn. apply Hall. lia.
    + intros Hall n y Hn Hy. apply (Hall (S n) y); [lia|]. cbn. by rewrite Hz.
  - split; [|by destruct fuel]. intros _ [|n] y Hn; cbn; [by intros [= <-]|]. by rewrite Hz.
Qed.

(** A way up that is longer than the document turns in a circle. *)
Lemma up_short n x y : up n x = Some y -> exists k, k <= length (entries p) /\ up k x = Some y.
Proof.
  revert x y. induction (lt_wf n) as [n _ IH]; intros x y Hn.
  destruct (decide (n <= length (entries p))) as [|Hlong]; [by exists n|].
  assert (forall k, k < n -> exists z, up k x = Some z /\ is_Some (parent_in p z)) as Hway.
  { intros k Hk. replace n with (k + S (n - k - 1)) in Hn by lia. rewrite up_add in Hn.
    destruct (up k x) as [z|]; [|done]. exists z. split; [done|]. cbn in Hn. by destruct (parent_in p z); [eexists|]. }
  set (trail := (fun k => default x (up k x)) <$> seq 0 n).
  destruct (list_pigeonhole trail (id <$> entries p)) as (i & j & z & Hij & Hi & Hj).
  - intros z Hz. apply list_elem_of_fmap in Hz as (k & -> & Hk). apply elem_of_seq in Hk.
    destruct (Hway k ltac:(lia)) as (z & -> & [q Hq]). cbn. unfold parent_in, named_entry in Hq.
    destruct (List.find _ (entries p)) as [e|] eqn:He; [|done]. apply List.find_some in He as [He Hid].
    apply bool_decide_eq_true in Hid as <-. apply list_elem_of_fmap. exists e. split; [done|by apply list_elem_of_In].
  - unfold trail. rewrite !length_fmap, length_seq. lia.
  - unfold trail in Hi, Hj. rewrite list_lookup_fmap in Hi, Hj.
    destruct (seq 0 n !! i) as [i'|] eqn:Ei; [|done]. destruct (seq 0 n !! j) as [j'|] eqn:Ej; [|done].
    apply lookup_seq in Ei as [-> Hi']. apply lookup_seq in Ej as [-> Hj']. cbn in Hi, Hj.
    destruct (Hway i Hi') as (zi & Ezi & _). destruct (Hway j Hj') as (zj & Ezj & _). rewrite Ezi in Hi. rewrite Ezj in Hj.
    cbn in Hi, Hj. simplify_eq. apply (IH (i + (n - j)) ltac:(lia)). rewrite up_add, Ezi. cbn.
    replace n with (j + (n - j)) in Hn by lia. by rewrite up_add, Ezj in Hn.
Qed.

(** [x] is [y] or an ancestor of [y]. *)
Definition at_or_above (y x : EntryId) : Prop := rtc (fun a b => parent_in p a = Some b) y x.

Lemma at_or_above_up y x : at_or_above y x <-> exists n, up n y = Some x.
Proof.
  split.
  - intros Hr. induction Hr as [y|y z x Hz _ (n & Hn)]; [by exists 0|]. exists (S n). cbn. by rewrite Hz.
  - intros (n & Hn). revert y Hn. induction n as [|n IH]; intros y; cbn; [intros [= ->]; apply rtc_refl|].
    destruct (parent_in p y) as [z|] eqn:Hz; [|done]. intros Hn. by apply rtc_l with z; [|apply IH].
Qed.

(** The cut of the way up misses nothing: a write is let through exactly when
    neither its entry nor the parent it names is the caller or above it. *)
Lemma authorize_target_spec caller :
  authorize_target p r caller = Ok () <->
  forall y x, caller = Some y -> at_or_above y x -> x <> write_entry r /\ write_parent r <> Some x.
Proof.
  unfold authorize_target. destruct caller as [y|]; [|split; [done|done]]. rewrite authorize_loop_ok.
  assert (forall x, targets r x = false <-> x <> write_entry r /\ write_parent r <> Some x) as Ht.
  { intros x. unfold targets. by rewrite orb_false_iff, !bool_decide_eq_false. }
  split.
  - intros Hall ? x [= <-] (n & Hn)%at_or_above_up. apply Ht. destruct (up_short n y x Hn) as (k & Hk & Hup).
    by apply (Hall k); [lia|].
  - intros Hall n x _ Hn. apply Ht, (Hall y); [done|]. apply at_or_above_up. by exists n.
Qed.
End WayUp.

(** ** The record of a write *)

Section Recorded.
Context {W H Ctx V : Type} `{Contexts Ctx, EntryHandle W H Json Ctx, Medium W Json V}.
Context (loader : Loader W H Json Ctx).
Context (enumerate : gmap EntryId (EntryRuntime W H Json Ctx) -> list (EntryId * EntryRuntime W H Json Ctx)).
Implicit Types (m : Machine W H Json Ctx V) (w : W).

(** Neither the document of record nor the store moved. *)
Definition document_kept m m' : Prop := committed (state m') = committed (state m) /\ persist m' = persist m.

(** The document is the staged one, and the store rendered it. *)
Definition document_landed (st : Staged Json V) m m' : Prop :=
  committed (state m') = Some (staged_profile st) /\
  match persist m with
  | None => persist m' = None
  | Some p =>
      match staged_encoded st with
      | Some values => persist m' = Some (MkPersistence (merge_profile values (baseline p))
          (Some (render print_entry (merge_profile values (baseline p)))))
      | None => persist m' = Some p
      end
  end.

Lemma stage_keeps in_teardown current a m w r m' w' :
  stage loader enumerate in_teardown current a m w = (r, (m', w')) ->
  state m' = state m /\ persist m' = persist m /\
  forall st, r = Ok st ->
    staged_entry st = administered a /\ (exists old, committed (state m) = Some old /\ amended_profile old a = Ok (staged_profile st)) /\
    (is_Some (staged_encoded st) <-> is_Some (persist m)).
Proof.
  unfold stage. destruct (refuse_teardown_context _ _); [|intros [= <- <- <-]; by split_and!].
  destruct (staged_engagement _ _); [|intros [= <- <- <-]; by split_and!].
  unfold stage_engaged. destruct (refuse_amid_withdrawal _ _ _); [|intros [= <- <- <-]; by split_and!].
  destruct (match live_handle _ _ with Some h => _ | None => _ end); [|intros [= <- <- <-]; by split_and!].
  destruct (committed (state m)) as [old|] eqn:Hold; [|intros [= <- <- <-]; by split_and!].
  destruct (amended_profile old a) as [profile|] eqn:Ha; [|intros [= <- <- <-]; by split_and!].
  destruct (List.find _ _); [intros [= <- <- <-]; by split_and!|].
  unfold encode_committed. destruct (persist m) as [p|] eqn:Hp.
  - destruct (value_profile profile w) as [[values|] w1]; intros [= <- <- <-]; (split_and!; [done|done|]); try done.
    intros st [= <-]. cbn. split_and!; [done|by exists old|done].
  - intros [= <- <- <-]. split_and!; try done. intros st [= <-]. cbn. split_and!; [done|by exists old|].
    by split; intros [].
Qed.

Lemma state_step_keeps st h m w out m' w' : state_step loader st h m w = (out, (m', w')) -> document_kept m m'.
Proof.
  unfold state_step, restate_spec. intros Hs.
  assert (forall ss report s w r s' w', apply_loop loader (index (staged_profile st)) None ss report s w = (r, (s', w')) ->
    committed s' = committed s) as Hloop.
  { clear. induction ss as [|x ss IH]; intros report s w r s' w'; cbn; [by intros [= _ <- _]|].
    destruct (run_step _ _ _ _ _) as [o [s1 w1]] eqn:Hr. intros Hl. rewrite (IH _ _ _ _ _ _ Hl).
    by eapply Reconcile.run_step_committed. }
  unfold Loader.apply in Hs. unfold document_kept. repeat case_match; simplify_eq/=; try done.
  all: match goal with Hl : apply_loop _ _ _ _ _ _ _ = _ |- _ => apply Hloop in Hl end; unfold record_divergence in *;
    repeat case_match; simplify_eq/=; done.
Qed.

Lemma landed_then_kept st m m2 m3 : document_landed st m m2 -> document_kept m2 m3 -> document_landed st m m3.
Proof. intros [Hd Hp] [Hc Hs]. split; [by rewrite Hc|]. by rewrite Hs. Qed.

Lemma commit_lands_or_keeps st m w out m' w' :
  commit_administration loader st m w = (out, (m', w')) ->
  document_landed st m m' \/ (exists error, out = Err error) /\ document_kept m m'.
Proof.
  unfold commit_administration. destruct (offer_staged _ _ _ _ _ _) as [[restated|error] w1].
  2: { intros [= <- <- <-]. right. by split; [eexists|]. }
  unfold persist_committed, save_encoded.
  assert (forall m2 w2, document_landed st m m2 ->
    (let '(r, mw) := state_step loader st (live_handle (staged_entry st) (state m)) m2 w2 in
     match r with Ok p => (Ok p, mw) | Err error => let '(m, w) := mw in (Err error, (release_staged st m, w)) end) = (out, (m', w')) ->
    document_landed st m m') as Hstep.
  { intros m2 w2 Hl. destruct (state_step _ _ _ _ _) as [[pending|error] [m3 w3]] eqn:Hs; intros [= <- <- <-];
      apply state_step_keeps in Hs; [by eapply landed_then_kept|exact (landed_then_kept st m m2 m3 Hl Hs)]. }
  destruct (persist m) as [p|] eqn:Hp.
  - destruct (staged_encoded st) as [values|] eqn:Henc.
    + unfold save_committed, save_document. destruct (store_save _ w1) as [[[]|fault] w2].
      * intros Hr. left. eapply Hstep; [|exact Hr]. split; cbn; [done|]. by rewrite Hp, Henc.
      * intros Hr. right. assert (document_kept m (release_staged st m)) by done.
        repeat case_match; simplify_eq/=; by split; [eexists|].
    + intros Hr. left. eapply Hstep; [|exact Hr]. split; cbn; [done|]. by rewrite Hp, Henc.
  - intros Hr. left. destruct (staged_encoded st); (eapply Hstep; [|exact Hr]; split; cbn; [done|]; by rewrite Hp).
Qed.
End Recorded.

Section Administered.
Context {W H Ctx V : Type} `{Contexts Ctx, EntryHandle W H Json Ctx, Medium W Json V}.
Context `{JsonText, Utf8, Operators}.
Context (loader : Loader W H Json Ctx) (legible : string -> option string).
Context (enumerate : gmap EntryId (EntryRuntime W H Json Ctx) -> list (EntryId * EntryRuntime W H Json Ctx)).
Implicit Types (m : Machine W H Json Ctx V) (w : W).

(** What a write that reaches the loader was found to be. *)
Record authorized (caller : PeerId) (operation : string) (payload : Bytes) m (r : Write) (prior : option Json) (p : Profile Json) : Prop := {
  it_decodes : decode operation payload = Ok r;
  the_document : persisted m = Some p;
  entry_in_scope : admits PROFILE_ADMIN_CONTRACT caller (entry_id (write_entry r)) = true;
  parent_in_scope x : write_parent r = Some x -> admits PROFILE_ADMIN_CONTRACT caller (entry_id x) = true;
  not_above y x : operator_entry caller = Some y -> at_or_above p y x -> x <> write_entry r /\ write_parent r <> Some x;
  checked : check loader legible p m r = Some (Ok prior);
}.

(** An answer that is a refusal, with its one row. *)
Definition refuses (caller : PeerId) (answer : result Bytes KernelError) (rows : list Row) : Prop :=
  exists c text row, answer = Ok (refused_wire_class c text) /\ rows = [row] /\
    row.2 = operator_fiber caller /\ row.1.2 = operator_entry caller /\
    ((exists detail, row.1.1 = AmendmentRefused detail) \/
     exists detail, row.1.1 = GrantRefused PROFILE_ADMIN_CONTRACT ScopeMismatch (Some detail)).

Lemma refuse_write_refuses operation x caller r : refuses caller (refuse_write operation x caller r).1 (refuse_write operation x caller r).2.
Proof. eexists _, _, _. split_and!; try done. left. by eexists. Qed.

Lemma begin_write_spec caller operation payload m :
  match begin_write loader legible caller operation payload m with
  | AnsweredWrite answer rows => refuses caller answer rows
  | PanickedWrite => True
  | StagingWrite r prior before =>
      before = document_digest (rendered_document m) /\ exists p, authorized caller operation payload m r prior p
  end.
Proof.
  unfold begin_write. destruct (decode operation payload) as [r|refusal] eqn:Hd; [|apply refuse_write_refuses].
  destruct (negb (admits _ _ _) || _) eqn:Hs.
  { eexists _, _, _. split_and!; try done. right. by eexists. }
  apply orb_false_elim in Hs as [Hx%negb_false_iff Hup].
  destruct (persisted m) as [p|] eqn:Hp; [|apply refuse_write_refuses].
  destruct (authorize_target p r (operator_entry caller)) as [[]|refusal] eqn:Ha; [|apply refuse_write_refuses].
  destruct (check loader legible p m r) as [[prior|refusal]|] eqn:Hc; [|apply refuse_write_refuses|done].
  split; [done|]. exists p. split; try done.
  - intros x E. rewrite E in Hup. by apply negb_false_iff.
  - intros y x Hy Hab. by apply (proj1 (authorize_target_spec p r (operator_entry caller)) Ha y x).
Qed.

(** The digest of a staged document is that of the file the commit leaves. *)
Lemma staged_digest st m m' :
  (is_Some (staged_encoded st) <-> is_Some (persist m)) -> document_landed st m m' ->
  rendered_staged st m = rendered_document m'.
Proof.
  intros Henc [_ Hp]. unfold rendered_staged, rendered_document. destruct (persist m) as [p|].
  - destruct (proj2 Henc ltac:(by eexists)) as [values E]. rewrite E in *. by rewrite Hp.
  - by rewrite Hp.
Qed.

End Administered.

(** ** The inverse of a write *)

Section Undoing.
Context {W H Ctx V : Type} `{Contexts Ctx, EntryHandle W H Json Ctx, Medium W Json V}.
Context `{JsonText, !JsonTextLaws _, Utf8, Operators}.
Context (loader : Loader W H Json Ctx) (legible : string -> option string).
Implicit Types (m : Machine W H Json Ctx V) (e : ProfileEntry Json) (p : Profile Json).

(** What a reader of the row asks for: the write that the prior records. *)
Definition undo_of (r : Write) (prior : option Json) : option Change :=
  match change r, prior with
  | AddRecord _, None => Some RemoveRecord
  | RemoveRecord, Some record => AddRecord <$> Grants.ok (decode_record (json_text record))
  | SetOff _, Some record => SetOff <$> (v ← json_get "disabled" record; as_bool v)
  | Regrant _, Some record => Regrant <$> json_get "grants" record
  | SwapTo _, Some record =>
      pkg ← (v ← json_get "package" record; as_str v);
      ver ← (v ← json_get "version" record; as_str v);
      hash ← (v ← json_get "hash" record; as_str v);
      Some (SwapTo (MkPluginRef pkg ver hash))
  | _, _ => None
  end.

(** What the record of an entry can carry of it: an object in key order whose
    grants are written, and, where it is added again, no isolation. *)
Record grants_written (e : ProfileEntry Json) : Prop := {
  config_object : is_object (config e) = true;
  config_ordered : key_sorted (fields_or_none (config e));
  config_grants : json_get "grants" (config e) <> None;
}.

Definition recorded_whole (c : Change) (e : ProfileEntry Json) : Prop :=
  match c with
  | RemoveRecord => grants_written e /\ isolation e = []
  | Regrant _ => grants_written e
  | _ => True
  end.

Lemma record_fields e :
  json_get "id" (entry_record e) = Some (JString (entry_id (id e))) /\
  json_get "package" (entry_record e) = Some (JString (package (plugin e))) /\
  json_get "version" (entry_record e) = Some (JString (version (plugin e))) /\
  json_get "hash" (entry_record e) = Some (JString (artifact_hash (plugin e))) /\
  json_get "grants" (entry_record e) = Some (default (JArray []) (json_get "grants" (config e))) /\
  json_get "config" (entry_record e) = Some (config e) /\
  json_get "disabled" (entry_record e) = Some (JBool (disabled e)) /\
  json_get "parent" (entry_record e) = Some (match parent e with Some p => JString (entry_id p) | None => JNull end).
Proof. by destruct e. Qed.

Lemma insert_same k v (fields : list (string * Json)) :
  key_sorted fields -> field_of k fields = Some v -> btree_insert k v fields = fields.
Proof.
  intros Hs Hk. apply fields_ext; [by apply insert_sorted|done|]. intros j.
  destruct (decide (j = k)) as [->|Hne]; [by rewrite field_insert_eq|by rewrite field_insert_ne].
Qed.

Lemma insert_back k v u (fields : list (string * Json)) :
  key_sorted fields -> field_of k fields = Some v -> btree_insert k v (btree_insert k u fields) = fields.
Proof.
  intros Hs Hk. apply fields_ext; [by do 2 apply insert_sorted|done|]. intros j.
  destruct (decide (j = k)) as [->|Hne]; [by rewrite field_insert_eq|by rewrite !field_insert_ne].
Qed.

Lemma grants_field e : grants_written e -> exists fields g, config e = JObject fields /\ key_sorted fields /\ field_of "grants" fields = Some g.
Proof.
  intros [Ho Hs Hg]. destruct (config e) as [| | | | |fields]; try done. cbn in *.
  destruct (field_of "grants" fields) as [g|] eqn:E; [|done]. by exists fields, g.
Qed.

(** The record of an entry, written and read again, is the entry. *)
Lemma record_round_trip e : grants_written e -> isolation e = [] -> decode_record (json_text (entry_record e)) = Ok e.
Proof.
  intros (fields & g & Hc & Hs & Hg)%grants_field Hiso. unfold decode_record. rewrite json_parse_text.
  destruct (record_fields e) as (Hid & Hpkg & Hver & Hhash & Hgr & Hcfg & Hdis & Hpar).
  unfold typed_record, record_config, string_field, record_parent, with_grants.
  rewrite Hid, Hpkg, Hver, Hhash, Hgr, Hcfg, Hdis, Hpar. cbn. rewrite Hc. cbn. rewrite Hg. cbn.
  rewrite insert_same by done. destruct e as [[x] [pkg ver hash] c off [[up]|] iso]; cbn in *; by subst.
Qed.

Lemma change_back {C} x (f g : ProfileEntry C -> ProfileEntry C) es es' (e e' : ProfileEntry C) :
  (forall a, id (f a) = id a) -> change_first x f es = Some (es', (e, e')) -> g (f e) = e ->
  change_first x g es' = Some (es, (f e, e)).
Proof.
  intros Hid. revert es'. induction es as [|a es IH]; intros es'; cbn; [done|]. case_decide as Hx.
  - intros [= <- <- <-] Hg. cbn. rewrite Hid, decide_True by done. by rewrite Hg.
  - destruct (change_first x f es) as [[es1 found]|] eqn:E; [|done]. cbn. intros [= <- ->] Hg. cbn. rewrite decide_False by done.
    by rewrite (IH es1).
Qed.

Lemma changed_back x (f g : ProfileEntry Json -> ProfileEntry Json) p p' :
  (forall a, id (f a) = id a) -> changed_profile p x f = Ok p' ->
  exists e, named_entry x p = Some e /\ named_entry x p' = Some (f e) /\ (g (f e) = e -> changed_profile p' x g = Ok p).
Proof.
  intros Hid. unfold changed_profile. destruct (change_first x f (entries p)) as [[es [e e']]|] eqn:E; [|done]. intros [= <-].
  destruct (change_first_named _ _ _ _ _ _ Hid E) as (Hb & -> & Ha & _). exists e. split_and!; [done|done|]. intros Hg. cbn.
  rewrite (change_back x f g _ _ _ _ Hid E Hg). by destruct p.
Qed.

Lemma decode_added operation payload r record :
  decode operation payload = Ok r -> change r = AddRecord record -> id record = write_entry r.
Proof. unfold decode. intros Hd Hr. repeat case_match; simplify_eq/=; done. Qed.

Lemma named_is x p e : named_entry x p = Some e -> id e = x /\ e ∈ entries p.
Proof.
  intros [Hin Hx]%List.find_some. split; [by apply bool_decide_eq_true in Hx|by apply list_elem_of_In].
Qed.

(** An entry added last is removed again. *)
Lemma add_then_remove p record :
  existsb (fun e => bool_decide (id e = id record)) (entries p) = false ->
  amended_profile (MkProfile (entries p ++ [record])) (RemoveEntry (id record)) = Ok p.
Proof.
  intros Hex. cbn. destruct p as [es]. cbn in *.
  assert (position (fun e => bool_decide (id e = id record)) (es ++ [record]) = Some (length es)) as ->.
  { induction es as [|e es IH]; cbn in *; [by rewrite bool_decide_eq_true_2|].
    apply orb_false_elim in Hex as [-> Hex]. by rewrite IH. }
  do 2 f_equal. induction es as [|e es IH]; [done|]. cbn in Hex. apply orb_false_elim in Hex as [_ Hex].
  cbn. f_equal. by apply IH.
Qed.

(** An entry that is removed can be added again, last. *)
Lemma remove_then_add p p' x e :
  NoDup (map id (entries p)) -> named_entry x p = Some e -> amended_profile p (RemoveEntry x) = Ok p' ->
  amended_profile p' (Add e) = Ok (MkProfile (entries p' ++ [e])) /\ entries p' ++ [e] ≡ₚ entries p.
Proof.
  unfold named_entry. destruct p as [es]. cbn. intros Hnd He Hr.
  destruct (position _ es) as [i|] eqn:Hi; [|done]. injection Hr as <-. cbn.
  assert (es !! i = Some e /\ id e = x) as [Hei Hex].
  { revert i Hi. clear Hnd. induction es as [|a es IH]; intros i Hi; [done|]. cbn in *.
    destruct (bool_decide (id a = x)) eqn:Ha; [injection Hi as <-; injection He as <-; split; [done|by apply bool_decide_eq_true in Ha]|].
    destruct (position _ es) as [j|]; [|done]. injection Hi as <-. by apply IH. }
  assert (delete i es ++ [e] ≡ₚ es) as Hp.
  { rewrite <-(delete_Permutation es i e Hei) at 2 || rewrite (delete_Permutation es i e Hei) at 2. by rewrite Permutation_app_comm. }
  split; [|done]. destruct (existsb _ (delete i es)) eqn:Hdup; [|done]. exfalso.
  apply List.existsb_exists in Hdup as (a & Ha%list_elem_of_In & Hid%bool_decide_eq_true).
  rewrite <-Hp, map_app in Hnd. apply NoDup_app in Hnd as (_ & Hno & _). apply (Hno (id a)).
  - apply list_elem_of_fmap. by exists a.
  - rewrite Hid. apply list_elem_of_here.
Qed.

(** Every write is undone by the write its row records. Applied to the
    document it left, the inverse read off the prior gives the document before
    it, entry by entry; a removal is undone up to the place of its entry, which
    comes back last. This asks that the record could carry the entry: a config
    that is an object with its grants written, where they are moved or the entry
    was removed, and no isolation, where it was removed. *)
Theorem a_prior_undoes_its_write operation payload p m (r : Write) prior p' :
  decode operation payload = Ok r -> NoDup (map id (entries p)) ->
  check loader legible p m r = Some (Ok prior) -> amended_profile p (administration (write_entry r) (change r) prior) = Ok p' ->
  (forall e, named_entry (write_entry r) p = Some e -> recorded_whole (change r) e) ->
  exists undo p'', undo_of r prior = Some undo /\
    amended_profile p' (administration (write_entry r) undo (entry_record <$> named_entry (write_entry r) p')) = Ok p'' /\
    match change r with RemoveRecord => entries p'' ≡ₚ entries p | _ => p'' = p end.
Proof.
  intros Hd Hnd Hc Ha Hrec. pose proof (fun record => decode_added operation payload r record Hd) as Hadd. unfold check in Hc. case_decide; [done|].
  set (x := write_entry r) in *. unfold undo_of.
  destruct (change r) as [record| |off|grants|plug] eqn:Hch; cbn [administration] in Ha.
  - destruct (check_add _ _ _ _) as [[]|]; [|done]. injection Hc as <-. exists RemoveRecord, p.
    cbn in Ha. destruct (existsb _ (entries p)) eqn:Hex; [done|]. injection Ha as <-. split_and!; [done| |done].
    rewrite <-(Hadd record eq_refl). by apply add_then_remove.
  - destruct (check_change _ _ _) as [[[]|]|]; [|done..]. destruct (named_entry x p) as [e|] eqn:He; [|done]. injection Hc as <-.
    destruct (Hrec e eq_refl) as [Hg Hiso]. rewrite record_round_trip by done. cbn [Grants.ok fmap option_fmap option_map].
    destruct (remove_then_add p p' x e Hnd He Ha) as [Hadd' Hperm].
    exists (AddRecord e), (MkProfile (entries p' ++ [e])). split_and!; [done|exact Hadd'|exact Hperm].
  - assert (exists f, amended_profile p (match off with true => DisableEntry x | false => EnableEntry x end) = changed_profile p x f /\
      f = with_disabled off) as (f & Hf & ->) by (destruct off; by eexists). rewrite Hf in Ha.
    destruct (changed_back x (with_disabled off) (with_disabled off) p p' ltac:(done) Ha) as (e & He & _ & _).
    destruct (changed_back x (with_disabled off) (with_disabled (disabled e)) p p' ltac:(done) Ha) as (e0 & He0 & _ & Hback).
    rewrite He in He0. injection He0 as <-. destruct (check_change _ _ _) as [[[]|]|]; [|done..]. rewrite He in Hc. injection Hc as <-.
    destruct (record_fields e) as (_ & _ & _ & _ & _ & _ & -> & _). exists (SetOff (disabled e)), p. split_and!; [done| |done].
    specialize (Hback ltac:(by destruct e)). by destruct (disabled e).
  - cbn in Ha. destruct (check_change _ _ _) as [[[]|]|]; [|done..]. destruct (named_entry x p) as [e|] eqn:He; [|done]. injection Hc as <-.
    destruct (grants_field e (Hrec e eq_refl)) as (fields & g & Hcf & Hs & Hg).
    destruct (record_fields e) as (_ & _ & _ & _ & Hgr & Hcfg & _). cbn [mbind option_bind] in Ha. rewrite Hcfg, Hcf in Ha. cbn in Ha.
    destruct (changed_back x (with_config (JObject (btree_insert "grants" grants fields))) (with_config (JObject fields)) p p' ltac:(done) Ha)
      as (e0 & He0 & He' & Hback).
    rewrite He in He0. injection He0 as <-. rewrite Hgr, Hcf. cbn [json_get]. rewrite Hg. cbn.
    exists (Regrant g), p. split_and!; [done| |done]. rewrite He'. cbn [fmap option_fmap option_map administration mbind option_bind].
    destruct (record_fields (with_config (JObject (btree_insert "grants" grants fields)) e)) as (_ & _ & _ & _ & _ & -> & _).
    cbn. rewrite insert_back by done. apply Hback. destruct e; cbn in *. by subst.
  - cbn in Ha. destruct (check_change _ _ _) as [[[]|]|]; [|done..]. destruct (named_entry x p) as [e|] eqn:He; [|done]. injection Hc as <-.
    destruct (changed_back x (with_plugin plug) (with_plugin (plugin e)) p p' ltac:(done) Ha) as (e0 & He0 & _ & Hback).
    rewrite He in He0. injection He0 as <-. destruct (record_fields e) as (_ & -> & -> & -> & _). cbn.
    exists (SwapTo (plugin e)), p. split_and!; [by destruct (plugin e)| |done]. apply Hback. by destruct e.
Qed.
End Undoing.

(** ** Examples *)

Module AdminExample.
Import SpillExample JsonExample ProfileExample.
Local Open Scope string_scope.

Definition no_lane : PackageLane File Empty_set Json () := MkPackageLane [] None (fun _ _ _ _ w => (Err (invalid "no artifact"), w)).
Definition files_loader : Loader File Empty_set Json () := MkLoader () (fun _ w => w) {["pkg" := no_lane]} (Some json_eqb).
Definition unread (_ : string) : option string := None.

(** A delegate under a group, over the whole document. *)
#[export] Instance administering : Operators := {|
  operator_fiber := fun peer => if decide (peer = 1%Z) then Some (MkFiberId 3) else None;
  operator_entry := fun peer => if decide (peer = 1%Z) then Some (MkEntryId "delegate") else None;
  operator_policy := fun peer contract =>
    if decide (peer = 1%Z /\ contract = PROFILE_ADMIN_CONTRACT) then Some (EntriesScope ["*"]) else None;
|}.

Definition under (up : string) (x : string) (c : Json) : ProfileEntry Json :=
  MkProfileEntry (MkEntryId x) (MkPluginRef "pkg" "1" "h") c true (Some (MkEntryId up)) [].

Definition isolated (x : string) (c : Json) : ProfileEntry Json :=
  MkProfileEntry (MkEntryId x) (MkPluginRef "pkg" "1" "h") c true None [MkIsolationBinding "svc" RealmRoot].

Definition composed : Profile Json :=
  MkProfile [entry "group" (JObject []); under "group" "delegate" (data "d" []); entry "server" (data "a" [FS_CONTRACT]);
    isolated "kept" (data "k" []); entry "plain" (JString "noop")].

Definition machine_of (p : Profile Json) : M :=
  MkMachine (MkState (Some p) (list_to_map (map runtime_of (entries p)))) no_slots (Some (MkPersistence (from_profile p) None)).

Abbreviation Out := (@Written File Empty_set () Json).

Definition writing (operation : string) (payload : Bytes) (m : M) : option Out :=
  write files_loader unread map_to_list false None 1%Z operation payload (Ok 9%Z) m (Some (from_profile composed)).

Definition outcome (o : option Out) : option (result Bytes KernelError * nat * option (list string)) :=
  (fun o : Out => (answer o, length (rows o), (fun p => map (fun e => entry_id (id e)) (entries p)) <$> committed (state (after_write o).1))) <$> o.

Definition regrants (x : string) (names : list string) : Bytes := put_text x ++ put_text (json_text (grants_of names)).

Definition left_config (x : string) (o : option Out) : option (option Json) :=
  (fun o : Out => config_of x (after_write o).1) <$> o.

Example a_delegate_regrants :
  let o := writing "set-grants" (regrants "server" [FS_CONTRACT; NET_CONTRACT]) (machine_of composed) in
  outcome o = Some (Ok (accepted_wire 9), 1, Some ["group"; "delegate"; "server"; "kept"; "plain"]) /\
  left_config "server" o = Some (Some (data "a" [FS_CONTRACT; NET_CONTRACT])).
Proof. split; by vm_compute. Qed.

Definition same_entries : option (list string) := Some ["group"; "delegate"; "server"; "kept"; "plain"].

(** Neither itself nor the group it is under. *)
Example a_delegate_stays_below :
  outcome (writing "set-grants" (regrants "delegate" [NET_CONTRACT]) (machine_of composed)) =
    Some (Ok (refused_wire_class Unauthorized (reason own_or_ancestor)), 1, same_entries) /\
  outcome (writing "remove-entry" (put_text "group") (machine_of composed)) =
    Some (Ok (refused_wire_class Unauthorized (reason own_or_ancestor)), 1, same_entries).
Proof. split; by vm_compute. Qed.

Example a_removal_lands :
  outcome (writing "remove-entry" (put_text "server") (machine_of composed)) =
    Some (Ok (accepted_wire 9), 1, Some ["group"; "delegate"; "kept"; "plain"]).
Proof. by vm_compute. Qed.

(** An operator may write a config that is no object; setting its grants
    indexes it, and panics. *)
Example regranting_a_plain_config_panics :
  writing "set-grants" (regrants "plain" [FS_CONTRACT]) (machine_of composed) = None.
Proof. by vm_compute. Qed.

(** What the row of a write carries, and the document after its inverse. *)
Definition undone (r : Write) (p : Profile Json) : option (Profile Json) :=
  match check files_loader unread p (machine_of p) r with
  | Some (Ok prior) =>
      match amended_profile p (administration (write_entry r) (change r) prior), undo_of r prior with
      | Ok p', Some undo =>
          Grants.ok (amended_profile p' (administration (write_entry r) undo (entry_record <$> named_entry (write_entry r) p')))
      | _, _ => None
      end
  | _ => None
  end.

Definition removal (x : string) : Write := MkWrite (MkEntryId x) WriteRemove RemoveRecord.
Definition regrant (x : string) (names : list string) : Write := MkWrite (MkEntryId x) SetGrants (Regrant (grants_of names)).

(** The record of an entry has no isolation: removed and added again by its
    prior, the entry is in the realm of its parent. *)
Example an_undone_removal_loses_isolation :
  (p ← undone (removal "kept") composed; isolation <$> named_entry (MkEntryId "kept") p) = Some [] /\
  (isolation <$> named_entry (MkEntryId "kept") composed) = Some [MkIsolationBinding "svc" RealmRoot].
Proof. split; by vm_compute. Qed.

(** A config without grants has an empty list of them after the inverse. *)
Example an_undone_regrant_writes_grants :
  (p ← undone (regrant "group" [FS_CONTRACT]) composed; config <$> named_entry (MkEntryId "group") p) =
    Some (JObject [("grants", JArray [])]) /\
  (config <$> named_entry (MkEntryId "group") composed) = Some (JObject []).
Proof. split; by vm_compute. Qed.

Definition regranting : option Out := writing "set-grants" (regrants "server" [FS_CONTRACT; NET_CONTRACT]) (machine_of composed).


Lemma a_prior_undoes_its_write_witness :
  exists undo p'', undo_of (removal "server") (entry_record <$> named_entry (MkEntryId "server") composed) = Some undo /\
    entries p'' ≡ₚ entries composed.
Proof.
  destruct (amended_profile composed (RemoveEntry (MkEntryId "server"))) as [p'|] eqn:Hp; [|by vm_compute in Hp].
  destruct (a_prior_undoes_its_write files_loader unread "remove-entry" (put_text "server") composed (machine_of composed)
    (removal "server") (entry_record <$> named_entry (MkEntryId "server") composed) p') as (undo & p'' & Hu & _ & Hperm).
  - by vm_compute.
  - apply (bool_decide_unpack _). by vm_compute.
  - by vm_compute.
  - exact Hp.
  - intros e He. vm_compute in He. injection He as <-. split; [|done]. split; [done| |by vm_compute].
    repeat constructor.
  - exists undo, p''. split; [exact Hu|exact Hperm].
Defined.
End AdminExample.
